(* ===== verification/_CoqProject ===== *)
-Q . S2P
Prelude.v
Binary.v
GoText.v
Strconv.v
Listpack.v
Intset.v
Dict.v
SimpleDict.v
RedisDict.v
QuickList.v
ObjString.v
ObjList.v
ObjSet.v
Pairs.v
ObjHash.v
Float64.v
Border.v
SkipList.v
SkipListRep.v
SkipListOps.v
SkipListSpec.v
SortedSet.v
SortedSetSpec.v
SortedSetThm.v
ObjZSet.v
ObjZSetSpec.v
ObjZSetThm.v
Resp.v
ReqParser.v
Runtime.v
EventLoop.v
EventLoopThm.v
EventLoopBlock.v
EventLoopEx.v
Epoll.v
RespParser.v
RespParserThm.v
Lock.v
ConcurrentDict.v
Stream.v
StreamThm.v
StreamGroup.v
GoTime.v
TimeWheel.v
KeySpace.v
Bitmap.v
StringCmd.v
KeyCmd.v
Tx.v
KeySpaceThm.v
TxThm.v
TxRuns.v
TxAtomic.v
TxMulti.v
TxWatch.v
TxEx.v
ObjCmd.v
ListCmd.v
ObjCmdThm.v
ListThm.v
SetCmd.v
SetThm.v
HashCmd.v
HashThm.v
Evict.v
ZSetCmd.v
ZSetThm.v
BitCmd.v
BitThm.v
Hll.v
HllThm.v
StreamCmd.v
StreamGroupCmd.v
StreamCmdThm.v
Acl.v
AclThm.v
PubSub.v
PubSubThm.v
Rdb.v
RdbThm.v
