(* ===== verification/Prelude.v ===== *)
(** * hayakv: a verification of the data structures, the protocol, the commands and transactions

    hayakv is a Redis-compatible server written in Go.  A network front end
    (here the event loop) reads commands, an engine executes them, and the
    replies are encoded and written back; every value is an object in one of
    several encodings, a compact one while the value is small and a general
    data structure after that.  This development models the object core, the
    encodings and the data structures under them, the protocol, the event loop,
    the key space with its expiry and eviction, the commands over strings, keys,
    lists, sets, hashes, sorted sets, streams, bit fields and HyperLogLogs,
    transactions and the locks under which commands run, access control,
    publish/subscribe and the codec of dumps, and proves what each relies on from
    the other.

    ** Parts and files

    - [Prelude.v]: Go values (byte strings, interface values, int64 with its
      wrap-around), outcomes ([Ret], [Panic], [OutOfFuel]) with their monad,
      string order and [sort.Strings], tactics and hint databases.
    - [GoText.v]: the decimal codec of [internal/object/listpack.go]
      ([parseInt64], [formatInt64], [isInt]).
    - [Listpack.v], [Intset.v]: [internal/object/listpack.go] and [intset.go].
      A listpack is its bytes, with the varint codec of [encoding/binary].
    - [Dict.v]: the interface of [internal/datastruct/dict/dict.go] as a class of
      operations and a class of laws; [SimpleDict.v] ([simple.go]) and
      [RedisDict.v] ([redisdict.go]: two tables, incremental rehash, cursor
      scan) are its instances, and the objects are proved against the laws.
      [ConcurrentDict.v] ([concurrent.go]: shards under locks) has the operations
      of the interface; its counter is an [int32], so that it agrees with
      [SimpleDict.v] up to 2^31 entries.  Its second part runs goroutines.
    - [QuickList.v]: [internal/datastruct/list/quicklist.go], pages with lengths
      and capacities, and the iterator.
    - [ObjString.v]: [object.go], [shared.go], [thresholds.go].  [ObjList.v],
      [ObjSet.v], [ObjHash.v], [ObjZSet.v]: the types [List], [Set], [Hash] and
      [ZSet] of [internal/object/encoding.go] (with [hash.go] and [hashex.go]);
      [Pairs.v] has the loops over listpacks of pairs that [Hash] and [ZSet]
      repeat.
    - [Float64.v]: the order of float64 bit patterns and of sorted-set elements.
      [Border.v]: [internal/datastruct/sortedset/border.go].  [SkipList.v]:
      [skiplist.go], nodes and level objects in a heap; [SkipListRep.v],
      [SkipListOps.v], [SkipListSpec.v]: its representation, insertion and
      deletion, searches.  [SortedSet.v] ([sortedset.go]), [SortedSetSpec.v],
      [SortedSetThm.v]: the map beside the skiplist.  [ObjZSetSpec.v],
      [ObjZSetThm.v]: the object over both encodings.
    - [Strconv.v]: decimal [strconv].  [Resp.v]: the replies and encoders of
      [internal/proto/resp2/protocol] and [internal/proto/resp3].
      [RespParser.v], [RespParserThm.v]: [internal/proto/resp2/parser], both
      parsers.
    - [ReqParser.v]: [internal/net/eventloop/reqparser.go].  [EventLoop.v]:
      [server.go], [client.go], [block.go], [bufconn.go] of the same package,
      with arrays in a memory, clients in a heap, the storage engine and the
      poller as classes and the answers of the kernel as inputs.
      [EventLoopThm.v] (reading, executing, writing), [EventLoopBlock.v]
      (waiting clients), [EventLoopEx.v] (concrete runs); [Epoll.v]:
      [poller_linux.go].
    - [Lock.v]: [internal/datastruct/lock/lock_map.go], with goroutines that
      interleave.  [Stream.v], [StreamThm.v], [StreamGroup.v]:
      [internal/datastruct/stream], streams and consumer groups.
    - [Runtime.v]: byte slices over a memory of arrays and what the Go library
      provides.  [GoTime.v]: durations, times and float64 arithmetic.
      [TimeWheel.v]: [internal/lib/timewheel].
    - [KeySpace.v]: the state of a database in [internal/command/database.go],
      with the access data of [evict.go], and the monad in which commands run.
      [Bitmap.v]: [internal/datastruct/bitmap].  [StringCmd.v]: [string.go].
      [KeyCmd.v]: [keys.go], the keys and undo logs of [tx_utils.go].  [Tx.v]: the command table ([router.go], the [init]
      functions), [transaction.go], [keyspace.go] and the execution of commands.
    - [KeySpaceThm.v]: which keys a command changes.  [TxThm.v]: what the
      primitives do.  [TxRuns.v]: commands return.  [TxAtomic.v]: undo logs
      undo.  [TxMulti.v], [TxWatch.v]: EXEC and WATCH.  [TxEx.v]: concrete
      sessions.
    - [ObjCmd.v]: what the commands over one object type share, the rows they
      add to the command table and how the object of a key is read and written
      back.  [ListCmd.v]: [list.go]; [SetCmd.v]: [set.go]; [HashCmd.v]:
      [hash.go] and [hash_ttl.go], with their undo logs from [tx_utils.go].
      [ObjCmdThm.v]: what it means that a command line gives a reply and leaves
      a key space, and runs of commands with their times; [ListThm.v], [SetThm.v], [HashThm.v]: the three families
      against lists, sets and maps of deadlines, and what they do beside.
    - [ZSetCmd.v]: [sortedset.go]; [ZSetThm.v]: sorted-set commands against
      ordered lists.  [StreamCmd.v]: [stream.go]; [StreamGroupCmd.v]:
      [stream_group.go]; [StreamCmdThm.v]: both against logs with groups.
    - [BitCmd.v]: [bitfield.go] and [bitop.go], with the pool of shared integers;
      [BitThm.v]: fields, bit operations and the bit counts of [string.go].
      [Hll.v]: [internal/datastruct/hll] and [internal/command/hll.go];
      [HllThm.v]: its registers.
    - [Evict.v]: [evict.go], [expire_cycle.go] and the sizes of [memory.go].
    - [Acl.v]: [internal/acl], [acl_cmd.go], the wildcard patterns, AUTH, HELLO
      and the check of [Server.Exec] before a command; [AclThm.v].  [PubSub.v]:
      [internal/pubsub]; [PubSubThm.v].
    - [Binary.v]: fixed-width integers.  [Rdb.v]: [internal/persist/rdb], encoder
      and decoder; [RdbThm.v]: the round trip.

    Each Go struct is a [Record] or [Inductive] of the same name (with an
    underscore where Rocq has the name already), each method a definition of
    the method's name; state is passed explicitly, and a method that may panic
    returns a [res].  Where several types have a method of one name, the file
    tells them apart ([ObjSet.Add], [SortedSet.Add]).

    ** What is proved

    - Refinement: a RedisDict behaves as a finite map through growth and
      rehashing; a quicklist and a list object as a list; a set object as a
      set; a hash object as a map with field deadlines; a sorted set and a
      sorted-set object as one list ordered by score and member; an intset as a
      set of integers.  Each is stated over arbitrary sequences of operations
      from the empty object, with all replies, across every conversion between
      encodings, for arbitrary thresholds.
    - Invariants: the skiplist's pointers, spans, backward links and tail; the
      limits of the compact encodings; sortedness of intsets.
    - Termination and enumeration: rehashing finishes, and scans return every
      element exactly once while nothing is modified.
    - Round trips, bounds and functional facts of the codecs; encoded replies
      are read back, and the three request parsers agree.
    - The event loop serves a stream of commands in order and writes the
      replies in order, for reads that do not end inside a command after a
      complete one, with an engine that keeps no slice of its arguments, without
      commands that block and without failing writes; a scan of the waiting
      clients takes those whose deadline has passed out of the registry and
      sends them the null reply, and touches no other.
    - Commands that lock their keys through the lock map never deadlock, always
      finish and exclude each other on write keys; the accesses of such commands
      to a sharded dict may interleave, and the results are those of one command
      after another.
    - A stream stays ordered; a consumer group whose position is not set by hand
      delivers every entry once, and its pending lists agree.
    - A job of the time wheel is started once, at its tick, when the scans of the
      ticks, which are goroutines, are prompt and no job is added for a key whose
      removal is still to come.
    - Transactions of the commands whose undo logs are complete, on keys that
      hold strings, are all or nothing, and WATCH is an optimistic lock for
      commands that announce the keys they write, on a server that does not
      evict.  Both rest on a contract ([tame], [declares]) that every
      such command of the table is proved to fulfil: which keys it changes, that
      it changes nothing when it fails, that it returns.
    - The handlers of the list, set, hash, sorted-set and stream commands are the
      operations of a finite map from keys to lists, sets, maps, ordered lists or
      logs: each reply and the key space after it, wrong types and missing keys
      included, over every encoding and conversion, for arbitrary sequences of
      commands with well-formed arguments, while time passes: before each command
      the keys whose deadline has passed are gone.  The forms of the commands and
      the values left out (sets and hashes that were read from a dump) are named
      at each theorem.
    - A bitmap is a sequence of independent bits, and both modes of BITCOUNT
      count them; a bit field is an integer of its type, and increments wrap,
      saturate or fail at its ends; BITOP computes each bit.  Merging two dense
      HyperLogLogs takes the greater of each two registers.
    - Eviction meets the limit by an exact account, removes only what the policy
      allows, nothing under noeviction and nothing once the size fits, and picks
      the best key of a sample; active expiry removes overdue
      keys only, and all of them within its bounds.
    - The registry of users stays well formed whatever connections send, and the
      rules by which a user is described make the same user.  A published message
      reaches each subscriber once, shard channels having names of their own.
    - A dump is read back as it was written, and the decoder ends on any bytes,
      without a panic unless a length of the file is too large for [make].
    - Behaviour that differs from what the callers or the comments expect, each
      as a theorem: a scan that misses a key across a rehash, negative cursors,
      deadlines that outlive a deleted field, the printing of the least int64,
      ranges by score up to +inf, offsets that leave a range, PopMin with a
      count of zero, counting in an empty set, the rank of the empty member;
      arguments overwritten in the query buffer, waiting clients that are
      closed or wait twice, requests that panic, the epoll registration;
      commands that a transaction does not undo, replies that show later writes,
      renamed keys that WATCH misses, writes between the check of the watched keys
      and the locks, writes to expired keys that are lost ([TxEx.v]); keys that stay with an empty object, writes to loaded sets and
      hashes, deadlines of hash fields, counts that panic ([ListThm.v],
      [SetThm.v], [HashThm.v]); scores that are no numbers ([ZSetThm.v]); groups
      that are not logged or restored ([StreamCmdThm.v]); shared integers that a
      bit field rewrites ([BitThm.v]); registers on the header ([HllThm.v]); keys
      that a traversal loses, commands that lock too few keys
      ([ConcurrentDict.v]); the empty key that stops eviction ([Evict.v]); users
      that promote themselves, patterns that are not checked ([AclThm.v]);
      connections that stay subscribed ([PubSubThm.v]); lengths that make the
      decoder panic ([RdbThm.v]).

    ** Bounds and fuel

    Loops whose recursion is not structural take fuel; the specifications show
    that [OutOfFuel] does not occur, so that the fuel in the definitions (the
    number of nodes, of entries or of buckets, plus one) is enough.  Strings in
    listpacks are shorter than 2^62 bytes ([small]) and dicts hold fewer than
    2^60 entries, far beyond any memory; under these bounds the int64 counters
    do not wrap; a set that commands work on has fewer than 2^32 members.
    Preconditions that the Go code leaves to its callers (an index
    within a list, a rank within a set) are the [legal] predicates of the
    refinement theorems, and where the callers do not check them the outcome is
    a theorem of its own.

    ** Time and interleaving

    A command, an EXEC included, runs at one time: all the readings of the clock
    that it makes agree ([at_time] of [KeySpaceThm.v]).  Real readings of one
    command may differ by the time it takes; a deadline that falls within that
    time is not covered.  Between commands time passes: the runs of [ObjCmdThm.v]
    and the traffic of [TxWatch.v] are commands with times.  The loops of
    expiry in [Evict.v] take any clock.  Goroutines interleave in [Lock.v], in
    the second part of [ConcurrentDict.v], and in [TimeWheel.v], where the scan
    of a tick and the removal of the keys it started are events of their own.
    EXEC is split at the point where the code takes its locks
    ([exec_multi_checked]); the theorems take both parts together, and [TxEx.v]
    shows what comes in between.  Everything else is atomic: the mutexes of the
    other structures are held from the start to the end of an operation, with
    two exceptions, each a finding: the log of failed logins ([AclThm.v]) and the
    subscribers of a pattern ([PubSubThm.v]).

    ** Parameters

    Code outside the repository is an argument: the growth policy of [append],
    the limits of [make], the order in which a Go map is traversed, the compiled
    wildcard matcher, the random numbers of new skiplist nodes, Unicode case
    mapping, [epoll_ctl] (of which is assumed that it refuses to add a
    descriptor twice), and [strconv]'s float printer and parser, of which only
    is assumed that the shortest decimal of a number reads back as that number
    (a concrete codec shows that this can hold).  For the commands also: the
    readings of the clock, the random draws of the access counters, the
    digest of a value, the eviction of keys under a memory limit, the orders in
    which the members of sets and hashes are traversed, the seeds of random
    choices and the pattern compiler; and in the later files the choices of the
    runtime for sorted sets and groups ([ZChoices], [SChoices]), the samples that
    eviction and expiry draw ([EvictEnv], of which [SampleLaws] says what the
    dicts guarantee), the estimator of a HyperLogLog ([Estimator]), the hash of
    passwords, regular expressions and random bytes ([AclLib], with [AclLaws]),
    the traversal of the hub ([Orders], with [OrderLaws]), and for dumps the
    checksum, the printer of scores and the greatest slice that can be made.

    ** Not modelled

    The goroutine-per-connection server, the clients and the system calls:
    sockets and wiring.  The append-only file, its rewriting and the snapshots:
    file I/O around the lines that commands log and the codec of dumps, which are
    modelled.  Replication, the cluster protocol and its consensus: network
    protocols between processes, partly by a third-party library.  Scripting: a
    third-party interpreter.  Geo commands: floating-point geometry and a
    third-party geohash.  INFO, CONFIG, CLIENT, DEBUG, logging and configuration:
    text about the process.  The floating-point estimator of HyperLogLogs and
    PFSELFTEST, COPY and SCAN of keys. *)

From stdpp Require Import base gmap sets list strings sorting.
From Stdlib Require Import ZArith Lia Ascii.

#[export] Set Default Goal Selector "!".

(** ** Go values *)

(** Go's [string] and [[]byte]: a finite sequence of bytes.  [list ascii] has
    exactly the values of both; the aliasing of [[]byte] is modelled where a
    property depends on it. *)
Abbreviation bytes := (list ascii).

(** A byte-string literal. *)
Definition str (s : string) : bytes := String.list_ascii_of_string s.

(** The unsigned value of a byte, and the conversion [byte(x)] of an integer,
    which keeps the low eight bits. *)
Definition byteZ (a : ascii) : Z := Z.of_N (N_of_ascii a).
Definition Zbyte (z : Z) : ascii := ascii_of_N (Z.to_N (z mod 256)).

(** An [interface{}] that holds what this code puts into one: nothing, a
    string, a byte slice or an [int64]. *)
Inductive value :=
| VNil
| VStr (s : bytes)
| VBytes (b : bytes)
| VInt (n : Z).

#[export] Instance value_eq_dec : EqDecision value.
Proof. solve_decision. Defined.

(** ** Machine integers *)

Definition max_i64 : Z := 9223372036854775807.
Definition min_i64 : Z := -9223372036854775808.

(** Two's-complement wrap-around of [int64] (and [int] on a 64-bit target) and
    of [uint64]. *)
Definition wrap64 (z : Z) : Z := (z + 2 ^ 63) mod 2 ^ 64 - 2 ^ 63.
Definition u64 (z : Z) : Z := z mod 2 ^ 64.
Definition u32 (z : Z) : Z := z mod 2 ^ 32.

(** The range of [int64]. *)
Definition i64 (z : Z) : Prop := (min_i64 <= z <= max_i64)%Z.

(** ** Outcomes of Go code

    [Ret] is a normal return, [Panic] a run-time panic (index out of range,
    nil dereference, explicit [panic]), and [OutOfFuel] marks a loop whose
    fuel was too small; the theorems show that it does not occur. *)
Inductive res (A : Type) :=
| Ret (a : A)
| Panic
| OutOfFuel.
Arguments Ret {A} a.
Arguments Panic {A}.
Arguments OutOfFuel {A}.

#[export] Instance res_ret : MRet res := λ A a, Ret a.
#[export] Instance res_bind : MBind res := λ A B f m,
  match m with Ret a => f a | Panic => Panic | OutOfFuel => OutOfFuel end.
#[export] Instance res_fmap : FMap res := λ A B f m,
  match m with Ret a => Ret (f a) | Panic => Panic | OutOfFuel => OutOfFuel end.

(** Reading a slice element or following a pointer that must exist. *)
Definition must {A} (o : option A) : res A :=
  match o with Some a => Ret a | None => Panic end.

(** A loop over a list of indices that may panic. *)
Fixpoint foldM {A B} (f : A → B → res A) (l : list B) (a : A) : res A :=
  match l with
  | [] => Ret a
  | b :: l' => a' ← f a b; foldM f l' a'
  end.

(** ** Byte-string order: Go compares strings bytewise and lexicographically. *)
Fixpoint bytes_ltb (a b : bytes) : bool :=
  match a, b with
  | _, [] => false
  | [], _ :: _ => true
  | x :: a', y :: b' =>
      (byteZ x <? byteZ y)%Z || ((byteZ x =? byteZ y)%Z && bytes_ltb a' b')
  end.

Definition bytes_eqb (a b : bytes) : bool := bool_decide (a = b).
Definition bytes_leb (a b : bytes) : bool := negb (bytes_ltb b a).

(** ** Tactics and hint databases *)

Create HintDb hayakv.
Create Rewrite HintDb hayakv_rw.

(** Break a goal about booleans of comparisons into linear arithmetic. *)
Ltac zbool :=
  repeat match goal with
  | H : (_ && _)%bool = true |- _ => apply andb_true_iff in H as [? ?]
  | H : (_ || _)%bool = false |- _ => apply orb_false_iff in H as [? ?]
  | H : (_ <? _)%Z = true |- _ => apply Z.ltb_lt in H
  | H : (_ <? _)%Z = false |- _ => apply Z.ltb_ge in H
  | H : (_ <=? _)%Z = true |- _ => apply Z.leb_le in H
  | H : (_ <=? _)%Z = false |- _ => apply Z.leb_gt in H
  | H : (_ =? _)%Z = true |- _ => apply Z.eqb_eq in H
  | H : (_ =? _)%Z = false |- _ => apply Z.eqb_neq in H
  end.

(** [zcase] splits on the first integer comparison that the goal branches on. *)
Ltac zcase :=
  match goal with
  | |- context [(?a <? ?b)%Z] => destruct (Z.ltb_spec a b)
  | |- context [(?a <=? ?b)%Z] => destruct (Z.leb_spec a b)
  | |- context [(?a =? ?b)%Z] => destruct (Z.eqb_spec a b)
  end.

(** Invert an equation between two [Ret]s or discharge it by discrimination. *)
Ltac inv_ret :=
  repeat match goal with
  | H : Ret _ = Ret _ |- _ => injection H as H; subst
  | H : Ret _ = Panic |- _ => discriminate H
  | H : Panic = Ret _ |- _ => discriminate H
  | H : OutOfFuel = Ret _ |- _ => discriminate H
  end.

(** ** Bytes *)

Lemma byteZ_range a : (0 <= byteZ a < 256)%Z.
Proof. unfold byteZ. pose proof (N_ascii_bounded a). lia. Qed.

Lemma byteZ_Zbyte z : byteZ (Zbyte z) = (z mod 256)%Z.
Proof.
  unfold byteZ, Zbyte. pose proof (Z.mod_pos_bound z 256).
  rewrite N_ascii_embedding; lia.
Qed.

Lemma Zbyte_byteZ a : Zbyte (byteZ a) = a.
Proof.
  unfold Zbyte. rewrite Z.mod_small by apply byteZ_range.
  unfold byteZ. rewrite N2Z.id. apply ascii_N_embedding.
Qed.

#[export] Instance byteZ_inj : Inj (=) (=) byteZ.
Proof. intros a b H. rewrite <- (Zbyte_byteZ a), <- (Zbyte_byteZ b). by rewrite H. Qed.

(** ** Machine integers *)

Lemma wrap64_id z : i64 z → wrap64 z = z.
Proof.
  unfold i64, min_i64, max_i64, wrap64. intros H.
  rewrite Z.mod_small; lia.
Qed.

Lemma wrap64_range z : i64 (wrap64 z).
Proof.
  unfold i64, min_i64, max_i64, wrap64.
  pose proof (Z.mod_pos_bound (z + 2 ^ 63) (2 ^ 64)). lia.
Qed.

Lemma u64_id z : (0 <= z < 2 ^ 64)%Z → u64 z = z.
Proof. intros H. apply Z.mod_small. lia. Qed.

Lemma u64_range z : (0 <= u64 z < 2 ^ 64)%Z.
Proof. apply Z.mod_pos_bound. lia. Qed.

#[export] Hint Resolve byteZ_range wrap64_range u64_range : hayakv.

(** ** The byte-string order is a strict total order *)

Lemma bytes_ltb_irrefl a : bytes_ltb a a = false.
Proof. induction a as [|x a IH]; simpl; [done|]. rewrite IH, Z.ltb_irrefl. by rewrite andb_false_r. Qed.

Lemma bytes_ltb_trans a b c :
  bytes_ltb a b = true → bytes_ltb b c = true → bytes_ltb a c = true.
Proof.
  revert b c. induction a as [|x a IH]; intros [|y b] [|z c]; simpl; try done.
  intros [?|[? ?]%andb_true_iff]%orb_true_iff [?|[? ?]%andb_true_iff]%orb_true_iff;
    zbool; apply orb_true_iff;
    (left; apply Z.ltb_lt; lia) ||
    (right; apply andb_true_iff; split; [apply Z.eqb_eq; lia | eauto]).
Qed.

Lemma bytes_ltb_total a b :
  bytes_ltb a b = false → bytes_ltb b a = false → a = b.
Proof.
  revert b. induction a as [|x a IH]; intros [|y b]; simpl; try done.
  intros [? [?|?]%andb_false_iff]%orb_false_iff [? [?|?]%andb_false_iff]%orb_false_iff;
    zbool; try lia.
  f_equal; [apply (inj byteZ); lia | eauto].
Qed.

Lemma bytes_ltb_asym a b : bytes_ltb a b = true → bytes_ltb b a = false.
Proof.
  intros H. destruct (bytes_ltb b a) eqn:E; [|done].
  pose proof (bytes_ltb_trans _ _ _ H E) as H'. by rewrite bytes_ltb_irrefl in H'.
Qed.

Lemma bytes_eqb_eq a b : bytes_eqb a b = true ↔ a = b.
Proof. apply bool_decide_eq_true. Qed.

Lemma bytes_eqb_refl a : bytes_eqb a a = true.
Proof. by apply bytes_eqb_eq. Qed.

Lemma bytes_eqb_ne a b : bytes_eqb a b = false ↔ a ≠ b.
Proof. apply bool_decide_eq_false. Qed.

#[export] Hint Resolve bytes_ltb_irrefl bytes_ltb_asym bytes_eqb_refl : hayakv.
#[export] Hint Rewrite bytes_ltb_irrefl bytes_eqb_refl : hayakv_rw.

(** ** [sort.Strings] *)

Definition bytes_le (a b : bytes) : Prop := bytes_leb a b = true.

#[export] Instance bytes_le_dec a b : Decision (bytes_le a b).
Proof. unfold bytes_le. apply _. Defined.

#[export] Instance bytes_le_total : Total bytes_le.
Proof.
  intros a b. unfold bytes_le, bytes_leb. destruct (bytes_ltb b a) eqn:E; [|by left].
  right. by rewrite (bytes_ltb_asym _ _ E).
Qed.

#[export] Instance bytes_le_trans : Transitive bytes_le.
Proof.
  intros a b c. unfold bytes_le, bytes_leb. rewrite !negb_true_iff. intros Hba Hcb.
  destruct (bytes_ltb c a) eqn:Hca; [|done]. destruct (bytes_ltb a b) eqn:Hab.
  - by rewrite (bytes_ltb_trans _ _ _ Hca Hab) in Hcb.
  - rewrite (bytes_ltb_total _ _ Hab Hba) in Hca. congruence.
Qed.

#[export] Instance bytes_le_antisymm : AntiSymm (=) bytes_le.
Proof. intros a b. unfold bytes_le, bytes_leb. rewrite !negb_true_iff. intros. by apply bytes_ltb_total. Qed.

Definition sort_Strings (l : list bytes) : list bytes := merge_sort bytes_le l.

Lemma sort_Strings_perm l : sort_Strings l ≡ₚ l.
Proof. apply merge_sort_Permutation. Qed.

Lemma sort_Strings_sorted l : StronglySorted bytes_le (sort_Strings l).
Proof. apply (StronglySorted_merge_sort bytes_le). Qed.

(** Sorting forgets the order of its input. *)
Lemma sort_Strings_unique l1 l2 : l1 ≡ₚ l2 → sort_Strings l1 = sort_Strings l2.
Proof.
  intros H. apply (StronglySorted_unique bytes_le); [apply sort_Strings_sorted..|].
  by rewrite !sort_Strings_perm.
Qed.

(** ** Filters that keep everything or nothing *)

Lemma filter_all {A} (Q : A → Prop) `{!∀ a, Decision (Q a)} (l : list A) : (∀ a, a ∈ l → Q a) → filter Q l = l.
Proof.
  induction l as [|a l IH]; intros Hl; [done|]. rewrite filter_cons, decide_True by (apply Hl; left).
  f_equal. apply IH. intros b Hb. apply Hl. by right.
Qed.

Lemma filter_none {A} (Q : A → Prop) `{!∀ a, Decision (Q a)} (l : list A) : (∀ a, a ∈ l → ¬ Q a) → filter Q l = [].
Proof. intros Hn. apply elem_of_nil_inv. intros a [Ha Hl]%list_elem_of_filter. by apply (Hn a). Qed.
