(* ===== verification/Binary.v ===== *)
(** * Fixed-width integers in bytes: [encoding/binary]

    The little-endian and big-endian forms, and the two's complement of a width. *)

From stdpp Require Import base list.
From Stdlib Require Import ZArith Lia Ascii.
From S2P Require Import Prelude.

Local Open Scope Z_scope.

(** [LittleEndian.PutUint16], [PutUint32] and [PutUint64], for 2, 4 and 8 bytes,
    and their inverses. *)
Fixpoint le_bytes (n : nat) (s : Z) : bytes :=
  match n with O => [] | S n' => Zbyte s :: le_bytes n' (s / 256) end.

Fixpoint of_le (b : bytes) : Z :=
  match b with [] => 0 | c :: b' => byteZ c + 256 * of_le b' end.

Definition be_bytes (n : nat) (s : Z) : bytes := reverse (le_bytes n s).
Definition of_be (b : bytes) : Z := of_le (reverse b).

(** The conversion of an unsigned integer of [n] bytes to a signed one. *)
Definition signed (n : nat) (u : Z) : Z := if u <? 2 ^ (8 * Z.of_nat n - 1) then u else u - 2 ^ (8 * Z.of_nat n).

Lemma length_le n s : length (le_bytes n s) = n.
Proof. revert s. induction n as [|n IH]; intros s; cbn; [done|]. by rewrite IH. Qed.
Lemma length_be n s : length (be_bytes n s) = n.
Proof. unfold be_bytes. by rewrite length_reverse, length_le. Qed.

Lemma of_le_bytes n s : 0 <= s < 256 ^ Z.of_nat n → of_le (le_bytes n s) = s.
Proof.
  revert s. induction n as [|n IH]; intros s Hs; cbn [le_bytes of_le].
  { change (256 ^ Z.of_nat 0) with 1 in Hs. lia. }
  rewrite Nat2Z.inj_succ, Z.pow_succ_r in Hs by lia. rewrite byteZ_Zbyte, IH.
  - pose proof (Z.div_mod s 256). lia.
  - split; [apply Z.div_pos; lia|]. apply Z.div_lt_upper_bound; lia.
Qed.
Lemma of_be_bytes n s : 0 <= s < 256 ^ Z.of_nat n → of_be (be_bytes n s) = s.
Proof. intros Hs. unfold of_be, be_bytes. rewrite reverse_involutive. by apply of_le_bytes. Qed.

Lemma of_le_range b : 0 <= of_le b < 256 ^ Z.of_nat (length b).
Proof.
  induction b as [|c b IH]; cbn [of_le length]; [done|]. rewrite Nat2Z.inj_succ, Z.pow_succ_r by lia. pose proof (byteZ_range c). lia.
Qed.

(** The bytes do not depend on multiples of the modulus: a signed integer comes
    back from its bytes. *)
Lemma le_bytes_mod n s k : le_bytes n (s + k * 256 ^ Z.of_nat n) = le_bytes n s.
Proof.
  revert s k. induction n as [|n IH]; intros s k; [done|]. cbn [le_bytes]. rewrite Nat2Z.inj_succ, Z.pow_succ_r by lia.
  replace (s + k * (256 * 256 ^ Z.of_nat n)) with (s + (k * 256 ^ Z.of_nat n) * 256) by lia. f_equal.
  - unfold Zbyte. by rewrite Z_mod_plus_full.
  - by rewrite Z.div_add, IH by lia.
Qed.
Lemma signed_le n v : (0 < n)%nat → - 2 ^ (8 * Z.of_nat n - 1) <= v < 2 ^ (8 * Z.of_nat n - 1) → signed n (of_le (le_bytes n v)) = v.
Proof.
  intros Hn Hv. assert (E : 256 ^ Z.of_nat n = 2 ^ (8 * Z.of_nat n)) by (change 256 with (2 ^ 8); by rewrite <- Z.pow_mul_r by lia).
  assert (E2 : 2 ^ (8 * Z.of_nat n) = 2 * 2 ^ (8 * Z.of_nat n - 1)) by (rewrite <- Z.pow_succ_r by lia; f_equal; lia).
  unfold signed. destruct (decide (0 <= v)).
  - rewrite of_le_bytes by lia. rewrite (proj2 (Z.ltb_lt _ _)); lia.
  - rewrite <- (le_bytes_mod n v 1), of_le_bytes by lia. rewrite (proj2 (Z.ltb_ge _ _)); lia.
Qed.
