(* ===== verification/GoText.v ===== *)
(** * Integer text: [internal/object/listpack.go], lines 73-155

    The object layer has its own decimal parser and printer, [parseInt64] and
    [formatInt64], and the predicate [isInt] that decides whether a byte string
    is stored as an integer.  The string encoding "int", the intset encoding of
    sets and the conversions between encodings all rest on the round trip that
    is proved here. *)

From stdpp Require Import base list strings.
From Stdlib Require Import ZArith Lia Ascii.
From S2P Require Import Prelude.

Local Open Scope Z_scope.

(** A Go [error]: [None] is [nil]. *)
Definition goerr := option bytes.

(** The digit loop of [parseInt64]; [None] is the early [return 0, nil]. *)
Fixpoint parse_digits (v : Z) (s : bytes) : option Z :=
  match s with
  | [] => Some v
  | c :: s' =>
      if (byteZ c <? 48) || (57 <? byteZ c) then None
      else
        let digit := byteZ c - 48 in
        if Z.quot (max_i64 - digit) 10 <? v then None
        else parse_digits (wrap64 (v * 10 + digit)) s'
  end.

Definition parseInt64 (s : bytes) : Z * goerr :=
  match s with
  | [] => (0, None)
  | c :: rest =>
      let negative := (byteZ c =? 45) in
      let body := if negative then rest else if (byteZ c =? 43) then rest else s in
      match parse_digits 0 body with
      | None => (0, None)
      | Some v => (if negative then wrap64 (- v) else v, None)
      end
  end.

(** The digit-counting loop of [formatInt64].  An [int64] has at most 19
    digits, so 20 iterations are enough. *)
Fixpoint count_digits (fuel : nat) (tmp : Z) : nat :=
  match fuel with
  | O => O
  | S fuel' => if 0 <? tmp then S (count_digits fuel' (Z.quot tmp 10)) else O
  end.

(** The loop that fills the buffer from the last digit to the first. *)
Fixpoint fill_digits (digits : nat) (v : Z) (buf : bytes) : bytes :=
  match digits with
  | O => buf
  | S d => fill_digits d (Z.quot v 10) (Zbyte (48 + Z.rem v 10) :: buf)
  end.

Definition formatInt64 (v : Z) : bytes :=
  if v =? 0 then str "0"
  else
    let negative := v <? 0 in
    let v' := if negative then wrap64 (- v) else v in
    let buf := fill_digits (count_digits 20 v') v' [] in
    if negative then str "-" ++ buf else buf.

Definition isInt (s : bytes) : Z * bool :=
  match s with
  | [] => (0, false)
  | _ =>
      match parseInt64 s with
      | (_, Some _) => (0, false)
      | (v, None) => (v, bytes_eqb (formatInt64 v) s)
      end
  end.

(** ** Lemmas *)

Lemma parse_digits_range s v w :
  0 <= v <= max_i64 → parse_digits v s = Some w → 0 <= w <= max_i64.
Proof.
  revert v. induction s as [|c s IH]; intros v Hv; simpl.
  { by intros [= <-]. }
  destruct ((byteZ c <? 48) || (57 <? byteZ c)) eqn:E1; [done|].
  destruct (Z.quot _ 10 <? v) eqn:E2; [done|]. zbool.
  rewrite Z.quot_div_nonneg in E2 by (unfold max_i64; lia).
  assert (v * 10 + (byteZ c - 48) <= max_i64) by (Z.div_mod_to_equations; lia).
  intros H'. eapply IH, H'. rewrite wrap64_id; unfold i64, min_i64, max_i64 in *; lia.
Qed.

Lemma parseInt64_range s v e : parseInt64 s = (v, e) → - max_i64 <= v <= max_i64.
Proof.
  unfold parseInt64. destruct s as [|c s]; [intros [= <- <-]; unfold max_i64; lia|].
  destruct (parse_digits 0 _) as [w|] eqn:E; [|intros [= <- <-]; unfold max_i64; lia].
  apply parse_digits_range in E; [|unfold max_i64; lia].
  destruct (byteZ c =? 45); intros [= <- <-]; [|unfold max_i64 in *; lia].
  rewrite wrap64_id; unfold i64, min_i64, max_i64 in *; lia.
Qed.

(** Reading back [n] digits written by the fill loop. *)
Lemma parse_fill n a v buf :
  0 <= a → 0 <= v < 10 ^ Z.of_nat n → a * 10 ^ Z.of_nat n + v <= max_i64 →
  parse_digits a (fill_digits n v buf) = parse_digits (a * 10 ^ Z.of_nat n + v) buf.
Proof.
  revert v buf. induction n as [|n IH]; intros v buf Ha Hv Hm.
  { simpl in *. f_equal. lia. }
  cbn [fill_digits]. rewrite Nat2Z.inj_succ, Z.pow_succ_r in * by lia.
  rewrite Z.quot_div_nonneg by lia.
  rewrite Z.rem_mod_nonneg by lia.
  pose proof (Z.mod_pos_bound v 10).
  pose proof (Z.div_mod v 10).
  rewrite IH; [|lia|split; [Z.div_mod_to_equations; lia|apply Z.div_lt_upper_bound; lia]|nia].
  cbn [parse_digits]. rewrite byteZ_Zbyte, (Z.mod_small _ 256) by lia.
  destruct ((48 + v mod 10 <? 48) || (57 <? 48 + v mod 10)) eqn:E.
  { apply orb_true_iff in E as [E|E]; zbool; lia. }
  replace (48 + v mod 10 - 48) with (v mod 10) by lia.
  rewrite Z.quot_div_nonneg by (unfold max_i64; lia).
  destruct (Z.ltb_spec ((max_i64 - v mod 10) / 10) (a * 10 ^ Z.of_nat n + v / 10)) as [L|L].
  { exfalso. assert (a * 10 ^ Z.of_nat n + v / 10 <= (max_i64 - v mod 10) / 10); [|lia].
    apply Z.div_le_lower_bound; lia. }
  rewrite wrap64_id; [f_equal; lia|]. unfold i64, min_i64, max_i64 in *. nia.
Qed.

Lemma count_digits_bound fuel v :
  0 <= v < 10 ^ Z.of_nat fuel → v < 10 ^ Z.of_nat (count_digits fuel v).
Proof.
  revert v. induction fuel as [|fuel IH]; intros v Hv; [simpl in *; lia|].
  cbn [count_digits]. destruct (Z.ltb_spec 0 v); [|simpl; lia].
  rewrite Nat2Z.inj_succ, Z.pow_succ_r in * by lia.
  rewrite Z.quot_div_nonneg in * by lia.
  assert (v / 10 < 10 ^ Z.of_nat (count_digits fuel (v / 10))).
  { apply IH. split; [Z.div_mod_to_equations; lia|apply Z.div_lt_upper_bound; lia]. }
  Z.div_mod_to_equations. nia.
Qed.

Lemma count_digits_pos fuel v : 0 < v → (0 < fuel)%nat → (0 < count_digits fuel v)%nat.
Proof. intros. destruct fuel; [lia|]. cbn [count_digits]. zcase; lia. Qed.

(** The first character of a digit buffer is a digit. *)
Lemma fill_digits_head n v buf :
  0 <= v → (0 < n)%nat →
  ∃ c rest, fill_digits n v buf = c :: rest ∧ 48 <= byteZ c <= 57.
Proof.
  revert v buf. induction n as [|n IH]; intros v buf Hv Hn; [lia|].
  cbn [fill_digits]. rewrite Z.quot_div_nonneg, Z.rem_mod_nonneg by lia.
  destruct n as [|n].
  - simpl. eexists _, _. split; [done|].
    rewrite byteZ_Zbyte. pose proof (Z.mod_pos_bound v 10). rewrite Z.mod_small; lia.
  - apply IH; [Z.div_mod_to_equations; lia|lia].
Qed.

Lemma parse_format_pos v :
  0 < v <= max_i64 →
  ∃ c rest, fill_digits (count_digits 20 v) v [] = c :: rest ∧ 48 <= byteZ c <= 57 ∧
            parse_digits 0 (c :: rest) = Some v.
Proof.
  intros Hv.
  assert (v < 10 ^ Z.of_nat (count_digits 20 v)).
  { apply count_digits_bound. change (10 ^ Z.of_nat 20) with 100000000000000000000.
    unfold max_i64 in Hv. lia. }
  destruct (fill_digits_head (count_digits 20 v) v []) as (c & r & E & Hc);
    [lia|apply count_digits_pos; lia|].
  exists c, r. split_and!; [done|lia|lia|].
  rewrite <- E, parse_fill by lia. done.
Qed.

Lemma parse_format v : - max_i64 <= v <= max_i64 → parseInt64 (formatInt64 v) = (v, None).
Proof.
  intros Hv. unfold formatInt64. destruct (Z.eqb_spec v 0) as [->|H0]; [done|].
  destruct (Z.ltb_spec v 0) as [Hn|Hn].
  - rewrite wrap64_id by (unfold i64, min_i64, max_i64 in *; lia).
    destruct (parse_format_pos (- v)) as (c & r & -> & Hc & Hp); [lia|].
    simpl app. unfold parseInt64. change (byteZ "-" =? 45) with true. cbn [fst snd].
    rewrite Hp. rewrite Z.opp_involutive, wrap64_id; [done|].
    unfold i64, min_i64, max_i64 in *; lia.
  - destruct (parse_format_pos v) as (c & r & -> & Hc & Hp); [lia|].
    unfold parseInt64. destruct (Z.eqb_spec (byteZ c) 45); [lia|].
    destruct (Z.eqb_spec (byteZ c) 43); [lia|]. by rewrite Hp.
Qed.

Lemma formatInt64_nonempty v : - max_i64 <= v <= max_i64 → formatInt64 v ≠ [].
Proof. intros Hv E. apply parse_format in Hv as H. rewrite E in H. injection H as <-. done. Qed.

Lemma isInt_format v : - max_i64 <= v <= max_i64 → isInt (formatInt64 v) = (v, true).
Proof.
  intros Hv. unfold isInt. rewrite parse_format by done.
  pose proof (formatInt64_nonempty v Hv). rewrite bytes_eqb_refl.
  by destruct (formatInt64 v).
Qed.

Lemma isInt_true s v :
  isInt s = (v, true) → formatInt64 v = s ∧ - max_i64 <= v <= max_i64.
Proof.
  unfold isInt. destruct s as [|c s]; [done|].
  destruct (parseInt64 (c :: s)) as [w [e|]] eqn:E; [done|].
  intros [= <- H]. apply bytes_eqb_eq in H. split; [done|]. by eapply parseInt64_range.
Qed.

Lemma isInt_inj s s' v : isInt s = (v, true) → isInt s' = (v, true) → s = s'.
Proof. intros [<- _]%isInt_true [<- _]%isInt_true. done. Qed.

Lemma formatInt64_inj v w :
  - max_i64 <= v <= max_i64 → - max_i64 <= w <= max_i64 →
  formatInt64 v = formatInt64 w → v = w.
Proof.
  intros Hv Hw E. apply isInt_format in Hv, Hw. rewrite E, Hw in Hv. congruence.
Qed.

#[export] Hint Resolve formatInt64_nonempty isInt_format : hayakv.

Lemma count_digits_fuel fuel v : (count_digits fuel v <= fuel)%nat.
Proof. revert v. induction fuel as [|f IH]; intros v; simpl; [lia|]. specialize (IH (Z.quot v 10)). zcase; lia. Qed.

Lemma fill_digits_length n v buf : length (fill_digits n v buf) = (n + length buf)%nat.
Proof. revert v buf. induction n as [|n IH]; intros v buf; simpl; [done|]. rewrite IH. simpl. lia. Qed.

Lemma formatInt64_length v : (length (formatInt64 v) <= 21)%nat.
Proof.
  unfold formatInt64. destruct (v =? 0); [simpl; lia|].
  assert (H : ∀ w, (length (fill_digits (count_digits 20 w) w []) <= 20)%nat).
  { intros w. rewrite fill_digits_length. pose proof (count_digits_fuel 20 w). cbn [length]. lia. }
  destruct (v <? 0); [|specialize (H v); lia].
  rewrite length_app. specialize (H (wrap64 (- v))). change (length (str "-")) with 1%nat. lia.
Qed.
