(* ===== verification/Strconv.v ===== *)
(** * Decimal text: the [strconv] functions the protocol code uses

    [Itoa] and [FormatInt] in base 10, and [ParseInt] in base 10 with 64 bits:
    an optional sign, at least one digit, nothing else, and a value in range. *)

From stdpp Require Import base list strings.
From Stdlib Require Import ZArith Lia Ascii.
From S2P Require Import Prelude.

Local Open Scope Z_scope.

Definition digit (d : Z) : ascii := Zbyte (48 + d).
Definition is_digit (c : ascii) : bool := (48 <=? byteZ c) && (byteZ c <=? 57).
Definition digit_val (c : ascii) : Z := byteZ c - 48.

(** The digits of [n] before [acc]; twenty of them are enough for 64 bits. *)
Fixpoint digits (fuel : nat) (n : Z) (acc : bytes) : bytes :=
  match fuel with
  | O => acc
  | S f => if n <? 10 then digit n :: acc else digits f (n / 10) (digit (n mod 10) :: acc)
  end.

Definition Itoa (n : Z) : bytes := if n <? 0 then str "-" ++ digits 20 (- n) [] else digits 20 n [].

(** The value of a string of digits after [n]. *)
Definition digits_val (n : Z) (s : bytes) : Z := foldl (λ n c, n * 10 + digit_val c) n s.

Definition ParseInt (s : bytes) : option Z :=
  let '(neg, ds) := match s with
                    | c :: r => if bool_decide (c = Zbyte 43) then (false, r)
                                else if bool_decide (c = Zbyte 45) then (true, r) else (false, s)
                    | [] => (false, [])
                    end in
  if negb (bool_decide (ds = [])) && forallb is_digit ds then
    let v := digits_val 0 ds in
    if neg : bool then if v <=? 2 ^ 63 then Some (- v) else None
    else if v <=? max_i64 then Some v else None
  else None.

(** ** Digits *)

Lemma digit_ok d : 0 <= d < 10 → is_digit (digit d) = true ∧ digit_val (digit d) = d.
Proof.
  intros Hd. unfold is_digit, digit_val, digit. rewrite byteZ_Zbyte, Z.mod_small by lia.
  split; [|lia]. apply andb_true_iff. split; apply Z.leb_le; lia.
Qed.

Lemma digits_are_digits fuel n acc :
  0 <= n → forallb is_digit acc = true → forallb is_digit (digits fuel n acc) = true.
Proof.
  revert n acc. induction fuel as [|f IH]; intros n acc Hn Ha; cbn [digits]; [done|].
  destruct (Z.ltb_spec n 10).
  - cbn. rewrite Ha. rewrite (proj1 (digit_ok n ltac:(lia))). done.
  - apply IH; [apply Z.div_pos; lia|]. cbn. rewrite Ha. pose proof (Z.mod_pos_bound n 10).
    rewrite (proj1 (digit_ok (n mod 10) ltac:(lia))). done.
Qed.

Lemma digits_nonempty fuel n acc : acc ≠ [] ∨ fuel ≠ O → digits fuel n acc ≠ [].
Proof.
  revert n acc. induction fuel as [|f IH]; intros n acc H; cbn [digits]; [tauto|].
  destruct (n <? 10); [done|]. apply IH. by left.
Qed.

Lemma digits_value fuel n acc :
  0 <= n < 10 ^ Z.of_nat fuel → digits_val 0 (digits fuel n acc) = digits_val n acc.
Proof.
  revert n acc. induction fuel as [|f IH]; intros n acc Hn; cbn [digits].
  { change (10 ^ Z.of_nat 0) with 1 in Hn. by replace n with 0 by lia. }
  rewrite Nat2Z.inj_succ, Z.pow_succ_r in Hn by lia. destruct (Z.ltb_spec n 10).
  - unfold digits_val. cbn [foldl]. by rewrite (proj2 (digit_ok n ltac:(lia))).
  - rewrite IH.
    + unfold digits_val. cbn [foldl]. pose proof (Z.mod_pos_bound n 10).
      rewrite (proj2 (digit_ok (n mod 10) ltac:(lia))). f_equal. pose proof (Z.div_mod n 10). lia.
    + split; [apply Z.div_pos; lia|]. apply Z.div_lt_upper_bound; lia.
Qed.

Lemma digits_val_mono n s : 0 <= n → forallb is_digit s = true → n <= digits_val n s.
Proof.
  revert n. unfold digits_val. induction s as [|c s IH]; intros n Hn Hs; cbn [foldl]; [lia|].
  cbn in Hs. apply andb_true_iff in Hs as [Hc Hs]. unfold is_digit in Hc. zbool.
  etrans; [|apply IH; [|done]]; unfold digit_val; lia.
Qed.

Lemma Itoa_nonneg n : 0 <= n → Itoa n = digits 20 n [].
Proof. intros Hn. unfold Itoa. destruct (Z.ltb_spec n 0); [lia|done]. Qed.

(** ** Round trip *)

Lemma ParseInt_digits s : forallb is_digit s = true → s ≠ [] → digits_val 0 s <= max_i64 → ParseInt s = Some (digits_val 0 s).
Proof.
  intros Hs Hne Hv. unfold ParseInt. destruct s as [|c s]; [done|].
  assert (Hc : 48 <= byteZ c <= 57).
  { cbn in Hs. apply andb_true_iff in Hs as [Hc _]. unfold is_digit in Hc. zbool. lia. }
  rewrite bool_decide_false by (intros ->; change (byteZ (Zbyte 43)) with 43 in Hc; lia).
  rewrite bool_decide_false by (intros ->; change (byteZ (Zbyte 45)) with 45 in Hc; lia).
  rewrite Hs. rewrite bool_decide_false by done. cbn [negb andb]. destruct (Z.leb_spec (digits_val 0 (c :: s)) max_i64); [done|lia].
Qed.

Lemma ParseInt_Itoa n : i64 n → ParseInt (Itoa n) = Some n.
Proof.
  unfold i64, min_i64, max_i64. intros Hn. unfold Itoa. destruct (Z.ltb_spec n 0) as [Hneg|Hpos].
  - unfold ParseInt. cbn [str String.list_ascii_of_string app].
    rewrite bool_decide_false by (intros H; apply (f_equal byteZ) in H; done).
    rewrite bool_decide_true by (apply (inj byteZ); done).
    rewrite digits_are_digits by (done || lia). rewrite bool_decide_false by (apply digits_nonempty; by right).
    cbn [negb andb]. rewrite digits_value by (change (10 ^ Z.of_nat 20) with 100000000000000000000; lia).
    unfold digits_val. cbn [foldl]. destruct (Z.leb_spec (- n) (2 ^ 63)); [f_equal; lia|lia].
  - assert (Hv : digits_val 0 (digits 20 n []) = n).
    { rewrite digits_value by (change (10 ^ Z.of_nat 20) with 100000000000000000000; lia). done. }
    rewrite ParseInt_digits; [by rewrite Hv|by apply digits_are_digits|apply digits_nonempty; by right|].
    rewrite Hv. unfold max_i64. lia.
Qed.

(** A string of digits holds no byte outside the digits. *)
Lemma digits_avoid s c : forallb is_digit s = true → is_digit c = false → c ∉ s.
Proof.
  intros Hs Hc Hin. apply list_elem_of_In in Hin. rewrite forallb_forall in Hs. rewrite (Hs c Hin) in Hc. done.
Qed.

Lemma Itoa_avoid n c : 0 <= n → is_digit c = false → c ∉ Itoa n.
Proof. intros Hn. rewrite Itoa_nonneg by done. apply digits_avoid. by apply digits_are_digits. Qed.

#[export] Hint Resolve ParseInt_Itoa Itoa_avoid : hayakv.
