(* ===== verification/Listpack.v ===== *)
(** * Listpack: [internal/object/listpack.go]

    A listpack is one byte buffer that holds tagged elements back to back:
    strings as [0x00 uvarint(len) bytes] and integers as [0x01 zigzag-varint].
    The varint codec is the one of Go's [encoding/binary], modelled with its
    overflow checks.  [lp_rep lp xs] says that the buffer of [lp] is the
    encoding of the elements [xs]; every operation is characterised on [xs]. *)

From stdpp Require Import base list strings.
From Stdlib Require Import ZArith Lia Ascii.
From S2P Require Import Prelude GoText.

Local Open Scope Z_scope.

(** ** [encoding/binary] varints *)

(** [binary.AppendUvarint]: ten bytes hold any [uint64]. *)
Fixpoint append_uvarint (fuel : nat) (x : Z) : bytes :=
  match fuel with
  | O => []
  | S f =>
      if 128 <=? x then Zbyte (Z.lor (x mod 256) 128) :: append_uvarint f (Z.shiftr x 7)
      else [Zbyte x]
  end.

(** [binary.Uvarint]: the value and the number of bytes read; zero when the
    buffer is too small, negative on overflow. *)
Fixpoint uvarint_loop (buf : bytes) (i x s : Z) : Z * Z :=
  match buf with
  | [] => (0, 0)
  | b :: buf' =>
      if i =? 10 then (0, - (i + 1))
      else if byteZ b <? 128 then
        if (i =? 9) && (1 <? byteZ b) then (0, - (i + 1))
        else (Z.lor x (u64 (Z.shiftl (byteZ b) s)), i + 1)
      else uvarint_loop buf' (i + 1) (Z.lor x (u64 (Z.shiftl (Z.land (byteZ b) 127) s))) (s + 7)
  end.

Definition uvarint (buf : bytes) : Z * Z := uvarint_loop buf 0 0 0.

(** [binary.AppendVarint] and [binary.Varint]: zigzag on top of the above. *)
Definition zigzag (v : Z) : Z :=
  let ux := u64 (Z.shiftl v 1) in
  if v <? 0 then u64 (Z.lnot ux) else ux.

Definition unzigzag (ux : Z) : Z :=
  let x := Z.shiftr ux 1 in
  if Z.testbit ux 0 then Z.lnot x else x.

Definition append_varint (v : Z) : bytes := append_uvarint 10 (zigzag v).

Definition varint (buf : bytes) : Z * Z :=
  let '(ux, n) := uvarint buf in (unzigzag ux, n).

(** ** Slices *)

(** The Go slice expressions [d[lo:hi]] and [d[lo:]]; a bad bound panics.
    (For [hi] Go allows up to the capacity; every use below first checks [hi]
    against the length.) *)
Definition slice (d : bytes) (lo hi : Z) : res bytes :=
  if (0 <=? lo) && (lo <=? hi) && (hi <=? Z.of_nat (length d))
  then Ret (take (Z.to_nat (hi - lo)) (drop (Z.to_nat lo) d))
  else Panic.

Definition slice_from (d : bytes) (lo : Z) : res bytes := slice d lo (Z.of_nat (length d)).

(** ** Elements *)

Definition elemStr : ascii := Zbyte 0.
Definition elemInt : ascii := Zbyte 1.

Definition encodeStrElem (s : bytes) : bytes :=
  elemStr :: append_uvarint 10 (u64 (Z.of_nat (length s))) ++ s.

Definition encodeIntElem (v : Z) : bytes := elemInt :: append_varint v.

(** The element at the front of [data] and the bytes it takes; [(nil, 0)] when
    the buffer is empty, truncated or has an unknown tag.  (The Go function
    also returns an [error], which is always [nil].) *)
Definition decodeElem (data : bytes) : res (value * Z) :=
  match data with
  | [] => Ret (VNil, 0)
  | tag :: rest =>
      if bool_decide (tag = elemStr) then
        let '(strLen, n) := uvarint rest in
        if n <=? 0 then Ret (VNil, 0)
        else
          let pos := 1 + n in
          let hi := wrap64 (pos + wrap64 strLen) in
          if Z.of_nat (length data) <? hi then Ret (VNil, 0)
          else s ← slice data pos hi; Ret (VStr s, hi)
      else if bool_decide (tag = elemInt) then
        let '(v, n) := varint rest in
        if n <=? 0 then Ret (VNil, 0) else Ret (VInt v, 1 + n)
      else Ret (VNil, 0)
  end.

(** ** The listpack *)

Record Listpack := MkListpack { lp_buf : bytes; lp_num : nat }.

Definition NewListpack : Listpack := MkListpack [] 0.
Definition lp_Len (lp : Listpack) : Z := Z.of_nat (lp_num lp).
Definition lp_Bytes (lp : Listpack) : bytes := lp_buf lp.

Definition AppendStr (lp : Listpack) (s : bytes) : Listpack :=
  MkListpack (lp_buf lp ++ encodeStrElem s) (S (lp_num lp)).

Definition AppendInt (lp : Listpack) (v : Z) : Listpack :=
  MkListpack (lp_buf lp ++ encodeIntElem v) (S (lp_num lp)).

(** The skipping loop of [Get]: the offset after [j] elements, or [None] when
    an element does not decode. *)
Fixpoint lp_skip (buf : bytes) (j : nat) (pos : Z) : res (option Z) :=
  match j with
  | O => Ret (Some pos)
  | S j' =>
      d ← slice_from buf pos;
      '(_, consumed) ← decodeElem d;
      if consumed =? 0 then Ret None else lp_skip buf j' (pos + consumed)
  end.

Definition lp_Get (lp : Listpack) (i : Z) : res (value * bool) :=
  if (i <? 0) || (lp_Len lp <=? i) then Ret (VNil, false)
  else
    p ← lp_skip (lp_buf lp) (Z.to_nat i) 0;
    match p with
    | None => Ret (VNil, false)
    | Some pos =>
        d ← slice_from (lp_buf lp) pos;
        '(v, _) ← decodeElem d;
        Ret (v, negb (bool_decide (v = VNil)))
    end.

(** [Range] calls [fn] on the elements in order until it returns false.  The
    closure's captured variables are the state [A]. *)
Fixpoint lp_range_loop {A} (fn : A → Z → value → res (A * bool)) (buf : bytes)
    (n : nat) (i pos : Z) (st : A) : res A :=
  match n with
  | O => Ret st
  | S n' =>
      d ← slice_from buf pos;
      '(v, consumed) ← decodeElem d;
      if consumed =? 0 then Ret st
      else
        '(st', go) ← fn st i v;
        if go : bool then lp_range_loop fn buf n' (i + 1) (pos + consumed) st' else Ret st'
  end.

Definition lp_Range {A} (lp : Listpack) (fn : A → Z → value → res (A * bool)) (st : A) : res A :=
  lp_range_loop fn (lp_buf lp) (lp_num lp) 0 0 st.

(** The loops [for i := i0; ...; i += step] of the callers, with a body that
    may break; [n] is the number of iterations the condition allows. *)
Fixpoint for_loop {A} (n : nat) (i step : Z) (body : A → Z → res (A * bool)) (st : A) : res A :=
  match n with
  | O => Ret st
  | S n' =>
      '(st', go) ← body st i;
      if go : bool then for_loop n' (i + step) step body st' else Ret st'
  end.

(** ** Specification *)

(** The encoding of an element; only strings and integers are stored. *)
Definition enc_elem (v : value) : bytes :=
  match v with
  | VStr s => encodeStrElem s
  | VInt n => encodeIntElem n
  | _ => []
  end.

(** No Go string on a 64-bit machine has 2^62 bytes. *)
Definition small (s : bytes) : Prop := Z.of_nat (length s) < 2 ^ 62.

Definition elem_ok (v : value) : Prop :=
  match v with VStr s => small s | VInt n => i64 n | _ => False end.

Record lp_rep (lp : Listpack) (xs : list value) : Prop := {
  lp_rep_buf : lp_buf lp = mjoin (enc_elem <$> xs);
  lp_rep_num : lp_num lp = length xs;
  lp_rep_ok : Forall elem_ok xs
}.

(** What [Range] computes on the represented elements. *)
Fixpoint range_spec {A} (fn : A → Z → value → res (A * bool)) (i : Z) (xs : list value) (st : A) : res A :=
  match xs with
  | [] => Ret st
  | v :: xs' =>
      '(st', go) ← fn st i v;
      if go : bool then range_spec fn (i + 1) xs' st' else Ret st'
  end.

Fixpoint range_fold {A} (f : A → Z → value → A) (i : Z) (xs : list value) (st : A) : A :=
  match xs with
  | [] => st
  | v :: xs' => range_fold f (i + 1) xs' (f st i v)
  end.

#[global] Arguments encodeStrElem : simpl never.
#[global] Arguments encodeIntElem : simpl never.
#[global] Arguments decodeElem : simpl never.

(** ** Varint lemmas *)

Lemma testbit_above x s n : 0 <= x < 2 ^ s → 0 <= s <= n → Z.testbit x n = false.
Proof.
  intros Hx Hs. destruct (Z.eq_dec x 0) as [->|]; [apply Z.bits_0|].
  apply Z.bits_above_log2; [lia|]. apply Z.log2_lt_pow2; [lia|].
  apply Z.lt_le_trans with (2 ^ s); [lia|]. apply Z.pow_le_mono_r; lia.
Qed.

Lemma lor_shiftl_add x b s :
  0 <= x < 2 ^ s → 0 <= s → 0 <= b → Z.lor x (Z.shiftl b s) = x + b * 2 ^ s.
Proof.
  intros Hx Hs Hb. rewrite <- Z.shiftl_mul_pow2 by lia.
  assert (H0 : Z.land x (Z.shiftl b s) = 0).
  { apply Z.bits_inj'. intros n Hn. rewrite Z.land_spec, Z.bits_0, Z.shiftl_spec by lia.
    destruct (Z.ltb_spec n s).
    - rewrite (Z.testbit_neg_r b) by lia. apply andb_false_r.
    - by rewrite (testbit_above x s n) by lia. }
  rewrite <- Z.lxor_lor by done. symmetry. by apply Z.add_nocarry_lxor.
Qed.

Lemma lor_128 x : 128 <= x → Z.lor (x mod 256) 128 mod 256 = 128 + x mod 128.
Proof.
  intros Hx. replace (x mod 256) with (x mod 128 + Z.b2z (Z.testbit x 7) * 128).
  2:{ change 256 with (2 ^ 8). change 128 with (2 ^ 7) at 1 2.
      rewrite Z.testbit_spec' by lia. change (2 ^ 8) with (2 ^ 7 * 2).
      rewrite (Z.rem_mul_r x) by lia. lia. }
  pose proof (Z.mod_pos_bound x 128).
  assert (H7 : ∀ y, 0 <= y < 128 → Z.lor y 128 = y + 128).
  { intros y Hy. change 128 with (Z.shiftl 1 7) at 1. rewrite lor_shiftl_add; lia. }
  destruct (Z.testbit x 7); cbn [Z.b2z].
  - replace (x mod 128 + 1 * 128) with (Z.lor (x mod 128) 128) by (rewrite H7; lia).
    rewrite <- Z.lor_assoc, Z.lor_diag, H7 by lia. rewrite Z.mod_small; lia.
  - rewrite Z.mul_0_l, Z.add_0_r, H7 by lia. rewrite Z.mod_small; lia.
Qed.

Lemma uvarint_loop_append f y i x rest :
  0 <= i → i + Z.of_nat f = 10 → (0 < f)%nat →
  0 <= x < 2 ^ (7 * i) → 0 <= y → y < 2 ^ (64 - 7 * i) →
  uvarint_loop (append_uvarint f y ++ rest) i x (7 * i) =
    (x + y * 2 ^ (7 * i), i + Z.of_nat (length (append_uvarint f y))).
Proof.
  revert y i x. induction f as [|f IH]; intros y i x Hi Hf Hf0 Hx Hy Hyu; [lia|].
  assert (Hp : 0 < 2 ^ (7 * i)) by (apply Z.pow_pos_nonneg; lia).
  assert (H64 : 2 ^ (64 - 7 * i) * 2 ^ (7 * i) = 2 ^ 64).
  { rewrite <- Z.pow_add_r by lia. f_equal. lia. }
  cbn [append_uvarint]. destruct (Z.leb_spec 128 y) as [Hb|Hb].
  - cbn [app uvarint_loop]. destruct (Z.eqb_spec i 10); [lia|].
    rewrite byteZ_Zbyte, lor_128 by lia.
    pose proof (Z.mod_pos_bound y 128).
    destruct (Z.ltb_spec (128 + y mod 128) 128); [lia|].
    assert (Hi9 : i < 9).
    { destruct (Z.lt_ge_cases i 9); [done|]. assert (i = 9) as -> by lia. simpl in Hyu. lia. }
    replace (Z.land (128 + y mod 128) 127) with (y mod 128).
    2:{ change 127 with (Z.ones 7). rewrite Z.land_ones by lia. change (2 ^ 7) with 128.
        Z.div_mod_to_equations. lia. }
    assert (y mod 128 * 2 ^ (7 * i) <= y * 2 ^ (7 * i)).
    { apply Z.mul_le_mono_nonneg_r; [lia|]. apply Z.mod_le; lia. }
    rewrite u64_id by (rewrite Z.shiftl_mul_pow2 by lia; nia).
    rewrite lor_shiftl_add by lia.
    replace (7 * i + 7) with (7 * (i + 1)) by lia.
    rewrite Z.shiftr_div_pow2 by lia. change (2 ^ 7) with 128.
    assert (Hs : 2 ^ (7 * (i + 1)) = 2 ^ (7 * i) * 128).
    { replace (7 * (i + 1)) with (7 * i + 7) by lia. rewrite Z.pow_add_r by lia. done. }
    rewrite IH; [|lia|lia|lia| | |].
    + f_equal; [|cbn [length]; lia].
      rewrite Hs. pose proof (Z.div_mod y 128). nia.
    + rewrite Hs. nia.
    + apply Z.div_pos; lia.
    + apply Z.div_lt_upper_bound; [lia|].
      replace (64 - 7 * i) with (7 + (64 - 7 * (i + 1))) in Hyu by lia.
      rewrite Z.pow_add_r in Hyu by lia. lia.
  - cbn [app uvarint_loop]. destruct (Z.eqb_spec i 10); [lia|].
    rewrite byteZ_Zbyte, (Z.mod_small y) by lia.
    destruct (Z.ltb_spec y 128); [|lia].
    destruct ((i =? 9) && (1 <? y)) eqn:E.
    { zbool. subst i. simpl in Hyu. lia. }
    rewrite u64_id by (rewrite Z.shiftl_mul_pow2 by lia; nia).
    rewrite lor_shiftl_add by lia. cbn [length]. done.
Qed.

Lemma uvarint_append y rest :
  0 <= y < 2 ^ 64 →
  uvarint (append_uvarint 10 y ++ rest) = (y, Z.of_nat (length (append_uvarint 10 y))).
Proof.
  intros Hy. unfold uvarint. pose proof (uvarint_loop_append 10 y 0 0 rest) as H.
  change (7 * 0) with 0 in H. rewrite H by lia. f_equal; lia.
Qed.

Lemma append_uvarint_length f y :
  (0 < f)%nat → 1 <= Z.of_nat (length (append_uvarint f y)) <= Z.of_nat f.
Proof.
  revert y. induction f as [|f IH]; intros y Hf; [lia|]. cbn [append_uvarint].
  destruct (128 <=? y); [|simpl; lia].
  destruct f as [|f]; [simpl; lia|]. specialize (IH (Z.shiftr y 7)). cbn [length]. lia.
Qed.

Lemma zigzag_spec v : i64 v → zigzag v = if v <? 0 then - 2 * v - 1 else 2 * v.
Proof.
  unfold i64, min_i64, max_i64, zigzag, u64. intros Hv.
  rewrite Z.shiftl_mul_pow2, Z.pow_1_r by lia.
  destruct (Z.ltb_spec v 0).
  - assert ((v * 2) mod 2 ^ 64 = v * 2 + 2 ^ 64) as ->
      by (symmetry; apply Z.mod_unique_pos with (-1); lia).
    unfold Z.lnot. symmetry. apply Z.mod_unique_pos with (-1); lia.
  - rewrite Z.mod_small; lia.
Qed.

Lemma unzigzag_zigzag v : i64 v → unzigzag (zigzag v) = v.
Proof.
  intros Hv. rewrite zigzag_spec by done. unfold unzigzag.
  rewrite Z.shiftr_div_pow2, Z.pow_1_r, Z.bit0_odd by lia.
  destruct (Z.ltb_spec v 0).
  - replace (- 2 * v - 1) with (1 + 2 * (- v - 1)) by lia.
    rewrite Z.odd_add_mul_2. simpl. unfold Z.lnot. Z.div_mod_to_equations. lia.
  - rewrite (Z.mul_comm 2 v), Z.div_mul by lia. rewrite Z.mul_comm, Z.odd_mul. done.
Qed.

Lemma varint_append v rest :
  i64 v → varint (append_varint v ++ rest) = (v, Z.of_nat (length (append_varint v))).
Proof.
  intros Hv. unfold varint, append_varint. rewrite uvarint_append.
  - by rewrite unzigzag_zigzag.
  - rewrite zigzag_spec by done. unfold i64, min_i64, max_i64 in Hv. zcase; lia.
Qed.

(** ** Elements *)

Lemma slice_app_mid a s c :
  slice (a ++ s ++ c) (Z.of_nat (length a)) (Z.of_nat (length a + length s)) = Ret s.
Proof.
  unfold slice. rewrite !length_app.
  destruct (_ && _) eqn:E.
  - f_equal. rewrite Nat2Z.id, drop_app_length.
    replace (Z.to_nat _) with (length s) by lia. by rewrite take_app_length.
  - exfalso. apply not_true_iff_false in E. apply E.
    rewrite !andb_true_iff, !Z.leb_le. lia.
Qed.

Lemma slice_from_app a c : slice_from (a ++ c) (Z.of_nat (length a)) = Ret c.
Proof.
  unfold slice_from. rewrite length_app. rewrite <- (app_nil_r c) at 1.
  apply slice_app_mid.
Qed.

Lemma decode_str s rest :
  small s → decodeElem (encodeStrElem s ++ rest) = Ret (VStr s, Z.of_nat (length (encodeStrElem s))).
Proof.
  unfold small. intros Hs. unfold encodeStrElem.
  rewrite u64_id by lia. set (u := append_uvarint 10 (Z.of_nat (length s))).
  assert (Hu : 1 <= Z.of_nat (length u) <= 10) by (apply append_uvarint_length; lia).
  unfold decodeElem. cbn [app]. rewrite bool_decide_eq_true_2 by done.
  rewrite <- app_assoc. unfold u at 1. rewrite uvarint_append by lia. fold u.
  destruct (Z.leb_spec (Z.of_nat (length u)) 0); [lia|].
  rewrite (wrap64_id (Z.of_nat (length s))) by (unfold i64, min_i64, max_i64; lia).
  rewrite wrap64_id by (unfold i64, min_i64, max_i64; lia).
  destruct (Z.ltb_spec (Z.of_nat (length (elemStr :: u ++ s ++ rest))) (1 + Z.of_nat (length u) + Z.of_nat (length s))) as [L|_].
  { cbn [length] in L. rewrite !length_app in L. lia. }
  pose proof (slice_app_mid (elemStr :: u) s rest) as H'. cbn [app length] in H'.
  replace (1 + Z.of_nat (length u)) with (Z.of_nat (S (length u))) by lia.
  replace (Z.of_nat (S (length u)) + Z.of_nat (length s)) with (Z.of_nat (S (length u) + length s)) by lia.
  rewrite H'. cbn [mbind res_bind length]. rewrite length_app. do 2 f_equal.
Qed.

Lemma decode_int v rest :
  i64 v → decodeElem (encodeIntElem v ++ rest) = Ret (VInt v, Z.of_nat (length (encodeIntElem v))).
Proof.
  intros Hv. unfold encodeIntElem. unfold decodeElem. cbn [app].
  rewrite bool_decide_eq_false_2 by done. rewrite bool_decide_eq_true_2 by done.
  rewrite varint_append by done.
  assert (1 <= Z.of_nat (length (append_varint v))) by (apply append_uvarint_length; lia).
  destruct (Z.leb_spec (Z.of_nat (length (append_varint v))) 0); [lia|].
  cbn [length]. do 2 f_equal. lia.
Qed.

Lemma decode_enc v rest :
  elem_ok v → decodeElem (enc_elem v ++ rest) = Ret (v, Z.of_nat (length (enc_elem v))).
Proof.
  destruct v as [|s|b|n]; intros Hv; [destruct Hv| |destruct Hv|].
  - by apply decode_str.
  - by apply decode_int.
Qed.

Lemma enc_elem_pos v : elem_ok v → (0 < length (enc_elem v))%nat.
Proof.
  destruct v as [|s|b|n]; intros Hv; [destruct Hv| |destruct Hv|]; apply Nat.lt_0_succ.
Qed.

(** ** Operations on the represented elements *)

Lemma lp_rep_new : lp_rep NewListpack [].
Proof. split; done. Qed.

Lemma lp_rep_len lp xs : lp_rep lp xs → lp_Len lp = Z.of_nat (length xs).
Proof. intros [_ H _]. unfold lp_Len. by rewrite H. Qed.

Lemma lp_rep_append_str lp xs s :
  lp_rep lp xs → small s → lp_rep (AppendStr lp s) (xs ++ [VStr s]).
Proof.
  intros [Hb Hn Ho] Hs. split; cbn.
  - rewrite Hb, fmap_app, join_app. cbn. by rewrite app_nil_r.
  - rewrite length_app, Hn; simpl; lia.
  - apply Forall_app; split; [done|by apply Forall_singleton].
Qed.

Lemma lp_rep_append_int lp xs v :
  lp_rep lp xs → i64 v → lp_rep (AppendInt lp v) (xs ++ [VInt v]).
Proof.
  intros [Hb Hn Ho] Hs. split; cbn.
  - rewrite Hb, fmap_app, join_app. cbn. by rewrite app_nil_r.
  - rewrite length_app, Hn; simpl; lia.
  - apply Forall_app; split; [done|by apply Forall_singleton].
Qed.

Lemma lp_range_loop_spec {A} (fn : A → Z → value → res (A * bool)) pre xs i st :
  Forall elem_ok xs →
  lp_range_loop fn (pre ++ mjoin (enc_elem <$> xs)) (length xs) i (Z.of_nat (length pre)) st
    = range_spec fn i xs st.
Proof.
  revert pre i st. induction xs as [|v xs IH]; intros pre i st Ho; [done|].
  apply Forall_cons in Ho as [Hv Ho]. cbn [length lp_range_loop fmap list_fmap mjoin list_join range_spec].
  rewrite slice_from_app. cbn [mbind res_bind]. rewrite decode_enc by done.
  cbn [mbind res_bind]. pose proof (enc_elem_pos v Hv).
  destruct (Z.eqb_spec (Z.of_nat (length (enc_elem v))) 0); [lia|].
  destruct (fn st i v) as [[st' go]| |]; [|done|done]. cbn [mbind res_bind].
  destruct go; [|done]. rewrite app_assoc.
  replace (Z.of_nat (length pre) + Z.of_nat (length (enc_elem v)))
    with (Z.of_nat (length (pre ++ enc_elem v))) by (rewrite length_app; lia).
  by apply IH.
Qed.

Lemma lp_Range_spec {A} (fn : A → Z → value → res (A * bool)) lp xs st :
  lp_rep lp xs → lp_Range lp fn st = range_spec fn 0 xs st.
Proof.
  intros [Hb Hn Ho]. unfold lp_Range. rewrite Hb, Hn.
  apply (lp_range_loop_spec fn [] xs 0 st Ho).
Qed.

Lemma lp_skip_spec pre xs j :
  Forall elem_ok xs → (j <= length xs)%nat →
  lp_skip (pre ++ mjoin (enc_elem <$> xs)) j (Z.of_nat (length pre))
    = Ret (Some (Z.of_nat (length (pre ++ mjoin (enc_elem <$> take j xs))))).
Proof.
  revert pre xs. induction j as [|j IH]; intros pre xs Ho Hj.
  { rewrite take_0. simpl. by rewrite app_nil_r. }
  destruct xs as [|v xs]; simpl in Hj; [lia|]. apply Forall_cons in Ho as [Hv Ho].
  cbn [lp_skip fmap list_fmap mjoin list_join]. rewrite slice_from_app. cbn [mbind res_bind].
  rewrite decode_enc by done. cbn [mbind res_bind]. pose proof (enc_elem_pos v Hv).
  destruct (Z.eqb_spec (Z.of_nat (length (enc_elem v))) 0); [lia|].
  rewrite app_assoc.
  replace (Z.of_nat (length pre) + Z.of_nat (length (enc_elem v)))
    with (Z.of_nat (length (pre ++ enc_elem v))) by (rewrite length_app; lia).
  rewrite IH by (done || lia). cbn [take fmap list_fmap mjoin list_join].
  by rewrite <- app_assoc.
Qed.

Lemma lp_Get_spec lp xs i :
  lp_rep lp xs →
  lp_Get lp i = match (if 0 <=? i then xs !! Z.to_nat i else None) with
                | Some v => Ret (v, true) | None => Ret (VNil, false) end.
Proof.
  intros [Hb Hn Ho]. unfold lp_Get, lp_Len. rewrite Hb, Hn.
  destruct (Z.ltb_spec i 0); simpl.
  { destruct (Z.leb_spec 0 i); [lia|done]. }
  destruct (Z.leb_spec 0 i); [|lia].
  destruct (Z.leb_spec (Z.of_nat (length xs)) i).
  { by rewrite lookup_ge_None_2 by lia. }
  destruct (lookup_lt_is_Some_2 xs (Z.to_nat i)) as [v Hv]; [lia|].
  pose proof (lp_skip_spec [] xs (Z.to_nat i) Ho ltac:(lia)) as Hsk.
  cbn [app length] in Hsk. change (Z.of_nat 0) with 0 in Hsk. rewrite Hsk. cbn [mbind res_bind].
  assert (Hxs : xs = take (Z.to_nat i) xs ++ v :: drop (S (Z.to_nat i)) xs)
    by (by rewrite take_drop_middle).
  rewrite Hxs at 1. rewrite fmap_app, join_app, slice_from_app. cbn [mbind res_bind fmap list_fmap mjoin list_join].
  assert (elem_ok v) by (eapply Forall_lookup_1; eauto).
  rewrite decode_enc by done. cbn [mbind res_bind]. rewrite Hv.
  rewrite bool_decide_eq_false_2; [done|]. by intros ->.
Qed.

Lemma lp_Get_nat lp xs (i : nat) :
  lp_rep lp xs →
  lp_Get lp (Z.of_nat i) = match xs !! i with
                           | Some v => Ret (v, true) | None => Ret (VNil, false) end.
Proof.
  intros H. rewrite (lp_Get_spec lp xs) by done.
  destruct (Z.leb_spec 0 (Z.of_nat i)); [|lia]. by rewrite Nat2Z.id.
Qed.

(** A [Range] whose closure never panics and never stops is a left fold. *)
Lemma range_spec_fold {A} (f : A → Z → value → A) i xs st :
  range_spec (λ s j v, Ret (f s j v, true)) i xs st = Ret (range_fold f i xs st).
Proof. revert i st. induction xs as [|v xs IH]; intros i st; [done|]. apply IH. Qed.

(** A [Range] used as a linear search for the string [m]. *)
Lemma range_spec_search (P : value → bool) i xs :
  range_spec (λ found _ v, Ret (if P v then (true, false) else (found, true))) i xs false
    = Ret (existsb P xs).
Proof.
  revert i. induction xs as [|v xs IH]; intros i; [done|].
  cbn [range_spec mbind res_bind existsb]. destruct (P v); simpl; [done|]. apply IH.
Qed.

(** The invariant rule for [for_loop]: [P k] before iteration [k], [Q] after a
    break and after the last iteration. *)
Lemma for_loop_inv_break {A} (P : nat → A → Prop) (Q : A → Prop) n i step body st :
  P 0%nat st →
  (∀ k st, (k < n)%nat → P k st →
     ∃ st' go, body st (i + step * Z.of_nat k) = Ret (st', go) ∧ if go : bool then P (S k) st' else Q st') →
  (∀ st, P n st → Q st) →
  ∃ st', for_loop n i step body st = Ret st' ∧ Q st'.
Proof.
  intros H0 Hb HQ. enough (H : ∀ m k st, (k + m = n)%nat → P k st →
    ∃ st', for_loop m (i + step * Z.of_nat k) step body st = Ret st' ∧ Q st').
  { specialize (H n 0%nat st eq_refl H0). by rewrite Z.mul_0_r, Z.add_0_r in H. }
  induction m as [|m IH]; intros k st' Hk HP; cbn [for_loop].
  { replace k with n in HP by lia. eauto. }
  destruct (Hb k st') as (st'' & go & -> & Hgo); [lia|done|]. cbn [mbind res_bind]. destruct go; [|eauto].
  replace (i + step * Z.of_nat k + step) with (i + step * Z.of_nat (S k)) by lia. apply IH; [lia|done].
Qed.

Lemma for_loop_inv {A} (P : nat → A → Prop) n i step body st :
  P 0%nat st →
  (∀ k st, (k < n)%nat → P k st → ∃ st', body st (i + step * Z.of_nat k) = Ret (st', true) ∧ P (S k) st') →
  ∃ st', for_loop n i step body st = Ret st' ∧ P n st'.
Proof.
  intros H0 Hb. apply (for_loop_inv_break P); [done| |done]. intros k st' Hk HP.
  destruct (Hb k st' Hk HP) as (st'' & E & H). eauto.
Qed.

#[export] Hint Resolve lp_rep_new lp_rep_append_str lp_rep_append_int : hayakv.

(** ** Properties *)

(** Appending an element the way the callers do. *)
Definition lp_append (lp : Listpack) (v : value) : Listpack :=
  match v with
  | VStr s => AppendStr lp s
  | VInt n => AppendInt lp n
  | _ => lp
  end.

Lemma lp_rep_append_all lp xs ys :
  lp_rep lp xs → Forall elem_ok ys → lp_rep (foldl lp_append lp ys) (xs ++ ys).
Proof.
  revert lp xs. induction ys as [|v ys IH]; intros lp xs H Ho; [by rewrite app_nil_r|].
  apply Forall_cons in Ho as [Hv Ho]. rewrite (cons_middle v xs ys), app_assoc.
  cbn [foldl]. apply IH; [|done].
  destruct v; [destruct Hv| |destruct Hv|]; cbn; eauto with hayakv.
Qed.

(** C34: a listpack is a faithful sequence: after any sequence of [AppendStr]
    and [AppendInt] calls, [Len] is the number of appended elements, [Get i]
    decodes exactly the [i]-th one (and reports absence for every other index,
    negative ones included), and [Range] visits them all, in order. *)
Theorem listpack_append_get_range xs i :
  Forall elem_ok xs →
  let lp := foldl lp_append NewListpack xs in
  lp_Len lp = Z.of_nat (length xs) ∧
  lp_Get lp i = match (if 0 <=? i then xs !! Z.to_nat i else None) with
                | Some v => Ret (v, true) | None => Ret (VNil, false) end ∧
  lp_Range lp (λ acc _ v, Ret (acc ++ [v], true)) [] = Ret xs.
Proof.
  intros Ho lp. assert (H : lp_rep lp xs) by (apply (lp_rep_append_all _ []); eauto with hayakv).
  split_and!; [by apply lp_rep_len|by apply lp_Get_spec|].
  rewrite (lp_Range_spec _ _ xs) by done. rewrite range_spec_fold. f_equal.
  assert (Hf : ∀ ys acc j, range_fold (λ (acc : list value) _ v, acc ++ [v]) j ys acc = acc ++ ys).
  { induction ys as [|v ys IH]; intros acc j; simpl; [by rewrite app_nil_r|].
    by rewrite IH, <- app_assoc. }
  apply Hf.
Qed.

Lemma listpack_append_get_range_witness :
  lp_Get (foldl lp_append NewListpack [VStr (str "key"); VInt (-300)]) 1 = Ret (VInt (-300), true).
Proof.
  refine (proj1 (proj2 (listpack_append_get_range [VStr (str "key"); VInt (-300)] 1 _))).
  repeat (apply Forall_cons; split); try apply Forall_nil; try done.
Defined.

(** On an arbitrary buffer, also a corrupt or truncated one, whenever
    decoding an element returns, it has not read past the end: the number of
    bytes it reports lies between 0 and the length of the buffer.  (A string
    element that announces a length of 2^63 or more makes the slice expression
    panic instead.) *)
Theorem decodeElem_in_bounds data v n :
  decodeElem data = Ret (v, n) → 0 <= n <= Z.of_nat (length data).
Proof.
  unfold decodeElem. destruct data as [|tag rest]; [intros [= <- <-]; simpl; lia|].
  assert (Hu : ∀ buf i x s w m, uvarint_loop buf i x s = (w, m) → 0 <= i → m <= i + Z.of_nat (length buf)).
  { induction buf as [|b buf IH]; intros i x s w m; cbn [uvarint_loop length]; [intros [= <- <-]; lia|].
    destruct (i =? 10); [intros [= <- <-]; lia|].
    destruct (byteZ b <? 128); [destruct (_ && _); intros [= <- <-]; lia|].
    intros H Hi. apply IH in H; lia. }
  case_bool_decide.
  - destruct (uvarint rest) as [sl m] eqn:E. apply Hu in E; [|lia].
    destruct (Z.leb_spec m 0); [intros [= <- <-]; simpl; lia|].
    destruct (Z.ltb_spec (Z.of_nat (length (tag :: rest))) (wrap64 (1 + m + wrap64 sl))) as [|Hle];
      [intros [= <- <-]; simpl; lia|].
    unfold slice. destruct (_ && _) eqn:Eb; [|done]. zbool.
    cbn [mbind res_bind]. intros [= <- <-]. lia.
  - case_bool_decide; [|intros [= <- <-]; simpl; lia].
    unfold varint. destruct (uvarint rest) as [sl m] eqn:E. apply Hu in E; [|lia].
    destruct (Z.leb_spec m 0); intros [= <- <-]; cbn [length]; lia.
Qed.

Lemma decodeElem_in_bounds_witness :
  0 <= 5 <= Z.of_nat (length (encodeStrElem (str "key") ++ str "rest")).
Proof. apply (decodeElem_in_bounds _ (VStr (str "key"))). reflexivity. Defined.
