(* ===== verification/Intset.v ===== *)
(** * Intset: [internal/object/intset.go]

    A sorted slice of [int64] searched with [sort.Search].  The abstract value
    of an intset is the set of its elements; membership, insertion and removal
    are proved against it, with sortedness and the width field as invariant. *)

From stdpp Require Import base gmap list sorting.
From Stdlib Require Import ZArith Lia.
From S2P Require Import Prelude.

Local Open Scope Z_scope.

(** [sort.Search] of the Go standard library: binary search for the least
    index in [0, n) at which [f] holds.  [n] iterations are enough, as every
    one makes [i, j] strictly narrower. *)
Fixpoint search_loop (f : nat → bool) (fuel : nat) (i j : nat) : nat :=
  match fuel with
  | O => i
  | S fuel' =>
      if decide (i < j)%nat then
        let h := Nat.div2 (i + j) in
        if f h then search_loop f fuel' i h else search_loop f fuel' (S h) j
      else i
  end.

Definition sort_Search (n : nat) (f : nat → bool) : nat := search_loop f n 0 n.

Record Intset := MkIntset { is_data : list Z; is_width : Z }.

Definition NewIntset : Intset := MkIntset [] 16.
Definition is_Len (s : Intset) : Z := Z.of_nat (length (is_data s)).
Definition is_Width (s : Intset) : Z := is_width s.

(** The predicate the code passes to [sort.Search]. *)
Definition is_ge (s : Intset) (v : Z) (i : nat) : bool := v <=? (is_data s !!! i).

Definition is_index (s : Intset) (v : Z) : nat := sort_Search (length (is_data s)) (is_ge s v).

Definition is_found (s : Intset) (v : Z) (idx : nat) : bool :=
  match is_data s !! idx with Some w => w =? v | None => false end.

Definition is_Contains (s : Intset) (v : Z) : bool :=
  match is_data s with
  | [] => false
  | _ => is_found s v (is_index s v)
  end.

Definition updateWidth (s : Intset) (v : Z) : Intset :=
  if (v <? -2147483648) || (2147483647 <? v) then MkIntset (is_data s) 64
  else if (v <? -32768) || (32767 <? v) then
    if is_width s <? 32 then MkIntset (is_data s) 32 else s
  else if is_width s <? 16 then MkIntset (is_data s) 16 else s.

(** [append], [copy] and the store at [idx] insert [v] at position [idx]. *)
Definition is_Add (s : Intset) (v : Z) : Intset * bool :=
  let idx := is_index s v in
  if is_found s v idx then (s, false)
  else
    let s' := updateWidth s v in
    (MkIntset (take idx (is_data s') ++ v :: drop idx (is_data s')) (is_width s'), true).

Definition is_Remove (s : Intset) (v : Z) : Intset * bool :=
  match is_data s with
  | [] => (s, false)
  | _ =>
      let idx := is_index s v in
      if is_found s v idx
      then (MkIntset (take idx (is_data s) ++ drop (S idx) (is_data s)) (is_width s), true)
      else (s, false)
  end.

(** [Range] visits the elements in ascending order until the closure stops. *)
Fixpoint is_range_loop {A} (fn : A → Z → A * bool) (data : list Z) (st : A) : A :=
  match data with
  | [] => st
  | v :: data' => let '(st', go) := fn st v in if go then is_range_loop fn data' st' else st'
  end.

Definition is_Range {A} (s : Intset) (fn : A → Z → A * bool) (st : A) : A :=
  is_range_loop fn (is_data s) st.

Definition is_ToSlice (s : Intset) : list Z := is_data s.

(** ** Specification *)

(** The number of bits the width classes distinguish. *)
Definition width_of (v : Z) : Z :=
  if (v <? -2147483648) || (2147483647 <? v) then 64
  else if (v <? -32768) || (32767 <? v) then 32 else 16.

Record is_ok (s : Intset) : Prop := {
  is_ok_sorted : StronglySorted Z.lt (is_data s);
  is_ok_width : is_width s ∈ [16; 32; 64];
  is_ok_fits : Forall (λ v, width_of v <= is_width s) (is_data s)
}.

Definition is_set (s : Intset) : gset Z := list_to_set (is_data s).

(** ** Binary search *)

Lemma search_loop_spec f fuel i j n :
  (j - i <= fuel)%nat → (i <= j <= n)%nat →
  (∀ k, (k < i)%nat → f k = false) →
  (∀ k, (j <= k < n)%nat → f k = true) →
  (∀ k l, (k <= l < n)%nat → f k = true → f l = true) →
  (search_loop f fuel i j <= n)%nat ∧
  (∀ k, (k < search_loop f fuel i j)%nat → f k = false) ∧
  (∀ k, (search_loop f fuel i j <= k < n)%nat → f k = true).
Proof.
  revert i j. induction fuel as [|fuel IH]; intros i j Hf Hij Hlo Hhi Hmono; cbn [search_loop].
  { split_and!; [lia|done|]. intros k Hk. apply Hhi. lia. }
  case_decide as Hlt; [|split_and!; [lia|done|intros; apply Hhi; lia]].
  pose proof (Nat.div2_odd (i + j)) as Hd. set (h := Nat.div2 (i + j)) in *.
  assert (i <= h < j)%nat by (destruct (Nat.odd (i + j)); simpl in Hd; lia).
  destruct (f h) eqn:E; apply IH; try lia; try done.
  - intros k Hk. apply (Hmono h); [lia|done].
  - intros k Hk. destruct (f k) eqn:Ek; [|done].
    rewrite <- E. symmetry. apply (Hmono k); [lia|done].
Qed.

Lemma is_index_spec s v :
  StronglySorted Z.lt (is_data s) →
  (is_index s v <= length (is_data s))%nat ∧
  Forall (λ w, w < v) (take (is_index s v) (is_data s)) ∧
  Forall (λ w, v <= w) (drop (is_index s v) (is_data s)).
Proof.
  intros Hs. unfold is_index, sort_Search.
  destruct (search_loop_spec (is_ge s v) (length (is_data s)) 0 (length (is_data s))
              (length (is_data s))) as (H1 & H2 & H3); try lia.
  { intros k l Hkl. unfold is_ge. intros Hk. zbool. apply Z.leb_le.
    destruct (decide (k = l)) as [->|]; [done|].
    destruct (lookup_lt_is_Some_2 (is_data s) k) as [x Hx]; [lia|].
    destruct (lookup_lt_is_Some_2 (is_data s) l) as [y Hy]; [lia|].
    rewrite (list_lookup_total_correct _ _ _ Hx) in Hk.
    rewrite (list_lookup_total_correct _ _ _ Hy).
    assert (x < y); [|lia].
    eapply (StronglySorted_app_1_elem_of Z.lt (take l (is_data s)) (drop l (is_data s))).
    - by rewrite take_drop.
    - apply list_elem_of_lookup. exists k. rewrite lookup_take_lt; [|lia]. done.
    - apply list_elem_of_lookup. exists 0%nat. rewrite lookup_drop, Nat.add_0_r. done. }
  generalize dependent (search_loop (is_ge s v) (length (is_data s)) 0 (length (is_data s))).
  intros q H1 H2 H3. split_and!; [lia| |]; apply Forall_lookup; intros i x Hx.
  - apply lookup_take_Some in Hx as [Hx Hi]. specialize (H2 i Hi).
    unfold is_ge in H2. rewrite (list_lookup_total_correct _ _ _ Hx) in H2. zbool. lia.
  - rewrite lookup_drop in Hx. pose proof (lookup_lt_Some _ _ _ Hx).
    specialize (H3 (q + i)%nat). unfold is_ge in H3.
    rewrite (list_lookup_total_correct _ _ _ Hx) in H3. apply Z.leb_le, H3. lia.
Qed.

Lemma is_split s v :
  StronglySorted Z.lt (is_data s) →
  ∃ l r, is_data s = l ++ r ∧ is_index s v = length l ∧
         Forall (λ w, w < v) l ∧ Forall (λ w, v <= w) r.
Proof.
  intros Hs. destruct (is_index_spec s v Hs) as (H1 & H2 & H3).
  exists (take (is_index s v) (is_data s)), (drop (is_index s v) (is_data s)).
  rewrite take_drop, length_take. split_and!; [done|lia|done|done].
Qed.

(** The search finds [v] exactly when it is an element, and then at the split. *)
Lemma is_found_cases s v :
  StronglySorted Z.lt (is_data s) →
  ∃ l r, is_index s v = length l ∧ Forall (λ w, w < v) l ∧ Forall (λ w, v < w) r ∧
    ((is_found s v (is_index s v) = true ∧ is_data s = l ++ v :: r) ∨
     (is_found s v (is_index s v) = false ∧ is_data s = l ++ r)).
Proof.
  intros Hs. destruct (is_split s v Hs) as (l & r & E & Ei & Hl & Hr).
  unfold is_found. rewrite Ei, E, lookup_app_r, Nat.sub_diag by lia.
  rewrite E in Hs. apply StronglySorted_app_1_r in Hs.
  destruct r as [|w r]; simpl.
  { exists l, []. split_and!; auto. }
  apply Forall_cons in Hr as [Hw Hr]. apply StronglySorted_cons in Hs as [Hf _].
  destruct (Z.eqb_spec w v) as [->|Hne].
  - exists l, r. split_and!; auto.
  - exists l, (w :: r). split_and!; auto. apply Forall_cons. split; [lia|].
    eapply Forall_impl; [exact Hf|]. simpl. intros. lia.
Qed.

Lemma updateWidth_data s v : is_data (updateWidth s v) = is_data s.
Proof. unfold updateWidth. repeat case_match; done. Qed.

Lemma updateWidth_spec s v :
  is_width s ∈ [16; 32; 64] →
  is_width (updateWidth s v) = Z.max (is_width s) (width_of v).
Proof.
  intros Hw. unfold updateWidth, width_of.
  assert (16 <= is_width s <= 64 ∧ (is_width s < 32 → is_width s = 16))
    by (set_unfold; lia).
  destruct ((v <? _) || _); [simpl; lia|]. destruct ((v <? _) || _).
  - destruct (Z.ltb_spec (is_width s) 32); simpl; lia.
  - destruct (Z.ltb_spec (is_width s) 16); simpl; lia.
Qed.

Lemma width_of_in v : width_of v ∈ [16; 32; 64].
Proof. unfold width_of. repeat case_match; set_solver. Qed.

Lemma sorted_insert l r v :
  StronglySorted Z.lt (l ++ r) → Forall (λ w, w < v) l → Forall (λ w, v < w) r →
  StronglySorted Z.lt (l ++ v :: r).
Proof.
  rewrite !StronglySorted_app, StronglySorted_cons, !Forall_forall.
  intros (Hlr & Hl & Hr) Hlv Hrv. split_and!; [|done|done|done].
  intros x y Hx [->|Hy]%elem_of_cons; [by apply Hlv|by apply Hlr].
Qed.

Lemma sorted_delete l r v : StronglySorted Z.lt (l ++ v :: r) → StronglySorted Z.lt (l ++ r).
Proof. rewrite !StronglySorted_app, StronglySorted_cons. set_solver. Qed.

Lemma is_Contains_found s v :
  is_Contains s v = is_found s v (is_index s v).
Proof.
  unfold is_Contains. destruct (is_data s) eqn:E; [|done].
  unfold is_found, is_index. by rewrite E.
Qed.

Lemma is_Contains_spec s v : is_ok s → is_Contains s v = bool_decide (v ∈ is_set s).
Proof.
  intros [Hs _ _]. rewrite is_Contains_found. unfold is_set.
  destruct (is_found_cases s v Hs) as (l & r & _ & Hl & Hr & [[-> ->]|[-> ->]]); symmetry.
  - apply bool_decide_eq_true_2. set_solver.
  - apply bool_decide_eq_false_2. rewrite elem_of_list_to_set, elem_of_app.
    rewrite !Forall_forall in *. intros [?%Hl|?%Hr]; lia.
Qed.

Lemma is_Add_spec s v :
  is_ok s →
  is_ok (is_Add s v).1 ∧ is_set (is_Add s v).1 = {[v]} ∪ is_set s ∧
  (is_Add s v).2 = bool_decide (v ∉ is_set s).
Proof.
  intros Hok. pose proof (is_Contains_spec s v Hok) as Hc. rewrite is_Contains_found in Hc.
  destruct Hok as [Hs Hw Hf]. unfold is_Add.
  destruct (is_found_cases s v Hs) as (l & r & Ei & Hl & Hr & [[E Ed]|[E Ed]]);
    rewrite E in *; simpl; symmetry in Hc.
  - apply bool_decide_eq_true in Hc. rewrite bool_decide_eq_false_2 by set_solver.
    split_and!; [by split|set_solver|done].
  - apply bool_decide_eq_false in Hc. rewrite bool_decide_eq_true_2 by done.
    rewrite updateWidth_data, Ei, Ed, take_app_length, drop_app_length.
    unfold is_set; simpl. split_and!; [|rewrite Ed, !list_to_set_app_L, list_to_set_cons; set_solver|done].
    split; simpl.
    + apply sorted_insert; [by rewrite <- Ed|done|done].
    + rewrite updateWidth_spec by done. pose proof (width_of_in v).
      destruct (Z.max_spec (is_width s) (width_of v)) as [[_ ->]|[_ ->]]; done.
    + rewrite updateWidth_spec by done. rewrite Ed in Hf.
      apply Forall_app in Hf as [Hf1 Hf2].
      apply Forall_app; split; [|apply Forall_cons; split; [apply Z.le_max_r|]].
      * eapply Forall_impl; [exact Hf1|]. simpl. intros. lia.
      * eapply Forall_impl; [exact Hf2|]. simpl. intros. lia.
Qed.

Lemma is_Remove_spec s v :
  is_ok s →
  is_ok (is_Remove s v).1 ∧ is_set (is_Remove s v).1 = is_set s ∖ {[v]} ∧
  (is_Remove s v).2 = bool_decide (v ∈ is_set s).
Proof.
  intros Hok. pose proof (is_Contains_spec s v Hok) as Hc. rewrite is_Contains_found in Hc.
  pose proof Hok as [Hs Hw Hf]. unfold is_Remove.
  destruct (is_data s) as [|w0 d0] eqn:Ed0.
  { simpl. unfold is_set in *. rewrite Ed0 in *. simpl in *.
    rewrite bool_decide_eq_false_2 by set_solver. split_and!; [done|set_solver|done]. }
  rewrite <- Ed0 in *. clear w0 d0 Ed0.
  destruct (is_found_cases s v Hs) as (l & r & Ei & Hl & Hr & [[E Ed]|[E Ed]]);
    rewrite E in *; simpl; symmetry in Hc.
  - apply bool_decide_eq_true in Hc. rewrite bool_decide_eq_true_2 by done.
    rewrite Ei, Ed, take_app_length, (cons_middle v), app_assoc.
    rewrite drop_app_ge by (rewrite length_app; simpl; lia).
    replace (S (length l) - length (l ++ [v]))%nat with 0%nat by (rewrite length_app; simpl; lia).
    rewrite drop_0. unfold is_set; simpl. rewrite Ed in *.
    split_and!; [split; simpl|..].
    + by eapply sorted_delete.
    + done.
    + apply Forall_app in Hf as [? [_ ?]%Forall_cons]. by apply Forall_app.
    + rewrite !Forall_forall in *. apply set_eq. intros x.
      rewrite elem_of_difference, !elem_of_list_to_set, !elem_of_app, elem_of_cons, elem_of_singleton.
      split; [intros Hx; split; [tauto|intros ->; destruct Hx as [?%Hl|?%Hr]; lia]|tauto].
    + done.
  - apply bool_decide_eq_false in Hc. rewrite bool_decide_eq_false_2 by done.
    split_and!; [done|set_solver|done].
Qed.

Lemma is_ok_new : is_ok NewIntset.
Proof. split; simpl; [constructor|set_solver|constructor]. Qed.

Lemma is_Len_size s : is_ok s → is_Len s = Z.of_nat (size (is_set s)).
Proof.
  intros [Hs _ _]. unfold is_Len, is_set. f_equal. symmetry. apply size_list_to_set.
  induction (is_data s) as [|x l IH]; [constructor|].
  apply StronglySorted_cons in Hs as [Hx Hs]. constructor; [|by apply IH].
  intros Hin. rewrite Forall_forall in Hx. specialize (Hx x Hin). lia.
Qed.

#[export] Hint Resolve is_ok_new : hayakv.

(** ** Refinement *)

Inductive intset_cmd := IAdd (v : Z) | IRemove (v : Z) | IContains (v : Z) | ILen | IToSlice.
Inductive intset_reply := IBool (b : bool) | IInt (n : Z) | ISlice (l : list Z).

Definition intset_step (s : Intset) (c : intset_cmd) : Intset * intset_reply :=
  match c with
  | IAdd v => let '(s', b) := is_Add s v in (s', IBool b)
  | IRemove v => let '(s', b) := is_Remove s v in (s', IBool b)
  | IContains v => (s, IBool (is_Contains s v))
  | ILen => (s, IInt (is_Len s))
  | IToSlice => (s, ISlice (is_ToSlice s))
  end.

(** What a reply must be on the abstract set. *)
Definition intset_reply_ok (X : gset Z) (c : intset_cmd) (r : intset_reply) : Prop :=
  match c, r with
  | IAdd v, IBool b => b = bool_decide (v ∉ X)
  | IRemove v, IBool b => b = bool_decide (v ∈ X)
  | IContains v, IBool b => b = bool_decide (v ∈ X)
  | ILen, IInt n => n = Z.of_nat (size X)
  | IToSlice, ISlice l => StronglySorted Z.lt l ∧ list_to_set l = X
  | _, _ => False
  end.

Definition intset_next (X : gset Z) (c : intset_cmd) : gset Z :=
  match c with IAdd v => {[v]} ∪ X | IRemove v => X ∖ {[v]} | _ => X end.

(** Run the commands and collect, for each, the set before it and the reply. *)
Fixpoint intset_run (s : Intset) (cs : list intset_cmd) : Intset * list intset_reply :=
  match cs with
  | [] => (s, [])
  | c :: cs' => let '(s', r) := intset_step s c in let '(s'', rs) := intset_run s' cs' in (s'', r :: rs)
  end.

Fixpoint intset_replies_ok (X : gset Z) (cs : list intset_cmd) (rs : list intset_reply) : Prop :=
  match cs, rs with
  | [], [] => True
  | c :: cs', r :: rs' => intset_reply_ok X c r ∧ intset_replies_ok (intset_next X c) cs' rs'
  | _, _ => False
  end.

Lemma intset_step_ok s c :
  is_ok s → let '(s', r) := intset_step s c in
  is_ok s' ∧ is_set s' = intset_next (is_set s) c ∧ intset_reply_ok (is_set s) c r.
Proof.
  intros Hok. destruct c as [v|v|v| |]; cbn [intset_step intset_next].
  - destruct (is_Add_spec s v Hok) as (H1 & H2 & H3). destruct (is_Add s v). by split_and!.
  - destruct (is_Remove_spec s v Hok) as (H1 & H2 & H3). destruct (is_Remove s v). by split_and!.
  - split_and!; [done|done|]. by apply is_Contains_spec.
  - split_and!; [done|done|]. by apply is_Len_size.
  - split_and!; [done|done|]. split; [apply Hok|done].
Qed.

Lemma intset_run_ok s cs :
  is_ok s → let '(s', rs) := intset_run s cs in
  is_ok s' ∧ is_set s' = foldl intset_next (is_set s) cs ∧ intset_replies_ok (is_set s) cs rs.
Proof.
  revert s. induction cs as [|c cs IH]; intros s Hok; [done|]. cbn [intset_run foldl].
  pose proof (intset_step_ok s c Hok) as H. destruct (intset_step s c) as [s' r]. destruct H as (Hok' & E & Hr).
  specialize (IH s' Hok'). destruct (intset_run s' cs) as [s'' rs]. rewrite E in IH. naive_solver.
Qed.

(** C35: An intset behaves as a finite set of integers under every sequence of
    Add, Remove, Contains, Len and ToSlice: insertion and removal report
    exactly whether they changed the set, the binary search answers membership,
    ToSlice is the strictly ascending list of the elements, and the width field
    is one of 16, 32 and 64 and fits every element. *)
Theorem intset_refines_set cs :
  let '(s, rs) := intset_run NewIntset cs in
  is_ok s ∧ is_set s = foldl intset_next ∅ cs ∧ intset_replies_ok ∅ cs rs.
Proof. apply (intset_run_ok NewIntset cs is_ok_new). Qed.
