(* ===== verification/Dict.v ===== *)
(** * The [Dict] interface

    [internal/datastruct/dict/dict.go] declares the interface every keyspace
    and every hashtable-encoded object is programmed against.  Here it is the
    class [DictOps], and what the implementations promise is [DictLaws]: each
    operation acts on an abstract finite map.  [SimpleDict]
    and [RedisDict] are the instances, each in its own file; [ConcurrentDict]
    has the operations, and the laws as far as its counter reaches.

    Go leaves the iteration order of a map open, so a traversal takes the order
    as an argument and [d_order] says which orders are possible. *)

From stdpp Require Import base gmap list strings.
From Stdlib Require Import ZArith Lia.
From S2P Require Import Prelude.

Local Open Scope Z_scope.

(** The constructor and the operations that change or read a dict.  A panic is possible, hence
    [res]; the result [0] or [1] is the code's count of affected keys. *)
Class DictOps (D V : Type) := {
  d_make : D;
  d_Get : D → bytes → res (option V);
  d_Len : D → res Z;
  d_Put : D → bytes → V → res (D * Z);
  d_PutIfAbsent : D → bytes → V → res (D * Z);
  d_PutIfExists : D → bytes → V → res (D * Z);
  d_Remove : D → bytes → res (D * option V * Z);
  d_Clear : D → D;
  d_order : D → list (bytes * V) → Prop
}.

(** A traversal with a consumer: it visits the entries in the given order and
    stops when the consumer returns false.  The consumer's captured variables
    are the state [A]. *)
Fixpoint d_ForEach {A V} (consumer : A → bytes → V → A * bool)
    (ord : list (bytes * V)) (st : A) : A :=
  match ord with
  | [] => st
  | (k, v) :: ord' =>
      let '(st', go) := consumer st k v in
      if go then d_ForEach consumer ord' st' else st'
  end.

Definition b2z (b : bool) : Z := if b then 1 else 0.

(** No dict on a 64-bit machine holds 2^60 entries of at least 16 bytes. *)
Definition roomy {V} (mp : gmap bytes V) : Prop := Z.of_nat (size mp) < 2 ^ 60.

(** What a dict promises to its clients. *)
Class DictLaws (D V : Type) `{DictOps D V} := {
  d_inv : D → Prop;
  d_map : D → gmap bytes V;
  d_make_spec : d_inv d_make ∧ d_map d_make = ∅;
  d_Get_spec d k : d_inv d → d_Get d k = Ret (d_map d !! k);
  d_Len_spec d : d_inv d → d_Len d = Ret (Z.of_nat (size (d_map d)));
  d_Put_spec d k v : d_inv d → roomy (d_map d) → ∃ d',
    d_Put d k v = Ret (d', b2z (bool_decide (d_map d !! k = None))) ∧
    d_inv d' ∧ d_map d' = <[k := v]> (d_map d);
  d_PutIfAbsent_spec d k v : d_inv d → roomy (d_map d) → ∃ d',
    d_PutIfAbsent d k v = Ret (d', b2z (bool_decide (d_map d !! k = None))) ∧
    d_inv d' ∧ d_map d' = match d_map d !! k with None => <[k := v]> (d_map d) | Some _ => d_map d end;
  d_PutIfExists_spec d k v : d_inv d → roomy (d_map d) → ∃ d',
    d_PutIfExists d k v = Ret (d', b2z (bool_decide (is_Some (d_map d !! k)))) ∧
    d_inv d' ∧ d_map d' = match d_map d !! k with Some _ => <[k := v]> (d_map d) | None => d_map d end;
  d_Remove_spec d k : d_inv d → ∃ d',
    d_Remove d k = Ret (d', d_map d !! k, b2z (bool_decide (is_Some (d_map d !! k)))) ∧
    d_inv d' ∧ d_map d' = delete k (d_map d);
  d_Clear_spec d : d_inv d → d_inv (d_Clear d) ∧ d_map (d_Clear d) = ∅;
  d_order_spec d ord : d_inv d → d_order d ord → ord ≡ₚ map_to_list (d_map d);
  d_order_ex d : d_inv d → ∃ ord, d_order d ord
}.

(** ** Programs over the interface *)

(** A client's sequence of operations, and the outputs it observes. *)
Inductive dict_cmd (V : Type) :=
| CGet (k : bytes)
| CLen
| CPut (k : bytes) (v : V)
| CPutIfAbsent (k : bytes) (v : V)
| CPutIfExists (k : bytes) (v : V)
| CRemove (k : bytes)
| CClear.
Arguments CGet {V} k.
Arguments CLen {V}.
Arguments CPut {V} k v.
Arguments CPutIfAbsent {V} k v.
Arguments CPutIfExists {V} k v.
Arguments CRemove {V} k.
Arguments CClear {V}.

Definition dict_step {D V} `{DictOps D V} (d : D) (c : dict_cmd V) : res (D * (option V * Z)) :=
  match c with
  | CGet k => o ← d_Get d k; Ret (d, (o, 0))
  | CLen => n ← d_Len d; Ret (d, (None, n))
  | CPut k v => '(d', r) ← d_Put d k v; Ret (d', (None, r))
  | CPutIfAbsent k v => '(d', r) ← d_PutIfAbsent d k v; Ret (d', (None, r))
  | CPutIfExists k v => '(d', r) ← d_PutIfExists d k v; Ret (d', (None, r))
  | CRemove k => '(d', o, r) ← d_Remove d k; Ret (d', (o, r))
  | CClear => Ret (d_Clear d, (None, 0))
  end.

Fixpoint dict_run {D V} `{DictOps D V} (d : D) (cs : list (dict_cmd V)) : res (D * list (option V * Z)) :=
  match cs with
  | [] => Ret (d, [])
  | c :: cs' =>
      '(d1, o) ← dict_step d c;
      '(d2, os) ← dict_run d1 cs';
      Ret (d2, o :: os)
  end.

(** Two lawful dicts with the same abstract map cannot be told apart by one
    operation; they keep the same abstract map, and it grows by at most one. *)
Lemma dict_step_agree {D1 D2 V} `{DictLaws D1 V} `{DictLaws D2 V} (d1 : D1) (d2 : D2) (c : dict_cmd V) :
  d_inv d1 → d_inv d2 → d_map d1 = d_map d2 → roomy (d_map d1) →
  ∃ d1' d2' o, dict_step d1 c = Ret (d1', o) ∧ dict_step d2 c = Ret (d2', o) ∧
    d_inv d1' ∧ d_inv d2' ∧ d_map d1' = d_map d2' ∧ (size (d_map d1') <= S (size (d_map d1)))%nat.
Proof.
  intros I1 I2 Em R1. assert (R2 : roomy (d_map d2)) by congruence.
  assert (Hins : ∀ k v, (size (<[k := v]> (d_map d1)) <= S (size (d_map d1)))%nat).
  { intros k v. rewrite map_size_insert. destruct (d_map d1 !! k); simpl; lia. }
  destruct c as [k| |k v|k v|k v|k|]; simpl.
  - rewrite !d_Get_spec, Em by done. simpl.
    eexists _, _, _. split_and!; try done. rewrite Em. lia.
  - rewrite !d_Len_spec, Em by done. simpl.
    eexists _, _, _. split_and!; try done. rewrite Em. lia.
  - destruct (d_Put_spec d1 k v I1 R1) as (d1' & -> & J1 & E1).
    destruct (d_Put_spec d2 k v I2 R2) as (d2' & -> & J2 & E2).
    rewrite Em in *. eexists _, _, _. split_and!; try done; [congruence|]. rewrite E1. apply Hins.
  - destruct (d_PutIfAbsent_spec d1 k v I1 R1) as (d1' & -> & J1 & E1).
    destruct (d_PutIfAbsent_spec d2 k v I2 R2) as (d2' & -> & J2 & E2).
    rewrite Em in *. eexists _, _, _. split_and!; try done; [congruence|]. rewrite E1. case_match; auto with lia.
  - destruct (d_PutIfExists_spec d1 k v I1 R1) as (d1' & -> & J1 & E1).
    destruct (d_PutIfExists_spec d2 k v I2 R2) as (d2' & -> & J2 & E2).
    rewrite Em in *. eexists _, _, _. split_and!; try done; [congruence|]. rewrite E1. case_match; auto with lia.
  - destruct (d_Remove_spec d1 k I1) as (d1' & -> & J1 & E1).
    destruct (d_Remove_spec d2 k I2) as (d2' & -> & J2 & E2).
    rewrite Em in *. eexists _, _, _. split_and!; try done; [congruence|].
    rewrite E1, map_size_delete. destruct (d_map d2 !! k); simpl; lia.
  - destruct (d_Clear_spec d1 I1) as [J1 E1]. destruct (d_Clear_spec d2 I2) as [J2 E2].
    eexists _, _, _. split_and!; try done; [congruence|]. rewrite E1, map_size_empty. lia.
Qed.

Lemma dict_run_agree {D1 D2 V} `{DictLaws D1 V} `{DictLaws D2 V} (cs : list (dict_cmd V)) (d1 : D1) (d2 : D2) :
  d_inv d1 → d_inv d2 → d_map d1 = d_map d2 →
  Z.of_nat (size (d_map d1) + length cs) < 2 ^ 60 →
  ∃ d1' d2' os, dict_run d1 cs = Ret (d1', os) ∧ dict_run d2 cs = Ret (d2', os) ∧
    d_inv d1' ∧ d_inv d2' ∧ d_map d1' = d_map d2'.
Proof.
  revert d1 d2. induction cs as [|c cs IH]; intros d1 d2 I1 I2 Em Hsz; simpl; [eauto 10|].
  simpl in Hsz. destruct (dict_step_agree d1 d2 c I1 I2 Em) as (e1 & e2 & o & -> & -> & J1 & J2 & Em' & Hs).
  { unfold roomy. lia. }
  simpl. destruct (IH e1 e2 J1 J2 Em') as (f1 & f2 & os & -> & -> & K1 & K2 & Em''); [lia|].
  simpl. eauto 10.
Qed.

(** A traversal that never stops folds over the whole order. *)
Lemma d_ForEach_collect {V} (ord : list (bytes * V)) acc :
  d_ForEach (λ acc k _, (acc ++ [k], true)) ord acc = acc ++ ord.*1.
Proof.
  revert acc. induction ord as [|[k v] ord IH]; intros acc; simpl; [by rewrite app_nil_r|].
  rewrite IH, <- app_assoc. done.
Qed.

#[export] Hint Resolve d_Get_spec d_Len_spec : hayakv.
