(* ===== verification/SimpleDict.v ===== *)
(** * SimpleDict: [internal/datastruct/dict/simple.go]

    A Go map behind the [Dict] interface, the implementation that
    hashtable-encoded sets and hashes are converted to.  It meets the contract
    with the map itself as the abstract value. *)

From stdpp Require Import base gmap list strings.
From Stdlib Require Import ZArith Lia.
From S2P Require Import Prelude Dict.

Local Open Scope Z_scope.

Section simple.
Context {V : Type}.

Record t := MkSimple { m : gmap bytes V }.

Definition MakeSimple : t := MkSimple ∅.

Definition Get (d : t) (key : bytes) : res (option V) := Ret (m d !! key).

Definition Len (d : t) : res Z := Ret (Z.of_nat (size (m d))).

Definition Put (d : t) (key : bytes) (val : V) : res (t * Z) :=
  let existed := bool_decide (is_Some (m d !! key)) in
  Ret (MkSimple (<[key := val]> (m d)), if existed then 0 else 1).

Definition PutIfAbsent (d : t) (key : bytes) (val : V) : res (t * Z) :=
  let existed := bool_decide (is_Some (m d !! key)) in
  if existed then Ret (d, 0) else Ret (MkSimple (<[key := val]> (m d)), 1).

Definition PutIfExists (d : t) (key : bytes) (val : V) : res (t * Z) :=
  let existed := bool_decide (is_Some (m d !! key)) in
  if existed then Ret (MkSimple (<[key := val]> (m d)), 1) else Ret (d, 0).

Definition Remove (d : t) (key : bytes) : res (t * option V * Z) :=
  let d' := MkSimple (delete key (m d)) in
  match m d !! key with
  | Some val => Ret (d', Some val, 1)
  | None => Ret (d', None, 0)
  end.

(** The key list in the order [ord] of the traversal. *)
Definition Keys (ord : list (bytes * V)) : list bytes :=
  d_ForEach (λ acc k _, (acc ++ [k], true)) ord [].

(** [RandomDistinctKeys]: the first [min limit len] keys of the traversal. *)
Definition RandomDistinctKeys (d : t) (ord : list (bytes * V)) (limit : Z) : res (list bytes) :=
  let size := if Z.of_nat (size (m d)) <? limit then Z.of_nat (size (m d)) else limit in
  if size <? 0 then Panic
  else Ret (take (Z.to_nat size) ord.*1).

Definition Clear (d : t) : t := MakeSimple.

#[global] Instance simple_ops : DictOps t V := {
  d_make := MakeSimple;
  d_Get := Get; d_Len := Len; d_Put := Put; d_PutIfAbsent := PutIfAbsent;
  d_PutIfExists := PutIfExists; d_Remove := Remove; d_Clear := Clear;
  d_order := λ d ord, ord ≡ₚ map_to_list (m d)
}.

Lemma bool_decide_exists (k : bytes) (mm : gmap bytes V) :
  bool_decide (mm !! k = None) = negb (bool_decide (is_Some (mm !! k))).
Proof. destruct (mm !! k) eqn:E; simpl; repeat case_bool_decide; naive_solver. Qed.

#[global, refine] Instance simple_laws : DictLaws t V := {
  d_inv := λ _, True; d_map := m
}.
Proof.
  - done.
  - done.
  - done.
  - intros d k v _ _. exists (MkSimple (<[k := v]> (m d))). simpl. unfold Put.
    rewrite bool_decide_exists. split_and!; [|done|done]. by destruct (bool_decide _).
  - intros d k v _ _. simpl. unfold PutIfAbsent. rewrite bool_decide_exists.
    destruct (m d !! k) eqn:E; simpl; eexists; split_and!; done.
  - intros d k v _ _. simpl. unfold PutIfExists.
    destruct (m d !! k) eqn:E; simpl; eexists; split_and!; done.
  - intros d k _. simpl. unfold Remove.
    destruct (m d !! k) eqn:E; simpl; eexists; split_and!; done.
  - done.
  - done.
  - intros d _. exists (map_to_list (m d)). simpl. reflexivity.
Defined.
End simple.
Arguments t : clear implicits.
