(* ===== verification/RedisDict.v ===== *)
(** * RedisDict: [internal/datastruct/dict/redisdict.go]

    A chained hash table with incremental rehashing: while a rehash is under
    way there are two tables, [rehashIdx] separates the buckets of the first
    table that have been migrated from those that have not, and every write
    migrates one more bucket.  The chains of [*entry] are lists, as no entry is
    ever reachable from two buckets.

    [dict_inv] is the invariant of the two-table state and [dict_map] the
    finite map it stands for; the file ends with the proof that [RedisDict] is
    an instance of the dict interface, and with the behaviour of [DictScan]. *)

From stdpp Require Import base gmap list strings.
From Stdlib Require Import ZArith Lia.
From S2P Require Import Prelude Dict SimpleDict.

Local Open Scope Z_scope.

Definition minSize : Z := 4.

(** [nextPower]: the smallest power of two that is at least [n] (and 4). *)
Definition nextPower (n : Z) : Z :=
  if n <=? minSize then minSize
  else
    let n := n - 1 in
    let n := Z.lor n (Z.shiftr n 1) in
    let n := Z.lor n (Z.shiftr n 2) in
    let n := Z.lor n (Z.shiftr n 4) in
    let n := Z.lor n (Z.shiftr n 8) in
    let n := Z.lor n (Z.shiftr n 16) in
    let n := Z.lor n (Z.shiftr n 32) in
    wrap64 (n + 1).

(** The FNV-1a hash, in [uint64] arithmetic. *)
Definition fnv1a (key : bytes) : Z :=
  foldl (λ hash c, u64 (Z.lxor hash (byteZ c) * 1099511628211)) 14695981039346656037 key.

(** [bitReverse] and [reverseBits]: the lower [bits] bits, and all 64 bits. *)
Fixpoint bitReverse_loop (fuel : nat) (i bits v result : Z) : Z :=
  match fuel with
  | O => result
  | S f =>
      let result' := if negb (Z.land v (Z.shiftl 1 i) =? 0)
                     then Z.lor result (Z.shiftl 1 (bits - 1 - i)) else result in
      bitReverse_loop f (i + 1) bits v result'
  end.

Definition bitReverse (v : Z) (bits : nat) : Z := bitReverse_loop bits 0 (Z.of_nat bits) v 0.

Definition swap_bits (v lo hi s : Z) : Z :=
  Z.lor (u64 (Z.shiftl (Z.land v lo) s)) (Z.shiftr (Z.land v hi) s).

Definition reverseBits (v : Z) : Z :=
  let v := swap_bits v 0x5555555555555555 0xAAAAAAAAAAAAAAAA 1 in
  let v := swap_bits v 0x3333333333333333 0xCCCCCCCCCCCCCCCC 2 in
  let v := swap_bits v 0x0F0F0F0F0F0F0F0F 0xF0F0F0F0F0F0F0F0 4 in
  let v := swap_bits v 0x00FF00FF00FF00FF 0xFF00FF00FF00FF00 8 in
  let v := swap_bits v 0x0000FFFF0000FFFF 0xFFFF0000FFFF0000 16 in
  Z.lor (u64 (Z.shiftl v 32)) (Z.shiftr v 32).

Section RedisDict.
Context {V : Type}.

Abbreviation bucket := (list (bytes * V)).

Record hashTable := MkHT { buckets : list bucket; mask : Z; used : Z }.

(** [tables[0]] is never nil; [rehashIdx] is -1 when no rehash is under way. *)
Record RedisDict := MkRD {
  table0 : hashTable;
  table1 : option hashTable;
  rehashIdx : Z;
  count : Z
}.

Definition make_table (sz : Z) : hashTable := MkHT (replicate (Z.to_nat sz) []) (u64 (sz - 1)) 0.

Definition MakeRedis (size : Z) : RedisDict :=
  let size := if size <? minSize then minSize else size in
  MkRD (make_table (nextPower size)) None (-1) 0.

Definition isRehashing (d : RedisDict) : bool := negb (rehashIdx d =? -1).

Definition startRehash (d : RedisDict) (newSize : Z) : RedisDict :=
  if isRehashing d then d
  else
    let newSize := if newSize <? used (table0 d) then used (table0 d) else newSize in
    MkRD (table0 d) (Some (make_table (nextPower newSize))) 0 (count d).

(** The quotient of two positive integers below 2^53 is at least 1.0 as a
    [float64] exactly when the numerator is at least the denominator. *)
Definition startRehashIfNeeded (d : RedisDict) : RedisDict :=
  if isRehashing d then d
  else
    let ht := table0 d in
    if used ht =? 0 then d
    else if Z.of_nat (length (buckets ht)) <=? used ht
    then startRehash d (Z.of_nat (length (buckets ht)) * 2)
    else d.

(** The bucket of a key in a table. *)
Definition ht_idx (h : hashTable) (key : bytes) : nat := Z.to_nat (Z.land (fnv1a key) (mask h)).

(** Store a bucket, and link an entry at the head of its bucket. *)
Definition ht_set (h : hashTable) (i : nat) (b : bucket) : hashTable :=
  MkHT (<[i := b]> (buckets h)) (mask h) (used h).

Definition ht_push (h : hashTable) (e : bytes * V) : res hashTable :=
  b ← must (buckets h !! ht_idx h e.1);
  Ret (MkHT (<[ht_idx h e.1 := e :: b]> (buckets h)) (mask h) (used h + 1)).

(** The loop that moves the entries of one bucket into the second table. *)
Fixpoint move_bucket (h1 : hashTable) (b : bucket) : res hashTable :=
  match b with
  | [] => Ret h1
  | e :: b' => h1' ← ht_push h1 e; move_bucket h1' b'
  end.

(** The scan for the next non-empty bucket; its index, or the table's size. *)
Fixpoint skip_empty (bs : list bucket) (i : nat) : nat :=
  match bs with
  | [] :: bs' => skip_empty bs' (S i)
  | _ => i
  end.

Definition rehashStep (d : RedisDict) : res RedisDict :=
  if negb (isRehashing d) then Ret d
  else
    let ht0 := table0 d in
    ht1 ← must (table1 d);
    let i := skip_empty (drop (Z.to_nat (rehashIdx d)) (buckets ht0)) (Z.to_nat (rehashIdx d)) in
    match buckets ht0 !! i with
    | Some b =>
        ht1' ← move_bucket ht1 b;
        Ret (MkRD (ht_set ht0 i []) (Some ht1') (Z.of_nat i + 1) (count d))
    | None => Ret (MkRD ht1 None (-1) (count d))
    end.

(** [bucketIndex]: which table (false: the first) and which bucket. *)
Definition bucketIndex (d : RedisDict) (key : bytes) : res (bool * nat) :=
  if isRehashing d then
    if rehashIdx d <=? Z.of_nat (ht_idx (table0 d) key) then Ret (false, ht_idx (table0 d) key)
    else h1 ← must (table1 d); Ret (true, ht_idx h1 key)
  else Ret (false, ht_idx (table0 d) key).

Definition get_table (d : RedisDict) (which : bool) : res hashTable :=
  if which then must (table1 d) else Ret (table0 d).

Definition set_table (d : RedisDict) (which : bool) (h : hashTable) (c : Z) : RedisDict :=
  if which then MkRD (table0 d) (Some h) (rehashIdx d) c
  else MkRD h (table1 d) (rehashIdx d) c.

Fixpoint findEntry (b : bucket) (key : bytes) : option V :=
  match b with
  | [] => None
  | (k, v) :: b' => if bytes_eqb k key then Some v else findEntry b' key
  end.

(** [e.val = val] on the entry that [findEntry] returned. *)
Fixpoint setEntry (b : bucket) (key : bytes) (val : V) : bucket :=
  match b with
  | [] => []
  | (k, v) :: b' => if bytes_eqb k key then (k, val) :: b' else (k, v) :: setEntry b' key val
  end.

Definition Get (d : RedisDict) (key : bytes) : res (option V) :=
  '(w, i) ← bucketIndex d key;
  h ← get_table d w;
  b ← must (buckets h !! i);
  Ret (findEntry b key).

Definition Len (d : RedisDict) : res Z := Ret (count d).

(** The common prefix of the three insertions: the dict after one rehash step,
    the table and bucket of the key, and the bucket itself. *)
Definition locate (d : RedisDict) (key : bytes) : res (RedisDict * bool * hashTable * nat * bucket) :=
  d ← rehashStep (startRehashIfNeeded d);
  '(w, i) ← bucketIndex d key;
  h ← get_table d w;
  b ← must (buckets h !! i);
  Ret (d, w, h, i, b).

(** Insert a new entry at the head of bucket [i]. *)
Definition insert_head (d : RedisDict) (w : bool) (h : hashTable) (i : nat) (b : bucket) (key : bytes) (val : V) : RedisDict :=
  set_table d w (MkHT (<[i := (key, val) :: b]> (buckets h)) (mask h) (used h + 1)) (count d + 1).

Definition Put (d : RedisDict) (key : bytes) (val : V) : res (RedisDict * Z) :=
  '(d, w, h, i, b) ← locate d key;
  match findEntry b key with
  | Some _ => Ret (set_table d w (ht_set h i (setEntry b key val)) (count d), 0)
  | None => Ret (insert_head d w h i b key val, 1)
  end.

Definition PutIfAbsent (d : RedisDict) (key : bytes) (val : V) : res (RedisDict * Z) :=
  '(d, w, h, i, b) ← locate d key;
  match findEntry b key with
  | Some _ => Ret (d, 0)
  | None => Ret (insert_head d w h i b key val, 1)
  end.

Definition PutIfExists (d : RedisDict) (key : bytes) (val : V) : res (RedisDict * Z) :=
  '(d, w, h, i, b) ← locate d key;
  match findEntry b key with
  | Some _ => Ret (set_table d w (ht_set h i (setEntry b key val)) (count d), 1)
  | None => Ret (d, 0)
  end.

(** Unlink the first entry with the key from a chain. *)
Fixpoint unlink (b : bucket) (key : bytes) : option (V * bucket) :=
  match b with
  | [] => None
  | (k, v) :: b' =>
      if bytes_eqb k key then Some (v, b')
      else match unlink b' key with Some (w, b'') => Some (w, (k, v) :: b'') | None => None end
  end.

(** One round of [Remove]'s loop over the tables. *)
Definition remove_from (h : hashTable) (key : bytes) : res (option (V * hashTable)) :=
  b ← must (buckets h !! ht_idx h key);
  match unlink b key with
  | Some (v, b') => Ret (Some (v, MkHT (<[ht_idx h key := b']> (buckets h)) (mask h) (used h - 1)))
  | None => Ret None
  end.

Definition Remove (d : RedisDict) (key : bytes) : res (RedisDict * option V * Z) :=
  d ← (if isRehashing d then rehashStep d else Ret d);
  r0 ← remove_from (table0 d) key;
  match r0 with
  | Some (v, h) => Ret (set_table d false h (count d - 1), Some v, 1)
  | None =>
      if negb (isRehashing d) then Ret (d, None, 0)
      else match table1 d with
      | None => Ret (d, None, 0)
      | Some h1 =>
          r1 ← remove_from h1 key;
          match r1 with
          | Some (v, h) => Ret (set_table d true h (count d - 1), Some v, 1)
          | None => Ret (d, None, 0)
          end
      end
  end.

Definition Clear (d : RedisDict) : RedisDict := MkRD (make_table minSize) None (-1) 0.

(** The order in which [ForEach], [Keys], [RandomKeys] and [DictScan] meet the
    entries: the buckets of the first table, then, while rehashing, those of
    the second. *)
Definition entries (d : RedisDict) : bucket :=
  mjoin (buckets (table0 d)) ++
  (if isRehashing d then match table1 d with Some h => mjoin (buckets h) | None => [] end else []).

Definition ForEach {A} (d : RedisDict) (consumer : A → bytes → V → A * bool) (st : A) : A :=
  d_ForEach consumer (entries d) st.

Definition Keys (d : RedisDict) : list bytes := ForEach d (λ acc k _, (acc ++ [k], true)) [].

(** [RandomKeys] and [RandomDistinctKeys] stop once [limit] keys are collected;
    the check comes after the append.  [make] panics on a negative capacity. *)
Fixpoint first_keys (es : bucket) (limit : Z) (result : list bytes) : list bytes :=
  match es with
  | [] => result
  | (k, _) :: es' =>
      let result' := result ++ [k] in
      if limit <=? Z.of_nat (length result') then result' else first_keys es' limit result'
  end.

Definition RandomKeys (d : RedisDict) (limit : Z) : res (list bytes) :=
  if limit <? 0 then Panic else Ret (first_keys (entries d) limit []).

Fixpoint first_distinct (es : bucket) (limit : Z) (seen : gset bytes) (result : list bytes) : list bytes :=
  match es with
  | [] => result
  | (k, _) :: es' =>
      if bool_decide (k ∈ seen) then first_distinct es' limit seen result
      else
        let result' := result ++ [k] in
        if limit <=? Z.of_nat (length result') then result'
        else first_distinct es' limit ({[k]} ∪ seen) result'
  end.

Definition RandomDistinctKeys (d : RedisDict) (limit : Z) : res (list bytes) :=
  if limit <? 0 then Panic else Ret (first_distinct (entries d) limit ∅ []).

(** ** DictScan *)

(** One table's part of the scan: from bucket [i] on until [count] keys are
    collected; the keys and the next bucket. *)
Fixpoint scan_table (matchKey : bytes → bool) (cnt : Z) (bs : list bucket) (i : Z) (result : list bytes) : list bytes * Z :=
  match bs with
  | [] => (result, i)
  | b :: bs' =>
      if Z.of_nat (length result) <? cnt then
        scan_table matchKey cnt bs' (i + 1) (result ++ filter (λ k, matchKey k = true) b.*1)
      else (result, i)
  end.

(** [compile] stands for [wildcard.CompilePattern] with [IsMatch]: [None] is a
    pattern that does not compile. *)
Definition DictScan (compile : bytes → option (bytes → bool)) (d : RedisDict)
    (cursor cnt : Z) (pattern : bytes) : res (list bytes * Z) :=
  if count d =? 0 then Ret ([], 0)
  else if bytes_eqb pattern (str "*") && (count d <=? cnt) then Ret ((entries d).*1, 0)
  else
    match (if bytes_eqb pattern (str "*") then Some (λ _, true) else compile pattern) with
    | None => Ret ([], -1)
    | Some matchKey =>
        let ht0Size := Z.of_nat (length (buckets (table0 d))) in
        let ht1Size := match table1 d with Some h => Z.of_nat (length (buckets h)) | None => 0 end in
        let ht0Idx := if isRehashing d then if cursor <? ht0Size then cursor else ht0Size else cursor in
        let ht1Idx := if isRehashing d then if cursor <? ht0Size then 0 else cursor - ht0Size else 0 in
        if (ht0Idx <? 0) && (0 <? cnt) then Panic
        else
          let '(result, ht0Idx) :=
            if ht0Idx <? ht0Size
            then scan_table matchKey cnt (drop (Z.to_nat ht0Idx) (buckets (table0 d))) ht0Idx []
            else ([], ht0Idx) in
          let '(result, ht1Idx) :=
            match table1 d with
            | Some h1 =>
                if isRehashing d && (0 <? ht1Size) && (ht1Idx <? ht1Size)
                then scan_table matchKey cnt (drop (Z.to_nat ht1Idx) (buckets h1)) ht1Idx result
                else (result, ht1Idx)
            | None => (result, ht1Idx)
            end in
          if isRehashing d then
            if (ht1Size <=? ht1Idx) && (ht0Size <=? ht0Idx) then Ret (result, 0)
            else if ht0Idx <? ht0Size then Ret (result, ht0Idx)
            else Ret (result, ht0Size + ht1Idx)
          else if ht0Size <=? ht0Idx then Ret (result, 0)
          else Ret (result, ht0Idx)
    end.
End RedisDict.

(** ** [nextPower] *)

(** [top x L w]: the highest set bit of [x] is [L] and the [w] bits from it
    downwards are set. *)
Record top (x L w : Z) : Prop := {
  top_nonneg : 0 <= x;
  top_high i : 0 <= i → L < i → Z.testbit x i = false;
  top_low i : 0 <= i → L - w < i <= L → Z.testbit x i = true
}.

Lemma top_double x L w : 0 < w → top x L w → top (Z.lor x (Z.shiftr x w)) L (w + w).
Proof.
  intros Hw [Hx Hhi Hlo]. split.
  - apply Z.lor_nonneg. split; [done|]. by apply Z.shiftr_nonneg.
  - intros i Hi Hb. rewrite Z.lor_spec, Z.shiftr_spec, Hhi, Hhi by lia. done.
  - intros i Hi Hb. rewrite Z.lor_spec, Z.shiftr_spec by lia.
    destruct (Z.lt_ge_cases (L - w) i); [by rewrite Hlo by lia|].
    rewrite (Hlo (i + w)) by lia. apply orb_true_r.
Qed.

Lemma top_ones x L w : 0 <= L < w → top x L w → x = 2 ^ (L + 1) - 1.
Proof.
  intros HL [Hx Hhi Hlo]. transitivity (Z.ones (L + 1)); [|rewrite Z.ones_equiv; lia].
  apply Z.bits_inj'. intros i Hi. destruct (Z.lt_ge_cases L i).
  - rewrite Hhi, Z.ones_spec_high by lia. done.
  - rewrite Hlo, Z.ones_spec_low by lia. done.
Qed.

Lemma nextPower_spec n :
  n <= 2 ^ 61 → ∃ k, 2 <= k <= 61 ∧ nextPower n = 2 ^ k ∧ n <= 2 ^ k ∧ (4 < n → 2 ^ (k - 1) < n).
Proof.
  intros Hn. unfold nextPower, minSize. destruct (Z.leb_spec n 4) as [H4|H4].
  { exists 2. split_and!; try lia. }
  set (L := Z.log2 (n - 1)).
  assert (HL : 2 <= L) by (apply Z.log2_le_pow2; lia).
  assert (HL' : L < 61) by (apply Z.log2_lt_pow2; lia).
  destruct (Z.log2_spec (n - 1)) as [Ha Hb]; [lia|]. fold L in Ha, Hb.
  replace (Z.succ L) with (L + 1) in Hb by lia.
  assert (T1 : top (n - 1) L 1).
  { split; [lia| |].
    - intros i Hi Hc. apply Z.bits_above_log2; fold L; lia.
    - intros i Hi Hc. assert (i = L) as -> by lia. apply Z.bit_log2. lia. }
  apply (top_double _ _ 1) in T1 as T2; [|lia]. apply (top_double _ _ 2) in T2 as T4; [|lia].
  apply (top_double _ _ 4) in T4 as T8; [|lia]. apply (top_double _ _ 8) in T8 as T16; [|lia].
  apply (top_double _ _ 16) in T16 as T32; [|lia]. apply (top_double _ _ 32) in T32 as T64; [|lia].
  apply top_ones in T64; [|lia]. cbv zeta. rewrite T64.
  exists (L + 1). rewrite Z.sub_add, wrap64_id.
  2:{ assert (2 ^ (L + 1) <= 2 ^ 61) by (apply Z.pow_le_mono_r; lia).
      unfold i64, min_i64, max_i64. lia. }
  replace (L + 1 - 1) with L by lia. split_and!; [lia|lia|done|lia|lia].
Qed.

(** ** Buckets *)

Section laws.
Context {V : Type}.
Implicit Types (b : list (bytes * V)) (h : @hashTable V) (d : @RedisDict V) (k : bytes).

Lemma findEntry_map b k : findEntry b k = (list_to_map b : gmap bytes V) !! k.
Proof.
  induction b as [|[k' v] b IH]; simpl; [by rewrite lookup_empty|].
  destruct (bytes_eqb k' k) eqn:E.
  - apply bytes_eqb_eq in E as ->. by rewrite lookup_insert_eq.
  - apply bytes_eqb_ne in E. by rewrite lookup_insert_ne.
Qed.

Lemma findEntry_Some b k v : NoDup b.*1 → findEntry b k = Some v ↔ (k, v) ∈ b.
Proof. intros Hn. rewrite findEntry_map. symmetry. by apply elem_of_list_to_map. Qed.

Lemma setEntry_split b k v0 v :
  findEntry b k = Some v0 → ∃ b1 b2, b = b1 ++ (k, v0) :: b2 ∧ setEntry b k v = b1 ++ (k, v) :: b2.
Proof.
  induction b as [|[k' w] b IH]; simpl; [done|].
  destruct (bytes_eqb k' k) eqn:E.
  - apply bytes_eqb_eq in E as ->. intros [= ->]. by exists [], b.
  - intros (b1 & b2 & -> & ->)%IH. by exists ((k', w) :: b1), b2.
Qed.

Lemma unlink_split b k :
  match unlink b k with
  | Some (v, b') => findEntry b k = Some v ∧ ∃ b1 b2, b = b1 ++ (k, v) :: b2 ∧ b' = b1 ++ b2
  | None => findEntry b k = None
  end.
Proof.
  induction b as [|[k' w] b IH]; simpl; [done|].
  destruct (bytes_eqb k' k) eqn:E.
  - apply bytes_eqb_eq in E as ->. split; [done|]. by exists [], b.
  - destruct (unlink b k) as [[v b']|]; [|done]. destruct IH as (H1 & b1 & b2 & -> & ->).
    split; [done|]. by exists ((k', w) :: b1), b2.
Qed.

(** ** Tables *)

(** The number of buckets is a power of two, [mask] selects the low bits, and
    every entry is in the bucket of its hash. *)
Record table_ok h : Prop := {
  tok_size : ∃ n, 2 <= n ∧ Z.of_nat (length (buckets h)) = 2 ^ n ∧ mask h = 2 ^ n - 1;
  tok_place i b : buckets h !! i = Some b → Forall (λ e, ht_idx h e.1 = i) b;
  tok_nodup i b : buckets h !! i = Some b → NoDup b.*1
}.

Lemma ht_idx_lt h k : table_ok h → (ht_idx h k < length (buckets h))%nat.
Proof.
  intros [(n & Hn & Hl & Hm) _ _]. unfold ht_idx. rewrite Hm.
  replace (2 ^ n - 1) with (Z.ones n) by (rewrite Z.ones_equiv; lia).
  rewrite Z.land_ones by lia. pose proof (Z.mod_pos_bound (fnv1a k) (2 ^ n)). lia.
Qed.

Lemma ht_bucket h k : table_ok h → ∃ b, buckets h !! ht_idx h k = Some b.
Proof. intros H. apply lookup_lt_is_Some_2. by apply ht_idx_lt. Qed.

(** A key of a table can only be in its own bucket. *)
Lemma ht_elem h k v b :
  table_ok h → buckets h !! ht_idx h k = Some b → (k, v) ∈ mjoin (buckets h) ↔ (k, v) ∈ b.
Proof.
  intros Hok Hb. rewrite list_elem_of_join. split.
  - intros (b' & Hin & Hb'). apply list_elem_of_lookup in Hb' as [i Hi].
    pose proof (tok_place _ Hok _ _ Hi) as Hp. rewrite Forall_forall in Hp.
    specialize (Hp _ Hin). simpl in Hp. subst i. congruence.
  - intros Hin. exists b. split; [done|]. by eapply list_elem_of_lookup_2.
Qed.

(** Replacing one bucket: the other entries are untouched. *)
Lemma join_insert (bs : list (list (bytes * V))) i b :
  bs !! i = Some b →
  ∃ rest, mjoin bs ≡ₚ b ++ rest ∧ ∀ b', mjoin (<[i := b']> bs) ≡ₚ b' ++ rest.
Proof.
  revert i. induction bs as [|c bs IH]; intros [|i]; simpl; [done..| |].
  - intros [= ->]. by exists (mjoin bs).
  - intros (rest & E & F)%IH. exists (c ++ rest). split.
    + rewrite E. rewrite !app_assoc. f_equiv. apply Permutation_app_comm.
    + intros b'. rewrite F. rewrite !app_assoc. f_equiv. apply Permutation_app_comm.
Qed.

Lemma table_ok_insert h i b u :
  table_ok h → Forall (λ e, ht_idx h e.1 = i) b → NoDup b.*1 →
  table_ok (MkHT (<[i := b]> (buckets h)) (mask h) u).
Proof.
  intros [Hs Hp Hn] Hb Hd. split; simpl.
  - by rewrite length_insert.
  - intros j c [[-> [-> _]]|[? Hc]]%list_lookup_insert_Some; [done|]. by apply Hp in Hc.
  - intros j c [[-> [-> _]]|[? Hc]]%list_lookup_insert_Some; [done|]. by eapply Hn.
Qed.

Lemma make_table_ok (sz n : Z) : 2 <= n <= 61 → sz = 2 ^ n → table_ok (@make_table V sz).
Proof.
  intros Hk ->. assert (0 < 2 ^ n) by (apply Z.pow_pos_nonneg; lia).
  assert (2 ^ n <= 2 ^ 61) by (apply Z.pow_le_mono_r; lia).
  split; simpl.
  - exists n. rewrite length_replicate. split_and!; [lia|lia|]. rewrite u64_id; lia.
  - intros i b [-> _]%lookup_replicate. constructor.
  - intros i b [-> _]%lookup_replicate. constructor.
Qed.

Lemma make_table_empty sz : mjoin (buckets (@make_table V sz)) = [].
Proof. simpl. induction (Z.to_nat sz); simpl; done. Qed.

(** Entries of a table have distinct keys. *)
Lemma join_keys_nodup (bs : list (list (bytes * V))) (f : bytes → nat) off :
  (∀ i b, bs !! i = Some b → Forall (λ e, f e.1 = (off + i)%nat) b ∧ NoDup b.*1) →
  NoDup (mjoin bs).*1.
Proof.
  revert off. induction bs as [|b bs IH]; intros off H; simpl; [constructor|].
  rewrite fmap_app. apply NoDup_app. destruct (H 0%nat b eq_refl) as [Hf Hn]. split_and!; [done| |].
  - intros k [[k' v] [-> Hb]]%list_elem_of_fmap [[k'' w] [E Hj]]%list_elem_of_fmap.
    simpl in E. subst k''. apply list_elem_of_join in Hj as (c & Hc & [i Hi]%list_elem_of_lookup).
    destruct (H (S i) c Hi) as [Hf' _]. rewrite Forall_forall in Hf, Hf'.
    specialize (Hf _ Hb). specialize (Hf' _ Hc). simpl in *. lia.
  - apply (IH (S off)). intros i c Hi. destruct (H (S i) c Hi) as [Hf' ?]. split; [|done].
    eapply Forall_impl; [exact Hf'|]. simpl. intros. lia.
Qed.

Lemma table_keys_nodup h : table_ok h → NoDup (mjoin (buckets h)).*1.
Proof.
  intros H. apply (join_keys_nodup _ (ht_idx h) 0). intros i b Hb. split.
  - by apply (tok_place _ H).
  - by eapply (tok_nodup _ H).
Qed.

Lemma ht_push_spec h e :
  table_ok h → e.1 ∉ (mjoin (buckets h)).*1 →
  ∃ h', ht_push h e = Ret h' ∧ table_ok h' ∧ mjoin (buckets h') ≡ₚ e :: mjoin (buckets h) ∧
        used h' = used h + 1.
Proof.
  intros Hok Hf. unfold ht_push. destruct (ht_bucket h e.1 Hok) as [b Hb]. rewrite Hb. simpl.
  eexists. split_and!; [done| | |done].
  - apply table_ok_insert; [done| |].
    + apply Forall_cons. split; [done|]. by apply (tok_place _ Hok).
    + simpl. apply NoDup_cons. split; [|by eapply (tok_nodup _ Hok)].
      intros ([k v] & E & Hin)%list_elem_of_fmap. apply Hf. apply list_elem_of_fmap.
      exists (k, v). split; [done|]. apply list_elem_of_join. exists b. split; [done|].
      by eapply list_elem_of_lookup_2.
  - simpl. destruct (join_insert _ _ _ Hb) as (rest & E & F). rewrite F, E. done.
Qed.

Lemma move_bucket_spec b h :
  table_ok h → NoDup (b ++ mjoin (buckets h)).*1 →
  ∃ h', move_bucket h b = Ret h' ∧ table_ok h' ∧
        mjoin (buckets h') ≡ₚ b ++ mjoin (buckets h) ∧
        used h' = used h + Z.of_nat (length b).
Proof.
  revert h. induction b as [|e b IH]; intros h Hok Hn; simpl.
  { exists h. split_and!; [done|done|done|lia]. }
  simpl in Hn. apply NoDup_cons in Hn as [Hf Hn].
  destruct (ht_push_spec h e) as (h1 & -> & Hok1 & Hp & Hu); [done| |].
  { intros Hin. apply Hf. rewrite fmap_app. set_solver. }
  simpl. destruct (IH h1 Hok1) as (h2 & -> & Hok2 & Hp2 & Hu2).
  { rewrite Hp. rewrite <- Permutation_middle. simpl. by apply NoDup_cons. }
  exists h2. split_and!; [done|done| |lia].
  rewrite Hp2, Hp. by rewrite <- Permutation_middle.
Qed.

(** ** The dict *)

(** The two states of a dict.  While rehashing, the migrated buckets of the
    first table are empty and the second table holds exactly keys whose bucket
    in the first table has been migrated. *)
Inductive dict_state d : Prop :=
| Stable :
    rehashIdx d = -1 → table1 d = None →
    used (table0 d) = Z.of_nat (length (mjoin (buckets (table0 d)))) → dict_state d
| Rehashing h1 :
    table1 d = Some h1 → table_ok h1 →
    0 <= rehashIdx d <= Z.of_nat (length (buckets (table0 d))) →
    (∀ i b, Z.of_nat i < rehashIdx d → buckets (table0 d) !! i = Some b → b = []) →
    (∀ e, e ∈ mjoin (buckets h1) → Z.of_nat (ht_idx (table0 d) e.1) < rehashIdx d) →
    used h1 = Z.of_nat (length (mjoin (buckets h1))) → dict_state d.

Record dict_inv d : Prop := {
  di_table0 : table_ok (table0 d);
  di_count : count d = Z.of_nat (length (entries d));
  di_state : dict_state d
}.

Definition dict_map d : gmap bytes V := list_to_map (entries d).

(** An unmigrated key of the first table is at or above [rehashIdx]. *)
Lemma table0_above d e :
  table_ok (table0 d) →
  (∀ i b, Z.of_nat i < rehashIdx d → buckets (table0 d) !! i = Some b → b = []) →
  e ∈ mjoin (buckets (table0 d)) → rehashIdx d <= Z.of_nat (ht_idx (table0 d) e.1).
Proof.
  intros Hok Hlow (b & Hin & [i Hi]%list_elem_of_lookup)%list_elem_of_join.
  destruct (Z.le_gt_cases (rehashIdx d) (Z.of_nat (ht_idx (table0 d) e.1))); [done|].
  pose proof (tok_place _ Hok _ _ Hi) as Hp. rewrite Forall_forall in Hp.
  rewrite (Hp _ Hin) in H. rewrite (Hlow _ _ H Hi) in Hin. by apply elem_of_nil in Hin.
Qed.

Lemma isRehashing_true d : 0 <= rehashIdx d → isRehashing d = true.
Proof. intros. unfold isRehashing. destruct (Z.eqb_spec (rehashIdx d) (-1)); [lia|done]. Qed.

Lemma isRehashing_false d : rehashIdx d = -1 → isRehashing d = false.
Proof. intros. unfold isRehashing. by rewrite H. Qed.

Lemma entries_stable d : rehashIdx d = -1 → entries d = mjoin (buckets (table0 d)).
Proof. intros. unfold entries. rewrite isRehashing_false by done. by rewrite app_nil_r. Qed.

Lemma entries_rehashing d h1 :
  0 <= rehashIdx d → table1 d = Some h1 →
  entries d = mjoin (buckets (table0 d)) ++ mjoin (buckets h1).
Proof. intros H H1. unfold entries. by rewrite isRehashing_true, H1. Qed.

Lemma entries_nodup d : dict_inv d → NoDup (entries d).*1.
Proof.
  intros [H0 _ [Hr _ _|h1 H1 Hok1 Hr Hlow Hhigh _]].
  - rewrite entries_stable by done. by apply table_keys_nodup.
  - rewrite (entries_rehashing d h1) by (done || lia). rewrite fmap_app. apply NoDup_app.
    split_and!; [by apply table_keys_nodup| |by apply table_keys_nodup].
    intros k (e & -> & He)%list_elem_of_fmap (e' & E & He')%list_elem_of_fmap.
    apply Hhigh in He'. apply table0_above in He; [|done|done]. rewrite E in He. lia.
Qed.

Lemma dict_map_elem d k v : dict_inv d → dict_map d !! k = Some v ↔ (k, v) ∈ entries d.
Proof. intros H. symmetry. apply elem_of_list_to_map. by apply entries_nodup. Qed.

Lemma dict_map_perm d l : dict_inv d → entries d ≡ₚ l → dict_map d = list_to_map l.
Proof. intros H E. apply list_to_map_proper; [by apply entries_nodup|done]. Qed.

Lemma dict_map_size d : dict_inv d → count d = Z.of_nat (size (dict_map d)).
Proof.
  intros H. rewrite (di_count _ H). f_equal. unfold dict_map.
  pose proof (entries_nodup d H) as Hn. revert Hn. generalize (entries d). clear.
  induction l as [|[k v] l IH]; intros Hn; simpl in *; [by rewrite map_size_empty|].
  apply NoDup_cons in Hn as [Hf Hn]. rewrite map_size_insert_None, <- IH; [done|done|].
  by apply not_elem_of_list_to_map_1.
Qed.

(** ** One rehash step *)

Lemma skip_empty_spec (bs : list (list (bytes * V))) i :
  let j := skip_empty bs i in
  (i <= j)%nat ∧
  (∀ l c, (i + l < j)%nat → bs !! l = Some c → c = []) ∧
  (j - i <= length bs)%nat ∧
  (j - i < length bs → ∃ e b, bs !! (j - i)%nat = Some (e :: b))%nat.
Proof.
  revert i. induction bs as [|[|e b] bs IH]; intros i; simpl.
  - split_and!; [lia|intros; lia|lia|lia].
  - destruct (IH (S i)) as (H1 & H2 & H3 & H4). split_and!.
    + lia.
    + intros [|l] c Hl; simpl; [by intros [= <-]|]. apply H2. lia.
    + lia.
    + intros Hlt. destruct H4 as (e & b & Hb); [lia|]. exists e, b.
      replace (skip_empty bs (S i) - i)%nat with (S (skip_empty bs (S i) - S i)) by lia. done.
  - split_and!; [lia|intros; lia|lia|]. rewrite Nat.sub_diag. simpl. eauto.
Qed.

Lemma rehashStep_spec d :
  dict_inv d → ∃ d', rehashStep d = Ret d' ∧ dict_inv d' ∧ entries d' ≡ₚ entries d.
Proof.
  intros Hinv. pose proof (entries_nodup d Hinv) as Hnd.
  destruct Hinv as [H0 Hc [Hr H1 Hu|h1 H1 Hok1 Hr Hlow Hhigh Hu]].
  { exists d. unfold rehashStep. rewrite isRehashing_false by done. simpl.
    split_and!; [done|split; [done|done|by apply Stable]|done]. }
  unfold rehashStep. rewrite isRehashing_true, H1 by lia. simpl.
  destruct (skip_empty_spec (drop (Z.to_nat (rehashIdx d)) (buckets (table0 d))) (Z.to_nat (rehashIdx d)))
    as (S1 & S2 & S3 & S4).
  set (j := skip_empty _ _) in *. rewrite length_drop in *.
  assert (Hlow' : ∀ i b, (i < j)%nat → buckets (table0 d) !! i = Some b → b = []).
  { intros i b Hi Hb. destruct (decide (Z.of_nat i < rehashIdx d)); [by eapply Hlow|].
    apply (S2 (i - Z.to_nat (rehashIdx d))%nat); [lia|]. rewrite lookup_drop.
    by replace (Z.to_nat (rehashIdx d) + (i - Z.to_nat (rehashIdx d)))%nat with i by lia. }
  rewrite (entries_rehashing d h1) in * by (done || lia).
  destruct (buckets (table0 d) !! j) as [b|] eqn:Ej.
  - destruct (join_insert _ _ _ Ej) as (rest & E & F).
    assert (Hmv : NoDup (b ++ mjoin (buckets h1)).*1).
    { rewrite E in Hnd. rewrite <- app_assoc, !fmap_app in Hnd. rewrite fmap_app.
      rewrite (Permutation_app_comm (rest.*1)), app_assoc in Hnd. by apply NoDup_app in Hnd as (? & _). }
    destruct (move_bucket_spec b h1 Hok1 Hmv) as (h1' & -> & Hok1' & Hp & Hu'). simpl.
    eexists. split; [done|].
    assert (Hent : mjoin (<[j := []]> (buckets (table0 d))) ++ mjoin (buckets h1')
                   ≡ₚ mjoin (buckets (table0 d)) ++ mjoin (buckets h1)).
    { rewrite (F []), Hp, E. simpl. rewrite !app_assoc. f_equiv. apply Permutation_app_comm. }
    pose proof (lookup_lt_Some _ _ _ Ej) as Hjl.
    split; [split; simpl|].
    + apply table_ok_insert; [done|constructor|constructor].
    + rewrite Hc, <- (Permutation_length Hent).
      rewrite (entries_rehashing _ h1'); simpl; [done|lia|done].
    + apply (Rehashing _ h1'); simpl; [done|done|rewrite length_insert; lia| | |].
      * intros i c Hi. rewrite list_lookup_insert_Some. intros [(_ & <- & _)|[Hne Hb]]; [done|].
        eapply Hlow'; [|done]. lia.
      * intros e He. rewrite Hp in He. apply elem_of_app in He as [He|He].
        -- pose proof (tok_place _ H0 _ _ Ej) as Hpl. rewrite Forall_forall in Hpl.
           specialize (Hpl _ He). unfold ht_idx in *. simpl. lia.
        -- apply Hhigh in He. unfold ht_idx in *. simpl. lia.
      * rewrite Hu', Hu, Hp, length_app. lia.
    + rewrite (entries_rehashing _ h1'); simpl; [done|lia|done].
  - apply lookup_ge_None in Ej. eexists. split; [done|].
    assert (Hemp : mjoin (buckets (table0 d)) = []).
    { destruct (mjoin (buckets (table0 d))) as [|e l] eqn:Em; [done|].
      assert (He : e ∈ mjoin (buckets (table0 d))) by (rewrite Em; set_solver).
      apply list_elem_of_join in He as (c & Hin & [i Hi]%list_elem_of_lookup).
      pose proof (lookup_lt_Some _ _ _ Hi). rewrite (Hlow' i c) in Hin by (lia || done).
      by apply elem_of_nil in Hin. }
    rewrite Hemp in *. simpl in Hc. rewrite entries_stable by done. simpl.
    split; [|done]. split; simpl; [done| |by apply Stable].
    by rewrite entries_stable.
Qed.

Lemma startRehash_spec d :
  dict_inv d → Z.of_nat (length (entries d)) < 2 ^ 60 →
  dict_inv (startRehashIfNeeded d) ∧ entries (startRehashIfNeeded d) = entries d.
Proof.
  intros Hinv Hsz. unfold startRehashIfNeeded.
  destruct (isRehashing d) eqn:Er; [done|]. destruct (used (table0 d) =? 0); [done|].
  destruct (Z.leb_spec (Z.of_nat (length (buckets (table0 d)))) (used (table0 d))) as [Hle|]; [|done].
  destruct Hinv as [H0 Hc [Hr H1 Hu|h1 H1 _ Hr _ _ _]]; [|rewrite isRehashing_true in Er by lia; done].
  rewrite (entries_stable d) in * by done. unfold startRehash. rewrite Er.
  match goal with |- context [nextPower ?n] => destruct (nextPower_spec n) as (k & Hk & Enp & _) end.
  { case_match; lia. }
  rewrite Enp. pose proof (make_table_ok (2 ^ k) k Hk eq_refl) as Hmk.
  assert (Hent : ∀ c, entries (MkRD (table0 d) (Some (make_table (2 ^ k))) 0 c) = mjoin (buckets (table0 d))).
  { intros c. rewrite (entries_rehashing _ (make_table (2 ^ k))) by done.
    rewrite make_table_empty. simpl. by rewrite app_nil_r. }
  split; [|apply Hent]. split; [done|by rewrite Hent|].
  apply (Rehashing _ (make_table (2 ^ k))); simpl; [done|done|lia| | |].
  - intros. lia.
  - pose proof (make_table_empty (2 ^ k)) as Em. simpl in Em. rewrite Em.
    intros e He. by apply elem_of_nil in He.
  - pose proof (make_table_empty (2 ^ k)) as Em. simpl in Em. by rewrite Em.
Qed.

(** ** Locating a key and updating its bucket *)

(** [located d k w h b]: bucket [b] of table [h] (the second one when [w]) is
    where a binding of [k] belongs. *)
Record located d k (w : bool) h b : Prop := {
  loc_table : get_table d w = Ret h;
  loc_ok : table_ok h;
  loc_bucket : buckets h !! ht_idx h k = Some b;
  loc_side : if w then Z.of_nat (ht_idx (table0 d) k) < rehashIdx d
             else rehashIdx d <= Z.of_nat (ht_idx (table0 d) k)
}.

Lemma located_find d k w h b : dict_inv d → located d k w h b → findEntry b k = dict_map d !! k.
Proof.
  intros Hinv [Ht Hok Hb Hs]. apply option_eq. intros v.
  rewrite findEntry_Some by (by eapply (tok_nodup _ Hok)).
  rewrite dict_map_elem by done. pose proof Hinv as [H0 _ [Hr H1 _|h1 H1 Hok1 Hr Hlow Hhigh _]].
  - rewrite entries_stable by done. destruct w; simpl in Ht; [lia|].
    inv_ret. symmetry. by apply ht_elem.
  - rewrite (entries_rehashing d h1), elem_of_app by (done || lia).
    destruct w; simpl in Ht; [rewrite H1 in Ht|]; simpl in Ht; inv_ret;
      rewrite (ht_elem _ k v b Hok Hb); (split; [auto|]); intros [He|He]; try done.
    + apply table0_above in He; [|done|done]. simpl in He. lia.
    + apply Hhigh in He. simpl in He. lia.
Qed.

Lemma bucketIndex_located d k :
  dict_inv d → ∃ w h b, bucketIndex d k = Ret (w, ht_idx h k) ∧ located d k w h b.
Proof.
  intros Hinv. pose proof Hinv as [H0 Hc [Hr H1 Hu|h1 H1 Hok1 Hr Hlow Hhigh Hu]]; unfold bucketIndex.
  - rewrite isRehashing_false by done. destruct (ht_bucket (table0 d) k H0) as [b Hb].
    exists false, (table0 d), b. split; [done|]. split; simpl; [done|done|done|lia].
  - rewrite isRehashing_true by lia.
    destruct (Z.leb_spec (rehashIdx d) (Z.of_nat (ht_idx (table0 d) k))).
    + destruct (ht_bucket (table0 d) k H0) as [b Hb].
      exists false, (table0 d), b. split; [done|]. by split.
    + rewrite H1. destruct (ht_bucket h1 k Hok1) as [b Hb].
      exists true, h1, b. split; [done|]. split; simpl; [by rewrite H1|done..].
Qed.

(** Replacing the located bucket by one over the same keys and [k]. *)
Lemma update_bucket d k w h b b' :
  dict_inv d → located d k w h b → NoDup b'.*1 →
  (∀ e, e ∈ b' → e.1 = k ∨ e.1 ∈ b.*1) →
  let δ := Z.of_nat (length b') - Z.of_nat (length b) in
  let d' := set_table d w (MkHT (<[ht_idx h k := b']> (buckets h)) (mask h) (used h + δ)) (count d + δ) in
  dict_inv d' ∧ ∃ rest, entries d ≡ₚ b ++ rest ∧ entries d' ≡ₚ b' ++ rest.
Proof.
  intros [H0 Hc Hst] [Ht Hok Hb Hs] Hnd Hkeys δ d'.
  destruct (join_insert _ _ _ Hb) as (rest & E & F).
  assert (Hpl : Forall (λ e, ht_idx h e.1 = ht_idx h k) b').
  { apply Forall_forall. intros e He. destruct (Hkeys e He) as [->|(e0 & -> & He0)%list_elem_of_fmap]; [done|].
    pose proof (tok_place _ Hok _ _ Hb) as Hp. rewrite Forall_forall in Hp. by apply Hp. }
  pose proof (table_ok_insert h _ b' (used h + δ) Hok Hpl Hnd) as Hok'.
  assert (Hδ : Z.of_nat (length (mjoin (<[ht_idx h k := b']> (buckets h)))) = Z.of_nat (length (mjoin (buckets h))) + δ).
  { rewrite (F b'), E, !length_app. unfold δ. lia. }
  assert (Hcd : count d' = count d + δ) by (unfold d'; by destruct w).
  destruct Hst as [Hr H1 Hu|h1 H1 Hok1 Hr Hlow Hhigh Hu].
  - destruct w; simpl in Ht, Hs; [lia|]. inv_ret.
    rewrite (entries_stable d) in * by done.
    assert (Ed : entries d' = mjoin (<[ht_idx (table0 d) k := b']> (buckets (table0 d)))).
    { rewrite entries_stable; done. }
    split; [split|exists rest]; [done|rewrite Hcd, Ed, Hδ; lia| |by rewrite Ed].
    apply Stable; simpl; [done|done|rewrite Hδ; lia].
  - rewrite (entries_rehashing d h1) in * by (done || lia). rewrite length_app in Hc.
    destruct w; simpl in Ht, Hs; [rewrite H1 in Ht; simpl in Ht|]; inv_ret.
    + assert (Ed : entries d' = mjoin (buckets (table0 d)) ++ mjoin (<[ht_idx h k := b']> (buckets h))).
      { rewrite (entries_rehashing d' (MkHT (<[ht_idx h k := b']> (buckets h)) (mask h) (used h + δ))); [done|simpl; lia|done]. }
      split; [split|exists (rest ++ mjoin (buckets (table0 d)))].
      * done.
      * rewrite Hcd, Ed, length_app. lia.
      * apply (Rehashing _ (MkHT (<[ht_idx h k := b']> (buckets h)) (mask h) (used h + δ)));
          cbn [d' set_table table0 table1 rehashIdx buckets used mask]; [done|done|done|done| |by rewrite Hδ, Hu].
        intros e. rewrite (F b'), elem_of_app. intros [He|He].
        -- destruct (Hkeys e He) as [->|(e0 & -> & He0)%list_elem_of_fmap]; [done|].
           apply Hhigh. rewrite E. set_solver.
        -- apply Hhigh. rewrite E. set_solver.
      * rewrite Ed, (F b'), E, (app_assoc b rest), (app_assoc b' rest).
        split; apply Permutation_app_comm.
    + assert (Ed : entries d' = mjoin (<[ht_idx (table0 d) k := b']> (buckets (table0 d))) ++ mjoin (buckets h1)).
      { rewrite (entries_rehashing d' h1); [done|simpl; lia|done]. }
      split; [split|exists (rest ++ mjoin (buckets h1))].
      * done.
      * rewrite Hcd, Ed, length_app. lia.
      * apply (Rehashing _ h1); simpl; [done|done|rewrite length_insert; lia| |done|done].
        intros i c Hi. rewrite list_lookup_insert_Some. intros [(<- & _)|[_ Hc']]; [lia|by eapply Hlow].
      * rewrite Ed, (F b'), E, <- !app_assoc. done.
Qed.

(** The three ways the operations change a bucket, on the abstract map. *)
Lemma insert_head_spec d k w h b v :
  dict_inv d → located d k w h b → dict_map d !! k = None →
  dict_inv (insert_head d w h (ht_idx h k) b k v) ∧
  dict_map (insert_head d w h (ht_idx h k) b k v) = <[k := v]> (dict_map d).
Proof.
  intros Hinv Hl Hn. pose proof (located_find _ _ _ _ _ Hinv Hl) as Hf. rewrite Hn in Hf.
  assert (Hk : k ∉ b.*1).
  { rewrite findEntry_map in Hf. by apply not_elem_of_list_to_map_2 in Hf. }
  destruct (update_bucket d k w h b ((k, v) :: b) Hinv Hl) as (Hinv' & rest & E & E').
  { simpl. apply NoDup_cons. split; [done|]. eapply (tok_nodup _ (loc_ok _ _ _ _ _ Hl)), (loc_bucket _ _ _ _ _ Hl). }
  { intros e [->|He]%elem_of_cons; [by left|]. right. apply list_elem_of_fmap. eauto. }
  unfold insert_head. replace (Z.of_nat (length ((k, v) :: b)) - Z.of_nat (length b)) with 1 in * by (simpl; lia).
  split; [done|]. rewrite (dict_map_perm _ _ Hinv' E'), (dict_map_perm _ _ Hinv E). done.
Qed.

Lemma setEntry_spec d k w h b v0 v :
  dict_inv d → located d k w h b → dict_map d !! k = Some v0 →
  let d' := set_table d w (ht_set h (ht_idx h k) (setEntry b k v)) (count d) in
  dict_inv d' ∧ dict_map d' = <[k := v]> (dict_map d).
Proof.
  intros Hinv Hl Hn d'. pose proof (located_find _ _ _ _ _ Hinv Hl) as Hf. rewrite Hn in Hf.
  destruct (setEntry_split b k v0 v Hf) as (b1 & b2 & Eb & Es).
  pose proof (tok_nodup _ (loc_ok _ _ _ _ _ Hl) _ _ (loc_bucket _ _ _ _ _ Hl)) as Hnd.
  assert (Hk : (setEntry b k v).*1 = b.*1) by (rewrite Es, Eb, !fmap_app; done).
  destruct (update_bucket d k w h b (setEntry b k v) Hinv Hl) as (Hinv' & rest & E & E').
  { by rewrite Hk. }
  { intros e He. right. rewrite <- Hk. apply list_elem_of_fmap. eauto. }
  assert (length (setEntry b k v) = length b) as Hlen by (rewrite Es, Eb, !length_app; done).
  rewrite Hlen, Z.sub_diag, !Z.add_0_r in *. split; [done|].
  assert (Hmid : ∀ x, (b1 ++ (k, x) :: b2) ++ rest ≡ₚ (k, x) :: b1 ++ b2 ++ rest).
  { intros x. rewrite <- Permutation_middle. simpl. by rewrite app_assoc. }
  assert (E2 : entries d' ≡ₚ (k, v) :: b1 ++ b2 ++ rest).
  { unfold d', ht_set. rewrite E', Es. apply Hmid. }
  rewrite Eb, Hmid in E.
  rewrite (dict_map_perm d' _ Hinv' E2), (dict_map_perm _ _ Hinv E). simpl. by rewrite insert_insert_eq.
Qed.

Lemma unlink_spec d k w h b v b' :
  dict_inv d → located d k w h b → unlink b k = Some (v, b') →
  let d' := set_table d w (MkHT (<[ht_idx h k := b']> (buckets h)) (mask h) (used h - 1)) (count d - 1) in
  dict_map d !! k = Some v ∧ dict_inv d' ∧ dict_map d' = delete k (dict_map d).
Proof.
  intros Hinv Hl Hu d'. pose proof (unlink_split b k) as Hs. rewrite Hu in Hs.
  destruct Hs as (Hf & b1 & b2 & Eb & Eb'). rewrite (located_find _ _ _ _ _ Hinv Hl) in Hf.
  pose proof (tok_nodup _ (loc_ok _ _ _ _ _ Hl) _ _ (loc_bucket _ _ _ _ _ Hl)) as Hnd.
  destruct (update_bucket d k w h b b' Hinv Hl) as (Hinv' & rest & E & E').
  { rewrite Eb, fmap_app in Hnd. simpl in Hnd. rewrite <- Permutation_middle in Hnd.
    apply NoDup_cons in Hnd as [_ Hnd]. by rewrite Eb', fmap_app. }
  { intros e He. right. apply list_elem_of_fmap. exists e. split; [done|]. set_solver. }
  assert (Z.of_nat (length b') - Z.of_nat (length b) = -1) as Hlen
    by (rewrite Eb, Eb', !length_app; simpl; lia).
  rewrite Hlen in *. split_and!; [done|done|].
  assert (Hmid : entries d ≡ₚ (k, v) :: b' ++ rest).
  { rewrite E, Eb, Eb', <- Permutation_middle. done. }
  pose proof (entries_nodup d Hinv) as Hne. rewrite Hmid in Hne. apply NoDup_cons in Hne as [Hne _].
  rewrite (dict_map_perm d' _ Hinv' E'), (dict_map_perm _ _ Hinv Hmid).
  simpl. rewrite delete_insert_id; [done|]. by apply not_elem_of_list_to_map_1.
Qed.

(** ** The operations *)

Lemma MakeRedis_inv (sz : Z) : sz <= 2 ^ 61 → dict_inv (@MakeRedis V sz) ∧ entries (@MakeRedis V sz) = [].
Proof.
  intros Hs. unfold MakeRedis.
  match goal with |- context [nextPower ?n] => destruct (nextPower_spec n) as (k & Hk & Enp & _) end.
  { unfold minSize. case_match; lia. }
  rewrite Enp. pose proof (make_table_ok (2 ^ k) k Hk eq_refl) as Hmk.
  assert (He : ∀ c, entries (MkRD (@make_table V (2 ^ k)) None (-1) c) = []).
  { intros c. rewrite entries_stable by done. apply make_table_empty. }
  split; [|apply He]. split; [done|by rewrite He|]. apply Stable; [done|done|].
  simpl. pose proof (make_table_empty (2 ^ k)) as Em. simpl in Em. by rewrite Em.
Qed.

Lemma Clear_inv d : dict_inv (Clear d) ∧ entries (Clear d) = [].
Proof. apply (MakeRedis_inv 4). lia. Qed.

Lemma Get_spec d k : dict_inv d → Get d k = Ret (dict_map d !! k).
Proof.
  intros H. destruct (bucketIndex_located d k H) as (w & h & b & E & Hl).
  unfold Get. rewrite E. simpl. rewrite (loc_table _ _ _ _ _ Hl). simpl.
  rewrite (loc_bucket _ _ _ _ _ Hl). simpl. by rewrite (located_find _ _ _ _ _ H Hl).
Qed.

Lemma locate_spec d k :
  dict_inv d → roomy (dict_map d) →
  ∃ d' w h b, locate d k = Ret (d', w, h, ht_idx h k, b) ∧ dict_inv d' ∧
    located d' k w h b ∧ dict_map d' = dict_map d.
Proof.
  intros Hinv Hr. destruct (startRehash_spec d Hinv) as [I1 E1].
  { rewrite <- (di_count _ Hinv), (dict_map_size _ Hinv). done. }
  destruct (rehashStep_spec _ I1) as (d' & E2 & I2 & P2). rewrite E1 in P2.
  destruct (bucketIndex_located d' k I2) as (w & h & b & E3 & Hl).
  exists d', w, h, b. unfold locate. rewrite E2. simpl. rewrite E3. simpl.
  rewrite (loc_table _ _ _ _ _ Hl). simpl. rewrite (loc_bucket _ _ _ _ _ Hl). simpl.
  split_and!; [done|done|done|]. apply list_to_map_proper; [by apply entries_nodup|done].
Qed.

Lemma Put_spec d k v :
  dict_inv d → roomy (dict_map d) → ∃ d',
    Put d k v = Ret (d', b2z (bool_decide (dict_map d !! k = None))) ∧
    dict_inv d' ∧ dict_map d' = <[k := v]> (dict_map d).
Proof.
  intros Hinv Hr. destruct (locate_spec d k Hinv Hr) as (d1 & w & h & b & E & I1 & Hl & Em).
  unfold Put. rewrite E. simpl. rewrite (located_find _ _ _ _ _ I1 Hl), <- Em.
  destruct (dict_map d1 !! k) as [v0|] eqn:El; eexists; (split; [done|]).
  - by eapply setEntry_spec.
  - by apply insert_head_spec.
Qed.

Lemma PutIfAbsent_spec d k v :
  dict_inv d → roomy (dict_map d) → ∃ d',
    PutIfAbsent d k v = Ret (d', b2z (bool_decide (dict_map d !! k = None))) ∧ dict_inv d' ∧
    dict_map d' = match dict_map d !! k with None => <[k := v]> (dict_map d) | Some _ => dict_map d end.
Proof.
  intros Hinv Hr. destruct (locate_spec d k Hinv Hr) as (d1 & w & h & b & E & I1 & Hl & Em).
  unfold PutIfAbsent. rewrite E. simpl. rewrite (located_find _ _ _ _ _ I1 Hl), <- Em.
  destruct (dict_map d1 !! k) as [v0|] eqn:El; eexists; (split; [done|]); [done|].
  by apply insert_head_spec.
Qed.

Lemma PutIfExists_spec d k v :
  dict_inv d → roomy (dict_map d) → ∃ d',
    PutIfExists d k v = Ret (d', b2z (bool_decide (is_Some (dict_map d !! k)))) ∧ dict_inv d' ∧
    dict_map d' = match dict_map d !! k with Some _ => <[k := v]> (dict_map d) | None => dict_map d end.
Proof.
  intros Hinv Hr. destruct (locate_spec d k Hinv Hr) as (d1 & w & h & b & E & I1 & Hl & Em).
  unfold PutIfExists. rewrite E. simpl. rewrite (located_find _ _ _ _ _ I1 Hl), <- Em.
  destruct (dict_map d1 !! k) as [v0|] eqn:El; eexists; (split; [done|]); [|done].
  by eapply setEntry_spec.
Qed.

(** [Remove] searches the first table and then, while rehashing, the second;
    the bucket it finds the key in is the one where the key belongs. *)
Lemma Remove_found0 d k b v b' :
  dict_inv d → buckets (table0 d) !! ht_idx (table0 d) k = Some b → unlink b k = Some (v, b') →
  located d k false (table0 d) b.
Proof.
  intros [H0 _ Hst] Hb Hu. split; [done|done|done|].
  destruct Hst as [Hr _ _|h1 _ _ Hr Hlow _ _]; [lia|].
  destruct (Z.le_gt_cases (rehashIdx d) (Z.of_nat (ht_idx (table0 d) k))) as [|Hlt]; [done|].
  rewrite (Hlow _ _ Hlt Hb) in Hu. done.
Qed.

Lemma Remove_found1 d h1 k b v b' :
  dict_inv d → isRehashing d = true → table1 d = Some h1 →
  buckets h1 !! ht_idx h1 k = Some b → unlink b k = Some (v, b') → located d k true h1 b.
Proof.
  intros [_ _ Hst] Er H1 Hb Hu.
  destruct Hst as [Hr _ _|h1' H1' Hok1 Hr _ Hhigh _]; [by rewrite isRehashing_false in Er|].
  rewrite H1 in H1'. injection H1' as <-. split; simpl; [by rewrite H1|done|done|].
  apply (Hhigh (k, v)). apply (ht_elem h1 k v b Hok1 Hb).
  pose proof (unlink_split b k) as Hs. rewrite Hu in Hs. destruct Hs as (_ & b1 & b2 & -> & _). set_solver.
Qed.

Lemma rehashStep_map d :
  dict_inv d → ∃ d', (if isRehashing d then rehashStep d else Ret d) = Ret d' ∧ dict_inv d' ∧ dict_map d' = dict_map d.
Proof.
  intros H. destruct (isRehashing d); [|by exists d].
  destruct (rehashStep_spec d H) as (d' & -> & I & P). exists d'. split_and!; [done|done|].
  apply list_to_map_proper; [by apply entries_nodup|done].
Qed.

Lemma Remove_none d k :
  dict_inv d →
  (∀ b, buckets (table0 d) !! ht_idx (table0 d) k = Some b → unlink b k = None) →
  (∀ h1 b, isRehashing d = true → table1 d = Some h1 → buckets h1 !! ht_idx h1 k = Some b → unlink b k = None) →
  dict_map d !! k = None.
Proof.
  intros H N0 N1. destruct (bucketIndex_located d k H) as (w & h & b & _ & Hl).
  rewrite <- (located_find _ _ _ _ _ H Hl). destruct Hl as [Ht _ Hb Hs].
  pose proof (unlink_split b k) as Hu. destruct w; simpl in Ht.
  - destruct (table1 d) as [h1|] eqn:E1; simpl in Ht; inv_ret.
    rewrite (N1 h b) in Hu; try done. apply isRehashing_true. lia.
  - inv_ret. by rewrite (N0 b) in Hu.
Qed.

Lemma Remove_spec d k :
  dict_inv d → ∃ d',
    Remove d k = Ret (d', dict_map d !! k, b2z (bool_decide (is_Some (dict_map d !! k)))) ∧
    dict_inv d' ∧ dict_map d' = delete k (dict_map d).
Proof.
  intros Hinv. destruct (rehashStep_map d Hinv) as (d1 & E & I & Em). rewrite <- Em. clear Em.
  unfold Remove. rewrite E. clear E Hinv d. cbn [mbind res_bind].
  destruct (ht_bucket (table0 d1) k (di_table0 _ I)) as [b0 Hb0].
  unfold remove_from. rewrite Hb0. simpl.
  destruct (unlink b0 k) as [[v b']|] eqn:U0; simpl.
  { destruct (unlink_spec d1 k false (table0 d1) b0 v b' I) as (Hk & I' & Em'); [by eapply Remove_found0|done|].
    rewrite Hk. eexists. done. }
  assert (Hnone : dict_map d1 !! k = None → ∃ d' : RedisDict, Ret (d1, None, 0) =
     Ret (d', dict_map d1 !! k, b2z (bool_decide (is_Some (dict_map d1 !! k)))) ∧
     dict_inv d' ∧ dict_map d' = delete k (dict_map d1)).
  { intros Hk. exists d1. rewrite Hk. split_and!; [done|done|]. by rewrite delete_id. }
  destruct (isRehashing d1) eqn:Er; simpl.
  2:{ apply Hnone, Remove_none; [done|intros; congruence|intros; congruence]. }
  destruct (table1 d1) as [h1|] eqn:E1.
  2:{ apply Hnone, Remove_none; [done|intros; congruence|intros; congruence]. }
  assert (table_ok h1) as Hok1.
  { destruct I as [_ _ [Hr _ _|h1' H1' ? _ _ _ _]]; [by rewrite isRehashing_false in Er|congruence]. }
  destruct (ht_bucket h1 k Hok1) as [b1 Hb1]. rewrite Hb1. simpl.
  destruct (unlink b1 k) as [[v b']|] eqn:U1; simpl.
  - destruct (unlink_spec d1 k true h1 b1 v b' I) as (Hk & I' & Em'); [by eapply Remove_found1|done|].
    rewrite Hk. eexists. done.
  - apply Hnone, Remove_none; [done|intros; congruence|].
    intros h1' b Hr' H1' Hb'. congruence.
Qed.

#[global] Instance redis_ops : DictOps (@RedisDict V) V := {
  d_make := MakeRedis 4;
  d_Get := Get; d_Len := Len; d_Put := Put; d_PutIfAbsent := PutIfAbsent;
  d_PutIfExists := PutIfExists; d_Remove := Remove; d_Clear := Clear;
  d_order := λ d ord, ord = entries d
}.

#[global, refine] Instance redis_laws : DictLaws (@RedisDict V) V := {
  d_inv := dict_inv; d_map := dict_map
}.
Proof.
  - destruct (MakeRedis_inv 4) as [H E]; [lia|]. split; [done|].
    change (dict_map (@MakeRedis V 4) = ∅). unfold dict_map. by rewrite E.
  - exact Get_spec.
  - intros d H. simpl. unfold Len. by rewrite dict_map_size.
  - exact Put_spec.
  - exact PutIfAbsent_spec.
  - exact PutIfExists_spec.
  - exact Remove_spec.
  - intros d _. destruct (Clear_inv d) as [H E]. split; [done|].
    change (dict_map (Clear d) = ∅). unfold dict_map. by rewrite E.
  - intros d ord H ->. symmetry. apply map_to_list_to_map. by apply entries_nodup.
  - intros d _. by exists (entries d).
Defined.

(** ** DictScan on an unmodified dict *)

(** The buckets a scan walks over. *)
Definition scan_buckets d : list (list (bytes * V)) :=
  buckets (table0 d) ++ (if isRehashing d then match table1 d with Some h => buckets h | None => [] end else []).

Lemma scan_buckets_entries d : mjoin (scan_buckets d) = entries d.
Proof.
  unfold scan_buckets, entries. rewrite join_app. f_equal.
  destruct (isRehashing d); [|done]. by destruct (table1 d).
Qed.

Abbreviation matching m bs := (filter (λ k, m k = true) (mjoin bs).*1).

Lemma scan_table_spec m cnt (bs : list (list (bytes * V))) i r :
  ∃ n, (n <= length bs)%nat ∧
    scan_table m cnt bs i r = (r ++ matching m (take n bs), i + Z.of_nat n) ∧
    (Z.of_nat (length r) < cnt → bs ≠ [] → (0 < n)%nat) ∧
    ((n < length bs)%nat → cnt <= Z.of_nat (length (r ++ matching m (take n bs)))).
Proof.
  revert i r. induction bs as [|b bs IH]; intros i r; simpl.
  { exists 0%nat. simpl. rewrite app_nil_r, Z.add_0_r. split_and!; [lia|done|congruence|lia]. }
  destruct (Z.ltb_spec (Z.of_nat (length r)) cnt) as [Hlt|Hge].
  - destruct (IH (i + 1) (r ++ filter (λ k, m k = true) b.*1)) as (n & Hn & E & _ & Hc).
    exists (S n). simpl. rewrite fmap_app, filter_app, E, <- app_assoc in *.
    split_and!; [lia|f_equal; lia|lia|]. intros. apply Hc. lia.
  - exists 0%nat. simpl. rewrite app_nil_r, Z.add_0_r. split_and!; [lia|done|lia|]. lia.
Qed.

(** A scan over two consecutive ranges of buckets. *)
Lemma scan_table_app m cnt (bs1 bs2 : list (list (bytes * V))) i r :
  scan_table m cnt (bs1 ++ bs2) i r =
  let '(r1, i1) := scan_table m cnt bs1 i r in
  if i1 <? i + Z.of_nat (length bs1) then (r1, i1) else scan_table m cnt bs2 i1 r1.
Proof.
  revert i r. induction bs1 as [|b bs1 IH]; intros i r; simpl.
  { by rewrite Z.add_0_r, Z.ltb_irrefl. }
  destruct (Z.of_nat (length r) <? cnt).
  - rewrite IH. destruct (scan_table _ _ _ _ _) as [r1 i1].
    replace (i + 1 + Z.of_nat (length bs1)) with (i + Z.of_nat (S (length bs1))) by lia. done.
  - destruct (Z.ltb_spec i (i + Z.of_nat (S (length bs1)))); [done|lia].
Qed.

(** The key matcher of a scan: [None] for a pattern that does not compile. *)
Definition scan_match (compile : bytes → option (bytes → bool)) (pattern : bytes) : option (bytes → bool) :=
  if bytes_eqb pattern (str "*") then Some (λ _, true) else compile pattern.

Lemma tables_nonempty d : dict_inv d →
  0 < Z.of_nat (length (buckets (table0 d))) ∧
  (∀ h1, isRehashing d = true → table1 d = Some h1 → 0 < Z.of_nat (length (buckets h1))).
Proof.
  intros [[(n & Hn & -> & _) _ _] _ Hst].
  split; [apply Z.pow_pos_nonneg; lia|]. intros h1 Er H1.
  destruct Hst as [Hr _ _|h1' H1' [(n' & Hn' & El & _) _ _] _ _ _ _]; [by rewrite isRehashing_false in Er|].
  assert (h1' = h1) as -> by congruence. rewrite El. apply Z.pow_pos_nonneg; lia.
Qed.

Lemma table1_rehashing d : dict_inv d → isRehashing d = true → ∃ h1, table1 d = Some h1.
Proof.
  intros [_ _ [Hr _ _|h1 H1 _ _ _ _ _]] Er; [by rewrite isRehashing_false in Er|eauto].
Qed.

(** A scan that has enough keys already does not move. *)
Lemma scan_table_stop m cnt (bs : list (list (bytes * V))) i r :
  cnt <= Z.of_nat (length r) → scan_table m cnt bs i r = (r, i).
Proof. intros H. destruct bs as [|b bs]; simpl; [done|]. destruct (Z.ltb_spec (Z.of_nat (length r)) cnt); [lia|done]. Qed.

(** The start index only shifts the result. *)
Lemma scan_table_shift m cnt (bs : list (list (bytes * V))) i j r :
  scan_table m cnt bs (j + i) r = let '(r', n) := scan_table m cnt bs i r in (r', j + n).
Proof.
  revert i r. induction bs as [|b bs IH]; intros i r; simpl; [done|].
  destruct (Z.of_nat (length r) <? cnt); [|done]. rewrite <- IH. f_equal. lia.
Qed.

(** The two-table part of [DictScan] is one scan over both tables' buckets. *)
Lemma scan_two_tables m cnt (bs0 bs1 : list (list (bytes * V))) cursor :
  0 < Z.of_nat (length bs0) → 0 < Z.of_nat (length bs1) →
  0 <= cursor < Z.of_nat (length bs0 + length bs1) → 0 < cnt →
  let s0 := Z.of_nat (length bs0) in
  let s1 := Z.of_nat (length bs1) in
  let i0 := if cursor <? s0 then cursor else s0 in
  let i1 := if cursor <? s0 then 0 else cursor - s0 in
  let '(r0, j0) := if i0 <? s0 then scan_table m cnt (drop (Z.to_nat i0) bs0) i0 [] else ([], i0) in
  let '(r1, j1) := if i1 <? s1 then scan_table m cnt (drop (Z.to_nat i1) bs1) i1 r0 else (r0, i1) in
  let '(r, i) := scan_table m cnt (drop (Z.to_nat cursor) (bs0 ++ bs1)) cursor [] in
  r1 = r ∧ (if (s1 <=? j1) && (s0 <=? j0) then 0 else if j0 <? s0 then j0 else s0 + j1)
           = (if s0 + s1 <=? i then 0 else i).
Proof.
  intros Hp0 Hp1 Hcur Hcnt s0 s1 i0 i1. unfold i0, i1. clear i0 i1.
  destruct (Z.ltb_spec cursor s0) as [Hc|Hc].
  - destruct (Z.ltb_spec cursor s0); [|lia]. rewrite drop_app_le by lia.
    rewrite scan_table_app, length_drop. change (Z.to_nat 0) with 0%nat. rewrite drop_0.
    destruct (scan_table_spec m cnt (drop (Z.to_nat cursor) bs0) cursor []) as (n & Hn & -> & _ & Hfull).
    rewrite length_drop in *. cbn [app] in *. destruct (Z.ltb_spec 0 s1); [|lia].
    destruct (Z.ltb_spec (cursor + Z.of_nat n) (cursor + Z.of_nat (length bs0 - Z.to_nat cursor))) as [Hs|Hs].
    + rewrite scan_table_stop by (apply Hfull; lia). split; [done|].
      destruct (Z.leb_spec s1 0); [lia|]. destruct (Z.ltb_spec (cursor + Z.of_nat n) s0); [|lia]. simpl.
      destruct (Z.leb_spec (s0 + s1) (cursor + Z.of_nat n)); [lia|done].
    + replace (cursor + Z.of_nat n) with (s0 + 0) by lia. rewrite scan_table_shift.
      destruct (scan_table m cnt bs1 0 _) as [r1 n1] eqn:E1. split; [done|].
      destruct (Z.ltb_spec (s0 + 0) s0); [lia|]. destruct (Z.leb_spec s0 (s0 + 0)); [|lia].
      rewrite andb_true_r.
      destruct (Z.leb_spec s1 n1), (Z.leb_spec (s0 + s1) (s0 + n1)); lia.
  - destruct (Z.ltb_spec s0 s0); [lia|]. destruct (Z.ltb_spec (cursor - s0) s1); [|lia].
    rewrite drop_app_ge by lia. replace (Z.to_nat cursor - length bs0)%nat with (Z.to_nat (cursor - s0)) by lia.
    pose proof (scan_table_shift m cnt (drop (Z.to_nat (cursor - s0)) bs1) (cursor - s0) s0 []) as Hsh.
    replace (s0 + (cursor - s0)) with cursor in Hsh by lia. rewrite Hsh.
    destruct (scan_table m cnt _ (cursor - s0) []) as [r1 n1]. split; [done|].
    destruct (Z.leb_spec s0 s0); [|lia]. rewrite andb_true_r, ?Z.ltb_irrefl.
    destruct (Z.leb_spec s1 n1), (Z.leb_spec (s0 + s1) (s0 + n1)); lia.
Qed.

(** Away from the fast path, one call scans the buckets from the cursor on. *)
Lemma DictScan_flat compile d cursor cnt pattern m :
  dict_inv d → 0 < cnt → 0 <= cursor < Z.of_nat (length (scan_buckets d)) →
  scan_match compile pattern = Some m → count d ≠ 0 →
  bytes_eqb pattern (str "*") && (count d <=? cnt) = false →
  DictScan compile d cursor cnt pattern =
    let '(r, i) := scan_table m cnt (drop (Z.to_nat cursor) (scan_buckets d)) cursor [] in
    Ret (r, if Z.of_nat (length (scan_buckets d)) <=? i then 0 else i).
Proof.
  intros Hinv Hcnt Hcur Hm Hne Hslow. destruct (tables_nonempty d Hinv) as [Hp0 Hp1].
  unfold DictScan, scan_match in *. rewrite Hm, Hslow.
  destruct (Z.eqb_spec (count d) 0); [done|]. unfold scan_buckets in *.
  destruct (isRehashing d) eqn:Er.
  - destruct (table1_rehashing d Hinv Er) as [h1 H1]. rewrite H1 in *. specialize (Hp1 h1 eq_refl eq_refl).
    pose proof (scan_two_tables m cnt (buckets (table0 d)) (buckets h1) cursor Hp0 Hp1) as H2.
    rewrite length_app in *. specialize (H2 Hcur Hcnt). cbv zeta in H2.
    destruct (Z.ltb_spec 0 (Z.of_nat (length (buckets h1)))); [|lia]. cbn [andb].
    destruct ((if cursor <? _ then cursor else _) <? 0) eqn:En.
    { exfalso. zbool. destruct (Z.ltb_spec cursor (Z.of_nat (length (buckets (table0 d))))); lia. }
    cbn [andb]. destruct (if _ <? _ then scan_table _ _ _ _ _ else _) as [r0 j0] eqn:E0.
    destruct (if (if cursor <? _ then 0 else _) <? _ then _ else _) as [r1 j1] eqn:E1.
    destruct (scan_table m cnt (drop _ (_ ++ _)) cursor []) as [r i].
    destruct H2 as [-> H2]. rewrite Nat2Z.inj_add, <- H2. by repeat case_match.
  - rewrite app_nil_r in *. destruct (Z.ltb_spec cursor 0); [lia|]. cbn [andb].
    destruct (Z.ltb_spec cursor (Z.of_nat (length (buckets (table0 d))))); [|lia].
    destruct (scan_table _ _ _ _ _) as [r i].
    destruct (table1 d); cbn [andb]; by destruct (_ <=? i).
Qed.

(** The client loop of the SCAN command: call until the cursor is 0 again. *)
Fixpoint scan_all (fuel : nat) (compile : bytes → option (bytes → bool)) d (cursor cnt : Z) (pattern : bytes) : res (list bytes) :=
  match fuel with
  | O => OutOfFuel
  | S f =>
      '(ks, c) ← DictScan compile d cursor cnt pattern;
      if c =? 0 then Ret ks
      else rest ← scan_all f compile d c cnt pattern; Ret (ks ++ rest)
  end.

Lemma scan_all_from fuel compile d cursor cnt pattern m :
  dict_inv d → 0 < cnt → 0 <= cursor < Z.of_nat (length (scan_buckets d)) →
  scan_match compile pattern = Some m → count d ≠ 0 →
  bytes_eqb pattern (str "*") && (count d <=? cnt) = false →
  (length (scan_buckets d) - Z.to_nat cursor < fuel)%nat →
  scan_all fuel compile d cursor cnt pattern = Ret (matching m (drop (Z.to_nat cursor) (scan_buckets d))).
Proof.
  intros Hinv Hcnt Hcur Hm Hne Hslow. revert cursor Hcur.
  induction fuel as [|fuel IH]; intros cursor Hcur Hf; [lia|].
  cbn [scan_all]. rewrite (DictScan_flat compile d cursor cnt pattern m) by done.
  set (bs := drop (Z.to_nat cursor) (scan_buckets d)).
  destruct (scan_table_spec m cnt bs cursor []) as (n & Hn & -> & Hpos & _).
  assert (Hlen : length bs = (length (scan_buckets d) - Z.to_nat cursor)%nat) by apply length_drop.
  assert (0 < n)%nat. { apply Hpos; [done|]. intros E. rewrite E in Hlen. simpl in Hlen. lia. }
  cbn [mbind res_bind app].
  destruct (Z.leb_spec (Z.of_nat (length (scan_buckets d))) (cursor + Z.of_nat n)) as [Hl|Hl].
  - cbn. rewrite take_ge by lia. done.
  - destruct (Z.eqb_spec (cursor + Z.of_nat n) 0); [lia|]. rewrite IH by lia. cbn [mbind res_bind].
    f_equal. rewrite <- filter_app, <- fmap_app, <- join_app. do 3 f_equal.
    rewrite <- (take_drop n bs) at 2. f_equal. unfold bs. rewrite drop_drop. f_equal. lia.
Qed.

Lemma scan_all_spec compile d cnt pattern m :
  dict_inv d → 0 < cnt → scan_match compile pattern = Some m →
  scan_all (S (S (length (scan_buckets d)))) compile d 0 cnt pattern
    = Ret (filter (λ k, m k = true) (entries d).*1).
Proof.
  intros Hinv Hcnt Hm. destruct (tables_nonempty d Hinv) as [Hp0 _].
  assert (0 < length (scan_buckets d))%nat by (unfold scan_buckets; rewrite length_app; lia).
  destruct (decide (count d = 0)) as [Hz|Hne].
  { cbn [scan_all]. unfold DictScan. rewrite Hz. cbn.
    rewrite (di_count _ Hinv) in Hz. by destruct (entries d). }
  destruct (bytes_eqb pattern (str "*") && (count d <=? cnt)) eqn:Es.
  { cbn [scan_all]. unfold DictScan. rewrite Es. destruct (Z.eqb_spec (count d) 0); [done|]. cbn.
    f_equal. apply andb_true_iff in Es as [Es _]. unfold scan_match in Hm. rewrite Es in Hm.
    injection Hm as <-. clear. induction (entries d).*1 as [|k l IH]; [done|].
    rewrite filter_cons_True by done. by rewrite <- IH. }
  rewrite (scan_all_from _ compile d 0 cnt pattern m) by (done || lia).
  change (Z.to_nat 0) with 0%nat. by rewrite drop_0, scan_buckets_entries.
Qed.

(** A rehash step strictly advances [rehashIdx] or ends the rehash. *)
Lemma rehashStep_progress d d' :
  dict_inv d → isRehashing d = true → rehashStep d = Ret d' →
  isRehashing d' = false ∨
  (isRehashing d' = true ∧ rehashIdx d < rehashIdx d' ∧
   length (buckets (table0 d')) = length (buckets (table0 d))).
Proof.
  intros [H0 _ Hst] Er. unfold rehashStep. rewrite Er. simpl.
  destruct Hst as [Hr _ _|h1 H1 _ Hr _ _ _]; [by rewrite isRehashing_false in Er|].
  rewrite H1. simpl.
  destruct (skip_empty_spec (drop (Z.to_nat (rehashIdx d)) (buckets (table0 d))) (Z.to_nat (rehashIdx d)))
    as (S1 & _).
  destruct (buckets (table0 d) !! _) as [b|]; [|intros [= <-]; by left].
  destruct (move_bucket h1 b) as [h1'| |]; simpl; [|done|done]. intros [= <-].
  right. simpl. rewrite length_insert. split_and!; [apply isRehashing_true; simpl; lia|lia|done].
Qed.

(** [n] rehash steps, as done by [n] writes. *)
Fixpoint rehashSteps (n : nat) d : res RedisDict :=
  match n with O => Ret d | S n' => d' ← rehashStep d; rehashSteps n' d' end.

Lemma rehashSteps_stable n d : isRehashing d = false → rehashSteps n d = Ret d.
Proof. intros H. induction n as [|n IH]; [done|]. simpl. unfold rehashStep. by rewrite H. Qed.

Lemma rehashSteps_complete n d :
  dict_inv d → Z.of_nat (length (buckets (table0 d))) - rehashIdx d < Z.of_nat n →
  ∃ d', rehashSteps n d = Ret d' ∧ dict_inv d' ∧ isRehashing d' = false ∧ dict_map d' = dict_map d.
Proof.
  revert d. induction n as [|n IH]; intros d Hinv Hn.
  { exfalso. destruct Hinv as [_ _ [Hr _ _|? _ _ Hr _ _ _]]; lia. }
  destruct (isRehashing d) eqn:Er; [|by exists d; rewrite rehashSteps_stable].
  destruct (rehashStep_spec d Hinv) as (d1 & E & I1 & P). simpl. rewrite E. simpl.
  assert (Em : dict_map d1 = dict_map d) by (apply list_to_map_proper; [by apply entries_nodup|done]).
  rewrite <- Em. destruct (rehashStep_progress d d1 Hinv Er E) as [Es|(Er1 & Hi & Hl)].
  - exists d1. by rewrite rehashSteps_stable.
  - apply IH; [done|]. rewrite Hl. lia.
Qed.
End laws.

(** ** Properties *)

(** C9: [RedisDict] is indistinguishable from a plain map: any sequence of
    interface operations, started on an empty dict of any size hint, returns
    without a panic the same results as the same sequence on [SimpleDict],
    whatever rehashes happen in between; at the end both hold the same
    bindings. *)
Theorem redis_dict_refines_simple {V} (sz : Z) (cs : list (dict_cmd V)) :
  sz <= 2 ^ 61 → Z.of_nat (length cs) < 2 ^ 60 →
  ∃ d s os,
    dict_run (@MakeRedis V sz) cs = Ret (d, os) ∧
    dict_run (@SimpleDict.MakeSimple V) cs = Ret (s, os) ∧
    dict_inv d ∧ dict_map d = SimpleDict.m s.
Proof.
  intros Hs Hc. destruct (@MakeRedis_inv V sz Hs) as [I E].
  destruct (dict_run_agree cs (@MakeRedis V sz) (@SimpleDict.MakeSimple V)) as (d & s & os & E1 & E2 & I1 & _ & Em).
  - done.
  - done.
  - simpl. unfold dict_map. by rewrite E.
  - simpl. unfold dict_map. rewrite E. simpl. rewrite map_size_empty. lia.
  - exists d, s, os. done.
Qed.

Lemma redis_dict_refines_simple_witness :
  ∃ d s os,
    dict_run (@MakeRedis Z 4) [CPut (str "a") 1; CPut (str "a") 2; CRemove (str "b"); CLen] = Ret (d, os) ∧
    dict_run (@SimpleDict.MakeSimple Z) [CPut (str "a") 1; CPut (str "a") 2; CRemove (str "b"); CLen] = Ret (s, os) ∧
    dict_inv d ∧ dict_map d = SimpleDict.m s.
Proof. apply (redis_dict_refines_simple 4); [lia|simpl; lia]. Defined.

(** Incremental rehashing terminates and loses nothing: from any state of
    the invariant, as many rehash steps as the first table has buckets left,
    plus one, end the rehash, and the dict holds the same bindings. *)
Theorem rehash_completes {V} (d : @RedisDict V) (n : nat) :
  dict_inv d → Z.of_nat (length (buckets (table0 d))) - rehashIdx d < Z.of_nat n →
  ∃ d', rehashSteps n d = Ret d' ∧ dict_inv d' ∧ isRehashing d' = false ∧ dict_map d' = dict_map d.
Proof. apply rehashSteps_complete. Qed.

Lemma rehash_completes_witness :
  ∃ d', rehashSteps 6 (startRehash (@MakeRedis Z 4) 8) = Ret d' ∧ dict_inv d' ∧
        isRehashing d' = false ∧ dict_map d' = dict_map (startRehash (@MakeRedis Z 4) 8).
Proof.
  apply (rehash_completes (startRehash (@MakeRedis Z 4) 8) 6); [|vm_compute; done].
  split; [by apply (make_table_ok 4 2)|done|].
  apply (Rehashing _ (make_table 8)); [done|by apply (make_table_ok 8 3)|vm_compute; done| | |done].
  - intros i b Hi. simpl in Hi. lia.
  - intros e He. vm_compute in He. by apply elem_of_nil in He.
Defined.

(** [nextPower] returns the least power of two that is at least [n] and at
    least 4, for every [n] up to 2^61; beyond 2^62 the increment overflows. *)
Theorem nextPower_least n :
  n <= 2 ^ 61 →
  ∃ k, 2 <= k <= 61 ∧ nextPower n = 2 ^ k ∧ n <= 2 ^ k ∧
       (∀ j, 2 <= j → n <= 2 ^ j → k <= j).
Proof.
  intros Hn. destruct (nextPower_spec n Hn) as (k & Hk & E & Hle & Hlt).
  exists k. split_and!; try done; try lia. intros j Hj Hnj.
  destruct (Z.le_gt_cases k j) as [|Hgt]; [done|]. destruct (Z.le_gt_cases n 4) as [H4|H4].
  - unfold nextPower, minSize in E. destruct (Z.leb_spec n 4); [|lia].
    assert (2 ^ 3 <= 2 ^ k) by (apply Z.pow_le_mono_r; lia). lia.
  - specialize (Hlt H4). assert (2 ^ j <= 2 ^ (k - 1)) by (apply Z.pow_le_mono_r; lia). lia.
Qed.

Lemma nextPower_least_witness :
  ∃ k, 2 <= k <= 61 ∧ nextPower 1000 = 2 ^ k ∧ 1000 <= 2 ^ k ∧ (∀ j, 2 <= j → 1000 <= 2 ^ j → k <= j).
Proof. apply nextPower_least. lia. Defined.

(** C36: a SCAN over a dict that is not modified in between terminates and
    returns every key that matches the pattern exactly once, also in the middle
    of a rehash and for every positive COUNT. *)
Theorem scan_complete_unmodified {V} compile (d : @RedisDict V) cnt pattern m :
  dict_inv d → 0 < cnt → scan_match compile pattern = Some m →
  ∃ ks, scan_all (S (S (length (scan_buckets d)))) compile d 0 cnt pattern = Ret ks ∧
        NoDup ks ∧ ∀ k, k ∈ ks ↔ m k = true ∧ is_Some (dict_map d !! k).
Proof.
  intros Hinv Hcnt Hm. eexists. split; [by apply (scan_all_spec compile d cnt pattern m)|].
  pose proof (entries_nodup d Hinv) as Hnd. split; [by apply NoDup_filter|].
  intros k. rewrite list_elem_of_filter. f_equiv. rewrite list_elem_of_fmap. split.
  - intros ([k' v] & -> & He). exists v. by apply dict_map_elem.
  - intros [v Hv%dict_map_elem]; [|done]. by exists (k, v).
Qed.

(** A dict with the given keys, each put with the value 1. *)
Definition put_keys (d : @RedisDict Z) (ks : list string) : res RedisDict :=
  foldl (λ r k, d ← r; '(d', _) ← Put d (str k) 1; Ret d') (Ret d) ks.

Lemma put_keys_inv (ks : list string) d :
  dict_inv d → Z.of_nat (size (dict_map d) + length ks) < 2 ^ 60 → ∃ d', put_keys d ks = Ret d' ∧ dict_inv d'.
Proof.
  revert d. induction ks as [|k ks IH]; intros d Hd Hs; [by exists d|]. cbn [length] in Hs.
  destruct (Put_spec d (str k) 1 Hd) as (d1 & E & H1 & E1); [unfold roomy; lia|].
  destruct (IH d1 H1) as (d2 & E2 & H2).
  - rewrite E1. pose proof (map_size_insert (str k) 1 (dict_map d)) as ->. destruct (dict_map d !! str k); cbn; lia.
  - exists d2. split; [|done]. unfold put_keys in *. cbn [foldl mbind res_bind]. by rewrite E.
Qed.

(** Five keys in a dict that is being rehashed, two buckets at a time. *)
Lemma scan_complete_unmodified_witness :
  ∃ d ks, put_keys (MakeRedis 4) ["a"; "b"; "c"; "d"; "e"] = Ret d ∧ isRehashing d = true ∧
    scan_all 14 (λ _, None) d 0 2 (str "*") = Ret ks ∧ length ks = 5%nat ∧
    NoDup ks ∧ ∀ k, k ∈ ks ↔ true = true ∧ is_Some (dict_map d !! k).
Proof.
  destruct (put_keys_inv ["a"; "b"; "c"; "d"; "e"] (MakeRedis 4)) as (d & E & Hinv).
  - apply MakeRedis_inv. lia.
  - vm_compute. reflexivity.
  - destruct (scan_complete_unmodified (λ _, None) d 2 (str "*") (λ _, true) Hinv) as (ks & Es & Hks); [lia|done|].
    exists d, ks. split; [exact E|].
    assert (isRehashing <$> put_keys (MakeRedis 4) ["a"; "b"; "c"; "d"; "e"] = Ret true) as Hr by (vm_compute; reflexivity).
    assert (Hb : (λ d, length (scan_buckets d)) <$> put_keys (MakeRedis 4) ["a"; "b"; "c"; "d"; "e"] = Ret 12%nat) by (vm_compute; reflexivity).
    assert (Hn : (λ d, length <$> scan_all 14 (λ _, None) d 0 2 (str "*")) <$> put_keys (MakeRedis 4) ["a"; "b"; "c"; "d"; "e"] = Ret (Ret 5%nat))
      by (vm_compute; reflexivity).
    rewrite E in Hr, Hb, Hn. injection Hr as Hr. injection Hb as Hb. split; [exact Hr|]. rewrite Hb in Es. split; [exact Es|].
    change (Ret (length <$> scan_all 14 (λ _, None) d 0 2 (str "*")) = Ret (Ret 5%nat)) in Hn. rewrite Es in Hn.
    injection Hn as Hn. split; [exact Hn|exact Hks].
Defined.

(** COUNT 0 is accepted and ends the iteration at once, without any key. *)
Lemma scan_count_zero_returns_nothing :
  ∃ d, put_keys (MakeRedis 4) ["a"; "b"] = Ret d ∧ DictScan (λ _, None) d 0 0 (str "*") = Ret ([], 0).
Proof. eexists. split; vm_compute; reflexivity. Qed.

(** The guarantee does not extend to a dict that is written to during the
    scan.  With the keys a to e stored, a SCAN of COUNT 1 returns a non-zero
    cursor; after four more writes have finished the rehash, following that
    cursor to the end never returns the key e, although it was in the dict all
    the time. *)
Theorem scan_misses_key_across_rehash :
  ∃ d1 d2 ks1 c ks2,
    put_keys (MakeRedis 4) ["a"; "b"; "c"; "d"; "e"] = Ret d1 ∧
    DictScan (λ _, None) d1 0 1 (str "*") = Ret (ks1, c) ∧ c ≠ 0 ∧
    put_keys d1 ["u"; "v"; "w"; "x"] = Ret d2 ∧
    scan_all 20 (λ _, None) d2 c 1 (str "*") = Ret ks2 ∧
    Get d1 (str "e") = Ret (Some 1) ∧ Get d2 (str "e") = Ret (Some 1) ∧
    str "e" ∉ ks1 ++ ks2.
Proof.
  eexists _, _, _, _, _. split_and!; try (vm_compute; reflexivity); [vm_compute; discriminate|].
  vm_compute. intros H. repeat (apply elem_of_cons in H as [H|H]; [discriminate H|]).
  by apply elem_of_nil in H.
Qed.

(** SCAN accepts any integer as a cursor; a negative one makes [DictScan]
    index a bucket slice below zero and panic, for every non-empty dict and
    every positive COUNT that does not cover it in one step. *)
Theorem scan_negative_cursor_panics {V} compile (d : @RedisDict V) cursor cnt :
  dict_inv d → cursor < 0 → 0 < cnt < count d →
  DictScan compile d cursor cnt (str "*") = Panic.
Proof.
  intros Hinv Hc Hcnt. destruct (tables_nonempty d Hinv) as [Hp0 _]. unfold DictScan.
  destruct (Z.eqb_spec (count d) 0); [lia|]. destruct (Z.leb_spec (count d) cnt); [lia|].
  rewrite bytes_eqb_refl. cbn [andb].
  destruct (Z.ltb_spec cursor (Z.of_nat (length (buckets (table0 d))))); [|lia].
  destruct (isRehashing d); (destruct (Z.ltb_spec cursor 0); [|lia]);
    (destruct (Z.ltb_spec 0 cnt); [done|lia]).
Qed.

Lemma scan_negative_cursor_panics_witness :
  ∃ d, put_keys (MakeRedis 4) ["a"; "b"] = Ret d ∧ DictScan (λ _, None) d (-1) 1 (str "*") = Panic.
Proof.
  destruct (Put_spec (@MakeRedis Z 4) (str "a") 1) as (d1 & E1 & I1 & M1);
    [apply MakeRedis_inv; lia|vm_compute; done|].
  destruct (Put_spec d1 (str "b") 1) as (d2 & E2 & I2 & M2);
    [done|rewrite M1; vm_compute; done|].
  exists d2. split.
  - unfold put_keys. cbn [foldl mbind res_bind]. rewrite E1. cbn [mbind res_bind]. rewrite E2. done.
  - apply (scan_negative_cursor_panics (λ _, None) d2 (-1) 1); [done|lia|].
    rewrite (dict_map_size _ I2), M2, M1. vm_compute. done.
Defined.
