(* ===== verification/QuickList.v ===== *)
(** * QuickList: [internal/datastruct/list/quicklist.go]

    A list of pages.  The doubly linked list of Go's [container/list] is the
    list of its pages, a [*list.Element] is the position of its page, and a
    page keeps the capacity of its slice because [Add] opens a new page when
    the last one is full.  How much a reallocating [append] grows a slice is
    left open by the language: it is the parameter [growslice].

    The abstract value is the concatenation of the pages; every operation is
    characterised on it, with its panics. *)

From stdpp Require Import base list.
From Stdlib Require Import ZArith Lia.
From S2P Require Import Prelude.

Local Open Scope Z_scope.

Module QL.

Definition pageSize : nat := 1024.

Section QuickList.
Context {A : Type} (growslice : Z → nat → Z).

Record page := MkPage { elems : list A; cap : Z }.
Record QuickList := MkQL { data : list page; size : Z }.
Record iterator := MkIter { node : option nat; offset : Z }.

(** [append]: the capacity of a slice that now has [n] elements. *)
Definition grow (c : Z) (n : nat) : Z := if Z.of_nat n <=? c then c else growslice c n.

Definition plen (p : page) : Z := Z.of_nat (length (elems p)).

Definition NewQuickList : QuickList := MkQL [] 0.

Definition new_page (val : A) : page := MkPage [val] (Z.of_nat pageSize).

Definition ql_Add (ql : QuickList) (val : A) : QuickList :=
  match last (data ql) with
  | None => MkQL [new_page val] (size ql + 1)
  | Some backPage =>
      if plen backPage =? cap backPage then MkQL (data ql ++ [new_page val]) (size ql + 1)
      else
        let backPage' := MkPage (elems backPage ++ [val]) (grow (cap backPage) (S (length (elems backPage)))) in
        MkQL (removelast (data ql) ++ [backPage']) (size ql + 1)
  end.

(** The two search loops of [find]: page position and index of its first
    element.  Running off either end dereferences nil. *)
Fixpoint find_front (ps : list page) (n : nat) (pageBeg index : Z) : res (nat * Z) :=
  match ps with
  | [] => Panic
  | p :: ps' =>
      if index <? pageBeg + plen p then Ret (n, pageBeg)
      else find_front ps' (S n) (pageBeg + plen p) index
  end.

Fixpoint find_back (rps : list page) (n : nat) (pageBeg index : Z) : res (nat * Z) :=
  match rps with
  | [] => Panic
  | p :: rps' =>
      let pageBeg := pageBeg - plen p in
      if pageBeg <=? index then Ret (n, pageBeg)
      else find_back rps' (pred n) pageBeg index
  end.

Definition find (ql : QuickList) (index : Z) : res iterator :=
  if (index <? 0) || (size ql <=? index) then Panic
  else
    '(n, pageBeg) ←
      (if index <? Z.quot (size ql) 2 then find_front (data ql) 0 0 index
       else find_back (reverse (data ql)) (pred (length (data ql))) (size ql) index);
    Ret (MkIter (Some n) (index - pageBeg)).

Definition iter_page (ql : QuickList) (it : iterator) : res page :=
  n ← must (node it); must (data ql !! n).

(** A slice index: negative indices panic too. *)
Definition nth_res {B} (l : list B) (i : Z) : res B :=
  if i <? 0 then Panic else must (l !! Z.to_nat i).

Definition iter_get (ql : QuickList) (it : iterator) : res A :=
  p ← iter_page ql it; nth_res (elems p) (offset it).

(** [iter.node == data.Back()] and [== data.Front()]. *)
Definition at_back (ql : QuickList) (it : iterator) : bool :=
  bool_decide (node it = match data ql with [] => None | _ => Some (pred (length (data ql))) end).
Definition at_front (ql : QuickList) (it : iterator) : bool :=
  bool_decide (node it = match data ql with [] => None | _ => Some 0%nat end).

Definition iter_next (ql : QuickList) (it : iterator) : res (iterator * bool) :=
  p ← iter_page ql it;
  if offset it <? plen p - 1 then Ret (MkIter (node it) (offset it + 1), true)
  else if at_back ql it then Ret (MkIter (node it) (plen p), false)
  else Ret (MkIter (S <$> node it) 0, true).

Definition iter_prev (ql : QuickList) (it : iterator) : res (iterator * bool) :=
  if 0 <? offset it then Ret (MkIter (node it) (offset it - 1), true)
  else if at_front ql it then Ret (MkIter (node it) (-1), false)
  else
    n ← must (node it);
    p ← must (data ql !! pred n);
    Ret (MkIter (Some (pred n)) (plen p - 1), true).

Definition atEnd (ql : QuickList) (it : iterator) : res bool :=
  match data ql with
  | [] => Ret true
  | _ => if negb (at_back ql it) then Ret false else p ← iter_page ql it; Ret (offset it =? plen p)
  end.

Definition atBegin (ql : QuickList) (it : iterator) : bool :=
  match data ql with
  | [] => true
  | _ => if negb (at_front ql it) then false else offset it =? -1
  end.

Definition ql_Get (ql : QuickList) (index : Z) : res A :=
  it ← find ql index; iter_get ql it.

Definition set_page (ql : QuickList) (n : nat) (p : page) : QuickList :=
  MkQL (<[n := p]> (data ql)) (size ql).

Definition ql_Set (ql : QuickList) (index : Z) (val : A) : res QuickList :=
  it ← find ql index;
  n ← must (node it);
  p ← must (data ql !! n);
  _ ← nth_res (elems p) (offset it);
  Ret (set_page ql n (MkPage (<[Z.to_nat (offset it) := val]> (elems p)) (cap p))).

(** [append(s[:o+1], s[o:]...)] followed by [s[o] = val]. *)
Definition insert_at (l : list A) (o : nat) (val : A) : list A := take o l ++ val :: drop o l.

Definition ql_Insert (ql : QuickList) (index : Z) (val : A) : res QuickList :=
  if index =? size ql then Ret (ql_Add ql val)
  else
    it ← find ql index;
    n ← must (node it);
    p ← must (data ql !! n);
    let o := Z.to_nat (offset it) in
    let len := length (elems p) in
    if decide (len < pageSize)%nat then
      Ret (MkQL (<[n := MkPage (insert_at (elems p) o val) (grow (cap p) (S len))]> (data ql)) (size ql + 1))
    else
      let half := Nat.div2 pageSize in
      let nextElems := drop half (elems p) in
      let nextCap := growslice 0 (length nextElems) in
      let pageElems := take half (elems p) in
      let '(p', q') :=
        if decide (o < length pageElems)%nat
        then (MkPage (insert_at pageElems o val) (grow (cap p) (S (length pageElems))), MkPage nextElems nextCap)
        else (MkPage pageElems (cap p),
              MkPage (insert_at nextElems (o - half) val) (grow nextCap (S (length nextElems)))) in
      Ret (MkQL (take n (data ql) ++ p' :: q' :: drop (S n) (data ql)) (size ql + 1)).

Definition iter_remove (ql : QuickList) (it : iterator) : res (QuickList * iterator * A) :=
  n ← must (node it);
  p ← must (data ql !! n);
  val ← nth_res (elems p) (offset it);
  let o := Z.to_nat (offset it) in
  let es := take o (elems p) ++ drop (S o) (elems p) in
  match es with
  | _ :: _ =>
      let ql' := MkQL (<[n := MkPage es (cap p)]> (data ql)) (size ql - 1) in
      if (offset it =? Z.of_nat (length es)) && negb (at_back ql it)
      then Ret (ql', MkIter (Some (S n)) 0, val)
      else Ret (ql', it, val)
  | [] =>
      let ql' := MkQL (take n (data ql) ++ drop (S n) (data ql)) (size ql - 1) in
      if at_back ql it then
        match n with
        | O => Ret (ql', MkIter None 0, val)
        | S n' => prev ← must (data ql !! n'); Ret (ql', MkIter (Some n') (plen prev), val)
        end
      else Ret (ql', MkIter (Some n) 0, val)
  end.

Definition ql_Remove (ql : QuickList) (index : Z) : res (QuickList * A) :=
  it ← find ql index;
  '(ql', _, val) ← iter_remove ql it;
  Ret (ql', val).

Definition ql_Len (ql : QuickList) : Z := size ql.

Definition ql_RemoveLast (ql : QuickList) : res (QuickList * option A) :=
  if ql_Len ql =? 0 then Ret (ql, None)
  else
    lastPage ← must (last (data ql));
    if plen lastPage =? 1 then
      v ← nth_res (elems lastPage) 0; Ret (MkQL (removelast (data ql)) (size ql - 1), Some v)
    else
      v ← nth_res (elems lastPage) (plen lastPage - 1);
      Ret (MkQL (removelast (data ql) ++ [MkPage (removelast (elems lastPage)) (cap lastPage)]) (size ql - 1), Some v).

(** The loops that remove by value.  Every iteration passes or removes one
    element, so the number of elements bounds them. *)
Fixpoint removeAll_loop (fuel : nat) (expected : A → bool) (ql : QuickList) (it : iterator) (removed : Z) : res (QuickList * Z) :=
  match fuel with
  | O => OutOfFuel
  | S f =>
      e ← atEnd ql it;
      if e : bool then Ret (ql, removed)
      else
        v ← iter_get ql it;
        if expected v then
          '(ql', it', _) ← iter_remove ql it; removeAll_loop f expected ql' it' (removed + 1)
        else
          '(it', _) ← iter_next ql it; removeAll_loop f expected ql it' removed
  end.

Definition ql_RemoveAllByVal (ql : QuickList) (expected : A → bool) : res (QuickList * Z) :=
  it ← find ql 0;
  removeAll_loop (S (Z.to_nat (size ql))) expected ql it 0.

Fixpoint removeBy_loop (fuel : nat) (expected : A → bool) (count : Z) (ql : QuickList) (it : iterator) (removed : Z) : res (QuickList * Z) :=
  match fuel with
  | O => OutOfFuel
  | S f =>
      e ← atEnd ql it;
      if e : bool then Ret (ql, removed)
      else
        v ← iter_get ql it;
        if expected v then
          '(ql', it', _) ← iter_remove ql it;
          if removed + 1 =? count then Ret (ql', removed + 1)
          else removeBy_loop f expected count ql' it' (removed + 1)
        else
          '(it', _) ← iter_next ql it; removeBy_loop f expected count ql it' removed
  end.

Definition ql_RemoveByVal (ql : QuickList) (expected : A → bool) (count : Z) : res (QuickList * Z) :=
  if size ql =? 0 then Ret (ql, 0)
  else
    it ← find ql 0;
    removeBy_loop (S (Z.to_nat (size ql))) expected count ql it 0.

Fixpoint reverseRemove_loop (fuel : nat) (expected : A → bool) (count : Z) (ql : QuickList) (it : iterator) (removed : Z) : res (QuickList * Z) :=
  match fuel with
  | O => OutOfFuel
  | S f =>
      if atBegin ql it then Ret (ql, removed)
      else
        v ← iter_get ql it;
        if expected v then
          '(ql', it', _) ← iter_remove ql it;
          if removed + 1 =? count then Ret (ql', removed + 1)
          else '(it'', _) ← iter_prev ql' it'; reverseRemove_loop f expected count ql' it'' (removed + 1)
        else
          '(it', _) ← iter_prev ql it; reverseRemove_loop f expected count ql it' removed
  end.

Definition ql_ReverseRemoveByVal (ql : QuickList) (expected : A → bool) (count : Z) : res (QuickList * Z) :=
  if size ql =? 0 then Ret (ql, 0)
  else
    it ← find ql (size ql - 1);
    reverseRemove_loop (S (Z.to_nat (size ql))) expected count ql it 0.

Fixpoint forEach_loop {S} (fuel : nat) (consumer : S → Z → A → S * bool) (ql : QuickList) (it : iterator) (i : Z) (st : S) : res S :=
  match fuel with
  | O => OutOfFuel
  | Datatypes.S f =>
      v ← iter_get ql it;
      let '(st', goNext) := consumer st i v in
      if negb goNext then Ret st'
      else
        '(it', more) ← iter_next ql it;
        if more : bool then forEach_loop f consumer ql it' (i + 1) st' else Ret st'
  end.

Definition ql_ForEach {S} (ql : QuickList) (consumer : S → Z → A → S * bool) (st : S) : res S :=
  if ql_Len ql =? 0 then Ret st
  else it ← find ql 0; forEach_loop (Datatypes.S (Z.to_nat (size ql))) consumer ql it 0 st.

Definition ql_Contains (ql : QuickList) (expected : A → bool) : res bool :=
  ql_ForEach ql (λ found _ v, if expected v then (true, false) else (found, true)) false.

Fixpoint range_collect (n : nat) (ql : QuickList) (it : iterator) (acc : list A) : res (list A) :=
  match n with
  | O => Ret acc
  | S n' =>
      v ← iter_get ql it;
      '(it', _) ← iter_next ql it;
      range_collect n' ql it' (acc ++ [v])
  end.

Definition ql_Range (ql : QuickList) (start stop : Z) : res (list A) :=
  if (start <? 0) || (ql_Len ql <=? start) then Panic
  else if (stop <? start) || (ql_Len ql <? stop) then Panic
  else it ← find ql start; range_collect (Z.to_nat (stop - start)) ql it [].

(** ** Abstract value and invariant *)

Definition contents (ql : QuickList) : list A := mjoin (elems <$> data ql).

(** No page is empty and [size] counts the elements. *)
Record ql_ok (ql : QuickList) : Prop := {
  ql_pages : Forall (λ p, elems p ≠ []) (data ql);
  ql_size : size ql = Z.of_nat (length (contents ql))
}.
End QuickList.

Section proofs.
Context {A : Type} (growslice : Z → nat → Z).
Implicit Types (ql : @QuickList A) (ps : list (@page A)) (p : @page A).

Abbreviation join ps := (mjoin (elems <$> ps)).

(** [at_pos ql it l r]: the iterator stands between [l] and [r], on the first
    element of [r] if there is one. *)
Inductive at_pos ql (it : iterator) (l r : list A) : Prop :=
| AtEmpty : data ql = [] → node it = None → l = [] → r = [] → at_pos ql it l r
| AtPage ps1 p ps2 :
    data ql = ps1 ++ p :: ps2 → node it = Some (length ps1) →
    0 <= offset it <= plen p → (offset it = plen p → ps2 = []) →
    l = join ps1 ++ take (Z.to_nat (offset it)) (elems p) →
    r = drop (Z.to_nat (offset it)) (elems p) ++ join ps2 → at_pos ql it l r.

Lemma at_pos_contents ql it l r : at_pos ql it l r → contents ql = l ++ r.
Proof.
  unfold contents. intros [-> _ -> ->|ps1 p ps2 -> _ _ _ -> ->]; [done|].
  rewrite fmap_app, join_app. cbn. rewrite <- app_assoc. f_equal.
  by rewrite app_assoc, take_drop.
Qed.

Lemma join_cons p ps : join (p :: ps) = elems p ++ join ps.
Proof. done. Qed.

Lemma join_snoc ps p : join (ps ++ [p]) = join ps ++ elems p.
Proof. rewrite fmap_app, join_app. cbn. by rewrite app_nil_r. Qed.

Lemma join_nil_inv ps : Forall (λ p, elems p ≠ []) ps → join ps = [] → ps = [].
Proof. destruct ps as [|p ps]; [done|]. intros [? _]%Forall_cons [? _]%app_eq_nil. done. Qed.

Lemma find_front_spec ps n pageBeg index :
  pageBeg <= index < pageBeg + Z.of_nat (length (join ps)) →
  ∃ ps1 p ps2, ps = ps1 ++ p :: ps2 ∧
    find_front ps n pageBeg index = Ret ((n + length ps1)%nat, pageBeg + Z.of_nat (length (join ps1))) ∧
    pageBeg + Z.of_nat (length (join ps1)) <= index < pageBeg + Z.of_nat (length (join ps1)) + plen p.
Proof.
  revert n pageBeg. induction ps as [|p ps IH]; intros n pageBeg Hi; [simpl in *; lia|].
  rewrite join_cons, length_app in Hi. cbn [find_front].
  destruct (Z.ltb_spec index (pageBeg + plen p)).
  - exists [], p, ps. cbn. rewrite Nat.add_0_r, Z.add_0_r. split_and!; [done|done|lia|lia].
  - destruct (IH (S n) (pageBeg + plen p)) as (ps1 & q & ps2 & -> & -> & Hq); [unfold plen in *; lia|].
    exists (p :: ps1), q, ps2. rewrite join_cons, length_app. cbn [length]. unfold plen in *.
    split_and!; [done|f_equal; f_equal; lia|lia|lia].
Qed.

Lemma find_back_spec ps pageBeg index :
  pageBeg = Z.of_nat (length (join ps)) → 0 <= index < pageBeg →
  ∃ ps1 p ps2, ps = ps1 ++ p :: ps2 ∧
    find_back (reverse ps) (pred (length ps)) pageBeg index = Ret (length ps1, Z.of_nat (length (join ps1))) ∧
    Z.of_nat (length (join ps1)) <= index < Z.of_nat (length (join ps1)) + plen p.
Proof.
  revert pageBeg. induction ps as [|p ps IH] using rev_ind; intros pageBeg Hb Hi; [simpl in *; lia|].
  rewrite join_snoc, length_app in Hb.
  rewrite reverse_snoc, length_app. cbn [find_back length]. rewrite Nat.add_1_r. cbn [pred].
  destruct (Z.leb_spec (pageBeg - plen p) index).
  - exists ps, p, []. unfold plen in *. split_and!; [done|do 2 f_equal; lia|lia|lia].
  - destruct (IH (pageBeg - plen p)) as (ps1 & q & ps2 & -> & E & Hq); [unfold plen in *; lia|lia|].
    exists ps1, q, (ps2 ++ [p]). rewrite <- app_assoc. split_and!; [done| |lia|lia].
    replace (length (ps1 ++ q :: ps2)) with (length (ps1 ++ q :: ps2)) by done. exact E.
Qed.

Lemma find_spec ql index :
  ql_ok ql → 0 <= index < size ql →
  ∃ it, find ql index = Ret it ∧
    at_pos ql it (take (Z.to_nat index) (contents ql)) (drop (Z.to_nat index) (contents ql)).
Proof.
  intros [Hp Hs] Hi. unfold find.
  destruct (Z.ltb_spec index 0); [lia|]. destruct (Z.leb_spec (size ql) index); [lia|]. simpl.
  assert (Hf : ∃ ps1 p ps2, data ql = ps1 ++ p :: ps2 ∧
    (if index <? Z.quot (size ql) 2 then find_front (data ql) 0 0 index
     else find_back (reverse (data ql)) (pred (length (data ql))) (size ql) index)
      = Ret (length ps1, Z.of_nat (length (join ps1))) ∧
    Z.of_nat (length (join ps1)) <= index < Z.of_nat (length (join ps1)) + plen p).
  { destruct (index <? _).
    - destruct (find_front_spec (data ql) 0 0 index) as (ps1 & p & ps2 & E & -> & Hq); [unfold contents in *; lia|].
      exists ps1, p, ps2. simpl in *. rewrite Z.add_0_l in *. done.
    - by apply find_back_spec. }
  destruct Hf as (ps1 & p & ps2 & E & -> & Hq). cbn [mbind res_bind].
  eexists. split; [done|]. apply (AtPage _ _ _ _ ps1 p ps2); simpl; [done|done|lia| | |].
  - intros. lia.
  - unfold contents. rewrite E, fmap_app, join_app, take_app_ge by lia.
    f_equal. cbn. rewrite take_app_le by (unfold plen in *; lia). f_equal. lia.
  - unfold contents. rewrite E, fmap_app, join_app, drop_app_ge by lia.
    cbn. rewrite drop_app_le by (unfold plen in *; lia). do 2 f_equal. lia.
Qed.

Lemma find_panics ql index : index < 0 ∨ size ql <= index → find ql index = Panic.
Proof.
  intros H. unfold find. destruct (Z.ltb_spec index 0); [done|].
  destruct (Z.leb_spec (size ql) index); [done|lia].
Qed.

(** The page under an iterator that is not at the end. *)
Lemma at_pos_page ql it l x r :
  at_pos ql it l (x :: r) → Forall (λ p, elems p ≠ []) (data ql) →
  ∃ ps1 p ps2 o, data ql = ps1 ++ p :: ps2 ∧ it = MkIter (Some (length ps1)) (Z.of_nat o) ∧
    elems p !! o = Some x ∧ l = join ps1 ++ take o (elems p) ∧ r = drop (S o) (elems p) ++ join ps2.
Proof.
  intros [_ _ _ E|ps1 p ps2 E En Ho Hlast El Er] Hp; [done|].
  assert (Hlt : offset it < plen p).
  { destruct (Z.eq_dec (offset it) (plen p)) as [Ee|]; [|lia]. rewrite (Hlast Ee) in Er.
    rewrite drop_ge in Er by (unfold plen in *; lia). done. }
  destruct (lookup_lt_is_Some_2 (elems p) (Z.to_nat (offset it))) as [y Hy]; [unfold plen in *; lia|].
  rewrite (drop_S _ _ _ Hy) in Er. injection Er as <- ->.
  exists ps1, p, ps2, (Z.to_nat (offset it)). split_and!; try done.
  destruct it; simpl in *. subst. f_equal. lia.
Qed.

Lemma iter_get_spec ql it l x r :
  at_pos ql it l (x :: r) → Forall (λ p, elems p ≠ []) (data ql) → iter_get ql it = Ret x.
Proof.
  intros H Hp. destruct (at_pos_page _ _ _ _ _ H Hp) as (ps1 & p & ps2 & o & E & -> & Hx & _).
  unfold iter_get, iter_page. cbn. rewrite E, list_lookup_middle by done. cbn.
  unfold nth_res. destruct (Z.ltb_spec (Z.of_nat o) 0); [lia|]. rewrite Nat2Z.id, Hx. done.
Qed.

Lemma at_back_iff ql ps1 p ps2 o :
  data ql = ps1 ++ p :: ps2 → at_back ql (MkIter (Some (length ps1)) o) = bool_decide (ps2 = []).
Proof.
  intros E. unfold at_back. rewrite E. cbn.
  destruct (ps1 ++ p :: ps2) as [|q qs] eqn:Eq; [by destruct ps1|]. rewrite <- Eq, length_app. cbn.
  apply bool_decide_ext. split.
  - intros [= H]. destruct ps2; [done|]. simpl in H. lia.
  - intros ->. f_equal. simpl. lia.
Qed.

Lemma at_front_iff ql ps1 p ps2 o :
  data ql = ps1 ++ p :: ps2 → at_front ql (MkIter (Some (length ps1)) o) = bool_decide (ps1 = []).
Proof.
  intros E. unfold at_front. rewrite E. cbn.
  destruct (ps1 ++ p :: ps2) as [|q qs] eqn:Eq; [by destruct ps1|].
  apply bool_decide_ext. split.
  - intros [= H]. by destruct ps1.
  - by intros ->.
Qed.

Lemma iter_next_spec ql it l x r :
  at_pos ql it l (x :: r) → Forall (λ p, elems p ≠ []) (data ql) →
  ∃ it', iter_next ql it = Ret (it', bool_decide (r ≠ [])) ∧ at_pos ql it' (l ++ [x]) r.
Proof.
  intros H Hp. destruct (at_pos_page _ _ _ _ _ H Hp) as (ps1 & p & ps2 & o & E & -> & Hx & -> & ->).
  unfold iter_next, iter_page. cbn. rewrite E, list_lookup_middle by done. cbn.
  pose proof (lookup_lt_Some _ _ _ Hx) as Hlt.
  rewrite <- app_assoc, <- (take_S_r _ _ _ Hx).
  rewrite (at_back_iff ql ps1 p ps2) by done.
  destruct (Z.ltb_spec (Z.of_nat o) (plen p - 1)).
  - eexists. split.
    { rewrite bool_decide_eq_true_2; [done|]. intros [Ed _]%app_eq_nil.
      apply (f_equal length) in Ed. rewrite length_drop in Ed. unfold plen in *. simpl in Ed. lia. }
    apply (AtPage _ _ _ _ ps1 p ps2); cbn; [done|done|unfold plen in *; lia|lia| |].
    + do 2 f_equal. lia.
    + do 2 f_equal. lia.
  - assert (Ho : S o = length (elems p)) by (unfold plen in *; lia).
    rewrite take_ge by lia. rewrite drop_ge by lia.
    case_bool_decide as Hps.
    + subst ps2. cbn. eexists. split; [reflexivity|].
      apply (AtPage _ _ _ _ ps1 p []); cbn; [done|done|unfold plen; lia|done| |].
      * f_equal. rewrite take_ge; [done|unfold plen; lia].
      * rewrite drop_ge; [done|unfold plen; lia].
    + destruct ps2 as [|q qs]; [done|]. cbn. eexists. split.
      { rewrite bool_decide_eq_true_2; [done|]. rewrite E in Hp.
        apply Forall_app in Hp as [_ [_ [Hq _]%Forall_cons]%Forall_cons]. by intros [? _]%app_eq_nil. }
      apply (AtPage _ _ _ _ (ps1 ++ [p]) q qs); cbn.
      * rewrite E, <- app_assoc. done.
      * rewrite length_app. cbn. do 2 f_equal. lia.
      * unfold plen. lia.
      * unfold plen. intros Hz. rewrite E in Hp.
        apply Forall_app in Hp as [_ [_ [Hq _]%Forall_cons]%Forall_cons]. by destruct (elems q).
      * rewrite fmap_app, join_app. cbn. by rewrite !app_nil_r.
      * done.
Qed.

Lemma insert_middle {B} (l1 l2 : list B) x y : <[length l1 := y]> (l1 ++ x :: l2) = l1 ++ y :: l2.
Proof. rewrite insert_app_r_alt by lia. by rewrite Nat.sub_diag. Qed.

Lemma take_drop_around {B} (l1 l2 : list B) x :
  take (length l1) (l1 ++ x :: l2) = l1 ∧ drop (S (length l1)) (l1 ++ x :: l2) = l2.
Proof.
  split; [by rewrite take_app_length|].
  rewrite drop_app_ge by lia. by replace (S (length l1) - length l1)%nat with 1%nat by lia.
Qed.

(** Removing one element inside a page that keeps others. *)
Lemma remove_in_page ql ps1 p ps2 (o : nat) es c sz :
  Forall (λ q, elems q ≠ []) (data ql) → data ql = ps1 ++ p :: ps2 → es ≠ [] →
  (o <= length es)%nat → (o = length es → ps2 = []) →
  Forall (λ q, elems q ≠ []) (ps1 ++ MkPage es c :: ps2) ∧
  at_pos (MkQL (ps1 ++ MkPage es c :: ps2) sz) (MkIter (Some (length ps1)) (Z.of_nat o))
    (join ps1 ++ take o es) (drop o es ++ join ps2).
Proof.
  intros Hp E Hes Ho Hlast. rewrite E in Hp. apply Forall_app in Hp as [? [_ ?]%Forall_cons].
  split; [apply Forall_app; split; [done|by apply Forall_cons]|].
  apply (AtPage _ _ _ _ ps1 (MkPage es c) ps2); cbn; [done|done|unfold plen; cbn; lia| | |].
  - unfold plen. cbn. intros. apply Hlast. lia.
  - by rewrite Nat2Z.id.
  - by rewrite Nat2Z.id.
Qed.

Lemma at_page_start ql ps1 q ps2 :
  data ql = ps1 ++ q :: ps2 → elems q ≠ [] →
  at_pos ql (MkIter (Some (length ps1)) 0) (join ps1) (join (q :: ps2)).
Proof.
  intros E Hq. apply (AtPage _ _ _ _ ps1 q ps2); cbn; [done|done|unfold plen; lia| | |done].
  - unfold plen. intros. by destruct (elems q).
  - by rewrite app_nil_r.
Qed.

Lemma iter_remove_spec ql it l x r :
  at_pos ql it l (x :: r) → Forall (λ p, elems p ≠ []) (data ql) →
  ∃ ql' it', iter_remove ql it = Ret (ql', it', x) ∧ at_pos ql' it' l r ∧
    Forall (λ p, elems p ≠ []) (data ql') ∧ size ql' = size ql - 1.
Proof.
  intros H Hp. destruct (at_pos_page _ _ _ _ _ H Hp) as (ps1 & p & ps2 & o & E & -> & Hx & -> & ->).
  unfold iter_remove. cbn. rewrite E, list_lookup_middle by done. cbn.
  unfold nth_res. destruct (Z.ltb_spec (Z.of_nat o) 0); [lia|]. rewrite Nat2Z.id, Hx. cbn.
  rewrite (at_back_iff ql ps1 p ps2), insert_middle by done.
  destruct (take_drop_around ps1 ps2 p) as [-> ->].
  pose proof (lookup_lt_Some _ _ _ Hx) as Hlt.
  assert (Hes : length (take o (elems p) ++ drop (S o) (elems p)) = pred (length (elems p))).
  { rewrite length_app, length_take, length_drop. lia. }
  assert (Htd : take o (take o (elems p) ++ drop (S o) (elems p)) = take o (elems p) ∧
                drop o (take o (elems p) ++ drop (S o) (elems p)) = drop (S o) (elems p)).
  { split; [apply take_app_length'|apply drop_app_length']; rewrite length_take; lia. }
  remember (take o (elems p) ++ drop (S o) (elems p)) as es' eqn:Ees.
  destruct Htd as [Ht Hd]. rewrite <- Ht, <- Hd. clear Ht Hd.
  destruct es' as [|y es].
  - assert (o = 0)%nat as -> by (simpl in Hes; lia). cbn. rewrite app_nil_r.
    pose proof Hp as Hp'. rewrite E in Hp'. apply Forall_app in Hp' as [Hp1 [_ Hp2]%Forall_cons].
    assert (Hp12 : Forall (λ q, elems q ≠ []) (ps1 ++ ps2)) by (by apply Forall_app).
    case_bool_decide as Hb.
    + subst ps2. rewrite app_nil_r in *.
      destruct ps1 as [|q ps1] using rev_ind; [|clear IHps1].
      { cbn. eexists _, _. split_and!; [done|by apply AtEmpty|constructor|done]. }
      rewrite length_app, Nat.add_1_r. cbn.
      assert (((ps1 ++ [q]) ++ [p]) !! length ps1 = Some q) as ->
        by (rewrite <- app_assoc; by apply list_lookup_middle).
      rewrite ?app_nil_r. eexists _, _. split_and!; [done| |exact Hp12|done].
      apply (AtPage _ _ _ _ ps1 q []); cbn; [done|done|unfold plen; lia|done| |].
      * unfold plen. rewrite Nat2Z.id, take_ge by lia. by rewrite <- join_snoc.
      * unfold plen. rewrite Nat2Z.id, drop_ge by lia. done.
    + destruct ps2 as [|q qs]; [done|]. eexists _, _. split_and!; [done| |exact Hp12|done].
      cbn [take]. rewrite ?app_nil_r. apply at_page_start; [done|]. by apply Forall_cons in Hp2 as [? _].
  - clear Ees. set (es' := y :: es) in *. assert (es' ≠ []) by done.
    destruct (Z.eqb_spec (Z.of_nat o) (Z.of_nat (length es'))) as [Eo|No]; cbn [andb].
    + case_bool_decide as Hb; cbn [negb].
      * destruct (remove_in_page ql ps1 p ps2 o es' (cap p) (size ql - 1) Hp E) as [Hf Ha]; [done|lia|done|].
        eexists _, _. split_and!; [done|done|done|done].
      * destruct ps2 as [|q qs]; [done|]. pose proof Hp as Hp'. rewrite E in Hp'.
        apply Forall_app in Hp' as [Hp1 [_ [Hq Hp2]%Forall_cons]%Forall_cons].
        eexists _, _. split_and!; [done| | |done].
        -- rewrite take_ge, drop_ge by lia. cbn [app].
           pose proof (at_page_start (MkQL (ps1 ++ MkPage es' (cap p) :: q :: qs) (size ql - 1))
                         (ps1 ++ [MkPage es' (cap p)]) q qs) as Hst.
           rewrite join_snoc, length_app, Nat.add_1_r in Hst. apply Hst; [|done].
           cbn. by rewrite <- app_assoc.
        -- cbn. apply Forall_app; split; [done|]. by repeat (apply Forall_cons; split).
    + destruct (remove_in_page ql ps1 p ps2 o es' (cap p) (size ql - 1) Hp E) as [Hf Ha]; [done|lia|lia|].
      eexists _, _. split_and!; [done|done|done|done].
Qed.

Lemma atEnd_spec ql it l r :
  at_pos ql it l r → Forall (λ p, elems p ≠ []) (data ql) → atEnd ql it = Ret (bool_decide (r = [])).
Proof.
  intros [E _ _ ->|ps1 p ps2 E En Ho Hlast _ ->] Hp; unfold atEnd; [by rewrite E|].
  destruct (data ql) as [|p0 ps0] eqn:Ed; [by destruct ps1|]. rewrite <- Ed in *.
  assert (Hb : at_back ql it = bool_decide (ps2 = [])).
  { destruct it as [n o]. simpl in En. subst n. by apply at_back_iff with p. }
  rewrite Hb. unfold iter_page. rewrite En. cbn. rewrite E, list_lookup_middle by done. cbn.
  case_bool_decide as Hps; cbn [negb].
  - subst ps2. f_equal. cbn. rewrite app_nil_r.
    destruct (Z.eqb_spec (offset it) (plen p)) as [Eo|No]; symmetry.
    + apply bool_decide_eq_true_2. apply drop_ge. unfold plen in *. lia.
    + apply bool_decide_eq_false_2. intros Ed'. apply (f_equal length) in Ed'.
      rewrite length_drop in Ed'. unfold plen in *. simpl in Ed'. lia.
  - f_equal. symmetry. apply bool_decide_eq_false_2. intros [_ Hj]%app_eq_nil. apply Hps, join_nil_inv; [|done].
    rewrite E in Hp. by apply Forall_app in Hp as [_ [_ ?]%Forall_cons].
Qed.

(** [iter_prev] steps onto the last element before the iterator, or, with none
    left, into the state that [atBegin] recognises. *)
Lemma iter_prev_spec ql it l r :
  at_pos ql it l r → Forall (λ p, elems p ≠ []) (data ql) →
  ∃ it' b, iter_prev ql it = Ret (it', b) ∧
    (l = [] → atBegin ql it' = true) ∧
    (∀ l' y, l = l' ++ [y] → at_pos ql it' l' (y :: r)).
Proof.
  intros [E En -> ->|ps1 p ps2 E En Ho Hlast -> ->] Hp; unfold iter_prev.
  - unfold at_front. rewrite E, En. cbn. destruct (0 <? offset it); eexists _, _;
      (split_and!; [done|by unfold atBegin; rewrite E|by intros []]).
  - destruct it as [n o]. cbn in *. subst n.
    destruct (Z.ltb_spec 0 o) as [Hpos|Hz].
    + eexists _, _. split_and!; [done| |].
      { intros [_ Et]%app_eq_nil. apply (f_equal length) in Et.
        rewrite length_take in Et. unfold plen in *. simpl in Et. lia. }
      destruct (lookup_lt_is_Some_2 (elems p) (Z.to_nat (o - 1))) as [x Hx]; [unfold plen in *; lia|].
      intros l' y Hl. replace (Z.to_nat o) with (S (Z.to_nat (o - 1))) in * by lia.
      rewrite (take_S_r _ _ _ Hx), app_assoc in Hl. apply app_inj_tail in Hl as [<- <-].
      apply (AtPage _ _ _ _ ps1 p ps2); cbn; [done|done|lia|lia|done|].
      by rewrite (drop_S _ _ _ Hx).
    + assert (o = 0) as -> by lia. cbn. rewrite app_nil_r. rewrite (at_front_iff ql ps1 p ps2) by done.
      case_bool_decide as Hps.
      * subst ps1. eexists _, _. split_and!; [done| |by intros []].
        intros _. unfold atBegin. rewrite E. cbn.
        rewrite (at_front_iff ql [] p ps2) by done. done.
      * destruct ps1 as [|q ps1] using rev_ind; [done|clear IHps1]. rewrite length_app, Nat.add_1_r. cbn.
        assert (data ql !! length ps1 = Some q) as ->
          by (rewrite E, <- app_assoc; by apply list_lookup_middle).
        assert (Hq : elems q ≠ []).
        { rewrite E in Hp. apply Forall_app in Hp as [Hp _]. by apply Forall_app in Hp as [_ [? _]%Forall_cons]. }
        cbn. rewrite join_snoc. eexists _, _. split_and!; [done|by intros [_ ?]%app_eq_nil|].
        destruct (elems q) as [|x es _] eqn:Eq using rev_ind; [done|].
        intros l' y Hl. rewrite app_assoc in Hl. apply app_inj_tail in Hl as [<- <-].
        assert (Hpl : plen q = Z.of_nat (S (length es))) by (unfold plen; rewrite Eq, length_app, Nat.add_1_r; done).
        assert (Hn : Z.to_nat (plen q - 1) = length es) by lia.
        apply (AtPage _ _ _ _ ps1 q (p :: ps2)); cbn [offset node];
          [by rewrite E, <- app_assoc|done|lia|lia| |]; rewrite Eq, Hn.
        -- by rewrite take_app_length.
        -- by rewrite drop_app_length.
Qed.

Lemma atBegin_on ql it l x r : at_pos ql it l (x :: r) → atBegin ql it = false.
Proof.
  intros [_ _ _ ?|ps1 p ps2 E En Ho _ _ _]; [done|]. unfold atBegin.
  destruct (data ql); [by destruct ps1|]. destruct (negb _); [done|]. apply Z.eqb_neq. lia.
Qed.

(** ** Operations *)

Lemma ql_ok_intro ql l :
  Forall (λ p, elems p ≠ []) (data ql) → contents ql = l → size ql = Z.of_nat (length l) → ql_ok ql.
Proof. intros ? <- ?. by split. Qed.

Lemma ql_new : ql_ok (@NewQuickList A) ∧ contents (@NewQuickList A) = [].
Proof. split; [split|]; done. Qed.

Lemma last_split ps p : last ps = Some p → ∃ ps', ps = ps' ++ [p] ∧ removelast ps = ps'.
Proof.
  destruct ps as [|q ps _] using rev_ind; [done|]. rewrite last_snoc. intros [= ->].
  exists ps. split; [done|]. rewrite removelast_app by done. simpl. apply app_nil_r.
Qed.

Lemma ql_Add_spec ql v :
  ql_ok ql → ql_ok (ql_Add growslice ql v) ∧ contents (ql_Add growslice ql v) = contents ql ++ [v].
Proof.
  intros [Hp Hs].
  enough (H : Forall (λ p, elems p ≠ []) (data (ql_Add growslice ql v)) ∧
              contents (ql_Add growslice ql v) = contents ql ++ [v] ∧ size (ql_Add growslice ql v) = size ql + 1).
  { destruct H as (H1 & H2 & H3). split; [|done].
    eapply ql_ok_intro; [done|done|]. rewrite H3, length_app. simpl. lia. }
  unfold ql_Add, contents. destruct (last (data ql)) as [p|] eqn:El.
  - destruct (last_split _ _ El) as (ps & E & Er). destruct (plen p =? cap p).
    + cbn. rewrite join_snoc. split_and!; [|done|done].
      apply Forall_app. split; [done|]. by apply Forall_singleton.
    + cbn. rewrite Er, E, !join_snoc, <- app_assoc in *. cbn. split_and!; [|done|done].
      apply Forall_app in Hp as [Hp _]. apply Forall_app. split; [done|]. apply Forall_singleton. cbn.
      by destruct (elems p).
  - apply last_None in El. rewrite El. cbn. split_and!; [by apply Forall_singleton|done|done].
Qed.

Lemma ql_Get_spec ql (i : nat) x : ql_ok ql → contents ql !! i = Some x → ql_Get ql (Z.of_nat i) = Ret x.
Proof.
  intros Hok Hx. pose proof (lookup_lt_Some _ _ _ Hx). unfold ql_Get.
  destruct (find_spec ql (Z.of_nat i) Hok) as (it & -> & Ha); [rewrite (ql_size _ Hok); lia|]. cbn.
  rewrite Nat2Z.id, (drop_S _ _ _ Hx) in Ha. by eapply iter_get_spec, (ql_pages _ Hok).
Qed.

Lemma ql_Set_spec ql (i : nat) x v :
  ql_ok ql → contents ql !! i = Some x →
  ∃ ql', ql_Set ql (Z.of_nat i) v = Ret ql' ∧ ql_ok ql' ∧ contents ql' = <[i := v]> (contents ql).
Proof.
  intros Hok Hx. pose proof (lookup_lt_Some _ _ _ Hx) as Hlt. unfold ql_Set.
  destruct (find_spec ql (Z.of_nat i) Hok) as (it & -> & Ha); [rewrite (ql_size _ Hok); lia|]. cbn.
  rewrite Nat2Z.id, (drop_S _ _ _ Hx) in Ha.
  destruct (at_pos_page _ _ _ _ _ Ha (ql_pages _ Hok)) as (ps1 & p & ps2 & o & E & -> & Hy & El & Er). cbn.
  rewrite E, list_lookup_middle by done. cbn. unfold nth_res.
  destruct (Z.ltb_spec (Z.of_nat o) 0); [lia|]. rewrite Nat2Z.id, Hy. cbn.
  eexists. split; [done|]. unfold set_page. rewrite E, insert_middle.
  assert (Hc : join (ps1 ++ MkPage (<[o := v]> (elems p)) (cap p) :: ps2) = <[i := v]> (contents ql)).
  { rewrite (insert_take_drop (contents ql)) by done. rewrite El, Er.
    rewrite fmap_app, join_app. cbn. rewrite (insert_take_drop (elems p)) by (by eapply lookup_lt_Some).
    by rewrite <- !app_assoc. }
  split; [|done]. eapply ql_ok_intro; [|done|].
  - pose proof (ql_pages _ Hok) as Hp. rewrite E in Hp. apply Forall_app in Hp as [? [? ?]%Forall_cons].
    apply Forall_app. split; [done|]. apply Forall_cons. split; [|done]. cbn.
    intros En. apply (f_equal length) in En. rewrite length_insert in En. by destruct (elems p).
  - cbn. rewrite length_insert. apply (ql_size _ Hok).
Qed.

Lemma ql_Remove_spec ql (i : nat) x :
  ql_ok ql → contents ql !! i = Some x →
  ∃ ql', ql_Remove ql (Z.of_nat i) = Ret (ql', x) ∧ ql_ok ql' ∧
    contents ql' = take i (contents ql) ++ drop (S i) (contents ql).
Proof.
  intros Hok Hx. pose proof (lookup_lt_Some _ _ _ Hx) as Hlt. unfold ql_Remove.
  destruct (find_spec ql (Z.of_nat i) Hok) as (it & -> & Ha); [rewrite (ql_size _ Hok); lia|]. cbn.
  rewrite Nat2Z.id, (drop_S _ _ _ Hx) in Ha.
  destruct (iter_remove_spec _ _ _ _ _ Ha (ql_pages _ Hok)) as (ql' & it' & -> & Ha' & Hp' & Hs'). cbn.
  apply at_pos_contents in Ha'. eexists. split_and!; [done| |done].
  eapply ql_ok_intro; [done|done|]. rewrite Hs', (ql_size _ Hok), length_app, length_take, length_drop. lia.
Qed.

Lemma insert_at_ne (l : list A) o v : insert_at l o v ≠ [].
Proof. unfold insert_at. by destruct (take o l). Qed.

Lemma insert_at_app_l (l1 l2 : list A) o v :
  (o <= length l1)%nat → insert_at (l1 ++ l2) o v = insert_at l1 o v ++ l2.
Proof. intros. unfold insert_at. rewrite take_app_le, drop_app_le, <- app_assoc by done. done. Qed.

Lemma insert_at_app_r (l1 l2 : list A) o v :
  (length l1 <= o)%nat → insert_at (l1 ++ l2) o v = l1 ++ insert_at l2 (o - length l1) v.
Proof. intros. unfold insert_at. rewrite take_app_ge, drop_app_ge, <- app_assoc by done. done. Qed.

Lemma length_insert_at (l : list A) o v : length (insert_at l o v) = S (length l).
Proof. unfold insert_at. rewrite length_app, length_take. cbn. rewrite length_drop. lia. Qed.

(** Replacing a page by pages that hold its elements and one more. *)
Lemma ql_replace_pages ql ps1 p ps2 mid o v :
  ql_ok ql → data ql = ps1 ++ p :: ps2 → (o <= length (elems p))%nat →
  join mid = insert_at (elems p) o v → Forall (λ q, elems q ≠ []) mid →
  ql_ok (MkQL (ps1 ++ mid ++ ps2) (size ql + 1)) ∧
  contents (MkQL (ps1 ++ mid ++ ps2) (size ql + 1)) = insert_at (contents ql) (length (join ps1) + o) v.
Proof.
  intros [Hp Hs] E Ho Hj Hm.
  assert (Hc : contents (MkQL (ps1 ++ mid ++ ps2) (size ql + 1)) =
               insert_at (contents ql) (length (join ps1) + o) v).
  { unfold contents. cbn [data]. rewrite E, !fmap_app, !join_app, Hj. cbn.
    rewrite insert_at_app_r by lia. f_equal. rewrite <- insert_at_app_l by done. f_equal. lia. }
  split; [|done]. eapply ql_ok_intro; [|exact Hc|].
  - rewrite E in Hp. apply Forall_app in Hp as [? [_ ?]%Forall_cons]. cbn. by rewrite !Forall_app.
  - cbn. rewrite length_insert_at. lia.
Qed.

(** Splitting a full page. *)
Lemma split_page (h o : nat) (l : list A) v :
  (0 < h < length l)%nat →
  ∀ c1 c2 c3 c4,
  let '(p', q') :=
    if decide (o < length (take h l))%nat
    then (MkPage (insert_at (take h l) o v) c1, MkPage (drop h l) c2)
    else (MkPage (take h l) c3, MkPage (insert_at (drop h l) (o - h) v) c4) in
  join [p'; q'] = insert_at l o v ∧ Forall (λ q, elems q ≠ []) [p'; q'].
Proof.
  intros Hh c1 c2 c3 c4.
  assert (Hne : ∀ l' : list A, (0 < length l')%nat → l' ≠ []) by (by intros [|??]; simpl; [lia|]).
  case_decide as Ho; cbn; rewrite ?app_nil_r; (split; [|repeat (apply Forall_cons; split); cbn]);
    try apply insert_at_ne; try (apply Hne; rewrite ?length_take, ?length_drop; lia); try constructor.
  - rewrite <- insert_at_app_l, take_drop by lia. done.
  - rewrite length_take in Ho. rewrite <- (take_drop h l) at 3.
    rewrite insert_at_app_r by (rewrite length_take; lia). do 2 f_equal. rewrite length_take. lia.
Qed.

Lemma ql_Insert_spec ql (i : nat) v :
  ql_ok ql → (i <= length (contents ql))%nat →
  ∃ ql', ql_Insert growslice ql (Z.of_nat i) v = Ret ql' ∧ ql_ok ql' ∧
    contents ql' = insert_at (contents ql) i v.
Proof.
  intros Hok Hi. unfold ql_Insert. pose proof (ql_size _ Hok) as Hsz.
  destruct (Z.eqb_spec (Z.of_nat i) (size ql)) as [Ei|Ni].
  { destruct (ql_Add_spec ql v Hok) as [Hok' Hc]. eexists. split_and!; [done|done|].
    unfold insert_at. rewrite Hc, take_ge, drop_ge by lia. done. }
  destruct (lookup_lt_is_Some_2 (contents ql) i) as [x Hx]; [lia|].
  destruct (find_spec ql (Z.of_nat i) Hok) as (it & -> & Ha); [lia|]. cbn.
  rewrite Nat2Z.id, (drop_S _ _ _ Hx) in Ha.
  destruct (at_pos_page _ _ _ _ _ Ha (ql_pages _ Hok)) as (ps1 & p & ps2 & o & E & -> & Hy & El & Er). cbn.
  rewrite E, list_lookup_middle by done. cbn. rewrite Nat2Z.id.
  pose proof (lookup_lt_Some _ _ _ Hy) as Ho.
  assert (i = (length (join ps1) + o)%nat) as ->.
  { apply (f_equal length) in El. rewrite length_app, !length_take in El. lia. }
  case_decide as Hlt.
  - eexists. split; [done|]. rewrite insert_middle.
    apply (ql_replace_pages ql ps1 p ps2 [MkPage (insert_at (elems p) o v) _]); [done|done|lia| |].
    + cbn. apply app_nil_r.
    + apply Forall_singleton. apply insert_at_ne.
  - destruct (take_drop_around ps1 ps2 p) as [-> ->].
    change (Nat.div2 pageSize) with 512%nat. change pageSize with 1024%nat in Hlt.
    match goal with |- context [if decide _ then (MkPage _ ?c1, MkPage _ ?c2) else (MkPage _ ?c3, MkPage _ ?c4)] =>
      pose proof (split_page 512 o (elems p) v ltac:(lia) c1 c2 c3 c4) as Hsp end.
    destruct (if decide _ then _ else _) as [p' q']. destruct Hsp as [Hj Hm].
    eexists. split; [done|]. apply (ql_replace_pages ql ps1 p ps2 [p'; q']); [done|done|lia|done|done].
Qed.

(** ** Removal by value, traversal and ranges *)

(** The first [n] elements that satisfy [f] removed. *)
Fixpoint remove_n (f : A → bool) (n : nat) (l : list A) : list A :=
  match n, l with
  | O, _ => l
  | _, [] => []
  | S n', x :: l' => if f x then remove_n f n' l' else x :: remove_n f n l'
  end.

(** How many matches a loop may still remove: [count] stops it only when the
    running total meets it, so a [count] it starts above never does. *)
Definition quota (count removed : Z) (l : list A) : nat :=
  if count <=? removed then length l else Z.to_nat (count - removed).

Lemma length_remove_n f n l : (length (remove_n f n l) <= length l)%nat.
Proof.
  revert n. induction l as [|x l IH]; intros [|n]; simpl; [lia|lia|lia|].
  destruct (f x); simpl; [specialize (IH n)|specialize (IH (S n))]; lia.
Qed.

Lemma remove_n_all f n l : (length l <= n)%nat → remove_n f n l = List.filter (λ x, negb (f x)) l.
Proof.
  revert n. induction l as [|x l IH]; intros [|n] Hn; simpl in *; [done|done|lia|].
  destruct (f x); simpl; rewrite IH by lia; done.
Qed.

Lemma remove_n_cons f n x l :
  remove_n f (S n) (x :: l) = if f x then remove_n f n l else x :: remove_n f (S n) l.
Proof. done. Qed.

Lemma remove_n_quota f count removed x l :
  0 <= removed →
  remove_n f (quota count removed (x :: l)) (x :: l) =
    if f x then (if removed + 1 =? count then l else remove_n f (quota count (removed + 1) l) l)
    else x :: remove_n f (quota count removed l) l.
Proof.
  intros Hr. unfold quota. destruct (Z.leb_spec count removed) as [Hc|Hc].
  - cbn [length]. rewrite remove_n_cons. destruct (f x).
    + destruct (Z.eqb_spec (removed + 1) count); [lia|]. destruct (Z.leb_spec count (removed + 1)); [done|lia].
    + f_equal. rewrite !remove_n_all by lia. done.
  - replace (Z.to_nat (count - removed)) with (S (Z.to_nat (count - (removed + 1)))) at 1 by lia.
    rewrite remove_n_cons. destruct (f x).
    + destruct (Z.eqb_spec (removed + 1) count) as [<-|].
      * rewrite Z.sub_diag. by destruct l.
      * destruct (Z.leb_spec count (removed + 1)); [lia|done].
    + by replace (S (Z.to_nat (count - (removed + 1)))) with (Z.to_nat (count - removed)) by lia.
Qed.

Lemma removeBy_loop_spec fuel f count ql it l r removed :
  at_pos ql it l r → Forall (λ p, elems p ≠ []) (data ql) → (length r < fuel)%nat → 0 <= removed →
  size ql = Z.of_nat (length (l ++ r)) →
  let r' := remove_n f (quota count removed r) r in
  ∃ ql', removeBy_loop fuel f count ql it removed = Ret (ql', removed + Z.of_nat (length r) - Z.of_nat (length r'))
    ∧ ql_ok ql' ∧ contents ql' = l ++ r'.
Proof.
  cbn zeta. revert ql it l r removed. induction fuel as [|fuel IH]; intros ql it l r removed Ha Hp Hf Hr Hs; [lia|].
  cbn [removeBy_loop]. rewrite (atEnd_spec _ _ _ _ Ha Hp). cbn [mbind res_bind]. destruct r as [|x r].
  { assert (remove_n f (quota count removed []) [] = []) as -> by (by destruct (quota _ _ _)).
    exists ql. pose proof (at_pos_contents _ _ _ _ Ha) as Hc. split_and!; [f_equal; f_equal; simpl; lia| |done].
    by eapply ql_ok_intro. }
  rewrite bool_decide_eq_false_2, (iter_get_spec _ _ _ _ _ Ha Hp) by done. cbn [mbind res_bind].
  rewrite remove_n_quota by done. rewrite length_app in Hs. cbn [length] in *. destruct (f x).
  - destruct (iter_remove_spec _ _ _ _ _ Ha Hp) as (ql' & it' & -> & Ha' & Hp' & Hs'). cbn.
    destruct (removed + 1 =? count).
    + exists ql'. pose proof (at_pos_contents _ _ _ _ Ha') as Hc. split_and!; [f_equal; f_equal; lia| |done].
      eapply ql_ok_intro; [done|done|]. rewrite length_app. lia.
    + destruct (IH ql' it' l r (removed + 1)) as (ql'' & -> & Hok & Hc); [done|done|lia|lia|rewrite length_app; lia|].
      exists ql''. split_and!; [do 2 f_equal; lia|done|done].
  - destruct (iter_next_spec _ _ _ _ _ Ha Hp) as (it' & -> & Ha'). cbn.
    destruct (IH ql it' (l ++ [x]) r removed) as (ql'' & -> & Hok & Hc);
      [done|done|lia|lia|rewrite !length_app; simpl; lia|].
    exists ql''. split_and!; [do 2 f_equal; lia|done|]. by rewrite Hc, <- app_assoc.
Qed.

(** [RemoveAllByVal] is the loop that no count stops. *)
Lemma removeAll_loop_by fuel f ql it removed :
  0 <= removed → removeAll_loop fuel f ql it removed = removeBy_loop fuel f 0 ql it removed.
Proof.
  revert ql it removed. induction fuel as [|fuel IH]; intros ql it removed Hr; [done|].
  cbn [removeAll_loop removeBy_loop]. destruct (atEnd ql it) as [[]| |]; [done| |done|done]. cbn.
  destruct (iter_get ql it); [|done|done]. cbn. destruct (f a).
  - destruct (iter_remove ql it) as [[[? ?] ?]| |]; [|done|done]. cbn.
    destruct (Z.eqb_spec (removed + 1) 0); [lia|]. apply IH. lia.
  - destruct (iter_next ql it) as [[? ?]| |]; [|done|done]. cbn. by apply IH.
Qed.

Lemma find_start ql :
  ql_ok ql → size ql ≠ 0 → ∃ it, find ql 0 = Ret it ∧ at_pos ql it [] (contents ql).
Proof. intros Hok Hs. destruct (find_spec ql 0 Hok) as (it & E & Ha); [destruct Hok; lia|]. by exists it. Qed.

Lemma ql_size_0 ql : ql_ok ql → size ql = 0 → contents ql = [].
Proof. intros [_ H] ?. destruct (contents ql); [done|]. simpl in H. lia. Qed.

Lemma ql_RemoveByVal_spec ql f count :
  ql_ok ql →
  let r := remove_n f (quota count 0 (contents ql)) (contents ql) in
  ∃ ql', ql_RemoveByVal ql f count = Ret (ql', Z.of_nat (length (contents ql)) - Z.of_nat (length r)) ∧
    ql_ok ql' ∧ contents ql' = r.
Proof.
  intros Hok. cbn zeta. unfold ql_RemoveByVal. destruct (Z.eqb_spec (size ql) 0) as [E|E].
  - pose proof (ql_size_0 _ Hok E) as Hc. exists ql. rewrite Hc. by destruct (quota count 0 []).
  - destruct (find_start _ Hok E) as (it & -> & Ha). cbn [mbind res_bind].
    destruct Hok as [Hp Hs].
    apply (removeBy_loop_spec _ f count ql it [] (contents ql) 0); [done|done|lia|done|done].
Qed.

Lemma ql_RemoveAllByVal_spec ql f :
  ql_ok ql → contents ql ≠ [] →
  let r := List.filter (λ x, negb (f x)) (contents ql) in
  ∃ ql', ql_RemoveAllByVal ql f = Ret (ql', Z.of_nat (length (contents ql)) - Z.of_nat (length r)) ∧
    ql_ok ql' ∧ contents ql' = r.
Proof.
  intros Hok Hne. cbn zeta. unfold ql_RemoveAllByVal.
  destruct (find_start _ Hok) as (it & -> & Ha); [by intros ?%ql_size_0|]. cbn [mbind res_bind].
  rewrite removeAll_loop_by by done. destruct Hok as [Hp Hs].
  rewrite <- (remove_n_all f (quota 0 0 (contents ql))) by done.
  apply (removeBy_loop_spec _ f 0 ql it [] (contents ql) 0); [done|done|lia|done|done].
Qed.

Lemma reverseRemove_loop_spec fuel f count ql it l r y removed :
  at_pos ql it l (y :: r) → Forall (λ p, elems p ≠ []) (data ql) → (S (length l) < fuel)%nat → 0 <= removed →
  size ql = Z.of_nat (length (l ++ y :: r)) →
  let rl := y :: reverse l in
  let rl' := remove_n f (quota count removed rl) rl in
  ∃ ql', reverseRemove_loop fuel f count ql it removed
      = Ret (ql', removed + Z.of_nat (length rl) - Z.of_nat (length rl'))
    ∧ ql_ok ql' ∧ contents ql' = reverse rl' ++ r.
Proof.
  cbn zeta. revert ql it l r y removed.
  induction fuel as [|fuel IH]; intros ql it l r y removed Ha Hp Hf Hr Hs; [lia|].
  cbn [reverseRemove_loop]. rewrite (atBegin_on _ _ _ _ _ Ha), (iter_get_spec _ _ _ _ _ Ha Hp).
  cbn [mbind res_bind]. rewrite remove_n_quota by done.
  assert (Hend : ∀ ql2 it2 rm, atBegin ql2 it2 = true → reverseRemove_loop fuel f count ql2 it2 rm = Ret (ql2, rm)).
  { intros ql2 it2 rm E. destruct fuel; [lia|]. cbn. by rewrite E. }
  rewrite length_app in Hs. cbn [length] in *. rewrite length_reverse.
  destruct (f y).
  - destruct (iter_remove_spec _ _ _ _ _ Ha Hp) as (ql' & it' & -> & Ha' & Hp' & Hs'). cbn [mbind res_bind].
    pose proof (at_pos_contents _ _ _ _ Ha') as Hc.
    assert (Hok' : ql_ok ql') by (eapply ql_ok_intro; [done|done|]; rewrite length_app; lia).
    destruct (removed + 1 =? count).
    { exists ql'. rewrite length_reverse, reverse_involutive. split_and!; [do 2 f_equal; lia|done|done]. }
    destruct (iter_prev_spec _ _ _ _ Ha' Hp') as (it'' & b & -> & Hbeg & Hprev). cbn [mbind res_bind].
    destruct l as [|z l _] using rev_ind.
    + exists ql'. rewrite Hend by auto. rewrite reverse_nil.
      assert (∀ n, remove_n f n [] = []) as -> by (by intros []).
      split_and!; [do 2 f_equal; simpl; lia|done|done].
    + specialize (Hprev l z eq_refl). rewrite length_app in *. cbn [length] in *.
      rewrite reverse_snoc.
      destruct (IH ql' it'' l r z (removed + 1)) as (ql'' & -> & Hok & Hc'');
        [done|done|lia|lia|rewrite length_app; cbn; lia|].
      exists ql''. split_and!; [do 2 f_equal; cbn [length]; rewrite length_reverse; lia|done|done].
  - destruct (iter_prev_spec _ _ _ _ Ha Hp) as (it'' & b & -> & Hbeg & Hprev). cbn [mbind res_bind].
    rewrite reverse_cons, <- app_assoc. cbn [app length].
    destruct l as [|z l _] using rev_ind.
    + exists ql. rewrite Hend by auto. rewrite reverse_nil.
      assert (∀ n, remove_n f n [] = []) as -> by (by intros []).
      pose proof (at_pos_contents _ _ _ _ Ha) as Hc.
      split_and!; [do 2 f_equal; simpl; lia| |done]. eapply ql_ok_intro; [done|done|]. cbn in *. lia.
    + specialize (Hprev l z eq_refl). rewrite length_app in *. cbn [length] in *.
      rewrite reverse_snoc.
      destruct (IH ql it'' l (y :: r) z removed) as (ql'' & -> & Hok & Hc'');
        [done|done|lia|lia|rewrite length_app; cbn; lia|].
      exists ql''. split_and!; [do 2 f_equal; cbn [length]; rewrite length_reverse; lia|done|done].
Qed.

Lemma ql_ReverseRemoveByVal_spec ql f count :
  ql_ok ql →
  let rl := reverse (contents ql) in
  let rl' := remove_n f (quota count 0 rl) rl in
  ∃ ql', ql_ReverseRemoveByVal ql f count = Ret (ql', Z.of_nat (length rl) - Z.of_nat (length rl')) ∧
    ql_ok ql' ∧ contents ql' = reverse rl'.
Proof.
  intros Hok. cbn zeta. unfold ql_ReverseRemoveByVal. destruct (Z.eqb_spec (size ql) 0) as [E|E].
  - pose proof (ql_size_0 _ Hok E) as Hc. exists ql. rewrite Hc, reverse_nil.
    assert (∀ n, remove_n f n [] = []) as -> by (by intros []). by rewrite reverse_nil.
  - pose proof (ql_size _ Hok) as Hs. destruct (find_spec ql (size ql - 1) Hok) as (it & -> & Ha); [lia|].
    destruct (contents ql) as [|y l _] eqn:Ec using rev_ind; [done|]. rewrite length_app in Hs. cbn in Hs.
    assert (Hn : Z.to_nat (size ql - 1) = length l) by lia.
    rewrite Hn, take_app_length, drop_app_length in Ha. cbn [mbind res_bind].
    rewrite reverse_snoc.
    destruct (reverseRemove_loop_spec (S (Z.to_nat (size ql))) f count ql it l [] y 0) as (ql' & -> & Hok' & Hc');
      [done|apply Hok|lia|done|rewrite length_app; cbn; lia|].
    exists ql'. by rewrite Hc', app_nil_r.
Qed.

Lemma ql_RemoveLast_spec ql :
  ql_ok ql →
  ∃ ql', ql_RemoveLast ql = Ret (ql', last (contents ql)) ∧ ql_ok ql' ∧ contents ql' = removelast (contents ql).
Proof.
  intros Hok. unfold ql_RemoveLast, ql_Len. destruct (Z.eqb_spec (size ql) 0) as [E|E].
  { pose proof (ql_size_0 _ Hok E) as Hc. exists ql. by rewrite Hc. }
  pose proof (ql_size _ Hok) as Hs. destruct (last (data ql)) as [p|] eqn:El; cycle 1.
  { apply last_None in El. unfold contents in Hs. rewrite El in Hs. cbn in Hs. lia. }
  destruct (last_split _ _ El) as (ps & Ed & Er). cbn. rewrite Er.
  pose proof (ql_pages _ Hok) as Hp. rewrite Ed in Hp. apply Forall_app in Hp as [Hp [Hq _]%Forall_cons].
  assert (Hc : contents ql = join ps ++ elems p) by (unfold contents; by rewrite Ed, join_snoc).
  destruct (elems p) as [|x es _] eqn:Ep using rev_ind; [done|]. rewrite app_assoc in Hc.
  assert (Hrl : removelast (contents ql) = join ps ++ es)
    by (rewrite Hc, removelast_app by done; simpl; by rewrite app_nil_r).
  rewrite Hrl, Hc, last_snoc.
  assert (Hsz : size ql - 1 = Z.of_nat (length (join ps ++ es))).
  { rewrite Hs, Hc, (length_app _ [x]). cbn. lia. }
  unfold plen. rewrite Ep, length_app, Nat.add_1_r.
  destruct (Z.eqb_spec (Z.of_nat (S (length es))) 1) as [E1|E1].
  - assert (es = []) as -> by (destruct es; [done|]; cbn in E1; lia). cbn. rewrite app_nil_r.
    rewrite (app_nil_r (join ps)) in Hsz. eexists. split_and!; [done| |done]. eapply ql_ok_intro; [done|done|exact Hsz].
  - replace (Z.of_nat (S (length es)) - 1) with (Z.of_nat (length es)) by lia.
    unfold nth_res. destruct (Z.ltb_spec (Z.of_nat (length es)) 0); [lia|].
    rewrite Nat2Z.id, list_lookup_middle by done. cbn.
    rewrite removelast_app by done. cbn. rewrite app_nil_r.
    eexists. split; [done|]. assert (Hc' : join (ps ++ [MkPage es (cap p)]) = join ps ++ es) by apply join_snoc.
    split; [|done]. eapply ql_ok_intro; [|done|done]. cbn. apply Forall_app; split; [done|].
    apply Forall_singleton. cbn. intros ->. cbn in E1. lia.
Qed.

(** A traversal of a list that the consumer may stop. *)
Fixpoint each {S} (consumer : S → Z → A → S * bool) (i : Z) (l : list A) (st : S) : S :=
  match l with
  | [] => st
  | x :: l' => let '(st', go) := consumer st i x in if go : bool then each consumer (i + 1) l' st' else st'
  end.

Lemma forEach_loop_spec {S} fuel (consumer : S → Z → A → S * bool) ql it l x r i st :
  at_pos ql it l (x :: r) → Forall (λ p, elems p ≠ []) (data ql) → (length r < fuel)%nat →
  forEach_loop fuel consumer ql it i st = Ret (each consumer i (x :: r) st).
Proof.
  revert it l x r i st. induction fuel as [|fuel IH]; intros it l x r i st Ha Hp Hf; [lia|].
  cbn [forEach_loop]. rewrite (iter_get_spec _ _ _ _ _ Ha Hp). cbn [mbind res_bind each].
  destruct (consumer st i x) as [st' []]; [|done]. cbn [negb].
  destruct (iter_next_spec _ _ _ _ _ Ha Hp) as (it' & -> & Ha'). cbn [mbind res_bind].
  destruct r as [|y r]; [done|]. rewrite bool_decide_eq_true_2 by done.
  apply (IH it' (l ++ [x]) y r); [done|done|cbn in Hf; lia].
Qed.

Lemma ql_ForEach_spec {S} ql (consumer : S → Z → A → S * bool) st :
  ql_ok ql → ql_ForEach ql consumer st = Ret (each consumer 0 (contents ql) st).
Proof.
  intros Hok. unfold ql_ForEach, ql_Len. destruct (Z.eqb_spec (size ql) 0) as [E|E].
  - by rewrite (ql_size_0 _ Hok E).
  - destruct (find_start _ Hok E) as (it & -> & Ha). cbn [mbind res_bind]. destruct Hok as [Hp Hs].
    destruct (contents ql) as [|x r]; [cbn in Hs; lia|]. apply (forEach_loop_spec _ _ _ _ []); [done|done|].
    cbn in Hs. lia.
Qed.

Lemma ql_Contains_spec ql f : ql_ok ql → ql_Contains ql f = Ret (existsb f (contents ql)).
Proof.
  intros Hok. unfold ql_Contains. rewrite ql_ForEach_spec by done. f_equal.
  generalize 0. induction (contents ql) as [|x l IH]; intros i; [done|]. cbn. destruct (f x); [done|apply IH].
Qed.

Lemma each_collect i l acc : each (λ a (_ : Z) v, (a ++ [v], true)) i l acc = acc ++ l.
Proof.
  revert i acc. induction l as [|x l IH]; intros i acc; cbn; [by rewrite app_nil_r|]. by rewrite IH, <- app_assoc.
Qed.

Lemma range_collect_spec n ql it l r acc :
  at_pos ql it l r → Forall (λ p, elems p ≠ []) (data ql) → (n <= length r)%nat →
  range_collect n ql it acc = Ret (acc ++ take n r).
Proof.
  revert it l r acc. induction n as [|n IH]; intros it l r acc Ha Hp Hn; [cbn; by rewrite app_nil_r|].
  destruct r as [|x r]; [cbn in Hn; lia|]. cbn [range_collect take].
  rewrite (iter_get_spec _ _ _ _ _ Ha Hp). cbn [mbind res_bind].
  destruct (iter_next_spec _ _ _ _ _ Ha Hp) as (it' & -> & Ha'). cbn [mbind res_bind].
  rewrite (IH it' (l ++ [x]) r) by (done || cbn in Hn; lia). by rewrite <- app_assoc.
Qed.

Lemma ql_Range_spec ql start stop :
  ql_ok ql → 0 <= start < Z.of_nat (length (contents ql)) → start <= stop <= Z.of_nat (length (contents ql)) →
  ql_Range ql start stop = Ret (take (Z.to_nat (stop - start)) (drop (Z.to_nat start) (contents ql))).
Proof.
  intros Hok H1 H2. unfold ql_Range, ql_Len. pose proof (ql_size _ Hok) as Hs. rewrite Hs.
  destruct (Z.ltb_spec start 0); [lia|]. destruct (Z.leb_spec (Z.of_nat (length (contents ql))) start); [lia|].
  destruct (Z.ltb_spec stop start); [lia|]. destruct (Z.ltb_spec (Z.of_nat (length (contents ql))) stop); [lia|].
  cbn [orb]. destruct (find_spec ql start Hok) as (it & -> & Ha); [lia|]. cbn [mbind res_bind].
  eapply range_collect_spec in Ha as ->; [done|apply Hok|]. rewrite length_drop. lia.
Qed.

Lemma ql_Range_panics ql start stop :
  ql_ok ql → ¬ (0 <= start < Z.of_nat (length (contents ql)) ∧ start <= stop <= Z.of_nat (length (contents ql))) →
  ql_Range ql start stop = Panic.
Proof.
  intros Hok H. unfold ql_Range, ql_Len. rewrite (ql_size _ Hok).
  destruct (Z.ltb_spec start 0), (Z.leb_spec (Z.of_nat (length (contents ql))) start),
    (Z.ltb_spec stop start), (Z.ltb_spec (Z.of_nat (length (contents ql))) stop); cbn; try done. lia.
Qed.
End proofs.

(** ** Refinement: any sequence of operations against a plain list *)

Inductive ql_cmd (A : Type) :=
| CAdd (v : A) | CGet (i : Z) | CSet (i : Z) (v : A) | CInsert (i : Z) (v : A) | CRemove (i : Z)
| CRemoveLast | CRemoveAllByVal (f : A → bool) | CRemoveByVal (f : A → bool) (count : Z)
| CReverseRemoveByVal (f : A → bool) (count : Z) | CLen | CContains (f : A → bool)
| CRange (start stop : Z) | CForEach.
Arguments CAdd {A}. Arguments CGet {A}. Arguments CSet {A}. Arguments CInsert {A}.
Arguments CRemove {A}. Arguments CRemoveLast {A}. Arguments CRemoveAllByVal {A}.
Arguments CRemoveByVal {A}. Arguments CReverseRemoveByVal {A}. Arguments CLen {A}.
Arguments CContains {A}. Arguments CRange {A}. Arguments CForEach {A}.

Inductive ql_reply (A : Type) :=
| ROk | RVal (v : option A) | RInt (n : Z) | RBool (b : bool) | RList (l : list A).
Arguments ROk {A}. Arguments RVal {A}. Arguments RInt {A}. Arguments RBool {A}. Arguments RList {A}.

Section refinement.
Context {A : Type} (growslice : Z → nat → Z).

Definition ql_step (ql : @QuickList A) (c : ql_cmd A) : res (QuickList * ql_reply A) :=
  match c with
  | CAdd v => Ret (ql_Add growslice ql v, ROk)
  | CGet i => v ← ql_Get ql i; Ret (ql, RVal (Some v))
  | CSet i v => ql' ← ql_Set ql i v; Ret (ql', ROk)
  | CInsert i v => ql' ← ql_Insert growslice ql i v; Ret (ql', ROk)
  | CRemove i => '(ql', v) ← ql_Remove ql i; Ret (ql', RVal (Some v))
  | CRemoveLast => '(ql', v) ← ql_RemoveLast ql; Ret (ql', RVal v)
  | CRemoveAllByVal f => '(ql', n) ← ql_RemoveAllByVal ql f; Ret (ql', RInt n)
  | CRemoveByVal f count => '(ql', n) ← ql_RemoveByVal ql f count; Ret (ql', RInt n)
  | CReverseRemoveByVal f count => '(ql', n) ← ql_ReverseRemoveByVal ql f count; Ret (ql', RInt n)
  | CLen => Ret (ql, RInt (ql_Len ql))
  | CContains f => b ← ql_Contains ql f; Ret (ql, RBool b)
  | CRange a b => l ← ql_Range ql a b; Ret (ql, RList l)
  | CForEach => l ← ql_ForEach ql (λ acc _ v, (acc ++ [v], true)) []; Ret (ql, RList l)
  end.

(** The specification: positions out of bounds panic, counts above zero limit
    a removal, other counts do not. *)
Definition removed_reply (l l' : list A) : list A * ql_reply A :=
  (l', RInt (Z.of_nat (length l) - Z.of_nat (length l'))).

Definition limit (count : Z) (l : list A) : nat := if count <=? 0 then length l else Z.to_nat count.

Definition list_step (l : list A) (c : ql_cmd A) : res (list A * ql_reply A) :=
  match c with
  | CAdd v => Ret (l ++ [v], ROk)
  | CGet i => v ← nth_res l i; Ret (l, RVal (Some v))
  | CSet i v => _ ← nth_res l i; Ret (<[Z.to_nat i := v]> l, ROk)
  | CInsert i v =>
      if (0 <=? i) && (i <=? Z.of_nat (length l)) then Ret (take (Z.to_nat i) l ++ v :: drop (Z.to_nat i) l, ROk)
      else Panic
  | CRemove i => v ← nth_res l i; Ret (take (Z.to_nat i) l ++ drop (S (Z.to_nat i)) l, RVal (Some v))
  | CRemoveLast => Ret (removelast l, RVal (last l))
  | CRemoveAllByVal f =>
      match l with [] => Panic | _ => Ret (removed_reply l (List.filter (λ x, negb (f x)) l)) end
  | CRemoveByVal f count => Ret (removed_reply l (remove_n f (limit count l) l))
  | CReverseRemoveByVal f count => Ret (removed_reply l (reverse (remove_n f (limit count l) (reverse l))))
  | CLen => Ret (l, RInt (Z.of_nat (length l)))
  | CContains f => Ret (l, RBool (existsb f l))
  | CRange a b =>
      if (0 <=? a) && (a <? Z.of_nat (length l)) && (a <=? b) && (b <=? Z.of_nat (length l))
      then Ret (l, RList (take (Z.to_nat (b - a)) (drop (Z.to_nat a) l)))
      else Panic
  | CForEach => Ret (l, RList l)
  end.

Fixpoint ql_run (ql : @QuickList A) (cs : list (ql_cmd A)) : res (QuickList * list (ql_reply A)) :=
  match cs with
  | [] => Ret (ql, [])
  | c :: cs' => '(ql', o) ← ql_step ql c; '(ql'', os) ← ql_run ql' cs'; Ret (ql'', o :: os)
  end.

Fixpoint list_run (l : list A) (cs : list (ql_cmd A)) : res (list A * list (ql_reply A)) :=
  match cs with
  | [] => Ret (l, [])
  | c :: cs' => '(l', o) ← list_step l c; '(l'', os) ← list_run l' cs'; Ret (l'', o :: os)
  end.

(** [sim r s]: the concrete outcome [r] shows exactly the abstract one. *)
Definition sim {B} (r : res (@QuickList A * B)) (s : res (list A * B)) : Prop :=
  match r, s with
  | Ret (ql, b), Ret (l, b') => ql_ok ql ∧ contents ql = l ∧ b = b'
  | Panic, Panic => True
  | _, _ => False
  end.

Lemma find_bad (ql : @QuickList A) i : ql_ok ql → nth_res (contents ql) i = Panic → find ql i = Panic.
Proof.
  unfold nth_res. intros Hok H. apply find_panics. rewrite (ql_size _ Hok).
  destruct (Z.ltb_spec i 0); [by left|]. right.
  destruct (contents ql !! Z.to_nat i) eqn:E; [done|]. apply lookup_ge_None in E. lia.
Qed.

(** A position is either valid or [find] panics on it. *)
Lemma pos_cases (ql : @QuickList A) i :
  ql_ok ql →
  (∃ n x, i = Z.of_nat n ∧ contents ql !! n = Some x ∧ nth_res (contents ql) i = Ret x) ∨
  (nth_res (contents ql) i = Panic ∧ find ql i = Panic).
Proof.
  intros Hok. destruct (nth_res (contents ql) i) as [x| |] eqn:E.
  - left. revert E. unfold nth_res. destruct (Z.ltb_spec i 0); [done|].
    destruct (contents ql !! Z.to_nat i) as [y|] eqn:Ey; [|done]. intros [= ->].
    exists (Z.to_nat i), x. split_and!; [lia|done|done].
  - right. split; [done|]. by apply find_bad.
  - revert E. unfold nth_res. destruct (i <? 0); [done|]. by destruct (contents ql !! Z.to_nat i).
Qed.

Lemma ql_step_sim ql c : ql_ok ql → sim (ql_step ql c) (list_step (contents ql) c).
Proof.
  intros Hok. pose proof (ql_size _ Hok) as Hs. destruct c as [v|i|i v|i v|i| |f|f n|f n| |f|a b|]; cbn [ql_step list_step].
  - by destruct (ql_Add_spec growslice ql v Hok).
  - destruct (pos_cases ql i Hok) as [(n & x & -> & Hx & ->)|[-> Hf]].
    + by rewrite (ql_Get_spec _ _ _ Hok Hx).
    + unfold ql_Get. by rewrite Hf.
  - destruct (pos_cases ql i Hok) as [(n & x & -> & Hx & ->)|[-> Hf]].
    + destruct (ql_Set_spec _ _ _ v Hok Hx) as (ql' & -> & ? & ?). cbn. by rewrite Nat2Z.id.
    + unfold ql_Set. by rewrite Hf.
  - destruct (Z.leb_spec 0 i) as [Hi|Hi], (Z.leb_spec i (Z.of_nat (length (contents ql)))) as [Hi2|Hi2]; cbn [andb].
    2,3,4: unfold ql_Insert; destruct (Z.eqb_spec i (size ql)); [lia|]; rewrite find_panics by lia; done.
    destruct (ql_Insert_spec growslice ql (Z.to_nat i) v Hok) as (ql' & E & ? & ?); [lia|].
    rewrite Z2Nat.id in E by done. by rewrite E.
  - destruct (pos_cases ql i Hok) as [(n & x & -> & Hx & ->)|[-> Hf]].
    + destruct (ql_Remove_spec _ _ _ Hok Hx) as (ql' & -> & ? & ?). cbn. by rewrite Nat2Z.id.
    + unfold ql_Remove. by rewrite Hf.
  - destruct (ql_RemoveLast_spec ql Hok) as (ql' & -> & ? & ?). done.
  - destruct (contents ql) as [|y l] eqn:Ec.
    + unfold ql_RemoveAllByVal. rewrite find_panics; [done|]. cbn in Hs. lia.
    + rewrite <- Ec. destruct (ql_RemoveAllByVal_spec ql f Hok) as (ql' & -> & ? & ?); [by rewrite Ec|]. done.
  - destruct (ql_RemoveByVal_spec ql f n Hok) as (ql' & E & ? & Hc). unfold quota in *. rewrite Z.sub_0_r in *.
    rewrite E. done.
  - destruct (ql_ReverseRemoveByVal_spec ql f n Hok) as (ql' & E & ? & Hc). unfold quota in *.
    rewrite Z.sub_0_r, length_reverse in *. rewrite E. cbn. by rewrite length_reverse.
  - cbn. unfold ql_Len. by rewrite Hs.
  - by rewrite ql_Contains_spec.
  - destruct ((0 <=? a) && (a <? Z.of_nat (length (contents ql))) && (a <=? b)
              && (b <=? Z.of_nat (length (contents ql)))) eqn:E.
    + zbool. by rewrite ql_Range_spec.
    + rewrite ql_Range_panics; [done|done|]. intros [[? ?] [? ?]].
      rewrite (proj2 (Z.leb_le _ _)), (proj2 (Z.ltb_lt _ _)), !(proj2 (Z.leb_le _ _)) in E by done. done.
  - rewrite ql_ForEach_spec by done. cbn. by rewrite each_collect.
Qed.

Lemma ql_run_sim ql cs : ql_ok ql → sim (ql_run ql cs) (list_run (contents ql) cs).
Proof.
  revert ql. induction cs as [|c cs IH]; intros ql Hok; [done|]. cbn [ql_run list_run].
  pose proof (ql_step_sim ql c Hok) as H.
  destruct (ql_step ql c) as [[ql' o]| |], (list_step (contents ql) c) as [[l' o']| |]; try done.
  destruct H as (Hok' & <- & <-). cbn [mbind res_bind]. specialize (IH ql' Hok').
  destruct (ql_run ql' cs) as [[ql'' os]| |], (list_run (contents ql') cs) as [[l'' os']| |]; try done.
  cbn in *. naive_solver.
Qed.

(** C33: From an empty quicklist, any sequence of Add, Get, Set, Insert, Remove,
    RemoveLast, the three removals by value, Len, Contains, Range and ForEach
    gives exactly the replies and the panics of the same sequence on a plain
    list, whatever the growth policy of slices; the pages never become empty
    and the cached size stays the number of elements. *)
Theorem quicklist_refines_list (cs : list (ql_cmd A)) :
  sim (ql_run NewQuickList cs) (list_run [] cs).
Proof. destruct (@ql_new A) as [Hok Hc]. rewrite <- Hc. by apply ql_run_sim. Qed.
End refinement.
End QL.
