(* ===== verification/ObjString.v ===== *)
(** * String objects and encoding thresholds

    [internal/object/object.go], [shared.go] and [thresholds.go]: the object
    header [Robj] with its type and encoding tags, the encoding chosen for a
    string, the pool of shared small integers, and the thresholds that decide
    when a compact encoding is given up. *)

From stdpp Require Import base list strings.
From Stdlib Require Import ZArith Lia.
From S2P Require Import Prelude GoText Strconv.

Local Open Scope Z_scope.

Inductive ObjType := TypeString | TypeList | TypeSet | TypeHash | TypeZSet | TypeStream.

Inductive Encoding :=
| EncInt | EncEmbstr | EncRaw | EncListpack | EncListpackEx | EncQuicklist
| EncIntset | EncHashtable | EncSkiplist | EncStream.

#[export] Instance Encoding_eq_dec : EqDecision Encoding.
Proof. solve_decision. Defined.

Record Robj := NewRobj { Type_ : ObjType; Encoding_ : Encoding; Ptr : value }.

Definition TypeName (r : Robj) : bytes :=
  match Type_ r with
  | TypeString => str "string"
  | TypeList => str "list"
  | TypeSet => str "set"
  | TypeHash => str "hash"
  | TypeZSet => str "zset"
  | TypeStream => str "stream"
  end.

(** The [switch] has no case for [EncListpackEx]. *)
Definition EncodingName (r : Robj) : bytes :=
  match Encoding_ r with
  | EncInt => str "int"
  | EncEmbstr => str "embstr"
  | EncRaw => str "raw"
  | EncListpack => str "listpack"
  | EncQuicklist => str "quicklist"
  | EncIntset => str "intset"
  | EncHashtable => str "hashtable"
  | EncSkiplist => str "skiplist"
  | EncStream => str "stream"
  | EncListpackEx => str "unknown"
  end.

(** The pool filled by [init], and the lookup in it. *)
Definition sharedIntegers : list Robj :=
  (λ i, NewRobj TypeString EncInt (VInt (Z.of_nat i))) <$> seq 0 (Z.to_nat 10000).

Definition SharedInt (n : Z) : res Robj :=
  if (0 <=? n) && (n <? 10000) then must (sharedIntegers !! Z.to_nat n)
  else Ret (NewRobj TypeString EncInt (VInt n)).

Definition MakeStringObject (b : bytes) : res Robj :=
  let '(v, ok) := isInt b in
  if ok : bool then SharedInt v
  else if Z.of_nat (length b) <=? 44 then Ret (NewRobj TypeString EncEmbstr (VBytes b))
  else Ret (NewRobj TypeString EncRaw (VBytes b)).

Definition MakeRawStringObject (b : bytes) : Robj := NewRobj TypeString EncRaw (VBytes b).

(** A failed type assertion panics; an encoding that is not a string's gives
    [nil]. *)
Definition GetStringBytes (r : Robj) : res value :=
  match Encoding_ r with
  | EncInt => match Ptr r with VInt v => Ret (VBytes (formatInt64 v)) | _ => Panic end
  | EncEmbstr | EncRaw => match Ptr r with VBytes b => Ret (VBytes b) | _ => Panic end
  | _ => Ret VNil
  end.

Definition GetStringAsInt (r : Robj) : res (Z * bool) :=
  if bool_decide (Encoding_ r = EncInt)
  then match Ptr r with VInt v => Ret (v, true) | _ => Panic end
  else Ret (0, false).

(** ** Thresholds *)

Record EncodingThresholds := MkThresholds {
  HashMaxListpackEntries : Z;
  HashMaxListpackValue : Z;
  SetMaxIntsetEntries : Z;
  SetMaxListpackEntries : Z;
  SetMaxListpackValue : Z;
  ZSetMaxListpackEntries : Z;
  ZSetMaxListpackValue : Z;
  ListMaxListpackSize : Z
}.

Definition DefaultEncodingThresholds : EncodingThresholds :=
  MkThresholds 128 64 512 128 64 128 64 128.

(** The thresholds that [SetEncodingThresholds] stores. *)
Definition or_default (z def : Z) : Z := if z <=? 0 then def else z.

Definition SetEncodingThresholds (t : EncodingThresholds) : EncodingThresholds :=
  let def := DefaultEncodingThresholds in
  MkThresholds
    (or_default (HashMaxListpackEntries t) (HashMaxListpackEntries def))
    (or_default (HashMaxListpackValue t) (HashMaxListpackValue def))
    (or_default (SetMaxIntsetEntries t) (SetMaxIntsetEntries def))
    (or_default (SetMaxListpackEntries t) (SetMaxListpackEntries def))
    (or_default (SetMaxListpackValue t) (SetMaxListpackValue def))
    (or_default (ZSetMaxListpackEntries t) (ZSetMaxListpackEntries def))
    (or_default (ZSetMaxListpackValue t) (ZSetMaxListpackValue def))
    (or_default (ListMaxListpackSize t) (ListMaxListpackSize def)).

Definition elemLen (v : value) : Z :=
  match v with
  | VStr s => Z.of_nat (length s)
  | VBytes b => Z.of_nat (length b)
  | _ => 0
  end.

#[global] Arguments sharedIntegers : simpl never.

(** ** Properties *)

Lemma sharedIntegers_lookup (n : nat) :
  Z.of_nat n < 10000 → sharedIntegers !! n = Some (NewRobj TypeString EncInt (VInt (Z.of_nat n))).
Proof.
  intros Hn. unfold sharedIntegers. rewrite list_lookup_fmap, lookup_seq_lt by lia. done.
Qed.

Lemma SharedInt_spec n : SharedInt n = Ret (NewRobj TypeString EncInt (VInt n)).
Proof.
  unfold SharedInt. destruct (_ && _) eqn:E; [|done]. zbool.
  rewrite sharedIntegers_lookup by lia. cbn. by rewrite Z2Nat.id.
Qed.

(** The printer of the object layer gives the decimal that [strconv.Itoa]
    gives. *)
Lemma fill_digits_digits fuel v buf :
  0 < v < 10 ^ Z.of_nat fuel → fill_digits (count_digits fuel v) v buf = digits fuel v buf.
Proof.
  revert v buf. induction fuel as [|f IH]; intros v buf Hv; [change (10 ^ Z.of_nat 0) with 1 in Hv; lia|].
  rewrite Nat2Z.inj_succ, Z.pow_succ_r in Hv by lia. cbn [count_digits digits]. rewrite (proj2 (Z.ltb_lt 0 v)) by lia. cbn [fill_digits].
  rewrite Z.quot_div_nonneg, Z.rem_mod_nonneg by lia. destruct (Z.ltb_spec v 10).
  - rewrite Z.div_small, Z.mod_small by lia. by destruct f.
  - apply IH. split; [apply Z.div_str_pos; lia|apply Z.div_lt_upper_bound; lia].
Qed.

Lemma formatInt64_Itoa v : - max_i64 <= v <= max_i64 → formatInt64 v = Itoa v.
Proof.
  intros Hv. unfold formatInt64, Itoa. destruct (Z.eqb_spec v 0) as [->|H0]; [done|].
  change max_i64 with 9223372036854775807 in Hv. destruct (Z.ltb_spec v 0).
  - rewrite wrap64_id by (unfold i64, min_i64, max_i64; lia). by rewrite fill_digits_digits by lia.
  - by rewrite fill_digits_digits by lia.
Qed.

(** The texts that are kept as integers: the decimals of the int64 numbers
    other than the least. *)
Definition decimal_int64 (b : bytes) (v : Z) : Prop := - max_i64 <= v <= max_i64 ∧ b = Itoa v.

Lemma isInt_decimal b v : isInt b = (v, true) ↔ decimal_int64 b v.
Proof.
  split; [intros [<- Hv]%isInt_true; split; [done|by apply formatInt64_Itoa]|].
  intros [Hv ->]. rewrite <- formatInt64_Itoa by done. by apply isInt_format.
Qed.

(** C37: storing any byte string as a string object and reading it back gives
    the same bytes, whatever encoding is chosen.  The encoding is int exactly
    for the decimals, as [strconv.Itoa] prints them, of the int64 numbers other
    than the least, and then that number is read back; otherwise it is embstr up
    to 44 bytes and raw above, and there is no integer to read. *)
Theorem string_object_roundtrip b :
  ∃ r, MakeStringObject b = Ret r ∧ Type_ r = TypeString ∧ GetStringBytes r = Ret (VBytes b) ∧
    (∀ v, decimal_int64 b v → Encoding_ r = EncInt ∧ GetStringAsInt r = Ret (v, true)) ∧
    ((∀ v, ¬ decimal_int64 b v) →
      Encoding_ r = (if decide (length b <= 44)%nat then EncEmbstr else EncRaw) ∧ GetStringAsInt r = Ret (0, false)).
Proof.
  unfold MakeStringObject. destruct (isInt b) as [v []] eqn:E.
  - pose proof (proj1 (isInt_decimal b v) E) as Hd. destruct (isInt_true b v E) as [<- _]. rewrite SharedInt_spec.
    eexists. split_and!; [done..| |intros Hn; by destruct (Hn v)].
    intros w Hw. apply isInt_decimal in Hw. rewrite E in Hw. injection Hw as <-. done.
  - assert (Hno : ∀ w, ¬ decimal_int64 b w) by (intros w Hw%isInt_decimal; congruence).
    destruct (Z.leb_spec (Z.of_nat (length b)) 44); eexists; (split_and!; [done..|by intros w ?%Hno|]); intros _; (split; [|done]);
      case_decide; done || lia.
Qed.

(** The least int64 is documented to be kept as an integer, and is not. *)
Lemma least_int64_is_embstr : ∃ r, MakeStringObject (Itoa min_i64) = Ret r ∧ Encoding_ r = EncEmbstr.
Proof. eexists. split; [vm_compute; reflexivity|done]. Qed.

(** [isInt] and [formatInt64] are inverse on the integers between
    -(2^63-1) and 2^63-1: formatting and then recognising gives the integer
    back, and a recognised string is the canonical rendering of its integer. *)
Theorem isInt_formatInt64_roundtrip v s :
  - max_i64 <= v <= max_i64 → isInt (formatInt64 v) = (v, true) ∧ (isInt s = (v, true) → s = formatInt64 v).
Proof. intros Hv. split; [by apply isInt_format|]. by intros [<- _]%isInt_true. Qed.

Lemma isInt_formatInt64_roundtrip_witness :
  isInt (formatInt64 (-1205)) = (-1205, true) ∧
  (isInt (str "-1205") = (-1205, true) → str "-1205" = formatInt64 (-1205)).
Proof. apply isInt_formatInt64_roundtrip. unfold max_i64. lia. Defined.

(** The least int64 is the one exception: [formatInt64] negates it, which
    wraps around to itself, and prints a lone minus sign, so the decimal
    rendering of -2^63 is not recognised as an integer. *)
Theorem formatInt64_min_int64 :
  formatInt64 min_i64 = str "-" ∧ (isInt (str "-9223372036854775808")).2 = false.
Proof. split; reflexivity. Qed.

(** Installing thresholds leaves every positive field as it is, replaces
    every other one by its default, and so makes all eight positive; installing
    the result again changes nothing. *)
Theorem thresholds_positive t :
  let t' := SetEncodingThresholds t in
  (∀ f, In f [HashMaxListpackEntries; HashMaxListpackValue; SetMaxIntsetEntries; SetMaxListpackEntries;
              SetMaxListpackValue; ZSetMaxListpackEntries; ZSetMaxListpackValue; ListMaxListpackSize] →
     0 < f t' ∧ f t' = (if 0 <? f t then f t else f DefaultEncodingThresholds)) ∧
  SetEncodingThresholds t' = t'.
Proof.
  assert (H : ∀ z d, 0 < d → 0 < or_default z d ∧ or_default z d = (if 0 <? z then z else d) ∧
                       or_default (or_default z d) d = or_default z d).
  { intros z d Hd. unfold or_default. destruct (Z.leb_spec z 0), (Z.ltb_spec 0 z); try lia;
      repeat zcase; lia. }
  split.
  - intros f Hf. cbn in Hf.
    repeat match goal with H : _ ∨ _ |- _ => destruct H as [<-|H] end; [..|done];
      cbn; (split; [apply H; lia|by apply H]).
  - unfold SetEncodingThresholds; cbn. f_equal; by apply H.
Qed.
