(* ===== verification/ObjList.v ===== *)
(** * List objects: the [List] type of [internal/object/encoding.go]

    A list is kept as a listpack while it is short and as a quicklist after it
    outgrew [list-max-listpack-size]; the conversion is one-way.  The abstract
    value is a list of byte strings, the same for both encodings. *)

From stdpp Require Import base list strings.
From Stdlib Require Import ZArith Lia.
From S2P Require Import Prelude GoText Listpack QuickList ObjString.
Import QL.

Local Open Scope Z_scope.

Record List_ := MkList { listpack : option Listpack; quicklist : option (@QuickList value); isListpack : bool }.

Section List.
Context (growslice : Z → nat → Z) (Thresholds : EncodingThresholds).

Definition NewList : List_ := MkList (Some NewListpack) None true.

(** The [switch] of [Add] that stores a value in a listpack. *)
Definition append_add (lp : Listpack) (val : value) : Listpack :=
  match val with
  | VBytes v => AppendStr lp v
  | VStr v => AppendStr lp v
  | _ => AppendStr lp []
  end.

Definition appendVal (lp : Listpack) (val : value) : Listpack :=
  match val with
  | VBytes v => AppendStr lp v
  | VStr v => AppendStr lp v
  | VInt v => AppendInt lp v
  | _ => AppendStr lp []
  end.

Definition listpackToBytes (val : value) : value :=
  match val with
  | VStr v => VBytes v
  | VInt v => VBytes (formatInt64 v)
  | _ => val
  end.

Definition convertToQuicklist (l : List_) : res List_ :=
  lp ← must (listpack l);
  newQL ← lp_Range lp (λ ql _ val,
    Ret (match val with
         | VStr v => ql_Add growslice ql (VBytes v)
         | VInt v => ql_Add growslice ql (VBytes (formatInt64 v))
         | _ => ql
         end, true)) NewQuickList;
  Ret (MkList None (Some newQL) false).

(** A field assignment [l.listpack = lp] or [l.quicklist = ql]. *)
Definition with_lp (l : List_) (lp : Listpack) : List_ := MkList (Some lp) (quicklist l) (isListpack l).
Definition with_ql (l : List_) (ql : QuickList) : List_ := MkList (listpack l) (Some ql) (isListpack l).

(** Store the rebuilt or extended listpack and convert it when it is too long. *)
Definition store_check (l : List_) (lp : Listpack) : res List_ :=
  let l' := with_lp l lp in
  if ListMaxListpackSize Thresholds <? lp_Len lp then convertToQuicklist l' else Ret l'.

Definition Add (l : List_) (val : value) : res List_ :=
  if isListpack l then
    lp ← must (listpack l);
    store_check l (append_add lp val)
  else
    ql ← must (quicklist l);
    Ret (with_ql l (ql_Add growslice ql val)).

Definition Get (l : List_) (index : Z) : res (value * bool) :=
  if isListpack l then
    lp ← must (listpack l);
    '(val, ok) ← lp_Get lp index;
    if ok : bool then Ret (listpackToBytes val, true) else Ret (VNil, false)
  else
    ql ← must (quicklist l);
    if (index <? 0) || (ql_Len ql <=? index) then Ret (VNil, false)
    else v ← ql_Get ql index; Ret (v, true).

Definition Len (l : List_) : res Z :=
  if isListpack l then lp ← must (listpack l); Ret (lp_Len lp)
  else ql ← must (quicklist l); Ret (ql_Len ql).

Definition ForEach {S} (l : List_) (fn : S → Z → value → S * bool) (st : S) : res S :=
  if isListpack l then
    lp ← must (listpack l);
    lp_Range lp (λ s i val, Ret (fn s i (listpackToBytes val))) st
  else
    ql ← must (quicklist l); ql_ForEach ql fn st.

Definition IsListpack (l : List_) : bool := isListpack l.

Definition CurrentEncoding (l : List_) : Encoding :=
  if isListpack l then EncListpack else EncQuicklist.

Definition Insert (l : List_) (index : Z) (val : value) : res List_ :=
  if isListpack l then
    lp ← must (listpack l);
    if index =? lp_Len lp then Add l val
    else
      newLp ← for_loop (lp_num lp) 0 1 (λ newLp i,
        let newLp1 := if i =? index then appendVal newLp val else newLp in
        '(elem, ok) ← lp_Get lp i;
        Ret (if ok : bool then appendVal newLp1 elem else newLp1, true)) NewListpack;
      store_check l newLp
  else
    ql ← must (quicklist l);
    ql' ← ql_Insert growslice ql index val;
    Ret (with_ql l ql').

(** The loop of [Remove] and [RemoveLast]: rebuild without the element at
    [index] and remember it. *)
Definition remove_at (lp : Listpack) (index : Z) : res (Listpack * value) :=
  for_loop (lp_num lp) 0 1 (λ '(newLp, removed) i,
    '(elem, ok) ← lp_Get lp i;
    if negb ok then Ret ((newLp, removed), false)
    else if i =? index then Ret ((newLp, listpackToBytes elem), true)
    else Ret ((appendVal newLp elem, removed), true)) (NewListpack, VNil).

Definition Remove (l : List_) (index : Z) : res (List_ * value) :=
  if isListpack l then
    lp ← must (listpack l);
    if (index <? 0) || (lp_Len lp <=? index) then Ret (l, VNil)
    else '(newLp, removed) ← remove_at lp index; Ret (with_lp l newLp, removed)
  else
    ql ← must (quicklist l);
    '(ql', v) ← ql_Remove ql index;
    Ret (with_ql l ql', v).

Definition RemoveLast (l : List_) : res (List_ * value) :=
  if isListpack l then
    lp ← must (listpack l);
    if lp_Len lp =? 0 then Ret (l, VNil)
    else '(newLp, removed) ← remove_at lp (lp_Len lp - 1); Ret (with_lp l newLp, removed)
  else
    ql ← must (quicklist l);
    '(ql', v) ← ql_RemoveLast ql;
    Ret (with_ql l ql', default VNil v).

Definition Set_ (l : List_) (index : Z) (val : value) : res List_ :=
  if isListpack l then
    lp ← must (listpack l);
    newLp ← for_loop (lp_num lp) 0 1 (λ newLp i,
      '(elem, ok) ← lp_Get lp i;
      if negb ok then Ret (newLp, false)
      else Ret (appendVal newLp (if i =? index then val else elem), true)) NewListpack;
    Ret (with_lp l newLp)
  else
    ql ← must (quicklist l);
    ql' ← ql_Set ql index val;
    Ret (with_ql l ql').

Definition Range (l : List_) (start stop : Z) : res (list value) :=
  if isListpack l then
    lp ← must (listpack l);
    let start := if start <? 0 then 0 else start in
    let stop := if lp_Len lp <? stop then lp_Len lp else stop in
    if stop <=? start then Ret []
    else
      for_loop (Z.to_nat (stop - start)) start 1 (λ result i,
        '(elem, ok) ← lp_Get lp i;
        Ret (if ok : bool then result ++ [listpackToBytes elem] else result, true)) []
  else
    ql ← must (quicklist l); ql_Range ql start stop.

(** [RemoveAllByVal] and [RemoveByVal] differ in the test that also looks at
    the number removed so far. *)
Definition filter_loop (lp : Listpack) (drop_it : Z → value → bool) : res (Listpack * Z) :=
  for_loop (lp_num lp) 0 1 (λ '(newLp, removed) i,
    '(elem, ok) ← lp_Get lp i;
    if negb ok then Ret ((newLp, removed), false)
    else if drop_it removed (listpackToBytes elem) then Ret ((newLp, removed + 1), true)
    else Ret ((appendVal newLp elem, removed), true)) (NewListpack, 0).

Definition RemoveAllByVal (l : List_) (expected : value → bool) : res (List_ * Z) :=
  if isListpack l then
    lp ← must (listpack l);
    '(newLp, removed) ← filter_loop lp (λ _ v, expected v);
    Ret (with_lp l newLp, removed)
  else
    ql ← must (quicklist l);
    '(ql', n) ← ql_RemoveAllByVal ql expected;
    Ret (with_ql l ql', n).

Definition RemoveByVal (l : List_) (expected : value → bool) (count : Z) : res (List_ * Z) :=
  if isListpack l then
    lp ← must (listpack l);
    '(newLp, removed) ← filter_loop lp (λ removed v, (removed <? count) && expected v);
    Ret (with_lp l newLp, removed)
  else
    ql ← must (quicklist l);
    '(ql', n) ← ql_RemoveByVal ql expected count;
    Ret (with_ql l ql', n).

(** [toRemove] is the set of marked positions. *)
Definition mark_loop (lp : Listpack) (expected : value → bool) (count : Z) : res (list Z * Z) :=
  for_loop (lp_num lp) (lp_Len lp - 1) (-1) (λ '(toRemove, removed) i,
    if negb (removed <? count) then Ret ((toRemove, removed), false)
    else
      '(elem, ok) ← lp_Get lp i;
      if (ok : bool) && expected (listpackToBytes elem)
      then Ret ((i :: toRemove, removed + 1), true)
      else Ret ((toRemove, removed), true)) ([], 0).

Definition ReverseRemoveByVal (l : List_) (expected : value → bool) (count : Z) : res (List_ * Z) :=
  if isListpack l then
    lp ← must (listpack l);
    '(toRemove, removed) ← mark_loop lp expected count;
    newLp ← for_loop (lp_num lp) 0 1 (λ newLp i,
      if bool_decide (i ∈ toRemove) then Ret (newLp, true)
      else
        '(elem, ok) ← lp_Get lp i;
        Ret (if ok : bool then appendVal newLp elem else newLp, true)) NewListpack;
    Ret (with_lp l newLp, removed)
  else
    ql ← must (quicklist l);
    '(ql', n) ← ql_ReverseRemoveByVal ql expected count;
    Ret (with_ql l ql', n).

Definition GetAsQuickList (l : List_) : res (List_ * QuickList) :=
  l' ← (if isListpack l then convertToQuicklist l else Ret l);
  ql ← must (quicklist l'); Ret (l', ql).

(** ** Abstract value *)

(** The list object [l] holds the byte strings [bs]. *)
Definition list_rep (l : List_) (bs : list bytes) : Prop :=
  if isListpack l
  then ∃ lp, listpack l = Some lp ∧ lp_rep lp (VStr <$> bs)
  else ∃ ql, quicklist l = Some ql ∧ ql_ok ql ∧ contents ql = VBytes <$> bs.
End List.

Section proofs.
Context (growslice : Z → nat → Z) (T : EncodingThresholds).
Implicit Types (l : List_) (lp : Listpack) (bs : list bytes).

(** The elements of a listpack-encoded list. *)
Abbreviation strs bs := (VStr <$> bs).

Lemma lp_get_str lp bs i :
  lp_rep lp (strs bs) →
  lp_Get lp i = match (if 0 <=? i then bs !! Z.to_nat i else None) with
                | Some b => Ret (VStr b, true) | None => Ret (VNil, false) end.
Proof.
  intros H. rewrite (lp_Get_spec lp _ i H). destruct (0 <=? i); [|done].
  rewrite list_lookup_fmap. by destruct (bs !! Z.to_nat i).
Qed.

Lemma lp_get_at lp bs (k : nat) b :
  lp_rep lp (strs bs) → bs !! k = Some b → lp_Get lp (Z.of_nat k) = Ret (VStr b, true).
Proof.
  intros H Hb. rewrite (lp_get_str lp bs) by done. destruct (Z.leb_spec 0 (Z.of_nat k)); [|lia].
  by rewrite Nat2Z.id, Hb.
Qed.

Lemma lp_num_strs lp bs : lp_rep lp (strs bs) → lp_num lp = length bs.
Proof. intros [_ H _]. by rewrite H, length_fmap. Qed.

Lemma lp_len_strs lp bs : lp_rep lp (strs bs) → lp_Len lp = Z.of_nat (length bs).
Proof. intros H. unfold lp_Len. by rewrite (lp_num_strs _ _ H). Qed.

Lemma lp_small lp bs (k : nat) b : lp_rep lp (strs bs) → bs !! k = Some b → small b.
Proof.
  intros [_ _ H] Hb. rewrite Forall_fmap in H. by eapply Forall_lookup_1 in H.
Qed.

Lemma append_strs lp bs b : lp_rep lp (strs bs) → small b → lp_rep (AppendStr lp b) (strs (bs ++ [b])).
Proof. intros H Hb. rewrite fmap_app. by apply lp_rep_append_str. Qed.

(** A rebuilding loop, with its invariant on the elements passed so far. *)
Lemma rebuild_loop {S} lp bs (P : list bytes → S → Prop) body st :
  lp_rep lp (strs bs) → P [] st →
  (∀ k st b, bs !! k = Some b → P (take k bs) st →
     ∃ st', body st (Z.of_nat k) = Ret (st', true) ∧ P (take k bs ++ [b]) st') →
  ∃ st', for_loop (lp_num lp) 0 1 body st = Ret st' ∧ P bs st'.
Proof.
  intros Hlp H0 Hb. rewrite (lp_num_strs _ _ Hlp).
  destruct (for_loop_inv (λ k st, P (take k bs) st) (length bs) 0 1 body st) as (st' & E & H).
  - done.
  - intros k s Hk HP. destruct (lookup_lt_is_Some_2 bs k Hk) as [b Hbk].
    destruct (Hb k s b Hbk HP) as (s' & E & H). rewrite Z.add_0_l, Z.mul_1_l.
    exists s'. split; [done|]. by rewrite (take_S_r _ _ _ Hbk).
  - exists st'. split; [done|]. by rewrite firstn_all in H.
Qed.

(** [rebuild_loop] at the loop of the goal, with the invariant [P]. *)
Ltac use_rebuild Hlp P H :=
  match type of Hlp with
  | lp_rep ?lp (strs ?bs) =>
    match goal with
    | |- context [for_loop (lp_num lp) 0 1 ?body ?st] =>
        pose proof (rebuild_loop lp bs P body st Hlp) as H; cbv beta in H
    end
  end.

Lemma take_length_lookup bs k b : bs !! k = Some b → length (take k bs) = k.
Proof. intros ?%lookup_lt_Some. rewrite length_take. lia. Qed.

(** ** Conversion *)

Lemma convert_fold bs ql :
  ql_ok ql →
  let f := λ (q : @QuickList value) (_ : Z) val,
    match val with
    | VStr v => ql_Add growslice q (VBytes v)
    | VInt v => ql_Add growslice q (VBytes (formatInt64 v))
    | _ => q
    end in
  ∀ i, ql_ok (range_fold f i (strs bs) ql) ∧ contents (range_fold f i (strs bs) ql) = contents ql ++ (VBytes <$> bs).
Proof.
  cbn zeta. revert ql. induction bs as [|b bs IH]; intros ql Hok i; cbn [fmap list_fmap range_fold].
  { split; [done|by rewrite app_nil_r]. }
  destruct (ql_Add_spec growslice ql (VBytes b) Hok) as [Hok' Hc].
  destruct (IH _ Hok' (i + 1)) as [H1 H2]. split; [done|]. by rewrite H2, Hc, <- app_assoc.
Qed.

Lemma list_convert_spec l lp bs :
  listpack l = Some lp → lp_rep lp (strs bs) →
  ∃ l', convertToQuicklist growslice l = Ret l' ∧ isListpack l' = false ∧ list_rep l' bs.
Proof.
  intros El Hlp. unfold convertToQuicklist. rewrite El. cbn [must mbind res_bind].
  rewrite (lp_Range_spec _ _ _ _ Hlp), range_spec_fold. cbn [mbind res_bind].
  destruct (@ql_new value) as [Hok Hc]. destruct (convert_fold bs NewQuickList Hok 0) as [H1 H2].
  eexists. split_and!; [done|done|]. cbn. eexists. split_and!; [done|done|]. by rewrite H2, Hc.
Qed.

(** What every operation keeps about the encoding: it goes from listpack to
    quicklist and never back, and a listpack stays within its size limit. *)
Definition enc_ok l bs : Prop :=
  isListpack l = true → Z.of_nat (length bs) <= Z.max 0 (ListMaxListpackSize T).

Definition list_ok l bs : Prop := list_rep l bs ∧ enc_ok l bs.

Lemma store_check_spec l lp bs :
  isListpack l = true → lp_rep lp (strs bs) →
  ∃ l', store_check growslice T l lp = Ret l' ∧ list_ok l' bs ∧
    isListpack l' = negb (ListMaxListpackSize T <? Z.of_nat (length bs)).
Proof.
  intros Hi Hlp. unfold store_check. rewrite (lp_len_strs _ _ Hlp).
  destruct (Z.ltb_spec (ListMaxListpackSize T) (Z.of_nat (length bs))).
  - destruct (list_convert_spec (with_lp l lp) lp bs eq_refl Hlp) as (l' & -> & E & Hr).
    exists l'. split_and!; [done| |done]. split; [done|]. unfold enc_ok. by rewrite E.
  - eexists. split_and!; [done| |done]. split; [unfold list_rep; cbn; rewrite Hi; eauto|]. intros _. lia.
Qed.

Lemma list_rep_lp l bs :
  list_rep l bs → isListpack l = true → ∃ lp, listpack l = Some lp ∧ lp_rep lp (strs bs).
Proof. unfold list_rep. intros H E. by rewrite E in H. Qed.

Lemma list_rep_ql l bs :
  list_rep l bs → isListpack l = false →
  ∃ ql, quicklist l = Some ql ∧ ql_ok ql ∧ contents ql = VBytes <$> bs.
Proof. unfold list_rep. intros H E. by rewrite E in H. Qed.

Lemma list_ok_lp l lp bs bs' :
  list_ok l bs → isListpack l = true → (length bs' <= length bs)%nat → lp_rep lp (strs bs') →
  list_ok (with_lp l lp) bs'.
Proof.
  intros [_ He] E Hle Hlp. split.
  - unfold list_rep. cbn. rewrite E. eauto.
  - intros _. specialize (He E). lia.
Qed.

Lemma list_ok_ql l ql bs :
  isListpack l = false → ql_ok ql → contents ql = VBytes <$> bs → list_ok (with_ql l ql) bs.
Proof.
  intros E Hok Hc. split.
  - unfold list_rep. cbn. rewrite E. eauto.
  - unfold enc_ok. cbn. by rewrite E.
Qed.

(** Open the representation of a list in the encoding at hand. *)
Ltac open_list H :=
  match type of H with
  | list_ok ?l _ =>
    destruct (isListpack l) eqn:Henc;
      [ let lp := fresh "lp" in let El := fresh "El" in let Hlp := fresh "Hlp" in
        destruct (list_rep_lp _ _ (proj1 H) Henc) as (lp & El & Hlp); rewrite El; cbn [must mbind res_bind]
      | let ql := fresh "ql" in let Eq := fresh "Eq" in let Hok := fresh "Hok" in let Hc := fresh "Hc" in
        destruct (list_rep_ql _ _ (proj1 H) Henc) as (ql & Eq & Hok & Hc); rewrite Eq; cbn [must mbind res_bind] ]
  end.

Lemma list_ok_new : list_ok NewList [].
Proof. split; [|intros _; cbn; lia]. exists NewListpack. split; [done|]. apply lp_rep_new. Qed.

Lemma list_Len_spec l bs : list_ok l bs → Len l = Ret (Z.of_nat (length bs)).
Proof.
  intros H. unfold Len. open_list H.
  - by rewrite (lp_len_strs _ _ Hlp).
  - unfold ql_Len. by rewrite (ql_size _ Hok), Hc, length_fmap.
Qed.

Lemma list_Get_spec l bs i :
  list_ok l bs →
  Get l i = Ret (match (if 0 <=? i then bs !! Z.to_nat i else None) with
                 | Some b => (VBytes b, true) | None => (VNil, false) end).
Proof.
  intros H. unfold Get. open_list H.
  - rewrite (lp_get_str _ _ _ Hlp). by destruct (if 0 <=? i then _ else _).
  - unfold ql_Len. rewrite (ql_size _ Hok), Hc, length_fmap.
    destruct (Z.ltb_spec i 0), (Z.leb_spec 0 i); try lia; [done|]. cbn [orb].
    destruct (Z.leb_spec (Z.of_nat (length bs)) i).
    { by rewrite lookup_ge_None_2 by lia. }
    destruct (lookup_lt_is_Some_2 bs (Z.to_nat i)) as [b Hb]; [lia|]. rewrite Hb.
    rewrite <- (Z2Nat.id i) at 1 by done. rewrite (ql_Get_spec ql _ (VBytes b)); [done|done|].
    by rewrite Hc, list_lookup_fmap, Hb.
Qed.

Lemma list_Add_spec l bs b :
  list_ok l bs → small b →
  ∃ l', Add growslice T l (VBytes b) = Ret l' ∧ list_ok l' (bs ++ [b]) ∧
    isListpack l' = isListpack l && negb (ListMaxListpackSize T <? Z.of_nat (length (bs ++ [b]))).
Proof.
  intros H Hb. unfold Add. open_list H.
  - cbn [append_add]. apply store_check_spec; [done|]. by apply append_strs.
  - destruct (ql_Add_spec growslice ql (VBytes b) Hok) as [Hok' Hc']. eexists. split_and!; [done| |by cbn].
    apply list_ok_ql; [done|done|]. by rewrite Hc', Hc, fmap_app.
Qed.

Lemma Set_spec l bs (i : nat) b :
  list_ok l bs → small b → (i < length bs)%nat →
  ∃ l', Set_ l (Z.of_nat i) (VBytes b) = Ret l' ∧ list_ok l' (<[i := b]> bs) ∧ isListpack l' = isListpack l.
Proof.
  intros H Hb Hi. unfold Set_. open_list H.
  - use_rebuild Hlp (λ ds newLp, lp_rep newLp (strs (<[i := b]> ds))) Hl.
    destruct Hl as (newLp & -> & HP); [apply lp_rep_new| |].
    + intros k newLp x Hx HP. rewrite (lp_get_at _ _ _ _ Hlp Hx). cbn [mbind res_bind negb].
      eexists. split; [done|]. pose proof (take_length_lookup _ _ _ Hx) as Hlen.
      destruct (Z.eqb_spec (Z.of_nat k) (Z.of_nat i)).
      * assert (k = i) as -> by lia. rewrite insert_app_r_alt, Hlen, Nat.sub_diag by lia. cbn.
        rewrite list_insert_ge in HP by lia. by apply append_strs.
      * destruct (decide (i < k)%nat).
        -- rewrite insert_app_l by lia. apply append_strs; [done|]. exact (lp_small _ _ _ _ Hlp Hx).
        -- rewrite insert_app_r_alt, Hlen by lia. rewrite list_insert_ge by (cbn; lia).
           rewrite list_insert_ge in HP by lia. apply append_strs; [done|]. exact (lp_small _ _ _ _ Hlp Hx).
    + cbn. eexists. split_and!; [done| |done]. eapply list_ok_lp; [done|done|by rewrite length_insert|done].
  - destruct (lookup_lt_is_Some_2 bs i Hi) as [x Hx].
    destruct (ql_Set_spec ql i (VBytes x) (VBytes b) Hok) as (ql' & -> & Hok' & Hc').
    { by rewrite Hc, list_lookup_fmap, Hx. }
    cbn. eexists. split_and!; [done| |done]. apply list_ok_ql; [done|done|].
    by rewrite Hc', Hc, list_fmap_insert.
Qed.

(** ** List facts about removal *)

Lemma remove_n_snoc {A} (f : A → bool) n (ds : list A) x :
  remove_n f n (ds ++ [x]) =
    remove_n f n ds ++ (if f x && bool_decide (length ds - length (remove_n f n ds) < n)%nat then [] else [x]).
Proof.
  revert n. induction ds as [|y ds IH]; intros n; cbn [app].
  - destruct n; cbn; [by rewrite andb_false_r|]. destruct (f x); [|done]. by destruct n.
  - destruct n as [|n].
    { cbn. rewrite bool_decide_eq_false_2 by lia. by rewrite andb_false_r. }
    rewrite !remove_n_cons. destruct (f y).
    + rewrite IH. pose proof (length_remove_n f n ds).
      rewrite (bool_decide_ext _ (length (y :: ds) - length (remove_n f n ds) < S n)%nat); [done|cbn [length]; lia].
    + by rewrite IH.
Qed.

Lemma remove_n_fmap {A B} (g : A → B) (f : B → bool) n (ds : list A) :
  remove_n f n (g <$> ds) = g <$> remove_n (λ a, f (g a)) n ds.
Proof.
  revert n. induction ds as [|y ds IH]; intros [|n]; [done..|].
  rewrite fmap_cons, !remove_n_cons, !IH. by destruct (f (g y)).
Qed.

Lemma remove_n_count {A} (f : A → bool) n (ds : list A) :
  (length ds - length (remove_n f n ds) <= n)%nat.
Proof.
  revert n. induction ds as [|y ds IH]; intros [|n]; cbn [length]; [cbn; lia|cbn; lia|cbn; lia|].
  rewrite remove_n_cons. pose proof (length_remove_n f n ds). destruct (f y).
  - specialize (IH n). lia.
  - specialize (IH (S n)). cbn [length]. lia.
Qed.

(** ** Insertion and removal at a position *)

Lemma Insert_spec l bs (i : nat) b :
  list_ok l bs → small b → (i <= length bs)%nat →
  ∃ l', Insert growslice T l (Z.of_nat i) (VBytes b) = Ret l' ∧ list_ok l' (insert_at bs i b) ∧
    isListpack l' = isListpack l && negb (ListMaxListpackSize T <? Z.of_nat (length (insert_at bs i b))).
Proof.
  intros H Hb Hi. unfold Insert. open_list H.
  - rewrite (lp_len_strs _ _ Hlp). destruct (Z.eqb_spec (Z.of_nat i) (Z.of_nat (length bs))) as [E|E].
    { destruct (list_Add_spec l bs b H Hb) as (l' & -> & Hok' & He). exists l'. rewrite Henc in He.
      unfold insert_at. rewrite take_ge, drop_ge by lia. done. }
    use_rebuild Hlp (λ ds newLp,
      lp_rep newLp (strs (if decide (length ds <= i)%nat then ds else insert_at ds i b))) Hl.
    destruct Hl as (newLp & -> & HP); [apply lp_rep_new| |].
    + intros k newLp x Hx HP. rewrite (lp_get_at _ _ _ _ Hlp Hx). cbn [mbind res_bind].
      eexists. split; [done|]. pose proof (take_length_lookup _ _ _ Hx) as Hlen.
      pose proof (lp_small _ _ _ _ Hlp Hx) as Hsx.
      rewrite length_app. cbn [length]. rewrite Hlen in *.
      destruct (Z.eqb_spec (Z.of_nat k) (Z.of_nat i)).
      * assert (k = i) as -> by lia. rewrite decide_False by lia. rewrite decide_True in HP by lia.
        rewrite insert_at_app_l by lia. unfold insert_at. rewrite take_ge, drop_ge by lia.
        cbn. apply append_strs; [|done]. by apply append_strs.
      * destruct (decide (k <= i)%nat).
        -- rewrite decide_True by lia. by apply append_strs.
        -- rewrite decide_False by lia. rewrite insert_at_app_l by lia. by apply append_strs.
    + cbn [mbind res_bind]. rewrite decide_False in HP by lia. by apply store_check_spec.
  - destruct (ql_Insert_spec growslice ql i (VBytes b) Hok) as (ql' & -> & Hok' & Hc').
    { by rewrite Hc, length_fmap. }
    cbn. eexists. split_and!; [done| |by cbn; rewrite Henc]. apply list_ok_ql; [done|done|].
    rewrite Hc', Hc. unfold insert_at. by rewrite fmap_app, fmap_cons, fmap_take, fmap_drop.
Qed.

Lemma list_delete_ge {A} (ds : list A) i : (length ds <= i)%nat → delete i ds = ds.
Proof. intros. rewrite delete_take_drop, take_ge, drop_ge by lia. apply app_nil_r. Qed.

Lemma delete_snoc_ge {A} (ds : list A) i x : (length ds < i)%nat → delete i (ds ++ [x]) = ds ++ [x].
Proof. intros. apply list_delete_ge. rewrite length_app. cbn. lia. Qed.

Lemma remove_at_spec lp bs (i : nat) x :
  lp_rep lp (strs bs) → bs !! i = Some x →
  ∃ newLp, remove_at lp (Z.of_nat i) = Ret (newLp, VBytes x) ∧ lp_rep newLp (strs (delete i bs)).
Proof.
  intros Hlp Hx. unfold remove_at.
  use_rebuild Hlp (λ ds (st : Listpack * value),
    lp_rep st.1 (strs (delete i ds)) ∧ ((i < length ds)%nat → st.2 = VBytes x)) Hl.
  destruct Hl as ([newLp removed] & -> & HP & Hr); [split; [apply lp_rep_new|cbn; lia]| |].
  - intros k [newLp removed] y Hy [HP Hr]. rewrite (lp_get_at _ _ _ _ Hlp Hy). cbn [mbind res_bind negb].
    pose proof (take_length_lookup _ _ _ Hy) as Hlen. pose proof (lp_small _ _ _ _ Hlp Hy).
    rewrite length_app. cbn [length]. rewrite Hlen in *.
    destruct (Z.eqb_spec (Z.of_nat k) (Z.of_nat i)).
    + assert (k = i) as -> by lia. eexists. split; [done|]. cbn. rewrite Hx in Hy. injection Hy as <-.
      split; [|done]. rewrite list_delete_ge in HP by lia.
      replace (delete i (take i bs ++ [x])) with (take i bs); [done|].
      rewrite <- Hlen at 2. rewrite delete_middle. by rewrite app_nil_r.
    + eexists. split; [done|]. split; [|intros; apply Hr; lia]. cbn [appendVal].
      destruct (decide (i < k)%nat).
      * rewrite !delete_take_drop in *. rewrite take_app_le, drop_app_le, app_assoc by lia. by apply append_strs.
      * rewrite delete_snoc_ge by lia. rewrite list_delete_ge in HP by lia. by apply append_strs.
  - cbn in *. exists newLp. split; [|done]. rewrite Hr; [done|]. by eapply lookup_lt_Some.
Qed.

Lemma list_Remove_spec l bs (i : nat) x :
  list_ok l bs → bs !! i = Some x →
  ∃ l', Remove l (Z.of_nat i) = Ret (l', VBytes x) ∧ list_ok l' (delete i bs) ∧ isListpack l' = isListpack l.
Proof.
  intros H Hx. pose proof (lookup_lt_Some _ _ _ Hx) as Hi. unfold Remove. open_list H.
  - rewrite (lp_len_strs _ _ Hlp). destruct (Z.ltb_spec (Z.of_nat i) 0); [lia|].
    destruct (Z.leb_spec (Z.of_nat (length bs)) (Z.of_nat i)); [lia|]. cbn [orb].
    destruct (remove_at_spec _ _ _ _ Hlp Hx) as (newLp & -> & Hn). cbn.
    eexists. split_and!; [done| |done]. eapply list_ok_lp; [done|done| |done]. rewrite length_delete by eauto. lia.
  - destruct (ql_Remove_spec ql i (VBytes x) Hok) as (ql' & -> & Hok' & Hc').
    { by rewrite Hc, list_lookup_fmap, Hx. }
    cbn. eexists. split_and!; [done| |done]. apply list_ok_ql; [done|done|].
    by rewrite Hc', Hc, delete_take_drop, fmap_app, fmap_take, fmap_drop.
Qed.

Lemma RemoveLast_spec l bs :
  list_ok l bs →
  ∃ l', RemoveLast l = Ret (l', from_option VBytes VNil (last bs)) ∧ list_ok l' (removelast bs) ∧
    isListpack l' = isListpack l.
Proof.
  intros H. unfold RemoveLast. open_list H.
  - rewrite (lp_len_strs _ _ Hlp). destruct bs as [|x bs _] using rev_ind; [by exists l|].
    rewrite length_app. cbn [length]. destruct (Z.eqb_spec (Z.of_nat (length bs + 1)) 0); [lia|].
    replace (Z.of_nat (length bs + 1) - 1) with (Z.of_nat (length bs)) by lia.
    destruct (remove_at_spec lp (bs ++ [x]) (length bs) x Hlp) as (newLp & -> & Hn);
      [by apply list_lookup_middle|].
    rewrite delete_middle, app_nil_r in Hn. cbn. rewrite last_snoc, removelast_app, app_nil_r by done.
    eexists. split_and!; [done| |done]. eapply list_ok_lp; [done|done| |done]. rewrite length_app. lia.
  - destruct (ql_RemoveLast_spec ql Hok) as (ql' & -> & Hok' & Hc'). cbn.
    eexists. split_and!; [|apply list_ok_ql; [done|done|]|done].
    + rewrite Hc, fmap_last. by destruct (last bs).
    + rewrite Hc', Hc. destruct bs as [|x bs _] using rev_ind; [done|].
      by rewrite fmap_app, !removelast_app, !app_nil_r by done.
Qed.

(** ** Ranges, traversal and removal by value *)

Lemma Range_spec l bs start stop :
  list_ok l bs → 0 <= start < Z.of_nat (length bs) → start <= stop <= Z.of_nat (length bs) →
  Range l start stop = Ret (VBytes <$> take (Z.to_nat (stop - start)) (drop (Z.to_nat start) bs)).
Proof.
  intros H H1 H2. unfold Range. open_list H.
  - rewrite (lp_len_strs _ _ Hlp). destruct (Z.ltb_spec start 0); [lia|].
    destruct (Z.ltb_spec (Z.of_nat (length bs)) stop); [lia|].
    destruct (Z.leb_spec stop start).
    { by replace (Z.to_nat (stop - start)) with 0%nat by lia. }
    match goal with |- for_loop ?n ?i ?s ?body ?st = _ =>
      destruct (for_loop_inv (λ k acc, acc = VBytes <$> take k (drop (Z.to_nat start) bs)) n i s body st)
        as (acc & -> & ->) end; [done| |done].
    intros k acc Hk ->. destruct (lookup_lt_is_Some_2 bs (Z.to_nat start + k)) as [b Hb]; [lia|].
    replace (start + 1 * Z.of_nat k) with (Z.of_nat (Z.to_nat start + k)) by lia.
    rewrite (lp_get_at _ _ _ _ Hlp Hb). cbn. eexists. split; [done|].
    rewrite <- lookup_drop in Hb. by rewrite (take_S_r _ _ _ Hb), fmap_app.
  - rewrite ql_Range_spec; [|done|by rewrite Hc, length_fmap..].
    by rewrite Hc, fmap_take, fmap_drop.
Qed.

Lemma ForEach_spec {S} l bs (fn : S → Z → value → S * bool) st :
  list_ok l bs → ForEach l fn st = Ret (each fn 0 (VBytes <$> bs) st).
Proof.
  intros H. unfold ForEach. open_list H.
  - rewrite (lp_Range_spec _ _ _ _ Hlp). clear. generalize 0. revert st.
    induction bs as [|b bs IH]; intros st i; [done|]. cbn.
    destruct (fn st i (VBytes b)) as [st' []]; [apply IH|done].
  - by rewrite ql_ForEach_spec, Hc.
Qed.

Lemma filter_loop_spec lp bs (f : bytes → bool) n drop_it :
  lp_rep lp (strs bs) →
  (∀ removed b, (removed < length bs)%nat →
     drop_it (Z.of_nat removed) (VBytes b) = f b && bool_decide (removed < n)%nat) →
  ∃ newLp, filter_loop lp drop_it
      = Ret (newLp, Z.of_nat (length bs) - Z.of_nat (length (remove_n f n bs))) ∧
    lp_rep newLp (strs (remove_n f n bs)).
Proof.
  intros Hlp Hd. unfold filter_loop.
  use_rebuild Hlp (λ ds (st : Listpack * Z), lp_rep st.1 (strs (remove_n f n ds)) ∧
    st.2 = Z.of_nat (length ds) - Z.of_nat (length (remove_n f n ds))) Hl.
  destruct Hl as ([newLp removed] & -> & HP & Hr).
  - cbn. destruct n; (split; [apply lp_rep_new|done]).
  - intros k [newLp removed] b Hb [HP Hr]. rewrite (lp_get_at _ _ _ _ Hlp Hb). cbn [mbind res_bind negb].
    cbn [fst snd] in *. pose proof (length_remove_n f n (take k bs)) as Hle.
    pose proof (lookup_lt_Some _ _ _ Hb) as Hk. pose proof (lp_small _ _ _ _ Hlp Hb).
    rewrite (take_length_lookup _ _ _ Hb) in *.
    assert (removed = Z.of_nat (k - length (remove_n f n (take k bs)))) as -> by lia.
    cbn [listpackToBytes]. rewrite Hd by lia. rewrite remove_n_snoc, (take_length_lookup _ _ _ Hb).
    destruct (f b && _); (eexists; split; [done|]); cbn [fst snd appendVal]; rewrite !length_app,
      (take_length_lookup _ _ _ Hb); cbn [length].
    + rewrite app_nil_r. split; [done|lia].
    + split; [by apply append_strs|lia].
  - cbn in *. exists newLp. by rewrite Hr.
Qed.

Lemma RemoveByVal_spec l bs expected count :
  list_ok l bs → 0 < count →
  let bs' := remove_n (λ b, expected (VBytes b)) (Z.to_nat count) bs in
  ∃ l', RemoveByVal l expected count = Ret (l', Z.of_nat (length bs) - Z.of_nat (length bs')) ∧
    list_ok l' bs' ∧ isListpack l' = isListpack l.
Proof.
  intros H Hcount. cbn zeta. unfold RemoveByVal. open_list H.
  - destruct (filter_loop_spec lp bs (λ b, expected (VBytes b)) (Z.to_nat count)
      (λ removed v, (removed <? count) && expected v) Hlp) as (newLp & -> & Hn).
    { intros removed b _. rewrite andb_comm. f_equal.
      destruct (Z.ltb_spec (Z.of_nat removed) count); symmetry;
        [apply bool_decide_eq_true_2|apply bool_decide_eq_false_2]; lia. }
    cbn. eexists. split_and!; [done| |done]. eapply list_ok_lp; [done|done|apply length_remove_n|done].
  - destruct (ql_RemoveByVal_spec ql expected count Hok) as (ql' & -> & Hok' & Hc').
    assert (Hq : quota count 0 (contents ql) = Z.to_nat count).
    { unfold quota. destruct (Z.leb_spec count 0); [lia|]. by rewrite Z.sub_0_r. }
    rewrite Hq, Hc, remove_n_fmap, !length_fmap in *. cbn. eexists. split_and!; [done| |done]. by apply list_ok_ql.
Qed.

Lemma remove_n_filter (f : bytes → bool) bs : remove_n f (length bs) bs = List.filter (λ b, negb (f b)) bs.
Proof. by apply remove_n_all. Qed.

Lemma RemoveAllByVal_spec l bs expected :
  list_ok l bs → bs ≠ [] →
  let bs' := List.filter (λ b, negb (expected (VBytes b))) bs in
  ∃ l', RemoveAllByVal l expected = Ret (l', Z.of_nat (length bs) - Z.of_nat (length bs')) ∧
    list_ok l' bs' ∧ isListpack l' = isListpack l.
Proof.
  intros H Hne. cbn zeta. unfold RemoveAllByVal. rewrite <- (remove_n_filter (λ b, expected (VBytes b))). open_list H.
  - destruct (filter_loop_spec lp bs (λ b, expected (VBytes b)) (length bs) (λ _ v, expected v) Hlp)
      as (newLp & -> & Hn).
    { intros removed b Hr. rewrite bool_decide_eq_true_2 by lia. by rewrite andb_true_r. }
    cbn. eexists. split_and!; [done| |done]. eapply list_ok_lp; [done|done|apply length_remove_n|done].
  - destruct (ql_RemoveAllByVal_spec ql expected Hok) as (ql' & -> & Hok' & Hc').
    { rewrite Hc. by destruct bs. }
    rewrite <- (remove_n_all expected (length bs)) in * by (by rewrite Hc, length_fmap).
    rewrite Hc, remove_n_fmap, !length_fmap in *. cbn. eexists. split_and!; [done| |done]. by apply list_ok_ql.
Qed.

(** The elements of [ds], which start at position [p], that are not marked. *)
Fixpoint keep {A} (marks : list Z) (p : Z) (ds : list A) : list A :=
  match ds with
  | [] => []
  | x :: ds' => (if bool_decide (p ∈ marks) then [] else [x]) ++ keep marks (p + 1) ds'
  end.

Lemma keep_cons_below {A} (marks : list Z) q p (ds : list A) : q < p → keep (q :: marks) p ds = keep marks p ds.
Proof.
  revert p. induction ds as [|x ds IH]; intros p Hp; [done|]. cbn. rewrite IH by lia.
  rewrite (bool_decide_ext (p ∈ q :: marks) (p ∈ marks)); [done|]. rewrite elem_of_cons. split; [|by right].
  intros [->|]; [lia|done].
Qed.

Lemma keep_none {A} (marks : list Z) p (ds : list A) :
  (∀ q, q ∈ marks → p + Z.of_nat (length ds) <= q) → keep marks p ds = ds.
Proof.
  revert p. induction ds as [|x ds IH]; intros p Hm; [done|]. cbn. rewrite bool_decide_eq_false_2.
  - cbn. f_equal. apply IH. intros q Hq. specialize (Hm q Hq). cbn in Hm. lia.
  - intros Hp. specialize (Hm p Hp). cbn in Hm. lia.
Qed.

Lemma keep_app {A} (marks : list Z) p (ds1 ds2 : list A) :
  keep marks p (ds1 ++ ds2) = keep marks p ds1 ++ keep marks (p + Z.of_nat (length ds1)) ds2.
Proof.
  revert p. induction ds1 as [|x ds1 IH]; intros p; cbn [app keep length]; [by rewrite Z.add_0_r|].
  rewrite IH, <- app_assoc. do 3 f_equal. lia.
Qed.

(** The invariant of the marking loop, after it has passed the elements [ds2]
    that follow [ds1]. *)
Record marked (f : bytes → bool) (n : nat) (ds1 ds2 : list bytes) (st : list Z * Z) : Prop := {
  mk_keep : keep st.1 (Z.of_nat (length ds1)) ds2 = reverse (remove_n f n (reverse ds2));
  mk_range : ∀ q, q ∈ st.1 → Z.of_nat (length ds1) <= q;
  mk_removed : st.2 = Z.of_nat (length ds2) - Z.of_nat (length (remove_n f n (reverse ds2)))
}.

Lemma marked_skip f n ds1 x ds2 st :
  marked f n (ds1 ++ [x]) ds2 st → f x && (st.2 <? Z.of_nat n) = false → marked f n ds1 (x :: ds2) st.
Proof.
  intros [Hk Hr Hs] Hf. rewrite length_app in Hk, Hr. cbn [length] in Hk, Hr.
  pose proof (length_remove_n f n (reverse ds2)) as Hle. rewrite length_reverse in Hle.
  assert (E : remove_n f n (reverse (x :: ds2)) = remove_n f n (reverse ds2) ++ [x]).
  { rewrite reverse_cons, remove_n_snoc, length_reverse. rewrite Hs in Hf.
    destruct (f x); [|done]. cbn in *. zbool. by rewrite bool_decide_eq_false_2 by lia. }
  split; rewrite ?E.
  - cbn [keep]. rewrite bool_decide_eq_false_2 by (intros Hq; specialize (Hr _ Hq); lia).
    rewrite reverse_snoc, <- Hk. cbn. do 2 f_equal. lia.
  - intros q Hq. specialize (Hr q Hq). lia.
  - rewrite Hs, length_app. cbn. lia.
Qed.

Lemma marked_take f n ds1 x ds2 marks removed :
  marked f n (ds1 ++ [x]) ds2 (marks, removed) → f x && (removed <? Z.of_nat n) = true →
  marked f n ds1 (x :: ds2) (Z.of_nat (length ds1) :: marks, removed + 1).
Proof.
  intros [Hk Hr Hs] Hf. cbn [fst snd] in *. rewrite length_app in Hk, Hr. cbn [length] in Hk, Hr. zbool.
  pose proof (length_remove_n f n (reverse ds2)) as Hle. rewrite length_reverse in Hle.
  assert (E : remove_n f n (reverse (x :: ds2)) = remove_n f n (reverse ds2)).
  { rewrite reverse_cons, remove_n_snoc, length_reverse. rewrite bool_decide_eq_true_2 by lia.
    rewrite andb_true_r. destruct (f x); [by rewrite app_nil_r|done]. }
  split; rewrite ?E; cbn [fst snd].
  - cbn [keep]. rewrite bool_decide_eq_true_2 by (apply elem_of_cons; by left). cbn [app].
    rewrite keep_cons_below, <- Hk by lia. f_equal. lia.
  - intros q [->|Hq]%elem_of_cons; [lia|]. specialize (Hr q Hq). lia.
  - cbn [length]. lia.
Qed.

(** Once enough is removed, the rest of the list changes nothing. *)
Lemma marked_saturated f n ds1 ds2 st :
  marked f n ds1 ds2 st → Z.of_nat n <= st.2 → marked f n [] (ds1 ++ ds2) st.
Proof.
  revert ds2. induction ds1 as [|x ds1 IH] using rev_ind; intros ds2 Hm Hn; [done|].
  rewrite <- app_assoc. apply IH; [|done]. apply marked_skip; [done|].
  destruct (Z.ltb_spec st.2 (Z.of_nat n)); [lia|]. apply andb_false_r.
Qed.

Lemma mark_loop_spec lp bs expected count :
  lp_rep lp (strs bs) → 0 < count →
  ∃ st, mark_loop lp expected count = Ret st ∧ marked (λ b, expected (VBytes b)) (Z.to_nat count) [] bs st.
Proof.
  intros Hlp Hcount. unfold mark_loop. rewrite (lp_num_strs _ _ Hlp), (lp_len_strs _ _ Hlp).
  set (f := λ b, expected (VBytes b)).
  apply (for_loop_inv_break (λ k st,
    marked f (Z.to_nat count) (take (length bs - k) bs) (drop (length bs - k) bs) st)).
  - rewrite take_ge, drop_ge by lia. split; rewrite ?reverse_nil.
    + by destruct (Z.to_nat count).
    + by intros q ?%not_elem_of_nil.
    + by destruct (Z.to_nat count).
  - intros k [marks removed] Hk Hm. destruct (Z.ltb_spec removed count); cbn [negb].
    2: { eexists _, _. split; [done|]. cbn beta iota. rewrite <- (take_drop (length bs - k) bs).
         apply marked_saturated; [done|cbn; lia]. }
    destruct (lookup_lt_is_Some_2 bs (length bs - S k)) as [b Hb]; [lia|].
    replace (Z.of_nat (length bs) - 1 + -1 * Z.of_nat k) with (Z.of_nat (length bs - S k)) by lia.
    rewrite (lp_get_at _ _ _ _ Hlp Hb). cbn [mbind res_bind listpackToBytes andb].
    replace (length bs - k)%nat with (S (length bs - S k)) in Hm by lia.
    rewrite (take_S_r _ _ _ Hb) in Hm. rewrite (drop_S _ _ _ Hb).
    change (expected (VBytes b)) with (f b). destruct (f b) eqn:Ef; (eexists _, _; split; [done|]); cbn beta iota.
    + apply marked_take in Hm; [|by rewrite Ef; apply Z.ltb_lt; lia].
      by rewrite (take_length_lookup _ _ _ Hb) in Hm.
    + apply marked_skip; [done|]. by rewrite Ef.
  - intros st. by rewrite Nat.sub_diag.
Qed.

Lemma ReverseRemoveByVal_spec l bs expected count :
  list_ok l bs → 0 < count →
  let bs' := reverse (remove_n (λ b, expected (VBytes b)) (Z.to_nat count) (reverse bs)) in
  ∃ l', ReverseRemoveByVal l expected count = Ret (l', Z.of_nat (length bs) - Z.of_nat (length bs')) ∧
    list_ok l' bs' ∧ isListpack l' = isListpack l.
Proof.
  intros H Hcount. cbn zeta. rewrite length_reverse. unfold ReverseRemoveByVal. open_list H.
  - destruct (mark_loop_spec lp bs expected count Hlp Hcount) as ([marks removed] & -> & [Hk _ Hr]).
    cbn [mbind res_bind fst snd length] in *. change (Z.of_nat 0) with 0 in Hk.
    use_rebuild Hlp (λ ds newLp, lp_rep newLp (strs (keep marks 0 ds))) Hl.
    destruct Hl as (newLp & -> & Hn); [apply lp_rep_new| |].
    + intros k newLp b Hb HP. rewrite keep_app, Z.add_0_l, (take_length_lookup _ _ _ Hb). cbn [keep].
      rewrite app_nil_r. case_bool_decide.
      * eexists. split; [done|]. by rewrite app_nil_r.
      * rewrite (lp_get_at _ _ _ _ Hlp Hb). cbn. eexists. split; [done|].
        apply append_strs; [done|]. exact (lp_small _ _ _ _ Hlp Hb).
    + cbn. rewrite Hk in Hn. rewrite Hr. eexists. split_and!; [done| |done].
      eapply list_ok_lp; [done|done| |done]. rewrite length_reverse.
      etrans; [apply length_remove_n|]. by rewrite length_reverse.
  - destruct (ql_ReverseRemoveByVal_spec ql expected count Hok) as (ql' & -> & Hok' & Hc').
    assert (Hq : quota count 0 (reverse (contents ql)) = Z.to_nat count).
    { unfold quota. destruct (Z.leb_spec count 0); [lia|]. by rewrite Z.sub_0_r. }
    rewrite Hq, Hc, <- fmap_reverse, remove_n_fmap, !length_fmap, length_reverse in *.
    cbn. eexists. split_and!; [done| |done]. apply list_ok_ql; [done|done|]. by rewrite Hc', fmap_reverse.
Qed.
End proofs.

(** ** Refinement: a list object is a list of byte strings *)

Inductive list_cmd :=
| LAdd (b : bytes) | LGet (i : Z) | LLen | LInsert (i : Z) (b : bytes) | LRemove (i : Z) | LRemoveLast
| LSet (i : Z) (b : bytes) | LRange (start stop : Z) | LRemoveAllByVal (expected : value → bool)
| LRemoveByVal (expected : value → bool) (count : Z) | LReverseRemoveByVal (expected : value → bool) (count : Z)
| LForEach | LGetAsQuickList.

Section refinement.
Context (growslice : Z → nat → Z) (T : EncodingThresholds).

Definition list_obj_step (l : List_) (c : list_cmd) : res (List_ * ql_reply value) :=
  match c with
  | LAdd b => l' ← Add growslice T l (VBytes b); Ret (l', ROk)
  | LGet i => '(v, ok) ← Get l i; Ret (l, RVal (if ok : bool then Some v else None))
  | LLen => n ← Len l; Ret (l, RInt n)
  | LInsert i b => l' ← Insert growslice T l i (VBytes b); Ret (l', ROk)
  | LRemove i => '(l', v) ← Remove l i; Ret (l', RVal (Some v))
  | LRemoveLast => '(l', v) ← RemoveLast l; Ret (l', RVal (Some v))
  | LSet i b => l' ← Set_ l i (VBytes b); Ret (l', ROk)
  | LRange a b => vs ← Range l a b; Ret (l, RList vs)
  | LRemoveAllByVal f => '(l', n) ← RemoveAllByVal l f; Ret (l', RInt n)
  | LRemoveByVal f n => '(l', n) ← RemoveByVal l f n; Ret (l', RInt n)
  | LReverseRemoveByVal f n => '(l', n) ← ReverseRemoveByVal l f n; Ret (l', RInt n)
  | LForEach => vs ← ForEach l (λ acc _ v, (acc ++ [v], true)) []; Ret (l, RList vs)
  | LGetAsQuickList =>
      '(l', ql) ← GetAsQuickList growslice l;
      vs ← ql_ForEach ql (λ acc _ v, (acc ++ [v], true)) []; Ret (l', RList vs)
  end.

(** What the callers make sure of before they call: positions inside the list,
    counts above zero, a non-empty list for the removal of all matches. *)
Definition list_legal (bs : list bytes) (c : list_cmd) : Prop :=
  match c with
  | LAdd b => small b
  | LInsert i b => 0 <= i <= Z.of_nat (length bs) ∧ small b
  | LRemove i => 0 <= i < Z.of_nat (length bs)
  | LSet i b => 0 <= i < Z.of_nat (length bs) ∧ small b
  | LRange a b => 0 <= a < Z.of_nat (length bs) ∧ a <= b <= Z.of_nat (length bs)
  | LRemoveAllByVal _ => bs ≠ []
  | LRemoveByVal _ n | LReverseRemoveByVal _ n => 0 < n
  | _ => True
  end.

(** The specification on the list of byte strings. *)
Definition list_spec (bs : list bytes) (c : list_cmd) : list bytes * ql_reply value :=
  let count bs' : ql_reply value := RInt (Z.of_nat (length bs) - Z.of_nat (length bs')) in
  match c with
  | LAdd b => (bs ++ [b], ROk)
  | LGet i => (bs, RVal (VBytes <$> (if 0 <=? i then bs !! Z.to_nat i else None)))
  | LLen => (bs, RInt (Z.of_nat (length bs)))
  | LInsert i b => (take (Z.to_nat i) bs ++ b :: drop (Z.to_nat i) bs, ROk)
  | LRemove i => (delete (Z.to_nat i) bs, RVal (VBytes <$> bs !! Z.to_nat i))
  | LRemoveLast => (removelast bs, RVal (Some (from_option VBytes VNil (last bs))))
  | LSet i b => (<[Z.to_nat i := b]> bs, ROk)
  | LRange a b => (bs, RList (VBytes <$> take (Z.to_nat (b - a)) (drop (Z.to_nat a) bs)))
  | LRemoveAllByVal f => let bs' := List.filter (λ b, negb (f (VBytes b))) bs in (bs', count bs')
  | LRemoveByVal f n => let bs' := remove_n (λ b, f (VBytes b)) (Z.to_nat n) bs in (bs', count bs')
  | LReverseRemoveByVal f n =>
      let bs' := reverse (remove_n (λ b, f (VBytes b)) (Z.to_nat n) (reverse bs)) in (bs', count bs')
  | LForEach | LGetAsQuickList => (bs, RList (VBytes <$> bs))
  end.

Fixpoint list_obj_run (l : List_) (cs : list list_cmd) : res (List_ * list (ql_reply value)) :=
  match cs with
  | [] => Ret (l, [])
  | c :: cs' => '(l', o) ← list_obj_step l c; '(l'', os) ← list_obj_run l' cs'; Ret (l'', o :: os)
  end.

Fixpoint list_spec_run (bs : list bytes) (cs : list list_cmd) : list bytes * list (ql_reply value) :=
  match cs with
  | [] => (bs, [])
  | c :: cs' =>
      let '(bs', o) := list_spec bs c in
      let '(bs'', os) := list_spec_run bs' cs' in (bs'', o :: os)
  end.

Fixpoint list_legal_run (bs : list bytes) (cs : list list_cmd) : Prop :=
  match cs with
  | [] => True
  | c :: cs' => list_legal bs c ∧ list_legal_run (list_spec bs c).1 cs'
  end.

(** Replace an index by the natural number it stands for. *)
Local Ltac nat_index i :=
  let n := fresh "n" in
  let E := fresh "E" in
  destruct (Z_of_nat_complete i) as [n E]; [lia|]; subst i; rewrite ?Nat2Z.id.

Lemma list_obj_step_ok l bs c :
  list_ok T l bs → list_legal bs c →
  ∃ l', list_obj_step l c = Ret (l', (list_spec bs c).2) ∧ list_ok T l' (list_spec bs c).1 ∧
    (isListpack l' = true → isListpack l = true).
Proof.
  intros H Hl. destruct c as [b|i| |i b|i| |i b|a b|f|f n|f n| |]; cbn [list_obj_step list_spec fst snd list_legal] in *.
  - destruct (list_Add_spec growslice T l bs b H Hl) as (l' & -> & ? & He). cbn. exists l'. split_and!; [done..|].
    rewrite He. by intros [? _]%andb_true_iff.
  - rewrite (list_Get_spec T _ bs) by done. exists l. split_and!; [|done|done].
    by destruct (if 0 <=? i then _ else _).
  - rewrite (list_Len_spec T _ bs) by done. eauto.
  - destruct Hl as [Hi Hb]. nat_index i.
    destruct (Insert_spec growslice T l bs n b H Hb) as (l' & -> & ? & He); [lia|]. cbn. exists l'. split_and!; [done..|].
    rewrite He. by intros [? _]%andb_true_iff.
  - nat_index i. destruct (lookup_lt_is_Some_2 bs n) as [x Hx]; [lia|].
    destruct (list_Remove_spec T l bs n x H Hx) as (l' & -> & ? & He). rewrite Hx. cbn. exists l'. by rewrite He.
  - destruct (RemoveLast_spec T l bs H) as (l' & -> & ? & He). cbn. exists l'. by rewrite He.
  - destruct Hl as [Hi Hb]. nat_index i.
    destruct (Set_spec T l bs n b H Hb) as (l' & -> & ? & He); [lia|]. cbn. exists l'. by rewrite He.
  - destruct Hl as [Ha Hb]. rewrite (Range_spec T _ bs) by done. eauto.
  - destruct (RemoveAllByVal_spec T l bs f H Hl) as (l' & -> & ? & He). cbn. exists l'. by rewrite He.
  - destruct (RemoveByVal_spec T l bs f n H Hl) as (l' & -> & ? & He). cbn. exists l'. by rewrite He.
  - destruct (ReverseRemoveByVal_spec T l bs f n H Hl) as (l' & -> & ? & He). cbn. exists l'. by rewrite He.
  - rewrite (ForEach_spec T _ bs) by done. cbn. rewrite each_collect. eauto.
  - unfold GetAsQuickList. destruct (isListpack l) eqn:Henc.
    + destruct (list_rep_lp _ _ (proj1 H) Henc) as (lp & El & Hlp).
      destruct (list_convert_spec growslice l lp bs El Hlp) as (l' & -> & E & Hr). cbn [mbind res_bind].
      destruct (list_rep_ql _ _ Hr E) as (ql & -> & Hok & Hc). cbn [must mbind res_bind].
      rewrite ql_ForEach_spec, Hc, each_collect by done. exists l'. split_and!; [done| |done].
      split; [done|]. unfold enc_ok. by rewrite E.
    + destruct (list_rep_ql _ _ (proj1 H) Henc) as (ql & Eq & Hok & Hc). cbn [mbind res_bind]. rewrite Eq.
      cbn [must mbind res_bind]. rewrite ql_ForEach_spec, Hc, each_collect by done. exists l. by rewrite Henc.
Qed.

Lemma list_obj_run_ok cs l bs :
  list_ok T l bs → list_legal_run bs cs →
  ∃ l', list_obj_run l cs = Ret (l', (list_spec_run bs cs).2) ∧ list_ok T l' (list_spec_run bs cs).1.
Proof.
  revert l bs. induction cs as [|c cs IH]; intros l bs H Hl; [by exists l|]. cbn [list_obj_run list_spec_run].
  destruct Hl as [Hc Hl]. destruct (list_obj_step_ok l bs c H Hc) as (l' & -> & H' & _). cbn [mbind res_bind].
  destruct (list_spec bs c) as [bs' o]. cbn [fst snd] in *. destruct (IH l' bs' H' Hl) as (l'' & -> & H'').
  cbn [mbind res_bind]. destruct (list_spec_run bs' cs) as [bs'' os]. by exists l''.
Qed.

(** C12: A list object behaves as a plain list of byte strings under every
    sequence of its operations that respects the bounds the callers check: all
    replies are those of the list, no operation panics, and the listpack and
    the quicklist encoding, with the conversion between them at any threshold,
    cannot be told apart.  An object that is still listpack-encoded never
    exceeds the size limit. *)
Theorem list_object_refines_list cs :
  list_legal_run [] cs →
  ∃ l, list_obj_run NewList cs = Ret (l, (list_spec_run [] cs).2) ∧
    list_rep l (list_spec_run [] cs).1 ∧
    (IsListpack l = true →
       Z.of_nat (length (list_spec_run [] cs).1) <= Z.max 0 (ListMaxListpackSize T)).
Proof.
  intros Hl. destruct (list_obj_run_ok cs NewList [] (list_ok_new T) Hl) as (l & E & Hr & He). by exists l.
Qed.
End refinement.

(** Two thresholds and a conversion in the middle of the sequence. *)
Definition list_script : list list_cmd :=
  [LAdd (str "a"); LAdd (str "7"); LInsert 1 (str "b"); LAdd (str "a"); LSet 0 (str "c");
   LReverseRemoveByVal (λ v, bool_decide (v = VBytes (str "a"))) 1; LRange 0 3; LRemove 1; LRemoveLast; LForEach].

Lemma list_object_refines_list_witness :
  ∃ l, list_obj_run (λ c _, 2 * c + 8) (MkThresholds 128 64 512 128 64 128 64 2) NewList list_script
         = Ret (l, (list_spec_run [] list_script).2) ∧
    list_rep l (list_spec_run [] list_script).1 ∧
    (IsListpack l = true → Z.of_nat (length (list_spec_run [] list_script).1) <= Z.max 0 2).
Proof.
  apply (list_object_refines_list (λ c _, 2 * c + 8) (MkThresholds 128 64 512 128 64 128 64 2) list_script).
  vm_compute. split_and!; done.
Defined.
(* end *)
