(* ===== verification/ObjSet.v ===== *)
(** * Set objects: the [Set] type of [internal/object/encoding.go]

    A set starts as an intset, becomes a listpack when a member is not an
    integer or there are too many, and a hashtable when it outgrows the
    listpack.  The abstract value is a finite set of byte strings, the same for
    the three encodings.  The hashtable is used through the [Dict] interface,
    so that everything here holds for any lawful dict. *)

From stdpp Require Import base gmap list strings sorting.
From Stdlib Require Import ZArith Lia.
From S2P Require Import Prelude GoText Listpack Intset Dict SimpleDict ObjString.

Local Open Scope Z_scope.

Inductive set_encoding := EncodingIntset | EncodingListpack | EncodingHashtable.

Record Set_ {D : Type} := MkSet {
  intset : option Intset;
  listpack : option Listpack;
  hashtable : option D;
  encoding : set_encoding
}.
Arguments Set_ : clear implicits.

Section Set_ops.
Context {D : Type} `{DictOps D value} (Thresholds : EncodingThresholds).
Implicit Types (s : Set_ D) (member : bytes).

Definition NewSet : Set_ D := MkSet D (Some NewIntset) None None EncodingIntset.

Definition convertToListpack s : res (Set_ D) :=
  iset ← must (intset s);
  let newLp := is_Range iset (λ lp v, (AppendStr lp (formatInt64 v), true)) NewListpack in
  Ret (MkSet D None (Some newLp) (hashtable s) EncodingListpack).

Definition convertToHashtable s : res (Set_ D) :=
  lp ← must (listpack s);
  newDict ← lp_Range lp (λ d _ val,
    match val with
    | VStr m => '(d', _) ← d_Put d m VNil; Ret (d', true)
    | _ => Ret (d, true)
    end) d_make;
  Ret (MkSet D (intset s) None (Some newDict) EncodingHashtable).

(** The search closure over a listpack. *)
Definition lp_found (lp : Listpack) member : res bool :=
  lp_Range lp (λ found _ val,
    Ret (match val with
         | VStr m => if bytes_eqb m member then (true, false) else (found, true)
         | _ => (found, true)
         end)) false.

(** The branches of [Add] for the listpack and hashtable encodings. *)
Definition add_hashtable s member : res (Set_ D * Z) :=
  d ← must (hashtable s);
  '(d', r) ← d_Put d member VNil;
  Ret (MkSet D (intset s) (listpack s) (Some d') (encoding s), r).

Definition add_listpack s member : res (Set_ D * Z) :=
  lp ← must (listpack s);
  found ← lp_found lp member;
  if found : bool then Ret (s, 0)
  else if SetMaxListpackValue Thresholds <? Z.of_nat (length member) then
    s' ← convertToHashtable s;
    add_hashtable s' member
  else
    let lp' := AppendStr lp member in
    let s' := MkSet D (intset s) (Some lp') (hashtable s) (encoding s) in
    if SetMaxListpackEntries Thresholds <? lp_Len lp'
    then s'' ← convertToHashtable s'; Ret (s'', 1)
    else Ret (s', 1).

(** A nil receiver answers [0]. *)
Definition Add (s : option (Set_ D)) member : res (option (Set_ D) * Z) :=
  match s with
  | None => Ret (None, 0)
  | Some s =>
      '(s', r) ←
        match encoding s with
        | EncodingIntset =>
            let '(v, ok) := isInt member in
            if ok : bool then
              iset ← must (intset s);
              let '(is', added) := is_Add iset v in
              let s1 := MkSet D (Some is') (listpack s) (hashtable s) (encoding s) in
              if added : bool then
                if SetMaxIntsetEntries Thresholds <? is_Len is' then
                  s2 ← convertToListpack s1;
                  lp ← must (listpack s2);
                  if SetMaxListpackEntries Thresholds <? lp_Len lp
                  then s3 ← convertToHashtable s2; Ret (s3, 1)
                  else Ret (s2, 1)
                else Ret (s1, 1)
              else Ret (s1, 0)
            else
              (* the recursive call finds the encoding changed *)
              s1 ← convertToListpack s;
              add_listpack s1 member
        | EncodingListpack => add_listpack s member
        | EncodingHashtable => add_hashtable s member
        end;
      Ret (Some s', r)
  end.

Definition Has (s : option (Set_ D)) member : res bool :=
  match s with
  | None => Ret false
  | Some s =>
      match encoding s with
      | EncodingIntset =>
          let '(v, ok) := isInt member in
          if ok : bool then iset ← must (intset s); Ret (is_Contains iset v) else Ret false
      | EncodingListpack => lp ← must (listpack s); lp_found lp member
      | EncodingHashtable =>
          d ← must (hashtable s); o ← d_Get d member; Ret (bool_decide (is_Some o))
      end
  end.

Definition Remove (s : option (Set_ D)) member : res (option (Set_ D) * Z) :=
  match s with
  | None => Ret (None, 0)
  | Some s =>
      match encoding s with
      | EncodingIntset =>
          let '(v, ok) := isInt member in
          if ok : bool then
            iset ← must (intset s);
            let '(is', removed) := is_Remove iset v in
            Ret (Some (MkSet D (Some is') (listpack s) (hashtable s) (encoding s)), b2z removed)
          else Ret (Some s, 0)
      | EncodingListpack =>
          lp ← must (listpack s);
          '(newLp, removed) ← lp_Range lp (λ '(newLp, removed) _ val,
            match val with
            | VStr m =>
                if bytes_eqb m member then Ret ((newLp, true), true)
                else Ret ((AppendStr newLp m, removed), true)
            | _ => Ret ((newLp, removed), true)
            end) (NewListpack, false);
          if negb removed then Ret (Some s, 0)
          else Ret (Some (MkSet D (intset s) (Some newLp) (hashtable s) (encoding s)), 1)
      | EncodingHashtable =>
          d ← must (hashtable s);
          '(d', _, ret) ← d_Remove d member;
          Ret (Some (MkSet D (intset s) (listpack s) (Some d') (encoding s)), ret)
      end
  end.

Definition Len (s : option (Set_ D)) : res Z :=
  match s with
  | None => Ret 0
  | Some s =>
      match encoding s with
      | EncodingIntset => iset ← must (intset s); Ret (is_Len iset)
      | EncodingListpack => lp ← must (listpack s); Ret (lp_Len lp)
      | EncodingHashtable => d ← must (hashtable s); d_Len d
      end
  end.

(** [ord] is the order in which a hashtable is traversed. *)
Definition ForEach {S} (s : option (Set_ D)) (fn : S → bytes → S * bool)
    (ord : list (bytes * value)) (st : S) : res S :=
  match s with
  | None => Ret st
  | Some s =>
      match encoding s with
      | EncodingIntset =>
          iset ← must (intset s); Ret (is_Range iset (λ st v, fn st (formatInt64 v)) st)
      | EncodingListpack =>
          lp ← must (listpack s);
          lp_Range lp (λ st _ val, Ret (match val with VStr m => fn st m | _ => (st, true) end)) st
      | EncodingHashtable =>
          _ ← must (hashtable s); Ret (d_ForEach (λ st k _, fn st k) ord st)
      end
  end.

Definition CurrentEncoding s : Encoding :=
  match encoding s with
  | EncodingIntset => EncIntset
  | EncodingListpack => EncListpack
  | EncodingHashtable => EncHashtable
  end.

Definition ToSlice (s : option (Set_ D)) (ord : list (bytes * value)) : res (list bytes) :=
  ForEach s (λ acc m, (acc ++ [m], true)) ord [].

(** The pseudo-random generator: a [uint32] seed. *)
Definition simpleRand (seed : Z) : Z := u32 (seed * 1103515245 + 12345).

(** [x % uint32(n)] panics when the converted divisor is zero. *)
Definition rand_index (seed : Z) (n : Z) : res Z :=
  if u32 n =? 0 then Panic else Ret (simpleRand seed mod u32 n).

Definition swap {A} (l : list A) (i j : nat) : res (list A) :=
  x ← must (l !! i); y ← must (l !! j); Ret (<[j := x]> (<[i := y]> l)).

Fixpoint shuffle_loop (n : nat) (i : nat) (members result : list bytes) (seed : Z) : res (list bytes * Z) :=
  match n with
  | O => Ret (result, seed)
  | S n' =>
      r ← rand_index seed (Z.of_nat (length members) - Z.of_nat i);
      let j := (i + Z.to_nat r)%nat in
      members' ← swap members i j;
      m ← must (members' !! i);
      shuffle_loop n' (S i) members' (result ++ [m]) (simpleRand seed)
  end.

Definition RandomDistinctMembers (s : option (Set_ D)) (ord : list (bytes * value)) (limit seed : Z)
    : res (list bytes * Z) :=
  members ← ToSlice s ord;
  let limit := if Z.of_nat (length members) <? limit then Z.of_nat (length members) else limit in
  if limit <? 0 then Panic else shuffle_loop (Z.to_nat limit) 0 members [] seed.

Fixpoint pick_loop (n : nat) (members result : list bytes) (seed : Z) : res (list bytes * Z) :=
  match n with
  | O => Ret (result, seed)
  | S n' =>
      r ← rand_index seed (Z.of_nat (length members));
      m ← must (members !! Z.to_nat r);
      pick_loop n' members (result ++ [m]) (simpleRand seed)
  end.

Definition RandomMembers (s : option (Set_ D)) (ord : list (bytes * value)) (limit seed : Z)
    : res (list bytes * Z) :=
  members ← ToSlice s ord;
  match members with
  | [] => Ret ([], seed)
  | _ => if limit <? 0 then Panic else pick_loop (Z.to_nat limit) members [] seed
  end.

(** The loop of [SetScan] and of [Hash.Scan] over the sorted names: [emit]
    is what a name contributes, [bound] the length of the result that ends the
    page.  A negative cursor indexes the slice out of range. *)
Fixpoint scan_loop (fuel : nat) (all : list bytes) (emit : bytes → res (list bytes)) (bound : Z)
    (i : Z) (result : list bytes) : res (list bytes * Z) :=
  match fuel with
  | O => OutOfFuel
  | S f =>
      if (i <? Z.of_nat (length all)) && (Z.of_nat (length result) <? bound) then
        m ← (if i <? 0 then Panic else must (all !! Z.to_nat i));
        out ← emit m;
        scan_loop f all emit bound (i + 1) (result ++ out)
      else Ret (result, i)
  end.

(** [wildcard.CompilePattern] and [IsMatch] compile to a regular expression of
    the Go library; here they are a matcher, [None] when the pattern is
    rejected. *)
Definition SetScan (s : option (Set_ D)) (ord : list (bytes * value))
    (compile : bytes → option (bytes → bool)) (cursor count : Z) (pattern : bytes) : res (list bytes * Z) :=
  slice ← ToSlice s ord;
  let all := sort_Strings slice in
  let total := Z.of_nat (length all) in
  if total =? 0 then Ret ([], 0)
  else
    match compile pattern with
    | None => Ret ([], -1)
    | Some matchKey =>
        '(result, i) ← scan_loop (S (length all)) all
          (λ m, Ret (if bytes_eqb pattern (str "*") || matchKey m then [m] else [])) count cursor [];
        Ret (result, if total <=? i then 0 else i)
    end.
End Set_ops.

Lemma size_add (m : bytes) (X : gset bytes) : (size ({[m]} ∪ X) <= S (size X))%nat.
Proof.
  rewrite size_union_alt, size_singleton. pose proof (subseteq_size (X ∖ {[m]}) X ltac:(set_solver)). lia.
Qed.

Lemma size_remove (m : bytes) (X : gset bytes) : (size (X ∖ {[m]}) <= size X)%nat.
Proof. apply subseteq_size. set_solver. Qed.

(** ** Abstract value *)

Section proofs.
Context {D : Type} `{DictLaws D value} (T : EncodingThresholds).
Implicit Types (s : Set_ D) (m : bytes) (X : gset bytes).

Definition rep_intset (iset : Intset) X : Prop :=
  is_ok iset ∧ (∀ v, v ∈ is_set iset → - max_i64 <= v <= max_i64) ∧ X = set_map formatInt64 (is_set iset).

Definition rep_listpack (lp : Listpack) X : Prop :=
  ∃ ms, lp_rep lp (VStr <$> ms) ∧ NoDup ms ∧ X = list_to_set ms.

Definition rep_hashtable (d : D) X : Prop := d_inv d ∧ dom (d_map d) = X.

(** The set object [s] holds the members [X]. *)
Definition set_rep s X : Prop :=
  match encoding s with
  | EncodingIntset => ∃ iset, intset s = Some iset ∧ rep_intset iset X
  | EncodingListpack => ∃ lp, listpack s = Some lp ∧ rep_listpack lp X
  | EncodingHashtable => ∃ d, hashtable s = Some d ∧ rep_hashtable d X
  end.

(** The lengths in a listpack: a member that is longer than the limit came
    from an intset, whose conversion does not look at lengths. *)
Definition lp_values X : Prop :=
  ∀ m, m ∈ X → Z.of_nat (length m) <= SetMaxListpackValue T ∨ (isInt m).2 = true.

(** The compact encodings respect their limits: the numbers of members and,
    in a listpack, the lengths of the members. *)
Definition set_enc_ok s X : Prop :=
  match encoding s with
  | EncodingIntset => Z.of_nat (size X) <= Z.max 0 (SetMaxIntsetEntries T)
  | EncodingListpack => Z.of_nat (size X) <= Z.max 0 (SetMaxListpackEntries T) ∧ lp_values X
  | EncodingHashtable => True
  end.

Definition set_ok s X : Prop := set_rep s X ∧ set_enc_ok s X.

(** ** Conversions *)

Lemma small_format v : small (formatInt64 v).
Proof. unfold small. pose proof (formatInt64_length v). lia. Qed.

Lemma is_range_append lp vs ms :
  lp_rep lp (VStr <$> ms) →
  lp_rep (is_range_loop (λ lp v, (AppendStr lp (formatInt64 v), true)) vs lp) (VStr <$> (ms ++ (formatInt64 <$> vs))).
Proof.
  revert lp ms. induction vs as [|v vs IH]; intros lp ms Hlp; cbn [is_range_loop fmap list_fmap].
  { by rewrite app_nil_r. }
  rewrite cons_middle, app_assoc. apply IH. rewrite fmap_app. apply lp_rep_append_str; [done|apply small_format].
Qed.

Lemma NoDup_format vs :
  StronglySorted Z.lt vs → (∀ v, v ∈ vs → - max_i64 <= v <= max_i64) → NoDup (formatInt64 <$> vs).
Proof.
  induction vs as [|v vs IH]; intros Hs Hr; [constructor|]. apply StronglySorted_cons in Hs as [Hv Hs].
  cbn. constructor; [|apply IH; [done|set_solver]]. intros (w & E & Hw)%list_elem_of_fmap.
  apply formatInt64_inj in E; [|set_solver|set_solver]. rewrite Forall_forall in Hv. specialize (Hv w Hw). lia.
Qed.

Lemma convertToListpack_spec s iset X :
  intset s = Some iset → rep_intset iset X →
  ∃ s' lp, convertToListpack s = Ret s' ∧ encoding s' = EncodingListpack ∧ listpack s' = Some lp ∧ rep_listpack lp X.
Proof.
  intros Es (Hok & Hr & ->). unfold convertToListpack. rewrite Es. cbn.
  eexists _, _. split_and!; [done|done|done|]. exists (formatInt64 <$> is_data iset). split_and!.
  - unfold is_Range. apply (is_range_append _ _ []), lp_rep_new.
  - apply NoDup_format; [apply Hok|]. intros v Hv. apply Hr. unfold is_set. set_solver.
  - unfold is_set. symmetry. apply (list_to_set_fmap_L (C := gset Z)).
Qed.

Lemma put_all ms d i :
  d_inv d → Z.of_nat (size (d_map d) + length ms) <= 2 ^ 60 →
  ∃ d', range_spec (λ d _ val, match val with
                               | VStr m => '(d', _) ← d_Put d m VNil; Ret (d', true)
                               | _ => Ret (d, true) end) i (VStr <$> ms) d = Ret d' ∧
    d_inv d' ∧ dom (d_map d') = dom (d_map d) ∪ list_to_set ms.
Proof.
  revert d i. induction ms as [|m ms IH]; intros d i Hd Hsz; cbn [fmap list_fmap range_spec].
  { exists d. split_and!; [done|done|set_solver]. }
  cbn [length] in Hsz. destruct (d_Put_spec d m VNil Hd) as (d1 & -> & Hd1 & E1); [unfold roomy; lia|].
  cbn [mbind res_bind]. destruct (IH d1 (i + 1) Hd1) as (d2 & -> & Hd2 & E2).
  { rewrite E1, map_size_insert. destruct (d_map d !! m); simpl; lia. }
  exists d2. split_and!; [done|done|]. rewrite E2, E1. set_solver.
Qed.

Lemma convertToHashtable_spec s lp X :
  listpack s = Some lp → rep_listpack lp X → Z.of_nat (size X) <= 2 ^ 60 →
  ∃ s' d, convertToHashtable s = Ret s' ∧ encoding s' = EncodingHashtable ∧
    hashtable s' = Some d ∧ rep_hashtable d X.
Proof.
  intros Es (ms & Hlp & Hnd & ->) Hsz. unfold convertToHashtable. rewrite Es. cbn [must mbind res_bind].
  rewrite (lp_Range_spec _ _ _ _ Hlp). rewrite size_list_to_set in Hsz by done.
  destruct (d_make_spec (D := D) (V := value)) as [Hinv Hemp].
  destruct (put_all ms d_make 0 Hinv) as (d & -> & Hd & Ed).
  { rewrite Hemp, map_size_empty. lia. }
  eexists _, d. split_and!; [done|done|done|]. split; [done|]. rewrite Ed, Hemp. set_solver.
Qed.

(** ** Operations *)

Lemma lp_found_spec lp ms m :
  lp_rep lp (VStr <$> ms) → lp_found lp m = Ret (bool_decide (m ∈ ms)).
Proof.
  intros Hlp. unfold lp_found. rewrite (lp_Range_spec _ _ _ _ Hlp). generalize 0. clear.
  induction ms as [|x ms IH]; intros i; [done|]. cbn [fmap list_fmap range_spec mbind res_bind].
  destruct (bytes_eqb x m) eqn:E.
  - apply bytes_eqb_eq in E as ->. by rewrite bool_decide_eq_true_2 by set_solver.
  - apply bytes_eqb_ne in E. rewrite IH. f_equal. apply bool_decide_ext. set_solver.
Qed.

Lemma rep_listpack_len lp X : rep_listpack lp X → lp_Len lp = Z.of_nat (size X).
Proof.
  intros (ms & Hlp & Hnd & ->). rewrite (lp_rep_len _ _ Hlp), length_fmap, size_list_to_set by done. done.
Qed.

Lemma add_hashtable_spec s d m X :
  encoding s = EncodingHashtable → hashtable s = Some d → rep_hashtable d X → Z.of_nat (size X) < 2 ^ 60 →
  ∃ s', add_hashtable s m = Ret (s', b2z (bool_decide (m ∉ X))) ∧ set_ok s' ({[m]} ∪ X).
Proof.
  intros Ee Eh [Hd <-] Hsz. unfold add_hashtable. rewrite Eh. cbn [must mbind res_bind].
  rewrite size_dom in Hsz. destruct (d_Put_spec d m VNil Hd) as (d' & -> & Hd' & E'); [unfold roomy; lia|].
  cbn [mbind res_bind]. eexists. split.
  - do 3 f_equal. apply bool_decide_ext. by rewrite not_elem_of_dom.
  - unfold set_ok, set_rep, set_enc_ok. cbn. rewrite Ee. split; [|done]. exists d'. split; [done|]. split; [done|].
    rewrite E'. set_solver.
Qed.

Lemma add_listpack_spec s lp m X :
  encoding s = EncodingListpack → listpack s = Some lp → rep_listpack lp X → small m →
  Z.of_nat (size X) < 2 ^ 60 → lp_values X → (m ∈ X → set_enc_ok s X) →
  ∃ s', add_listpack T s m = Ret (s', b2z (bool_decide (m ∉ X))) ∧ set_ok s' ({[m]} ∪ X).
Proof.
  intros Ee El Hrep Hm Hsz Hval Henc. pose proof Hrep as (ms & Hlp & Hnd & HX). unfold add_listpack. rewrite El.
  cbn [must mbind res_bind]. rewrite (lp_found_spec _ _ _ Hlp). cbn [mbind res_bind].
  case_bool_decide as Hin.
  { assert (m ∈ X) by set_solver. exists s. rewrite bool_decide_eq_false_2 by (by intros []).
    split; [done|]. replace ({[m]} ∪ X) with X by set_solver. split; [|by apply Henc].
    unfold set_rep. rewrite Ee. eauto. }
  assert (HmX : m ∉ X) by set_solver. rewrite (bool_decide_eq_true_2 _ HmX).
  destruct (Z.ltb_spec (SetMaxListpackValue T) (Z.of_nat (length m))).
  { destruct (convertToHashtable_spec s lp X El Hrep) as (s' & d & -> & Ee' & Eh & Hd); [lia|]. cbn [mbind res_bind].
    destruct (add_hashtable_spec s' d m X Ee' Eh Hd Hsz) as (s'' & -> & Hok). exists s''.
    by rewrite bool_decide_eq_true_2. }
  assert (Hrep' : rep_listpack (AppendStr lp m) ({[m]} ∪ X)).
  { exists (ms ++ [m]). split_and!.
    - rewrite fmap_app. by apply lp_rep_append_str.
    - apply NoDup_app. split_and!; [done|set_solver|apply NoDup_singleton].
    - rewrite list_to_set_app_L. set_solver. }
  rewrite (rep_listpack_len _ _ Hrep'). pose proof (size_add m X).
  destruct (Z.ltb_spec (SetMaxListpackEntries T) (Z.of_nat (size ({[m]} ∪ X)))).
  - match goal with |- context [convertToHashtable ?s1] =>
      destruct (convertToHashtable_spec s1 (AppendStr lp m) ({[m]} ∪ X) eq_refl Hrep') as (s' & d & -> & Ee' & Eh & Hd) end;
      [lia|]. cbn. exists s'. split; [done|]. unfold set_ok, set_rep, set_enc_ok. rewrite Ee'. eauto.
  - eexists. split; [done|]. unfold set_ok, set_rep, set_enc_ok. cbn. rewrite Ee. split; [eauto|]. split; [lia|].
    intros x [->%elem_of_singleton|Hx]%elem_of_union; [by left|by apply Hval].
Qed.

Lemma mem_format iset v X :
  rep_intset iset X → - max_i64 <= v <= max_i64 → formatInt64 v ∈ X ↔ v ∈ is_set iset.
Proof.
  intros (_ & Hr & ->) Hv. rewrite elem_of_map. split; [|by eauto].
  intros (w & E & Hw). apply formatInt64_inj in E; [by subst|done|by apply Hr].
Qed.

(** A member that is no canonical integer is not in an intset. *)
Lemma isInt_false_notin iset m X : rep_intset iset X → (isInt m).2 = false → m ∉ X.
Proof.
  intros (_ & Hr & ->) Hm (v & -> & Hv)%elem_of_map. specialize (Hr v Hv).
  by rewrite isInt_format in Hm.
Qed.

(** What comes from an intset is allowed in a listpack. *)
Lemma rep_intset_values iset X : rep_intset iset X → lp_values X.
Proof.
  intros Hrep m Hm. right. destruct (isInt m).2 eqn:E; [done|]. by apply (isInt_false_notin iset m X Hrep) in E.
Qed.

Lemma rep_intset_size iset X : rep_intset iset X → is_Len iset = Z.of_nat (size X).
Proof.
  intros (Hok & Hr & ->). unfold is_Len, is_set. f_equal.
  rewrite <- (list_to_set_fmap_L (C := gset Z)), size_list_to_set; [by rewrite length_fmap|].
  apply NoDup_format; [apply Hok|]. intros v Hv. apply Hr. unfold is_set. set_solver.
Qed.

Lemma is_Add_rep iset v X :
  rep_intset iset X → - max_i64 <= v <= max_i64 →
  rep_intset (is_Add iset v).1 ({[formatInt64 v]} ∪ X) ∧ (is_Add iset v).2 = bool_decide (formatInt64 v ∉ X).
Proof.
  intros Hrep Hv. pose proof Hrep as (Hok & Hr & HX). destruct (is_Add_spec iset v Hok) as (Hok' & Hset & ->).
  split.
  - split_and!; [done| |].
    + rewrite Hset. intros w [->%elem_of_singleton|Hw]%elem_of_union; [done|by apply Hr].
    + rewrite Hset, HX, set_map_union_L, set_map_singleton_L. done.
  - apply bool_decide_ext. by rewrite (mem_format _ _ _ Hrep Hv).
Qed.

Lemma is_Remove_rep iset v X :
  rep_intset iset X → - max_i64 <= v <= max_i64 →
  rep_intset (is_Remove iset v).1 (X ∖ {[formatInt64 v]}) ∧ (is_Remove iset v).2 = bool_decide (formatInt64 v ∈ X).
Proof.
  intros Hrep Hv. pose proof Hrep as (Hok & Hr & HX). destruct (is_Remove_spec iset v Hok) as (Hok' & Hset & ->).
  split.
  - split_and!; [done| |].
    + rewrite Hset. intros w [Hw _]%elem_of_difference. by apply Hr.
    + rewrite Hset. apply set_eq. intros x. rewrite elem_of_difference, elem_of_singleton, !HX, !elem_of_map.
      split.
      * intros [(w & -> & Hw) Hne]. exists w. set_solver.
      * intros (w & -> & [Hw Hne]%elem_of_difference). split; [eauto|].
        intros E. apply formatInt64_inj in E; [set_solver|by apply Hr|done].
  - apply bool_decide_ext. by rewrite (mem_format _ _ _ Hrep Hv).
Qed.

(** The intset branch of [Add] for an integer member. *)
Lemma add_int_spec s iset v X :
  encoding s = EncodingIntset → intset s = Some iset → rep_intset iset X → set_enc_ok s X →
  isInt (formatInt64 v) = (v, true) → - max_i64 <= v <= max_i64 → Z.of_nat (size X) < 2 ^ 60 →
  ∃ s', Add T (Some s) (formatInt64 v) = Ret (Some s', b2z (bool_decide (formatInt64 v ∉ X))) ∧
    set_ok s' ({[formatInt64 v]} ∪ X).
Proof.
  intros Ee Ei Hrep Henc Hint Hv Hsz. unfold Add. rewrite Ee, Hint, Ei. cbn [must mbind res_bind].
  destruct (is_Add_rep iset v X Hrep Hv) as [Hrep' Hadd]. rewrite (surjective_pairing (is_Add iset v)), Hadd.
  pose proof (size_add (formatInt64 v) X) as Hsize. rewrite (rep_intset_size _ _ Hrep').
  case_bool_decide as Hin; cbn [b2z].
  - destruct (Z.ltb_spec (SetMaxIntsetEntries T) (Z.of_nat (size ({[formatInt64 v]} ∪ X)))) as [Hgt|Hle].
    + match goal with |- context [convertToListpack ?s1] =>
        destruct (convertToListpack_spec s1 _ _ eq_refl Hrep') as (s2 & lp & -> & Ee2 & El2 & Hlp2) end.
      cbn [mbind res_bind]. rewrite El2. cbn [must mbind res_bind]. rewrite (rep_listpack_len _ _ Hlp2).
      destruct (Z.ltb_spec (SetMaxListpackEntries T) (Z.of_nat (size ({[formatInt64 v]} ∪ X)))).
      * destruct (convertToHashtable_spec s2 lp _ El2 Hlp2) as (s3 & d & -> & Ee3 & Eh3 & Hd); [lia|].
        cbn. exists s3. split; [done|]. unfold set_ok, set_rep, set_enc_ok. rewrite Ee3. eauto.
      * exists s2. split; [done|]. unfold set_ok, set_rep, set_enc_ok. rewrite Ee2. split; [eauto|]. split; [lia|by apply (rep_intset_values _ _ Hrep')].
    + eexists. split; [done|]. unfold set_ok, set_rep, set_enc_ok. cbn. split; [eauto|lia].
  - eexists. split; [done|].
    replace ({[formatInt64 v]} ∪ X) with X in * by set_solver.
    unfold set_ok, set_rep. cbn. split; [eauto|]. unfold set_enc_ok in *. by rewrite Ee in Henc.
Qed.

Lemma set_Add_spec s m X :
  set_ok s X → small m → Z.of_nat (size X) < 2 ^ 60 →
  ∃ s', Add T (Some s) m = Ret (Some s', b2z (bool_decide (m ∉ X))) ∧ set_ok s' ({[m]} ∪ X).
Proof.
  intros [Hrep Henc] Hm Hsz. unfold set_rep in Hrep. destruct (encoding s) eqn:Ee.
  - destruct Hrep as (iset & Ei & Hrep). destruct (isInt m) as [v []] eqn:Hint.
    { destruct (isInt_true m v Hint) as [<- Hv]. by apply (add_int_spec s iset). }
    unfold Add. rewrite Ee, Hint. destruct (convertToListpack_spec s iset X Ei Hrep) as (s1 & lp & -> & Ee1 & El1 & Hlp).
    cbn [mbind res_bind]. pose proof (isInt_false_notin iset m X Hrep ltac:(by rewrite Hint)) as Hnot.
    destruct (add_listpack_spec s1 lp m X) as (s' & -> & Hok); [done..|by apply (rep_intset_values iset)|done|]. cbn. eauto.
  - destruct Hrep as (lp & El & Hrep). unfold Add. rewrite Ee.
    destruct (add_listpack_spec s lp m X) as (s' & -> & Hok); [done..| |done|cbn; eauto].
    unfold set_enc_ok in Henc. rewrite Ee in Henc. apply Henc.
  - destruct Hrep as (d & Eh & Hrep). unfold Add. rewrite Ee.
    destruct (add_hashtable_spec s d m X) as (s' & -> & Hok); [done..|]. cbn. eauto.
Qed.

Lemma Has_spec s m X : set_ok s X → Has (Some s) m = Ret (bool_decide (m ∈ X)).
Proof.
  intros [Hrep _]. unfold Has, set_rep in *. destruct (encoding s) eqn:Ee.
  - destruct Hrep as (iset & -> & Hrep). destruct (isInt m) as [v []] eqn:Hint.
    + destruct (isInt_true m v Hint) as [<- Hv]. cbn. rewrite is_Contains_spec by apply Hrep. f_equal.
      apply bool_decide_ext. by rewrite (mem_format _ _ _ Hrep Hv).
    + f_equal. symmetry. apply bool_decide_eq_false_2. apply (isInt_false_notin iset); [done|by rewrite Hint].
  - destruct Hrep as (lp & -> & ms & Hlp & _ & ->). cbn. rewrite (lp_found_spec _ _ _ Hlp). f_equal.
    apply bool_decide_ext. set_solver.
  - destruct Hrep as (d & -> & Hd & <-). cbn. rewrite d_Get_spec by done. cbn. f_equal.
    apply bool_decide_ext. by rewrite elem_of_dom.
Qed.

Lemma set_Len_spec s X : set_ok s X → Len (Some s) = Ret (Z.of_nat (size X)).
Proof.
  intros [Hrep _]. unfold Len, set_rep in *. destruct (encoding s) eqn:Ee.
  - destruct Hrep as (iset & -> & Hrep). cbn. by rewrite (rep_intset_size _ _ Hrep).
  - destruct Hrep as (lp & -> & Hrep). cbn. by rewrite (rep_listpack_len _ _ Hrep).
  - destruct Hrep as (d & -> & Hd & <-). cbn. by rewrite d_Len_spec, size_dom.
Qed.

(** The rebuilding closure of [Remove]. *)
Lemma remove_range ms m lp b ms0 i :
  lp_rep lp (VStr <$> ms0) → Forall small ms →
  ∃ lp', range_spec (λ '(newLp, removed) _ val,
            match val with
            | VStr x => if bytes_eqb x m then Ret ((newLp, true), true) else Ret ((AppendStr newLp x, removed), true)
            | _ => Ret ((newLp, removed), true)
            end) i (VStr <$> ms) (lp, b) = Ret (lp', b || bool_decide (m ∈ ms)) ∧
    lp_rep lp' (VStr <$> (ms0 ++ filter (λ x, x ≠ m) ms)).
Proof.
  revert lp b ms0 i. induction ms as [|x ms IH]; intros lp b ms0 i Hlp Hs; cbn [fmap list_fmap range_spec].
  { exists lp. rewrite filter_nil, app_nil_r. split; [|done].
    rewrite bool_decide_eq_false_2 by set_solver. by rewrite orb_false_r. }
  apply Forall_cons in Hs as [Hx Hs]. destruct (bytes_eqb x m) eqn:E; cbn [mbind res_bind].
  - apply bytes_eqb_eq in E as ->. destruct (IH lp true ms0 (i + 1) Hlp Hs) as (lp' & -> & Hlp').
    exists lp'. rewrite filter_cons_False by (intros []; done). split; [|done].
    rewrite (bool_decide_eq_true_2 (m ∈ m :: ms)) by set_solver. by rewrite orb_true_r.
  - apply bytes_eqb_ne in E. destruct (IH (AppendStr lp x) b (ms0 ++ [x]) (i + 1)) as (lp' & -> & Hlp').
    { rewrite fmap_app. by apply lp_rep_append_str. } { done. }
    exists lp'. rewrite filter_cons_True by done. rewrite <- app_assoc in Hlp'. split; [|done].
    do 3 f_equal. apply bool_decide_ext. set_solver.
Qed.

Lemma remove_lp_spec s lp m X :
  encoding s = EncodingListpack → listpack s = Some lp → rep_listpack lp X → set_enc_ok s X →
  ∃ s', Remove (Some s) m = Ret (Some s', b2z (bool_decide (m ∈ X))) ∧ set_ok s' (X ∖ {[m]}).
Proof.
  intros Ee El (ms & Hlp & Hnd & ->) Henc. unfold Remove. rewrite Ee, El. cbn [must mbind res_bind].
  rewrite (lp_Range_spec _ _ _ _ Hlp). pose proof (size_remove m (list_to_set ms)) as Hsize.
  destruct (remove_range ms m NewListpack false [] 0) as (lp' & -> & Hlp').
  { apply lp_rep_new. }
  { destruct Hlp as [_ _ Hlp]. by rewrite Forall_fmap in Hlp. }
  cbn [mbind res_bind orb]. rewrite (bool_decide_ext (m ∈ ms) (m ∈@{gset bytes} list_to_set ms)) by set_solver.
  case_bool_decide as Hin; cbn [negb b2z].
  - eexists. split; [done|]. unfold set_ok, set_rep, set_enc_ok in *. cbn. rewrite Ee in *.
    split; [|destruct Henc as [Hn Hv]; split; [lia|intros x [Hx _]%elem_of_difference; by apply Hv]].
    eexists. split; [done|]. exists (filter (λ x, x ≠ m) ms). split_and!; [done|by apply NoDup_filter|].
    apply set_eq. intros x. rewrite elem_of_difference, elem_of_singleton, !elem_of_list_to_set, list_elem_of_filter. naive_solver.
  - exists s. split; [done|]. replace (list_to_set ms ∖ {[m]} : gset bytes) with (list_to_set ms : gset bytes) by set_solver.
    split; [|done]. unfold set_rep. rewrite Ee. exists lp. split; [done|]. by exists ms.
Qed.

Lemma set_Remove_spec s m X :
  set_ok s X →
  ∃ s', Remove (Some s) m = Ret (Some s', b2z (bool_decide (m ∈ X))) ∧ set_ok s' (X ∖ {[m]}).
Proof.
  intros [Hrep Henc]. unfold set_rep in Hrep. pose proof (size_remove m X) as Hsize. destruct (encoding s) eqn:Ee.
  - destruct Hrep as (iset & Ei & Hrep). unfold Remove. rewrite Ee. destruct (isInt m) as [v []] eqn:Hint.
    + destruct (isInt_true m v Hint) as [<- Hv]. rewrite Ei. cbn [must mbind res_bind].
      destruct (is_Remove_rep iset v X Hrep Hv) as [Hrep' Hrm].
      rewrite (surjective_pairing (is_Remove iset v)), Hrm. eexists. split; [done|].
      unfold set_ok, set_rep, set_enc_ok in *. cbn. rewrite Ee in *. split; [eauto|lia].
    + pose proof (isInt_false_notin iset m X Hrep ltac:(by rewrite Hint)) as Hnot.
      rewrite bool_decide_eq_false_2 by done. exists s. split; [done|].
      replace (X ∖ {[m]}) with X by set_solver. split; [|done]. unfold set_rep. rewrite Ee. eauto.
  - destruct Hrep as (lp & El & Hrep). by apply (remove_lp_spec s lp).
  - destruct Hrep as (d & Eh & Hd & <-). unfold Remove. rewrite Ee, Eh. cbn [must mbind res_bind].
    destruct (d_Remove_spec d m Hd) as (d' & -> & Hd' & E'). cbn [mbind res_bind]. eexists. split.
    + do 3 f_equal. apply bool_decide_ext. by rewrite elem_of_dom.
    + unfold set_ok, set_rep, set_enc_ok. cbn. split; [|done]. exists d'. split; [done|]. split; [done|].
      rewrite E'. set_solver.
Qed.

(** ** Traversal, random members and scans *)

(** [ord] is an order in which Go may traverse the hashtable of [s]. *)
Definition order_ok s (ord : list (bytes * value)) : Prop :=
  match encoding s with
  | EncodingHashtable => ∃ d, hashtable s = Some d ∧ d_order d ord
  | _ => True
  end.

Lemma is_range_collect vs acc :
  is_range_loop (λ acc v, (acc ++ [formatInt64 v], true)) vs acc = acc ++ (formatInt64 <$> vs).
Proof.
  revert acc. induction vs as [|v vs IH]; intros acc; cbn; [by rewrite app_nil_r|]. by rewrite IH, <- app_assoc.
Qed.

Lemma lp_range_collect ms acc i :
  range_spec (λ acc _ val, Ret (match val with VStr m => (acc ++ [m], true) | _ => (acc, true) end)) i (VStr <$> ms) acc
    = Ret (acc ++ ms).
Proof.
  revert acc i. induction ms as [|m ms IH]; intros acc i; cbn; [by rewrite app_nil_r|]. by rewrite IH, <- app_assoc.
Qed.

Lemma ToSlice_spec s X ord :
  set_ok s X → order_ok s ord → ∃ l, ToSlice (Some s) ord = Ret l ∧ l ≡ₚ elements X.
Proof.
  intros [Hrep _] Hord. unfold ToSlice, ForEach, set_rep, order_ok in *. destruct (encoding s) eqn:Ee.
  - destruct Hrep as (iset & -> & Hok & Hr & ->). cbn. unfold is_Range. rewrite is_range_collect.
    eexists. split; [done|]. unfold is_set. rewrite <- (list_to_set_fmap_L (C := gset Z)), elements_list_to_set; [done|].
    apply NoDup_format; [apply Hok|]. intros v Hv. apply Hr. unfold is_set. set_solver.
  - destruct Hrep as (lp & -> & ms & Hlp & Hnd & ->). cbn. rewrite (lp_Range_spec _ _ _ _ Hlp), lp_range_collect.
    eexists. split; [done|]. by rewrite elements_list_to_set.
  - destruct Hrep as (d & E & Hd & <-). rewrite E. cbn. destruct Hord as (d' & E' & Hord).
    assert (d' = d) as -> by congruence. rewrite d_ForEach_collect. eexists. split; [done|].
    rewrite (d_order_spec d ord Hd Hord). cbn. apply NoDup_Permutation.
    + apply NoDup_fst_map_to_list.
    + apply NoDup_elements.
    + intros x. rewrite elem_of_elements, elem_of_dom. rewrite list_elem_of_fmap. split.
      * intros ([k v] & -> & Hkv%elem_of_map_to_list). eauto.
      * intros [v Hv]. exists (x, v). by rewrite elem_of_map_to_list.
Qed.

(** Swapping two positions permutes a list. *)
Lemma swap_spec {A} (l : list A) i j x y :
  l !! i = Some x → l !! j = Some y → (i <= j)%nat →
  ∃ l', swap l i j = Ret l' ∧ l' ≡ₚ l ∧ l' !! i = Some y ∧ take i l' = take i l.
Proof.
  intros Hi Hj Hij. unfold swap. rewrite Hi, Hj. cbn. eexists. split; [done|].
  pose proof (lookup_lt_Some _ _ _ Hi). pose proof (lookup_lt_Some _ _ _ Hj).
  destruct (decide (i = j)) as [->|Hne].
  - assert (x = y) as -> by congruence. rewrite list_insert_insert_eq, list_insert_id by done. done.
  - split_and!.
    + by apply Permutation_insert_swap.
    + rewrite list_lookup_insert_ne by done. by apply list_lookup_insert_eq.
    + rewrite take_insert_ge, take_insert_ge by lia. done.
Qed.

Lemma rand_index_spec seed n : 0 < n < 2 ^ 32 → ∃ r, rand_index seed n = Ret r ∧ 0 <= r < n.
Proof.
  intros Hn. unfold rand_index, u32 at 1 2. rewrite (Z.mod_small n) by lia.
  destruct (Z.eqb_spec n 0); [lia|]. eexists. split; [done|]. apply Z.mod_pos_bound. lia.
Qed.

Lemma shuffle_loop_spec n i members seed :
  (i + n <= length members)%nat → Z.of_nat (length members) < 2 ^ 32 →
  ∃ members' seed', shuffle_loop n i members (take i members) seed = Ret (take (i + n) members', seed') ∧
    members' ≡ₚ members.
Proof.
  revert i members seed. induction n as [|n IH]; intros i members seed Hn Hlen; cbn [shuffle_loop].
  { rewrite Nat.add_0_r. eauto. }
  destruct (rand_index_spec seed (Z.of_nat (length members) - Z.of_nat i)) as (r & -> & Hr); [lia|].
  cbn [mbind res_bind].
  destruct (lookup_lt_is_Some_2 members i) as [x Hx]; [lia|].
  destruct (lookup_lt_is_Some_2 members (i + Z.to_nat r)) as [y Hy]; [lia|].
  destruct (swap_spec members i (i + Z.to_nat r) x y Hx Hy) as (l' & -> & Hp & Hl' & Ht); [lia|].
  cbn [mbind res_bind]. rewrite Hl'. cbn [must mbind res_bind]. rewrite <- Ht, <- (take_S_r _ _ _ Hl').
  pose proof (Permutation_length Hp) as Hlp.
  destruct (IH (S i) l' (simpleRand seed)) as (m' & seed' & -> & Hp'); [lia|lia|].
  exists m', seed'. rewrite <- Nat.add_succ_comm. split; [done|]. by rewrite Hp'.
Qed.

Lemma RandomDistinctMembers_spec s X ord limit seed :
  set_ok s X → order_ok s ord → 0 <= limit → Z.of_nat (size X) < 2 ^ 32 →
  ∃ l seed', RandomDistinctMembers (Some s) ord limit seed = Ret (l, seed') ∧
    NoDup l ∧ (∀ m, m ∈ l → m ∈ X) ∧ Z.of_nat (length l) = Z.min limit (Z.of_nat (size X)).
Proof.
  intros Hok Hord Hlim Hsz. unfold RandomDistinctMembers.
  destruct (ToSlice_spec s X ord Hok Hord) as (members & -> & Hp). cbn [mbind res_bind].
  pose proof (Permutation_length Hp) as Hlen. change (length (elements X)) with (size X) in Hlen.
  set (lim := if Z.of_nat (length members) <? limit then Z.of_nat (length members) else limit).
  assert (Hl : lim = Z.min limit (Z.of_nat (size X))) by (unfold lim; zcase; lia).
  destruct (Z.ltb_spec lim 0); [lia|].
  destruct (shuffle_loop_spec (Z.to_nat lim) 0 members seed) as (m' & seed' & E & Hp'); [lia|lia|].
  rewrite take_0 in E. rewrite E.
  exists (take (0 + Z.to_nat lim) m'), seed'. assert (Hpe : m' ≡ₚ elements X) by (by rewrite Hp').
  split_and!; [done| | |].
  - eapply sublist_NoDup; [|apply sublist_take]. rewrite Hpe. apply NoDup_elements.
  - intros m Hm. apply elem_of_elements. rewrite <- Hpe. eapply elem_of_take in Hm as (k & Hk & _).
    by eapply list_elem_of_lookup_2.
  - rewrite length_take, (Permutation_length Hpe). change (length (elements X)) with (size X). lia.
Qed.

(** ** Scans over the sorted members *)

(** What a page does: from position [i] it passes the names up to some [j],
    advances unless it is already full, and stops at the end or when full. *)
Lemma scan_loop_spec fuel all emit (out : bytes → list bytes) bound (i : nat) result :
  (∀ m, m ∈ all → emit m = Ret (out m)) → (i <= length all)%nat → (length all - i < fuel)%nat →
  ∃ j, scan_loop fuel all emit bound (Z.of_nat i) result
        = Ret (result ++ mjoin (out <$> take (j - i) (drop i all)), Z.of_nat j) ∧
    (i <= j <= length all)%nat ∧
    ((i < length all)%nat → Z.of_nat (length result) < bound → (i < j)%nat).
Proof.
  intros Hemit. revert i result. induction fuel as [|fuel IH]; intros i result Hi Hf; [lia|]. cbn [scan_loop].
  destruct (Z.ltb_spec (Z.of_nat i) (Z.of_nat (length all))) as [Hlt|Hge],
    (Z.ltb_spec (Z.of_nat (length result)) bound); cbn [andb].
  2,3,4: exists i; rewrite Nat.sub_diag; cbn; rewrite app_nil_r; split_and!; done || lia.
  destruct (Z.ltb_spec (Z.of_nat i) 0); [lia|]. rewrite Nat2Z.id.
  destruct (lookup_lt_is_Some_2 all i) as [m Hm]; [lia|]. rewrite Hm. cbn [must mbind res_bind].
  rewrite Hemit by (by eapply list_elem_of_lookup_2). cbn [mbind res_bind].
  replace (Z.of_nat i + 1) with (Z.of_nat (S i)) by lia.
  destruct (IH (S i) (result ++ out m)) as (j & -> & Hj & _); [lia|lia|].
  exists j. split_and!; [|lia|lia|lia]. rewrite (drop_S _ _ _ Hm).
  replace (j - i)%nat with (S (j - S i)) by lia. cbn. by rewrite <- app_assoc.
Qed.

(** A client's iteration: pages from cursor 0 until the cursor is 0 again. *)
Fixpoint scan_pages (page : nat → Z → res (list bytes * Z)) (fuel k : nat) (cursor : Z) : res (list bytes) :=
  match fuel with
  | O => OutOfFuel
  | S f =>
      '(r, next) ← page k cursor;
      if next =? 0 then Ret r
      else rest ← scan_pages page f (S k) next; Ret (r ++ rest)
  end.

(** Pages cut out of one list deliver exactly that list. *)
Lemma scan_pages_spec page all (out : bytes → list bytes) fuel k (i : nat) :
  (∀ k i, (i < length all)%nat → ∃ j, (i < j <= length all)%nat ∧
     page k (Z.of_nat i) = Ret (mjoin (out <$> take (j - i) (drop i all)),
                                if decide (j = length all) then 0 else Z.of_nat j)) →
  (i < length all)%nat → (length all - i <= fuel)%nat →
  scan_pages page fuel k (Z.of_nat i) = Ret (mjoin (out <$> drop i all)).
Proof.
  intros Hpage. revert k i. induction fuel as [|fuel IH]; intros k i Hi Hf; [lia|]. cbn [scan_pages].
  destruct (Hpage k i Hi) as (j & Hj & ->). cbn [mbind res_bind]. case_decide as E.
  - rewrite take_ge; [done|]. rewrite length_drop. lia.
  - destruct (Z.eqb_spec (Z.of_nat j) 0); [lia|]. rewrite IH by lia. cbn [mbind res_bind]. f_equal.
    rewrite <- (take_drop (j - i) (drop i all)) at 2. rewrite fmap_app, join_app, drop_drop.
    by replace (i + (j - i))%nat with j by lia.
Qed.

Definition scan_match (compiled : bytes → bool) (pattern m : bytes) : bool :=
  bytes_eqb pattern (str "*") || compiled m.

Lemma join_filter (f : bytes → bool) l : mjoin ((λ m, if f m then [m] else []) <$> l) = List.filter f l.
Proof.
  induction l as [|m l IH]; [done|]. cbn [List.filter]. rewrite <- IH, fmap_cons. by destruct (f m).
Qed.

Lemma SetScan_page s X ord compile compiled count pattern (i : nat) :
  set_ok s X → order_ok s ord → compile pattern = Some compiled → 0 < count →
  let all := sort_Strings (elements X) in
  (i < length all)%nat →
  ∃ j, (i < j <= length all)%nat ∧
    SetScan (Some s) ord compile (Z.of_nat i) count pattern
      = Ret (mjoin ((λ m, if scan_match compiled pattern m then [m] else []) <$> take (j - i) (drop i all)),
             if decide (j = length all) then 0 else Z.of_nat j).
Proof.
  intros Hok Hord Hcomp Hcount. cbn zeta. intros Hi. unfold SetScan.
  destruct (ToSlice_spec s X ord Hok Hord) as (l & -> & Hp). cbn [mbind res_bind].
  rewrite (sort_Strings_unique _ _ Hp), Hcomp. set (all := sort_Strings (elements X)) in *.
  destruct (Z.eqb_spec (Z.of_nat (length all)) 0); [lia|].
  destruct (scan_loop_spec (S (length all)) all
    (λ m, Ret (if bytes_eqb pattern (str "*") || compiled m then [m] else []))
    (λ m, if scan_match compiled pattern m then [m] else []) count i []) as (j & -> & Hj & Hadv); [done|lia|lia|].
  specialize (Hadv Hi Hcount). exists j. split; [lia|]. cbn [mbind res_bind app]. do 2 f_equal.
  destruct (Z.leb_spec (Z.of_nat (length all)) (Z.of_nat j)), (decide (j = length all)); done || lia.
Qed.

Lemma set_scan_all s X ords compile compiled count pattern :
  set_ok s X → (∀ k, order_ok s (ords k)) → compile pattern = Some compiled → 0 < count →
  scan_pages (λ k cursor, SetScan (Some s) (ords k) compile cursor count pattern) (S (size X)) 0 0
    = Ret (List.filter (scan_match compiled pattern) (sort_Strings (elements X))).
Proof.
  intros Hok Hord Hcomp Hcount. set (all := sort_Strings (elements X)).
  assert (Hlen : length all = size X) by apply (Permutation_length (sort_Strings_perm (elements X))).
  destruct (decide (length all = 0)%nat) as [E0|E0].
  - unfold SetScan. cbn [scan_pages]. destruct (ToSlice_spec s X (ords 0%nat) Hok (Hord 0%nat)) as (l & -> & Hp).
    cbn [mbind res_bind]. rewrite (sort_Strings_unique _ _ Hp). fold all. rewrite E0. cbn.
    by apply nil_length_inv in E0 as ->.
  - rewrite <- join_filter. apply (scan_pages_spec _ all _ _ 0 0); [|lia|lia].
    intros k i Hi. by apply (SetScan_page s X).
Qed.

(** ** Refinement: a set object is a finite set of byte strings *)

Lemma set_ok_new : set_ok (NewSet : Set_ D) ∅.
Proof.
  split; [|cbn; rewrite size_empty; lia]. exists NewIntset. split; [done|].
  split_and!; [apply is_ok_new|set_solver|reflexivity].
Qed.
End proofs.

Inductive set_cmd := SAdd (m : bytes) | SHas (m : bytes) | SRemove (m : bytes) | SLen.

Definition set_obj_step {D} `{DictOps D value} (T : EncodingThresholds)
    (s : option (Set_ D)) (c : set_cmd) : res (option (Set_ D) * Z) :=
  match c with
  | SAdd m => Add T s m
  | SHas m => b ← Has s m; Ret (s, b2z b)
  | SRemove m => Remove s m
  | SLen => n ← Len s; Ret (s, n)
  end.

Definition set_spec (X : gset bytes) (c : set_cmd) : gset bytes * Z :=
  match c with
  | SAdd m => ({[m]} ∪ X, b2z (bool_decide (m ∉ X)))
  | SHas m => (X, b2z (bool_decide (m ∈ X)))
  | SRemove m => (X ∖ {[m]}, b2z (bool_decide (m ∈ X)))
  | SLen => (X, Z.of_nat (size X))
  end.

Fixpoint set_obj_run {D} `{DictOps D value} (T : EncodingThresholds)
    (s : option (Set_ D)) (cs : list set_cmd) : res (option (Set_ D) * list Z) :=
  match cs with
  | [] => Ret (s, [])
  | c :: cs' =>
      '(s', o) ← set_obj_step T s c;
      '(s'', os) ← set_obj_run T s' cs'; Ret (s'', o :: os)
  end.

Fixpoint set_spec_run (X : gset bytes) (cs : list set_cmd) : gset bytes * list Z :=
  match cs with
  | [] => (X, [])
  | c :: cs' =>
      let '(X', o) := set_spec X c in let '(X'', os) := set_spec_run X' cs' in (X'', o :: os)
  end.

(** Members are Go strings, and there are fewer of them than memory holds. *)
Definition set_legal (cs : list set_cmd) : Prop :=
  Forall (λ c, match c with SAdd m => small m | _ => True end) cs ∧ Z.of_nat (length cs) < 2 ^ 60.

Section refinement.
Context {D : Type} `{DictLaws D value} (T : EncodingThresholds).

Lemma set_obj_run_ok cs s X :
  set_ok T s X → Forall (λ c, match c with SAdd m => small m | _ => True end) cs →
  Z.of_nat (size X + length cs) < 2 ^ 60 →
  ∃ s', set_obj_run T (Some s) cs = Ret (Some s', (set_spec_run X cs).2) ∧
    set_ok T s' (set_spec_run X cs).1.
Proof.
  revert s X. induction cs as [|c cs IH]; intros s X Hok Hl Hsz; [by exists s|].
  apply Forall_cons in Hl as [Hc Hl]. cbn [length] in Hsz. cbn [set_obj_run set_spec_run].
  enough (∃ s', set_obj_step T (Some s) c = Ret (Some s', (set_spec X c).2) ∧ set_ok T s' (set_spec X c).1 ∧
            (size (set_spec X c).1 <= S (size X))%nat) as (s' & -> & Hok' & Hsz').
  { cbn [mbind res_bind]. destruct (set_spec X c) as [X' o]. cbn [fst snd] in *.
    destruct (IH s' X' Hok' Hl) as (s'' & -> & Hok''); [lia|]. cbn [mbind res_bind].
    destruct (set_spec_run X' cs). by exists s''. }
  destruct c as [m|m|m|]; cbn [set_obj_step set_spec fst snd].
  - destruct (set_Add_spec T s m X Hok Hc) as (s' & -> & Hok'); [lia|].
    exists s'. split_and!; [done|done|apply size_add].
  - rewrite (Has_spec T s m X Hok). exists s. split_and!; [done|done|lia].
  - destruct (set_Remove_spec T s m X Hok) as (s' & -> & Hok').
    exists s'. split_and!; [done|done|]. pose proof (size_remove m X). lia.
  - rewrite (set_Len_spec T s X Hok). exists s. split_and!; [done|done|lia].
Qed.

(** C11: A set object behaves as a finite set of byte strings under every
    sequence of Add, Has, Remove and Len: the replies are those of the set,
    nothing panics, and the intset, listpack and hashtable encodings and the
    conversions between them, at any thresholds, cannot be told apart.  The
    compact encodings never exceed their limits: the numbers of members, and in
    a listpack the length of every member, except for canonical integers,
    because the conversion of an intset does not look at lengths.  While the
    encoding is intset every member is a canonical integer.  It holds for every dict that
    meets the [Dict] contract. *)
Theorem set_object_refines_set cs :
  set_legal cs →
  ∃ s, set_obj_run T (Some NewSet) cs = Ret (Some s, (set_spec_run ∅ cs).2) ∧
    set_rep s (set_spec_run ∅ cs).1 ∧ set_enc_ok T s (set_spec_run ∅ cs).1 ∧
    (CurrentEncoding s = EncIntset → ∀ m, m ∈ (set_spec_run ∅ cs).1 → (isInt m).2 = true).
Proof.
  intros [Hl Hlen]. destruct (set_obj_run_ok cs NewSet ∅ (set_ok_new T) Hl) as (s & -> & Hrep & Henc).
  { rewrite size_empty. lia. }
  exists s. split_and!; [done..|]. unfold CurrentEncoding, set_rep in *. destruct (encoding s); [|done|done].
  intros _ m Hm. destruct Hrep as (iset & _ & Hrep). destruct ((isInt m).2) eqn:E; [done|].
  by apply (isInt_false_notin iset m _ Hrep) in E.
Qed.

(** A full SSCAN iteration over a set that is not modified meanwhile, with
    any page size of at least one, returns every member that matches the
    pattern exactly once, in ascending order, and ends; this holds in every
    encoding and whatever order Go traverses the hashtable in on each page. *)
Theorem set_scan_enumerates cs s os ords compile compiled count pattern :
  set_legal cs → set_obj_run T (Some NewSet) cs = Ret (Some s, os) →
  (∀ k, order_ok s (ords k)) → compile pattern = Some compiled → 0 < count →
  let X := (set_spec_run ∅ cs).1 in
  scan_pages (λ k cursor, SetScan (Some s) (ords k) compile cursor count pattern) (S (size X)) 0 0
    = Ret (List.filter (scan_match compiled pattern) (sort_Strings (elements X))).
Proof.
  intros [Hl Hlen] Hrun Hord Hcomp Hcount.
  destruct (set_obj_run_ok cs NewSet ∅ (set_ok_new T) Hl) as (s' & E & Hok); [rewrite size_empty; lia|].
  rewrite E in Hrun. injection Hrun as -> _. by apply (set_scan_all T).
Qed.

(** SPOP and SRANDMEMBER rest on RandomDistinctMembers: for a limit of at
    least zero it returns that many members, or all when there are fewer, none
    of them twice and all of them in the set, for every state of the generator
    and every traversal order. *)
Theorem random_distinct_members cs s os ord limit seed :
  set_legal cs → set_obj_run T (Some NewSet) cs = Ret (Some s, os) → order_ok s ord →
  0 <= limit → Z.of_nat (size (set_spec_run ∅ cs).1) < 2 ^ 32 →
  let X := (set_spec_run ∅ cs).1 in
  ∃ l seed', RandomDistinctMembers (Some s) ord limit seed = Ret (l, seed') ∧
    NoDup l ∧ (∀ m, m ∈ l → m ∈ X) ∧ Z.of_nat (length l) = Z.min limit (Z.of_nat (size X)).
Proof.
  intros [Hl Hlen] Hrun Hord Hlim Hsz.
  destruct (set_obj_run_ok cs NewSet ∅ (set_ok_new T) Hl) as (s' & E & Hok); [rewrite size_empty; lia|].
  rewrite E in Hrun. injection Hrun as -> _. by apply (RandomDistinctMembers_spec T).
Qed.
(** A negative cursor, which SSCAN accepts, indexes the sorted members out
    of range: SetScan panics on every non-empty set when the page size is
    positive and the pattern compiles. *)
Theorem set_scan_negative_cursor_panics cs s os ord compile compiled cursor count pattern :
  set_legal cs → set_obj_run T (Some NewSet) cs = Ret (Some s, os) → order_ok s ord →
  (set_spec_run ∅ cs).1 ≠ ∅ → compile pattern = Some compiled → 0 < count → cursor < 0 →
  SetScan (Some s) ord compile cursor count pattern = Panic.
Proof.
  intros [Hl Hlen] Hrun Hord Hne Hcomp Hcount Hcur.
  destruct (set_obj_run_ok cs NewSet ∅ (set_ok_new T) Hl) as (s' & E & Hok); [rewrite size_empty; lia|].
  rewrite E in Hrun. injection Hrun as -> _. unfold SetScan.
  destruct (ToSlice_spec T s _ ord Hok Hord) as (l & -> & Hp). cbn [mbind res_bind].
  assert (Hsz : (0 < length (sort_Strings l))%nat).
  { rewrite (Permutation_length (sort_Strings_perm l)), (Permutation_length Hp).
    change (0 < size (set_spec_run ∅ cs).1)%nat. rewrite <- leibniz_equiv_iff in Hne. apply size_non_empty_iff in Hne. lia. }
  destruct (Z.eqb_spec (Z.of_nat (length (sort_Strings l))) 0); [lia|]. rewrite Hcomp. cbn [scan_loop length].
  destruct (Z.ltb_spec cursor (Z.of_nat (length (sort_Strings l)))); [|lia].
  destruct (Z.ltb_spec (Z.of_nat 0) count); [|lia]. destruct (Z.ltb_spec cursor 0); [done|lia].
Qed.
End refinement.

(** Small limits drive one script through the three encodings. *)
Definition set_script : list set_cmd :=
  [SAdd (str "7"); SAdd (str "-3"); SAdd (str "7"); SAdd (str "x"); SHas (str "-3"); SAdd (str "y");
   SAdd (str "z"); SRemove (str "7"); SLen].
Definition set_script_T : EncodingThresholds := MkThresholds 128 64 2 4 64 128 64 128.

Abbreviation simple := (@SimpleDict.t value).

Lemma set_script_legal : set_legal set_script.
Proof. split; [repeat (apply Forall_cons; split); done|done]. Defined.

Lemma set_object_refines_set_witness :
  ∃ s, set_obj_run (D := simple) set_script_T (Some NewSet) set_script
         = Ret (Some s, [1; 1; 0; 1; 1; 1; 1; 1; 4]).
Proof.
  destruct (set_object_refines_set (D := simple) set_script_T set_script set_script_legal)
    as (s & E & _).
  exists s. rewrite E. vm_compute. reflexivity.
Defined.

(** With a length limit of 2 the conversion of an intset puts an integer of
    three digits into a listpack; added to a listpack it makes a hashtable. *)
Lemma long_integers_enter_listpack :
  let T := MkThresholds 128 64 2 4 2 128 64 128 in
  (CurrentEncoding <$> (set_obj_run (D := simple) T (Some NewSet) [SAdd (str "123"); SAdd (str "x")] ≫= λ r, must r.1)) = Ret EncListpack ∧
  (CurrentEncoding <$> (set_obj_run (D := simple) T (Some NewSet) [SAdd (str "x"); SAdd (str "123")] ≫= λ r, must r.1)) = Ret EncHashtable.
Proof. split; vm_compute; reflexivity. Qed.

Definition set_script_end : res (option (Set_ simple) * list Z) :=
  set_obj_run (D := simple) set_script_T (Some NewSet) [SAdd (str "7"); SAdd (str "x")].

Lemma set_scan_enumerates_witness :
  ∃ s, set_script_end = Ret (Some s, [1; 1]) ∧
    scan_pages (λ k cursor, SetScan (Some s) [] (λ _, Some (λ _, true)) cursor 1 (str "*")) 3 0 0
      = Ret [str "7"; str "x"].
Proof.
  eexists. split; [vm_compute; reflexivity|].
  etransitivity.
  { refine (set_scan_enumerates (D := simple) set_script_T
      [SAdd (str "7"); SAdd (str "x")] _ [1; 1] (λ _, []) (λ _, Some (λ _, true)) (λ _, true) 1 (str "*")
      _ _ _ eq_refl _).
    - split; [repeat (apply Forall_cons; split); done|done].
    - vm_compute. reflexivity.
    - intros k. exact I.
    - reflexivity. }
  vm_compute. reflexivity.
Defined.

Lemma random_distinct_members_witness :
  ∃ s, set_script_end = Ret (Some s, [1; 1]) ∧
    ∃ l seed', RandomDistinctMembers (Some s) [] 1 12345 = Ret (l, seed') ∧ length l = 1%nat.
Proof.
  eexists. split; [vm_compute; reflexivity|].
  match goal with |- ∃ l seed', RandomDistinctMembers (Some ?s) _ _ _ = _ ∧ _ =>
    destruct (random_distinct_members (D := simple) set_script_T
      [SAdd (str "7"); SAdd (str "x")] s [1; 1] [] 1 12345) as (l & seed' & E & _ & _ & Hlen) end.
  - split; [repeat (apply Forall_cons; split); done|done].
  - vm_compute. reflexivity.
  - exact I.
  - lia.
  - vm_compute. reflexivity.
  - exists l, seed'. split; [exact E|]. assert (Hm : Z.min 1 (Z.of_nat (size
      (set_spec_run ∅ [SAdd (str "7"); SAdd (str "x")]).1)) = 1) by (vm_compute; reflexivity). lia.
Defined.

Lemma set_scan_negative_cursor_panics_witness :
  ∃ s, set_script_end = Ret (Some s, [1; 1]) ∧
    SetScan (Some s) [] (λ _, Some (λ _, true)) (-1) 10 (str "*") = Panic.
Proof.
  eexists. split; [vm_compute; reflexivity|].
  refine (set_scan_negative_cursor_panics (D := simple) set_script_T
      [SAdd (str "7"); SAdd (str "x")] _ [1; 1] [] (λ _, Some (λ _, true)) (λ _, true) (-1) 10 (str "*")
      _ _ _ _ eq_refl _ _).
  - split; [repeat (apply Forall_cons; split); done|done].
  - vm_compute. reflexivity.
  - exact I.
  - intros E. apply (f_equal size) in E. vm_compute in E. discriminate E.
  - lia.
  - lia.
Defined.
