(* ===== verification/Pairs.v ===== *)
(** * Listpacks of pairs

    Hash and sorted-set objects keep their compact form as a listpack that
    alternates keys and values.  The loops over such listpacks, which
    [internal/object/encoding.go] repeats in [Hash] and [ZSet], are here with
    their meaning on the list of pairs. *)

From stdpp Require Import base gmap list strings.
From Stdlib Require Import ZArith Lia.
From S2P Require Import Prelude Listpack.

Local Open Scope Z_scope.

(** The search closure: a key equal to [key] at an even index. *)
Definition pair_found (lp : Listpack) (key : bytes) : res bool :=
  lp_Range lp (λ found i val,
    Ret (if Z.rem i 2 =? 0
         then match val with
              | VStr s => if bytes_eqb s key then (true, false) else (found, true)
              | _ => (found, true)
              end
         else (found, true))) false.

(** The loop [for i := 0; i < lp.Len(); i += 2]. *)
Definition pair_loop {A} (lp : Listpack) (body : A → Z → res (A * bool)) (st : A) : res A :=
  for_loop (Nat.div2 (S (lp_num lp))) 0 2 body st.

(** Rebuild the listpack without the pairs that [skip] selects, as the two
    [Remove]s do; [app_val] is their [switch] on the value. *)
Definition pair_remove (app_val : Listpack → value → Listpack) (lp : Listpack) (skip : bytes → bool)
    : res (Listpack * bool) :=
  pair_loop lp (λ '(newLp, removed) i,
    '(val, ok) ← lp_Get lp i;
    if negb ok then Ret ((newLp, removed), false)
    else
      match val with
      | VStr s =>
          if skip s then Ret ((newLp, true), true)
          else
            let newLp1 := AppendStr newLp s in
            '(value, ok2) ← lp_Get lp (i + 1);
            Ret ((if ok2 : bool then app_val newLp1 value else newLp1, removed), true)
      | _ => Ret ((newLp, removed), true)
      end) (NewListpack, false).

(** The rebuilding loop of the range removals, which appends a key only
    together with its value. *)
Definition pair_filter (lp : Listpack) (skip : bytes → bool) : res Listpack :=
  pair_loop lp (λ newLp i,
    '(val, ok) ← lp_Get lp i;
    if negb ok then Ret (newLp, false)
    else
      match val with
      | VStr s =>
          if skip s then Ret (newLp, true)
          else
            '(value, ok2) ← lp_Get lp (i + 1);
            Ret (match value with
                 | VStr v => if ok2 : bool then AppendStr (AppendStr newLp s) v else newLp
                 | _ => newLp
                 end, true)
      | _ => Ret (newLp, true)
      end) NewListpack.

(** Rebuild with the value of [key] replaced by [new]. *)
Definition pair_update (lp : Listpack) (key new : bytes) : res Listpack :=
  lp_Range lp (λ newLp i val,
    if Z.rem i 2 =? 0 then
      Ret (match val with VStr s => AppendStr newLp s | _ => newLp end, true)
    else
      match val with
      | VStr s =>
          if 0 <? i then
            '(prevVal, _) ← lp_Get lp (i - 1);
            Ret (AppendStr newLp (match prevVal with
                                  | VStr p => if bytes_eqb p key then new else s
                                  | _ => s end), true)
          else Ret (AppendStr newLp s, true)
      | _ => Ret (newLp, true)
      end) NewListpack.

(** ** The pairs a listpack holds *)

Definition flat (ps : list (bytes * bytes)) : list value := ps ≫= λ '(k, v), [VStr k; VStr v].

Definition pairs_rep (lp : Listpack) (ps : list (bytes * bytes)) : Prop := lp_rep lp (flat ps).

Lemma flat_cons k v ps : flat ((k, v) :: ps) = VStr k :: VStr v :: flat ps.
Proof. done. Qed.

Lemma flat_app ps qs : flat (ps ++ qs) = flat ps ++ flat qs.
Proof. apply bind_app. Qed.

Lemma flat_snoc ps k v : flat (ps ++ [(k, v)]) = (flat ps ++ [VStr k]) ++ [VStr v].
Proof. rewrite flat_app. cbn. by rewrite <- app_assoc. Qed.

Lemma length_flat ps : length (flat ps) = (2 * length ps)%nat.
Proof. induction ps as [|[k v] ps IH]; [done|]. rewrite flat_cons. cbn [length]. lia. Qed.

Lemma flat_lookup ps i k v :
  ps !! i = Some (k, v) → flat ps !! (2 * i)%nat = Some (VStr k) ∧ flat ps !! (2 * i + 1)%nat = Some (VStr v).
Proof.
  revert i. induction ps as [|[k' v'] ps IH]; intros [|i]; cbn; try done; [by intros [= -> ->]|].
  intros [H1 H2]%IH. replace (i + S (i + 0))%nat with (S (2 * i)) by lia.
  replace (S (2 * i) + 1)%nat with (S (2 * i + 1)) by lia. cbn. by rewrite <- H1, <- H2.
Qed.

Lemma pair_get_key lp ps (i : nat) k v :
  pairs_rep lp ps → ps !! i = Some (k, v) →
  lp_Get lp (2 * Z.of_nat i) = Ret (VStr k, true) ∧ lp_Get lp (2 * Z.of_nat i + 1) = Ret (VStr v, true).
Proof.
  intros H Hi. destruct (flat_lookup _ _ _ _ Hi) as [H1 H2].
  replace (2 * Z.of_nat i) with (Z.of_nat (2 * i)) by lia.
  replace (Z.of_nat (2 * i) + 1) with (Z.of_nat (2 * i + 1)) by lia.
  rewrite !(lp_Get_nat lp (flat ps)) by done. by rewrite H1, H2.
Qed.

Lemma pair_small lp ps (i : nat) k v : pairs_rep lp ps → ps !! i = Some (k, v) → small k ∧ small v.
Proof.
  intros [_ _ H] Hi. destruct (flat_lookup _ _ _ _ Hi) as [H1 H2].
  split; [exact (proj1 (Forall_lookup _ _) H _ _ H1)|exact (proj1 (Forall_lookup _ _) H _ _ H2)].
Qed.

Lemma pairs_new : pairs_rep NewListpack [].
Proof. apply lp_rep_new. Qed.

Lemma pairs_append lp ps k v :
  pairs_rep lp ps → small k → small v → pairs_rep (AppendStr (AppendStr lp k) v) (ps ++ [(k, v)]).
Proof. intros. unfold pairs_rep. rewrite flat_snoc. apply lp_rep_append_str; [|done]. by apply lp_rep_append_str. Qed.

Lemma pairs_num lp ps : pairs_rep lp ps → lp_num lp = (2 * length ps)%nat.
Proof. intros [_ H _]. by rewrite H, length_flat. Qed.

Lemma pairs_len lp ps : pairs_rep lp ps → Z.quot (lp_Len lp) 2 = Z.of_nat (length ps).
Proof.
  intros H. unfold lp_Len. rewrite (pairs_num _ _ H), Nat2Z.inj_mul, Z.mul_comm. by rewrite Z.quot_mul.
Qed.

Lemma rem_even i : 0 <= i → Z.rem (2 * i) 2 = 0.
Proof. intros. rewrite Z.rem_mod_nonneg by lia. rewrite Z.mul_comm. apply Z_mod_mult. Qed.

Lemma rem_odd i : 0 <= i → Z.rem (2 * i + 1) 2 = 1.
Proof.
  intros. rewrite Z.rem_mod_nonneg by lia. rewrite Z.add_comm, Z.mul_comm, Z_mod_plus_full. done.
Qed.

(** A [Range] over pairs: one step for the key and one for the value. *)
Lemma range_pair {A} (fn : A → Z → value → res (A * bool)) i k v ps st :
  range_spec fn i (flat ((k, v) :: ps)) st =
    '(st1, go1) ← fn st i (VStr k);
    if go1 : bool then
      '(st2, go2) ← fn st1 (i + 1) (VStr v);
      if go2 : bool then range_spec fn (i + 2) (flat ps) st2 else Ret st2
    else Ret st1.
Proof.
  rewrite flat_cons. cbn [range_spec]. destruct (fn st i (VStr k)) as [[st1 []]| |]; [|done..]. cbn [mbind res_bind].
  destruct (fn st1 (i + 1) (VStr v)) as [[st2 []]| |]; [|done..]. cbn [mbind res_bind].
  by replace (i + 1 + 1) with (i + 2) by lia.
Qed.

(** The invariant rule for [pair_loop]. *)
Lemma pair_loop_inv {A} lp ps (P : list (bytes * bytes) → A → Prop) (Q : A → Prop) body st :
  pairs_rep lp ps → P [] st →
  (∀ i st k v, ps !! i = Some (k, v) → P (take i ps) st →
     ∃ st' go, body st (2 * Z.of_nat i) = Ret (st', go) ∧ if go : bool then P (take i ps ++ [(k, v)]) st' else Q st') →
  (∀ st, P ps st → Q st) →
  ∃ st', pair_loop lp body st = Ret st' ∧ Q st'.
Proof.
  intros Hlp H0 Hb HQ. unfold pair_loop. rewrite (pairs_num _ _ Hlp).
  replace (Nat.div2 (S (2 * length ps))) with (length ps) by (by rewrite Nat.div2_succ_double).
  apply (for_loop_inv_break (λ i st, P (take i ps) st)); [done| |].
  - intros i s Hi HP. destruct (lookup_lt_is_Some_2 ps i Hi) as [[k v] Hkv].
    destruct (Hb i s k v Hkv HP) as (s' & go & E & Hgo). rewrite Z.add_0_l. exists s', go. split; [done|].
    destruct go; [|done]. by rewrite (take_S_r _ _ _ Hkv).
  - intros s HP. apply HQ. by rewrite firstn_all in HP.
Qed.

(** ** Meaning of the loops *)

Lemma pair_found_spec lp ps key : pairs_rep lp ps → pair_found lp key = Ret (bool_decide (key ∈ ps.*1)).
Proof.
  intros H. unfold pair_found. rewrite (lp_Range_spec _ _ _ _ H). clear H.
  enough (H : ∀ i, 0 <= i → range_spec (λ found i val,
    Ret (if Z.rem i 2 =? 0
         then match val with
              | VStr s => if bytes_eqb s key then (true, false) else (found, true)
              | _ => (found, true)
              end
         else (found, true))) (2 * i) (flat ps) false = Ret (bool_decide (key ∈ ps.*1))) by apply (H 0 ltac:(lia)).
  induction ps as [|[k v] ps IH]; intros i Hi; [done|]. rewrite range_pair, rem_even by done. cbn [mbind res_bind Z.eqb].
  destruct (bytes_eqb k key) eqn:E; cbn [fmap list_fmap fst].
  - apply bytes_eqb_eq in E as ->. by rewrite bool_decide_eq_true_2 by set_solver.
  - apply bytes_eqb_ne in E. rewrite rem_odd by done. cbn [Z.eqb].
    replace (2 * i + 2) with (2 * (i + 1)) by lia. rewrite IH by lia. f_equal. apply bool_decide_ext. set_solver.
Qed.

Lemma pair_remove_spec app_val lp ps skip :
  pairs_rep lp ps → (∀ l v, app_val l (VStr v) = AppendStr l v) →
  ∃ lp', pair_remove app_val lp skip = Ret (lp', existsb skip ps.*1) ∧
    pairs_rep lp' (List.filter (λ p, negb (skip p.1)) ps).
Proof.
  intros Hlp Happ. unfold pair_remove. match goal with |- ∃ _, pair_loop _ ?body ?st = _ ∧ _ =>
    destruct (pair_loop_inv lp ps
      (λ qs s, s.2 = existsb skip qs.*1 ∧ pairs_rep s.1 (List.filter (λ p, negb (skip p.1)) qs))
      (λ s, s.2 = existsb skip ps.*1 ∧ pairs_rep s.1 (List.filter (λ p, negb (skip p.1)) ps)) body st)
      as ([lp' b] & -> & Hb & Hrep) end; [done|split; [done|apply pairs_new]| |done|].
  - intros i [l b] k v Hkv [Hb Hrep]. destruct (pair_get_key _ _ _ _ _ Hlp Hkv) as [-> Hv]. cbn [mbind res_bind negb].
    destruct (pair_small _ _ _ _ _ Hlp Hkv). cbn [fst snd] in *.
    rewrite fmap_app, existsb_app, List.filter_app. cbn [fmap list_fmap existsb List.filter fst snd].
    destruct (skip k); cbn [negb].
    + eexists _, true. split; [done|]. cbn. by rewrite orb_true_r, app_nil_r.
    + rewrite Hv. cbn [mbind res_bind]. eexists _, true. split; [done|]. cbn [fst snd orb]. rewrite orb_false_r.
      split; [done|]. rewrite Happ. by apply pairs_append.
  - cbn in *. exists lp'. by rewrite Hb.
Qed.

Lemma pair_filter_spec lp ps skip :
  pairs_rep lp ps →
  ∃ lp', pair_filter lp skip = Ret lp' ∧ pairs_rep lp' (List.filter (λ p, negb (skip p.1)) ps).
Proof.
  intros Hlp. unfold pair_filter.
  apply (pair_loop_inv lp ps (λ qs l, pairs_rep l (List.filter (λ p, negb (skip p.1)) qs))); [done|apply pairs_new| |done].
  intros i l k v Hkv Hrep. destruct (pair_get_key _ _ _ _ _ Hlp Hkv) as [-> Hv]. cbn [mbind res_bind negb].
  destruct (pair_small _ _ _ _ _ Hlp Hkv). rewrite List.filter_app. cbn [List.filter fst].
  destruct (skip k); cbn [negb].
  - eexists _, true. split; [done|]. by rewrite app_nil_r.
  - rewrite Hv. cbn. eexists _, true. split; [done|]. by apply pairs_append.
Qed.

(** Replacing the value of [key]. *)
Definition upd (key new : bytes) (p : bytes * bytes) : bytes * bytes :=
  if bytes_eqb p.1 key then (p.1, new) else p.

Lemma pair_update_from lp ps key new qs rs l :
  pairs_rep lp ps → ps = qs ++ rs → pairs_rep l (upd key new <$> qs) → small new →
  ∃ l', range_spec (λ newLp i val,
      if Z.rem i 2 =? 0 then
        Ret (match val with VStr s => AppendStr newLp s | _ => newLp end, true)
      else
        match val with
        | VStr s =>
            if 0 <? i then
              '(prevVal, _) ← lp_Get lp (i - 1);
              Ret (AppendStr newLp (match prevVal with
                                    | VStr p => if bytes_eqb p key then new else s
                                    | _ => s end), true)
            else Ret (AppendStr newLp s, true)
        | _ => Ret (newLp, true)
        end) (2 * Z.of_nat (length qs)) (flat rs) l = Ret l' ∧ pairs_rep l' (upd key new <$> ps).
Proof.
  intros Hlp Hps Hl Hnew. revert qs l Hps Hl. induction rs as [|[k v] rs IH]; intros qs l Hps Hl.
  { exists l. by rewrite app_nil_r in Hps; subst. }
  assert (Hkv : ps !! length qs = Some (k, v)) by (subst; by apply list_lookup_middle).
  destruct (pair_get_key _ _ _ _ _ Hlp Hkv) as [Hk _]. destruct (pair_small _ _ _ _ _ Hlp Hkv).
  rewrite range_pair, rem_even, rem_odd by lia. cbn [mbind res_bind Z.eqb].
  destruct (Z.ltb_spec 0 (2 * Z.of_nat (length qs) + 1)); [|lia].
  replace (2 * Z.of_nat (length qs) + 1 - 1) with (2 * Z.of_nat (length qs)) by lia. rewrite Hk. cbn [mbind res_bind].
  replace (2 * Z.of_nat (length qs) + 2) with (2 * Z.of_nat (length (qs ++ [(k, v)]))) by (rewrite length_app; cbn; lia).
  apply IH.
  - by rewrite Hps, <- app_assoc.
  - rewrite fmap_app. cbn. unfold upd at 2. cbn. destruct (bytes_eqb k key); by apply pairs_append.
Qed.

Lemma pair_update_spec lp ps key new :
  pairs_rep lp ps → small new →
  ∃ lp', pair_update lp key new = Ret lp' ∧ pairs_rep lp' (upd key new <$> ps).
Proof.
  intros Hlp Hnew. unfold pair_update. rewrite (lp_Range_spec _ _ _ _ Hlp).
  apply (pair_update_from lp ps key new [] ps); [done|done|apply pairs_new|done].
Qed.

(** ** Pairs as a map *)

Lemma upd_keys key new ps : (upd key new <$> ps).*1 = ps.*1.
Proof.
  induction ps as [|[k v] ps IH]; [done|]. cbn. rewrite IH. f_equal. unfold upd. cbn. by destruct (bytes_eqb k key).
Qed.

Lemma upd_map key new ps :
  NoDup ps.*1 → key ∈ ps.*1 →
  list_to_map (M := gmap bytes bytes) (upd key new <$> ps) = <[key := new]> (list_to_map ps).
Proof.
  induction ps as [|[k v] ps IH]; cbn [fmap list_fmap fst]; intros Hnd Hin; [by apply not_elem_of_nil in Hin|].
  apply NoDup_cons in Hnd as [Hk Hnd]. unfold upd at 1. cbn [fst]. destruct (bytes_eqb k key) eqn:E.
  - apply bytes_eqb_eq in E as ->. cbn. rewrite insert_insert_eq. f_equal.
    clear IH Hin Hnd. induction ps as [|[k v'] ps IH]; [done|]. cbn in Hk. cbn. apply not_elem_of_cons in Hk as [Hne Hk].
    rewrite IH by done. unfold upd. cbn. assert (bytes_eqb k key = false) as -> by (by apply bytes_eqb_ne). done.
  - apply bytes_eqb_ne in E. cbn. rewrite insert_insert_ne by done. f_equal. apply IH; [done|set_solver].
Qed.

Lemma filter_map key (ps : list (bytes * bytes)) :
  list_to_map (M := gmap bytes bytes) (List.filter (λ p, negb (bytes_eqb p.1 key)) ps) = delete key (list_to_map ps).
Proof.
  induction ps as [|[k v] ps IH]; [symmetry; apply delete_empty|]. cbn. destruct (bytes_eqb k key) eqn:E; cbn.
  - apply bytes_eqb_eq in E as ->. by rewrite delete_insert_eq.
  - apply bytes_eqb_ne in E. rewrite delete_insert_ne by done. by rewrite IH.
Qed.

Lemma NoDup_filter_keys (f : bytes * bytes → bool) ps : NoDup ps.*1 → NoDup (List.filter f ps).*1.
Proof.
  induction ps as [|[k v] ps IH]; [done|]. cbn. intros [Hk Hnd]%NoDup_cons. destruct (f (k, v)); cbn; [|by apply IH].
  constructor; [|by apply IH]. intros Hin. apply Hk. apply list_elem_of_fmap in Hin as ([k' v'] & -> & Hin).
  apply list_elem_of_fmap. exists (k', v'). split; [done|]. apply list_elem_of_In, filter_In in Hin as [Hin _].
  by apply list_elem_of_In.
Qed.

Lemma keys_lookup ps key : key ∈ ps.*1 ↔ is_Some ((list_to_map ps : gmap bytes bytes) !! key).
Proof.
  split.
  - intros Hin. destruct (list_to_map ps !! key) eqn:E; [eauto|]. by apply not_elem_of_list_to_map in E.
  - intros [v Hv]. apply elem_of_list_to_map_2 in Hv. by apply (list_elem_of_fmap_2 fst) in Hv.
Qed.

Lemma existsb_key key (ps : list (bytes * bytes)) : existsb (λ k, bytes_eqb k key) ps.*1 = bool_decide (key ∈ ps.*1).
Proof.
  induction ps as [|[k v] ps IH]; [done|]. cbn. rewrite IH. destruct (bytes_eqb k key) eqn:E.
  - apply bytes_eqb_eq in E as ->. symmetry. apply bool_decide_eq_true_2. set_solver.
  - apply bytes_eqb_ne in E. apply bool_decide_ext. set_solver.
Qed.

Lemma size_pairs (ps : list (bytes * bytes)) :
  NoDup ps.*1 → size (list_to_map ps : gmap bytes bytes) = length ps.
Proof.
  induction ps as [|[k v] ps IH]; [done|]. cbn. intros [Hk Hnd]%NoDup_cons.
  rewrite map_size_insert_None, IH; [done|done|]. by apply not_elem_of_list_to_map.
Qed.
