(* ===== verification/ObjHash.v ===== *)
(** * Hash objects: [Hash] of [internal/object/encoding.go], [hash.go], [hashex.go]

    A hash is a listpack of field/value pairs while it is small and a dict
    after that, with an optional table of field expiry times on the side.  The
    abstract value is a finite map from fields to byte strings, the same for
    both encodings. *)

From stdpp Require Import base gmap list strings sorting.
From Stdlib Require Import ZArith Lia.
From S2P Require Import Prelude GoText Listpack Pairs Dict RedisDict ObjString ObjSet.

Local Open Scope Z_scope.

Record Hash_ {D : Type} := MkHash {
  listpack : option Listpack;
  hashtable : option D;
  isListpack : bool;
  fieldExpire : option (gmap bytes Z)
}.
Arguments Hash_ : clear implicits.
Arguments MkHash {D}.

Section ops.
Context {D : Type} `{DictOps D value} (Thresholds : EncodingThresholds).
Implicit Types (h : Hash_ D) (field : bytes) (val : value).

Definition NewHash : Hash_ D := MkHash (Some NewListpack) None true None.

Definition NewHashFromDict (d : D) : Hash_ D := MkHash None (Some d) false None.

Definition Get h field : res (value * bool) :=
  if isListpack h then
    lp ← must (listpack h);
    r ← pair_loop lp (λ (st : option (value * bool)) i,
      '(val, ok) ← lp_Get lp i;
      if negb ok then Ret (st, false)
      else
        match val with
        | VStr s =>
            if bytes_eqb s field then
              '(v, ok2) ← lp_Get lp (i + 1);
              Ret (Some (if ok2 : bool then (v, true) else (VNil, false)), false)
            else Ret (st, true)
        | _ => Ret (st, true)
        end) None;
    Ret (default (VNil, false) r)
  else
    d ← must (hashtable h);
    o ← d_Get d field;
    Ret (match o with Some v => (v, true) | None => (VNil, false) end).

(** The [switch] that stores a value in a listpack. *)
Definition val_str val : bytes :=
  match val with VBytes v => v | VStr v => v | _ => [] end.

Definition with_lp h (lp : Listpack) : Hash_ D := MkHash (Some lp) (hashtable h) (isListpack h) (fieldExpire h).
Definition with_dict h (d : D) : Hash_ D := MkHash (listpack h) (Some d) (isListpack h) (fieldExpire h).

Definition convertToHashtable h : res (Hash_ D) :=
  lp ← must (listpack h);
  '(newDict, _) ← lp_Range lp (λ '(d, field) i val,
    if Z.rem i 2 =? 0 then
      Ret ((d, match val with VStr s => s | _ => field end), true)
    else
      match val with
      | VStr v => '(d', _) ← d_Put d field (VBytes v); Ret ((d', field), true)
      | VBytes v => '(d', _) ← d_Put d field (VBytes v); Ret ((d', field), true)
      | _ => Ret ((d, field), true)
      end) (d_make, []);
  Ret (MkHash None (Some newDict) false (fieldExpire h)).

Definition maybeConvertToHashtable h field val : res (Hash_ D) :=
  lp ← must (listpack h);
  if (HashMaxListpackEntries Thresholds <? Z.quot (lp_Len lp) 2)
     || (HashMaxListpackValue Thresholds <? Z.of_nat (length field))
     || (HashMaxListpackValue Thresholds <? elemLen val)
  then convertToHashtable h else Ret h.

Definition rebuildListpackWithUpdate h field val : res (Hash_ D) :=
  lp ← must (listpack h);
  lp' ← pair_update lp field (val_str val);
  Ret (with_lp h lp').

Definition add_pair h field val : res (Hash_ D * Z) :=
  lp ← must (listpack h);
  h' ← maybeConvertToHashtable (with_lp h (AppendStr (AppendStr lp field) (val_str val))) field val;
  Ret (h', 1).

Definition Put h field val : res (Hash_ D * Z) :=
  if isListpack h then
    lp ← must (listpack h);
    found ← pair_found lp field;
    if found : bool then
      h1 ← rebuildListpackWithUpdate h field val;
      h2 ← maybeConvertToHashtable h1 field val;
      Ret (h2, 0)
    else add_pair h field val
  else
    d ← must (hashtable h);
    '(d', r) ← d_Put d field val;
    Ret (with_dict h d', r).

Definition PutIfAbsent h field val : res (Hash_ D * Z) :=
  if isListpack h then
    lp ← must (listpack h);
    found ← pair_found lp field;
    if found : bool then Ret (h, 0) else add_pair h field val
  else
    d ← must (hashtable h);
    '(d', r) ← d_PutIfAbsent d field val;
    Ret (with_dict h d', r).

(** The listpack branch hands back the field name, the hashtable branch the
    removed value. *)
Definition Remove h field : res (Hash_ D * value * Z) :=
  if isListpack h then
    lp ← must (listpack h);
    '(newLp, removed) ← pair_remove (λ l v,
      match v with VStr s => AppendStr l s | VInt n => AppendInt l n | _ => l end) lp
      (λ s, bytes_eqb s field);
    if negb removed then Ret (h, VNil, 0) else Ret (with_lp h newLp, VStr field, 1)
  else
    d ← must (hashtable h);
    '(d', v, r) ← d_Remove d field;
    Ret (with_dict h d', default VNil v, r).

Definition Len h : res Z :=
  if isListpack h then lp ← must (listpack h); Ret (Z.quot (lp_Len lp) 2)
  else d ← must (hashtable h); d_Len d.

(** [ord] is the order in which a hashtable is traversed. *)
Definition ForEach {S} h (fn : S → bytes → value → S * bool) (ord : list (bytes * value)) (st : S) : res S :=
  if isListpack h then
    lp ← must (listpack h);
    '(st', _) ← lp_Range lp (λ '(s, field) i val,
      if Z.rem i 2 =? 0 then Ret ((s, match val with VStr f => f | _ => field end), true)
      else let '(s', go) := fn s field val in Ret ((s', field), go)) (st, []);
    Ret st'
  else
    _ ← must (hashtable h); Ret (d_ForEach fn ord st).

Definition CurrentEncoding h : Encoding :=
  if isListpack h then
    match fieldExpire h with
    | Some m => if decide (size m = 0%nat) then EncListpack else EncListpackEx
    | None => EncListpack
    end
  else EncHashtable.

Definition GetAsDict h : res (Hash_ D * D) :=
  h' ← (if isListpack h then convertToHashtable h else Ret h);
  d ← must (hashtable h'); Ret (h', d).

(** ** [hash.go] *)

Definition Keys h (ord : list (bytes * value)) : res (list bytes) :=
  ForEach h (λ acc f _, (acc ++ [f], true)) ord [].

Definition RandomDistinctKeys h (ord : list (bytes * value)) (limit : Z) : res (list bytes) :=
  n ← Len h;
  let size := if n <? limit then n else limit in
  if size <? 0 then Panic
  else ForEach h (λ result f _,
    if size <=? Z.of_nat (length result) then (result, false) else (result ++ [f], true)) ord [].

Definition RandomKeys h (ord : list (bytes * value)) (limit : Z) : res (list bytes) :=
  if limit <? 0 then Panic
  else
    allKeys ← Keys h ord;
    match allKeys with
    | [] => Ret []
    | _ =>
        for_loop (Z.to_nat limit) 0 1 (λ result i,
          k ← must (allKeys !! Z.to_nat (Z.rem i (Z.of_nat (length allKeys))));
          Ret (result ++ [k], true)) []
    end.

Definition Scan h (ord : list (bytes * value)) (compile : bytes → option (bytes → bool))
    (cursor count : Z) (pattern : bytes) : res (list bytes * Z) :=
  keys ← Keys h ord;
  let allKeys := sort_Strings keys in
  let total := Z.of_nat (length allKeys) in
  if total =? 0 then Ret ([], 0)
  else
    match compile pattern with
    | None => Ret ([], -1)
    | Some matchKey =>
        '(result, i) ← scan_loop (S (length allKeys)) allKeys (λ k,
          if bytes_eqb pattern (str "*") || matchKey k then
            '(val, ok) ← Get h k;
            Ret (if ok : bool then [k; val_str val] else [])
          else Ret []) (wrap64 (count * 2)) cursor [];
        Ret (result, if total <=? i then 0 else i)
    end.

(** ** Field expiry, [hashex.go] *)

Definition with_expire h (m : gmap bytes Z) : Hash_ D := MkHash (listpack h) (hashtable h) (isListpack h) (Some m).

Definition SetFieldExpire h field (expireAtMs : Z) : Hash_ D :=
  with_expire h (<[field := expireAtMs]> (default ∅ (fieldExpire h))).

Definition FieldExpire h field : Z * bool :=
  match fieldExpire h with
  | None => (0, false)
  | Some m => match m !! field with Some exp => (exp, true) | None => (0, false) end
  end.

Definition PersistField h field : Hash_ D * bool :=
  match fieldExpire h with
  | None => (h, false)
  | Some m => match m !! field with
              | Some _ => (with_expire h (delete field m), true)
              | None => (h, false)
              end
  end.

(** The loop over the expiry table in the order [ord]; only the entry at hand
    is deleted from it. *)
Fixpoint purge_loop (nowMs : Z) (ord : list (bytes * Z)) h (expired : list bytes) : res (Hash_ D * list bytes) :=
  match ord with
  | [] => Ret (h, expired)
  | (field, exp) :: ord' =>
      if exp <=? nowMs then
        '(h1, _, _) ← Remove h field;
        purge_loop nowMs ord' (with_expire h1 (delete field (default ∅ (fieldExpire h1)))) (expired ++ [field])
      else purge_loop nowMs ord' h expired
  end.

Definition PurgeExpiredFields h (nowMs : Z) (ord : list (bytes * Z)) : res (Hash_ D * list bytes) :=
  match fieldExpire h with
  | None => Ret (h, [])
  | Some _ => purge_loop nowMs ord h []
  end.

Definition HasFieldExpiries h : bool :=
  match fieldExpire h with Some m => negb (bool_decide (size m = 0%nat)) | None => false end.

Definition FieldExpireCount h : Z :=
  match fieldExpire h with Some m => Z.of_nat (size m) | None => 0 end.
End ops.

(** ** Abstract value *)

Section proofs.
Context {D : Type} `{DictLaws D value} (T : EncodingThresholds).
Implicit Types (h : Hash_ D) (m : gmap bytes bytes) (f b : bytes).

Definition rep_lp (lp : Listpack) m : Prop :=
  ∃ ps, pairs_rep lp ps ∧ NoDup ps.*1 ∧ m = list_to_map ps.

Definition rep_dict (d : D) m : Prop := d_inv d ∧ d_map d = VBytes <$> m.

(** The hash object [h] holds the map [m]. *)
Definition hash_rep h m : Prop :=
  if isListpack h then ∃ lp, listpack h = Some lp ∧ rep_lp lp m
  else ∃ d, hashtable h = Some d ∧ rep_dict d m.

(** A listpack-encoded hash is within the limits, in number and in length. *)
Definition within m : Prop :=
  Z.of_nat (size m) <= Z.max 0 (HashMaxListpackEntries T) ∧
  map_Forall (λ f b, Z.of_nat (length f) <= HashMaxListpackValue T ∧
                     Z.of_nat (length b) <= HashMaxListpackValue T) m.

Definition hash_ok h m : Prop := hash_rep h m ∧ (isListpack h = true → within m).

Lemma hash_ok_lp h lp m :
  isListpack h = true → rep_lp lp m → within m → hash_ok (with_lp h lp) m.
Proof. intros E Hr Hw. split; [|done]. unfold hash_rep. cbn. rewrite E. eauto. Qed.

Lemma hash_ok_dict h d m : isListpack h = false → rep_dict d m → hash_ok (with_dict h d) m.
Proof. intros E Hr. split; [|cbn; by rewrite E]. unfold hash_rep. cbn. rewrite E. eauto. Qed.

(** Open the representation of a hash in the encoding at hand. *)
Local Ltac open_hash H :=
  let Hrep := fresh "Hrep" in let Hw := fresh "Hw" in
  destruct H as [Hrep Hw]; unfold hash_rep in Hrep;
  match goal with
  | Hrep : if isListpack ?h then _ else _ |- _ =>
      destruct (isListpack h) eqn:Henc;
      [ destruct Hrep as (lp & El & Hrep); rewrite ?El; cbn [must mbind res_bind]
      | destruct Hrep as (d & Ed & Hrep); rewrite ?Ed; cbn [must mbind res_bind] ]
  end.

Lemma hash_ok_new : hash_ok (NewHash : Hash_ D) ∅.
Proof.
  split.
  - exists NewListpack. split; [done|]. exists []. split_and!; [apply pairs_new|constructor|done].
  - intros _. split; [rewrite map_size_empty; lia|apply map_Forall_empty].
Qed.

Lemma rep_lp_len lp m : rep_lp lp m → Z.quot (lp_Len lp) 2 = Z.of_nat (size m).
Proof. intros (ps & Hlp & Hnd & ->). by rewrite (pairs_len _ _ Hlp), size_pairs. Qed.

Lemma rep_lp_found lp m f : rep_lp lp m → pair_found lp f = Ret (bool_decide (is_Some (m !! f))).
Proof.
  intros (ps & Hlp & Hnd & ->). rewrite (pair_found_spec _ _ _ Hlp). f_equal.
  apply bool_decide_ext. apply keys_lookup.
Qed.

(** ** Conversion *)

Lemma convert_from ps d m0 fld i :
  rep_dict d m0 → 0 <= i → Z.of_nat (size m0 + length ps) <= 2 ^ 60 → NoDup ps.*1 →
  (∀ f, f ∈ ps.*1 → m0 !! f = None) →
  ∃ d' fld', range_spec (λ '(d, field) i val,
    if Z.rem i 2 =? 0 then Ret ((d, match val with VStr s => s | _ => field end), true)
    else
      match val with
      | VStr v => '(d', _) ← d_Put d field (VBytes v); Ret ((d', field), true)
      | VBytes v => '(d', _) ← d_Put d field (VBytes v); Ret ((d', field), true)
      | _ => Ret ((d, field), true)
      end) (2 * i) (flat ps) (d, fld) = Ret (d', fld') ∧
    rep_dict d' (list_to_map ps ∪ m0).
Proof.
  revert d m0 fld i. induction ps as [|[k v] ps IH]; intros d m0 fld i [Hd Em] Hi Hsz Hnd Hfresh.
  { exists d, fld. split; [done|]. split; [done|]. cbn. by rewrite (left_id_L ∅ (∪)). }
  cbn [length] in Hsz. apply NoDup_cons in Hnd as [Hk Hnd].
  rewrite range_pair. cbn beta iota. rewrite rem_even by done. cbn [mbind res_bind Z.eqb].
  rewrite rem_odd by done. cbn [mbind res_bind Z.eqb].
  destruct (d_Put_spec d k (VBytes v) Hd) as (d1 & -> & Hd1 & E1); [unfold roomy; rewrite Em, map_size_fmap; lia|]. cbn [mbind res_bind].
  replace (2 * i + 2) with (2 * (i + 1)) by lia.
  assert (Hkd : m0 !! k = None) by (apply Hfresh; cbn; set_solver).
  destruct (IH d1 (<[k := v]> m0) k (i + 1)) as (d2 & fld2 & -> & Hd2 & E2); [|lia| |done| |].
  - split; [done|]. by rewrite E1, Em, fmap_insert.
  - rewrite map_size_insert_None by done. lia.
  - intros f Hf. rewrite lookup_insert_ne by (by intros ->). apply Hfresh. cbn. set_solver.
  - exists d2, fld2. split; [done|]. split; [done|]. rewrite E2. cbn.
    rewrite <- insert_union_r, insert_union_l; [done|]. by apply not_elem_of_list_to_map_1.
Qed.

Lemma hash_convert_spec h lp m :
  listpack h = Some lp → rep_lp lp m → Z.of_nat (size m) <= 2 ^ 60 →
  ∃ h', convertToHashtable h = Ret h' ∧ hash_ok h' m ∧ isListpack h' = false ∧ fieldExpire h' = fieldExpire h.
Proof.
  intros El (ps & Hlp & Hnd & ->) Hsz. rewrite size_pairs in Hsz by done.
  unfold convertToHashtable. rewrite El. cbn [must mbind res_bind]. rewrite (lp_Range_spec _ _ _ _ Hlp).
  destruct (d_make_spec (D := D) (V := value)) as [Hinv Hemp].
  destruct (convert_from ps d_make ∅ [] 0) as (d & fld & E & Hd); [split; [done|by rewrite fmap_empty]|lia|by rewrite map_size_empty|done|done|].
  change (2 * 0) with 0 in E. rewrite E. cbn [mbind res_bind]. eexists. split; [done|]. split_and!; [|done|done].
  split; [|done]. exists d. split; [done|]. rewrite (right_id_L ∅ (∪)) in Hd. exact Hd.
Qed.

(** After a pair was written, [maybeConvertToHashtable] restores the limits. *)
Lemma maybe_convert_spec h lp m0 m f b :
  isListpack h = true → listpack h = Some lp → rep_lp lp m → Z.of_nat (size m) <= 2 ^ 60 →
  within m0 → m = <[f := b]> m0 →
  ∃ h', maybeConvertToHashtable T h f (VBytes b) = Ret h' ∧ hash_ok h' m ∧ fieldExpire h' = fieldExpire h.
Proof.
  intros Henc El Hrep Hsz [_ Hw] Hm. unfold maybeConvertToHashtable. rewrite El. cbn [must mbind res_bind elemLen].
  rewrite (rep_lp_len _ _ Hrep). destruct (_ || _) eqn:E.
  - destruct (hash_convert_spec h lp m El Hrep Hsz) as (h' & -> & Hok & _ & He). eauto.
  - zbool. exists h. split_and!; [done| |done]. split; [unfold hash_rep; rewrite Henc; eauto|].
    intros _. split; [lia|]. subst m. by apply map_Forall_insert_2.
Qed.

(** ** Operations *)

(** A value as a listpack or a hashtable holds it. *)
Definition text (v : value) b : Prop := v = VStr b ∨ v = VBytes b.
Lemma text_str v b : text v b → val_str v = b.
Proof. by intros [-> | ->]. Qed.

Lemma hash_Get_spec h m f :
  hash_ok h m →
  ∃ v, Get h f = Ret (v, bool_decide (is_Some (m !! f))) ∧ (∀ b, m !! f = Some b → text v b).
Proof.
  intros H'. unfold Get. open_hash H'.
  - destruct Hrep as (ps & Hlp & Hnd & ->).
    match goal with |- context [pair_loop lp ?body ?st] =>
      destruct (pair_loop_inv lp ps (λ qs r, r = None ∧ f ∉ qs.*1)
        (λ r, r = (λ v, (VStr v, true)) <$> ((list_to_map ps : gmap bytes bytes) !! f)) body st) as (r & -> & ->) end.
    + done.
    + split; [done|]. apply not_elem_of_nil.
    + intros i r k v Hkv [-> Hnot]. destruct (pair_get_key _ _ _ _ _ Hlp Hkv) as [-> Hv]. cbn [mbind res_bind negb].
      destruct (bytes_eqb k f) eqn:E.
      * apply bytes_eqb_eq in E as ->. rewrite Hv. cbn. eexists _, false. split; [done|].
        rewrite (proj1 (elem_of_list_to_map ps f v Hnd)); [done|]. by eapply list_elem_of_lookup_2.
      * apply bytes_eqb_ne in E. eexists _, true. split; [done|]. split; [done|]. rewrite fmap_app. cbn. set_solver.
    + intros r [-> Hnot]. by rewrite (not_elem_of_list_to_map_1 _ _ Hnot).
    + cbn. destruct (list_to_map ps !! f) as [b|]; cbn; eexists; (split; [done|]); intros ? [= <-]. by left.
  - destruct Hrep as [Hd Em]. rewrite d_Get_spec, Em, lookup_fmap by done. cbn.
    destruct (m !! f) as [v|]; cbn; eexists; (split; [done|]); intros ? [= <-]. by right.
Qed.

Lemma hash_Len_spec h m : hash_ok h m → Len h = Ret (Z.of_nat (size m)).
Proof.
  intros H'. unfold Len. open_hash H'.
  - by rewrite (rep_lp_len _ _ Hrep).
  - destruct Hrep as [Hd Em]. by rewrite d_Len_spec, Em, map_size_fmap.
Qed.

Lemma size_insert_le m f b : (size (<[f := b]> m) <= S (size m))%nat.
Proof. rewrite map_size_insert. destruct (m !! f); simpl; lia. Qed.

Lemma add_pair_spec h lp m f b :
  isListpack h = true → listpack h = Some lp → rep_lp lp m → within m → m !! f = None →
  small f → small b → Z.of_nat (size m) < 2 ^ 60 →
  ∃ h', add_pair T h f (VBytes b) = Ret (h', 1) ∧ hash_ok h' (<[f := b]> m) ∧ fieldExpire h' = fieldExpire h.
Proof.
  intros Henc El (ps & Hlp & Hnd & ->) Hw Hf Hsf Hsb Hsz. unfold add_pair. rewrite El. cbn [must mbind res_bind val_str].
  set (lp' := AppendStr (AppendStr lp f) b). assert (Hnot : f ∉ ps.*1) by (by apply not_elem_of_list_to_map_2).
  pose proof (size_insert_le (list_to_map ps) f b) as Hsize.
  destruct (maybe_convert_spec (with_lp h lp') lp' (list_to_map ps) (<[f := b]> (list_to_map ps)) f b)
    as (h' & -> & Hok & He); [done|done| |lia|done|done|].
  - exists (ps ++ [(f, b)]). split_and!; [by apply pairs_append| |].
    + rewrite fmap_app. apply NoDup_app. split_and!; [done|set_solver|apply NoDup_singleton].
    + rewrite list_to_map_snoc by done. done.
  - cbn. eauto.
Qed.

Lemma hash_Put_spec h m f b :
  hash_ok h m → small f → small b → Z.of_nat (size m) < 2 ^ 60 →
  ∃ h', Put T h f (VBytes b) = Ret (h', b2z (bool_decide (m !! f = None))) ∧ hash_ok h' (<[f := b]> m) ∧
    fieldExpire h' = fieldExpire h.
Proof.
  intros H' Hf Hb Hsz. unfold Put. open_hash H'.
  - rewrite (rep_lp_found _ _ _ Hrep). cbn [mbind res_bind]. destruct (m !! f) as [b0|] eqn:Emf.
    + rewrite (bool_decide_eq_true_2 (is_Some _)) by eauto. rewrite (bool_decide_eq_false_2 (Some _ = None)) by done.
      unfold rebuildListpackWithUpdate. rewrite El. cbn [must mbind res_bind val_str].
      destruct Hrep as (ps & Hlp & Hnd & ->). destruct (pair_update_spec lp ps f b Hlp Hb) as (lp' & -> & Hlp').
      cbn [mbind res_bind]. assert (Hin : f ∈ ps.*1) by (apply keys_lookup; eauto).
      destruct (maybe_convert_spec (with_lp h lp') lp' (list_to_map ps) (<[f := b]> (list_to_map ps)) f b)
        as (h' & -> & Hok & He); [done|done| | |by apply Hw|done|].
      * exists (upd f b <$> ps). split_and!; [done|by rewrite upd_keys|by rewrite upd_map].
      * rewrite map_size_insert_Some by eauto. lia.
      * cbn. eauto.
    + rewrite (bool_decide_eq_false_2 (is_Some _)) by (by intros [? ?]).
      rewrite (bool_decide_eq_true_2 (None = None)) by done. apply (add_pair_spec h lp); auto.
  - destruct Hrep as [Hd Em]. destruct (d_Put_spec d f (VBytes b) Hd) as (d' & -> & Hd' & E').
    { unfold roomy. by rewrite Em, map_size_fmap. }
    cbn [mbind res_bind]. eexists. split_and!; [|apply hash_ok_dict; [done|]|done].
    + do 3 f_equal. apply bool_decide_ext. rewrite Em, lookup_fmap. by destruct (m !! f).
    + split; [done|]. by rewrite E', Em, fmap_insert.
Qed.

Lemma hash_PutIfAbsent_spec h m f b :
  hash_ok h m → small f → small b → Z.of_nat (size m) < 2 ^ 60 →
  ∃ h', PutIfAbsent T h f (VBytes b) = Ret (h', b2z (bool_decide (m !! f = None))) ∧
    hash_ok h' (match m !! f with Some _ => m | None => <[f := b]> m end) ∧ fieldExpire h' = fieldExpire h.
Proof.
  intros H' Hf Hb Hsz. unfold PutIfAbsent. open_hash H'.
  - rewrite (rep_lp_found _ _ _ Hrep). cbn [mbind res_bind]. destruct (m !! f) as [b0|] eqn:Emf.
    + rewrite (bool_decide_eq_true_2 (is_Some _)) by eauto. rewrite (bool_decide_eq_false_2 (Some _ = None)) by done.
      exists h. split_and!; [done| |done]. split; [|by rewrite Henc]. unfold hash_rep. rewrite Henc. eauto.
    + rewrite (bool_decide_eq_false_2 (is_Some _)) by (by intros [? ?]).
      rewrite (bool_decide_eq_true_2 (None = None)) by done. apply (add_pair_spec h lp); auto.
  - destruct Hrep as [Hd Em]. destruct (d_PutIfAbsent_spec d f (VBytes b) Hd) as (d' & -> & Hd' & E').
    { unfold roomy. by rewrite Em, map_size_fmap. }
    cbn [mbind res_bind]. rewrite Em, lookup_fmap in *. eexists. split_and!; [|apply hash_ok_dict; [done|]|done].
    + do 3 f_equal. apply bool_decide_ext. by destruct (m !! f).
    + split; [done|]. rewrite E'. destruct (m !! f); cbn; [done|]. by rewrite fmap_insert.
Qed.

Lemma within_delete m f : within m → within (delete f m).
Proof.
  intros [H1 H2]. split.
  - rewrite map_size_delete. destruct (m !! f); simpl; lia.
  - by apply map_Forall_delete.
Qed.

Lemma hash_Remove_spec h m f :
  hash_ok h m →
  ∃ h' v, Remove h f = Ret (h', v, b2z (bool_decide (is_Some (m !! f)))) ∧ hash_ok h' (delete f m) ∧
    fieldExpire h' = fieldExpire h.
Proof.
  intros H'. unfold Remove. open_hash H'.
  - destruct Hrep as (ps & Hlp & Hnd & ->).
    match goal with |- context [pair_remove ?a lp ?s] =>
      destruct (pair_remove_spec a lp ps s Hlp) as (lp' & -> & Hlp') end; [done|].
    cbn [mbind res_bind]. rewrite existsb_key. rewrite (bool_decide_ext (f ∈ ps.*1) _ (keys_lookup ps f)).
    case_bool_decide as Hin; cbn [negb b2z].
    + eexists _, _. split_and!; [done| |done]. apply hash_ok_lp; [done| |apply within_delete; by apply Hw].
      exists (List.filter (λ p, negb (bytes_eqb p.1 f)) ps). split_and!; [done|by apply NoDup_filter_keys|].
      by rewrite filter_map.
    + exists h, VNil. split_and!; [done| |done]. apply eq_None_not_Some in Hin. rewrite delete_id by done.
      split; [|by rewrite Henc]. unfold hash_rep. rewrite Henc. exists lp. split; [done|]. by exists ps.
  - destruct Hrep as [Hd Em]. destruct (d_Remove_spec d f Hd) as (d' & -> & Hd' & E'). cbn [mbind res_bind].
    eexists _, _. split_and!; [|apply hash_ok_dict; [done|]|done].
    + do 3 f_equal. apply bool_decide_ext. by rewrite Em, lookup_fmap, fmap_is_Some.
    + split; [done|]. by rewrite E', Em, fmap_delete.
Qed.

(** ** Traversal and scans *)

(** [ord] is an order in which Go may traverse the hashtable of [h]. *)
Definition order_ok h (ord : list (bytes * value)) : Prop :=
  isListpack h = false → ∃ d, hashtable h = Some d ∧ d_order d ord.

Lemma foreach_from {S} (fn : S → bytes → value → S * bool) ps st fld i :
  0 <= i →
  ∃ fld', range_spec (λ '(s, field) i val,
      if Z.rem i 2 =? 0 then Ret ((s, match val with VStr f => f | _ => field end), true)
      else let '(s', go) := fn s field val in Ret ((s', field), go)) (2 * i) (flat ps) (st, fld)
    = Ret (d_ForEach fn ((λ p, (p.1, VStr p.2)) <$> ps) st, fld').
Proof.
  revert st fld i. induction ps as [|[k v] ps IH]; intros st fld i Hi; [by exists fld|].
  rewrite range_pair. cbn beta iota. rewrite rem_even by done. cbn [mbind res_bind Z.eqb].
  rewrite rem_odd by done. cbn [mbind res_bind Z.eqb fmap list_fmap d_ForEach fst snd].
  destruct (fn st k (VStr v)) as [s' []]; cbn [mbind res_bind]; [|by exists k].
  replace (2 * i + 2) with (2 * (i + 1)) by lia. apply IH. lia.
Qed.

Lemma Keys_spec h m ord :
  hash_ok h m → order_ok h ord → ∃ l, Keys h ord = Ret l ∧ l ≡ₚ elements (dom m).
Proof.
  intros H' Hord. unfold Keys, ForEach. open_hash H'.
  - destruct Hrep as (ps & Hlp & Hnd & ->). rewrite (lp_Range_spec _ _ _ _ Hlp).
    destruct (foreach_from (λ acc f (_ : value), (acc ++ [f], true)) ps [] [] 0) as (fld & E); [lia|].
    change (2 * 0) with 0 in E. rewrite E. cbn [mbind res_bind]. rewrite d_ForEach_collect. eexists. split; [done|].
    rewrite <- list_fmap_compose, dom_list_to_map_L, elements_list_to_set by done.
    done.
  - destruct Hrep as [Hd Em]. destruct (Hord Henc) as (d' & E' & Ho). assert (d' = d) as -> by congruence.
    rewrite d_ForEach_collect, <- (dom_fmap_L VBytes m), <- Em. eexists. split; [done|]. rewrite (d_order_spec d ord Hd Ho).
    cbn. apply NoDup_Permutation; [apply NoDup_fst_map_to_list|apply NoDup_elements|].
    intros x. rewrite elem_of_elements, elem_of_dom, list_elem_of_fmap. split.
    + intros ([k v] & -> & Hkv%elem_of_map_to_list). eauto.
    + intros [v Hv]. exists (x, v). by rewrite elem_of_map_to_list.
Qed.

(** What a field contributes to a scan. *)
Definition scan_out m (compiled : bytes → bool) (pattern k : bytes) : list bytes :=
  if scan_match compiled pattern k then [k; default [] (m !! k)] else [].

Lemma Scan_page h m ord compile compiled count pattern (i : nat) :
  hash_ok h m → order_ok h ord → compile pattern = Some compiled → 0 < count < 2 ^ 62 →
  let all := sort_Strings (elements (dom m)) in
  (i < length all)%nat →
  ∃ j, (i < j <= length all)%nat ∧
    Scan h ord compile (Z.of_nat i) count pattern
      = Ret (mjoin (scan_out m compiled pattern <$> take (j - i) (drop i all)),
             if decide (j = length all) then 0 else Z.of_nat j).
Proof.
  intros Hok Hord Hcomp Hcount. cbn zeta. intros Hi. unfold Scan.
  destruct (Keys_spec h m ord Hok Hord) as (l & -> & Hp). cbn [mbind res_bind].
  rewrite (sort_Strings_unique _ _ Hp), Hcomp. set (all := sort_Strings (elements (dom m))) in *.
  destruct (Z.eqb_spec (Z.of_nat (length all)) 0); [lia|].
  rewrite wrap64_id by (unfold i64, min_i64, max_i64; lia).
  match goal with |- context [scan_loop _ _ ?emit _ _ _] =>
    destruct (scan_loop_spec (S (length all)) all emit (scan_out m compiled pattern) (count * 2) i [])
      as (j & -> & Hj & Hadv) end; [|lia|lia|].
  - intros k Hk. unfold scan_out, scan_match. destruct (_ || _); [|done].
    destruct (hash_Get_spec h m k Hok) as (v & -> & Hv). cbn [mbind res_bind].
    unfold all in Hk. rewrite sort_Strings_perm, elem_of_elements, elem_of_dom in Hk.
    rewrite bool_decide_eq_true_2 by done. destruct Hk as [b Hb]. rewrite Hb. cbn. by rewrite (text_str v b (Hv b Hb)).
  - exists j. split; [cbn in Hadv; lia|]. cbn [mbind res_bind app]. do 2 f_equal.
    destruct (Z.leb_spec (Z.of_nat (length all)) (Z.of_nat j)), (decide (j = length all)); done || lia.
Qed.

Lemma hash_scan_all h m ords compile compiled count pattern :
  hash_ok h m → (∀ k, order_ok h (ords k)) → compile pattern = Some compiled → 0 < count < 2 ^ 62 →
  scan_pages (λ k cursor, Scan h (ords k) compile cursor count pattern) (S (size m)) 0 0
    = Ret (mjoin (scan_out m compiled pattern <$> sort_Strings (elements (dom m)))).
Proof.
  intros Hok Hord Hcomp Hcount. set (all := sort_Strings (elements (dom m))).
  assert (Hlen : length all = size m).
  { rewrite <- size_dom. apply (Permutation_length (sort_Strings_perm (elements (dom m)))). }
  destruct (decide (length all = 0)%nat) as [E0|E0].
  - unfold Scan. cbn [scan_pages]. destruct (Keys_spec h m (ords 0%nat) Hok (Hord 0%nat)) as (l & -> & Hp).
    cbn [mbind res_bind]. rewrite (sort_Strings_unique _ _ Hp). fold all. rewrite E0. cbn.
    by apply nil_length_inv in E0 as ->.
  - apply (scan_pages_spec _ all _ _ 0 0); [|lia|lia]. intros k i Hi. by apply (Scan_page h m).
Qed.

(** ** Field expiry *)

Definition expired_in (nowMs : Z) (ord : list (bytes * Z)) : list bytes :=
  (List.filter (λ p, p.2 <=? nowMs) ord).*1.

(** [m] without the keys of [fs]. *)
Definition without {V} (fs : list bytes) (m : gmap bytes V) : gmap bytes V := foldr delete m fs.

Lemma without_delete {V} f (fs : list bytes) (m : gmap bytes V) : without fs (delete f m) = without (f :: fs) m.
Proof.
  unfold without. cbn. induction fs as [|g fs IH]; [done|]. cbn. rewrite IH. apply delete_delete.
Qed.

Lemma without_lookup {V} f (fs : list bytes) (m : gmap bytes V) : without fs m !! f = if bool_decide (f ∈ fs) then None else m !! f.
Proof.
  unfold without. induction fs as [|g fs IH]; [done|]. cbn. destruct (decide (f = g)) as [->|Hne].
  - rewrite lookup_delete_eq. by rewrite bool_decide_eq_true_2 by set_solver.
  - rewrite lookup_delete_ne, IH by done.
    by rewrite (bool_decide_ext (f ∈ g :: fs) (f ∈ fs)) by set_solver.
Qed.

Lemma with_expire_ok h m e : hash_ok h m → hash_ok (with_expire h e) m.
Proof. done. Qed.

Lemma purge_loop_spec nowMs ord h m e acc :
  hash_ok h m → fieldExpire h = Some e →
  ∃ h', purge_loop nowMs ord h acc = Ret (h', acc ++ expired_in nowMs ord) ∧
    hash_ok h' (without (expired_in nowMs ord) m) ∧
    fieldExpire h' = Some (without (expired_in nowMs ord) e).
Proof.
  revert h m e acc. induction ord as [|[f exp] ord IH]; intros h m e acc Hok He; cbn [purge_loop].
  { exists h. rewrite app_nil_r. done. }
  unfold expired_in. cbn [List.filter snd]. destruct (exp <=? nowMs); [|by apply IH].
  destruct (hash_Remove_spec h m f Hok) as (h1 & v & -> & Hok1 & He1). cbn [mbind res_bind].
  rewrite He1, He. change (default ∅ (Some e)) with e.
  destruct (IH (with_expire h1 (delete f e)) (delete f m) (delete f e) (acc ++ [f])) as (h' & -> & Hok' & He');
    [by apply with_expire_ok|done|].
  exists h'. rewrite <- app_assoc, fmap_cons, <- !without_delete. split_and!; done.
Qed.
End proofs.

(** ** Refinement: a hash object is a finite map *)

Inductive hash_cmd :=
| HPut (f b : bytes) | HPutIfAbsent (f b : bytes) | HGet (f : bytes) | HRemove (f : bytes) | HLen
| HSetFieldExpire (f : bytes) (at_ms : Z) | HFieldExpire (f : bytes) | HPersistField (f : bytes)
| HPurgeExpiredFields (now_ms : Z) (ord : list (bytes * Z)) | HGetAsDict.

Inductive hash_reply := HInt (n : Z) | HVal (v : option bytes) | HFields (l : list bytes).

Definition hash_obj_step {D} `{DictOps D value} (T : EncodingThresholds) (h : Hash_ D) (c : hash_cmd)
    : res (Hash_ D * hash_reply) :=
  match c with
  | HPut f b => '(h', n) ← Put T h f (VBytes b); Ret (h', HInt n)
  | HPutIfAbsent f b => '(h', n) ← PutIfAbsent T h f (VBytes b); Ret (h', HInt n)
  | HGet f => '(v, ok) ← Get h f; Ret (h, HVal (if ok : bool then Some (val_str v) else None))
  | HRemove f => '(h', _, n) ← Remove h f; Ret (h', HInt n)
  | HLen => n ← Len h; Ret (h, HInt n)
  | HSetFieldExpire f t => Ret (SetFieldExpire h f t, HInt 0)
  | HFieldExpire f => let '(t, ok) := FieldExpire h f in Ret (h, HInt (if ok : bool then t else -1))
  | HPersistField f => let '(h', ok) := PersistField h f in Ret (h', HInt (b2z ok))
  | HPurgeExpiredFields now ord => '(h', l) ← PurgeExpiredFields h now ord; Ret (h', HFields l)
  | HGetAsDict => '(h', _) ← GetAsDict h; Ret (h', HInt 0)
  end.

(** The specification: the map of values and the map of expiry times. *)
Definition hash_spec (s : gmap bytes bytes * gmap bytes Z) (c : hash_cmd)
    : (gmap bytes bytes * gmap bytes Z) * hash_reply :=
  let '(m, e) := s in
  match c with
  | HPut f b => ((<[f := b]> m, e), HInt (b2z (bool_decide (m !! f = None))))
  | HPutIfAbsent f b =>
      ((match m !! f with Some _ => m | None => <[f := b]> m end, e), HInt (b2z (bool_decide (m !! f = None))))
  | HGet f => ((m, e), HVal (m !! f))
  | HRemove f => ((delete f m, e), HInt (b2z (bool_decide (is_Some (m !! f)))))
  | HLen => ((m, e), HInt (Z.of_nat (size m)))
  | HSetFieldExpire f t => ((m, <[f := t]> e), HInt 0)
  | HFieldExpire f => ((m, e), HInt (default (-1) (e !! f)))
  | HPersistField f => ((m, delete f e), HInt (b2z (bool_decide (is_Some (e !! f)))))
  | HPurgeExpiredFields now ord =>
      ((without (expired_in now ord) m, without (expired_in now ord) e), HFields (expired_in now ord))
  | HGetAsDict => ((m, e), HInt 0)
  end.

(** Strings fit in memory, and a purge traverses the expiry table. *)
Definition hash_legal (s : gmap bytes bytes * gmap bytes Z) (c : hash_cmd) : Prop :=
  match c with
  | HPut f b | HPutIfAbsent f b => small f ∧ small b
  | HPurgeExpiredFields _ ord => ord ≡ₚ map_to_list s.2
  | _ => True
  end.

Fixpoint hash_obj_run {D} `{DictOps D value} (T : EncodingThresholds) (h : Hash_ D) (cs : list hash_cmd)
    : res (Hash_ D * list hash_reply) :=
  match cs with
  | [] => Ret (h, [])
  | c :: cs' => '(h', o) ← hash_obj_step T h c; '(h'', os) ← hash_obj_run T h' cs'; Ret (h'', o :: os)
  end.

Fixpoint hash_spec_run (s : gmap bytes bytes * gmap bytes Z) (cs : list hash_cmd) : (gmap bytes bytes * gmap bytes Z) * list hash_reply :=
  match cs with
  | [] => (s, [])
  | c :: cs' => let '(s', o) := hash_spec s c in let '(s'', os) := hash_spec_run s' cs' in (s'', o :: os)
  end.

Fixpoint hash_legal_run (s : gmap bytes bytes * gmap bytes Z) (cs : list hash_cmd) : Prop :=
  match cs with
  | [] => True
  | c :: cs' => hash_legal s c ∧ hash_legal_run (hash_spec s c).1 cs'
  end.

Section refinement.
Context {D : Type} `{DictLaws D value} (T : EncodingThresholds).

(** The object and the pair of maps it stands for. *)
Definition hash_state_ok (h : Hash_ D) (s : gmap bytes bytes * gmap bytes Z) : Prop :=
  hash_ok T h s.1 ∧ default ∅ (fieldExpire h) = s.2.

Lemma without_size {V} (fs : list bytes) (m : gmap bytes V) : (size (without fs m) <= size m)%nat.
Proof.
  unfold without. induction fs as [|f fs IH]; [done|]. cbn. rewrite map_size_delete.
  destruct (foldr delete m fs !! f); simpl; lia.
Qed.

Lemma hash_obj_step_ok h s c :
  hash_state_ok h s → hash_legal s c → Z.of_nat (size s.1) < 2 ^ 60 →
  ∃ h', hash_obj_step T h c = Ret (h', (hash_spec s c).2) ∧ hash_state_ok h' (hash_spec s c).1 ∧
    (size (hash_spec s c).1.1 <= S (size s.1))%nat.
Proof.
  destruct s as [m e]. intros [Hok He] Hl Hsz. cbn [fst snd] in *. unfold hash_state_ok.
  destruct c as [f b|f b|f|f| |f t|f|f|now ord|]; cbn [hash_obj_step hash_spec hash_legal fst snd] in *.
  - destruct Hl as [Hf Hb]. destruct (hash_Put_spec T h m f b Hok Hf Hb Hsz) as (h' & -> & Hok' & E). cbn.
    exists h'. rewrite E. split_and!; [done..|apply size_insert_le].
  - destruct Hl as [Hf Hb]. destruct (hash_PutIfAbsent_spec T h m f b Hok Hf Hb Hsz) as (h' & -> & Hok' & E). cbn.
    exists h'. rewrite E. split_and!; [done..|]. destruct (m !! f); [lia|apply size_insert_le].
  - destruct (hash_Get_spec T h m f Hok) as (v & -> & Hv). cbn. exists h. split_and!; [|done..|lia].
    destruct (m !! f) as [b|] eqn:Em; cbn; [|done]. by rewrite (text_str v b (Hv b eq_refl)).
  - destruct (hash_Remove_spec T h m f Hok) as (h' & v & -> & Hok' & E). cbn. exists h'. rewrite E. split_and!; [done..|].
    rewrite map_size_delete. destruct (m !! f); simpl; lia.
  - rewrite (hash_Len_spec T h m Hok). exists h. split_and!; [done..|lia].
  - exists (SetFieldExpire h f t). split_and!; [done|done| |lia]. cbn. by rewrite He.
  - exists h. unfold FieldExpire. split_and!; [|done..|lia]. rewrite <- He.
    destruct (fieldExpire h) as [m'|]; cbn; [|by rewrite lookup_empty]. by destruct (m' !! f).
  - unfold PersistField. rewrite <- He. destruct (fieldExpire h) as [m'|] eqn:E; cbn.
    + destruct (m' !! f) eqn:Em; cbn; eexists; (split_and!; [done|done| |lia]); cbn; [done|].
      by rewrite E, delete_id.
    + exists h. rewrite lookup_empty. split_and!; [done|done| |lia]. by rewrite E, delete_empty.
  - unfold PurgeExpiredFields. destruct (fieldExpire h) as [m'|] eqn:E; cbn in He; subst e.
    + destruct (purge_loop_spec T now ord h m m' [] Hok E) as (h' & -> & Hok' & He'). cbn.
      exists h'. rewrite He'. split_and!; [done..|]. pose proof (without_size (expired_in now ord) m). lia.
    + rewrite map_to_list_empty in Hl. apply Permutation_nil_r in Hl as ->. exists h. rewrite E. split_and!; [done..|cbn; lia].
  - unfold GetAsDict. destruct (isListpack h) eqn:Henc.
    + pose proof (proj1 Hok) as Hrep'. unfold hash_rep in Hrep'. rewrite Henc in Hrep'. destruct Hrep' as (lp & El & Hlp).
      destruct (hash_convert_spec T h lp m El Hlp) as (h' & -> & Hok' & En & Ee); [lia|]. cbn [mbind res_bind].
      pose proof (proj1 Hok') as Hr. unfold hash_rep in Hr. rewrite En in Hr. destruct Hr as (d & -> & _). cbn.
      exists h'. rewrite Ee. split_and!; [done..|lia].
    + pose proof (proj1 Hok) as Hr. unfold hash_rep in Hr. rewrite Henc in Hr. destruct Hr as (d & Ed & _).
      cbn [mbind res_bind]. rewrite Ed. cbn. exists h. split_and!; [done..|lia].
Qed.

Lemma hash_obj_run_ok cs h s :
  hash_state_ok h s → hash_legal_run s cs → Z.of_nat (size s.1 + length cs) < 2 ^ 60 →
  ∃ h', hash_obj_run T h cs = Ret (h', (hash_spec_run s cs).2) ∧ hash_state_ok h' (hash_spec_run s cs).1.
Proof.
  revert h s. induction cs as [|c cs IH]; intros h s Hok Hl Hsz; [by exists h|]. cbn [hash_obj_run hash_spec_run].
  destruct Hl as [Hc Hl]. cbn [length] in Hsz.
  destruct (hash_obj_step_ok h s c Hok Hc) as (h' & -> & Hok' & Hsz'); [lia|]. cbn [mbind res_bind].
  destruct (hash_spec s c) as [s' o]. cbn [fst snd] in *.
  destruct (IH h' s' Hok' Hl) as (h'' & -> & Hok''); [lia|]. cbn [mbind res_bind].
  destruct (hash_spec_run s' cs). by exists h''.
Qed.

Lemma hash_run_new cs :
  hash_legal_run (∅, ∅) cs → Z.of_nat (length cs) < 2 ^ 60 →
  ∃ h, hash_obj_run T (NewHash : Hash_ D) cs = Ret (h, (hash_spec_run (∅, ∅) cs).2) ∧
    hash_state_ok h (hash_spec_run (∅, ∅) cs).1.
Proof.
  intros Hl Hlen. apply hash_obj_run_ok; [|done|].
  - split; [apply hash_ok_new|done].
  - cbn [fst]. rewrite map_size_empty. lia.
Qed.

(** C10: A hash object behaves as a finite map from fields to byte strings,
    with a second map of field expiry times, under every sequence of Put,
    PutIfAbsent, Get, Remove, Len, SetFieldExpire, FieldExpire, PersistField,
    PurgeExpiredFields and GetAsDict: the replies are those of the maps,
    nothing panics, and the listpack and hashtable encodings cannot be told
    apart, at any thresholds and for every dict that meets the [Dict] contract.
    While the encoding is listpack, the number of fields and the length of
    every field and value are within the configured limits. *)
Theorem hash_object_refines_map cs :
  hash_legal_run (∅, ∅) cs → Z.of_nat (length cs) < 2 ^ 60 →
  ∃ h, hash_obj_run T (NewHash : Hash_ D) cs = Ret (h, (hash_spec_run (∅, ∅) cs).2) ∧
    hash_rep h (hash_spec_run (∅, ∅) cs).1.1 ∧
    default ∅ (fieldExpire h) = (hash_spec_run (∅, ∅) cs).1.2 ∧
    (isListpack h = true → within T (hash_spec_run (∅, ∅) cs).1.1).
Proof.
  intros Hl Hlen. destruct (hash_run_new cs Hl Hlen) as (h & E & [Hrep Hw] & He). eauto.
Qed.

(** A full HSCAN iteration over a hash that is not modified meanwhile, with
    any page size of at least one, returns every matching field exactly once,
    in ascending order, each followed by its current value, and ends. *)
Theorem hash_scan_enumerates cs h os ords compile compiled count pattern :
  hash_legal_run (∅, ∅) cs → Z.of_nat (length cs) < 2 ^ 60 →
  hash_obj_run T (NewHash : Hash_ D) cs = Ret (h, os) →
  (∀ k, order_ok h (ords k)) → compile pattern = Some compiled → 0 < count < 2 ^ 62 →
  let m := (hash_spec_run (∅, ∅) cs).1.1 in
  scan_pages (λ k cursor, Scan h (ords k) compile cursor count pattern) (S (size m)) 0 0
    = Ret (mjoin (scan_out m compiled pattern <$> sort_Strings (elements (dom m)))).
Proof.
  intros Hl Hlen Hrun Hord Hcomp Hcount. destruct (hash_run_new cs Hl Hlen) as (h' & E & Hok & _).
  rewrite E in Hrun. injection Hrun as -> _. by apply (hash_scan_all T).
Qed.
End refinement.

(** ** Witnesses *)

Abbreviation rdict := (@RedisDict value).

(** A limit of two fields: the third one converts the hash. *)
Definition hash_script_T : EncodingThresholds := MkThresholds 2 64 512 128 64 128 64 128.
Definition hash_script : list hash_cmd :=
  [HPut (str "a") (str "1"); HPut (str "b") (str "2"); HPut (str "a") (str "3"); HSetFieldExpire (str "b") 10;
   HGet (str "a"); HPut (str "c") (str "4"); HPurgeExpiredFields 20 [(str "b", 10)]; HGet (str "b");
   HPutIfAbsent (str "c") (str "5"); HRemove (str "a"); HLen].

Lemma hash_script_legal : hash_legal_run (∅, ∅) hash_script.
Proof.
  assert (Hs : ∀ s, (length s < 100)%nat → small s) by (unfold small; lia).
  cbn [hash_script hash_legal_run hash_legal]. split_and!; try (apply Hs; cbn; lia); try done.
Defined.

Lemma hash_object_refines_map_witness :
  ∃ h, hash_obj_run hash_script_T (NewHash : Hash_ rdict) hash_script
    = Ret (h, [HInt 1; HInt 1; HInt 0; HInt 0; HVal (Some (str "3")); HInt 1; HFields [str "b"]; HVal None;
               HInt 0; HInt 1; HInt 1]).
Proof.
  destruct (hash_object_refines_map (D := rdict) hash_script_T hash_script hash_script_legal) as (h & E & _).
  { vm_compute. reflexivity. }
  exists h. rewrite E. vm_compute. reflexivity.
Defined.

Lemma hash_scan_enumerates_witness :
  ∃ h, hash_obj_run hash_script_T (NewHash : Hash_ rdict) [HPut (str "b") (str "2"); HPut (str "a") (str "1")]
         = Ret (h, [HInt 1; HInt 1]) ∧
    scan_pages (λ k cursor, Scan h [] (λ _, Some (λ _, true)) cursor 1 (str "*")) 3 0 0
      = Ret [str "a"; str "1"; str "b"; str "2"].
Proof.
  eexists. split; [vm_compute; reflexivity|].
  etransitivity.
  { refine (hash_scan_enumerates (D := rdict) hash_script_T [HPut (str "b") (str "2"); HPut (str "a") (str "1")] _
      [HInt 1; HInt 1] (λ _, []) (λ _, Some (λ _, true)) (λ _, true) 1 (str "*") _ _ _ _ eq_refl _).
    - cbn. unfold small. cbn. split_and!; done.
    - vm_compute. reflexivity.
    - vm_compute. reflexivity.
    - intros k Hk. vm_compute in Hk. discriminate Hk.
    - lia. }
  vm_compute. reflexivity.
Defined.

(** Removing a field does not remove its expiry time, so a field that is
    deleted and written again later inherits the old deadline: the purge at
    that deadline deletes the new value. *)
Theorem hash_stale_field_expiry {D : Type} `{DictLaws D value} (T : EncodingThresholds) f b1 b2 t :
  small f → small b1 → small b2 →
  ∃ h, hash_obj_run T (NewHash : Hash_ D)
         [HPut f b1; HSetFieldExpire f t; HRemove f; HPut f b2; HGet f; HPurgeExpiredFields t [(f, t)]; HGet f]
       = Ret (h, [HInt 1; HInt 0; HInt 1; HInt 1; HVal (Some b2); HFields [f]; HVal None]).
Proof.
  intros Hf H1 H2.
  destruct (hash_run_new (D := D) T
    [HPut f b1; HSetFieldExpire f t; HRemove f; HPut f b2; HGet f; HPurgeExpiredFields t [(f, t)]; HGet f])
    as (h & E & _).
  - cbn. rewrite map_to_list_insert, map_to_list_empty by apply lookup_empty. split_and!; done.
  - done.
  - exists h. rewrite E. cbn. rewrite !lookup_insert_eq, !lookup_empty, !lookup_delete_eq.
    unfold expired_in. cbn [List.filter snd]. rewrite Z.leb_refl. cbn. by rewrite !lookup_delete_eq.
Qed.

Lemma hash_stale_field_expiry_witness :
  ∃ h, hash_obj_run hash_script_T (NewHash : Hash_ rdict)
         [HPut (str "f") (str "old"); HSetFieldExpire (str "f") 50; HRemove (str "f"); HPut (str "f") (str "new");
          HGet (str "f"); HPurgeExpiredFields 50 [(str "f", 50)]; HGet (str "f")]
       = Ret (h, [HInt 1; HInt 0; HInt 1; HInt 1; HVal (Some (str "new")); HFields [str "f"]; HVal None]).
Proof. apply (hash_stale_field_expiry (D := rdict)); unfold small; cbn; lia. Defined.
