(* ===== verification/Float64.v ===== *)
(** * float64 scores and the order of sorted-set elements

    A score is a [float64], here its 64-bit pattern.  Go compares floats by
    IEEE 754: a NaN is neither less than, equal to nor greater than anything,
    and the two zeros are equal.  On the other values the order is the order of
    the signed magnitude [fkey]. *)

From stdpp Require Import base list sorting.
From Stdlib Require Import ZArith Lia.
From S2P Require Import Prelude.

Local Open Scope Z_scope.

Definition fmag (f : Z) : Z := Z.land f (2 ^ 63 - 1).
Definition fnan (f : Z) : bool := 0x7FF0000000000000 <? fmag f.
Definition fkey (f : Z) : Z := if Z.testbit f 63 then - fmag f else fmag f.

(** The operators [<], [==], [<=] and [!=] on float64. *)
Definition flt (a b : Z) : bool := negb (fnan a) && negb (fnan b) && (fkey a <? fkey b).
Definition feq (a b : Z) : bool := negb (fnan a) && negb (fnan b) && (fkey a =? fkey b).
Definition fle (a b : Z) : bool := negb (fnan a) && negb (fnan b) && (fkey a <=? fkey b).

(** The pattern of positive zero, the score of a fresh [Element]. *)
Definition fzero : Z := 0.

Record Element := MkElement { Member : bytes; Score : Z }.

#[export] Instance Element_eq_dec : EqDecision Element.
Proof. solve_decision. Defined.

(** The comparison of the skiplist: by score, then by member. *)
Definition elem_before (e : Element) (member : bytes) (score : Z) : bool :=
  flt (Score e) score || (feq (Score e) score && bytes_ltb (Member e) member).

(** ** Order lemmas *)

Definition num (e : Element) : Prop := fnan (Score e) = false.

(** [elt a b]: [a] is before [b].  It is a strict order on numbers. *)
Definition elt (a b : Element) : Prop :=
  fkey (Score a) < fkey (Score b) ∨
  (fkey (Score a) = fkey (Score b) ∧ bytes_ltb (Member a) (Member b) = true).

(** [same a b]: neither is before the other. *)
Definition same (a b : Element) : Prop := fkey (Score a) = fkey (Score b) ∧ Member a = Member b.

Lemma elem_before_spec e m s :
  num e → fnan s = false → elem_before e m s = true ↔ elt e (MkElement m s).
Proof.
  unfold num, elem_before, flt, feq, elt. intros -> ->. cbn.
  rewrite orb_true_iff, andb_true_iff, Z.ltb_lt, Z.eqb_eq. done.
Qed.

#[export] Instance elt_trans : Transitive elt.
Proof.
  intros a b c [H1|[H1 H1']] [H2|[H2 H2']]; unfold elt; [left; lia|left; lia|left; lia|right].
  split; [lia|]. by eapply bytes_ltb_trans.
Qed.

Lemma elt_irrefl a : ¬ elt a a.
Proof. intros [H|[_ H]]; [lia|]. by rewrite bytes_ltb_irrefl in H. Qed.

Lemma elt_asym a b : elt a b → ¬ elt b a.
Proof. intros H1 H2. by eapply elt_irrefl, elt_trans. Qed.

Lemma elt_total a b : elt a b ∨ same a b ∨ elt b a.
Proof.
  unfold elt, same. destruct (Z.lt_trichotomy (fkey (Score a)) (fkey (Score b))) as [|[E|]]; [tauto| |tauto].
  destruct (bytes_ltb (Member a) (Member b)) eqn:E1; [tauto|].
  destruct (bytes_ltb (Member b) (Member a)) eqn:E2; [right; right; right; done|].
  right. left. split; [done|]. by apply bytes_ltb_total.
Qed.

Lemma same_elt_l a b c : same a b → elt a c → elt b c.
Proof. intros [E1 E2] H. unfold elt in *. by rewrite <- E1, <- E2. Qed.

Lemma same_elt_r a b c : same a b → elt c a → elt c b.
Proof. intros [E1 E2] H. unfold elt in *. by rewrite <- E1, <- E2. Qed.

Lemma same_sym a b : same a b → same b a.
Proof. intros [E1 E2]. by split. Qed.

Lemma same_irrefl a b : same a b → ¬ elt a b.
Proof. intros Hs H. eapply (elt_irrefl b), same_elt_l; done. Qed.

Lemma feq_key a b : fnan a = false → fnan b = false → feq a b = bool_decide (fkey a = fkey b).
Proof. unfold feq. intros -> ->. cbn. destruct (Z.eqb_spec (fkey a) (fkey b)); by case_bool_decide. Qed.

Lemma flt_key a b : fnan a = false → fnan b = false → flt a b = bool_decide (fkey a < fkey b).
Proof. unfold flt. intros -> ->. cbn. destruct (Z.ltb_spec (fkey a) (fkey b)); case_bool_decide; done || lia. Qed.

Lemma fle_key a b : fnan a = false → fnan b = false → fle a b = bool_decide (fkey a <= fkey b).
Proof. unfold fle. intros -> ->. cbn. destruct (Z.leb_spec (fkey a) (fkey b)); case_bool_decide; done || lia. Qed.
