(* ===== verification/Border.v ===== *)
(** * Range borders: [internal/datastruct/sortedset/border.go]

    The two implementations of the interface [Border], by score and by member,
    as one inductive type; a type assertion on the wrong one panics. *)

From stdpp Require Import base list strings.
From Stdlib Require Import ZArith Lia.
From S2P Require Import Prelude Float64.

Local Open Scope Z_scope.

Inductive Border :=
| ScoreBorder (Inf : Z) (Value : Z) (Exclude : bool)
| LexBorder (Inf : Z) (Value : bytes) (Exclude : bool).

Definition scoreNegativeInf : Z := -1.
Definition scorePositiveInf : Z := 1.
Definition lexNegativeInf : Z := 45.
Definition lexPositiveInf : Z := 43.

(** [border.greater(element)]: the element is within the upper border. *)
Definition score_greater (Inf Value : Z) (Exclude : bool) (element : Element) : bool :=
  let value := Score element in
  if Inf =? scoreNegativeInf then false
  else if Inf =? scorePositiveInf then true
  else if Exclude then flt value Value else fle value Value.

Definition lex_greater (Inf : Z) (Value : bytes) (Exclude : bool) (element : Element) : bool :=
  let value := Member element in
  if Inf =? lexNegativeInf then false
  else if Inf =? lexPositiveInf then true
  else if Exclude then bytes_ltb value Value else bytes_leb value Value.

Definition greater (border : Border) (element : Element) : bool :=
  match border with
  | ScoreBorder Inf Value Exclude => score_greater Inf Value Exclude element
  | LexBorder Inf Value Exclude => lex_greater Inf Value Exclude element
  end.

(** [border.less(element)]: the element is within the lower border. *)
Definition score_less (Inf Value : Z) (Exclude : bool) (element : Element) : bool :=
  let value := Score element in
  if Inf =? scoreNegativeInf then true
  else if Inf =? scorePositiveInf then false
  else if Exclude then flt Value value else fle Value value.

Definition lex_less (Inf : Z) (Value : bytes) (Exclude : bool) (element : Element) : bool :=
  let value := Member element in
  if Inf =? lexNegativeInf then true
  else if Inf =? lexPositiveInf then false
  else if Exclude then bytes_ltb Value value else bytes_leb Value value.

Definition less (border : Border) (element : Element) : bool :=
  match border with
  | ScoreBorder Inf Value Exclude => score_less Inf Value Exclude element
  | LexBorder Inf Value Exclude => lex_less Inf Value Exclude element
  end.

Definition getExclude (border : Border) : bool :=
  match border with ScoreBorder _ _ e => e | LexBorder _ _ e => e end.

(** Despite its name it tells that the two borders leave nothing between them;
    the type assertion on [max] panics on the other kind. *)
Definition score_isIntersected (minValue : Z) (Exclude : bool) (max : Border) : res bool :=
  match max with
  | ScoreBorder _ maxValue _ =>
      Ret (flt maxValue minValue || (feq minValue maxValue && (Exclude || getExclude max)))
  | LexBorder _ _ _ => Panic
  end.

Definition lex_isIntersected (Inf : Z) (minValue : bytes) (Exclude : bool) (max : Border) : res bool :=
  match max with
  | LexBorder _ maxValue _ =>
      Ret ((Inf =? lexPositiveInf) || bytes_ltb maxValue minValue
           || (bytes_eqb minValue maxValue && (Exclude || getExclude max)))
  | ScoreBorder _ _ _ => Panic
  end.

Definition isIntersected (min max : Border) : res bool :=
  match min with
  | ScoreBorder _ Value Exclude => score_isIntersected Value Exclude max
  | LexBorder Inf Value Exclude => lex_isIntersected Inf Value Exclude max
  end.

Definition scorePositiveInfBorder : Border := ScoreBorder scorePositiveInf fzero false.
Definition scoreNegativeInfBorder : Border := ScoreBorder scoreNegativeInf fzero false.
Definition lexPositiveInfBorder : Border := LexBorder lexPositiveInf [] false.
Definition lexNegativeInfBorder : Border := LexBorder lexNegativeInf [] false.

Section parse.
Context (ParseFloat : bytes → option Z).

(** [None] is the error result; an empty argument panics at [s[0]]. *)
Definition ParseScoreBorder (s : bytes) : res (option Border) :=
  if bytes_eqb s (str "inf") || bytes_eqb s (str "+inf") then Ret (Some scorePositiveInfBorder)
  else if bytes_eqb s (str "-inf") then Ret (Some scoreNegativeInfBorder)
  else
    match s with
    | [] => Panic
    | c :: rest =>
        if byteZ c =? 40
        then Ret ((λ value, ScoreBorder 0 value true) <$> ParseFloat rest)
        else Ret ((λ value, ScoreBorder 0 value false) <$> ParseFloat s)
    end.

Definition ParseLexBorder (s : bytes) : res (option Border) :=
  if bytes_eqb s (str "+") then Ret (Some lexPositiveInfBorder)
  else if bytes_eqb s (str "-") then Ret (Some lexNegativeInfBorder)
  else
    match s with
    | [] => Panic
    | c :: rest =>
        if byteZ c =? 40 then Ret (Some (LexBorder 0 rest true))
        else if byteZ c =? 91 then Ret (Some (LexBorder 0 rest false))
        else Ret None
    end.
End parse.

(** ** Borders cut the order of elements *)

(** Along [es], once an element is above the lower border all later ones are,
    and once one is beyond the upper border all later ones are. *)
Definition cuts (min max : Border) (es : list Element) : Prop :=
  ∀ a b, a ∈ es → b ∈ es → elt a b →
    (less min a = true → less min b = true) ∧ (greater max b = true → greater max a = true).

Definition num_border (b : Border) : Prop :=
  match b with ScoreBorder _ v _ => fnan v = false | LexBorder _ _ _ => True end.

(** Score borders cut every list of numbers; member borders cut a list whose
    elements share one score. *)
Lemma less_mono_score i v x a b :
  fnan v = false → num a → num b → elt a b → less (ScoreBorder i v x) a = true → less (ScoreBorder i v x) b = true.
Proof.
  unfold num. intros Hv Ha Hb Hab. cbn [less greater]. unfold score_less, score_greater.
  destruct (i =? scoreNegativeInf); [done|]. destruct (i =? scorePositiveInf); [done|].
  assert (Hk : fkey (Score a) <= fkey (Score b)) by (destruct Hab as [?|[? _]]; lia).
  destruct x; rewrite ?flt_key, ?fle_key by done; intros ?%bool_decide_eq_true; apply bool_decide_eq_true; lia.
Qed.

Lemma greater_anti_score i v x a b :
  fnan v = false → num a → num b → elt a b → greater (ScoreBorder i v x) b = true → greater (ScoreBorder i v x) a = true.
Proof.
  unfold num. intros Hv Ha Hb Hab. cbn [less greater]. unfold score_less, score_greater.
  destruct (i =? scoreNegativeInf); [done|]. destruct (i =? scorePositiveInf); [done|].
  assert (Hk : fkey (Score a) <= fkey (Score b)) by (destruct Hab as [?|[? _]]; lia).
  destruct x; rewrite ?flt_key, ?fle_key by done; intros ?%bool_decide_eq_true; apply bool_decide_eq_true; lia.
Qed.

Lemma cuts_score i v x j w y es :
  fnan v = false → fnan w = false → Forall num es → cuts (ScoreBorder i v x) (ScoreBorder j w y) es.
Proof.
  intros Hv Hw Hn a b Ha Hb Hab. rewrite Forall_forall in Hn.
  split; [apply less_mono_score|apply greater_anti_score]; auto.
Qed.

Lemma cuts_lex i v x j w y es :
  (∀ a b, a ∈ es → b ∈ es → fkey (Score a) = fkey (Score b)) → cuts (LexBorder i v x) (LexBorder j w y) es.
Proof.
  intros Hs a b Ha Hb [Hlt|[_ Hlt]]; [specialize (Hs a b Ha Hb); lia|].
  assert (Hle : bytes_le (Member a) (Member b)).
  { unfold bytes_le, bytes_leb. by rewrite (bytes_ltb_asym _ _ Hlt). }
  cbn [less greater]. unfold lex_less, lex_greater. split.
  - destruct (i =? lexNegativeInf); [done|]. destruct (i =? lexPositiveInf); [done|]. destruct x.
    + intros H. by eapply bytes_ltb_trans.
    + intros H. by apply (bytes_le_trans _ (Member a)).
  - destruct (j =? lexNegativeInf); [done|]. destruct (j =? lexPositiveInf); [done|]. destruct y.
    + intros H. by eapply bytes_ltb_trans.
    + intros H. by apply (bytes_le_trans _ (Member b)).
Qed.

(** An empty range argument, which the clients of ZRANGEBYSCORE and
    ZRANGEBYLEX may send, panics in both border parsers, whatever the float
    parser does, instead of giving the error result. *)
Theorem empty_border_argument_panics ParseFloat : ParseScoreBorder ParseFloat [] = Panic ∧ ParseLexBorder [] = Panic.
Proof. by split. Qed.
