(* ===== verification/SkipList.v ===== *)
(** * The skiplist: [internal/datastruct/sortedset/skiplist.go]

    Nodes are heap objects named by numbers, the header is number 0.  A
    [*Level] is the object at index [i] of the slice [level] of a node, so a
    level object is named by the node and the index; [nodes] and [levels] are
    the two heaps.  Forward and backward pointers are [option]s, [None] is nil.

    The abstract value is the list of the nodes in order, with their heights;
    it determines every forward pointer and every span. *)

From stdpp Require Import base gmap list sorting.
From Stdlib Require Import ZArith Lia.
From S2P Require Import Prelude Float64 Border.

Local Open Scope Z_scope.

Definition maxLevel : nat := 16.

Record Level := MkLevel { forward : option nat; span : Z }.
Record node := MkNode { nelem : Element; backward : option nat; nheight : nat }.
Record skiplist := MkSL {
  nodes : gmap nat node;
  levels : gmap (nat * nat) Level;
  tail : option nat;
  slen : Z;
  slevel : nat;
  fresh_loc : nat
}.

Definition header : nat := 0.

(** [makeNode]: a node and its level objects. *)
Definition makeNode (ns : gmap nat node) (ls : gmap (nat * nat) Level) (loc level : nat) (score : Z) (member : bytes)
    : gmap nat node * gmap (nat * nat) Level :=
  (<[loc := MkNode (MkElement member score) None level]> ns,
   foldr (λ i ls, <[(loc, i) := MkLevel None 0]> ls) ls (seq 0 level)).

Definition makeSkiplist : skiplist :=
  let '(ns, ls) := makeNode ∅ ∅ header maxLevel fzero [] in MkSL ns ls None 0 1 1.

(** [bits.Len64] *)
Definition bits_Len64 (x : Z) : Z := if x =? 0 then 0 else Z.log2 x + 1.

(** [randomLevel] with the value that [rand.Uint64] returned. *)
Definition randomLevel (rnd : Z) : nat :=
  let total := Z.shiftl 1 (Z.of_nat maxLevel) - 1 in
  let k := rnd mod total in
  Z.to_nat (Z.of_nat maxLevel - bits_Len64 (k + 1) + 1).

Definition get_node (sl : skiplist) (n : nat) : res node := must (nodes sl !! n).
Definition get_level (sl : skiplist) (n i : nat) : res Level := must (levels sl !! (n, i)).
Definition set_level (sl : skiplist) (n i : nat) (lv : Level) : skiplist :=
  MkSL (nodes sl) (<[(n, i) := lv]> (levels sl)) (tail sl) (slen sl) (slevel sl) (fresh_loc sl).
Definition set_backward (sl : skiplist) (n : nat) (b : option nat) : res skiplist :=
  nd ← get_node sl n;
  Ret (MkSL (<[n := MkNode (nelem nd) b (nheight nd)]> (nodes sl)) (levels sl) (tail sl) (slen sl) (slevel sl) (fresh_loc sl)).
Definition set_tail (sl : skiplist) (t : option nat) : skiplist :=
  MkSL (nodes sl) (levels sl) t (slen sl) (slevel sl) (fresh_loc sl).
Definition set_len (sl : skiplist) (n : Z) : skiplist :=
  MkSL (nodes sl) (levels sl) (tail sl) n (slevel sl) (fresh_loc sl).
Definition set_slevel (sl : skiplist) (l : nat) : skiplist :=
  MkSL (nodes sl) (levels sl) (tail sl) (slen sl) l (fresh_loc sl).

(** The inner loop of every search: at level [i], follow forward pointers while
    [cond] holds of the rank after the step and of the next element.  [rank]
    is the number of nodes passed.  No more steps than nodes are possible. *)
Fixpoint walk (fuel : nat) (sl : skiplist) (cond : Z → Element → bool) (i n : nat) (rank : Z) : res (nat * Z) :=
  match fuel with
  | O => OutOfFuel
  | S f =>
      lv ← get_level sl n i;
      match forward lv with
      | None => Ret (n, rank)
      | Some m =>
          nd ← get_node sl m;
          if cond (rank + span lv) (nelem nd) then walk f sl cond i m (rank + span lv) else Ret (n, rank)
      end
  end.

Definition walk_fuel (sl : skiplist) : nat := S (Z.to_nat (slen sl)).

(** The outer loop from the top level down; the result pairs [update[i]] with
    [rank[i]], level 0 first. *)
Fixpoint descend (sl : skiplist) (cond : Z → Element → bool) (lvl n : nat) (rank : Z) (update : list (nat * Z))
    : res (list (nat * Z)) :=
  match lvl with
  | O => Ret update
  | S i =>
      '(n', rank') ← walk (walk_fuel sl) sl cond i n rank;
      descend sl cond i n' rank' ((n', rank') :: update)
  end.

Definition before (member : bytes) (score : Z) (_ : Z) (e : Element) : bool := elem_before e member score.

(** The three loops of [insert] after the search. *)
Definition extend_level (sl : skiplist) (i : nat) : res skiplist :=
  lv ← get_level sl header i; Ret (set_level sl header i (MkLevel (forward lv) (slen sl))).

Definition link_level (update : list (nat * Z)) (rank0 : Z) (new : nat) (sl : skiplist) (i : nat) : res skiplist :=
  '(u, rank) ← must (update !! i);
  lu ← get_level sl u i;
  let sl1 := set_level sl new i (MkLevel (forward lu) (span lu - (rank0 - rank))) in
  Ret (set_level sl1 u i (MkLevel (Some new) (rank0 - rank + 1))).

Definition bump_level (update : list (nat * Z)) (sl : skiplist) (i : nat) : res skiplist :=
  '(u, _) ← must (update !! i);
  lu ← get_level sl u i;
  Ret (set_level sl u i (MkLevel (forward lu) (span lu + 1))).

Definition insert (sl : skiplist) (member : bytes) (score rnd : Z) : res skiplist :=
  update0 ← descend sl (before member score) (slevel sl) header 0 [];
  let level := randomLevel rnd in
  sl1 ← foldM extend_level (seq (slevel sl) (level - slevel sl)) sl;
  let update := update0 ++ replicate (level - slevel sl) (header, 0) in
  let sl2 := set_slevel sl1 (Nat.max (slevel sl) level) in
  let new := fresh_loc sl2 in
  let '(ns, ls) := makeNode (nodes sl2) (levels sl2) new level score member in
  let sl3 := MkSL ns ls (tail sl2) (slen sl2) (slevel sl2) (S new) in
  '(u0, rank0) ← must (update !! 0%nat);
  sl4 ← foldM (link_level update rank0 new) (seq 0 level) sl3;
  sl5 ← foldM (bump_level update) (seq level (slevel sl4 - level)) sl4;
  sl6 ← set_backward sl5 new (if decide (u0 = header) then None else Some u0);
  lv ← get_level sl6 new 0;
  sl7 ← match forward lv with
        | Some f => set_backward sl6 f (Some new)
        | None => Ret (set_tail sl6 (Some new))
        end;
  Ret (set_len sl7 (slen sl7 + 1)).

(** The first loop of [removeNode]. *)
Definition unlink_level (update : list (nat * Z)) (x : nat) (sl : skiplist) (i : nat) : res skiplist :=
  '(u, _) ← must (update !! i);
  lu ← get_level sl u i;
  if decide (forward lu = Some x) then
    lx ← get_level sl x i;
    Ret (set_level sl u i (MkLevel (forward lx) (span lu + (span lx - 1))))
  else Ret (set_level sl u i (MkLevel (forward lu) (span lu - 1))).

(** The loop that lowers the level of the list. *)
Fixpoint shrink (sl : skiplist) (lvl : nat) : res nat :=
  match lvl with
  | S (S _ as l) =>
      lv ← get_level sl header l;
      match forward lv with None => shrink sl l | Some _ => Ret lvl end
  | _ => Ret lvl
  end.

Definition removeNode (sl : skiplist) (x : nat) (update : list (nat * Z)) : res skiplist :=
  sl1 ← foldM (unlink_level update x) (seq 0 (slevel sl)) sl;
  nd ← get_node sl1 x;
  lx ← get_level sl1 x 0;
  sl2 ← match forward lx with
        | Some f => set_backward sl1 f (backward nd)
        | None => Ret (set_tail sl1 (backward nd))
        end;
  l ← shrink sl2 (slevel sl2);
  let sl3 := set_slevel sl2 l in
  Ret (set_len sl3 (slen sl3 - 1)).

(** [node.level[0].forward] of [update[0]]. *)
Definition next_of (sl : skiplist) (update : list (nat * Z)) : res (option nat) :=
  '(u0, _) ← must (update !! 0%nat);
  lv ← get_level sl u0 0; Ret (forward lv).

Definition remove (sl : skiplist) (member : bytes) (score : Z) : res (skiplist * bool) :=
  update ← descend sl (before member score) (slevel sl) header 0 [];
  x ← next_of sl update;
  match x with
  | None => Ret (sl, false)
  | Some x =>
      nd ← get_node sl x;
      if feq score (Score (nelem nd)) && bytes_eqb (Member (nelem nd)) member
      then sl' ← removeNode sl x update; Ret (sl', true)
      else Ret (sl, false)
  end.

(** The condition of [getRank]: up to and including the element. *)
Definition upto (member : bytes) (score : Z) (_ : Z) (e : Element) : bool :=
  flt (Score e) score || (feq (Score e) score && bytes_leb (Member e) member).

Fixpoint rank_loop (sl : skiplist) (member : bytes) (score : Z) (lvl n : nat) (rank : Z) : res Z :=
  match lvl with
  | O => Ret 0
  | S i =>
      '(n', rank') ← walk (walk_fuel sl) sl (upto member score) i n rank;
      nd ← get_node sl n';
      if bytes_eqb (Member (nelem nd)) member then Ret rank' else rank_loop sl member score i n' rank'
  end.

Definition getRank (sl : skiplist) (member : bytes) (score : Z) : res Z :=
  rank_loop sl member score (slevel sl) header 0.

Definition at_most (rank i : Z) (_ : Element) : bool := i <=? rank.

Fixpoint by_rank_loop (sl : skiplist) (rank : Z) (lvl n : nat) (i : Z) : res (option nat) :=
  match lvl with
  | O => Ret None
  | S l =>
      '(n', i') ← walk (walk_fuel sl) sl (at_most rank) l n i;
      if i' =? rank then Ret (Some n') else by_rank_loop sl rank l n' i'
  end.

Definition getByRank (sl : skiplist) (rank : Z) : res (option nat) := by_rank_loop sl rank (slevel sl) header 0.

Definition hasInRange (sl : skiplist) (min max : Border) : res bool :=
  x ← isIntersected min max;
  if x : bool then Ret false
  else
    match tail sl with
    | None => Ret false
    | Some t =>
        nd ← get_node sl t;
        if negb (less min (nelem nd)) then Ret false
        else
          lv ← get_level sl header 0;
          match forward lv with
          | None => Ret false
          | Some f => nd' ← get_node sl f; Ret (greater max (nelem nd'))
          end
    end.

(** The last node of a descent, which is [update[0]]. *)
Definition last_node (sl : skiplist) (cond : Z → Element → bool) : res nat :=
  update ← descend sl cond (slevel sl) header 0 [];
  '(n, _) ← must (update !! 0%nat); Ret n.

Definition getFirstInRange (sl : skiplist) (min max : Border) : res (option nat) :=
  b ← hasInRange sl min max;
  if negb b then Ret None
  else
    n ← last_node sl (λ _ e, negb (less min e));
    lv ← get_level sl n 0;
    f ← must (forward lv);
    nd ← get_node sl f;
    if negb (greater max (nelem nd)) then Ret None else Ret (Some f).

Definition getLastInRange (sl : skiplist) (min max : Border) : res (option nat) :=
  b ← hasInRange sl min max;
  if negb b then Ret None
  else
    n ← last_node sl (λ _ e, greater max e);
    nd ← get_node sl n;
    if negb (less min (nelem nd)) then Ret None else Ret (Some n).

Fixpoint remove_range_loop (fuel : nat) (sl : skiplist) (max : Border) (limit : Z) (update : list (nat * Z))
    (x : option nat) (removed : list Element) : res (skiplist * list Element) :=
  match fuel with
  | O => OutOfFuel
  | S f =>
      match x with
      | None => Ret (sl, removed)
      | Some x =>
          nd ← get_node sl x;
          if negb (greater max (nelem nd)) then Ret (sl, removed)
          else
            lx ← get_level sl x 0;
            let removed' := removed ++ [nelem nd] in
            sl' ← removeNode sl x update;
            if (0 <? limit) && (Z.of_nat (length removed') =? limit) then Ret (sl', removed')
            else remove_range_loop f sl' max limit update (forward lx) removed'
      end
  end.

Definition RemoveRange (sl : skiplist) (min max : Border) (limit : Z) : res (skiplist * list Element) :=
  update ← descend sl (λ _ e, negb (less min e)) (slevel sl) header 0 [];
  x ← next_of sl update;
  remove_range_loop (walk_fuel sl) sl max limit update x [].

Definition below_rank (start i : Z) (_ : Element) : bool := i <? start.

Fixpoint remove_rank_loop (fuel : nat) (sl : skiplist) (i stop : Z) (update : list (nat * Z))
    (x : option nat) (removed : list Element) : res (skiplist * list Element) :=
  match fuel with
  | O => OutOfFuel
  | S f =>
      match x with
      | None => Ret (sl, removed)
      | Some x =>
          if negb (i <? stop) then Ret (sl, removed)
          else
            lx ← get_level sl x 0;
            nd ← get_node sl x;
            sl' ← removeNode sl x update;
            remove_rank_loop f sl' (i + 1) stop update (forward lx) (removed ++ [nelem nd])
      end
  end.

Definition RemoveRangeByRank (sl : skiplist) (start stop : Z) : res (skiplist * list Element) :=
  update ← descend sl (below_rank start) (slevel sl) header 0 [];
  '(_, i) ← must (update !! 0%nat);
  x ← next_of sl update;
  remove_rank_loop (walk_fuel sl) sl (i + 1) stop update x [].
