(* ===== verification/SkipListRep.v ===== *)
(** * The skiplist: representation and search

    [rep sl P] says that the skiplist [sl] is the sequence [P] of nodes, header
    first: every forward pointer at level [i] leads to the next node that is
    taller than [i] and its span is the distance to it, backward pointers lead
    to the preceding node, and the tail is the last one.  A search at all levels
    stops at the last position that its condition admits, and records the last
    position of each level on the way. *)

From stdpp Require Import base gmap list sorting.
From Stdlib Require Import ZArith Lia.
From S2P Require Import Prelude Float64 Border SkipList.

Local Open Scope nat_scope.

(** ** Representation *)

(** A position: the node there, its element and its height. *)
Record entry := MkEntry { eloc : nat; eel : Element; eh : nat }.

Definition tall (i : nat) (x : entry) : Prop := i < eh x.

#[export] Instance tall_dec i x : Decision (tall i x).
Proof. unfold tall. apply _. Defined.

(** The level object [lv] at position [p] and level [i]. *)
Definition link (P : list entry) (i p : nat) (lv : Level) : Prop :=
  match forward lv with
  | Some l => ∃ q y, P !! q = Some y ∧ eloc y = l ∧ p < q ∧ tall i y ∧
      (∀ k z, P !! k = Some z → p < k < q → ¬ tall i z) ∧ span lv = (Z.of_nat q - Z.of_nat p)%Z
  | None => (∀ k z, P !! k = Some z → p < k → ¬ tall i z) ∧
      span lv = (Z.of_nat (length P) - 1 - Z.of_nat p)%Z
  end.

(** The backward pointer at position [p]. *)
Definition back (P : list entry) (p : nat) : option nat :=
  match p with S (S p' as q) => eloc <$> P !! q | _ => None end.

Record rep (sl : skiplist) (P : list entry) : Prop := {
  rep_header : ∃ x, P !! 0 = Some x ∧ eloc x = header ∧ eh x = maxLevel ∧ eel x = MkElement [] fzero;
  rep_nodup : ∀ p q x y, P !! p = Some x → P !! q = Some y → eloc x = eloc y → p = q;
  rep_node : ∀ p x, P !! p = Some x → nodes sl !! eloc x = Some (MkNode (eel x) (back P p) (eh x));
  rep_height : ∀ p x, P !! p = Some x → 1 <= eh x <= maxLevel ∧ (1 <= p → eh x <= slevel sl);
  rep_level : ∀ p x i, P !! p = Some x → tall i x →
    ∃ lv, levels sl !! (eloc x, i) = Some lv ∧ if decide (i < slevel sl) then link P i p lv else forward lv = None;
  rep_tail : tail sl = back P (length P);
  rep_len : slen sl = (Z.of_nat (length P) - 1)%Z;
  rep_slevel : 1 <= slevel sl <= maxLevel;
  rep_fresh : ∀ p x, P !! p = Some x → eloc x < fresh_loc sl
}.

Lemma rep_pos sl P : rep sl P → 0 < length P.
Proof. intros H. destruct (rep_header _ _ H) as (x & Hx & _). by eapply lookup_lt_Some. Qed.

(** ** The empty list *)

Lemma lookup_new_levels loc ls n i m :
  foldr (λ j (ls : gmap (nat * nat) Level), <[(loc, j) := MkLevel None 0]> ls) ls (seq m n) !! (loc, i) =
    if decide (m <= i < m + n) then Some (MkLevel None 0) else ls !! (loc, i).
Proof.
  revert m. induction n as [|n IH]; intros m; cbn [seq foldr].
  { by rewrite decide_False by lia. }
  destruct (decide (i = m)) as [->|Hne].
  - rewrite lookup_insert_eq, decide_True by lia. done.
  - rewrite lookup_insert_ne by congruence. rewrite IH.
    destruct (decide (S m <= i < S m + n)), (decide (m <= i < m + S n)); done || lia.
Qed.

Lemma lookup_other_levels loc ls n i m l :
  l ≠ loc →
  foldr (λ j (ls : gmap (nat * nat) Level), <[(loc, j) := MkLevel None 0]> ls) ls (seq m n) !! (l, i) = ls !! (l, i).
Proof.
  intros Hl. revert m. induction n as [|n IH]; intros m; cbn [seq foldr]; [done|].
  by rewrite lookup_insert_ne, IH by congruence.
Qed.

Definition header_entry : entry := MkEntry header (MkElement [] fzero) maxLevel.

Lemma rep_make : rep makeSkiplist [header_entry].
Proof.
  assert (H1 : ∀ p x, [header_entry] !! p = Some x → p = 0 ∧ x = header_entry) by (by intros [|[|?]] x [= <-]).
  split; cbn [slevel slen tail fresh_loc makeSkiplist makeNode nodes levels].
  - by exists header_entry.
  - intros p q x y [-> ->]%H1 [-> ->]%H1. done.
  - intros p x [-> ->]%H1. by rewrite lookup_insert_eq.
  - intros p x [-> ->]%H1. cbn. unfold maxLevel. lia.
  - intros p x i [-> ->]%H1 Hi. unfold tall in Hi. cbn [eh header_entry] in Hi.
    exists (MkLevel None 0). cbn [eloc header_entry]. rewrite lookup_new_levels, decide_True by lia.
    split; [done|]. destruct (decide (i < 1)); [|done]. cbn. split; [|done]. intros k z [-> ->]%H1. lia.
  - done.
  - done.
  - unfold maxLevel. lia.
  - intros p x [-> ->]%H1. cbn. unfold header. lia.
Qed.

Lemma randomLevel_range rnd : 1 <= randomLevel rnd <= maxLevel.
Proof.
  unfold randomLevel, maxLevel, bits_Len64. change (Z.shiftl 1 (Z.of_nat 16) - 1)%Z with 65535%Z.
  pose proof (Z.mod_pos_bound rnd 65535). set (k := (rnd mod 65535)%Z) in *.
  destruct (Z.eqb_spec (k + 1) 0)%Z; [lia|].
  assert (0 <= Z.log2 (k + 1) < 16)%Z.
  { split; [apply Z.log2_nonneg|]. apply Z.log2_lt_pow2; lia. }
  lia.
Qed.

(** ** Search *)

(** Position [q] is the last one up to [r] that is taller than [i]. *)
Definition is_pred (P : list entry) (i r q : nat) (y : entry) : Prop :=
  P !! q = Some y ∧ tall i y ∧ q <= r ∧ ∀ k z, P !! k = Some z → q < k <= r → ¬ tall i z.

(** [cond] admits exactly the positions up to [r]. *)
Definition admits (P : list entry) (cond : Z → Element → bool) (r : nat) : Prop :=
  r < length P ∧ ∀ q x, P !! q = Some x → 1 <= q → cond (Z.of_nat q) (eel x) = bool_decide (q <= r).

Lemma walk_spec sl P i cond r fuel p x :
  rep sl P → i < slevel sl → admits P cond r → P !! p = Some x → tall i x → p <= r → r - p < fuel →
  ∃ q y, walk fuel sl cond i (eloc x) (Z.of_nat p) = Ret (eloc y, Z.of_nat q) ∧ p <= q ∧ is_pred P i r q y.
Proof.
  intros Hrep Hi [Hr Hc]. revert p x. induction fuel as [|fuel IH]; intros p x Hx Ht Hp Hf; [lia|]. cbn [walk].
  destruct (rep_level _ _ Hrep p x i Hx Ht) as (lv & Hlv & Hlink). rewrite decide_True in Hlink by done.
  unfold get_level. rewrite Hlv. cbn [must mbind res_bind]. unfold link in Hlink.
  destruct (forward lv) as [l|].
  - destruct Hlink as (q & y & Hy & <- & Hpq & Hty & Hmid & Hspan).
    unfold get_node. rewrite (rep_node _ _ Hrep q y Hy). cbn [must mbind res_bind nelem].
    replace (Z.of_nat p + span lv)%Z with (Z.of_nat q) by lia. rewrite (Hc q y Hy) by lia.
    case_bool_decide as Hq.
    + destruct (IH q y Hy Hty Hq) as (q' & y' & E & Hle & Hpred); [lia|]. exists q', y'. split_and!; [done|lia|done].
    + exists p, x. split_and!; [done|done|]. split_and!; [done|done|done|]. intros k z Hz Hk. apply (Hmid k z Hz). lia.
  - destruct Hlink as [Hnone _]. exists p, x. split_and!; [done|done|]. split_and!; [done|done|done|].
    intros k z Hz Hk. apply (Hnone k z Hz). lia.
Qed.

(** [update] holds, for each level, the last position up to [r]. *)
Definition update_ok (P : list entry) (r : nat) (us : list (nat * Z)) (from : nat) : Prop :=
  ∀ j u, us !! j = Some u → ∃ q y, u = (eloc y, Z.of_nat q) ∧ is_pred P (from + j) r q y.

Lemma descend_from sl P cond r lvl p x us :
  rep sl P → admits P cond r → lvl <= slevel sl →
  P !! p = Some x → lvl <= eh x → p <= r → update_ok P r us lvl →
  (∀ k z, P !! k = Some z → p < k <= r → eh z <= lvl) →
  ∃ us', descend sl cond lvl (eloc x) (Z.of_nat p) us = Ret us' ∧ length us' = lvl + length us ∧ update_ok P r us' 0.
Proof.
  intros Hrep Hc. revert p x us. induction lvl as [|i IH]; intros p x us Hl Hx Hh Hp Hus Htall; cbn [descend].
  { exists us. done. }
  destruct (walk_spec sl P i cond r (walk_fuel sl) p x Hrep) as (q & y & -> & Hpq & Hpred); [lia|done|done| |done| |].
  { unfold tall. lia. }
  { unfold walk_fuel. rewrite (rep_len _ _ Hrep). destruct Hc as [Hr _]. lia. }
  cbn [mbind res_bind]. pose proof Hpred as (Hy & Hty & Hq & Hmid).
  destruct (IH q y ((eloc y, Z.of_nat q) :: us)) as (us' & -> & Hlen & Hok); [lia|done|unfold tall in Hty; lia|done| | |].
  - intros [|j] u; cbn.
    + intros [= <-]. exists q, y. by rewrite Nat.add_0_r.
    + intros Hu. destruct (Hus j u Hu) as (q' & y' & -> & Hpr). exists q', y'. split; [done|].
      by replace (i + S j) with (S i + j) by lia.
  - intros k z Hz Hk. specialize (Hmid k z Hz Hk). unfold tall in Hmid. lia.
  - exists us'. split_and!; [done|cbn in Hlen; lia|done].
Qed.

Lemma descend_spec sl P cond r :
  rep sl P → admits P cond r →
  ∃ us, descend sl cond (slevel sl) header 0 [] = Ret us ∧ length us = slevel sl ∧ update_ok P r us 0.
Proof.
  intros Hrep Hc. destruct (rep_header _ _ Hrep) as (x & Hx & <- & Hh & _).
  destruct (descend_from sl P cond r (slevel sl) 0 x []) as (us & E & Hlen & Hok).
  - done.
  - done.
  - done.
  - done.
  - rewrite Hh. apply (rep_slevel _ _ Hrep).
  - lia.
  - by intros j u.
  - intros k z Hz Hk. apply (rep_height _ _ Hrep k z Hz). lia.
  - exists us. split_and!; [done|by rewrite Nat.add_0_r in Hlen|done].
Qed.

(** Every node has level 0, so the search ends at position [r] itself. *)
Lemma is_pred_0 sl P r q y : rep sl P → r < length P → is_pred P 0 r q y → q = r.
Proof.
  intros Hrep Hr (Hy & _ & Hq & Hmid). destruct (decide (q = r)) as [|Hne]; [done|].
  destruct (lookup_lt_is_Some_2 P r Hr) as [z Hz].
  destruct (Hmid r z Hz); [lia|]. unfold tall. destruct (rep_height _ _ Hrep r z Hz). lia.
Qed.

Lemma update_0 sl P r us :
  rep sl P → r < length P → 0 < length us → update_ok P r us 0 →
  ∃ y, us !! 0 = Some (eloc y, Z.of_nat r) ∧ P !! r = Some y.
Proof.
  intros Hrep Hr Hl Hok. destruct (lookup_lt_is_Some_2 us 0 Hl) as [u Hu].
  destruct (Hok 0 u Hu) as (q & y & -> & Hp). pose proof (is_pred_0 _ _ _ _ _ Hrep Hr Hp) as ->.
  exists y. split; [done|]. apply Hp.
Qed.

(** The level-0 forward pointer at a position is the next position. *)
Lemma forward_0 sl P p x :
  rep sl P → P !! p = Some x →
  ∃ lv, levels sl !! (eloc x, 0) = Some lv ∧ forward lv = eloc <$> P !! S p.
Proof.
  intros Hrep Hx. destruct (rep_height _ _ Hrep p x Hx) as [Hh _]. pose proof (rep_slevel _ _ Hrep) as Hl.
  destruct (rep_level _ _ Hrep p x 0 Hx) as (lv & Hlv & Hlink); [unfold tall; lia|].
  rewrite decide_True in Hlink by lia. exists lv. split; [done|]. unfold link in Hlink.
  assert (Hall : ∀ k z, P !! k = Some z → tall 0 z).
  { intros k z Hz. unfold tall. destruct (rep_height _ _ Hrep k z Hz). lia. }
  destruct (forward lv) as [l|].
  - destruct Hlink as (q & y & Hy & <- & Hpq & _ & Hmid & _). destruct (decide (q = S p)) as [->|Hne].
    + by rewrite Hy.
    + destruct (lookup_lt_is_Some_2 P (S p)) as [z Hz]; [apply lookup_lt_Some in Hy; lia|].
      destruct (Hmid (S p) z Hz); [lia|]. by eapply Hall.
  - destruct Hlink as [Hnone _]. destruct (P !! S p) as [z|] eqn:Hz; [|done].
    destruct (Hnone (S p) z Hz); [lia|]. by eapply Hall.
Qed.

Lemma next_of_spec sl P r us :
  rep sl P → r < length P → 0 < length us → update_ok P r us 0 → next_of sl us = Ret (eloc <$> P !! S r).
Proof.
  intros Hrep Hr Hl Hok. destruct (update_0 sl P r us Hrep Hr Hl Hok) as (y & E & Hy).
  unfold next_of. rewrite E. cbn [must mbind res_bind]. destruct (forward_0 sl P r y Hrep Hy) as (lv & Hlv & Hf).
  unfold get_level. rewrite Hlv. cbn. by rewrite Hf.
Qed.

(** ** Inserting and deleting one position *)

Definition ins (P : list entry) (r : nat) (x : entry) : list entry := take (S r) P ++ x :: drop (S r) P.

Lemma ins_low P r x k : r < length P → k <= r → ins P r x !! k = P !! k.
Proof.
  intros Hr Hk. unfold ins. rewrite lookup_app_l by (rewrite length_take; lia). by rewrite lookup_take_lt by lia.
Qed.

Lemma ins_mid P r x : r < length P → ins P r x !! S r = Some x.
Proof. intros Hr. unfold ins. apply list_lookup_middle. rewrite length_take. lia. Qed.

Lemma ins_high P r x k : r < length P → r < k → ins P r x !! S k = P !! k.
Proof.
  intros Hr Hk. unfold ins. rewrite lookup_app_r by (rewrite length_take; lia). rewrite length_take.
  replace (S k - S r `min` length P) with (S (k - S r)) by lia.
  change ((x :: drop (S r) P) !! S (k - S r)) with (drop (S r) P !! (k - S r)).
  rewrite lookup_drop. f_equal. lia.
Qed.

Lemma length_ins P r x : length (ins P r x) = S (length P).
Proof. unfold ins. rewrite length_app. cbn. rewrite length_take, length_drop. lia. Qed.

(** The three places a position of the longer list comes from. *)
Lemma ins_inv P r x k z :
  r < length P → ins P r x !! k = Some z →
  (k <= r ∧ P !! k = Some z) ∨ (k = S r ∧ z = x) ∨ (∃ k', k = S k' ∧ r < k' ∧ P !! k' = Some z).
Proof.
  intros Hr. destruct (decide (k <= r)) as [Hk|Hk]; [rewrite ins_low by done; auto|].
  destruct (decide (k = S r)) as [->|Hne].
  - rewrite ins_mid by done. intros [= ->]. auto.
  - destruct k as [|k']; [lia|]. rewrite ins_high by lia. intros Hz. right. right. exists k'. split_and!; [done|lia|done].
Qed.

Lemma ins_back_low P r x p : r < length P → p <= S r → back (ins P r x) p = back P p.
Proof.
  intros Hr Hp. unfold back. destruct p as [|[|p]]; [done|done|]. by rewrite ins_low by lia.
Qed.

Lemma ins_back_high P r x p : r < length P → S r < p → back (ins P r x) (S p) = back P p.
Proof.
  intros Hr Hp. unfold back. destruct p as [|[|p]]; [lia|lia|]. by rewrite ins_high by lia.
Qed.

Lemma ins_back_next P r x : r < length P → back (ins P r x) (S (S r)) = Some (eloc x).
Proof. intros Hr. cbn. by rewrite ins_mid. Qed.

Section link_ins.
Context (P : list entry) (r : nat) (x : entry) (Hr : r < length P).

(** A link that ends at or before the gap. *)
Lemma link_ins_before i p k z lv :
  P !! k = Some z → tall i z → p < k <= r → link P i p lv ↔ link (ins P r x) i p lv.
Proof using Hr.
  intros Hz Htz Hk. unfold link. destruct (forward lv) as [l|].
  - split.
    + intros (q & y & Hy & <- & Hpq & Hty & Hmid & Hspan).
      assert (q <= r). { destruct (decide (q <= r)); [done|]. destruct (Hmid k z Hz); [lia|done]. }
      exists q, y. rewrite ins_low by done. split_and!; [done..| |done].
      intros k' z' Hz' Hk'. rewrite ins_low in Hz' by lia. by apply (Hmid k' z').
    + intros (q & y & Hy & <- & Hpq & Hty & Hmid & Hspan).
      assert (q <= r).
      { destruct (decide (q <= r)); [done|]. destruct (Hmid k z); [by rewrite ins_low by lia|lia|done]. }
      rewrite ins_low in Hy by done. exists q, y. split_and!; [done..| |done].
      intros k' z' Hz' Hk'. apply (Hmid k' z'); [by rewrite ins_low by lia|done].
  - split; intros [Hn _]; exfalso; (eapply (Hn k z); [|lia|done]).
    + done.
    + by rewrite ins_low by lia.
Qed.

(** A link that starts after the gap. *)
Lemma link_ins_after i p lv : r < p → link P i p lv ↔ link (ins P r x) i (S p) lv.
Proof using Hr.
  intros Hp. unfold link. rewrite length_ins. destruct (forward lv) as [l|].
  - split.
    + intros (q & y & Hy & <- & Hpq & Hty & Hmid & Hspan). exists (S q), y. rewrite ins_high by lia.
      split_and!; [done|done|lia|done| |lia]. intros k z Hz Hk. destruct k as [|k]; [lia|].
      rewrite ins_high in Hz by lia. apply (Hmid k z Hz). lia.
    + intros (q & y & Hy & <- & Hpq & Hty & Hmid & Hspan). destruct q as [|q]; [lia|].
      rewrite ins_high in Hy by lia. exists q, y. split_and!; [done|done|lia|done| |lia].
      intros k z Hz Hk. apply (Hmid (S k) z); [by rewrite ins_high by lia|lia].
  - split; intros [Hn Hs]; (split; [|lia]).
    + intros k z Hz Hk. destruct k as [|k]; [lia|]. rewrite ins_high in Hz by lia. apply (Hn k z Hz). lia.
    + intros k z Hz Hk. apply (Hn (S k) z); [by rewrite ins_high by lia|lia].
Qed.

(** The link over the gap when the new node is not tall enough. *)
Lemma link_ins_over i p y f s :
  is_pred P i r p y → ¬ tall i x → link P i p (MkLevel f s) ↔ link (ins P r x) i p (MkLevel f (s + 1)).
Proof using Hr.
  intros (Hy & Hty & Hp & Hmid) Hx. unfold link. cbn [forward span]. rewrite length_ins. destruct f as [l|].
  - split.
    + intros (q & z & Hz & <- & Hpq & Htz & Hm & Hs).
      assert (r < q). { destruct (decide (q <= r)); [|lia]. destruct (Hmid q z Hz); [lia|done]. }
      exists (S q), z. rewrite ins_high by lia. split_and!; [done|done|lia|done| |lia].
      intros k w Hw Hk. destruct (ins_inv _ _ _ _ _ Hr Hw) as [[? Hw']|[[-> ->]|(k' & -> & ? & Hw')]]; [|done|].
      * apply (Hm k w Hw'). lia.
      * apply (Hm k' w Hw'). lia.
    + intros (q & z & Hz & <- & Hpq & Htz & Hm & Hs).
      destruct (ins_inv _ _ _ _ _ Hr Hz) as [[? Hz']|[[-> ->]|(q' & -> & ? & Hz')]]; [|done|].
      { destruct (Hmid q z Hz'); [lia|done]. }
      exists q', z. split_and!; [done|done|lia|done| |lia]. intros k w Hw Hk.
      destruct (decide (k <= r)); [apply (Hmid k w Hw); lia|].
      apply (Hm (S k) w); [by rewrite ins_high by lia|lia].
  - split; intros [Hn Hs]; (split; [|lia]).
    + intros k w Hw Hk. destruct (ins_inv _ _ _ _ _ Hr Hw) as [[? Hw']|[[-> ->]|(k' & -> & ? & Hw')]]; [|done|].
      * apply (Hn k w Hw'). lia.
      * apply (Hn k' w Hw'). lia.
    + intros k w Hw Hk. destruct (decide (k <= r)); [apply (Hmid k w Hw); lia|].
      apply (Hn (S k) w); [by rewrite ins_high by lia|lia].
Qed.

(** The two links that replace one when the new node is tall enough. *)
Lemma link_ins_to i p y :
  is_pred P i r p y → tall i x →
  link (ins P r x) i p (MkLevel (Some (eloc x)) (Z.of_nat r - Z.of_nat p + 1)).
Proof using Hr.
  intros (Hy & Hty & Hp & Hmid) Hx. unfold link. cbn [forward span]. exists (S r), x.
  rewrite ins_mid by done. split_and!; [done|done|lia|done| |lia].
  intros k z Hz Hk. rewrite ins_low in Hz by lia. apply (Hmid k z Hz). lia.
Qed.

Lemma link_ins_from i p y f s :
  is_pred P i r p y →
  link P i p (MkLevel f s) ↔ link (ins P r x) i (S r) (MkLevel f (s - (Z.of_nat r - Z.of_nat p))).
Proof using Hr.
  intros (Hy & Hty & Hp & Hmid). unfold link. cbn [forward span]. rewrite length_ins. destruct f as [l|].
  - split.
    + intros (q & z & Hz & <- & Hpq & Htz & Hm & Hs).
      assert (r < q). { destruct (decide (q <= r)); [|lia]. destruct (Hmid q z Hz); [lia|done]. }
      exists (S q), z. rewrite ins_high by lia. split_and!; [done|done|lia|done| |lia].
      intros k w Hw Hk. destruct k as [|k]; [lia|]. rewrite ins_high in Hw by lia. apply (Hm k w Hw). lia.
    + intros (q & z & Hz & <- & Hpq & Htz & Hm & Hs). destruct q as [|q]; [lia|]. rewrite ins_high in Hz by lia.
      exists q, z. split_and!; [done|done|lia|done| |lia]. intros k w Hw Hk.
      destruct (decide (k <= r)); [apply (Hmid k w Hw); lia|].
      apply (Hm (S k) w); [by rewrite ins_high by lia|lia].
  - split; intros [Hn Hs]; (split; [|lia]).
    + intros k w Hw Hk. destruct k as [|k]; [lia|]. rewrite ins_high in Hw by lia. apply (Hn k w Hw). lia.
    + intros k w Hw Hk. destruct (decide (k <= r)); [apply (Hmid k w Hw); lia|].
      apply (Hn (S k) w); [by rewrite ins_high by lia|lia].
Qed.
End link_ins.

(** Every position either has a taller one between it and [r], or is the last. *)
Lemma pred_cases P i r p y :
  P !! p = Some y → tall i y → p <= r →
  is_pred P i r p y ∨ ∃ k z, P !! k = Some z ∧ tall i z ∧ p < k <= r.
Proof.
  intros Hy Hty Hp.
  destruct (decide (Exists (tall i) (take (r - p) (drop (S p) P)))) as [He|Hn].
  - right. apply Exists_exists in He as (z & (k & Hz)%list_elem_of_lookup & Htz).
    pose proof (lookup_lt_Some _ _ _ Hz) as Hk. rewrite length_take in Hk.
    rewrite lookup_take_lt, lookup_drop in Hz by lia. exists (S p + k), z. split_and!; done || lia.
  - left. split_and!; [done..|]. intros k z Hz Hk Htz. apply Hn, Exists_exists. exists z. split; [|done].
    apply list_elem_of_lookup. exists (k - S p). rewrite lookup_take_lt, lookup_drop by lia.
    by replace (S p + (k - S p)) with k by lia.
Qed.

Lemma is_pred_unique P i r p y q z : is_pred P i r p y → is_pred P i r q z → p = q ∧ y = z.
Proof.
  intros (Hy & Hty & Hp & Hm) (Hz & Htz & Hq & Hm').
  assert (p = q) as ->.
  { destruct (decide (p < q)); [by destruct (Hm q z Hz ltac:(lia))|].
    destruct (decide (q < p)); [by destruct (Hm' p y Hy ltac:(lia))|]. lia. }
  split; [done|]. congruence.
Qed.
