(* ===== verification/SkipListOps.v ===== *)
(** * The skiplist: insertion and deletion

    [insert] puts a new node after the last element below it, [removeNode]
    takes one out; both keep the representation [rep], with every span and
    pointer at every level.  The loops over the levels are described by what
    they leave in each level object. *)

From stdpp Require Import base gmap list sorting.
From Stdlib Require Import ZArith Lia.
From S2P Require Import Prelude Float64 Border SkipList SkipListRep.

Local Open Scope nat_scope.

(** ** Loops over the levels *)

Definition with_levels (sl : skiplist) (ls : gmap (nat * nat) Level) : skiplist :=
  MkSL (nodes sl) ls (tail sl) (slen sl) (slevel sl) (fresh_loc sl).

Lemma with_levels_id sl : with_levels sl (levels sl) = sl.
Proof. by destruct sl. Qed.

(** If step [i] replaces level [i] of every node [l] by [g i l], so does the
    whole loop, whatever the order of the indices. *)
Lemma foldM_levels f (g : nat → nat → option Level) m n sl :
  (∀ i ls, m <= i < m + n → (∀ l, ls !! (l, i) = levels sl !! (l, i)) →
    ∃ ls', f (with_levels sl ls) i = Ret (with_levels sl ls') ∧
      ∀ l j, ls' !! (l, j) = if decide (j = i) then g i l else ls !! (l, j)) →
  ∃ ls', foldM f (seq m n) sl = Ret (with_levels sl ls') ∧
    ∀ l j, ls' !! (l, j) = if decide (m <= j < m + n) then g j l else levels sl !! (l, j).
Proof.
  intros Hf.
  assert (Hgen : ∀ n0 m0 ls, m <= m0 → m0 + n0 <= m + n → (∀ l j, m0 <= j → ls !! (l, j) = levels sl !! (l, j)) →
    ∃ ls', foldM f (seq m0 n0) (with_levels sl ls) = Ret (with_levels sl ls') ∧
      ∀ l j, ls' !! (l, j) = if decide (m0 <= j < m0 + n0) then g j l else ls !! (l, j)).
  { induction n0 as [|n0 IH]; intros m0 ls Hm Hn Hls; cbn [seq foldM].
    { exists ls. split; [done|]. intros l j. by rewrite decide_False by lia. }
    destruct (Hf m0 ls) as (ls1 & -> & H1); [lia|intros l; apply Hls; lia|]. cbn [mbind res_bind].
    destruct (IH (S m0) ls1) as (ls' & -> & H2); [lia|lia| |].
    { intros l j Hj. rewrite H1, decide_False by lia. apply Hls. lia. }
    exists ls'. split; [done|]. intros l j. rewrite H2, H1.
    destruct (decide (j = m0)) as [->|Hj]; [by rewrite decide_False, decide_True by lia|].
    destruct (decide (S m0 <= j < S m0 + n0)); [by rewrite decide_True by lia|by rewrite decide_False by lia]. }
  destruct (Hgen n m (levels sl)) as (ls' & E & H); [lia|lia|done|].
  rewrite with_levels_id in E. by exists ls'.
Qed.

(** ** Raising the level of the list *)

Lemma extend_rep sl P lvl :
  rep sl P → slevel sl <= lvl <= maxLevel →
  ∃ sl1, foldM extend_level (seq (slevel sl) (lvl - slevel sl)) sl = Ret sl1 ∧
    rep (set_slevel sl1 lvl) P ∧ slevel sl1 = slevel sl.
Proof.
  intros Hrep Hl. destruct (rep_header _ _ Hrep) as (h & Hh & Hhl & Hhh & Hhe).
  destruct (foldM_levels extend_level
    (λ i l, if decide (l = header) then Some (MkLevel None (slen sl)) else levels sl !! (l, i))
    (slevel sl) (lvl - slevel sl) sl) as (ls & -> & Hls).
  { intros i ls Hi Hlsi. destruct (rep_level _ _ Hrep 0 h i Hh) as (lv & Hlv & Hf); [unfold tall; lia|].
    rewrite decide_False in Hf by lia. rewrite Hhl in Hlv.
    exists (<[(header, i) := MkLevel None (slen sl)]> ls). split.
    - unfold extend_level, get_level. cbn [with_levels levels]. rewrite Hlsi, Hlv. cbn. by rewrite Hf.
    - intros l j. destruct (decide (j = i)) as [->|Hj]; [|by rewrite lookup_insert_ne by congruence].
      destruct (decide (l = header)) as [->|Hne]; [by rewrite lookup_insert_eq|].
      by rewrite lookup_insert_ne, Hlsi by congruence. }
  eexists. split; [done|]. split; [|done]. destruct Hrep as [H1 H2 H3 H4 H5 H6 H7 H8 H9].
  split; cbn [set_slevel with_levels nodes levels tail slen slevel fresh_loc]; [done|done|done| | |done|done|lia|done].
  - intros p x Hx. destruct (H4 p x Hx) as [? Hp]. split; [done|]. intros ?%Hp. lia.
  - intros p x i Hx Ht. destruct (H5 p x i Hx Ht) as (lv & Hlv & Hlink). rewrite Hls.
    destruct (decide (slevel sl <= i < slevel sl + (lvl - slevel sl))) as [Hi|Hi].
    + assert (p = 0) as ->.
      { destruct p; [done|]. destruct (H4 _ _ Hx) as [_ Hp]. unfold tall in Ht. lia. }
      simplify_eq. rewrite decide_True by done. eexists. split; [done|]. rewrite decide_True by lia.
      cbn. split; [|lia]. intros k z Hz Hk Htz. destruct (H4 k z Hz) as [_ Hp]. unfold tall in Htz. lia.
    + exists lv. split; [done|]. destruct (decide (i < slevel sl)).
      * by rewrite decide_True by lia.
      * by rewrite decide_False by lia.
Qed.

Lemma update_extend sl P r us lvl :
  rep sl P → r < length P → length us = slevel sl → update_ok P r us 0 → lvl <= maxLevel →
  update_ok P r (us ++ replicate (lvl - slevel sl) (header, 0%Z)) 0.
Proof.
  intros Hrep Hr Hlen Hok Hl j u [Hu|[Hj Hu]]%lookup_app_Some; [by apply Hok|].
  apply lookup_replicate in Hu as [-> Hj']. destruct (rep_header _ _ Hrep) as (h & Hh & Hhl & Hhh & _).
  exists 0, h. split; [by rewrite Hhl|]. split_and!; [done|unfold tall; lia|lia|].
  intros k z Hz Hk Htz. destruct (rep_height _ _ Hrep k z Hz) as [_ Hp]. unfold tall in Htz. lia.
Qed.

(** ** Linking a new node *)

Lemma lookup_insert_level (ls : gmap (nat * nat) Level) u i lv l j :
  <[(u, i) := lv]> ls !! (l, j) = if decide (j = i) then (if decide (l = u) then Some lv else ls !! (l, i)) else ls !! (l, j).
Proof.
  destruct (decide (j = i)) as [->|]; [|by rewrite lookup_insert_ne by congruence].
  destruct (decide (l = u)) as [->|]; [by rewrite lookup_insert_eq|by rewrite lookup_insert_ne by congruence].
Qed.

(** What [update[i]] points to. *)
Lemma update_level sl P r us i :
  rep sl P → update_ok P r us 0 → i < length us → i < slevel sl →
  ∃ q y lv, us !! i = Some (eloc y, Z.of_nat q) ∧ is_pred P i r q y ∧
    levels sl !! (eloc y, i) = Some lv ∧ link P i q lv.
Proof.
  intros Hrep Hok Hi Hl. destruct (lookup_lt_is_Some_2 us i Hi) as [u Hu].
  destruct (Hok i u Hu) as (q & y & -> & Hp). exists q, y. pose proof Hp as (Hy & Ht & _).
  destruct (rep_level _ _ Hrep q y i Hy Ht) as (lv & Hlv & Hlink). rewrite decide_True in Hlink by done. eauto 10.
Qed.

Lemma old_not_fresh sl P p y : rep sl P → P !! p = Some y → eloc y ≠ fresh_loc sl.
Proof. intros Hrep Hy. pose proof (rep_fresh _ _ Hrep p y Hy). lia. Qed.

Section link_new.
Context (sl : skiplist) (P : list entry) (r : nat) (us : list (nat * Z)) (e : Element) (h : nat).
Hypothesis Hrep : rep sl P.
Hypothesis Hr : r < length P.
Hypothesis Hus : length us = slevel sl.
Hypothesis Hok : update_ok P r us 0.
Hypothesis Hh : 1 <= h <= slevel sl.

Definition new_entry : entry := MkEntry (fresh_loc sl) e h.

Definition fresh_levels : gmap (nat * nat) Level :=
  foldr (λ i ls, <[(fresh_loc sl, i) := MkLevel None 0]> ls) (levels sl) (seq 0 h).

(** The level objects after both loops. *)
Definition linked (i l : nat) : option Level :=
  '(u, q) ← us !! i;
  lu ← levels sl !! (u, i);
  if decide (i < h) then
    if decide (l = u) then Some (MkLevel (Some (fresh_loc sl)) (Z.of_nat r - q + 1))
    else if decide (l = fresh_loc sl) then Some (MkLevel (forward lu) (span lu - (Z.of_nat r - q)))
    else levels sl !! (l, i)
  else if decide (l = u) then Some (MkLevel (forward lu) (span lu + 1)) else levels sl !! (l, i).

Lemma link_loops :
  let sl3 := MkSL (<[fresh_loc sl := MkNode e None h]> (nodes sl)) fresh_levels (tail sl) (slen sl) (slevel sl) (S (fresh_loc sl)) in
  ∃ ls4 ls5, foldM (link_level us (Z.of_nat r) (fresh_loc sl)) (seq 0 h) sl3 = Ret (with_levels sl3 ls4) ∧
    foldM (bump_level us) (seq h (slevel sl - h)) (with_levels sl3 ls4) = Ret (with_levels sl3 ls5) ∧
    (∀ l j, j < slevel sl → ls5 !! (l, j) = linked j l) ∧
    (∀ l j, slevel sl <= j → ls5 !! (l, j) = levels sl !! (l, j)).
Proof using Hrep Hr Hus Hok Hh.
  intros sl3.
  assert (Hold : ∀ l i, l ≠ fresh_loc sl → fresh_levels !! (l, i) = levels sl !! (l, i)).
  { intros l i Hl. by apply lookup_other_levels. }
  assert (Hhigh : ∀ l i, h <= i → fresh_levels !! (l, i) = levels sl !! (l, i)).
  { intros l i Hi. destruct (decide (l = fresh_loc sl)) as [->|]; [|by apply Hold].
    unfold fresh_levels. by rewrite lookup_new_levels, decide_False by lia. }
  destruct (foldM_levels (link_level us (Z.of_nat r) (fresh_loc sl)) linked 0 h sl3) as (ls4 & E4 & H4).
  { intros i ls Hi Hlsi. destruct (update_level sl P r us i) as (q & y & lv & Hu & (Hy & _) & Hlv & _); [done|done|lia|lia|].
    pose proof (old_not_fresh _ _ q y Hrep Hy) as Hne. eexists. split.
    - unfold link_level, get_level. rewrite Hu. cbn [must mbind res_bind with_levels levels].
      rewrite Hlsi. cbn [levels sl3]. rewrite Hold, Hlv by done. reflexivity.
    - intros l j. cbn [levels with_levels set_level]. rewrite !lookup_insert_level.
      unfold linked. rewrite Hu. cbn [mbind option_bind]. rewrite Hlv. cbn [mbind option_bind].
      destruct (decide (j = i)) as [->|]; [|done]. rewrite (decide_True _ _ (proj2 Hi)).
      destruct (decide (l = eloc y)); [done|]. rewrite (decide_True _ _ (eq_refl i)).
      destruct (decide (l = fresh_loc sl)); [done|]. rewrite Hlsi. by apply Hold. }
  destruct (foldM_levels (bump_level us) linked h (slevel sl - h) (with_levels sl3 ls4)) as (ls5 & E5 & H5).
  { intros i ls Hi Hlsi. destruct (update_level sl P r us i) as (q & y & lv & Hu & (Hy & _) & Hlv & _); [done|done|lia|lia|].
    pose proof (old_not_fresh _ _ q y Hrep Hy) as Hne.
    eexists. split.
    - unfold bump_level, get_level. rewrite Hu. cbn [must mbind res_bind with_levels levels].
      rewrite Hlsi. cbn [with_levels levels]. rewrite H4, decide_False by lia. cbn [levels sl3].
      rewrite Hold, Hlv by done. reflexivity.
    - intros l j. cbn [levels with_levels set_level]. rewrite !lookup_insert_level.
      destruct (decide (j = i)) as [->|]; [|done]. unfold linked. rewrite Hu. cbn [mbind option_bind].
      rewrite Hlv. cbn [mbind option_bind]. rewrite (decide_False (P := i < h)) by lia.
      destruct (decide (l = eloc y)); [done|]. rewrite Hlsi. cbn [with_levels levels].
      rewrite H4, decide_False by lia. by apply Hhigh; lia. }
  exists ls4, ls5. split_and!; [done|done| |]; intros l j Hj; rewrite H5; cbn [with_levels levels]; rewrite H4.
  - destruct (decide (h <= j < h + (slevel sl - h))); [done|]. by rewrite decide_True by lia.
  - rewrite !decide_False by lia. apply Hhigh. lia.
Qed.
(** The links are those of the list with the new node. *)
Lemma linked_ok p y i :
  ins P r new_entry !! p = Some y → tall i y → i < slevel sl →
  ∃ lv, linked i (eloc y) = Some lv ∧ link (ins P r new_entry) i p lv.
Proof using Hrep Hr Hus Hok Hh.
  intros Hy Ht Hi. destruct (update_level sl P r us i) as (q & u & [f s] & Hu & Hpred & Hlv & Hlink); [done..|lia|done|].
  pose proof (old_not_fresh _ _ q u Hrep (proj1 Hpred)) as Hune.
  unfold linked. rewrite Hu. cbn [mbind option_bind]. rewrite Hlv. cbn [mbind option_bind forward span].
  destruct (ins_inv _ _ _ _ _ Hr Hy) as [[Hp Hy']|[[-> ->]|(k & -> & Hk & Hy')]].
  - pose proof (old_not_fresh _ _ p y Hrep Hy') as Hyne.
    destruct (pred_cases P i r p y Hy' Ht Hp) as [Hp'|(k & z & Hz & Htz & Hk)].
    + destruct (is_pred_unique _ _ _ _ _ _ _ Hpred Hp') as [-> ->]. rewrite !(decide_True (P := eloc y = eloc y)) by done.
      destruct (decide (i < h)) as [Hih|Hih]; (eexists; split; [done|]).
      * by apply (link_ins_to P r new_entry Hr i p y Hpred).
      * by apply (link_ins_over P r new_entry Hr i p y f s Hpred).
    + assert (eloc y ≠ eloc u) as Hyu.
      { intros E. pose proof (rep_nodup _ _ Hrep _ _ _ _ Hy' (proj1 Hpred) E) as ->.
        destruct Hpred as (_ & _ & _ & Hm). by destruct (Hm k z Hz Hk). }
      destruct (rep_level _ _ Hrep p y i Hy' Ht) as (lv & Hlv' & Hlk). rewrite decide_True in Hlk by done.
      exists lv. split; [by destruct (decide (i < h)), (decide (eloc y = eloc u)), (decide (eloc y = fresh_loc sl))|].
      by apply (link_ins_before P r new_entry Hr i p k z lv Hz Htz Hk).
  - rewrite decide_True, decide_False by done. rewrite decide_True by done. eexists. split; [done|].
    by apply (link_ins_from P r new_entry Hr i q u f s Hpred).
  - pose proof (old_not_fresh _ _ k y Hrep Hy') as Hyne.
    assert (eloc y ≠ eloc u) as Hyu.
    { intros E. pose proof (rep_nodup _ _ Hrep _ _ _ _ Hy' (proj1 Hpred) E) as ->. destruct Hpred as (_ & _ & ? & _). lia. }
    destruct (rep_level _ _ Hrep k y i Hy' Ht) as (lv & Hlv' & Hlk). rewrite decide_True in Hlk by done.
    exists lv. split; [by destruct (decide (i < h)), (decide (eloc y = eloc u)), (decide (eloc y = fresh_loc sl))|].
    by apply (link_ins_after P r new_entry Hr i k lv Hk).
Qed.

Lemma insert_rep ns ls t :
  (∀ l j, j < slevel sl → ls !! (l, j) = linked j l) →
  (∀ l j, slevel sl <= j → ls !! (l, j) = levels sl !! (l, j)) →
  (∀ p y, ins P r new_entry !! p = Some y → ns !! eloc y = Some (MkNode (eel y) (back (ins P r new_entry) p) (eh y))) →
  t = back (ins P r new_entry) (S (length P)) →
  rep (MkSL ns ls t (slen sl + 1) (slevel sl) (S (fresh_loc sl))) (ins P r new_entry).
Proof using Hrep Hr Hus Hok Hh.
  intros Hlow Hhigh Hns Ht.
  split; cbn [nodes levels tail slen slevel fresh_loc]; [| |exact Hns| | | | |apply (rep_slevel _ _ Hrep)|].
  - destruct (rep_header _ _ Hrep) as (x & Hx & ?). exists x. by rewrite ins_low by lia.
  - intros p q x y Hx Hy E. pose proof (rep_nodup _ _ Hrep) as Hnd. pose proof (old_not_fresh sl P) as Hnf.
    destruct (ins_inv _ _ _ _ _ Hr Hx) as [[? Hx']|[[-> ->]|(k & -> & ? & Hx')]],
      (ins_inv _ _ _ _ _ Hr Hy) as [[? Hy']|[[-> ->]|(k' & -> & ? & Hy')]]; try done.
    + by eapply Hnd.
    + by destruct (Hnf _ _ Hrep Hx').
    + pose proof (Hnd _ _ _ _ Hx' Hy' E). lia.
    + by destruct (Hnf _ _ Hrep Hy').
    + by destruct (Hnf _ _ Hrep Hy').
    + pose proof (Hnd _ _ _ _ Hx' Hy' E). lia.
    + by destruct (Hnf _ _ Hrep Hx').
    + f_equal. by eapply Hnd.
  - intros p y Hy. pose proof (rep_slevel _ _ Hrep).
    destruct (ins_inv _ _ _ _ _ Hr Hy) as [[? Hy']|[[-> ->]|(k & -> & ? & Hy')]].
    + by apply (rep_height _ _ Hrep p y).
    + cbn. lia.
    + destruct (rep_height _ _ Hrep k y Hy') as [? Hp]. split; [done|]. intros _. apply Hp. lia.
  - intros p y i Hy Hty. destruct (decide (i < slevel sl)) as [Hi|Hi]; [rewrite Hlow by done; by apply linked_ok|].
    rewrite Hhigh by lia.
    assert (Hy' : ∃ k, P !! k = Some y).
    { destruct (ins_inv _ _ _ _ _ Hr Hy) as [[? Hy']|[[-> ->]|(k & -> & ? & Hy')]]; eauto. unfold tall in Hty. cbn in Hty. lia. }
    destruct Hy' as [k Hk]. destruct (rep_level _ _ Hrep k y i Hk Hty) as (lv & Hlv & Hf). rewrite decide_False in Hf by done.
    eauto.
  - rewrite length_ins. done.
  - rewrite length_ins, (rep_len _ _ Hrep). lia.
  - intros p y Hy. destruct (ins_inv _ _ _ _ _ Hr Hy) as [[? Hy']|[[-> ->]|(k & -> & ? & Hy')]].
    + pose proof (rep_fresh _ _ Hrep p y Hy'). lia.
    + cbn. lia.
    + pose proof (rep_fresh _ _ Hrep k y Hy'). lia.
Qed.

(** The nodes after the backward pointers are set. *)
Definition backed (b : option nat) : gmap nat node :=
  let ns := <[fresh_loc sl := MkNode e b h]> (<[fresh_loc sl := MkNode e None h]> (nodes sl)) in
  match P !! S r with
  | Some z => <[eloc z := MkNode (eel z) (Some (fresh_loc sl)) (eh z)]> ns
  | None => ns
  end.

Lemma backed_ok p y :
  ins P r new_entry !! p = Some y →
  backed (back P (S r)) !! eloc y = Some (MkNode (eel y) (back (ins P r new_entry) p) (eh y)).
Proof using Hrep Hr.
  clear Hus Hok Hh. intros Hy. unfold backed. set (ns := <[_ := _]> (<[_ := _]> (nodes sl))).
  assert (Hnew : ns !! fresh_loc sl = Some (MkNode e (back P (S r)) h)) by apply lookup_insert_eq.
  assert (Hold : ∀ k z, P !! k = Some z → ns !! eloc z = Some (MkNode (eel z) (back P k) (eh z))).
  { intros k z Hz. pose proof (old_not_fresh _ _ k z Hrep Hz). unfold ns. rewrite !lookup_insert_ne by done.
    by apply (rep_node _ _ Hrep). }
  clearbody ns. destruct (ins_inv _ _ _ _ _ Hr Hy) as [[Hp Hy']|[[-> ->]|(k & -> & Hk & Hy')]].
  - rewrite ins_back_low by lia. destruct (P !! S r) as [z|] eqn:Hz; [|by apply Hold].
    rewrite lookup_insert_ne; [by apply Hold|]. intros E. pose proof (rep_nodup _ _ Hrep _ _ _ _ Hz Hy' E). lia.
  - rewrite ins_back_low by lia. destruct (P !! S r) as [z|] eqn:Hz; [|done].
    rewrite lookup_insert_ne; [done|]. by apply (old_not_fresh _ _ _ _ Hrep Hz).
  - destruct (decide (k = S r)) as [->|Hne].
    + rewrite Hy', lookup_insert_eq, ins_back_next by done. done.
    + rewrite ins_back_high by lia. destruct (P !! S r) as [z|] eqn:Hz; [|by apply Hold].
      rewrite lookup_insert_ne; [by apply Hold|]. intros E. pose proof (rep_nodup _ _ Hrep _ _ _ _ Hz Hy' E). lia.
Qed.

Lemma new_back y : P !! r = Some y → (if decide (eloc y = header) then None else Some (eloc y)) = back P (S r).
Proof using Hrep.
  clear Hus Hok Hh Hr. intros Hy. destruct (rep_header _ _ Hrep) as (x & Hx & Hxl & _). cbn. destruct r as [|r'].
  - rewrite decide_True; [done|]. congruence.
  - rewrite Hy. cbn. rewrite decide_False; [done|]. intros E. rewrite <- Hxl in E.
    pose proof (rep_nodup _ _ Hrep _ _ _ _ Hy Hx E). lia.
Qed.

(** The end of [insert]: backward pointers, tail and length. *)
Lemma insert_finish ls y :
  P !! r = Some y →
  (∀ l j, j < slevel sl → ls !! (l, j) = linked j l) →
  (∀ l j, slevel sl <= j → ls !! (l, j) = levels sl !! (l, j)) →
  let sl5 := MkSL (<[fresh_loc sl := MkNode e None h]> (nodes sl)) ls (tail sl) (slen sl) (slevel sl) (S (fresh_loc sl)) in
  ∃ sl', (sl6 ← set_backward sl5 (fresh_loc sl) (back P (S r));
          lv ← get_level sl6 (fresh_loc sl) 0;
          sl7 ← match forward lv with
                | Some f => set_backward sl6 f (Some (fresh_loc sl))
                | None => Ret (set_tail sl6 (Some (fresh_loc sl)))
                end;
          Ret (set_len sl7 (slen sl7 + 1))) = Ret sl' ∧ rep sl' (ins P r new_entry).
Proof using Hrep Hr Hus Hok Hh.
  intros Hy Hlow Hhigh sl5. unfold set_backward, get_node, sl5. cbn [nodes levels tail slen slevel fresh_loc].
  rewrite lookup_insert_eq. cbn [must mbind res_bind nelem nheight nodes levels].
  destruct (forward_0 sl P r y Hrep Hy) as (lv & Hlv & Hf).
  destruct (update_0 sl P r us Hrep Hr) as (y' & Hu0 & Hy'); [lia|done|]. simplify_eq.
  unfold get_level. cbn [levels]. rewrite Hlow by lia. unfold linked. rewrite Hu0. cbn [mbind option_bind].
  rewrite Hlv. cbn [mbind option_bind]. pose proof (old_not_fresh _ _ _ _ Hrep Hy) as Hne.
  rewrite (decide_True (P := 0 < h)), (decide_False (P := _ = eloc y)), (decide_True (P := _ = fresh_loc sl)) by done || lia.
  cbn [must mbind res_bind forward]. rewrite Hf.
  assert (Hfin : ∀ t, t = back (ins P r new_entry) (S (length P)) →
    rep (MkSL (backed (back P (S r))) ls t (slen sl + 1) (slevel sl) (S (fresh_loc sl))) (ins P r new_entry)).
  { intros t Ht. apply insert_rep; [done|done| |done]. intros p z Hz. by apply backed_ok. }
  unfold backed in Hfin. destruct (P !! S r) as [z|] eqn:Hz; cbn [fmap option_fmap option_map].
  - pose proof (old_not_fresh _ _ _ _ Hrep Hz) as Hnez. rewrite !lookup_insert_ne by done.
    rewrite (rep_node _ _ Hrep _ _ Hz). eexists. split; [reflexivity|]. apply Hfin. cbn [tail set_len].
    rewrite (rep_tail _ _ Hrep). symmetry. apply ins_back_high; [done|]. by apply lookup_lt_Some in Hz.
  - eexists. split; [reflexivity|]. apply Hfin. cbn [tail set_len set_tail]. apply lookup_ge_None in Hz.
    replace (length P) with (S r) by lia. symmetry. by apply ins_back_next.
Qed.
End link_new.

(** ** insert *)

Lemma insert_spec sl P member score rnd r :
  rep sl P → admits P (before member score) r →
  ∃ sl' x, insert sl member score rnd = Ret sl' ∧ eel x = MkElement member score ∧ rep sl' (ins P r x).
Proof.
  intros Hrep Hc. pose proof (proj1 Hc) as Hr. pose proof (randomLevel_range rnd) as Hrl. pose proof (rep_slevel _ _ Hrep) as Hsl.
  unfold insert. destruct (descend_spec sl P _ r Hrep Hc) as (us0 & -> & Hlen0 & Hok0). cbn [mbind res_bind].
  set (h := randomLevel rnd) in *. set (lvl := Nat.max (slevel sl) h).
  destruct (extend_rep sl P lvl Hrep) as (sl1 & E1 & Hrep1 & Hl1); [lia|].
  replace (lvl - slevel sl) with (h - slevel sl) in E1 by lia. rewrite E1. cbn [mbind res_bind].
  pose proof (update_extend sl P r us0 h Hrep Hr Hlen0 Hok0 ltac:(lia)) as Hok.
  set (us := us0 ++ _) in *.
  assert (Hlen : length us = lvl) by (unfold us; rewrite length_app, length_replicate; lia). clearbody us.
  set (sl2 := set_slevel sl1 lvl) in *. set (e := MkElement member score). unfold makeNode. fold e.
  change (slevel sl2) with lvl.
  destruct (update_0 sl2 P r us Hrep1 Hr) as (y & Hu0 & Hy); [lia|done|]. rewrite Hu0. cbn [must mbind res_bind].
  destruct (link_loops sl2 P r us e h Hrep1 Hr Hlen Hok) as (ls4 & ls5 & E4 & E5 & Hlow & Hhigh); [cbn; lia|].
  unfold fresh_levels in E4, E5. change (slevel sl2) with lvl in E4, E5.
  rewrite E4. cbn [mbind res_bind]. cbn [with_levels slevel]. cbn [with_levels slevel] in E5. rewrite E5. cbn [mbind res_bind].
  rewrite (new_back sl2 P r Hrep1 y Hy).
  destruct (insert_finish sl2 P r us e h Hrep1 Hr Hlen Hok ltac:(cbn; lia) ls5 y Hy Hlow Hhigh) as (sl' & E & Hrep').
  exists sl', (new_entry sl2 e h). split_and!; [exact E|done|done].
Qed.

(** ** Lowering the level of the list *)

Lemma lower_rep sl lvl P n lv :
  rep (set_len (set_slevel sl (S (S lvl))) n) P →
  levels sl !! (header, S lvl) = Some lv → forward lv = None →
  rep (set_len (set_slevel sl (S lvl)) n) P.
Proof.
  intros [H1 H2 H3 H4 H5 H6 H7 H8 H9] Hlv Hf. cbn [set_len set_slevel nodes levels tail slen slevel fresh_loc] in *.
  destruct H1 as (x & Hx & Hxl & Hxh & Hxe).
  assert (Htall : ∀ k z, P !! k = Some z → 0 < k → ¬ tall (S lvl) z).
  { destruct (H5 0 x (S lvl) Hx) as (lv' & Hlv' & Hlink); [unfold tall; lia|]. rewrite Hxl in Hlv'. simplify_eq.
    rewrite decide_True in Hlink by lia. unfold link in Hlink. rewrite Hf in Hlink. apply Hlink. }
  split; cbn [set_len set_slevel nodes levels tail slen slevel fresh_loc]; [by exists x|done|done| | |done|done|lia|done].
  - intros p y Hy. destruct (H4 p y Hy) as [? Hp]. split; [done|]. intros Hp1. specialize (Hp Hp1).
    specialize (Htall p y Hy Hp1). unfold tall in Htall. lia.
  - intros p y i Hy Hty. destruct (H5 p y i Hy Hty) as (lv' & Hlv' & Hlink). exists lv'. split; [done|].
    destruct (decide (i < S lvl)) as [Hi|Hi]; [by rewrite decide_True in Hlink by lia|].
    destruct (decide (i < S (S lvl))) as [Hi'|Hi']; [|done]. replace i with (S lvl) in * by lia.
    destruct p as [|p]; [|destruct (Htall (S p) y Hy); [lia|done]]. simplify_eq. congruence.
Qed.

Lemma shrink_spec sl lvl P n :
  rep (set_len (set_slevel sl lvl) n) P →
  ∃ l, shrink sl lvl = Ret l ∧ l <= lvl ∧ rep (set_len (set_slevel sl l) n) P.
Proof.
  induction lvl as [|[|lvl] IH]; intros Hrep; [exists 0; auto|exists 1; auto|]. cbn [shrink].
  destruct (rep_header _ _ Hrep) as (x & Hx & Hxl & Hxh & _). pose proof (rep_slevel _ _ Hrep) as Hl. cbn in Hl.
  destruct (rep_level _ _ Hrep 0 x (S lvl) Hx) as (lv & Hlv & _); [unfold tall; lia|]. rewrite Hxl in Hlv. cbn in Hlv.
  unfold get_level. rewrite Hlv. cbn [must mbind res_bind]. destruct (forward lv) eqn:Hf; [exists (S (S lvl)); auto|].
  destruct (IH (lower_rep _ _ _ _ _ Hrep Hlv Hf)) as (l & E & Hle & Hr). exists l. split_and!; [done|lia|done].
Qed.

(** ** Unlinking a node *)

Lemma is_pred_ins P r x i q y : r < length P → is_pred (ins P r x) i r q y ↔ is_pred P i r q y.
Proof.
  intros Hr. unfold is_pred. split; intros (Hy & Ht & Hq & Hm); rewrite ?ins_low in * by lia;
    (split_and!; [done..|]); intros k z Hz Hk; apply (Hm k z); try done; rewrite ins_low in * by lia; done.
Qed.

Lemma update_ok_ins P r x us from : r < length P → update_ok (ins P r x) r us from ↔ update_ok P r us from.
Proof.
  intros Hr. split; intros H j u Hu; destruct (H j u Hu) as (q & y & -> & Hp); exists q, y; split; try done;
    by apply (is_pred_ins P r x).
Qed.

(** A level object is determined by the list. *)
Lemma link_fun P i p lv lv' : link P i p lv → link P i p lv' → lv = lv'.
Proof.
  destruct lv as [f s], lv' as [f' s']. unfold link. cbn [forward span]. destruct f as [l|], f' as [l'|].
  - intros (q & y & Hy & <- & Hpq & Ht & Hm & Hs) (q' & y' & Hy' & <- & Hpq' & Ht' & Hm' & Hs').
    assert (q = q') as ->.
    { destruct (decide (q < q')); [by destruct (Hm' q y Hy ltac:(lia))|].
      destruct (decide (q' < q)); [by destruct (Hm q' y' Hy' ltac:(lia))|]. lia. }
    simplify_eq. by f_equal.
  - intros (q & y & Hy & _ & Hpq & Ht & _) [Hn _]. by destruct (Hn q y Hy Hpq).
  - intros [Hn _] (q & y & Hy & _ & Hpq & Ht & _). by destruct (Hn q y Hy Hpq).
  - intros [_ Hs] [_ Hs']. f_equal. lia.
Qed.

Section unlink.
Context (sl : skiplist) (P : list entry) (r : nat) (us : list (nat * Z)) (x : entry).
Hypothesis Hrep : rep sl (ins P r x).
Hypothesis Hr : r < length P.
Hypothesis Hus : slevel sl <= length us.
Hypothesis Hok : update_ok P r us 0.

Definition unlinked (i l : nat) : option Level :=
  '(u, _) ← us !! i;
  lu ← levels sl !! (u, i);
  if decide (l = u) then
    if decide (tall i x) then
      lx ← levels sl !! (eloc x, i); Some (MkLevel (forward lx) (span lu + (span lx - 1)))
    else Some (MkLevel (forward lu) (span lu - 1))
  else levels sl !! (l, i).

(** The predecessor at level [i] points to the node iff it is tall enough. *)
Lemma pred_link i :
  i < slevel sl →
  ∃ q u lu, us !! i = Some (eloc u, Z.of_nat q) ∧ is_pred P i r q u ∧ levels sl !! (eloc u, i) = Some lu ∧
    link (ins P r x) i q lu ∧ (forward lu = Some (eloc x) ↔ tall i x).
Proof using Hrep Hr Hus Hok.
  intros Hi. destruct (update_level sl (ins P r x) r us i) as (q & u & lu & Hu & Hpred & Hlv & Hlink).
  - done.
  - by apply update_ok_ins.
  - lia.
  - done.
  - apply (is_pred_ins P r x i q u Hr) in Hpred. exists q, u, lu. split_and!; [done..|]. split.
    + intros Hf. unfold link in Hlink. rewrite Hf in Hlink. destruct Hlink as (q' & y & Hy & E & _ & Ht & _).
      pose proof (rep_nodup _ _ Hrep _ _ _ _ Hy (ins_mid P r x Hr) E) as ->. rewrite ins_mid in Hy by done. by simplify_eq.
    + intros Ht. by rewrite (link_fun _ _ _ _ _ Hlink (link_ins_to P r x Hr i q u Hpred Ht)).
Qed.

Lemma unlink_loop :
  ∃ ls, foldM (unlink_level us (eloc x)) (seq 0 (slevel sl)) sl = Ret (with_levels sl ls) ∧
    (∀ l j, ls !! (l, j) = if decide (j < slevel sl) then unlinked j l else levels sl !! (l, j)).
Proof using Hrep Hr Hus Hok.
  destruct (foldM_levels (unlink_level us (eloc x)) unlinked 0 (slevel sl) sl) as (ls & E & Hls).
  { intros i ls Hi Hlsi. destruct (pred_link i) as (q & u & lu & Hu & Hpred & Hlu & _ & Hx); [lia|].
    unfold unlink_level, get_level, unlinked. rewrite Hu. cbn [must mbind res_bind option_bind with_levels levels].
    rewrite !Hlsi, Hlu. cbn [must mbind res_bind option_bind].
    destruct (decide (forward lu = Some (eloc x))) as [Hf|Hf].
    - rewrite (decide_True (P := tall i x)) by tauto.
      destruct (rep_level _ _ Hrep (S r) x i (ins_mid P r x Hr)) as (lx & Hlx & _); [tauto|].
      rewrite Hlx. cbn [must mbind res_bind option_bind]. eexists. split; [reflexivity|].
      intros l j. cbn [levels]. rewrite lookup_insert_level. by rewrite Hlsi.
    - rewrite (decide_False (P := tall i x)) by tauto. eexists. split; [reflexivity|].
      intros l j. cbn [levels]. rewrite lookup_insert_level. by rewrite Hlsi. }
  exists ls. split; [done|]. intros l j. rewrite Hls.
  destruct (decide (j < slevel sl)); [by rewrite decide_True by lia|by rewrite decide_False by lia].
Qed.

(** The links are those of the list without the node. *)
Lemma unlinked_ok p y i :
  P !! p = Some y → tall i y → i < slevel sl → ∃ lv, unlinked i (eloc y) = Some lv ∧ link P i p lv.
Proof using Hrep Hr Hus Hok.
  intros Hy Ht Hi. destruct (pred_link i Hi) as (q & u & [f s] & Hu & Hpred & Hlv & Hlink & Hfx).
  pose proof (proj1 Hpred) as Hqu. pose proof (proj1 (proj2 (proj2 Hpred))) as Hqr.
  unfold unlinked. rewrite Hu. cbn [mbind option_bind]. rewrite Hlv. cbn [mbind option_bind forward span].
  assert (Hq : ins P r x !! q = Some u) by (by rewrite ins_low).
  destruct (decide (p <= r)) as [Hp|Hp].
  - assert (Hy' : ins P r x !! p = Some y) by (by rewrite ins_low).
    destruct (pred_cases P i r p y Hy Ht Hp) as [Hp'|(k & z & Hz & Htz & Hk)].
    + destruct (is_pred_unique _ _ _ _ _ _ _ Hpred Hp') as [-> ->]. rewrite (decide_True (P := eloc y = eloc y)) by done.
      destruct (decide (tall i x)) as [Hx|Hx].
      * destruct (rep_level _ _ Hrep (S r) x i (ins_mid P r x Hr) Hx) as ([f' s'] & Hlx & Hlk).
        rewrite decide_True in Hlk by done. rewrite Hlx. cbn [mbind option_bind forward span].
        eexists. split; [done|]. apply (link_ins_from P r x Hr i p y _ _ Hpred).
        apply (link_fun _ _ _ _ (MkLevel (Some (eloc x)) (Z.of_nat r - Z.of_nat p + 1))) in Hlink; [|by apply link_ins_to with y].
        injection Hlink as _ Hs. eapply eq_rect; [exact Hlk|]. f_equal. lia.
      * eexists. split; [done|]. apply (link_ins_over P r x Hr i p y _ _ Hpred Hx).
        eapply eq_rect; [exact Hlink|]. f_equal. lia.
    + rewrite decide_False.
      { destruct (rep_level _ _ Hrep p y i Hy' Ht) as (lv & Hlv' & Hlk). rewrite decide_True in Hlk by done.
        exists lv. split; [done|]. by apply (link_ins_before P r x Hr i p k z lv Hz Htz Hk). }
      intros E. pose proof (rep_nodup _ _ Hrep _ _ _ _ Hy' Hq E) as ->.
      destruct Hpred as (_ & _ & _ & Hm). by destruct (Hm k z Hz Hk).
  - assert (Hy' : ins P r x !! S p = Some y) by (by rewrite ins_high by lia).
    rewrite decide_False.
    { destruct (rep_level _ _ Hrep (S p) y i Hy' Ht) as (lv & Hlv' & Hlk). rewrite decide_True in Hlk by done.
      exists lv. split; [done|]. apply (link_ins_after P r x Hr i p lv); [lia|done]. }
    intros E. pose proof (rep_nodup _ _ Hrep _ _ _ _ Hy' Hq E). lia.
Qed.

Lemma remove_rep ns ls t :
  (∀ l j, ls !! (l, j) = if decide (j < slevel sl) then unlinked j l else levels sl !! (l, j)) →
  (∀ p y, P !! p = Some y → ns !! eloc y = Some (MkNode (eel y) (back P p) (eh y))) →
  t = back P (length P) →
  rep (MkSL ns ls t (slen sl - 1) (slevel sl) (fresh_loc sl)) P.
Proof using Hrep Hr Hus Hok.
  intros Hls Hns Ht.
  assert (Hin : ∀ p y, P !! p = Some y → ∃ k, ins P r x !! k = Some y ∧ p <= k).
  { intros p y Hy. destruct (decide (p <= r)); [exists p; by rewrite ins_low|].
    exists (S p). rewrite ins_high by lia. auto. }
  split; cbn [nodes levels tail slen slevel fresh_loc]; [| |exact Hns| | |done| |apply (rep_slevel _ _ Hrep)|].
  - destruct (rep_header _ _ Hrep) as (h & Hh & ?). rewrite ins_low in Hh by lia. by exists h.
  - intros p q y z Hy Hz E. pose proof (rep_nodup _ _ Hrep) as Hnd.
    assert (Hcases : ∀ p y, P !! p = Some y → ins P r x !! (if decide (p <= r) then p else S p) = Some y).
    { intros k w Hw. case_decide; [by rewrite ins_low|by rewrite ins_high by lia]. }
    pose proof (Hnd _ _ _ _ (Hcases p y Hy) (Hcases q z Hz) E) as H. repeat case_decide; lia.
  - intros p y Hy. destruct (Hin p y Hy) as (k & Hk & Hpk). destruct (rep_height _ _ Hrep k y Hk) as [? H].
    split; [done|]. intros ?. apply H. lia.
  - intros p y i Hy Hty. rewrite Hls. destruct (decide (i < slevel sl)) as [Hi|Hi]; [by apply unlinked_ok|].
    destruct (Hin p y Hy) as (k & Hk & _). destruct (rep_level _ _ Hrep k y i Hk Hty) as (lv & Hlv & Hf).
    rewrite decide_False in Hf by done. eauto.
  - rewrite (rep_len _ _ Hrep), length_ins. lia.
  - intros p y Hy. destruct (Hin p y Hy) as (k & Hk & _). by apply (rep_fresh _ _ Hrep k y).
Qed.

Definition unbacked : gmap nat node :=
  match P !! S r with
  | Some z => <[eloc z := MkNode (eel z) (back P (S r)) (eh z)]> (nodes sl)
  | None => nodes sl
  end.

Lemma unbacked_ok p y : P !! p = Some y → unbacked !! eloc y = Some (MkNode (eel y) (back P p) (eh y)).
Proof using Hrep Hr.
  clear Hus Hok. intros Hy. unfold unbacked. destruct (decide (p = S r)) as [->|Hp].
  { rewrite Hy. by rewrite lookup_insert_eq. }
  assert (∃ k, ins P r x !! k = Some y ∧ back (ins P r x) k = back P p ∧ k ≠ S (S r)) as (k & Hk & Hb & Hne).
  { destruct (decide (p <= r)); [exists p|exists (S p)].
    - rewrite ins_low, ins_back_low by lia. split_and!; [done|done|lia].
    - rewrite ins_high, ins_back_high by lia. split_and!; [done|done|lia]. }
  pose proof (rep_node _ _ Hrep k y Hk) as Hn. rewrite Hb in Hn.
  destruct (P !! S r) as [z|] eqn:Hz; [|done]. rewrite lookup_insert_ne; [done|]. intros E.
  destruct Hne. eapply (rep_nodup _ _ Hrep); [exact Hk| |done]. by rewrite ins_high by lia.
Qed.

Lemma removeNode_spec :
  ∃ sl', removeNode sl (eloc x) us = Ret sl' ∧ rep sl' P ∧ slevel sl' <= slevel sl.
Proof using Hrep Hr Hus Hok.
  unfold removeNode. destruct unlink_loop as (ls & -> & Hls). cbn [mbind res_bind].
  unfold get_node, get_level. cbn [with_levels nodes levels]. pose proof (ins_mid P r x Hr) as Hx.
  rewrite (rep_node _ _ Hrep _ _ Hx). cbn [must mbind res_bind backward]. rewrite ins_back_low by lia.
  assert (Hlx : ∃ lx, ls !! (eloc x, 0) = Some lx ∧ forward lx = eloc <$> P !! S r).
  { pose proof (rep_slevel _ _ Hrep) as Hl. destruct (forward_0 sl _ (S r) x Hrep Hx) as (lx & Hlx & Hf).
    rewrite ins_high in Hf by lia. exists lx. split; [|done]. rewrite Hls, decide_True by lia.
    destruct (pred_link 0) as (q & u & lu & Hu & Hpred & Hlu & _); [lia|].
    unfold unlinked. rewrite Hu. cbn [mbind option_bind]. rewrite Hlu. cbn [mbind option_bind].
    rewrite decide_False; [done|]. intros E.
    assert (Hq : ins P r x !! q = Some u) by (rewrite ins_low; [apply Hpred|done|apply Hpred]).
    pose proof (rep_nodup _ _ Hrep _ _ _ _ Hx Hq E) as <-. destruct Hpred as (_ & _ & ? & _). lia. }
  destruct Hlx as (lx & -> & Hf). cbn [must mbind res_bind]. rewrite Hf.
  assert (Hsl2 : ∀ t, t = back P (length P) →
    ∃ sl', (l ← shrink (MkSL unbacked ls t (slen sl) (slevel sl) (fresh_loc sl)) (slevel sl);
            let sl3 := set_slevel (MkSL unbacked ls t (slen sl) (slevel sl) (fresh_loc sl)) l in
            Ret (set_len sl3 (slen sl3 - 1))) = Ret sl' ∧ rep sl' P ∧ slevel sl' <= slevel sl).
  { intros t Ht. destruct (shrink_spec (MkSL unbacked ls t (slen sl) (slevel sl) (fresh_loc sl)) (slevel sl) P (slen sl - 1))
      as (l & -> & Hl & Hrep'); [apply remove_rep; [done|apply unbacked_ok|done]|]. eexists. split; [reflexivity|]. done. }
  unfold unbacked in Hsl2. destruct (P !! S r) as [z|] eqn:Hz; cbn [fmap option_fmap option_map].
  - unfold set_backward, get_node. cbn [nodes with_levels].
    assert (Hz' : ins P r x !! S (S r) = Some z) by (by rewrite ins_high by lia).
    rewrite (rep_node _ _ Hrep _ _ Hz'). apply (Hsl2 (tail sl)).
    rewrite (rep_tail _ _ Hrep), length_ins. apply ins_back_high; [done|]. by apply lookup_lt_Some in Hz.
  - apply (Hsl2 (back P (S r))). apply lookup_ge_None in Hz. by replace (length P) with (S r) by lia.
Qed.
End unlink.
