(* ===== verification/SkipListSpec.v ===== *)
(** * The skiplist: searching and removing

    The elements of a skiplist are a list; [sorted] says that it is strictly
    ordered by score and member, and that the scores are numbers.  Every
    search is described by the prefix of the list that its condition admits. *)

From stdpp Require Import base gmap list sorting.
From Stdlib Require Import ZArith Lia.
From S2P Require Import Prelude Float64 Border SkipList SkipListRep SkipListOps.

Local Open Scope nat_scope.

Definition elems (P : list entry) : list Element := eel <$> drop 1 P.

Lemma lookup_elems P q : elems P !! q = eel <$> P !! S q.
Proof. unfold elems. by rewrite list_lookup_fmap, lookup_drop. Qed.

Lemma elems_at P es q y : elems P = es → P !! S q = Some y → es !! q = Some (eel y).
Proof. intros <- H. by rewrite lookup_elems, H. Qed.

Lemma length_elems sl P : rep sl P → length P = S (length (elems P)).
Proof. intros H. unfold elems. rewrite length_fmap, length_drop. pose proof (rep_pos _ _ H). lia. Qed.

Lemma elems_ins P r x : r < length P → elems (ins P r x) = take r (elems P) ++ eel x :: drop r (elems P).
Proof.
  intros Hr. destruct P as [|h Q]; [cbn in Hr; lia|].
  unfold elems, ins. cbn [take drop app]. by rewrite !drop_0, fmap_app, fmap_cons, fmap_take, fmap_drop.
Qed.

(** ** Prefixes *)

(** [f] is closed downwards along [es]. *)
Definition downset {A} (f : A → bool) (es : list A) : Prop :=
  ∀ i j a b, es !! i = Some a → es !! j = Some b → i < j → f b = true → f a = true.

(** The number of elements that [f] holds of. *)
Definition count {A} (f : A → bool) (es : list A) : nat := length (filter (λ a, f a = true) es).

Lemma downset_tail {A} (f : A → bool) a es : downset f (a :: es) → downset f es.
Proof. intros H i j x y Hx Hy Hij. apply (H (S i) (S j)); done || lia. Qed.

Lemma downset_none {A} (f : A → bool) a es : downset f (a :: es) → f a = false → filter (λ a, f a = true) es = [].
Proof.
  intros H Hf. apply elem_of_nil_inv. intros b [Hb [j Hj]%list_elem_of_lookup]%list_elem_of_filter.
  rewrite (H 0 (S j) a b) in Hf; done || lia.
Qed.

Lemma downset_take {A} (f : A → bool) es :
  downset f es → filter (λ a, f a = true) es = take (count f es) es ∧ filter (λ a, f a = false) es = drop (count f es) es.
Proof.
  unfold count. induction es as [|a es IH]; intros H; [done|]. rewrite !filter_cons.
  destruct (IH (downset_tail _ _ _ H)) as [E1 E2]. destruct (f a) eqn:Hf.
  - rewrite decide_True, decide_False by done. cbn. by rewrite E1 at 1; rewrite E2 at 1.
  - rewrite decide_False, decide_True by done. rewrite (downset_none f a es H Hf) in *. cbn in *. by rewrite E2.
Qed.

Lemma downset_lookup {A} (f : A → bool) es q a :
  downset f es → es !! q = Some a → f a = bool_decide (q < count f es).
Proof.
  unfold count. revert q. induction es as [|b es IH]; intros q H Hq; [done|]. rewrite filter_cons.
  destruct (f b) eqn:Hf.
  - rewrite decide_True by done. destruct q as [|q]; cbn in Hq; [simplify_eq; by rewrite bool_decide_true by (cbn; lia)|].
    rewrite (IH q (downset_tail _ _ _ H) Hq). apply bool_decide_ext. cbn. lia.
  - rewrite decide_False, (downset_none f b es H Hf) by done. cbn. rewrite bool_decide_false by lia.
    destruct q as [|q]; [cbn in Hq; congruence|]. destruct (f a) eqn:Ha; [|done].
    rewrite (H 0 (S q) b a) in Hf; done || lia.
Qed.

Lemma count_le {A} (f : A → bool) es : count f es <= length es.
Proof. apply length_filter. Qed.

Lemma admits_prefix sl P (cond : Z → Element → bool) (f : Element → bool) :
  rep sl P → downset f (elems P) → (∀ i e, cond i e = f e) → admits P cond (count f (elems P)).
Proof.
  intros Hrep Hd Hf. pose proof (length_elems _ _ Hrep) as Hlen. pose proof (count_le f (elems P)) as Hle.
  split; [lia|]. intros [|q] x Hx Hq; [lia|]. rewrite Hf.
  rewrite (downset_lookup f (elems P) q) by (rewrite ?lookup_elems, ?Hx; done). apply bool_decide_ext. lia.
Qed.

(** ** Sorted lists *)

Definition sorted (es : list Element) : Prop := StronglySorted elt es ∧ Forall num es.

Lemma sorted_lookup es i j a b : sorted es → es !! i = Some a → es !! j = Some b → i < j → elt a b.
Proof.
  intros [Hs _] Ha Hb Hij. rewrite <- (take_drop_middle es i a Ha) in Hs.
  apply StronglySorted_app in Hs as (_ & _ & Hs). apply StronglySorted_cons in Hs as [Hs _].
  eapply Forall_forall; [exact Hs|]. apply (list_elem_of_lookup_2 _ (j - S i)). rewrite lookup_drop. rewrite <- Hb. f_equal. lia.
Qed.

Lemma sorted_num es a : sorted es → a ∈ es → num a.
Proof. intros [_ H] Ha. by eapply Forall_forall in H. Qed.

Lemma downset_before es m s : sorted es → fnan s = false → downset (λ e, elem_before e m s) es.
Proof.
  intros Hs Hn i j a b Ha Hb Hij. rewrite !elem_before_spec by (done || eapply sorted_num; by eauto using list_elem_of_lookup_2).
  intros H. etrans; [|exact H]. by eapply sorted_lookup.
Qed.

Lemma sorted_filter (Q : Element → Prop) `{!∀ a, Decision (Q a)} es : sorted es → sorted (filter Q es).
Proof.
  intros [Hs Hn]. split.
  - induction Hs as [|a es Hs IH Ha]; [constructor|]. apply Forall_cons in Hn as [_ Hn]. rewrite filter_cons.
    case_decide; [|by apply IH]. constructor; [by apply IH|].
    apply Forall_forall. intros b [_ Hb]%list_elem_of_filter. by eapply Forall_forall in Ha.
  - apply Forall_forall. intros b [_ Hb]%list_elem_of_filter. by eapply Forall_forall in Hn.
Qed.

(** [es] with [e] in its place. *)
Definition zins (e : Element) (es : list Element) : list Element :=
  filter (λ a, elem_before a (Member e) (Score e) = true) es ++ e :: filter (λ a, elem_before a (Member e) (Score e) = false) es.

Definition sl_is (sl : skiplist) (es : list Element) : Prop := ∃ P, rep sl P ∧ elems P = es.

Lemma sl_is_make : sl_is makeSkiplist [].
Proof. exists [header_entry]. split; [apply rep_make|done]. Qed.

Lemma insert_is sl es m s rnd :
  sl_is sl es → sorted es → fnan s = false →
  ∃ sl', insert sl m s rnd = Ret sl' ∧ sl_is sl' (zins (MkElement m s) es).
Proof.
  intros (P & Hrep & <-) Hs Hn. pose proof (downset_before _ m s Hs Hn) as Hd.
  pose proof (admits_prefix sl P (before m s) _ Hrep Hd (λ _ _, eq_refl)) as Hadm.
  destruct (insert_spec sl P m s rnd _ Hrep Hadm) as (sl' & x & -> & Hx & Hrep').
  exists sl'. split; [done|]. eexists. split; [exact Hrep'|]. rewrite elems_ins by apply Hadm.
  unfold zins. cbn [Member Score]. destruct (downset_take _ _ Hd) as [-> ->]. by rewrite Hx.
Qed.

Lemma zins_sorted e es : sorted es → num e → (∀ a, a ∈ es → ¬ same a e) → sorted (zins e es).
Proof.
  intros Hs He Hne. destruct e as [m s]. unfold zins. cbn [Member Score].
  assert (Hb : ∀ a, a ∈ es → elem_before a m s = true → elt a (MkElement m s)).
  { intros a Ha. apply elem_before_spec; [by eapply sorted_num|done]. }
  assert (Hnb : ∀ a, a ∈ es → elem_before a m s = false → elt (MkElement m s) a).
  { intros a Ha Hf. destruct (elt_total a (MkElement m s)) as [Hlt|[Hsm|Hgt]]; [|by destruct (Hne a Ha)|done].
    apply elem_before_spec in Hlt; [congruence|by eapply sorted_num|done]. }
  split.
  - apply StronglySorted_app. split_and!.
    + intros a b [Ha Ha']%list_elem_of_filter [->|[Hb' Hb'']%list_elem_of_filter]%elem_of_cons; [by apply Hb|].
      etrans; [by apply Hb|by apply Hnb].
    + by apply sorted_filter.
    + apply StronglySorted_cons. split; [|by apply sorted_filter].
      apply Forall_forall. intros b [? ?]%list_elem_of_filter. by apply Hnb.
  - apply Forall_app. split; [by apply sorted_filter|]. constructor; [done|by apply sorted_filter].
Qed.

(** ** Taking positions out *)

Definition cut (P : list entry) (r n : nat) : list entry := take (S r) P ++ drop (S r + n) P.

Lemma cut_ins P r x : P !! S r = Some x → P = ins (cut P r 1) r x ∧ r < length (cut P r 1).
Proof.
  intros Hx. pose proof (lookup_lt_Some _ _ _ Hx) as Hl. unfold ins, cut.
  rewrite Nat.add_1_r, take_app_length', drop_app_length' by (rewrite length_take; lia).
  rewrite length_app, length_take. split; [|lia]. by rewrite take_drop_middle.
Qed.

Lemma cut_cut P r n : S r <= length P → cut (cut P r 1) r n = cut P r (S n).
Proof.
  intros Hr. unfold cut. rewrite take_app_length' by (rewrite length_take; lia). f_equal.
  rewrite drop_app_ge by (rewrite length_take; lia). rewrite length_take, drop_drop. f_equal. lia.
Qed.

Lemma cut_0 P r : cut P r 0 = P.
Proof. unfold cut. by rewrite Nat.add_0_r, take_drop. Qed.

Lemma elems_cut P r n : S r <= length P → elems (cut P r n) = take r (elems P) ++ drop (r + n) (elems P).
Proof.
  intros Hr. destruct P as [|h Q]; [cbn in Hr; lia|]. unfold elems, cut. cbn [take drop app Nat.add].
  by rewrite !drop_0, fmap_app, fmap_take, fmap_drop.
Qed.

Lemma drop_cut P r : S r <= length P → drop (S r) (cut P r 1) = drop (S (S r)) P.
Proof. intros Hr. unfold cut. by rewrite Nat.add_1_r, drop_app_length' by (rewrite length_take; lia). Qed.

(** One node out: what the callers of [removeNode] do. *)
Lemma removeNode_cut sl P r us x :
  rep sl P → P !! S r = Some x → slevel sl <= length us → update_ok P r us 0 →
  ∃ sl', removeNode sl (eloc x) us = Ret sl' ∧ rep sl' (cut P r 1) ∧ slevel sl' <= length us ∧ update_ok (cut P r 1) r us 0.
Proof.
  intros Hrep Hx Hus Hok. destruct (cut_ins P r x Hx) as [E Hr].
  assert (Hok' : update_ok (cut P r 1) r us 0) by (apply (update_ok_ins _ r x us 0 Hr); by rewrite <- E).
  rewrite E in Hrep. destruct (removeNode_spec sl (cut P r 1) r us x Hrep Hr Hus Hok') as (sl' & -> & Hrep' & Hl).
  exists sl'. split_and!; [done|done|lia|done].
Qed.

(** ** remove *)

Lemma count_at es r a m s :
  sorted es → fnan s = false → es !! r = Some a → same a (MkElement m s) → count (λ e, elem_before e m s) es = r.
Proof.
  intros Hs Hn Ha Hsame. pose proof (downset_before es m s Hs Hn) as Hd.
  assert (Hf : elem_before a m s = false).
  { apply not_true_iff_false. intros H%elem_before_spec; [|by eapply sorted_num, list_elem_of_lookup_2|done].
    by eapply same_irrefl. }
  rewrite (downset_lookup _ _ _ _ Hd Ha) in Hf. apply bool_decide_eq_false in Hf.
  destruct (decide (count (λ e, elem_before e m s) es = r)) as [|Hne]; [done|].
  destruct (lookup_lt_is_Some_2 es (count (λ e, elem_before e m s) es)) as [b Hb]; [apply lookup_lt_Some in Ha; lia|].
  pose proof (downset_lookup _ _ _ _ Hd Hb) as Hbf. rewrite bool_decide_false in Hbf by lia.
  assert (Hlt : elt b (MkElement m s)).
  { eapply same_elt_r; [exact Hsame|]. eapply sorted_lookup; [exact Hs|exact Hb|exact Ha|lia]. }
  apply elem_before_spec in Hlt; [congruence| |done]. by eapply sorted_num, list_elem_of_lookup_2.
Qed.

Lemma remove_is sl es m s r a :
  sl_is sl es → sorted es → fnan s = false → es !! r = Some a → same a (MkElement m s) →
  ∃ sl', remove sl m s = Ret (sl', true) ∧ sl_is sl' (take r es ++ drop (S r) es).
Proof.
  intros (P & Hrep & <-) Hs Hn Ha Hsame. pose proof (downset_before _ m s Hs Hn) as Hd.
  pose proof (admits_prefix sl P (before m s) _ Hrep Hd (λ _ _, eq_refl)) as Hadm.
  rewrite (count_at _ _ _ _ _ Hs Hn Ha Hsame) in Hadm. pose proof (rep_slevel _ _ Hrep) as Hl.
  unfold remove. destruct (descend_spec sl P _ r Hrep Hadm) as (us & -> & Hlen & Hok). cbn [mbind res_bind].
  rewrite (next_of_spec sl P r us Hrep (proj1 Hadm)) by (done || lia). cbn [mbind res_bind].
  rewrite lookup_elems in Ha. destruct (P !! S r) as [x|] eqn:Hx; [|done]. cbn [fmap option_fmap option_map] in Ha |- *.
  simplify_eq. unfold get_node. rewrite (rep_node _ _ Hrep _ _ Hx). cbn [must mbind res_bind nelem].
  destruct Hsame as [Hk Hm]. cbn [Score Member] in Hk, Hm.
  assert (Hnx : num (eel x)) by (eapply sorted_num; [exact Hs|]; apply (list_elem_of_lookup_2 _ r); by rewrite lookup_elems, Hx).
  rewrite feq_key by done. rewrite bool_decide_true by done. unfold bytes_eqb. rewrite bool_decide_true by done. cbn [andb].
  destruct (removeNode_cut sl P r us x Hrep Hx) as (sl' & -> & Hrep' & _); [lia|done|]. cbn [mbind res_bind].
  exists sl'. split; [done|]. eexists. split; [exact Hrep'|]. rewrite elems_cut, Nat.add_1_r by apply Hadm. done.
Qed.

(** ** Ranks *)

(** The state of a search that has come down to level [lvl]. *)
Definition at_level (P : list entry) (r lvl p : nat) (x : entry) : Prop :=
  P !! p = Some x ∧ lvl <= eh x ∧ p <= r ∧ ∀ k z, P !! k = Some z → p < k <= r → eh z <= lvl.

Lemma walk_level sl P cond r i p x :
  rep sl P → admits P cond r → i < slevel sl → at_level P r (S i) p x →
  ∃ q y, walk (walk_fuel sl) sl cond i (eloc x) (Z.of_nat p) = Ret (eloc y, Z.of_nat q) ∧
    at_level P r i q y ∧ is_pred P i r q y.
Proof.
  intros Hrep Hc Hi (Hx & Hh & Hp & Hm).
  destruct (walk_spec sl P i cond r (walk_fuel sl) p x) as (q & y & -> & Hpq & Hpred); [done|done|done|done| |done| |].
  { unfold tall. lia. }
  { unfold walk_fuel. rewrite (rep_len _ _ Hrep). destruct Hc as [Hr _]. lia. }
  exists q, y. split_and!; [done| |done]. destruct Hpred as (Hy & Hty & Hq & Hmid). unfold tall in Hty.
  split_and!; [done|lia|done|]. intros k z Hz Hk. specialize (Hmid k z Hz Hk). unfold tall in Hmid. lia.
Qed.

Lemma at_level_top sl P r : rep sl P → r < length P → ∃ x, at_level P r (slevel sl) 0 x ∧ eloc x = header.
Proof.
  intros Hrep Hr. destruct (rep_header _ _ Hrep) as (x & Hx & Hl & Hh & _). exists x. split; [|done].
  split_and!; [done|rewrite Hh; apply (rep_slevel _ _ Hrep)|lia|].
  intros k z Hz Hk. apply (rep_height _ _ Hrep k z Hz). lia.
Qed.

Lemma getByRank_spec sl P r :
  rep sl P → r < length P → ∃ y, getByRank sl (Z.of_nat r) = Ret (Some (eloc y)) ∧ P !! r = Some y.
Proof.
  intros Hrep Hr. unfold getByRank.
  assert (Hc : admits P (at_most (Z.of_nat r)) r).
  { split; [done|]. intros q x _ _. unfold at_most. case_bool_decide; lia. }
  destruct (at_level_top sl P r Hrep Hr) as (x & Hx & <-). change 0%Z with (Z.of_nat 0).
  assert (Hgen : ∀ lvl p x, 1 <= lvl <= slevel sl → at_level P r lvl p x →
    ∃ y, by_rank_loop sl (Z.of_nat r) lvl (eloc x) (Z.of_nat p) = Ret (Some (eloc y)) ∧ P !! r = Some y).
  { induction lvl as [|i IH]; intros p z Hl Hz; [lia|]. cbn [by_rank_loop].
    destruct (walk_level sl P _ r i p z Hrep Hc ltac:(lia) Hz) as (q & y & -> & Hy & Hpred). cbn [mbind res_bind].
    destruct (Z.eqb_spec (Z.of_nat q) (Z.of_nat r)) as [E|Hne].
    - apply Nat2Z.inj in E as ->. exists y. split; [done|]. apply Hpred.
    - destruct i as [|i]; [|by apply IH; [lia|]]. pose proof (is_pred_0 _ _ _ _ _ Hrep Hr Hpred). lia. }
  apply Hgen; [|done]. pose proof (rep_slevel _ _ Hrep). lia.
Qed.

Lemma downset_upto es m s : sorted es → fnan s = false → downset (upto m s 0) es.
Proof.
  intros Hs Hn i j a b Ha Hb Hij. pose proof (sorted_lookup _ _ _ _ _ Hs Ha Hb Hij) as Hab.
  assert (num a ∧ num b) as [Hna Hnb] by (split; eapply sorted_num; eauto using list_elem_of_lookup_2).
  unfold upto. rewrite !flt_key, !feq_key by done. rewrite !orb_true_iff, !andb_true_iff, !bool_decide_eq_true.
  destruct Hab as [Hlt|[Heq Hlt]].
  - intros [?|[? _]]; left; lia.
  - intros [?|[? Hle]]; [left; lia|]. right. split; [lia|]. unfold bytes_leb in *. apply negb_true_iff in Hle. apply negb_true_iff.
    apply not_true_iff_false. intros Hc. by rewrite (bytes_ltb_trans _ _ _ Hc Hlt) in Hle.
Qed.

Lemma upto_at es r a m s :
  sorted es → fnan s = false → es !! r = Some a → same a (MkElement m s) → count (upto m s 0) es = S r.
Proof.
  intros Hs Hn Ha [Hk Hm]. cbn [Score Member] in Hk, Hm. pose proof (downset_upto es m s Hs Hn) as Hd.
  assert (Hnum : ∀ i b, es !! i = Some b → num b) by (intros; eapply sorted_num; eauto using list_elem_of_lookup_2).
  assert (Hf : upto m s 0 a = true).
  { unfold upto. pose proof (Hnum _ _ Ha). rewrite flt_key, feq_key by done. unfold bytes_leb. rewrite Hm, bytes_ltb_irrefl.
    rewrite (bool_decide_true (fkey (Score a) = fkey s)) by done. apply orb_true_r. }
  rewrite (downset_lookup _ _ _ _ Hd Ha) in Hf. apply bool_decide_eq_true in Hf.
  destruct (decide (count (upto m s 0) es = S r)) as [|Hne]; [done|].
  destruct (lookup_lt_is_Some_2 es (S r)) as [b Hb]; [pose proof (count_le (upto m s 0) es); lia|].
  pose proof (downset_lookup _ _ _ _ Hd Hb) as Hbf. rewrite bool_decide_true in Hbf by lia.
  unfold upto in Hbf. pose proof (Hnum _ _ Hb). rewrite flt_key, feq_key in Hbf by done. unfold bytes_leb in Hbf.
  destruct (sorted_lookup _ _ _ _ _ Hs Ha Hb ltac:(lia)) as [Hlt|[Heq Hlt]].
  - rewrite !bool_decide_false in Hbf by lia. done.
  - rewrite Hm in Hlt. rewrite bool_decide_false, Hlt, andb_false_r in Hbf by lia. done.
Qed.

(** [getRank] counts from 1.  The member must not be the empty string, which
    is the member of the header. *)
Lemma getRank_spec sl es m s r a :
  sl_is sl es → sorted es → NoDup (Member <$> es) → fnan s = false → m ≠ [] →
  es !! r = Some a → same a (MkElement m s) → getRank sl m s = Ret (Z.of_nat (S r)).
Proof.
  intros (P & Hrep & <-) Hs Hnd Hn Hm Ha Hsame.
  pose proof (admits_prefix sl P (upto m s) _ Hrep (downset_upto _ m s Hs Hn) (λ _ _, eq_refl)) as Hadm.
  rewrite (upto_at _ _ _ _ _ Hs Hn Ha Hsame) in Hadm. pose proof (proj1 Hadm) as Hr. pose proof Hsame as [_ Hma]. cbn in Hma.
  assert (Huniq : ∀ q y, P !! q = Some y → Member (eel y) = m → q = S r).
  { intros [|q] y Hy Hym.
    - destruct (rep_header _ _ Hrep) as (h & Hh & _ & _ & He). rewrite Hy in Hh. injection Hh as ->. rewrite He in Hym. by destruct Hm.
    - f_equal. eapply (NoDup_lookup _ _ _ m Hnd); rewrite list_lookup_fmap.
      + by rewrite lookup_elems, Hy, <- Hym.
      + by rewrite Ha, <- Hma. }
  assert (Hgen : ∀ lvl p x, 1 <= lvl <= slevel sl → at_level P (S r) lvl p x →
    rank_loop sl m s lvl (eloc x) (Z.of_nat p) = Ret (Z.of_nat (S r))).
  { induction lvl as [|i IH]; intros p x Hl Hx; [lia|]. cbn [rank_loop].
    destruct (walk_level sl P _ (S r) i p x Hrep Hadm ltac:(lia) Hx) as (q & y & -> & Hy & Hpred). cbn [mbind res_bind].
    unfold get_node. rewrite (rep_node _ _ Hrep q y) by apply Hpred. cbn [must mbind res_bind nelem]. unfold bytes_eqb.
    case_bool_decide as E; [by rewrite (Huniq q y (proj1 Hpred) E)|].
    destruct i as [|i]; [|by apply IH; [lia|]]. pose proof (is_pred_0 _ _ _ _ _ Hrep Hr Hpred) as ->.
    destruct E. rewrite lookup_elems, (proj1 Hpred) in Ha. cbn in Ha. by simplify_eq. }
  destruct (at_level_top sl P (S r) Hrep Hr) as (x & Hx & E). unfold getRank. rewrite <- E.
  apply (Hgen _ 0); [|done]. pose proof (rep_slevel _ _ Hrep). lia.
Qed.

(** ** Ranges by border *)

Definition below (min : Border) (e : Element) : bool := negb (less min e).

(** The positions in range are those from [lo] on and before [hi]. *)
Definition lo (min : Border) (es : list Element) : nat := count (below min) es.
Definition hi (max : Border) (es : list Element) : nat := count (greater max) es.

Section ranges.
Context (min max : Border) (es : list Element).
Hypothesis Hs : sorted es.
Hypothesis Hcut : cuts min max es.

Lemma downset_below : downset (below min) es.
Proof using Hs Hcut.
  intros i j a b Ha Hb Hij. unfold below. rewrite !negb_true_iff. intros Hf.
  destruct (Hcut a b) as [H _]; eauto using list_elem_of_lookup_2, sorted_lookup.
  destruct (less min a); [|done]. by rewrite H in Hf.
Qed.

Lemma downset_greater : downset (greater max) es.
Proof using Hs Hcut.
  intros i j a b Ha Hb Hij. destruct (Hcut a b) as [_ H]; eauto using list_elem_of_lookup_2, sorted_lookup.
Qed.

Lemma less_at q a : es !! q = Some a → less min a = bool_decide (lo min es <= q).
Proof using Hs Hcut.
  intros Ha. pose proof (downset_lookup _ _ _ _ downset_below Ha) as H. unfold below at 1 in H.
  fold (lo min es) in H. destruct (less min a); symmetry.
  - apply bool_decide_eq_true. symmetry in H. apply bool_decide_eq_false in H. lia.
  - apply bool_decide_eq_false. symmetry in H. apply bool_decide_eq_true in H. lia.
Qed.

Lemma greater_at q a : es !! q = Some a → greater max a = bool_decide (q < hi max es).
Proof using Hs Hcut. intros Ha. apply (downset_lookup _ _ _ _ downset_greater Ha). Qed.

Context (sl : skiplist) (P : list entry).
Hypothesis Hrep : rep sl P.
Hypothesis HP : elems P = es.

Lemma last_node_spec cond r :
  admits P cond r → ∃ y, last_node sl cond = Ret (eloc y) ∧ P !! r = Some y.
Proof using Hrep.
  clear Hs Hcut HP. intros Hc. unfold last_node. destruct (descend_spec sl P cond r Hrep Hc) as (us & -> & Hlen & Hok).
  cbn [mbind res_bind]. pose proof (rep_slevel _ _ Hrep). destruct (update_0 sl P r us Hrep (proj1 Hc)) as (y & -> & Hy); [lia|done|].
  by exists y.
Qed.

(** The range is tested on the first and the last element. *)
Lemma hasInRange_spec b :
  isIntersected min max = Ret b →
  hasInRange sl min max = Ret (negb b && bool_decide (lo min es < length es) && bool_decide (0 < hi max es)).
Proof using Hs Hcut Hrep HP.
  intros Hb. unfold hasInRange. rewrite Hb. cbn [mbind res_bind]. destruct b; [done|]. cbn [negb andb].
  pose proof (length_elems sl P Hrep) as Hlen. rewrite HP in Hlen. rewrite (rep_tail _ _ Hrep), Hlen.
  destruct (length es) as [|n] eqn:Hn.
  { cbn. by rewrite bool_decide_false by lia. }
  cbn [back]. destruct (lookup_lt_is_Some_2 P (S n)) as [y Hy]; [lia|]. rewrite Hy. cbn [fmap option_fmap option_map].
  unfold get_node. rewrite (rep_node _ _ Hrep _ _ Hy). cbn [must mbind res_bind nelem].
  rewrite (less_at n (eel y)) by (by eapply elems_at).
  destruct (decide (lo min es <= n)) as [Hle|Hle].
  2:{ rewrite !bool_decide_false by lia. done. }
  rewrite !bool_decide_true by lia. cbn [negb andb].
  destruct (rep_header _ _ Hrep) as (h & Hh & <- & _). destruct (forward_0 sl P 0 h Hrep Hh) as (lv & Hlv & Hf).
  unfold get_level. rewrite Hlv. cbn [must mbind res_bind]. rewrite Hf.
  destruct (lookup_lt_is_Some_2 P 1) as [z Hz]; [lia|]. rewrite Hz. cbn [fmap option_fmap option_map].
  rewrite (rep_node _ _ Hrep _ _ Hz). cbn [must mbind res_bind nelem].
  by rewrite (greater_at 0 (eel z)) by (by eapply elems_at).
Qed.

Lemma getFirstInRange_spec :
  isIntersected min max = Ret false →
  getFirstInRange sl min max =
    Ret (if decide (lo min es < hi max es) then eloc <$> P !! S (lo min es) else None).
Proof using Hs Hcut Hrep HP.
  intros Hi. unfold getFirstInRange. rewrite (hasInRange_spec false Hi). cbn [mbind res_bind negb andb].
  pose proof (count_le (greater max) es) as Hhi. fold (hi max es) in Hhi.
  destruct (decide (lo min es < length es)) as [Hl|Hl].
  2:{ rewrite bool_decide_false, decide_False by lia. done. }
  rewrite bool_decide_true by done. destruct (decide (0 < hi max es)) as [H0|H0].
  2:{ rewrite bool_decide_false, decide_False by lia. done. }
  rewrite bool_decide_true by done. cbn [negb andb].
  pose proof downset_below as Hd. rewrite <- HP in Hd.
  pose proof (admits_prefix sl P (λ _ e, negb (less min e)) _ Hrep Hd (λ _ _, eq_refl)) as Hadm.
  destruct (last_node_spec _ _ Hadm) as (y & -> & Hy). cbn [mbind res_bind]. rewrite HP in Hy. fold (lo min es) in Hy.
  destruct (forward_0 sl P _ y Hrep Hy) as (lv & Hlv & Hf). unfold get_level, get_node. rewrite Hlv. cbn [must mbind res_bind].
  pose proof (length_elems sl P Hrep) as Hlen. rewrite HP in Hlen.
  destruct (lookup_lt_is_Some_2 P (S (lo min es))) as [z Hz]; [lia|]. rewrite Hf, Hz. cbn [fmap option_fmap option_map must mbind res_bind].
  rewrite (rep_node _ _ Hrep _ _ Hz). cbn [must mbind res_bind nelem].
  rewrite (greater_at (lo min es) (eel z)) by (by eapply elems_at).
  destruct (decide (lo min es < hi max es)); [by rewrite bool_decide_true|by rewrite bool_decide_false].
Qed.

Lemma getLastInRange_spec :
  isIntersected min max = Ret false →
  getLastInRange sl min max =
    Ret (if decide (lo min es < hi max es) then eloc <$> P !! hi max es else None).
Proof using Hs Hcut Hrep HP.
  intros Hi. unfold getLastInRange. rewrite (hasInRange_spec false Hi). cbn [mbind res_bind negb andb].
  pose proof (count_le (greater max) es) as Hhi. fold (hi max es) in Hhi.
  destruct (decide (lo min es < length es)) as [Hl|Hl].
  2:{ rewrite bool_decide_false, decide_False by lia. done. }
  rewrite bool_decide_true by done. destruct (decide (0 < hi max es)) as [H0|H0].
  2:{ rewrite bool_decide_false, decide_False by lia. done. }
  rewrite bool_decide_true by done. cbn [negb andb].
  pose proof downset_greater as Hd. rewrite <- HP in Hd.
  pose proof (admits_prefix sl P (λ _ e, greater max e) _ Hrep Hd (λ _ _, eq_refl)) as Hadm.
  destruct (last_node_spec _ _ Hadm) as (y & -> & Hy). cbn [mbind res_bind]. rewrite HP in Hy. fold (hi max es) in Hy.
  unfold get_node. rewrite (rep_node _ _ Hrep _ _ Hy). cbn [must mbind res_bind nelem].
  destruct (hi max es) as [|n] eqn:Hn; [lia|].
  rewrite (less_at n (eel y)) by (by eapply elems_at).
  destruct (decide (lo min es < S n)); [rewrite bool_decide_true by lia|rewrite bool_decide_false by lia; done].
  by rewrite Hy.
Qed.
End ranges.

(** ** Removing ranges *)

(** How many elements a removal takes: those that [f] holds of, up to the
    limit; [k] have been taken before. *)
Fixpoint run (f : Element → bool) (limit : Z) (k : nat) (es : list Element) : nat :=
  match es with
  | [] => 0
  | e :: es' =>
      if f e then
        if ((0 <? limit) && (Z.of_nat (S k) =? limit))%Z then 1 else S (run f limit (S k) es')
      else 0
  end.

Lemma drop_elems P r x : P !! S r = Some x → drop r (elems P) = eel x :: drop r (elems (cut P r 1)).
Proof.
  intros Hx. pose proof (lookup_lt_Some _ _ _ Hx) as Hl. rewrite elems_cut by lia.
  rewrite (drop_S _ (eel x)) by (by rewrite lookup_elems, Hx).
  assert (Hlen : length (elems P) = length P - 1) by (unfold elems; by rewrite length_fmap, length_drop).
  rewrite drop_app_length' by (rewrite length_take; lia). do 2 f_equal. lia.
Qed.

Lemma drop_elems_nil P r : P !! S r = None → drop r (elems P) = [].
Proof. intros Hx%lookup_ge_None. apply drop_ge. unfold elems. rewrite length_fmap, length_drop. lia. Qed.

Lemma cut_next P r : S r <= length P → cut P r 1 !! S r = P !! S (S r).
Proof.
  intros Hr. unfold cut. rewrite lookup_app_r by (rewrite length_take; lia). rewrite lookup_drop, length_take. f_equal. lia.
Qed.

Lemma length_cut_lt P r x : P !! S r = Some x → length (cut P r 1) = length P - 1 ∧ S r <= length (cut P r 1).
Proof.
  intros Hx. pose proof (lookup_lt_Some _ _ _ Hx). unfold cut. rewrite length_app, length_take, length_drop. lia.
Qed.

(** The state of both removal loops: the node at position [S r] is next. *)
Definition removing (sl : skiplist) (P : list entry) (r : nat) (us : list (nat * Z)) : Prop :=
  rep sl P ∧ S r <= length P ∧ slevel sl <= length us ∧ update_ok P r us 0.

Lemma removing_step sl P r us x :
  removing sl P r us → P !! S r = Some x →
  ∃ lx sl', get_node sl (eloc x) = Ret (MkNode (eel x) (back P (S r)) (eh x)) ∧ get_level sl (eloc x) 0 = Ret lx ∧
    forward lx = eloc <$> cut P r 1 !! S r ∧ removeNode sl (eloc x) us = Ret sl' ∧ removing sl' (cut P r 1) r us.
Proof.
  intros (Hrep & Hr & Hus & Hok) Hx. destruct (forward_0 sl P (S r) x Hrep Hx) as (lx & Hlx & Hf).
  destruct (removeNode_cut sl P r us x Hrep Hx Hus Hok) as (sl' & E & Hrep' & Hus' & Hok').
  exists lx, sl'. unfold get_node, get_level. rewrite (rep_node _ _ Hrep _ _ Hx), Hlx, cut_next by done.
  split_and!; [done..|]. split_and!; [done| |done|done]. by eapply length_cut_lt.
Qed.

Lemma remove_range_loop_spec fuel sl P r us max limit acc :
  removing sl P r us → length P - S r < fuel →
  let n := run (greater max) limit (length acc) (drop r (elems P)) in
  ∃ sl', remove_range_loop fuel sl max limit us (eloc <$> P !! S r) acc = Ret (sl', acc ++ take n (drop r (elems P))) ∧
    rep sl' (cut P r n).
Proof.
  revert sl P acc. induction fuel as [|fuel IH]; intros sl P acc Hst Hf; [lia|]. cbn [remove_range_loop].
  destruct (P !! S r) as [x|] eqn:Hx; cbn [fmap option_fmap option_map].
  2:{ rewrite (drop_elems_nil P r Hx). cbn [run take]. rewrite cut_0, app_nil_r. exists sl. split; [done|]. apply Hst. }
  destruct (removing_step sl P r us x Hst Hx) as (lx & sl' & -> & -> & Hfw & -> & Hst').
  cbn [mbind res_bind nelem]. rewrite (drop_elems P r x Hx). cbn [run].
  destruct (greater max (eel x)); cbn [negb].
  2:{ cbn [take]. rewrite cut_0, app_nil_r. exists sl. split; [done|]. apply Hst. }
  rewrite length_app. cbn [length]. rewrite Nat.add_1_r. cbn [mbind res_bind].
  destruct ((0 <? limit)%Z && (Z.of_nat (S (length acc)) =? limit)%Z).
  { cbn [take]. exists sl'. split; [done|]. apply Hst'. }
  destruct (length_cut_lt P r x Hx) as [Hlc _]. apply lookup_lt_Some in Hx.
  destruct (IH sl' (cut P r 1) (acc ++ [eel x]) Hst') as (sl'' & E & Hrep''); [lia|].
  rewrite length_app in E, Hrep''. cbn [length] in E, Hrep''. rewrite Nat.add_1_r in E, Hrep''.
  rewrite cut_cut in Hrep'' by apply Hst. exists sl''. split; [|done]. rewrite Hfw, E. by rewrite <- app_assoc.
Qed.

Lemma remove_rank_loop_spec fuel sl P r us i stop acc :
  removing sl P r us → length P - S r < fuel →
  ∃ sl', remove_rank_loop fuel sl i stop us (eloc <$> P !! S r) acc =
      Ret (sl', acc ++ take (Z.to_nat (stop - i)) (drop r (elems P))) ∧
    rep sl' (cut P r (Nat.min (Z.to_nat (stop - i)) (length (drop r (elems P))))).
Proof.
  revert sl P i acc. induction fuel as [|fuel IH]; intros sl P i acc Hst Hf; [lia|]. cbn [remove_rank_loop].
  destruct (P !! S r) as [x|] eqn:Hx; cbn [fmap option_fmap option_map].
  2:{ rewrite (drop_elems_nil P r Hx). cbn [length]. rewrite Nat.min_0_r, cut_0, take_nil, app_nil_r.
      exists sl. split; [done|]. apply Hst. }
  destruct (Z.ltb_spec i stop) as [Hi|Hi]; cbn [negb].
  2:{ replace (Z.to_nat (stop - i)) with 0 by lia. cbn [take Nat.min]. rewrite cut_0, app_nil_r.
      exists sl. split; [done|]. apply Hst. }
  destruct (removing_step sl P r us x Hst Hx) as (lx & sl' & -> & -> & Hfw & -> & Hst').
  cbn [mbind res_bind nelem]. rewrite (drop_elems P r x Hx). replace (Z.to_nat (stop - i)) with (S (Z.to_nat (stop - (i + 1)))) by lia.
  destruct (length_cut_lt P r x Hx) as [Hlc _]. apply lookup_lt_Some in Hx.
  destruct (IH sl' (cut P r 1) (i + 1)%Z (acc ++ [eel x]) Hst') as (sl'' & E & Hrep''); [lia|].
  rewrite cut_cut in Hrep'' by apply Hst. exists sl''. split; [|done]. rewrite Hfw, E. by rewrite <- app_assoc.
Qed.

Lemma descend_removing sl P cond r :
  rep sl P → admits P cond r →
  ∃ us, descend sl cond (slevel sl) header 0 [] = Ret us ∧ removing sl P r us ∧ next_of sl us = Ret (eloc <$> P !! S r) ∧
    snd <$> us !! 0 = Some (Z.of_nat r).
Proof.
  intros Hrep Hc. destruct (descend_spec sl P cond r Hrep Hc) as (us & -> & Hlen & Hok). pose proof (rep_slevel _ _ Hrep).
  exists us. split_and!; [done|..].
  - split_and!; [done|apply Hc|lia|done].
  - apply next_of_spec; [done|apply Hc|lia|done].
  - destruct (update_0 sl P r us Hrep (proj1 Hc)) as (y & -> & _); [lia|done|done].
Qed.

Lemma RemoveRange_is sl es min max limit :
  sl_is sl es → sorted es → cuts min max es →
  let n := run (greater max) limit 0 (drop (lo min es) es) in
  ∃ sl', RemoveRange sl min max limit = Ret (sl', take n (drop (lo min es) es)) ∧
    sl_is sl' (take (lo min es) es ++ drop (lo min es + n) es).
Proof.
  intros (P & Hrep & <-) Hs Hcut n. pose proof (downset_below min max _ Hs Hcut) as Hd.
  pose proof (admits_prefix sl P (λ _ e, negb (less min e)) _ Hrep Hd (λ _ _, eq_refl)) as Hadm.
  unfold RemoveRange. destruct (descend_removing sl P _ _ Hrep Hadm) as (us & -> & Hst & Hnext & _).
  cbn [mbind res_bind]. rewrite Hnext. cbn [mbind res_bind].
  destruct (remove_range_loop_spec (walk_fuel sl) sl P _ us max limit [] Hst) as (sl' & -> & Hrep').
  { unfold walk_fuel. rewrite (rep_len _ _ Hrep). lia. }
  exists sl'. split; [done|]. eexists. split; [exact Hrep'|]. by rewrite elems_cut by apply Hadm.
Qed.

Lemma RemoveRangeByRank_is sl es start stop :
  sl_is sl es → (1 <= start)%Z →
  let r := Nat.min (Z.to_nat (start - 1)) (length es) in
  let n := Nat.min (Z.to_nat (stop - Z.of_nat (S r))) (length es - r) in
  ∃ sl', RemoveRangeByRank sl start stop = Ret (sl', take n (drop r es)) ∧ sl_is sl' (take r es ++ drop (r + n) es).
Proof.
  intros (P & Hrep & <-) Hst r n. pose proof (length_elems _ _ Hrep) as Hlen.
  assert (Hadm : admits P (below_rank start) r).
  { split; [lia|]. intros q x Hx Hq. apply lookup_lt_Some in Hx. unfold below_rank. case_bool_decide; lia. }
  unfold RemoveRangeByRank. destruct (descend_removing sl P _ _ Hrep Hadm) as (us & -> & Hrm & Hnext & H0).
  cbn [mbind res_bind]. rewrite Hnext. destruct (us !! 0) as [[u i]|]; [|done]. cbn in H0. injection H0 as ->.
  cbn [must mbind res_bind].
  destruct (remove_rank_loop_spec (walk_fuel sl) sl P r us (Z.of_nat r + 1) stop [] Hrm) as (sl' & -> & Hrep').
  { unfold walk_fuel. rewrite (rep_len _ _ Hrep). lia. }
  rewrite length_drop in Hrep'. replace (Z.of_nat r + 1)%Z with (Z.of_nat (S r)) in * by lia. fold n in Hrep'.
  exists sl'. split; [|eexists; split; [exact Hrep'|by rewrite elems_cut by lia]].
  do 2 f_equal. cbn [app]. unfold n. rewrite <- (length_drop (elems P) r).
  destruct (decide (Z.to_nat (stop - Z.of_nat (S r)) <= length (drop r (elems P)))); [by rewrite Nat.min_l by lia|].
  rewrite Nat.min_r by lia. rewrite !take_ge by lia. done.
Qed.
