(* ===== verification/SortedSet.v ===== *)
(** * Sorted sets: [internal/datastruct/sortedset/sortedset.go]

    A map from members to elements beside the skiplist of the same elements.
    The random number that a new node's height comes from is an argument of
    [Add]; a consumer is a function on an accumulator. *)

From stdpp Require Import base gmap list sorting strings.
From Stdlib Require Import ZArith Lia.
From S2P Require Import Prelude Float64 Border SkipList SkipListRep SkipListOps SkipListSpec.

Local Open Scope Z_scope.

Record SortedSet := MkSS { dict : gmap bytes Element; skl : skiplist }.

Definition Make : SortedSet := MkSS ∅ makeSkiplist.

Definition Add (ss : SortedSet) (member : bytes) (score rnd : Z) : res (SortedSet * bool) :=
  let dict' := <[member := MkElement member score]> (dict ss) in
  match dict ss !! member with
  | Some element =>
      if negb (feq score (Score element)) then
        '(sl1, _) ← remove (skl ss) member (Score element);
        sl2 ← insert sl1 member score rnd;
        Ret (MkSS dict' sl2, false)
      else Ret (MkSS dict' (skl ss), false)
  | None => sl1 ← insert (skl ss) member score rnd; Ret (MkSS dict' sl1, true)
  end.

Definition Len (ss : SortedSet) : Z := Z.of_nat (size (dict ss)).

Definition Get (ss : SortedSet) (member : bytes) : option Element := dict ss !! member.

Definition Remove (ss : SortedSet) (member : bytes) : res (SortedSet * bool) :=
  match dict ss !! member with
  | Some v => '(sl, _) ← remove (skl ss) member (Score v); Ret (MkSS (delete member (dict ss)) sl, true)
  | None => Ret (ss, false)
  end.

Definition GetRank (ss : SortedSet) (member : bytes) (desc : bool) : res Z :=
  match dict ss !! member with
  | None => Ret (-1)
  | Some element =>
      r ← getRank (skl ss) member (Score element);
      Ret (if desc then slen (skl ss) - r else r - 1)
  end.

(** [node.backward] or [node.level[0].forward]. *)
Definition step (sl : skiplist) (desc : bool) (n : nat) : res (option nat) :=
  if desc then nd ← get_node sl n; Ret (backward nd)
  else lv ← get_level sl n 0; Ret (forward lv).

(** The loop of [ForEachByRank]: [n] rounds unless the consumer stops it. *)
Fixpoint visit {A} (consumer : A → Element → A * bool) (sl : skiplist) (desc : bool) (n : nat) (node : option nat) (st : A)
    : res A :=
  match n with
  | O => Ret st
  | S n' =>
      x ← must node;
      nd ← get_node sl x;
      let '(st', go) := consumer st (nelem nd) in
      if go : bool then next ← step sl desc x; visit consumer sl desc n' next st' else Ret st'
  end.

Definition ForEachByRank {A} (ss : SortedSet) (start stop : Z) (desc : bool) (consumer : A → Element → A * bool) (st : A)
    : res A :=
  let size := Len ss in
  if (start <? 0) || (size <=? start) then Panic
  else if (stop <? start) || (size <? stop) then Panic
  else
    node ← (if desc then if 0 <? start then getByRank (skl ss) (size - start) else Ret (tail (skl ss))
            else if 0 <? start then getByRank (skl ss) (start + 1)
                 else lv ← get_level (skl ss) header 0; Ret (forward lv));
    visit consumer (skl ss) desc (Z.to_nat (stop - start)) node st.

(** The closure of [RangeByRank]: [slice[i] = element] panics out of range. *)
Definition fill (acc : res (list (option Element) * nat)) (element : Element) : res (list (option Element) * nat) * bool :=
  match acc with
  | Ret (slice, i) =>
      if decide (i < length slice)%nat then (Ret (<[i := Some element]> slice, S i), true) else (Panic, false)
  | e => (e, false)
  end.

(** [make] panics on a negative size. *)
Definition RangeByRank (ss : SortedSet) (start stop : Z) (desc : bool) : res (list (option Element)) :=
  let sliceSize := stop - start in
  if sliceSize <? 0 then Panic
  else
    r ← ForEachByRank ss start stop desc fill (Ret (replicate (Z.to_nat sliceSize) None, O));
    '(slice, _) ← r; Ret slice.

Definition RangeCount (ss : SortedSet) (min max : Border) : res Z :=
  ForEachByRank ss 0 (Len ss) false
    (λ i element,
       if negb (less min element) then (i, true)
       else if negb (greater max element) then (i, false)
       else (i + 1, true)) 0.

(** The loop that skips [offset] nodes. *)
Fixpoint skip (sl : skiplist) (desc : bool) (offset : nat) (node : option nat) : res (option nat) :=
  match offset, node with
  | S o, Some x => next ← step sl desc x; skip sl desc o next
  | _, _ => Ret node
  end.

(** The second loop of [ForEach]; [i] is its counter. *)
Fixpoint each {A} (fuel : nat) (consumer : A → Element → A * bool) (sl : skiplist) (min max : Border) (limit : Z) (desc : bool)
    (i : Z) (node : option nat) (st : A) : res A :=
  match fuel with
  | O => OutOfFuel
  | S f =>
      match node with
      | Some x =>
          if (i <? limit) || (limit <? 0) then
            nd ← get_node sl x;
            let '(st', go) := consumer st (nelem nd) in
            if go : bool then
              next ← step sl desc x;
              match next with
              | None => Ret st'
              | Some y =>
                  ny ← get_node sl y;
                  if negb (less min (nelem ny)) || negb (greater max (nelem ny)) then Ret st'
                  else each f consumer sl min max limit desc (i + 1) next st'
              end
            else Ret st'
          else Ret st
      | None => Ret st
      end
  end.

Definition ForEach {A} (ss : SortedSet) (min max : Border) (offset limit : Z) (desc : bool) (consumer : A → Element → A * bool)
    (st : A) : res A :=
  node ← (if desc then getLastInRange (skl ss) min max else getFirstInRange (skl ss) min max);
  node' ← skip (skl ss) desc (Z.to_nat offset) node;
  each (walk_fuel (skl ss)) consumer (skl ss) min max limit desc 0 node' st.

Definition Range (ss : SortedSet) (min max : Border) (offset limit : Z) (desc : bool) : res (list Element) :=
  if (limit =? 0) || (offset <? 0) then Ret []
  else ForEach ss min max offset limit desc (λ slice element, (slice ++ [element], true)) [].

(** [delete(dict, element.Member)] for every removed element. *)
Definition forget (d : gmap bytes Element) (removed : list Element) : gmap bytes Element :=
  foldl (λ d element, delete (Member element) d) d removed.

Definition RemoveRange (ss : SortedSet) (min max : Border) : res (SortedSet * Z) :=
  '(sl, removed) ← SkipList.RemoveRange (skl ss) min max 0;
  Ret (MkSS (forget (dict ss) removed) sl, Z.of_nat (length removed)).

(** [None] is the nil slice. *)
Definition PopMin (ss : SortedSet) (count : Z) : res (SortedSet * option (list Element)) :=
  first ← getFirstInRange (skl ss) scoreNegativeInfBorder scorePositiveInfBorder;
  match first with
  | None => Ret (ss, None)
  | Some n =>
      nd ← get_node (skl ss) n;
      '(sl, removed) ← SkipList.RemoveRange (skl ss) (ScoreBorder 0 (Score (nelem nd)) false) scorePositiveInfBorder count;
      Ret (MkSS (forget (dict ss) removed) sl, Some removed)
  end.

Definition RemoveByRank (ss : SortedSet) (start stop : Z) : res (SortedSet * Z) :=
  '(sl, removed) ← RemoveRangeByRank (skl ss) (wrap64 (start + 1)) (wrap64 (stop + 1));
  Ret (MkSS (forget (dict ss) removed) sl, Z.of_nat (length removed)).

(** [ord] is the order in which the map is traversed, [compile] the pattern
    compiler and [FormatFloat] prints a score with ten decimals. *)
Definition ZSetScan (ss : SortedSet) (ord : list bytes) (compile : bytes → option (bytes → bool)) (FormatFloat : Z → bytes)
    (cursor count : Z) (pattern : bytes) : list bytes * Z :=
  match compile pattern with
  | None => ([], -1)
  | Some matchKey =>
      (foldl (λ result k,
         if bytes_eqb pattern (str "*") || matchKey k then
           match dict ss !! k with
           | Some elem => result ++ [k; FormatFloat (Score elem)]
           | None => result
           end
         else result) [] ord, 0)
  end.
