(* ===== verification/SortedSetSpec.v ===== *)
(** * Sorted sets: specification

    A sorted set is the list of its elements, strictly ordered by score and
    member, with distinct members.  The map holds the same scores up to the
    sign of zero. *)

From stdpp Require Import base gmap list sorting strings.
From Stdlib Require Import ZArith Lia.
From S2P Require Import Prelude Float64 Border SkipList SkipListRep SkipListOps SkipListSpec SortedSet.

Local Open Scope nat_scope.

Record ss_ok (ss : SortedSet) (es : list Element) : Prop := {
  ok_sl : sl_is (skl ss) es;
  ok_sorted : sorted es;
  ok_nodup : NoDup (Member <$> es);
  ok_dict : ∀ m e, dict ss !! m = Some e → Member e = m ∧ num e ∧ ∃ a, a ∈ es ∧ same a e;
  ok_dom : ∀ a, a ∈ es → is_Some (dict ss !! Member a)
}.

(** ** Operations on the list *)

Definition zdel (m : bytes) (es : list Element) : list Element := filter (λ a, Member a ≠ m) es.
Definition zfind (m : bytes) (es : list Element) : option Element := head (filter (λ a, Member a = m) es).

Definition zadd (m : bytes) (s : Z) (es : list Element) : list Element :=
  match zfind m es with
  | Some a => if feq s (Score a) then es else zins (MkElement m s) (zdel m es)
  | None => zins (MkElement m s) es
  end.

(** The members of a list of elements are distinct. *)
Lemma member_unique es a b : NoDup (Member <$> es) → a ∈ es → b ∈ es → Member a = Member b → a = b.
Proof.
  intros Hnd [i Hi]%list_elem_of_lookup [j Hj]%list_elem_of_lookup E.
  assert (i = j) as ->; [|congruence].
  apply (NoDup_lookup _ i j (Member a) Hnd); rewrite list_lookup_fmap; [by rewrite Hi|by rewrite Hj, E].
Qed.

Lemma zfind_Some m es a : NoDup (Member <$> es) → zfind m es = Some a ↔ a ∈ es ∧ Member a = m.
Proof.
  intros Hnd. unfold zfind. split.
  - intros H. assert (Ha : a ∈ filter (λ a, Member a = m) es).
    { destruct (filter _ es) as [|b l]; [done|]. cbn in H. simplify_eq. left. }
    apply list_elem_of_filter in Ha. tauto.
  - intros [Ha Hm]. destruct (filter (λ a, Member a = m) es) as [|b l] eqn:E; cbn.
    + assert (a ∈ filter (λ a, Member a = m) es) as H by (by apply list_elem_of_filter). rewrite E in H. by apply not_elem_of_nil in H.
    + assert (b ∈ filter (λ a, Member a = m) es) as [Hb Hb']%list_elem_of_filter by (rewrite E; left).
      f_equal. eapply member_unique; [exact Hnd|done|done|congruence].
Qed.

Lemma zfind_None m es : zfind m es = None ↔ m ∉ Member <$> es.
Proof.
  unfold zfind. split.
  - intros H (a & -> & Ha)%list_elem_of_fmap.
    assert (Hin : a ∈ filter (λ b, Member b = Member a) es) by (by apply list_elem_of_filter).
    destruct (filter _ es); [by apply not_elem_of_nil in Hin|done].
  - intros H. destruct (filter _ es) as [|b l] eqn:E; [done|]. destruct H.
    assert (b ∈ filter (λ a, Member a = m) es) as [<- Hb]%list_elem_of_filter by (rewrite E; left).
    by apply list_elem_of_fmap_2.
Qed.

(** Deleting a member deletes its position. *)
Lemma zdel_at es r a :
  NoDup (Member <$> es) → es !! r = Some a → take r es ++ drop (S r) es = zdel (Member a) es.
Proof.
  revert r. induction es as [|b es IH]; intros r Hnd Hr; [done|]. unfold zdel in *. rewrite filter_cons.
  cbn [fmap list_fmap] in Hnd. apply NoDup_cons in Hnd as [Hb Hnd]. destruct r as [|r]; cbn in Hr |- *.
  - simplify_eq. rewrite decide_False by auto. rewrite drop_0. symmetry. apply filter_all.
    intros c Hc E. apply Hb. rewrite <- E. by apply list_elem_of_fmap_2.
  - rewrite decide_True; [by rewrite IH|]. intros E. apply Hb. rewrite E. apply list_elem_of_fmap_2. by eapply list_elem_of_lookup_2.
Qed.

Lemma zdel_elem m es a : a ∈ zdel m es ↔ a ∈ es ∧ Member a ≠ m.
Proof. unfold zdel. rewrite list_elem_of_filter. tauto. Qed.

Lemma NoDup_fmap_filter (Q : Element → Prop) `{!∀ a, Decision (Q a)} es :
  NoDup (Member <$> es) → NoDup (Member <$> filter Q es).
Proof.
  induction es as [|a es IH]; [done|]. cbn [fmap list_fmap]. intros [Ha Hnd]%NoDup_cons. rewrite filter_cons.
  case_decide; [|by apply IH]. cbn. apply NoDup_cons. split; [|by apply IH].
  intros (b & E & [_ Hb]%list_elem_of_filter)%list_elem_of_fmap. apply Ha. rewrite E. by apply list_elem_of_fmap_2.
Qed.

Lemma zins_perm e es : zins e es ≡ₚ e :: es.
Proof.
  unfold zins. rewrite <- Permutation_middle. constructor.
  induction es as [|a es IH]; [done|]. rewrite !filter_cons. destruct (elem_before a (Member e) (Score e)) eqn:E.
  - rewrite decide_True, decide_False by done. cbn. by rewrite IH.
  - rewrite decide_False, decide_True by done. rewrite <- Permutation_middle. by rewrite IH.
Qed.

Lemma zins_elem e es a : a ∈ zins e es ↔ a = e ∨ a ∈ es.
Proof. rewrite zins_perm. apply elem_of_cons. Qed.

Lemma zins_nodup e es : NoDup (Member <$> es) → Member e ∉ Member <$> es → NoDup (Member <$> zins e es).
Proof. intros Hnd He. rewrite zins_perm. by apply NoDup_cons. Qed.

(** ** Add, Remove, Get, Len, GetRank *)

Lemma ss_ok_make : ss_ok Make [].
Proof. split; [apply sl_is_make|by repeat constructor|constructor| |]; [intros m e; cbn; by rewrite lookup_empty|]. intros a Ha. by apply not_elem_of_nil in Ha. Qed.

(** The element of the list that belongs to an entry of the map. *)
Lemma dict_entry ss es m e :
  ss_ok ss es → dict ss !! m = Some e → ∃ r a, es !! r = Some a ∧ same a e ∧ Member a = m ∧ Member e = m ∧ num e ∧ zfind m es = Some a.
Proof.
  intros Hok He. destruct (ok_dict _ _ Hok m e He) as (Hm & Hn & a & Ha & Hs).
  destruct (list_elem_of_lookup_1 _ _ Ha) as [r Hr]. exists r, a. pose proof Hs as [_ E].
  split_and!; [done|done|congruence|done|done|]. apply zfind_Some; [apply Hok|]. split; [done|congruence].
Qed.

Lemma dict_none ss es m : ss_ok ss es → dict ss !! m = None → zfind m es = None.
Proof.
  intros Hok Hm. apply zfind_None. intros (a & -> & Ha)%list_elem_of_fmap.
  destruct (ok_dom _ _ Hok a Ha) as [e He]. congruence.
Qed.

Lemma ss_ok_insert ss es sl m s :
  ss_ok ss es → fnan s = false → sl_is sl (zins (MkElement m s) (zdel m es)) →
  ss_ok (MkSS (<[m := MkElement m s]> (dict ss)) sl) (zins (MkElement m s) (zdel m es)).
Proof.
  intros Hok Hn Hsl.
  assert (Hnot : m ∉ Member <$> zdel m es).
  { intros (a & -> & [_ ?]%zdel_elem)%list_elem_of_fmap. done. }
  split; cbn [skl dict].
  - done.
  - apply zins_sorted; [by apply sorted_filter, Hok|done|]. intros a [_ Ha]%zdel_elem [_ E]. done.
  - by apply zins_nodup; [apply NoDup_fmap_filter, Hok|].
  - intros m' e. destruct (decide (m' = m)) as [->|Hne].
    + rewrite lookup_insert_eq. intros [= <-]. split_and!; [done|done|]. exists (MkElement m s). split; [|done].
      apply zins_elem. by left.
    + rewrite lookup_insert_ne by done. intros He. destruct (ok_dict _ _ Hok m' e He) as (Hm & Hne' & a & Ha & Hs).
      split_and!; [done|done|]. exists a. split; [|done]. apply zins_elem. right. apply zdel_elem. split; [done|].
      destruct Hs as [_ E]. congruence.
  - intros a [->|[Ha Hne]%zdel_elem]%zins_elem; [by rewrite lookup_insert_eq|].
    rewrite lookup_insert_ne by done. by apply (ok_dom _ _ Hok).
Qed.

Lemma zdel_absent m es : zfind m es = None → zdel m es = es.
Proof.
  intros H%zfind_None. apply filter_all. intros a Ha E. apply H. rewrite <- E. by apply list_elem_of_fmap_2.
Qed.

Lemma Add_spec ss es m s rnd :
  ss_ok ss es → fnan s = false →
  ∃ ss', Add ss m s rnd = Ret (ss', bool_decide (zfind m es = None)) ∧ ss_ok ss' (zadd m s es).
Proof.
  intros Hok Hn. unfold Add, zadd. destruct (dict ss !! m) as [e|] eqn:He.
  - destruct (dict_entry ss es m e Hok He) as (r & a & Hr & Hs & Hma & Hme & Hne & ->).
    pose proof (sorted_num es a (ok_sorted _ _ Hok) (list_elem_of_lookup_2 _ _ _ Hr)) as Hna.
    rewrite bool_decide_false by done. rewrite !feq_key by done. rewrite (proj1 Hs).
    destruct (decide (fkey s = fkey (Score e))) as [E|E].
    + rewrite bool_decide_true by done. cbn [negb]. eexists. split; [reflexivity|]. destruct Hok as [H1 H2 H3 H4 H5].
      split; cbn [skl dict]; [done..| |].
      * intros m' e'. destruct (decide (m' = m)) as [->|Hm]; [|rewrite lookup_insert_ne by done; apply H4].
        rewrite lookup_insert_eq. intros [= <-]. split_and!; [done|done|]. exists a. split; [by eapply list_elem_of_lookup_2|].
        split; cbn; [|done]. rewrite (proj1 Hs). done.
      * intros b Hb. destruct (decide (Member b = m)) as [->|]; [by rewrite lookup_insert_eq|].
        rewrite lookup_insert_ne by done. by apply H5.
    + rewrite bool_decide_false by done. cbn [negb].
      assert (He' : e = MkElement m (Score e)) by (destruct e; cbn in *; congruence).
      destruct (remove_is (skl ss) es m (Score e) r a) as (sl1 & -> & Hsl1); [apply Hok|apply Hok|done|done|by rewrite <- He'|].
      cbn [mbind res_bind]. rewrite (zdel_at _ _ _ (ok_nodup _ _ Hok) Hr), Hma in Hsl1.
      destruct (insert_is sl1 _ m s rnd Hsl1) as (sl2 & -> & Hsl2); [by apply sorted_filter, Hok|done|].
      cbn [mbind res_bind]. eexists. split; [reflexivity|]. by apply ss_ok_insert.
  - rewrite (dict_none _ _ _ Hok He). rewrite bool_decide_true by done.
    destruct (insert_is (skl ss) es m s rnd) as (sl1 & -> & Hsl1); [apply Hok|apply Hok|done|].
    cbn [mbind res_bind]. eexists. split; [reflexivity|].
    rewrite <- (zdel_absent m es (dict_none _ _ _ Hok He)) in Hsl1 |- *. by apply ss_ok_insert.
Qed.

Lemma forget_lookup d removed m :
  forget d removed !! m = if decide (m ∈ Member <$> removed) then None else d !! m.
Proof.
  revert d. unfold forget. induction removed as [|e removed IH]; intros d; cbn [foldl fmap list_fmap].
  { by rewrite decide_False by apply not_elem_of_nil. }
  rewrite IH. destruct (decide (m ∈ Member <$> removed)) as [H|H].
  - by rewrite decide_True by (by right).
  - destruct (decide (m = Member e)) as [->|Hne].
    + rewrite decide_True by left. by rewrite lookup_delete_eq.
    + rewrite decide_False by (rewrite elem_of_cons; tauto). by rewrite lookup_delete_ne by done.
Qed.

(** Taking a block of elements out of both parts. *)
Lemma ss_ok_cut ss A B C sl :
  ss_ok ss (A ++ B ++ C) → sl_is sl (A ++ C) → ss_ok (MkSS (forget (dict ss) B) sl) (A ++ C).
Proof.
  intros Hok Hsl.
  assert (Hsub : ∀ a, a ∈ A ++ C → a ∈ A ++ B ++ C) by set_solver.
  pose proof (ok_nodup _ _ Hok) as Hnd. rewrite !fmap_app in Hnd.
  apply NoDup_app in Hnd as (HA & HAB & (HB & HBC & HC)%NoDup_app).
  assert (Hout : ∀ a, a ∈ A ++ C → Member a ∉ Member <$> B).
  { intros a [Ha|Ha]%elem_of_app Hb.
    - apply (HAB (Member a)); [by apply list_elem_of_fmap_2|]. apply elem_of_app. by left.
    - apply (HBC (Member a)); [done|]. by apply list_elem_of_fmap_2. }
  split; cbn [skl dict].
  - done.
  - destruct (ok_sorted _ _ Hok) as [Hs Hn]. apply StronglySorted_app in Hs as (H1 & H2 & (H3 & H4 & H5)%StronglySorted_app).
    split; [apply StronglySorted_app; split_and!; [set_solver|done|done]|].
    apply Forall_forall. intros a Ha. eapply Forall_forall in Hn; [exact Hn|by apply Hsub].
  - rewrite fmap_app. apply NoDup_app. split_and!; [done| |done]. intros m Hm Hm'. apply (HAB m Hm), elem_of_app. by right.
  - intros m e. rewrite forget_lookup. case_decide as Hm; [done|]. intros He.
    destruct (ok_dict _ _ Hok m e He) as (E & Hn & a & Ha & Hs). split_and!; [done|done|]. exists a. split; [|done].
    apply elem_of_app in Ha as [Ha|[Ha|Ha]%elem_of_app]; [apply elem_of_app; by left| |apply elem_of_app; by right].
    destruct Hm. rewrite <- E, <- (proj2 Hs). by apply list_elem_of_fmap_2.
  - intros a Ha. rewrite forget_lookup, decide_False by (by apply Hout). apply (ok_dom _ _ Hok). by apply Hsub.
Qed.

Lemma ss_Remove_spec ss es m :
  ss_ok ss es → ∃ ss', Remove ss m = Ret (ss', bool_decide (zfind m es ≠ None)) ∧ ss_ok ss' (zdel m es).
Proof.
  intros Hok. unfold Remove. destruct (dict ss !! m) as [e|] eqn:He.
  - destruct (dict_entry ss es m e Hok He) as (r & a & Hr & Hs & Hma & Hme & Hne & ->). rewrite bool_decide_true by done.
    assert (He' : e = MkElement m (Score e)) by (destruct e; cbn in *; congruence).
    destruct (remove_is (skl ss) es m (Score e) r a) as (sl1 & -> & Hsl1); [apply Hok|apply Hok|done|done|by rewrite <- He'|].
    cbn [mbind res_bind]. eexists. split; [reflexivity|]. rewrite <- Hma, <- (zdel_at _ _ _ (ok_nodup _ _ Hok) Hr).
    replace (delete (Member a) (dict ss)) with (forget (dict ss) [a]) by done. apply ss_ok_cut; [|done].
    cbn [app]. by rewrite take_drop_middle.
  - rewrite (dict_none _ _ _ Hok He). rewrite bool_decide_false by auto. eexists. split; [reflexivity|].
    by rewrite (zdel_absent m es (dict_none _ _ _ Hok He)).
Qed.

Lemma Len_spec ss es : ss_ok ss es → Len ss = Z.of_nat (length es).
Proof.
  intros Hok. unfold Len. f_equal. rewrite <- size_dom, <- (length_fmap Member es).
  rewrite <- (size_list_to_set (C := gset bytes) _ (ok_nodup _ _ Hok)). apply set_size_proper. intros m.
  rewrite elem_of_dom, elem_of_list_to_set. split.
  - intros [e He]. destruct (dict_entry ss es m e Hok He) as (r & a & Hr & _ & <- & _).
    by eapply list_elem_of_fmap_2, list_elem_of_lookup_2.
  - intros (a & -> & Ha)%list_elem_of_fmap. by apply (ok_dom _ _ Hok).
Qed.

(** The score is the list's up to the sign of zero. *)
Lemma ss_Get_spec ss es m : ss_ok ss es → (fkey ∘ Score) <$> Get ss m = (fkey ∘ Score) <$> zfind m es.
Proof.
  intros Hok. unfold Get. destruct (dict ss !! m) as [e|] eqn:He.
  - destruct (dict_entry ss es m e Hok He) as (r & a & Hr & Hs & _ & _ & _ & ->). cbn. f_equal. symmetry. apply Hs.
  - by rewrite (dict_none _ _ _ Hok He).
Qed.

(** The position of a member. *)
Definition zindex (m : bytes) (es : list Element) : option nat := fst <$> list_find (λ a, Member a = m) es.

Lemma zindex_at es r a : NoDup (Member <$> es) → es !! r = Some a → zindex (Member a) es = Some r.
Proof.
  intros Hnd Hr. unfold zindex. destruct (list_find (λ b, Member b = Member a) es) as [[i b]|] eqn:E; cbn.
  - apply list_find_Some in E as (Hi & E & _). f_equal.
    apply (NoDup_lookup _ i r (Member a) Hnd); rewrite list_lookup_fmap; [by rewrite Hi, <- E|by rewrite Hr].
  - apply list_find_None in E. eapply Forall_forall in E; [|by eapply list_elem_of_lookup_2]. done.
Qed.

Lemma GetRank_spec ss es m desc :
  ss_ok ss es → m ≠ [] →
  GetRank ss m desc = Ret (match zindex m es with
                           | Some r => if desc then Z.of_nat (length es) - 1 - Z.of_nat r else Z.of_nat r
                           | None => -1
                           end)%Z.
Proof.
  intros Hok Hm. unfold GetRank. destruct (dict ss !! m) as [e|] eqn:He.
  - destruct (dict_entry ss es m e Hok He) as (r & a & Hr & Hs & Hma & Hme & Hne & _).
    assert (He' : e = MkElement m (Score e)) by (destruct e; cbn in *; congruence).
    rewrite (getRank_spec (skl ss) es m (Score e) r a) by (apply Hok || by rewrite <- ?He'). cbn [mbind res_bind].
    rewrite <- Hma, (zindex_at es r a (ok_nodup _ _ Hok) Hr). destruct (ok_sl _ _ Hok) as (P & Hrep & HP).
    rewrite (rep_len _ _ Hrep), (length_elems _ _ Hrep), HP. f_equal. destruct desc; lia.
  - unfold zindex. destruct (list_find (λ a, Member a = m) es) as [[i b]|] eqn:E; [|done].
    apply list_find_Some in E as (Hi & <- & _). destruct (ok_dom _ _ Hok b) as [? ?]; [by eapply list_elem_of_lookup_2|]. congruence.
Qed.

(** ** Traversal by rank *)

(** The node at position [p]; position 0, the header, is not a node. *)
Definition ptr (P : list entry) (p : nat) : option nat := match p with O => None | S _ => eloc <$> P !! p end.

(** The elements from position [p] on, in the direction of travel. *)
Definition trail (es : list Element) (desc : bool) (p : nat) : list Element :=
  if desc then reverse (take p es) else drop (p - 1) es.

Definition next_pos (desc : bool) (p : nat) : nat := if desc then p - 1 else S p.

Lemma step_spec sl P desc p x :
  rep sl P → P !! S p = Some x → step sl desc (eloc x) = Ret (ptr P (next_pos desc (S p))).
Proof.
  intros Hrep Hx. unfold step, next_pos. destruct desc.
  - unfold get_node. rewrite (rep_node _ _ Hrep _ _ Hx). cbn. rewrite Nat.sub_0_r. by destruct p.
  - destruct (forward_0 sl P _ x Hrep Hx) as (lv & Hlv & Hf). unfold get_level. rewrite Hlv. cbn. by rewrite Hf.
Qed.

Lemma trail_cons P es desc p x :
  elems P = es → P !! S p = Some x → trail es desc (S p) = eel x :: trail es desc (next_pos desc (S p)).
Proof.
  intros HP Hx. pose proof (elems_at _ _ _ _ HP Hx) as He. unfold trail, next_pos. destruct desc.
  - cbn [Nat.sub]. rewrite Nat.sub_0_r. by rewrite (take_S_r _ _ _ He), reverse_snoc.
  - cbn [Nat.sub]. rewrite Nat.sub_0_r. by apply drop_S.
Qed.

Lemma ptr_trail sl P es desc p :
  rep sl P → elems P = es → (1 <= p ∨ desc = true) → trail es desc p ≠ [] → p <= length es →
  ∃ q x, p = S q ∧ P !! S q = Some x ∧ ptr P p = Some (eloc x).
Proof.
  intros Hrep HP Hd Ht Hp. pose proof (length_elems _ _ Hrep) as Hlen. rewrite HP in Hlen. destruct p as [|q].
  - destruct Hd as [?| ->]; [lia|]. done.
  - destruct (lookup_lt_is_Some_2 P (S q)) as [x Hx]; [lia|]. exists q, x. split_and!; [done|done|]. cbn. by rewrite Hx.
Qed.

(** What a consumer makes of a list of elements. *)
Fixpoint consume {A} (consumer : A → Element → A * bool) (l : list Element) (st : A) : A :=
  match l with
  | [] => st
  | e :: l' => let '(st', go) := consumer st e in if go : bool then consume consumer l' st' else st'
  end.

Lemma visit_spec {A} (consumer : A → Element → A * bool) sl P es desc n p st :
  rep sl P → elems P = es → n <= length (trail es desc p) → (1 <= p ∨ desc = true) → p <= length es ∨ n = 0 →
  visit consumer sl desc n (ptr P p) st = Ret (consume consumer (take n (trail es desc p)) st).
Proof.
  intros Hrep HP. revert p st. induction n as [|n IH]; intros p st Hn Hd Hp; [done|].
  destruct (ptr_trail sl P es desc p Hrep HP Hd) as (q & x & -> & Hx & Ep).
  { intros E. rewrite E in Hn. cbn in Hn. lia. }
  { lia. }
  rewrite (trail_cons P es desc q x HP Hx) in *. cbn [visit take consume length] in *.
  rewrite Ep. cbn [must mbind res_bind]. unfold get_node at 1. rewrite (rep_node _ _ Hrep _ _ Hx).
  cbn [must mbind res_bind nelem]. destruct (consumer st (eel x)) as [st' []]; [|done].
  rewrite (step_spec sl P desc q x Hrep Hx). cbn [mbind res_bind]. apply IH; [lia| |].
  - unfold next_pos. destruct desc; [by right|left; lia].
  - unfold next_pos. destruct desc; [left; lia|]. unfold next_pos, trail in Hn. rewrite length_drop in Hn. lia.
Qed.

(** The elements in the direction of travel. *)
Definition directed (desc : bool) (es : list Element) : list Element := if desc then reverse es else es.

Lemma length_directed desc es : length (directed desc es) = length es.
Proof. destruct desc; [apply length_reverse|done]. Qed.

Lemma trail_from es desc a :
  a < length es → trail es desc (if desc then length es - a else S a) = drop a (directed desc es).
Proof.
  intros Ha. unfold trail, directed. destruct desc; [|by rewrite Nat.sub_succ, Nat.sub_0_r].
  transitivity (drop a (reverse (take (length es - a) es ++ drop (length es - a) es))); [|by rewrite take_drop].
  rewrite reverse_app, drop_app_length'; [done|]. rewrite length_reverse, length_drop. lia.
Qed.

Lemma ForEachByRank_spec {A} (consumer : A → Element → A * bool) ss es (a b : nat) desc st :
  ss_ok ss es → a < length es → a <= b <= length es →
  ForEachByRank ss (Z.of_nat a) (Z.of_nat b) desc consumer st =
    Ret (consume consumer (take (b - a) (drop a (directed desc es))) st).
Proof.
  intros Hok Ha Hb. unfold ForEachByRank. rewrite (Len_spec _ _ Hok).
  rewrite (proj2 (Z.ltb_ge _ _)), (proj2 (Z.leb_gt _ _)) by lia. rewrite (proj2 (Z.ltb_ge _ _)), (proj2 (Z.ltb_ge _ _)) by lia.
  cbn [orb]. destruct (ok_sl _ _ Hok) as (P & Hrep & HP). pose proof (length_elems _ _ Hrep) as Hlen. rewrite HP in Hlen.
  assert (Hnode : (if desc then if (0 <? Z.of_nat a)%Z then getByRank (skl ss) (Z.of_nat (length es) - Z.of_nat a) else Ret (tail (skl ss))
            else if (0 <? Z.of_nat a)%Z then getByRank (skl ss) (Z.of_nat a + 1)
                 else lv ← get_level (skl ss) header 0; Ret (forward lv)) = Ret (ptr P (if desc then length es - a else S a))).
  { destruct desc; destruct (Z.ltb_spec 0 (Z.of_nat a)) as [H0|H0].
    - replace (Z.of_nat (length es) - Z.of_nat a)%Z with (Z.of_nat (length es - a)) by lia.
      destruct (getByRank_spec (skl ss) P (length es - a) Hrep) as (y & -> & Hy); [lia|].
      destruct (length es - a) eqn:E; [lia|]. cbn. by rewrite Hy.
    - replace (length es - a) with (length es) by lia. rewrite (rep_tail _ _ Hrep), Hlen. by destruct (length es).
    - replace (Z.of_nat a + 1)%Z with (Z.of_nat (S a)) by lia.
      destruct (getByRank_spec (skl ss) P (S a) Hrep) as (y & -> & Hy); [lia|]. cbn. by rewrite Hy.
    - replace a with 0 by lia. destruct (rep_header _ _ Hrep) as (h & Hh & <- & _).
      destruct (forward_0 _ P 0 h Hrep Hh) as (lv & Hlv & Hf). unfold get_level. rewrite Hlv. cbn. by rewrite Hf. }
  rewrite Hnode. cbn [mbind res_bind]. replace (Z.to_nat (Z.of_nat b - Z.of_nat a)) with (b - a) by lia.
  rewrite <- trail_from by done. apply visit_spec; [done|done| | |].
  - rewrite trail_from, length_drop, length_directed by done. lia.
  - destruct desc; [by right|left; lia].
  - left. destruct desc; lia.
Qed.

Lemma RangeByRank_spec ss es (a b : nat) desc :
  ss_ok ss es → a < length es → a <= b <= length es →
  RangeByRank ss (Z.of_nat a) (Z.of_nat b) desc = Ret (Some <$> take (b - a) (drop a (directed desc es))).
Proof.
  intros Hok Ha Hb. unfold RangeByRank. rewrite (proj2 (Z.ltb_ge _ _)) by lia.
  rewrite (ForEachByRank_spec _ ss es a b desc) by done. cbn [mbind res_bind].
  replace (Z.to_nat (Z.of_nat b - Z.of_nat a)) with (b - a) by lia.
  set (l := take (b - a) _). assert (Hl : b - a = length l).
  { unfold l. rewrite length_take, length_drop, length_directed. lia. }
  rewrite Hl. clearbody l. clear -l.
  assert (Hgen : ∀ l done : list Element,
    consume fill l (Ret ((Some <$> done) ++ replicate (length l) None, length done)) =
    Ret (Some <$> (done ++ l), length (done ++ l))).
  { induction l0 as [|e l0 IH]; intros d; cbn [consume length replicate].
    { by rewrite !app_nil_r. }
    cbn [fill]. rewrite decide_True by (rewrite length_app, length_fmap; cbn; lia).
    rewrite insert_app_r_alt by (rewrite length_fmap; lia). rewrite length_fmap, Nat.sub_diag. cbn [insert list_insert].
    specialize (IH (d ++ [e])). rewrite fmap_app, length_app, <- !app_assoc in IH. cbn in IH.
    rewrite Nat.add_1_r in IH. exact IH. }
  pose proof (Hgen l []) as E. cbn [fmap list_fmap app length] in E. by rewrite E.
Qed.

(** ** Ranges by border *)

Definition inr (min max : Border) (e : Element) : bool := less min e && greater max e.
Definition zrange (min max : Border) (es : list Element) : list Element := filter (λ e, inr min max e = true) es.

Lemma filter_interval {A} (f : A → bool) es l h :
  (∀ q a, es !! q = Some a → f a = bool_decide (l <= q < h)) → filter (λ a, f a = true) es = drop l (take h es).
Proof.
  revert l h. induction es as [|a es IH]; intros l h H; [by rewrite take_nil, drop_nil|].
  assert (Htl : ∀ q b, es !! q = Some b → f b = bool_decide (l <= S q < h)) by (intros q b Hb; by apply (H (S q))).
  rewrite filter_cons. rewrite (H 0 a eq_refl). destruct h as [|h].
  { rewrite decide_False by (rewrite bool_decide_false by lia; done). cbn. rewrite drop_nil. apply filter_none.
    intros b [q Hq]%list_elem_of_lookup. rewrite (Htl q b Hq), bool_decide_false by lia. done. }
  destruct l as [|l]; cbn [take drop].
  - rewrite decide_True by (by rewrite bool_decide_true by lia). f_equal. rewrite <- (drop_0 (take h es)). apply IH.
    intros q b Hb. rewrite (Htl q b Hb). apply bool_decide_ext. lia.
  - rewrite decide_False by (rewrite bool_decide_false by lia; done). apply IH.
    intros q b Hb. rewrite (Htl q b Hb). apply bool_decide_ext. lia.
Qed.

Lemma filter_bool_cons {A} (f : A → bool) b a l :
  filter (λ x, f x = b) (a :: l) = if Bool.eqb (f a) b then a :: filter (λ x, f x = b) l else filter (λ x, f x = b) l.
Proof.
  rewrite filter_cons. destruct (Bool.eqb (f a) b) eqn:E.
  - apply eqb_prop in E. by rewrite decide_True.
  - apply eqb_false_iff in E. by rewrite decide_False.
Qed.

Lemma take3 {A} (l : list A) n k : take n l ++ take k (drop n l) ++ drop (n + k) l = l.
Proof. by rewrite app_assoc, take_take_drop, take_drop. Qed.

Lemma filter_outside {A} (f : A → bool) es l h :
  (∀ q a, es !! q = Some a → f a = bool_decide (l <= q < h)) →
  filter (λ a, f a = false) es = take l es ++ drop (l + (h - l)) es.
Proof.
  revert l h. induction es as [|a es IH]; intros l h H; [by rewrite take_nil, drop_nil|].
  assert (Htl : ∀ q b, es !! q = Some b → f b = bool_decide (l <= S q < h)) by (intros q b Hb; by apply (H (S q))).
  rewrite filter_bool_cons, (H 0 a eq_refl). destruct l as [|l].
  - destruct h as [|h].
    + rewrite bool_decide_false by lia. cbn. f_equal. apply filter_all. intros b [q Hq]%list_elem_of_lookup.
      by rewrite (Htl q b Hq), bool_decide_false by lia.
    + rewrite bool_decide_true by lia. cbn. rewrite (IH 0 h); [cbn; by rewrite Nat.sub_0_r|].
      intros q b Hb. rewrite (Htl q b Hb). apply bool_decide_ext. lia.
  - rewrite bool_decide_false by lia. cbn. f_equal. rewrite (IH l (h - 1)); [do 2 f_equal; lia|].
    intros q b Hb. rewrite (Htl q b Hb). apply bool_decide_ext. lia.
Qed.

Section borders.
Context (min max : Border) (es : list Element).
Hypothesis Hs : sorted es.
Hypothesis Hcut : cuts min max es.

Lemma inr_at q a : es !! q = Some a → inr min max a = bool_decide (lo min es <= q < hi max es).
Proof using Hs Hcut.
  intros Ha. unfold inr. rewrite (less_at min max es Hs Hcut q a Ha), (greater_at min max es Hs Hcut q a Ha).
  repeat case_bool_decide; done || lia.
Qed.

Lemma zrange_slice : zrange min max es = drop (lo min es) (take (hi max es) es).
Proof using Hs Hcut. apply filter_interval. apply inr_at. Qed.

Lemma length_zrange : length (zrange min max es) = hi max es - lo min es.
Proof using Hs Hcut.
  rewrite zrange_slice, length_drop, length_take. pose proof (count_le (greater max) es). unfold hi in *. lia.
Qed.

(** The run that [RemoveRange] takes out is the range. *)
Lemma run_downset f limit k l :
  downset f l → run f limit k l =
    if decide (0 < limit ∧ Z.of_nat k < limit)%Z then Nat.min (count f l) (Z.to_nat limit - k) else count f l.
Proof using.
  clear. unfold count. revert k. induction l as [|e l IH]; intros k Hd; cbn [run].
  { destruct (decide _); [by rewrite filter_nil|done]. }
  rewrite filter_cons. destruct (f e) eqn:Hf.
  - rewrite (decide_True (P := true = true)) by done. cbn [length].
    destruct (Z.ltb_spec 0 limit) as [Hl|Hl]; cbn [andb].
    + destruct (Z.eqb_spec (Z.of_nat (S k)) limit) as [E|E].
      * rewrite decide_True by lia. lia.
      * rewrite IH by (by eapply downset_tail).
        destruct (decide (0 < limit ∧ Z.of_nat (S k) < limit)%Z), (decide (0 < limit ∧ Z.of_nat k < limit)%Z); lia.
    + rewrite IH by (by eapply downset_tail). rewrite !decide_False by lia. done.
  - rewrite (decide_False (P := false = true)) by done. rewrite (downset_none f e l Hd Hf). cbn [length].
    destruct (decide _); lia.
Qed.

Lemma downset_drop f (l : list Element) n : downset f l → downset f (drop n l).
Proof using.
  clear. intros H i j a b. rewrite !lookup_drop. intros Ha Hb Hij. apply (H _ _ a b Ha Hb). lia.
Qed.

Lemma count_drop f (l : list Element) n : downset f l → count f (drop n l) = count f l - n.
Proof using.
  clear. intros H. unfold count at 1. rewrite (filter_interval f (drop n l) 0 (count f l - n)).
  - rewrite drop_0, length_take, length_drop. pose proof (count_le f l). lia.
  - intros q a. rewrite lookup_drop. intros Ha. rewrite (downset_lookup f l _ a H Ha). apply bool_decide_ext. lia.
Qed.
End borders.

Lemma RangeCount_spec ss es min max :
  ss_ok ss es → es ≠ [] → cuts min max es → RangeCount ss min max = Ret (Z.of_nat (length (zrange min max es))).
Proof.
  intros Hok Hne Hcut. unfold RangeCount. rewrite (Len_spec _ _ Hok). change 0%Z with (Z.of_nat 0) at 1.
  rewrite (ForEachByRank_spec _ ss es 0 (length es)) by (done || (destruct es; cbn; done || lia)).
  cbn [directed]. rewrite Nat.sub_0_r, drop_0, take_ge by done. f_equal.
  pose proof (downset_greater min max es (ok_sorted _ _ Hok) Hcut) as Hd. clear Hok Hne Hcut. unfold zrange.
  rewrite <- (Z.add_0_l (Z.of_nat _)). generalize 0%Z. induction es as [|e es IH]; intros i; cbn [consume].
  { rewrite filter_nil. cbn. lia. }
  rewrite filter_bool_cons. unfold inr at 1. destruct (less min e) eqn:Hl; cbn [negb andb].
  - destruct (greater max e) eqn:Hg; cbn [negb Bool.eqb].
    + rewrite IH by (by eapply downset_tail). cbn. lia.
    + rewrite filter_none; [cbn; lia|].
      intros b Hb. unfold inr. apply list_elem_of_lookup in Hb as [j Hj].
      destruct (greater max b) eqn:Hgb; [|by rewrite andb_false_r].
      rewrite (Hd 0 (S j) e b) in Hg; done || lia.
  - apply IH. by eapply downset_tail.
Qed.

Lemma RemoveRange_spec ss es min max :
  ss_ok ss es → cuts min max es →
  ∃ ss', RemoveRange ss min max = Ret (ss', Z.of_nat (length (zrange min max es))) ∧
    ss_ok ss' (filter (λ e, inr min max e = false) es).
Proof.
  intros Hok Hcut. unfold RemoveRange.
  destruct (RemoveRange_is (skl ss) es min max 0 (ok_sl _ _ Hok) (ok_sorted _ _ Hok) Hcut) as (sl' & -> & Hsl).
  cbn [mbind res_bind]. pose proof (downset_greater min max es (ok_sorted _ _ Hok) Hcut) as Hd.
  rewrite run_downset, decide_False in * by (lia || by apply downset_drop). rewrite count_drop in * by done. fold (hi max es) in *.
  set (l := lo min es) in *. set (h := hi max es) in *.
  assert (Hr : take (h - l) (drop l es) = zrange min max es).
  { rewrite (zrange_slice min max es (ok_sorted _ _ Hok) Hcut), take_drop_commute. fold l h.
    destruct (decide (l <= h)); [by replace (l + (h - l)) with h by lia|].
    rewrite !drop_ge by (rewrite length_take; lia). done. }
  assert (Hrest : take l es ++ drop (l + (h - l)) es = filter (λ e, inr min max e = false) es).
  { symmetry. apply filter_outside, inr_at; [apply Hok|done]. }
  eexists. split; [by rewrite <- Hr|]. rewrite <- Hrest in *. apply ss_ok_cut; [|done].
  by rewrite take3.
Qed.

Lemma RemoveByRank_spec ss es start stop :
  ss_ok ss es → (0 <= start < max_i64)%Z → (start <= stop < max_i64)%Z →
  let a := Z.to_nat start in
  let b := Z.to_nat stop in
  ∃ ss', RemoveByRank ss start stop = Ret (ss', Z.of_nat (length (take (b - a) (drop a es)))) ∧
    ss_ok ss' (take a es ++ drop b es).
Proof.
  intros Hok Ha Hb a b. unfold RemoveByRank. rewrite !wrap64_id by (unfold i64, min_i64, max_i64 in *; lia).
  destruct (RemoveRangeByRank_is (skl ss) es (start + 1) (stop + 1) (ok_sl _ _ Hok)) as (sl' & -> & Hsl); [lia|].
  cbn [mbind res_bind]. replace (start + 1 - 1)%Z with start in Hsl |- * by lia. fold a in Hsl |- *.
  set (r := Nat.min a (length es)) in *. set (n := Nat.min (Z.to_nat (stop + 1 - Z.of_nat (S r))) _) in *.
  assert (Hr : r = Nat.min a (length es)) by done.
  assert (Hn : n = Nat.min (b - r) (length es - r)) by (unfold n, b; f_equal; lia).
  assert (Hab : a <= b) by lia. clearbody r n a b.
  assert (Hta : take r es = take a es).
  { destruct (decide (a <= length es)); [by replace r with a by lia|]. by rewrite !take_ge by lia. }
  assert (Hdb : drop (r + n) es = drop b es).
  { destruct (decide (b < length es)); [f_equal; lia|].
    rewrite !drop_ge; [done|lia|]. lia. }
  assert (Hmid : take n (drop r es) = take (b - a) (drop a es)).
  { destruct (decide (a < length es)).
    - replace r with a by lia. destruct (decide (b <= length es)); [f_equal; lia|].
      rewrite !take_ge; [done|rewrite length_drop; lia|rewrite length_drop; lia].
    - rewrite !drop_ge by lia. by rewrite !take_nil. }
  rewrite Hmid, <- Hta, <- Hdb. eexists. split; [done|]. rewrite <- Hmid. apply ss_ok_cut; [by rewrite take3|done].
Qed.

Lemma cuts_all es v : fnan v = false → Forall num es → cuts (ScoreBorder 0 v false) scorePositiveInfBorder es.
Proof. intros. by apply cuts_score. Qed.

(** The smallest elements go, in order; a count that is not positive means all. *)
Definition popped (count : Z) (es : list Element) : nat := if decide (0 < count)%Z then Z.to_nat count else length es.

Lemma PopMin_spec ss es count :
  ss_ok ss es →
  ∃ ss', PopMin ss count = Ret (ss', if decide (es = []) then None else Some (take (popped count es) es)) ∧
    ss_ok ss' (drop (popped count es) es).
Proof.
  intros Hok. unfold PopMin. destruct (ok_sl _ _ Hok) as (P & Hrep & HP). pose proof (ok_sorted _ _ Hok) as Hs.
  assert (Hcut : cuts scoreNegativeInfBorder scorePositiveInfBorder es) by (apply cuts_score; [done..|apply Hs]).
  rewrite (getFirstInRange_spec _ _ es Hs Hcut (skl ss) P Hrep HP) by done.
  assert (Hlo : lo scoreNegativeInfBorder es = 0).
  { unfold lo, SkipListSpec.count. rewrite filter_none; [done|]. by intros a _. }
  assert (Hhi : hi scorePositiveInfBorder es = length es).
  { unfold hi, SkipListSpec.count. by rewrite filter_all by (by intros a _). }
  rewrite Hlo, Hhi. destruct es as [|e es'] eqn:Ees.
  { cbn. rewrite drop_nil. eauto. }
  rewrite <- Ees in *. rewrite (decide_True (P := 0 < length es)) by (subst; cbn; lia). rewrite decide_False by (by subst).
  pose proof (length_elems _ _ Hrep) as Hlen. destruct (lookup_lt_is_Some_2 P 1) as [x Hx]; [rewrite Hlen, HP, Ees; cbn; lia|].
  rewrite Hx. cbn [fmap option_fmap option_map mbind res_bind]. unfold get_node. rewrite (rep_node _ _ Hrep _ _ Hx).
  cbn [must mbind res_bind nelem].
  assert (He : eel x = e) by (pose proof (elems_at _ _ _ _ HP Hx) as E; rewrite Ees in E; by injection E).
  assert (Hne : num e) by (apply (sorted_num es e Hs); rewrite Ees; left). rewrite He.
  assert (Hcut' : cuts (ScoreBorder 0 (Score e) false) scorePositiveInfBorder es) by (apply cuts_all; [done|apply Hs]).
  destruct (RemoveRange_is (skl ss) es _ _ count (ok_sl _ _ Hok) Hs Hcut') as (sl' & -> & Hsl). cbn [mbind res_bind].
  assert (Hlo' : lo (ScoreBorder 0 (Score e) false) es = 0).
  { unfold lo, SkipListSpec.count. rewrite filter_none; [done|]. intros a [j Hj]%list_elem_of_lookup. unfold below.
    cbn. assert (Hna : num a) by (eapply sorted_num; eauto using list_elem_of_lookup_2). rewrite fle_key by done.
    rewrite bool_decide_true; [done|]. destruct j as [|j]; [rewrite Ees in Hj; cbn in Hj; simplify_eq; done|].
    destruct (sorted_lookup es 0 (S j) e a Hs) as [?|[? _]]; [by rewrite Ees|done|lia|lia|lia]. }
  rewrite Hlo', drop_0 in *. rewrite run_downset in * by (by apply (downset_greater _ _ es Hs Hcut')).
  fold (hi scorePositiveInfBorder es) in *. rewrite Hhi in *. rewrite Nat.sub_0_r in *.
  set (n := if decide (0 < count ∧ Z.of_nat 0 < count)%Z then _ else _) in *.
  assert (Hn : n = Nat.min (popped count es) (length es)).
  { unfold n, popped. destruct (decide (0 < count ∧ Z.of_nat 0 < count)%Z), (decide (0 < count)%Z); lia. }
  assert (Ht : take n es = take (popped count es) es) by (rewrite Hn, <- take_take; f_equal; by rewrite take_ge).
  assert (Hd : drop n es = drop (popped count es) es).
  { rewrite Hn. destruct (decide (popped count es <= length es)); [by rewrite Nat.min_l|]. by rewrite !drop_ge by lia. }
  rewrite <- Ht, <- Hd. eexists. split; [done|]. apply (ss_ok_cut ss [] (take n es) (drop n es)); [|done].
  cbn [app]. by rewrite take_drop.
Qed.

(** ** Range *)

(** Position [p] moved by [o] nodes. *)
Definition moved (desc : bool) (p o : nat) : nat := if desc then p - o else p + o.

Lemma skip_spec sl P desc p o :
  rep sl P → 1 <= p < length P → skip sl desc o (ptr P p) = Ret (ptr P (moved desc p o)).
Proof.
  intros Hrep. revert p. induction o as [|o IH]; intros p Hp.
  { unfold moved. rewrite Nat.add_0_r, Nat.sub_0_r. by destruct desc. }
  destruct p as [|p]; [lia|]. destruct (lookup_lt_is_Some_2 P (S p)) as [x Hx]; [lia|]. cbn [ptr]. rewrite Hx.
  cbn [fmap option_fmap option_map skip]. rewrite (step_spec sl P desc p x Hrep Hx). cbn [mbind res_bind].
  destruct desc; cbn [next_pos moved] in *.
  - replace (S p - S o) with (p - o) by lia. replace (S p - 1) with p by lia. destruct p as [|p]; [by destruct o|]. apply IH. lia.
  - replace (S p + S o) with (S (S p) + o) by lia. destruct (decide (S (S p) < length P)); [by apply IH; lia|].
    unfold ptr. rewrite (lookup_ge_None_2 P (S (S p))), (lookup_ge_None_2 P (S (S p) + o)) by lia. by destruct o.
Qed.

(** The elements the second loop of [ForEach] meets before it leaves the range;
    it does not look at the first one. *)
Fixpoint inside (min max : Border) (l : list Element) : list Element :=
  match l with
  | [] => []
  | e :: l' => e :: match l' with
                    | [] => []
                    | e' :: _ => if inr min max e' then inside min max l' else []
                    end
  end.

Definition limited {A} (limit i : Z) (l : list A) : list A := if (limit <? 0)%Z then l else take (Z.to_nat (limit - i)) l.

Lemma limited_cons {A} limit i (e : A) l :
  ((i <? limit) || (limit <? 0))%Z = true → limited limit i (e :: l) = e :: limited limit (i + 1) l.
Proof.
  unfold limited. intros H. destruct (Z.ltb_spec limit 0); [done|]. rewrite orb_false_r in H. apply Z.ltb_lt in H.
  by replace (Z.to_nat (limit - i)) with (S (Z.to_nat (limit - (i + 1)))) by lia.
Qed.

Lemma limited_done {A} limit i (l : list A) : ((i <? limit) || (limit <? 0))%Z = false → limited limit i l = [].
Proof.
  unfold limited. intros [H ->]%orb_false_iff. apply Z.ltb_ge in H. by replace (Z.to_nat (limit - i)) with 0 by lia.
Qed.

Lemma limited_nil {A} limit i : limited limit i (@nil A) = [].
Proof. unfold limited. destruct (limit <? 0)%Z; [done|]. apply take_nil. Qed.

Lemma each_spec {A} (consumer : A → Element → A * bool) fuel sl P es min max limit desc i p st :
  rep sl P → elems P = es → (1 <= p ∨ desc = true) → p <= length es → length (trail es desc p) < fuel →
  each fuel consumer sl min max limit desc i (ptr P p) st =
    Ret (consume consumer (limited limit i (inside min max (trail es desc p))) st).
Proof.
  intros Hrep HP. revert i p st. induction fuel as [|fuel IH]; intros i p st Hd Hp Hf; [lia|]. cbn [each].
  destruct (decide (p = 0)) as [->|H0].
  { destruct Hd as [?| ->]; [lia|]. change (trail es true 0) with (@nil Element). cbn [ptr inside].
    by rewrite limited_nil. }
  destruct p as [|q]; [done|]. pose proof (length_elems _ _ Hrep) as Hlen. rewrite HP in Hlen.
  destruct (lookup_lt_is_Some_2 P (S q)) as [x Hx]; [lia|]. rewrite (trail_cons P es desc q x HP Hx) in *. cbn [ptr]. rewrite Hx.
  cbn [fmap option_fmap option_map].
  destruct ((i <? limit) || (limit <? 0))%Z eqn:Hi; [|by rewrite limited_done]. cbn [inside]. rewrite limited_cons by done.
  cbn [consume]. unfold get_node. rewrite (rep_node _ _ Hrep _ _ Hx). cbn [must mbind res_bind nelem].
  destruct (consumer st (eel x)) as [st' []]; [|done]. rewrite (step_spec sl P desc q x Hrep Hx). cbn [mbind res_bind].
  set (p' := next_pos desc (S q)) in *. cbn [length] in Hf.
  assert (Hd' : 1 <= p' ∨ desc = true) by (unfold p', next_pos; destruct desc; [by right|left; lia]).
  destruct (decide (1 <= p' <= length es)) as [Hp'|Hp'].
  - destruct p' as [|q'] eqn:Ep; [lia|]. destruct (lookup_lt_is_Some_2 P (S q')) as [y Hy]; [lia|].
    specialize (IH (i + 1)%Z (S q') st' Hd' (proj2 Hp')).
    rewrite (trail_cons P es desc q' y HP Hy) in *. cbn [ptr] in *. rewrite Hy in *. cbn [fmap option_fmap option_map] in *.
    unfold get_node. rewrite (rep_node _ _ Hrep _ _ Hy). cbn [must mbind res_bind nelem].
    rewrite <- negb_andb. fold (inr min max (eel y)). destruct (inr min max (eel y)); cbn [negb].
    + apply IH. cbn [length] in *. lia.
    + by rewrite limited_nil.
  - assert (Ht : trail es desc p' = []) by (unfold p', next_pos, trail in *; destruct desc;
      [by replace (S q - 1) with 0 by lia|apply drop_ge; lia]).
    rewrite Ht. replace (ptr P p') with (@None nat).
    { by rewrite limited_nil. }
    unfold p', next_pos in *. destruct desc; [by replace (S q - 1) with 0 by lia|].
    cbn. by rewrite (lookup_ge_None_2 P) by lia.
Qed.

Lemma inside_app min max A B :
  A ≠ [] → Forall (λ e, inr min max e = true) A → (∀ e B', B = e :: B' → inr min max e = false) → inside min max (A ++ B) = A.
Proof.
  intros Hne Hin Hout. induction A as [|a A IH]; [done|]. apply Forall_cons in Hin as [_ Hin]. cbn [app inside]. f_equal.
  destruct A as [|a' A]; cbn [app].
  - destruct B as [|e B']; [done|]. by rewrite (Hout e B' eq_refl).
  - apply Forall_cons in Hin as [Ha' Hin']. rewrite Ha'. apply IH; [done|]. by constructor.
Qed.

(** [Range] visits the elements in range from the chosen end, provided that the
    offset stays within the range. *)
Lemma consume_append l acc : consume (λ (slice : list Element) element, (slice ++ [element], true)) l acc = acc ++ l.
Proof. revert acc. induction l as [|e l IH]; intros acc; cbn; [by rewrite app_nil_r|]. by rewrite IH, <- app_assoc. Qed.

Section range.
Context (min max : Border) (es : list Element) (Hs : sorted es) (Hcut : cuts min max es).

Lemma outside_range e : e ∈ take (lo min es) es ∨ e ∈ drop (hi max es) es → inr min max e = false.
Proof using Hs Hcut.
  intros [[q Hq]%list_elem_of_lookup|[q Hq]%list_elem_of_lookup].
  - pose proof (lookup_lt_Some _ _ _ Hq) as Hl. rewrite length_take in Hl. rewrite lookup_take_lt in Hq by lia.
    by rewrite (inr_at min max es Hs Hcut q e Hq), bool_decide_false by lia.
  - rewrite lookup_drop in Hq. by rewrite (inr_at min max es Hs Hcut _ e Hq), bool_decide_false by lia.
Qed.

(** Where the traversal starts after the offset, the elements in range come
    first and an element outside follows. *)
Lemma inside_trail desc o :
  o < hi max es - lo min es →
  inside min max (trail es desc (moved desc (if desc then hi max es else S (lo min es)) o)) =
    drop o (directed desc (zrange min max es)).
Proof using Hs Hcut.
  intros Ho. pose proof (count_le (greater max) es) as Hhi. fold (hi max es) in Hhi.
  pose proof (length_zrange min max es Hs Hcut) as Hlen. pose proof (zrange_slice min max es Hs Hcut) as Hz.
  set (l := lo min es) in *. set (h := hi max es) in *.
  assert (Hin : ∀ o, Forall (λ e, inr min max e = true) (drop o (directed desc (zrange min max es)))).
  { intros n. apply Forall_drop. apply Forall_forall. intros e He.
    assert (e ∈ zrange min max es) as [H _]%list_elem_of_filter; [|done].
    destruct desc; [|done]. unfold directed in He. by rewrite elem_of_reverse in He. }
  assert (Hsplit : trail es desc (moved desc (if desc then h else S l) o) =
    drop o (directed desc (zrange min max es)) ++ (if desc then reverse (take l es) else drop h es)).
  { destruct desc; cbn [trail moved].
    - rewrite <- (trail_from (zrange min max es) true o) by lia. cbn [trail]. rewrite Hlen, Hz.
      rewrite take_drop_commute, take_take, <- reverse_app. f_equal.
      replace (Nat.min (l + (h - l - o)) h) with (h - o) by lia.
      transitivity (take l (take (h - o) es) ++ drop l (take (h - o) es)); [by rewrite take_drop|].
      by rewrite take_take, Nat.min_l by lia.
    - cbn [directed]. rewrite Hz, drop_drop, drop_take_drop by lia. f_equal. lia. }
  rewrite Hsplit. apply inside_app; [|apply Hin|].
  - intros E. apply (f_equal length) in E. rewrite length_drop, length_directed in E. cbn in E. lia.
  - intros e B' HB. apply outside_range. destruct desc.
    + left. fold l. rewrite <- elem_of_reverse, HB. left.
    + right. fold h. rewrite HB. left.
Qed.
End range.

Lemma ss_Range_spec ss es min max offset limit desc :
  ss_ok ss es → cuts min max es → isIntersected min max = Ret false →
  zrange min max es = [] ∨ (offset < Z.of_nat (length (zrange min max es)))%Z →
  Range ss min max offset limit desc =
    Ret (if ((limit =? 0) || (offset <? 0))%Z then []
         else limited limit 0 (drop (Z.to_nat offset) (directed desc (zrange min max es)))).
Proof.
  intros Hok Hcut Hint Hoff. unfold Range. destruct ((limit =? 0) || (offset <? 0))%Z eqn:Hz; [done|].
  apply orb_false_iff in Hz as [_ Ho%Z.ltb_ge]. unfold ForEach.
  pose proof (ok_sorted _ _ Hok) as Hs. destruct (ok_sl _ _ Hok) as (P & Hrep & HP).
  pose proof (count_le (greater max) es) as Hhi. fold (hi max es) in Hhi.
  pose proof (length_elems _ _ Hrep) as HlenP. rewrite HP in HlenP.
  pose proof (length_zrange min max es Hs Hcut) as Hlen.
  rewrite (getFirstInRange_spec min max es Hs Hcut _ P Hrep HP Hint), (getLastInRange_spec min max es Hs Hcut _ P Hrep HP Hint).
  destruct (decide (lo min es < hi max es)) as [Hlt|Hge].
  - replace (if desc then Ret (eloc <$> P !! hi max es) else Ret (eloc <$> P !! S (lo min es)))
      with (Ret (ptr P (if desc then hi max es else S (lo min es)))) by (destruct desc; [destruct (hi max es); [lia|done]|done]).
    cbn [mbind res_bind]. destruct Hoff as [E|Hoff]; [rewrite E in Hlen; cbn in Hlen; lia|].
    rewrite skip_spec by (done || (destruct desc; lia)). cbn [mbind res_bind].
    rewrite (each_spec _ _ (skl ss) P es) by (done || (unfold moved; destruct desc; auto; lia) ||
      (unfold walk_fuel; rewrite (rep_len _ _ Hrep); unfold trail, moved; destruct desc;
       rewrite ?length_reverse, ?length_take, ?length_drop; lia)).
    rewrite (inside_trail min max es Hs Hcut) by lia. by rewrite consume_append.
  - assert (zrange min max es = []) as -> by (apply nil_length_inv; lia).
    replace (if desc then _ else _) with (@Ret (option nat) None) by (by destruct desc). cbn [mbind res_bind].
    replace (skip (skl ss) desc (Z.to_nat offset) None) with (@Ret (option nat) None) by (by destruct (Z.to_nat offset)).
    unfold walk_fuel. cbn. replace (directed desc []) with (@nil Element) by (by destruct desc).
    by rewrite drop_nil, limited_nil.
Qed.
