(* ===== verification/SortedSetThm.v ===== *)
(** * Sorted sets: refinement and limits

    The operations of [sortedset.go], in any order, behave as operations on one
    list that is sorted by score and member. *)

From stdpp Require Import base gmap list sorting strings.
From Stdlib Require Import ZArith Lia.
From S2P Require Import Prelude Float64 Border SkipList SkipListRep SkipListSpec SortedSet SortedSetSpec.

Local Open Scope Z_scope.

(** ** Commands *)

(** [rnds] are the random numbers a call may draw for heights of new nodes. *)
Inductive zcmd :=
| ZAdd (m : bytes) (s : Z) (rnds : nat → Z)
| ZRem (m : bytes)
| ZLen
| ZGet (m : bytes)
| ZRank (m : bytes) (desc : bool)
| ZRangeByRank (start stop : Z) (desc : bool)
| ZCount (min max : Border)
| ZRange (min max : Border) (offset limit : Z) (desc : bool)
| ZRemRange (min max : Border)
| ZPopMin (n : Z)
| ZRemByRank (start stop : Z).

(** Scores are reported by their numerical key, which is the same for both zeros. *)
Inductive zout :=
| OBool (b : bool)
| OInt (z : Z)
| OKey (k : option Z)
| OElems (l : list (option Element))
| OPop (l : option (list Element)).

Definition zstep (ss : SortedSet) (c : zcmd) : res (SortedSet * zout) :=
  match c with
  | ZAdd m s rnds => '(ss', b) ← Add ss m s (rnds 0%nat); Ret (ss', OBool b)
  | ZRem m => '(ss', b) ← Remove ss m; Ret (ss', OBool b)
  | ZLen => Ret (ss, OInt (Len ss))
  | ZGet m => Ret (ss, OKey ((fkey ∘ Score) <$> Get ss m))
  | ZRank m desc => r ← GetRank ss m desc; Ret (ss, OInt r)
  | ZRangeByRank start stop desc => l ← RangeByRank ss start stop desc; Ret (ss, OElems l)
  | ZCount min max => n ← RangeCount ss min max; Ret (ss, OInt n)
  | ZRange min max offset limit desc => l ← Range ss min max offset limit desc; Ret (ss, OElems (Some <$> l))
  | ZRemRange min max => '(ss', n) ← RemoveRange ss min max; Ret (ss', OInt n)
  | ZPopMin n => '(ss', l) ← PopMin ss n; Ret (ss', OPop l)
  | ZRemByRank start stop => '(ss', n) ← RemoveByRank ss start stop; Ret (ss', OInt n)
  end.

Fixpoint zrun (ss : SortedSet) (cs : list zcmd) : res (SortedSet * list zout) :=
  match cs with
  | [] => Ret (ss, [])
  | c :: cs' => '(ss1, o) ← zstep ss c; '(ss2, os) ← zrun ss1 cs'; Ret (ss2, o :: os)
  end.

(** The same commands on the sorted list. *)
Definition zspec (es : list Element) (c : zcmd) : list Element * zout :=
  match c with
  | ZAdd m s _ => (zadd m s es, OBool (bool_decide (zfind m es = None)))
  | ZRem m => (zdel m es, OBool (bool_decide (zfind m es ≠ None)))
  | ZLen => (es, OInt (Z.of_nat (length es)))
  | ZGet m => (es, OKey ((fkey ∘ Score) <$> zfind m es))
  | ZRank m desc =>
      (es, OInt (match zindex m es with
                 | Some r => if desc then Z.of_nat (length es) - 1 - Z.of_nat r else Z.of_nat r
                 | None => -1
                 end))
  | ZRangeByRank start stop desc =>
      (es, OElems (Some <$> take (Z.to_nat stop - Z.to_nat start) (drop (Z.to_nat start) (directed desc es))))
  | ZCount min max => (es, OInt (Z.of_nat (length (zrange min max es))))
  | ZRange min max offset limit desc =>
      (es, OElems (Some <$> if (limit =? 0) || (offset <? 0) then []
                            else limited limit 0 (drop (Z.to_nat offset) (directed desc (zrange min max es)))))
  | ZRemRange min max => (filter (λ e, inr min max e = false) es, OInt (Z.of_nat (length (zrange min max es))))
  | ZPopMin n => (drop (popped n es) es, OPop (if decide (es = []) then None else Some (take (popped n es) es)))
  | ZRemByRank start stop =>
      (take (Z.to_nat start) es ++ drop (Z.to_nat stop) es,
       OInt (Z.of_nat (length (take (Z.to_nat stop - Z.to_nat start) (drop (Z.to_nat start) es)))))
  end.

Fixpoint zspec_run (es : list Element) (cs : list zcmd) : list Element * list zout :=
  match cs with
  | [] => (es, [])
  | c :: cs' => let '(es1, o) := zspec es c in let '(es2, os) := zspec_run es1 cs' in (es2, o :: os)
  end.

(** The calls the commands of the server make, apart from the cases that the
    last section is about: scores are numbers, the member asked for a rank is
    not empty, ranks are within the set, borders suit the elements, a range is
    counted in a set that is not empty, a range read by border is not refused
    by [isIntersected] and its offset stays inside. *)
Definition zlegal (es : list Element) (c : zcmd) : Prop :=
  match c with
  | ZAdd _ s _ => fnan s = false
  | ZRank m _ => m ≠ []
  | ZRangeByRank start stop _ => 0 <= start < Z.of_nat (length es) ∧ start <= stop <= Z.of_nat (length es)
  | ZCount min max => es ≠ [] ∧ cuts min max es
  | ZRange min max offset _ _ =>
      cuts min max es ∧ isIntersected min max = Ret false ∧
      (zrange min max es = [] ∨ offset < Z.of_nat (length (zrange min max es)))
  | ZRemRange min max => cuts min max es
  | ZRemByRank start stop => 0 <= start < max_i64 ∧ start <= stop < max_i64
  | _ => True
  end.

Fixpoint zlegal_run (es : list Element) (cs : list zcmd) : Prop :=
  match cs with [] => True | c :: cs' => zlegal es c ∧ zlegal_run (zspec es c).1 cs' end.

(** ** Refinement *)

Lemma zstep_refines ss es c :
  ss_ok ss es → zlegal es c → ∃ ss', zstep ss c = Ret (ss', (zspec es c).2) ∧ ss_ok ss' (zspec es c).1.
Proof.
  intros Hok Hl. destruct c; cbn [zstep zspec fst snd zlegal] in *.
  - destruct (Add_spec ss es m s (rnds 0%nat) Hok Hl) as (ss' & -> & H). eauto.
  - destruct (ss_Remove_spec ss es m Hok) as (ss' & -> & H). eauto.
  - rewrite (Len_spec _ _ Hok). eauto.
  - rewrite (ss_Get_spec _ _ _ Hok). eauto.
  - rewrite (GetRank_spec _ _ _ _ Hok Hl). cbn. eauto.
  - pose proof (RangeByRank_spec ss es (Z.to_nat start) (Z.to_nat stop) desc Hok) as H.
    rewrite !Z2Nat.id in H by lia. rewrite H by lia. cbn. eauto.
  - destruct Hl as [Hne Hc]. rewrite (RangeCount_spec _ _ _ _ Hok Hne Hc). cbn. eauto.
  - destruct Hl as (Hc & Hi & Ho). rewrite (ss_Range_spec _ _ _ _ _ _ _ Hok Hc Hi Ho). cbn. eauto.
  - destruct (RemoveRange_spec ss es min max Hok Hl) as (ss' & -> & H). eauto.
  - destruct (PopMin_spec ss es n Hok) as (ss' & -> & H). eauto.
  - destruct (RemoveByRank_spec ss es start stop Hok (proj1 Hl) (proj2 Hl)) as (ss' & -> & H). eauto.
Qed.

Lemma zrun_refines ss es cs :
  ss_ok ss es → zlegal_run es cs →
  ∃ ss', zrun ss cs = Ret (ss', (zspec_run es cs).2) ∧ ss_ok ss' (zspec_run es cs).1.
Proof.
  revert ss es. induction cs as [|c cs IH]; intros ss es Hok Hl; cbn [zrun zspec_run]; [by exists ss|].
  destruct Hl as [Hc Hcs]. destruct (zstep_refines ss es c Hok Hc) as (ss1 & -> & Hok1).
  destruct (IH ss1 _ Hok1 Hcs) as (ss2 & E & Hok2).
  destruct (zspec es c) as [es1 o]. cbn [fst snd] in *. destruct (zspec_run es1 cs) as [es2 os]. cbn [fst snd mbind res_bind] in *.
  rewrite E. cbn [mbind res_bind]. eauto.
Qed.

(** C14: every legal sequence of sorted-set operations on an empty set runs
    without panic, whatever heights the new nodes get, and its outputs are those
    of the same operations on one list sorted by score and member: insertion,
    deletion, rank, ranges by rank and by border in both directions, range
    removal and popping. *)
Theorem sorted_set_refines_list cs :
  zlegal_run [] cs → ∃ ss, zrun Make cs = Ret (ss, (zspec_run [] cs).2) ∧ Len ss = Z.of_nat (length (zspec_run [] cs).1).
Proof.
  intros Hl. destruct (zrun_refines Make [] cs ss_ok_make Hl) as (ss & E & Hok). exists ss. split; [done|].
  by apply Len_spec.
Qed.

(** C15: after every legal sequence of operations the skiplist is intact: its
    nodes are in the order of score and member, every forward pointer at every
    level leads to the next node tall enough, with the distance as its span,
    backward pointers and tail agree, and the length counts the map's members. *)
Theorem skiplist_stays_intact cs ss os :
  zlegal_run [] cs → zrun Make cs = Ret (ss, os) →
  ∃ P, rep (skl ss) P ∧ StronglySorted elt (elems P) ∧ NoDup (Member <$> elems P) ∧ slen (skl ss) = Len ss.
Proof.
  intros Hl E. destruct (zrun_refines Make [] cs ss_ok_make Hl) as (ss' & E' & Hok). rewrite E in E'. inv_ret.
  destruct (ok_sl _ _ Hok) as (P & Hrep & HP). exists P. rewrite HP. split_and!; [done|apply Hok|apply Hok|].
  rewrite (rep_len _ _ Hrep), (length_elems _ _ Hrep), HP, (Len_spec _ _ Hok). lia.
Qed.

(** ** Concrete runs *)

(** The bit patterns of 1, 2 and 3. *)
Definition f1 : Z := 0x3FF0000000000000.
Definition f2 : Z := 0x4000000000000000.
Definition f3 : Z := 0x4008000000000000.

Definition three : list zcmd := [ZAdd (str "b") f2 (λ _, 7); ZAdd (str "a") f1 (λ _, 0); ZAdd (str "c") f3 (λ _, 12345)].

Definition tour : list zcmd :=
  three ++ [ZAdd (str "b") f3 (λ _, 3); ZRank (str "b") true; ZRangeByRank 0 2 true;
            ZRange (ScoreBorder 0 f1 false) (ScoreBorder 0 f3 true) 0 (-1) false; ZCount (ScoreBorder 0 f2 false) scorePositiveInfBorder;
            ZRem (str "a"); ZPopMin 1; ZLen].

#[local] Instance num_dec e : Decision (num e).
Proof. unfold num. apply _. Defined.

(** Legality of a concrete run: the intermediate lists are computed. *)
Ltac zlegal_tac :=
  cbn [app zlegal_run zlegal];
  repeat match goal with |- _ ∧ _ => split end;
  lazymatch goal with
  | |- True => exact I
  | |- cuts _ _ _ => apply cuts_score; [vm_compute; reflexivity..|apply (bool_decide_unpack _); vm_compute; exact I]
  | |- _ = _ => vm_compute; reflexivity
  | |- _ ∨ _ => right; vm_compute; reflexivity
  | |- _ ≠ _ => vm_compute; congruence
  | |- _ => vm_compute; intuition congruence
  end.

Lemma tour_legal : zlegal_run [] tour.
Proof. unfold tour, three. zlegal_tac. Qed.

Lemma sorted_set_refines_list_witness :
  zlegal_run [] tour ∧ ∃ ss, zrun Make tour = Ret (ss, (zspec_run [] tour).2) ∧ Len ss = Z.of_nat (length (zspec_run [] tour).1).
Proof. split; [exact tour_legal|]. apply sorted_set_refines_list. exact tour_legal. Defined.

(** The state that [tour] ends in. *)
Definition tour_end : SortedSet := match zrun Make tour with Ret (ss, _) => ss | _ => Make end.
Definition tour_outs : list zout := match zrun Make tour with Ret (_, os) => os | _ => [] end.

Lemma skiplist_stays_intact_witness :
  zrun Make tour = Ret (tour_end, tour_outs) ∧
  ∃ P, rep (skl tour_end) P ∧ StronglySorted elt (elems P) ∧ NoDup (Member <$> elems P) ∧ slen (skl tour_end) = Len tour_end.
Proof.
  assert (E : zrun Make tour = Ret (tour_end, tour_outs)) by (vm_compute; reflexivity).
  split; [exact E|]. exact (skiplist_stays_intact tour tour_end tour_outs tour_legal E).
Defined.

(** ** Limits *)

(** A range by score from a positive minimum up to +inf is empty, whatever
    the set holds: [isIntersected] compares the zero [Value] of the border +inf
    with the minimum and refuses the range. *)
Theorem range_to_positive_infinity_is_empty ss v exclude offset limit desc :
  fnan v = false → 0 < fkey v →
  Range ss (ScoreBorder 0 v exclude) scorePositiveInfBorder offset limit desc = Ret [].
Proof.
  intros Hn Hv. unfold Range. destruct ((limit =? 0) || (offset <? 0)); [done|].
  assert (Hi : isIntersected (ScoreBorder 0 v exclude) scorePositiveInfBorder = Ret true).
  { cbn. rewrite flt_key by done. by rewrite bool_decide_true. }
  unfold ForEach, getFirstInRange, getLastInRange, hasInRange. rewrite Hi. cbn [mbind res_bind].
  destruct desc; cbn; by destruct (Z.to_nat offset).
Qed.

Lemma range_to_positive_infinity_is_empty_witness :
  fnan f2 = false ∧ 0 < fkey f2 ∧ Range tour_end (ScoreBorder 0 f2 false) scorePositiveInfBorder 0 (-1) false = Ret [].
Proof.
  assert (H1 : fnan f2 = false) by (vm_compute; reflexivity).
  assert (H2 : 0 < fkey f2) by (vm_compute; reflexivity).
  split; [exact H1|]. split; [exact H2|]. exact (range_to_positive_infinity_is_empty tour_end f2 false 0 (-1) false H1 H2).
Defined.

(** An offset past the end of the range returns an element outside it: of
    the scores 1, 2 and 3, the range from 1 to 1 with offset 1 and limit 1
    yields the element of score 2, which the upper border excludes. *)
Theorem range_offset_escapes :
  ∃ ss os e, zrun Make three = Ret (ss, os) ∧
    Range ss (ScoreBorder 0 f1 false) (ScoreBorder 0 f1 false) 1 1 false = Ret [e] ∧
    greater (ScoreBorder 0 f1 false) e = false.
Proof.
  set (ss := match zrun Make three with Ret (ss, _) => ss | _ => Make end).
  exists ss, [OBool true; OBool true; OBool true], (MkElement (str "b") f2).
  split_and!; vm_compute; reflexivity.
Qed.

(** Popping with a count of zero or less, on a set with elements, returns
    and removes all of them. *)
Theorem pop_nothing_pops_all cs ss os count :
  zlegal_run [] cs → zrun Make cs = Ret (ss, os) → count <= 0 → 0 < Len ss →
  ∃ ss' l, PopMin ss count = Ret (ss', Some l) ∧ Z.of_nat (length l) = Len ss ∧ Len ss' = 0.
Proof.
  intros Hl E Hc H0. destruct (zrun_refines Make [] cs ss_ok_make Hl) as (ss1 & E' & Hok). rewrite E in E'. inv_ret.
  rewrite (Len_spec _ _ Hok) in *. set (es := (zspec_run [] cs).1) in *.
  destruct (PopMin_spec ss1 es count Hok) as (ss' & -> & Hok').
  unfold popped in *. rewrite (decide_False (P := 0 < count)) in * by lia. rewrite take_ge, drop_ge in * by done.
  rewrite decide_False by (intros ->; done). exists ss', es. split_and!; [done|done|]. by rewrite (Len_spec _ _ Hok').
Qed.

Lemma pop_nothing_pops_all_witness :
  ∃ ss' l, PopMin tour_end 0 = Ret (ss', Some l) ∧ Z.of_nat (length l) = Len tour_end ∧ Len ss' = 0.
Proof.
  apply (pop_nothing_pops_all tour tour_end tour_outs 0 tour_legal); vm_compute; congruence || reflexivity.
Defined.

(** Counting a range in an empty set panics, as does every traversal by
    rank, because rank 0 does not exist. *)
Theorem range_count_of_empty_set_panics ss min max : Len ss = 0 → RangeCount ss min max = Panic.
Proof. intros H. unfold RangeCount, ForEachByRank. by rewrite H. Qed.

Lemma range_count_of_empty_set_panics_witness :
  Len Make = 0 ∧ RangeCount Make scoreNegativeInfBorder scorePositiveInfBorder = Panic.
Proof. split; [reflexivity|]. apply range_count_of_empty_set_panics. reflexivity. Defined.

(** The empty string is a member like any other, but its rank may be
    reported as -1, the answer for members that are absent: below a taller node
    the search stays at the header, whose member is empty, and takes it for the
    element. *)
Theorem rank_of_empty_member :
  ∃ ss os, zrun Make [ZAdd [] f1 (λ _, 65534); ZAdd (str "z") f2 (λ _, 0)] = Ret (ss, os) ∧
    is_Some (Get ss []) ∧ GetRank ss [] false = Ret (-1).
Proof.
  set (ss := match zrun Make [ZAdd [] f1 (λ _, 65534); ZAdd (str "z") f2 (λ _, 0)] with Ret (ss, _) => ss | _ => Make end).
  exists ss, [OBool true; OBool true].
  split_and!; [vm_compute; reflexivity|eexists; vm_compute; reflexivity|vm_compute; reflexivity].
Qed.
