(* ===== verification/ObjZSet.v ===== *)
(** * Sorted-set objects: [ZSet] of [internal/object/encoding.go]

    A sorted set is a listpack of member/score pairs, in the order of arrival
    and with the scores as text, while it is small, and a map with a skiplist
    after that.  The listpack form sorts on every read. *)

From stdpp Require Import base gmap list strings sorting.
From Stdlib Require Import ZArith Lia.
From S2P Require Import Prelude Float64 Border Listpack Pairs ObjString SkipList SortedSet.

Local Open Scope Z_scope.

Record ZSet := MkZSet {
  listpack : option Listpack;
  skiplist_ : option SortedSet;
  isListpack : bool
}.

Definition NewZSet : ZSet := MkZSet (Some NewListpack) None true.

(** [sort.Slice] with the closure [less]: on elements that [less] tells apart
    there is one sorted order, which insertion finds. *)
Fixpoint insert_by {A} (less : A → A → bool) (e : A) (l : list A) : list A :=
  match l with
  | [] => [e]
  | a :: l' => if less a e then a :: insert_by less e l' else e :: a :: l'
  end.

Definition sort_Slice {A} (less : A → A → bool) (l : list A) : list A := foldr (insert_by less) [] l.

(** The closure of [collectSorted]. *)
Definition entry_less (a b : Element) : bool :=
  if negb (feq (Score a) (Score b)) then flt (Score a) (Score b) else bytes_ltb (Member a) (Member b).

(** The indices [start .. stop-1] of [entries], seen through [idx]. *)
Definition pick (entries : list Element) (start stop : Z) (idx : Z → Z) : res (list Element) :=
  for_loop (Z.to_nat (stop - start)) start 1 (λ acc i,
    if idx i <? 0 then Panic
    else e ← must (entries !! Z.to_nat (idx i)); Ret (acc ++ [e], true)) [].

(** The map of members to drop, used as a set. *)
Definition remove_set (l : list Element) : gset bytes := list_to_set (Member <$> l).

(** The test [_, skip := removeSet[member]]. *)
Definition drops (removeSet : gset bytes) (s : bytes) : bool := bool_decide (s ∈ removeSet).

(** The index of the first entry of [member], counted from [i]. *)
Fixpoint rank_of (member : bytes) (entries : list Element) (i : Z) : Z :=
  match entries with
  | [] => -1
  | e :: l => if bytes_eqb (Member e) member then i else rank_of member l (i + 1)
  end.

(** The two loops of [Range] over the filtered entries, upwards or downwards. *)
Fixpoint take_loop (fuel : nat) (min max : Border) (filtered : list Element) (limit : Z) (desc : bool) (i taken : Z)
    (result : list Element) : res (list Element) :=
  match fuel with
  | O => OutOfFuel
  | S f =>
      if (if desc then 0 <=? i else i <? Z.of_nat (length filtered)) && ((limit <? 0) || (taken <? limit)) then
        if i <? 0 then Panic
        else
          e ← must (filtered !! Z.to_nat i);
          if negb (less min e) || negb (greater max e) then Ret result
          else take_loop f min max filtered limit desc (if desc then i - 1 else i + 1) (taken + 1) (result ++ [e])
      else Ret result
  end.

Section ops.
Context (Thresholds : EncodingThresholds) (formatFloat : Z → bytes) (parseFloat : bytes → option Z).
Implicit Types (z : ZSet) (member : bytes) (score : Z).

(** The score text at [i+1] as a number. *)
Definition score_at (lp : Listpack) (i : Z) : res (option Z) :=
  '(scoreVal, ok) ← lp_Get lp (i + 1);
  Ret (if ok : bool then match scoreVal with VStr s => parseFloat s | _ => None end else None).

(** [rnds i] is the random number for the node of pair [i]. *)
Definition convertToSkiplist z (rnds : nat → Z) : res ZSet :=
  lp ← must (listpack z);
  newZSet ← lp_Range lp (λ ss i val,
    if Z.rem i 2 =? 0 then
      match val with
      | VStr member =>
          o ← score_at lp i;
          match o with
          | Some score => '(ss', _) ← SortedSet.Add ss member score (rnds (Z.to_nat i)); Ret (ss', true)
          | None => Ret (ss, true)
          end
      | _ => Ret (ss, true)
      end
    else Ret (ss, true)) Make;
  Ret (MkZSet None (Some newZSet) false).

Definition rebuildListpackWithScore z member score : res ZSet :=
  lp ← must (listpack z);
  lp' ← pair_update lp member (formatFloat score);
  Ret (MkZSet (Some lp') (skiplist_ z) (isListpack z)).

Definition add_skiplist z member score (rnd : Z) : res (ZSet * bool) :=
  ss ← must (skiplist_ z);
  '(ss', b) ← SortedSet.Add ss member score rnd;
  Ret (MkZSet (listpack z) (Some ss') (isListpack z), b).

Definition Add z member score (rnds : nat → Z) : res (ZSet * bool) :=
  if isListpack z then
    lp ← must (listpack z);
    found ← pair_found lp member;
    if found : bool then z' ← rebuildListpackWithScore z member score; Ret (z', false)
    else if ZSetMaxListpackValue Thresholds <? Z.of_nat (length member) then
      z' ← convertToSkiplist z rnds;
      add_skiplist z' member score (rnds (lp_num lp))
    else
      let lp' := AppendStr (AppendStr lp member) (formatFloat score) in
      let z' := MkZSet (Some lp') (skiplist_ z) true in
      z'' ← (if ZSetMaxListpackEntries Thresholds <? Z.quot (lp_Len lp') 2 then convertToSkiplist z' rnds else Ret z');
      Ret (z'', true)
  else add_skiplist z member score (rnds 0%nat).

Definition Get z member : res (option Z) :=
  if isListpack z then
    lp ← must (listpack z);
    r ← pair_loop lp (λ (st : option (option Z)) i,
      '(val, ok) ← lp_Get lp i;
      if negb ok then Ret (st, false)
      else
        match val with
        | VStr s =>
            if bytes_eqb s member then
              '(scoreVal, ok2) ← lp_Get lp (i + 1);
              if negb ok2 then Ret (Some None, false)
              else
                match scoreVal with
                | VStr t => Ret (Some (parseFloat t), false)
                | _ => Ret (st, true)
                end
            else Ret (st, true)
        | _ => Ret (st, true)
        end) None;
    Ret (default None r)
  else
    ss ← must (skiplist_ z);
    Ret (Score <$> SortedSet.Get ss member).

Definition Remove z member : res (ZSet * bool) :=
  if isListpack z then
    lp ← must (listpack z);
    '(newLp, removed) ← pair_remove (λ l v, match v with VStr s => AppendStr l s | _ => l end) lp
      (λ s, bytes_eqb s member);
    if negb removed then Ret (z, false) else Ret (MkZSet (Some newLp) (skiplist_ z) (isListpack z), true)
  else
    ss ← must (skiplist_ z);
    '(ss', b) ← SortedSet.Remove ss member;
    Ret (MkZSet (listpack z) (Some ss') (isListpack z), b).

Definition Len z : res Z :=
  if isListpack z then lp ← must (listpack z); Ret (Z.quot (lp_Len lp) 2)
  else ss ← must (skiplist_ z); Ret (SortedSet.Len ss).

(** The closure that pairs each score with the member before it. *)
Definition each_pair {A} (fn : A → bytes → Z → A * bool) (st : A * bytes) (i : Z) (val : value) : res ((A * bytes) * bool) :=
  let '(s, member) := st in
  if Z.rem i 2 =? 0 then Ret ((s, match val with VStr m => m | _ => member end), true)
  else
    match val with
    | VStr t => match parseFloat t with
                | Some score => let '(s', go) := fn s member score in Ret ((s', member), go)
                | None => Ret ((s, member), true)
                end
    | _ => Ret ((s, member), true)
    end.

Definition ForEach {A} z (fn : A → bytes → Z → A * bool) (st : A) : res A :=
  if isListpack z then
    lp ← must (listpack z);
    '(st', _) ← lp_Range lp (each_pair fn) (st, []);
    Ret st'
  else
    ss ← must (skiplist_ z);
    ForEachByRank ss 0 (SortedSet.Len ss) false (λ s e, fn s (Member e) (Score e)) st.

Definition CurrentEncoding z : Encoding := if isListpack z then EncListpack else EncSkiplist.

Definition GetAsSortedSet z (rnds : nat → Z) : res (ZSet * SortedSet) :=
  z' ← (if isListpack z then convertToSkiplist z rnds else Ret z);
  ss ← must (skiplist_ z'); Ret (z', ss).

Definition collectSorted z : res (list Element) :=
  lp ← must (listpack z);
  '(entries, _) ← lp_Range lp (each_pair (λ entries member score, (entries ++ [MkElement member score], true))) ([], []);
  Ret (sort_Slice entry_less entries).

Definition GetRank z member (desc : bool) : res Z :=
  if isListpack z then
    entries ← collectSorted z;
    Ret (rank_of member (if desc then reverse entries else entries) 0)
  else ss ← must (skiplist_ z); SortedSet.GetRank ss member desc.

(** [None] in the result is a nil pointer; the nil slice is the empty list. *)
Definition RangeByRank z (start stop : Z) (desc : bool) : res (list (option Element)) :=
  if isListpack z then
    entries ← collectSorted z;
    let n := Z.of_nat (length entries) in
    if (start <? 0) || (n <=? start) then Ret []
    else
      let stop := if n <? stop then n else stop in
      if stop <=? start then Ret []
      else l ← pick entries start stop (λ i, if desc then n - 1 - i else i); Ret (fmap (M := list) Some l)
  else ss ← must (skiplist_ z); SortedSet.RangeByRank ss start stop desc.

Definition within (min max : Border) (e : Element) : bool := less min e && greater max e.

Definition RangeCount z (min max : Border) : res Z :=
  if isListpack z then
    entries ← collectSorted z;
    Ret (foldl (λ count e, if within min max e then count + 1 else count) 0 entries)
  else ss ← must (skiplist_ z); SortedSet.RangeCount ss min max.

Definition Range z (min max : Border) (offset limit : Z) (desc : bool) : res (list Element) :=
  if isListpack z then
    entries ← collectSorted z;
    let filtered := foldl (λ acc e, if within min max e then acc ++ [e] else acc) [] entries in
    if offset <? 0 then Ret []
    else
      let n := Z.of_nat (length filtered) in
      if n =? 0 then Ret []
      else take_loop (S (length filtered)) min max filtered limit desc (if desc then n - 1 - offset else offset) 0 []
  else ss ← must (skiplist_ z); SortedSet.Range ss min max offset limit desc.

(** The first rebuilding loop of [RemoveRange], whose result is thrown away. *)
Definition drop_members (lp : Listpack) (skip : bytes → bool) : res Listpack :=
  lp_Range lp (λ newLp i val,
    Ret (match val with
         | VStr s => if Z.rem i 2 =? 0 then if skip s then newLp else AppendStr newLp s else AppendStr newLp s
         | _ => newLp
         end, true)) NewListpack.

Definition RemoveRange z (min max : Border) : res (ZSet * Z) :=
  if isListpack z then
    entries ← collectSorted z;
    lp ← must (listpack z);
    let toRemove := foldl (λ acc e, if within min max e then acc ++ [Member e] else acc) [] entries in
    let skip := λ s, bool_decide (s ∈ toRemove) in
    _ ← drop_members lp skip;
    newLp ← pair_filter lp skip;
    Ret (MkZSet (Some newLp) (skiplist_ z) (isListpack z), Z.of_nat (length toRemove))
  else
    ss ← must (skiplist_ z);
    '(ss', n) ← SortedSet.RemoveRange ss min max;
    Ret (MkZSet (listpack z) (Some ss') (isListpack z), n).

Definition RemoveByRank z (start stop : Z) : res (ZSet * Z) :=
  if isListpack z then
    entries ← collectSorted z;
    lp ← must (listpack z);
    let n := Z.of_nat (length entries) in
    let start := if start <? 0 then 0 else start in
    let stop := if n <? stop then n else stop in
    if stop <=? start then Ret (z, 0)
    else
      l ← pick entries start stop (λ i, i);
      let removeSet := remove_set l in
      newLp ← pair_filter lp (drops removeSet);
      Ret (MkZSet (Some newLp) (skiplist_ z) (isListpack z), Z.of_nat (size removeSet))
  else
    ss ← must (skiplist_ z);
    '(ss', n) ← SortedSet.RemoveByRank ss start stop;
    Ret (MkZSet (listpack z) (Some ss') (isListpack z), n).

(** [make] with a negative capacity panics. *)
Definition PopMin z (count : Z) : res (ZSet * option (list Element)) :=
  if isListpack z then
    entries ← collectSorted z;
    lp ← must (listpack z);
    let count := if Z.of_nat (length entries) <? count then Z.of_nat (length entries) else count in
    if count <? 0 then Panic
    else
      result ← pick entries 0 count (λ i, i);
      let removeSet := remove_set result in
      newLp ← pair_filter lp (drops removeSet);
      Ret (MkZSet (Some newLp) (skiplist_ z) (isListpack z), Some result)
  else
    ss ← must (skiplist_ z);
    '(ss', l) ← SortedSet.PopMin ss count;
    Ret (MkZSet (listpack z) (Some ss') (isListpack z), l).

Definition ForEachByRank {A} z (start stop : Z) (desc : bool) (fn : A → Element → A * bool) (st : A) : res A :=
  if isListpack z then
    entries ← collectSorted z;
    let n := Z.of_nat (length entries) in
    if (start <? 0) || (n <=? start) then Ret st
    else
      let stop := if n <? stop then n else stop in
      if stop <=? start then Ret st
      else
        for_loop (Z.to_nat (stop - start)) start 1 (λ s i,
          let idx := if desc then n - 1 - i else i in
          if idx <? 0 then Panic
          else e ← must (entries !! Z.to_nat idx); Ret (fn s e)) st
  else ss ← must (skiplist_ z); SortedSet.ForEachByRank ss start stop desc fn st.

(** [ord] is the order in which the map of a skiplist-encoded set is traversed. *)
Definition ZSetScan z (ord : list bytes) (compile : bytes → option (bytes → bool)) (FormatFloat10 : Z → bytes)
    (cursor count : Z) (pattern : bytes) : res (list bytes * Z) :=
  if isListpack z then
    lp ← must (listpack z);
    match compile pattern with
    | None => Ret ([], -1)
    | Some matchKey =>
        result ← lp_Range lp (λ result i val,
          if Z.rem i 2 =? 0 then
            match val with
            | VStr member =>
                if bytes_eqb pattern (str "*") || matchKey member then
                  '(scoreVal, ok) ← lp_Get lp (i + 1);
                  Ret ((result ++ [member]) ++ (if ok : bool then match scoreVal with VStr s => [s] | _ => [] end else []), true)
                else Ret (result, true)
            | _ => Ret (result, true)
            end
          else Ret (result, true)) [];
        Ret (result, 0)
    end
  else ss ← must (skiplist_ z); Ret (SortedSet.ZSetScan ss ord compile FormatFloat10 cursor count pattern).
End ops.
