(* ===== verification/ObjZSetSpec.v ===== *)
(** * Sorted-set objects: specification

    Both encodings of a sorted-set object stand for one sorted list of
    elements.  The float printer and parser are arguments; what is assumed of
    them is that the shortest decimal of a number reads back as that number. *)

From stdpp Require Import base gmap list strings sorting.
From Stdlib Require Import ZArith Lia.
From S2P Require Import Prelude Float64 Border Listpack Pairs ObjString SkipList SkipListSpec SortedSet SortedSetSpec SortedSetThm ObjZSet.

Local Open Scope Z_scope.

(** A number other than negative zero. *)
Definition score_ok (s : Z) : Prop := 0 <= s < 2 ^ 64 ∧ fnan s = false ∧ s ≠ 2 ^ 63.

(** On such numbers the order key determines the bits. *)
Lemma fmag_bits s : 0 <= s < 2 ^ 64 → s = fmag s + (if Z.testbit s 63 then 2 ^ 63 else 0).
Proof.
  intros Hs. unfold fmag. change (2 ^ 63 - 1) with (Z.ones 63). rewrite Z.land_ones by lia.
  rewrite (Z.div_mod s (2 ^ 63)) at 1 by lia. rewrite Z.testbit_eqb by lia.
  assert (H : s / 2 ^ 63 = 0 ∨ s / 2 ^ 63 = 1).
  { assert (0 <= s / 2 ^ 63) by (apply Z.div_pos; lia). assert (s / 2 ^ 63 < 2) by (apply Z.div_lt_upper_bound; lia). lia. }
  destruct H as [-> | ->]; [change (0 mod 2 =? 1) with false|change (1 mod 2 =? 1) with true]; lia.
Qed.

Lemma fmag_nonneg s : 0 <= s < 2 ^ 64 → 0 <= fmag s.
Proof. intros Hs. unfold fmag. apply Z.land_nonneg. lia. Qed.

Lemma fkey_inj a b : score_ok a → score_ok b → fkey a = fkey b → a = b.
Proof.
  intros (Ha & _ & Ha0) (Hb & _ & Hb0) E. pose proof (fmag_bits a Ha) as Ea. pose proof (fmag_bits b Hb) as Eb.
  pose proof (fmag_nonneg a Ha). pose proof (fmag_nonneg b Hb).
  unfold fkey in E. destruct (Z.testbit a 63), (Z.testbit b 63); lia.
Qed.

Lemma score_ok_num s : score_ok s → fnan s = false.
Proof. intros H. apply H. Qed.

(** ** Sorting *)

Lemma entry_less_elt a b : num a → num b → entry_less a b = true ↔ elt a b.
Proof.
  unfold num, entry_less, elt. intros Ha Hb. rewrite feq_key, flt_key by done.
  destruct (decide (fkey (Score a) = fkey (Score b))) as [E|E].
  - rewrite bool_decide_true by done. cbn. split; [auto|]. intros [?|[_ ?]]; [lia|done].
  - rewrite bool_decide_false by done. cbn. rewrite bool_decide_eq_true. split; [auto|]. intros [?|[? _]]; [done|lia].
Qed.

Lemma insert_by_perm {A} (less : A → A → bool) e l : insert_by less e l ≡ₚ e :: l.
Proof.
  induction l as [|a l IH]; cbn; [done|]. destruct (less a e); [|done]. rewrite IH. apply Permutation_swap.
Qed.

Lemma sort_Slice_perm {A} (less : A → A → bool) l : sort_Slice less l ≡ₚ l.
Proof. induction l as [|a l IH]; cbn; [done|]. by rewrite insert_by_perm, IH. Qed.

Lemma insert_by_sorted e l :
  sorted l → num e → Member e ∉ Member <$> l → sorted (insert_by entry_less e l).
Proof.
  intros Hs He Hm.
  assert (Hnum : ∀ a, a ∈ insert_by entry_less e l → num a).
  { intros a. rewrite insert_by_perm. intros [->|Ha]%elem_of_cons; [done|]. by eapply sorted_num. }
  split; [|by apply Forall_forall]. clear Hnum. induction l as [|a l IH]; cbn; [by repeat constructor|].
  destruct Hs as [[Ha Hl]%StronglySorted_cons [Hna Hn]%Forall_cons]. cbn in Hm. apply not_elem_of_cons in Hm as [Hma Hm].
  destruct (entry_less a e) eqn:E.
  - apply entry_less_elt in E; [|done|done]. apply StronglySorted_cons. split; [|apply IH; by try split].
    rewrite Forall_forall in *. intros b. rewrite insert_by_perm. intros [->|Hb]%elem_of_cons; [done|by apply Ha].
  - assert (Hea : elt e a).
    { destruct (elt_total e a) as [H|[[_ H]|H]]; [done|done|]. apply entry_less_elt in H; [congruence|done|done]. }
    apply StronglySorted_cons. split; [|by apply StronglySorted_cons]. constructor; [done|].
    rewrite Forall_forall in *. intros b Hb. etrans; [exact Hea|by apply Ha].
Qed.

Lemma sort_Slice_sorted l : Forall num l → NoDup (Member <$> l) → sorted (sort_Slice entry_less l).
Proof.
  induction l as [|a l IH]; intros Hn Hd; cbn; [by repeat constructor|].
  apply Forall_cons in Hn as [Ha Hn]. cbn in Hd. apply NoDup_cons in Hd as [Hm Hd].
  apply insert_by_sorted; [by apply IH|done|].
  change (Member a ∉ Member <$> sort_Slice entry_less l). by rewrite sort_Slice_perm.
Qed.

Lemma sorted_unique l1 l2 : sorted l1 → sorted l2 → l1 ≡ₚ l2 → l1 = l2.
Proof.
  intros [H1 _] [H2 _] Hp. apply (StronglySorted_unique_strong elt); [|done..].
  intros a b _ _ Hab Hba. by destruct (elt_asym a b).
Qed.

Lemma sort_Slice_unique us es : us ≡ₚ es → sorted es → NoDup (Member <$> es) → sort_Slice entry_less us = es.
Proof.
  intros Hp Hs Hd. apply sorted_unique; [|done|by rewrite sort_Slice_perm].
  apply sort_Slice_sorted; rewrite Hp; [apply Hs|done].
Qed.

(** ** Adding, in terms of the elements *)

Definition scores_ok (es : list Element) : Prop := Forall (λ e, score_ok (Score e)) es.

Lemma zdel_perm m es a : NoDup (Member <$> es) → a ∈ es → Member a = m → es ≡ₚ a :: zdel m es.
Proof.
  intros Hd [r Hr]%list_elem_of_lookup <-. rewrite <- (zdel_at es r a Hd Hr).
  rewrite Permutation_middle. by rewrite take_drop_middle.
Qed.

Lemma zadd_perm m s es :
  NoDup (Member <$> es) → scores_ok es → score_ok s → zadd m s es ≡ₚ MkElement m s :: zdel m es.
Proof.
  intros Hd Hok Hs. unfold zadd. destruct (zfind m es) as [a|] eqn:E.
  - apply zfind_Some in E as [Ha Hm]; [|done]. pose proof (proj1 (Forall_forall _ _) Hok a Ha) as Hsa. cbn in Hsa.
    rewrite feq_key by (by apply score_ok_num). case_bool_decide as Hk; [|apply zins_perm].
    assert (s = Score a) as -> by (by apply fkey_inj). rewrite (zdel_perm m es a Hd Ha Hm) at 1.
    by destruct a; cbn in *; subst.
  - rewrite (zdel_absent m es E). apply zins_perm.
Qed.

Lemma zadd_ok m s es :
  sorted es → NoDup (Member <$> es) → scores_ok es → score_ok s →
  sorted (zadd m s es) ∧ NoDup (Member <$> zadd m s es) ∧ scores_ok (zadd m s es).
Proof.
  intros Hs Hd Hok Hsc. pose proof (zadd_perm m s es Hd Hok Hsc) as Hp.
  assert (Hd' : NoDup (Member <$> zadd m s es)).
  { rewrite Hp. cbn. apply NoDup_cons. split; [|by apply NoDup_fmap_filter].
    intros (a & E & [_ Ha]%zdel_elem)%list_elem_of_fmap. done. }
  split_and!; [|done|].
  - unfold zadd. destruct (zfind m es) as [a|] eqn:E.
    + destruct (feq s (Score a)); [done|]. apply zins_sorted; [by apply sorted_filter|apply Hsc|].
      intros b [_ Hb]%zdel_elem [_ H]. done.
    + apply zins_sorted; [done|apply Hsc|]. intros b Hb [_ H]. cbn in H. apply zfind_None in E. apply E.
      rewrite <- H. by apply list_elem_of_fmap_2.
  - unfold scores_ok. rewrite Hp. constructor; [done|]. apply Forall_forall. intros b [Hb _]%zdel_elem.
    by apply (proj1 (Forall_forall _ _) Hok).
Qed.

(** ** The map of a sorted set *)

(** The scores in the map are numbers other than negative zero, too. *)
Definition dict_ok (ss : SortedSet) : Prop := map_Forall (λ _ e, score_ok (Score e)) (dict ss).

Lemma dict_ok_make : dict_ok Make.
Proof. apply map_Forall_empty. Qed.
Lemma dict_ok_sub ss ss' : dict ss' ⊆ dict ss → dict_ok ss → dict_ok ss'.
Proof. intros Hs Hd m e He. eapply Hd, lookup_weaken; done. Qed.
Lemma forget_sub d l : forget d l ⊆ d.
Proof.
  revert d. induction l as [|e l IH]; intros d; [done|]. cbn. etrans; [apply IH|]. apply delete_subseteq.
Qed.

Lemma dict_Add ss m s rnd ss' b : SortedSet.Add ss m s rnd = Ret (ss', b) → score_ok s → dict_ok ss → dict_ok ss'.
Proof.
  intros E Hs Hd. assert (Hi : dict ss' = <[m := MkElement m s]> (dict ss)).
  { unfold SortedSet.Add in E. repeat (case_match; simplify_eq/=; try done).
    - destruct (remove _ _ _) as [[? ?]| |]; [|done..]. cbn in E. destruct (insert _ _ _ _); [|done..]. by simplify_eq/=.
    - destruct (insert _ _ _ _); [|done..]. by simplify_eq/=. }
  unfold dict_ok. rewrite Hi. by apply map_Forall_insert_2.
Qed.
Lemma dict_Remove ss m ss' b : SortedSet.Remove ss m = Ret (ss', b) → dict_ok ss → dict_ok ss'.
Proof.
  unfold SortedSet.Remove. intros E. apply dict_ok_sub. case_match; [|by simplify_eq].
  destruct (remove _ _ _) as [[? ?]| |]; [|done..]. simplify_eq/=. apply delete_subseteq.
Qed.
Lemma dict_RemoveRange ss min max ss' n : SortedSet.RemoveRange ss min max = Ret (ss', n) → dict_ok ss → dict_ok ss'.
Proof.
  unfold SortedSet.RemoveRange. intros E. apply dict_ok_sub. destruct (SkipList.RemoveRange _ _ _ _) as [[? ?]| |]; [|done..].
  simplify_eq/=. apply forget_sub.
Qed.
Lemma dict_RemoveByRank ss a b ss' n : SortedSet.RemoveByRank ss a b = Ret (ss', n) → dict_ok ss → dict_ok ss'.
Proof.
  unfold SortedSet.RemoveByRank. intros E. apply dict_ok_sub. destruct (RemoveRangeByRank _ _ _) as [[? ?]| |]; [|done..].
  simplify_eq/=. apply forget_sub.
Qed.
Lemma dict_PopMin ss n ss' l : SortedSet.PopMin ss n = Ret (ss', l) → dict_ok ss → dict_ok ss'.
Proof.
  unfold SortedSet.PopMin. intros E. apply dict_ok_sub. destruct (getFirstInRange _ _ _) as [[x|]| |]; [|by simplify_eq/=|done..].
  cbn [mbind res_bind] in E. destruct (get_node _ _) as [nd| |]; [|done..]. cbn [mbind res_bind] in E.
  destruct (SkipList.RemoveRange _ _ _ _) as [[? ?]| |]; [|done..]. simplify_eq/=. apply forget_sub.
Qed.

(** Together with the list the map is determined by the bits. *)
Lemma dict_find ss es m : ss_ok ss es → dict_ok ss → scores_ok es → Score <$> SortedSet.Get ss m = Score <$> zfind m es.
Proof.
  intros Hss Hd Hsc. pose proof (ss_Get_spec ss es m Hss) as E. destruct (SortedSet.Get ss m) as [e|] eqn:Eg, (zfind m es) as [a|] eqn:Ea; try done.
  cbn in *. injection E as E. f_equal. apply fkey_inj; [by eapply Hd| |done]. apply zfind_Some in Ea as [Ha _]; [|apply Hss].
  by apply (proj1 (Forall_forall _ _) Hsc).
Qed.

(** ** Representation *)

Section spec.
Context (T : EncodingThresholds) (formatFloat : Z → bytes) (parseFloat : bytes → option Z).

(** [strconv.FormatFloat] with precision -1 prints what [ParseFloat] reads back. *)
Hypothesis format_parse : ∀ s, score_ok s → parseFloat (formatFloat s) = Some s.
Hypothesis format_small : ∀ s, score_ok s → small (formatFloat s).

Definition text (e : Element) : bytes * bytes := (Member e, formatFloat (Score e)).

(** The limits of the compact form. *)
Definition zfits (es : list Element) : Prop :=
  Z.of_nat (length es) <= Z.max 0 (ZSetMaxListpackEntries T) ∧
  Forall (λ e, Z.of_nat (length (Member e)) <= ZSetMaxListpackValue T) es.

Definition z_rep (z : ZSet) (es : list Element) : Prop :=
  if isListpack z then ∃ lp us, listpack z = Some lp ∧ pairs_rep lp (text <$> us) ∧ us ≡ₚ es ∧ zfits es
  else ∃ ss, skiplist_ z = Some ss ∧ ss_ok ss es ∧ dict_ok ss.

Record z_ok (z : ZSet) (es : list Element) : Prop := {
  zok_rep : z_rep z es;
  zok_sorted : sorted es;
  zok_nodup : NoDup (Member <$> es);
  zok_scores : scores_ok es
}.

Lemma z_ok_new : z_ok NewZSet [].
Proof using. split; [|by repeat constructor|constructor|constructor]. exists NewListpack, [].
  split_and!; [done|apply pairs_new|done|]. split; [cbn; lia|constructor]. Qed.

Lemma text_keys us : (text <$> us).*1 = Member <$> us.
Proof using. by rewrite <- list_fmap_compose. Qed.

Lemma text_filter skip us :
  List.filter (λ p, negb (skip p.1)) (text <$> us) = text <$> filter (λ e, skip (Member e) = false) us.
Proof using.
  induction us as [|a us IH]; [done|]. cbn [fmap list_fmap List.filter]. rewrite filter_bool_cons. cbn [text fst].
  destruct (skip (Member a)); cbn [negb Bool.eqb]; [done|]. cbn. by rewrite <- IH.
Qed.

(** The compact form: a permutation of the elements, as texts. *)
Lemma z_listpack z es :
  z_ok z es → isListpack z = true →
  ∃ lp us o, z = MkZSet (Some lp) o true ∧ pairs_rep lp (text <$> us) ∧ us ≡ₚ es ∧ scores_ok us ∧ zfits es.
Proof using.
  intros [Hr _ _ Hs] E. unfold z_rep in Hr. rewrite E in Hr. destruct Hr as (lp & us & H1 & H2 & H3 & H4). exists lp, us, (skiplist_ z).
  split_and!; [destruct z; cbn in *; by subst|done|done| |done]. unfold scores_ok. by rewrite H3.
Qed.

Lemma z_skiplist z es :
  z_ok z es → isListpack z = false → ∃ ss o, z = MkZSet o (Some ss) false ∧ ss_ok ss es ∧ dict_ok ss.
Proof using.
  intros [Hr _ _ _] E. unfold z_rep in Hr. rewrite E in Hr. destruct Hr as (ss & H1 & H2 & H3). exists ss, (listpack z).
  split; [destruct z; cbn in *; by subst|done].
Qed.

Lemma z_ok_listpack lp us es o :
  pairs_rep lp (text <$> us) → us ≡ₚ es → sorted es → NoDup (Member <$> es) → scores_ok es → zfits es →
  z_ok (MkZSet (Some lp) o true) es.
Proof using. intros. split; [|done..]. exists lp, us. done. Qed.

Lemma z_ok_skiplist ss es o : ss_ok ss es → dict_ok ss → scores_ok es → z_ok (MkZSet o (Some ss) false) es.
Proof using. intros H Hd Hs. split; [exists ss; done|apply H|apply H|done]. Qed.

Lemma zfits_filter (Q : Element → Prop) `{!∀ e, Decision (Q e)} es : zfits es → zfits (filter Q es).
Proof using.
  intros [H1 H2]. split; [pose proof (length_filter Q es); lia|]. apply Forall_forall. intros e [_ He]%list_elem_of_filter.
  by apply (proj1 (Forall_forall _ _) H2).
Qed.

(** What a filter of the pairs leaves. *)
Lemma z_ok_filter lp us es o skip :
  pairs_rep lp (List.filter (λ p, negb (skip p.1)) (text <$> us)) → us ≡ₚ es → sorted es → NoDup (Member <$> es) → scores_ok es → zfits es →
  z_ok (MkZSet (Some lp) o true) (filter (λ e, skip (Member e) = false) es).
Proof using.
  intros Hlp Hp Hs Hd Hok Hfit. rewrite text_filter in Hlp. eapply z_ok_listpack; [exact Hlp|by rewrite Hp| | | |by apply zfits_filter].
  - by apply sorted_filter.
  - by apply NoDup_fmap_filter.
  - apply Forall_forall. intros e [_ He]%list_elem_of_filter. by apply (proj1 (Forall_forall _ _) Hok).
Qed.

(** ** Reading the pairs *)

Fixpoint consume_pairs {A} (fn : A → bytes → Z → A * bool) (us : list Element) (st : A) : A :=
  match us with
  | [] => st
  | e :: us' => let '(st', go) := fn st (Member e) (Score e) in if go : bool then consume_pairs fn us' st' else st'
  end.

Lemma range_each {A} (fn : A → bytes → Z → A * bool) us i st m0 :
  0 <= i → scores_ok us →
  ∃ m, range_spec (each_pair parseFloat fn) (2 * i) (flat (text <$> us)) (st, m0) = Ret (consume_pairs fn us st, m).
Proof using format_parse.
  intros Hi Hs. revert i st m0 Hi. induction us as [|e us IH]; intros i st m0 Hi; [by exists m0|].
  apply Forall_cons in Hs as [He Hs]. cbn [fmap list_fmap consume_pairs]. unfold text at 1. rewrite range_pair.
  cbn [each_pair]. rewrite rem_even by done. cbn [mbind res_bind Z.eqb each_pair]. rewrite rem_odd by done.
  cbn [mbind res_bind Z.eqb]. rewrite format_parse by done. destruct (fn st (Member e) (Score e)) as [st' []]; cbn [mbind res_bind]; [|eauto].
  replace (2 * i + 2) with (2 * (i + 1)) by lia. apply IH; [done|lia].
Qed.

Lemma consume_collect us acc :
  consume_pairs (λ entries member score, (entries ++ [MkElement member score], true)) us acc = acc ++ us.
Proof using.
  revert acc. induction us as [|e us IH]; intros acc; cbn; [by rewrite app_nil_r|].
  rewrite IH, <- app_assoc. by destruct e.
Qed.

Lemma collectSorted_spec z es : z_ok z es → isListpack z = true → collectSorted parseFloat z = Ret es.
Proof using format_parse.
  intros Hok E. destruct (z_listpack z es Hok E) as (lp & us & o & -> & Hlp & Hp & Hs & _). unfold collectSorted.
  cbn [listpack must mbind res_bind]. rewrite (lp_Range_spec _ _ (flat (text <$> us))) by exact Hlp.
  destruct (range_each (λ entries member score, (entries ++ [MkElement member score], true)) us 0 [] []) as [m E']; [lia|done|].
  change (2 * 0) with 0 in E'. rewrite E'. cbn [mbind res_bind]. rewrite consume_collect. cbn [app]. f_equal.
  apply sort_Slice_unique; [done|apply Hok|apply Hok].
Qed.

(** ** Conversion and insertion *)

Lemma convert_loop lp us qs rs rnds ss es_q :
  pairs_rep lp (text <$> us) → us = qs ++ rs → NoDup (Member <$> us) → scores_ok us → ss_ok ss es_q → dict_ok ss → es_q ≡ₚ qs →
  ∃ ss', range_spec (λ ss i val,
      if Z.rem i 2 =? 0 then
        match val with
        | VStr member =>
            o ← score_at parseFloat lp i;
            match o with
            | Some score => '(ss', _) ← SortedSet.Add ss member score (rnds (Z.to_nat i)); Ret (ss', true)
            | None => Ret (ss, true)
            end
        | _ => Ret (ss, true)
        end
      else Ret (ss, true)) (2 * Z.of_nat (length qs)) (flat (text <$> rs)) ss = Ret ss' ∧
    ∃ es', ss_ok ss' es' ∧ es' ≡ₚ us ∧ dict_ok ss'.
Proof using format_parse.
  intros Hlp Hus Hd Hsc. revert qs ss es_q Hus. induction rs as [|e rs IH]; intros qs ss es_q Hus Hok Hdk Hp.
  { exists ss. split; [done|]. exists es_q. rewrite app_nil_r in Hus. by subst. }
  assert (He : us !! length qs = Some e) by (subst; by apply list_lookup_middle).
  assert (Htxt : (text <$> us) !! length qs = Some (Member e, formatFloat (Score e))) by (by rewrite list_lookup_fmap, He).
  destruct (pair_get_key _ _ _ _ _ Hlp Htxt) as [_ Hv]. pose proof (Forall_lookup_1 _ _ _ _ Hsc He) as Hse. cbn in Hse.
  cbn [fmap list_fmap]. unfold text at 1. rewrite range_pair, rem_even, rem_odd by lia. cbn [mbind res_bind Z.eqb].
  unfold score_at. rewrite Hv. cbn [mbind res_bind]. rewrite format_parse by done.
  destruct (Add_spec ss es_q (Member e) (Score e) (rnds (Z.to_nat (2 * Z.of_nat (length qs)))) Hok) as (ss1 & E1 & Hok1); [apply Hse|].
  pose proof (dict_Add _ _ _ _ _ _ E1 Hse Hdk) as Hdk1. rewrite E1. cbn [mbind res_bind].
  assert (Hnew : zfind (Member e) es_q = None).
  { apply zfind_None. rewrite Hp. intros Hin. rewrite Hus, fmap_app in Hd. apply NoDup_app in Hd as (_ & Hd & _).
    apply (Hd _ Hin). cbn. left. }
  replace (2 * Z.of_nat (length qs) + 2) with (2 * Z.of_nat (length (qs ++ [e]))) by (rewrite length_app; cbn; lia).
  apply (IH (qs ++ [e]) ss1 (zadd (Member e) (Score e) es_q)).
  - by rewrite Hus, <- app_assoc.
  - done.
  - done.
  - unfold zadd. rewrite Hnew, zins_perm, Hp. destruct e; cbn. by rewrite Permutation_app_comm.
Qed.

Lemma convertToSkiplist_spec lp us es o rnds :
  pairs_rep lp (text <$> us) → us ≡ₚ es → sorted es → NoDup (Member <$> es) → scores_ok es →
  ∃ ss, convertToSkiplist parseFloat (MkZSet (Some lp) o true) rnds = Ret (MkZSet None (Some ss) false) ∧ ss_ok ss es ∧ dict_ok ss.
Proof using format_parse.
  intros Hlp Hp Hs Hd Hok. unfold convertToSkiplist. cbn [listpack must mbind res_bind].
  rewrite (lp_Range_spec _ _ (flat (text <$> us))) by exact Hlp.
  destruct (convert_loop lp us [] us rnds Make [] Hlp eq_refl) as (ss & E & es' & Hss & Hp' & Hdict); [by rewrite Hp| |apply ss_ok_make|apply dict_ok_make|done|].
  { unfold scores_ok. by rewrite Hp. }
  change (2 * Z.of_nat (length [])) with 0 in E. rewrite E. cbn [mbind res_bind]. exists ss. split; [done|].
  assert (es' = es) as ->; [|by split]. apply sorted_unique; [apply Hss|done|by rewrite Hp'].
Qed.

Lemma upd_text m s (us : list Element) : upd m (formatFloat s) <$> (text <$> us) = text <$> ((λ e, if decide (Member e = m) then MkElement m s else e) <$> us).
Proof using.
  rewrite <- !list_fmap_compose. apply list_fmap_ext. intros i e _. cbn. unfold upd, text, bytes_eqb. cbn.
  case_bool_decide as E; [rewrite decide_True by done|by rewrite decide_False]. by rewrite E.
Qed.

Lemma update_perm m s (us : list Element) :
  NoDup (Member <$> us) → m ∈ Member <$> us →
  (λ e, if decide (Member e = m) then MkElement m s else e) <$> us ≡ₚ MkElement m s :: zdel m us.
Proof using.
  intros Hd Hin. induction us as [|a us IH]; [by apply not_elem_of_nil in Hin|]. cbn in Hd. apply NoDup_cons in Hd as [Ha Hd].
  unfold zdel. rewrite filter_cons. cbn [fmap list_fmap]. destruct (decide (Member a = m)) as [E|E].
  - rewrite (decide_False (P := Member a ≠ m)) by tauto. constructor. rewrite (filter_all _ us).
    + rewrite (list_fmap_ext _ id); [by rewrite list_fmap_id|]. intros i b Hb. cbn. rewrite decide_False; [done|].
      intros E'. apply Ha. rewrite E, <- E'. by eapply list_elem_of_fmap_2, list_elem_of_lookup_2.
    + intros b Hb E'. apply Ha. rewrite E, <- E'. by apply list_elem_of_fmap_2.
  - rewrite (decide_True (P := Member a ≠ m)) by done. rewrite IH; [apply Permutation_swap|done|].
    cbn in Hin. by apply elem_of_cons in Hin as [?|?].
Qed.

Lemma found_key m us es : us ≡ₚ es → bool_decide (m ∈ (text <$> us).*1) = negb (bool_decide (zfind m es = None)).
Proof using.
  intros Hp. rewrite text_keys. rewrite <- bool_decide_not. apply bool_decide_ext. rewrite zfind_None, Hp.
  destruct (decide (m ∈ Member <$> es)); tauto.
Qed.

Lemma Add_skiplist_spec ss es o m s rnd :
  ss_ok ss es → dict_ok ss → scores_ok es → score_ok s →
  ∃ z', add_skiplist (MkZSet o (Some ss) false) m s rnd = Ret (z', bool_decide (zfind m es = None)) ∧ z_ok z' (zadd m s es).
Proof using.
  intros Hss Hdk Hok Hs. unfold add_skiplist. cbn [skiplist_ must mbind res_bind].
  destruct (Add_spec ss es m s rnd Hss) as (ss' & E & Hss'); [apply Hs|]. pose proof (dict_Add _ _ _ _ _ _ E Hs Hdk) as Hdk'. rewrite E. cbn [mbind res_bind].
  eexists. split; [done|]. apply z_ok_skiplist; [done..|]. by apply zadd_ok; [apply Hss|apply Hss|..].
Qed.

(** A new score for a member that is there. *)
Lemma zfits_replace a s es :
  zfits es → a ∈ es → NoDup (Member <$> es) → zadd (Member a) s es ≡ₚ MkElement (Member a) s :: zdel (Member a) es →
  zfits (zadd (Member a) s es).
Proof using.
  intros [H1 H2] Ha Hd Hp. pose proof (zdel_perm (Member a) es a Hd Ha eq_refl) as Hq.
  split; [rewrite Hp; rewrite Hq in H1; cbn in *; lia|]. rewrite Hp. rewrite Hq in H2. apply Forall_cons in H2 as [H2 H3].
  by constructor.
Qed.

Lemma ZAdd_spec z es m s rnds :
  z_ok z es → score_ok s → small m →
  ∃ z', Add T formatFloat parseFloat z m s rnds = Ret (z', bool_decide (zfind m es = None)) ∧ z_ok z' (zadd m s es).
Proof using format_parse format_small.
  intros Hok Hs Hm. pose proof Hok as [_ Hso Hnd Hsc]. destruct (zadd_ok m s es Hso Hnd Hsc Hs) as (Hso' & Hnd' & Hsc').
  pose proof (zadd_perm m s es Hnd Hsc Hs) as Hzp. unfold Add. destruct (isListpack z) eqn:El.
  2:{ destruct (z_skiplist z es Hok El) as (ss & o & -> & Hss & Hdict). cbn [isListpack] in *. by apply Add_skiplist_spec. }
  destruct (z_listpack z es Hok El) as (lp & us & o & -> & Hlp & Hp & Hsu & Hfit). cbn [listpack must mbind res_bind skiplist_].
  rewrite (pair_found_spec lp (text <$> us) m Hlp). cbn [mbind res_bind]. rewrite (found_key m us es Hp).
  case_bool_decide as Hf; cbn [negb].
  - destruct (Z.ltb_spec (ZSetMaxListpackValue T) (Z.of_nat (length m))) as [Hl|Hl].
    + destruct (convertToSkiplist_spec lp us es o rnds) as (ss & -> & Hss & Hdict); [done..|]. cbn [mbind res_bind].
      destruct (Add_skiplist_spec ss es None m s (rnds (lp_num lp)) Hss Hdict Hsc Hs) as (z' & E & Hz).
      rewrite (bool_decide_true (zfind m es = None)) in E by done. eauto.
    + assert (Hlp' : pairs_rep (AppendStr (AppendStr lp m) (formatFloat s)) (text <$> us ++ [MkElement m s])).
      { rewrite fmap_app. apply pairs_append; [done|done|by apply format_small]. }
      assert (Hp' : us ++ [MkElement m s] ≡ₚ zadd m s es).
      { rewrite Hzp, (zdel_absent m es Hf), Hp. by rewrite Permutation_app_comm. }
      destruct (Z.ltb_spec (ZSetMaxListpackEntries T) (Z.quot (lp_Len (AppendStr (AppendStr lp m) (formatFloat s))) 2)) as [Hn|Hn].
      * destruct (convertToSkiplist_spec _ _ _ o rnds Hlp' Hp') as (ss & -> & Hss & Hdict); [done..|]. cbn [mbind res_bind].
        eexists. split; [done|]. by apply z_ok_skiplist.
      * cbn [mbind res_bind]. eexists. split; [done|]. rewrite (pairs_len _ _ Hlp'), length_fmap, Hp' in Hn.
        eapply z_ok_listpack; [done..|]. split; [lia|]. rewrite Hzp. constructor; [done|].
        apply Forall_forall. intros e [He _]%zdel_elem. by apply (proj1 (Forall_forall _ _) (proj2 Hfit)).
  - unfold rebuildListpackWithScore. cbn [listpack must mbind res_bind skiplist_ isListpack].
    destruct (pair_update_spec lp (text <$> us) m (formatFloat s) Hlp) as (lp' & -> & Hlp'); [by apply format_small|].
    cbn [mbind res_bind]. eexists. split; [done|]. rewrite upd_text in Hlp'. eapply z_ok_listpack; [exact Hlp'| |done|done|done|].
    { rewrite Hzp. rewrite update_perm; [|by rewrite Hp|].
      - constructor. unfold zdel. by rewrite Hp.
      - rewrite Hp. rewrite zfind_None in Hf. destruct (decide (m ∈ Member <$> es)); tauto. }
    destruct (zfind m es) as [a|] eqn:Ea; [|done]. apply zfind_Some in Ea as [Ha <-]; [|done]. apply (zfits_replace a); done.
Qed.

(** ** Lookup and deletion *)

Lemma zfind_list us m a : NoDup (Member <$> us) → a ∈ us → Member a = m → ∀ es, us ≡ₚ es → zfind m es = Some a.
Proof using. intros Hd Ha Hm es Hp. apply zfind_Some; [by rewrite <- Hp|]. split; [by rewrite <- Hp|done]. Qed.

Lemma Get_listpack_spec z es m : z_ok z es → Get parseFloat z m = Ret (Score <$> zfind m es) ∨ isListpack z = false.
Proof using format_parse.
  intros Hok. destruct (isListpack z) eqn:El; [left|by right].
  destruct (z_listpack z es Hok El) as (lp & us & o & -> & Hlp & Hp & Hsu & Hfit). unfold Get. cbn [isListpack listpack must mbind res_bind].
  pose proof (zok_nodup _ _ Hok) as Hnd. rewrite <- Hp in Hnd.
  match goal with |- context [pair_loop lp ?body ?st] =>
    destruct (pair_loop_inv lp (text <$> us) (λ qs s, s = None ∧ m ∉ qs.*1) (λ s, default None s = Score <$> zfind m es) body st)
      as (r & -> & Hr) end; [done|split; [done|apply not_elem_of_nil]| | |by cbn; rewrite Hr].
  - intros i s k v Hkv [-> Hm]. destruct (pair_get_key _ _ _ _ _ Hlp Hkv) as [-> Hv]. cbn [mbind res_bind negb].
    rewrite list_lookup_fmap in Hkv. destruct (us !! i) as [e|] eqn:He; [|done]. cbn in Hkv. injection Hkv as <- <-.
    unfold bytes_eqb. case_bool_decide as E.
    + rewrite Hv. cbn [mbind res_bind negb]. eexists _, false. split; [done|]. cbn.
      rewrite (zfind_list us m e Hnd (list_elem_of_lookup_2 _ _ _ He) E es Hp). cbn.
      apply format_parse. apply (Forall_lookup_1 _ _ _ _ Hsu He).
    + eexists _, true. split; [done|]. split; [done|]. rewrite fmap_app, elem_of_app. cbn. rewrite list_elem_of_singleton. naive_solver.
  - intros s [-> Hm]. cbn. symmetry. rewrite fmap_None. apply zfind_None. rewrite text_keys, Hp in Hm. done.
Qed.

Lemma ZGet_spec z es m : z_ok z es → Get parseFloat z m = Ret (Score <$> zfind m es).
Proof using format_parse.
  intros Hok. destruct (Get_listpack_spec z es m Hok) as [E|El]; [done|].
  destruct (z_skiplist z es Hok El) as (ss & o & -> & Hss & Hdict). unfold Get. cbn [isListpack skiplist_ must mbind res_bind].
  f_equal. apply dict_find; [done..|apply Hok].
Qed.

Lemma ZRemove_spec z es m :
  z_ok z es → ∃ z', Remove z m = Ret (z', bool_decide (zfind m es ≠ None)) ∧ z_ok z' (zdel m es).
Proof using.
  intros Hok. pose proof Hok as [_ Hso Hnd Hsc]. unfold Remove. destruct (isListpack z) eqn:El.
  - destruct (z_listpack z es Hok El) as (lp & us & o & -> & Hlp & Hp & Hsu & Hfit). cbn [listpack must mbind res_bind skiplist_ isListpack].
    destruct (pair_remove_spec (λ l v, match v with VStr s => AppendStr l s | _ => l end) lp (text <$> us)
      (λ s, bytes_eqb s m) Hlp) as (lp' & -> & Hlp'); [done|]. cbn [mbind res_bind].
    rewrite existsb_key, (found_key m us es Hp). rewrite bool_decide_not. case_bool_decide as Hf; cbn [negb].
    + eexists. split; [done|]. by rewrite (zdel_absent m es Hf).
    + eexists. split; [done|]. apply (z_ok_filter lp' us es o (λ s, bytes_eqb s m)) in Hlp'; [|done..].
      unfold zdel. rewrite (list_filter_iff _ (λ e, bytes_eqb (Member e) m = false)); [done|]. intros e. symmetry. apply bytes_eqb_ne.
  - destruct (z_skiplist z es Hok El) as (ss & o & -> & Hss & Hdict). cbn [skiplist_ must mbind res_bind].
    destruct (ss_Remove_spec ss es m Hss) as (ss' & E & Hss'). pose proof (dict_Remove _ _ _ _ E Hdict) as Hdict'. rewrite E. cbn [mbind res_bind]. eexists. split; [done|].
    apply z_ok_skiplist; [done..|]. apply Forall_forall. intros e [He _]%zdel_elem. by apply (proj1 (Forall_forall _ _) Hsc).
Qed.

Lemma ZLen_spec z es : z_ok z es → Len z = Ret (Z.of_nat (length es)).
Proof using.
  intros Hok. unfold Len. destruct (isListpack z) eqn:El.
  - destruct (z_listpack z es Hok El) as (lp & us & o & -> & Hlp & Hp & Hsu & Hfit). cbn [listpack must mbind res_bind].
    by rewrite (pairs_len lp _ Hlp), length_fmap, Hp.
  - destruct (z_skiplist z es Hok El) as (ss & o & -> & Hss & Hdict). cbn. by rewrite (Len_spec ss es Hss).
Qed.

(** ** Ranks *)

Lemma rank_of_spec m l i : rank_of m l i = match zindex m l with Some r => i + Z.of_nat r | None => -1 end.
Proof using.
  revert i. unfold zindex. induction l as [|e l IH]; intros i; cbn; [done|]. unfold bytes_eqb.
  case_bool_decide as E; [rewrite decide_True by done; cbn; lia|]. rewrite decide_False by done. rewrite IH.
  destruct (list_find (λ a, Member a = m) l) as [[r b]|]; cbn; [lia|done].
Qed.

Lemma zindex_reverse m es :
  NoDup (Member <$> es) → zindex m (reverse es) = (λ r, length es - 1 - r)%nat <$> zindex m es.
Proof using.
  intros Hd. unfold zindex at 2. destruct (list_find (λ a, Member a = m) es) as [[r a]|] eqn:E; cbn.
  - apply list_find_Some in E as (Hr & <- & _). apply zindex_at; [by rewrite reverse_Permutation|].
    pose proof (lookup_lt_Some _ _ _ Hr). rewrite reverse_lookup by lia. rewrite <- Hr. f_equal. lia.
  - unfold zindex. rewrite (proj2 (list_find_None _ _)); [done|]. apply list_find_None in E.
    apply Forall_forall. intros b Hb. rewrite elem_of_reverse in Hb. by apply (proj1 (Forall_forall _ _) E).
Qed.

Lemma ZRank_spec z es m desc :
  z_ok z es → m ≠ [] →
  GetRank parseFloat z m desc = Ret (match zindex m es with
                                     | Some r => if desc then Z.of_nat (length es) - 1 - Z.of_nat r else Z.of_nat r
                                     | None => -1
                                     end).
Proof using format_parse.
  intros Hok Hm. unfold GetRank. destruct (isListpack z) eqn:El.
  - rewrite (collectSorted_spec z es Hok El). cbn [mbind res_bind]. f_equal. rewrite rank_of_spec. destruct desc; [|done].
    rewrite (zindex_reverse m es (zok_nodup _ _ Hok)). destruct (zindex m es) as [r|] eqn:E; [|done]. cbn.
    unfold zindex in E. destruct (list_find _ es) as [[r' b]|] eqn:E'; [|done]. cbn in E. injection E as ->.
    apply list_find_Some in E' as (Hr & _). apply lookup_lt_Some in Hr. lia.
  - destruct (z_skiplist z es Hok El) as (ss & o & -> & Hss & Hdict). cbn. by apply GetRank_spec.
Qed.

Lemma directed_lookup desc (es : list Element) i :
  (i < length es)%nat → directed desc es !! i = es !! (if desc then length es - 1 - i else i)%nat.
Proof using.
  intros Hi. unfold directed. destruct desc; [|done]. rewrite reverse_lookup by done. f_equal. lia.
Qed.

Lemma pick_spec (es : list Element) (a b : nat) (desc : bool) :
  (a <= b <= length es)%nat →
  pick es (Z.of_nat a) (Z.of_nat b) (λ i, if desc then Z.of_nat (length es) - 1 - i else i) =
    Ret (take (b - a) (drop a (directed desc es))).
Proof using.
  intros Hab. unfold pick. replace (Z.to_nat (Z.of_nat b - Z.of_nat a)) with (b - a)%nat by lia.
  match goal with |- for_loop ?n ?i ?st ?body ?x = _ =>
    destruct (for_loop_inv (λ k acc, acc = take k (drop a (directed desc es))) n i st body x) as (r & -> & ->) end; [done| |done].
  intros k acc Hk ->. set (j := if desc then Z.of_nat (length es) - 1 - (Z.of_nat a + 1 * Z.of_nat k) else Z.of_nat a + 1 * Z.of_nat k).
  assert (Hj : j = Z.of_nat (if desc then length es - 1 - (a + k) else (a + k))%nat) by (unfold j; destruct desc; lia).
  rewrite Hj. destruct (Z.ltb_spec (Z.of_nat (if desc then length es - 1 - (a + k) else (a + k))%nat) 0); [lia|].
  rewrite Nat2Z.id, <- directed_lookup by lia.
  destruct (lookup_lt_is_Some_2 (directed desc es) (a + k)) as [e He]; [rewrite length_directed; lia|]. rewrite He.
  cbn [must mbind res_bind]. eexists. split; [done|]. symmetry. apply take_S_r. by rewrite lookup_drop.
Qed.

Lemma ZRangeByRank_spec z es (a b : nat) desc :
  z_ok z es → (a < length es)%nat → (a <= b <= length es)%nat →
  RangeByRank parseFloat z (Z.of_nat a) (Z.of_nat b) desc = Ret (Some <$> take (b - a) (drop a (directed desc es))).
Proof using format_parse.
  intros Hok Ha Hb. unfold RangeByRank. destruct (isListpack z) eqn:El.
  - rewrite (collectSorted_spec z es Hok El). cbn [mbind res_bind].
    destruct (Z.ltb_spec (Z.of_nat a) 0); [lia|]. destruct (Z.leb_spec (Z.of_nat (length es)) (Z.of_nat a)); [lia|]. cbn [orb].
    destruct (Z.ltb_spec (Z.of_nat (length es)) (Z.of_nat b)); [lia|].
    destruct (Z.leb_spec (Z.of_nat b) (Z.of_nat a)).
    + by replace (b - a)%nat with 0%nat by lia.
    + rewrite pick_spec by lia. done.
  - destruct (z_skiplist z es Hok El) as (ss & o & -> & Hss & Hdict). cbn. by apply RangeByRank_spec.
Qed.

(** ** Ranges by border *)

Lemma foldl_filter {B} (f : Element → bool) (g : Element → B) es acc :
  foldl (λ acc e, if f e then acc ++ [g e] else acc) acc es = acc ++ (g <$> filter (λ e, f e = true) es).
Proof using.
  revert acc. induction es as [|e es IH]; intros acc; cbn [foldl]; [by rewrite app_nil_r|]. rewrite IH, filter_bool_cons.
  destruct (f e); cbn; [by rewrite <- app_assoc|done].
Qed.

Lemma foldl_count (f : Element → bool) es n :
  foldl (λ count e, if f e then count + 1 else count) n es = n + Z.of_nat (length (filter (λ e, f e = true) es)).
Proof using.
  revert n. induction es as [|e es IH]; intros n; cbn [foldl]; [rewrite filter_nil; cbn; lia|]. rewrite IH, filter_bool_cons.
  destruct (f e); cbn; lia.
Qed.

Lemma ZCount_spec z es min max :
  z_ok z es → es ≠ [] → cuts min max es →
  RangeCount parseFloat z min max = Ret (Z.of_nat (length (zrange min max es))).
Proof using format_parse.
  intros Hok Hne Hcut. unfold RangeCount. destruct (isListpack z) eqn:El.
  - rewrite (collectSorted_spec z es Hok El). cbn [mbind res_bind]. by rewrite foldl_count.
  - destruct (z_skiplist z es Hok El) as (ss & o & -> & Hss & Hdict). cbn. by apply RangeCount_spec.
Qed.

(** The entries still ahead of the loops of [Range]. *)
Definition ahead (desc : bool) (l : list Element) (i : Z) : list Element :=
  if desc then reverse (take (Z.to_nat (i + 1)) l) else drop (Z.to_nat i) l.

Lemma take_loop_spec fuel min max l limit desc i taken acc :
  Forall (λ e, inr min max e = true) l → (desc = true → i < Z.of_nat (length l)) → (desc = false → 0 <= i) →
  (length (ahead desc l i) < fuel)%nat →
  take_loop fuel min max l limit desc i taken acc = Ret (acc ++ limited limit taken (ahead desc l i)).
Proof using.
  intros Hl. revert i taken acc. induction fuel as [|fuel IH]; intros i taken acc Hd Ha Hf; [lia|]. cbn [take_loop].
  destruct (if desc then 0 <=? i else i <? Z.of_nat (length l)) eqn:Hi; cbn [andb].
  2:{ assert (Hnil : ahead desc l i = []).
      { unfold ahead. destruct desc; zbool; [by replace (Z.to_nat (i + 1)) with 0%nat by lia|]. apply drop_ge. lia. }
      by rewrite Hnil, limited_nil, app_nil_r. }
  assert (Hi' : 0 <= i < Z.of_nat (length l)) by (destruct desc; zbool; naive_solver lia).
  destruct (lookup_lt_is_Some_2 l (Z.to_nat i)) as [e He]; [lia|].
  assert (Hcons : ahead desc l i = e :: ahead desc l (if desc then i - 1 else i + 1)).
  { unfold ahead. destruct desc.
    - replace (Z.to_nat (i + 1)) with (S (Z.to_nat i)) by lia. replace (i - 1 + 1) with i by lia.
      by rewrite (take_S_r _ _ _ He), reverse_snoc.
    - replace (Z.to_nat (i + 1)) with (S (Z.to_nat i)) by lia. by apply drop_S. }
  rewrite Hcons in *. destruct ((limit <? 0) || (taken <? limit)) eqn:Hlim.
  2:{ rewrite limited_done by (by rewrite orb_comm). by rewrite app_nil_r. }
  destruct (Z.ltb_spec i 0); [lia|]. rewrite He. cbn [must mbind res_bind].
  pose proof (Forall_lookup_1 _ _ _ _ Hl He) as Hin. cbn in Hin. unfold inr in Hin. apply andb_true_iff in Hin as [-> ->]. cbn [negb orb].
  rewrite IH; [| | |cbn in Hf; lia].
  - rewrite limited_cons by (by rewrite orb_comm). by rewrite <- app_assoc.
  - intros ->. lia.
  - intros ->. lia.
Qed.

Lemma ZRange_spec z es min max offset limit desc :
  z_ok z es → cuts min max es → isIntersected min max = Ret false →
  zrange min max es = [] ∨ offset < Z.of_nat (length (zrange min max es)) →
  Range parseFloat z min max offset limit desc =
    Ret (if (limit =? 0) || (offset <? 0) then []
         else limited limit 0 (drop (Z.to_nat offset) (directed desc (zrange min max es)))).
Proof using format_parse.
  intros Hok Hcut Hint Hoff. unfold Range. destruct (isListpack z) eqn:El.
  2:{ destruct (z_skiplist z es Hok El) as (ss & o & -> & Hss & Hdict). cbn. by apply ss_Range_spec. }
  rewrite (collectSorted_spec z es Hok El). cbn [mbind res_bind].
  rewrite (foldl_filter (within min max) id). cbn [app]. rewrite list_fmap_id. change (filter (λ e, within min max e = true) es) with (zrange min max es).
  destruct (Z.ltb_spec offset 0) as [Ho|Ho]; [by rewrite orb_true_r|]. rewrite orb_false_r.
  destruct (Z.eqb_spec (Z.of_nat (length (zrange min max es))) 0) as [Hn|Hn].
  { assert (zrange min max es = []) as -> by (apply nil_length_inv; lia). destruct (limit =? 0); [done|].
    replace (directed desc []) with (@nil Element) by (by destruct desc). by rewrite drop_nil, limited_nil. }
  destruct Hoff as [E|Hoff]; [by rewrite E in Hn|].
  assert (Hahead : ahead desc (zrange min max es) (if desc then Z.of_nat (length (zrange min max es)) - 1 - offset else offset) =
    drop (Z.to_nat offset) (directed desc (zrange min max es))).
  { rewrite <- trail_from by lia. unfold ahead, trail. destruct desc; [do 2 f_equal; lia|f_equal; lia]. }
  rewrite take_loop_spec.
  - rewrite Hahead. cbn [app]. destruct (Z.eqb_spec limit 0) as [->|]; [|done]. by rewrite limited_done.
  - apply Forall_forall. by intros e [He _]%list_elem_of_filter.
  - intros ->. lia.
  - intros ->. lia.
  - rewrite Hahead, length_drop, length_directed. lia.
Qed.

(** ** Removing blocks *)

Lemma scores_ok_sub es es' : scores_ok es → (∀ e, e ∈ es' → e ∈ es) → scores_ok es'.
Proof using. unfold scores_ok. rewrite !Forall_forall. auto. Qed.

Lemma elem_take_drop (es : list Element) n e : e ∈ take n es ∨ e ∈ drop n es → e ∈ es.
Proof using. rewrite <- elem_of_app. by rewrite take_drop. Qed.

Lemma filter_members (es B : list Element) (Q : Element → bool) :
  NoDup (Member <$> es) → (∀ e, e ∈ B ↔ e ∈ es ∧ Q e = true) →
  filter (λ e, bool_decide (Member e ∈ Member <$> B) = false) es = filter (λ e, Q e = false) es.
Proof using.
  intros Hd HB.
  assert (Heq : ∀ e, e ∈ es → bool_decide (Member e ∈ Member <$> B) = Q e).
  { intros e He. case_bool_decide as H.
    - apply list_elem_of_fmap in H as (b & E & [Hb HQ]%HB). by rewrite (member_unique es e b Hd He Hb E).
    - destruct (Q e) eqn:E; [|done]. destruct H. apply list_elem_of_fmap_2. by apply HB. }
  clear HB Hd. induction es as [|a es IH]; [done|]. rewrite !filter_bool_cons, (Heq a) by left.
  rewrite IH; [done|]. intros e He. apply Heq. by right.
Qed.

Lemma drop_members_returns lp us skip : pairs_rep lp us → ∃ lp', drop_members lp skip = Ret lp'.
Proof using.
  intros Hlp. unfold drop_members. rewrite (lp_Range_spec _ _ _ _ Hlp).
  rewrite (range_spec_fold (λ newLp i val, match val with
         | VStr s => if Z.rem i 2 =? 0 then if skip s then newLp else AppendStr newLp s else AppendStr newLp s
         | _ => newLp end)). eauto.
Qed.

Lemma ZRemRange_spec z es min max :
  z_ok z es → cuts min max es →
  ∃ z', RemoveRange parseFloat z min max = Ret (z', Z.of_nat (length (zrange min max es))) ∧
    z_ok z' (filter (λ e, inr min max e = false) es).
Proof using format_parse.
  intros Hok Hcut. pose proof Hok as [_ Hso Hnd Hsc]. unfold RemoveRange. destruct (isListpack z) eqn:El.
  - rewrite (collectSorted_spec z es Hok El). destruct (z_listpack z es Hok El) as (lp & us & o & -> & Hlp & Hp & Hsu & Hfit).
    cbn [listpack must mbind res_bind skiplist_ isListpack]. rewrite (foldl_filter (within min max) Member). cbn [app].
    change (filter (λ e, within min max e = true) es) with (zrange min max es). set (skip := λ s : bytes, bool_decide (s ∈ Member <$> zrange min max es)).
    destruct (drop_members_returns lp _ skip Hlp) as [lp0 ->]. cbn [mbind res_bind].
    destruct (pair_filter_spec lp (text <$> us) skip Hlp) as (lp' & -> & Hlp'). cbn [mbind res_bind].
    rewrite length_fmap. eexists. split; [done|]. apply (z_ok_filter lp' us es o skip) in Hlp'; [|done..].
    rewrite <- (filter_members es (zrange min max es) (inr min max)); [done|done|]. intros e. unfold zrange.
    rewrite list_elem_of_filter. tauto.
  - destruct (z_skiplist z es Hok El) as (ss & o & -> & Hss & Hdict). cbn [skiplist_ must mbind res_bind].
    destruct (RemoveRange_spec ss es min max Hss Hcut) as (ss' & E & Hss'). pose proof (dict_RemoveRange _ _ _ _ _ E Hdict) as Hdict'. rewrite E. cbn [mbind res_bind]. eexists. split; [done|].
    apply z_ok_skiplist; [done..|]. eapply scores_ok_sub; [exact Hsc|]. by intros e [_ He]%list_elem_of_filter.
Qed.

(** Dropping a block of positions, in the compact form. *)
Lemma z_ok_block lp us es o A B C :
  pairs_rep lp (List.filter (λ p, negb (drops (remove_set B) p.1)) (text <$> us)) →
  us ≡ₚ es → es = A ++ B ++ C → sorted es → NoDup (Member <$> es) → scores_ok es → zfits es → z_ok (MkZSet (Some lp) o true) (A ++ C).
Proof using.
  intros Hlp Hp Hes Hs Hd Hsc Hfit.
  apply (z_ok_filter lp us es o (drops (remove_set B))) in Hlp; [|done..].
  assert (Hout : ∀ e, e ∈ A ++ C → Member e ∉ Member <$> B).
  { rewrite Hes, !fmap_app in Hd. apply NoDup_app in Hd as (_ & HA & (_ & HC & _)%NoDup_app).
    intros e [He|He]%elem_of_app Hb.
    - apply (HA (Member e)); [by apply list_elem_of_fmap_2|]. apply elem_of_app. by left.
    - apply (HC (Member e) Hb). by apply list_elem_of_fmap_2. }
  replace (A ++ C) with (filter (λ e, drops (remove_set B) (Member e) = false) es); [done|].
  rewrite Hes, !filter_app. rewrite (filter_all _ A), (filter_none _ B), (filter_all _ C); [done| | |].
  - intros e He. apply bool_decide_eq_false. unfold remove_set. rewrite elem_of_list_to_set. apply Hout, elem_of_app. by right.
  - intros e He. rewrite not_false_iff_true. apply bool_decide_eq_true. unfold remove_set. rewrite elem_of_list_to_set. by apply list_elem_of_fmap_2.
  - intros e He. apply bool_decide_eq_false. unfold remove_set. rewrite elem_of_list_to_set. apply Hout, elem_of_app. by left.
Qed.

Lemma block_size es A B C :
  es = A ++ B ++ C → NoDup (Member <$> es) → size (remove_set B) = length B.
Proof using.
  intros -> Hd. rewrite !fmap_app in Hd. apply NoDup_app in Hd as (_ & _ & (Hd & _)%NoDup_app).
  unfold remove_set. by rewrite size_list_to_set, length_fmap.
Qed.

Lemma pick_up es (a b : nat) :
  (a <= b <= length es)%nat → pick es (Z.of_nat a) (Z.of_nat b) (λ i, i) = Ret (take (b - a) (drop a es)).
Proof using. exact (pick_spec es a b false). Qed.

Lemma ZRemByRank_spec z es start stop :
  z_ok z es → 0 <= start < max_i64 → start <= stop < max_i64 →
  let a := Z.to_nat start in
  let b := Z.to_nat stop in
  ∃ z', RemoveByRank parseFloat z start stop = Ret (z', Z.of_nat (length (take (b - a) (drop a es)))) ∧
    z_ok z' (take a es ++ drop b es).
Proof using format_parse.
  intros Hok Ha Hb a b. pose proof Hok as [_ Hso Hnd Hsc]. unfold RemoveByRank. destruct (isListpack z) eqn:El.
  2:{ destruct (z_skiplist z es Hok El) as (ss & o & -> & Hss & Hdict). cbn [skiplist_ must mbind res_bind].
      destruct (RemoveByRank_spec ss es start stop Hss Ha Hb) as (ss' & E & Hss'). pose proof (dict_RemoveByRank _ _ _ _ _ E Hdict) as Hdict'. rewrite E. cbn [mbind res_bind]. eexists. split; [done|].
      apply z_ok_skiplist; [done..|]. eapply scores_ok_sub; [exact Hsc|].
      intros e [He|He]%elem_of_app; eapply elem_take_drop; eauto. }
  rewrite (collectSorted_spec z es Hok El). destruct (z_listpack z es Hok El) as (lp & us & o & E & Hlp & Hp & Hsu & Hfit).
  rewrite E. cbn [listpack must mbind res_bind skiplist_ isListpack]. destruct (Z.ltb_spec start 0); [lia|].
  set (c := Nat.min b (length es)).
  replace (if Z.of_nat (length es) <? stop then Z.of_nat (length es) else stop) with (Z.of_nat c)
    by (destruct (Z.ltb_spec (Z.of_nat (length es)) stop); lia).
  replace start with (Z.of_nat a) by lia.
  assert (Hdb : drop b es = drop c es) by (destruct (decide (b <= length es)%nat); [f_equal; lia|by rewrite !drop_ge by lia]).
  destruct (Z.leb_spec (Z.of_nat c) (Z.of_nat a)) as [Hca|Hca].
  { assert (Hnil : take (b - a) (drop a es) = []).
    { destruct (decide (a < length es)%nat); [by replace (b - a)%nat with 0%nat by lia|]. by rewrite (drop_ge es a), take_nil by lia. }
    rewrite Hnil, Hdb. eexists. split; [done|]. rewrite <- E.
    assert (take a es ++ drop c es = es) as ->; [|done].
    destruct (decide (a < length es)%nat); [replace c with a by lia; apply take_drop|].
    by rewrite take_ge, drop_ge, app_nil_r by lia. }
  rewrite pick_up by lia. cbn [mbind res_bind]. set (B := take (c - a) (drop a es)).
  assert (Hes : es = take a es ++ B ++ drop c es).
  { unfold B. replace (drop c es) with (drop (a + (c - a)) es) by (f_equal; lia). by rewrite take3. }
  destruct (pair_filter_spec lp (text <$> us) (drops (remove_set B)) Hlp) as (lp' & -> & Hlp').
  cbn [mbind res_bind]. rewrite (block_size es (take a es) B (drop c es) Hes Hnd).
  eexists. split; [|rewrite Hdb; by apply (z_ok_block lp' us es o (take a es) B (drop c es))].
  do 2 f_equal. unfold B. rewrite !length_take, !length_drop. lia.
Qed.

Lemma ZPopMin_spec z es n :
  z_ok z es → 0 < n →
  ∃ z' l, PopMin parseFloat z n = Ret (z', l) ∧ default [] l = take (Z.to_nat n) es ∧ z_ok z' (drop (Z.to_nat n) es).
Proof using format_parse.
  intros Hok Hn. pose proof Hok as [_ Hso Hnd Hsc]. unfold PopMin. destruct (isListpack z) eqn:El.
  2:{ destruct (z_skiplist z es Hok El) as (ss & o & -> & Hss & Hdict). cbn [skiplist_ must mbind res_bind].
      destruct (PopMin_spec ss es n Hss) as (ss' & E & Hss'). pose proof (dict_PopMin _ _ _ _ E Hdict) as Hdict'. rewrite E.
      assert (Hpop : popped n es = Z.to_nat n) by (unfold popped; by rewrite decide_True). rewrite Hpop in *.
      cbn [mbind res_bind]. eexists _, _. split_and!; [done| |].
      - destruct (decide (es = [])) as [->|]; [by rewrite take_nil|done].
      - apply z_ok_skiplist; [done..|]. eapply scores_ok_sub; [exact Hsc|].
        intros e He. eapply elem_take_drop; eauto. }
  rewrite (collectSorted_spec z es Hok El). destruct (z_listpack z es Hok El) as (lp & us & o & E & Hlp & Hp & Hsu & Hfit).
  rewrite E. cbn [listpack must mbind res_bind skiplist_ isListpack]. set (c := Nat.min (Z.to_nat n) (length es)).
  replace (if Z.of_nat (length es) <? n then Z.of_nat (length es) else n) with (Z.of_nat c)
    by (destruct (Z.ltb_spec (Z.of_nat (length es)) n); lia).
  destruct (Z.ltb_spec (Z.of_nat c) 0); [lia|]. change 0 with (Z.of_nat 0) at 1. rewrite pick_up by lia.
  cbn [mbind res_bind]. rewrite Nat.sub_0_r, drop_0.
  destruct (pair_filter_spec lp (text <$> us) (drops (remove_set (take c es))) Hlp)
    as (lp' & -> & Hlp'). cbn [mbind res_bind]. eexists _, _. split_and!; [done| |].
  - cbn. destruct (decide (Z.to_nat n <= length es)%nat); [by replace c with (Z.to_nat n) by lia|]. by rewrite !take_ge by lia.
  - replace (drop (Z.to_nat n) es) with (drop c es)
      by (destruct (decide (Z.to_nat n <= length es)%nat); [f_equal; lia|by rewrite !drop_ge by lia]).
    apply (z_ok_block lp' us es o [] (take c es) (drop c es)); [done|done| |done..]. cbn. by rewrite take_drop.
Qed.

(** ** Access as a sorted set, and scans *)

Lemma GetAsSortedSet_spec z es rnds :
  z_ok z es → ∃ z' ss, GetAsSortedSet parseFloat z rnds = Ret (z', ss) ∧ ss_ok ss es ∧ z_ok z' es ∧ isListpack z' = false.
Proof using format_parse.
  intros Hok. pose proof Hok as [_ Hso Hnd Hsc]. unfold GetAsSortedSet. destruct (isListpack z) eqn:El.
  - destruct (z_listpack z es Hok El) as (lp & us & o & -> & Hlp & Hp & Hsu & Hfit).
    destruct (convertToSkiplist_spec lp us es o rnds) as (ss & -> & Hss & Hdict); [done..|]. cbn.
    eexists _, ss. split_and!; [done|done|by apply z_ok_skiplist|done].
  - destruct (z_skiplist z es Hok El) as (ss & o & -> & Hss & Hdict). cbn. eexists _, ss. split_and!; [done|done|by apply z_ok_skiplist|done].
Qed.
End spec.
