(* ===== verification/ObjZSetThm.v ===== *)
(** * Sorted-set objects: refinement

    Whatever the encoding, a sorted-set object behaves as one list sorted by
    score and member; the sections at the end are about the calls on which the
    two encodings differ. *)

From stdpp Require Import base gmap list strings sorting.
From Stdlib Require Import ZArith Lia.
From S2P Require Import Prelude Binary Float64 Border GoText Listpack Pairs ObjString SkipList SkipListSpec SortedSet SortedSetSpec SortedSetThm ObjZSet ObjZSetSpec.

Local Open Scope Z_scope.

(** A command on the object, or a call of [GetAsSortedSet], which converts. *)
Inductive zobj_cmd :=
| ZOp (c : zcmd)
| ZConvert (rnds : nat → Z).

Section run.
Context (T : EncodingThresholds) (formatFloat : Z → bytes) (parseFloat : bytes → option Z).

(** A nil and an empty slice are the same to the callers of [PopMin]. *)
Definition zobj_step (z : ZSet) (c : zobj_cmd) : res (ZSet * zout) :=
  match c with
  | ZOp (ZAdd m s rnds) => '(z', b) ← Add T formatFloat parseFloat z m s rnds; Ret (z', OBool b)
  | ZOp (ZRem m) => '(z', b) ← Remove z m; Ret (z', OBool b)
  | ZOp ZLen => n ← Len z; Ret (z, OInt n)
  | ZOp (ZGet m) => o ← Get parseFloat z m; Ret (z, OKey (fkey <$> o))
  | ZOp (ZRank m desc) => r ← GetRank parseFloat z m desc; Ret (z, OInt r)
  | ZOp (ZRangeByRank start stop desc) => l ← RangeByRank parseFloat z start stop desc; Ret (z, OElems l)
  | ZOp (ZCount min max) => n ← RangeCount parseFloat z min max; Ret (z, OInt n)
  | ZOp (ZRange min max offset limit desc) =>
      l ← Range parseFloat z min max offset limit desc; Ret (z, OElems (Some <$> l))
  | ZOp (ZRemRange min max) => '(z', n) ← RemoveRange parseFloat z min max; Ret (z', OInt n)
  | ZOp (ZPopMin n) => '(z', l) ← PopMin parseFloat z n; Ret (z', OPop (Some (default [] l)))
  | ZOp (ZRemByRank start stop) => '(z', n) ← RemoveByRank parseFloat z start stop; Ret (z', OInt n)
  | ZConvert rnds => '(z', ss) ← GetAsSortedSet parseFloat z rnds; Ret (z', OInt (SortedSet.Len ss))
  end.

Fixpoint zobj_run (z : ZSet) (cs : list zobj_cmd) : res (ZSet * list zout) :=
  match cs with
  | [] => Ret (z, [])
  | c :: cs' => '(z1, o) ← zobj_step z c; '(z2, os) ← zobj_run z1 cs'; Ret (z2, o :: os)
  end.
End run.

Definition zobj_out (o : zout) : zout := match o with OPop l => OPop (Some (default [] l)) | _ => o end.

Definition zobj_spec (es : list Element) (c : zobj_cmd) : list Element * zout :=
  match c with
  | ZOp c => let '(es', o) := zspec es c in (es', zobj_out o)
  | ZConvert _ => (es, OInt (Z.of_nat (length es)))
  end.

Fixpoint zobj_spec_run (es : list Element) (cs : list zobj_cmd) : list Element * list zout :=
  match cs with
  | [] => (es, [])
  | c :: cs' => let '(es1, o) := zobj_spec es c in let '(es2, os) := zobj_spec_run es1 cs' in (es2, o :: os)
  end.

(** As for sorted sets; besides, a score is not negative zero, a member is
    shorter than 2^62 bytes, and a pop takes something. *)
Definition zobj_legal (es : list Element) (c : zobj_cmd) : Prop :=
  match c with
  | ZOp (ZAdd m s _) => score_ok s ∧ small m
  | ZOp (ZPopMin n) => 0 < n
  | ZOp c => zlegal es c
  | ZConvert _ => True
  end.

Fixpoint zobj_legal_run (es : list Element) (cs : list zobj_cmd) : Prop :=
  match cs with [] => True | c :: cs' => zobj_legal es c ∧ zobj_legal_run (zobj_spec es c).1 cs' end.

Section refinement.
Context (T : EncodingThresholds) (formatFloat : Z → bytes) (parseFloat : bytes → option Z).
Hypothesis format_parse : ∀ s, score_ok s → parseFloat (formatFloat s) = Some s.
Hypothesis format_small : ∀ s, score_ok s → small (formatFloat s).
Local Abbreviation ok := (z_ok T formatFloat).

Lemma zobj_step_refines z es c :
  ok z es → zobj_legal es c →
  ∃ z', zobj_step T formatFloat parseFloat z c = Ret (z', (zobj_spec es c).2) ∧ ok z' (zobj_spec es c).1.
Proof using format_parse format_small.
  intros Hok Hl. destruct c as [c|rnds]; [destruct c|]; cbn [zobj_step zobj_spec zspec fst snd zobj_out zobj_legal zlegal] in *.
  - destruct (ZAdd_spec T _ _ format_parse format_small z es m s rnds Hok (proj1 Hl) (proj2 Hl)) as (z' & -> & H). eauto.
  - destruct (ZRemove_spec T formatFloat z es m Hok) as (z' & -> & H). eauto.
  - rewrite (ZLen_spec _ _ _ _ Hok). cbn. eauto.
  - rewrite (ZGet_spec _ _ _ format_parse z es m Hok). cbn. exists z. split; [|done]. by destruct (zfind m es).
  - rewrite (ZRank_spec _ _ _ format_parse _ _ _ _ Hok Hl). cbn. eauto.
  - pose proof (ZRangeByRank_spec _ _ _ format_parse z es (Z.to_nat start) (Z.to_nat stop) desc Hok) as H.
    rewrite !Z2Nat.id in H by lia. rewrite H by lia. cbn. eauto.
  - destruct Hl as [Hne Hc]. rewrite (ZCount_spec _ _ _ format_parse _ _ _ _ Hok Hne Hc). cbn. eauto.
  - destruct Hl as (Hc & Hi & Ho). rewrite (ZRange_spec _ _ _ format_parse _ _ _ _ _ _ _ Hok Hc Hi Ho). cbn. eauto.
  - destruct (ZRemRange_spec _ _ _ format_parse z es min max Hok Hl) as (z' & -> & H). eauto.
  - destruct (ZPopMin_spec _ _ _ format_parse z es n Hok Hl) as (z' & l & -> & Hlst & H). cbn [mbind res_bind].
    assert (Hp : popped n es = Z.to_nat n) by (unfold popped; by rewrite decide_True). rewrite Hp, Hlst.
    exists z'. split; [|done]. do 3 f_equal. destruct (decide (es = [])) as [->|]; [by rewrite take_nil|done].
  - destruct (ZRemByRank_spec _ _ _ format_parse z es start stop Hok (proj1 Hl) (proj2 Hl)) as (z' & -> & H). eauto.
  - destruct (GetAsSortedSet_spec _ _ _ format_parse z es rnds Hok) as (z' & ss & -> & Hss & H & _). cbn.
    rewrite (Len_spec _ _ Hss). eauto.
Qed.

Lemma zobj_run_refines z es cs :
  ok z es → zobj_legal_run es cs →
  ∃ z', zobj_run T formatFloat parseFloat z cs = Ret (z', (zobj_spec_run es cs).2) ∧ ok z' (zobj_spec_run es cs).1.
Proof using format_parse format_small.
  revert z es. induction cs as [|c cs IH]; intros z es Hok Hl; cbn [zobj_run zobj_spec_run]; [by exists z|].
  destruct Hl as [Hc Hcs]. destruct (zobj_step_refines z es c Hok Hc) as (z1 & -> & Hok1).
  destruct (IH z1 _ Hok1 Hcs) as (z2 & E & Hok2).
  destruct (zobj_spec es c) as [es1 o]. cbn [fst snd] in *. destruct (zobj_spec_run es1 cs) as [es2 os].
  cbn [fst snd mbind res_bind] in *. rewrite E. cbn [mbind res_bind]. eauto.
Qed.

(** C13: a sorted-set object behaves as one list sorted by score and member
    under every legal sequence of its operations, in the listpack encoding, in
    the skiplist encoding and across the conversions, whatever the thresholds
    and the heights of the nodes; and while it is a listpack it is within the
    configured limits.  The float printer is only assumed to print what the
    parser reads back. *)
Theorem zset_object_refines_list cs :
  zobj_legal_run [] cs →
  ∃ z, zobj_run T formatFloat parseFloat NewZSet cs = Ret (z, (zobj_spec_run [] cs).2) ∧
    Len z = Ret (Z.of_nat (length (zobj_spec_run [] cs).1)) ∧
    (isListpack z = true → zfits T (zobj_spec_run [] cs).1).
Proof using format_parse format_small.
  intros Hl. destruct (zobj_run_refines NewZSet [] cs) as (z & E & Hok); [apply z_ok_new|done|].
  exists z. split_and!; [done|by eapply ZLen_spec|]. intros El.
  by destruct (z_listpack T formatFloat z _ Hok El) as (lp & us & o & _ & _ & _ & _ & Hfit).
Qed.
End refinement.

(** ** A concrete float codec

    The eight bytes of the pattern: a printer and parser that meet what is
    assumed of [strconv]. *)

Definition fmt8 (s : Z) : bytes := le_bytes 8 s.
Definition parse8 (b : bytes) : option Z := Some (of_le b).

Lemma fmt8_parse8 s : score_ok s → parse8 (fmt8 s) = Some s.
Proof. intros (Hs & _). unfold parse8, fmt8. f_equal. apply of_le_bytes. change (256 ^ Z.of_nat 8) with (2 ^ 64). lia. Qed.

Lemma fmt8_small s : score_ok s → small (fmt8 s).
Proof. intros _. unfold small. cbn. lia. Qed.

(** At most two entries stay in the compact form. *)
Definition tiny : EncodingThresholds := MkThresholds 2 64 512 128 64 2 64 128.

Definition zobj_tour : list zobj_cmd :=
  [ZOp (ZAdd (str "b") f2 (λ _, 7)); ZOp (ZAdd (str "a") f1 (λ _, 0)); ZOp (ZRank (str "b") false);
   ZOp (ZAdd (str "b") f3 (λ _, 1)); ZOp (ZRange (ScoreBorder 0 f1 false) (ScoreBorder 0 f3 false) 1 1 true);
   ZOp (ZAdd (str "c") f2 (λ i, 500 * Z.of_nat i)); ZOp (ZCount (ScoreBorder 0 f2 false) scorePositiveInfBorder);
   ZOp (ZRemByRank 0 1); ZOp (ZPopMin 1); ZConvert (λ _, 3); ZOp ZLen].

Lemma zobj_tour_legal : zobj_legal_run [] zobj_tour.
Proof.
  unfold zobj_tour. cbn [zobj_legal_run zobj_legal zlegal].
  repeat match goal with |- _ ∧ _ => split end;
  lazymatch goal with
  | |- True => exact I
  | |- cuts _ _ _ => apply cuts_score; [vm_compute; reflexivity..|apply (bool_decide_unpack _); vm_compute; exact I]
  | |- _ = _ => vm_compute; reflexivity
  | |- _ ∨ _ => right; vm_compute; reflexivity
  | |- _ ≠ _ => vm_compute; congruence
  | |- _ => vm_compute; intuition congruence
  end.
Qed.

Lemma zset_object_refines_list_witness :
  (∀ s, score_ok s → parse8 (fmt8 s) = Some s) ∧ zobj_legal_run [] zobj_tour ∧
  ∃ z, zobj_run tiny fmt8 parse8 NewZSet zobj_tour = Ret (z, (zobj_spec_run [] zobj_tour).2) ∧
    Len z = Ret (Z.of_nat (length (zobj_spec_run [] zobj_tour).1)) ∧
    (isListpack z = true → zfits tiny (zobj_spec_run [] zobj_tour).1).
Proof.
  split; [exact fmt8_parse8|]. split; [exact zobj_tour_legal|].
  exact (zset_object_refines_list tiny fmt8 parse8 fmt8_parse8 fmt8_small zobj_tour zobj_tour_legal).
Defined.

(** ** Where the encodings differ *)

(** The answer to one and the same range depends on the encoding: after
    the same insertions, the range of scores from 2 up to +inf has two elements
    in a set that fits the listpack limits and none in one that does not. *)
Theorem range_differs_by_encoding :
  let cs := [ZOp (ZAdd (str "a") f1 (λ _, 7)); ZOp (ZAdd (str "b") f2 (λ _, 7)); ZOp (ZAdd (str "c") f3 (λ _, 7));
             ZOp (ZRange (ScoreBorder 0 f2 false) scorePositiveInfBorder 0 (-1) false)] in
  let reply T := match zobj_run T fmt8 parse8 NewZSet cs with Ret (_, os) => last os | _ => None end in
  reply DefaultEncodingThresholds = Some (OElems [Some (MkElement (str "b") f2); Some (MkElement (str "c") f3)]) ∧
  reply tiny = Some (OElems []).
Proof. split; vm_compute; reflexivity. Qed.
