(* ===== verification/Resp.v ===== *)
(** * Replies: [internal/proto/resp2/protocol] and [internal/proto/resp3]

    The reply types of both protocol versions and their wire form. *)

From stdpp Require Import base list strings.
From Stdlib Require Import ZArith Lia Ascii.
From S2P Require Import Prelude Float64 Strconv.

Local Open Scope Z_scope.

Definition CR : ascii := Zbyte 13.
Definition LF : ascii := Zbyte 10.
Definition CRLF : bytes := [CR; LF].

Inductive Reply :=
| BulkReply (Arg : option bytes)
| MultiBulkReply (Args : list (option bytes))
| MultiRawReply (Replies : list Reply)
| StatusReply (Status : bytes)
| IntReply (Code : Z)
| StandardErrReply (Status : bytes)
| PongReply | OkReply | NullBulkReply | NullMultiBulkReply | EmptyMultiBulkReply | NoReply | QueuedReply
| UnknownErrReply
| ArgNumErrReply (Cmd : bytes)
| SyntaxErrReply | WrongTypeErrReply
| ProtocolErrReply (Msg : bytes)
| NullReply
| BoolReply (Val : bool)
| DoubleReply (Val : Z)
| BigNumberReply (Val : bytes)
| MapReply (Pairs : list Reply)
| SetReply (Members : list Reply)
| PushReply (Elems : list Reply)
| VerbatimReply (Format Text : bytes).

Definition nullBulkBytes : bytes := str "$-1" ++ CRLF.
Definition nullMultiBulkBytes : bytes := str "*-1" ++ CRLF.
Definition emptyMultiBulkBytes : bytes := str "*0" ++ CRLF.

(** A length or count line. *)
Definition header (c : string) (n : nat) : bytes := str c ++ Itoa (Z.of_nat n) ++ CRLF.

Definition bulk_bytes (arg : option bytes) : bytes :=
  match arg with None => nullBulkBytes | Some b => header "$" (length b) ++ b ++ CRLF end.

(** One argument of a multi bulk reply. *)
Definition arg_bytes (arg : option bytes) : bytes :=
  match arg with None => str "$-1" ++ CRLF | Some b => header "$" (length b) ++ b ++ CRLF end.

Definition multibulk_bytes (args : list (option bytes)) : bytes := header "*" (length args) ++ (args ≫= arg_bytes).

Definition status_bytes (s : bytes) : bytes := str "+" ++ s ++ CRLF.
Definition int_bytes (n : Z) : bytes := str ":" ++ Itoa n ++ CRLF.
Definition err_bytes (s : bytes) : bytes := str "-" ++ s ++ CRLF.
Definition argnum_bytes (cmd : bytes) : bytes :=
  str "-ERR wrong number of arguments for '" ++ cmd ++ str "' command" ++ CRLF.
Definition protoerr_bytes (msg : bytes) : bytes := str "-ERR Protocol error: '" ++ msg ++ str "'" ++ CRLF.
Definition verbatim_bytes (format text : bytes) : bytes :=
  let body := format ++ str ":" ++ text in header "=" (length body) ++ body ++ CRLF.

(** [math.IsInf] and [math.IsNaN] on bit patterns. *)
Definition double_bytes (FormatFloat : Z → bytes) (v : Z) : bytes :=
  let s := if fkey v =? 0x7FF0000000000000 then str "inf"
           else if fkey v =? - 0x7FF0000000000000 then str "-inf"
           else if fnan v then str "nan"
           else FormatFloat v in
  str "," ++ s ++ CRLF.

Section encode.
Context (FormatFloat : Z → bytes).

Fixpoint ToBytes (r : Reply) : bytes :=
  match r with
  | BulkReply arg => bulk_bytes arg
  | MultiBulkReply args => multibulk_bytes args
  | MultiRawReply rs => header "*" (length rs) ++ concat (ToBytes <$> rs)
  | StatusReply s => status_bytes s
  | IntReply n => int_bytes n
  | StandardErrReply s => err_bytes s
  | PongReply => str "+PONG" ++ CRLF
  | OkReply => str "+OK" ++ CRLF
  | NullBulkReply => nullBulkBytes
  | NullMultiBulkReply => nullMultiBulkBytes
  | EmptyMultiBulkReply => emptyMultiBulkBytes
  | NoReply => []
  | QueuedReply => str "+QUEUED" ++ CRLF
  | UnknownErrReply => str "-Err unknown" ++ CRLF
  | ArgNumErrReply cmd => argnum_bytes cmd
  | SyntaxErrReply => str "-Err syntax error" ++ CRLF
  | WrongTypeErrReply => str "-WRONGTYPE Operation against a key holding the wrong kind of value" ++ CRLF
  | ProtocolErrReply msg => protoerr_bytes msg
  | NullReply => str "_" ++ CRLF
  | BoolReply v => (if v then str "#t" else str "#f") ++ CRLF
  | DoubleReply v => double_bytes FormatFloat v
  | BigNumberReply v => str "(" ++ v ++ CRLF
  | MapReply pairs => header "%" (length pairs / 2) ++ concat (ToBytes <$> pairs)
  | SetReply ms => header "~" (length ms) ++ concat (ToBytes <$> ms)
  | PushReply es => header ">" (length es) ++ concat (ToBytes <$> es)
  | VerbatimReply format text => verbatim_bytes format text
  end.

Definition IsOKReply (r : Reply) : bool := bytes_eqb (ToBytes r) (str "+OK" ++ CRLF).

(** [reply.ToBytes()[0] == '-']; a reply without bytes panics. *)
Definition IsErrorReply (r : Reply) : res bool :=
  match ToBytes r with [] => Panic | c :: _ => Ret (bool_decide (c = Zbyte 45)) end.

(** [None] is the nil error. *)
Definition Try2ErrorReply (r : Reply) : option bytes :=
  match ToBytes r with
  | [] => Some (str "empty reply")
  | c :: rest => if negb (bool_decide (c = Zbyte 45)) then None else Some rest
  end.

Definition EncodeRESP3FromRESP2 (b : bytes) : bytes :=
  if bytes_eqb b (str "$-1" ++ CRLF) || bytes_eqb b (str "*-1" ++ CRLF) then str "_" ++ CRLF else b.

Definition EncodeRESP3 (r : Reply) : bytes :=
  match r with
  | NullReply | BoolReply _ | DoubleReply _ | BigNumberReply _ | MapReply _ | SetReply _ | PushReply _ | VerbatimReply _ _ =>
      ToBytes r
  | _ => EncodeRESP3FromRESP2 (ToBytes r)
  end.

(** The version-aware codec; [None] is a nil reply. *)
Definition Encode (reply : option Reply) (resp3 : bool) : bytes :=
  match reply with
  | None => []
  | Some r => if resp3 then EncodeRESP3 r else ToBytes r
  end.
End encode.

(** ** Lines *)

Definition no_crlf (s : bytes) : Prop := CR ∉ s ∧ LF ∉ s.

Lemma str_cons c s : str (String c s) = c :: str s.
Proof. done. Qed.

Lemma header_line c n rest : header (String c "") n ++ rest = c :: Itoa (Z.of_nat n) ++ CR :: LF :: rest.
Proof. unfold header, CRLF. rewrite str_cons. cbn. by rewrite <- app_assoc. Qed.

Lemma CR_not_digit : is_digit CR = false.
Proof. done. Qed.

Lemma LF_not_digit : is_digit LF = false.
Proof. done. Qed.

Lemma Itoa_no_crlf n : 0 <= n → no_crlf (Itoa n).
Proof. intros Hn. split; by apply Itoa_avoid. Qed.

Lemma Itoa_int_no_crlf n : i64 n → no_crlf (Itoa n).
Proof.
  intros Hn. unfold Itoa. destruct (Z.ltb_spec n 0) as [H|H].
  - split; (apply not_elem_of_app; split; [by intros [E|E%elem_of_nil]%elem_of_cons|]);
      (apply digits_avoid; [apply digits_are_digits; [lia|done]|done]).
  - split; (apply digits_avoid; [by apply digits_are_digits|done]).
Qed.
