(* ===== verification/ReqParser.v ===== *)
(** * Requests of the event loop: [internal/net/eventloop/reqparser.go]

    The parser of pipelined commands.  An argument is a slice of the buffer, so
    it is modelled as a view: an offset into the buffer and a length. *)

From stdpp Require Import base list strings.
From Stdlib Require Import ZArith Lia Ascii.
From S2P Require Import Prelude Strconv Resp.

Local Open Scope Z_scope.

Inductive perr := errProtocolError | errIncomplete.

(** [buf[Off : Off+Len]]. *)
Record view := View { Off : Z; Len : Z }.

(** The bytes a view shows in [buf]. *)
Definition view_bytes (buf : bytes) (v : view) : bytes := take (Z.to_nat (Len v)) (drop (Z.to_nat (Off v)) buf).
Definition shift_view (k : Z) (v : view) : view := View (k + Off v) (Len v).
Definition shift_cmd (k : Z) (cmd : list (option view)) : list (option view) :=
  fmap (M:=option) (shift_view k) <$> cmd.

Abbreviation blen buf := (Z.of_nat (length buf)).

(** ** Integers and lines *)

(** One digit of [parseUint]; Go's division truncates, and both operands are
    non-negative. *)
Definition parseUint_step (n : option Z) (b : ascii) : option Z :=
  n ← n;
  if negb (is_digit b) then None
  else if (max_i64 - digit_val b) / 10 <? n then None
  else Some (n * 10 + digit_val b).

Definition parseUint (buf : bytes) : option Z :=
  if bool_decide (buf = []) then None else foldl parseUint_step (Some 0) buf.

(** [bytes.Index(buf, crlf)]. *)
Fixpoint index_crlf (buf : bytes) : option nat :=
  match buf with
  | [] => None
  | c :: r => if bool_decide (c = CR) && bool_decide (head r = Some LF) then Some 0%nat else S <$> index_crlf r
  end.

(** [None] is [errIncomplete]. *)
Definition readLine (buf : bytes) : option (bytes * Z) :=
  match index_crlf buf with
  | None => None
  | Some idx => Some (take idx buf, Z.of_nat idx + 2)
  end.

(** ** Commands *)

Section parser.
(** The largest [count] for which [make([][]byte, count)] does not panic. *)
Context (max_make : Z).

(** The length line of an argument: -1 is the null argument. *)
Definition arg_len (argLine : bytes) : option Z :=
  if bool_decide (head argLine = Some (Zbyte 45)) then
    if bytes_eqb argLine (str "-1") then Some (-1) else None
  else parseUint argLine.

(** The loop over the arguments; every round that goes on passes a dollar
    sign, so that the fuel [S (len buf)] is enough. *)
Fixpoint parse_args (fuel : nat) (buf : bytes) (i count consumed : Z) : res (perr + (list (option view) * Z)) :=
  match fuel with
  | O => OutOfFuel
  | S f =>
      if count <=? i then Ret (inr ([], consumed)) else
      if blen buf <=? consumed then Ret (inl errIncomplete) else
      match buf !! Z.to_nat consumed with
      | None => Panic
      | Some c =>
          if negb (bool_decide (c = Zbyte 36)) then Ret (inl errProtocolError) else
          match readLine (drop (Z.to_nat (consumed + 1)) buf) with
          | None => Ret (inl errIncomplete)
          | Some (argLine, argLineLen) =>
              match arg_len argLine with
              | None => Ret (inl errProtocolError)
              | Some argLen =>
                  let consumed := wrap64 (consumed + (argLineLen + 1)) in
                  if argLen =? -1 then
                    r ← parse_args f buf (i + 1) count consumed;
                    Ret (match r with inl e => inl e | inr (args, k) => inr (None :: args, k) end)
                  else if blen buf <? wrap64 (consumed + argLen + 2) then Ret (inl errIncomplete)
                  else
                    let hi := wrap64 (consumed + argLen) in
                    if (hi <? consumed) || (blen buf <? hi) then Panic else
                    r ← parse_args f buf (i + 1) count (wrap64 (consumed + (argLen + 2)));
                    Ret (match r with
                         | inl e => inl e
                         | inr (args, k) => inr (Some (View consumed argLen) :: args, k)
                         end)
              end
          end
      end
  end.

Definition parseOneMultibulk (buf : bytes) : res (perr + (list (option view) * Z)) :=
  match buf with
  | [] => Ret (inl errIncomplete)
  | c :: r =>
      if negb (bool_decide (c = Zbyte 42)) then Ret (inl errProtocolError) else
      match readLine r with
      | None => Ret (inl errIncomplete)
      | Some (line, lineLen) =>
          match parseUint line with
          | None => Ret (inl errProtocolError)
          | Some count =>
              if max_make <? count then Panic
              else parse_args (S (length buf)) buf 0 count (lineLen + 1)
          end
      end
  end.

(** The loop of [parseRequests]; [None] is a protocol error.  Every round
    consumes at least a byte. *)
Fixpoint parse_loop (fuel : nat) (buf : bytes) (offset : Z) : res (option (list (list (option view)) * Z)) :=
  match fuel with
  | O => OutOfFuel
  | S f =>
      if blen buf <=? offset then Ret (Some ([], offset)) else
      o ← parseOneMultibulk (drop (Z.to_nat offset) buf);
      match o with
      | inl errIncomplete => Ret (Some ([], offset))
      | inl errProtocolError => Ret None
      | inr (cmd, consumed) =>
          r ← parse_loop f buf (offset + consumed);
          Ret (match r with
               | None => None
               | Some (cmds, n) => Some (shift_cmd offset cmd :: cmds, n)
               end)
      end
  end.

Definition parseRequests (buf : bytes) : res (option (list (list (option view)) * Z)) :=
  parse_loop (S (length buf)) buf 0.
End parser.

(** What a command line shows of its buffer. *)
Definition cmd_bytes (buf : bytes) (cmd : list (option view)) : list (option bytes) :=
  fmap (M:=option) (view_bytes buf) <$> cmd.

Example parse_two :
  let buf := multibulk_bytes [Some (str "GET"); Some (str "k")] ++ multibulk_bytes [Some (str "PING")] ++ str "*1" in
  match parseRequests 1000 buf with
  | Ret (Some (cmds, n)) => cmd_bytes buf <$> cmds = [[Some (str "GET"); Some (str "k")]; [Some (str "PING")]] ∧ n = 34
  | _ => False
  end.
Proof. vm_compute. done. Qed.

(** ** Integers *)

Lemma parseUint_foldl s n :
  0 <= n → forallb is_digit s = true → digits_val n s <= max_i64 →
  foldl parseUint_step (Some n) s = Some (digits_val n s).
Proof.
  revert n. induction s as [|c s IH]; intros n Hn Hs Hv; [done|]. cbn in Hs. apply andb_true_iff in Hs as [Hc Hs].
  cbn [foldl]. unfold parseUint_step at 2. cbn [mbind option_bind]. rewrite Hc. cbn [negb].
  assert (Hd : 0 <= digit_val c) by (unfold is_digit in Hc; unfold digit_val; zbool; lia).
  change (digits_val n (c :: s)) with (digits_val (n * 10 + digit_val c) s) in *.
  pose proof (digits_val_mono (n * 10 + digit_val c) s ltac:(lia) Hs) as Hm.
  destruct (Z.ltb_spec ((max_i64 - digit_val c) / 10) n) as [H|H]; [|by apply IH; [lia|..]].
  exfalso. pose proof (Z.div_le_lower_bound (max_i64 - digit_val c) 10 n). lia.
Qed.

Lemma parseUint_Itoa n : 0 <= n <= max_i64 → parseUint (Itoa n) = Some n.
Proof.
  intros Hn. rewrite Itoa_nonneg by lia. unfold parseUint. rewrite bool_decide_false by (apply digits_nonempty; by right).
  assert (Hv : digits_val 0 (digits 20 n []) = n).
  { rewrite digits_value; [done|]. unfold max_i64 in Hn. change (10 ^ Z.of_nat 20) with 100000000000000000000. lia. }
  rewrite parseUint_foldl; [by rewrite Hv|done|by apply digits_are_digits; [lia|]|lia].
Qed.

Lemma parseUint_range s n : parseUint s = Some n → 0 <= n <= max_i64.
Proof.
  unfold parseUint. case_bool_decide; [done|].
  enough (G : ∀ o, (∀ m, o = Some m → 0 <= m <= max_i64) → foldl parseUint_step o s = Some n → 0 <= n <= max_i64).
  { apply G. intros m [= <-]. unfold max_i64. lia. }
  clear. induction s as [|c s IH]; intros o Ho; cbn [foldl]; [by apply Ho|]. apply IH. intros m Hm.
  unfold parseUint_step in Hm. destruct o as [k|]; [|done]. cbn [mbind option_bind] in Hm.
  destruct (is_digit c) eqn:Hc; [|done]. cbn [negb] in Hm. specialize (Ho k eq_refl).
  destruct (Z.ltb_spec ((max_i64 - digit_val c) / 10) k) as [|H]; [done|]. injection Hm as <-.
  unfold is_digit in Hc. unfold digit_val in *. zbool.
  pose proof (Z.mul_div_le (max_i64 - (byteZ c - 48)) 10). lia.
Qed.

Lemma arg_len_range s n : arg_len s = Some n → -1 <= n <= max_i64.
Proof.
  unfold arg_len. case_bool_decide.
  - destruct (bytes_eqb s (str "-1")); [|done]. intros [= <-]. unfold max_i64. lia.
  - intros Hs%parseUint_range. lia.
Qed.

Lemma Itoa_head n : 0 <= n → head (Itoa n) ≠ Some (Zbyte 45).
Proof.
  intros Hn Hh. apply (Itoa_avoid n (Zbyte 45) Hn); [done|]. destruct (Itoa n); [done|]. injection Hh as ->. by left.
Qed.

Lemma arg_len_Itoa n : 0 <= n <= max_i64 → arg_len (Itoa n) = Some n.
Proof. intros Hn. unfold arg_len. rewrite bool_decide_false by (apply Itoa_head; lia). by apply parseUint_Itoa. Qed.

(** ** Lines *)

Lemma index_crlf_line line rest : CR ∉ line → index_crlf (line ++ CR :: LF :: rest) = Some (length line).
Proof.
  induction line as [|c line IH]; intros H; cbn; [done|]. apply not_elem_of_cons in H as [Hc H].
  rewrite (bool_decide_false (c = CR)) by congruence. cbn [andb]. by rewrite IH.
Qed.

Lemma index_crlf_mono b m i : index_crlf b = Some i → index_crlf (b ++ m) = Some i ∧ (i + 2 <= length b)%nat.
Proof.
  revert i. induction b as [|c b IH]; intros i H; [done|]. cbn in H |- *. destruct b as [|d b].
  { cbn in H. rewrite andb_false_r in H. done. }
  cbn [head app] in *. destruct (bool_decide (c = CR) && bool_decide (Some d = Some LF)) eqn:E.
  - injection H as <-. cbn. split; [done|lia].
  - destruct (index_crlf (d :: b)) as [j|] eqn:Hj; [|done]. injection H as <-.
    destruct (IH j eq_refl) as [-> Hl]. cbn in Hl |- *. split; [done|lia].
Qed.

Lemma readLine_mono b m line n :
  readLine b = Some (line, n) → readLine (b ++ m) = Some (line, n) ∧ 2 <= n <= blen b.
Proof.
  unfold readLine. destruct (index_crlf b) as [i|] eqn:Hi; [|done]. intros [= <- <-].
  destruct (index_crlf_mono b m i Hi) as [-> Hl]. rewrite take_app_le by lia. split; [done|lia].
Qed.

Lemma readLine_line line rest : CR ∉ line → readLine (line ++ CR :: LF :: rest) = Some (line, blen line + 2).
Proof. intros H. unfold readLine. rewrite index_crlf_line by done. by rewrite take_app_length. Qed.

(** ** The argument loop *)

(** Buffers of fewer than 2^62 bytes. *)
Definition fits (buf : bytes) : Prop := blen buf < 2 ^ 62.

(** The three outcomes of the length test, wrap-around included. *)
Lemma bulk_guard len c a :
  0 <= c <= len → len < 2 ^ 62 → 0 <= a <= max_i64 →
  (c + a + 2 <= len ∧ (len <? wrap64 (c + a + 2)) = false ∧
     (wrap64 (c + a) <? c) || (len <? wrap64 (c + a)) = false ∧ wrap64 (c + (a + 2)) = c + a + 2) ∨
  (len < c + a + 2 <= max_i64 ∧ (len <? wrap64 (c + a + 2)) = true) ∨
  (max_i64 < c + a + 2 ∧ (len <? wrap64 (c + a + 2)) = false ∧
     (wrap64 (c + a) <? c) || (len <? wrap64 (c + a)) = true).
Proof.
  intros Hc Hl Ha. assert (W : ∀ z, max_i64 < z < 2 ^ 64 → wrap64 z = z - 2 ^ 64).
  { intros z Hz. unfold wrap64, max_i64 in *. rewrite <- (Z.mod_unique (z + 2 ^ 63) (2 ^ 64) 1 (z - 2 ^ 63)); lia. }
  assert (Hi : ∀ z, 0 <= z <= max_i64 → wrap64 z = z) by (intros z Hz; apply wrap64_id; unfold i64, min_i64; lia).
  unfold max_i64 in *.
  destruct (Z_le_gt_dec (c + a + 2) len); [left|right; destruct (Z_le_gt_dec (c + a + 2) 9223372036854775807); [left|right]].
  - rewrite !Hi by lia. repeat split; [lia|by apply Z.ltb_ge| |lia]. apply orb_false_iff. split; apply Z.ltb_ge; lia.
  - rewrite !Hi by lia. split; [lia|]. apply Z.ltb_lt. lia.
  - rewrite (W (c + a + 2)) by lia. repeat split; [lia|apply Z.ltb_ge; lia|]. apply orb_true_iff.
    destruct (Z_le_gt_dec (c + a) 9223372036854775807).
    + right. rewrite Hi by lia. apply Z.ltb_lt. lia.
    + left. rewrite W by lia. apply Z.ltb_lt. lia.
Qed.

Definition view_in (lo hi : Z) (v : option view) : Prop :=
  match v with None => True | Some v => lo <= Off v ∧ 0 <= Len v ∧ Off v + Len v <= hi end.

Lemma view_in_mono lo hi lo' hi' v : lo' <= lo → hi <= hi' → view_in lo hi v → view_in lo' hi' v.
Proof. destruct v; [|done]. cbn. lia. Qed.

(** What is true of a parse, whatever its outcome. *)
Lemma parse_args_sound f buf i count c :
  0 <= c <= blen buf → fits buf → blen buf < c + Z.of_nat f →
  match parse_args f buf i count c with
  | OutOfFuel => False
  | Ret (inr (vs, k)) => c <= k <= blen buf ∧ Forall (view_in c k) vs ∧ Z.of_nat (length vs) = Z.max 0 (count - i)
  | _ => True
  end.
Proof.
  unfold fits. revert i c. induction f as [|f IH]; intros i c Hc Hl Hf; [lia|]. cbn [parse_args].
  destruct (Z.leb_spec count i); [cbn; repeat split; [lia..|constructor|lia]|].
  destruct (Z.leb_spec (blen buf) c); [done|].
  destruct (buf !! Z.to_nat c) as [d|]; [|done]. case_bool_decide; [|done]. cbn [negb].
  destruct (readLine _) as [[line n]|] eqn:Hr; [|done]. apply (readLine_mono _ []) in Hr as [_ Hn].
  rewrite length_drop in Hn. destruct (arg_len line) as [a|] eqn:Ha; [|done]. apply arg_len_range in Ha.
  rewrite (wrap64_id (c + (n + 1))) by (unfold i64, min_i64, max_i64; lia).
  destruct (Z.eqb_spec a (-1)).
  - specialize (IH (i + 1) (c + (n + 1)) ltac:(lia) Hl ltac:(lia)).
    destruct (parse_args f buf (i + 1) count (c + (n + 1))) as [[er|[vs k]]| |]; cbn; [done| |done..].
    destruct IH as (Hk & Hv & Hlen). repeat split; [lia..| |cbn; lia].
    constructor; [done|]. eapply Forall_impl; [exact Hv|]. intros v. apply view_in_mono; lia.
  - destruct (bulk_guard (blen buf) (c + (n + 1)) a) as [(Hle & -> & -> & ->)|[(? & ->)|(? & -> & ->)]]; [lia..| |done|done].
    specialize (IH (i + 1) (c + (n + 1) + a + 2) ltac:(lia) Hl ltac:(lia)).
    destruct (parse_args f buf (i + 1) count _) as [[er|[vs k]]| |]; cbn; [done| |done..].
    destruct IH as (Hk & Hv & Hlen). repeat split; [lia..| |cbn; lia].
    constructor; [cbn; lia|]. eapply Forall_impl; [exact Hv|]. intros v. apply view_in_mono; lia.
Qed.

(** More input changes only the outcome "incomplete". *)
Lemma parse_args_more f f' buf m i count c :
  0 <= c <= blen buf → fits (buf ++ m) → (f <= f')%nat →
  parse_args f buf i count c ≠ OutOfFuel → parse_args f buf i count c ≠ Ret (inl errIncomplete) →
  parse_args f' (buf ++ m) i count c = parse_args f buf i count c.
Proof.
  unfold fits. revert f' i c. induction f as [|f IH]; intros f' i c Hc Hl Hf; [done|]. destruct f' as [|f']; [lia|].
  cbn [parse_args]. destruct (Z.leb_spec count i); [done|]. rewrite length_app in Hl |- *.
  destruct (Z.leb_spec (blen buf) c); [done|]. destruct (Z.leb_spec (Z.of_nat (length buf + length m)) c); [lia|].
  rewrite lookup_app_l by lia. destruct (buf !! Z.to_nat c) as [d|]; [|done]. case_bool_decide; [|done]. cbn [negb].
  rewrite drop_app_le by lia. destruct (readLine (drop _ buf)) as [[line n]|] eqn:Hr; [|done].
  apply (readLine_mono _ m) in Hr as [-> Hn]. rewrite length_drop in Hn.
  destruct (arg_len line) as [a|] eqn:Ha; [|done]. apply arg_len_range in Ha.
  rewrite (wrap64_id (c + (n + 1))) by (unfold i64, min_i64, max_i64; lia).
  destruct (Z.eqb_spec a (-1)).
  - intros Ho He. rewrite IH; [done|lia|rewrite length_app; lia|lia|by intros E; rewrite E in Ho|by intros E; rewrite E in He].
  - destruct (bulk_guard (blen buf) (c + (n + 1)) a) as [(Hle & -> & -> & ->)|[(? & ->)|(? & -> & ->)]]; [lia..| |done|].
    + destruct (bulk_guard (Z.of_nat (length buf + length m)) (c + (n + 1)) a) as [(? & -> & -> & _)|[(? & ->)|(? & -> & ->)]]; [lia..| |lia|unfold max_i64 in *; lia].
      intros Ho He. rewrite IH; [done|lia|rewrite length_app; lia|lia|by intros E; rewrite E in Ho|by intros E; rewrite E in He].
    + intros _ _.
      destruct (bulk_guard (Z.of_nat (length buf + length m)) (c + (n + 1)) a) as [(? & -> & -> & ->)|[(? & ->)|(? & -> & ->)]]; [lia..|unfold max_i64 in *; lia|lia|done].
Qed.

(** ** Encoded commands *)

Lemma at_middle (pre : bytes) x l : (pre ++ x :: l) !! Z.to_nat (blen pre) = Some x.
Proof. rewrite Nat2Z.id. by apply list_lookup_middle. Qed.

Lemma drop_middle (pre : bytes) x l k : k = blen pre + 1 → drop (Z.to_nat k) (pre ++ x :: l) = l.
Proof.
  intros ->. replace (Z.to_nat (blen pre + 1)) with (length (pre ++ [x])) by (rewrite length_app; cbn; lia).
  change (x :: l) with ([x] ++ l). rewrite app_assoc. apply drop_app_length.
Qed.

Lemma view_bytes_middle (pre b post : bytes) o l : o = blen pre → l = blen b → view_bytes (pre ++ b ++ post) (View o l) = b.
Proof. intros -> ->. unfold view_bytes. cbn [Off Len]. rewrite !Nat2Z.id. by rewrite drop_app_length, take_app_length. Qed.

(** The line that starts an argument: what it holds and where it ends. *)
Definition arg_line (arg : option bytes) : bytes := match arg with None => str "-1" | Some b => Itoa (blen b) end.

Lemma arg_line_no_cr arg : CR ∉ arg_line arg.
Proof.
  destruct arg as [b|]; [apply Itoa_no_crlf; lia|]. cbn. intros Hin. repeat (apply elem_of_cons in Hin as [Hin|Hin]; [done|]).
  by apply elem_of_nil in Hin.
Qed.

Lemma arg_line_len arg : (match arg with Some b => blen b | None => -1 end) <= max_i64 →
  arg_len (arg_line arg) = Some (match arg with Some b => blen b | None => -1 end).
Proof. destruct arg as [b|]; intros H; [|done]. apply arg_len_Itoa. lia. Qed.

Lemma arg_bytes_line arg rest :
  arg_bytes arg ++ rest =
  Zbyte 36 :: arg_line arg ++ CR :: LF :: (match arg with Some b => b ++ CRLF ++ rest | None => rest end).
Proof. destruct arg as [b|]; unfold arg_bytes, arg_line; [|done]. rewrite <- !app_assoc. by rewrite header_line. Qed.

Lemma arg_bytes_length arg :
  blen (arg_bytes arg) = 1 + blen (arg_line arg) + 2 + (match arg with Some b => blen b + 2 | None => 0 end).
Proof.
  pose proof (arg_bytes_line arg []) as H. rewrite app_nil_r in H. rewrite H. cbn [length]. rewrite length_app. cbn [length].
  destruct arg as [b|]; [rewrite length_app|]; cbn; lia.
Qed.

Lemma args_length args : (length args <= length (args ≫= arg_bytes))%nat.
Proof.
  induction args as [|a args IH]; [cbn; lia|]. change ((a :: args) ≫= arg_bytes) with (arg_bytes a ++ (args ≫= arg_bytes)).
  rewrite length_app. pose proof (arg_bytes_length a). cbn [length]. destruct a; lia.
Qed.

Lemma parse_args_enc args f pre post i :
  let buf := pre ++ (args ≫= arg_bytes) ++ post in
  fits buf → (length args < f)%nat →
  ∃ vs, parse_args f buf i (i + Z.of_nat (length args)) (blen pre) = Ret (inr (vs, blen pre + blen (args ≫= arg_bytes)))
    ∧ cmd_bytes buf vs = args.
Proof.
  revert f pre i. induction args as [|arg args IH]; intros f pre i buf Hl Hf; (destruct f as [|f]; [cbn in Hf; lia|]).
  { exists []. cbn [parse_args mbind list_bind length]. rewrite (proj2 (Z.leb_le _ _)) by lia. rewrite Z.add_0_r. done. }
  assert (Hbuf : buf = (pre ++ arg_bytes arg) ++ (args ≫= arg_bytes) ++ post).
  { unfold buf. cbn [mbind list_bind]. by rewrite <- !app_assoc. }
  unfold fits in Hl. pose proof Hl as Hl'. rewrite Hbuf in Hl'.
  specialize (IH f (pre ++ arg_bytes arg) (i + 1) Hl' ltac:(cbn in Hf; lia)). rewrite <- Hbuf in IH.
  rewrite !length_app in Hl'. pose proof (arg_bytes_length arg) as Hlen.
  assert (Hpos : 1 + blen (arg_line arg) + 2 <= blen (arg_bytes arg)) by (rewrite Hlen; destruct arg; lia).
  destruct IH as (vs & HIH & Hvs). rewrite length_app in HIH.
  assert (Hbuf2 : buf = pre ++ Zbyte 36 :: arg_line arg ++ CR :: LF :: (match arg with Some b => b ++ CRLF ++ ((args ≫= arg_bytes) ++ post) | None => (args ≫= arg_bytes) ++ post end)).
  { rewrite Hbuf, <- app_assoc. f_equal. apply arg_bytes_line. }
  cbn [parse_args length mbind list_bind]. rewrite length_app.
  rewrite (proj2 (Z.leb_gt _ _)) by lia. rewrite (proj2 (Z.leb_gt _ _)) by (rewrite Hbuf, !length_app; lia).
  replace (buf !! Z.to_nat (blen pre)) with (Some (Zbyte 36)) by (rewrite Hbuf2; symmetry; apply at_middle).
  rewrite bool_decide_true by done. cbn [negb].
  replace (drop (Z.to_nat (blen pre + 1)) buf) with (arg_line arg ++ CR :: LF :: (match arg with Some b => b ++ CRLF ++ ((args ≫= arg_bytes) ++ post) | None => (args ≫= arg_bytes) ++ post end))
    by (rewrite Hbuf2; symmetry; by apply drop_middle).
  rewrite readLine_line by apply arg_line_no_cr. rewrite arg_line_len by (unfold max_i64; destruct arg; lia).
  rewrite (wrap64_id (blen pre + _)) by (unfold i64, min_i64, max_i64; lia).
  replace (i + Z.of_nat (S (length args))) with (i + 1 + Z.of_nat (length args)) by lia.
  replace (blen pre + Z.of_nat (length (arg_bytes arg) + length (args ≫= arg_bytes)))
    with (Z.of_nat (length pre + length (arg_bytes arg)) + blen (args ≫= arg_bytes)) by lia.
  destruct arg as [b|].
  - rewrite (proj2 (Z.eqb_neq _ _)) by lia.
    assert (Hin : blen pre + (blen (arg_line (Some b)) + 2 + 1) + blen b + 2 <= blen buf) by (rewrite Hbuf, !length_app; lia).
    destruct (bulk_guard (blen buf) (blen pre + (blen (arg_line (Some b)) + 2 + 1)) (blen b)) as [(? & -> & -> & ->)|[?|?]];
      [lia|lia|unfold max_i64; lia| |lia|unfold max_i64 in *; lia].
    replace (blen pre + (blen (arg_line (Some b)) + 2 + 1) + blen b + 2) with (Z.of_nat (length pre + length (arg_bytes (Some b)))) by lia.
    rewrite HIH. eexists. split; [done|]. cbn. f_equal; [|done]. f_equal.
    replace buf with ((pre ++ header "$" (length b)) ++ b ++ CRLF ++ (args ≫= arg_bytes) ++ post)
      by (rewrite Hbuf; cbn [arg_bytes]; by rewrite <- !app_assoc).
    apply view_bytes_middle; [|done]. rewrite length_app. change (arg_bytes (Some b)) with (header "$" (length b) ++ b ++ CRLF) in Hlen.
    rewrite !length_app in Hlen. change (length CRLF) with 2%nat in Hlen. cbn [arg_line] in Hlen. lia.
  - cbn [Z.eqb]. replace (blen pre + (blen (arg_line None) + 2 + 1)) with (Z.of_nat (length pre + length (arg_bytes None))) by lia.
    rewrite HIH. eexists. split; [done|]. cbn. by f_equal.
Qed.

(** ** One command *)

Section one.
Context (max_make : Z).
Abbreviation parseOne := (parseOneMultibulk max_make).

Lemma parseOne_sound buf :
  fits buf →
  match parseOne buf with
  | OutOfFuel => False
  | Ret (inr (vs, k)) => 3 <= k <= blen buf ∧ Forall (view_in 0 k) vs
  | _ => True
  end.
Proof.
  unfold fits. intros Hl. destruct buf as [|c r]; [done|]. cbn [parseOneMultibulk]. case_bool_decide; [|done]. cbn [negb].
  destruct (readLine r) as [[line n]|] eqn:Hr; [|done]. apply (readLine_mono _ []) in Hr as [_ Hn].
  destruct (parseUint line) as [count|]; [|done]. destruct (max_make <? count); [done|].
  cbn [length] in Hl. pose proof (parse_args_sound (S (length (c :: r))) (c :: r) 0 count (n + 1)) as Hs.
  cbn [length] in *. specialize (Hs ltac:(lia) ltac:(unfold fits; cbn; lia) ltac:(lia)).
  destruct (parse_args _ _ _ _ _) as [[e|[vs k]]| |]; [done| |done..]. destruct Hs as (? & Hv & _).
  split; [lia|]. eapply Forall_impl; [exact Hv|]. intros v. apply view_in_mono; lia.
Qed.

Lemma parseOne_more buf m :
  fits (buf ++ m) → parseOne buf ≠ Ret (inl errIncomplete) → parseOne (buf ++ m) = parseOne buf.
Proof.
  unfold fits. rewrite length_app. intros Hl Hne. destruct buf as [|c r]; [done|]. cbn [app]. cbn [parseOneMultibulk] in *.
  case_bool_decide; [|done]. cbn [negb] in *. destruct (readLine r) as [[line n]|] eqn:Hr; [|done].
  apply (readLine_mono _ m) in Hr as [-> Hn].
  destruct (parseUint line) as [count|]; [|done]. destruct (max_make <? count); [done|].
  apply (parse_args_more (S (length (c :: r))) _ (c :: r)); [cbn; lia|unfold fits; rewrite length_app; lia|cbn; rewrite length_app; lia| |done].
  intros E. pose proof (parse_args_sound (S (length (c :: r))) (c :: r) 0 count (n + 1)) as Hs. rewrite E in Hs.
  apply Hs; [cbn; lia|unfold fits; lia|cbn; lia].
Qed.

Lemma parseOne_enc cmd post :
  fits (multibulk_bytes cmd ++ post) → Z.of_nat (length cmd) <= max_make →
  ∃ vs, parseOne (multibulk_bytes cmd ++ post) = Ret (inr (vs, blen (multibulk_bytes cmd)))
    ∧ cmd_bytes (multibulk_bytes cmd ++ post) vs = cmd.
Proof.
  intros Hl Hm. assert (Hb : multibulk_bytes cmd ++ post = header "*" (length cmd) ++ (cmd ≫= arg_bytes) ++ post).
  { unfold multibulk_bytes. by rewrite <- app_assoc. }
  pose proof (args_length cmd) as Hn.
  unfold fits in Hl. pose proof Hl as Hl2. rewrite Hb, !length_app in Hl2.
  destruct (parse_args_enc cmd (S (length (multibulk_bytes cmd ++ post))) (header "*" (length cmd)) post 0) as (vs & Hp & Hvs).
  { unfold fits. by rewrite <- Hb. }
  { rewrite Hb, !length_app. lia. }
  rewrite <- Hb in Hp, Hvs. exists vs. split; [|done]. revert Hp. rewrite Z.add_0_l.
  replace (blen (multibulk_bytes cmd)) with (blen (header "*" (length cmd)) + blen (cmd ≫= arg_bytes))
    by (unfold multibulk_bytes; rewrite length_app; lia).
  assert (Hline : multibulk_bytes cmd ++ post = Zbyte 42 :: Itoa (Z.of_nat (length cmd)) ++ CR :: LF :: (cmd ≫= arg_bytes) ++ post).
  { rewrite Hb. apply header_line. }
  assert (Hh : blen (header "*" (length cmd)) = blen (Itoa (Z.of_nat (length cmd))) + 2 + 1).
  { unfold header. rewrite !length_app. cbn. lia. }
  rewrite Hh. rewrite Hline at 3. cbn [parseOneMultibulk]. rewrite bool_decide_true by done. cbn [negb].
  rewrite readLine_line by (apply Itoa_no_crlf; lia). rewrite parseUint_Itoa by (unfold max_i64; lia).
  rewrite (proj2 (Z.ltb_ge _ _)) by lia. rewrite <- Hline. done.
Qed.

Lemma parseOne_prefix cmd p q :
  fits (multibulk_bytes cmd) → Z.of_nat (length cmd) <= max_make →
  multibulk_bytes cmd = p ++ q → q ≠ [] → parseOne p = Ret (inl errIncomplete).
Proof.
  intros Hl Hm Hpq Hq. destruct (parseOne_enc cmd []) as (vs & He & _); [by rewrite app_nil_r|done|].
  rewrite app_nil_r in He. assert (Hp : fits p).
  { unfold fits in *. rewrite Hpq, length_app in Hl. lia. }
  assert (D : parseOne p = Ret (inl errIncomplete) ∨ parseOne p ≠ Ret (inl errIncomplete)).
  { destruct (parseOne p) as [[[]|]| |]; (by left) || by right. }
  destruct D as [|D]; [done|]. pose proof (parseOne_sound p Hp) as Hs.
  pose proof (parseOne_more p q) as Hmore. rewrite <- Hpq in Hmore. rewrite <- (Hmore Hl D), He in Hs.
  rewrite Hpq, length_app in Hs. destruct q; [done|]. cbn in Hs. lia.
Qed.
End one.

(** ** Pipelines *)

Lemma multibulk_ne cmd : multibulk_bytes cmd ≠ [].
Proof. done. Qed.

Lemma cmd_bytes_shift (pre b : bytes) cmd hi :
  Forall (view_in 0 hi) cmd → cmd_bytes (pre ++ b) (shift_cmd (blen pre) cmd) = cmd_bytes b cmd.
Proof.
  unfold cmd_bytes, shift_cmd. intros Hv. rewrite <- list_fmap_compose. apply list_fmap_ext. intros i v Hi.
  pose proof (Forall_lookup_1 _ _ _ _ Hv Hi) as Hin. destruct v as [v|]; [|done]. cbn in Hin |- *. f_equal.
  unfold view_bytes, shift_view. cbn [Off Len]. rewrite Z2Nat.inj_add, Nat2Z.id by lia. by rewrite drop_app_add'.
Qed.

Lemma shift_cmd_in k lo hi cmd : Forall (view_in lo hi) cmd → Forall (view_in (k + lo) (k + hi)) (shift_cmd k cmd).
Proof. unfold shift_cmd. intros Hv. apply Forall_fmap. eapply Forall_impl; [exact Hv|]. intros [v|]; [|done]. cbn. lia. Qed.

Section requests.
Context (max_make : Z).
Abbreviation parseOne := (parseOneMultibulk max_make).

(** A command line that [make] accepts. *)
Definition countable_cmd (cmd : list (option bytes)) : Prop := Z.of_nat (length cmd) <= max_make.

Abbreviation encs cmds := (mbind multibulk_bytes cmds).

(** The rest of a stream that holds no complete command. *)
Definition partial (tail : bytes) : Prop := tail = [] ∨ parseOne tail = Ret (inl errIncomplete).

Lemma parse_loop_enc cmds pre tail f :
  let buf := pre ++ encs cmds ++ tail in
  fits buf → Forall countable_cmd cmds → partial tail → (length cmds < f)%nat →
  ∃ vss, parse_loop max_make f buf (blen pre) = Ret (Some (vss, blen pre + blen (encs cmds)))
    ∧ cmd_bytes buf <$> vss = cmds ∧ Forall (Forall (view_in (blen pre) (blen pre + blen (encs cmds)))) vss.
Proof.
  revert pre f. induction cmds as [|cmd cmds IH]; intros pre f buf Hl Hm Ht Hf; (destruct f as [|f]; [cbn in Hf; lia|]).
  { exists []. cbn [mbind list_bind length parse_loop]. rewrite Z.add_0_r. split; [|by repeat constructor].
    destruct (Z.leb_spec (blen buf) (blen pre)) as [|H]; [done|]. unfold buf in *. cbn [mbind list_bind app] in *.
    rewrite Nat2Z.id, drop_app_length. destruct Ht as [->| ->]; [|done]. rewrite app_nil_r in H. lia. }
  apply Forall_cons in Hm as [Hc Hm].
  assert (Hbuf : buf = (pre ++ multibulk_bytes cmd) ++ encs cmds ++ tail).
  { unfold buf. cbn [mbind list_bind]. by rewrite <- !app_assoc. }
  change (encs (cmd :: cmds)) with (multibulk_bytes cmd ++ encs cmds).
  pose proof Hl as Hl'. rewrite Hbuf in Hl'.
  destruct (IH (pre ++ multibulk_bytes cmd) f Hl' Hm Ht ltac:(cbn in Hf; lia)) as (vss & Hp & Hb & Hv).
  rewrite <- Hbuf in Hp, Hb. unfold fits in Hl'. rewrite !length_app in Hl'. rewrite length_app in Hp, Hv.
  destruct (parseOne_enc max_make cmd (encs cmds ++ tail)) as (vs & Ho & Hvs).
  { unfold fits. rewrite !length_app. lia. }
  { done. }
  assert (Hin : Forall (view_in 0 (blen (multibulk_bytes cmd))) vs).
  { pose proof (parseOne_sound max_make (multibulk_bytes cmd ++ encs cmds ++ tail)) as Hs. rewrite Ho in Hs.
    apply Hs. unfold fits. rewrite !length_app. lia. }
  assert (Hpos : (0 < length (multibulk_bytes cmd))%nat) by (destruct (multibulk_bytes cmd) eqn:E; [done|cbn; lia]).
  cbn [parse_loop]. destruct (Z.leb_spec (blen buf) (blen pre)) as [H|_].
  { rewrite Hbuf, !length_app in H. lia. }
  set (E := encs cmds) in *. rewrite Nat2Z.id. replace (drop (length pre) buf) with (multibulk_bytes cmd ++ E ++ tail)
    by (rewrite Hbuf, <- app_assoc; symmetry; apply drop_app_length).
  rewrite Ho. cbn [mbind res_bind]. rewrite <- Nat2Z.inj_add, Hp. cbn [mbind res_bind].
  exists (shift_cmd (blen pre) vs :: vss). rewrite length_app. split; [do 3 f_equal; lia|]. split.
  - cbn. f_equal; [|done]. rewrite Hbuf, <- app_assoc. erewrite cmd_bytes_shift by exact Hin. done.
  - constructor.
    + eapply Forall_impl; [apply (shift_cmd_in (blen pre)); exact Hin|]. intros v. apply view_in_mono; lia.
    + eapply Forall_impl; [exact Hv|]. intros vs' Hvs'. eapply Forall_impl; [exact Hvs'|]. intros v. apply view_in_mono; lia.
Qed.

(** Where a cut falls in a stream of encoded commands. *)
Lemma encs_cut cmds p q :
  encs cmds = p ++ q →
  ∃ don todo tail, cmds = don ++ todo ∧ p = encs don ++ tail ∧ tail ++ q = encs todo ∧
    (tail = [] ∨ ∃ cmd cmds' q', todo = cmd :: cmds' ∧ multibulk_bytes cmd = tail ++ q' ∧ q' ≠ []).
Proof.
  revert p. induction cmds as [|cmd cmds IH]; intros p Hpq; cbn [mbind list_bind] in Hpq.
  { symmetry in Hpq. apply app_eq_nil in Hpq as [-> ->]. by exists [], [], []; auto. }
  destruct (decide (length (multibulk_bytes cmd) ≤ length p)%nat) as [Hle|Hgt].
  - assert (Hp : p = multibulk_bytes cmd ++ drop (length (multibulk_bytes cmd)) p).
    { rewrite <- (take_drop (length (multibulk_bytes cmd)) p) at 1. f_equal.
      rewrite <- (take_app_le p q) by done. rewrite <- Hpq. apply take_app_length. }
    rewrite Hp, <- app_assoc in Hpq. apply app_inv_head in Hpq.
    destruct (IH _ Hpq) as (don & todo & tail & -> & Hd & Ht & Hc). exists (cmd :: don), todo, tail.
    split; [done|]. split; [|done]. rewrite Hd in Hp. rewrite Hp. change (encs (cmd :: don)) with (multibulk_bytes cmd ++ encs don). apply app_assoc.
  - exists [], (cmd :: cmds), p. split; [done|]. split; [done|]. split; [done|]. right.
    exists cmd, cmds, (drop (length p) (multibulk_bytes cmd)). split; [done|]. split.
    + rewrite <- (take_drop (length p) (multibulk_bytes cmd)) at 1. f_equal.
      rewrite <- (take_app_le (multibulk_bytes cmd) (encs cmds) (length p)) by lia. by rewrite Hpq, take_app_length.
    + intros E. apply (f_equal length) in E. rewrite length_drop in E. change (length []) with 0%nat in E. lia.
Qed.

(** A buffer that holds the beginning of a stream of encoded commands gives the
    commands that are complete, and what is left begins the rest. *)
Lemma parseRequests_cut cmds p q :
  encs cmds = p ++ q → fits p → Forall countable_cmd cmds →
  (∀ cmd, cmd ∈ cmds → fits (multibulk_bytes cmd)) →
  ∃ don todo vss k, cmds = don ++ todo ∧ parseRequests max_make p = Ret (Some (vss, k)) ∧
    cmd_bytes p <$> vss = don ∧ 0 <= k <= blen p ∧ drop (Z.to_nat k) p ++ q = encs todo ∧
    Forall (Forall (view_in 0 k)) vss ∧ (k = blen p ↔ drop (Z.to_nat k) p = []).
Proof.
  intros Hpq Hl Hm Hf. destruct (encs_cut _ _ _ Hpq) as (don & todo & tail & -> & -> & Ht & Hc).
  exists don, todo. apply Forall_app in Hm as [Hm1 Hm2].
  assert (Hp : partial tail).
  { destruct Hc as [->|(cmd & cmds' & q' & -> & Hq & Hne)]; [by left|right]. apply Forall_cons in Hm2 as [? _].
    apply (parseOne_prefix max_make cmd tail q'); [|done..]. apply Hf, elem_of_app. right. by left. }
  destruct (parse_loop_enc don [] tail (S (length (encs don ++ tail)))) as (vss & Hpl & Hb & Hv); [done..| |].
  { clear. rewrite length_app. enough (length don <= length (encs don))%nat by lia. induction don as [|c don IH]; cbn; [lia|].
    rewrite length_app. destruct (multibulk_bytes c) eqn:E; [done|]. cbn. lia. }
  cbn [app length] in *. rewrite !Z.add_0_l in *. exists vss, (blen (encs don)). unfold parseRequests.
  assert (Hd : drop (Z.to_nat (blen (encs don))) (encs don ++ tail) = tail) by (rewrite Nat2Z.id; apply drop_app_length).
  rewrite Hd. repeat split; [done|done|lia|rewrite length_app; lia|done|done| |].
  - rewrite length_app. intros E. apply length_zero_iff_nil. lia.
  - intros ->. by rewrite app_nil_r.
Qed.
End requests.
