(* ===== verification/Runtime.v ===== *)
(** * Memory and library functions

    Byte slices that share an array, and the functions of Go's library that the
    event loop and the commands call.  An array is a list of bytes at an
    address, a slice names an array, an offset and a length; what two slices
    share is visible through both. *)

From stdpp Require Import base list strings.
From Stdlib Require Import ZArith Lia Ascii.
From S2P Require Import Prelude Resp.

Local Open Scope Z_scope.

(** ** Memory *)

(** Arrays by address; every slice of an array extends, in capacity, to the
    end of the array. *)
Abbreviation mem := (list bytes).

Record slice := MkSlice { Arr : nat; SOff : nat; SLen : nat }.

(** A [[]byte] argument: nil, a slice of a shared array, or a fresh copy. *)
Inductive arg := ANil | ARef (s : slice) | ALit (b : bytes).

Definition array (m : mem) (a : nat) : bytes := default [] (m !! a).
Definition slice_bytes (m : mem) (s : slice) : bytes := take (SLen s) (drop (SOff s) (array m (Arr s))).
Definition arg_opt (m : mem) (a : arg) : option bytes :=
  match a with ANil => None | ARef s => Some (slice_bytes m s) | ALit b => Some b end.

(** [string(arg)] *)
Definition arg_str (m : mem) (a : arg) : bytes := default [] (arg_opt m a).

(** [append(s, b...)]: in place while the capacity lasts, otherwise in a new
    array, whose capacity the runtime chooses. *)
Definition append_slice (newcap : nat → nat → nat) (m : mem) (s : slice) (b : bytes) : mem * slice :=
  let arr := array m (Arr s) in
  let n := (SLen s + length b)%nat in
  if (SOff s + n <=? length arr)%nat then
    (<[Arr s := list_inserts (SOff s + SLen s) b arr]> m, MkSlice (Arr s) (SOff s) n)
  else
    let cap := Nat.max n (newcap (length arr - SOff s)%nat n) in
    (m ++ [slice_bytes m s ++ b ++ replicate (cap - n) (Zbyte 0)], MkSlice (length m) 0 n).

(** Library functions the server calls: case mapping, float parsing,
    [int64(t*1e9)] of a float, the codec, the growth policy of [append] and the
    limit of [make]. *)
Class Runtime := {
  ToLower : bytes → bytes;
  ToUpper : bytes → bytes;
  ParseFloat : bytes → option Z;
  Nanos : Z → Z;
  codec_Encode : Reply → bool → bytes;
  FormatFloat : Z → bytes;
  newcap : nat → nat → nat;
  max_make : Z
}.

(** ** A concrete runtime

    ASCII case mapping, two timeouts and slices that double: enough for
    concrete runs. *)

Definition ascii_lower (c : ascii) : ascii := if (65 <=? byteZ c) && (byteZ c <=? 90) then Zbyte (byteZ c + 32) else c.
Definition ascii_upper (c : ascii) : ascii := if (97 <=? byteZ c) && (byteZ c <=? 122) then Zbyte (byteZ c - 32) else c.

(** Timeouts of zero and of five seconds. *)
Definition parse_timeout (s : bytes) : option Z :=
  if bytes_eqb s (str "0") then Some 0 else if bytes_eqb s (str "5") then Some 4617315517961601024 else None.

Definition ex_runtime : Runtime := {|
  ToLower := map ascii_lower;
  ToUpper := map ascii_upper;
  ParseFloat := parse_timeout;
  Nanos := λ _, 5000000000;
  codec_Encode := λ r _, ToBytes (λ _, []) r;
  FormatFloat := λ _, [];
  newcap := λ old need, (2 * old)%nat;
  max_make := 1000000
|}.
