(* ===== verification/EventLoop.v ===== *)
(** * The event loop: [internal/net/eventloop]

    [server.go], [client.go], [block.go], [bufconn.go] over the request parser.
    Clients are pointers, so they live in a heap and the registry of blocked
    clients holds their addresses.  The query buffer of a client is a slice of
    an array, and the arguments of the parsed commands are slices of the same
    array; arrays live in a memory.  What the kernel answers (reads, writes,
    the clock) is part of the world. *)

From stdpp Require Import base gmap list strings.
From Stdlib Require Import ZArith Lia Ascii.
From S2P Require Import Prelude Float64 Strconv Resp ReqParser Runtime.

Local Open Scope Z_scope.

(** [n := copy(s, s[k:]); s = s[:n]], for [k] within the slice. *)
Definition compact (m : mem) (s : slice) (k : nat) : mem * slice :=
  let tail := drop k (slice_bytes m s) in
  (<[Arr s := list_inserts (SOff s) tail (array m (Arr s))]> m, MkSlice (Arr s) (SOff s) (length tail)).

(** The arguments of a parsed command, as slices of the query buffer. *)
Definition arg_of_view (s : slice) (v : option view) : arg :=
  match v with
  | None => ANil
  | Some v => ARef (MkSlice (Arr s) (SOff s + Z.to_nat (Off v)) (Z.to_nat (Len v)))
  end.

(** Clients are named by their place in the heap. *)
Abbreviation cid := nat.

(** ** The world *)

Inductive read_result := RData (b : bytes) | REagain | RErr.
Inductive write_result := WSome (n : nat) | WEagain | WErr.

(** What the outside sees, in order. *)
Inductive io_event := IoWrite (fd : Z) (b : bytes) | IoClose (fd : Z).

(** The interfaces of the server: the storage engine, which may keep the
    argument slices it is given, change memory and write to connections
    directly, and the poller, whose registrations may fail ([true]). *)
Class StorageEngine (E : Type) := {
  Exec : E → mem → cid → list arg → E * mem * list (cid * bytes) * option Reply;
  AfterClientClose : E → cid → E;
  Protocol : E → cid → bool
}.

Class Poller (P : Type) := {
  addRead : P → Z → P * bool;
  modReadWrite : P → Z → P * bool;
  remove : P → Z → P
}.

Record client := MkClient {
  fd : Z;
  queryBuf : slice;
  out : bytes;
  wantWrite : bool;
  blockKeys : option (list bytes);
  blockCmd : bytes;
  blockDeadline : Z;
  blockCmdLine : list arg
}.

#[export] Instance client_inhabited : Inhabited client :=
  populate (MkClient 0 (MkSlice 0 0 0) [] false None [] 0 []).

Section server.
Context {E P : Type} `{!StorageEngine E} `{!Poller P} `{!Runtime}.

Record Server := MkServer {
  engine : E;
  memory : mem;
  heap : list client;
  clients : gmap Z cid;
  waiterMap : gmap bytes (list cid);
  poller : P;
  writes : list write_result;
  clock : list Z;
  trace : list io_event
}.

Definition with_engine (s : Server) e := MkServer e (memory s) (heap s) (clients s) (waiterMap s) (poller s) (writes s) (clock s) (trace s).
Definition with_memory (s : Server) m := MkServer (engine s) m (heap s) (clients s) (waiterMap s) (poller s) (writes s) (clock s) (trace s).
Definition with_heap (s : Server) h := MkServer (engine s) (memory s) h (clients s) (waiterMap s) (poller s) (writes s) (clock s) (trace s).
Definition with_clients (s : Server) c := MkServer (engine s) (memory s) (heap s) c (waiterMap s) (poller s) (writes s) (clock s) (trace s).
Definition with_waiters (s : Server) w := MkServer (engine s) (memory s) (heap s) (clients s) w (poller s) (writes s) (clock s) (trace s).
Definition with_poller (s : Server) p := MkServer (engine s) (memory s) (heap s) (clients s) (waiterMap s) p (writes s) (clock s) (trace s).
Definition with_writes (s : Server) w := MkServer (engine s) (memory s) (heap s) (clients s) (waiterMap s) (poller s) w (clock s) (trace s).
Definition with_clock (s : Server) c := MkServer (engine s) (memory s) (heap s) (clients s) (waiterMap s) (poller s) (writes s) c (trace s).
Definition emit (s : Server) ev := MkServer (engine s) (memory s) (heap s) (clients s) (waiterMap s) (poller s) (writes s) (clock s) (trace s ++ [ev]).

Definition cl (s : Server) (c : cid) : client := heap s !!! c.
Definition set_cl (s : Server) (c : cid) (x : client) : Server := with_heap s (<[c := x]> (heap s)).

Definition set_queryBuf (x : client) q := MkClient (fd x) q (out x) (wantWrite x) (blockKeys x) (blockCmd x) (blockDeadline x) (blockCmdLine x).
Definition set_out (x : client) o := MkClient (fd x) (queryBuf x) o (wantWrite x) (blockKeys x) (blockCmd x) (blockDeadline x) (blockCmdLine x).
Definition set_wantWrite (x : client) w := MkClient (fd x) (queryBuf x) (out x) w (blockKeys x) (blockCmd x) (blockDeadline x) (blockCmdLine x).
Definition set_blocked (x : client) k n d l := MkClient (fd x) (queryBuf x) (out x) (wantWrite x) k n d l.

(** [time.Now().UnixNano()] *)
Definition now (s : Server) : Z * Server :=
  match clock s with [] => (0, s) | t :: ts => (t, with_clock s ts) end.

(** ** bufConn *)

Definition Write (s : Server) (c : cid) (b : bytes) : Server := set_cl s c (set_out (cl s c) (out (cl s c) ++ b)).
Definition hasOut (s : Server) (c : cid) : bool := negb (bool_decide (out (cl s c) = [])).
Definition takeOut (s : Server) (c : cid) : bytes * Server := (out (cl s c), set_cl s c (set_out (cl s c) [])).

Definition truncateTo (s : Server) (c : cid) (offset : Z) : Server :=
  let offset := if offset <? 0 then 0 else offset in
  if Z.of_nat (length (out (cl s c))) <=? offset then s
  else set_cl s c (set_out (cl s c) (take (Z.to_nat offset) (out (cl s c)))).

(** ** Blocked clients *)

Definition block_one (c : cid) (w : gmap bytes (list cid)) (key : bytes) : gmap bytes (list cid) :=
  <[key := default [] (w !! key) ++ [c]]> w.
Definition block (s : Server) (c : cid) (keys : list bytes) : Server :=
  with_waiters s (foldl (block_one c) (waiterMap s) keys).

Definition waiters (s : Server) (key : bytes) : list cid := default [] (waiterMap s !! key).

(** The inner loop of [unblock] removes the first occurrence. *)
Fixpoint remove_first (c : cid) (l : list cid) : list cid :=
  match l with [] => [] | w :: l => if bool_decide (w = c) then l else w :: remove_first c l end.

Definition unblock_list (c : cid) (l : list cid) : option (list cid) :=
  match remove_first c l with [] => None | l' => Some l' end.
Definition unblock (s : Server) (c : cid) : Server := with_waiters s (omap (unblock_list c) (waiterMap s)).

(** ** Closing and flushing *)

Definition closeClient (s : Server) (c : cid) : Server :=
  let s := with_engine s (AfterClientClose (engine s) c) in
  let s := with_poller s (remove (poller s) (fd (cl s c))) in
  let s := emit s (IoClose (fd (cl s c))) in
  with_clients s (delete (fd (cl s c)) (clients s)).

(** The write loop: what was written, and whether a write failed. *)
Fixpoint write_loop (ws : list write_result) (out : bytes) (written : nat) : nat * bool * list write_result :=
  if (length out <=? written)%nat then (written, false, ws) else
  match ws with
  | [] => (written, false, [])
  | WEagain :: ws => (written, false, ws)
  | WErr :: ws => (written, true, ws)
  | WSome n :: ws => write_loop ws out (written + Nat.min n (length out - written))
  end.

Definition flush (s : Server) (c : cid) : Server :=
  let '(o, s) := takeOut s c in
  if bool_decide (o = []) then s else
  let '(written, failed, ws) := write_loop (writes s) o 0 in
  let s := with_writes s ws in
  let s := emit s (IoWrite (fd (cl s c)) (take written o)) in
  if failed : bool then closeClient s c else
  if (written <? length o)%nat then
    let s := set_cl s c (set_out (cl s c) (drop written o ++ out (cl s c))) in
    if negb (wantWrite (cl s c)) then
      let '(p, err) := modReadWrite (poller s) (fd (cl s c)) in
      let s := with_poller s p in
      if err : bool then closeClient s c else set_cl s c (set_wantWrite (cl s c) true)
    else s
  else if wantWrite (cl s c) then
    let '(p, err) := addRead (poller s) (fd (cl s c)) in
    let s := with_poller s p in
    if err : bool then closeClient s c else set_cl s c (set_wantWrite (cl s c) false)
  else s.

(** ** Blocking commands *)

Definition isBlockCommand (name : bytes) : bool :=
  bytes_eqb name (str "blpop") || bytes_eqb name (str "brpop") || bytes_eqb name (str "xread") || bytes_eqb name (str "xreadgroup").
Definition isStreamAddCommand (name : bytes) : bool := bytes_eqb name (str "xadd").
Definition isListPushCommand (name : bytes) : bool := bytes_eqb name (str "lpush") || bytes_eqb name (str "rpush").

(** [None] is a nil reply. *)
Definition isNullReply (reply : option Reply) : bool :=
  match reply with
  | None => true
  | Some r =>
      let raw := ToBytes FormatFloat r in
      bytes_eqb raw (str "$-1" ++ CRLF) || bytes_eqb raw (str "_" ++ CRLF) || bytes_eqb raw (str "*-1" ++ CRLF)
  end.

Definition extractBlockKeys (m : mem) (cmdLine : list arg) : list bytes :=
  if (length cmdLine <? 3)%nat then [] else arg_str m <$> take (length cmdLine - 2) (drop 1 cmdLine).

Definition extractBlockDeadline (s : Server) (cmdLine : list arg) : Z * Server :=
  if (length cmdLine <? 3)%nat then (0, s) else
  match ParseFloat (default [] (arg_str (memory s) <$> last cmdLine)) with
  | None => (0, s)
  | Some timeoutSec =>
      if fle timeoutSec fzero then (0, s)
      else let '(t, s) := now s in (wrap64 (t + Nanos timeoutSec), s)
  end.

(** The index of the first argument whose upper case is [w]. *)
Fixpoint find_word (m : mem) (w : bytes) (cmdLine : list arg) : option nat :=
  match cmdLine with
  | [] => None
  | a :: l => if bytes_eqb (ToUpper (arg_str m a)) w then Some 0%nat else S <$> find_word m w l
  end.

Definition extractStreamBlockKeys (m : mem) (cmdLine : list arg) : list bytes :=
  match find_word m (str "STREAMS") cmdLine with
  | None => []
  | Some streamsIdx =>
      let remaining := (length cmdLine - streamsIdx - 1)%nat in
      if negb (remaining mod 2 =? 0)%nat || (remaining =? 0)%nat then []
      else arg_str m <$> take (remaining / 2) (drop (streamsIdx + 1) cmdLine)
  end.

(** The first [BLOCK] that an argument follows decides. *)
Fixpoint extractStreamBlockDeadline (s : Server) (cmdLine : list arg) : Z * Server :=
  match cmdLine with
  | a :: ((b :: _) as l) =>
      if bytes_eqb (ToUpper (arg_str (memory s) a)) (str "BLOCK") then
        match ParseInt (arg_str (memory s) b) with
        | None => (0, s)
        | Some timeoutMs =>
            if timeoutMs <? 0 then (0, s) else
            let '(t, s) := now s in
            if timeoutMs =? 0 then (wrap64 (t + 31536000000000000), s)
            else (wrap64 (t + wrap64 (timeoutMs * 1000000)), s)
        end
      else extractStreamBlockDeadline s l
  | _ => (0, s)
  end.

(** ** Running a command *)

(** A call of the engine, with what it writes to connections. *)
Definition exec (s : Server) (c : cid) (cmdLine : list arg) : option Reply * Server :=
  let '(e, m, ws, reply) := Exec (engine s) (memory s) c cmdLine in
  let s := with_memory (with_engine s e) m in
  (reply, foldl (λ s '(c, b), Write s c b) s ws).

Definition write_reply (s : Server) (c : cid) (reply : option Reply) : Server :=
  match reply with
  | None => s
  | Some r =>
      let encoded := codec_Encode r (Protocol (engine s) c) in
      if (0 <? length encoded)%nat then Write s c encoded else s
  end.

(** The arguments before [STREAMS], without [BLOCK] and the argument after
    it; the rest of the line, and whether [COUNT] was seen. *)
Fixpoint wakeup_prefix (m : mem) (skip hasCount : bool) (l : list arg) : list arg * list arg * bool :=
  match l with
  | [] => ([], [], hasCount)
  | a :: r =>
      if skip then wakeup_prefix m false hasCount r else
      let upper := ToUpper (arg_str m a) in
      if bytes_eqb upper (str "STREAMS") then ([], l, hasCount)
      else if bytes_eqb upper (str "BLOCK") then wakeup_prefix m true hasCount r
      else let '(res, rest, h) := wakeup_prefix m false (hasCount || bytes_eqb upper (str "COUNT")) r in
           (a :: res, rest, h)
  end.

Definition wakeup_fallback (x : client) : list arg :=
  [ALit (blockCmd x)] ++
  (if bytes_eqb (blockCmd x) (str "xreadgroup") then [ALit (str "GROUP"); ALit (str "?"); ALit (str "?")] else []) ++
  [ALit (str "COUNT"); ALit (str "1"); ALit (str "STREAMS")] ++
  (ALit <$> default [] (blockKeys x)) ++ ((λ _, ALit (str "0-0")) <$> default [] (blockKeys x)).

Definition buildStreamWakeupCmd (m : mem) (x : client) : list arg :=
  match blockCmdLine x with
  | [] => wakeup_fallback x
  | name :: orig =>
      let '(mid, rest, hasCount) := wakeup_prefix m false false orig in
      let head := name :: mid ++ (if hasCount then [] else [ALit (str "COUNT"); ALit (str "1")]) in
      match rest with
      | [] => wakeup_fallback x
      | streams :: args =>
          let remaining := length args in
          if (0 <? remaining)%nat && (remaining mod 2 =? 0)%nat then
            head ++ [streams] ++ take (remaining / 2) args ++ replicate (remaining / 2) (ALit (str "0-0"))
          else wakeup_fallback x
      end
  end.

(** The command a blocked client is tried with. *)
Definition wakeup_cmd (m : mem) (x : client) : list arg :=
  if bytes_eqb (blockCmd x) (str "xread") || bytes_eqb (blockCmd x) (str "xreadgroup") then buildStreamWakeupCmd m x
  else [ALit (blockCmd x)] ++ (ALit <$> default [] (blockKeys x)) ++ [ALit (str "0")].

(** One round of [wakeBlockedClients]; the deadline is kept. *)
Definition wake_one (s : Server) (c : cid) : Server :=
  let '(reply, s) := exec s c (wakeup_cmd (memory s) (cl s c)) in
  if negb (isNullReply reply) then
    let s := write_reply s c reply in
    let s := unblock s c in
    let s := set_cl s c (set_blocked (cl s c) None [] (blockDeadline (cl s c)) []) in
    flush s c
  else s.

Definition wakeBlockedClients (s : Server) (pushKey : bytes) : Server := foldl wake_one s (waiters s pushKey).

Definition protocolNullMultiBulk : Reply := NullMultiBulkReply.

(** One client of [expireBlockedClients]. *)
Definition expire_one (t : Z) (s : Server) (f : Z) : Server :=
  match clients s !! f with
  | None => s
  | Some c =>
      if bool_decide (blockKeys (cl s c) = None) || (blockDeadline (cl s c) =? 0) then s else
      if blockDeadline (cl s c) <=? t then
        let s := write_reply s c (Some protocolNullMultiBulk) in
        let s := unblock s c in
        let s := set_cl s c (set_blocked (cl s c) None [] 0 []) in
        flush s c
      else s
  end.

(** The traversal order of the map is a list of its keys; a client that is
    closed on the way is not visited. *)
Definition expireBlockedClients (s : Server) (order : list Z) : Server :=
  let '(t, s) := now s in foldl (expire_one t) s order.

(** ** Reading *)

(** What the blocking test decides after a null reply. *)
Definition block_request (s : Server) (cmdName : bytes) (cmdLine : list arg) : list bytes * Z * Server :=
  if bytes_eqb cmdName (str "xread") || bytes_eqb cmdName (str "xreadgroup") then
    let keys := extractStreamBlockKeys (memory s) cmdLine in
    let '(deadline, s) := extractStreamBlockDeadline s cmdLine in (keys, deadline, s)
  else
    let keys := extractBlockKeys (memory s) cmdLine in
    let '(deadline, s) := extractBlockDeadline s cmdLine in (keys, deadline, s).

(** The wake-ups after a command. *)
Definition after_cmd (s : Server) (cmdName : bytes) (cmdLine : list arg) : Server :=
  let s := match cmdLine with
           | _ :: key :: _ => if isListPushCommand cmdName then wakeBlockedClients s (arg_str (memory s) key) else s
           | _ => s
           end in
  match cmdLine with
  | _ :: key :: _ => if isStreamAddCommand cmdName then wakeBlockedClients s (arg_str (memory s) key) else s
  | _ => s
  end.

(** The loop over the parsed commands. *)
Fixpoint exec_cmds (s : Server) (c : cid) (cmds : list (list arg)) : res Server :=
  match cmds with
  | [] => Ret s
  | cmdLine :: rest =>
      match cmdLine with
      | [] => Panic
      | name :: _ =>
          let cmdName := ToLower (arg_str (memory s) name) in
          let preLen := Z.of_nat (length (out (cl s c))) in
          let '(reply, s) := exec s c cmdLine in
          let s := write_reply s c reply in
          if isBlockCommand cmdName && bool_decide (is_Some reply) && isNullReply reply then
            let '(keys, deadline, s) := block_request s cmdName cmdLine in
            if (0 <? length keys)%nat && (0 <? deadline) then
              let s := truncateTo s c preLen in
              let s := set_cl s c (set_blocked (cl s c) (Some keys) cmdName deadline cmdLine) in
              Ret (block s c keys)
            else exec_cmds (after_cmd s cmdName cmdLine) c rest
          else exec_cmds (after_cmd s cmdName cmdLine) c rest
      end
  end.

(** The read loop; [None] means that the client is to be closed. *)
Fixpoint read_loop (m : mem) (q : slice) (rs : list read_result) : mem * slice * bool :=
  match rs with
  | [] | REagain :: _ => (m, q, true)
  | RErr :: _ => (m, q, false)
  | RData [] :: _ => (m, q, false)
  | RData b :: rs => let '(m, q) := append_slice newcap m q b in read_loop m q rs
  end.

Definition onReadable (s : Server) (c : cid) (rs : list read_result) : res Server :=
  let '(m, q, ok) := read_loop (memory s) (queryBuf (cl s c)) rs in
  let s := set_cl (with_memory s m) c (set_queryBuf (cl s c) q) in
  if negb ok then Ret (closeClient s c) else
  parsed ← parseRequests max_make (slice_bytes (memory s) (queryBuf (cl s c)));
  match parsed with
  | None => Ret (closeClient s c)
  | Some (cmds, consumed) =>
      let q := queryBuf (cl s c) in
      let args := map (map (arg_of_view q)) cmds in
      let s := if 0 <? consumed then
                 let '(m, q) := compact (memory s) q (Z.to_nat consumed) in
                 set_cl (with_memory s m) c (set_queryBuf (cl s c) q)
               else s in
      s ← exec_cmds s c args;
      Ret (if hasOut s c then flush s c else s)
  end.

(** ** Connections and events *)

(** [newClient]: the query buffer is an empty slice of capacity 1024. *)
Definition newClient (s : Server) (nfd : Z) : cid * Server :=
  let q := MkSlice (length (memory s)) 0 0 in
  let s := with_memory s (memory s ++ [replicate 1024 (Zbyte 0)]) in
  (length (heap s), with_heap s (heap s ++ [MkClient nfd q [] false None [] 0 []])).

(** One accepted connection, for which [SetNonblock] may fail. *)
Definition accept_one (s : Server) (nfd : Z) (nonblock_err : bool) : Server :=
  if nonblock_err then emit s (IoClose nfd) else
  let '(c, s) := newClient s nfd in
  let s := with_clients s (<[nfd := c]> (clients s)) in
  let '(p, err) := addRead (poller s) nfd in
  let s := with_poller s p in
  if err : bool then closeClient s c else s.
Definition accept (s : Server) (conns : list (Z * bool)) : Server :=
  foldl (λ s '(nfd, err), accept_one s nfd err) s conns.

(** An event of the poller, with what the kernel answers to it. *)
Inductive event := EvListen (conns : list (Z * bool)) | EvClient (efd : Z) (readable writable : bool) (rs : list read_result).

(** One round of the inner loop of [Run]. *)
Definition handle_event (s : Server) (ev : event) : res Server :=
  match ev with
  | EvListen conns => Ret (accept s conns)
  | EvClient efd readable writable rs =>
      match clients s !! efd with
      | None => Ret s
      | Some c =>
          s ← (if readable && bool_decide (blockKeys (cl s c) = None) then onReadable s c rs else Ret s);
          Ret (if writable && hasOut s c then flush s c else s)
      end
  end.

(** One turn of the poll loop of [Run]. *)
Definition turn (s : Server) (evs : list event) (order : list Z) : res Server :=
  s ← foldM handle_event evs s; Ret (expireBlockedClients s order).

Definition shutdown (s : Server) (order : list Z) : Server :=
  foldl (λ s f, match clients s !! f with Some c => closeClient s c | None => s end) s order.
End server.
