(* ===== verification/EventLoopThm.v ===== *)
(** * What the event loop guarantees

    The query buffer over the shared arrays, the order of commands and replies,
    and the output buffer. *)

From stdpp Require Import base gmap list strings.
From Stdlib Require Import ZArith Lia Ascii.
From S2P Require Import Prelude Float64 Strconv Resp ReqParser Runtime EventLoop.

Local Open Scope Z_scope.

(** ** Slices *)

(** The slice lies in an array of the memory. *)
Definition in_mem (m : mem) (s : slice) : Prop :=
  ∃ arr, m !! Arr s = Some arr ∧ (SOff s + SLen s <= length arr)%nat.

Lemma in_mem_array m s : in_mem m s → m !! Arr s = Some (array m (Arr s)) ∧ (SOff s + SLen s <= length (array m (Arr s)))%nat.
Proof. intros (arr & H & Hl). unfold array. rewrite H. done. Qed.

Lemma slice_bytes_length m s : in_mem m s → length (slice_bytes m s) = SLen s.
Proof. intros [_ H]%in_mem_array. unfold slice_bytes. rewrite length_take, length_drop. lia. Qed.

(** Writing [b] at the end of a slice. *)
Lemma inserts_end (arr : bytes) o n b :
  (o + n + length b <= length arr)%nat →
  take (n + length b) (drop o (list_inserts (o + n) b arr)) = take n (drop o arr) ++ b.
Proof.
  intros H. apply list_eq. intros i. destruct (decide (i < n)%nat) as [Hi|Hi].
  - rewrite lookup_take_lt by lia. rewrite lookup_drop, list_lookup_inserts_lt by lia.
    rewrite lookup_app_l by (rewrite length_take, length_drop; lia). by rewrite lookup_take_lt, lookup_drop by lia.
  - rewrite lookup_app_r by (rewrite length_take, length_drop; lia). rewrite length_take, length_drop.
    replace (Nat.min n (length arr - o)) with n by lia. destruct (decide (i < n + length b)%nat) as [Hj|Hj].
    + rewrite lookup_take_lt, lookup_drop by lia. rewrite list_lookup_inserts by lia. f_equal. lia.
    + rewrite lookup_take_ge by lia. symmetry. apply lookup_ge_None. lia.
Qed.

Lemma append_slice_spec nc m s b m' s' :
  in_mem m s → append_slice nc m s b = (m', s') → in_mem m' s' ∧ slice_bytes m' s' = slice_bytes m s ++ b.
Proof.
  intros [Ha Hl]%in_mem_array. unfold append_slice. destruct (Nat.leb_spec (SOff s + (SLen s + length b)) (length (array m (Arr s)))) as [H|H];
    intros [= <- <-].
  - assert (Hi : <[Arr s:=list_inserts (SOff s + SLen s) b (array m (Arr s))]> m !! Arr s
                 = Some (list_inserts (SOff s + SLen s) b (array m (Arr s)))).
    { apply list_lookup_insert_eq. by eapply lookup_lt_Some. }
    split; [eexists; cbn; split; [exact Hi|rewrite length_inserts; lia]|].
    unfold slice_bytes at 1. cbn [Arr SOff SLen]. unfold array at 1. rewrite Hi. cbn [default]. apply inserts_end. lia.
  - set (x := slice_bytes m s ++ b ++ _). split.
    + exists x. split; [cbn; by rewrite list_lookup_middle|]. cbn. unfold x. rewrite !length_app.
      unfold slice_bytes. rewrite length_take, length_drop. lia.
    + unfold slice_bytes at 1. cbn [Arr SOff SLen]. unfold array. rewrite list_lookup_middle by done. cbn [default].
      rewrite drop_0. unfold x. rewrite app_assoc. apply take_app_length'. rewrite length_app.
      unfold slice_bytes. rewrite length_take, length_drop. lia.
Qed.

(** A compaction that leaves nothing does not touch the memory. *)
Lemma compact_all m s k : in_mem m s → (SLen s <= k)%nat → compact m s k = (m, MkSlice (Arr s) (SOff s) 0).
Proof.
  intros Hs Hk. unfold compact. rewrite drop_ge by (by rewrite slice_bytes_length). cbn.
  rewrite list_insert_id; [done|]. by apply in_mem_array.
Qed.

(** An argument shows what its view shows of the buffer. *)
Lemma arg_of_view_opt m s v hi :
  in_mem m s → view_in 0 hi v → hi <= Z.of_nat (SLen s) →
  arg_opt m (arg_of_view s v) = view_bytes (slice_bytes m s) <$> v.
Proof.
  intros Hs Hv Hhi. destruct v as [v|]; [|done]. cbn in *. f_equal. unfold view_bytes, slice_bytes. cbn [Arr SOff SLen].
  rewrite <- drop_drop. rewrite skipn_firstn_comm, take_take. f_equal. lia.
Qed.

Lemma args_of_views m s vss hi :
  in_mem m s → Forall (Forall (view_in 0 hi)) vss → hi <= Z.of_nat (SLen s) →
  map (map (arg_opt m)) (map (map (arg_of_view s)) vss) = cmd_bytes (slice_bytes m s) <$> vss.
Proof.
  intros Hs Hv Hhi. rewrite map_map. apply list_fmap_ext. intros i vs Hi. rewrite map_map.
  apply list_fmap_ext. intros j v Hj. eapply arg_of_view_opt; [done| |done].
  by eapply Forall_lookup_1; [eapply Forall_lookup_1; [exact Hv|exact Hi]|].
Qed.

Lemma read_loop_data `{RT : !Runtime} chunks m q m' q' ok :
  in_mem m q → [] ∉ chunks → read_loop m q (RData <$> chunks) = (m', q', ok) →
  ok = true ∧ in_mem m' q' ∧ slice_bytes m' q' = slice_bytes m q ++ concat chunks.
Proof.
  revert m q. induction chunks as [|b chunks IH]; intros m q Hq Hne; cbn.
  { intros [= <- <- <-]. by rewrite app_nil_r. }
  apply not_elem_of_cons in Hne as [Hb Hne]. destruct b as [|x b]; [done|].
  destruct (append_slice newcap m q (x :: b)) as [m1 q1] eqn:Ha. apply append_slice_spec in Ha as [Hq1 Hs1]; [|done].
  intros Hr. apply IH in Hr as (-> & Hq' & ->); [|done..]. rewrite Hs1, <- app_assoc. done.
Qed.

(** ** A batch of commands *)

(** An engine that looks at the contents of its arguments and keeps neither the
    slices nor the memory. *)
Class ContentEngine (E : Type) `{!StorageEngine E} := {
  step : E → cid → list (option bytes) → E * option Reply;
  Exec_step e m c args : Exec e m c args = (let '(e', r) := step e c (map (arg_opt m) args) in (e', m, [], r))
}.

Section batch.
Context {E P : Type} `{!StorageEngine E} `{!Poller P} `{RT : !Runtime} `{!ContentEngine E}.
Implicit Types s : Server (E:=E) (P:=P).

Definition encode_reply (e : E) (c : cid) (r : option Reply) : bytes :=
  match r with None => [] | Some r => codec_Encode r (Protocol e c) end.

(** The reference: the commands one after the other, and their replies. *)
Fixpoint run (e : E) (c : cid) (cmds : list (list (option bytes))) : E * bytes :=
  match cmds with
  | [] => (e, [])
  | cmd :: cmds => let '(e1, r) := step e c cmd in
                   let '(e2, o) := run e1 c cmds in (e2, encode_reply e1 c r ++ o)
  end.

Lemma run_app e c cmds cmds' :
  run e c (cmds ++ cmds') = let '(e1, o) := run e c cmds in let '(e2, o') := run e1 c cmds' in (e2, o ++ o').
Proof.
  revert e. induction cmds as [|cmd cmds IH]; intros e; cbn; [by destruct (run e c cmds')|].
  destruct (step e c cmd) as [e1 r]. rewrite IH. destruct (run e1 c cmds) as [e2 o]. destruct (run e2 c cmds') as [e3 o'].
  by rewrite app_assoc.
Qed.

(** The server with a new engine state and more output for one client. *)
Definition put s (c : cid) (eo : E * bytes) : Server :=
  set_cl (with_engine s (fst eo)) c (set_out (cl s c) (out (cl s c) ++ snd eo)).

Lemma cl_set_cl s c x : (c < length (heap s))%nat → cl (set_cl s c x) c = x.
Proof. intros H. unfold cl, set_cl. cbn. by apply list_lookup_total_insert_eq. Qed.

Lemma cl_with_poller s p c : cl (with_poller s p) c = cl s c.
Proof. done. Qed.

Lemma set_cl_id s c : (c < length (heap s))%nat → set_cl s c (cl s c) = s.
Proof.
  intros H. unfold set_cl, with_heap, cl. destruct s as [e m h cs w p ws ck tr]. cbn in *.
  rewrite list_insert_id; [done|]. by apply list_lookup_lookup_total_lt.
Qed.

Lemma set_out_id x o : o = out x → set_out x o = x.
Proof. intros ->. by destruct x. Qed.

Lemma put_nil s c e : (c < length (heap s))%nat → put s c (e, []) = with_engine s e.
Proof. intros H. unfold put. cbn [fst snd]. rewrite app_nil_r, (set_out_id (cl s c)) by done. by apply (set_cl_id (with_engine s e)). Qed.

Lemma put_put s c e1 o1 e2 o2 :
  (c < length (heap s))%nat → put (put s c (e1, o1)) c (e2, o2) = put s c (e2, o1 ++ o2).
Proof.
  intros H. unfold put at 1. unfold put at 2 3. rewrite cl_set_cl by done. unfold put, set_cl, with_heap, with_engine. cbn.
  rewrite list_insert_insert_eq. by rewrite <- app_assoc.
Qed.

Lemma heap_put s c eo : length (heap (put s c eo)) = length (heap s).
Proof. unfold put, set_cl. cbn. by rewrite length_insert. Qed.

Lemma write_reply_put s c r :
  (c < length (heap s))%nat → write_reply s c r = put s c (engine s, encode_reply (engine s) c r).
Proof.
  intros H. unfold write_reply, encode_reply. destruct r as [r|].
  - destruct (codec_Encode r (Protocol (engine s) c)) as [|x l] eqn:E1; cbn [length Nat.ltb Nat.leb].
    + rewrite put_nil by done. by destruct s.
    + by destruct s.
  - rewrite put_nil by done. by destruct s.
Qed.

(** A command that does not block. *)
Definition plain (cmd : list (option bytes)) : Prop :=
  match cmd with [] => False | name :: _ => isBlockCommand (ToLower (default [] name)) = false end.

Lemma wake_none s key : waiterMap s = ∅ → wakeBlockedClients s key = s.
Proof. intros H. unfold wakeBlockedClients, waiters. rewrite H, lookup_empty. done. Qed.

Lemma after_cmd_none s name cmdLine : waiterMap s = ∅ → after_cmd s name cmdLine = s.
Proof.
  intros H. unfold after_cmd. destruct cmdLine as [|a [|key l]]; [done..|].
  destruct (isListPushCommand name); [rewrite (wake_none s) by done|];
    (destruct (isStreamAddCommand name); [by rewrite wake_none|done]).
Qed.

Lemma exec_cmds_run s c args cmds :
  (c < length (heap s))%nat → waiterMap s = ∅ → Forall plain cmds →
  map (map (arg_opt (memory s))) args = cmds →
  exec_cmds s c args = Ret (put s c (run (engine s) c cmds)).
Proof.
  revert s cmds. induction args as [|cmdLine args IH]; intros s cmds Hc Hw Hp <-; cbn [map exec_cmds run].
  { rewrite put_nil by done. by destruct s. }
  apply Forall_cons in Hp as [Hp1 Hp]. destruct cmdLine as [|name rest]; [done|]. cbn in Hp1.
  unfold exec. rewrite Exec_step. destruct (step (engine s) c (map (arg_opt (memory s)) (name :: rest))) as [e1 r] eqn:Hs.
  change (default [] (arg_opt (memory s) name)) with (arg_str (memory s) name) in Hp1. rewrite Hp1. cbn [andb foldl].
  set (s1 := with_memory (with_engine s e1) (memory s)).
  rewrite (write_reply_put s1) by done. rewrite after_cmd_none by done.
  rewrite (IH _ (map (map (arg_opt (memory s))) args)); [| |done..].
  2:{ by rewrite heap_put. }
  change (engine (put s1 c (engine s1, encode_reply (engine s1) c r))) with e1.
  destruct (run e1 c (map (map (arg_opt (memory s))) args)) as [e2 o]. rewrite put_put by done. done.
Qed.

(** ** One readiness event *)

Record ready s (c : cid) : Prop := {
  ready_heap : (c < length (heap s))%nat;
  ready_waiters : waiterMap s = ∅;
  ready_buf : in_mem (memory s) (queryBuf (cl s c))
}.

(** What the client's query buffer holds. *)
Definition pending s (c : cid) : bytes := slice_bytes (memory s) (queryBuf (cl s c)).

(** A buffer whose complete commands reach its end, or that holds none. *)
Definition clean (p : bytes) : Prop :=
  match parseRequests max_make p with Ret (Some (_, k)) => k = 0 ∨ k = blen p | _ => False end.

(** What the complete commands leave of a buffer. *)
Definition rest (p : bytes) : bytes :=
  match parseRequests max_make p with Ret (Some (_, k)) => drop (Z.to_nat k) p | _ => [] end.

Abbreviation encs cmds := (mbind multibulk_bytes cmds).

(** Commands the parser can hold. *)
Definition sendable (cmds : list (list (option bytes))) : Prop :=
  Forall (countable_cmd max_make) cmds ∧ ∀ cmd, cmd ∈ cmds → fits (multibulk_bytes cmd).

Definition with_buf s (c : cid) m q : Server := set_cl (with_memory s m) c (set_queryBuf (cl s c) q).

Lemma onReadable_event s c chunks cmds q :
  ready s c → [] ∉ chunks → encs cmds = (pending s c ++ concat chunks) ++ q → fits (pending s c ++ concat chunks) →
  sendable cmds → Forall plain cmds → clean (pending s c ++ concat chunks) →
  ∃ don todo m' q', cmds = don ++ todo ∧ in_mem m' q' ∧ slice_bytes m' q' = rest (pending s c ++ concat chunks) ∧
    rest (pending s c ++ concat chunks) ++ q = encs todo ∧
    let s' := put (with_buf s c m' q') c (run (engine s) c don) in
    onReadable s c (RData <$> chunks) = Ret (if hasOut s' c then flush s' c else s').
Proof.
  intros [Hc Hw Hb] Hne Henc Hfit [Hcount Hfits] Hplain Hclean. unfold onReadable, pending in *.
  destruct (read_loop _ _ _) as [[m1 q1] ok] eqn:Hr. apply read_loop_data in Hr as (-> & Hq1 & Hp); [|done..].
  cbn [negb]. change (set_cl (with_memory s m1) c (set_queryBuf (cl s c) q1)) with (with_buf s c m1 q1).
  assert (Hcl : ∀ m q, cl (with_buf s c m q) c = set_queryBuf (cl s c) q) by (intros m0 q0; by apply cl_set_cl).
  rewrite Hcl. change (memory (with_buf s c m1 q1)) with m1. cbn [queryBuf set_queryBuf].
  rewrite <- Hp in *. destruct (parseRequests_cut max_make cmds _ q Henc Hfit Hcount Hfits)
    as (don & todo & vss & k & -> & Hparse & Hvss & Hk & Hrest & Hviews & Hall).
  unfold rest. unfold clean in Hclean. rewrite Hparse in Hclean |- *. cbn [mbind res_bind].
  apply Forall_app in Hplain as [Hplain _].
  assert (Hlen : Z.of_nat (SLen q1) = blen (slice_bytes m1 q1)) by (by rewrite slice_bytes_length).
  assert (Hargs : map (map (arg_opt m1)) (map (map (arg_of_view q1)) vss) = don).
  { rewrite <- Hvss. eapply args_of_views; [done|exact Hviews|lia]. }
  exists don, todo. destruct Hclean as [-> | ->].
  - exists m1, q1. split; [done|]. split; [done|]. split; [done|]. split; [done|].
    change (0 <? 0) with false. cbn iota. rewrite (exec_cmds_run _ _ _ don); [done| |done..].
    unfold with_buf, set_cl. cbn. by rewrite length_insert.
  - exists m1, (MkSlice (Arr q1) (SOff q1) 0). split; [done|]. split; [|split; [|split]].
    + destruct (in_mem_array _ _ Hq1) as [Ha Hl]. eexists. split; [exact Ha|]. cbn. lia.
    + by rewrite drop_ge by lia.
    + done.
    + destruct (Z.ltb_spec 0 (blen (slice_bytes m1 q1))) as [H0|H0].
      * rewrite compact_all by (done || lia).
        replace (set_cl (with_memory (with_buf s c m1 q1) m1) c (set_queryBuf (set_queryBuf (cl s c) q1) (MkSlice (Arr q1) (SOff q1) 0)))
          with (with_buf s c m1 (MkSlice (Arr q1) (SOff q1) 0)).
        2:{ unfold with_buf, set_cl, with_heap. cbn. by rewrite list_insert_insert_eq. }
        rewrite (exec_cmds_run _ _ _ don); [done| |done..]. unfold with_buf, set_cl. cbn. by rewrite length_insert.
      * assert (q1 = MkSlice (Arr q1) (SOff q1) 0) as <- by (destruct q1; cbn in *; f_equal; lia).
        rewrite (exec_cmds_run _ _ _ don); [done| |done..]. unfold with_buf, set_cl. cbn. by rewrite length_insert.
Qed.

(** ** Output *)

(** What was written to a descriptor. *)
Definition sent (f : Z) (tr : list io_event) : bytes :=
  tr ≫= λ ev, match ev with IoWrite g b => if bool_decide (g = f) then b else [] | IoClose _ => [] end.

Lemma sent_snoc f tr b : sent f (tr ++ [IoWrite f b]) = sent f tr ++ b.
Proof. unfold sent. rewrite bind_app. cbn. rewrite bool_decide_true by done. by rewrite app_nil_r. Qed.

Lemma write_loop_spec ws o n w failed ws' :
  (n <= length o)%nat → write_loop ws o n = (w, failed, ws') →
  (n <= w <= length o)%nat ∧ (failed = true → WErr ∈ ws) ∧ (∀ x, x ∈ ws' → x ∈ ws).
Proof.
  revert n. induction ws as [|r ws IH]; intros n Hn; cbn [write_loop].
  - destruct (length o <=? n)%nat; intros [= <- <- <-]; (split; [lia|]; split; [done|]; set_solver).
  - destruct (Nat.leb_spec (length o) n); [intros [= <- <- <-]; split; [lia|]; split; [done|]; set_solver|].
    destruct r as [k| |]; [|intros [= <- <- <-]; split; [lia|]; set_solver..].
    intros H1%IH; [|lia]. destruct H1 as (? & Hf & Hx). split; [lia|]. split; set_solver.
Qed.

(** The parts of the state that a flush leaves alone. *)
Definition same_but_output s s' (c : cid) : Prop :=
  engine s' = engine s ∧ memory s' = memory s ∧ waiterMap s' = waiterMap s ∧ clients s' = clients s ∧
  length (heap s') = length (heap s) ∧ queryBuf (cl s' c) = queryBuf (cl s c) ∧ fd (cl s' c) = fd (cl s c) ∧
  blockKeys (cl s' c) = blockKeys (cl s c).

(** A flush that no error interrupts: the bytes written and the bytes that
    wait are those that waited before, in order. *)
Lemma flush_conserves s c :
  (c < length (heap s))%nat → WErr ∉ writes s →
  (∀ p f, snd (addRead p f) = false ∧ snd (modReadWrite (P:=P) p f) = false) →
  same_but_output s (flush s c) c ∧ WErr ∉ writes (flush s c) ∧
  sent (fd (cl s c)) (trace (flush s c)) ++ out (cl (flush s c) c) = sent (fd (cl s c)) (trace s) ++ out (cl s c).
Proof.
  intros Hc Hw Hp. unfold flush, takeOut. set (o := out (cl s c)).
  assert (Hcl : ∀ s0 x, length (heap s0) = length (heap s) → cl (set_cl s0 c x) c = x) by (intros s0 x H; apply cl_set_cl; lia).
  case_bool_decide as Ho.
  { unfold same_but_output. rewrite Hcl by done. cbn. rewrite length_insert. rewrite Ho. repeat split; done. }
  destruct (write_loop _ _ _) as [[w failed] ws] eqn:Hl. apply write_loop_spec in Hl as (Hwl & Hf & Hx); [|lia]. cbn in Hf, Hx.
  destruct failed; [by destruct (Hw (Hf eq_refl))|].
  set (s1 := emit _ _). assert (Hs1 : cl s1 c = set_out (cl s c) []) by (apply (Hcl s); done).
  assert (Hh1 : length (heap s1) = length (heap s)) by apply length_insert.
  assert (Ht1 : sent (fd (cl s c)) (trace s1) = sent (fd (cl s c)) (trace s) ++ take w o).
  { unfold s1. cbn [trace emit with_writes]. change (cl (with_writes (set_cl s c (set_out (cl s c) [])) ws) c) with (cl (set_cl s c (set_out (cl s c) [])) c).
    rewrite Hcl by done. apply sent_snoc. }
  assert (Hw1 : WErr ∉ writes s1) by (intros Hin; apply Hw, Hx, Hin).
  assert (Hrest : engine s1 = engine s ∧ memory s1 = memory s ∧ waiterMap s1 = waiterMap s ∧ clients s1 = clients s) by done.
  clearbody s1. destruct Hrest as (He & Hm & Hwt & Hcs). unfold same_but_output. destruct (Nat.ltb_spec w (length o)) as [Hlt|Hge].
  - rewrite Hcl by done. rewrite Hs1. cbn [out set_out wantWrite fd].
    assert (Hcat : sent (fd (cl s c)) (trace s1) ++ drop w o ++ [] = sent (fd (cl s c)) (trace s) ++ o).
    { by rewrite Ht1, app_nil_r, <- app_assoc, take_drop. }
    destruct (wantWrite (cl s c)); cbn [negb].
    + rewrite Hcl by done. cbn. rewrite length_insert. done.
    + destruct (modReadWrite _ _) as [p err] eqn:Hpp. pose proof (proj2 (Hp (poller s1) (fd (cl s c)))) as Hperr.
      change (poller (set_cl s1 c _)) with (poller s1) in Hpp. rewrite Hpp in Hperr. cbn in Hperr. subst err.
      rewrite Hcl by (cbn; by rewrite length_insert). rewrite cl_with_poller, Hcl by done. cbn. rewrite !length_insert. done.
  - rewrite Hs1. cbn [out set_out wantWrite fd].
    assert (Hcat : sent (fd (cl s c)) (trace s1) ++ [] = sent (fd (cl s c)) (trace s) ++ o).
    { by rewrite Ht1, app_nil_r, take_ge. }
    destruct (wantWrite (cl s c)).
    + destruct (addRead _ _) as [p err] eqn:Hpp. pose proof (proj1 (Hp (poller s1) (fd (cl s c)))) as Hperr.
      rewrite Hpp in Hperr. cbn in Hperr. subst err. rewrite Hcl, cl_with_poller by done. rewrite Hs1. cbn. rewrite length_insert. done.
    + rewrite Hs1. done.
Qed.

(** ** A session *)

(** The readiness events of one client, each with the chunks its reads return. *)
Definition session s (c : cid) (events : list (list bytes)) : res Server :=
  foldM (λ s chunks, onReadable s c (RData <$> chunks)) events s.

Fixpoint clean_stream (buf : bytes) (events : list (list bytes)) : Prop :=
  match events with
  | [] => True
  | chunks :: events => clean (buf ++ concat chunks) ∧ clean_stream (rest (buf ++ concat chunks)) events
  end.

(** The commands of a stream are executed one after the other, in order. *)
Definition served s (c : cid) (cmds : list (list (option bytes))) s' : Prop :=
  let '(e, o) := run (engine s) c cmds in
  engine s' = e ∧ sent (fd (cl s c)) (trace s') ++ out (cl s' c) = sent (fd (cl s c)) (trace s) ++ out (cl s c) ++ o.

Lemma served_trans s s1 s2 c cmds cmds' :
  fd (cl s1 c) = fd (cl s c) → served s c cmds s1 → served s1 c cmds' s2 → served s c (cmds ++ cmds') s2.
Proof.
  unfold served. intros Hfd. rewrite run_app. destruct (run (engine s) c cmds) as [e o]. intros [-> H1].
  destruct (run e c cmds') as [e' o']. intros [-> H2]. split; [done|]. rewrite Hfd in H2. rewrite H2, app_assoc, H1.
  by rewrite <- !app_assoc.
Qed.

Definition fault_free s : Prop :=
  WErr ∉ writes s ∧ ∀ p f, snd (addRead p f) = false ∧ snd (modReadWrite (P:=P) p f) = false.

(** One event: the complete commands are served, and the rest is kept. *)
Lemma event_served s c chunks cmds q :
  ready s c → fault_free s → [] ∉ chunks → encs cmds = (pending s c ++ concat chunks) ++ q →
  fits (pending s c ++ concat chunks) → sendable cmds → Forall plain cmds → clean (pending s c ++ concat chunks) →
  ∃ don todo s', cmds = don ++ todo ∧ onReadable s c (RData <$> chunks) = Ret s' ∧ ready s' c ∧ fault_free s' ∧
    fd (cl s' c) = fd (cl s c) ∧ served s c don s' ∧
    pending s' c = rest (pending s c ++ concat chunks) ∧ pending s' c ++ q = encs todo.
Proof.
  intros Hr [Hw Hp] Hne Henc Hfit Hsend Hplain Hclean.
  destruct (onReadable_event s c chunks cmds q) as (don & todo & m' & q' & Hcmds & Hin & Hsl & Hrest & Hon); [done..|].
  exists don, todo. destruct (run (engine s) c don) as [e o] eqn:Hrun. set (s1 := put (with_buf s c m' q') c (e, o)) in *.
  assert (Hcl : cl s1 c = set_out (set_queryBuf (cl s c) q') (out (cl s c) ++ o)).
  { unfold s1, put. destruct Hr as [Hc _ _]. rewrite cl_set_cl by (unfold with_buf, set_cl; cbn; by rewrite length_insert).
    unfold with_buf. by rewrite cl_set_cl. }
  assert (Hh : length (heap s1) = length (heap s)) by (unfold s1; rewrite heap_put; apply length_insert).
  destruct (flush_conserves s1 c) as ((He & Hm & Hwt & Hcs & Hlen & Hq & Hfd & Hbk) & Hws & Hsent);
    [destruct Hr; lia|done|done|]. rewrite Hcl in Hq, Hfd, Hsent.
  cbn [queryBuf set_out set_queryBuf fd out] in Hq, Hfd, Hsent. change (trace s1) with (trace s) in Hsent.
  exists (if hasOut s1 c then flush s1 c else s1). rewrite Hon. split; [done|]. split; [done|].
  unfold served. rewrite Hrun. destruct Hr as [Hc Hwm Hb]. unfold pending at 1 3. destruct (hasOut s1 c) eqn:Hout.
  - rewrite Hm, Hq, Hfd, He. change (memory s1) with m'. rewrite Hsl. repeat split; try done; try apply Hp.
    + lia.
    + by rewrite Hwt.
    + rewrite Hm, Hq. done.
  - rewrite Hcl. cbn. change (memory s1) with m'. rewrite Hsl. repeat split; try done; try apply Hp; [lia|].
    rewrite Hcl. done.
Qed.

(** A buffer that holds no complete command. *)
Definition idle (p : bytes) : Prop := ∃ vss, parseRequests max_make p = Ret (Some (vss, 0)).

Lemma clean_rest_idle p : clean p → idle (rest p).
Proof.
  unfold clean, rest, idle. destruct (parseRequests max_make p) as [[[vss k]|]| |] eqn:Hp; [|done..].
  intros [-> | ->]; [by exists vss|]. rewrite drop_ge by lia. by exists [].
Qed.

Lemma idle_encs cmds : sendable cmds → fits (encs cmds) → idle (encs cmds) → cmds = [].
Proof.
  intros [Hc Hf] Hfit [vss Hi]. destruct (parseRequests_cut max_make cmds (encs cmds) []) as (don & todo & vss' & k & Hd & Hp & _ & _ & Hr & _ & Hk);
    [by rewrite app_nil_r|done..|]. rewrite Hi in Hp. injection Hp as <- <-. change (Z.to_nat 0) with 0%nat in *. rewrite drop_0 in *.
  destruct cmds as [|cmd cmds]; [done|]. exfalso.
  destruct (parse_loop_enc max_make (cmd :: cmds) [] [] (S (length (encs (cmd :: cmds))))) as (vss'' & He & _).
  { cbn [app]. by rewrite app_nil_r. }
  { done. }
  { by left. }
  { clear. induction (cmd :: cmds) as [|c l IH]; [cbn; lia|]. change (encs (c :: l)) with (multibulk_bytes c ++ encs l).
    rewrite length_app. cbn [length]. assert (0 < length (multibulk_bytes c))%nat by (cbn; lia). lia. }
  cbn [app] in He. rewrite app_nil_r in He. unfold parseRequests in Hi. change (blen []) with 0 in He. rewrite Hi in He.
  injection He as _ He. change (encs (cmd :: cmds)) with (multibulk_bytes cmd ++ encs cmds) in He. rewrite length_app in He.
  assert (0 < length (multibulk_bytes cmd))%nat by (cbn; lia). lia.
Qed.

(** C16: a client that sends any sequence of commands, cut into reads in any way in
    which no read ends inside a command that follows a complete one: every
    command is executed exactly once, in order, with exactly the arguments
    that were sent, and the bytes written to the client, followed by those
    that wait, are the replies in the same order.  The engine uses the contents
    of its arguments and keeps none of their slices ([ContentEngine]); no
    command blocks and no client waits; writes may be partial but do not fail,
    and neither do the registrations at the poller. *)
Theorem event_loop_serves_stream s c (events : list (list bytes)) (cmds : list (list (option bytes))) :
  ready s c → fault_free s → idle (pending s c) → Forall (λ chunks, [] ∉ chunks) events →
  encs cmds = pending s c ++ concat (concat events) → fits (encs cmds) → sendable cmds → Forall plain cmds →
  clean_stream (pending s c) events →
  ∃ s', session s c events = Ret s' ∧ served s c cmds s' ∧ pending s' c = [].
Proof.
  revert s cmds. induction events as [|chunks events IH]; intros s cmds Hr Hff Hidle Hne Henc Hfit Hsend Hplain Hclean.
  - cbn in Henc. rewrite app_nil_r in Henc. rewrite <- Henc in Hidle. apply idle_encs in Hidle as ->; [|done..].
    exists s. split; [done|]. unfold served. cbn [run]. rewrite app_nil_r. done.
  - apply Forall_cons in Hne as [Hne1 Hne]. destruct Hclean as [Hc1 Hclean]. cbn [concat] in Henc. rewrite concat_app, app_assoc in Henc.
    destruct (event_served s c chunks cmds _ Hr Hff Hne1 Henc) as (don & todo & s1 & -> & Hon & Hr1 & Hff1 & Hfd & Hs1 & Hp1 & Hq);
      [|done..|].
    { unfold fits in *. rewrite Henc, length_app in Hfit. lia. }
    destruct (IH s1 todo) as (s2 & Hses & Hs2 & Hp2); [done|done| |done|by symmetry| | | |by rewrite Hp1|].
    + rewrite Hp1. by apply clean_rest_idle.
    + unfold fits in *. rewrite bind_app, length_app in Hfit. lia.
    + destruct Hsend as [Hs Hf]. apply Forall_app in Hs as [_ Hs]. split; [done|]. intros cmd Hin. apply Hf, elem_of_app. by right.
    + by apply Forall_app in Hplain as [_ Hplain].
    + exists s2. split; [|split; [|done]].
      * unfold session in *. cbn [foldM]. rewrite Hon. exact Hses.
      * by eapply served_trans.
Qed.

End batch.
