(* ===== verification/EventLoopBlock.v ===== *)
(** * Blocked clients of the event loop

    The registry of blocked clients and the expiry of their deadlines. *)

From stdpp Require Import base gmap list strings.
From Stdlib Require Import ZArith Lia Ascii.
From S2P Require Import Prelude Float64 Strconv Resp ReqParser Runtime EventLoop EventLoopThm.

Local Open Scope Z_scope.

(** ** The registry *)

Section registry.
Context {E P : Type}.
Implicit Types s : Server (E:=E) (P:=P).

Lemma remove_first_app c l : c ∉ l → remove_first c (l ++ [c]) = l.
Proof.
  induction l as [|w l IH]; intros H; cbn; [by rewrite bool_decide_true|]. apply not_elem_of_cons in H as [Hw H].
  rewrite bool_decide_false by congruence. by rewrite IH.
Qed.

Lemma remove_first_notin c l : c ∉ l → remove_first c l = l.
Proof.
  induction l as [|w l IH]; intros H; cbn; [done|]. apply not_elem_of_cons in H as [Hw H].
  rewrite bool_decide_false by congruence. by rewrite IH.
Qed.

Lemma block_lookup c keys w key :
  NoDup keys →
  foldl (block_one c) w keys !! key = if bool_decide (key ∈ keys) then Some (default [] (w !! key) ++ [c]) else w !! key.
Proof.
  revert w. induction keys as [|k keys IH]; intros w Hnd; [done|]. apply NoDup_cons in Hnd as [Hk Hnd]. cbn [foldl].
  rewrite IH by done. unfold block_one. destruct (decide (key = k)) as [->|Hne].
  - rewrite (bool_decide_false (k ∈ keys)), bool_decide_true by (done || by left). by rewrite lookup_insert_eq.
  - rewrite lookup_insert_ne by done.
    destruct (decide (key ∈ keys)); [rewrite !bool_decide_true by (done || by right); done|].
    rewrite !bool_decide_false; [done|intros [?|?]%elem_of_cons; done|done].
Qed.

(** A client that blocks on distinct keys and is released leaves the registry
    as it was, when it was not waiting before; while it waits it is the last
    of the waiters of each of its keys, and of no other key. *)
Theorem unblock_after_block s c keys :
  NoDup keys → map_Forall (λ _ l, l ≠ [] ∧ c ∉ l) (waiterMap s) →
  (∀ key, waiters (block s c keys) key = waiters s key ++ (if bool_decide (key ∈ keys) then [c] else [])) ∧
  waiterMap (unblock (block s c keys) c) = waiterMap s.
Proof.
  intros Hnd Hw. split.
  - intros key. unfold waiters, block. cbn. rewrite block_lookup by done. case_bool_decide; [done|]. by rewrite app_nil_r.
  - unfold unblock, block. cbn. apply map_eq. intros key. rewrite lookup_omap, block_lookup by done.
    destruct (waiterMap s !! key) as [l|] eqn:Hl; [destruct (Hw _ _ Hl) as [Hne Hc]|]; case_bool_decide; cbn; [..|done];
      unfold unblock_list.
    + rewrite remove_first_app by done. by destruct l.
    + rewrite remove_first_notin by done. by destruct l.
    + cbn. by rewrite bool_decide_true.
Qed.
End registry.

(** ** Expiry *)

Section expiry.
Context {E P : Type} `{!StorageEngine E} `{!Poller P} `{RT : !Runtime}.
Implicit Types s : Server (E:=E) (P:=P).

Definition io_fd (ev : io_event) : Z := match ev with IoWrite f _ => f | IoClose f => f end.
(** What the outside sees on one descriptor. *)
Definition ios (f : Z) s : list io_event := filter (λ ev, io_fd ev = f) (trace s).

(** What a flush does: the output of its client is offered to the socket, which
    takes some of it; the rest stays, or an error closes the client, whose
    buffer may then be lost. *)
Definition flushed s s' (c : cid) : Prop :=
  ∃ n o w (closed : bool), heap s' = <[c := set_wantWrite (set_out (cl s c) o) w]> (heap s) ∧ waiterMap s' = waiterMap s ∧
    (closed = false → o = drop n (out (cl s c))) ∧
    trace s' = trace s ++ (if bool_decide (out (cl s c) = []) then [] else [IoWrite (fd (cl s c)) (take n (out (cl s c)))])
                       ++ (if closed then [IoClose (fd (cl s c))] else []) ∧
    clients s' = (if closed then delete (fd (cl s c)) (clients s) else clients s) ∧
    engine s' = (if closed then AfterClientClose (engine s) c else engine s).

Lemma set_wantWrite_id x w : w = wantWrite x → set_wantWrite x w = x.
Proof. intros ->. by destruct x. Qed.

Lemma closeClient_frame s c :
  heap (closeClient s c) = heap s ∧ waiterMap (closeClient s c) = waiterMap s ∧
  clients (closeClient s c) = delete (fd (cl s c)) (clients s).
Proof. by split_and!. Qed.
Lemma closeClient_trace s c :
  trace (closeClient s c) = trace s ++ [IoClose (fd (cl s c))] ∧ engine (closeClient s c) = AfterClientClose (engine s) c.
Proof. by split. Qed.

(** The end of a flush that changes the interest: [s1] has written. *)
Lemma flushed_poll s s1 c p (err : bool) n o w0 w :
  (c < length (heap s))%nat → heap s1 = <[c := set_wantWrite (set_out (cl s c) o) w0]> (heap s) →
  cl s1 c = set_wantWrite (set_out (cl s c) o) w0 → waiterMap s1 = waiterMap s → clients s1 = clients s → engine s1 = engine s →
  out (cl s c) ≠ [] → trace s1 = trace s ++ [IoWrite (fd (cl s c)) (take n (out (cl s c)))] → o = drop n (out (cl s c)) →
  flushed s (if err then closeClient (with_poller s1 p) c else set_cl (with_poller s1 p) c (set_wantWrite (cl (with_poller s1 p) c) w)) c.
Proof.
  intros Hc Hh Hs1 Hw Hcs He Hne Ht Ho. destruct err.
  - exists n, o, w0, true. rewrite bool_decide_false by done. 
    destruct (closeClient_frame (with_poller s1 p) c) as (-> & -> & ->), (closeClient_trace (with_poller s1 p) c) as [-> ->].
    rewrite cl_with_poller, Hs1. cbn. rewrite Hh, Hw, Hcs, He, Ht, <- app_assoc. by split_and!.
  - exists n, o, w, false. rewrite bool_decide_false by done. cbn. rewrite Hh, list_insert_insert_eq, cl_with_poller, Hs1.
    by split_and!.
Qed.

Lemma flush_flushed s c : (c < length (heap s))%nat → flushed s (flush s c) c.
Proof.
  intros Hc. unfold flush, takeOut.
  assert (Hcl : ∀ s0 x, length (heap s0) = length (heap s) → cl (set_cl s0 c x) c = x) by (intros s0 x H; apply cl_set_cl; lia).
  set (o := out (cl s c)). case_bool_decide as Ho.
  { exists 0%nat, [], (wantWrite (cl s c)), false. fold o. rewrite bool_decide_true, Ho by done. rewrite set_wantWrite_id by done.
    cbn. rewrite app_nil_r. by split_and!. }
  destruct (write_loop _ _ _) as [[n failed] ws]. set (s1 := emit _ _).
  assert (Hs1 : cl s1 c = set_out (cl s c) []) by (apply (Hcl s); done).
  assert (Hh1 : heap s1 = <[c := set_out (cl s c) []]> (heap s)) by done.
  assert (Ht1 : trace s1 = trace s ++ [IoWrite (fd (cl s c)) (take n o)]).
  { cbn. do 3 f_equal. unfold cl at 1. cbn. by rewrite list_lookup_total_insert_eq. }
  assert (Hw1 : waiterMap s1 = waiterMap s ∧ clients s1 = clients s ∧ engine s1 = engine s) by done. clearbody s1. destruct Hw1 as (Hwt & Hcs & He).
  destruct failed.
  { exists n, [], (wantWrite (cl s c)), true. fold o. rewrite bool_decide_false by done. 
    destruct (closeClient_frame s1 c) as (-> & -> & ->), (closeClient_trace s1 c) as [-> ->].
    rewrite set_wantWrite_id by done. rewrite Hs1, Hh1, Ht1, Hwt, Hcs, He, <- app_assoc. by split_and!. }
  destruct (n <? length o)%nat eqn:Hn.
  - set (s2 := set_cl s1 c _). assert (Hs2 : cl s2 c = set_out (cl s c) (drop n o)).
    { unfold s2. rewrite Hcl by (rewrite Hh1; apply length_insert). rewrite Hs1. cbn. by rewrite app_nil_r. }
    assert (Hh2 : heap s2 = <[c := set_wantWrite (set_out (cl s c) (drop n o)) (wantWrite (cl s c))]> (heap s)).
    { unfold s2. cbn. rewrite Hh1, list_insert_insert_eq, Hs1. cbn. rewrite app_nil_r. done. }
    rewrite Hs2. cbn [wantWrite set_out]. destruct (wantWrite (cl s c)) eqn:Hww; cbn [negb].
    + exists n, (drop n o), true, false. fold o. rewrite bool_decide_false by done. by split_and!.
    + destruct (modReadWrite _ _) as [p err]. rewrite <- Hww in *. by eapply flushed_poll.
  - apply Nat.ltb_ge in Hn. assert (Hd : drop n o = []) by (by apply drop_ge).
    rewrite Hs1. cbn [wantWrite set_out]. destruct (wantWrite (cl s c)) eqn:Hww.
    + destruct (addRead _ _) as [p err]. eapply (flushed_poll s s1 c p err n [] true false); try done.
      * rewrite Hh1. rewrite set_wantWrite_id; done.
      * rewrite Hs1. by rewrite set_wantWrite_id.
    + exists n, [], false, false. fold o. rewrite bool_decide_false by done. rewrite set_wantWrite_id by done.
      by split_and!.
Qed.

(** The map of clients leads from a descriptor to the client that has it. *)
Definition wf_clients s : Prop := map_Forall (λ f c, fd (cl s c) = f ∧ (c < length (heap s))%nat) (clients s).

(** A client that is blocked and will be released at time [t]. *)
Definition due (t : Z) (x : client) : bool :=
  negb (bool_decide (blockKeys x = None)) && negb (blockDeadline x =? 0) && (blockDeadline x <=? t).

(** The null reply that a client is owed. *)
Definition null_reply s c : bytes := codec_Encode protocolNullMultiBulk (Protocol (engine s) c).

(** The client has been released: it waits for no key and is in no list of
    waiters, its buffer followed by the null reply was offered to the socket in
    one write, and it keeps the rest, or has been closed by an error. *)
Definition released s s' (f : Z) (c : cid) : Prop :=
  ∃ n (closed : bool), let o := out (cl s c) ++ null_reply s c in
    ios f s' = ios f s ++ (if bool_decide (o = []) then [] else [IoWrite f (take n o)]) ++ (if closed then [IoClose f] else []) ∧
    clients s' !! f = (if closed then None else Some c) ∧ (closed = false → out (cl s' c) = drop n o) ∧
    blockKeys (cl s' c) = None ∧ blockCmd (cl s' c) = [] ∧ blockDeadline (cl s' c) = 0 ∧ blockCmdLine (cl s' c) = [] ∧
    fd (cl s' c) = f ∧ queryBuf (cl s' c) = queryBuf (cl s c) ∧ ∀ key, c ∉ waiters s' key.

(** The client has been left alone: its state, its place in the map, what the
    outside sees of it and the lists in which it waits. *)
Record untouched (f : Z) (c : cid) s s' : Prop := {
  un_cl : cl s' c = cl s c;
  un_map : clients s' !! f = clients s !! f;
  un_ios : ios f s' = ios f s;
  un_waits : ∀ key, c ∈ waiters s' key ↔ c ∈ waiters s key;
  un_proto : Protocol (engine s') c = Protocol (engine s) c
}.

Lemma untouched_refl f c s : untouched f c s s.
Proof. by split. Qed.
Lemma untouched_trans f c s1 s2 s3 : untouched f c s1 s2 → untouched f c s2 s3 → untouched f c s1 s3.
Proof. intros [? ? ? W ?] [? ? ? W' ?]. split; try congruence. intros key. by rewrite W', W. Qed.

Lemma waiters_unblock s c key : waiters (unblock s c) key = remove_first c (waiters s key).
Proof.
  unfold waiters, unblock. cbn. rewrite lookup_omap. destruct (waiterMap s !! key) as [l|]; [|done]. cbn. unfold unblock_list.
  by destruct (remove_first c l).
Qed.
Lemma remove_first_ne c d l : c ≠ d → c ∈ remove_first d l ↔ c ∈ l.
Proof.
  intros Hne. induction l as [|x l IH]; [done|]. cbn. case_bool_decide; subst; rewrite !elem_of_cons, ?IH; naive_solver.
Qed.
Lemma remove_first_sub c l : remove_first c l `sublist_of` l.
Proof. induction l as [|x l IH]; [done|]. cbn. case_bool_decide; [by apply sublist_cons|by apply sublist_skip]. Qed.
Lemma remove_first_nodup c l : NoDup l → c ∉ remove_first c l.
Proof.
  induction 1 as [|x l Hx Hl IH]; [apply not_elem_of_nil|]. cbn. case_bool_decide as Ex; [by subst|]. by intros [?|?]%elem_of_cons.
Qed.

(** Nobody waits twice for a key. *)
Definition single_waits s : Prop := ∀ key, NoDup (waiters s key).

Lemma expire_one_due t s f c :
  wf_clients s → single_waits s → clients s !! f = Some c → due t (cl s c) = true →
  released s (expire_one t s f) f c ∧ waiterMap (expire_one t s f) = waiterMap (unblock s c) ∧
  (∃ x, fd x = f ∧ heap (expire_one t s f) = <[c := x]> (heap s)) ∧
  ∃ closed : bool, clients (expire_one t s f) = (if closed then delete f (clients s) else clients s) ∧
    engine (expire_one t s f) = (if closed then AfterClientClose (engine s) c else engine s) ∧
    ∃ evs, trace (expire_one t s f) = trace s ++ evs ∧ Forall (λ ev, io_fd ev = f) evs.
Proof.
  intros Hwf Hw Hf Hdue. destruct (Hwf _ _ Hf) as [Hfd Hc]. unfold expire_one. rewrite Hf. unfold due in Hdue.
  apply andb_true_iff in Hdue as [Hdue ->]. apply andb_true_iff in Hdue as [H1%negb_true_iff H2%negb_true_iff]. rewrite H1, H2. cbn [orb].
  assert (Ew : write_reply s c (Some protocolNullMultiBulk) = Write s c (null_reply s c)).
  { unfold write_reply. fold (null_reply s c). destruct (null_reply s c); [|done]. unfold Write, set_cl. cbn. rewrite app_nil_r, set_out_id by done.
    rewrite list_insert_id by (by apply list_lookup_lookup_total_lt). by destruct s. }
  rewrite Ew. set (o := out (cl s c) ++ null_reply s c). set (s1 := unblock _ c).
  assert (Hs1 : cl s1 c = set_out (cl s c) o) by (unfold cl at 1; cbn; by apply list_lookup_total_insert_eq).
  set (s2 := set_cl s1 c _). set (x := set_blocked (set_out (cl s c) o) None [] 0 []).
  assert (Hh2 : heap s2 = <[c := x]> (heap s)) by (unfold s2; cbn; rewrite Hs1; apply list_insert_insert_eq).
  assert (Hs2 : cl s2 c = x) by (unfold cl at 1; rewrite Hh2; by apply list_lookup_total_insert_eq).
  assert (Hrest : waiterMap s2 = waiterMap (unblock s c) ∧ clients s2 = clients s ∧ engine s2 = engine s ∧ trace s2 = trace s) by done.
  clearbody s2. destruct Hrest as (Hw2 & Hc2 & He2 & Ht2).
  destruct (flush_flushed s2 c) as (n & o' & w & closed & Hh & Hwm & Ho & Ht & Hcl & He); [by rewrite Hh2, length_insert|].
  rewrite Hs2 in Ht, Hcl, Ho, Hh. cbn [out fd x set_blocked set_out] in Ht, Hcl, Ho. rewrite Hfd in Ht, Hcl.
  rewrite Hh2, list_insert_insert_eq in Hh.
  assert (Hx : cl (flush s2 c) c = set_wantWrite (set_out x o') w).
  { unfold cl at 1. rewrite Hh. by apply list_lookup_total_insert_eq. }
  split; [|split; [by rewrite Hwm|]; split; [eexists; split; [|exact Hh]; exact Hfd|]].
  - exists n, closed. cbv zeta. fold o. unfold ios. rewrite Ht, Ht2, Hx, Hcl, Hc2, filter_app. split_and!.
    + f_equal. rewrite filter_app. f_equal; [case_bool_decide; [done|by rewrite filter_cons_True]|destruct closed; [by rewrite filter_cons_True|done]].
    + destruct closed; [apply lookup_delete_eq|done].
    + done.
    + done.
    + done.
    + done.
    + done.
    + done.
    + done.
    + intros key. unfold waiters. rewrite Hwm, Hw2. change (c ∉ waiters (unblock s c) key). rewrite waiters_unblock. apply remove_first_nodup, Hw.
  - exists closed. rewrite Hcl, Hc2, He, He2. split_and!; [done|done|]. eexists. split; [by rewrite Ht, Ht2|].
    apply Forall_app. split; [case_bool_decide|destruct closed]; by repeat constructor.
Qed.

Lemma expire_one_not_due t s f c : clients s !! f = Some c → due t (cl s c) = false → expire_one t s f = s.
Proof.
  intros Hf Hdue. unfold expire_one. rewrite Hf. unfold due in Hdue.
  case_bool_decide; [done|]. destruct (blockDeadline (cl s c) =? 0); [done|]. cbn in *. by rewrite Hdue.
Qed.

Lemma expire_one_wf t s f : wf_clients s → single_waits s → wf_clients (expire_one t s f) ∧ single_waits (expire_one t s f).
Proof.
  intros Hwf Hw. destruct (clients s !! f) as [c|] eqn:Hf; [|by unfold expire_one; rewrite Hf].
  destruct (due t (cl s c)) eqn:Hdue; [|by rewrite (expire_one_not_due t s f c)].
  destruct (expire_one_due t s f c Hwf Hw Hf Hdue) as (_ & Hwm & (x & Hx & Hh) & closed & Hc & _). split.
  - intros g c' Hg. assert (Hg' : clients s !! g = Some c').
    { rewrite Hc in Hg. destruct closed; [by apply lookup_delete_Some in Hg as [_ Hg]|done]. }
    destruct (Hwf _ _ Hg') as [Hgd Hgl]. unfold cl. rewrite Hh, length_insert. split; [|done]. destruct (decide (c' = c)) as [->|Hne].
    + rewrite list_lookup_total_insert_eq by done. destruct (Hwf _ _ Hf) as [Hfd _]. congruence.
    + by rewrite list_lookup_total_insert_ne.
  - intros key. unfold waiters. rewrite Hwm. change (NoDup (waiters (unblock s c) key)). rewrite waiters_unblock.
    eapply sublist_NoDup; [apply Hw|apply remove_first_sub].
Qed.

(** Closing a connection leaves the protocols of the others. *)
Definition own_protocols : Prop := ∀ (e : E) c c', c ≠ c' → Protocol (AfterClientClose e c') c = Protocol e c.

(** A client that is not in the map or not due is left alone by the turn of
    any descriptor. *)
Lemma expire_one_frame t s g f c :
  own_protocols → wf_clients s → single_waits s → fd (cl s c) = f →
  (clients s !! f = None ∨ clients s !! f = Some c ∧ (due t (cl s c) = false ∨ g ≠ f)) → untouched f c s (expire_one t s g).
Proof.
  intros Hpr Hwf Hw Hfd Hf. destruct (clients s !! g) as [c'|] eqn:Hg; [|unfold expire_one; rewrite Hg; apply untouched_refl].
  destruct (due t (cl s c')) eqn:Hdue; [|rewrite (expire_one_not_due t s g c') by done; apply untouched_refl].
  destruct (Hwf _ _ Hg) as [Hgd Hgl].
  assert (Hne : c ≠ c' ∧ f ≠ g). { split; [intros <-|intros <-]; destruct Hf as [Hf|[Hf [?|?]]]; congruence. }
  destruct Hne as [Hne Hfg]. destruct (expire_one_due t s g c' Hwf Hw Hg Hdue) as (_ & Hwm & (x & _ & Hh) & closed & Hc & He & evs & Ht & Hev).
  split.
  - unfold cl. by rewrite Hh, list_lookup_total_insert_ne.
  - rewrite Hc. destruct closed; [by rewrite lookup_delete_ne|done].
  - unfold ios. rewrite Ht, filter_app. assert (E0 : filter (λ ev, io_fd ev = f) evs = []).
    { clear -Hev Hfg. induction Hev as [|ev evs <- _ IH]; [done|]. by rewrite filter_cons_False. }
    by rewrite E0, app_nil_r.
  - intros key. unfold waiters at 1. rewrite Hwm. change (c ∈ waiters (unblock s c') key ↔ c ∈ waiters s key). rewrite waiters_unblock. by apply remove_first_ne.
  - rewrite He. destruct closed; [by apply Hpr|done].
Qed.

Lemma expire_frame t order s f c :
  own_protocols → wf_clients s → single_waits s → fd (cl s c) = f →
  (clients s !! f = None ∨ clients s !! f = Some c ∧ (due t (cl s c) = false ∨ f ∉ order)) → untouched f c s (foldl (expire_one t) s order).
Proof.
  intros Hpr. revert s. induction order as [|g order IH]; intros s Hwf Hw Hfd Hf; [apply untouched_refl|]. cbn [foldl].
  assert (H1 : untouched f c s (expire_one t s g)).
  { apply expire_one_frame; [done..|]. destruct Hf as [?|[? [?|Hn]]]; [by left|right; by auto|]. right. split; [done|]. right. set_solver. }
  destruct (expire_one_wf t s g Hwf Hw) as [Hwf1 Hw1]. eapply untouched_trans; [exact H1|]. destruct H1 as [Hcl Hmap _ _ _].
  apply IH; [done..|by rewrite Hcl|]. rewrite Hmap, Hcl. destruct Hf as [?|[? [?|Hn]]]; [by left|right; by auto|]. right. split; [done|]. right. set_solver.
Qed.

Lemma released_frame s s1 s2 s3 f c : untouched f c s s1 → released s1 s2 f c → untouched f c s2 s3 → released s s3 f c.
Proof.
  intros [C1 M1 I1 W1 P1] (n & closed & Hio & Hm & Ho & B1 & B2 & B3 & B4 & B5 & B6 & Hw) [C2 M2 I2 W2 _]. exists n, closed. cbv zeta in *.
  unfold null_reply in *. rewrite P1, C1 in *. rewrite C2, M2, I2, <- I1. split_and!; try done. intros key Hin. by apply (Hw key), W2.
Qed.

End expiry.
