(* ===== verification/EventLoopEx.v ===== *)
(** * The event loop on concrete inputs

    A runtime, pollers and small engines, the witnesses of the theorems, and
    runs that show what the loop does when a read ends inside a command, when
    a client waits twice for one key, and when a waiting client is closed. *)

From stdpp Require Import base gmap list strings.
From Stdlib Require Import ZArith Lia Ascii.
From S2P Require Import Prelude Float64 Strconv Resp ReqParser Runtime EventLoop EventLoopThm EventLoopBlock.

Local Open Scope Z_scope.

(** ** Instances *)

#[local] Existing Instance ex_runtime.

(** A poller that accepts every registration, as kqueue does. *)
#[local] Instance kqueue_like : Poller unit := {| addRead := λ p _, (p, false); modReadWrite := λ p _, (p, false); remove := λ p _, p |}.

(** An engine that records the commands it is given and echoes them. *)
Definition recorder := list (list (option bytes)).
#[local] Instance recorder_engine : StorageEngine recorder := {|
  Exec := λ e m c args, (e ++ [map (arg_opt m) args], m, [], Some (MultiBulkReply (map (arg_opt m) args)));
  AfterClientClose := λ e _, e;
  Protocol := λ _ _, false
|}.
#[local] Instance recorder_content : ContentEngine recorder.
Proof. refine {| step := λ e c cmd, (e ++ [cmd], Some (MultiBulkReply cmd)) |}. done. Defined.

(** An engine that keeps the argument slices, as [SET] keeps its value. *)
Definition keeper := list (list arg).
#[local] Instance keeper_engine : StorageEngine keeper := {|
  Exec := λ e m c args, (e ++ [args], m, [], Some OkReply);
  AfterClientClose := λ e _, e;
  Protocol := λ _ _, false
|}.

(** One list under every key: [LPUSH], [BLPOP], [PING]; anything else is an
    unknown command. *)
Definition lists := list bytes.
Definition lists_step (e : lists) (cmd : list (option bytes)) : lists * Reply :=
  match cmd with
  | Some name :: args =>
      let name := map ascii_lower name in
      if bytes_eqb name (str "lpush") then
        match args with [_; Some v] => (v :: e, IntReply (Z.of_nat (S (length e)))) | _ => (e, SyntaxErrReply) end
      else if bytes_eqb name (str "blpop") then
        match e with
        | [] => (e, NullMultiBulkReply)
        | v :: e => (e, MultiBulkReply [default None (head args); Some v])
        end
      else if bytes_eqb name (str "ping") then (e, PongReply)
      else (e, StandardErrReply (str "ERR unknown command"))
  | _ => (e, StandardErrReply (str "ERR unknown command"))
  end.
#[local] Instance lists_engine : StorageEngine lists := {|
  Exec := λ e m c args, let '(e, r) := lists_step e (map (arg_opt m) args) in (e, m, [], Some r);
  AfterClientClose := λ e _, e;
  Protocol := λ _ _, false
|}.

(** A server with two clients, on the descriptors 7 and 8. *)
Definition start {E} (e : E) : Server (E:=E) (P:=unit) :=
  MkServer e [replicate 1024 (Zbyte 0); replicate 1024 (Zbyte 0)]
    [MkClient 7 (MkSlice 0 0 0) [] false None [] 0 []; MkClient 8 (MkSlice 1 0 0) [] false None [] 0 []]
    {[7 := 0%nat; 8 := 1%nat]} ∅ tt [] [] [].

Definition cmd (l : list string) : list (option bytes) := (λ w, Some (str w)) <$> l.
Definition wire (l : list string) : bytes := multibulk_bytes (cmd l).

(** ** Witnesses *)

Lemma event_loop_serves_stream_witness :
  ∃ s', session (start ([] : recorder)) 0
          [[wire ["SET"; "a"; "1"] ++ wire ["GET"; "a"]]; [str "*1"]; [CRLF; str "$4" ++ CRLF; str "PING" ++ CRLF]] = Ret s'
    ∧ served (start []) 0 [cmd ["SET"; "a"; "1"]; cmd ["GET"; "a"]; cmd ["PING"]] s' ∧ pending s' 0 = [].
Proof.
  apply event_loop_serves_stream.
  - split; [cbn; lia|done|eexists; split; [reflexivity|cbn; lia]].
  - split; [by intros ?%elem_of_nil|done].
  - exists []. vm_compute. reflexivity.
  - repeat constructor; apply not_elem_of_nil || (repeat (apply not_elem_of_cons; split; [done|])); apply not_elem_of_nil.
  - vm_compute. reflexivity.
  - vm_compute. reflexivity.
  - split; [repeat constructor; vm_compute; discriminate|]. intros c Hc.
    repeat (apply elem_of_cons in Hc as [->|Hc]; [vm_compute; reflexivity|]). by apply elem_of_nil in Hc.
  - repeat constructor.
  - vm_compute. auto 10.
Defined.

Lemma unblock_after_block_witness :
  waiterMap (unblock (block (start ([] : lists)) 0 [str "a"; str "b"]) 0) = ∅.
Proof.
  refine (proj2 (unblock_after_block (start []) 0 [str "a"; str "b"] _ _)).
  - repeat constructor; [|apply not_elem_of_nil]. intros H. apply list_elem_of_singleton in H. discriminate H.
  - intros k l H. vm_compute in H. discriminate H.
Defined.

Definition waiting : Server (E:=lists) (P:=unit) :=
  block (with_clock (set_cl (start []) 0 (set_blocked (cl (start ([] : lists)) 0) (Some [str "k"]) (str "blpop") 100 [])) [100]) 0 [str "k"].


(** On a socket that takes five bytes the client above gets the null reply. *)
Lemma due_client_gets_null :
  trace (expireBlockedClients (with_writes waiting [WSome 5]) [8; 7]) = [IoWrite 7 (str "*-1" ++ [Zbyte 13; Zbyte 10])].
Proof. vm_compute. reflexivity. Qed.

(** ** A read that ends inside a command *)

(** The buffer is compacted before the parsed commands run, while their
    arguments are still slices of it: when a read holds a complete command and
    the beginning of the next, the engine gets the bytes of the second in
    place of the arguments of the first. *)
Theorem compaction_overwrites_arguments :
  ∃ s', onReadable (start ([] : recorder)) 0 [RData (wire ["SET"; "k1"; "v1"] ++ take 21 (wire ["SET"; "k2"; "v2"]))] = Ret s'
    ∧ engine s' = [cmd ["SET"; "k2"; "v1"]].
Proof. eexists. split; vm_compute; reflexivity. Qed.

(** The engine is given slices of the query buffer, and the next read writes
    over them: a value that a command keeps, as [SET] does, changes when the
    client sends its next command. *)
Theorem kept_argument_is_overwritten :
  ∃ s1 s2 a, session (start ([] : keeper)) 0 [[wire ["SET"; "k"; "abc"]]] = Ret s1
    ∧ session s1 0 [[wire ["GET"; "another-key"]]] = Ret s2
    ∧ engine s1 !! 0%nat ≫= (λ args, args !! 2%nat) = Some a
    ∧ arg_str (memory s1) a = str "abc" ∧ arg_str (memory s2) a = str "r-k".
Proof. eexists _, _, _. do 4 (split; [vm_compute; reflexivity|]). vm_compute. reflexivity. Qed.

Lemma parseOne_zero mm : parseOneMultibulk mm (str "*0" ++ CRLF) = if mm <? 0 then Panic else Ret (inr ([], 4)).
Proof. reflexivity. Qed.

(** The largest length. *)
Definition huge_request : bytes := str "*1" ++ CRLF ++ str "$9223372036854775807" ++ CRLF.

Lemma parseOne_huge mm : parseOneMultibulk mm huge_request = Panic.
Proof. transitivity (if mm <? 1 then Panic (A:=perr + (list (option view) * Z)) else Panic); [reflexivity|]. by destruct (mm <? 1). Qed.

(** A command of no arguments passes the parser, and the loop reads its name. *)
Theorem empty_command_panics {E P} `{!StorageEngine E} `{!Poller P} `{RT : !Runtime} (s : Server (E:=E) (P:=P)) c :
  ready s c → pending s c = [] → 0 <= max_make → onReadable s c [RData (str "*0" ++ CRLF)] = Panic.
Proof.
  intros [Hc _ Hb] Hp Hm. unfold onReadable, pending in *. change [RData (str "*0" ++ CRLF)] with (RData <$> [str "*0" ++ CRLF]).
  destruct (read_loop _ _ _) as [[m q] ok] eqn:Hr. apply read_loop_data in Hr as (-> & Hq & Hs).
  2:{ done. }
  2:{ apply not_elem_of_cons; split; [done|apply not_elem_of_nil]. }
  cbn [negb]. rewrite cl_set_cl by done. cbn [memory set_cl with_heap with_memory queryBuf set_queryBuf]. rewrite Hs, Hp.
  assert (Hpr : parseRequests max_make ([] ++ concat [str "*0" ++ CRLF]) = Ret (Some ([[]], 4))).
  { unfold parseRequests. cbn [parse_loop length]. change (blen _ <=? 0) with false. cbn iota.
    change (drop (Z.to_nat 0) _) with (str "*0" ++ CRLF). rewrite parseOne_zero, (proj2 (Z.ltb_ge max_make 0)) by done. reflexivity. }
  rewrite Hpr. reflexivity.
Qed.

Lemma empty_command_panics_witness : onReadable (start ([] : recorder)) 0 [RData (str "*0" ++ CRLF)] = Panic.
Proof.
  refine (empty_command_panics (start []) 0 _ _ _); [|reflexivity|vm_compute; discriminate].
  split; [cbn; lia|done|eexists; split; [reflexivity|cbn; lia]].
Defined.

(** A length of 2^63 - 1 makes the test against the buffer wrap around, and the
    slice expression panics. *)
Theorem huge_length_panics max_make : parseRequests max_make huge_request = Panic.
Proof.
  unfold parseRequests. cbn [parse_loop]. change (blen huge_request <=? 0) with false. cbn iota.
  change (drop (Z.to_nat 0) huge_request) with huge_request. by rewrite parseOne_huge.
Qed.

(** ** Waiting clients *)

(** A client that waits for one key named twice is registered twice; the push
    that wakes it answers it, and then runs a command with an empty name for it,
    so that it receives an error reply it did not ask for. *)
Theorem waiting_twice_gets_spurious_error :
  ∃ s', (s ← onReadable (with_clock (start ([] : lists)) [1]) 0 [RData (wire ["BLPOP"; "k"; "k"; "5"])];
         onReadable (with_writes s [WSome 1000; WSome 1000; WSome 1000]) 1 [RData (wire ["LPUSH"; "k"; "v"])]) = Ret s'
    ∧ sent 7 (trace s') = multibulk_bytes (cmd ["k"; "v"]) ++ err_bytes (str "ERR unknown command")
    ∧ waiters s' (str "k") = [].
Proof. eexists. split; [vm_compute; reflexivity|]. split; vm_compute; reflexivity. Qed.

(** Closing a client does not take it out of the registry: a push after the
    close still pops the element for the closed client, and the reply is
    written to the closed descriptor, which may belong to a new client by
    then. *)
Theorem closed_client_takes_an_element :
  ∃ s', (s ← onReadable (with_writes (with_clock (start ([] : lists)) [1]) [WErr]) 0 [RData (wire ["PING"] ++ wire ["BLPOP"; "k"; "5"])];
         onReadable (with_writes s [WSome 1000; WSome 1000]) 1 [RData (wire ["LPUSH"; "k"; "v"])]) = Ret s'
    ∧ clients s' = {[8 := 1%nat]} ∧ engine s' = []
    ∧ trace s' = [IoWrite 7 []; IoClose 7; IoWrite 7 (multibulk_bytes (cmd ["k"; "v"])); IoWrite 8 (int_bytes 1)].
Proof. eexists. do 3 (split; [vm_compute; reflexivity|]). vm_compute. reflexivity. Qed.

(** Commands that follow a blocking command in one read are consumed and never
    run, also after the client is woken. *)
Theorem commands_after_block_are_lost :
  ∃ s', (s ← onReadable (with_clock (start ([] : lists)) [1]) 0 [RData (wire ["BLPOP"; "k"; "5"] ++ wire ["PING"])];
         s ← onReadable (with_writes s [WSome 1000; WSome 1000]) 1 [RData (wire ["LPUSH"; "k"; "v"])];
         onReadable s 0 []) = Ret s'
    ∧ sent 7 (trace s') ++ out (cl s' 0) = multibulk_bytes (cmd ["k"; "v"]) ∧ pending s' 0 = [].
Proof. eexists. split; [vm_compute; reflexivity|]. split; vm_compute; reflexivity. Qed.

(** A timeout of zero, which asks to wait without a limit, does not block. *)
Theorem zero_timeout_does_not_block :
  ∃ s', onReadable (with_writes (with_clock (start ([] : lists)) [1]) [WSome 1000]) 0 [RData (wire ["BLPOP"; "k"; "0"])] = Ret s'
    ∧ blockKeys (cl s' 0) = None ∧ sent 7 (trace s') = nullMultiBulkBytes.
Proof. eexists. split; [vm_compute; reflexivity|]. split; vm_compute; reflexivity. Qed.
