(* ===== verification/Epoll.v ===== *)
(** * The epoll poller: [internal/net/eventloop/poller_linux.go]

    The poller of the event loop on Linux, over [epoll_ctl]. *)

From stdpp Require Import base gmap list strings.
From Stdlib Require Import ZArith Lia Ascii.
From S2P Require Import Prelude Resp Runtime EventLoop EventLoopThm EventLoopBlock.

Local Open Scope Z_scope.

Inductive epoll_op := EPOLL_CTL_ADD | EPOLL_CTL_MOD | EPOLL_CTL_DEL.

Section epoll.
Context {K : Type} (EpollCtl : K → epoll_op → Z → bool → K * bool).

Definition epoll_addRead (p : K) (fd : Z) : K * bool := EpollCtl p EPOLL_CTL_ADD fd false.
Definition epoll_modReadWrite (p : K) (fd : Z) : K * bool := EpollCtl p EPOLL_CTL_MOD fd true.
Definition epoll_remove (p : K) (fd : Z) : K := fst (EpollCtl p EPOLL_CTL_DEL fd false).
#[local] Instance epollPoller : Poller K := {| addRead := epoll_addRead; modReadWrite := epoll_modReadWrite; remove := epoll_remove |}.

(** The documented behaviour of [epoll_ctl]: adding a descriptor that is
    registered already fails (EEXIST). *)
Context (registered : K → Z → Prop).
Hypothesis ctl_eexist : ∀ k fd w, registered k fd → snd (EpollCtl k EPOLL_CTL_ADD fd w) = true.

(** C39: on Linux, a client whose output did not fit into the socket once is closed
    as soon as the rest of its output has been written: the switch back to
    read interest adds the descriptor again, which fails. *)
Theorem epoll_closes_drained_client {E} `{!StorageEngine E} `{RT : !Runtime} (s : Server (E:=E) (P:=K)) c :
  (c < length (heap s))%nat → out (cl s c) ≠ [] → wantWrite (cl s c) = true → registered (poller s) (fd (cl s c)) →
  writes s = [WSome (length (out (cl s c)))] →
  let s' := flush s c in
  trace s' = trace s ++ [IoWrite (fd (cl s c)) (out (cl s c)); IoClose (fd (cl s c))] ∧
  clients s' = delete (fd (cl s c)) (clients s).
Proof.
  intros Hc Ho Hww Hreg Hws. unfold flush, takeOut. rewrite bool_decide_false by done.
  change (writes (set_cl s c (set_out (cl s c) []))) with (writes s). rewrite Hws.
  assert (Hl : ∀ o, o ≠ [] → write_loop [WSome (length o)] o 0 = (length o, false, [])).
  { intros o Hne. cbn [write_loop]. rewrite (proj2 (Nat.leb_gt _ _)) by (destruct o; [done|cbn; lia]).
    rewrite Nat.sub_0_r, Nat.min_id, Nat.add_0_l. destruct o; cbn [write_loop]; by rewrite (proj2 (Nat.leb_le _ _)). }
  rewrite Hl by done. cbv beta iota. rewrite Nat.ltb_irrefl, take_ge by lia.
  set (s1 := emit _ _). assert (Hs1 : cl s1 c = set_out (cl s c) []) by (by apply cl_set_cl).
  rewrite Hs1. cbn [wantWrite set_out fd]. rewrite Hww. change (poller s1) with (poller s). cbn [addRead epollPoller].
  unfold epoll_addRead. pose proof (ctl_eexist (poller s) (fd (cl s c)) false Hreg) as Herr.
  destruct (EpollCtl _ _ _ _) as [p err]. cbn in Herr. subst err. destruct (closeClient_frame (with_poller s1 p) c) as (_ & _ & ->).
  assert (Hfd : fd (cl (with_writes (set_cl s c (set_out (cl s c) [])) []) c) = fd (cl s c)).
  { change (cl (with_writes ?a []) c) with (cl a c). by rewrite cl_set_cl. }
  rewrite cl_with_poller, Hs1. split; [|done]. unfold closeClient. cbn [trace emit with_clients with_poller with_engine].
  change (cl _ c) with (cl s1 c) at 1. rewrite Hs1. unfold s1. cbn [trace emit with_writes]. rewrite Hfd, <- app_assoc. done.
Qed.
End epoll.

(** Interest lists, with the errors of [epoll_ctl]. *)
Definition ctl (k : list Z) (op : epoll_op) (fd : Z) (w : bool) : list Z * bool :=
  match op with
  | EPOLL_CTL_ADD => if bool_decide (fd ∈ k) then (k, true) else (fd :: k, false)
  | EPOLL_CTL_MOD => (k, negb (bool_decide (fd ∈ k)))
  | EPOLL_CTL_DEL => (filter (λ g, g ≠ fd) k, negb (bool_decide (fd ∈ k)))
  end.

Definition draining : Server (E:=unit) (P:=list Z) :=
  MkServer tt [] [MkClient 7 (MkSlice 0 0 0) (str "+OK" ++ CRLF) true None [] 0 []] {[7 := 0%nat]} ∅ [7] [WSome 5] [] [].

#[local] Instance idle_engine : StorageEngine unit :=
  {| Exec := λ e m _ _, (e, m, [], None); AfterClientClose := λ e _, e; Protocol := λ _ _, false |}.
#[local] Instance plain_runtime : Runtime :=
  {| ToLower := id; ToUpper := id; ParseFloat := λ _, None; Nanos := λ _, 0; codec_Encode := λ r _, ToBytes (λ _, []) r;
     FormatFloat := λ _, []; newcap := λ _ n, n; max_make := 1000000 |}.

Lemma epoll_closes_drained_client_witness :
  trace (flush (Poller0 := epollPoller ctl) draining 0) = [IoWrite 7 (str "+OK" ++ CRLF); IoClose 7].
Proof.
  assert (Hctl : ∀ k fd w, fd ∈ k → snd (ctl k EPOLL_CTL_ADD fd w) = true).
  { intros k f w Hin. cbn. by rewrite bool_decide_true. }
  assert (Hlt : (0 < length (heap draining))%nat) by (cbn; lia).
  assert (Hne : out (cl draining 0) ≠ []) by discriminate.
  assert (Hreg : fd (cl draining 0) ∈ poller draining) by left.
  exact (proj1 (epoll_closes_drained_client ctl (λ k fd, fd ∈ k) Hctl draining 0 Hlt Hne eq_refl Hreg eq_refl)).
Defined.
