(* ===== verification/RespParser.v ===== *)
(** * The stream parsers: [internal/proto/resp2/parser]

    [parser.go] sends payloads over a channel from a goroutine, [parserv2.go]
    reads one command.  A reader is the bytes that are left of its input. *)

From stdpp Require Import base list strings.
From Stdlib Require Import ZArith Lia Ascii.
From S2P Require Import Prelude Float64 Strconv Resp ReqParser.

Local Open Scope Z_scope.

(** ** Readers *)

Inductive rerr := EOF | ErrUnexpectedEOF | ErrMsg (msg : bytes).

(** [ReadBytes('\n')]: the line with its line feed, or [EOF]. *)
Fixpoint ReadBytes (r : bytes) : option (bytes * bytes) :=
  match r with
  | [] => None
  | c :: r => if bool_decide (c = LF) then Some ([c], r)
              else match ReadBytes r with None => None | Some (l, rest) => Some (c :: l, rest) end
  end.

(** [io.ReadFull] of [n] bytes. *)
Definition ReadFull (r : bytes) (n : nat) : rerr + (bytes * bytes) :=
  if (n <=? length r)%nat then inr (take n r, drop n r)
  else if bool_decide (r = []) then inl EOF else inl ErrUnexpectedEOF.

(** [bytes.TrimSuffix(line, "\r\n")] *)
Definition trim_crlf (l : bytes) : bytes :=
  if bytes_eqb (drop (length l - 2) l) CRLF then take (length l - 2) l else l.

(** [bytes.Split(line, " ")] *)
Fixpoint split_space (l : bytes) : list bytes :=
  match l with
  | [] => [[]]
  | c :: l => if bool_decide (c = Zbyte 32) then [] :: split_space l
              else match split_space l with [] => [[c]] | w :: ws => (c :: w) :: ws end
  end.

Definition has_prefix (p l : bytes) : bool := bytes_eqb (take (length p) l) p.

(** The byte before the line feed is a carriage return. *)
Definition cr_before_lf (line : bytes) : bool := bool_decide (line !! (length line - 2)%nat = Some CR).

(** ** The channel parser *)

Inductive Payload := PData (r : Reply) | PErr (e : rerr).

(** How a part of the parser ends: it goes on with the rest of the input, it
    returns an error, or it panics. *)
Inductive flow := Go (rest : bytes) | Err (e : rerr) | Crash.

(** How the goroutine ends: it closes the channel, or a panic is recovered and
    the channel stays open. *)
Inductive ending := Closed | Open.

Definition protocolError (msg : bytes) : Payload := PErr (ErrMsg (str "protocol error: " ++ msg)).

Section parser.
(** The limits of [make] for bytes and for slices. *)
Context (max_bytes max_slices : Z).

(** [make([]byte, n)], filled by [io.ReadFull]. *)
Definition read_body (r : bytes) (n : Z) : res (rerr + (bytes * bytes)) :=
  if (n <? 0) || (max_bytes <? n) then Panic else Ret (ReadFull r (Z.to_nat n)).

Definition parseBulkString (header : bytes) (r : bytes) : list Payload * flow :=
  match ParseInt (drop 1 header) with
  | Some strLen =>
      if strLen <? -1 then ([protocolError (str "illegal bulk string header: " ++ header)], Go r)
      else if strLen =? -1 then ([PData NullBulkReply], Go r)
      else match read_body r (wrap64 (strLen + 2)) with
           | Ret (inr (body, rest)) => ([PData (BulkReply (Some (take (length body - 2) body)))], Go rest)
           | Ret (inl e) => ([], Err e)
           | _ => ([], Crash)
           end
  | None => ([protocolError (str "illegal bulk string header: " ++ header)], Go r)
  end.

(** The byte-by-byte search for the mark: the window and the body before it. *)
Fixpoint eof_mark_loop (mark window body : bytes) (r : bytes) : list Payload * flow :=
  match r with
  | [] => ([], Err EOF)
  | b :: r =>
      let window := window ++ [b] in
      let '(body, window) := if (length mark <? length window)%nat
                             then (body ++ take 1 window, drop 1 window) else (body, window) in
      if (length window =? length mark)%nat && bytes_eqb window mark
      then ([PData (BulkReply (match body with [] => None | _ => Some body end))], Go r)
      else eof_mark_loop mark window body r
  end.

Definition parseRDBEOFMark (mark : bytes) (r : bytes) : list Payload * flow :=
  if bool_decide (mark = []) then ([], Err (ErrMsg (str "empty EOF mark"))) else eof_mark_loop mark [] [] r.

Definition parseRDBBulkString (r : bytes) : list Payload * flow :=
  match ReadBytes r with
  | None => ([], Err (ErrMsg (str "failed to read bytes")))
  | Some (header, r) =>
      let header := trim_crlf header in
      if bool_decide (header = []) then ([], Err (ErrMsg (str "empty header"))) else
      if has_prefix (str "$EOF:") header then parseRDBEOFMark (drop 5 header) r else
      match ParseInt (drop 1 header) with
      | Some strLen =>
          if strLen <=? 0 then ([], Err (ErrMsg (str "illegal bulk header: " ++ header)))
          else match read_body r strLen with
               | Ret (inr (body, rest)) => ([PData (BulkReply (Some body))], Go rest)
               | Ret (inl e) => ([], Err e)
               | _ => ([], Crash)
               end
      | None => ([], Err (ErrMsg (str "illegal bulk header: " ++ header)))
      end
  end.

(** The loop of [parseArray]; the fuel is the length of the input.  A protocol
    error leaves the loop, and the lines read so far are sent. *)
Fixpoint array_loop (fuel : nat) (i nStrs : Z) (lines : list bytes) (r : bytes) : list Payload * flow :=
  if nStrs <=? i then ([PData (MultiBulkReply (Some <$> lines))], Go r) else
  match fuel with
  | O => ([], Crash)
  | S f =>
      match ReadBytes r with
      | None => ([], Err EOF)
      | Some (line, r) =>
          let length := length line in
          if (length <? 4)%nat || negb (cr_before_lf line) || negb (bool_decide (head line = Some (Zbyte 36))) then
            ([protocolError (str "illegal bulk string header " ++ line); PData (MultiBulkReply (Some <$> lines))], Go r)
          else
            match ParseInt (drop 1 (take (length - 2) line)) with
            | Some strLen =>
                if strLen <? -1 then
                  ([protocolError (str "illegal bulk string length " ++ line); PData (MultiBulkReply (Some <$> lines))], Go r)
                else if strLen =? -1 then array_loop f (i + 1) nStrs (lines ++ [[]]) r
                else match read_body r (wrap64 (strLen + 2)) with
                     | Ret (inr (body, rest)) => array_loop f (i + 1) nStrs (lines ++ [take (List.length body - 2) body]) rest
                     | Ret (inl e) => ([], Err e)
                     | _ => ([], Crash)
                     end
            | None => ([protocolError (str "illegal bulk string length " ++ line); PData (MultiBulkReply (Some <$> lines))], Go r)
            end
      end
  end.

Definition parseArray (header : bytes) (r : bytes) : list Payload * flow :=
  match ParseInt (drop 1 header) with
  | Some nStrs =>
      if nStrs <? 0 then ([protocolError (str "illegal array header " ++ drop 1 header)], Go r)
      else if nStrs =? 0 then ([PData EmptyMultiBulkReply], Go r)
      else if max_slices <? nStrs then ([], Crash)
      else array_loop (S (length r)) 0 nStrs [] r
  | None => ([protocolError (str "illegal array header " ++ drop 1 header)], Go r)
  end.

(** One line of the stream. *)
Definition parse_line (line : bytes) (r : bytes) : list Payload * flow :=
  let n := length line in
  if (n <=? 2)%nat || negb (cr_before_lf line) then ([], Go r) else
  let line := trim_crlf line in
  match line with
  | [] => ([], Crash)
  | c :: content =>
      if bool_decide (c = Zbyte 43) then
        let p := PData (StatusReply content) in
        if has_prefix (str "FULLRESYNC") content then
          let '(ps, fl) := parseRDBBulkString r in (p :: ps, fl)
        else ([p], Go r)
      else if bool_decide (c = Zbyte 45) then ([PData (StandardErrReply content)], Go r)
      else if bool_decide (c = Zbyte 58) then
        match ParseInt content with
        | None => ([protocolError (str "illegal number " ++ content)], Go r)
        | Some value => ([PData (IntReply value)], Go r)
        end
      else if bool_decide (c = Zbyte 36) then parseBulkString line r
      else if bool_decide (c = Zbyte 42) then parseArray line r
      else ([PData (MultiBulkReply (Some <$> split_space line))], Go r)
  end.

(** Everything the goroutine sends.  Every round reads a line, so that the fuel
    [S (length r)] is enough. *)
Fixpoint parse0_loop (fuel : nat) (r : bytes) : list Payload * ending :=
  match fuel with
  | O => ([], Open)
  | S f =>
      match ReadBytes r with
      | None => ([PErr EOF], Closed)
      | Some (line, r) =>
          match parse_line line r with
          | (ps, Go r) => let '(ps', e) := parse0_loop f r in (ps ++ ps', e)
          | (ps, Err e) => (ps ++ [PErr e], Closed)
          | (ps, Crash) => (ps, Open)
          end
      end
  end.
Definition parse0 (r : bytes) : list Payload * ending := parse0_loop (S (length r)) r.

(** A receive on the channel may wait for ever. *)
Inductive received (A : Type) := Got (a : A) | Blocked.
Arguments Got {A} a.
Arguments Blocked {A}.

Fixpoint collect (ps : list Payload) (e : ending) (results : list Reply) : received (rerr + list Reply) :=
  match ps with
  | [] => match e with Closed => Got (inr results) | Open => Blocked end
  | PErr EOF :: _ => Got (inr results)
  | PErr e :: _ => Got (inl e)
  | PData r :: ps => collect ps e (results ++ [r])
  end.
Definition ParseBytes (data : bytes) : received (rerr + list Reply) :=
  let '(ps, e) := parse0 data in collect ps e [].

Definition ParseOne (data : bytes) : received (rerr + Reply) :=
  match parse0 data with
  | (PData r :: _, _) => Got (inr r)
  | (PErr e :: _, _) => Got (inl e)
  | ([], Closed) => Got (inl (ErrMsg (str "no protocol")))
  | ([], Open) => Blocked
  end.

(** ** The command parser *)

(** [readLine]: up to CR LF. *)
Fixpoint readLineV2 (r : bytes) : rerr + (bytes * bytes) :=
  match r with
  | [] => inl EOF
  | c :: r =>
      if bool_decide (c = CR) then
        match r with
        | [] => inl (ErrMsg (str "unexpected EOF after \r"))
        | d :: r => if bool_decide (d = LF) then inr ([], r) else inl (ErrMsg (str "expected \n after \r"))
        end
      else match readLineV2 r with inl e => inl e | inr (l, rest) => inr (c :: l, rest) end
  end.

(** [strconv.Atoi]; its error is one of syntax or range. *)
Definition readInteger (r : bytes) : rerr + (Z * bytes) :=
  match readLineV2 r with
  | inl e => inl e
  | inr (line, rest) => match ParseInt line with Some n => inr (n, rest) | None => inl (ErrMsg (str "strconv.Atoi")) end
  end.

Fixpoint v2_args (fuel : nat) (i count : Z) (r : bytes) : res (rerr + (list (option bytes) * bytes)) :=
  if count <=? i then Ret (inr ([], r)) else
  match fuel with
  | O => OutOfFuel
  | S f =>
      match r with
      | [] => Ret (inl EOF)
      | c :: r =>
          if negb (bool_decide (c = Zbyte 36)) then Ret (inl (ErrMsg (str "unsupported RESP type"))) else
          match readInteger r with
          | inl e => Ret (inl e)
          | inr (strLen, r) =>
              if strLen <? 0 then
                x ← v2_args f (i + 1) count r;
                Ret (match x with inl e => inl e | inr (args, rest) => inr (None :: args, rest) end)
              else
                body ← read_body r (wrap64 (strLen + 2));
                match body with
                | inl e => Ret (inl e)
                | inr (data, r) =>
                    x ← v2_args f (i + 1) count r;
                    Ret (match x with
                         | inl e => inl e
                         | inr (args, rest) => inr (Some (take (Z.to_nat strLen) data) :: args, rest)
                         end)
                end
          end
      end
  end.

(** [None] is the nil result for a negative count. *)
Definition ParseV2 (r : bytes) : res (rerr + (option (list (option bytes)) * bytes)) :=
  match r with
  | [] => Ret (inl EOF)
  | c :: r =>
      if negb (bool_decide (c = Zbyte 42)) then
        Ret (match readLineV2 r with
             | inl e => inl e
             | inr (line, rest) => inr (Some (Some <$> split_space (c :: line)), rest)
             end)
      else
        match readInteger r with
        | inl e => Ret (inl e)
        | inr (count, r) =>
            if count <? 0 then Ret (inr (None, r))
            else if max_slices <? count then Panic
            else x ← v2_args (S (length r)) 0 count r;
                 Ret (match x with inl e => inl e | inr (args, rest) => inr (Some args, rest) end)
        end
  end.
End parser.
Arguments Got {A} a.
Arguments Blocked {A}.
