(* ===== verification/RespParserThm.v ===== *)
(** * What the stream parsers read back

    Encoded replies and commands, through both parsers of
    [internal/proto/resp2/parser] and through the parser of the event loop. *)

From stdpp Require Import base list strings.
From Stdlib Require Import ZArith Lia Ascii.
From S2P Require Import Prelude Float64 Strconv Resp ReqParser RespParser.

Local Open Scope Z_scope.

(** ** Lines *)

Lemma ReadBytes_line l rest : LF ∉ l → ReadBytes (l ++ LF :: rest) = Some (l ++ [LF], rest).
Proof.
  induction l as [|c l IH]; intros H; cbn; [done|]. apply not_elem_of_cons in H as [Hc H].
  rewrite bool_decide_false by congruence. by rewrite IH.
Qed.

Lemma ReadBytes_crlf l rest : LF ∉ l → ReadBytes (l ++ CR :: LF :: rest) = Some (l ++ CRLF, rest).
Proof.
  intros H. change (l ++ CR :: LF :: rest) with (l ++ [CR] ++ LF :: rest). rewrite app_assoc.
  rewrite ReadBytes_line; [by rewrite <- app_assoc|]. apply not_elem_of_app. split; [done|].
  apply not_elem_of_cons. split; [done|apply not_elem_of_nil].
Qed.

Lemma ReadBytes_length r l rest : ReadBytes r = Some (l, rest) → (length rest < length r)%nat.
Proof.
  revert l. induction r as [|c r IH]; intros l; [done|]. cbn. case_bool_decide; [intros [= <- <-]; lia|].
  destruct (ReadBytes r) as [[l' rest']|]; [|done]. intros [= <- <-]. specialize (IH _ eq_refl). lia.
Qed.

Lemma length_crlf (l : bytes) : (length (l ++ CRLF) - 2)%nat = length l.
Proof. rewrite length_app. cbn. lia. Qed.

Lemma trim_crlf_line l : trim_crlf (l ++ CRLF) = l.
Proof. unfold trim_crlf. rewrite length_crlf, drop_app_length, bytes_eqb_refl. by rewrite take_app_length. Qed.

Lemma cr_before_lf_line l : cr_before_lf (l ++ CRLF) = true.
Proof. unfold cr_before_lf. rewrite length_crlf. apply bool_decide_true. by rewrite lookup_app_r, Nat.sub_diag. Qed.

Lemma ReadFull_body (b rest : bytes) n : n = Z.to_nat (blen b + 2) → ReadFull (b ++ CRLF ++ rest) n = inr (b ++ CRLF, rest).
Proof.
  intros ->. unfold ReadFull. replace (Z.to_nat (blen b + 2)) with (length (b ++ CRLF)) by (rewrite length_app; cbn; lia).
  rewrite app_assoc. rewrite (proj2 (Nat.leb_le _ _)) by (rewrite (length_app (b ++ CRLF)); lia).
  by rewrite take_app_length, drop_app_length.
Qed.

Lemma take_body (b : bytes) : take (length (b ++ CRLF) - 2) (b ++ CRLF) = b.
Proof. by rewrite length_crlf, take_app_length. Qed.

Lemma ParseInt_arg_line arg : (match arg with Some b => blen b | None => -1 end) <= max_i64 →
  ParseInt (arg_line arg) = Some (match arg with Some b => blen b | None => -1 end).
Proof. destruct arg as [b|]; intros H; [|done]. apply ParseInt_Itoa. unfold i64, min_i64. lia. Qed.

Lemma arg_line_no_lf arg : LF ∉ arg_line arg.
Proof.
  destruct arg as [b|]; [apply Itoa_no_crlf; lia|]. cbn. intros Hin.
  repeat (apply elem_of_cons in Hin as [Hin|Hin]; [done|]). by apply elem_of_nil in Hin.
Qed.

Lemma arg_line_ne arg : arg_line arg ≠ [].
Proof. destruct arg as [b|]; [|done]. cbn. rewrite Itoa_nonneg by lia. apply digits_nonempty. by right. Qed.

Section parser.
Context (max_bytes max_slices : Z).

(** An argument that [make] accepts. *)
Definition arg_ok (arg : option bytes) : Prop :=
  match arg with None => True | Some b => blen b + 2 <= max_bytes ∧ blen b + 2 <= max_i64 end.

Lemma read_body_arg b rest :
  arg_ok (Some b) → read_body max_bytes (b ++ CRLF ++ rest) (wrap64 (blen b + 2)) = Ret (inr (b ++ CRLF, rest)).
Proof.
  intros [H1 H2]. rewrite wrap64_id by (unfold i64, min_i64; lia). unfold read_body.
  rewrite (proj2 (Z.ltb_ge (blen b + 2) 0)), (proj2 (Z.ltb_ge max_bytes _)) by lia. cbn [orb]. by rewrite ReadFull_body.
Qed.

(** ** The channel parser *)

Lemma array_loop_enc args f i lines rest :
  Forall arg_ok args → (length args < f)%nat →
  array_loop max_bytes f i (i + blen args) lines ((args ≫= arg_bytes) ++ rest)
  = ([PData (MultiBulkReply (Some <$> lines ++ (default [] <$> args)))], Go rest).
Proof.
  revert f i lines. induction args as [|arg args IH]; intros f i lines Hok Hf; (destruct f as [|f]; [cbn in Hf; lia|]).
  { cbn [array_loop length]. rewrite (proj2 (Z.leb_le _ _)) by (cbn; lia). cbn. by rewrite app_nil_r. }
  apply Forall_cons in Hok as [Ha Hok]. cbn [array_loop]. rewrite (proj2 (Z.leb_gt _ _)) by (cbn; lia).
  change ((arg :: args) ≫= arg_bytes) with (arg_bytes arg ++ (args ≫= arg_bytes)). rewrite <- app_assoc, arg_bytes_line.
  rewrite app_comm_cons, ReadBytes_crlf by (apply not_elem_of_cons; split; [done|apply arg_line_no_lf]).
  rewrite cr_before_lf_line, length_crlf. cbn [head app]. rewrite bool_decide_true by done. cbn [negb].
  rewrite !orb_false_r. rewrite (proj2 (Nat.ltb_ge _ _)).
  2:{ cbn. rewrite length_app. pose proof (arg_line_ne arg). destruct (arg_line arg); [done|]. cbn. lia. }
  rewrite app_comm_cons, take_app_length. cbn [drop]. rewrite drop_0.
  rewrite ParseInt_arg_line by (destruct arg; [destruct Ha; lia|unfold max_i64; lia]).
  replace (i + blen (arg :: args)) with (i + 1 + blen args) by (cbn; lia). specialize (IH f (i + 1)).
  destruct arg as [b|].
  - rewrite (proj2 (Z.ltb_ge _ _)), (proj2 (Z.eqb_neq _ _)) by lia. rewrite read_body_arg by done. rewrite take_body.
    rewrite IH by (done || (cbn in Hf; lia)). cbn. by rewrite <- app_assoc.
  - cbn [Z.ltb Z.eqb]. change (-1 <? -1) with false. cbn iota. rewrite IH by (done || (cbn in Hf; lia)). cbn. by rewrite <- app_assoc.
Qed.

(** A line without a line feed. *)
Definition line_ok (s : bytes) : Prop := LF ∉ s.

(** What a client that uses this parser sees of a reply, where the parser knows
    its form. *)
Definition seen (r : Reply) : option Reply :=
  match r with
  | BulkReply None | NullBulkReply => Some NullBulkReply
  | BulkReply (Some b) => Some (BulkReply (Some b))
  | MultiBulkReply [] | EmptyMultiBulkReply => Some EmptyMultiBulkReply
  | MultiBulkReply args => Some (MultiBulkReply ((λ a, Some (default [] a)) <$> args))
  | StatusReply s => Some (StatusReply s)
  | PongReply => Some (StatusReply (str "PONG"))
  | OkReply => Some (StatusReply (str "OK"))
  | QueuedReply => Some (StatusReply (str "QUEUED"))
  | IntReply n => Some (IntReply n)
  | StandardErrReply s => Some (StandardErrReply s)
  | UnknownErrReply => Some (StandardErrReply (str "Err unknown"))
  | SyntaxErrReply => Some (StandardErrReply (str "Err syntax error"))
  | WrongTypeErrReply => Some (StandardErrReply (str "WRONGTYPE Operation against a key holding the wrong kind of value"))
  | ArgNumErrReply cmd => Some (StandardErrReply (str "ERR wrong number of arguments for '" ++ cmd ++ str "' command"))
  | ProtocolErrReply msg => Some (StandardErrReply (str "ERR Protocol error: '" ++ msg ++ str "'"))
  | _ => None
  end.

(** Replies whose text fits on a line and whose sizes fit into memory. *)
Definition reply_ok (r : Reply) : Prop :=
  match r with
  | BulkReply arg => arg_ok arg
  | MultiBulkReply args => Forall arg_ok args ∧ blen args <= max_slices ∧ blen args <= max_i64
  | StatusReply s => line_ok s ∧ has_prefix (str "FULLRESYNC") s = false
  | IntReply n => i64 n
  | StandardErrReply s => line_ok s
  | ArgNumErrReply cmd => line_ok cmd
  | ProtocolErrReply msg => line_ok msg
  | _ => True
  end.

(** A line that starts with a type byte reaches its branch. *)
Lemma parse_line_cons c s r :
  parse_line max_bytes max_slices ((c :: s) ++ CRLF) r =
  (if bool_decide (c = Zbyte 43) then
     if has_prefix (str "FULLRESYNC") s
     then let '(ps, fl) := parseRDBBulkString max_bytes r in (PData (StatusReply s) :: ps, fl)
     else ([PData (StatusReply s)], Go r)
   else if bool_decide (c = Zbyte 45) then ([PData (StandardErrReply s)], Go r)
   else if bool_decide (c = Zbyte 58) then
     match ParseInt s with
     | None => ([protocolError (str "illegal number " ++ s)], Go r)
     | Some value => ([PData (IntReply value)], Go r)
     end
   else if bool_decide (c = Zbyte 36) then parseBulkString max_bytes (c :: s) r
   else if bool_decide (c = Zbyte 42) then parseArray max_bytes max_slices (c :: s) r
   else ([PData (MultiBulkReply (Some <$> split_space (c :: s)))], Go r)).
Proof.
  unfold parse_line. rewrite cr_before_lf_line, trim_crlf_line. rewrite (proj2 (Nat.leb_gt _ _)) by (rewrite length_app; cbn; lia).
  done.
Qed.

(** One line of the stream is read and gives [fl]. *)
Definition reads (data : bytes) (fl : list Payload * flow) : Prop :=
  ∃ line rest, ReadBytes data = Some (line, rest) ∧ parse_line max_bytes max_slices line rest = fl.

Lemma reads_line c s rest fl :
  LF ∉ c :: s → parse_line max_bytes max_slices ((c :: s) ++ CRLF) rest = fl → reads (c :: s ++ CRLF ++ rest) fl.
Proof. intros Hs Hp. exists ((c :: s) ++ CRLF), rest. split; [|done]. by apply (ReadBytes_crlf (c :: s)). Qed.

Lemma reads_err s rest : LF ∉ s → reads (Zbyte 45 :: s ++ CRLF ++ rest) ([PData (StandardErrReply s)], Go rest).
Proof. intros Hs. apply reads_line; [by apply not_elem_of_cons|]. by rewrite parse_line_cons. Qed.

Lemma reads_status s rest :
  LF ∉ s → has_prefix (str "FULLRESYNC") s = false →
  reads (Zbyte 43 :: s ++ CRLF ++ rest) ([PData (StatusReply s)], Go rest).
Proof. intros Hs Hp. apply reads_line; [by apply not_elem_of_cons|]. by rewrite parse_line_cons, Hp. Qed.

Lemma reads_int n rest : i64 n → reads (int_bytes n ++ rest) ([PData (IntReply n)], Go rest).
Proof.
  intros Hn. unfold int_bytes. rewrite <- !app_assoc. apply (reads_line (Zbyte 58) (Itoa n)).
  - apply not_elem_of_cons. split; [done|]. by apply Itoa_int_no_crlf.
  - rewrite parse_line_cons. rewrite ParseInt_Itoa by done. done.
Qed.

Lemma reads_bulk arg rest :
  arg_ok arg → reads (bulk_bytes arg ++ rest) ([PData (match arg with Some b => BulkReply (Some b) | None => NullBulkReply end)], Go rest).
Proof.
  intros Ha. change (bulk_bytes arg) with (arg_bytes arg). rewrite arg_bytes_line. apply (reads_line (Zbyte 36) (arg_line arg)).
  { apply not_elem_of_cons. split; [done|apply arg_line_no_lf]. }
  rewrite parse_line_cons. change (bool_decide (Zbyte 36 = Zbyte 43)) with false. change (bool_decide (Zbyte 36 = Zbyte 45)) with false.
  change (bool_decide (Zbyte 36 = Zbyte 58)) with false. rewrite (bool_decide_true (Zbyte 36 = Zbyte 36)) by done. cbn iota.
  unfold parseBulkString. cbn [drop]. rewrite drop_0. rewrite ParseInt_arg_line by (destruct arg; [destruct Ha; lia|unfold max_i64; lia]).
  destruct arg as [b|]; [|done]. rewrite (proj2 (Z.ltb_ge _ _)), (proj2 (Z.eqb_neq _ _)) by lia.
  rewrite read_body_arg by done. by rewrite take_body.
Qed.

Lemma reads_array args rest :
  Forall arg_ok args → blen args <= max_slices → blen args <= max_i64 →
  reads (multibulk_bytes args ++ rest)
    ([PData (match args with [] => EmptyMultiBulkReply | _ => MultiBulkReply ((λ a, Some (default [] a)) <$> args) end)], Go rest).
Proof.
  intros Ha Hs Hi. unfold multibulk_bytes. rewrite <- app_assoc, (header_line (Zbyte 42)). apply (reads_line (Zbyte 42)).
  { apply not_elem_of_cons. split; [done|]. apply Itoa_no_crlf. lia. }
  rewrite parse_line_cons. change (bool_decide (Zbyte 42 = Zbyte 43)) with false. change (bool_decide (Zbyte 42 = Zbyte 45)) with false.
  change (bool_decide (Zbyte 42 = Zbyte 58)) with false. change (bool_decide (Zbyte 42 = Zbyte 36)) with false.
  rewrite (bool_decide_true (Zbyte 42 = Zbyte 42)) by done. cbn iota.
  unfold parseArray. cbn [drop]. rewrite drop_0. rewrite ParseInt_Itoa by (unfold i64, min_i64; lia).
  rewrite (proj2 (Z.ltb_ge _ _)) by lia. destruct args as [|arg args]; [done|].
  rewrite (proj2 (Z.eqb_neq _ _)) by (cbn; lia). rewrite (proj2 (Z.ltb_ge _ _)) by lia.
  pose proof (args_length (arg :: args)) as Hn. rewrite length_app.
  rewrite <- (Z.add_0_l (blen (arg :: args))). rewrite array_loop_enc by (done || lia). cbn [app].
  by rewrite <- list_fmap_compose.
Qed.

Lemma not_in_line (s : bytes) : bool_decide (LF ∈ s) = false → LF ∉ s.
Proof. apply bool_decide_eq_false_1. Qed.

Lemma reads_err' a s b rest :
  LF ∉ s → LF ∉ a → LF ∉ b →
  reads ((Zbyte 45 :: a ++ s ++ b ++ CRLF) ++ rest) ([PData (StandardErrReply (a ++ s ++ b))], Go rest).
Proof.
  intros Hs Ha Hb. pose proof (reads_err (a ++ s ++ b) rest) as H. cbn. rewrite <- !app_assoc in *. apply H.
  by rewrite !not_elem_of_app.
Qed.

(** A reply is read back as one payload, and the rest of the stream is left. *)
Lemma reads_reply ff r r' rest :
  reply_ok r → seen r = Some r' → reads (ToBytes ff r ++ rest) ([PData r'], Go rest).
Proof.
  intros Hok Hs. destruct r; try discriminate Hs; cbn [ToBytes].
  - pose proof (reads_bulk Arg rest Hok) as H. by destruct Arg; injection Hs as <-.
  - destruct Hok as (H1 & H2 & H3). pose proof (reads_array Args rest H1 H2 H3) as H. by destruct Args; injection Hs as <-.
  - destruct Hok as [H1 H2]. injection Hs as <-. unfold status_bytes. rewrite <- !app_assoc. by apply reads_status.
  - injection Hs as <-. by apply reads_int.
  - injection Hs as <-. unfold err_bytes. rewrite <- !app_assoc. by apply reads_err.
  - injection Hs as <-. by apply (reads_status (str "PONG")); [apply not_in_line|].
  - injection Hs as <-. by apply (reads_status (str "OK")); [apply not_in_line|].
  - injection Hs as <-. exact (reads_bulk None rest I).
  - injection Hs as <-. apply (reads_line (Zbyte 42) (str "0")); [by apply not_in_line|reflexivity].
  - injection Hs as <-. by apply (reads_status (str "QUEUED")); [apply not_in_line|].
  - injection Hs as <-. by apply (reads_err (str "Err unknown")), not_in_line.
  - injection Hs as <-. unfold argnum_bytes.
    apply (reads_err' (str "ERR wrong number of arguments for '") Cmd (str "' command")); [done|by apply not_in_line..].
  - injection Hs as <-. by apply (reads_err (str "Err syntax error")), not_in_line.
  - injection Hs as <-. by apply (reads_err (str "WRONGTYPE Operation against a key holding the wrong kind of value")), not_in_line.
  - injection Hs as <-. unfold protoerr_bytes.
    apply (reads_err' (str "ERR Protocol error: '") Msg (str "'")); [done|by apply not_in_line..].
Qed.
(** ** Fuel *)

(** The loops have enough fuel: more does not change what they do. *)
Lemma array_loop_fuel f f' i n lines r :
  (length r < f)%nat → (length r < f')%nat → array_loop max_bytes f i n lines r = array_loop max_bytes f' i n lines r.
Proof.
  revert f' i lines r. induction f as [|f IH]; intros f' i lines r Hf Hf'; [lia|]. destruct f' as [|f']; [lia|].
  cbn [array_loop]. destruct (n <=? i); [done|]. destruct (ReadBytes r) as [[line r1]|] eqn:Hr; [|done].
  apply ReadBytes_length in Hr. destruct (_ || _ || _); [done|]. destruct (ParseInt _) as [k|]; [|done].
  destruct (k <? -1); [done|]. destruct (k =? -1); [apply IH; lia|]. unfold read_body, ReadFull.
  destruct (_ || _); [done|]. destruct (_ <=? _)%nat; [|by case_bool_decide]. apply IH; rewrite length_drop; lia.
Qed.

Lemma read_body_length r n body rest : read_body max_bytes r n = Ret (inr (body, rest)) → (length rest <= length r)%nat.
Proof.
  unfold read_body, ReadFull. destruct (_ || _); [done|]. destruct (_ <=? _)%nat; [|by case_bool_decide].
  intros [= _ <-]. rewrite length_drop. lia.
Qed.

Lemma array_loop_length f i n lines r ps rest : array_loop max_bytes f i n lines r = (ps, Go rest) → (length rest <= length r)%nat.
Proof.
  revert i lines r. induction f as [|f IH]; intros i lines r; cbn [array_loop]; (destruct (n <=? i); [by intros [= _ <-]|]); [done|].
  destruct (ReadBytes r) as [[line r1]|] eqn:Hr; [|done]. apply ReadBytes_length in Hr.
  destruct (_ || _ || _); [intros [= _ <-]; lia|]. destruct (ParseInt _) as [k|]; [|intros [= _ <-]; lia].
  destruct (k <? -1); [intros [= _ <-]; lia|]. destruct (k =? -1); [intros H%IH; lia|].
  destruct (read_body max_bytes r1 _) as [[e|[body rest']]| |] eqn:Hb; [done| |done..]. apply read_body_length in Hb. intros H%IH. lia.
Qed.

Lemma eof_mark_length mark w b r ps rest : eof_mark_loop mark w b r = (ps, Go rest) → (length rest <= length r)%nat.
Proof.
  revert w b. induction r as [|c r IH]; intros w b; cbn [eof_mark_loop]; [done|].
  destruct (_ <? _)%nat; (destruct (_ && _); [intros [= _ <-]; cbn; lia|intros H%IH; cbn; lia]).
Qed.

Lemma parse_line_length line r ps rest : parse_line max_bytes max_slices line r = (ps, Go rest) → (length rest <= length r)%nat.
Proof.
  unfold parse_line. destruct (_ || _); [by intros [= _ <-]|]. destruct (trim_crlf line) as [|c s]; [done|].
  case_bool_decide.
  { destruct (has_prefix _ _); [|by intros [= _ <-]]. unfold parseRDBBulkString. destruct (ReadBytes r) as [[h r1]|] eqn:Hr; [|done].
    apply ReadBytes_length in Hr. case_bool_decide; [done|]. destruct (has_prefix _ _).
    - unfold parseRDBEOFMark. case_bool_decide; [done|]. destruct (eof_mark_loop _ _ _ _) as [ps' fl] eqn:He. intros [= _ ->].
      apply eof_mark_length in He. lia.
    - destruct (ParseInt _) as [k|]; [|done]. destruct (k <=? 0); [done|].
      destruct (read_body max_bytes r1 k) as [[e|[body rest']]| |] eqn:Hb; [done| |done..]. intros [= _ <-]. apply read_body_length in Hb. lia. }
  case_bool_decide; [by intros [= _ <-]|]. case_bool_decide; [destruct (ParseInt s); by intros [= _ <-]|].
  case_bool_decide.
  { unfold parseBulkString. destruct (ParseInt _) as [k|]; [|by intros [= _ <-]]. destruct (k <? -1); [by intros [= _ <-]|].
    destruct (k =? -1); [by intros [= _ <-]|]. destruct (read_body max_bytes r _) as [[e|[body rest']]| |] eqn:Hb; [done| |done..].
    intros [= _ <-]. by apply read_body_length in Hb. }
  case_bool_decide; [|by intros [= _ <-]]. unfold parseArray. destruct (ParseInt _) as [k|]; [|by intros [= _ <-]].
  destruct (k <? 0); [by intros [= _ <-]|]. destruct (k =? 0); [by intros [= _ <-]|]. destruct (max_slices <? k); [done|].
  apply array_loop_length.
Qed.

Lemma parse0_loop_fuel f f' r :
  (length r < f)%nat → (length r < f')%nat → parse0_loop max_bytes max_slices f r = parse0_loop max_bytes max_slices f' r.
Proof.
  revert f' r. induction f as [|f IH]; intros f' r Hf Hf'; [lia|]. destruct f' as [|f']; [lia|]. cbn [parse0_loop].
  destruct (ReadBytes r) as [[line r1]|] eqn:Hr; [|done]. apply ReadBytes_length in Hr.
  destruct (parse_line _ _ line r1) as [ps [rest|e|]] eqn:Hp; [|done..]. apply parse_line_length in Hp.
  by rewrite (IH f') by lia.
Qed.

(** One reply at the front of a stream. *)
Lemma parse0_reads data ps rest :
  reads data (ps, Go rest) →
  parse0 max_bytes max_slices data = let '(ps', e) := parse0 max_bytes max_slices rest in (ps ++ ps', e).
Proof.
  intros (line & r & Hr & Hp). unfold parse0. cbn [parse0_loop]. rewrite Hr, Hp. apply ReadBytes_length in Hr.
  apply parse_line_length in Hp. by rewrite (parse0_loop_fuel _ (S (length rest))) by lia.
Qed.

(** ** Round trip *)

Definition data_only (ff : Z → bytes) (rs : list Reply) : bytes := concat (map (ToBytes ff) rs).

Lemma parse0_replies ff rs rs' :
  Forall2 (λ r r', reply_ok r ∧ seen r = Some r') rs rs' →
  parse0 max_bytes max_slices (data_only ff rs) = (map PData rs' ++ [PErr EOF], Closed).
Proof.
  unfold data_only. induction 1 as [|r r' rs rs' [Hok Hs] _ IH]; [done|]. cbn [map concat].
  rewrite (parse0_reads _ [PData r'] (concat (map (ToBytes ff) rs))) by (by apply reads_reply). by rewrite IH.
Qed.

Lemma collect_data rs results : collect (map PData rs ++ [PErr EOF]) Closed results = Got (inr (results ++ rs)).
Proof.
  revert results. induction rs as [|r rs IH]; intros results; cbn; [by rewrite app_nil_r|]. rewrite IH. by rewrite <- app_assoc.
Qed.

(** C20: any sequence of bulk, multi-bulk, status, integer and error replies and
    of the fixed replies, which fit on their lines and in memory (a status does not
    start with FULLRESYNC, which announces a dump), encoded one
    after the other, is read back by [ParseBytes] as the sequence of what [seen]
    gives: the same replies, except that the fixed replies come back as the status
    or error they spell, a null bulk as the null reply, null arguments of an array
    as empty strings and an empty array as the empty-array reply.  Nested, null
    and RESP3 replies have no form that this parser knows. *)
Theorem replies_read_back ff rs rs' :
  Forall2 (λ r r', reply_ok r ∧ seen r = Some r') rs rs' →
  ParseBytes max_bytes max_slices (data_only ff rs) = Got (inr rs').
Proof. intros H. unfold ParseBytes. rewrite (parse0_replies ff rs rs' H). apply collect_data. Qed.

(** ** The command parser *)

Lemma readLineV2_line l rest : CR ∉ l → readLineV2 (l ++ CR :: LF :: rest) = inr (l, rest).
Proof.
  induction l as [|c l IH]; intros H; cbn; [done|]. apply not_elem_of_cons in H as [Hc H].
  rewrite bool_decide_false by congruence. by rewrite IH.
Qed.

Lemma v2_args_enc args f i rest :
  Forall arg_ok args → (length args < f)%nat →
  v2_args max_bytes f i (i + blen args) ((args ≫= arg_bytes) ++ rest) = Ret (inr (args, rest)).
Proof.
  revert f i. induction args as [|arg args IH]; intros f i Hok Hf; (destruct f as [|f]; [cbn in Hf; lia|]).
  { cbn [v2_args length]. rewrite (proj2 (Z.leb_le _ _)) by (cbn; lia). done. }
  apply Forall_cons in Hok as [Ha Hok]. cbn [v2_args]. rewrite (proj2 (Z.leb_gt _ _)) by (cbn; lia).
  change ((arg :: args) ≫= arg_bytes) with (arg_bytes arg ++ (args ≫= arg_bytes)). rewrite <- app_assoc, arg_bytes_line.
  rewrite bool_decide_true by done. cbn [negb]. unfold readInteger. rewrite readLineV2_line by apply arg_line_no_cr.
  rewrite ParseInt_arg_line by (destruct arg; [destruct Ha; lia|unfold max_i64; lia]).
  replace (i + blen (arg :: args)) with (i + 1 + blen args) by (cbn; lia).
  specialize (IH f (i + 1) Hok ltac:(cbn in Hf; lia)). destruct arg as [b|].
  - rewrite (proj2 (Z.ltb_ge _ _)) by lia. rewrite read_body_arg by done. cbn [mbind res_bind]. rewrite IH. cbn [mbind res_bind].
    by rewrite Nat2Z.id, take_app_length.
  - change (-1 <? 0) with true. cbn iota. rewrite IH. done.
Qed.

Lemma ParseV2_enc args rest :
  Forall arg_ok args → blen args <= max_slices → blen args <= max_i64 →
  ParseV2 max_bytes max_slices (multibulk_bytes args ++ rest) = Ret (inr (Some args, rest)).
Proof.
  intros Ha Hs Hi. unfold multibulk_bytes. rewrite <- app_assoc, (header_line (Zbyte 42)). cbn [ParseV2].
  rewrite bool_decide_true by done. cbn [negb]. unfold readInteger. rewrite readLineV2_line by (apply Itoa_no_crlf; lia).
  rewrite ParseInt_Itoa by (unfold i64, min_i64; lia). rewrite (proj2 (Z.ltb_ge _ _)), (proj2 (Z.ltb_ge max_slices _)) by lia.
  pose proof (args_length args) as Hn. rewrite length_app.
  rewrite <- (Z.add_0_l (blen args)). rewrite v2_args_enc by (done || lia). done.
Qed.

(** C19: the three parsers of the server agree on every encoded command, whatever
    follows it: [ParseV2] and the parser of the event loop return exactly its
    arguments and stop at its end, and the channel parser sends it as one
    reply, with null arguments as empty strings, before anything that
    follows. *)
Theorem parsers_agree args rest :
  args ≠ [] → Forall arg_ok args → blen args <= max_slices → fits (multibulk_bytes args ++ rest) →
  ParseV2 max_bytes max_slices (multibulk_bytes args ++ rest) = Ret (inr (Some args, rest)) ∧
  (∃ vs, parseOneMultibulk max_slices (multibulk_bytes args ++ rest) = Ret (inr (vs, blen (multibulk_bytes args)))
     ∧ cmd_bytes (multibulk_bytes args ++ rest) vs = args) ∧
  parse0 max_bytes max_slices (multibulk_bytes args ++ rest) =
    (let '(ps, e) := parse0 max_bytes max_slices rest in
     (PData (MultiBulkReply ((λ a, Some (default [] a)) <$> args)) :: ps, e)).
Proof.
  intros Hne Ha Hs Hf. assert (Hi : blen args <= max_i64).
  { unfold fits in Hf. unfold multibulk_bytes in Hf. rewrite !length_app in Hf. pose proof (args_length args). unfold max_i64. lia. }
  split; [by apply ParseV2_enc|]. split; [by apply parseOne_enc|].
  destruct args as [|arg args]; [done|]. by rewrite (parse0_reads _ _ _ (reads_array (arg :: args) rest Ha Hs Hi)).
Qed.
End parser.

(** ** Concrete runs *)

Definition some_replies : list Reply :=
  [OkReply; BulkReply (Some (str "a" ++ CRLF)); MultiBulkReply [Some (str "x"); None]; IntReply (-5); MultiBulkReply []].
Definition some_seen : list Reply :=
  [StatusReply (str "OK"); BulkReply (Some (str "a" ++ CRLF)); MultiBulkReply [Some (str "x"); Some []]; IntReply (-5); EmptyMultiBulkReply].

Lemma replies_read_back_witness :
  ParseBytes 1000 1000 (data_only (λ _, []) some_replies) = Got (inr some_seen).
Proof.
  apply (replies_read_back 1000 1000). unfold some_replies, some_seen.
  repeat (apply Forall2_cons; split; [|]); [..|apply Forall2_nil; exact I]; (split; [|reflexivity]); cbn;
    repeat (split || constructor); vm_compute; discriminate.
Defined.

Lemma parsers_agree_witness :
  ParseV2 1000 1000 (multibulk_bytes [Some (str "GET"); None] ++ str "*") = Ret (inr (Some [Some (str "GET"); None], str "*")).
Proof.
  refine (proj1 (parsers_agree 1000 1000 [Some (str "GET"); None] (str "*") _ _ _ _)).
  - discriminate.
  - repeat constructor; vm_compute; discriminate.
  - vm_compute. discriminate.
  - vm_compute. reflexivity.
Defined.

(** A length that [make] refuses panics in the goroutine of the parser; the
    panic is recovered there, and the channel is neither closed nor given
    anything more, so that [ParseOne] and [ParseBytes] wait for ever. *)
Theorem refused_length_blocks_reader max_bytes max_slices :
  ParseOne max_bytes max_slices (str "$9223372036854775807" ++ CRLF) = Blocked ∧
  ParseBytes max_bytes max_slices (str "+OK" ++ CRLF ++ str "$9223372036854775807" ++ CRLF) = Blocked.
Proof. split; reflexivity. Qed.

(** A header that is not a bulk string ends the loop over an array: the error is
    reported, and then the beginning of the array is sent as if it were the
    whole. *)
Theorem broken_array_is_sent_as_complete :
  fst (parse0 1000 1000 (str "*3" ++ CRLF ++ arg_bytes (Some (str "DEL")) ++ arg_bytes (Some (str "a")) ++ str "?" ++ CRLF)) =
  [protocolError (str "illegal bulk string header ?" ++ CRLF); PData (MultiBulkReply [Some (str "DEL"); Some (str "a")]); PErr EOF].
Proof. reflexivity. Qed.

(** The null array, which the server sends for a timed-out wait, is not read
    back. *)
Theorem null_array_is_rejected max_bytes max_slices :
  ParseOne max_bytes max_slices nullMultiBulkBytes = Got (inl (ErrMsg (str "protocol error: illegal array header -1"))).
Proof. reflexivity. Qed.
