(* ===== verification/Lock.v ===== *)
(** * Key locks: [internal/datastruct/lock/lock_map.go]

    A table of read-write mutexes; the keys of a command are locked through the
    slots they hash to, in ascending order, and released in descending order.
    [internal/datastruct/dict/concurrent.go] locks its shards with the same
    functions.  Goroutines interleave by a step relation. *)

From stdpp Require Import base list sorting relations strings.
From Stdlib Require Import ZArith Lia Ascii.
From S2P Require Import Prelude.

Local Open Scope Z_scope.

(** ** Slots *)

Definition prime32 : Z := 16777619.
Definition fnv32 (key : bytes) : Z := foldl (λ h b, Z.lxor (u32 (h * prime32)) (byteZ b)) 2166136261 key.

(** [tableSize - 1] is an unsigned subtraction. *)
Definition spread (tableSize : Z) (hashCode : Z) : Z := Z.land (u32 (tableSize - 1)) hashCode.
Definition slot (tableSize : Z) (key : bytes) : Z := spread tableSize (fnv32 key).

(** The slots of the keys, each once, sorted; the order in which the map of
    slots is traversed does not matter after sorting. *)
Definition toLockIndices (tableSize : Z) (keys : list bytes) (rev : bool) : list Z :=
  let indices := merge_sort Z.le (remove_dups (slot tableSize <$> keys)) in
  if rev then reverse indices else indices.

(** ** What a goroutine does *)

(** [Lock] or [RLock] of a slot, the work under the locks, [Unlock] or
    [RUnlock]. *)
Inductive act := Acq (i : Z) (w : bool) | Body | Rel (i : Z) (w : bool).

Definition writes_slot (tableSize : Z) (writeKeys : list bytes) (i : Z) : bool := bool_decide (i ∈ (slot tableSize <$> writeKeys)).

Definition RWLocks (tableSize : Z) (writeKeys readKeys : list bytes) : list act :=
  (λ i, Acq i (writes_slot tableSize writeKeys i)) <$> toLockIndices tableSize (writeKeys ++ readKeys) false.
Definition RWUnLocks (tableSize : Z) (writeKeys readKeys : list bytes) : list act :=
  (λ i, Rel i (writes_slot tableSize writeKeys i)) <$> toLockIndices tableSize (writeKeys ++ readKeys) true.

Definition Locks (tableSize : Z) (keys : list bytes) : list act := (λ i, Acq i true) <$> toLockIndices tableSize keys false.
Definition RLocks (tableSize : Z) (keys : list bytes) : list act := (λ i, Acq i false) <$> toLockIndices tableSize keys false.
Definition UnLocks (tableSize : Z) (keys : list bytes) : list act := (λ i, Rel i true) <$> toLockIndices tableSize keys true.
Definition RUnLocks (tableSize : Z) (keys : list bytes) : list act := (λ i, Rel i false) <$> toLockIndices tableSize keys true.

Definition Lock (tableSize : Z) (key : bytes) : list act := [Acq (slot tableSize key) true].
Definition RLock (tableSize : Z) (key : bytes) : list act := [Acq (slot tableSize key) false].
Definition UnLock (tableSize : Z) (key : bytes) : list act := [Rel (slot tableSize key) true].
Definition RUnLock (tableSize : Z) (key : bytes) : list act := [Rel (slot tableSize key) false].

(** A command: its write keys and its read keys. *)
Abbreviation job := (list bytes * list bytes)%type.
Definition run_job (tableSize : Z) (j : job) : list act :=
  RWLocks tableSize (fst j) (snd j) ++ [Body] ++ RWUnLocks tableSize (fst j) (snd j).

(** ** Goroutines *)

(** What is left to do, the locks held (the last one first), and whether a call
    of [Lock] is waiting, which may keep new readers out. *)
Record thread := MkThread { todo : list act; held : list (Z * bool); waiting : bool }.

Definition holds (i : Z) (w : bool) (t : thread) : Prop := (i, w) ∈ held t.
Definition wants (i : Z) (t : thread) : Prop := waiting t = true ∧ ∃ td, todo t = Acq i true :: td.

Fixpoint release (x : Z * bool) (h : list (Z * bool)) : list (Z * bool) :=
  match h with [] => [] | y :: h => if bool_decide (y = x) then h else y :: release x h end.

Abbreviation all_threads ts P := (∀ k t, ts !! k = Some t → P t).

(** The steps.  A waiting writer keeps new readers out when [strict]; the Go
    mutex does so part of the time, so that its behaviour lies between. *)
Inductive step (strict : bool) (ts : list thread) : list thread → Prop :=
| step_call k i td h :
    ts !! k = Some (MkThread (Acq i true :: td) h false) →
    step strict ts (<[k := MkThread (Acq i true :: td) h true]> ts)
| step_lock k i td h :
    ts !! k = Some (MkThread (Acq i true :: td) h true) →
    all_threads ts (λ t, ∀ w, ¬ holds i w t) →
    step strict ts (<[k := MkThread td ((i, true) :: h) false]> ts)
| step_rlock k i td h :
    ts !! k = Some (MkThread (Acq i false :: td) h false) →
    all_threads ts (λ t, ¬ holds i true t ∧ (strict = true → ¬ wants i t)) →
    step strict ts (<[k := MkThread td ((i, false) :: h) false]> ts)
| step_body k td h :
    ts !! k = Some (MkThread (Body :: td) h false) → step strict ts (<[k := MkThread td h false]> ts)
| step_unlock k i w td h :
    ts !! k = Some (MkThread (Rel i w :: td) h false) → (i, w) ∈ h →
    step strict ts (<[k := MkThread td (release (i, w) h) false]> ts).

Definition start (tableSize : Z) (jobs : list (list job)) : list thread :=
  (λ js, MkThread (js ≫= run_job tableSize) [] false) <$> jobs.

Definition finished (ts : list thread) : Prop := all_threads ts (λ t, todo t = []).

(** Acts left, where a call that waits counts one less. *)
Definition weight (t : thread) : nat := (2 * length (todo t) - (if waiting t then 1 else 0))%nat.
Definition work (ts : list thread) : nat := foldr (λ t n, weight t + n)%nat 0%nat ts.

Lemma release_sub x y h : y ∈ release x h → y ∈ h.
Proof.
  induction h as [|z h IH]; cbn; [done|]. case_bool_decide; [by right|]. intros [->|Hy%IH]%elem_of_cons; [by left|by right].
Qed.

(** ** Slots are sorted *)

Section slots.
Context (tableSize : Z).

Lemma spread_in_table key : 0 < tableSize < 2 ^ 32 → 0 <= slot tableSize key < tableSize.
Proof.
  intros Hn. unfold slot, spread. assert (Hu : u32 (tableSize - 1) = tableSize - 1) by (apply Z.mod_small; lia). rewrite Hu.
  assert (Hf : 0 <= fnv32 key).
  { unfold fnv32. assert (G : ∀ h, 0 <= h → 0 <= foldl (λ h b, Z.lxor (u32 (h * prime32)) (byteZ b)) h key).
    { induction key as [|b key IH]; intros h Hh; cbn [foldl]; [done|]. apply IH. apply Z.lxor_nonneg.
      split; intros _; [apply byteZ_range|]. apply Z.mod_pos_bound. lia. }
    apply G. lia. }
  split; [apply Z.land_nonneg; lia|]. assert (H : Z.land (tableSize - 1) (fnv32 key) <= tableSize - 1); [|lia].
  apply Z.ldiff_le; [lia|]. apply Z.bits_inj'. intros n Hbit. rewrite Z.ldiff_spec, Z.land_spec, Z.bits_0.
  by destruct (Z.testbit (tableSize - 1) n), (Z.testbit (fnv32 key) n).
Qed.

Lemma indices_spec keys i : i ∈ toLockIndices tableSize keys false ↔ ∃ key, key ∈ keys ∧ i = slot tableSize key.
Proof.
  unfold toLockIndices. rewrite merge_sort_Permutation, elem_of_remove_dups, list_elem_of_fmap. naive_solver.
Qed.

Lemma indices_sorted keys : StronglySorted Z.lt (toLockIndices tableSize keys false).
Proof.
  unfold toLockIndices. set (l := remove_dups _). assert (Hnd : NoDup (merge_sort Z.le l)).
  { rewrite merge_sort_Permutation. apply NoDup_remove_dups. }
  pose proof (StronglySorted_merge_sort Z.le l) as Hs. revert Hs Hnd. generalize (merge_sort Z.le l). clear l.
  induction l as [|x l IH]; intros Hs Hnd; [constructor|]. apply StronglySorted_inv in Hs as [Hs Hx].
  apply NoDup_cons in Hnd as [Hnin Hnd]. constructor; [by apply IH|]. apply Forall_forall. intros y Hy.
  rewrite Forall_forall in Hx. specialize (Hx y Hy). assert (x ≠ y) by (by intros ->). lia.
Qed.
End slots.

(** ** The shape of a goroutine *)

Section shape.
Context (tableSize : Z).

Definition locks_of (j : job) : list (Z * bool) :=
  (λ i, (i, writes_slot tableSize (fst j) i)) <$> toLockIndices tableSize (fst j ++ snd j) false.
Definition acq (p : Z * bool) : act := Acq (fst p) (snd p).
Definition rel (p : Z * bool) : act := Rel (fst p) (snd p).

Lemma run_job_shape j : run_job tableSize j = (acq <$> locks_of j) ++ Body :: (rel <$> reverse (locks_of j)).
Proof.
  unfold run_job, RWLocks, RWUnLocks, locks_of. cbn [app]. rewrite <- list_fmap_compose. f_equal. f_equal.
  rewrite <- fmap_reverse, <- list_fmap_compose. done.
Qed.

Definition ascending (l : list (Z * bool)) : Prop := StronglySorted Z.lt (fst <$> l).

Lemma locks_of_ascending j : ascending (locks_of j).
Proof. unfold ascending, locks_of. rewrite <- list_fmap_compose. erewrite list_fmap_ext, list_fmap_id; [apply indices_sorted|done]. Qed.

Lemma locks_of_write j key : key ∈ fst j → (slot tableSize key, true) ∈ locks_of j.
Proof.
  intros Hk. apply list_elem_of_fmap. exists (slot tableSize key). split.
  - f_equal. symmetry. apply bool_decide_true. by apply list_elem_of_fmap_2.
  - apply indices_spec. exists key. split; [|done]. apply elem_of_app. by left.
Qed.

Lemma locks_of_key j key : key ∈ fst j ++ snd j → ∃ w, (slot tableSize key, w) ∈ locks_of j.
Proof. intros Hk. eexists. apply list_elem_of_fmap. eexists. split; [done|]. apply indices_spec. by exists key. Qed.

(** A goroutine that runs [js]: it acquires the locks of a command, or it
    releases them, in reverse, or it has finished. *)
Inductive shaped (js : list job) : thread → Prop :=
| shaped_acquire don j rest p q wt :
    js = don ++ j :: rest → locks_of j = p ++ q → (wt = true → ∃ i q', q = (i, true) :: q') →
    shaped js (MkThread ((acq <$> q) ++ Body :: (rel <$> reverse (p ++ q)) ++ (rest ≫= run_job tableSize)) (reverse p) wt)
| shaped_release don j rest x r :
    js = don ++ j :: rest → shaped js (MkThread ((rel <$> x :: r) ++ (rest ≫= run_job tableSize)) (x :: r) false)
| shaped_idle : shaped js (MkThread [] [] false).

(** The beginning of a command. *)
Lemma shaped_jobs js don rest : js = don ++ rest → shaped js (MkThread (rest ≫= run_job tableSize) [] false).
Proof.
  intros ->. destruct rest as [|j rest]; [by apply shaped_idle|].
  change ((j :: rest) ≫= run_job tableSize) with (run_job tableSize j ++ (rest ≫= run_job tableSize)).
  rewrite run_job_shape, <- app_assoc. by apply (shaped_acquire _ don j rest [] (locks_of j)).
Qed.

Lemma sorted_app_lt p x q : ascending (p ++ x :: q) → ∀ y, y ∈ p → fst y < fst x.
Proof.
  unfold ascending. rewrite fmap_app. intros Hs y Hy. rewrite fmap_cons in Hs.
  eapply (StronglySorted_app_1_elem_of Z.lt); [exact Hs|by apply list_elem_of_fmap_2|by left].
Qed.

(** ** The steps of one goroutine *)

Lemma shaped_call js i td h : shaped js (MkThread (Acq i true :: td) h false) → shaped js (MkThread (Acq i true :: td) h true).
Proof.
  inversion 1 as [don j rest p q wt Hjs Hl Hw Ht|don j rest x r Hjs Ht|]. subst wt.
  destruct q as [|[i' w'] q]; [done|]. injection Ht as -> -> Ht. subst td.
  apply (shaped_acquire js don j rest p ((i, true) :: q) true); eauto.
Qed.

Lemma shaped_acquired js i w td h wt : shaped js (MkThread (Acq i w :: td) h wt) → shaped js (MkThread td ((i, w) :: h) false).
Proof.
  inversion 1 as [don j rest p q wt' Hjs Hl Hw Ht|don j rest x r Hjs Ht|].
  destruct q as [|[i' w'] q]; [done|]. injection Ht as -> -> Ht. subst td.
  replace ((i, w) :: reverse p) with (reverse (p ++ [(i, w)])) by (by rewrite reverse_app).
  change ((i, w) :: q) with ([(i, w)] ++ q) in *. rewrite app_assoc in *.
  by apply (shaped_acquire js don j rest (p ++ [(i, w)]) q false).
Qed.

Lemma shaped_body js td h wt :
  shaped js (MkThread (Body :: td) h wt) →
  wt = false ∧ shaped js (MkThread td h false) ∧ ∃ j, j ∈ js ∧ h = reverse (locks_of j).
Proof.
  inversion 1 as [don j rest p q wt' Hjs Hl Hw Ht|don j rest x r Hjs Ht|].
  destruct q as [|[i' w'] q]; [|done]. injection Ht as <-. rewrite app_nil_r in *. subst wt'.
  assert (Hj : j ∈ js) by (subst js; apply elem_of_app; right; by left).
  split; [destruct wt; [by destruct Hw as (? & ? & ?)|done]|]. split; [|exists j; by rewrite Hl].
  destruct (reverse p) as [|x r]; [|by apply (shaped_release js don j rest)].
  apply (shaped_jobs js (don ++ [j])). by rewrite <- app_assoc.
Qed.

Lemma shaped_unlock js i w td h wt :
  shaped js (MkThread (Rel i w :: td) h wt) → wt = false ∧ ∃ h', h = (i, w) :: h' ∧ shaped js (MkThread td h' false).
Proof.
  intros Hs. remember (MkThread (Rel i w :: td) h wt) as t eqn:Et.
  destruct Hs as [don j rest p q wt' Hjs Hl Hw|don j rest [i' w'] r Hjs|]; [by destruct q| |done].
  injection Et as -> -> <- <- <-. split; [done|]. exists r. split; [done|].
  destruct r as [|y r]; [|by apply (shaped_release js don j rest)].
  apply (shaped_jobs js (don ++ [j])). by rewrite <- app_assoc.
Qed.

(** A goroutine that waits for a slot holds smaller ones. *)
Lemma shaped_below js i w td h wt y : shaped js (MkThread (Acq i w :: td) h wt) → y ∈ h → fst y < i.
Proof.
  inversion 1 as [don j rest p q wt' Hjs Hl Hw Ht|don j rest x r Hjs Ht|].
  destruct q as [|[i' w'] q]; [done|]. injection Ht as -> -> Ht. subst h. intros Hy. rewrite elem_of_reverse in Hy.
  refine (sorted_app_lt p (i, w) q _ y Hy). rewrite <- Hl. apply locks_of_ascending.
Qed.

Lemma shaped_waiting js t : shaped js t → waiting t = true → ∃ i td, todo t = Acq i true :: td.
Proof. intros [don j rest p q wt Hjs Hl Hw|don j rest x r Hjs|]; cbn; [|done..]. intros (i & q' & ->)%Hw. by eexists _, _. Qed.

Lemma shaped_end js h wt : shaped js (MkThread [] h wt) → h = [].
Proof. inversion 1 as [don j rest p q wt' Hjs Hl Hw Ht| |]; [by destruct q|done]. Qed.

(** ** The steps of all *)

(** No goroutine holds a slot that another has locked for writing. *)
Definition exclusive (ts : list thread) : Prop :=
  ∀ a b ta tb i w, a ≠ b → ts !! a = Some ta → ts !! b = Some tb → holds i true ta → ¬ holds i w tb.

Definition inv (jobs : list (list job)) (ts : list thread) : Prop := Forall2 shaped jobs ts ∧ exclusive ts.

Lemma inv_start jobs : inv jobs (start tableSize jobs).
Proof.
  split.
  - unfold start. apply Forall2_fmap_r, Forall_Forall2_diag, Forall_forall. intros js _. by apply (shaped_jobs js []).
  - intros a b ta tb i w _ Ha _ Hi. unfold start in Ha. rewrite list_lookup_fmap in Ha.
    destruct (jobs !! a); [|done]. injection Ha as <-. by apply elem_of_nil in Hi.
Qed.

(** A goroutine that takes no lock keeps the others out of nothing. *)
Lemma exclusive_insert ts k t t' :
  ts !! k = Some t → (∀ i w, holds i w t' → holds i w t ∨ ∀ b tb w', b ≠ k → ts !! b = Some tb → holds i w' tb → w = false ∧ w' = false) →
  exclusive ts → exclusive (<[k := t']> ts).
Proof.
  intros Hk Hnew Hex a b ta tb i w Hab Ha Hb Hi Hw.
  apply list_lookup_insert_Some in Ha as [(<- & <- & _)|[Hka Ha]]; apply list_lookup_insert_Some in Hb as [(<- & <- & _)|[Hkb Hb]]; [done| | |].
  - destruct (Hnew i true Hi) as [Hold|Hn]; [by eapply Hex|]. by destruct (Hn b tb w) as [? _].
  - destruct (Hnew i w Hw) as [Hold|Hn]; [eapply (Hex a k); done|]. by destruct (Hn a ta true) as [_ ?].
  - by eapply (Hex a b).
Qed.

Lemma inv_step strict jobs ts ts' : inv jobs ts → step strict ts ts' → inv jobs ts'.
Proof.
  intros [Hsh Hex] Hst.
  assert (Hupd : ∀ k t t', ts !! k = Some t → (∀ js, shaped js t → shaped js t') → Forall2 shaped jobs (<[k := t']> ts)).
  { intros k t t' Hk Ht. destruct (Forall2_lookup_r _ _ _ _ _ Hsh Hk) as (js & Hjs & Hs).
    rewrite <- (list_insert_id jobs k js Hjs). by apply Forall2_insert, Ht. }
  destruct Hst as [k i td h Hk|k i td h Hk Hfree|k i td h Hk Hfree|k td h Hk|k i w td h Hk Hin].
  - split; [eapply Hupd; [exact Hk|]; intros js; apply shaped_call|]. eapply exclusive_insert; [exact Hk| |done]. by left.
  - split; [eapply Hupd; [exact Hk|]; intros js; apply shaped_acquired|]. eapply exclusive_insert; [exact Hk| |done].
    intros i' w' [[= -> ->]|H]%elem_of_cons; [right|by left]. intros b tb w' _ Hb Hh. by destruct (Hfree _ _ Hb w').
  - split; [eapply Hupd; [exact Hk|]; intros js; apply shaped_acquired|]. eapply exclusive_insert; [exact Hk| |done].
    intros i' w' [[= -> ->]|H]%elem_of_cons; [right|by left]. intros b tb [] _ Hb Hh; [|done]. by destruct (Hfree _ _ Hb).
  - split; [eapply Hupd; [exact Hk|]; intros js Hs; by apply shaped_body in Hs as (_ & ? & _)|].
    eapply exclusive_insert; [exact Hk| |done]. by left.
  - split.
    + eapply Hupd; [exact Hk|]. intros js (_ & h' & -> & Hs)%shaped_unlock. cbn. by rewrite bool_decide_true.
    + eapply exclusive_insert; [exact Hk| |done]. intros i' w' H. left. by eapply release_sub.
Qed.

(** ** Progress *)

(** The slot a goroutine asks for. *)
Definition asks (t : thread) : option Z := match todo t with Acq i _ :: _ => Some i | _ => None end.

Lemma max_asks (ts : list thread) :
  (∀ k t, ts !! k = Some t → asks t = None) ∨
  ∃ k t i, ts !! k = Some t ∧ asks t = Some i ∧ ∀ k' t' i', ts !! k' = Some t' → asks t' = Some i' → i' <= i.
Proof.
  induction ts as [|t ts IH]; [left; intros k t H; by rewrite lookup_nil in H|]. destruct (asks t) as [i|] eqn:Hi.
  - right. destruct IH as [Hn|(k & u & j & Hk & Hj & Hmax)].
    + exists 0%nat, t, i. split; [done|]. split; [done|]. intros [|k'] t' i' Hk' Hi'; cbn in Hk'; [|by rewrite (Hn _ _ Hk') in Hi'].
      injection Hk' as <-. rewrite Hi in Hi'. injection Hi' as <-. lia.
    + destruct (Z_le_gt_dec i j) as [Hle|Hgt].
      * exists (S k), u, j. split; [done|]. split; [done|]. intros [|k'] t' i' Hk' Hi'; cbn in Hk'; [|by eapply Hmax].
        injection Hk' as <-. rewrite Hi in Hi'. injection Hi' as <-. lia.
      * exists 0%nat, t, i. split; [done|]. split; [done|]. intros [|k'] t' i' Hk' Hi'; cbn in Hk'.
        -- injection Hk' as <-. rewrite Hi in Hi'. injection Hi' as <-. lia.
        -- specialize (Hmax _ _ _ Hk' Hi'). lia.
  - destruct IH as [Hn|(k & u & j & Hk & Hj & Hmax)].
    + left. intros [|k] t' H; cbn in H; [by injection H as <-|by eapply Hn].
    + right. exists (S k), u, j. split; [done|]. split; [done|]. intros [|k'] t' i' Hk' Hi'; cbn in Hk'; [|by eapply Hmax].
      injection Hk' as <-. congruence.
Qed.

(** A goroutine that can go on by itself. *)
Definition free_to_go (t : thread) : bool :=
  match todo t with Body :: _ | Rel _ _ :: _ => true | Acq _ true :: _ => negb (waiting t) | _ => false end.

Lemma free_steps strict jobs ts k t : inv jobs ts → ts !! k = Some t → free_to_go t = true → ∃ ts', step strict ts ts'.
Proof.
  intros [Hsh _] Hk Hf. destruct (Forall2_lookup_r _ _ _ _ _ Hsh Hk) as (js & _ & Hs). destruct t as [td h wt]. unfold free_to_go in Hf. cbn in Hf.
  destruct td as [|[i [|]| |i w] td]; [done|..].
  - destruct wt; [done|]. eexists. by eapply step_call.
  - done.
  - apply shaped_body in Hs as (-> & _ & _). eexists. by eapply step_body.
  - apply shaped_unlock in Hs as (-> & h' & -> & _). eexists. eapply step_unlock; [exact Hk|]. by left.
Qed.

Lemma progress jobs ts : inv jobs ts → finished ts ∨ ∃ ts', step true ts ts'.
Proof.
  intros Hinv. destruct (decide (Exists (λ t, free_to_go t = true) ts)) as [Hex|Hno].
  { apply Exists_exists in Hex as (t & Hin & Hf). apply list_elem_of_lookup in Hin as [k Hk]. right. by eapply free_steps. }
  assert (Hnf : ∀ k t, ts !! k = Some t → free_to_go t = false).
  { intros k t Hk. destruct (free_to_go t) eqn:E; [|done]. destruct Hno. apply Exists_exists. exists t. split; [by eapply list_elem_of_lookup_2|done]. }
  destruct (max_asks ts) as [Hn|(k & t & i & Hk & Hi & Hmax)].
  { left. intros k t Hk. specialize (Hn _ _ Hk). specialize (Hnf _ _ Hk). unfold asks, free_to_go in *. by destruct (todo t) as [|[]]. }
  right. destruct Hinv as [Hsh _].
  assert (Hfree : all_threads ts (λ t, ∀ w, ¬ holds i w t)).
  { intros k' [td h wt] Hk' w Hh. destruct (Forall2_lookup_r _ _ _ _ _ Hsh Hk') as (js & _ & Hs). unfold holds in Hh. cbn in Hh.
    specialize (Hnf _ _ Hk'). specialize (Hmax _ _ (default 0 (asks (MkThread td h wt))) Hk'). unfold free_to_go, asks in Hnf, Hmax. cbn in Hnf, Hmax.
    destruct td as [|[i' w'| |i' w'] td]; [|..|done|done].
    - apply shaped_end in Hs as ->. by apply elem_of_nil in Hh.
    - pose proof (shaped_below _ _ _ _ _ _ _ Hs Hh) as Hlt. cbn in Hlt, Hmax. specialize (Hmax eq_refl). lia. }
  destruct t as [[|[i' w| |] td] h wt]; unfold asks in Hi; cbn in Hi; try done. injection Hi as ->.
  pose proof (Hnf _ _ Hk) as Hf. unfold free_to_go in Hf. cbn in Hf. destruct w.
  { destruct wt; [|done]. eexists. by eapply step_lock. }
  destruct (decide (Exists (λ t, bool_decide (asks t = Some i) && waiting t = true) ts)) as [Hw|Hw].
  - apply Exists_exists in Hw as ([td' h' wt'] & Hin & Hw). apply list_elem_of_lookup in Hin as [k' Hk'].
    apply andb_true_iff in Hw as [Ha Hw]. apply bool_decide_eq_true in Ha. cbn in Hw. subst wt'.
    destruct (Forall2_lookup_r _ _ _ _ _ Hsh Hk') as (js & _ & Hs).
    destruct (shaped_waiting _ _ Hs eq_refl) as (i' & td'' & Htd). cbn in Htd. subst td'. unfold asks in Ha. cbn in Ha. injection Ha as ->.
    eexists. by eapply step_lock.
  - eexists. eapply step_rlock with (k := k) (i := i).
    + destruct wt; [|exact Hk]. destruct (Forall2_lookup_r _ _ _ _ _ Hsh Hk) as (js & _ & Hs).
      by destruct (shaped_waiting _ _ Hs eq_refl) as (i' & td'' & ?).
    + intros k' t' Hk'. split; [by eapply Hfree|]. intros _ [Hwt (td' & Htd)]. destruct Hw. apply Exists_exists. exists t'.
      split; [by eapply list_elem_of_lookup_2|]. rewrite Hwt, andb_true_r. apply bool_decide_eq_true. unfold asks. by rewrite Htd.
Qed.

(** ** Every step does work *)

Lemma work_insert (ts : list thread) k t t' :
  ts !! k = Some t → (work (<[k := t']> ts) + weight t = work ts + weight t')%nat.
Proof.
  revert k. induction ts as [|u ts IH]; intros k Hk; [by rewrite lookup_nil in Hk|].
  change (work (u :: ts)) with (weight u + work ts)%nat. destruct k as [|k]; cbn in Hk.
  - injection Hk as ->. change (work (<[0%nat := t']> (t :: ts))) with (weight t' + work ts)%nat. lia.
  - specialize (IH k Hk). change (work (<[S k := t']> (u :: ts))) with (weight u + work (<[k := t']> ts))%nat. lia.
Qed.

Lemma step_works strict ts ts' : step strict ts ts' → (work ts' < work ts)%nat.
Proof.
  intros [k i td h Hk|k i td h Hk _|k i td h Hk _|k td h Hk|k i w td h Hk _].
  all: pose proof (λ t', work_insert _ _ _ t' Hk) as Hw.
  - specialize (Hw (MkThread (Acq i true :: td) h true)). unfold weight in Hw. cbn in *. lia.
  - specialize (Hw (MkThread td ((i, true) :: h) false)). unfold weight in Hw. cbn in *. lia.
  - specialize (Hw (MkThread td ((i, false) :: h) false)). unfold weight in Hw. cbn in *. lia.
  - specialize (Hw (MkThread td h false)). unfold weight in Hw. cbn in *. lia.
  - specialize (Hw (MkThread td (release (i, w) h) false)). unfold weight in Hw. cbn in *. lia.
Qed.

Lemma step_weaken ts ts' : step true ts ts' → step false ts ts'.
Proof.
  intros [k i td h Hk|k i td h Hk Hf|k i td h Hk Hf|k td h Hk|k i w td h Hk Hin];
    [by eapply step_call|by eapply step_lock| |by eapply step_body|by eapply step_unlock].
  eapply step_rlock; [done|]. intros k' t' Hk'. split; [by apply (Hf _ _ Hk')|done].
Qed.

Lemma inv_reachable jobs ts : rtc (step false) (start tableSize jobs) ts → inv jobs ts.
Proof.
  intros Hr. assert (G : ∀ a b, rtc (step false) a b → inv jobs a → inv jobs b).
  { induction 1 as [|a b c Hab _ IH]; [done|]. intros Ha. apply IH. by eapply inv_step. }
  eapply G; [exact Hr|apply inv_start].
Qed.

(** C21: any number of goroutines run any commands, each locking its write and read
    keys with [RWLocks] and releasing them with [RWUnLocks]: whatever the
    interleaving, and whether or not waiting writers keep new readers out, some
    goroutine can always take a step until all have finished, and the number of
    steps is bounded, so that all finish. *)
Theorem locked_commands_finish jobs ts :
  rtc (step false) (start tableSize jobs) ts →
  (finished ts ∨ ∃ ts', step true ts ts') ∧ (∀ n ts', nsteps (step false) n ts ts' → (n + work ts' <= work ts)%nat).
Proof.
  intros Hr. split; [eapply progress, inv_reachable, Hr|]. intros n ts' Hn. clear Hr.
  induction Hn as [|n a b c Hab _ IH]; [lia|]. apply step_works in Hab. lia.
Qed.

(** While a goroutine works under the locks of a command, no other goroutine
    works under the locks of a command that shares one of its write keys. *)
Theorem write_keys_are_exclusive jobs ts a b ta tb tda tdb :
  rtc (step false) (start tableSize jobs) ts → a ≠ b → ts !! a = Some ta → ts !! b = Some tb →
  todo ta = Body :: tda → todo tb = Body :: tdb →
  ∃ jsa jsb ja jb, jobs !! a = Some jsa ∧ jobs !! b = Some jsb ∧ ja ∈ jsa ∧ jb ∈ jsb ∧
    ∀ key, key ∈ fst ja → key ∉ fst jb ++ snd jb.
Proof.
  intros Hr Hab Ha Hb Hta Htb. destruct (inv_reachable jobs ts Hr) as [Hsh Hex].
  destruct (Forall2_lookup_r _ _ _ _ _ Hsh Ha) as (jsa & Hja & Hsa), (Forall2_lookup_r _ _ _ _ _ Hsh Hb) as (jsb & Hjb & Hsb).
  destruct ta as [td1 ha wa], tb as [td2 hb wb]. cbn in Hta, Htb. subst td1 td2.
  apply shaped_body in Hsa as (_ & _ & ja & Hina & ->), Hsb as (_ & _ & jb & Hinb & ->).
  exists jsa, jsb, ja, jb. repeat split; [done..|]. intros key Hk Hkb. destruct (locks_of_key jb key Hkb) as [w Hw].
  eapply (Hex a b); [done|exact Ha|exact Hb| |]; unfold holds; cbn [held]; rewrite elem_of_reverse; [by apply locks_of_write|exact Hw].
Qed.
End shape.

(** ** Two goroutines that ask for the same keys in opposite order *)

Definition two_jobs : list (list job) := [[([str "a"; str "b"], [])]; [([str "b"], [str "a"])]].

Lemma locked_commands_finish_witness : finished (start 16 two_jobs) ∨ ∃ ts', step true (start 16 two_jobs) ts'.
Proof. exact (proj1 (locked_commands_finish 16 two_jobs (start 16 two_jobs) (rtc_refl _ _))). Defined.

(** Commands on different keys, both at work. *)
Definition apart_jobs : list (list job) := [[([str "a"], [])]; [([], [str "b"])]].
Definition both_working : list thread :=
  [MkThread [Body; Rel (slot 16 (str "a")) true] [(slot 16 (str "a"), true)] false;
   MkThread [Body; Rel (slot 16 (str "b")) false] [(slot 16 (str "b"), false)] false].

Lemma both_reached : rtc (step false) (start 16 apart_jobs) both_working.
Proof.
  eapply rtc_l; [eapply (step_call _ _ 0%nat); reflexivity|].
  eapply rtc_l; [eapply (step_lock _ _ 0%nat); [reflexivity|]|].
  { intros [|[|k]] t Ht w Hh; cbn in Ht; [injection Ht as <-; by apply elem_of_nil in Hh..|done]. }
  eapply rtc_l; [eapply (step_rlock _ _ 1%nat); [reflexivity|]|apply rtc_refl].
  intros [|[|k]] t Ht; cbn in Ht; [injection Ht as <-..|done]; (split; [|done]).
  - intros Hh. unfold holds in Hh. cbn in Hh. apply list_elem_of_singleton in Hh. vm_compute in Hh. discriminate Hh.
  - intros Hh. by apply elem_of_nil in Hh.
Qed.

Lemma write_keys_are_exclusive_witness :
  ∃ jsa jsb ja jb, apart_jobs !! 0%nat = Some jsa ∧ apart_jobs !! 1%nat = Some jsb ∧ ja ∈ jsa ∧ jb ∈ jsb ∧
    ∀ key, key ∈ fst ja → key ∉ fst jb ++ snd jb.
Proof.
  assert (Hne : 0%nat ≠ 1%nat) by discriminate.
  exact (write_keys_are_exclusive 16 apart_jobs both_working 0 1 _ _ _ _ both_reached Hne eq_refl eq_refl eq_refl eq_refl).
Defined.
