(* ===== verification/ConcurrentDict.v ===== *)
(** * ConcurrentDict: [internal/datastruct/dict/concurrent.go]

    A table of shards, each a Go map behind a read-write mutex, and a counter of
    the entries; the dict of the key space, of its side tables and of the hub.
    The operations without a lock of their own ([GetWithLock] and the like) have
    the bodies of the others.  The first part has them run one after another.

    Traversals of a Go map take their order as an argument, and the random
    choices are arguments too.

    The second part has goroutines that run commands, each between [RWLocks] and
    [RWUnLocks] of its write and read keys ([Lock.v]); in between it calls the
    operations that take no lock themselves.  The accesses to a shard and to the
    counter interleave.  Whatever the interleaving, the results are those of the
    commands executed one after another on one Go map, in an order in which a
    command that ended before another began comes first. *)

From stdpp Require Import base gmap list strings sorting relations.
From Stdlib Require Import ZArith Lia.
From S2P Require Import Prelude Dict SimpleDict RedisDict Lock.

Local Open Scope Z_scope.

(** Two's-complement wrap-around of [int32]. *)
Definition wrap32 (z : Z) : Z := (z + 2 ^ 31) mod 2 ^ 32 - 2 ^ 31.

Lemma wrap32_id z : - 2 ^ 31 <= z < 2 ^ 31 → wrap32 z = z.
Proof. intros H. unfold wrap32. rewrite Z.mod_small; lia. Qed.

Lemma wrap32_add a b : wrap32 (wrap32 a + b) = wrap32 (a + b).
Proof.
  unfold wrap32. f_equal. replace ((a + 2 ^ 31) mod 2 ^ 32 - 2 ^ 31 + b + 2 ^ 31) with ((a + 2 ^ 31) mod 2 ^ 32 + b) by lia.
  rewrite Zplus_mod_idemp_l. f_equal. lia.
Qed.

(** The smallest power of two that is at least [param], and 16, as long as 32
    bits are enough. *)
Definition computeCapacity (param : Z) : Z :=
  if param <=? 16 then 16
  else
    let n := param - 1 in
    let n := Z.lor n (Z.shiftr n 1) in
    let n := Z.lor n (Z.shiftr n 2) in
    let n := Z.lor n (Z.shiftr n 4) in
    let n := Z.lor n (Z.shiftr n 8) in
    let n := Z.lor n (Z.shiftr n 16) in
    if n <? 0 then 2 ^ 31 - 1 else wrap64 (n + 1).

(** A draw is the number of a shard and the order in which it is traversed. *)
Abbreviation cd_draw := (Z * list bytes)%type.

Section ConcurrentDict.
Context {V : Type}.

(** [count] is an [int32]; a shard is its map. *)
Record ConcurrentDict := MkCD { table : list (gmap bytes V); count : Z; shardCount : Z }.

Definition MakeConcurrent (shardCount : Z) : ConcurrentDict :=
  if shardCount =? 1 then MkCD [∅] 0 shardCount
  else
    let shardCount := computeCapacity shardCount in
    MkCD (replicate (Z.to_nat shardCount) ∅) 0 shardCount.

Definition spread (dict : ConcurrentDict) (key : bytes) : Z :=
  if bool_decide (length (table dict) = 1%nat) then 0
  else
    let hashCode := fnv32 key in
    let tableSize := u32 (Z.of_nat (length (table dict))) in
    Z.land (u32 (tableSize - 1)) hashCode.

Definition getShard (dict : ConcurrentDict) (index : Z) : res (gmap bytes V) :=
  must (table dict !! Z.to_nat index).

Definition set_shard (dict : ConcurrentDict) (index : Z) (m : gmap bytes V) : ConcurrentDict :=
  MkCD (<[Z.to_nat index := m]> (table dict)) (count dict) (shardCount dict).

Definition addCount (dict : ConcurrentDict) : ConcurrentDict :=
  MkCD (table dict) (wrap32 (count dict + 1)) (shardCount dict).
Definition decreaseCount (dict : ConcurrentDict) : ConcurrentDict :=
  MkCD (table dict) (wrap32 (count dict - 1)) (shardCount dict).

Definition GetWithLock (dict : ConcurrentDict) (key : bytes) : res (option V) :=
  let index := spread dict key in
  s ← getShard dict index; Ret (s !! key).

Definition Len (dict : ConcurrentDict) : res Z := Ret (count dict).

Definition PutWithLock (dict : ConcurrentDict) (key : bytes) (val : V) : res (ConcurrentDict * Z) :=
  let index := spread dict key in
  s ← getShard dict index;
  match s !! key with
  | Some _ => Ret (set_shard dict index (<[key := val]> s), 0)
  | None => Ret (set_shard (addCount dict) index (<[key := val]> s), 1)
  end.

Definition PutIfAbsentWithLock (dict : ConcurrentDict) (key : bytes) (val : V) : res (ConcurrentDict * Z) :=
  let index := spread dict key in
  s ← getShard dict index;
  match s !! key with
  | Some _ => Ret (dict, 0)
  | None => Ret (addCount (set_shard dict index (<[key := val]> s)), 1)
  end.

Definition PutIfExistsWithLock (dict : ConcurrentDict) (key : bytes) (val : V) : res (ConcurrentDict * Z) :=
  let index := spread dict key in
  s ← getShard dict index;
  match s !! key with
  | Some _ => Ret (set_shard dict index (<[key := val]> s), 1)
  | None => Ret (dict, 0)
  end.

Definition RemoveWithLock (dict : ConcurrentDict) (key : bytes) : res (ConcurrentDict * option V * Z) :=
  let index := spread dict key in
  s ← getShard dict index;
  match s !! key with
  | Some val => Ret (decreaseCount (set_shard dict index (delete key s)), Some val, 1)
  | None => Ret (dict, None, 0)
  end.

(** The same between [Lock] and [Unlock] of the shard. *)
Definition Get := GetWithLock.
Definition Put := PutWithLock.
Definition PutIfAbsent := PutIfAbsentWithLock.
Definition PutIfExists := PutIfExistsWithLock.
Definition Remove := RemoveWithLock.

(** A traversal visits the shards one after another; [ords] has the order in
    which each is visited. *)
Definition ForEach {A} (consumer : A → bytes → V → A * bool) (ords : list (list (bytes * V))) (st : A) : A :=
  d_ForEach consumer (mjoin ords) st.

(** [make([]string, size)] and the consumer of [Keys] over what is visited. *)
Fixpoint keys_loop (keys : list bytes) (i : nat) (visited : list bytes) : list bytes :=
  match visited with
  | [] => keys
  | key :: visited =>
      if bool_decide (i < length keys)%nat then keys_loop (<[i := key]> keys) (S i) visited
      else keys_loop (keys ++ [key]) i visited
  end.

(** [size] is what [Len] returned before the traversal. *)
Definition Keys (size : Z) (ords : list (list (bytes * V))) : res (list bytes) :=
  if size <? 0 then Panic
  else Ret (keys_loop (replicate (Z.to_nat size) []) 0 (ForEach (λ acc k _, (acc ++ [k], true)) ords [])).

(** The first key of the traversal, or the empty string. *)
Definition RandomKey (visited : list bytes) : bytes := default [] (head visited).

Fixpoint random_keys_loop (draws : list cd_draw) (limit : nat) (result : list bytes) : res (list bytes) :=
  if bool_decide (length result < limit)%nat then
    match draws with
    | [] => OutOfFuel
    | (_, visited) :: draws =>
        let key := RandomKey visited in
        if bytes_eqb key [] then random_keys_loop draws limit result
        else random_keys_loop draws limit (result ++ [key])
    end
  else Ret result.

Definition RandomKeys (dict : ConcurrentDict) (ords : list (list (bytes * V))) (draws : list cd_draw) (limit : Z) : res (list bytes) :=
  let size := count dict in
  if size <=? limit then Keys size ords
  else if limit <? 0 then Panic
  else random_keys_loop draws (Z.to_nat limit) [].

Fixpoint random_distinct_loop (draws : list cd_draw) (limit : Z) (result : gset bytes) : res (gset bytes) :=
  if Z.of_nat (size result) <? limit then
    match draws with
    | [] => OutOfFuel
    | (_, visited) :: draws =>
        let key := RandomKey visited in
        random_distinct_loop draws limit (if bytes_eqb key [] then result else {[key]} ∪ result)
    end
  else Ret result.

(** [keys_of] is the order in which the resulting map is traversed. *)
Definition RandomDistinctKeys (dict : ConcurrentDict) (ords : list (list (bytes * V))) (draws : list cd_draw)
    (keys_of : gset bytes → list bytes) (limit : Z) : res (list bytes) :=
  let size := count dict in
  if size <=? limit then Keys size ords
  else
    result ← random_distinct_loop draws limit ∅;
    if limit <? 0 then Panic else Ret (keys_of result).

Definition Clear (dict : ConcurrentDict) : ConcurrentDict := MakeConcurrent (shardCount dict).

(** The locks of several shards, as in [Lock.v]. *)
Definition toLockIndices (dict : ConcurrentDict) (keys : list bytes) (reverse : bool) : list Z :=
  Lock.toLockIndices (Z.of_nat (length (table dict))) keys reverse.
Definition RWLocks (dict : ConcurrentDict) (writeKeys readKeys : list bytes) : list act :=
  Lock.RWLocks (Z.of_nat (length (table dict))) writeKeys readKeys.
Definition RWUnLocks (dict : ConcurrentDict) (writeKeys readKeys : list bytes) : list act :=
  Lock.RWUnLocks (Z.of_nat (length (table dict))) writeKeys readKeys.

(** The shards from [shardIndex] on; [start] is the cursor of the call and
    [ord i] the order in which shard [i] is traversed. *)
Fixpoint scan_shards (matchKey : bytes → bool) (cnt : Z) (ord : nat → list bytes) (start : Z)
    (shards : list (gmap bytes V)) (shardIndex : nat) (result : list bytes) : list bytes * Z :=
  match shards with
  | [] => (result, 0)
  | s :: shards =>
      if (cnt <? Z.of_nat (length result + size s)) && (start <? Z.of_nat shardIndex) then (result, Z.of_nat shardIndex)
      else
        scan_shards matchKey cnt ord start shards (S shardIndex)
          (result ++ filter (λ k, matchKey k = true) (ord shardIndex))
  end.

Definition DictScan (compile : bytes → option (bytes → bool)) (dict : ConcurrentDict)
    (ords : list (list (bytes * V))) (ord : nat → list bytes) (cursor cnt : Z) (pattern : bytes) : res (list bytes * Z) :=
  let size := count dict in
  if bytes_eqb pattern (str "*") && (size <=? cnt) then (keys ← Keys size ords; Ret (keys, 0))
  else
    match compile pattern with
    | None => Ret ([], -1)
    | Some matchKey =>
        let matchKey k := bytes_eqb pattern (str "*") || matchKey k in
        if Z.of_nat (length (table dict)) <=? cursor then Ret ([], 0)
        else if cursor <? 0 then Panic
        else Ret (scan_shards matchKey cnt ord cursor (drop (Z.to_nat cursor) (table dict)) (Z.to_nat cursor) [])
    end.
End ConcurrentDict.
Arguments ConcurrentDict : clear implicits.

(** ** [computeCapacity] *)

Lemma computeCapacity_spec n :
  n <= 2 ^ 32 → ∃ k, 4 <= k <= 32 ∧ computeCapacity n = 2 ^ k ∧ n <= 2 ^ k ∧ (16 < n → 2 ^ (k - 1) < n).
Proof.
  intros Hn. unfold computeCapacity. destruct (Z.leb_spec n 16) as [H4|H4].
  { exists 4. split_and!; lia. }
  set (L := Z.log2 (n - 1)).
  assert (HL : 4 <= L) by (apply Z.log2_le_pow2; lia).
  assert (HL' : L < 32) by (apply Z.log2_lt_pow2; lia).
  destruct (Z.log2_spec (n - 1)) as [Ha Hb]; [lia|]. fold L in Ha, Hb.
  replace (Z.succ L) with (L + 1) in Hb by lia.
  assert (T1 : top (n - 1) L 1).
  { split; [lia| |].
    - intros i Hi Hc. apply Z.bits_above_log2; fold L; lia.
    - intros i Hi Hc. assert (i = L) as -> by lia. apply Z.bit_log2. lia. }
  apply (top_double _ _ 1) in T1 as T2; [|lia]. apply (top_double _ _ 2) in T2 as T4; [|lia].
  apply (top_double _ _ 4) in T4 as T8; [|lia]. apply (top_double _ _ 8) in T8 as T16; [|lia].
  apply (top_double _ _ 16) in T16 as T32; [|lia].
  apply top_ones in T32; [|lia]. cbv zeta. rewrite T32.
  assert (2 ^ (L + 1) <= 2 ^ 32) by (apply Z.pow_le_mono_r; lia).
  assert (0 < 2 ^ (L + 1)) by (apply Z.pow_pos_nonneg; lia).
  rewrite (proj2 (Z.ltb_ge _ _)) by lia.
  exists (L + 1). rewrite Z.sub_add, wrap64_id by (unfold i64, min_i64, max_i64; lia).
  replace (L + 1 - 1) with L by lia. split_and!; [lia|lia|done|lia|lia].
Qed.

(** ** The finite map of a table *)

Section laws.
Context {V : Type}.
Implicit Types (d : ConcurrentDict V) (k : bytes).

(** The shard of a key. *)
Definition idx d k : nat := Z.to_nat (slot (Z.of_nat (length (table d))) k).

(** Every key is in its shard, and [Clear] makes a table of the same size. *)
Record table_fits d : Prop := {
  tf_size : 0 < Z.of_nat (length (table d)) < 2 ^ 32;
  tf_place i s k : table d !! i = Some s → is_Some (s !! k) → idx d k = i;
  tf_clear : shardCount d <= 2 ^ 31 ∧ length (table (Clear d)) = length (table d)
}.

Definition entries d : list (bytes * V) := mjoin (map_to_list <$> table d).
Definition cmap d : gmap bytes V := list_to_map (entries d).

(** The counter is the number of entries, as an [int32]. *)
Definition cd_inv d : Prop := table_fits d ∧ count d = wrap32 (Z.of_nat (size (cmap d))).

Lemma spread_slot d k : table_fits d → spread d k = slot (Z.of_nat (length (table d))) k.
Proof.
  intros [Hn _ _]. unfold spread, slot, Lock.spread. case_bool_decide as E.
  - rewrite E. change (u32 (Z.of_nat 1 - 1)) with 0. by rewrite Z.land_0_l.
  - do 3 f_equal. unfold u32. apply Z.mod_small. lia.
Qed.

Lemma spread_idx d k : table_fits d → Z.to_nat (spread d k) = idx d k.
Proof. intros H. unfold idx. by rewrite spread_slot. Qed.

Lemma shard_of d k : table_fits d → ∃ s, table d !! idx d k = Some s ∧ getShard d (spread d k) = Ret s.
Proof.
  intros H. pose proof (tf_size _ H) as Hn. destruct (lookup_lt_is_Some_2 (table d) (idx d k)) as [s Hs].
  { unfold idx. pose proof (spread_in_table _ k Hn). lia. }
  exists s. split; [done|]. unfold getShard. rewrite spread_idx by done. by rewrite Hs.
Qed.

Lemma entries_distinct d : table_fits d → NoDup (entries d).*1.
Proof.
  intros H. unfold entries. apply (join_keys_nodup _ (idx d) 0). intros i b Hb. rewrite list_lookup_fmap in Hb.
  destruct (table d !! i) as [s|] eqn:Hs; [|done]. injection Hb as <-. split; [|apply NoDup_fst_map_to_list].
  apply Forall_forall. intros [k v] Hk%elem_of_map_to_list. by eapply (tf_place _ H).
Qed.

Lemma cmap_lookup d k : table_fits d → cmap d !! k = (table d !! idx d k) ≫= lookup k.
Proof.
  intros H. destruct (shard_of d k H) as (s & Hs & _). rewrite Hs. simpl. apply option_eq. intros v.
  unfold cmap. rewrite <- elem_of_list_to_map by (by apply entries_distinct). unfold entries. rewrite list_elem_of_join. split.
  - intros (b & Hin & (s' & -> & Hs')%list_elem_of_fmap). apply elem_of_map_to_list in Hin.
    apply list_elem_of_lookup in Hs' as [i Hi]. assert (idx d k = i) as <- by (eapply (tf_place _ H); eauto). congruence.
  - intros Hv. exists (map_to_list s). split; [by apply elem_of_map_to_list|]. apply list_elem_of_fmap.
    exists s. split; [done|]. by eapply list_elem_of_lookup_2.
Qed.

Lemma cmap_shard d k s : table_fits d → table d !! idx d k = Some s → cmap d !! k = s !! k.
Proof. intros H Hs. by rewrite cmap_lookup, Hs. Qed.

Lemma cmap_size d : table_fits d → size (cmap d) = length (entries d).
Proof. intros H. unfold cmap. rewrite <- length_map_to_list, map_to_list_to_map; [done|]. by apply entries_distinct. Qed.

(** Changing the entry of one key in its shard. *)
Lemma put_shard d k s s' c :
  table_fits d → table d !! idx d k = Some s → (∀ x, x ≠ k → s' !! x = s !! x) →
  let d' := MkCD (<[idx d k := s']> (table d)) c (shardCount d) in
  table_fits d' ∧ cmap d' = partial_alter (λ _, s' !! k) k (cmap d).
Proof.
  intros H Hs Hx d'. assert (Hidx : ∀ x, idx d' x = idx d x) by (intros x; unfold idx, d'; simpl; by rewrite length_insert).
  assert (H' : table_fits d').
  { split; [simpl; rewrite length_insert; apply H| |].
    - intros i t x Hi Hin. rewrite Hidx. unfold d' in Hi. simpl in Hi.
      apply list_lookup_insert_Some in Hi as [(<- & <- & _)|[Hne Hi]]; [|by eapply (tf_place _ H)].
      destruct (decide (x = k)) as [->|Hne]; [done|]. rewrite Hx in Hin by done. by eapply (tf_place _ H).
    - unfold d'. cbn [table]. rewrite length_insert. apply (tf_clear _ H). }
  split; [done|]. apply map_eq. intros x. rewrite cmap_lookup by done. rewrite Hidx. unfold d'. simpl.
  destruct (decide (x = k)) as [->|Hne].
  - rewrite lookup_partial_alter_eq, list_lookup_insert_eq; [done|]. by eapply lookup_lt_Some.
  - rewrite lookup_partial_alter_ne by done. rewrite cmap_lookup by done. destruct (decide (idx d x = idx d k)) as [E|E].
    + rewrite E, Hs, list_lookup_insert_eq by (by eapply lookup_lt_Some). simpl. by apply Hx.
    + by rewrite list_lookup_insert_ne.
Qed.

Lemma make_fits (n : Z) : n <= 2 ^ 31 → table_fits (@MakeConcurrent V n) ∧ cmap (@MakeConcurrent V n) = ∅ ∧ count (@MakeConcurrent V n) = 0.
Proof.
  intros Hn. assert (He : ∀ m c sc, cmap (MkCD (replicate m (∅ : gmap bytes V)) c sc) = ∅).
  { intros m c sc. unfold cmap, entries. simpl. rewrite fmap_replicate, map_to_list_empty.
    by replace (mjoin (replicate m [])) with (@nil (bytes * V)) by (by induction m). }
  unfold MakeConcurrent. destruct (Z.eqb_spec n 1) as [->|H1].
  { split; [|split; [apply (He 1%nat)|done]]. split; [simpl; lia| |simpl; split; [lia|done]]. intros i s k Hs Hk. simpl in Hs.
    destruct i; [|done]. injection Hs as <-. rewrite lookup_empty in Hk. by destruct Hk. }
  split; [|split; [apply He|done]]. destruct (computeCapacity_spec n) as (e & He1 & Hc & Hle & Hlt); [lia|].
  assert (Hb : 16 <= 2 ^ e <= 2 ^ 31).
  { split; [change 16 with (2 ^ 4); apply Z.pow_le_mono_r; lia|].
    apply Z.pow_le_mono_r; [lia|]. destruct (Z.le_gt_cases e 31) as [|Hg]; [done|].
    destruct (Z.le_gt_cases n 16); [|assert (2 ^ 31 <= 2 ^ (e - 1)) by (apply Z.pow_le_mono_r; lia); lia].
    exfalso. unfold computeCapacity in Hc. rewrite (proj2 (Z.leb_le _ _)) in Hc by lia.
    assert (2 ^ 31 <= 2 ^ e) by (apply Z.pow_le_mono_r; lia). lia. }
  rewrite Hc. split; simpl.
  - rewrite length_replicate. lia.
  - intros i s k [-> _]%lookup_replicate Hk. rewrite lookup_empty in Hk. by destruct Hk.
  - split; [lia|]. unfold Clear, MakeConcurrent. simpl. rewrite (proj2 (Z.eqb_neq _ _)) by lia. simpl. rewrite !length_replicate. f_equal.
    destruct (computeCapacity_spec (2 ^ e)) as (e' & He2 & Hc' & Hle' & Hlt'); [lia|]. rewrite Hc'.
    destruct (Z.eq_dec (2 ^ e) 16) as [E16|N16]; [rewrite E16 in Hc'; rewrite E16, <- Hc'; done|].
    f_equal. assert (e <= e') by (apply (Z.pow_le_mono_r_iff 2); lia).
    assert (e' - 1 < e) by (apply (Z.pow_lt_mono_r_iff 2); lia). lia.
Qed.

(** ** The operations *)

(** The map after an operation, and the counter. *)
Lemma put_inv d k s s' (n : Z) :
  cd_inv d → table d !! idx d k = Some s → (∀ x, x ≠ k → s' !! x = s !! x) →
  Z.of_nat (size (partial_alter (λ _, s' !! k) k (cmap d))) = Z.of_nat (size (cmap d)) + n →
  let d' := MkCD (<[idx d k := s']> (table d)) (if n =? 0 then count d else wrap32 (count d + n)) (shardCount d) in
  cd_inv d' ∧ cmap d' = partial_alter (λ _, s' !! k) k (cmap d).
Proof.
  intros [H Hc] Hs Hx Hn d'. destruct (put_shard d k s s' (count d') H Hs Hx) as [H' E]. change (table_fits d') in H'. change (cmap d' = partial_alter (λ _, s' !! k) k (cmap d)) in E.
  split; [|done]. split; [done|]. rewrite E, Hn. unfold d'. simpl. rewrite Hc. destruct (Z.eqb_spec n 0) as [->|_].
  - f_equal. lia.
  - by rewrite wrap32_add.
Qed.

Lemma cd_insert_spec d k v s :
  cd_inv d → table d !! idx d k = Some s →
  let d' := set_shard (if bool_decide (s !! k = None) then addCount d else d) (spread d k) (<[k := v]> s) in
  cd_inv d' ∧ cmap d' = <[k := v]> (cmap d).
Proof.
  intros Hd Hs d'. pose proof (proj1 Hd) as H. pose proof (cmap_shard d k s H Hs) as Hk.
  assert (Ev : partial_alter (λ _, <[k := v]> s !! k) k (cmap d) = <[k := v]> (cmap d)).
  { rewrite lookup_insert_eq. done. }
  destruct (put_inv d k s (<[k := v]> s) (if bool_decide (s !! k = None) then 1 else 0) Hd Hs) as [Hi Em].
  - intros x Hx. by rewrite lookup_insert_ne.
  - rewrite Ev, map_size_insert, Hk. destruct (s !! k); simpl; lia.
  - rewrite Ev in Em. unfold d', set_shard, addCount. rewrite spread_idx by done. case_bool_decide; by simpl in *.
Qed.

Lemma cd_delete_spec d k v s :
  cd_inv d → table d !! idx d k = Some s → s !! k = Some v →
  let d' := decreaseCount (set_shard d (spread d k) (delete k s)) in cd_inv d' ∧ cmap d' = delete k (cmap d).
Proof.
  intros Hd Hs Hv d'. pose proof (proj1 Hd) as H. pose proof (cmap_shard d k s H Hs) as Hk. rewrite Hv in Hk.
  assert (Ev : partial_alter (λ _, delete k s !! k) k (cmap d) = delete k (cmap d)) by (by rewrite lookup_delete_eq).
  destruct (put_inv d k s (delete k s) (-1) Hd Hs) as [Hi Em].
  - intros x Hx. by rewrite lookup_delete_ne.
  - rewrite Ev, map_size_delete, Hk. simpl.
    assert (size (cmap d) ≠ 0%nat) by (apply map_size_non_empty_iff; intros E; by rewrite E, lookup_empty in Hk). lia.
  - rewrite Ev in Em. unfold d', set_shard, decreaseCount. rewrite spread_idx by done. by simpl in *.
Qed.

#[global] Instance concurrent_ops (n : Z) : DictOps (ConcurrentDict V) V := {
  d_make := MakeConcurrent n;
  d_Get := Get; d_Len := Len; d_Put := Put; d_PutIfAbsent := PutIfAbsent;
  d_PutIfExists := PutIfExists; d_Remove := Remove; d_Clear := Clear;
  d_order := λ d ord, ∃ ords, Forall2 (λ s o, o ≡ₚ map_to_list s) (table d) ords ∧ ord = mjoin ords
}.

Lemma clear_inv d : cd_inv d → cd_inv (Clear d) ∧ cmap (Clear d) = ∅.
Proof.
  intros [H _]. destruct (make_fits (shardCount d)) as (Hf & He & Hz); [apply (tf_clear _ H)|].
  split; [|done]. split; [done|]. unfold Clear. by rewrite He, Hz, map_size_empty.
Qed.

Lemma make_inv (n : Z) : n <= 2 ^ 31 → cd_inv (@MakeConcurrent V n) ∧ cmap (@MakeConcurrent V n) = ∅.
Proof. intros Hn. destruct (make_fits n Hn) as (Hf & He & Hz). split; [|done]. split; [done|]. by rewrite He, Hz, map_size_empty. Qed.

Lemma add_set d (i : Z) (s : gmap bytes V) : addCount (set_shard d i s) = set_shard (addCount d) i s.
Proof. done. Qed.

(** One operation does to the table what it does to a Go map. *)
Lemma concurrent_step (n : Z) d (m : SimpleDict.t V) (c : dict_cmd V) :
  cd_inv d → cmap d = SimpleDict.m m → Z.of_nat (size (cmap d)) < 2 ^ 31 →
  ∃ d' m' o, @dict_step _ _ (concurrent_ops n) d c = Ret (d', o) ∧ dict_step m c = Ret (m', o) ∧
    cd_inv d' ∧ cmap d' = SimpleDict.m m' ∧ (size (cmap d') <= S (size (cmap d)))%nat.
Proof.
  intros Hd Em Hsz. pose proof (proj1 Hd) as H. destruct m as [m]. simpl in Em.
  assert (Hins : ∀ k v, (size (<[k := v]> (cmap d)) <= S (size (cmap d)))%nat).
  { intros k v. rewrite map_size_insert. destruct (cmap d !! k); simpl; lia. }
  assert (Hfind : ∀ k, ∃ s, table d !! idx d k = Some s ∧ getShard d (spread d k) = Ret s ∧ s !! k = m !! k).
  { intros k. destruct (shard_of d k H) as (s & Hs & Hg). exists s. by rewrite <- (cmap_shard d k s H Hs), Em. }
  destruct c as [k| |k v|k v|k v|k|]; cbn [dict_step d_Get d_Len d_Put d_PutIfAbsent d_PutIfExists d_Remove d_Clear concurrent_ops simple_ops].
  - destruct (Hfind k) as (s & Hs & Hg & Hk). unfold Get, GetWithLock, SimpleDict.Get. rewrite Hg. simpl. rewrite Hk.
    eexists _, _, _. by split_and!; try done; [lia].
  - unfold Len, SimpleDict.Len. simpl. rewrite (proj2 Hd), Em, wrap32_id by (rewrite <- Em; lia).
    eexists _, _, _. by split_and!; try done; [rewrite <- Em; lia].
  - destruct (Hfind k) as (s & Hs & Hg & Hk). destruct (cd_insert_spec d k v s Hd Hs) as [Hi Ei].
    unfold Put, PutWithLock, SimpleDict.Put. rewrite Hg. simpl. rewrite <- Hk.
    destruct (s !! k); simpl in *; (eexists _, _, _; split_and!; [done|done|done|simpl; by rewrite Ei, Em|by rewrite Ei]).
  - destruct (Hfind k) as (s & Hs & Hg & Hk). destruct (cd_insert_spec d k v s Hd Hs) as [Hi Ei].
    unfold PutIfAbsent, PutIfAbsentWithLock, SimpleDict.PutIfAbsent. rewrite Hg. simpl. rewrite <- Hk, add_set.
    destruct (s !! k); simpl in *; (eexists _, _, _; split_and!; [done|done|done| |]); [done|lia|simpl; by rewrite Ei, Em|by rewrite Ei].
  - destruct (Hfind k) as (s & Hs & Hg & Hk). destruct (cd_insert_spec d k v s Hd Hs) as [Hi Ei].
    unfold PutIfExists, PutIfExistsWithLock, SimpleDict.PutIfExists. rewrite Hg. simpl. rewrite <- Hk.
    destruct (s !! k); simpl in *; (eexists _, _, _; split_and!; [done|done|done| |]); [simpl; by rewrite Ei, Em|by rewrite Ei|done|lia].
  - destruct (Hfind k) as (s & Hs & Hg & Hk). unfold Remove, RemoveWithLock, SimpleDict.Remove. rewrite Hg. simpl. rewrite <- Hk.
    destruct (s !! k) as [v|] eqn:Ek; simpl.
    + destruct (cd_delete_spec d k v s Hd Hs Ek) as [Hi Ei]. eexists _, _, _. split_and!; [done|done|done|simpl; by rewrite Ei, Em|].
      rewrite Ei, map_size_delete. destruct (cmap d !! k); simpl; lia.
    + eexists _, _, _. split_and!; [done|done|done| |lia]. simpl. by rewrite delete_id.
  - destruct (clear_inv d Hd) as [Hi Ei]. eexists _, _, _. split_and!; [done|done|done|done|]. rewrite Ei, map_size_empty. lia.
Qed.

Lemma concurrent_run (n : Z) (cs : list (dict_cmd V)) d (m : SimpleDict.t V) :
  cd_inv d → cmap d = SimpleDict.m m → Z.of_nat (size (cmap d) + length cs) <= 2 ^ 31 →
  ∃ d' m' os, @dict_run _ _ (concurrent_ops n) d cs = Ret (d', os) ∧ dict_run m cs = Ret (m', os) ∧
    cd_inv d' ∧ cmap d' = SimpleDict.m m'.
Proof.
  revert d m. induction cs as [|c cs IH]; intros d m Hd Em Hsz; [by eexists _, _, _|]. simpl in Hsz.
  destruct (concurrent_step n d m c Hd Em) as (d1 & m1 & o & E1 & E2 & Hd1 & Em1 & Hs1); [lia|].
  destruct (IH d1 m1 Hd1 Em1) as (d2 & m2 & os & E3 & E4 & Hd2 & Em2); [lia|].
  exists d2, m2, (o :: os). simpl. rewrite E1, E2. simpl. rewrite E3, E4. done.
Qed.
End laws.

(** Any sequence of operations on a sharded dict gives the results of the same
    sequence on one Go map, and leaves the same entries, whatever the number of
    shards. *)
Theorem concurrent_dict_refines_simple {V} (n : Z) (cs : list (dict_cmd V)) :
  n <= 2 ^ 31 → Z.of_nat (length cs) <= 2 ^ 31 →
  ∃ d m os, @dict_run _ _ (concurrent_ops n) (MakeConcurrent n) cs = Ret (d, os) ∧
    dict_run (MakeSimple (V := V)) cs = Ret (m, os) ∧ cmap d = SimpleDict.m m.
Proof.
  intros Hn Hc. destruct (make_inv (V := V) n Hn) as [Hi He].
  destruct (concurrent_run n cs _ MakeSimple Hi) as (d & m & os & E1 & E2 & _ & Em); [by rewrite He|rewrite He, map_size_empty; lia|].
  by exists d, m, os.
Qed.

Definition concurrent_session : list (dict_cmd Z) :=
  [CPut (str "a") 1; CPut (str "b") 2; CPutIfAbsent (str "a") 3; CLen; CRemove (str "a"); CGet (str "b"); CLen; CClear; CLen].

Lemma concurrent_dict_refines_simple_witness :
  ∃ d m os, @dict_run _ _ (concurrent_ops 4) (MakeConcurrent 4) concurrent_session = Ret (d, os) ∧
    dict_run (MakeSimple (V := Z)) concurrent_session = Ret (m, os) ∧ cmap d = SimpleDict.m m.
Proof. apply (concurrent_dict_refines_simple 4 concurrent_session); [lia|]. simpl. lia. Defined.

(** ** Traversals *)

Section traversals.
Context {V : Type}.
Implicit Types (d : ConcurrentDict V) (k : bytes).

(** Enough room: the keys in the order of the traversal, then empty strings. *)
Lemma keys_loop_room visited pre n :
  (length visited <= n)%nat →
  keys_loop (pre ++ replicate n []) (length pre) visited = pre ++ visited ++ replicate (n - length visited) [].
Proof.
  revert pre n. induction visited as [|k visited IH]; intros pre n Hn; simpl in *; [by rewrite Nat.sub_0_r|].
  destruct n as [|n]; [lia|]. rewrite bool_decide_true by (rewrite length_app, length_replicate; lia).
  rewrite insert_app_r_alt, Nat.sub_diag by lia. simpl.
  replace (pre ++ k :: replicate n []) with ((pre ++ [k]) ++ replicate n []) by (by rewrite <- app_assoc).
  replace (S (length pre)) with (length (pre ++ [k])) by (rewrite length_app; simpl; lia).
  rewrite IH by lia. by rewrite <- app_assoc.
Qed.

Lemma cd_Keys_spec ords :
  Keys (V := V) (Z.of_nat (length (mjoin ords))) ords = Ret (mjoin ords).*1.
Proof.
  unfold Keys, ForEach. rewrite (proj2 (Z.ltb_ge _ _)) by lia. rewrite d_ForEach_collect, Nat2Z.id. simpl. f_equal.
  pose proof (keys_loop_room (mjoin ords).*1 [] (length (mjoin ords))) as E. simpl in E. rewrite E by (by rewrite length_fmap).
  rewrite length_fmap, Nat.sub_diag. apply app_nil_r.
Qed.

(** The orders in which the shards may be traversed. *)
Definition shard_orders d (ords : list (list (bytes * V))) : Prop := Forall2 (λ s o, o ≡ₚ map_to_list s) (table d) ords.

Lemma shard_orders_entries d ords : shard_orders d ords → mjoin ords ≡ₚ entries d.
Proof. unfold shard_orders, entries. induction 1 as [|s o tb ords Ho _ IH]; simpl; [done|]. by rewrite Ho, IH. Qed.

Lemma Keys_entries d ords :
  cd_inv d → Z.of_nat (size (cmap d)) < 2 ^ 31 → shard_orders d ords →
  ∃ ks, Keys (count d) ords = Ret ks ∧ ks ≡ₚ (entries d).*1.
Proof.
  intros [H Hc] Hs Ho. pose proof (shard_orders_entries d ords Ho) as Hp. exists (mjoin ords).*1. split; [|by rewrite Hp].
  rewrite Hc, wrap32_id by lia. rewrite cmap_size, <- Hp by done. apply cd_Keys_spec.
Qed.

(** The keys of the shards, in the orders of one call. *)
Definition scan_order d (ord : nat → list bytes) : Prop := ∀ i s, table d !! i = Some s → ord i ≡ₚ (map_to_list s).*1.

Definition matched (matchKey : bytes → bool) (shards : list (gmap bytes V)) : list bytes :=
  filter (λ k, matchKey k = true) (mjoin (map_to_list <$> shards)).*1.

Lemma matched_app f a b : matched f (a ++ b) = matched f a ++ matched f b.
Proof. unfold matched. by rewrite fmap_app, join_app, fmap_app, filter_app. Qed.

(** One call returns the keys of some shards, the first one among them, and the
    number of the shard after them, or zero after the last. *)
Lemma scan_shards_spec f cnt ord start shards i result :
  (∀ j s, shards !! j = Some s → ord (i + j)%nat ≡ₚ (map_to_list s).*1) → start <= Z.of_nat i →
  ∃ don rest ks c, shards = don ++ rest ∧ scan_shards f cnt ord start shards i result = (result ++ ks, c) ∧
    ks ≡ₚ matched f don ∧ (rest = [] ∧ c = 0 ∨ rest ≠ [] ∧ c = Z.of_nat (i + length don) ∧ start < c).
Proof.
  revert i result. induction shards as [|s shards IH]; intros i result Ho Hst; cbn [scan_shards].
  { exists [], [], [], 0. rewrite (app_nil_r result). split_and!; [done|done|constructor|by left]. }
  destruct ((cnt <? _) && (start <? Z.of_nat i)) eqn:E.
  { apply andb_true_iff in E as [_ E%Z.ltb_lt]. exists [], (s :: shards), [], (Z.of_nat i).
    rewrite (app_nil_r result), Nat.add_0_r. split_and!; [done|done|constructor|by right]. }
  destruct (IH (S i) (result ++ filter (λ k, f k = true) (ord i))) as (don & rest & ks & c & -> & -> & Hks & Hc).
  { intros j t Hj. replace (S i + j)%nat with (i + S j)%nat by lia. by apply Ho. }
  { lia. }
  exists (s :: don), rest, (filter (λ k, f k = true) (ord i) ++ ks), c. split_and!; [done|by rewrite app_assoc| |].
  - change (s :: don) with ([s] ++ don). rewrite matched_app, Hks. f_equiv. unfold matched. simpl. rewrite app_nil_r.
    specialize (Ho 0%nat s eq_refl). rewrite Nat.add_0_r in Ho. by rewrite Ho.
  - destruct Hc as [?|(? & -> & ?)]; [by left|right]. simpl. split_and!; [done|lia|lia].
Qed.

(** A client that scans: it calls until the cursor is zero.  The call that
    starts at a cursor has its own orders. *)
Fixpoint full_scan (fuel : nat) compile d (ords : Z → list (list (bytes * V))) (ord : Z → nat → list bytes)
    (cursor cnt : Z) (pattern : bytes) : res (list bytes) :=
  match fuel with
  | O => OutOfFuel
  | S fuel =>
      '(ks, c) ← DictScan compile d (ords cursor) (ord cursor) cursor cnt pattern;
      if c =? 0 then Ret ks
      else rest ← full_scan fuel compile d ords ord c cnt pattern; Ret (ks ++ rest)
  end.

Lemma full_scan_shards compile f d ords ord cnt pattern fuel (cur : nat) :
  (bytes_eqb pattern (str "*") && (count d <=? cnt)) = false → compile pattern = Some f →
  (∀ c, scan_order d (ord c)) → (cur < length (table d))%nat → (length (table d) - cur < fuel)%nat →
  ∃ ks, full_scan fuel compile d ords ord (Z.of_nat cur) cnt pattern = Ret ks ∧
    ks ≡ₚ matched (λ k, bytes_eqb pattern (str "*") || f k) (drop cur (table d)).
Proof.
  intros Hall Hf Ho. revert cur. induction fuel as [|fuel IH]; intros cur Hcur Hfuel; [lia|].
  cbn [full_scan]. unfold DictScan at 1. rewrite Hall, Hf. cbv zeta beta.
  rewrite (proj2 (Z.leb_gt _ _)), (proj2 (Z.ltb_ge _ _)), Nat2Z.id by lia.
  destruct (scan_shards_spec (λ k, bytes_eqb pattern (str "*") || f k) cnt (ord (Z.of_nat cur)) (Z.of_nat cur) (drop cur (table d)) cur [])
    as (don & rest & ks & c & Hd & -> & Hks & Hc); [|done|].
  { intros j s Hj. rewrite lookup_drop in Hj. by eapply Ho. }
  cbn [mbind res_bind]. destruct Hc as [[-> ->]|(Hr & -> & Hlt)].
  - simpl. eexists. split; [done|]. by rewrite Hd, app_nil_r.
  - assert (Hl : length (drop cur (table d)) = (length don + length rest)%nat) by (by rewrite Hd, length_app).
    rewrite length_drop in Hl. assert (length rest ≠ 0%nat) by (by destruct rest).
    rewrite (proj2 (Z.eqb_neq _ _)) by lia. destruct (IH (cur + length don)%nat) as (ks' & -> & Hks'); [lia|lia|].
    eexists. split; [done|]. rewrite Hd, matched_app. simpl. rewrite Hks, Hks'.
    assert (Hdr : drop (cur + length don) (table d) = rest) by (by rewrite <- drop_drop, Hd, drop_app_length).
    by rewrite Hdr.
Qed.

(** A full scan of a dict that is not modified returns every matching key exactly
    once and ends, for any count and whatever the orders of the traversals. *)
Theorem concurrent_scan_complete compile f d ords ord cnt pattern :
  cd_inv d → Z.of_nat (size (cmap d)) < 2 ^ 31 → (∀ c, shard_orders d (ords c)) → (∀ c, scan_order d (ord c)) →
  compile pattern = Some f →
  ∃ ks, full_scan (S (S (length (table d)))) compile d ords ord 0 cnt pattern = Ret ks ∧ NoDup ks ∧
    ∀ k, k ∈ ks ↔ is_Some (cmap d !! k) ∧ (bytes_eqb pattern (str "*") || f k) = true.
Proof.
  intros Hd Hs Hords Hord Hf. pose proof (proj1 Hd) as H. pose proof (entries_distinct d H) as Hnd.
  assert (Hin : ∀ k, k ∈ (entries d).*1 ↔ is_Some (cmap d !! k)).
  { intros k. unfold cmap. rewrite <- not_eq_None_Some, <- not_elem_of_list_to_map. split; [naive_solver|].
    intros Hn. destruct (decide (k ∈ (entries d).*1)); [done|naive_solver]. }
  destruct (bytes_eqb pattern (str "*") && (count d <=? cnt)) eqn:Hall.
  - destruct (Keys_entries d (ords 0) Hd Hs (Hords 0)) as (ks & Hk & Hp). exists ks. split.
    { cbn [full_scan]. unfold DictScan. rewrite Hall. cbv zeta. rewrite Hk. done. }
    split; [by rewrite Hp|]. intros k. apply andb_true_iff in Hall as [-> _]. rewrite Hp, Hin. simpl. naive_solver.
  - destruct (full_scan_shards compile f d ords ord cnt pattern (S (S (length (table d)))) 0) as (ks & Hk & Hp); [done..| |lia|].
    { pose proof (tf_size _ H). lia. }
    exists ks. split; [done|]. rewrite drop_0 in Hp. unfold matched in Hp. fold (entries d) in Hp. split.
    + rewrite Hp. by apply NoDup_filter.
    + intros k. rewrite Hp, list_elem_of_filter, Hin. naive_solver.
Qed.

(** ** Random keys *)

(** What a draw may be: a shard and its keys in some order. *)
Definition legal_draw d (dr : cd_draw) : Prop := ∃ s, table d !! Z.to_nat (fst dr) = Some s ∧ snd dr ≡ₚ (map_to_list s).*1.

Definition drawn (draws : list cd_draw) : gset bytes := list_to_set (RandomKey ∘ snd <$> draws) ∖ {[ [] ]}.

Lemma legal_draw_key d dr : cd_inv d → legal_draw d dr → RandomKey (snd dr) ≠ [] → is_Some (cmap d !! RandomKey (snd dr)).
Proof.
  intros [H _] (s & Hs & Hp) Hne. destruct dr as [i [|k vis]]; simpl in *; [done|].
  assert (Hk : k ∈ (map_to_list s).*1) by (rewrite <- Hp; by left).
  apply list_elem_of_fmap in Hk as ([k' v] & -> & Hk%elem_of_map_to_list). simpl.
  exists v. assert (Hi : idx d k' = Z.to_nat i) by (eapply (tf_place _ H); eauto). unfold RandomKey. simpl.
  by rewrite cmap_lookup, Hi, Hs.
Qed.

Lemma random_distinct_loop_spec d draws limit result :
  cd_inv d → Forall (legal_draw d) draws → limit <= Z.of_nat (size (result ∪ drawn draws)) → Z.of_nat (size result) <= limit →
  (∀ k, k ∈ result → is_Some (cmap d !! k)) →
  ∃ r, random_distinct_loop draws limit result = Ret r ∧ Z.of_nat (size r) = limit ∧ ∀ k, k ∈ r → is_Some (cmap d !! k).
Proof.
  intros Hd. revert result. induction draws as [|[i vis] draws IH]; intros result Hl Hn Hr Hin; cbn [random_distinct_loop].
  - assert (Hu : result ∪ drawn [] = result) by (unfold drawn; simpl; set_solver). rewrite Hu in Hn.
    rewrite (proj2 (Z.ltb_ge _ _)) by lia. exists result. split_and!; [done|lia|done].
  - apply Forall_cons in Hl as [Hl Hls]. pose proof (legal_draw_key d _ Hd Hl) as Hk. simpl in Hk.
    destruct (Z.ltb_spec (Z.of_nat (size result)) limit) as [Hlt|Hge]; [|exists result; split_and!; [done|lia|done]].
    apply IH; [done| | |].
    + assert (Hu : (if bytes_eqb (RandomKey vis) [] then result else {[RandomKey vis]} ∪ result) ∪ drawn draws = result ∪ drawn ((i, vis) :: draws)).
      { unfold drawn. cbn. destruct (bytes_eqb (RandomKey vis) []) eqn:E.
        - apply bytes_eqb_eq in E. rewrite E. set_solver.
        - apply bytes_eqb_ne in E. set_solver. }
      by rewrite Hu.
    + destruct (bytes_eqb _ _); [lia|]. pose proof (size_union_alt (C := gset bytes) {[RandomKey vis]} result) as Hs.
      rewrite size_union_alt, size_singleton. assert (size (result ∖ {[RandomKey vis]}) <= size result)%nat by (apply subseteq_size; set_solver). lia.
    + destruct (bytes_eqb _ _) eqn:E; [done|]. apply bytes_eqb_ne in E. set_solver.
Qed.

(** [RandomDistinctKeys] returns as many distinct keys of the dict as were asked
    for, or all when there are not more, as soon as the draws show that many. *)
Theorem random_distinct_keys_spec d ords draws keys_of limit :
  cd_inv d → Z.of_nat (size (cmap d)) < 2 ^ 31 → shard_orders d ords → Forall (legal_draw d) draws →
  (∀ r, keys_of r ≡ₚ elements r) → 0 <= limit → limit <= Z.of_nat (size (drawn draws)) ∨ Z.of_nat (size (cmap d)) <= limit →
  ∃ ks, RandomDistinctKeys d ords draws keys_of limit = Ret ks ∧ NoDup ks ∧
    Z.of_nat (length ks) = Z.min limit (Z.of_nat (size (cmap d))) ∧ ∀ k, k ∈ ks → is_Some (cmap d !! k).
Proof.
  intros Hd Hs Hords Hdr Hko H0 Hlim. pose proof (proj1 Hd) as H. unfold RandomDistinctKeys. cbv zeta.
  assert (Hc : count d = Z.of_nat (size (cmap d))) by (rewrite (proj2 Hd); apply wrap32_id; lia).
  destruct (Z.leb_spec (count d) limit) as [Hle|Hgt].
  - destruct (Keys_entries d ords Hd Hs Hords) as (ks & Hk & Hp). exists ks. pose proof (entries_distinct d H) as Hnd.
    split_and!; [done|by rewrite Hp| |].
    + rewrite Hp, length_fmap, cmap_size in * by done. lia.
    + intros k. rewrite Hp. intros ([k' v] & -> & Hk')%list_elem_of_fmap. exists v. by apply elem_of_list_to_map.
  - destruct Hlim as [Hlim|Hlim]; [|lia].
    destruct (random_distinct_loop_spec d draws limit ∅ Hd Hdr) as (r & -> & Hr & Hin); [by rewrite union_empty_l_L|rewrite size_empty; lia|set_solver|].
    cbn [mbind res_bind]. rewrite (proj2 (Z.ltb_ge _ _)) by lia. exists (keys_of r). split_and!; [done| | |].
    + rewrite Hko. apply NoDup_elements.
    + rewrite Hko. change (length (elements r)) with (size r). lia.
    + intros k. rewrite Hko, elem_of_elements. apply Hin.
Qed.
End traversals.

(** The counter that [Keys] reads first may not fit the traversal: a key removed
    in between leaves an empty string, and of keys added in between every second
    one is overwritten by the next, which may be one that was there all the
    time. *)
Lemma keys_lose_present_key :
  Keys 2 [[(str "a", 1)]] = Ret [str "a"; []] ∧
  Keys 1 [[(str "x", 1); (str "a", 1); (str "y", 1)]] = Ret [str "x"; str "y"].
Proof. split; reflexivity. Qed.

(** The counter is an [int32]: one entry more than it can count makes the length
    negative, and [Keys] panics. *)
Lemma count_overflows {V} (tb : list (gmap bytes V)) (n : Z) (ords : list (list (bytes * V))) :
  let d := addCount (MkCD tb (2 ^ 31 - 1) n) in Len d = Ret (- 2 ^ 31) ∧ Keys (count d) ords = Panic.
Proof. split; reflexivity. Qed.

(** A negative cursor is used as an index. *)
Lemma concurrent_scan_negative_cursor :
  DictScan (V := Z) (λ _, Some (λ _, true)) (MakeConcurrent 16) [] (λ _, []) (-1) 10 (str "a*") = Panic.
Proof. reflexivity. Qed.

(** * Commands that lock their keys are serializable *)

(** ** What a command does under its locks *)

(** A sequence of calls of a dict, each depending on the answers before. *)
Inductive body (V R : Type) :=
| Return (r : R)
| Call (c : dict_cmd V) (next : option V * Z → body V R).
Arguments Return {V R} r.
Arguments Call {V R} c next.

(** A command: the keys it locks for writing and for reading, and its calls. *)
Record command (V R : Type) := MkCommand { writeKeys : list bytes; readKeys : list bytes; calls : body V R }.
Arguments MkCommand {V R} _ _ _.
Arguments writeKeys {V R} _.
Arguments readKeys {V R} _.
Arguments calls {V R} _.

(** One access to a shard or to the counter after another. *)
Inductive code (V R : Type) :=
| Done (r : R)
| Read (key : bytes) (next : option V → code V R)
| Write (key : bytes) (val : V) (next : code V R)
| Delete (key : bytes) (next : code V R)
| Count (n : Z) (next : code V R).
Arguments Done {V R} r.
Arguments Read {V R} key next.
Arguments Write {V R} key val next.
Arguments Delete {V R} key next.
Arguments Count {V R} n next.

Section code.
Context {V R : Type}.
Implicit Types (next : option V * Z → code V R).

Definition code_GetWithLock (key : bytes) next : code V R := Read key (λ o, next (o, 0)).
Definition code_PutWithLock (key : bytes) (val : V) next : code V R :=
  Read key (λ o, match o with
                 | Some _ => Write key val (next (None, 0))
                 | None => Count 1 (Write key val (next (None, 1)))
                 end).
Definition code_PutIfAbsentWithLock (key : bytes) (val : V) next : code V R :=
  Read key (λ o, match o with
                 | Some _ => next (None, 0)
                 | None => Write key val (Count 1 (next (None, 1)))
                 end).
Definition code_PutIfExistsWithLock (key : bytes) (val : V) next : code V R :=
  Read key (λ o, match o with
                 | Some _ => Write key val (next (None, 1))
                 | None => next (None, 0)
                 end).
Definition code_RemoveWithLock (key : bytes) next : code V R :=
  Read key (λ o, match o with
                 | Some val => Delete key (Count (-1) (next (Some val, 1)))
                 | None => next (None, 0)
                 end).

(** [Len] and [Clear] work on the whole dict and are not called under the locks
    of keys. *)
Fixpoint code_of (b : body V R) : code V R :=
  match b with
  | Return r => Done r
  | Call c next =>
      let next a := code_of (next a) in
      match c with
      | CGet k => code_GetWithLock k next
      | CPut k v => code_PutWithLock k v next
      | CPutIfAbsent k v => code_PutIfAbsentWithLock k v next
      | CPutIfExists k v => code_PutIfExistsWithLock k v next
      | CRemove k => code_RemoveWithLock k next
      | CLen | CClear => next (None, 0)
      end
  end.

(** The calls of a command keep to its keys. *)
Definition allowed (ws rs : list bytes) (c : dict_cmd V) : Prop :=
  match c with
  | CGet k => k ∈ ws ++ rs
  | CPut k _ | CPutIfAbsent k _ | CPutIfExists k _ | CRemove k => k ∈ ws
  | CLen | CClear => False
  end.
Fixpoint within (ws rs : list bytes) (b : body V R) : Prop :=
  match b with
  | Return _ => True
  | Call c next => allowed ws rs c ∧ ∀ a, within ws rs (next a)
  end.
Definition keeps_to_keys (j : command V R) : Prop := within (writeKeys j) (readKeys j) (calls j).

(** ** Goroutines *)

(** The locks, the code of the commands that are left, the first of them perhaps
    begun, and the results of those that have ended. *)
Record goroutine := MkGo { locks : thread; codes : list (code V R); results : list R }.

Definition run_shard (d : ConcurrentDict V) (key : bytes) (f : gmap bytes V → gmap bytes V) : option (ConcurrentDict V) :=
  match getShard d (spread d key) with Ret s => Some (set_shard d (spread d key) (f s)) | _ => None end.

Definition access (d : ConcurrentDict V) (p : code V R) : option (code V R * ConcurrentDict V) :=
  match p with
  | Done _ => None
  | Read k next => match getShard d (spread d k) with Ret s => Some (next (s !! k), d) | _ => None end
  | Write k v p => (λ d, (p, d)) <$> run_shard d k <[k := v]>
  | Delete k p => (λ d, (p, d)) <$> run_shard d k (delete k)
  | Count n p => Some (p, MkCD (table d) (wrap32 (count d + n)) (shardCount d))
  end.

(** A goroutine locks or unlocks, accesses the dict or ends its command. *)
Inductive go_step (strict : bool) : list goroutine * ConcurrentDict V → list goroutine * ConcurrentDict V → Prop :=
| go_sync gs d k g t :
    gs !! k = Some g → (∀ td, todo (locks g) ≠ Body :: td) →
    Lock.step strict (locks <$> gs) (<[k := t]> (locks <$> gs)) →
    go_step strict (gs, d) (<[k := MkGo t (codes g) (results g)]> gs, d)
| go_access gs d k g td p ps p' d' :
    gs !! k = Some g → todo (locks g) = Body :: td → codes g = p :: ps → access d p = Some (p', d') →
    go_step strict (gs, d) (<[k := MkGo (locks g) (p' :: ps) (results g)]> gs, d')
| go_end gs d k g td r ps :
    gs !! k = Some g → todo (locks g) = Body :: td → codes g = Done r :: ps →
    go_step strict (gs, d) (<[k := MkGo (MkThread td (held (locks g)) false) ps (results g ++ [r])]> gs, d).

Definition keys_of (j : command V R) : job := (writeKeys j, readKeys j).

Definition go_start (n : Z) (jobs : list (list (command V R))) : list goroutine * ConcurrentDict V :=
  ((λ js, MkGo (MkThread ((keys_of <$> js) ≫= run_job (Z.of_nat (length (table (@MakeConcurrent V n))))) [] false)
               ((λ j, code_of (calls j)) <$> js) []) <$> jobs, MakeConcurrent n).

(** ** One command after another *)

Fixpoint run_body (b : body V R) (m : SimpleDict.t V) : res (SimpleDict.t V * R) :=
  match b with
  | Return r => Ret (m, r)
  | Call c next => '(m, a) ← dict_step m c; run_body (next a) m
  end.

(** [order] names the goroutines whose next commands are executed. *)
Fixpoint serial (m : SimpleDict.t V) (jobs : list (list (command V R))) (outs : list (list R)) (order : list nat)
    : res (SimpleDict.t V * list (list (command V R)) * list (list R)) :=
  match order with
  | [] => Ret (m, jobs, outs)
  | k :: order =>
      match jobs !! k with
      | Some (j :: js) =>
          '(m, r) ← run_body (calls j) m;
          serial m (<[k := js]> jobs) (alter (.++ [r]) k outs) order
      | _ => Panic
      end
  end.

Lemma serial_app m jobs outs o1 o2 :
  serial m jobs outs (o1 ++ o2) = '(m, jobs, outs) ← serial m jobs outs o1; serial m jobs outs o2.
Proof.
  revert m jobs outs. induction o1 as [|k o1 IH]; intros m jobs outs; [done|]. simpl.
  destruct (jobs !! k) as [[|j js]|]; [done| |done]. destruct (run_body _ _) as [[m' r]| |]; [|done..]. simpl. apply IH.
Qed.

(** ** The code of a command on a finite map *)

(** The map, the result and what is added to the counter. *)
Fixpoint run (p : code V R) (m : gmap bytes V) : gmap bytes V * R * Z :=
  match p with
  | Done r => (m, r, 0)
  | Read k next => run (next (m !! k)) m
  | Write k v p => run p (<[k := v]> m)
  | Delete k p => run p (delete k m)
  | Count n p => let '(m, r, z) := run p m in (m, r, n + z)
  end.

Lemma run_code_of ws rs b m :
  within ws rs b → ∃ m' r z, run (code_of b) m = (m', r, z) ∧ run_body b (MkSimple m) = Ret (MkSimple m', r) ∧
    Z.of_nat (size m') = Z.of_nat (size m) + z.
Proof.
  revert m. induction b as [r|c next IH]; intros m Hw; [by exists m, r, 0; split_and!; [..|lia]|]. destruct Hw as [Hc Hw].
  destruct c as [k| |k v|k v|k v|k|]; simpl in Hc; try done; cbn [code_of run_body dict_step d_Get d_Put d_PutIfAbsent d_PutIfExists d_Remove simple_ops];
    unfold code_GetWithLock, code_PutWithLock, code_PutIfAbsentWithLock, code_PutIfExistsWithLock, code_RemoveWithLock,
      SimpleDict.Get, SimpleDict.Put, SimpleDict.PutIfAbsent, SimpleDict.PutIfExists, SimpleDict.Remove; cbn [run SimpleDict.m mbind res_bind].
  - apply IH, Hw.
  - destruct (m !! k) eqn:E; simpl.
    + destruct (IH (None, 0) (<[k := v]> m) (Hw _)) as (m' & r & z & H1 & H2 & H3). exists m', r, z. split_and!; [done..|].
      rewrite H3, map_size_insert, E. simpl. lia.
    + destruct (IH (None, 1) (<[k := v]> m) (Hw _)) as (m' & r & z & H1 & H2 & H3). exists m', r, (1 + z). rewrite H1. split_and!; [done..|].
      rewrite H3, map_size_insert, E. simpl. lia.
  - destruct (m !! k) eqn:E; simpl.
    + apply IH, Hw.
    + destruct (IH (None, 1) (<[k := v]> m) (Hw _)) as (m' & r & z & H1 & H2 & H3). exists m', r, (1 + z). rewrite H1. split_and!; [done..|].
      rewrite H3, map_size_insert, E. simpl. lia.
  - destruct (m !! k) eqn:E; simpl.
    + destruct (IH (None, 1) (<[k := v]> m) (Hw _)) as (m' & r & z & H1 & H2 & H3). exists m', r, z. split_and!; [done..|].
      rewrite H3, map_size_insert, E. simpl. lia.
    + apply IH, Hw.
  - destruct (m !! k) as [v|] eqn:E; cbn [run mbind res_bind].
    + destruct (IH (Some v, 1) (delete k m) (Hw _)) as (m' & r & z & H1 & H2 & H3). exists m', r, (-1 + z). rewrite H1. split_and!; [done..|].
      rewrite H3, map_size_delete, E. simpl.
      assert (size m ≠ 0%nat) by (apply map_size_non_empty_iff; intros Em; by rewrite Em, lookup_empty in E). lia.
    + rewrite delete_id by done. apply IH, Hw.
Qed.
End code.
Arguments goroutine : clear implicits.

(** ** Slots *)

Section slots.
Context {V R : Type} (N : Z).
Implicit Types (p : code V R) (m : gmap bytes V) (S W : Z → Prop).

(** Reads are from the slots [S], writes to the slots [W]. *)
Fixpoint confined S W p : Prop :=
  match p with
  | Done _ => True
  | Read k next => S (slot N k) ∧ ∀ o, confined S W (next o)
  | Write k _ p | Delete k p => W (slot N k) ∧ confined S W p
  | Count _ p => confined S W p
  end.

Definition agree S m1 m2 : Prop := ∀ x, S (slot N x) → m1 !! x = m2 !! x.

Lemma run_agree S W p m1 m2 :
  confined S W p → agree S m1 m2 → ∃ a1 a2 r z, run p m1 = (a1, r, z) ∧ run p m2 = (a2, r, z) ∧ agree S a1 a2.
Proof.
  revert m1 m2. induction p as [r|k next IH|k v p IH|k p IH|c p IH]; intros m1 m2 Hc Ha; simpl in *.
  - by exists m1, m2, r, 0.
  - destruct Hc as [Hk Hc]. rewrite (Ha k Hk). by apply IH.
  - destruct Hc as [_ Hc]. apply IH; [done|]. intros x Hx. destruct (decide (x = k)) as [->|Hne].
    + by rewrite !lookup_insert_eq.
    + rewrite !lookup_insert_ne by done. by apply Ha.
  - destruct Hc as [_ Hc]. apply IH; [done|]. intros x Hx. destruct (decide (x = k)) as [->|Hne].
    + by rewrite !lookup_delete_eq.
    + rewrite !lookup_delete_ne by done. by apply Ha.
  - destruct (IH m1 m2 Hc Ha) as (a1 & a2 & r & z & E1 & E2 & E3). rewrite E1, E2. by eexists _, _, _, _.
Qed.

Lemma run_frame S W p m x : confined S W p → ¬ W (slot N x) → (run p m).1.1 !! x = m !! x.
Proof.
  revert m. induction p as [r|k next IH|k v p IH|k p IH|c p IH]; intros m Hc Hx; simpl in *.
  - done.
  - destruct Hc as [_ Hc]. by apply IH.
  - destruct Hc as [Hk Hc]. rewrite IH by done. apply lookup_insert_ne. by intros ->.
  - destruct Hc as [Hk Hc]. rewrite IH by done. apply lookup_delete_ne. by intros ->.
  - specialize (IH m Hc Hx). by destruct (run p m) as [[m' r] z].
Qed.

(** The slots that a command locks. *)
Definition holds_slot (j : command V R) (i : Z) : Prop := ∃ w, (i, w) ∈ locks_of N (keys_of j).
Definition writes_to (j : command V R) (i : Z) : Prop := (i, true) ∈ locks_of N (keys_of j).

Lemma confined_code (j : command V R) : keeps_to_keys j → confined (holds_slot j) (writes_to j) (code_of (calls j)).
Proof.
  unfold keeps_to_keys. set (ws := writeKeys j). set (rs := readKeys j).
  assert (Hw : ∀ k, k ∈ ws → writes_to j (slot N k)) by (intros k Hk; by apply locks_of_write).
  assert (Hr : ∀ k, k ∈ ws ++ rs → holds_slot j (slot N k)) by (intros k Hk; by apply locks_of_key).
  assert (Hb : ∀ k, k ∈ ws → holds_slot j (slot N k)) by (intros k Hk; apply Hr, elem_of_app; by left).
  induction (calls j) as [r|c next IH]; [done|]. intros [Hc Hn].
  destruct c as [k| |k v|k v|k v|k|]; simpl in Hc; try done; simpl.
  all: split; [first [by apply Hr|by apply Hb]|intros [v'|]; cbn [confined]; auto 6].
Qed.

(** An access to the table does what the code does to the map. *)
Lemma access_spec S W d p :
  table_fits d → Z.of_nat (length (table d)) = N → confined S W p → (∀ r, p ≠ Done r) →
  ∃ p' d', access d p = Some (p', d').
Proof.
  intros H HN Hc Hp. destruct p as [r|k next|k v p|k p|c p]; simpl; unfold run_shard; [by destruct (Hp r)|..|by eexists _, _].
  all: destruct (shard_of d k H) as (s & _ & ->); by eexists _, _.
Qed.

Lemma access_run S W d p p' d' :
  table_fits d → Z.of_nat (length (table d)) = N → confined S W p → access d p = Some (p', d') →
  table_fits d' ∧ Z.of_nat (length (table d')) = N ∧ confined S W p' ∧
  (∀ x, ¬ W (slot N x) → cmap d' !! x = cmap d !! x) ∧
  ∃ z, (let '(m, r, e) := run p' (cmap d') in run p (cmap d) = (m, r, z + e)) ∧
    (count d' = count d ∧ z = 0 ∨ count d' = wrap32 (count d + z)).
Proof.
  intros H HN Hc Ha. destruct p as [r|k next|k v p|k p|c p]; simpl in Ha; unfold run_shard in Ha; [done|..].
  - destruct (shard_of d k H) as (s & Hs & Hg). rewrite Hg in Ha. injection Ha as <- <-. destruct Hc as [_ Hc].
    split_and!; [done|done|apply Hc|done|]. exists 0. simpl. rewrite (cmap_shard d k s H Hs).
    destruct (run _ _) as [[m r] e]. auto.
  - destruct (shard_of d k H) as (s & Hs & Hg). rewrite Hg in Ha. injection Ha as <- <-. destruct Hc as [Hk Hc].
    destruct (put_shard d k s (<[k := v]> s) (count d) H Hs) as [H' E]; [intros x Hx; by rewrite lookup_insert_ne|].
    unfold set_shard. rewrite spread_idx by done. rewrite lookup_insert_eq in E.
    split_and!; [done|simpl; by rewrite length_insert|done| |].
    + intros x Hx. rewrite E. apply lookup_partial_alter_ne. by intros ->.
    + exists 0. rewrite E. simpl. change (partial_alter (λ _, Some v) k (cmap d)) with (<[k := v]> (cmap d)).
      destruct (run _ _) as [[m r] e]. auto.
  - destruct (shard_of d k H) as (s & Hs & Hg). rewrite Hg in Ha. injection Ha as <- <-. destruct Hc as [Hk Hc].
    destruct (put_shard d k s (delete k s) (count d) H Hs) as [H' E]; [intros x Hx; by rewrite lookup_delete_ne|].
    unfold set_shard. rewrite spread_idx by done. rewrite lookup_delete_eq in E.
    split_and!; [done|simpl; by rewrite length_insert|done| |].
    + intros x Hx. rewrite E. apply lookup_partial_alter_ne. by intros ->.
    + exists 0. rewrite E. simpl. change (partial_alter (λ _, None) k (cmap d)) with (delete k (cmap d)).
      destruct (run _ _) as [[m r] e]. auto.
  - injection Ha as <- <-. split_and!; [by destruct H|done|done|done|]. exists c. simpl.
    change (cmap (MkCD (table d) (wrap32 (count d + c)) (shardCount d))) with (cmap d). destruct (run p (cmap d)) as [[m r] e]. auto.
Qed.

(** ** The shape of a goroutine at work *)

Definition is_body (a : act) : bool := match a with Body => true | _ => false end.
Definition bodies (td : list act) : nat := length (filter (λ a, is_body a = true) td).

Lemma bodies_app a b : bodies (a ++ b) = (bodies a + bodies b)%nat.
Proof. unfold bodies. by rewrite filter_app, length_app. Qed.
Lemma bodies_acq l : bodies (acq <$> l) = 0%nat.
Proof. by induction l. Qed.
Lemma bodies_rel l : bodies (rel <$> l) = 0%nat.
Proof. by induction l. Qed.
Lemma bodies_jobs (js : list job) : bodies (js ≫= run_job N) = length js.
Proof.
  induction js as [|j js IH]; [done|]. change ((j :: js) ≫= run_job N) with (run_job N j ++ (js ≫= run_job N)).
  rewrite bodies_app, IH, run_job_shape, bodies_app, bodies_acq. change (Body :: ?l) with ([Body] ++ l). by rewrite bodies_app, bodies_rel.
Qed.

Lemma body_shape (js : list job) td h wt :
  shaped N js (MkThread (Body :: td) h wt) →
  wt = false ∧ (∃ don j rest, js = don ++ j :: rest ∧ h = reverse (locks_of N j) ∧ bodies td = length rest) ∧
  (∀ td', td = Body :: td' → h = []).
Proof.
  intros Hs. split; [by apply shaped_body in Hs as (? & _)|].
  inversion Hs as [don j rest p q wt' Hjs Hl Hw Ht|don j rest x r Hjs Ht|]. clear Hs.
  destruct q as [|[i' w'] q]; [|done]. injection Ht as <-. rewrite app_nil_r in *. subst. split.
  - exists don, j, rest. split_and!; [done|done|]. by rewrite bodies_app, bodies_rel, bodies_jobs.
  - intros td' E. by destruct (reverse _).
Qed.

Lemma insert_same {A} (l : list A) k a b : (k < length l)%nat → <[k := a]> l = <[k := b]> l → a = b.
Proof. intros Hk E. assert (H : <[k := a]> l !! k = <[k := b]> l !! k) by (by rewrite E). rewrite !list_lookup_insert_eq in H by done. by injection H. Qed.

(** A goroutine that locks or unlocks does not end a command. *)
Lemma sync_bodies strict ts k t0 t :
  ts !! k = Some t0 → Lock.step strict ts (<[k := t]> ts) → (∀ td, todo t0 ≠ Body :: td) → bodies (todo t) = bodies (todo t0).
Proof.
  intros Hk Hst Hnb. pose proof (lookup_lt_Some _ _ _ Hk) as Hlt. remember (<[k := t]> ts) as ts' eqn:E.
  assert (Hsame : ∀ k' t1 t2, ts !! k' = Some t1 → <[k' := t2]> ts = <[k := t]> ts → t1 ≠ t2 → k' = k ∧ t0 = t1 ∧ t = t2).
  { intros k' t1 t2 H1 H2 Hne. destruct (decide (k' = k)) as [->|Hk'].
    - split; [done|]. split; [congruence|]. symmetry. by eapply insert_same.
    - destruct Hne. assert (H : <[k' := t2]> ts !! k' = <[k := t]> ts !! k') by (by rewrite H2).
      rewrite list_lookup_insert_eq, list_lookup_insert_ne, H1 in H by (done || by eapply lookup_lt_Some). by injection H. }
  destruct Hst as [k' i td h H|k' i td h H _|k' i td h H _|k' td h H|k' i w td h H _];
    (destruct (Hsame _ _ _ H E) as (-> & -> & ->);
      [intros [= Et]; by apply (f_equal length) in Et; simpl in Et; lia|]); try done.
  by destruct (Hnb td).
Qed.
End slots.

(** ** What holds while goroutines run *)

Section runs.
Context {V R : Type} (N : Z) (jobs : list (list (command V R))).
Implicit Types (g : goroutine V R) (gs : list (goroutine V R)) (d : ConcurrentDict V) (M : gmap bytes V) (js : list (command V R)).

Definition working (t : thread) : Prop := ∃ td, todo t = Body :: td.
#[global] Instance working_dec t : Decision (working t).
Proof. unfold working. destruct (todo t) as [|[i w| |i w] td]; [right; by intros []..|left; by exists td|right; by intros []]. Defined.
Definition job_code (j : command V R) : code V R := code_of (calls j).

(** A command [j] at work, of which [p] is left: on its slots and in its result
    the rest does to the table what the whole does to the map [M] of the commands
    that have ended; [e] has been added to the counter so far. *)
Definition at_work (j : command V R) (p : code V R) M d (e : Z) : Prop :=
  confined N (holds_slot N j) (writes_to N j) p ∧
  ∃ m1 m2 r z, run (job_code j) M = (m1, r, e + z) ∧ run p (cmap d) = (m2, r, z) ∧ agree N (holds_slot N j) m1 m2.

Definition go_ok js g M d (e : Z) : Prop :=
  ∃ don rest, js = don ++ rest ∧ length don = length (results g) ∧ bodies (todo (locks g)) = length rest ∧
  match todo (locks g) with
  | Body :: _ => ∃ j rest' p, rest = j :: rest' ∧ held (locks g) = reverse (locks_of N (keys_of j)) ∧
      codes g = p :: (job_code <$> rest') ∧ at_work j p M d e
  | _ => codes g = job_code <$> rest ∧ e = 0
  end.

Definition sum (es : list Z) : Z := foldr Z.add 0 es.

(** The commands that have ended, one after another in this order, give the map
    and the results, and the others are left. *)
Definition executed (order : list nat) M gs : Prop :=
  ∃ rest, serial MakeSimple jobs (replicate (length jobs) []) order = Ret (MkSimple M, rest, results <$> gs) ∧
    length rest = length jobs ∧
    ∀ k js g, jobs !! k = Some js → gs !! k = Some g → rest !! k = Some (drop (length (results g)) js).

Record go_inv (order : list nat) M gs d : Prop := {
  gi_lock : Lock.inv N ((λ js, keys_of <$> js) <$> jobs) (locks <$> gs);
  gi_fits : table_fits d;
  gi_size : Z.of_nat (length (table d)) = N;
  gi_count : ∃ es, length es = length gs ∧ count d = wrap32 (Z.of_nat (size M) + sum es) ∧
    ∀ k g js e, gs !! k = Some g → jobs !! k = Some js → es !! k = Some e → go_ok js g M d e;
  gi_free x : (∀ k g, gs !! k = Some g → working (locks g) → (slot N x, true) ∉ held (locks g)) → cmap d !! x = M !! x;
  gi_serial : executed order M gs
}.

Lemma executed_same order M gs k g g' :
  gs !! k = Some g → results g' = results g → executed order M gs → executed order M (<[k := g']> gs).
Proof.
  intros Hk Hres (rest & Es & Er & Hr). exists rest.
  assert (E : results <$> <[k := g']> gs = results <$> gs).
  { rewrite list_fmap_insert. apply list_insert_id. by rewrite list_lookup_fmap, Hk, Hres. }
  rewrite E. split_and!; [done..|]. intros k' js h H1 H2.
  apply list_lookup_insert_Some in H2 as [(<- & <- & _)|[Hne H2]]; [|by apply Hr]. rewrite Hres. by apply Hr.
Qed.

(** The next command of a goroutine has ended. *)
Lemma executed_next order M M' gs k g g' don j rest r :
  gs !! k = Some g → jobs !! k = Some (don ++ j :: rest) → length don = length (results g) → results g' = results g ++ [r] →
  run_body (calls j) (MkSimple M) = Ret (MkSimple M', r) → executed order M gs → executed (order ++ [k]) M' (<[k := g']> gs).
Proof.
  intros Hk Hj Hl Hres Hrun (rst & Es & Er & Hr). pose proof (lookup_lt_Some _ _ _ Hk) as Hlt.
  assert (Hrk : rst !! k = Some (j :: rest)) by (rewrite (Hr k _ g Hj Hk), <- Hl; by rewrite drop_app_length).
  exists (<[k := rest]> rst). split_and!; [|by rewrite length_insert|].
  - rewrite serial_app, Es. cbn [mbind res_bind serial]. rewrite Hrk, Hrun. cbn [mbind res_bind]. do 2 f_equal.
    rewrite list_fmap_insert, Hres. apply list_eq. intros i. destruct (decide (i = k)) as [->|Hne].
    + rewrite list_lookup_alter_eq, list_lookup_insert_eq, list_lookup_fmap, Hk by (by rewrite length_fmap). done.
    + by rewrite list_lookup_alter_ne, list_lookup_insert_ne by done.
  - intros k' js' h H1 H2. apply list_lookup_insert_Some in H2 as [(<- & <- & _)|[Hne H2]].
    + rewrite list_lookup_insert_eq by (by eapply lookup_lt_Some). f_equal. rewrite Hj in H1. injection H1 as <-.
      rewrite (cons_middle j don rest), app_assoc, Hres, length_app, <- Hl.
      replace (length don + length [r])%nat with (length (don ++ [j])) by (by rewrite length_app). by rewrite drop_app_length.
    + rewrite list_lookup_insert_ne by done. by apply Hr.
Qed.

Lemma sum_insert es k e e' : es !! k = Some e → sum (<[k := e']> es) = sum es + (e' - e).
Proof.
  revert k. induction es as [|x es IH]; intros [|k] H; [done..| |].
  - injection H as ->. simpl. lia.
  - simpl in *. rewrite (IH k H). lia.
Qed.

Lemma held_slots (j : command V R) h i : h = reverse (locks_of N (keys_of j)) → holds_slot N j i ↔ ∃ w, (i, w) ∈ h.
Proof. intros ->. unfold holds_slot. by setoid_rewrite elem_of_reverse. Qed.

(** A goroutine does not notice what happens outside its slots. *)
Lemma go_ok_frame js g M d M' d' e :
  Forall keeps_to_keys js → go_ok js g M d e →
  (working (locks g) → ∀ x w, (slot N x, w) ∈ held (locks g) → M' !! x = M !! x ∧ cmap d' !! x = cmap d !! x) →
  go_ok js g M' d' e.
Proof.
  intros Hk (don & rest & -> & Hl & Hb & Hok) Hsame. exists don, rest. split_and!; [done..|].
  destruct (todo (locks g)) as [|[i w| |i w] td] eqn:Et; [done|done| |done].
  destruct Hok as (j & rest' & p & -> & Hh & Hc & Hp & m1 & m2 & r & z & E1 & E2 & Ha).
  assert (Hj : keeps_to_keys j) by (rewrite Forall_forall in Hk; apply Hk, elem_of_app; right; by left).
  exists j, rest', p. split_and!; [done..|]. split; [done|].
  assert (Hs : ∀ x, holds_slot N j (slot N x) → M' !! x = M !! x ∧ cmap d' !! x = cmap d !! x).
  { intros x Hx. apply (held_slots j _ _ Hh) in Hx as [w Hw]. apply (Hsame (ex_intro _ td Et) x w Hw). }
  destruct (run_agree N _ _ _ M M' (confined_code N j Hj)) as (a1 & a2 & r' & z' & F1 & F2 & Fa); [intros x Hx; by rewrite (proj1 (Hs x Hx))|].
  destruct (run_agree N _ _ _ (cmap d) (cmap d') Hp) as (b1 & b2 & r'' & z'' & G1 & G2 & Ga); [intros x Hx; by rewrite (proj2 (Hs x Hx))|].
  unfold job_code in *. rewrite E1 in F1. injection F1 as <- <- <-. rewrite E2 in G1. injection G1 as <- <- <-.
  exists a2, b2, r, z. split_and!; [done..|]. intros x Hx. by rewrite <- (Fa x Hx), (Ha x Hx), (Ga x Hx).
Qed.

(** A goroutine that has just taken its last lock. *)
Lemma go_ok_enter js g don rest td M d :
  Forall keeps_to_keys js → js = don ++ rest → length don = length (results g) → bodies (todo (locks g)) = length rest →
  codes g = job_code <$> rest → shaped N (keys_of <$> js) (locks g) → todo (locks g) = Body :: td →
  (∀ x w, (slot N x, w) ∈ held (locks g) → cmap d !! x = M !! x) → go_ok js g M d 0.
Proof.
  intros Hk -> Hl Hb Hc Hs Ht Hag. exists don, rest. split_and!; [done..|]. rewrite Ht. destruct (locks g) as [td0 h wt] eqn:El.
  simpl in *. subst td0. apply body_shape in Hs as (_ & (don' & j' & rest' & Ejs & -> & Eb) & _).
  assert (Hb' : length rest = S (length rest')) by (rewrite <- Eb, <- Hb; done).
  destruct rest as [|j rest]; [done|]. injection Hb' as Hb'. rewrite fmap_app in Ejs. simpl in Ejs.
  apply app_inj_2 in Ejs as [_ [= Ej _]]; [|simpl; by rewrite length_fmap, Hb'].
  exists j, rest, (job_code j). subst j'. split_and!; [done..|].
  assert (Hj : keeps_to_keys j) by (rewrite Forall_forall in Hk; apply Hk, elem_of_app; right; by left).
  split; [by apply confined_code|].
  destruct (run_agree N _ _ _ M (cmap d) (confined_code N j Hj)) as (a1 & a2 & r & z & F1 & F2 & Fa).
  { intros x Hx. symmetry. apply (held_slots j _ _ eq_refl) in Hx as [w Hw]. by eapply Hag. }
  exists a1, a2, r, z. by split_and!.
Qed.

Lemma go_lookup order M gs d k g :
  Forall (Forall keeps_to_keys) jobs → go_inv order M gs d → gs !! k = Some g →
  ∃ js, jobs !! k = Some js ∧ Forall keeps_to_keys js ∧ shaped N (keys_of <$> js) (locks g).
Proof.
  intros Hjobs Hi Hk. destruct (gi_lock _ _ _ _ Hi) as [Hsh _].
  destruct (Forall2_lookup_r _ _ _ k (locks g) Hsh) as (ks & Hks & Hs); [by rewrite list_lookup_fmap, Hk|].
  rewrite list_lookup_fmap in Hks. destruct (jobs !! k) as [js|] eqn:Ej; [|done]. injection Hks as <-.
  exists js. split_and!; [done| |done]. by eapply Forall_lookup_1.
Qed.

Lemma go_length order M gs d : go_inv order M gs d → length gs = length jobs.
Proof. intros Hi. destruct (gi_lock _ _ _ _ Hi) as [Hsh _]. apply Forall2_length in Hsh. by rewrite !length_fmap in Hsh. Qed.

(** No goroutine has a slot that another has for writing. *)
Lemma go_apart order M gs d a b ga gb i w :
  go_inv order M gs d → a ≠ b → gs !! a = Some ga → gs !! b = Some gb → (i, true) ∈ held (locks ga) → (i, w) ∉ held (locks gb).
Proof.
  intros Hi Hab Ha Hb H1. destruct (gi_lock _ _ _ _ Hi) as [_ Hex].
  apply (Hex a b (locks ga) (locks gb) i w); [done|by rewrite list_lookup_fmap, ?Ha, ?Hb..|done].
Qed.

(** ** Steps *)

Context (Hjobs : Forall (Forall keeps_to_keys) jobs).

Lemma not_working_ok js g don rest M d :
  (∀ td, todo (locks g) ≠ Body :: td) → js = don ++ rest → length don = length (results g) →
  bodies (todo (locks g)) = length rest → codes g = job_code <$> rest → go_ok js g M d 0.
Proof.
  intros Hn -> Hl Hb Hc. exists don, rest. split_and!; [done..|].
  destruct (todo (locks g)) as [|[i w| |i w] td] eqn:Et; [done|done|by destruct (Hn td)|done].
Qed.

Lemma inv_sync order M gs d k g t :
  go_inv order M gs d → gs !! k = Some g → (∀ td, todo (locks g) ≠ Body :: td) →
  Lock.step false (locks <$> gs) (<[k := t]> (locks <$> gs)) →
  go_inv order M (<[k := MkGo t (codes g) (results g)]> gs) d.
Proof.
  intros Hi Hk Hnb Hst. set (g' := MkGo t (codes g) (results g)). set (gs' := <[k := g']> gs).
  assert (Hlk : locks <$> gs' = <[k := t]> (locks <$> gs)) by (unfold gs'; by rewrite list_fmap_insert).
  assert (Hl : Lock.inv N ((λ js, keys_of <$> js) <$> jobs) (locks <$> gs')) by (rewrite Hlk; eapply inv_step; [apply Hi|done]).
  assert (Hbod : bodies (todo t) = bodies (todo (locks g))) by (eapply sync_bodies; [|done|done]; by rewrite list_lookup_fmap, Hk).
  pose proof (lookup_lt_Some _ _ _ Hk) as Hlt. assert (Hk' : gs' !! k = Some g') by (by apply list_lookup_insert_eq).
  assert (Hfree : ∀ x w, (slot N x, w) ∈ held t → cmap d !! x = M !! x).
  { intros x w Hx. apply (gi_free _ _ _ _ Hi). intros k' h Hk2 Hw Hh. destruct (decide (k' = k)) as [->|Hne].
    - rewrite Hk in Hk2. injection Hk2 as <-. destruct Hw as [td Hw]. by apply (Hnb td).
    - destruct Hl as [_ Hex]. eapply (Hex k' k (locks h) t (slot N x) w); [done| | |exact Hh|exact Hx].
      + unfold gs'. by rewrite list_lookup_fmap, list_lookup_insert_ne, Hk2.
      + by rewrite list_lookup_fmap, Hk'. }
  split; [done|apply Hi|apply Hi| | |].
  - destruct (gi_count _ _ _ _ Hi) as (es & He & Hc & Hok). exists es. split_and!; [by unfold gs'; rewrite length_insert|done|].
    intros k' h js e H1 H2 H3. unfold gs' in H1. apply list_lookup_insert_Some in H1 as [(<- & <- & _)|[Hne H1]]; [|by eapply Hok].
    destruct (Hok k g js e Hk H2 H3) as (don & rest & Ejs & El & Eb & Eo).
    assert (codes g = job_code <$> rest ∧ e = 0) as [Ec ->].
    { destruct (todo (locks g)) as [|[i w| |i w] td] eqn:Et; [done|done|by destruct (Hnb td)|done]. }
    destruct (decide (working t)) as [[td Ht]|Hno].
    + eapply (go_ok_enter js g' don rest td); simpl; try done; [by eapply Forall_lookup_1|congruence|].
      destruct Hl as [Hsh _]. destruct (Forall2_lookup_r _ _ _ k t Hsh) as (ks & Hks & Hs); [by rewrite list_lookup_fmap, Hk'|].
      rewrite list_lookup_fmap, H2 in Hks. by injection Hks as <-.
    + eapply (not_working_ok js g' don rest); simpl; try done; [|congruence]. intros td Ht. apply Hno. by exists td.
  - intros x Hx. apply (gi_free _ _ _ _ Hi). intros k' h Hk2 Hw. destruct (decide (k' = k)) as [->|Hne].
    + rewrite Hk in Hk2. injection Hk2 as <-. destruct Hw as [td Hw]. by destruct (Hnb td).
    + apply (Hx k'); [|done]. unfold gs'. by rewrite list_lookup_insert_ne.
  - by eapply executed_same, Hi.
Qed.

(** The goroutine [k] at work. *)
Lemma go_working order M gs d k g td es :
  go_inv order M gs d → gs !! k = Some g → todo (locks g) = Body :: td → length es = length gs →
  (∀ k g js e, gs !! k = Some g → jobs !! k = Some js → es !! k = Some e → go_ok js g M d e) →
  ∃ js e don j rest p, jobs !! k = Some js ∧ es !! k = Some e ∧ js = don ++ j :: rest ∧ length don = length (results g) ∧
    bodies td = length rest ∧ held (locks g) = reverse (locks_of N (keys_of j)) ∧ codes g = p :: (job_code <$> rest) ∧
    keeps_to_keys j ∧ at_work j p M d e.
Proof.
  intros Hi Hk Ht He Hok. destruct (go_lookup order M gs d k g Hjobs Hi Hk) as (js & Hj & Hks & _).
  destruct (lookup_lt_is_Some_2 es k) as [e Hek]; [rewrite He; by eapply lookup_lt_Some|].
  destruct (Hok k g js e Hk Hj Hek) as (don & rest & -> & Hl & Hb & Ho). rewrite Ht in Ho, Hb.
  destruct Ho as (j & rest' & p & -> & Hh & Hc & Ha). exists (don ++ j :: rest'), e, don, j, rest', p.
  split_and!; try done; [by injection Hb|]. rewrite Forall_forall in Hks. apply Hks, elem_of_app. right. by left.
Qed.

Lemma inv_access order M gs d k g td p ps p' d' :
  go_inv order M gs d → gs !! k = Some g → todo (locks g) = Body :: td → codes g = p :: ps → access d p = Some (p', d') →
  go_inv order M (<[k := MkGo (locks g) (p' :: ps) (results g)]> gs) d'.
Proof.
  intros Hi Hk Ht Hcd Hacc. set (g' := MkGo (locks g) (p' :: ps) (results g)). set (gs' := <[k := g']> gs).
  destruct (gi_count _ _ _ _ Hi) as (es & He & Hc & Hok).
  destruct (go_working _ _ _ _ _ _ _ _ Hi Hk Ht He Hok) as (js & e & don & j & rest & p0 & Hj & Hek & Ejs & Hl & Hb & Hh & Hcd' & Hkj & Hw).
  rewrite Hcd in Hcd'. injection Hcd' as <- ->. destruct Hw as [Hconf (m1 & m2 & r & z & E1 & E2 & Ha)].
  destruct (access_run N _ _ d p p' d' (gi_fits _ _ _ _ Hi) (gi_size _ _ _ _ Hi) Hconf Hacc) as (Hf & Hsz & Hconf' & Hout & dz & Hrun & Hcnt).
  destruct (run p' (cmap d')) as [[m2' r'] z'] eqn:E2'. rewrite E2 in Hrun. injection Hrun as <- <- Ez.
  assert (Hlk : locks <$> gs' = locks <$> gs).
  { unfold gs'. rewrite list_fmap_insert. apply list_insert_id. by rewrite list_lookup_fmap, Hk. }
  assert (Hothers : ∀ x, (∃ k' h w, k' ≠ k ∧ gs !! k' = Some h ∧ (slot N x, w) ∈ held (locks h)) → cmap d' !! x = cmap d !! x).
  { intros x (k' & h & w & Hne & Hk' & Hx). apply Hout. intros Hwr. eapply (go_apart order M gs d k k' g h); [done..| |exact Hx].
    rewrite Hh. by apply elem_of_reverse. }
  split; [rewrite Hlk; apply Hi|done|done| | |].
  - exists (<[k := e + dz]> es). split_and!; [unfold gs'; by rewrite !length_insert| |].
    + rewrite (sum_insert es k e) by done. destruct Hcnt as [[-> ->]| ->].
      * rewrite Hc. f_equal. lia.
      * rewrite Hc, wrap32_add. f_equal. lia.
    + intros k' h js' e' H1 H2 H3. unfold gs' in H1. apply list_lookup_insert_Some in H1 as [(<- & <- & _)|[Hne H1]].
      * rewrite list_lookup_insert_eq in H3 by (by eapply lookup_lt_Some). injection H3 as <-. rewrite Hj in H2. injection H2 as <-.
        exists don, (j :: rest). unfold g'. simpl. rewrite Ht. split_and!; [done|done|simpl; by rewrite <- Hb|].
        exists j, rest, p'. split_and!; [done..|]. split; [done|]. exists m1, m2, r, z'. split_and!; [|done|done]. by rewrite E1, Ez, Z.add_assoc.
      * rewrite list_lookup_insert_ne in H3 by done. destruct (go_lookup order M gs d k' h Hjobs Hi H1) as (js2 & H2' & Hks & _).
        rewrite H2 in H2'. injection H2' as <-. eapply go_ok_frame; [done|by eapply Hok|]. intros _ x w Hx. split; [done|]. apply Hothers. eauto 10.
  - intros x Hx. rewrite Hout.
    + apply (gi_free _ _ _ _ Hi). intros k' h Hk' Hwk. destruct (decide (k' = k)) as [->|Hne].
      * rewrite Hk in Hk'. injection Hk' as <-. apply (Hx k g'); [|done]. unfold gs'. apply list_lookup_insert_eq. by eapply lookup_lt_Some.
      * apply (Hx k'); [|done]. unfold gs'. by rewrite list_lookup_insert_ne.
    + intros Hwr. eapply (Hx k g'); [unfold gs'; apply list_lookup_insert_eq; by eapply lookup_lt_Some|by exists td|].
      simpl. rewrite Hh. by apply elem_of_reverse.
  - by eapply executed_same, Hi.
Qed.

Lemma inv_end order M gs d k g td r ps :
  go_inv order M gs d → gs !! k = Some g → todo (locks g) = Body :: td → codes g = Done r :: ps →
  ∃ M', go_inv (order ++ [k]) M' (<[k := MkGo (MkThread td (held (locks g)) false) ps (results g ++ [r])]> gs) d.
Proof.
  intros Hi Hk Ht Hcd. set (t := MkThread td (held (locks g)) false). set (g' := MkGo t ps (results g ++ [r])). set (gs' := <[k := g']> gs).
  destruct (gi_count _ _ _ _ Hi) as (es & He & Hc & Hok).
  destruct (go_working _ _ _ _ _ _ _ _ Hi Hk Ht He Hok) as (js & e & don & j & rest & p0 & Hj & Hek & Ejs0 & Hl & Hb & Hh & Hcd' & Hkj & Hw).
  rewrite Hcd in Hcd'. injection Hcd' as <- ->. destruct Hw as [_ (m1 & m2 & r0 & z & E1 & E2 & Ha)]. injection E2 as <- <- <-. rewrite Z.add_0_r in E1.
  destruct (run_code_of _ _ (calls j) M Hkj) as (m' & r' & z' & F1 & F2 & F3).
  unfold job_code in E1. rewrite E1 in F1. injection F1 as <- <- <-. exists m1.
  destruct (go_lookup order M gs d k g Hjobs Hi Hk) as (js' & Hj' & Hks & Hsh). rewrite Hj in Hj'. injection Hj' as <-.
  assert (Hlocks : locks g = MkThread (Body :: td) (held (locks g)) false ∧ ∀ td', td = Body :: td' → held (locks g) = []).
  { destruct (locks g) as [td0 h wt] eqn:El. simpl in Ht. subst td0. by destruct (body_shape _ _ _ _ _ Hsh) as (-> & _ & Hnil). }
  destruct Hlocks as [Hlg Hnil]. pose proof (lookup_lt_Some _ _ _ Hk) as Hlt.
  assert (Hlk : locks <$> gs' = <[k := t]> (locks <$> gs)) by (unfold gs'; by rewrite list_fmap_insert).
  assert (Hl' : Lock.inv N ((λ js, keys_of <$> js) <$> jobs) (locks <$> gs')).
  { rewrite Hlk. eapply (inv_step N false); [apply Hi|]. eapply step_body. rewrite list_lookup_fmap, Hk. simpl. by rewrite Hlg. }
  assert (Hframe : ∀ x, ¬ writes_to N j (slot N x) → m1 !! x = M !! x).
  { intros x Hx. pose proof (run_frame N _ _ _ M x (confined_code N j Hkj) Hx) as Hf. by rewrite E1 in Hf. }
  split; [done|apply Hi|apply Hi| | |].
  - exists (<[k := 0]> es). split_and!; [unfold gs'; by rewrite !length_insert| |].
    + rewrite (sum_insert es k e), Hc by done. f_equal. lia.
    + intros k' h js' e' H1 H2 H3. unfold gs' in H1. apply list_lookup_insert_Some in H1 as [(<- & <- & _)|[Hne H1]].
      * rewrite list_lookup_insert_eq in H3 by (by rewrite He). injection H3 as <-. rewrite Hj in H2. injection H2 as <-.
        assert (Hres : length (don ++ [j]) = length (results g')) by (simpl; rewrite !length_app; simpl; by rewrite Hl).
        assert (Ejs : js = (don ++ [j]) ++ rest) by (by rewrite Ejs0, <- app_assoc). destruct (decide (working t)) as [[td' Ht']|Hno].
        -- simpl in Ht'. eapply (go_ok_enter js g' (don ++ [j]) rest td'); try done.
           ++ destruct Hl' as [Hsh' _]. destruct (Forall2_lookup_r _ _ _ k t Hsh') as (ks & Hks' & Hs).
              { rewrite list_lookup_fmap. unfold gs'. by rewrite list_lookup_insert_eq. }
              rewrite list_lookup_fmap, Hj in Hks'. by injection Hks' as <-.
           ++ intros x w Hx. simpl in Hx. rewrite (Hnil _ Ht') in Hx. by apply elem_of_nil in Hx.
        -- eapply (not_working_ok js g' (don ++ [j]) rest); try done. intros td' Ht'. apply Hno. by exists td'.
      * rewrite list_lookup_insert_ne in H3 by done. destruct (go_lookup order M gs d k' h Hjobs Hi H1) as (js2 & H2' & Hks2 & _).
        rewrite H2 in H2'. injection H2' as <-. eapply go_ok_frame; [done|by eapply Hok|]. intros _ x w Hx. split; [|done].
        apply Hframe. intros Hwr. eapply (go_apart order M gs d k k' g h); [done..| |exact Hx]. rewrite Hh. by apply elem_of_reverse.
  - intros x Hx. destruct (decide ((slot N x, true) ∈ held (locks g))) as [Hin|Hout].
    + symmetry. apply Ha. apply (held_slots j _ _ Hh). by exists true.
    + rewrite Hframe by (intros Hwr; apply Hout; rewrite Hh; by apply elem_of_reverse).
      apply (gi_free _ _ _ _ Hi). intros k' h Hk' Hwk. destruct (decide (k' = k)) as [->|Hne]; [rewrite Hk in Hk'; by injection Hk' as <-|].
      apply (Hx k'); [|done]. unfold gs'. by rewrite list_lookup_insert_ne.
  - eapply executed_next; [exact Hk|by rewrite Hj, Ejs0|exact Hl|done|exact F2|apply Hi].
Qed.

Lemma inv_go_step order M s s' :
  go_inv order M s.1 s.2 → go_step false s s' → ∃ more M', go_inv (order ++ more) M' s'.1 s'.2.
Proof.
  intros Hi Hs. destruct Hs as [gs d k g t Hk Hnb Hst|gs d k g td p ps p' d' Hk Ht Hcd Hacc|gs d k g td r ps Hk Ht Hcd]; simpl in *.
  - exists [], M. rewrite app_nil_r. by apply inv_sync.
  - exists [], M. rewrite app_nil_r. by eapply inv_access.
  - exists [k]. by eapply inv_end.
Qed.

Lemma inv_go_steps s s' order M :
  rtc (go_step false) s s' → go_inv order M s.1 s.2 → ∃ more M', go_inv (order ++ more) M' s'.1 s'.2.
Proof.
  intros Hr. revert order M. induction Hr as [s|s t u Hst _ IH]; intros order M Hi.
  - exists [], M. by rewrite app_nil_r.
  - destruct (inv_go_step order M s t Hi Hst) as (more & M1 & H1). destruct (IH _ _ H1) as (more' & M2 & H2).
    exists (more ++ more'), M2. by rewrite app_assoc.
Qed.

(** ** Progress and the end *)

Definition all_ended gs : Prop := ∀ k g, gs !! k = Some g → todo (locks g) = [].

Lemma go_progress order M gs d : go_inv order M gs d → all_ended gs ∨ ∃ s, go_step true (gs, d) s.
Proof.
  intros Hi. destruct (decide (Exists (λ g, working (locks g)) gs)) as [Hex|Hno].
  - right. apply Exists_exists in Hex as (g & [k Hk]%list_elem_of_lookup & td & Ht).
    destruct (gi_count _ _ _ _ Hi) as (es & He & Hc & Hok).
    destruct (go_working _ _ _ _ _ _ _ _ Hi Hk Ht He Hok) as (js & e & don & j & rest & p & _ & _ & _ & _ & _ & _ & Hcd & _ & Hconf & _).
    assert (Hp : (∃ r, p = Done r) ∨ ∀ r, p ≠ Done r) by (destruct p; [left; eauto|right; done..]).
    destruct Hp as [[r ->]|Hp]; [eexists; by eapply go_end|].
    destruct (access_spec N _ _ d p (gi_fits _ _ _ _ Hi) (gi_size _ _ _ _ Hi) Hconf Hp) as (p' & d' & Ha). eexists. by eapply go_access.
  - destruct (progress N _ _ (gi_lock _ _ _ _ Hi)) as [Hfin|[ts' Hst]].
    + left. intros k g Hk. apply (Hfin k). by rewrite list_lookup_fmap, Hk.
    + right. assert (Hex : ∃ k t, ts' = <[k := t]> (locks <$> gs) ∧ is_Some (gs !! k)).
      { assert (Hlen : ∀ k t, (locks <$> gs) !! k = Some t → is_Some (gs !! k)).
        { intros k t. rewrite list_lookup_fmap. by destruct (gs !! k). }
        destruct Hst as [k i td h H|k i td h H _|k i td h H _|k td h H|k i w td h H _]; eauto. }
      destruct Hex as (k & t & -> & g & Hk). eexists. eapply (go_sync true gs d k g t Hk); [|done].
      intros td Ht. apply Hno. apply Exists_exists. exists g. split; [by eapply list_elem_of_lookup_2|by exists td].
Qed.

Lemma go_end_state order M gs d :
  go_inv order M gs d → all_ended gs →
  cmap d = M ∧ count d = wrap32 (Z.of_nat (size M)) ∧
  ∃ rest, serial MakeSimple jobs (replicate (length jobs) []) order = Ret (MkSimple M, rest, results <$> gs) ∧ Forall (λ js, js = []) rest.
Proof.
  intros Hi Hend. assert (Hnw : ∀ k g, gs !! k = Some g → ¬ working (locks g)) by (intros k g Hk [td Ht]; by rewrite (Hend k g Hk) in Ht).
  destruct (gi_count _ _ _ _ Hi) as (es & He & Hc & Hok). pose proof (go_length _ _ _ _ Hi) as Hlen.
  assert (Hgo : ∀ k js, jobs !! k = Some js → ∃ g, gs !! k = Some g ∧ es !! k = Some 0 ∧ js = take (length (results g)) js).
  { intros k js Hj. destruct (lookup_lt_is_Some_2 gs k) as [g Hk]; [rewrite Hlen; by eapply lookup_lt_Some|].
    destruct (lookup_lt_is_Some_2 es k) as [e Hek]; [rewrite He; by eapply lookup_lt_Some|]. exists g. split; [done|].
    destruct (Hok k g js e Hk Hj Hek) as (don & rest & -> & Hl & Hb & Ho). rewrite (Hend k g Hk) in Hb, Ho. destruct Ho as [_ ->].
    destruct rest; [|done]. by rewrite app_nil_r, <- Hl, firstn_all. }
  split_and!.
  - apply map_eq. intros x. apply (gi_free _ _ _ _ Hi). intros k g Hk Hw. by destruct (Hnw k g Hk).
  - rewrite Hc. f_equal. assert (sum es = 0); [|lia]. assert (Hz : Forall (λ e, e = 0) es).
    { apply Forall_lookup_2. intros k e Hek. destruct (lookup_lt_is_Some_2 jobs k) as [js Hj]; [rewrite <- Hlen, <- He; by eapply lookup_lt_Some|].
      destruct (Hgo k js Hj) as (g & _ & H0 & _). congruence. }
    clear -Hz. induction Hz as [|e es -> _ IH]; [done|]. simpl. by rewrite IH.
  - destruct (gi_serial _ _ _ _ Hi) as (rest & Es & Er & Hr). exists rest. split; [done|]. apply Forall_lookup_2. intros k js Hk.
    destruct (lookup_lt_is_Some_2 jobs k) as [js0 Hj]; [rewrite <- Er; by eapply lookup_lt_Some|].
    destruct (Hgo k js0 Hj) as (g & Hg & _ & Ht). rewrite (Hr k js0 g Hj Hg) in Hk. injection Hk as <-.
    assert (Hlj : length js0 = length (take (length (results g)) js0)) by (by rewrite <- Ht). rewrite length_take in Hlj.
    apply drop_ge. lia.
Qed.
End runs.

Lemma go_inv_start {V R} (n : Z) (jobs : list (list (command V R))) :
  n <= 2 ^ 31 → Forall (Forall keeps_to_keys) jobs →
  go_inv (Z.of_nat (length (table (@MakeConcurrent V n)))) jobs [] ∅ (go_start n jobs).1 (go_start n jobs).2.
Proof.
  intros Hn Hjobs. destruct (make_fits (V := V) n Hn) as (Hf & He & Hc). set (N := Z.of_nat (length (table (@MakeConcurrent V n)))).
  assert (Hlk : locks <$> (go_start n jobs).1 = start N ((λ js : list (command V R), keys_of <$> js) <$> jobs)).
  { unfold go_start, start. simpl. rewrite <- !list_fmap_compose. done. }
  split; [rewrite Hlk; apply inv_start|done|done| | |].
  - exists (replicate (length jobs) 0). split_and!; [by simpl; rewrite length_replicate, length_fmap| |].
    + simpl. rewrite Hc. assert (sum (replicate (length jobs) 0) = 0) as -> by (clear; by induction jobs). by rewrite map_size_empty.
    + intros k g js e Hk Hj [-> _]%lookup_replicate. simpl in Hk. rewrite list_lookup_fmap, Hj in Hk. injection Hk as <-.
      assert (Hb : bodies ((keys_of <$> js) ≫= run_job N) = length js) by (by rewrite bodies_jobs, length_fmap).
      match goal with |- go_ok _ _ ?g0 _ _ _ => set (g := g0) end.
      destruct (decide (working (locks g))) as [[td Ht]|Hno].
      * eapply (go_ok_enter N js g [] js td); try done; [by eapply Forall_lookup_1|apply (shaped_jobs N _ []); done|].
        intros x w Hx. by apply elem_of_nil in Hx.
      * eapply (not_working_ok N js g [] js); try done. intros td Ht. apply Hno. by exists td.
  - intros x _. simpl. by rewrite He.
  - exists jobs. simpl. split_and!; [|done|].
    + do 2 f_equal. rewrite <- list_fmap_compose. clear. induction jobs as [|js jobs IH]; [done|]. simpl. by rewrite IH.
    + intros k js g Hj Hk. rewrite list_lookup_fmap, Hj in Hk. by injection Hk as <-.
Qed.

(** C3: goroutines that run commands between [RWLocks] and [RWUnLocks] of their
    keys, on a sharded dict of any number of shards: whatever the interleaving of
    the single accesses, the results in any state that is reached are those of
    commands executed one after another on one Go map; what has been executed
    later comes later in that order; some goroutine can go on until all have
    ended, and then all commands have been executed, the dict has the entries of
    the Go map and its counter counts them. *)
Theorem locked_commands_are_serializable {V R} (n : Z) (jobs : list (list (command V R))) s s' :
  n <= 2 ^ 31 → Forall (Forall keeps_to_keys) jobs →
  rtc (go_step false) (go_start n jobs) s → rtc (go_step false) s s' →
  ∃ order more m m' rest rest',
    serial MakeSimple jobs (replicate (length jobs) []) order = Ret (m, rest, results <$> s.1) ∧
    serial MakeSimple jobs (replicate (length jobs) []) (order ++ more) = Ret (m', rest', results <$> s'.1) ∧
    ((∃ s'', go_step true s' s'') ∨
     all_ended s'.1 ∧ Forall (λ js, js = []) rest' ∧ cmap s'.2 = SimpleDict.m m' ∧
       Len s'.2 = Ret (wrap32 (Z.of_nat (size (cmap s'.2))))).
Proof.
  intros Hn Hjobs H1 H2. destruct (inv_go_steps _ jobs Hjobs _ _ _ _ H1 (go_inv_start n jobs Hn Hjobs)) as (order & M & Hi).
  destruct (inv_go_steps _ jobs Hjobs _ _ _ _ H2 Hi) as (more & M' & Hi'). simpl in *.
  destruct (gi_serial _ _ _ _ _ _ Hi) as (rest & Es & _). destruct (gi_serial _ _ _ _ _ _ Hi') as (rest' & Es' & _).
  exists order, more, (MkSimple M), (MkSimple M'), rest, rest'. split_and!; [done..|].
  destruct (go_progress _ jobs Hjobs _ _ _ _ Hi') as [Hend|[s'' Hst]]; [right|left; destruct s'; by exists s''].
  destruct (go_end_state _ jobs _ _ _ _ Hi' Hend) as (Em & Ec & rest2 & Es2 & Hr). rewrite Es' in Es2. injection Es2 as <-.
  split_and!; [done..|]. unfold Len. by rewrite Ec, Em.
Qed.

(** ** Two counters *)

(** Reads a number and stores the next one; the result is the number. *)
Definition incr_calls (key : bytes) : body Z Z :=
  Call (CGet key) (λ a, let v := default 0 a.1 in Call (CPut key (v + 1)) (λ _, Return v)).
Definition incr_locked (key : bytes) : command Z Z := MkCommand [key] [] (incr_calls key).

(** The same by a command that announces no key. *)
Definition incr_unlocked (key : bytes) : command Z Z := MkCommand [] [] (incr_calls key).

Lemma incr_keeps_to_keys key : keeps_to_keys (incr_locked key).
Proof. unfold keeps_to_keys. simpl. split; [by left|]. intros a. split; [by left|done]. Qed.

(** Both goroutines have called [Lock], and the first has the lock and has read. *)
Definition two_incr : list (list (command Z Z)) := [[incr_locked (str "x")]; [incr_locked (str "x")]].

Lemma two_incr_reached : ∃ s, rtc (go_step false) (go_start 1 two_incr) s ∧ Exists (λ g, working (locks g)) s.1.
Proof.
  eexists. split.
  { eapply rtc_l; [eapply (go_sync _ _ _ 1%nat); [reflexivity|done|eapply (step_call _ _ 1%nat); reflexivity]|].
    eapply rtc_l; [eapply (go_sync _ _ _ 0%nat); [reflexivity|done|eapply (step_call _ _ 0%nat); reflexivity]|].
    eapply rtc_l; [eapply (go_sync _ _ _ 0%nat); [reflexivity|done|eapply (step_lock _ _ 0%nat); [reflexivity|]]|].
    { intros [|[|k]] t Ht w Hh; cbn in Ht; [injection Ht as <-; by apply elem_of_nil in Hh..|done]. }
    eapply rtc_l; [eapply (go_access _ _ _ 0%nat); reflexivity|apply rtc_refl]. }
  apply Exists_exists. eexists. split; [by left|]. by eexists.
Qed.

Lemma locked_commands_are_serializable_witness :
  ∃ s order m rest, rtc (go_step false) (go_start 1 two_incr) s ∧
    serial MakeSimple two_incr [[]; []] order = Ret (m, rest, results <$> s.1) ∧
    ((∃ s'', go_step true s s'') ∨ all_ended s.1).
Proof.
  destruct two_incr_reached as (s & Hr & _). exists s.
  destruct (locked_commands_are_serializable 1 two_incr (go_start 1 two_incr) s) as (order & more & m & m' & rest & rest' & _ & E & P).
  - lia.
  - repeat constructor; apply incr_keeps_to_keys.
  - apply rtc_refl.
  - exact Hr.
  - exists (order ++ more), m', rest'. split; [exact Hr|]. split; [exact E|]. destruct P as [P|(P & _)]; [by left|by right].
Defined.

(** Commands that do not announce the keys they write lose updates: two
    goroutines increment the same number, and both find none. *)
Lemma unannounced_keys_lose_updates :
  ∃ s, rtc (go_step false) (go_start 1 [[incr_unlocked (str "x")]; [incr_unlocked (str "x")]]) s ∧
    results <$> s.1 = [[0]; [0]] ∧ all_ended s.1 ∧ cmap s.2 !! str "x" = Some 1.
Proof.
  eexists. split.
  { eapply rtc_l; [eapply (go_access _ _ _ 0%nat); reflexivity|].
    eapply rtc_l; [eapply (go_access _ _ _ 1%nat); reflexivity|].
    do 3 (eapply rtc_l; [eapply (go_access _ _ _ 0%nat); reflexivity|]).
    eapply rtc_l; [eapply (go_end _ _ _ 0%nat); reflexivity|].
    do 2 (eapply rtc_l; [eapply (go_access _ _ _ 1%nat); reflexivity|]).
    eapply rtc_l; [eapply (go_end _ _ _ 1%nat); reflexivity|apply rtc_refl]. }
  split_and!; [reflexivity| |reflexivity]. intros [|[|k]] g Hk; cbn in Hk; [by injection Hk as <-..|done].
Qed.
