(* ===== verification/Stream.v ===== *)
(** * Streams: [internal/datastruct/stream]

    [stream.go] and [group.go].  Identifiers are pairs of uint64.  The pending
    entries of a group are objects that the group and its consumers share, so
    they live in a small heap of the group. *)

From stdpp Require Import base gmap list sorting strings.
From Stdlib Require Import ZArith Lia Ascii.
From S2P Require Import Prelude Strconv.

Local Open Scope Z_scope.

Definition maxMs : Z := 2 ^ 64 - 1.
Definition maxSeq : Z := 2 ^ 64 - 1.

Record StreamID := MkID { Ms : Z; Seq : Z }.

#[export] Instance StreamID_eq_dec : EqDecision StreamID.
Proof. solve_decision. Defined.
#[export] Instance StreamID_countable : Countable StreamID.
Proof. refine (inj_countable' (λ id, (Ms id, Seq id)) (λ p, MkID (fst p) (snd p)) _). by intros []. Defined.

Definition Greater (a b : StreamID) : bool := (Ms b <? Ms a) || ((Ms a =? Ms b) && (Seq b <? Seq a)).

(** ** Text *)

Definition String (id : StreamID) : bytes := Itoa (Ms id) ++ str "-" ++ Itoa (Seq id).

(** [strconv.ParseUint] in base 10 with 64 bits: digits only. *)
Definition ParseUint (s : bytes) : option Z :=
  if negb (bool_decide (s = [])) && forallb is_digit s then
    if digits_val 0 s <=? maxMs then Some (digits_val 0 s) else None
  else None.

(** [strings.SplitN(s, "-", 2)]: the part before the first dash, and the rest
    when there is one. *)
Fixpoint split_dash (s : bytes) : bytes * option bytes :=
  match s with
  | [] => ([], None)
  | c :: r => if bool_decide (c = Zbyte 45) then ([], Some r)
              else let '(a, b) := split_dash r in (c :: a, b)
  end.

(** [None] is the error; the flag says that the sequence is "*". *)
Definition ParseID (s : bytes) : option (StreamID * bool) :=
  if bytes_eqb s (str "+") then Some (MkID maxMs maxSeq, false)
  else if bytes_eqb s (str "-") then Some (MkID 0 0, false)
  else
    let '(p0, p1) := split_dash s in
    match ParseUint p0 with
    | None => None
    | Some ms =>
        match p1 with
        | None => Some (MkID ms 0, false)
        | Some q =>
            if bytes_eqb q (str "*") then Some (MkID ms 0, true)
            else match ParseUint q with None => None | Some seq => Some (MkID ms seq, false) end
        end
    end.

(** ** Groups *)

Record PendingEntry := MkPE { PConsumer : bytes; DeliveryTime : Z; DeliveryCount : Z }.

(** Pointers into the heap of pending entries. *)
Abbreviation peref := nat.

Record Consumer := MkConsumer { CPending : gmap StreamID peref; ActiveTime : Z }.

Record Group := MkGroup {
  lastDelivered : StreamID;
  entriesRead : Z;
  pending : gmap StreamID peref;
  consumers : gmap bytes Consumer;
  pes : list PendingEntry
}.

Definition newGroup (startID : StreamID) : Group := MkGroup startID 0 ∅ ∅ [].

(** ** Streams *)

Record Entry := MkEntry { ID : StreamID; Fields : list (bytes * bytes) }.

Record Stream := MkStream {
  entries : list Entry;
  lastID : StreamID;
  maxDeletedID : StreamID;
  entriesAdded : Z;
  length_ : Z;
  groups : gmap bytes Group
}.

Definition New : Stream := MkStream [] (MkID 0 0) (MkID 0 0) 0 0 ∅.

Inductive stream_err := ErrZeroID | ErrSmallID | ErrBusyGroup.

(** [NotifyNewEntry] has an empty body. *)
Definition Add (s : Stream) (id : StreamID) (fields : list (bytes * bytes)) : (stream_err + StreamID) * Stream :=
  if (Ms id =? 0) && (Seq id =? 0) then (inl ErrZeroID, s)
  else if negb (Greater id (lastID s)) then (inl ErrSmallID, s)
  else (inr id, MkStream (entries s ++ [MkEntry id fields]) id (maxDeletedID s) (u64 (entriesAdded s + 1)) (u64 (length_ s + 1)) (groups s)).

Definition AddAutoAssign (s : Stream) (msHint : Z) (fields : list (bytes * bytes)) : (stream_err + StreamID) * Stream :=
  let id := if msHint <=? Ms (lastID s) then MkID (Ms (lastID s)) (u64 (Seq (lastID s) + 1)) else MkID msHint 0 in
  Add s id fields.

(** [int(s.length)] *)
Definition Len (s : Stream) : Z := wrap64 (length_ s).

Definition in_range (start end_ : StreamID) (id : StreamID) : bool :=
  ((Ms start =? 0) && (Seq start =? 0) || negb (Greater start id)) &&
  ((Ms end_ =? maxMs) && (Seq end_ =? maxSeq) || negb (Greater id end_)).

(** The loop of [Range] and [RevRange], over the entries in the order visited. *)
Fixpoint range_loop (start end_ : StreamID) (count : Z) (es result : list Entry) : list Entry :=
  match es with
  | [] => result
  | e :: es =>
      if in_range start end_ (ID e) then
        let result := result ++ [e] in
        if (0 <? count) && (count <=? Z.of_nat (length result)) then result else range_loop start end_ count es result
      else range_loop start end_ count es result
  end.
Definition Range (s : Stream) (start end_ : StreamID) (count : Z) : list Entry := range_loop start end_ count (entries s) [].
Definition RevRange (s : Stream) (start end_ : StreamID) (count : Z) : list Entry :=
  range_loop start end_ count (reverse (entries s)) [].

Definition max_id (a b : StreamID) : StreamID := if Greater b a then b else a.

(** The loop of [Delete]: the entries kept, the number deleted, the largest
    identifier deleted. *)
Definition delete_step (ids : list StreamID) (acc : list Entry * Z * StreamID) (e : Entry) : list Entry * Z * StreamID :=
  let '(kept, deleted, maxDel) := acc in
  if bool_decide (ID e ∈ ids) then (kept, deleted + 1, max_id maxDel (ID e)) else (kept ++ [e], deleted, maxDel).
Definition Delete (s : Stream) (ids : list StreamID) : Z * Stream :=
  let '(kept, deleted, maxDel) := foldl (delete_step ids) ([], 0, maxDeletedID s) (entries s) in
  (deleted, MkStream kept (lastID s) maxDel (entriesAdded s) (u64 (length_ s - deleted)) (groups s)).

Definition TrimMaxLen (s : Stream) (maxLen : Z) (approx : bool) : Z * Stream :=
  let n := Z.of_nat (length (entries s)) in
  if (maxLen <=? 0) || (n <=? maxLen) then (0, s) else
  let toRemove := n - maxLen in
  let chunk := if approx then if 100 <? toRemove then Some (toRemove - Z.rem toRemove 100) else None else Some toRemove in
  match chunk with
  | None => (0, s)
  | Some toRemove =>
      let removed := take (Z.to_nat toRemove) (entries s) in
      let maxDel := match last removed with Some e => max_id (maxDeletedID s) (ID e) | None => maxDeletedID s end in
      (toRemove, MkStream (drop (Z.to_nat toRemove) (entries s)) (lastID s) maxDel (entriesAdded s) (u64 (length_ s - toRemove)) (groups s))
  end.

(** The largest deleted identifier is updated before the test for
    approximation. *)
Definition trim_step (minID : StreamID) (acc : list Entry * Z * StreamID) (e : Entry) : list Entry * Z * StreamID :=
  let '(kept, removed, maxDel) := acc in
  if Greater (ID e) minID || bool_decide (ID e = minID) then (kept ++ [e], removed, maxDel)
  else (kept, removed + 1, max_id maxDel (ID e)).
Definition TrimMinID (s : Stream) (minID : StreamID) (approx : bool) : Z * Stream :=
  let '(kept, removed, maxDel) := foldl (trim_step minID) ([], 0, maxDeletedID s) (entries s) in
  if approx && (removed <? 100) then
    (0, MkStream (entries s) (lastID s) maxDel (entriesAdded s) (length_ s) (groups s))
  else (removed, MkStream kept (lastID s) maxDel (entriesAdded s) (u64 (length_ s - removed)) (groups s)).

Definition SetID (s : Stream) (id : StreamID) (added : Z) (maxDel : StreamID) : Stream :=
  MkStream (entries s) id (max_id (maxDeletedID s) maxDel) (if 0 <? added then added else entriesAdded s) (length_ s) (groups s).

Definition set_groups (s : Stream) g : Stream :=
  MkStream (entries s) (lastID s) (maxDeletedID s) (entriesAdded s) (length_ s) g.

Definition CreateGroup (s : Stream) (name : bytes) (startID : StreamID) : (stream_err + unit) * Stream :=
  match groups s !! name with
  | Some _ => (inl ErrBusyGroup, s)
  | None => (inr tt, set_groups s (<[name := newGroup startID]> (groups s)))
  end.
Definition GetGroup (s : Stream) (name : bytes) : option Group := groups s !! name.
Definition DestroyGroup (s : Stream) (name : bytes) : bool * Stream :=
  match groups s !! name with
  | None => (false, s)
  | Some _ => (true, set_groups s (delete name (groups s)))
  end.

(** ** Operations of a group *)

Definition getOrCreateConsumer (g : Group) (name : bytes) : Consumer * Group :=
  match consumers g !! name with
  | Some c => (c, g)
  | None => let c := MkConsumer ∅ 0 in
            (c, MkGroup (lastDelivered g) (entriesRead g) (pending g) (<[name := c]> (consumers g)) (pes g))
  end.

(** One entry of the loop of [ReadNew]. *)
Definition deliver (name : bytes) (now : Z) (g : Group) (e : Entry) : Group :=
  let r := length (pes g) in
  let c := default (MkConsumer ∅ 0) (consumers g !! name) in
  MkGroup (if Greater (ID e) (lastDelivered g) then ID e else lastDelivered g) (entriesRead g)
    (<[ID e := r]> (pending g)) (<[name := MkConsumer (<[ID e := r]> (CPending c)) now]> (consumers g))
    (pes g ++ [MkPE name now 1]).

Definition read_start (g : Group) : StreamID :=
  if (Ms (lastDelivered g) =? 0) && (Seq (lastDelivered g) =? 0) then MkID 0 0
  else MkID (Ms (lastDelivered g)) (u64 (Seq (lastDelivered g) + 1)).

Definition ReadNew (g : Group) (s : Stream) (consumerName : bytes) (count now : Z) : list Entry * Group :=
  let es := Range s (read_start g) (MkID maxMs maxSeq) count in
  if bool_decide (length es = 0%nat) then ([], g) else
  let '(_, g) := getOrCreateConsumer g consumerName in
  let g := foldl (deliver consumerName now) g es in
  (es, MkGroup (lastDelivered g) (u64 (entriesRead g + Z.of_nat (length es))) (pending g) (consumers g) (pes g)).

(** Largest first. *)
Definition id_ge (a b : StreamID) : Prop := Greater b a = false.
#[export] Instance id_ge_dec a b : Decision (id_ge a b).
Proof. unfold id_ge. apply _. Defined.

Definition ReadPending (g : Group) (consumerName : bytes) (start end_ : StreamID) (count : Z) : list StreamID :=
  match consumers g !! consumerName with
  | None => []
  | Some c =>
      let keep '(id, r) :=
        bool_decide (Some consumerName = PConsumer <$> pes g !! (r : nat)) &&
        (Greater id start || bool_decide (id = start)) && negb (Greater id end_) in
      let ids := merge_sort id_ge (fst <$> filter (λ p, keep p = true) (map_to_list (CPending c))) in
      if (0 <? count) && (count <? Z.of_nat (length ids)) then take (Z.to_nat count) ids else ids
  end.

(** Removing an identifier from the pending list of the consumer that owns the
    entry. *)
Definition unpend (g : Group) (name : bytes) (id : StreamID) : gmap bytes Consumer :=
  match consumers g !! name with
  | Some c => <[name := MkConsumer (delete id (CPending c)) (ActiveTime c)]> (consumers g)
  | None => consumers g
  end.

Definition ack_step (acc : Z * Group) (id : StreamID) : Z * Group :=
  let '(acked, g) := acc in
  match pending g !! id with
  | None => (acked, g)
  | Some r =>
      let owner := default [] (PConsumer <$> pes g !! r) in
      (acked + 1, MkGroup (lastDelivered g) (entriesRead g) (delete id (pending g)) (unpend g owner id) (pes g))
  end.
Definition Ack (g : Group) (ids : list StreamID) : Z * Group := foldl ack_step (0, g) ids.

Definition PendingCount (g : Group) : Z := Z.of_nat (size (pending g)).

(** One identifier of [Claim]: the entry is created when it is missing, and it is
    changed in place. *)
Definition claim_step (newConsumer : bytes) (minIdleTime now : Z) (force : bool) (acc : list StreamID * Group) (id : StreamID) :
    list StreamID * Group :=
  let '(claimed, g) := acc in
  let entry := r ← pending g !! id; pe ← pes g !! r; Some (r, pe) in
  let skip := match entry with
              | None => negb force
              | Some (_, pe) => negb force && (wrap64 (now - DeliveryTime pe) <? minIdleTime)
              end in
  if skip : bool then (claimed, g) else
  let cs := match entry with Some (_, pe) => unpend g (PConsumer pe) id | None => consumers g end in
  let '(r, old, heap) := match entry with
                         | Some (r, pe) => (r, pe, pes g)
                         | None => (length (pes g), MkPE [] 0 0, pes g ++ [MkPE [] 0 0])
                         end in
  let heap := <[r := MkPE newConsumer now (u64 (DeliveryCount old + 1))]> heap in
  let c := default (MkConsumer ∅ 0) (cs !! newConsumer) in
  (claimed ++ [id],
   MkGroup (lastDelivered g) (entriesRead g) (<[id := r]> (pending g))
     (<[newConsumer := MkConsumer (<[id := r]> (CPending c)) now]> cs) heap).
Definition Claim (g : Group) (newConsumer : bytes) (minIdleTime now : Z) (ids : list StreamID) (force : bool) : list StreamID * Group :=
  let '(_, g) := getOrCreateConsumer g newConsumer in
  foldl (claim_step newConsumer minIdleTime now force) ([], g) ids.

Definition group_SetID (g : Group) (id : StreamID) : Group :=
  MkGroup id (entriesRead g) (pending g) (consumers g) (pes g).
Definition Lag (g : Group) (streamEntriesAdded : Z) : Z :=
  if streamEntriesAdded <? entriesRead g then 0 else streamEntriesAdded - entriesRead g.
Definition SetEntriesRead (g : Group) (n : Z) : Group := MkGroup (lastDelivered g) n (pending g) (consumers g) (pes g).

Definition RestorePending (g : Group) (id : StreamID) (consumerName : bytes) (deliveryTime deliveryCount : Z) : Group :=
  let r := length (pes g) in
  let g := MkGroup (lastDelivered g) (entriesRead g) (<[id := r]> (pending g)) (consumers g) (pes g ++ [MkPE consumerName deliveryTime deliveryCount]) in
  let '(c, g) := getOrCreateConsumer g consumerName in
  MkGroup (lastDelivered g) (entriesRead g) (pending g) (<[consumerName := MkConsumer (<[id := r]> (CPending c)) (ActiveTime c)]> (consumers g)) (pes g).

(** The pending entry behind a pointer. *)
Definition pending_entry (g : Group) (r : peref) : PendingEntry := default (MkPE [] 0 0) (pes g !! r).
