(* ===== verification/StreamThm.v ===== *)
(** * What streams and consumer groups guarantee *)

From stdpp Require Import base gmap list sorting relations strings.
From Stdlib Require Import ZArith Lia Ascii.
From S2P Require Import Prelude Strconv Stream.

Local Open Scope Z_scope.

(** ** The order of identifiers *)

Definition idlt (a b : StreamID) : Prop := Greater b a = true.

Lemma Greater_spec a b : Greater a b = true ↔ Ms b < Ms a ∨ (Ms a = Ms b ∧ Seq b < Seq a).
Proof. unfold Greater. rewrite orb_true_iff, andb_true_iff, !Z.ltb_lt, Z.eqb_eq. done. Qed.

Lemma Greater_false a b : Greater a b = false ↔ idlt a b ∨ a = b.
Proof.
  unfold idlt. destruct a as [m s], b as [m' s']. rewrite <- not_true_iff_false, !Greater_spec. cbn. split.
  - intros H. destruct (Z.lt_trichotomy m m') as [?|[->|?]]; [left; lia| |lia].
    destruct (Z.lt_trichotomy s s') as [?|[->|?]]; [left; lia|by right|lia].
  - intros [?|[= -> ->]]; lia.
Qed.

Lemma idlt_irrefl a : ¬ idlt a a.
Proof. unfold idlt. rewrite Greater_spec. lia. Qed.

Lemma idlt_trans a b c : idlt a b → idlt b c → idlt a c.
Proof. unfold idlt. rewrite !Greater_spec. lia. Qed.

Lemma idle_lt_trans a b c : Greater a b = false → idlt b c → idlt a c.
Proof. intros [H| ->]%Greater_false; [by apply idlt_trans|done]. Qed.

Lemma idlt_le_trans a b c : idlt a b → Greater b c = false → idlt a c.
Proof. intros Ha [H| ->]%Greater_false; [by eapply idlt_trans|done]. Qed.

(** A uint64 identifier other than 0-0, whose successor exists. *)
Definition id_ok (id : StreamID) : Prop := 0 <= Ms id <= maxMs ∧ 0 <= Seq id < maxSeq.
Definition id_pos (id : StreamID) : Prop := id_ok id ∧ idlt (MkID 0 0) id.

(** ** Ranges *)

(** At most [count] elements when [count] is positive. *)
Definition limited {A} (count : Z) (l : list A) : list A := if 0 <? count then take (Z.to_nat count) l else l.

Lemma range_loop_spec a b count es result :
  (0 < count → Z.of_nat (length result) < count) →
  range_loop a b count es result = limited count (result ++ filter (λ e, in_range a b (ID e) = true) es).
Proof.
  unfold limited. revert result. induction es as [|e es IH]; intros result Hr; cbn [range_loop].
  - rewrite app_nil_r. destruct (Z.ltb_spec 0 count); [|done]. rewrite take_ge by lia. done.
  - destruct (in_range a b (ID e)) eqn:He.
    + rewrite filter_cons_True by done. set (fs := filter _ es) in *.
      assert (Hm : result ++ e :: fs = (result ++ [e]) ++ fs) by (by rewrite <- app_assoc). rewrite Hm.
      destruct (Z.ltb_spec 0 count) as [Hc|Hc]; cbn [andb].
      * destruct (Z.leb_spec count (Z.of_nat (length (result ++ [e])))) as [Hl|Hl].
        -- rewrite length_app in Hl. cbn in Hl. symmetry. apply take_app_length'. rewrite length_app. cbn. specialize (Hr Hc). lia.
        -- rewrite IH by done. destruct (Z.ltb_spec 0 count); [done|lia].
      * rewrite IH by lia. destruct (Z.ltb_spec 0 count); [lia|done].
    + rewrite filter_cons_False by (by rewrite He). by apply IH.
Qed.

(** ** The invariant of a stream *)

Definition sorted (l : list StreamID) : Prop := StronglySorted idlt l.

Record stream_ok (s : Stream) : Prop := {
  so_sorted : sorted (ID <$> entries s);
  so_pos : Forall (λ e, id_pos (ID e)) (entries s);
  so_last : Forall (λ e, Greater (ID e) (lastID s) = false) (entries s);
  so_length : length_ s = u64 (Z.of_nat (length (entries s)))
}.

Lemma u64_add a b : u64 (u64 a + b) = u64 (a + b).
Proof. unfold u64. by rewrite Zplus_mod_idemp_l. Qed.

Lemma sorted_snoc l x : sorted l → Forall (λ y, idlt y x) l → sorted (l ++ [x]).
Proof.
  intros Hs Hx. induction Hs as [|y l Hs IH Hy]; [by repeat constructor|]. apply Forall_cons in Hx as [Hyx Hx].
  cbn. constructor; [by apply IH|]. apply Forall_app. split; [done|by constructor].
Qed.

Lemma Forall_sub {A} (P : A → Prop) l k : k `sublist_of` l → Forall P l → Forall P k.
Proof. induction 1; intros HP; [done|..]; apply Forall_cons in HP as [? ?]; auto. Qed.

Lemma sorted_sublist l k : k `sublist_of` l → sorted l → sorted k.
Proof.
  induction 1 as [|x k l Hkl IH|x k l Hkl IH]; intros Hs; [constructor|..]; apply StronglySorted_inv in Hs as [Hs Hx].
  - constructor; [by apply IH|]. by eapply Forall_sub.
  - by apply IH.
Qed.

(** What removes entries keeps the invariant. *)
Lemma stream_ok_sub s s' :
  entries s' `sublist_of` entries s → lastID s' = lastID s → length_ s' = u64 (Z.of_nat (length (entries s'))) → stream_ok s → stream_ok s'.
Proof.
  intros Hsub Hlast Hlen [Hs Hp Hl _]. split; [|..|done].
  - eapply sorted_sublist; [|exact Hs]. by apply fmap_sublist.
  - by eapply Forall_sub.
  - rewrite Hlast. by eapply Forall_sub.
Qed.

(** The loops that split the entries: those kept, in order, the number of the
    others, and the largest of their identifiers. *)
Lemma split_loop (keep : Entry → bool) step es :
  (∀ k n m e, step (k, n, m) e = if keep e then (k ++ [e], n, m) else (k, n + 1, max_id m (ID e))) →
  ∀ k n m, foldl step (k, n, m) es =
    (k ++ filter (λ e, keep e = true) es, n + Z.of_nat (length (filter (λ e, keep e = false) es)),
     foldl max_id m (ID <$> filter (λ e, keep e = false) es)).
Proof.
  intros Hstep. induction es as [|e es IH]; intros k n m; cbn [foldl].
  - rewrite app_nil_r, Z.add_0_r. done.
  - rewrite Hstep. destruct (keep e) eqn:He.
    + rewrite IH, filter_cons_True, filter_cons_False by (rewrite He; done). by rewrite <- app_assoc.
    + rewrite IH, filter_cons_False, filter_cons_True by (rewrite He; done). cbn [length fmap list_fmap foldl]. do 2 f_equal. lia.
Qed.

Lemma filter_lengths (keep : Entry → bool) es :
  length es = (length (filter (λ e, keep e = true) es) + length (filter (λ e, keep e = false) es))%nat.
Proof.
  induction es as [|e es IH]; [done|]. destruct (keep e) eqn:He.
  - rewrite filter_cons_True, filter_cons_False by (rewrite He; done). cbn. lia.
  - rewrite filter_cons_False, filter_cons_True by (rewrite He; done). cbn. lia.
Qed.

Definition kept_ids (ids : list StreamID) (e : Entry) : bool := negb (bool_decide (ID e ∈ ids)).
Definition kept_min (minID : StreamID) (e : Entry) : bool := negb (Greater minID (ID e)).

Lemma Delete_spec s ids :
  Delete s ids =
  (Z.of_nat (length (filter (λ e, kept_ids ids e = false) (entries s))),
   MkStream (filter (λ e, kept_ids ids e = true) (entries s)) (lastID s)
     (foldl max_id (maxDeletedID s) (ID <$> filter (λ e, kept_ids ids e = false) (entries s))) (entriesAdded s)
     (u64 (length_ s - Z.of_nat (length (filter (λ e, kept_ids ids e = false) (entries s))))) (groups s)).
Proof.
  unfold Delete. rewrite (split_loop (kept_ids ids)); [by rewrite Z.add_0_l|].
  intros k n m e. unfold delete_step, kept_ids. by case_bool_decide.
Qed.

Lemma TrimMinID_spec s minID approx :
  let gone := filter (λ e, kept_min minID e = false) (entries s) in
  let maxDel := foldl max_id (maxDeletedID s) (ID <$> gone) in
  TrimMinID s minID approx =
  if approx && (Z.of_nat (length gone) <? 100) then (0, MkStream (entries s) (lastID s) maxDel (entriesAdded s) (length_ s) (groups s))
  else (Z.of_nat (length gone), MkStream (filter (λ e, kept_min minID e = true) (entries s)) (lastID s) maxDel (entriesAdded s)
          (u64 (length_ s - Z.of_nat (length gone))) (groups s)).
Proof.
  unfold TrimMinID. rewrite (split_loop (kept_min minID)); [by rewrite Z.add_0_l|]. intros k n m e. unfold trim_step, kept_min.
  destruct (Greater minID (ID e)) eqn:Hg; cbn [negb].
  - assert (Greater (ID e) minID = false) as -> by (apply Greater_false; by left).
    rewrite bool_decide_false; [done|]. intros Heq. rewrite Heq in Hg. by apply idlt_irrefl in Hg.
  - apply Greater_false in Hg as [Hg| ->]; [unfold idlt in Hg; by rewrite Hg|]. by rewrite bool_decide_true, orb_true_r.
Qed.

(** A filtered stream is a stream. *)
Lemma stream_ok_filter s (keep : Entry → bool) maxDel added :
  stream_ok s →
  stream_ok (MkStream (filter (λ e, keep e = true) (entries s)) (lastID s) maxDel added
               (u64 (length_ s - Z.of_nat (length (filter (λ e, keep e = false) (entries s))))) (groups s)).
Proof.
  intros Hok. apply (stream_ok_sub s); [apply sublist_filter|done| |done]. destruct Hok as [_ _ _ ->]. cbn.
  unfold Z.sub. rewrite u64_add. f_equal. pose proof (filter_lengths keep (entries s)). lia.
Qed.

Lemma Delete_ok s ids n s' : stream_ok s → Delete s ids = (n, s') → stream_ok s'.
Proof. intros Hok. rewrite Delete_spec. intros [= _ <-]. by apply stream_ok_filter. Qed.

Lemma TrimMinID_ok s minID approx n s' : stream_ok s → TrimMinID s minID approx = (n, s') → stream_ok s'.
Proof.
  intros Hok. rewrite TrimMinID_spec. cbn zeta. destruct (_ && _); intros [= _ <-]; [by destruct Hok|by apply stream_ok_filter].
Qed.

Lemma TrimMaxLen_ok s maxLen approx n s' : stream_ok s → TrimMaxLen s maxLen approx = (n, s') → stream_ok s'.
Proof.
  intros Hok. unfold TrimMaxLen. destruct (Z.leb_spec maxLen 0); cbn [orb]; [by intros [= _ <-]|].
  destruct (Z.leb_spec (Z.of_nat (length (entries s))) maxLen); [by intros [= _ <-]|].
  set (k := Z.of_nat (length (entries s)) - maxLen) in *. set (chunk := if approx then _ else _).
  assert (Hch : ∀ m, chunk = Some m → 0 <= m <= k).
  { unfold chunk. intros m Hm. destruct approx; [|injection Hm as <-; lia]. destruct (Z.ltb_spec 100 k); [|done]. injection Hm as <-.
    pose proof (Z.rem_bound_pos k 100). lia. }
  destruct chunk as [m|]; [|by intros [= _ <-]]. intros [= _ <-]. specialize (Hch m eq_refl).
  apply (stream_ok_sub s); [apply sublist_drop|done| |done]. destruct Hok as [_ _ _ ->]. cbn. unfold Z.sub. rewrite u64_add. f_equal.
  rewrite length_drop. lia.
Qed.

Lemma Add_ok s id fields id' s' : stream_ok s → id_ok id → Add s id fields = (inr id', s') →
  id' = id ∧ idlt (lastID s) id ∧ id_pos id ∧ stream_ok s' ∧ entries s' = entries s ++ [MkEntry id fields] ∧ lastID s' = id.
Proof.
  intros [Hs Hp Hl Hn] Hid. unfold Add. destruct ((Ms id =? 0) && (Seq id =? 0)) eqn:Hz; [done|].
  destruct (Greater id (lastID s)) eqn:Hg; cbn [negb]; [|done]. intros [= <- <-].
  assert (Hpos : id_pos id).
  { split; [done|]. apply Greater_spec. cbn. destruct Hid as [? ?]. apply andb_false_iff in Hz. rewrite !Z.eqb_neq in Hz. lia. }
  split; [done|]. split; [done|]. split; [done|]. split; [|done]. split; cbn.
  - rewrite fmap_app. apply sorted_snoc; [done|]. apply Forall_fmap. eapply Forall_impl; [exact Hl|]. intros e He. exact (idle_lt_trans _ _ _ He Hg).
  - apply Forall_app. split; [done|]. by constructor.
  - apply Forall_app. split; [|constructor; [|done]]; cbn.
    + eapply Forall_impl; [exact Hl|]. intros e He. apply Greater_false. left. exact (idle_lt_trans _ _ _ He Hg).
    + apply Greater_false. by right.
  - rewrite length_app, Hn, u64_add. f_equal. cbn. lia.
Qed.

(** ** Text *)

Definition id_u64 (id : StreamID) : Prop := 0 <= Ms id <= maxMs ∧ 0 <= Seq id <= maxSeq.

Lemma digits_u64 n : 0 <= n <= maxMs →
  forallb is_digit (Itoa n) = true ∧ Itoa n ≠ [] ∧ digits_val 0 (Itoa n) = n.
Proof.
  unfold maxMs. intros Hn. rewrite Itoa_nonneg by lia. split; [by apply digits_are_digits; [lia|]|].
  split; [apply digits_nonempty; by right|]. rewrite digits_value; [done|]. change (10 ^ Z.of_nat 20) with 100000000000000000000. lia.
Qed.

Lemma ParseUint_Itoa n : 0 <= n <= maxMs → ParseUint (Itoa n) = Some n.
Proof.
  intros Hn. destruct (digits_u64 n Hn) as (Hd & Hne & Hv). unfold ParseUint. rewrite Hd, Hv, bool_decide_false by done. cbn [negb andb].
  by rewrite (proj2 (Z.leb_le _ _)) by lia.
Qed.

Lemma split_dash_at a b : Zbyte 45 ∉ a → split_dash (a ++ str "-" ++ b) = (a, Some b).
Proof.
  induction a as [|c a IH]; intros Ha; [done|]. apply not_elem_of_cons in Ha as [Hc Ha].
  cbn [split_dash app]. rewrite bool_decide_false by congruence. by rewrite IH.
Qed.

Lemma ParseID_String id : id_u64 id → ParseID (String id) = Some (id, false).
Proof.
  intros [Hm Hs]. unfold ParseID, String. destruct (digits_u64 _ Hm) as (Hd & Hne & _).
  assert (Hhead : ∀ c, is_digit c = false → Itoa (Ms id) ++ str "-" ++ Itoa (Seq id) ≠ [c]).
  { intros c Hc Heq. destruct (Itoa (Ms id)) as [|x l]; [done|]. injection Heq as -> _. cbn in Hd. by rewrite Hc in Hd. }
  assert (Hplus : bytes_eqb (Itoa (Ms id) ++ str "-" ++ Itoa (Seq id)) (str "+") = false) by (by apply bytes_eqb_ne, Hhead).
  assert (Hminus : bytes_eqb (Itoa (Ms id) ++ str "-" ++ Itoa (Seq id)) (str "-") = false) by (by apply bytes_eqb_ne, Hhead).
  rewrite Hplus, Hminus, split_dash_at by (by apply digits_avoid). rewrite ParseUint_Itoa by done.
  assert (Hstar : bytes_eqb (Itoa (Seq id)) (str "*") = false).
  { apply bytes_eqb_ne. intros Heq. destruct (digits_u64 _ Hs) as (Hd' & _ & _). by rewrite Heq in Hd'. }
  rewrite Hstar, ParseUint_Itoa by done. by destruct id.
Qed.

(** An identifier is parsed back from its text, for all uint64 parts. *)
Theorem stream_id_round_trip id : id_u64 id → ParseID (String id) = Some (id, false).
Proof. apply ParseID_String. Qed.

Lemma stream_id_round_trip_witness : ParseID (str "18446744073709551615-7") = Some (MkID maxMs 7, false).
Proof. apply (stream_id_round_trip (MkID maxMs 7)). unfold id_u64, maxMs, maxSeq. cbn. lia. Defined.

(** ** Any use of a stream *)

Inductive sstep : Stream → Stream → Prop :=
| ss_add s id fields r s' : id_ok id → Add s id fields = (r, s') → sstep s s'
| ss_auto s ms fields s' r : id_ok (lastID s') → AddAutoAssign s ms fields = (r, s') → sstep s s'
| ss_delete s ids n s' : Delete s ids = (n, s') → sstep s s'
| ss_trim_len s maxLen approx n s' : TrimMaxLen s maxLen approx = (n, s') → sstep s s'
| ss_trim_id s minID approx n s' : TrimMinID s minID approx = (n, s') → sstep s s'
| ss_set_id s id added maxDel : Forall (λ e, Greater (ID e) id = false) (entries s) → sstep s (SetID s id added maxDel)
| ss_group s name start r s' : CreateGroup s name start = (r, s') → sstep s s'
| ss_destroy s name r s' : DestroyGroup s name = (r, s') → sstep s s'.

Lemma Add_err s id fields e s' : Add s id fields = (inl e, s') → s' = s.
Proof. unfold Add. destruct (_ && _); [by intros [= _ <-]|]. destruct (negb _); [by intros [= _ <-]|done]. Qed.

Lemma sstep_ok s s' : stream_ok s → sstep s s' → stream_ok s'.
Proof.
  intros Hok Hst. inversion Hst as [? id fields r ? Hid Ha|? ms fields ? r Hid Ha|? ids n ? Ha|? maxLen approx n ? Ha|? minID approx n ? Ha
    |? id added maxDel Hid|? name start r ? Ha|? name r ? Ha]; subst.
  - destruct r as [e|id']; [by apply Add_err in Ha as ->|]. by apply Add_ok in Ha as (_ & _ & _ & ? & _).
  - unfold AddAutoAssign in Ha. destruct r as [e|id']; [by apply Add_err in Ha as ->|].
    assert (Hlast : lastID s' = (if ms <=? Ms (lastID s) then MkID (Ms (lastID s)) (u64 (Seq (lastID s) + 1)) else MkID ms 0)).
    { unfold Add in Ha. destruct (_ && _) in Ha; [done|]. destruct (negb _) in Ha; [done|]. by injection Ha as _ <-. }
    rewrite Hlast in Hid. by apply Add_ok in Ha as (_ & _ & _ & ? & _).
  - by eapply Delete_ok.
  - by eapply TrimMaxLen_ok.
  - by eapply TrimMinID_ok.
  - destruct Hok as [Hs Hp Hl Hn]. by split.
  - unfold CreateGroup in Ha. destruct (groups s !! name); injection Ha as _ <-; [done|]. by destruct Hok.
  - unfold DestroyGroup in Ha. destruct (groups s !! name); injection Ha as _ <-; [by destruct Hok|done].
Qed.

(** Whatever operations a stream goes through, its identifiers are strictly
    increasing and at most the last identifier, its length counts its entries,
    and a range is the entries of the interval in order, or in reverse order,
    cut to the count. *)
Theorem stream_ranges_are_ordered s a b count :
  rtc sstep New s →
  sorted (ID <$> entries s) ∧ Forall (λ e, Greater (ID e) (lastID s) = false) (entries s) ∧
  length_ s = u64 (Z.of_nat (length (entries s))) ∧
  Range s a b count = limited count (filter (λ e, in_range a b (ID e) = true) (entries s)) ∧
  RevRange s a b count = limited count (reverse (filter (λ e, in_range a b (ID e) = true) (entries s))).
Proof.
  intros Hr. assert (Hok : stream_ok s).
  { assert (G : ∀ x y, rtc sstep x y → stream_ok x → stream_ok y).
    { induction 1 as [|x y z Hxy _ IH]; [done|]. intros Hx. apply IH. by eapply sstep_ok. }
    apply (G _ _ Hr). split; cbn; [constructor|constructor|constructor|done]. }
  destruct Hok as [Hs Hp Hl Hn]. split; [done|]. split; [done|]. split; [done|]. unfold Range, RevRange.
  split; rewrite range_loop_spec by (cbn; lia); [done|]. cbn [app]. by rewrite filter_reverse.
Qed.

Lemma stream_ranges_are_ordered_witness :
  Range (snd (Add New (MkID 1 0) [])) (MkID 0 0) (MkID maxMs maxSeq) 0 = [MkEntry (MkID 1 0) []].
Proof.
  assert (Hr : rtc sstep New (snd (Add New (MkID 1 0) []))).
  { apply rtc_once. eapply (ss_add _ (MkID 1 0) []); [unfold id_ok, maxMs, maxSeq; cbn; lia|vm_compute; reflexivity]. }
  exact (proj1 (proj2 (proj2 (proj2 (stream_ranges_are_ordered _ (MkID 0 0) (MkID maxMs maxSeq) 0 Hr))))).
Defined.
