(* ===== verification/StreamGroup.v ===== *)
(** * Consumer groups: pending entries and delivery *)

From stdpp Require Import base gmap list sorting relations strings.
From Stdlib Require Import ZArith Lia Ascii.
From S2P Require Import Prelude Strconv Stream StreamThm.

Local Open Scope Z_scope.

(** ** The pending lists *)

(** The list of the group and the lists of its consumers agree: every pending
    entry is listed by exactly the consumer that owns it. *)
Record group_ok (g : Group) : Prop := {
  go_owner id r : pending g !! id = Some r →
    ∃ pe c, pes g !! r = Some pe ∧ consumers g !! PConsumer pe = Some c ∧ CPending c !! id = Some r;
  go_listed name c id r : consumers g !! name = Some c → CPending c !! id = Some r →
    pending g !! id = Some r ∧ ∃ pe, pes g !! r = Some pe ∧ PConsumer pe = name;
  go_inj id id' r : pending g !! id = Some r → pending g !! id' = Some r → id = id';
  go_below id r : pending g !! id = Some r → Greater id (lastDelivered g) = false
}.

Lemma newGroup_ok startID : group_ok (newGroup startID).
Proof. split; cbn; intros *; rewrite lookup_empty; done. Qed.

Lemma go_bound g id r : group_ok g → pending g !! id = Some r → (r < length (pes g))%nat.
Proof. intros Hg Hr. destruct (go_owner g Hg _ _ Hr) as (pe & _ & Hpe & _). by eapply lookup_lt_Some. Qed.

Lemma getOrCreateConsumer_ok g name c g' :
  group_ok g → getOrCreateConsumer g name = (c, g') →
  group_ok g' ∧ consumers g' !! name = Some c ∧ lastDelivered g' = lastDelivered g ∧ pending g' = pending g ∧ pes g' = pes g.
Proof.
  intros [Ho Hl Hi Hb]. unfold getOrCreateConsumer. destruct (consumers g !! name) as [c0|] eqn:Hc; intros [= <- <-]; [done|].
  split; [|cbn; by rewrite lookup_insert_eq]. split; cbn; [|..|done|done].
  - intros id r Hr. destruct (Ho id r Hr) as (pe & c' & Hpe & Hc' & Hin). exists pe, c'. split; [done|]. split; [|done].
    rewrite lookup_insert_ne; [done|]. intros Heq. congruence.
  - intros name' c' id r [[<- <-]|[_ Hc']]%lookup_insert_Some; [by cbn; rewrite lookup_empty|]. by apply Hl.
Qed.

(** The update that [ReadNew] and [Claim] share: the entry [id], owned by [name],
    gets the pending entry [r], and [name] lists it. *)
Definition assign (g : Group) (name : bytes) (now : Z) (id : StreamID) (r : nat) (cs : gmap bytes Consumer) heap ld : Group :=
  let c := default (MkConsumer ∅ 0) (cs !! name) in
  MkGroup ld (entriesRead g) (<[id := r]> (pending g)) (<[name := MkConsumer (<[id := r]> (CPending c)) now]> cs) heap.

Lemma assign_ok g name now id r cs heap ld pe :
  group_ok g →
  heap !! r = Some pe → PConsumer pe = name →
  (∀ id' r', id' ≠ id → pending g !! id' = Some r' → r' ≠ r ∧ heap !! r' = pes g !! r') →
  (∀ n c, cs !! n = Some c → ∃ c0, consumers g !! n = Some c0 ∧ CPending c = delete id (CPending c0)) →
  (∀ n c0, consumers g !! n = Some c0 → ∃ c, cs !! n = Some c ∧ CPending c = delete id (CPending c0)) →
  (∀ id' r', pending g !! id' = Some r' → Greater id' ld = false) → Greater id ld = false →
  group_ok (assign g name now id r cs heap ld).
Proof.
  intros [Ho Hl Hi Hb] Hr Hname Hheap Hcs Hcs' Hld Hid. unfold assign. split; cbn [pending consumers pes lastDelivered].
  - intros id' r' [[<- <-]|[Hne Hr']]%lookup_insert_Some.
    + exists pe. eexists. split; [done|]. rewrite Hname. split; [apply lookup_insert_eq|]. cbn. apply lookup_insert_eq.
    + destruct (Ho id' r' Hr') as (pe' & c0 & Hpe' & Hc0 & Hin). destruct (Hheap id' r') as [Hrr Hsame]; [congruence|done|].
      destruct (Hcs' _ _ Hc0) as (c & Hc & Hcp). exists pe'. destruct (decide (PConsumer pe' = name)) as [Heq|Hneq].
      * rewrite Heq in *. eexists. split; [congruence|]. split; [apply lookup_insert_eq|]. cbn. rewrite Hc. cbn.
        rewrite lookup_insert_ne by congruence. rewrite Hcp, lookup_delete_ne by congruence. done.
      * exists c. split; [congruence|]. split; [by rewrite lookup_insert_ne by congruence|]. by rewrite Hcp, lookup_delete_ne by congruence.
  - assert (Hold : ∀ n c id' r', cs !! n = Some c → CPending c !! id' = Some r' →
      <[id := r]> (pending g) !! id' = Some r' ∧ ∃ pe, heap !! r' = Some pe ∧ PConsumer pe = n).
    { intros n c id' r' Hc Hin. destruct (Hcs _ _ Hc) as (c0 & Hc0 & Hcp). rewrite Hcp in Hin.
      apply lookup_delete_Some in Hin as [Hne Hin]. destruct (Hl _ _ _ _ Hc0 Hin) as (Hp & pe' & Hpe' & Hn).
      destruct (Hheap id' r') as [_ Hsame]; [congruence|done|]. split; [by rewrite lookup_insert_ne|]. exists pe'. by rewrite Hsame. }
    intros n c id' r' [[<- <-]|[Hne Hc]]%lookup_insert_Some; [|by apply Hold]. cbn.
    intros [[<- <-]|[Hne Hin]]%lookup_insert_Some; [rewrite lookup_insert_eq; eauto|].
    destruct (cs !! name) as [c|] eqn:Hc; cbn in Hin; [by eapply Hold|]. by rewrite lookup_empty in Hin.
  - intros id1 id2 r' [[<- <-]|[Hne1 H1]]%lookup_insert_Some [[<- ?]|[Hne2 H2]]%lookup_insert_Some; [done| |..].
    + destruct (Hheap id2 r) as [? _]; [congruence|done|done].
    + subst r'. destruct (Hheap id1 r) as [? _]; [congruence|done|done].
    + by eapply Hi.
  - intros id' r' [[<- <-]|[_ Hr']]%lookup_insert_Some; [done|by eapply Hld].
Qed.

(** An entry that is not pending is in no list. *)
Lemma not_listed g id n c : group_ok g → pending g !! id = None → consumers g !! n = Some c → CPending c = delete id (CPending c).
Proof.
  intros Hg Hp Hc. symmetry. apply delete_id. destruct (CPending c !! id) as [r|] eqn:Hr; [|done].
  destruct (go_listed g Hg _ _ _ _ Hc Hr) as [? _]. congruence.
Qed.

Lemma deliver_ok name now g e :
  group_ok g → idlt (lastDelivered g) (ID e) → group_ok (deliver name now g e) ∧ lastDelivered (deliver name now g e) = ID e.
Proof.
  intros Hg Hlt. unfold idlt in Hlt. assert (Hnp : pending g !! ID e = None).
  { destruct (pending g !! ID e) as [r|] eqn:Hr; [|done]. pose proof (go_below g Hg _ _ Hr). congruence. }
  unfold deliver. rewrite Hlt. split; [|done].
  apply (assign_ok g name now (ID e) (length (pes g)) (consumers g) (pes g ++ [MkPE name now 1]) (ID e) (MkPE name now 1)).
  - done.
  - by apply list_lookup_middle.
  - done.
  - intros id' r' _ Hr'. pose proof (go_bound g _ _ Hg Hr'). split; [lia|]. by rewrite lookup_app_l.
  - intros n c Hc. exists c. split; [done|]. by eapply not_listed.
  - intros n c Hc. exists c. split; [done|]. by eapply not_listed.
  - intros id' r' Hr'. apply Greater_false. left. eapply idle_lt_trans; [by eapply go_below|done].
  - apply Greater_false. by right.
Qed.

(** ** New entries *)

Lemma in_range_read g id :
  id_ok (lastDelivered g) → id_pos id → in_range (read_start g) (MkID maxMs maxSeq) id = Greater id (lastDelivered g).
Proof.
  intros [Hm Hs] [[Hm' Hs'] Hpos]. apply eq_bool_prop_intro. rewrite !Is_true_true. unfold idlt in Hpos. rewrite Greater_spec in *. cbn in Hpos.
  unfold in_range, read_start. rewrite andb_true_iff, !orb_true_iff, !andb_true_iff, !negb_true_iff, !Z.eqb_eq. cbn [Ms Seq].
  rewrite <- !not_true_iff_false, !Greater_spec.
  destruct ((Ms (lastDelivered g) =? 0) && (Seq (lastDelivered g) =? 0)) eqn:Hz.
  - apply andb_true_iff in Hz as [Hz1%Z.eqb_eq Hz2%Z.eqb_eq]. cbn. unfold maxMs, maxSeq in *. lia.
  - cbn [Ms Seq]. unfold maxMs, maxSeq in *. rewrite u64_id by lia. lia.
Qed.

Lemma filter_same (f h : Entry → bool) es :
  Forall (λ e, f e = h e) es → filter (λ e, f e = true) es = filter (λ e, h e = true) es.
Proof.
  induction 1 as [|e es He _ IH]; [done|]. destruct (h e) eqn:Hh.
  - rewrite !filter_cons_True by congruence. by rewrite IH.
  - rewrite !filter_cons_False by congruence. done.
Qed.

(** The entries after the last one delivered. *)
Definition fresh (g : Group) (s : Stream) : list Entry := filter (λ e, Greater (ID e) (lastDelivered g) = true) (entries s).

Lemma ReadNew_entries g s name count now :
  stream_ok s → id_ok (lastDelivered g) → fst (ReadNew g s name count now) = limited count (fresh g s).
Proof.
  intros Hs Hg. unfold ReadNew, Range. rewrite range_loop_spec by (cbn; lia). cbn [app].
  replace (filter (λ e, in_range (read_start g) (MkID maxMs maxSeq) (ID e) = true) (entries s)) with (fresh g s).
  2:{ unfold fresh. apply filter_same. destruct Hs as [_ Hp _ _]. eapply Forall_impl; [exact Hp|].
      intros e He. by rewrite in_range_read. }
  case_bool_decide as Hn; [cbn; symmetry; by apply length_zero_iff_nil|]. destruct (getOrCreateConsumer g name). done.
Qed.

Lemma sorted_suffix g s : stream_ok s → sorted (ID <$> fresh g s).
Proof. intros [Hs _ _ _]. eapply sorted_sublist; [|exact Hs]. apply fmap_sublist, sublist_filter. Qed.

Lemma limited_split {A} count (l : list A) : ∃ rest, l = limited count l ++ rest.
Proof. unfold limited. destruct (0 <? count); [exists (drop (Z.to_nat count) l); by rewrite take_drop|exists []; by rewrite app_nil_r]. Qed.

Lemma deliver_all name now es g :
  group_ok g → sorted (lastDelivered g :: (ID <$> es)) →
  group_ok (foldl (deliver name now) g es) ∧ lastDelivered (foldl (deliver name now) g es) = default (lastDelivered g) (last (ID <$> es)).
Proof.
  revert g. induction es as [|e es IH]; intros g Hg Hs; [done|]. cbn [foldl].
  apply StronglySorted_inv in Hs as [Hs Hlt]. cbn in Hs, Hlt. apply Forall_cons in Hlt as [He Hlt].
  destruct (deliver_ok name now g e Hg He) as [Hg' Hl']. destruct (IH (deliver name now g e) Hg') as [Hg'' Hl'']; [by rewrite Hl'|].
  split; [done|]. rewrite Hl'', Hl'. rewrite fmap_cons, last_cons. by destruct (last (ID <$> es)).
Qed.

Lemma fresh_after g s : stream_ok s → sorted (lastDelivered g :: (ID <$> fresh g s)).
Proof.
  intros Hs. constructor; [by apply sorted_suffix|]. apply Forall_fmap, Forall_forall. intros e He.
  apply list_elem_of_filter in He as [He _]. done.
Qed.

(** A read delivers the next entries, and nothing before them. *)
Lemma ReadNew_ok g s name count now es g' :
  stream_ok s → group_ok g → id_ok (lastDelivered g) → ReadNew g s name count now = (es, g') →
  group_ok g' ∧ (∃ later, fresh g s = es ++ later) ∧ lastDelivered g' = default (lastDelivered g) (last (ID <$> es)).
Proof.
  intros Hs Hg Hid Hread. pose proof (ReadNew_entries g s name count now Hs Hid) as He. rewrite Hread in He. cbn in He.
  destruct (limited_split count (fresh g s)) as [later Hlater]. rewrite <- He in Hlater.
  assert (Hsub : sorted (lastDelivered g :: (ID <$> es))).
  { eapply sorted_sublist; [|by apply (fresh_after g s)]. apply sublist_skip. rewrite Hlater, fmap_app.
    apply sublist_inserts_r. done. }
  assert (Hes : Range s (read_start g) (MkID maxMs maxSeq) count = es).
  { unfold ReadNew in Hread. case_bool_decide as Hn; [injection Hread as <- _; by apply length_zero_iff_nil|].
    destruct (getOrCreateConsumer g name). by injection Hread as <- _. }
  unfold ReadNew in Hread. rewrite Hes in Hread. case_bool_decide as Hn.
  { injection Hread as _ <-. apply length_zero_iff_nil in Hn as ->. split; [done|]. split; [by exists later|done]. }
  destruct (getOrCreateConsumer g name) as [c g1] eqn:Hc. apply getOrCreateConsumer_ok in Hc as (Hg1 & _ & Hl1 & _ & _); [|done].
  rewrite <- Hl1 in Hsub. destruct (deliver_all name now es g1 Hg1 Hsub) as [Hg2 Hl2]. injection Hread as <-.
  rewrite <- Hl1. split; [by destruct Hg2|]. split; [by exists later|done].
Qed.

(** ** Acknowledging and claiming *)

(** After the entry is taken from its owner, no consumer lists it. *)
Lemma unpend_spec g id r pe :
  group_ok g → pending g !! id = Some r → pes g !! r = Some pe →
  (∀ n c, unpend g (PConsumer pe) id !! n = Some c → ∃ c0, consumers g !! n = Some c0 ∧ CPending c = delete id (CPending c0)) ∧
  (∀ n c0, consumers g !! n = Some c0 → ∃ c, unpend g (PConsumer pe) id !! n = Some c ∧ CPending c = delete id (CPending c0)).
Proof.
  intros Hg Hr Hpe. destruct (go_owner g Hg _ _ Hr) as (pe' & c1 & Hpe' & Hc1 & Hin). assert (pe' = pe) as -> by congruence.
  assert (Hother : ∀ n c, n ≠ PConsumer pe → consumers g !! n = Some c → CPending c = delete id (CPending c)).
  { intros n c Hn Hc. symmetry. apply delete_id. destruct (CPending c !! id) as [r'|] eqn:Hr'; [|done].
    destruct (go_listed g Hg _ _ _ _ Hc Hr') as (Hp & pe' & Hpe'' & Hname). congruence. }
  unfold unpend. rewrite Hc1. split.
  - intros n c [[<- <-]|[Hne Hc]]%lookup_insert_Some; [by exists c1|]. exists c. split; [done|]. apply (Hother n); [congruence|done].
  - intros n c0 Hc0. destruct (decide (n = PConsumer pe)) as [->|Hne].
    + rewrite lookup_insert_eq. eexists. split; [done|]. cbn. congruence.
    + rewrite lookup_insert_ne by congruence. exists c0. split; [done|]. by apply (Hother n).
Qed.

Lemma ack_step_ok acked g id acked' g' :
  group_ok g → ack_step (acked, g) id = (acked', g') →
  group_ok g' ∧ lastDelivered g' = lastDelivered g ∧ pending g' = delete id (pending g).
Proof.
  intros Hg. unfold ack_step. destruct (pending g !! id) as [r|] eqn:Hr; intros [= <- <-]; [|by rewrite delete_id].
  destruct (go_owner g Hg _ _ Hr) as (pe & c1 & Hpe & _). rewrite Hpe. cbn [fmap option_fmap option_map default].
  destruct (unpend_spec g id r pe Hg Hr Hpe) as [Hcs Hcs']. split; [|done]. destruct Hg as [Ho Hl Hi Hb]. split; cbn.
  - intros id' r' [Hne Hr']%lookup_delete_Some. destruct (Ho id' r' Hr') as (pe' & c0 & Hpe' & Hc0 & Hin).
    destruct (Hcs' _ _ Hc0) as (c & Hc & Hcp). exists pe', c. split; [done|]. split; [done|]. by rewrite Hcp, lookup_delete_ne.
  - intros n c id' r' Hc Hin. destruct (Hcs _ _ Hc) as (c0 & Hc0 & Hcp). rewrite Hcp in Hin. apply lookup_delete_Some in Hin as [Hne Hin].
    destruct (Hl _ _ _ _ Hc0 Hin) as (Hp & Hpe'). split; [by rewrite lookup_delete_ne|done].
  - intros id1 id2 r' [_ H1]%lookup_delete_Some [_ H2]%lookup_delete_Some. by eapply Hi.
  - intros id' r' [_ Hr']%lookup_delete_Some. by eapply Hb.
Qed.

Lemma Ack_ok g ids n g' :
  group_ok g → Ack g ids = (n, g') →
  group_ok g' ∧ lastDelivered g' = lastDelivered g ∧ ∀ id, id ∈ ids → pending g' !! id = None.
Proof.
  unfold Ack. intros Hg. enough (G : ∀ k, foldl ack_step (k, g) ids = (n, g') →
    group_ok g' ∧ lastDelivered g' = lastDelivered g ∧ (∀ id, pending g !! id = None → pending g' !! id = None) ∧
    ∀ id, id ∈ ids → pending g' !! id = None).
  { intros H. destruct (G 0 H) as (? & ? & _ & ?). done. }
  revert g Hg. induction ids as [|id ids IH]; intros g Hg k; cbn [foldl].
  - intros [= _ ->]. split; [done|]. split; [done|]. split; [done|]. intros id Hin. by apply elem_of_nil in Hin.
  - destruct (ack_step (k, g) id) as [k1 g1] eqn:H1. apply ack_step_ok in H1 as (Hg1 & Hl1 & Hp1); [|done].
    intros H. destruct (IH g1 Hg1 k1 H) as (Hg' & Hl' & Hnone & Hin). split; [done|]. split; [congruence|].
    assert (Hkeep : ∀ id', pending g !! id' = None → pending g1 !! id' = None).
    { intros id' Hn. rewrite Hp1. apply lookup_delete_None. by right. }
    split; [auto|]. intros id' [->|?]%elem_of_cons; [|auto]. apply Hnone. rewrite Hp1. apply lookup_delete_eq.
Qed.

Lemma claim_step_ok name idle now force claimed g id claimed' g' :
  group_ok g → (force = false ∨ Greater id (lastDelivered g) = false) →
  claim_step name idle now force (claimed, g) id = (claimed', g') → group_ok g' ∧ lastDelivered g' = lastDelivered g.
Proof.
  intros Hg Hleg. unfold claim_step. destruct (pending g !! id) as [r|] eqn:Hr; cbn [mbind option_bind].
  - destruct (go_owner g Hg _ _ Hr) as (pe & c1 & Hpe & _). rewrite Hpe. cbn [mbind option_bind].
    destruct (negb force && _); [by intros [= _ <-]|]. intros [= _ <-]. split; [|done].
    destruct (unpend_spec g id r pe Hg Hr Hpe) as [Hcs Hcs'].
    refine (assign_ok g name now id r (unpend g (PConsumer pe) id) (<[r := _]> (pes g)) (lastDelivered g) _ Hg _ _ _ Hcs Hcs' _ _).
    + apply list_lookup_insert_eq. by eapply lookup_lt_Some.
    + done.
    + intros id' r' Hne Hr'. assert (r' ≠ r) by (intros ->; apply Hne; by eapply (go_inj g Hg)). split; [done|]. by apply list_lookup_insert_ne.
    + intros id' r' Hr'. by eapply go_below.
    + by eapply go_below.
  - destruct force; cbn [negb]; [|by intros [= _ <-]]. intros [= _ <-]. split; [|done]. destruct Hleg as [?|Hid]; [done|].
    refine (assign_ok g name now id (length (pes g)) (consumers g) (<[length (pes g) := _]> (pes g ++ [MkPE [] 0 0])) (lastDelivered g) _ Hg _ _ _ _ _ _ _).
    + apply list_lookup_insert_eq. rewrite length_app. cbn. lia.
    + done.
    + intros id' r' Hne Hr'. pose proof (go_bound g _ _ Hg Hr'). split; [lia|]. rewrite list_lookup_insert_ne by lia. by apply lookup_app_l.
    + intros n c Hc. exists c. split; [done|]. by eapply not_listed.
    + intros n c Hc. exists c. split; [done|]. by eapply not_listed.
    + intros id' r' Hr'. by eapply go_below.
    + done.
Qed.

Lemma Claim_ok g name idle now ids force claimed g' :
  group_ok g → (force = false ∨ Forall (λ id, Greater id (lastDelivered g) = false) ids) →
  Claim g name idle now ids force = (claimed, g') → group_ok g' ∧ lastDelivered g' = lastDelivered g.
Proof.
  unfold Claim. intros Hg Hleg. destruct (getOrCreateConsumer g name) as [c g1] eqn:Hc.
  apply getOrCreateConsumer_ok in Hc as (Hg1 & _ & Hl1 & _ & _); [|done]. rewrite <- Hl1 in Hleg |- *. clear g Hg Hl1 c.
  generalize (@nil StreamID). revert g1 Hg1 Hleg. induction ids as [|id ids IH]; intros g Hg Hleg acc; cbn [foldl]; [by intros [= _ <-]|].
  destruct (claim_step name idle now force (acc, g) id) as [acc1 g1] eqn:H1.
  apply claim_step_ok in H1 as [Hg1 Hl1]; [|done|destruct Hleg as [?|Hf]; [by left|right; by apply Forall_cons in Hf as [? _]]].
  intros H. destruct (IH g1 Hg1) with (l := acc1) as [Hg' Hl']; [|done|split; [done|congruence]].
  destruct Hleg as [?|Hf]; [by left|right]. apply Forall_cons in Hf as [_ Hf]. by rewrite Hl1.
Qed.

(** ** A stream with a group *)

(** What may happen to a stream and to one of its groups, with the identifiers
    delivered so far.  Claims by force are of entries that were delivered. *)
Inductive gstep : Stream * Group * list StreamID → Stream * Group * list StreamID → Prop :=
| gs_add s g d id fields s' : id_ok id → Add s id fields = (inr id, s') → gstep (s, g, d) (s', g, d)
| gs_auto s g d ms fields id s' : id_ok id → AddAutoAssign s ms fields = (inr id, s') → gstep (s, g, d) (s', g, d)
| gs_delete s g d ids n s' : Delete s ids = (n, s') → gstep (s, g, d) (s', g, d)
| gs_trim_len s g d maxLen approx n s' : TrimMaxLen s maxLen approx = (n, s') → gstep (s, g, d) (s', g, d)
| gs_trim_id s g d minID approx n s' : TrimMinID s minID approx = (n, s') → gstep (s, g, d) (s', g, d)
| gs_read s g d name count now es g' : ReadNew g s name count now = (es, g') → gstep (s, g, d) (s, g', d ++ (ID <$> es))
| gs_ack s g d ids n g' : Ack g ids = (n, g') → gstep (s, g, d) (s, g', d)
| gs_claim s g d name idle now ids force claimed g' :
    (force = false ∨ Forall (λ id, Greater id (lastDelivered g) = false) ids) →
    Claim g name idle now ids force = (claimed, g') → gstep (s, g, d) (s, g', d).

Record delivered_ok (start : StreamID) (s : Stream) (g : Group) (d : list StreamID) : Prop := {
  do_stream : stream_ok s;
  do_group : group_ok g;
  do_last : id_ok (lastDelivered g);
  do_start : Greater start (lastDelivered g) = false;
  do_top : lastDelivered g = start ∨ Greater (lastDelivered g) (lastID s) = false;
  do_sorted : sorted d;
  do_between : Forall (λ id, idlt start id ∧ Greater id (lastDelivered g) = false) d;
  do_all e : e ∈ entries s → idlt start (ID e) → ID e ∈ d ∨ idlt (lastDelivered g) (ID e)
}.

(** Removing entries. *)
Lemma delivered_sub start s s' g d :
  (∀ e, e ∈ entries s' → e ∈ entries s) → lastID s' = lastID s → stream_ok s' → delivered_ok start s g d → delivered_ok start s' g d.
Proof. intros Hsub Hl' Hs' [Hs Hg Hl Hst Htop Hsort Hb Ha]. split; [done..|by rewrite Hl'|done|done|]. intros e He. by apply Ha, Hsub. Qed.

Lemma delivered_group start s g g' d :
  group_ok g' → lastDelivered g' = lastDelivered g → delivered_ok start s g d → delivered_ok start s g' d.
Proof. intros Hg' Hl' [Hs Hg Hl Hst Htop Hsort Hb Ha]. split; by rewrite ?Hl'. Qed.

Lemma delivered_add start s g d id fields id' s' :
  id_ok id → Add s id fields = (inr id', s') → delivered_ok start s g d → delivered_ok start s' g d.
Proof.
  intros Hid Ha [Hs Hg Hl Hst Htop Hsort Hb Hall]. destruct (Add_ok _ _ _ _ _ Hs Hid Ha) as (_ & Hlast & _ & Hs' & He & Hl').
  split; [done..| |done|done|].
  - destruct Htop as [?|Htop]; [by left|right]. rewrite Hl'. apply Greater_false. left. by eapply idle_lt_trans.
  - intros e. rewrite He. intros [Hin|[->|[]%elem_of_nil]%elem_of_cons]%elem_of_app; [by apply Hall|]. cbn. intros Hlt. right.
    destruct Htop as [->|Htop]; [done|]. by eapply idle_lt_trans.
Qed.

(** The last element of the first part of a sorted list separates the parts. *)
Lemma sorted_cut x l later :
  sorted (x :: l ++ later) →
  let y := default x (last l) in
  (y = x ∨ y ∈ l) ∧ Greater x y = false ∧ Forall (λ id, Greater id y = false) l ∧ Forall (idlt y) later.
Proof.
  revert x. induction l as [|a l IH]; intros x Hs; cbn zeta.
  - apply StronglySorted_inv in Hs as [_ Hs]. split; [by left|]. split; [apply Greater_false; by right|]. split; [constructor|done].
  - apply StronglySorted_inv in Hs as [Hs Hx]. cbn in Hs, Hx. apply Forall_cons in Hx as [Hxa _].
    destruct (IH a Hs) as (Hy & Ha & Hl & Hlater). rewrite last_cons.
    replace (default x (match last l with Some y => Some y | None => Some a end)) with (default a (last l)) by (by destruct (last l)).
    split; [right; destruct Hy as [->|?]; [by left|by right]|].
    split; [apply Greater_false; left; by eapply idlt_le_trans|]. split; [by constructor|done].
Qed.

Lemma sorted_app l k : sorted l → sorted k → (∀ x y, x ∈ l → y ∈ k → idlt x y) → sorted (l ++ k).
Proof.
  intros Hl Hk Hlk. induction Hl as [|x l Hl IH Hx]; [done|]. cbn. constructor.
  - apply IH. intros y z Hy. apply Hlk. by right.
  - apply Forall_app. split; [done|]. apply Forall_forall. intros y Hy. apply Hlk; [by left|done].
Qed.

Lemma delivered_read start s g d name count now es g' :
  ReadNew g s name count now = (es, g') → delivered_ok start s g d → delivered_ok start s g' (d ++ (ID <$> es)).
Proof.
  intros Hread [Hs Hg Hl Hst Htop Hsort Hb Hall]. destruct (ReadNew_ok _ _ _ _ _ _ _ Hs Hg Hl Hread) as (Hg' & [later Hf] & Hl').
  assert (Hin : ∀ id, id ∈ ID <$> es → (∃ e, e ∈ entries s ∧ id = ID e) ∧ idlt (lastDelivered g) id).
  { intros id (e & -> & He)%list_elem_of_fmap. assert (He' : e ∈ fresh g s) by (rewrite Hf; apply elem_of_app; by left).
    apply list_elem_of_filter in He' as [? ?]. eauto. }
  pose proof (fresh_after g s Hs) as Hfs. rewrite Hf, fmap_app in Hfs.
  destruct (sorted_cut _ _ _ Hfs) as (Hy & Hle & Hes & Hlater). rewrite <- Hl' in Hy, Hle, Hes, Hlater.
  destruct Hs as [Hso Hpos Hlast Hlen]. rewrite Forall_forall in Hpos. rewrite Forall_forall in Hlast. rewrite Forall_forall in Hlater. rewrite Forall_forall in Hb.
  split; [by split; rewrite ?Forall_forall|done|..].
  - destruct Hy as [->|Hy]; [done|]. destruct (Hin _ Hy) as [(e & He & ->) _]. by destruct (Hpos _ He).
  - destruct (proj1 (Greater_false _ _) Hst) as [Hlt| ->]; [|done]. apply Greater_false. left. by eapply idlt_le_trans.
  - destruct Hy as [->|Hy]; [done|right]. destruct (Hin _ Hy) as [(e & He & ->) _]. by apply Hlast.
  - apply sorted_app; [done| |].
    + eapply sorted_sublist; [|exact Hfs]. apply sublist_cons, sublist_inserts_r. done.
    + intros x y Hx Hyes. destruct (Hb x Hx) as [_ Hxl]. destruct (Hin y Hyes) as [_ Hyl]. by eapply idle_lt_trans.
  - apply Forall_app. split; apply Forall_forall.
    + intros id Hid. destruct (Hb id Hid) as [? Hid']. split; [done|].
      destruct (proj1 (Greater_false _ _) Hid') as [Hlt| ->]; [|done]. apply Greater_false. left. by eapply idlt_le_trans.
    + intros id Hid. rewrite Forall_forall in Hes. split; [|by apply Hes]. destruct (Hin id Hid) as [_ Hlt]. by eapply idle_lt_trans.
  - intros e He Hlt. destruct (Hall e He Hlt) as [?|Hnew]; [left; apply elem_of_app; by left|].
    assert (He' : e ∈ fresh g s) by (by apply list_elem_of_filter). rewrite Hf in He'. apply elem_of_app in He' as [He'|He'].
    + left. apply elem_of_app. right. by apply list_elem_of_fmap_2.
    + right. apply Hlater. by apply list_elem_of_fmap_2.
Qed.

Lemma AddAutoAssign_Add s ms fields id s' : AddAutoAssign s ms fields = (inr id, s') → Add s id fields = (inr id, s').
Proof.
  unfold AddAutoAssign. set (id0 := if ms <=? Ms (lastID s) then _ else _). intros H. enough (id = id0) as -> by done. unfold Add in H.
  destruct (_ && _); [done|]. destruct (negb _); [done|]. by injection H as <- _.
Qed.

Lemma gstep_ok start s g d s' g' d' : delivered_ok start s g d → gstep (s, g, d) (s', g', d') → delivered_ok start s' g' d'.
Proof.
  intros Hok Hst. inversion Hst as [? ? ? id fields ? Hid Ha|? ? ? ms fields id ? Hid Ha|? ? ? ids n ? Ha|? ? ? maxLen approx n ? Ha
    |? ? ? minID approx n ? Ha|? ? ? name count now es ? Ha|? ? ? ids n ? Ha|? ? ? name idle now ids force claimed ? Hleg Ha]; subst.
  - by eapply delivered_add.
  - apply AddAutoAssign_Add in Ha. by eapply delivered_add.
  - eapply delivered_sub; [| | |exact Hok].
    + rewrite Delete_spec in Ha. injection Ha as _ <-. cbn. intros e He. by apply list_elem_of_filter in He as [_ ?].
    + rewrite Delete_spec in Ha. by injection Ha as _ <-.
    + eapply Delete_ok; [by apply Hok|exact Ha].
  - eapply delivered_sub; [| |eapply TrimMaxLen_ok; [by apply Hok|exact Ha]|exact Hok]; unfold TrimMaxLen in Ha.
    + destruct (_ || _); [by injection Ha as _ <-|]. destruct (if approx then _ else _); injection Ha as _ <-; [|done]. cbn. intros e He.
      by eapply elem_of_sublist; [exact He|apply sublist_drop].
    + destruct (_ || _); [by injection Ha as _ <-|]. by destruct (if approx then _ else _); injection Ha as _ <-.
  - eapply delivered_sub; [| |eapply TrimMinID_ok; [by apply Hok|exact Ha]|exact Hok]; rewrite TrimMinID_spec in Ha; cbn zeta in Ha.
    + destruct (_ && _); injection Ha as _ <-; cbn; [done|]. intros e He. by apply list_elem_of_filter in He as [_ ?].
    + by destruct (_ && _); injection Ha as _ <-.
  - by eapply delivered_read.
  - apply Ack_ok in Ha as (? & ? & _); [|by apply Hok]. by eapply delivered_group.
  - apply Claim_ok in Ha as [? ?]; [|by apply Hok|done]. by eapply delivered_group.
Qed.

Lemma delivered_start start s : stream_ok s → id_ok start → delivered_ok start s (newGroup start) [].
Proof.
  intros Hs Hid. assert (Hrefl : Greater start start = false) by (apply Greater_false; by right).
  split; [done|apply newGroup_ok|done|done|by left|constructor|constructor|]. intros e _ Hlt. by right.
Qed.

Lemma gsteps_ok start s0 st : stream_ok s0 → id_ok start → rtc gstep (s0, newGroup start, []) st → let '(s, g, d) := st in delivered_ok start s g d.
Proof.
  intros Hs Hid. assert (G : ∀ a b, rtc gstep a b → (let '(s, g, d) := a in delivered_ok start s g d) → let '(s, g, d) := b in delivered_ok start s g d).
  { induction 1 as [|[[s1 g1] d1] [[s2 g2] d2] b Hst _ IH]; [done|]. intros H1. apply IH. by eapply gstep_ok. }
  intros Hr. apply (G _ _ Hr). by apply delivered_start.
Qed.

(** C22: entries are added, deleted and trimmed, and consumers of a group read,
    acknowledge and claim, in any order: the group delivers identifiers in
    increasing order, so none twice, and every entry of the stream after the
    group's start has either been delivered or is among those that the next
    unlimited read returns.  The sequence numbers are below the greatest, 2^64-1,
    the position of the group is not set by hand, and a forced claim names only
    identifiers up to that position. *)
Theorem group_delivers_once start s0 s g d :
  stream_ok s0 → id_ok start → rtc gstep (s0, newGroup start, []) (s, g, d) →
  sorted d ∧ ∀ e name now, e ∈ entries s → idlt start (ID e) →
    (ID e ∈ d ↔ e ∉ fst (ReadNew g s name 0 now)).
Proof.
  intros Hs Hid Hr. destruct (gsteps_ok start s0 _ Hs Hid Hr) as [Hs' Hg Hl Hst Htop Hsort Hb Hall]. split; [done|].
  intros e name now He Hlt. rewrite ReadNew_entries by done. unfold limited. change (0 <? 0) with false. cbn iota. unfold fresh.
  rewrite list_elem_of_filter. rewrite Forall_forall in Hb. split.
  - intros Hd [Hg' _]. destruct (Hb _ Hd) as [_ Hle]. congruence.
  - intros Hn. destruct (Hall e He Hlt) as [?|Hnew]; [done|]. by destruct Hn.
Qed.

(** C23: the pending list of a group and those of its consumers stay in agreement: an
    entry is pending in the group exactly when it is in the list of one
    consumer, the one recorded as its owner, after the steps above in any order:
    sequence numbers below 2^64-1, no XGROUP SETID, no forced claim of an
    identifier that has not been delivered.  A delivery that these exclude breaks
    the agreement. *)
Theorem pending_lists_agree start s0 s g d :
  stream_ok s0 → id_ok start → rtc gstep (s0, newGroup start, []) (s, g, d) →
  ∀ id r, pending g !! id = Some r ↔
    ∃ name c, consumers g !! name = Some c ∧ CPending c !! id = Some r ∧ PConsumer <$> pes g !! r = Some name ∧
      ∀ name' c', consumers g !! name' = Some c' → is_Some (CPending c' !! id) → name' = name.
Proof.
  intros Hs Hid Hr. destruct (gsteps_ok start s0 _ Hs Hid Hr) as [_ Hg _ _ _ _ _ _]. intros id r. split.
  - intros Hp. destruct (go_owner g Hg _ _ Hp) as (pe & c & Hpe & Hc & Hin). exists (PConsumer pe), c. split; [done|]. split; [done|].
    split; [by rewrite Hpe|]. intros name' c' Hc' [r' Hr']. destruct (go_listed g Hg _ _ _ _ Hc' Hr') as (Hp' & pe' & Hpe' & <-). congruence.
  - intros (name & c & Hc & Hin & _). by destruct (go_listed g Hg _ _ _ _ Hc Hin).
Qed.

(** ** Witnesses *)

Definition sid (m n : Z) : StreamID := MkID m n.
Definition three : Stream := snd (Add (snd (Add (snd (Add New (sid 1 0) [])) (sid 1 1) [])) (sid 2 0) []).

Lemma New_ok : stream_ok New.
Proof. split; cbn; [constructor|constructor|constructor|done]. Qed.

Lemma three_reached : ∃ g, rtc gstep (New, newGroup (sid 0 0), []) (three, g, [sid 1 0; sid 1 1]) ∧ is_Some (pending g !! sid 1 0).
Proof.
  assert (Hid : ∀ m n, 0 <= m < 10 → 0 <= n < 10 → id_ok (sid m n)).
  { intros m n Hm Hn. unfold id_ok, maxMs, maxSeq. cbn. lia. }
  eexists. split.
  - eapply rtc_l; [eapply (gs_add _ _ _ (sid 1 0) []); [apply Hid; lia|vm_compute; reflexivity]|].
    eapply rtc_l; [eapply (gs_add _ _ _ (sid 1 1) []); [apply Hid; lia|vm_compute; reflexivity]|].
    eapply rtc_l; [eapply (gs_add _ _ _ (sid 2 0) []); [apply Hid; lia|vm_compute; reflexivity]|].
    eapply rtc_l; [eapply (gs_read _ _ _ (str "alice") 2 100); vm_compute; reflexivity|].
    apply rtc_refl.
  - vm_compute. by eexists.
Qed.

Lemma group_delivers_once_witness :
  ∃ g, sorted [sid 1 0; sid 1 1] ∧ ∀ e name now, e ∈ entries three → idlt (sid 0 0) (ID e) →
    (ID e ∈ [sid 1 0; sid 1 1] ↔ e ∉ fst (ReadNew g three name 0 now)).
Proof.
  destruct three_reached as (g & Hr & _). exists g.
  refine (group_delivers_once (sid 0 0) New three g _ New_ok _ Hr). unfold id_ok, maxMs, maxSeq. cbn. lia.
Defined.

Lemma pending_lists_agree_witness :
  ∃ g, is_Some (pending g !! sid 1 0) ∧ ∀ i r, pending g !! i = Some r ↔
    ∃ name c, consumers g !! name = Some c ∧ CPending c !! i = Some r ∧ PConsumer <$> pes g !! r = Some name ∧
      ∀ name' c', consumers g !! name' = Some c' → is_Some (CPending c' !! i) → name' = name.
Proof.
  destruct three_reached as (g & Hr & Hp). exists g. split; [exact Hp|].
  refine (pending_lists_agree (sid 0 0) New three g _ New_ok _ Hr). unfold id_ok, maxMs, maxSeq. cbn. lia.
Defined.

(** ** Behaviour at the edges *)

(** After an entry with the largest sequence number, the start of the next read
    wraps around, and the entry is delivered again. *)
Theorem largest_sequence_is_delivered_again :
  let s := snd (Add New (sid 5 maxSeq) []) in
  let g := snd (ReadNew (newGroup (sid 0 0)) s (str "a") 0 0) in
  ID <$> fst (ReadNew g s (str "a") 0 0) = [sid 5 maxSeq].
Proof. vm_compute. reflexivity. Qed.

(** An approximate trim that removes nothing still raises the largest deleted
    identifier. *)
Theorem approximate_trim_moves_max_deleted :
  let '(n, s) := TrimMinID three (sid 1 1) true in n = 0 ∧ entries s = entries three ∧ maxDeletedID s = sid 1 0.
Proof. vm_compute. done. Qed.

(** When a group is set back and an entry is read by another consumer, the entry
    stays in the list of the first one, also after it is acknowledged. *)
Theorem reread_entry_stays_with_first_consumer :
  let g1 := snd (ReadNew (newGroup (sid 0 0)) three (str "alice") 1 0) in
  let g2 := snd (ReadNew (group_SetID g1 (sid 0 0)) three (str "bob") 1 0) in
  let g3 := snd (Ack g2 [sid 1 0]) in
  pending g3 = ∅ ∧ ReadPending g3 (str "alice") (sid 0 0) (sid maxMs maxSeq) 0 = [sid 1 0].
Proof. vm_compute. done. Qed.

(** The pending entries of a consumer are listed from the largest identifier
    down. *)
Theorem pending_entries_come_in_reverse :
  let g := snd (ReadNew (newGroup (sid 0 0)) three (str "alice") 0 0) in
  ReadPending g (str "alice") (sid 0 0) (sid maxMs maxSeq) 0 = [sid 2 0; sid 1 1; sid 1 0].
Proof. vm_compute. reflexivity. Qed.
