(* ===== verification/GoTime.v ===== *)
(** * Time and float64 arithmetic of Go's library

    [time.Time] is a number of nanoseconds since 1970, [time.Duration] an
    [int64] of nanoseconds.  The seconds of a duration are computed in float64,
    and so is [INCRBYFLOAT]; both use the IEEE 754 operations of the Standard
    Library on bit patterns. *)

From stdpp Require Import base list.
From Stdlib Require Import ZArith Lia SpecFloat.
From S2P Require Import Prelude Float64.

Local Open Scope Z_scope.

(** ** float64 *)

Definition f_of_Z (z : Z) : spec_float := binary_normalize 53 1024 z 0 false.

Definition f_of_bits (b : Z) : spec_float :=
  let s := Z.testbit b 63 in
  let e := Z.land (Z.shiftr b 52) 0x7FF in
  let m := Z.land b (2 ^ 52 - 1) in
  if e =? 0x7FF then (if m =? 0 then S754_infinity s else S754_nan)
  else if e =? 0 then match m with Z.pos p => S754_finite s p (-1074) | _ => S754_zero s end
  else match m + 2 ^ 52 with Z.pos p => S754_finite s p (e - 1075) | _ => S754_nan end.

Definition sign_bit (s : bool) : Z := if s then 2 ^ 63 else 0.

Definition f_to_bits (f : spec_float) : Z :=
  match f with
  | S754_zero s => sign_bit s
  | S754_infinity s => sign_bit s + 0x7FF0000000000000
  | S754_nan => 0x7FF8000000000001
  | S754_finite s m e =>
      if Z.pos m <? 2 ^ 52 then sign_bit s + Z.pos m
      else sign_bit s + Z.shiftl (e + 1075) 52 + (Z.pos m - 2 ^ 52)
  end.

(** [a + b] on bit patterns. *)
Definition fadd (a b : Z) : Z := f_to_bits (SFadd 53 1024 (f_of_bits a) (f_of_bits b)).

(** [int64(f)] of a finite float. *)
Definition f_trunc (f : spec_float) : Z :=
  match f with
  | S754_finite s m e =>
      let z := if 0 <=? e then Z.pos m * 2 ^ e else Z.pos m / 2 ^ (- e) in
      if s then - z else z
  | _ => 0
  end.

(** [math.Round]: to the nearest integer, halves away from zero. *)
Definition f_round (f : spec_float) : Z :=
  match f with
  | S754_finite s m e =>
      let z := if 0 <=? e then Z.pos m * 2 ^ e else (2 * Z.pos m + 2 ^ (- e)) / (2 * 2 ^ (- e)) in
      if s then - z else z
  | _ => 0
  end.

(** ** Durations *)

Definition Millisecond : Z := 1000000.
Definition Second : Z := 1000000000.

(** [d.Seconds()] *)
Definition Seconds (d : Z) : spec_float :=
  SFadd 53 1024 (f_of_Z (Z.quot d Second)) (SFdiv 53 1024 (f_of_Z (Z.rem d Second)) (f_of_Z Second)).

(** [d.Milliseconds()] *)
Definition Milliseconds (d : Z) : Z := Z.quot d Millisecond.

(** ** Times *)

(** The seconds of a [time.Time] are counted from year 1, in an [int64]. *)
Definition unixToInternal : Z := 62135596800.

(** [time.Unix(sec, 0)] and [time.Unix(0, nsec)] *)
Definition Unix_sec (sec : Z) : Z := (wrap64 (sec + unixToInternal) - unixToInternal) * Second.
Definition Unix_nsec (nsec : Z) : Z := nsec.

(** [t.Unix()], [t.UnixMilli()] and [t.UnixNano()] *)
Definition time_Unix (t : Z) : Z := t / Second.
Definition time_UnixMilli (t : Z) : Z := wrap64 (t / Millisecond).
Definition time_UnixNano (t : Z) : Z := wrap64 t.

(** [t.Add(d)], for times that a server meets, and [t.Sub(u)], which saturates. *)
Definition time_Add (t d : Z) : Z := t + d.
Definition time_Sub (t u : Z) : Z := Z.max min_i64 (Z.min max_i64 (t - u)).

(** [t.After(u)] and [t.Before(u)] *)
Definition time_After (t u : Z) : bool := u <? t.
Definition time_Before (t u : Z) : bool := t <? u.
