(* ===== verification/TimeWheel.v ===== *)
(** * The time wheel: [internal/lib/timewheel]

    Slots hold pending tasks; every tick of the clock visits the next slot,
    starts the tasks whose count of rounds is used up and takes one round off
    the others.  The elements of a [container/list] are pointers, here numbers
    that are never used twice, and [timer] finds the element of a key.  A tick
    starts a goroutine, which scans its slot and later, under another lock,
    removes the keys of what it has started: the two are events of their own. *)

From stdpp Require Import base gmap list strings.
From Stdlib Require Import ZArith Lia Ascii.
From S2P Require Import Prelude GoTime.

Section wheel.
Context {J : Type}.

Record task := MkTask { delay : Z; circle : nat; tkey : bytes; job : J }.
Record location := MkLocation { slot : nat; etask : nat }.

Record TimeWheel := MkTimeWheel {
  interval : Z;
  slots : list (list (nat * task));
  timer : gmap bytes location;
  currentPos : nat;
  slotNum : nat;
  fresh_elem : nat
}.

Definition set_slots (tw : TimeWheel) s := MkTimeWheel (interval tw) s (timer tw) (currentPos tw) (slotNum tw) (fresh_elem tw).
Definition set_timer (tw : TimeWheel) t := MkTimeWheel (interval tw) (slots tw) t (currentPos tw) (slotNum tw) (fresh_elem tw).
Definition set_pos (tw : TimeWheel) p := MkTimeWheel (interval tw) (slots tw) (timer tw) p (slotNum tw) (fresh_elem tw).

(** [New] with [initSlots]; [None] is nil. *)
Definition New (interval : Z) (slotNum : Z) : option TimeWheel :=
  if ((interval <=? 0) || (slotNum <=? 0))%Z then None
  else Some (MkTimeWheel interval (replicate (Z.to_nat slotNum) []) ∅ 0 (Z.to_nat slotNum) 0).

(** [l.Remove(e)] *)
Definition list_Remove (e : nat) (l : list (nat * task)) : list (nat * task) := filter (λ x, x.1 ≠ e) l.

Definition removeTaskInternal (tw : TimeWheel) (key : bytes) : TimeWheel :=
  match timer tw !! key with
  | None => tw
  | Some pos => set_timer (set_slots tw (alter (list_Remove (etask pos)) (slot pos) (slots tw))) (delete key (timer tw))
  end.
Definition removeTask := removeTaskInternal.

(** An interval below a second would divide by zero. *)
Definition getPositionAndCircle (tw : TimeWheel) (d : Z) : res (nat * nat) :=
  let delaySeconds := f_trunc (Seconds d) in
  let intervalSeconds := f_trunc (Seconds (interval tw)) in
  if (intervalSeconds =? 0)%Z || (slotNum tw =? 0)%nat then Panic
  else let q := Z.to_nat (Z.quot delaySeconds intervalSeconds) in
       Ret ((currentPos tw + q) mod slotNum tw, q / slotNum tw)%nat.

Definition addTask (tw : TimeWheel) (t : task) : res TimeWheel :=
  '(pos, circle) ← getPositionAndCircle tw (delay t);
  let t := MkTask (delay t) circle (tkey t) (job t) in
  let tw := if negb (bool_decide (tkey t = [])) && bool_decide (is_Some (timer tw !! tkey t))
            then removeTaskInternal tw (tkey t) else tw in
  let e := fresh_elem tw in
  l ← must (slots tw !! pos);
  Ret (MkTimeWheel (interval tw) (<[pos := l ++ [(e, t)]]> (slots tw)) (<[tkey t := MkLocation pos e]> (timer tw))
         (currentPos tw) (slotNum tw) (S e)).

Definition AddJob (tw : TimeWheel) (delay : Z) (key : bytes) (job : J) : res TimeWheel :=
  if (delay <? 0)%Z then Ret tw else addTask tw (MkTask delay 0 key job).

Definition RemoveJob (tw : TimeWheel) (key : bytes) : TimeWheel :=
  if bool_decide (key = []) then tw else removeTask tw key.

(** The slot that a tick hands to [scanAndRunTask], and the next position. *)
Definition tickHandler (tw : TimeWheel) : nat * TimeWheel :=
  (currentPos tw, set_pos tw (if (currentPos tw =? slotNum tw - 1)%nat then 0 else S (currentPos tw))).

(** The scan under the read lock: the elements that stay, and the tasks that are
    started. *)
Fixpoint scan (l : list (nat * task)) : list (nat * task) * list task :=
  match l with
  | [] => ([], [])
  | (e, t) :: l =>
      let '(kept, run) := scan l in
      if (0 <? circle t)%nat then ((e, MkTask (delay t) (circle t - 1) (tkey t) (job t)) :: kept, run)
      else (kept, t :: run)
  end.

(** The keys that are removed from [timer] after the scan. *)
Definition tasksToRemove (run : list task) : list bytes := filter (λ k, k ≠ []) (tkey <$> run).
Definition clean (tw : TimeWheel) (keys : list bytes) : TimeWheel :=
  set_timer tw (foldl (λ m k, delete k m) (timer tw) keys).

(** The two critical sections of a goroutine that a tick has started. *)
Definition scan_slot (tw : TimeWheel) (pos : nat) : TimeWheel * list task :=
  let '(kept, run) := scan (default [] (slots tw !! pos)) in (set_slots tw (<[pos := kept]> (slots tw)), run).

(** The wheel, the slots that goroutines will scan, and the keys that others,
    which have scanned, will remove. *)
Record wheel_state := MkW { the_wheel : TimeWheel; scans : list nat; cleanups : list (list bytes) }.
Definition start (tw : TimeWheel) : wheel_state := MkW tw [] [].

(** The cases of the loop in [start], and the steps of the goroutines: the
    [i]-th of those that wait takes its lock. *)
Inductive event := Tick | Add (delay : Z) (key : bytes) (job : J) | Cancel (key : bytes) | Scan (i : nat) | Clean (i : nat).

Definition handle (st : wheel_state) (ev : event) : res (wheel_state * list task) :=
  match ev with
  | Tick => let '(pos, tw) := tickHandler (the_wheel st) in Ret (MkW tw (scans st ++ [pos]) (cleanups st), [])
  | Add d key job => tw ← AddJob (the_wheel st) d key job; Ret (MkW tw (scans st) (cleanups st), [])
  | Cancel key => Ret (MkW (RemoveJob (the_wheel st) key) (scans st) (cleanups st), [])
  | Scan i =>
      match scans st !! i with
      | Some pos =>
          let '(tw, run) := scan_slot (the_wheel st) pos in
          Ret (MkW tw (delete i (scans st)) (cleanups st ++ [tasksToRemove run]), run)
      | None => Ret (st, [])
      end
  | Clean i =>
      match cleanups st !! i with
      | Some keys => Ret (MkW (clean (the_wheel st) keys) (scans st) (delete i (cleanups st)), [])
      | None => Ret (st, [])
      end
  end.

(** A run of the wheel and the tasks it starts. *)
Fixpoint run (st : wheel_state) (evs : list event) : res (wheel_state * list task) :=
  match evs with
  | [] => Ret (st, [])
  | ev :: evs => '(st, r1) ← handle st ev; '(st, r2) ← run st evs; Ret (st, r1 ++ r2)
  end.

(** Every scan takes its lock before the loop goes on; the removal of the keys
    may come at any time. *)
Inductive prompt : list event → Prop :=
  | prompt_nil : prompt []
  | prompt_tick evs : prompt evs → prompt (Tick :: Scan 0 :: evs)
  | prompt_other ev evs : match ev with Tick | Scan _ => False | _ => True end → prompt evs → prompt (ev :: evs).

(** No job is added for the key while its removal is to come. *)
Fixpoint orderly (k : bytes) (st : wheel_state) (evs : list event) : Prop :=
  match evs with
  | [] => True
  | ev :: evs =>
      match ev with Add _ k' _ => k' = k → k ∉ concat (cleanups st) | _ => True end ∧
      match handle st ev with Ret (st, _) => orderly k st evs | _ => False end
  end.

(** ** Properties *)

Definition elems (tw : TimeWheel) (s : nat) : list (nat * task) := default [] (slots tw !! s).

(** The elements of one key. *)
Definition of_key (k : bytes) (l : list (nat * task)) : list (nat * task) := filter (λ x, tkey x.2 = k) l.

(** What the slots hold for a key: nothing, or one element. *)
Definition holds (tw : TimeWheel) (k : bytes) (o : option (location * task)) : Prop :=
  ∀ s, of_key k (elems tw s) =
       match o with
       | Some (loc, t) => if decide (s = slot loc) then [(etask loc, t)] else []
       | None => []
       end.
(** And it is the one that [timer] finds. *)
Definition pending (tw : TimeWheel) (k : bytes) (o : option (location * task)) : Prop :=
  timer tw !! k = fst <$> o ∧ holds tw k o.

Record wf (tw : TimeWheel) : Prop := {
  wf_num : (0 < slotNum tw)%nat;
  wf_len : length (slots tw) = slotNum tw;
  wf_pos : (currentPos tw < slotNum tw)%nat;
  wf_interval : (f_trunc (Seconds (interval tw)) ≠ 0)%Z;
  wf_fresh : ∀ s e t, (e, t) ∈ elems tw s → (e < fresh_elem tw)%nat;
  wf_timer : ∀ k loc, timer tw !! k = Some loc → (etask loc < fresh_elem tw)%nat ∧ ∀ s t, (etask loc, t) ∈ elems tw s → tkey t = k
}.

Lemma elem_of_key k l e t : (e, t) ∈ of_key k l ↔ (e, t) ∈ l ∧ tkey t = k.
Proof. unfold of_key. rewrite list_elem_of_filter. cbn. tauto. Qed.

Lemma of_key_app k l l' : of_key k (l ++ l') = of_key k l ++ of_key k l'.
Proof. apply filter_app. Qed.

(** Scanning commutes with looking at one key. *)
Lemma scan_of_key k l :
  of_key k (scan l).1 = (scan (of_key k l)).1 ∧ filter (λ t, tkey t = k) (scan l).2 = (scan (of_key k l)).2.
Proof.
  unfold of_key. induction l as [|[e t] l [IH1 IH2]]; [done|]. cbn [scan].
  destruct (scan l) as [kept r]. cbn in IH1, IH2.
  destruct (decide (tkey t = k)) as [Ek|Ek].
  - rewrite filter_cons_True by done. cbn [scan].
    destruct (scan (filter _ l)) as [kept' r']. cbn in IH1, IH2.
    destruct (0 <? circle t)%nat; cbn [fst snd]; rewrite filter_cons_True by done; by rewrite IH1, IH2.
  - rewrite filter_cons_False by done.
    destruct (0 <? circle t)%nat; cbn [fst snd]; rewrite filter_cons_False by done; by rewrite IH1, IH2.
Qed.

Lemma scan_elem l e t : (e, t) ∈ (scan l).1 → ∃ t', (e, t') ∈ l ∧ tkey t' = tkey t.
Proof.
  induction l as [|[e' t'] l IH]; cbn [scan]; [intros []%not_elem_of_nil|].
  destruct (scan l) as [kept r]. cbn in IH. destruct (0 <? circle t')%nat; cbn [fst].
  - intros [[= -> ->]|H]%elem_of_cons; [exists t'; split; [left|done]|].
    destruct (IH H) as (x & ? & ?). exists x. split; [by right|done].
  - intros H. destruct (IH H) as (x & ? & ?). exists x. split; [by right|done].
Qed.

Lemma clean_lookup (m : gmap bytes location) keys k :
  foldl (λ m k, delete k m) m keys !! k = if decide (k ∈ keys) then None else m !! k.
Proof.
  revert m. induction keys as [|x keys IH]; intros m; cbn.
  - by rewrite decide_False by apply not_elem_of_nil.
  - rewrite IH. destruct (decide (k ∈ keys)) as [H|H].
    + by rewrite decide_True by by right.
    + destruct (decide (k = x)) as [->|Hx].
      * rewrite decide_True by left. apply lookup_delete_eq.
      * rewrite decide_False by (rewrite elem_of_cons; tauto). by rewrite lookup_delete_ne.
Qed.

(** ** Removing *)

Lemma removeTaskInternal_elems tw key s e t :
  (e, t) ∈ elems (removeTaskInternal tw key) s → (e, t) ∈ elems tw s.
Proof.
  unfold removeTaskInternal. destruct (timer tw !! key) as [[p e0]|]; [|done]. unfold elems; cbn.
  destruct (decide (s = p)) as [->|]; [|by rewrite list_lookup_alter_ne].
  rewrite list_lookup_alter_eq. destruct (slots tw !! p); cbn; [|done].
  unfold list_Remove. rewrite list_elem_of_filter. tauto.
Qed.

Lemma removeTaskInternal_holds tw key k o :
  wf tw → holds tw k o → (k = key → timer tw !! k = fst <$> o) → holds (removeTaskInternal tw key) k (if decide (k = key) then None else o).
Proof.
  intros W Hs Ht. unfold removeTaskInternal. destruct (timer tw !! key) as [[p e0]|] eqn:Ekey.
  2:{ destruct (decide (k = key)) as [->|]; [|done]. specialize (Ht eq_refl). rewrite Ekey in Ht. by destruct o as [[]|]. }
  assert (Hel : ∀ s, of_key k (elems (set_slots tw (alter (list_Remove e0) p (slots tw))) s) =
                     if decide (s = p) then list_Remove e0 (of_key k (elems tw s)) else of_key k (elems tw s)).
  { intros s. unfold elems; cbn. destruct (decide (s = p)) as [->|]; [|by rewrite list_lookup_alter_ne].
    rewrite list_lookup_alter_eq. destruct (slots tw !! p); [|done]. cbn. unfold of_key, list_Remove. rewrite !list_filter_filter. apply list_filter_iff. tauto. }
  intros s. etrans; [apply Hel|]. destruct (decide (k = key)) as [->|Hk].
  - specialize (Ht eq_refl). rewrite Ekey in Ht. destruct o as [[loc t0]|]; [|done]. cbn in Ht. injection Ht as <-. rewrite Hs. cbn.
    destruct (decide (s = p)); [|done]. unfold list_Remove. by rewrite filter_cons_False by (cbn; tauto).
  - rewrite <- (Hs s). destruct (decide (s = p)); [|done]. unfold list_Remove. apply filter_all. intros [e1 t1] He. cbn. intros ->.
    apply elem_of_key in He as [He1 He2]. destruct (wf_timer tw W _ _ Ekey) as [_ Hu]. specialize (Hu s t1 He1). congruence.
Qed.

Lemma removeTaskInternal_pending tw key k o :
  wf tw → pending tw k o → pending (removeTaskInternal tw key) k (if decide (k = key) then None else o).
Proof.
  intros W [Ht Hs]. split; [|by apply removeTaskInternal_holds]. unfold removeTaskInternal. destruct (timer tw !! key) eqn:Ekey.
  - cbn. destruct (decide (k = key)) as [->|]; [by rewrite lookup_delete_eq|by rewrite lookup_delete_ne].
  - by destruct (decide (k = key)) as [->|].
Qed.

Lemma removeTaskInternal_wf tw key : wf tw → wf (removeTaskInternal tw key).
Proof.
  intros W.
  assert (Hsame : slotNum (removeTaskInternal tw key) = slotNum tw ∧ length (slots (removeTaskInternal tw key)) = length (slots tw) ∧
    currentPos (removeTaskInternal tw key) = currentPos tw ∧ interval (removeTaskInternal tw key) = interval tw ∧
    fresh_elem (removeTaskInternal tw key) = fresh_elem tw).
  { unfold removeTaskInternal. destruct (timer tw !! key); cbn; by rewrite ?length_alter. }
  destruct Hsame as (E1 & E2 & E3 & E4 & E5).
  split; rewrite ?E1, ?E2, ?E3, ?E4, ?E5; try by apply W.
  - intros s e t ?%removeTaskInternal_elems. by eapply W.
  - intros k loc Hk. assert (Hk' : timer tw !! k = Some loc).
    { unfold removeTaskInternal in Hk. destruct (timer tw !! key); [|done]. cbn in Hk. by apply lookup_delete_Some in Hk as [_ ?]. }
    destruct (wf_timer tw W k loc Hk') as [? Hu]. split; [done|]. intros s t ?%removeTaskInternal_elems. by eapply Hu.
Qed.

Lemma RemoveJob_spec tw key :
  wf tw → wf (RemoveJob tw key) ∧
  (∀ k o, pending tw k o → k ≠ [] → pending (RemoveJob tw key) k (if decide (k = key) then None else o)) ∧
  (∀ k o, holds tw k o → k ≠ key ∨ o = None → holds (RemoveJob tw key) k o) ∧
  interval (RemoveJob tw key) = interval tw ∧ slotNum (RemoveJob tw key) = slotNum tw ∧ currentPos (RemoveJob tw key) = currentPos tw.
Proof.
  intros W. unfold RemoveJob, removeTask. destruct (decide (key = [])) as [->|Hk].
  - rewrite bool_decide_true by done. split_and!; try done. intros k o H Hk. by rewrite decide_False.
  - rewrite bool_decide_false by done. split_and!; [by apply removeTaskInternal_wf|..];
      [| |unfold removeTaskInternal; by destruct (timer tw !! key)..].
    + intros k o H _. by apply removeTaskInternal_pending.
    + intros k o H [Hne| ->]; [pose proof (removeTaskInternal_holds tw key k o W H ltac:(by intros)) as H'; by rewrite decide_False in H' by done|].
      intros s. destruct (of_key k (elems (removeTaskInternal tw key) s)) as [|[e t] l] eqn:E; [done|].
      assert (Hin : (e, t) ∈ of_key k (elems (removeTaskInternal tw key) s)) by (rewrite E; by left).
      apply elem_of_key in Hin as [Hin%removeTaskInternal_elems Hkey]. assert (Hin' : (e, t) ∈ of_key k (elems tw s)) by (by apply elem_of_key).
      rewrite H in Hin'. by apply elem_of_nil in Hin'.
Qed.

Lemma RemoveJob_wf tw key : wf tw → wf (RemoveJob tw key).
Proof. apply RemoveJob_spec. Qed.

(** ** Adding *)

(** The number of ticks between a task's addition and its start, less one. *)
Definition rounds (tw : TimeWheel) (d : Z) : nat :=
  Z.to_nat (Z.quot (f_trunc (Seconds d)) (f_trunc (Seconds (interval tw)))).

Definition push_elem (tw : TimeWheel) (pos : nat) (t : task) : TimeWheel :=
  MkTimeWheel (interval tw) (<[pos := elems tw pos ++ [(fresh_elem tw, t)]]> (slots tw))
    (<[tkey t := MkLocation pos (fresh_elem tw)]> (timer tw)) (currentPos tw) (slotNum tw) (S (fresh_elem tw)).

Lemma push_elem_elems tw pos t s :
  wf tw → (pos < slotNum tw)%nat →
  elems (push_elem tw pos t) s = elems tw s ++ if decide (s = pos) then [(fresh_elem tw, t)] else [].
Proof.
  intros W Hpos. rewrite <- (wf_len tw W) in Hpos. unfold elems, push_elem; cbn. destruct (decide (s = pos)) as [->|].
  - by rewrite list_lookup_insert_eq.
  - rewrite list_lookup_insert_ne by done. by rewrite app_nil_r.
Qed.

Lemma push_elem_holds tw pos t k o :
  wf tw → (pos < slotNum tw)%nat → holds tw k o → (k = tkey t → o = None) →
  holds (push_elem tw pos t) k (if decide (k = tkey t) then Some (MkLocation pos (fresh_elem tw), t) else o).
Proof.
  intros W Hpos Hs Ho. destruct (decide (k = tkey t)) as [->|Hne]; intros s; rewrite push_elem_elems, of_key_app, Hs by done.
  - rewrite Ho by done. cbn [app]. cbn [slot]. destruct (decide (s = pos)); [|done]. unfold of_key. by rewrite filter_cons_True.
  - destruct (decide (s = pos)); [|by rewrite app_nil_r]. unfold of_key. rewrite filter_cons_False by (cbn; congruence). by rewrite app_nil_r.
Qed.

Lemma push_elem_pending tw pos t k o :
  wf tw → (pos < slotNum tw)%nat → pending tw k o → (k = tkey t → o = None) →
  pending (push_elem tw pos t) k (if decide (k = tkey t) then Some (MkLocation pos (fresh_elem tw), t) else o).
Proof.
  intros W Hpos [Ht Hs] Ho. split; [|by apply push_elem_holds]. cbn.
  destruct (decide (k = tkey t)) as [->|Hne]; [by apply lookup_insert_eq|by rewrite lookup_insert_ne].
Qed.

Lemma push_elem_wf tw pos t : wf tw → (pos < slotNum tw)%nat → wf (push_elem tw pos t).
Proof.
  intros W Hpos.
  assert (Hin : ∀ s e t', (e, t') ∈ elems (push_elem tw pos t) s → (e, t') ∈ elems tw s ∨ (e = fresh_elem tw ∧ t' = t)).
  { intros s e t'. rewrite push_elem_elems, elem_of_app by done. intros [|H]; [by left|right].
    destruct (decide (s = pos)); [|by apply elem_of_nil in H]. apply list_elem_of_singleton in H. by injection H. }
  split; try by apply W.
  - cbn. rewrite length_insert. apply W.
  - intros s e t' [H|[-> _]]%Hin; cbn; [|lia]. apply (wf_fresh tw W) in H. lia.
  - cbn. intros k loc [[<- <-]|[_ Hl]]%lookup_insert_Some; cbn.
    + split; [lia|]. intros s t' [H|[_ ->]]%Hin; [|done]. apply (wf_fresh tw W) in H. lia.
    + destruct (wf_timer tw W k loc Hl) as [Hlt Hu]. split; [lia|]. intros s t' [H|[H ->]]%Hin; [by eapply Hu|lia].
Qed.

Lemma addTask_spec tw d c k j :
  wf tw → ∃ tw', addTask tw (MkTask d c k j) = Ret tw' ∧ wf tw' ∧
    interval tw' = interval tw ∧ slotNum tw' = slotNum tw ∧ currentPos tw' = currentPos tw ∧
    (∀ o, k ≠ [] → pending tw k o → ∃ e, pending tw' k (Some (MkLocation ((currentPos tw + rounds tw d) mod slotNum tw) e,
                               MkTask d (rounds tw d / slotNum tw) k j))) ∧
    (∀ k' o, k' ≠ k → k' ≠ [] → pending tw k' o → pending tw' k' o) ∧
    (∀ k' o, k' ≠ k → holds tw k' o → holds tw' k' o).
Proof.
  intros W. pose proof (wf_num tw W) as Hn.
  unfold addTask, getPositionAndCircle. cbn. rewrite (proj2 (Z.eqb_neq _ _) (wf_interval tw W)). cbn.
  destruct (Nat.eqb_spec (slotNum tw) 0) as [|_]; [lia|]. cbn. fold (rounds tw d).
  set (pos := ((currentPos tw + rounds tw d) mod slotNum tw)%nat).
  set (t := MkTask d (rounds tw d / slotNum tw) k j).
  set (tw1 := if _ : bool then _ else tw).
  assert (H1 : wf tw1 ∧ interval tw1 = interval tw ∧ slotNum tw1 = slotNum tw ∧ currentPos tw1 = currentPos tw ∧
    (∀ k' o, k' ≠ [] → pending tw k' o → pending tw1 k' (if decide (k' = k) then None else o)) ∧ (∀ k' o, k' ≠ k → holds tw k' o → holds tw1 k' o)).
  { destruct (RemoveJob_spec tw k W) as (R1 & R2 & R2' & R3 & R4 & R5). subst tw1.
    unfold RemoveJob, removeTask in *. destruct (bool_decide (k = [])) eqn:Ek; cbn.
    - split_and!; try done. intros k' o ? ?. by apply R2.
    - destruct (bool_decide_reflect (is_Some (timer tw !! k))) as [_|E]; [split_and!; try done; [intros; by apply R2|intros; apply R2'; [done|by left]]|].
      split_and!; try done.
      intros k' o Hk' H. destruct (decide (k' = k)) as [->|]; [|done].
      destruct H as [Ht Hs]. destruct o as [[]|]; [|done]. cbn in Ht. by rewrite Ht in E; destruct E. }
  destruct H1 as (W1 & E1 & E2 & E3 & P1 & Q1).
  assert (Hpos : (pos < slotNum tw1)%nat). { rewrite E2. apply Nat.mod_upper_bound. lia. }
  pose proof Hpos as Hl. rewrite <- (wf_len tw1 W1) in Hl. destruct (lookup_lt_is_Some_2 _ _ Hl) as [l El]. rewrite El. cbn.
  replace l with (elems tw1 pos) by (unfold elems; by rewrite El).
  exists (push_elem tw1 pos t). split_and!; try done; [by apply push_elem_wf|..].
  - intros o Hk Ho. apply (P1 k o Hk) in Ho. rewrite decide_True in Ho by done. exists (fresh_elem tw1).
    pose proof (push_elem_pending tw1 pos t k None W1 Hpos Ho) as H. rewrite decide_True in H by done. by apply H.
  - intros k' o Hne Hk' H. apply (P1 k' o Hk') in H. rewrite decide_False in H by done.
    pose proof (push_elem_pending tw1 pos t k' o W1 Hpos H) as H'. rewrite decide_False in H' by done. by apply H'.
  - intros k' o Hne H. apply (Q1 k' o Hne) in H.
    pose proof (push_elem_holds tw1 pos t k' o W1 Hpos H) as H'. rewrite decide_False in H' by done. by apply H'.
Qed.

(** ** Ticks *)

Lemma scan_list_singleton e t :
  scan [(e, t)] = if (0 <? circle t)%nat then ([(e, MkTask (delay t) (circle t - 1) (tkey t) (job t))], []) else ([], [t]).
Proof. cbn. by destruct (circle t). Qed.

Lemma clean_pending tw k o keys : pending tw k o → k ∉ keys → pending (clean tw keys) k o.
Proof. intros [Ht Hs] Hk. split; [|done]. cbn. rewrite clean_lookup. by rewrite decide_False. Qed.
Lemma clean_wf tw keys : wf tw → wf (clean tw keys).
Proof.
  intros W. split; try apply W. intros k loc. cbn. rewrite clean_lookup. case_decide; [done|]. apply (wf_timer tw W).
Qed.

(** What a scan of the slot [pos] leaves pending of a key, and what it starts. *)
Definition after_scan (pos : nat) (o : option (location * task)) : option (location * task) * list task :=
  match o with
  | Some (loc, t) =>
      if decide (slot loc = pos) then
        if (0 <? circle t)%nat then (Some (loc, MkTask (delay t) (circle t - 1) (tkey t) (job t)), []) else (None, [t])
      else (o, [])
  | None => (None, [])
  end.

Lemma holds_key tw k loc t : holds tw k (Some (loc, t)) → tkey t = k.
Proof.
  intros Hs. specialize (Hs (slot loc)). cbn beta iota in Hs. rewrite decide_True in Hs by done.
  assert (H : (etask loc, t) ∈ of_key k (elems tw (slot loc))) by (rewrite Hs; by apply list_elem_of_singleton).
  by apply elem_of_key in H as [_ ?].
Qed.

Lemma scan_slots_elems tw pos kept s :
  (pos < length (slots tw))%nat → elems (set_slots tw (<[pos := kept]> (slots tw))) s = if decide (s = pos) then kept else elems tw s.
Proof.
  intros Hp. unfold elems; cbn. destruct (decide (s = pos)) as [->|]; [by rewrite list_lookup_insert_eq|by rewrite list_lookup_insert_ne].
Qed.

Lemma scan_slot_holds tw pos k o :
  (pos < length (slots tw))%nat → holds tw k o →
  holds (scan_slot tw pos).1 k (after_scan pos o).1 ∧ filter (λ t, tkey t = k) (scan_slot tw pos).2 = (after_scan pos o).2.
Proof.
  intros Hp Hs. unfold scan_slot. fold (elems tw pos).
  destruct (scan (elems tw pos)) as [kept r] eqn:Es.
  destruct (scan_of_key k (elems tw pos)) as [S1 S2]. rewrite Es in S1, S2. cbn [fst snd] in *. rewrite Hs in S1, S2.
  assert (Hgo : ∀ o', of_key k kept = match o' with Some (loc, t) => if decide (pos = slot loc) then [(etask loc, t)] else [] | None => [] end →
    (∀ s, s ≠ pos → match o' with Some (loc, t) => if decide (s = slot loc) then [(etask loc, t)] else [] | None => [] end =
                    match o with Some (loc, t) => if decide (s = slot loc) then [(etask loc, t)] else [] | None => [] end) →
    holds (set_slots tw (<[pos := kept]> (slots tw))) k o').
  { intros o' H1 H2 s. rewrite scan_slots_elems by done. destruct (decide (s = pos)) as [->|Hne]; [exact H1|]. by rewrite Hs, H2. }
  destruct o as [[loc t]|]; cbn [after_scan].
  - destruct (decide (slot loc = pos)) as [<-|Hne].
    + rewrite decide_True in S1, S2 by done. rewrite scan_list_singleton in S1, S2. destruct (0 <? circle t)%nat; cbn [fst snd] in *.
      * split; [|done]. apply Hgo; cbn beta iota; [by rewrite S1, decide_True by done|]. intros s Hs'. by rewrite !decide_False by done.
      * split; [|done]. apply Hgo; cbn beta iota; [done|]. intros s Hs'. by rewrite decide_False by done.
    + rewrite decide_False in S1, S2 by congruence. cbn in S1, S2. split; [|done]. apply Hgo; cbn [fst]; [by rewrite decide_False by congruence|done].
  - cbn in S1, S2. split; [|done]. by apply Hgo.
Qed.

Lemma scan_slot_wf tw pos : (pos < length (slots tw))%nat → wf tw → wf (scan_slot tw pos).1.
Proof.
  intros Hp W.
  assert (Hin : ∀ s e t, (e, t) ∈ elems (scan_slot tw pos).1 s → ∃ t', (e, t') ∈ elems tw s ∧ tkey t' = tkey t).
  { intros s e t. unfold scan_slot. destruct (scan _) as [kept r] eqn:Es. cbn [fst]. rewrite scan_slots_elems by done.
    destruct (decide (s = pos)) as [->|]; [|by exists t]. intros H. apply scan_elem.
    fold (elems tw pos) in Es. by rewrite Es. }
  assert (Hsame : slotNum (scan_slot tw pos).1 = slotNum tw ∧ length (slots (scan_slot tw pos).1) = length (slots tw) ∧
    currentPos (scan_slot tw pos).1 = currentPos tw ∧ interval (scan_slot tw pos).1 = interval tw ∧
    fresh_elem (scan_slot tw pos).1 = fresh_elem tw ∧ timer (scan_slot tw pos).1 = timer tw).
  { unfold scan_slot. destruct (scan _). cbn. by rewrite length_insert. }
  destruct Hsame as (E1 & E2 & E3 & E4 & E5 & E6).
  split; rewrite ?E1, ?E2, ?E3, ?E4, ?E5, ?E6; try by apply W.
  - intros s e t (t' & ? & _)%Hin. by eapply W.
  - intros k loc Hk. destruct (wf_timer tw W k loc Hk) as [? Hu]. split; [done|]. intros s t (t' & H1 & <-)%Hin. by eapply Hu.
Qed.

(** ** Schedules *)

(** The ticks that a pending task still waits for. *)
Definition waits (tw : TimeWheel) (loc : location) (t : task) : nat :=
  ((slot loc + slotNum tw - currentPos tw) mod slotNum tw + circle t * slotNum tw)%nat.

(** The key that an event of the loop concerns. *)
Definition ev_key (ev : event) : option bytes :=
  match ev with Add _ k _ => Some k | Cancel k => Some k | _ => None end.
Definition is_tick (ev : event) : nat := match ev with Tick => 1 | _ => 0 end.

(** What the slots owe to a key: nothing, or a job after a number of ticks. *)
Definition owed (tw : TimeWheel) (k : bytes) (due : option (nat * J)) : Prop :=
  match due with
  | None => holds tw k None
  | Some (n, j) => ∃ loc t, holds tw k (Some (loc, t)) ∧ (slot loc < slotNum tw)%nat ∧ waits tw loc t = n ∧ job t = j
  end.

(** A tick with its scan. *)
Definition tick_scan (tw : TimeWheel) : TimeWheel * list task := scan_slot (tickHandler tw).2 (tickHandler tw).1.

Lemma tick_pos_wf tw : wf tw → wf (tickHandler tw).2 ∧ ((tickHandler tw).1 < length (slots (tickHandler tw).2))%nat.
Proof.
  intros W. pose proof (wf_pos tw W). pose proof (wf_len tw W). pose proof (wf_num tw W). split; [|cbn; lia].
  split; try apply W. cbn. destruct (Nat.eqb_spec (currentPos tw) (slotNum tw - 1)); lia.
Qed.

Lemma tick_scan_wf tw : wf tw → wf (tick_scan tw).1 ∧ slotNum (tick_scan tw).1 = slotNum tw ∧ interval (tick_scan tw).1 = interval tw.
Proof.
  intros W. destruct (tick_pos_wf tw W) as [W1 Hp]. split; [by apply scan_slot_wf|]. unfold tick_scan, scan_slot. destruct (scan _). by cbn.
Qed.

(** A state in which no scan is waiting. *)
Definition st_ok (st : wheel_state) : Prop := wf (the_wheel st) ∧ scans st = [].

Lemma run_tick st evs : st_ok st →
  run st (Tick :: Scan 0 :: evs) =
    ('(st', r) ← run (MkW (tick_scan (the_wheel st)).1 [] (cleanups st ++ [tasksToRemove (tick_scan (the_wheel st)).2])) evs;
     Ret (st', (tick_scan (the_wheel st)).2 ++ r)).
Proof.
  intros [_ Hs]. cbn [run handle]. unfold tick_scan. destruct (tickHandler (the_wheel st)) as [pos tw]. cbn [mbind res_bind fst snd scans]. rewrite Hs. cbn.
  destruct (scan_slot tw pos) as [tw' r]. cbn. by destruct (run _ evs) as [[]| |].
Qed.

(** The other events keep the state in order and start nothing. *)
Lemma handle_other st ev : st_ok st → match ev with Tick | Scan _ => False | _ => True end →
  ∃ st', handle st ev = Ret (st', []) ∧ st_ok st' ∧ slotNum (the_wheel st') = slotNum (the_wheel st) ∧ interval (the_wheel st') = interval (the_wheel st) ∧
    currentPos (the_wheel st') = currentPos (the_wheel st) ∧
    (∀ k o, ev_key ev ≠ Some k → holds (the_wheel st) k o → holds (the_wheel st') k o).
Proof.
  intros [W Hs] Hev. destruct ev as [|d k j|k|i|i]; [done| | |done|]; cbn [handle].
  - unfold AddJob. destruct (d <? 0)%Z.
    + eexists. split; [done|]. by split_and!.
    + destruct (addTask_spec (the_wheel st) d 0 k j W) as (tw' & -> & W' & E1 & E2 & E3 & _ & _ & Hh). cbn. eexists. split; [done|].
      split_and!; try done. intros k' o Hne. apply Hh. cbn in Hne. congruence.
  - destruct (RemoveJob_spec (the_wheel st) k W) as (W' & _ & Hh & E1 & E2 & E3). eexists. split; [done|].
    split_and!; try done. intros k' o Hne Hk. apply Hh; [done|]. left. cbn in Hne. congruence.
  - destruct (cleanups st !! i) as [keys|]; eexists; (split; [done|]); split_and!; try done. split; [by apply clean_wf|done].
Qed.

(** How the distance to a slot changes when the position moves on. *)
Lemma wait_step s p n :
  (s < n)%nat → (p < n)%nat →
  let p' := if (p =? n - 1)%nat then 0%nat else S p in
  if decide (s = p) then ((s + n - p) mod n = 0 ∧ (s + n - p') mod n = n - 1)%nat
  else ((s + n - p') mod n + 1 = (s + n - p) mod n)%nat.
Proof.
  intros Hs Hp p'.
  assert (Hmod : ∀ q, (q <= s)%nat → ((s + n - q) mod n = s - q)%nat).
  { intros q Hq. replace (s + n - q)%nat with ((s - q) + 1 * n)%nat by lia. rewrite Nat.Div0.mod_add. apply Nat.mod_small. lia. }
  assert (Hmod' : ∀ q, (s < q)%nat → (q <= n)%nat → ((s + n - q) mod n = s + n - q)%nat).
  { intros q Hq Hqn. apply Nat.mod_small. lia. }
  subst p'. destruct (decide (s = p)) as [->|]; destruct (Nat.eqb_spec p (n - 1)).
  - rewrite !Hmod by lia. lia.
  - rewrite Hmod, Hmod' by lia. lia.
  - rewrite Hmod, Hmod' by lia. lia.
  - destruct (decide (s < p)%nat); [rewrite !Hmod' by lia|rewrite !Hmod by lia]; lia.
Qed.

Lemma tick_owed tw k due :
  wf tw → owed tw k due →
  owed (tick_scan tw).1 k (match due with Some (S n, j) => Some (n, j) | _ => None end) ∧
  job <$> filter (λ t, tkey t = k) (tick_scan tw).2 = match due with Some (O, j) => [j] | _ => [] end.
Proof.
  intros W Ho. pose proof (wf_pos tw W) as Hp. pose proof (wf_num tw W) as Hn. destruct (tick_pos_wf tw W) as [_ Hl].
  assert (Hrun : ∀ o, holds tw k o → holds (tick_scan tw).1 k (after_scan (currentPos tw) o).1 ∧
    filter (λ t, tkey t = k) (tick_scan tw).2 = (after_scan (currentPos tw) o).2).
  { intros o H. apply (scan_slot_holds (tickHandler tw).2 (currentPos tw) k o); [exact Hl|exact H]. }
  assert (Hpos : slotNum (tick_scan tw).1 = slotNum tw ∧ currentPos (tick_scan tw).1 = if (currentPos tw =? slotNum tw - 1)%nat then 0%nat else S (currentPos tw)).
  { unfold tick_scan, scan_slot. destruct (scan _). by cbn. }
  destruct Hpos as [Es Ep]. destruct due as [[n j]|]; cbn in Ho.
  - destruct Ho as (loc & t & Hpend & Hslot & <- & <-). destruct (Hrun _ Hpend) as [H1 H2]. unfold after_scan in H1, H2.
    pose proof (wait_step (slot loc) (currentPos tw) (slotNum tw) Hslot Hp) as Hw. cbn zeta in Hw. rewrite <- Ep in Hw.
    unfold owed, waits. rewrite Es.
    destruct (decide (slot loc = currentPos tw)) as [Hs|Hs].
    + destruct Hw as [-> Hw]. destruct (circle t) as [|c] eqn:Ec; cbn in H1, H2; rewrite H2; [done|].
      cbn [Nat.add Nat.mul]. destruct (slotNum tw + c * slotNum tw)%nat as [|w] eqn:Ew; [lia|]. split; [|done].
      exists loc. eexists. split_and!; [exact H1|lia| |done]. rewrite Hw. cbn. lia.
    + cbn in H1, H2. rewrite H2. destruct (_ + circle t * _)%nat as [|w] eqn:Ew; [lia|]. split; [|done].
      exists loc, t. split_and!; [done|lia| |done]. lia.
  - destruct (Hrun _ Ho) as [H1 H2]. by rewrite H2.
Qed.

Definition ticks (evs : list event) : nat := sum_list (is_tick <$> evs).
#[local] Arguments ticks : simpl never.

Lemma run_owed st k due evs :
  prompt evs → st_ok st → owed (the_wheel st) k due → Forall (λ ev, ev_key ev ≠ Some k) evs →
  ∃ st' out, run st evs = Ret (st', out) ∧
    job <$> filter (λ t, tkey t = k) out = match due with Some (n, j) => if decide (n < ticks evs)%nat then [j] else [] | None => [] end.
Proof.
  intros Hpr. revert st due. induction Hpr as [|evs _ IH|ev evs Hev _ IH]; intros st due Hst Ho Hk.
  - exists st, []. split; [done|]. destruct due as [[n j]|]; [|done]. by rewrite decide_False by (unfold ticks; cbn; lia).
  - apply Forall_cons in Hk as [_ Hk]. apply Forall_cons in Hk as [_ Hk]. rewrite run_tick by done. destruct Hst as [W Hs].
    destruct (tick_owed (the_wheel st) k due W Ho) as [Ho1 Eo1]. destruct (tick_scan_wf (the_wheel st) W) as [W1 _].
    destruct (IH (MkW (tick_scan (the_wheel st)).1 [] (cleanups st ++ [tasksToRemove (tick_scan (the_wheel st)).2])) _ (conj W1 eq_refl) Ho1 Hk) as (st2 & o2 & E2 & Eo2).
    rewrite E2. cbn [mbind res_bind]. eexists _, _. split; [done|]. rewrite filter_app, fmap_app, Eo1, Eo2.
    change (ticks (Tick :: Scan 0 :: evs)) with (S (ticks evs)). destruct due as [[[|n] j]|]; [| |done].
    + by rewrite decide_True by lia.
    + destruct (decide (n < ticks evs)%nat); [by rewrite decide_True by lia|by rewrite decide_False by lia].
  - apply Forall_cons in Hk as [Hk1 Hk]. destruct (handle_other st ev Hst Hev) as (st1 & E1 & Hst1 & En & _ & Ep & Hh).
    assert (Ho1 : owed (the_wheel st1) k due).
    { destruct due as [[n j]|]; cbn in *; [|by apply Hh]. destruct Ho as (loc & t & ? & ? & <- & <-). exists loc, t. unfold waits. rewrite En, Ep.
      split_and!; try done. by apply Hh. }
    destruct (IH st1 due Hst1 Ho1 Hk) as (st2 & o2 & E2 & Eo2). cbn [run]. rewrite E1. cbn [mbind res_bind]. rewrite E2. cbn. exists st2, o2. split; [done|].
    rewrite Eo2. destruct due as [[n j]|]; [|done]. by destruct ev.
Qed.

(** What is known of a key: [timer] agrees with the slots, or the key is still to
    be removed and the slots hold nothing. *)
Definition settled (k : bytes) (st : wheel_state) : Prop :=
  (k ∉ concat (cleanups st) ∧ ∃ o, pending (the_wheel st) k o) ∨ (k ∈ concat (cleanups st) ∧ holds (the_wheel st) k None).

Lemma settled_tick k st : st_ok st → k ≠ [] → settled k st →
  settled k (MkW (tick_scan (the_wheel st)).1 [] (cleanups st ++ [tasksToRemove (tick_scan (the_wheel st)).2])).
Proof.
  intros [W _] Hk H. destruct (tick_pos_wf (the_wheel st) W) as [_ Hl].
  pose proof (λ o, scan_slot_holds (tickHandler (the_wheel st)).2 (currentPos (the_wheel st)) k o Hl) as Hscan.
  change (scan_slot _ _) with (tick_scan (the_wheel st)) in Hscan.
  assert (Ht : timer (tick_scan (the_wheel st)).1 = timer (the_wheel st)) by (unfold tick_scan, scan_slot; by destruct (scan _)).
  assert (Hin : k ∈ tasksToRemove (tick_scan (the_wheel st)).2 ↔ filter (λ t, tkey t = k) (tick_scan (the_wheel st)).2 ≠ []).
  { unfold tasksToRemove. rewrite list_elem_of_filter, list_elem_of_fmap. split.
    - intros (_ & t & -> & Hin) E. apply (not_elem_of_nil t). rewrite <- E. by apply list_elem_of_filter.
    - intros Hne. split; [done|]. destruct (filter _ _) as [|t l] eqn:E; [done|]. exists t.
      assert (H' : t ∈ filter (λ t, tkey t = k) (tick_scan (the_wheel st)).2) by (rewrite E; by left). apply list_elem_of_filter in H' as [<- ?]. done. }
  unfold settled. cbn [cleanups the_wheel]. rewrite concat_app, !elem_of_app. cbn [concat]. rewrite app_nil_r.
  destruct H as [[Hn [o Ho]]|[Hy Ho]].
  - destruct Ho as [Hto Hho]. destruct (Hscan o Hho) as [H1 H2]. rewrite H2 in Hin. unfold after_scan in *.
    destruct o as [[loc t]|]; [|left; split; [naive_solver|]; exists None; by split; rewrite ?Ht].
    destruct (decide (slot loc = currentPos (the_wheel st))); [|left; split; [naive_solver|]; exists (Some (loc, t)); by split; rewrite ?Ht].
    destruct (0 <? circle t)%nat; cbn in *.
    + left. split; [naive_solver|]. eexists. split; [|exact H1]. by rewrite Ht, Hto.
    + right. split; [right; by apply Hin|done].
  - right. split; [by left|]. by destruct (Hscan None Ho).
Qed.

Lemma settled_other k st ev st' : st_ok st → k ≠ [] → settled k st → match ev with Tick | Scan _ => False | _ => True end →
  match ev with Add _ k' _ => k' = k → k ∉ concat (cleanups st) | _ => True end → handle st ev = Ret (st', []) → settled k st'.
Proof.
  intros [W _] Hk H Hev Hord E. unfold settled in *. destruct ev as [|d k' j|k'|i|i]; [done| | |done|]; cbn [handle] in E.
  - unfold AddJob in E. destruct (d <? 0)%Z; [injection E as <-; done|].
    destruct (addTask_spec (the_wheel st) d 0 k' j W) as (tw' & E' & _ & _ & _ & _ & Hadd & Hoth & Hh). rewrite E' in E. injection E as <-. cbn [cleanups the_wheel].
    destruct (decide (k' = k)) as [->|Hne].
    + specialize (Hord eq_refl). left. split; [done|]. destruct H as [[_ [o Ho]]|[? _]]; [|done]. destruct (Hadd o Hk Ho) as [e He]. by eexists.
    + destruct H as [[Hn [o Ho]]|[Hy Ho]]; [left; split; [done|]; exists o; by apply Hoth|right; split; [done|]; by apply Hh].
  - destruct (RemoveJob_spec (the_wheel st) k' W) as (_ & Hp & Hh & _). injection E as <-. cbn [cleanups the_wheel].
    destruct H as [[Hn [o Ho]]|[Hy Ho]]; [left; split; [done|]; eexists; by apply Hp|right; split; [done|]; apply Hh; [done|by right]].
  - destruct (cleanups st !! i) as [keys|] eqn:Ei; injection E as <-; [|done]. cbn [cleanups the_wheel].
    assert (Hc : k ∈ concat (cleanups st) ↔ k ∈ keys ∨ k ∈ concat (delete i (cleanups st))).
    { rewrite <- (take_drop_middle (cleanups st) i keys Ei) at 1. rewrite delete_take_drop, !concat_app, !elem_of_app. cbn [concat]. rewrite elem_of_app. tauto. }
    destruct H as [[Hn [o Ho]]|[Hy Ho]].
    + left. split; [tauto|]. exists o. apply clean_pending; [done|tauto].
    + destruct (decide (k ∈ concat (delete i (cleanups st)))) as [Hi|Hi]; [right; done|]. left. split; [done|]. exists None. split; [|done].
      cbn. rewrite clean_lookup, decide_True by tauto. done.
Qed.

Lemma run_settled k st evs : prompt evs → k ≠ [] → st_ok st → settled k st → orderly k st evs →
  ∃ st' out, run st evs = Ret (st', out) ∧ st_ok st' ∧ settled k st' ∧
    slotNum (the_wheel st') = slotNum (the_wheel st) ∧ interval (the_wheel st') = interval (the_wheel st).
Proof.
  intros Hpr Hk. revert st. induction Hpr as [|evs _ IH|ev evs Hev _ IH]; intros st Hst Hs Ho.
  - by exists st, [].
  - rewrite run_tick by done. pose proof Hst as [W Hsc]. destruct (tick_scan_wf (the_wheel st) W) as (W1 & En & Ei).
    assert (Ho' : orderly k (MkW (tick_scan (the_wheel st)).1 [] (cleanups st ++ [tasksToRemove (tick_scan (the_wheel st)).2])) evs).
    { cbn [orderly handle] in Ho. unfold tick_scan. destruct (tickHandler (the_wheel st)) as [pos tw]. cbn [scans fst snd] in *. rewrite Hsc in Ho. cbn in Ho.
      destruct (scan_slot tw pos) as [tw' r]. cbn in *. tauto. }
    destruct (IH (MkW (tick_scan (the_wheel st)).1 [] (cleanups st ++ [tasksToRemove (tick_scan (the_wheel st)).2])) (conj W1 eq_refl) (settled_tick k st Hst Hk Hs) Ho') as (st2 & o2 & E2 & H2 & S2 & N2 & I2). rewrite E2. cbn [mbind res_bind].
    eexists _, _. split; [done|]. cbn in N2, I2. split; [done|]. split; [done|]. split; congruence.
  - cbn [orderly] in Ho. destruct Ho as [Ho1 Ho2]. destruct (handle_other st ev Hst Hev) as (st1 & E1 & Hst1 & En & Ei & _). rewrite E1 in Ho2.
    destruct (IH st1 Hst1) as (st2 & o2 & E2 & H2 & S2 & N2 & I2); [exact (settled_other k st ev st1 Hst Hk Hs Hev Ho1 E1)|exact Ho2|]. cbn [run]. rewrite E1. cbn [mbind res_bind]. rewrite E2. cbn.
    eexists _, _. split; [done|]. split; [done|]. split; [done|]. split; congruence.
Qed.

Lemma New_wf iv n tw : New iv n = Some tw → (f_trunc (Seconds iv) ≠ 0)%Z → wf tw ∧ interval tw = iv ∧ ∀ k, pending tw k None.
Proof.
  unfold New. destruct (_ || _) eqn:E; [done|]. intros [= <-] Hiv. zbool.
  assert (Hel : ∀ s, elems (MkTimeWheel iv (replicate (Z.to_nat n) []) ∅ 0 (Z.to_nat n) 0) s = []).
  { intros s. unfold elems; cbn. destruct (replicate _ _ !! s) eqn:Es; [|done]. by apply lookup_replicate in Es as [-> _]. }
  split; [|split; [done|]; intros k; split; [done|]; intros s; by rewrite Hel]. split; cbn; try lia; try done.
  - by rewrite length_replicate.
  - intros s e t Hin. rewrite Hel in Hin. by apply elem_of_nil in Hin.
Qed.

End wheel.

(** ** Concrete runs *)

(** A wheel of four slots. *)
Definition tw_small {J} : TimeWheel (J := J) := MkTimeWheel Second [[]; []; []; []] ∅ 0 4 0.

(** Two jobs for one key; the removal for the first comes before the second is
    added, and that for the second key later. *)
Definition first_events : list (event (J := Z)) :=
  [Add 0 (str "a") 1; Tick; Scan 0; Clean 0; Add 0 (str "b") 2; Tick; Scan 0]%Z.
Definition later_events : list (event (J := Z)) := [Tick; Scan 0; Add 0 (str "c") 6; Clean 0; Tick; Scan 0]%Z.


(** The jobs that a run on this wheel starts. *)
Definition started (evs : list (event (J := Z))) : res (list Z) :=
  match run (start tw_small) evs with Ret (_, out) => Ret (map job out) | Panic => Panic | OutOfFuel => OutOfFuel end.

(** The scan collects the keys of the jobs it starts and removes them from
    [timer] later, under another lock.  A job that is added for such a key in
    between loses its entry: cancelling it has no effect, and it is started. *)
Theorem late_cleanup_loses_new_job :
  started [Add 0 (str "k") 1; Tick; Scan 0; Add 0 (str "k") 2; Clean 0; Cancel (str "k"); Tick; Scan 0]%Z = Ret [1; 2]%Z.
Proof. vm_compute. reflexivity. Qed.

(** A scan that takes its lock late finds a job that was added to its slot for a
    later round: the job is started three ticks too early. *)
Theorem late_scan_starts_job_early :
  started [Tick; Add (3 * Second) (str "k") 1; Scan 0]%Z = Ret [1]%Z ∧
  started [Tick; Scan 0; Add (3 * Second) (str "k") 1; Tick; Scan 0; Tick; Scan 0; Tick; Scan 0]%Z = Ret [].
Proof. split; vm_compute; reflexivity. Qed.
