(* ===== verification/KeySpace.v ===== *)
(** * The key space of a database: [internal/command/database.go]

    The maps of a [DB] (values, deadlines, versions, access data), its lazy and
    its scheduled expiry, and the access data of [evict.go].  Byte slices stored
    in values share arrays with the arguments they came from, so the memory is
    part of the state.  The dicts are finite maps, which is what [Dict.v],
    [RedisDict.v] and [ConcurrentDict.v] show them to be.

    Operations run in a state monad with panics.  The clock is read by number,
    so that two readings in one command may differ; the random draws likewise. *)

From stdpp Require Import base gmap list strings.
From Stdlib Require Import ZArith Lia Ascii.
From S2P Require Import Prelude GoText Strconv Resp ObjString Runtime GoTime TimeWheel.

Local Open Scope Z_scope.

(** ** Parameters *)

(** The world: readings of the clock, whether a random draw is below
    [1 / (max(counter - 5, 0) * 10 + 1)], the configured eviction policy,
    the message of a failed [strconv.ParseInt] and the digest of a value (a
    third-party hash). *)
Class Env := {
  clock : nat → Z;
  draw : nat → Z → bool;
  MaxmemoryPolicy : bytes;
  ParseIntError : bytes → bytes;
  ValueDigest : bytes → bytes
}.

(** The objects of the other types: their type and what [ForEach] yields of
    them, flattened, for the command that writes them out. *)
Class Objects (O : Type) := {
  obj_type : O → ObjType;
  obj_elems : O → list arg
}.

(** ** State *)

(** What [DataEntity.Data] holds: a string object with encoding int, or with
    embstr or raw and its slice, a plain [[]byte], or another object. *)
Inductive entity (O : Type) :=
| EInt (v : Z)
| EStr (enc : Encoding) (b : arg)
| EBytes (b : arg)
| EObj (o : O).
Arguments EInt {O} v.
Arguments EStr {O} enc b.
Arguments EBytes {O} b.
Arguments EObj {O} o.

(** What the outside is told: the callbacks of the key space, keyspace
    notifications and the tracking of clients. *)
Inductive db_event (O : Type) :=
| Inserted (key : bytes) (e : entity O)
| Deleted (key : bytes) (e : option (entity O))
| Published (channel payload : bytes)
| TrackRead (client : Z) (keys : list bytes)
| NotifyWrite (client : Z) (keys : list bytes).
Arguments Inserted {O}.
Arguments Deleted {O}.
Arguments Published {O}.
Arguments TrackRead {O}.
Arguments NotifyWrite {O}.

Record DB (O : Type) := MkDB {
  index : Z;
  data : gmap bytes (entity O);
  ttlMap : gmap bytes Z;
  versionMap : gmap bytes Z;
  lruMap : gmap bytes Z;
  wheel : TimeWheel (J := bytes);
  memory : mem;
  aof : list (list arg);
  events : list (db_event O);
  reads : nat;
  draws : nat
}.
Arguments MkDB {O}.
Arguments index {O}.
Arguments data {O}.
Arguments ttlMap {O}.
Arguments versionMap {O}.
Arguments lruMap {O}.
Arguments wheel {O}.
Arguments memory {O}.
Arguments aof {O}.
Arguments events {O}.
Arguments reads {O}.
Arguments draws {O}.

Section updates.
Context {O : Type} (db : DB O).
Definition set_data x := MkDB (index db) x (ttlMap db) (versionMap db) (lruMap db) (wheel db) (memory db) (aof db) (events db) (reads db) (draws db).
Definition set_ttl x := MkDB (index db) (data db) x (versionMap db) (lruMap db) (wheel db) (memory db) (aof db) (events db) (reads db) (draws db).
Definition set_version x := MkDB (index db) (data db) (ttlMap db) x (lruMap db) (wheel db) (memory db) (aof db) (events db) (reads db) (draws db).
Definition set_lru x := MkDB (index db) (data db) (ttlMap db) (versionMap db) x (wheel db) (memory db) (aof db) (events db) (reads db) (draws db).
Definition set_wheel x := MkDB (index db) (data db) (ttlMap db) (versionMap db) (lruMap db) x (memory db) (aof db) (events db) (reads db) (draws db).
Definition set_mem x := MkDB (index db) (data db) (ttlMap db) (versionMap db) (lruMap db) (wheel db) x (aof db) (events db) (reads db) (draws db).
Definition set_aof x := MkDB (index db) (data db) (ttlMap db) (versionMap db) (lruMap db) (wheel db) (memory db) x (events db) (reads db) (draws db).
Definition set_events x := MkDB (index db) (data db) (ttlMap db) (versionMap db) (lruMap db) (wheel db) (memory db) (aof db) x (reads db) (draws db).
Definition set_reads x := MkDB (index db) (data db) (ttlMap db) (versionMap db) (lruMap db) (wheel db) (memory db) (aof db) (events db) x (draws db).
Definition set_draws x := MkDB (index db) (data db) (ttlMap db) (versionMap db) (lruMap db) (wheel db) (memory db) (aof db) (events db) (reads db) x.
End updates.

(** ** The monad *)

Definition M (O A : Type) : Type := DB O → res (A * DB O).

#[export] Instance M_ret O : MRet (M O) := λ A a db, Ret (a, db).
#[export] Instance M_bind O : MBind (M O) := λ A B f m db,
  match m db with Ret (a, db') => f a db' | Panic => Panic | OutOfFuel => OutOfFuel end.

Section ops.
Context {O : Type} `{!Objects O} {env : Env} {rt : Runtime}.

Definition gets {A} (f : DB O → A) : M O A := λ db, Ret (f db, db).
Definition modify (f : DB O → DB O) : M O unit := λ db, Ret (tt, f db).
Definition panic {A} : M O A := λ _, Panic.
Definition lift {A} (r : res A) : M O A := λ db, match r with Ret a => Ret (a, db) | Panic => Panic | OutOfFuel => OutOfFuel end.
Definition when (b : bool) (m : M O unit) : M O unit := if b then m else mret tt.

(** A loop over a list, with a state. *)
Fixpoint forM {A B} (l : list A) (f : A → M O B) : M O (list B) :=
  match l with [] => mret [] | a :: l => b ← f a; bs ← forM l f; mret (b :: bs) end.
Definition forM_ {A} (l : list A) (f : A → M O unit) : M O unit := _ ← forM l f; mret tt.

(** [time.Now()] *)
Definition Now : M O Z := λ db, Ret (clock (reads db), set_reads db (S (reads db))).
Definition flip (counter : Z) : M O bool := λ db, Ret (draw (draws db) counter, set_draws db (S (draws db))).
Definition emit (ev : db_event O) : M O unit := modify (λ db, set_events db (events db ++ [ev])).

(** ** Arguments and memory *)

Definition arg_at (args : list arg) (i : nat) : M O arg := lift (must (args !! i)).

(** [string(a)], and the same of an argument by number. *)
Definition string_of (a : arg) : M O bytes := gets (λ db, arg_str (memory db) a).
Definition str_at (args : list arg) (i : nat) : M O bytes := a ← arg_at args i; string_of a.

(** A new array that holds these bytes. *)
Definition alloc (b : bytes) : M O slice :=
  λ db, Ret (MkSlice (length (memory db)) 0 (length b), set_mem db (memory db ++ [b])).

(** A fresh copy gets an array of its own when it is stored or changed. *)
Definition own (a : arg) : M O arg :=
  match a with ALit b => s ← alloc b; mret (ARef s) | _ => mret a end.

(** ** Access data, [evict.go] *)

Definition lruClockMax : Z := 2 ^ 24 - 1.
Definition lruClockRes : Z := 1000.
Definition lfuInitVal : Z := 5.

Definition lruClock : M O Z := t ← Now; mret (Z.land (u32 (Z.quot (time_UnixMilli t) lruClockRes)) lruClockMax).

Definition lruIdleFor (now access : Z) : Z :=
  if access <=? now then now - access else (lruClockMax - access) + now + 1.

Definition lfuNowMinutes : M O Z := t ← Now; mret (Z.land (u32 (Z.quot (time_Unix t) 60)) 0xffff).

Definition lfuLogIncr (counter : Z) : M O Z :=
  if counter =? 255 then mret 255 else
  below ← flip counter;
  mret (if below : bool then counter + 1 else counter).

Definition lruValue (m : Z) : Z := Z.land m lruClockMax.
Definition lfuCounter (m : Z) : Z := Z.land m 0xff.
Definition lfuMinutes (m : Z) : Z := Z.land (Z.shiftr m 8) 0xffff.
Definition packLFU (minutes counter : Z) : Z := Z.lor (Z.shiftl (Z.land minutes 0xffff) 8) counter.

Definition lfuMinutesDiff (now then_ : Z) : Z := if then_ <=? now then now - then_ else (0xffff - then_) + now + 1.

(** The counter after [elapsed] decay periods of one minute. *)
Definition decayed (counter elapsed : Z) : Z := if counter <=? elapsed then 0 else counter - elapsed.
Definition lfuDecay (m : Z) : M O Z := now ← lfuNowMinutes; mret (decayed (lfuCounter m) (lfuMinutesDiff now (lfuMinutes m))).

Definition usingLFU : bool := bytes_eqb MaxmemoryPolicy (str "allkeys-lfu") || bytes_eqb MaxmemoryPolicy (str "volatile-lfu").

Definition newLRUMeta (lfu : bool) : M O Z :=
  if lfu then m ← lfuNowMinutes; mret (Z.lor (u32 (Z.shiftl m 8)) lfuInitVal) else lruClock.

Definition touchLRU (key : bytes) : M O unit :=
  if usingLFU then
    raw ← gets (λ db, lruMap db !! key);
    counter ← match raw with Some m => lfuDecay m | None => mret lfuInitVal end;
    counter ← lfuLogIncr counter;
    minutes ← lfuNowMinutes;
    modify (λ db, set_lru db (<[key := packLFU minutes counter]> (lruMap db)))
  else
    c ← lruClock;
    modify (λ db, set_lru db (<[key := c]> (lruMap db))).

Definition keyIdle (now : Z) (key : bytes) (db : DB O) : Z :=
  match lruMap db !! key with None => lruClockMax | Some m => lruIdleFor now (lruValue m) end.
Definition keyLFUCounter (key : bytes) : M O Z :=
  raw ← gets (λ db, lruMap db !! key); match raw with None => mret 0 | Some m => lfuDecay m end.

(** ** Persistence and expiry *)

(** No goroutine ever buffers, so every line goes to the persister. *)
Definition addAof (line : list arg) : M O unit := modify (λ db, set_aof db (aof db ++ [line])).

Definition genExpireTask (key : bytes) : bytes := str "expire:" ++ key.

Definition Remove (key : bytes) : M O unit :=
  raw ← gets (λ db, data db !! key);
  modify (λ db, set_data db (delete key (data db)));;
  modify (λ db, set_ttl db (delete key (ttlMap db)));;
  modify (λ db, set_lru db (delete key (lruMap db)));;
  modify (λ db, set_wheel db (RemoveJob (wheel db) (genExpireTask key)));;
  emit (Deleted key raw).

Definition IsExpired (key : bytes) : M O bool :=
  rawExpireTime ← gets (λ db, ttlMap db !! key);
  match rawExpireTime with
  | None => mret false
  | Some expireTime =>
      now ← Now;
      let expired := time_After now expireTime in
      when expired (Remove key);;
      mret expired
  end.

(** ** Data access *)

Definition GetEntity (key : bytes) : M O (option (entity O)) :=
  raw ← gets (λ db, data db !! key);
  match raw with
  | None => mret None
  | Some e =>
      expired ← IsExpired key;
      if expired : bool then mret None
      else touchLRU key;; mret (Some e)
  end.

Definition getEntityNoTouch (key : bytes) : M O (option (entity O)) :=
  raw ← gets (λ db, data db !! key);
  match raw with
  | None => mret None
  | Some e =>
      expired ← IsExpired key;
      if expired : bool then mret None else mret (Some e)
  end.

Definition PutEntity (key : bytes) (e : entity O) : M O Z :=
  old ← gets (λ db, data db !! key);
  let ret := match old with None => 1 | Some _ => 0 end in
  modify (λ db, set_data db (<[key := e]> (data db)));;
  touchLRU key;;
  when (0 <? ret) (emit (Inserted key e));;
  mret ret.

Definition PutIfExists (key : bytes) (e : entity O) : M O Z :=
  old ← gets (λ db, data db !! key);
  match old with
  | None => mret 0
  | Some _ => modify (λ db, set_data db (<[key := e]> (data db)));; mret 1
  end.

Definition PutIfAbsent (key : bytes) (e : entity O) : M O Z :=
  old ← gets (λ db, data db !! key);
  match old with
  | Some _ => mret 0
  | None => modify (λ db, set_data db (<[key := e]> (data db)));; emit (Inserted key e);; mret 1
  end.

Fixpoint Removes (keys : list bytes) : M O Z :=
  match keys with
  | [] => mret 0
  | key :: keys =>
      e ← gets (λ db, data db !! key);
      n ← match e with Some _ => Remove key;; mret 1 | None => mret 0 end;
      m ← Removes keys;
      mret (n + m)
  end.

Definition Flush : M O unit :=
  modify (λ db, set_data db ∅);; modify (λ db, set_ttl db ∅).

(** [timewheel.At] *)
Definition At (t : Z) (key : bytes) (job : bytes) : M O unit :=
  now ← Now;
  tw ← gets wheel;
  tw ← lift (AddJob tw (time_Sub t now) key job);
  modify (λ db, set_wheel db tw).

Definition Expire (key : bytes) (expireTime : Z) : M O unit :=
  modify (λ db, set_ttl db (<[key := expireTime]> (ttlMap db)));;
  At expireTime (genExpireTask key) key.

(** The job that [Expire] hands to the wheel. *)
Definition expire_job (key : bytes) : M O unit :=
  raw ← gets (λ db, ttlMap db !! key);
  match raw with
  | None => mret tt
  | Some expireTime => now ← Now; when (time_After now expireTime) (Remove key)
  end.

Definition Persist (key : bytes) : M O unit :=
  modify (λ db, set_ttl db (delete key (ttlMap db)));;
  modify (λ db, set_wheel db (RemoveJob (wheel db) (genExpireTask key))).

(** ** Versions *)

Definition GetVersion (db : DB O) (key : bytes) : Z := default 0 (versionMap db !! key).
Definition addVersion (keys : list bytes) : M O unit :=
  forM_ keys (λ key, modify (λ db, set_version db (<[key := u32 (GetVersion db key + 1)]> (versionMap db)))).
Definition removeVersion (key : bytes) : M O unit := modify (λ db, set_version db (delete key (versionMap db))).
End ops.

(** ** Replies *)

(** A reply whose bytes are slices, read when the reply is encoded; [RConst] is
    a reply that holds no slice. *)
Inductive reply :=
| RBulk (a : arg)
| RMultiBulk (args : list arg)
| RRaw (rs : list reply)
| RMap (pairs : list reply)
| RConst (r : Reply).

Fixpoint resolve (m : mem) (r : reply) : Reply :=
  match r with
  | RBulk a => BulkReply (arg_opt m a)
  | RMultiBulk args => MultiBulkReply (arg_opt m <$> args)
  | RRaw rs => MultiRawReply (resolve m <$> rs)
  | RMap ps => MapReply (resolve m <$> ps)
  | RConst r => r
  end.

Definition RInt (n : Z) : reply := RConst (IntReply n).
Definition RErr (s : string) : reply := RConst (StandardErrReply (str s)).
Definition ROk : reply := RConst OkReply.
Definition RNull : reply := RConst NullBulkReply.
Definition RSyntax : reply := RConst SyntaxErrReply.
Definition RWrongType : reply := RConst WrongTypeErrReply.

(** [ExecFunc], [PreFunc] and [UndoFunc] *)
Definition ExecFunc (O : Type) : Type := list arg → M O reply.
Definition PreFunc (O : Type) : Type := list arg → M O (list bytes * list bytes).
Definition UndoFunc (O : Type) : Type := list arg → M O (list (list arg)).

(** [utils.ToCmdLine] and [utils.ToCmdLine3] *)
Definition ToCmdLine (cmd : list bytes) : list arg := ALit <$> cmd.
Definition ToCmdLine3 (commandName : string) (args : list arg) : list arg := ALit (str commandName) :: args.
