(* ===== verification/Bitmap.v ===== *)
(** * Bitmaps: [internal/datastruct/bitmap/bitmap.go]

    A bitmap is a byte string; bit 0 is the most significant bit of the first
    byte.  [SetBit] changes the array in place when it is long enough; here it
    gives the new bytes, and the commands store them in the array. *)

From stdpp Require Import base list.
From Stdlib Require Import ZArith Lia Ascii.
From S2P Require Import Prelude.

Local Open Scope Z_scope.

Definition toByteSize (bitSize : Z) : Z :=
  if Z.rem bitSize 8 =? 0 then Z.quot bitSize 8 else Z.quot bitSize 8 + 1.

Definition grow (max_make : Z) (b : bytes) (bitSize : Z) : res bytes :=
  let gap := toByteSize bitSize - Z.of_nat (length b) in
  if gap <=? 0 then Ret b
  else if max_make <? gap then Panic
  else Ret (b ++ replicate (Z.to_nat gap) (Zbyte 0)).

Definition BitSize (b : bytes) : Z := Z.of_nat (length b) * 8.

(** [byte(1 << (7 - offset%8))] *)
Definition mask (offset : Z) : Z := Z.land (Z.shiftl 1 (7 - Z.rem offset 8)) 255.

(** The byte with the bit set or cleared. *)
Definition set_mask (old m : Z) (val : Z) : Z := if 0 <? val then Z.lor old m else Z.ldiff old m.

Definition SetBit (max_make : Z) (b : bytes) (offset val : Z) : res bytes :=
  b ← grow max_make b (wrap64 (offset + 1));
  let byteIndex := Z.quot offset 8 in
  if byteIndex <? 0 then Panic else
  old ← must (b !! Z.to_nat byteIndex);
  Ret (<[Z.to_nat byteIndex := Zbyte (set_mask (byteZ old) (mask offset) val)]> b).

Definition GetBit (b : bytes) (offset : Z) : res Z :=
  let byteIndex := Z.quot offset 8 in
  let bitOffset := 7 - Z.rem offset 8 in
  if Z.of_nat (length b) <=? byteIndex then Ret 0
  else if byteIndex <? 0 then Panic
  else c ← must (b !! Z.to_nat byteIndex);
       Ret (Z.land (Z.shiftr (byteZ c) bitOffset) 1).

(** ** Traversals *)

(** The bits of one byte from [bitOffset] on: the callback's state, and whether
    the traversal goes on; [offset] counts the bits visited. *)
Fixpoint bits_of {A} (fuel : nat) (cb : A → Z → Z → A * bool) (c : Z) (bitOffset offset end_ : Z) (st : A) : A * bool * Z :=
  match fuel with
  | O => (st, true, offset)
  | S fuel =>
      if 8 <=? bitOffset then (st, true, offset) else
      let '(st, go) := cb st offset (Z.land (Z.shiftr c (7 - bitOffset)) 1) in
      if go : bool then
        if (end_ <=? offset + 1) && negb (end_ =? 0) then (st, true, offset + 1)
        else bits_of fuel cb c (bitOffset + 1) (offset + 1) end_ st
      else (st, false, offset)
  end.

Fixpoint bytes_of {A} (cb : A → Z → Z → A * bool) (l : bytes) (bitOffset offset end_ : Z) (st : A) : A :=
  match l with
  | [] => st
  | c :: l =>
      let '(st, go, offset) := bits_of 8 cb (byteZ c) bitOffset offset end_ st in
      if negb go then st
      else if (0 <? end_) && (end_ <=? offset) then st
      else bytes_of cb l 0 offset end_ st
  end.

(** A traversal of the bits [begin, end); an [end_] of zero is no limit. *)
Definition ForEachBit {A} (b : bytes) (begin end_ : Z) (cb : A → Z → Z → A * bool) (st : A) : A :=
  bytes_of cb (drop (Z.to_nat (Z.quot begin 8)) b) (Z.rem begin 8) begin end_ st.

Fixpoint each_byte {A} (cb : A → Z → Z → A * bool) (l : bytes) (i : Z) (st : A) : A :=
  match l with
  | [] => st
  | c :: l => let '(st, go) := cb st i (byteZ c) in if go : bool then each_byte cb l (i + 1) st else st
  end.

Definition ForEachByte {A} (b : bytes) (begin end_ : Z) (cb : A → Z → Z → A * bool) (st : A) : A :=
  let size := Z.of_nat (length b) in
  let end_ := if end_ =? 0 then size else if size <? end_ then size else end_ in
  each_byte cb (take (Z.to_nat (end_ - begin)) (drop (Z.to_nat begin) b)) begin st.

(** ** A bitmap is a sequence of bits *)

(** Bit [i], zero past the end. *)
Definition bit (b : bytes) (i : Z) : Z :=
  match b !! Z.to_nat (i / 8) with Some c => Z.b2z (Z.testbit (byteZ c) (7 - i mod 8)) | None => 0 end.

Lemma land_1_testbit x k : 0 <= k → Z.land (Z.shiftr x k) 1 = Z.b2z (Z.testbit x k).
Proof.
  intros Hk. change 1 with (Z.ones 1). rewrite Z.land_ones by lia. change (2 ^ 1) with 2.
  rewrite <- Z.bit0_mod, Z.shiftr_spec by lia. by rewrite Z.add_0_l.
Qed.

Lemma mask_testbit o j : 0 <= o → 0 <= j < 8 → Z.testbit (mask o) j = (7 - o mod 8 =? j).
Proof.
  intros Ho Hj. unfold mask. rewrite Z.rem_mod_nonneg by lia. pose proof (Z.mod_pos_bound o 8).
  rewrite Z.land_spec, Z.shiftl_1_l, Z.pow2_bits_eqb by lia. change 255 with (Z.ones 8). rewrite Z.ones_spec_low by lia. apply andb_true_r.
Qed.

Lemma set_mask_testbit c o v j : 0 <= o → 0 <= j < 8 →
  Z.testbit (byteZ (Zbyte (set_mask (byteZ c) (mask o) v))) j = if 7 - o mod 8 =? j then 0 <? v else Z.testbit (byteZ c) j.
Proof.
  intros Ho Hj. rewrite byteZ_Zbyte. change 256 with (2 ^ 8). rewrite Z.mod_pow2_bits_low by lia. unfold set_mask.
  destruct (0 <? v); [rewrite Z.lor_spec|rewrite Z.ldiff_spec]; rewrite mask_testbit by lia; destruct (_ =? j).
  all: by rewrite ?orb_true_r, ?orb_false_r, ?andb_false_r, ?andb_true_r.
Qed.

Lemma GetBit_spec b i : 0 <= i → GetBit b i = Ret (bit b i).
Proof.
  intros Hi. unfold GetBit, bit. rewrite Z.quot_div_nonneg, Z.rem_mod_nonneg by lia.
  pose proof (Z.div_pos i 8 Hi ltac:(lia)). pose proof (Z.mod_pos_bound i 8). destruct (Z.leb_spec (Z.of_nat (length b)) (i / 8)).
  - rewrite lookup_ge_None_2 by lia. done.
  - rewrite (proj2 (Z.ltb_ge _ _)) by lia. destruct (lookup_lt_is_Some_2 b (Z.to_nat (i / 8))) as [c ->]; [lia|]. cbn.
    by rewrite land_1_testbit by lia.
Qed.

Lemma toByteSize_spec n : 0 <= n → toByteSize (n + 1) = n / 8 + 1.
Proof.
  intros Hn. unfold toByteSize. rewrite Z.rem_mod_nonneg, Z.quot_div_nonneg by lia.
  destruct (Z.eqb_spec ((n + 1) mod 8) 0); Z.div_mod_to_equations; lia.
Qed.

Lemma bit_grown b n i : bit (b ++ replicate n (Zbyte 0)) i = bit b i.
Proof.
  unfold bit. destruct (b !! Z.to_nat (i / 8)) as [c|] eqn:E; [by rewrite lookup_app_l_Some with (x := c)|].
  apply lookup_ge_None_1 in E. rewrite lookup_app_r by done. destruct (replicate _ _ !! _) as [c|] eqn:E'; [|done].
  apply lookup_replicate in E' as [-> _]. change (byteZ (Zbyte 0)) with 0. by rewrite Z.testbit_0_l.
Qed.

(** One byte rewritten changes one bit. *)
Lemma bit_insert b o v c i : 0 <= o → 0 <= i → b !! Z.to_nat (o / 8) = Some c →
  bit (<[Z.to_nat (o / 8) := Zbyte (set_mask (byteZ c) (mask o) v)]> b) i = if i =? o then (if 0 <? v then 1 else 0) else bit b i.
Proof.
  intros Ho Hi Hc. unfold bit. pose proof (Z.mod_pos_bound i 8). pose proof (Z.mod_pos_bound o 8).
  assert (0 <= i / 8) by (apply Z.div_pos; lia). assert (0 <= o / 8) by (apply Z.div_pos; lia).
  destruct (decide (i / 8 = o / 8)) as [E|E].
  - rewrite E, list_lookup_insert_eq by (apply lookup_lt_Some in Hc; lia). rewrite Hc, set_mask_testbit by lia.
    destruct (Z.eqb_spec (7 - o mod 8) (7 - i mod 8)), (Z.eqb_spec i o); try done; try (Z.div_mod_to_equations; lia); by destruct (0 <? v).
  - rewrite list_lookup_insert_ne by lia. destruct (Z.eqb_spec i o); [by subst|done].
Qed.

(** SETBIT and GETBIT see one sequence of bits: after a bit is set, at any offset for which the bytes fit in memory, the
    bitmap has the bytes it needs and no more, the bit has the new value and every other bit is as before; a bit past
    the end reads as zero. *)
Theorem bits_are_independent max_make b o v :
  0 <= o < max_i64 → o / 8 + 1 - Z.of_nat (length b) <= max_make →
  ∃ b', SetBit max_make b o v = Ret b' ∧ Z.of_nat (length b') = Z.max (Z.of_nat (length b)) (o / 8 + 1) ∧
    ∀ i, 0 <= i → GetBit b' i = if i =? o then Ret (if 0 <? v then 1 else 0) else GetBit b i.
Proof.
  intros Ho Hm. unfold SetBit, grow. rewrite wrap64_id by (unfold i64, min_i64, max_i64 in *; lia). rewrite toByteSize_spec by lia.
  rewrite Z.quot_div_nonneg by lia. assert (Hq : 0 <= o / 8) by (apply Z.div_pos; lia).
  set (gap := o / 8 + 1 - Z.of_nat (length b)) in *.
  assert (HG : ∃ g, (if gap <=? 0 then Ret b else if max_make <? gap then Panic else Ret (b ++ replicate (Z.to_nat gap) (Zbyte 0))) = Ret g ∧
    Z.of_nat (length g) = Z.max (Z.of_nat (length b)) (o / 8 + 1) ∧ ∀ i, bit g i = bit b i).
  { destruct (Z.leb_spec gap 0); [exists b; split_and!; [done|lia|done]|]. rewrite (proj2 (Z.ltb_ge _ _)) by lia.
    eexists. split; [done|]. rewrite length_app, length_replicate. split; [lia|]. intros i. apply bit_grown. }
  destruct HG as (g & -> & Hlen & Hbit). cbn. rewrite (proj2 (Z.ltb_ge _ _)) by lia.
  destruct (lookup_lt_is_Some_2 g (Z.to_nat (o / 8))) as [c Hc]; [lia|]. rewrite Hc. cbn. eexists. split; [done|].
  rewrite length_insert. split; [done|]. intros i Hi. rewrite !GetBit_spec by done. rewrite bit_insert by (done || lia).
  rewrite <- Hbit. by destruct (i =? o).
Qed.

Lemma bits_are_independent_witness :
  ∃ b', SetBit 1000 [Zbyte 5] 12 1 = Ret b' ∧ Z.of_nat (length b') = Z.max 1 (12 / 8 + 1) ∧
    ∀ i, 0 <= i → GetBit b' i = if i =? 12 then Ret (if 0 <? 1 then 1 else 0) else GetBit [Zbyte 5] i.
Proof. apply (bits_are_independent 1000 [Zbyte 5] 12 1); [unfold max_i64; lia|by vm_compute]. Defined.

(** ** Traversals visit_bits the bits in order *)

(** The callback on [n] bits from [i] on, until it says stop. *)
Fixpoint visit_bits {A} (cb : A → Z → Z → A * bool) (b : bytes) (n : nat) (i : Z) (st : A) : A * bool :=
  match n with
  | O => (st, true)
  | S n => let '(st, go) := cb st i (bit b i) in if go : bool then visit_bits cb b n (i + 1) st else (st, false)
  end.

Lemma visit_bits_app {A} (cb : A → Z → Z → A * bool) b n m i st :
  visit_bits cb b (n + m) i st = let '(st, go) := visit_bits cb b n i st in if go : bool then visit_bits cb b m (i + Z.of_nat n) st else (st, false).
Proof.
  revert i st. induction n as [|n IH]; intros i st; cbn [visit_bits Nat.add]; [by rewrite Z.add_0_r|].
  destruct (cb st i (bit b i)) as [st1 []]; [|done]. rewrite IH. destruct (visit_bits cb b n (i + 1) st1) as [st2 []]; [|done]. f_equal. lia.
Qed.

(** How many bits of the byte are left before its end and the limit. *)
Definition left_in_byte (bo offset end_ : Z) : nat :=
  Z.to_nat (if end_ =? 0 then 8 - bo else Z.min (8 - bo) (end_ - offset)).

Lemma bits_of_visits {A} (cb : A → Z → Z → A * bool) b q c end_ fuel bo st :
  b !! Z.to_nat q = Some c → 0 <= q → 0 <= bo <= 8 → (8 - bo <= Z.of_nat fuel) → (end_ = 0 ∨ 8 * q + bo < end_ ∨ bo = 8 ∧ 8 * q + bo <= end_) →
  let n := left_in_byte bo (8 * q + bo) end_ in
  let r := visit_bits cb b n (8 * q + bo) st in
  (bits_of fuel cb (byteZ c) bo (8 * q + bo) end_ st).1 = r ∧
  (r.2 = true → (bits_of fuel cb (byteZ c) bo (8 * q + bo) end_ st).2 = 8 * q + bo + Z.of_nat n).
Proof.
  intros Hc Hq. revert bo st. induction fuel as [|fuel IH]; intros bo st Hbo Hf He.
  { assert (bo = 8) as -> by lia. assert (Hn : left_in_byte 8 (8 * q + 8) end_ = 0%nat) by (unfold left_in_byte; destruct (Z.eqb_spec end_ 0); lia).
    cbv zeta. rewrite Hn. cbn. split; [done|lia]. }
  cbn [bits_of]. destruct (Z.leb_spec 8 bo).
  { assert (bo = 8) as -> by lia. assert (Hn : left_in_byte 8 (8 * q + 8) end_ = 0%nat) by (unfold left_in_byte; destruct (Z.eqb_spec end_ 0); lia).
    cbv zeta. rewrite Hn. cbn. split; [done|lia]. }
  assert (Hbit : Z.land (Z.shiftr (byteZ c) (7 - bo)) 1 = bit b (8 * q + bo)).
  { unfold bit. rewrite land_1_testbit by lia. replace ((8 * q + bo) / 8) with q by (Z.div_mod_to_equations; lia).
    replace ((8 * q + bo) mod 8) with bo by (Z.div_mod_to_equations; lia). by rewrite Hc. }
  assert (Hn : left_in_byte bo (8 * q + bo) end_ = S (left_in_byte (bo + 1) (8 * q + bo + 1) end_)).
  { unfold left_in_byte. destruct (Z.eqb_spec end_ 0); lia. }
  cbv zeta. rewrite Hn. cbn [visit_bits]. rewrite Hbit. destruct (cb st (8 * q + bo) (bit b (8 * q + bo))) as [st1 []]; [|done].
  destruct ((end_ <=? 8 * q + bo + 1) && negb (end_ =? 0)) eqn:Eb.
  - apply andb_true_iff in Eb as [E1%Z.leb_le E2%negb_true_iff%Z.eqb_neq].
    assert (Hz : left_in_byte (bo + 1) (8 * q + bo + 1) end_ = 0%nat) by (unfold left_in_byte; destruct (Z.eqb_spec end_ 0); lia).
    rewrite Hz. cbn. split; [done|lia].
  - destruct (IH (bo + 1) st1) as [H1 H2]; [lia|lia| |].
    + apply andb_false_iff in Eb as [E1%Z.leb_gt|E2%negb_false_iff%Z.eqb_eq]; lia.
    + cbv zeta in *. rewrite Z.add_assoc in *. split; [done|]. intros Hr. rewrite H2 by done. lia.
Qed.

(** The bits of a traversal: up to the limit, if there is one, and the end. *)
Definition stop (b : bytes) (end_ : Z) : Z := if end_ =? 0 then BitSize b else Z.min end_ (BitSize b).

Lemma bytes_of_visits {A} (cb : A → Z → Z → A * bool) b l q bo end_ st :
  l = drop (Z.to_nat q) b → 0 <= q → 0 <= bo < 8 → 0 <= end_ → (end_ = 0 ∨ 8 * q + bo < end_) →
  bytes_of cb l bo (8 * q + bo) end_ st = (visit_bits cb b (Z.to_nat (stop b end_ - (8 * q + bo))) (8 * q + bo) st).1.
Proof.
  revert q bo st. induction l as [|c l IH]; intros q bo st Hl Hq Hbo He0 He; cbn [bytes_of].
  { assert (Hlen : (length b <= Z.to_nat q)%nat) by (rewrite <- (Nat.sub_0_le (length b) (Z.to_nat q)), <- length_drop, <- Hl; done).
    assert (Hz : Z.to_nat (stop b end_ - (8 * q + bo)) = 0%nat) by (unfold stop, BitSize; destruct (end_ =? 0); lia).
    by rewrite Hz. }
  assert (Hc : b !! Z.to_nat q = Some c) by (rewrite <- (Nat.add_0_r (Z.to_nat q)), <- lookup_drop, <- Hl; done).
  pose proof (lookup_lt_Some _ _ _ Hc) as Hlt.
  destruct (bits_of_visits cb b q c end_ 8 bo st Hc Hq ltac:(lia) ltac:(lia) ltac:(lia)) as [H1 H2]. cbv zeta in *.
  set (n := left_in_byte bo (8 * q + bo) end_) in *.
  destruct (bits_of 8 cb (byteZ c) bo (8 * q + bo) end_ st) as [[st1 go] off]. cbn [fst snd] in *.
  assert (Hn : (n <= Z.to_nat (stop b end_ - (8 * q + bo)))%nat).
  { unfold n, left_in_byte, stop, BitSize. destruct (end_ =? 0); lia. }
  replace (Z.to_nat (stop b end_ - (8 * q + bo))) with (n + (Z.to_nat (stop b end_ - (8 * q + bo)) - n))%nat by lia.
  rewrite visit_bits_app, <- H1. destruct go; [|done]. cbn [negb]. specialize (H2 ltac:(by rewrite <- H1)). subst off.
  destruct ((0 <? end_) && (end_ <=? 8 * q + bo + Z.of_nat n)) eqn:Eb.
  - apply andb_true_iff in Eb as [E1%Z.ltb_lt E2%Z.leb_le].
    assert (Hz : (Z.to_nat (stop b end_ - (8 * q + bo)) - n)%nat = 0%nat) by (unfold stop; destruct (Z.eqb_spec end_ 0); lia).
    by rewrite Hz.
  - assert (Hn8 : Z.of_nat n = 8 - bo).
    { unfold n, left_in_byte. apply andb_false_iff in Eb as [E%Z.ltb_ge|E%Z.leb_gt]; destruct (Z.eqb_spec end_ 0); unfold n, left_in_byte in *; try lia.
      destruct (Z.eqb_spec end_ 0); lia. }
    rewrite Hn8 in *. replace (8 * q + bo + (8 - bo)) with (8 * (q + 1) + 0) in * by lia. rewrite IH; [|..].
    + f_equal. f_equal. lia.
    + rewrite Z2Nat.inj_add by lia. change (Z.to_nat 1) with 1%nat. rewrite <- drop_drop, <- Hl. done.
    + lia.
    + lia.
    + lia.
    + apply andb_false_iff in Eb as [E%Z.ltb_ge|E%Z.leb_gt]; lia.
Qed.

Lemma ForEachBit_visits {A} (cb : A → Z → Z → A * bool) b begin end_ st :
  0 <= begin → 0 <= end_ → (end_ = 0 ∨ begin < end_) →
  ForEachBit b begin end_ cb st = (visit_bits cb b (Z.to_nat (stop b end_ - begin)) begin st).1.
Proof.
  intros Hb He0 He. unfold ForEachBit. rewrite Z.quot_div_nonneg, Z.rem_mod_nonneg by lia.
  pose proof (Z.mod_pos_bound begin 8). pose proof (Z.div_pos begin 8 Hb ltac:(lia)). pose proof (Z.div_mod begin 8 ltac:(lia)) as Hd.
  set (q := begin / 8) in *. set (bo := begin mod 8) in *. clearbody q bo. subst begin. apply bytes_of_visits; try done; lia.
Qed.
