(* ===== verification/StringCmd.v ===== *)
(** * String commands: [internal/command/string.go] *)

From stdpp Require Import base gmap list strings.
From Stdlib Require Import ZArith Lia Ascii.
From S2P Require Import Prelude GoText Strconv Resp ObjString Runtime GoTime TimeWheel KeySpace Bitmap.

Local Open Scope Z_scope.

Section string.
Context {O : Type} `{!Objects O} {env : Env} {rt : Runtime}.
Local Abbreviation M := (M O).

(** ** String objects in memory *)

(** [object.MakeStringObject] and [object.MakeRawStringObject] *)
Definition MakeStringObject (a : arg) : M (entity O) :=
  b ← string_of a;
  let '(v, ok) := isInt b in
  if ok : bool then mret (EInt v)
  else a ← own a;
       mret (EStr (if Z.of_nat (length b) <=? 44 then EncEmbstr else EncRaw) a).
Definition MakeRawStringObject (a : arg) : M (entity O) := a ← own a; mret (EStr EncRaw a).

(** The bytes of a key: an error reply, or a slice that is nil for a missing key. *)
Definition getAsString (key : bytes) : M (reply + arg) :=
  e ← GetEntity key;
  mret match e with
       | None => inr ANil
       | Some (EInt v) => inr (ALit (formatInt64 v))
       | Some (EStr _ b) => inr b
       | Some (EBytes b) => inr b
       | Some (EObj _) => inl RWrongType
       end.

(** [len(a)], and [append(a, b...)]: nil grows into a new array. *)
Definition len_of (a : arg) : M Z := b ← string_of a; mret (Z.of_nat (length b)).
Definition append (a : arg) (b : bytes) : M arg :=
  a ← own a;
  match a with
  | ARef s => λ db, let '(m, s') := append_slice newcap (memory db) s b in Ret (ARef s', set_mem db m)
  | _ => if bool_decide (b = []) then mret ANil
         else s ← alloc (b ++ replicate (newcap 0 (length b) - length b) (Zbyte 0));
              mret (ARef (MkSlice (Arr s) 0 (length b)))
  end.

(** [a[i] = c] *)
Definition store (a : arg) (i : Z) (c : ascii) : M unit :=
  match a with
  | ARef s => if (0 <=? i) && (i <? Z.of_nat (SLen s))
              then modify (λ db, set_mem db (alter (λ arr, <[(SOff s + Z.to_nat i)%nat := c]> arr) (Arr s) (memory db)))
              else panic
  | _ => panic
  end.

(** ** Reading *)

Definition execGet : ExecFunc O := λ args,
  key ← str_at args 0;
  r ← getAsString key;
  mret match r with inl e => e | inr ANil => RNull | inr b => RBulk b end.

Definition execStrLen : ExecFunc O := λ args,
  key ← str_at args 0;
  r ← getAsString key;
  match r with
  | inl e => mret e
  | inr ANil => mret (RInt 0)
  | inr b => n ← len_of b; mret (RInt n)
  end.

(** A key of the wrong type counts as missing. *)
Definition execMGet : ExecFunc O := λ args,
  keys ← forM args string_of;
  result ← forM keys (λ key, r ← getAsString key; mret match r with inl _ => ANil | inr b => b end);
  mret (RMultiBulk result).

(** [utils.ConvertRange] *)
Definition ConvertRange (start end_ size : Z) : Z * Z :=
  let start' := if start <? - size then None else if start <? 0 then Some (size + start) else if size <=? start then None else Some start in
  match start' with
  | None => (-1, -1)
  | Some start =>
      let end' := if end_ <? - size then None else if end_ <? 0 then Some (size + end_ + 1) else if end_ <? size then Some (end_ + 1) else Some size in
      match end' with
      | None => (-1, -1)
      | Some end_ => if end_ <? start then (-1, -1) else (start, end_)
      end
  end.

(** [a[beg:end]] *)
Definition subslice (a : arg) (beg end_ : Z) : arg :=
  match a with
  | ANil => ANil
  | ARef s => ARef (MkSlice (Arr s) (SOff s + Z.to_nat beg) (Z.to_nat (end_ - beg)))
  | ALit b => ALit (take (Z.to_nat (end_ - beg)) (drop (Z.to_nat beg) b))
  end.

Definition not_integer : reply := RErr "ERR value is not an integer or out of range".

Definition execGetRange : ExecFunc O := λ args,
  key ← str_at args 0;
  a1 ← str_at args 1;
  match ParseInt a1 with
  | None => mret not_integer
  | Some startIdx =>
      a2 ← str_at args 2;
      match ParseInt a2 with
      | None => mret not_integer
      | Some endIdx =>
          r ← getAsString key;
          match r with
          | inl e => mret e
          | inr ANil => mret RNull
          | inr bs =>
              bytesLen ← len_of bs;
              let '(beg, end_) := ConvertRange startIdx endIdx bytesLen in
              if beg <? 0 then mret RNull else mret (RBulk (subslice bs beg end_))
          end
      end
  end.

(** ** Options of SET *)

Inductive policy := upsertPolicy | insertPolicy | updatePolicy.
#[global] Instance policy_eq_dec : EqDecision policy.
Proof. solve_decision. Defined.

Definition unlimitedTTL : Z := 0.

Record setopts := MkSetopts {
  opt_policy : policy;
  ttl : Z;
  ifeq : option bytes;
  ifne : option bytes;
  ifdeq : option bytes;
  ifdne : option bytes
}.

(** The value of EX or PX: positive, in milliseconds. *)
Definition ttl_arg (cmd : string) (unit_ms : Z) (o_ttl : Z) (next : option bytes) : reply + Z :=
  if negb (o_ttl =? unlimitedTTL) then inl RSyntax else
  match next with
  | None => inl RSyntax
  | Some v => match ParseInt v with
              | None => inl RSyntax
              | Some ttlArg => if ttlArg <=? 0 then inl (RErr ("ERR invalid expire time in " ++ cmd))
                               else inr (wrap64 (ttlArg * unit_ms))
              end
  end.

Fixpoint parse_set (l : list bytes) (o : setopts) : reply + setopts :=
  match l with
  | [] => inr o
  | a :: l =>
      let arg := ToUpper a in
      if bytes_eqb arg (str "NX") then
        if bool_decide (opt_policy o = updatePolicy) then inl RSyntax
        else parse_set l (MkSetopts insertPolicy (ttl o) (ifeq o) (ifne o) (ifdeq o) (ifdne o))
      else if bytes_eqb arg (str "XX") then
        if bool_decide (opt_policy o = insertPolicy) then inl RSyntax
        else parse_set l (MkSetopts updatePolicy (ttl o) (ifeq o) (ifne o) (ifdeq o) (ifdne o))
      else if bytes_eqb arg (str "EX") then
        match ttl_arg "set" 1000 (ttl o) (head l) with
        | inl e => inl e
        | inr t => match l with [] => inl RSyntax | _ :: l => parse_set l (MkSetopts (opt_policy o) t (ifeq o) (ifne o) (ifdeq o) (ifdne o)) end
        end
      else if bytes_eqb arg (str "PX") then
        match ttl_arg "set" 1 (ttl o) (head l) with
        | inl e => inl e
        | inr t => match l with [] => inl RSyntax | _ :: l => parse_set l (MkSetopts (opt_policy o) t (ifeq o) (ifne o) (ifdeq o) (ifdne o)) end
        end
      else if bytes_eqb arg (str "IFEQ") then
        match l with [] => inl RSyntax | v :: l => parse_set l (MkSetopts (opt_policy o) (ttl o) (Some v) (ifne o) (ifdeq o) (ifdne o)) end
      else if bytes_eqb arg (str "IFNE") then
        match l with [] => inl RSyntax | v :: l => parse_set l (MkSetopts (opt_policy o) (ttl o) (ifeq o) (Some v) (ifdeq o) (ifdne o)) end
      else if bytes_eqb arg (str "IFDEQ") then
        match l with [] => inl RSyntax | v :: l => parse_set l (MkSetopts (opt_policy o) (ttl o) (ifeq o) (ifne o) (Some v) (ifdne o)) end
      else if bytes_eqb arg (str "IFDNE") then
        match l with [] => inl RSyntax | v :: l => parse_set l (MkSetopts (opt_policy o) (ttl o) (ifeq o) (ifne o) (ifdeq o) (Some v)) end
      else inl RSyntax
  end.

(** One conditional option: a reply when the command stops here. *)
Definition check_cond (key : bytes) (cond : option bytes) (holds : option bytes → bytes → bool) : M (option reply) :=
  match cond with
  | None => mret None
  | Some v =>
      r ← getAsString key;
      match r with
      | inl e => mret (Some e)
      | inr existing => b ← gets (λ db, arg_opt (memory db) existing); mret (if holds b v then None else Some RNull)
      end
  end.

Definition cond_ifeq (existing : option bytes) (v : bytes) : bool :=
  match existing with None => false | Some b => bytes_eqb b v end.
Definition cond_ifne (existing : option bytes) (v : bytes) : bool :=
  match existing with None => true | Some b => negb (bytes_eqb b v) end.
Definition cond_ifdeq (existing : option bytes) (v : bytes) : bool :=
  match existing with None => false | Some b => bytes_eqb (ValueDigest b) v end.
Definition cond_ifdne (existing : option bytes) (v : bytes) : bool :=
  match existing with None => true | Some b => negb (bytes_eqb (ValueDigest b) v) end.

(** The first check that stops. *)
Fixpoint first_stop (cs : list (M (option reply))) : M (option reply) :=
  match cs with
  | [] => mret None
  | c :: cs => r ← c; match r with Some e => mret (Some e) | None => first_stop cs end
  end.

(** [aof.MakeExpireCmd] *)
Definition MakeExpireCmd (key : bytes) (expireAt : Z) : list arg :=
  ToCmdLine [str "PEXPIREAT"; key; Itoa (Z.quot (time_UnixNano expireAt) 1000000)].

(** [time.Now().Add(time.Duration(ttl) * time.Millisecond)] *)
Definition deadline (ms : Z) : M Z := now ← Now; mret (time_Add now (wrap64 (ms * Millisecond))).

Definition execSet : ExecFunc O := λ args,
  key ← str_at args 0;
  value ← arg_at args 1;
  opts ← forM (drop 2 args) string_of;
  match parse_set opts (MkSetopts upsertPolicy unlimitedTTL None None None None) with
  | inl e => mret e
  | inr o =>
      stop ← first_stop [check_cond key (ifeq o) cond_ifeq; check_cond key (ifne o) cond_ifne;
                         check_cond key (ifdeq o) cond_ifdeq; check_cond key (ifdne o) cond_ifdne];
      match stop with
      | Some e => mret e
      | None =>
          entity ← MakeStringObject value;
          result ← match opt_policy o with
                   | upsertPolicy => PutEntity key entity;; mret 1
                   | insertPolicy => PutIfAbsent key entity
                   | updatePolicy => PutIfExists key entity
                   end;
          if 0 <? result then
            (if negb (ttl o =? unlimitedTTL) then
               expireTime ← deadline (ttl o);
               Expire key expireTime;;
               addAof (ToCmdLine3 "SET" (take 2 args));;
               addAof (MakeExpireCmd key expireTime)
             else
               Persist key;;
               addAof (ToCmdLine3 "set" args));;
            mret ROk
          else mret RNull
      end
  end.

(** ** Writing *)

Definition execSetNX : ExecFunc O := λ args,
  key ← str_at args 0;
  value ← arg_at args 1;
  entity ← MakeStringObject value;
  result ← PutIfAbsent key entity;
  addAof (ToCmdLine3 "setnx" args);;
  mret (RInt result).

(** SETEX and PSETEX differ in the unit; both log a [setex] line. *)
Definition setex (unit_ms : Z) : ExecFunc O := λ args,
  key ← str_at args 0;
  value ← arg_at args 2;
  a1 ← str_at args 1;
  match ParseInt a1 with
  | None => mret RSyntax
  | Some ttlArg =>
      if ttlArg <=? 0 then mret (RErr "ERR invalid expire time in setex") else
      entity ← MakeStringObject value;
      PutEntity key entity;;
      expireTime ← deadline (wrap64 (ttlArg * unit_ms));
      Expire key expireTime;;
      addAof (ToCmdLine3 "setex" args);;
      addAof (MakeExpireCmd key expireTime);;
      mret ROk
  end.
Definition execSetEX : ExecFunc O := setex 1000.
Definition execPSetEX : ExecFunc O := setex 1.

Definition execGetSet : ExecFunc O := λ args,
  key ← str_at args 0;
  value ← arg_at args 1;
  r ← getAsString key;
  match r with
  | inl e => mret e
  | inr old =>
      entity ← MakeStringObject value;
      PutEntity key entity;;
      Persist key;;
      addAof (ToCmdLine3 "set" args);;
      mret match old with ANil => RNull | _ => RBulk old end
  end.

Definition execGetDel : ExecFunc O := λ args,
  key ← str_at args 0;
  r ← getAsString key;
  match r with
  | inl e => mret e
  | inr ANil => mret RNull
  | inr old =>
      Remove key;;
      addAof (ToCmdLine3 "del" args);;
      mret (RBulk old)
  end.

(** The loop over the options of GETEX: PERSIST acts at once, and an unknown
    option is skipped. *)
Fixpoint getex_opts (key : bytes) (l : list bytes) (ttl : Z) : M (reply + Z) :=
  match l with
  | [] => mret (inr ttl)
  | a :: l =>
      let arg := ToUpper a in
      if bytes_eqb arg (str "EX") then
        match ttl_arg "getex" 1000 ttl (head l) with
        | inl e => mret (inl e)
        | inr t => match l with [] => mret (inl RSyntax) | _ :: l => getex_opts key l t end
        end
      else if bytes_eqb arg (str "PX") then
        match ttl_arg "getex" 1 ttl (head l) with
        | inl e => mret (inl e)
        | inr t => match l with [] => mret (inl RSyntax) | _ :: l => getex_opts key l t end
        end
      else if bytes_eqb arg (str "PERSIST") then
        if negb (ttl =? unlimitedTTL) then mret (inl RSyntax)
        else Persist key;; getex_opts key l ttl
      else getex_opts key l ttl
  end.

Definition execGetEX : ExecFunc O := λ args,
  key ← str_at args 0;
  r ← getAsString key;
  match r with
  | inl e => mret e
  | inr ANil => mret RNull
  | inr bytes =>
      opts ← forM (drop 1 args) string_of;
      r ← getex_opts key opts unlimitedTTL;
      match r with
      | inl e => mret e
      | inr ttl =>
          (if (1 <? length args)%nat then
             if negb (ttl =? unlimitedTTL) then
               expireTime ← deadline ttl;
               Expire key expireTime;;
               addAof (MakeExpireCmd key expireTime)
             else
               Persist key;;
               a0 ← arg_at args 0;
               addAof (ToCmdLine3 "persist" [a0])
           else mret tt);;
          mret (RBulk bytes)
      end
  end.

(** ** Several keys *)

(** Keys and values of an argument list; an odd last argument is left out. *)
Fixpoint pairs_of (args : list arg) : list (arg * arg) :=
  match args with k :: v :: l => (k, v) :: pairs_of l | _ => [] end.

Definition prepareMSet : PreFunc O := λ args,
  keys ← forM (pairs_of args).*1 string_of; mret (keys, []).

Definition put_strings (keys : list bytes) (values : list arg) : M unit :=
  forM_ (zip keys values) (λ '(key, value), e ← MakeStringObject value; PutEntity key e;; mret tt).

Definition execMSet : ExecFunc O := λ args,
  if negb (length args mod 2 =? 0)%nat then mret RSyntax else
  keys ← forM (pairs_of args).*1 string_of;
  put_strings keys (pairs_of args).*2;;
  addAof (ToCmdLine3 "mset" args);;
  mret ROk.

(** Whether one of the keys exists; the search stops at the first. *)
Fixpoint any_exists (keys : list bytes) : M bool :=
  match keys with
  | [] => mret false
  | key :: keys => e ← GetEntity key; match e with Some _ => mret true | None => any_exists keys end
  end.

Definition execMSetNX : ExecFunc O := λ args,
  if negb (length args mod 2 =? 0)%nat then mret RSyntax else
  keys ← forM (pairs_of args).*1 string_of;
  exists_ ← any_exists keys;
  if exists_ : bool then mret (RInt 0) else
  put_strings keys (pairs_of args).*2;;
  addAof (ToCmdLine3 "msetnx" args);;
  mret (RInt 1).

Definition prepareMSetEX : PreFunc O := λ args,
  match args with
  | [] => mret ([], [])
  | a0 :: l =>
      n ← string_of a0;
      match ParseInt n with
      | None => mret ([], [])
      | Some numkeys =>
          if numkeys <? 1 then mret ([], [])
          else if max_make <? numkeys * 16 then panic
          else keys ← forM (take (Z.to_nat (Z.min numkeys (Z.of_nat (length l)))) (pairs_of l).*1) string_of; mret (keys, [])
      end
  end.

Definition msetex_time (e : option Z) : reply + Z :=
  match e with
  | None => inl (RErr "ERR invalid expire time in msetex")
  | Some t => if t <=? 0 then inl (RErr "ERR invalid expire time in msetex") else inr t
  end.

(** The options of MSETEX; [-1] keeps the deadline, [-2] is one that has passed. *)
Fixpoint msetex_opts (l : list bytes) (p : policy) (ttl : Z) : M (reply + (policy * Z)) :=
  match l with
  | [] => mret (inr (p, ttl))
  | a :: l =>
      let arg := ToUpper a in
      let timed (f : Z → M Z) :=
        if negb (ttl =? unlimitedTTL) then mret (inl RSyntax) else
        match l with
        | [] => mret (inl RSyntax)
        | v :: l => match msetex_time (ParseInt v) with
                    | inl e => mret (inl e)
                    | inr t => t ← f t; msetex_opts l p t
                    end
        end in
      let until (ms : Z) : M Z := now ← Now; let ttl := wrap64 (ms - time_UnixMilli now) in mret (if ttl <? 0 then -2 else ttl) in
      if bytes_eqb arg (str "NX") then
        if bool_decide (p = updatePolicy) then mret (inl RSyntax) else msetex_opts l insertPolicy ttl
      else if bytes_eqb arg (str "XX") then
        if bool_decide (p = insertPolicy) then mret (inl RSyntax) else msetex_opts l updatePolicy ttl
      else if bytes_eqb arg (str "EX") then timed (λ t, mret (wrap64 (t * 1000)))
      else if bytes_eqb arg (str "PX") then timed (λ t, mret t)
      else if bytes_eqb arg (str "EXAT") then timed (λ t, until (wrap64 (t * 1000)))
      else if bytes_eqb arg (str "PXAT") then timed until
      else if bytes_eqb arg (str "KEEPTTL") then msetex_opts l p (-1)
      else mret (inl RSyntax)
  end.

(** Whether every pair was written. *)
Fixpoint msetex_put (p : policy) (kvs : list (arg * arg)) : M bool :=
  match kvs with
  | [] => mret true
  | (k, value) :: kvs =>
      key ← string_of k;
      e ← MakeStringObject value;
      ok ← match p with
           | upsertPolicy => PutEntity key e;; mret true
           | insertPolicy => r ← PutIfAbsent key e; mret (negb (r =? 0))
           | updatePolicy => r ← PutIfExists key e; mret (negb (r =? 0))
           end;
      rest ← msetex_put p kvs;
      mret (ok && rest)
  end.

Definition execMSetEX : ExecFunc O := λ args,
  if (length args <? 3)%nat then mret RSyntax else
  n ← str_at args 0;
  match ParseInt n with
  | None => mret not_integer
  | Some numkeys =>
      if numkeys <? 1 then mret not_integer else
      let kvEnd := wrap64 (1 + wrap64 (numkeys * 2)) in
      if Z.of_nat (length args) <? kvEnd then mret (RErr "ERR wrong number of key-value pairs") else
      if kvEnd <? 1 then panic else
      let n := Z.to_nat numkeys in
      opts ← forM (drop (Z.to_nat kvEnd) args) string_of;
      r ← msetex_opts opts upsertPolicy unlimitedTTL;
      match r with
      | inl e => mret e
      | inr (p, ttl) =>
          let kvs := pairs_of (take (Z.to_nat kvEnd - 1) (drop 1 args)) in
          applied ← msetex_put p kvs;
          if negb applied then mret (RInt 0) else
          keys ← forM kvs.*1 string_of;
          (if 0 <? ttl then
             expireTime ← deadline ttl;
             forM_ keys (λ key, Expire key expireTime)
           else if ttl =? -2 then
             expireTime ← Now;
             forM_ keys (λ key, Expire key expireTime)
           else mret tt);;
          addAof (ToCmdLine3 "msetex" args);;
          mret (RInt 1)
      end
  end.

(** ** Counters *)

(** INCR, INCRBY, DECR and DECRBY after their arguments are parsed: [f] gives
    the new value of a present integer, [absent] the text and the reply for a
    missing key. *)
Definition counter (line : string) (args : list arg) (key : bytes) (f : Z → Z) (absent : arg) (absent_reply : Z) : M reply :=
  r ← getAsString key;
  match r with
  | inl e => mret e
  | inr ANil =>
      e ← MakeStringObject absent;
      PutEntity key e;;
      addAof (ToCmdLine3 line args);;
      mret (RInt absent_reply)
  | inr bytes =>
      b ← string_of bytes;
      match ParseInt b with
      | None => mret not_integer
      | Some val =>
          e ← MakeStringObject (ALit (Itoa (f val)));
          PutEntity key e;;
          addAof (ToCmdLine3 line args);;
          mret (RInt (f val))
      end
  end.

Definition execIncr : ExecFunc O := λ args,
  key ← str_at args 0; counter "incr" args key (λ v, wrap64 (v + 1)) (ALit (str "1")) 1.
Definition execDecr : ExecFunc O := λ args,
  key ← str_at args 0; counter "decr" args key (λ v, wrap64 (v - 1)) (ALit (str "-1")) (-1).

(** A missing key gets the argument as it was sent. *)
Definition execIncrBy : ExecFunc O := λ args,
  key ← str_at args 0;
  rawDelta ← str_at args 1;
  match ParseInt rawDelta with
  | None => mret not_integer
  | Some delta => a1 ← arg_at args 1; counter "incrby" args key (λ v, wrap64 (v + delta)) a1 delta
  end.
Definition execDecrBy : ExecFunc O := λ args,
  key ← str_at args 0;
  rawDelta ← str_at args 1;
  match ParseInt rawDelta with
  | None => mret not_integer
  | Some delta => counter "decrby" args key (λ v, wrap64 (v - delta)) (ALit (Itoa (wrap64 (- delta)))) (wrap64 (- delta))
  end.

Definition not_float : reply := RErr "ERR value is not a valid float".

Definition execIncrByFloat : ExecFunc O := λ args,
  key ← str_at args 0;
  rawDelta ← str_at args 1;
  match ParseFloat rawDelta with
  | None => mret not_float
  | Some delta =>
      r ← getAsString key;
      match r with
      | inl e => mret e
      | inr ANil =>
          a1 ← arg_at args 1;
          e ← MakeStringObject a1;
          PutEntity key e;;
          addAof (ToCmdLine3 "incrbyfloat" args);;
          mret (RBulk a1)
      | inr bytes =>
          b ← string_of bytes;
          match ParseFloat b with
          | None => mret not_float
          | Some val =>
              resultBytes ← own (ALit (FormatFloat (fadd val delta)));
              e ← MakeStringObject resultBytes;
              PutEntity key e;;
              addAof (ToCmdLine3 "incrbyfloat" args);;
              mret (RBulk resultBytes)
          end
      end
  end.

(** ** Appending and overwriting *)

Definition execAppend : ExecFunc O := λ args,
  key ← str_at args 0;
  r ← getAsString key;
  match r with
  | inl e => mret e
  | inr bytes =>
      existed ← GetEntity key;
      more ← str_at args 1;
      bytes ← append bytes more;
      e ← match existed with Some _ => MakeRawStringObject bytes | None => MakeStringObject bytes end;
      PutEntity key e;;
      addAof (ToCmdLine3 "append" args);;
      n ← len_of bytes;
      mret (RInt n)
  end.

(** The loop that writes the value, byte by byte, reading it as it goes. *)
Fixpoint overwrite (n : nat) (i : Z) (bytes value : arg) (offset bytesLen : Z) : M arg :=
  match n with
  | 0%nat => mret bytes
  | S n =>
      v ← string_of value;
      c ← lift (must (v !! Z.to_nat i));
      let idx := wrap64 (offset + i) in
      bytes ← (if bytesLen <=? idx then append bytes [c] else store bytes idx c;; mret bytes);
      overwrite n (i + 1) bytes value offset bytesLen
  end.

Definition execSetRange : ExecFunc O := λ args,
  key ← str_at args 0;
  a1 ← str_at args 1;
  match ParseInt a1 with
  | None => mret (RConst (StandardErrReply (ParseIntError a1)))
  | Some offset =>
      value ← arg_at args 2;
      r ← getAsString key;
      match r with
      | inl e => mret e
      | inr bytes =>
          bytes ← own bytes;
          bytesLen ← len_of bytes;
          n ← len_of value;
          if n =? 0 then mret (RInt bytesLen) else
          bytes ← (if bytesLen <? offset then
                     if max_make <? offset - bytesLen then panic
                     else append bytes (replicate (Z.to_nat (offset - bytesLen)) (Zbyte 0))
                   else mret bytes);
          bytesLen ← len_of bytes;
          bytes ← overwrite (Z.to_nat n) 0 bytes value offset bytesLen;
          e ← MakeRawStringObject bytes;
          PutEntity key e;;
          addAof (ToCmdLine3 "setRange" args);;
          len ← len_of bytes;
          mret (RInt len)
      end
  end.

(** ** Bits *)

(** [bm.SetBit(offset, v)] on the slice: [grow] appends, the byte is written in
    place. *)
Definition bm_SetBit (bytes : arg) (offset v : Z) : M arg :=
  len ← len_of bytes;
  let gap := toByteSize (wrap64 (offset + 1)) - len in
  bytes ← (if gap <=? 0 then mret bytes
           else if max_make <? gap then panic
           else append bytes (replicate (Z.to_nat gap) (Zbyte 0)));
  let byteIndex := Z.quot offset 8 in
  b ← string_of bytes;
  old ← lift (if byteIndex <? 0 then Panic else must (b !! Z.to_nat byteIndex));
  store bytes byteIndex (Zbyte (set_mask (byteZ old) (mask offset) v));;
  mret bytes.

Definition bad_offset : reply := RErr "ERR bit offset is not an integer or out of range".
Definition bad_bit : reply := RErr "ERR bit is not an integer or out of range".

Definition parse_bit (s : bytes) : option Z :=
  if bytes_eqb s (str "1") then Some 1 else if bytes_eqb s (str "0") then Some 0 else None.

Definition execSetBit : ExecFunc O := λ args,
  key ← str_at args 0;
  a1 ← str_at args 1;
  match ParseInt a1 with
  | None => mret bad_offset
  | Some offset =>
      valStr ← str_at args 2;
      match parse_bit valStr with
      | None => mret bad_bit
      | Some v =>
          r ← getAsString key;
          match r with
          | inl e => mret e
          | inr bs =>
              bs ← own bs;
              b ← string_of bs;
              former ← lift (GetBit b offset);
              bs ← bm_SetBit bs offset v;
              e ← MakeRawStringObject bs;
              PutEntity key e;;
              addAof (ToCmdLine3 "setBit" args);;
              mret (RInt former)
          end
      end
  end.

Definition execGetBit : ExecFunc O := λ args,
  key ← str_at args 0;
  a1 ← str_at args 1;
  match ParseInt a1 with
  | None => mret bad_offset
  | Some offset =>
      r ← getAsString key;
      match r with
      | inl e => mret e
      | inr ANil => mret (RInt 0)
      | inr bs => b ← string_of bs; v ← lift (GetBit b offset); mret (RInt v)
      end
  end.

(** The unit of BITCOUNT and BITPOS: [true] is bytes. *)
Definition bit_mode (mode : option bytes) : option bool :=
  match mode with
  | None => Some true
  | Some m => let m := ToLower m in
              if bytes_eqb m (str "bit") then Some false else if bytes_eqb m (str "byte") then Some true else None
  end.

(** Start and end of a range, arguments [i] and [i + 1]; [inl] is a reply. *)
Definition bit_range (args : list arg) (i : nat) (size : Z) : M (reply + (Z * Z)) :=
  if (i <? length args)%nat then
    a ← str_at args i;
    match ParseInt a with
    | None => mret (inl not_integer)
    | Some startIdx =>
        b ← str_at args (i + 1);
        match ParseInt b with
        | None => mret (inl not_integer)
        | Some endIdx =>
            let '(beg, end_) := ConvertRange startIdx endIdx size in
            mret (if beg <? 0 then inl (RInt 0) else inr (beg, end_))
        end
    end
  else mret (inr (0, 0)).

(** [bits.OnesCount8] *)
Definition OnesCount8 (c : Z) : Z := foldl (λ n i, n + Z.land (Z.shiftr c i) 1) 0 [0; 1; 2; 3; 4; 5; 6; 7].

(** The callbacks of BITCOUNT and BITPOS. *)
Definition count_bit (n : Z) (_ : Z) (val : Z) : Z * bool := (if 0 <? val then n + 1 else n, true).
Definition count_byte (n : Z) (_ : Z) (val : Z) : Z * bool := (n + OnesCount8 val, true).
Definition first_bit (v : Z) (r o val : Z) : Z * bool := if val =? v then (o, false) else (r, true).

Definition execBitCount : ExecFunc O := λ args,
  key ← str_at args 0;
  r ← getAsString key;
  match r with
  | inl e => mret e
  | inr ANil => mret (RInt 0)
  | inr bs =>
      mode ← (if (3 <? length args)%nat then m ← str_at args 3; mret (Some m) else mret None);
      match bit_mode mode with
      | None => mret (RErr "ERR syntax error")
      | Some byteMode =>
          b ← string_of bs;
          let size := if byteMode : bool then Z.of_nat (length b) else BitSize b in
          range ← bit_range args 1 size;
          match range with
          | inl e => mret e
          | inr (beg, end_) =>
              mret (RInt (if byteMode : bool then ForEachByte b beg end_ count_byte 0
                          else ForEachBit b beg end_ count_bit 0))
          end
      end
  end.

Definition execBitPos : ExecFunc O := λ args,
  key ← str_at args 0;
  r ← getAsString key;
  match r with
  | inl e => mret e
  | inr ANil => mret (RInt (-1))
  | inr bs =>
      valStr ← str_at args 1;
      match parse_bit valStr with
      | None => mret bad_bit
      | Some v =>
          mode ← (if (4 <? length args)%nat then m ← str_at args 4; mret (Some m) else mret None);
          match bit_mode mode with
          | None => mret (RErr "ERR syntax error")
          | Some byteMode =>
              b ← string_of bs;
              let size := if byteMode : bool then Z.of_nat (length b) else BitSize b in
              range ← bit_range args 2 size;
              match range with
              | inl e => mret e
              | inr (beg, end_) =>
                  let '(beg, end_) := if byteMode : bool then (beg * 8, end_ * 8) else (beg, end_) in
                  mret (RInt (ForEachBit b beg end_ (first_bit v) (-1)))
              end
          end
      end
  end.
End string.
