(* ===== verification/KeyCmd.v ===== *)
(** * Key commands: [internal/command/keys.go], with the keys and undo logs of
    [tx_utils.go] and the command lines of [internal/persist/aof/marshal.go] *)

From stdpp Require Import base gmap list strings.
From Stdlib Require Import ZArith Lia Ascii SpecFloat.
From S2P Require Import Prelude GoText Strconv Resp ObjString Runtime GoTime TimeWheel KeySpace StringCmd.

Local Open Scope Z_scope.

Section keys.
Context {O : Type} `{!Objects O} {env : Env} {rt : Runtime}.
Local Abbreviation M := (M O).

(** ** Deleting and looking *)

Definition execDel : ExecFunc O := λ args,
  keys ← forM args string_of;
  deleted ← Removes keys;
  when (0 <? deleted) (addAof (ToCmdLine3 "del" args));;
  mret (RInt deleted).

Definition delex_arity : reply := RErr "ERR wrong number of arguments for 'delex' command".

(** The condition of DELEX on the current value, which is not nil. *)
Definition delex_cond (cond : bytes) : option (bytes → bytes → bool) :=
  if bytes_eqb cond (str "IFEQ") then Some (λ current v, bytes_eqb current v)
  else if bytes_eqb cond (str "IFNE") then Some (λ current v, negb (bytes_eqb current v))
  else if bytes_eqb cond (str "IFDEQ") then Some (λ current v, bytes_eqb (ValueDigest current) v)
  else if bytes_eqb cond (str "IFDNE") then Some (λ current v, negb (bytes_eqb (ValueDigest current) v))
  else None.

Definition execDelEX : ExecFunc O := λ args,
  if (length args <? 1)%nat || (3 <? length args)%nat then mret delex_arity else
  key ← str_at args 0;
  if (length args =? 1)%nat then
    e ← GetEntity key;
    match e with
    | None => mret (RInt 0)
    | Some _ => Remove key;; addAof (ToCmdLine3 "delex" args);; mret (RInt 1)
    end
  else
    a1 ← str_at args 1;
    if negb (length args =? 3)%nat then mret delex_arity else
    condVal ← str_at args 2;
    r ← getAsString key;
    match r with
    | inl e => mret e
    | inr a =>
        current ← gets (λ db, arg_opt (memory db) a);
        match delex_cond (ToUpper a1) with
        | None => mret (RErr "ERR Invalid condition. Use IFEQ, IFNE, IFDEQ, or IFDNE")
        | Some holds =>
            match current with
            | None => mret (RInt 0)
            | Some current =>
                if holds current condVal then Remove key;; addAof (ToCmdLine3 "delex" args);; mret (RInt 1)
                else mret (RInt 0)
            end
        end
    end.

Definition execExists : ExecFunc O := λ args,
  found ← forM args (λ a, key ← string_of a; e ← GetEntity key; mret (match e with Some _ => 1 | None => 0 end));
  mret (RInt (foldl Z.add 0 found)).

Definition execFlushDB : ExecFunc O := λ args,
  Flush;; addAof (ToCmdLine3 "flushdb" args);; mret ROk.

(** The name of a type; a hash that is not an object is no case here. *)
Definition type_name (t : ObjType) : bytes := TypeName (NewRobj t EncRaw VNil).

Definition getType (key : bytes) : M bytes :=
  e ← GetEntity key;
  mret match e with
       | None => str "none"
       | Some (EInt _) | Some (EStr _ _) | Some (EBytes _) => str "string"
       | Some (EObj o) => type_name (obj_type o)
       end.

Definition execType : ExecFunc O := λ args,
  key ← str_at args 0;
  result ← getType key;
  mret (if (0 <? length result)%nat then RConst (StatusReply result) else RConst UnknownErrReply).

(** ** Renaming *)

Definition prepareRename : PreFunc O := λ args,
  src ← str_at args 0; dest ← str_at args 1; mret ([dest], [src]).

Definition no_such_key : reply := RErr "no such key".

Definition move_ttl (src dest : bytes) (rawTTL : option Z) : M unit :=
  match rawTTL with
  | Some expireTime => Persist src;; Persist dest;; Expire dest expireTime
  | None => mret tt
  end.

Definition execRename : ExecFunc O := λ args,
  if negb (length args =? 2)%nat then mret (RErr "ERR wrong number of arguments for 'rename' command") else
  src ← str_at args 0;
  dest ← str_at args 1;
  e ← GetEntity src;
  match e with
  | None => mret no_such_key
  | Some entity =>
      rawTTL ← gets (λ db, ttlMap db !! src);
      PutEntity dest entity;;
      Remove src;;
      move_ttl src dest rawTTL;;
      addAof (ToCmdLine3 "rename" args);;
      mret ROk
  end.

Definition execRenameNx : ExecFunc O := λ args,
  src ← str_at args 0;
  dest ← str_at args 1;
  d ← GetEntity dest;
  match d with
  | Some _ => mret (RInt 0)
  | None =>
      e ← GetEntity src;
      match e with
      | None => mret no_such_key
      | Some entity =>
          rawTTL ← gets (λ db, ttlMap db !! src);
          Removes [src; dest];;
          PutEntity dest entity;;
          move_ttl src dest rawTTL;;
          addAof (ToCmdLine3 "renamenx" args);;
          mret (RInt 1)
      end
  end.

(** ** Deadlines *)

Definition expireOptNX : Z := 1.
Definition expireOptXX : Z := 2.
Definition expireOptGT : Z := 4.
Definition expireOptLT : Z := 8.

Fixpoint expire_flags (l : list bytes) (opts : Z) : reply + Z :=
  match l with
  | [] => inr opts
  | a :: l =>
      let opt := ToUpper a in
      if bytes_eqb opt (str "NX") then expire_flags l (Z.lor opts expireOptNX)
      else if bytes_eqb opt (str "XX") then expire_flags l (Z.lor opts expireOptXX)
      else if bytes_eqb opt (str "GT") then expire_flags l (Z.lor opts expireOptGT)
      else if bytes_eqb opt (str "LT") then expire_flags l (Z.lor opts expireOptLT)
      else inl (RConst (StandardErrReply (str "ERR Unsupported option " ++ a)))
  end.

Definition has_opt (opts flag : Z) : bool := negb (Z.land opts flag =? 0).

Definition parseExpireOption (l : list bytes) : reply + Z :=
  match expire_flags l 0 with
  | inl e => inl e
  | inr opts =>
      if has_opt opts expireOptNX && has_opt opts (Z.lor (Z.lor expireOptXX expireOptGT) expireOptLT)
      then inl (RErr "ERR NX and XX, GT or LT options at the same time are not compatible")
      else if has_opt opts expireOptGT && has_opt opts expireOptLT
      then inl (RErr "ERR GT and LT options at the same time are not compatible")
      else inr opts
  end.

Definition checkExpireOption (raw : option Z) (opts expireAt : Z) : bool :=
  if opts =? 0 then true
  else if has_opt opts expireOptNX && bool_decide (is_Some raw) then false
  else if has_opt opts expireOptXX && bool_decide (raw = None) then false
  else if has_opt opts expireOptGT && match raw with None => true | Some t => negb (time_After expireAt t) end then false
  else if has_opt opts expireOptLT && match raw with None => false | Some t => negb (time_Before expireAt t) end then false
  else true.

(** EXPIRE, EXPIREAT, PEXPIRE and PEXPIREAT after their number is parsed; [at_]
    computes the deadline, which for the relative forms reads the clock. *)
Definition expire_with (at_ : Z → M Z) : ExecFunc O := λ args,
  key ← str_at args 0;
  a1 ← str_at args 1;
  match ParseInt a1 with
  | None => mret not_integer
  | Some n =>
      e ← GetEntity key;
      match e with
      | None => mret (RInt 0)
      | Some _ =>
          expireAt ← at_ n;
          opts ← forM (drop 2 args) string_of;
          match parseExpireOption opts with
          | inl e => mret e
          | inr option =>
              raw ← gets (λ db, ttlMap db !! key);
              if negb (checkExpireOption raw option expireAt) then mret (RInt 0) else
              Expire key expireAt;;
              addAof (MakeExpireCmd key expireAt);;
              mret (RInt 1)
          end
      end
  end.

Definition execExpire : ExecFunc O := expire_with (λ n, now ← Now; mret (time_Add now (wrap64 (n * Second)))).
Definition execExpireAt : ExecFunc O := expire_with (λ n, mret (Unix_sec n)).
Definition execPExpire : ExecFunc O := expire_with (λ n, now ← Now; mret (time_Add now (wrap64 (n * Millisecond)))).
Definition execPExpireAt : ExecFunc O := expire_with (λ n, mret (Unix_nsec (wrap64 (n * Millisecond)))).

(** The readers of a deadline: [-2] for a missing key, [-1] for none. *)
Definition ttl_with (f : Z → M Z) : ExecFunc O := λ args,
  key ← str_at args 0;
  e ← GetEntity key;
  match e with
  | None => mret (RInt (-2))
  | Some _ =>
      raw ← gets (λ db, ttlMap db !! key);
      match raw with
      | None => mret (RInt (-1))
      | Some expireTime => n ← f expireTime; mret (RInt n)
      end
  end.

Definition execExpireTime : ExecFunc O := ttl_with (λ t, mret (time_Unix t)).
Definition execPExpireTime : ExecFunc O := ttl_with (λ t, mret (time_UnixMilli t)).
Definition execTTL : ExecFunc O := ttl_with (λ t, now ← Now; mret (f_round (Seconds (time_Sub t now)))).
Definition execPTTL : ExecFunc O := ttl_with (λ t, now ← Now; mret (f_round (f_of_Z (Milliseconds (time_Sub t now))))).

Definition execPersist : ExecFunc O := λ args,
  key ← str_at args 0;
  e ← GetEntity key;
  match e with
  | None => mret (RInt 0)
  | Some _ =>
      raw ← gets (λ db, ttlMap db !! key);
      match raw with
      | None => mret (RInt 0)
      | Some _ => Persist key;; addAof (ToCmdLine3 "persist" args);; mret (RInt 1)
      end
  end.

(** KEYS, with the order in which the dict is traversed and the compiled
    pattern; the keys of the traversal that have expired are removed, which for
    a [ConcurrentDict] takes no lock. *)
Definition execKeys (order : list bytes) (IsMatch : bytes → bool) : M reply :=
  result ← forM order (λ key,
    if negb (IsMatch key) then mret [] else
    expired ← IsExpired key;
    mret (if expired : bool then [] else [ALit key]));
  mret (RMultiBulk (concat result)).

(** ** Keys of commands and undo logs, [tx_utils.go] *)

Definition readFirstKey : PreFunc O := λ args, key ← str_at args 0; mret ([], [key]).
Definition writeFirstKey : PreFunc O := λ args, key ← str_at args 0; mret ([key], []).
Definition writeAllKeys : PreFunc O := λ args, keys ← forM args string_of; mret (keys, []).
Definition readAllKeys : PreFunc O := λ args, keys ← forM args string_of; mret ([], keys).
Definition noPrepare : PreFunc O := λ _, mret ([], []).
Definition prepareSetCalculate : PreFunc O := readAllKeys.
Definition prepareSetCalculateStore : PreFunc O := λ args,
  dest ← str_at args 0; keys ← forM (drop 1 args) string_of; mret ([dest], keys).

(** [aof.EntityToCmd]: no command for a stream. *)
Definition stringToCmd (key : bytes) (b : arg) : list arg := [ALit (str "SET"); ALit key; b].
Definition EntityToCmd (key : bytes) (e : entity O) : option (list arg) :=
  match e with
  | EInt v => Some (stringToCmd key (ALit (formatInt64 v)))
  | EStr _ b | EBytes b => Some (stringToCmd key b)
  | EObj o =>
      match obj_type o with
      | TypeString | TypeStream => None
      | TypeList => Some (ALit (str "RPUSH") :: ALit key :: obj_elems o)
      | TypeSet => Some (ALit (str "SADD") :: ALit key :: obj_elems o)
      | TypeHash => Some (ALit (str "HMSET") :: ALit key :: obj_elems o)
      | TypeZSet => Some (ALit (str "ZADD") :: ALit key :: obj_elems o)
      end
  end.

Definition toTTLCmd (raw : option Z) (key : bytes) : list arg :=
  match raw with
  | None => ToCmdLine [str "PERSIST"; key]
  | Some expireTime => ToCmdLine [str "PEXPIREAT"; key; Itoa (Z.quot (Z.quot (time_UnixNano expireTime) 1000) 1000)]
  end.

(** A nil command is dereferenced. *)
Fixpoint rollbackGivenKeys (keys : list bytes) : M (list (list arg)) :=
  match keys with
  | [] => mret []
  | key :: keys =>
      e ← GetEntity key;
      lines ← match e with
              | None => mret [ToCmdLine [str "DEL"; key]]
              | Some entity =>
                  cmd ← lift (must (EntityToCmd key entity));
                  raw ← gets (λ db, ttlMap db !! key);
                  mret [ToCmdLine [str "DEL"; key]; cmd; toTTLCmd raw key]
              end;
      rest ← rollbackGivenKeys keys;
      mret (lines ++ rest)
  end.

Definition rollbackFirstKey : UndoFunc O := λ args, key ← str_at args 0; rollbackGivenKeys [key].
Definition undoMSet : UndoFunc O := λ args, '(writeKeys, _) ← prepareMSet args; rollbackGivenKeys writeKeys.
Definition undoDel : UndoFunc O := λ args, keys ← forM args string_of; rollbackGivenKeys keys.
Definition undoRename : UndoFunc O := λ args, src ← str_at args 0; dest ← str_at args 1; rollbackGivenKeys [src; dest].
Definition undoExpire : UndoFunc O := λ args,
  key ← str_at args 0; raw ← gets (λ db, ttlMap db !! key); mret [toTTLCmd raw key].
End keys.
