(* ===== verification/Tx.v ===== *)
(** * Command table and transactions: [router.go], [transaction.go],
    [keyspace.go] and the execution of commands in [database.go]

    A connection carries the state of its transaction; it is passed along with
    the database.  Eviction belongs to the server and is a parameter. *)

From stdpp Require Import base gmap list strings.
From Stdlib Require Import ZArith Lia Ascii.
From S2P Require Import Prelude GoText Strconv Resp ObjString Runtime GoTime TimeWheel KeySpace StringCmd KeyCmd.

Local Open Scope Z_scope.

(** ** The command table *)

Record commandExtra := MkExtra { signs : list string; notifyClass : Z; notifyEvent : bytes }.

Record command (O : Type) := MkCommand {
  name : bytes;
  executor : ExecFunc O;
  prepare : option (PreFunc O);
  undo : option (UndoFunc O);
  arity : Z;
  flags : Z;
  extra : option commandExtra
}.
Arguments MkCommand {O}.
Arguments name {O}.
Arguments executor {O}.
Arguments prepare {O}.
Arguments undo {O}.
Arguments arity {O}.
Arguments flags {O}.
Arguments extra {O}.

Definition flagWrite : Z := 0.
Definition flagReadOnly : Z := 1.
Definition flagSpecial : Z := 2.

Definition isDenyOOM {O} (cmd : command O) : bool :=
  match extra cmd with None => false | Some e => existsb (String.eqb "denyoom") (signs e) end.

(** A special command has no executor; it is called by name in [Server.Exec]. *)
Definition registerCommand {O} (name : string) (executor : ExecFunc O) (prepare : PreFunc O) (rollback : option (UndoFunc O))
    (arity flags : Z) (signs : list string) (notify : option (Z * string)) : bytes * command O :=
  (str name, MkCommand (str name) executor (Some prepare) rollback arity flags
     (Some (MkExtra signs (from_option fst 0 notify) (from_option (str ∘ snd) [] notify)))).

Definition validateArity {A} (arity : Z) (cmdArgs : list A) : bool :=
  let argNum := Z.of_nat (length cmdArgs) in
  if 0 <=? arity then argNum =? arity else - arity <=? argNum.

(** ** Keyspace notifications *)

Definition notifyKeyspaceBit : Z := 1.
Definition notifyKeyeventBit : Z := 2.
Definition notifyGeneric : Z := 4.
Definition notifyString : Z := 8.
Definition notifyList : Z := 16.
Definition notifySet : Z := 32.
Definition notifyHash : Z := 64.
Definition notifyZset : Z := 128.
Definition notifyExpired : Z := 256.
Definition notifyEvicted : Z := 512.
Definition notifyStream : Z := 1024.
Definition notifyKeyMiss : Z := 2048.
Definition notifyNew : Z := 4096.

(** The bits of one letter; an unknown letter has none. *)
Definition notify_bits (ch : ascii) : option Z :=
  match ch with
  | "K" => Some notifyKeyspaceBit
  | "E" => Some notifyKeyeventBit
  | "A" => Some (foldl Z.lor 0 [notifyGeneric; notifyString; notifyList; notifySet; notifyHash; notifyZset;
                                notifyExpired; notifyEvicted; notifyStream])
  | "g" => Some notifyGeneric
  | "$" => Some notifyString
  | "l" => Some notifyList
  | "s" => Some notifySet
  | "h" => Some notifyHash
  | "z" => Some notifyZset
  | "x" => Some notifyExpired
  | "e" => Some notifyEvicted
  | "t" => Some notifyStream
  | "m" => Some notifyKeyMiss
  | "n" => Some notifyNew
  | _ => None
  end%char.

Definition parseNotifyFlags (s : bytes) : Z := foldl (λ f ch, Z.lor f (default 0 (notify_bits ch))) 0 s.
Definition validNotifyFlags (s : bytes) : bool := forallb (λ ch, bool_decide (is_Some (notify_bits ch))) s.
Definition has_bit (f bit : Z) : bool := negb (Z.land f bit =? 0).

(** ** The commands modelled here *)

Section table.
Context {O : Type} `{!Objects O} {env : Env} {rt : Runtime}.

Definition execGetVersion : ExecFunc O := λ args,
  key ← str_at args 0; v ← gets (λ db, GetVersion db key); mret (RInt v).

Definition w_oom : list string := ["write"; "denyoom"]%string.
Definition on_string (ev : string) : option (Z * string) := Some (notifyString, ev).
Definition on_key (ev : string) : option (Z * string) := Some (notifyGeneric, ev).

(** The registrations of [string.go] without those of random keys. *)
Definition string_commands : list (bytes * command O) := [
  registerCommand "set" execSet writeFirstKey (Some rollbackFirstKey) (-3) flagWrite w_oom (on_string "set");
  registerCommand "setnx" execSetNX writeFirstKey (Some rollbackFirstKey) 3 flagWrite (w_oom ++ ["fast"%string]) (on_string "set");
  registerCommand "setex" execSetEX writeFirstKey (Some rollbackFirstKey) 4 flagWrite w_oom (on_string "set");
  registerCommand "psetex" execPSetEX writeFirstKey (Some rollbackFirstKey) 4 flagWrite w_oom (on_string "set");
  registerCommand "mset" execMSet prepareMSet (Some undoMSet) (-3) flagWrite w_oom (on_string "set");
  registerCommand "mget" execMGet readAllKeys None (-2) flagReadOnly ["readonly"; "fast"]%string None;
  registerCommand "msetnx" execMSetNX prepareMSet (Some undoMSet) (-3) flagWrite w_oom (on_string "set");
  registerCommand "msetex" execMSetEX prepareMSetEX (Some undoMSet) (-3) flagWrite w_oom (on_string "set");
  registerCommand "get" execGet readFirstKey None 2 flagReadOnly ["readonly"; "fast"]%string None;
  registerCommand "getex" execGetEX writeFirstKey (Some rollbackFirstKey) (-2) flagReadOnly ["readonly"; "fast"]%string (on_string "set");
  registerCommand "getset" execGetSet writeFirstKey (Some rollbackFirstKey) 3 flagWrite w_oom (on_string "set");
  registerCommand "getdel" execGetDel writeFirstKey (Some rollbackFirstKey) 2 flagWrite w_oom (on_string "set");
  registerCommand "incr" execIncr writeFirstKey (Some rollbackFirstKey) 2 flagWrite (w_oom ++ ["fast"%string]) (on_string "incrby");
  registerCommand "incrby" execIncrBy writeFirstKey (Some rollbackFirstKey) 3 flagWrite w_oom (on_string "incrby");
  registerCommand "incrbyfloat" execIncrByFloat writeFirstKey (Some rollbackFirstKey) 3 flagWrite w_oom (on_string "incrby");
  registerCommand "decr" execDecr writeFirstKey (Some rollbackFirstKey) 2 flagWrite w_oom (on_string "incrby");
  registerCommand "decrby" execDecrBy writeFirstKey (Some rollbackFirstKey) 3 flagWrite w_oom (on_string "incrby");
  registerCommand "strlen" execStrLen readFirstKey None 2 flagReadOnly ["readonly"; "fast"]%string None;
  registerCommand "append" execAppend writeFirstKey (Some rollbackFirstKey) 3 flagWrite w_oom (on_string "set");
  registerCommand "setrange" execSetRange writeFirstKey (Some rollbackFirstKey) 4 flagWrite w_oom (on_string "set");
  registerCommand "getrange" execGetRange readFirstKey None 4 flagReadOnly ["readonly"]%string None;
  registerCommand "setbit" execSetBit writeFirstKey (Some rollbackFirstKey) 4 flagWrite w_oom (on_string "set");
  registerCommand "getbit" execGetBit readFirstKey None 3 flagReadOnly ["readonly"; "fast"]%string None;
  registerCommand "bitcount" execBitCount readFirstKey None (-2) flagReadOnly ["readonly"]%string None;
  registerCommand "bitpos" execBitPos readFirstKey None (-3) flagReadOnly ["readonly"]%string None].

(** The registrations of [keys.go] without those that traverse the dict, and
    that of [transaction.go]. *)
Definition key_commands : list (bytes * command O) := [
  registerCommand "del" execDel writeAllKeys (Some undoDel) (-2) flagWrite ["write"]%string (on_key "del");
  registerCommand "delex" execDelEX writeFirstKey (Some rollbackFirstKey) (-2) flagWrite ["write"]%string (on_key "del");
  registerCommand "expire" execExpire writeFirstKey (Some undoExpire) (-3) flagWrite ["write"; "fast"]%string (on_key "expire");
  registerCommand "expireat" execExpireAt writeFirstKey (Some undoExpire) (-3) flagWrite ["write"; "fast"]%string (on_key "expire");
  registerCommand "expiretime" execExpireTime readFirstKey None 2 flagReadOnly ["write"; "fast"]%string None;
  registerCommand "pexpire" execPExpire writeFirstKey (Some undoExpire) (-3) flagWrite ["write"; "fast"]%string (on_key "expire");
  registerCommand "pexpireat" execPExpireAt writeFirstKey (Some undoExpire) (-3) flagWrite ["write"; "fast"]%string (on_key "expire");
  registerCommand "pexpiretime" execPExpireTime readFirstKey None 2 flagReadOnly ["write"; "fast"]%string None;
  registerCommand "ttl" execTTL readFirstKey None 2 flagReadOnly ["readonly"; "random"; "fast"]%string None;
  registerCommand "pttl" execPTTL readFirstKey None 2 flagReadOnly ["readonly"; "random"; "fast"]%string None;
  registerCommand "persist" execPersist writeFirstKey (Some undoExpire) 2 flagWrite ["write"; "fast"]%string (on_key "persist");
  registerCommand "exists" execExists readAllKeys None (-2) flagReadOnly ["readonly"; "fast"]%string None;
  registerCommand "type" execType readFirstKey None 2 flagReadOnly ["readonly"; "fast"]%string None;
  registerCommand "rename" execRename prepareRename (Some undoRename) 3 flagReadOnly ["write"]%string (on_key "rename");
  registerCommand "renamenx" execRenameNx prepareRename (Some undoRename) 3 flagReadOnly ["write"; "fast"]%string (on_key "rename");
  registerCommand "getver" execGetVersion readAllKeys None 2 flagReadOnly [] None].

(** A lookup in the table. *)
Definition table_lookup (cmds : list (bytes * command O)) (n : bytes) : option (command O) :=
  snd <$> List.find (λ c, bytes_eqb c.1 n) cmds.
Definition base_table : bytes → option (command O) := table_lookup (string_commands ++ key_commands).
End table.

(** ** Connections *)

(** The part of a connection that commands use. *)
Record Connection := MkConn {
  multi : bool;
  queue : list (list arg);
  watching : gmap bytes Z;
  txErrors : nat;
  resp3 : bool;
  tracking : bool;
  client_id : Z
}.

Definition SetMultiState (c : Connection) (state : bool) : Connection :=
  if state then MkConn true (queue c) (watching c) (txErrors c) (resp3 c) (tracking c) (client_id c)
  else MkConn false [] ∅ (txErrors c) (resp3 c) (tracking c) (client_id c).
Definition conn_EnqueueCmd (c : Connection) (cmdLine : list arg) : Connection :=
  MkConn (multi c) (queue c ++ [cmdLine]) (watching c) (txErrors c) (resp3 c) (tracking c) (client_id c).
Definition AddTxError (c : Connection) : Connection :=
  MkConn (multi c) (queue c) (watching c) (S (txErrors c)) (resp3 c) (tracking c) (client_id c).
Definition ClearQueuedCmds (c : Connection) : Connection :=
  MkConn (multi c) [] (watching c) (txErrors c) (resp3 c) (tracking c) (client_id c).
Definition set_watching (c : Connection) (w : gmap bytes Z) : Connection :=
  MkConn (multi c) (queue c) w (txErrors c) (resp3 c) (tracking c) (client_id c).

(** ** What the commands need from the server *)

(** [freeMemoryIfNeeded] of the server, whether the database belongs to a
    server with a memory limit, the configured notifications and the table. *)
Class Server (O : Type) := {
  limited : bool;
  freeMemoryIfNeeded : M O bool;
  NotifyKeyspaceEvents : bytes;
  cmdTable : bytes → option (command O)
}.

Section tx.
Context {O : Type} `{!Objects O} {env : Env} {rt : Runtime} {srv : Server O}.
Local Abbreviation M := (M O).

Definition err (s : bytes) : reply := RConst (StandardErrReply s).
Definition unknown_command (cmdName : bytes) : reply := err (str "ERR unknown command '" ++ cmdName ++ str "'").
Definition arg_num_err (cmdName : bytes) : reply := RConst (ArgNumErrReply cmdName).
Definition oomErrReply : reply := RErr "OOM command not allowed when used memory > 'maxmemory'.".
Definition exec_abort : reply := RErr "EXECABORT Transaction discarded because of previous errors.".

(** [protocol.IsErrorReply]; a reply without bytes panics. *)
Definition IsErrorReply (r : reply) : M bool :=
  m ← gets memory; lift (Resp.IsErrorReply FormatFloat (resolve m r)).

Definition notifyKeyspaceEvent (classBit : Z) (event key : bytes) : M unit :=
  let f := parseNotifyFlags NotifyKeyspaceEvents in
  if (f =? 0) || negb (has_bit f classBit) then mret tt else
  i ← gets index;
  when (has_bit f notifyKeyspaceBit) (emit (Published (str "__keyspace@" ++ Itoa i ++ str "__:" ++ key) event));;
  when (has_bit f notifyKeyeventBit) (emit (Published (str "__keyevent@" ++ Itoa i ++ str "__:" ++ event) key)).

(** The name of a command line; an empty line panics. *)
Definition cmd_name (cmdLine : list arg) : M bytes := s ← str_at cmdLine 0; mret (ToLower s).

(** An odd number of elements is left as it is. *)
Definition convertMultiBulkToMapReply (args : list arg) : reply :=
  if negb (length args mod 2 =? 0)%nat then RMultiBulk args else RMap (RBulk <$> args).

(** HGETALL answers a RESP3 client with a map. *)
Definition hgetall_map (r3 : bool) (cmdName : bytes) (result : reply) : reply :=
  if r3 && bytes_eqb cmdName (str "hgetall") then
    match result with RMultiBulk args => convertMultiBulkToMapReply args | _ => result end
  else result.

(** The part of [execNormalCommand] after the memory check. *)
Definition exec_locked (c : option Connection) (cmd : command O) (cmdName : bytes) (write read : list bytes) (args : list arg) : M reply :=
  addVersion write;;
  result ← executor cmd args;
  (match extra cmd with
   | Some e => if notifyClass e =? 0 then mret tt else
               isErr ← IsErrorReply result;
               when (negb isErr) (forM_ write (notifyKeyspaceEvent (notifyClass e) (notifyEvent e)))
   | None => mret tt
   end);;
  (match c with
   | Some c =>
       isErr ← IsErrorReply result;
       when (negb isErr)
         (when (tracking c && (length write =? 0)%nat && (0 <? length read)%nat) (emit (TrackRead (client_id c) read));;
          when (0 <? length write)%nat (emit (NotifyWrite (client_id c) write)))
   | None => mret tt
   end);;
  mret (hgetall_map (from_option resp3 false c) cmdName result).

Definition execNormalCommand (c : option Connection) (cmdLine : list arg) : M reply :=
  cmdName ← cmd_name cmdLine;
  match cmdTable cmdName with
  | None => mret (unknown_command cmdName)
  | Some cmd =>
      if negb (validateArity (arity cmd) cmdLine) then mret (arg_num_err cmdName) else
      match prepare cmd with
      | None => panic
      | Some prepare =>
          '(write, read) ← prepare (drop 1 cmdLine);
          if isDenyOOM cmd && limited then
            free ← freeMemoryIfNeeded;
            if negb free then mret oomErrReply
            else exec_locked c cmd cmdName write read (drop 1 cmdLine)
          else exec_locked c cmd cmdName write read (drop 1 cmdLine)
      end
  end.

Definition execWithLock (cmdLine : list arg) : M reply :=
  cmdName ← cmd_name cmdLine;
  match cmdTable cmdName with
  | None => mret (unknown_command cmdName)
  | Some cmd =>
      if negb (validateArity (arity cmd) cmdLine) then mret (arg_num_err cmdName)
      else executor cmd (drop 1 cmdLine)
  end.

Definition GetUndoLogs (cmdLine : list arg) : M (list (list arg)) :=
  cmdName ← cmd_name cmdLine;
  match cmdTable cmdName with
  | None => mret []
  | Some cmd => match undo cmd with None => mret [] | Some undo => undo (drop 1 cmdLine) end
  end.

Definition GetRelatedKeys (cmdLine : list arg) : M (list bytes * list bytes) :=
  cmdName ← cmd_name cmdLine;
  match cmdTable cmdName with
  | None => mret ([], [])
  | Some cmd => match prepare cmd with None => mret ([], []) | Some prepare => prepare (drop 1 cmdLine) end
  end.

(** ** Transactions *)

Definition Watch (c : Connection) (args : list arg) : M (reply * Connection) :=
  keys ← forM args string_of;
  db ← gets id;
  mret (ROk, set_watching c (foldl (λ w key, <[key := GetVersion db key]> w) (watching c) keys)).

Definition isWatchingChanged (db : DB O) (watching : gmap bytes Z) : bool :=
  existsb (λ '(key, ver), negb (ver =? GetVersion db key)) (map_to_list watching).

Definition StartMulti (c : Connection) : reply * Connection :=
  if multi c then (RErr "ERR MULTI calls can not be nested", c) else (ROk, SetMultiState c true).

Definition EnqueueCmd (c : Connection) (cmdLine : list arg) : M (reply * Connection) :=
  cmdName ← cmd_name cmdLine;
  mret match cmdTable cmdName with
       | None => (unknown_command cmdName, AddTxError c)
       | Some cmd =>
           match prepare cmd with
           | None => (err (str "ERR command '" ++ cmdName ++ str "' cannot be used in MULTI"), AddTxError c)
           | Some _ =>
               if negb (validateArity (arity cmd) cmdLine) then (arg_num_err cmdName, AddTxError c)
               else (RConst QueuedReply, conn_EnqueueCmd c cmdLine)
           end
       end.

(** The write and read keys of the queued commands, and whether one of them may
    be refused for memory. *)
Fixpoint collect_keys (cmdLines : list (list arg)) : M (list bytes * list bytes * bool) :=
  match cmdLines with
  | [] => mret ([], [], false)
  | cmdLine :: cmdLines =>
      cmdName ← cmd_name cmdLine;
      match cmdTable cmdName with
      | None => panic
      | Some cmd =>
          match prepare cmd with
          | None => panic
          | Some prepare =>
              '(write, read) ← prepare (drop 1 cmdLine);
              '(writes, reads, oom) ← collect_keys cmdLines;
              mret (write ++ writes, read ++ reads, isDenyOOM cmd || oom)
          end
      end
  end.

(** The loop that executes the queue: the results, or [None] when a command
    failed, and the undo logs of the commands before, the latest first. *)
Fixpoint exec_queue (r3 : bool) (cmdLines : list (list arg)) (results : list reply) (undos : list (list (list arg)))
    : M (option (list reply) * list (list (list arg))) :=
  match cmdLines with
  | [] => mret (Some results, undos)
  | cmdLine :: cmdLines =>
      u ← GetUndoLogs cmdLine;
      result ← execWithLock cmdLine;
      isErr ← IsErrorReply result;
      if isErr : bool then mret (None, undos) else
      cmdName ← cmd_name cmdLine;
      exec_queue r3 cmdLines (results ++ [hgetall_map r3 cmdName result]) (u :: undos)
  end.

(** The undo logs, from the last command to the first. *)
Definition run_undo (undos : list (list (list arg))) : M unit :=
  forM_ undos (λ lines, forM_ lines (λ line, execWithLock line;; mret tt)).

(** The part of [ExecMulti] after the check of the watched keys, most of it under
    the locks.  The locks are taken after the check: a command of another
    connection may come between the two. *)
Definition exec_multi_checked (c : option Connection) (cmdLines : list (list arg)) (writeKeys : list bytes) (hasDenyOOM : bool) : M reply :=
  free ← (if hasDenyOOM && limited then freeMemoryIfNeeded else mret true);
  if negb free then mret oomErrReply else
  '(results, undos) ← exec_queue (from_option resp3 false c) cmdLines [] [];
  match results with
  | Some results => addVersion writeKeys;; mret (RRaw results)
  | None => run_undo undos;; mret exec_abort
  end.

(** The whole, when nothing comes between the check and the locks. *)
Definition ExecMulti (c : option Connection) (watching : gmap bytes Z) (cmdLines : list (list arg)) : M reply :=
  '(writeKeys, _, hasDenyOOM) ← collect_keys cmdLines;
  db ← gets id;
  if isWatchingChanged db watching then mret (RConst EmptyMultiBulkReply)
  else exec_multi_checked c cmdLines writeKeys hasDenyOOM.

(** The deferred [SetMultiState(false)] runs after the reply is computed. *)
Definition execMulti (c : Connection) : M (reply * Connection) :=
  if negb (multi c) then mret (RErr "ERR EXEC without MULTI", c) else
  if (0 <? txErrors c)%nat then mret (exec_abort, SetMultiState c false) else
  r ← ExecMulti (Some c) (watching c) (queue c);
  mret (r, SetMultiState c false).

Definition DiscardMulti (c : Connection) : reply * Connection :=
  if negb (multi c) then (RErr "ERR DISCARD without MULTI", c)
  else (ROk, SetMultiState (ClearQueuedCmds c) false).

(** [DB.Exec] for a connection. *)
Definition Exec (c : Connection) (cmdLine : list arg) : M (reply * Connection) :=
  cmdName ← cmd_name cmdLine;
  if bytes_eqb cmdName (str "multi") then
    mret (if negb (length cmdLine =? 1)%nat then (arg_num_err cmdName, c) else StartMulti c)
  else if bytes_eqb cmdName (str "discard") then
    mret (if negb (length cmdLine =? 1)%nat then (arg_num_err cmdName, c) else DiscardMulti c)
  else if bytes_eqb cmdName (str "exec") then
    if negb (length cmdLine =? 1)%nat then mret (arg_num_err cmdName, c) else execMulti c
  else if bytes_eqb cmdName (str "watch") then
    if negb (validateArity (-2) cmdLine) then mret (arg_num_err cmdName, c) else Watch c (drop 1 cmdLine)
  else if multi c then EnqueueCmd c cmdLine
  else r ← execNormalCommand (Some c) cmdLine; mret (r, c).
End tx.
