(* ===== verification/KeySpaceThm.v ===== *)
(** * What commands may change

    A command is a tree of primitive operations, so a relation between the
    database before and after it that is reflexive and transitive holds of the
    command when it holds of the primitives.  [keeps] is this closure; the
    relation of interest is [frame]: outside a set of keys nothing changes but
    keys whose deadline has passed, which may disappear. *)

From stdpp Require Import base gmap list strings.
From Stdlib Require Import ZArith Lia Ascii.
From S2P Require Import Prelude GoText Strconv Resp ObjString Runtime GoTime TimeWheel KeySpace Bitmap StringCmd KeyCmd.

Local Open Scope Z_scope.

#[global] Arguments RemoveJob : simpl never.
#[global] Arguments genExpireTask : simpl never.

(** ** Running a computation *)

Create Rewrite HintDb run.

Section run.
Context {O : Type} {env : Env} {A B : Type} (db : DB O).
Lemma run_ret (a : A) (k : A → M O B) : (mret a ≫= k) db = k a db.
Proof. done. Qed.
Lemma run_mret (a : A) : mret (M := M O) a db = Ret (a, db).
Proof. done. Qed.
Lemma run_gets (f : DB O → A) (k : A → M O B) : (gets f ≫= k) db = k (f db) db.
Proof. done. Qed.
Lemma run_modify f (k : () → M O B) : (modify f ≫= k) db = k tt (f db).
Proof. done. Qed.
Lemma run_modify_last f : modify (O := O) f db = Ret (tt, f db).
Proof. done. Qed.
Lemma run_Now (k : Z → M O B) : (Now ≫= k) db = k (clock (reads db)) (set_reads db (S (reads db))).
Proof. done. Qed.
Lemma run_assoc {C} (m : M O A) (f : A → M O B) (g : B → M O C) : ((m ≫= f) ≫= g) db = (m ≫= λ a, f a ≫= g) db.
Proof. unfold mbind, M_bind. by destruct (m db) as [[]| |]. Qed.
Lemma run_step (m : M O A) (k : A → M O B) a db' : m db = Ret (a, db') → (m ≫= k) db = k a db'.
Proof. unfold mbind, M_bind. by intros ->. Qed.
Lemma run_when (b : bool) (m : M O ()) (k : () → M O B) : (when b m ≫= k) db = if b then (m ≫= k) db else k tt db.
Proof. by destruct b. Qed.
Lemma run_lift (r : res A) (k : A → M O B) :
  (lift r ≫= k) db = match r with Ret a => k a db | Panic => Panic | OutOfFuel => OutOfFuel end.
Proof. by destruct r. Qed.
Lemma run_emit ev (k : () → M O B) : (emit ev ≫= k) db = k tt (set_events db (events db ++ [ev])).
Proof. done. Qed.
Lemma run_addAof l (k : () → M O B) : (addAof l ≫= k) db = k tt (set_aof db (aof db ++ [l])).
Proof. done. Qed.
Lemma run_string_of a (k : bytes → M O B) : (string_of a ≫= k) db = k (arg_str (memory db) a) db.
Proof. done. Qed.
End run.

Lemma str_at_run {O A} args i a (f : bytes → M O A) db : args !! i = Some a → (str_at args i ≫= f) db = f (arg_str (memory db) a) db.
Proof. intros E. unfold str_at, arg_at. rewrite run_assoc, run_lift, E. done. Qed.
Lemma run_forM_cons {O A} (a : A) l (f : A → M O ()) db : forM_ (a :: l) f db = (f a ≫= λ _, forM_ l f) db.
Proof.
  unfold forM_. cbn [forM]. rewrite run_assoc. unfold mbind, M_bind. destruct (f a db) as [[[] db1]| |]; [|done..].
  by destruct (forM l f db1) as [[]| |].
Qed.
Lemma run_forM_app {O A} (l1 l2 : list A) (f : A → M O ()) db : forM_ (l1 ++ l2) f db = (forM_ l1 f ≫= λ _, forM_ l2 f) db.
Proof.
  revert db. induction l1 as [|a l1 IH]; intros db; [done|]. cbn [app]. rewrite run_forM_cons. unfold mbind, M_bind in *.
  rewrite run_forM_cons. unfold mbind, M_bind. destruct (f a db) as [[[] db1]| |]; [|done..]. apply IH.
Qed.

#[export] Hint Rewrite @run_string_of : run.
#[export] Hint Rewrite @run_ret @run_mret @run_gets @run_modify @run_modify_last @run_Now @run_assoc @run_when @run_lift @run_emit @run_addAof : run.

(** ** Relations kept by a computation *)

Definition keeps {O A} (R : relation (DB O)) (m : M O A) : Prop :=
  ∀ db a db', m db = Ret (a, db') → R db db'.

Create HintDb keeps.

Section keeps.
Context {O : Type} (R : relation (DB O)) `{!PreOrder R}.

Lemma keeps_ret {A} (a : A) : keeps R (mret (M := M O) a).
Proof. intros db a' db' [= _ <-]. reflexivity. Qed.

Lemma keeps_bind {A B} (m : M O A) (f : A → M O B) : keeps R m → (∀ a, keeps R (f a)) → keeps R (m ≫= f).
Proof.
  intros Hm Hf db b db'. unfold mbind, M_bind. destruct (m db) as [[a db1]| |] eqn:E; [|done..].
  intros H. etransitivity; [by eapply Hm|by eapply Hf].
Qed.

Lemma keeps_gets {A} (f : DB O → A) : keeps R (gets f).
Proof. intros db a db' [= _ <-]. reflexivity. Qed.

Lemma keeps_lift {A} (r : res A) : keeps R (lift r).
Proof. intros db a db'. unfold lift. destruct r; [|done..]. intros [= _ <-]. reflexivity. Qed.

Lemma keeps_panic {A} : keeps R (panic (A := A)).
Proof. intros db a db'. done. Qed.

Lemma keeps_modify f : (∀ db, R db (f db)) → keeps R (modify f).
Proof. intros H db a db' [= _ <-]. apply H. Qed.

Lemma keeps_when b (m : M O unit) : keeps R m → keeps R (when b m).
Proof. intros H. destruct b; [done|]. apply keeps_ret. Qed.

Lemma keeps_forM {A B} (l : list A) (f : A → M O B) : (∀ a, a ∈ l → keeps R (f a)) → keeps R (forM l f).
Proof.
  induction l as [|a l IH]; intros H; cbn [forM]; [apply keeps_ret|].
  apply keeps_bind; [apply H; left|intros b]. apply keeps_bind; [|intros; apply keeps_ret].
  apply IH. intros a' Ha. apply H. by right.
Qed.

Lemma keeps_forM_ {A} (l : list A) (f : A → M O unit) : (∀ a, a ∈ l → keeps R (f a)) → keeps R (forM_ l f).
Proof. intros H. apply keeps_bind; [by apply keeps_forM|intros; apply keeps_ret]. Qed.
End keeps.

Lemma keeps_weaken {O A} (R R' : relation (DB O)) (m : M O A) : (∀ x y, R x y → R' x y) → keeps R m → keeps R' m.
Proof. intros HR Hm db a db' E. by eapply HR, Hm. Qed.

#[export] Hint Resolve keeps_ret keeps_gets keeps_lift keeps_panic : keeps.

#[export] Hint Extern 1 (PreOrder _) => apply _ : keeps.

(** Split a goal about a command along its binds and branches. *)
Ltac keeps_step :=
  match goal with
  | |- keeps _ (mbind _ _) => apply keeps_bind; [apply _| |intros]
  | |- keeps _ (mret _) => apply keeps_ret; apply _
  | |- keeps _ (gets _) => apply keeps_gets; apply _
  | |- keeps _ (lift _) => apply keeps_lift; apply _
  | |- keeps _ panic => apply keeps_panic
  | |- keeps _ (when _ _) => apply keeps_when; [apply _|]
  | |- keeps _ (forM_ _ _) => apply keeps_forM_; [apply _|intros]
  | |- keeps _ (forM _ _) => apply keeps_forM; [apply _|intros]
  | |- keeps _ (match ?x with _ => _ end) => destruct x
  end.
Ltac keeps_auto := repeat first [solve [eauto 3 with keeps] | keeps_step].

(** ** Frames *)

(** The world at one time: all the readings of the clock agree. *)
Definition at_time (t : Z) (env : Env) : Env :=
  {| clock := λ _, t; draw := draw; MaxmemoryPolicy := MaxmemoryPolicy; ParseIntError := ParseIntError; ValueDigest := ValueDigest |}.

(** The entry of a key is as before, or it had a deadline before [t] and is
    gone. *)
Definition kept_at {O} (t : Z) (k : bytes) (db db' : DB O) : Prop :=
  (data db' !! k = data db !! k ∧ ttlMap db' !! k = ttlMap db !! k) ∨
  (data db' !! k = None ∧ ttlMap db' !! k = None ∧ ∃ d, ttlMap db !! k = Some d ∧ d < t).

(** Every array stays in its place; only new ones are added. *)
Definition extends {O} (db db' : DB O) : Prop := memory db `prefix_of` memory db'.

Record frame {O} (t : Z) (ks : list bytes) (db db' : DB O) : Prop := {
  frame_keys : ∀ k, k ∉ ks → kept_at t k db db';
  frame_ver : versionMap db' = versionMap db;
  frame_mem : extends db db';
  frame_wheel : wf (wheel db) → wf (wheel db')
}.

(** The same without the memory. *)
Record frame' {O} (t : Z) (ks : list bytes) (db db' : DB O) : Prop := {
  frame'_keys : ∀ k, k ∉ ks → kept_at t k db db';
  frame'_ver : versionMap db' = versionMap db;
  frame'_wheel : wf (wheel db) → wf (wheel db')
}.

Lemma kept_at_later {O} t t' k (db db' : DB O) : t <= t' → kept_at t k db db' → kept_at t' k db db'.
Proof. intros Ht [H|(H1 & H2 & d & H3 & H4)]; [by left|right]. split; [done|]. split; [done|]. exists d. split; [done|lia]. Qed.

#[export] Instance kept_at_preorder {O} t k : PreOrder (kept_at (O := O) t k).
Proof.
  split; [by left|]. intros x y z [[H1 H2]|(H1 & H2 & H3)] [[H4 H5]|(H4 & H5 & H6)]; unfold kept_at.
  - left. split; congruence.
  - right. rewrite H2 in H6. by split_and!.
  - right. split_and!; [congruence..|done].
  - right. by split_and!.
Qed.

#[export] Instance frame_preorder {O} t ks : PreOrder (frame (O := O) t ks).
Proof.
  split.
  - intros x. split; [by left|done|by unfold extends|done].
  - intros x y z [A1 A2 A3 A4] [B1 B2 B3 B4]. split; [|congruence|unfold extends in *; by etransitivity|auto].
    intros k Hk. etransitivity; eauto.
Qed.

#[export] Instance frame'_preorder {O} t ks : PreOrder (frame' (O := O) t ks).
Proof.
  split.
  - intros x. split; [by left|done..].
  - intros x y z [A1 A2 A3] [B1 B2 B3]. split; [|congruence|auto].
    intros k Hk. etransitivity; eauto.
Qed.

Lemma frame_frame' {O} t ks (db db' : DB O) : frame t ks db db' → frame' t ks db db'.
Proof. intros []. by split. Qed.

Lemma frame_mono {O} t ks ks' (db db' : DB O) : ks ⊆ ks' → frame t ks db db' → frame t ks' db db'.
Proof. intros Hs []. split; eauto. Qed.

(** Only the key space, the memory and the wheel matter. *)
Lemma frame_quiet {O} t ks (db db' : DB O) :
  data db' = data db → ttlMap db' = ttlMap db → versionMap db' = versionMap db → memory db' = memory db → wheel db' = wheel db →
  frame t ks db db'.
Proof. intros H1 H2 H3 H4 H5. split; [left; by rewrite H1, H2|done|by unfold extends; rewrite H4|by rewrite H5]. Qed.

(** ** Primitives *)

Section primitives.
Context {O : Type} `{!Objects O} {env : Env} {rt : Runtime} (t : Z) (Hclk : ∀ n, clock n = t).

Lemma keeps_Now ks : keeps (frame t ks) (Now (O := O)).
Proof. intros db a db' [= _ <-]. by apply frame_quiet. Qed.
Lemma keeps_flip c ks : keeps (frame t ks) (flip (O := O) c).
Proof. intros db a db' [= _ <-]. by apply frame_quiet. Qed.
Lemma keeps_emit ev ks : keeps (frame t ks) (emit (O := O) ev).
Proof. apply keeps_modify. intros db. by apply frame_quiet. Qed.
Lemma keeps_addAof l ks : keeps (frame t ks) (addAof (O := O) l).
Proof. apply keeps_modify. intros db. by apply frame_quiet. Qed.
Lemma keeps_lru f ks : keeps (frame t ks) (modify (λ db : DB O, set_lru db (f db))).
Proof. apply keeps_modify. intros db. by apply frame_quiet. Qed.
Lemma keeps_alloc b ks : keeps (frame t ks) (alloc (O := O) b).
Proof. intros db a db' [= _ <-]. split; [by left|done| |done]. by apply prefix_app_r. Qed.
Hint Resolve keeps_Now keeps_flip keeps_emit keeps_addAof keeps_lru keeps_alloc : keeps.

Lemma keeps_own a ks : keeps (frame t ks) (own (O := O) a).
Proof. destruct a; cbn [own]; keeps_auto. Qed.
Lemma keeps_touchLRU k ks : keeps (frame t ks) (touchLRU (O := O) k).
Proof. unfold touchLRU, lfuDecay, lfuLogIncr, lfuNowMinutes, lruClock. keeps_auto. Qed.
Hint Resolve keeps_own keeps_touchLRU : keeps.

Lemma key_Remove_spec k db : ∃ db', Remove (O := O) k db = Ret (tt, db') ∧ data db' = delete k (data db) ∧ ttlMap db' = delete k (ttlMap db) ∧
  versionMap db' = versionMap db ∧ memory db' = memory db ∧ wheel db' = RemoveJob (wheel db) (genExpireTask k).
Proof. eexists. split; [reflexivity|]. by split_and!. Qed.

Lemma keeps_Remove k ks : k ∈ ks → keeps (frame t ks) (Remove (O := O) k).
Proof.
  intros Hk db a db' E. destruct (key_Remove_spec k db) as (db2 & E2 & H1 & H2 & H3 & H4 & H5). rewrite E2 in E. injection E as _ <-.
  split; [|done|by unfold extends; rewrite H4|by rewrite H5; intros; apply RemoveJob_spec].
  intros k' Hk'. left. rewrite H1, H2, !lookup_delete_ne by (intros ->; done). done.
Qed.

Lemma keeps_IsExpired k ks : keeps (frame t ks) (IsExpired (O := O) k).
Proof.
  intros db a db' E. unfold IsExpired, Remove in E. autorewrite with run in E.
  destruct (ttlMap db !! k) as [d|] eqn:Ed; autorewrite with run in E; [|by injection E as _ <-].
  rewrite Hclk in E. unfold time_After in E. destruct (Z.ltb_spec d t) as [Hlt|Hge]; autorewrite with run in E.
  - injection E as _ <-. split; cbn; [|done|by unfold extends|intros; by apply RemoveJob_wf].
    intros k' _. unfold kept_at; cbn. destruct (decide (k' = k)) as [->|].
    + right. rewrite !lookup_delete_eq. eauto.
    + left. by rewrite !lookup_delete_ne.
  - injection E as _ <-. by apply frame_quiet.
Qed.
Hint Resolve keeps_IsExpired : keeps.

Lemma keeps_GetEntity k ks : keeps (frame t ks) (GetEntity (O := O) k).
Proof. unfold GetEntity. keeps_auto. Qed.
Lemma keeps_getEntityNoTouch k ks : keeps (frame t ks) (getEntityNoTouch (O := O) k).
Proof. unfold getEntityNoTouch. keeps_auto. Qed.

Lemma keeps_set_data k f ks : k ∈ ks → keeps (frame t ks) (modify (λ db : DB O, set_data db (<[k := f db]> (data db)))).
Proof.
  intros Hk. apply keeps_modify. intros db. split; [|done|by unfold extends|done]. intros k' Hk'. left. cbn.
  by rewrite lookup_insert_ne by (intros ->; done).
Qed.
Lemma keeps_set_ttl k f ks : k ∈ ks → keeps (frame t ks) (modify (λ db : DB O, set_ttl db (<[k := f db]> (ttlMap db)))).
Proof.
  intros Hk. apply keeps_modify. intros db. split; [|done|by unfold extends|done]. intros k' Hk'. left. cbn.
  by rewrite lookup_insert_ne by (intros ->; done).
Qed.
Lemma keeps_delete_ttl k ks : k ∈ ks → keeps (frame t ks) (modify (λ db : DB O, set_ttl db (delete k (ttlMap db)))).
Proof.
  intros Hk. apply keeps_modify. intros db. split; [|done|by unfold extends|done]. intros k' Hk'. left. cbn.
  by rewrite lookup_delete_ne by (intros ->; done).
Qed.
Lemma keeps_cancel k ks : keeps (frame t ks) (modify (λ db : DB O, set_wheel db (RemoveJob (wheel db) k))).
Proof. apply keeps_modify. intros db. split; [by left|done|by unfold extends|]. intros H. by apply RemoveJob_wf. Qed.
Hint Resolve keeps_GetEntity keeps_getEntityNoTouch keeps_set_data keeps_set_ttl keeps_delete_ttl keeps_cancel keeps_Remove : keeps.

Lemma keeps_At d k j ks : keeps (frame t ks) (At (O := O) d k j).
Proof.
  intros db a db' E. unfold At in E. autorewrite with run in E.
  destruct (AddJob _ _ _ _) as [tw| |] eqn:Et; [|done..]. autorewrite with run in E. injection E as _ <-.
  split; [by left|done|by unfold extends|]. cbn. intros W. unfold AddJob in Et. cbn [wheel set_reads] in Et. destruct (_ <? 0)%Z; [by injection Et as <-|].
  destruct (addTask_spec (wheel db) (time_Sub d (clock (reads db))) 0 k j W) as (tw' & E' & W' & _).
  rewrite E' in Et. by injection Et as <-.
Qed.
Hint Resolve keeps_At : keeps.

Lemma keeps_Expire k d ks : k ∈ ks → keeps (frame t ks) (Expire (O := O) k d).
Proof. intros. unfold Expire. keeps_auto. Qed.
Lemma keeps_Persist k ks : k ∈ ks → keeps (frame t ks) (Persist (O := O) k).
Proof. intros. unfold Persist. keeps_auto. Qed.
Lemma keeps_PutEntity k e ks : k ∈ ks → keeps (frame t ks) (PutEntity (O := O) k e).
Proof. intros. unfold PutEntity. keeps_auto. Qed.
Lemma keeps_PutIfExists k e ks : k ∈ ks → keeps (frame t ks) (PutIfExists (O := O) k e).
Proof. intros. unfold PutIfExists. keeps_auto. Qed.
Lemma keeps_PutIfAbsent k e ks : k ∈ ks → keeps (frame t ks) (PutIfAbsent (O := O) k e).
Proof. intros. unfold PutIfAbsent. keeps_auto. Qed.
Lemma keeps_Removes l ks : l ⊆ ks → keeps (frame t ks) (Removes (O := O) l).
Proof.
  induction l as [|k l IH]; intros Hl; cbn [Removes]; keeps_auto.
  - apply keeps_Remove, Hl. left.
  - apply IH. intros x Hx. apply Hl. by right.
Qed.
End primitives.

(** ** Commands *)

#[export] Hint Resolve keeps_Now keeps_flip keeps_emit keeps_addAof keeps_lru keeps_alloc keeps_own keeps_touchLRU keeps_Remove
  keeps_IsExpired keeps_GetEntity keeps_getEntityNoTouch keeps_set_data keeps_set_ttl keeps_delete_ttl keeps_cancel keeps_At
  keeps_Expire keeps_Persist keeps_PutEntity keeps_PutIfExists keeps_PutIfAbsent keeps_Removes : keeps.

(** A reply that is encoded with a leading minus sign. *)
Definition is_error (r : reply) : bool :=
  match r with
  | RConst (StandardErrReply _ | UnknownErrReply | ArgNumErrReply _ | SyntaxErrReply | WrongTypeErrReply | ProtocolErrReply _) => true
  | _ => false
  end.

Lemma is_error_spec ff m r b : IsErrorReply ff (resolve m r) = Ret b → b = is_error r.
Proof.
  unfold IsErrorReply. destruct r as [a|args|rs|ps|r]; cbn.
  - destruct (arg_opt m a); cbn; intros [= <-]; reflexivity.
  - intros [= <-]; reflexivity.
  - intros [= <-]; reflexivity.
  - intros [= <-]; reflexivity.
  - destruct r as [[]| | | | | | | | | | | | | | | | | | |[]|v| | | | |]; cbn; try (intros [= <-]; reflexivity); done.
Qed.

Section commands.
Context {O : Type} `{!Objects O} {env : Env} {rt : Runtime} (t : Z) (Hclk : ∀ n, clock n = t).

(** A computation changes only keys that the state before it determines. *)
Definition framed {A} (ks : DB O → list bytes) (m : M O A) : Prop :=
  ∀ db a db', m db = Ret (a, db') → frame t (ks db) db db'.

(** An error reply means that nothing has changed. *)
Definition quiet (m : M O reply) : Prop :=
  ∀ db r db', m db = Ret (r, db') → is_error r = true → frame t [] db db'.
Definition never_error (m : M O reply) : Prop := ∀ db r db', m db = Ret (r, db') → is_error r = false.

Lemma quiet_bind {A} (m : M O A) f : keeps (frame t []) m → (∀ a, quiet (f a)) → quiet (m ≫= f).
Proof.
  intros Hm Hf db r db'. unfold mbind, M_bind. destruct (m db) as [[a db1]| |] eqn:E; [|done..].
  intros E2 Her. etransitivity; [by eapply Hm|by eapply Hf].
Qed.
Lemma quiet_ret r : quiet (mret r).
Proof. intros db r' db' [= _ <-] _. reflexivity. Qed.
Lemma quiet_panic : quiet panic.
Proof. done. Qed.
Lemma quiet_safe m : never_error m → quiet m.
Proof. intros H db r db' E Her. apply H in E. congruence. Qed.
Lemma safe_bind {A} (m : M O A) f : (∀ a, never_error (f a)) → never_error (m ≫= f).
Proof.
  intros Hf db r db'. unfold mbind, M_bind. destruct (m db) as [[a db1]| |]; [|done..]. apply Hf.
Qed.
Lemma safe_ret r : is_error r = false → never_error (mret r).
Proof. by intros H db r' db' [= <- _]. Qed.
Lemma safe_panic : never_error panic.
Proof. done. Qed.
End commands.

Ltac safe_auto :=
  repeat first
    [ apply safe_panic
    | apply safe_ret; solve [done | repeat case_match; done]
    | apply safe_bind; intros
    | match goal with |- never_error (match ?x with _ => _ end) => destruct x end ].
Ltac quiet_auto :=
  repeat first
    [ apply quiet_ret
    | apply quiet_panic
    | apply quiet_bind; [solve [keeps_auto] | intros]
    | match goal with |- quiet _ (match ?x with _ => _ end) => destruct x end
    | apply quiet_safe; solve [safe_auto] ].

Section handlers.
Context {O : Type} `{!Objects O} {env : Env} {rt : Runtime} (t : Z) (Hclk : ∀ n, clock n = t).
Local Abbreviation quiet := (quiet (O := O) t).
Local Abbreviation framed := (framed (O := O) t).

Lemma keeps_arg_at args i ks : keeps (frame t ks) (arg_at (O := O) args i).
Proof. apply keeps_lift, _. Qed.
Lemma keeps_string_of a ks : keeps (frame t ks) (string_of (O := O) a).
Proof. apply keeps_gets, _. Qed.
Lemma keeps_str_at args i ks : keeps (frame t ks) (str_at (O := O) args i).
Proof. apply keeps_bind; [apply _|apply keeps_arg_at|intros; apply keeps_string_of]. Qed.
Hint Resolve keeps_arg_at keeps_string_of keeps_str_at : keeps.

Lemma keeps_MakeStringObject a ks : keeps (frame t ks) (MakeStringObject (O := O) a).
Proof. unfold MakeStringObject. keeps_auto. Qed.
Lemma keeps_MakeRawStringObject a ks : keeps (frame t ks) (MakeRawStringObject (O := O) a).
Proof. unfold MakeRawStringObject. keeps_auto. Qed.
Lemma keeps_getAsString k ks : keeps (frame t ks) (getAsString (O := O) k).
Proof. unfold getAsString. keeps_auto. Qed.
Lemma keeps_len_of a ks : keeps (frame t ks) (len_of (O := O) a).
Proof. unfold len_of. keeps_auto. Qed.
Lemma keeps_deadline ms ks : keeps (frame t ks) (deadline (O := O) ms).
Proof. unfold deadline. keeps_auto. Qed.
Hint Resolve keeps_MakeStringObject keeps_MakeRawStringObject keeps_getAsString keeps_len_of keeps_deadline : keeps.

Lemma keeps_check_cond k c h ks : keeps (frame t ks) (check_cond (O := O) k c h).
Proof. unfold check_cond. keeps_auto. Qed.
Lemma keeps_first_stop cs ks : (∀ c, c ∈ cs → keeps (frame t ks) c) → keeps (frame t ks) (first_stop (O := O) cs).
Proof.
  induction cs as [|c cs IH]; intros H; cbn [first_stop]; [keeps_auto|].
  apply keeps_bind; [apply _|apply H; left|intros]. destruct a; [keeps_auto|]. apply IH. intros c' Hc. apply H. by right.
Qed.
Lemma keeps_conds k o ks : keeps (frame t ks) (first_stop (O := O) [check_cond k (ifeq o) cond_ifeq; check_cond k (ifne o) cond_ifne;
    check_cond k (ifdeq o) cond_ifdeq; check_cond k (ifdne o) cond_ifdne]).
Proof. apply keeps_first_stop. intros c Hc. repeat (apply elem_of_cons in Hc as [->|Hc]; [apply keeps_check_cond|]). by apply elem_of_nil in Hc. Qed.
Hint Resolve keeps_conds : keeps.

(** The key of a command whose first argument is its key. *)
Definition first_key (args : list arg) (db : DB O) : list bytes := arg_str (memory db) <$> take 1 args.
Definition all_keys (args : list arg) (db : DB O) : list bytes := arg_str (memory db) <$> args.
Definition pair_keys (args : list arg) (db : DB O) : list bytes := arg_str (memory db) <$> (pairs_of args).*1.

Lemma framed_first {A} args (f : bytes → M O A) : (∀ key, keeps (frame t [key]) (f key)) → framed (first_key args) (str_at args 0 ≫= f).
Proof.
  intros Hf db a db'. unfold str_at, arg_at. autorewrite with run. destruct args as [|x args]; cbn [must lookup list_lookup]; [done|].
  unfold string_of. autorewrite with run. intros E. by apply Hf in E.
Qed.

Lemma framed_reads {A} args (m : M O A) : keeps (frame t []) m → framed (first_key args) m.
Proof. intros Hm db a db' E. eapply frame_mono; [|by eapply Hm]. set_solver. Qed.

(** *** Commands on one key *)

Lemma keeps_counter l args k f a r ks : k ∈ ks → keeps (frame t ks) (counter (O := O) l args k f a r).
Proof. intros. unfold counter. keeps_auto. Qed.
Lemma keeps_getex_opts k l ttl ks : k ∈ ks → keeps (frame t ks) (getex_opts (O := O) k l ttl).
Proof.
  intros Hk. remember (length l) as n eqn:En. revert l ttl En. induction n as [n IH] using lt_wf_ind. intros l ttl ->.
  destruct l as [|a l]; cbn [getex_opts]; [keeps_auto|].
  repeat first [solve [eauto 3 with keeps] | eapply IH; [|reflexivity]; cbn; lia | keeps_step].
Qed.
Hint Resolve keeps_counter keeps_getex_opts : keeps.

Local Ltac one_key := apply framed_first; intros key; assert (key ∈ [key]) by left; keeps_auto.

Lemma framed_execSet args : framed (first_key args) (execSet args).
Proof. one_key. Qed.
Lemma framed_execSetNX args : framed (first_key args) (execSetNX args).
Proof. one_key. Qed.
Lemma framed_setex u args : framed (first_key args) (setex u args).
Proof. one_key. Qed.
Lemma framed_execGetSet args : framed (first_key args) (execGetSet args).
Proof. one_key. Qed.
Lemma framed_execGetDel args : framed (first_key args) (execGetDel args).
Proof. one_key. Qed.
Lemma framed_execGetEX args : framed (first_key args) (execGetEX args).
Proof. one_key. Qed.
Lemma framed_execIncr args : framed (first_key args) (execIncr args).
Proof. one_key. Qed.
Lemma framed_execDecr args : framed (first_key args) (execDecr args).
Proof. one_key. Qed.
Lemma framed_execIncrBy args : framed (first_key args) (execIncrBy args).
Proof. one_key. Qed.
Lemma framed_execDecrBy args : framed (first_key args) (execDecrBy args).
Proof. one_key. Qed.
Lemma framed_execIncrByFloat args : framed (first_key args) (execIncrByFloat args).
Proof. one_key. Qed.

Lemma framed_execDelEX args : framed (first_key args) (execDelEX args).
Proof.
  unfold execDelEX. destruct (_ || _); [apply framed_reads; keeps_auto|]. one_key.
Qed.
Lemma framed_expire_with at_ args : (∀ n ks, keeps (frame t ks) (at_ n)) → framed (first_key args) (expire_with at_ args).
Proof. intros. one_key. Qed.
Lemma framed_execPersist args : framed (first_key args) (execPersist args).
Proof. one_key. Qed.

(** *** Readers *)

Lemma reads_execGet args : keeps (frame t []) (execGet (O := O) args).
Proof. unfold execGet. keeps_auto. Qed.
Lemma reads_execStrLen args : keeps (frame t []) (execStrLen (O := O) args).
Proof. unfold execStrLen. keeps_auto. Qed.
Lemma reads_execMGet args : keeps (frame t []) (execMGet (O := O) args).
Proof. unfold execMGet. keeps_auto. Qed.
Lemma reads_execGetRange args : keeps (frame t []) (execGetRange (O := O) args).
Proof. unfold execGetRange. keeps_auto. Qed.
Lemma reads_execGetBit args : keeps (frame t []) (execGetBit (O := O) args).
Proof. unfold execGetBit. keeps_auto. Qed.
Lemma keeps_bit_range args i n ks : keeps (frame t ks) (bit_range (O := O) args i n).
Proof. unfold bit_range. keeps_auto. Qed.
Hint Resolve keeps_bit_range : keeps.
Lemma reads_execBitCount args : keeps (frame t []) (execBitCount (O := O) args).
Proof. unfold execBitCount. keeps_auto. Qed.
Lemma reads_execBitPos args : keeps (frame t []) (execBitPos (O := O) args).
Proof. unfold execBitPos. keeps_auto. Qed.
Lemma reads_execExists args : keeps (frame t []) (execExists (O := O) args).
Proof. unfold execExists. keeps_auto. Qed.
Lemma reads_execType args : keeps (frame t []) (execType (O := O) args).
Proof. unfold execType, getType. keeps_auto. Qed.
Lemma reads_ttl_with f args : (∀ n ks, keeps (frame t ks) (f n)) → keeps (frame t []) (ttl_with (O := O) f args).
Proof. intros. unfold ttl_with. keeps_auto. Qed.

(** *** Commands on several keys *)

Lemma forM_string_of args db : forM args string_of db = Ret (all_keys args db, db).
Proof.
  unfold all_keys. induction args as [|a args IH]; [done|]. cbn [forM fmap list_fmap]. rewrite run_string_of.
  by rewrite (run_step _ _ _ _ _ IH).
Qed.

Lemma framed_all {A} args (f : list bytes → M O A) :
  (∀ keys, keeps (frame t keys) (f keys)) → framed (all_keys args) (forM args string_of ≫= f).
Proof.
  intros Hf db a db'. rewrite (run_step _ _ _ _ _ (forM_string_of args db)). intros E. by apply Hf in E.
Qed.

Lemma framed_execDel args : framed (all_keys args) (execDel args).
Proof. apply framed_all. intros keys. keeps_auto. Qed.

Lemma keeps_put_strings keys values ks : keys ⊆ ks → keeps (frame t ks) (put_strings (O := O) keys values).
Proof.
  intros Hk. unfold put_strings. keeps_auto. apply keeps_PutEntity, Hk.
  apply elem_of_zip_l in H. done.
Qed.
Lemma keeps_any_exists keys ks : keeps (frame t ks) (any_exists (O := O) keys).
Proof. induction keys as [|k keys IH]; cbn [any_exists]; keeps_auto. Qed.
Hint Resolve keeps_put_strings keeps_any_exists : keeps.

Lemma framed_pairs {A} args (f : list bytes → M O A) :
  (∀ keys, keeps (frame t keys) (f keys)) → framed (pair_keys args) (forM (pairs_of args).*1 string_of ≫= f).
Proof. apply (framed_all (pairs_of args).*1). Qed.

Lemma framed_ret {A} ks (a : A) : framed ks (mret a).
Proof. intros db a' db' [= _ <-]. reflexivity. Qed.

Lemma framed_execMSet args : framed (pair_keys args) (execMSet args).
Proof. unfold execMSet. destruct (negb _); [apply framed_ret|]. apply framed_pairs. intros keys. keeps_auto. Qed.
Lemma framed_execMSetNX args : framed (pair_keys args) (execMSetNX args).
Proof. unfold execMSetNX. destruct (negb _); [apply framed_ret|]. apply framed_pairs. intros keys. keeps_auto. Qed.

Lemma keeps_move_ttl src dest raw ks : src ∈ ks → dest ∈ ks → keeps (frame t ks) (move_ttl (O := O) src dest raw).
Proof. intros. unfold move_ttl. keeps_auto. Qed.
Hint Resolve keeps_move_ttl : keeps.

(** RENAME and RENAMENX change both of their keys. *)
Lemma framed_two {A} args (f : bytes → bytes → M O A) :
  (∀ src dest, keeps (frame t [src; dest]) (f src dest)) →
  framed (λ db, arg_str (memory db) <$> take 2 args) (str_at args 0 ≫= λ src, str_at args 1 ≫= λ dest, f src dest).
Proof.
  intros Hf db a db'. unfold str_at, arg_at. autorewrite with run.
  destruct args as [|x [|y args]]; cbn [must lookup list_lookup]; [done|..]; unfold string_of; autorewrite with run; cbn [must lookup list_lookup]; [done|].
  autorewrite with run. intros E. by apply Hf in E.
Qed.

Lemma framed_execRename args : framed (λ db, arg_str (memory db) <$> take 2 args) (execRename args).
Proof.
  unfold execRename. destruct (negb _); [apply framed_ret|]. apply framed_two. intros src dest.
  assert (src ∈ [src; dest]) by left. assert (dest ∈ [src; dest]) by (right; left). keeps_auto.
Qed.
Lemma framed_execRenameNx args : framed (λ db, arg_str (memory db) <$> take 2 args) (execRenameNx args).
Proof.
  apply framed_two. intros src dest. assert (src ∈ [src; dest]) by left. assert (dest ∈ [src; dest]) by (right; left). keeps_auto.
Qed.

(** MSETEX changes the keys of its pairs. *)
Definition msetex_keys (args : list arg) (db : DB O) : list bytes :=
  match args with
  | [] => []
  | a0 :: l => match ParseInt (arg_str (memory db) a0) with
               | Some n => if n <? 1 then [] else arg_str (memory db) <$> take (Z.to_nat (Z.min n (Z.of_nat (length l)))) (pairs_of l).*1
               | None => []
               end
  end.

Lemma keeps_msetex_opts l p ttl ks : keeps (frame t ks) (msetex_opts (O := O) l p ttl).
Proof.
  remember (length l) as n eqn:En. revert l p ttl En. induction n as [n IH] using lt_wf_ind. intros l p ttl ->.
  destruct l as [|a l]; cbn [msetex_opts]; [keeps_auto|]. cbn zeta.
  repeat first [solve [eauto 3 with keeps] | eapply IH; [|reflexivity]; cbn; lia | keeps_step].
Qed.
Hint Resolve keeps_msetex_opts : keeps.

(** The keys of the pairs are read as they are written; new arrays do not
    change them. *)
Lemma arg_str_prefix (m m' : mem) a : m `prefix_of` m' → (∀ s, a = ARef s → (Arr s < length m)%nat) → arg_str m' a = arg_str m a.
Proof.
  intros [l ->] Ha. destruct a as [|s|b]; [done| |done]. unfold arg_str, arg_opt, slice_bytes, array. cbn.
  by rewrite lookup_app_l by by apply Ha.
Qed.

Lemma extends_arg_str (db db' : DB O) a : extends db db' → (∀ s, a = ARef s → (Arr s < length (memory db))%nat) →
  arg_str (memory db') a = arg_str (memory db) a.
Proof. apply arg_str_prefix. Qed.

(** *** Errors *)

Lemma quiet_reads m : keeps (frame t []) m → quiet m.
Proof. intros Hm db r db' E _. by eapply Hm. Qed.

Lemma quiet_execSet args : quiet (execSet args).
Proof. unfold execSet. quiet_auto. Qed.
Lemma quiet_execSetNX args : quiet (execSetNX args).
Proof. unfold execSetNX. quiet_auto. Qed.
Lemma quiet_setex u args : quiet (setex u args).
Proof. unfold setex. quiet_auto. Qed.
Lemma quiet_execGetSet args : quiet (execGetSet args).
Proof. unfold execGetSet. quiet_auto. Qed.
Lemma quiet_execGetDel args : quiet (execGetDel args).
Proof. unfold execGetDel. quiet_auto. Qed.
Lemma quiet_counter l args k f a r : quiet (counter l args k f a r).
Proof. unfold counter. quiet_auto. Qed.
Lemma quiet_execIncr args : quiet (execIncr args).
Proof. apply quiet_bind; [keeps_auto|intros; apply quiet_counter]. Qed.
Lemma quiet_execDecr args : quiet (execDecr args).
Proof. apply quiet_bind; [keeps_auto|intros; apply quiet_counter]. Qed.
Lemma quiet_execIncrBy args : quiet (execIncrBy args).
Proof. unfold execIncrBy. quiet_auto. Qed.
Lemma quiet_execDecrBy args : quiet (execDecrBy args).
Proof. unfold execDecrBy. quiet_auto. Qed.
Lemma quiet_execIncrByFloat args : quiet (execIncrByFloat args).
Proof. unfold execIncrByFloat. quiet_auto. Qed.
Lemma quiet_execMSet args : quiet (execMSet args).
Proof. unfold execMSet. quiet_auto. Qed.
Lemma quiet_execMSetNX args : quiet (execMSetNX args).
Proof. unfold execMSetNX. quiet_auto. Qed.
Lemma quiet_execDel args : quiet (execDel args).
Proof. unfold execDel. quiet_auto. Qed.
Lemma quiet_execDelEX args : quiet (execDelEX args).
Proof. unfold execDelEX. quiet_auto. Qed.
Lemma quiet_execRename args : quiet (execRename args).
Proof. unfold execRename. quiet_auto. Qed.
Lemma quiet_execRenameNx args : quiet (execRenameNx args).
Proof. unfold execRenameNx. quiet_auto. Qed.
End handlers.

#[export] Hint Resolve keeps_arg_at keeps_string_of keeps_str_at keeps_MakeStringObject keeps_MakeRawStringObject keeps_getAsString
  keeps_len_of keeps_deadline keeps_move_ttl : keeps.
