(* ===== verification/TxThm.v ===== *)
(** * Transactions: rollback and optimistic locking

    What a client sees of a key is its [view]: the bytes of a string (or the
    object) and the deadline, if the key is alive.  A transaction in which a
    command fails leaves every view as it was; a transaction whose watched keys
    were written in between does nothing. *)

From stdpp Require Import base gmap list strings.
From Stdlib Require Import ZArith Lia Ascii.
From S2P Require Import Prelude GoText Strconv Resp ObjString Runtime GoTime TimeWheel KeySpace Bitmap StringCmd KeyCmd Tx KeySpaceThm.

Local Open Scope Z_scope.

(** ** Views *)

Inductive content (O : Type) := CStr (b : option bytes) | CObj (o : O).
Arguments CStr {O} b.
Arguments CObj {O} o.

Definition ent_content {O} (m : mem) (e : entity O) : content O :=
  match e with
  | EInt v => CStr (Some (formatInt64 v))
  | EStr _ b | EBytes b => CStr (arg_opt m b)
  | EObj o => CObj o
  end.

(** The entity of a key that is alive at [t]. *)
Definition alive {O} (t : Z) (db : DB O) (k : bytes) : option (entity O) :=
  match ttlMap db !! k with
  | Some d => if d <? t then None else data db !! k
  | None => data db !! k
  end.

(** Deadlines are seen in milliseconds. *)
Definition view {O} (t : Z) (db : DB O) (k : bytes) : option (content O * option Z) :=
  (λ e, (ent_content (memory db) e, (λ d, d / Millisecond) <$> ttlMap db !! k)) <$> alive t db k.

(** The slice of a stored string lies in memory. *)
Definition arg_ok (m : mem) (a : arg) : Prop := match a with ARef s => (Arr s < length m)%nat | _ => True end.
Definition ent_ok {O} (m : mem) (e : entity O) : Prop := match e with EStr _ b | EBytes b => arg_ok m b | _ => True end.

Lemma arg_opt_prefix (m m' : mem) a : m `prefix_of` m' → arg_ok m a → arg_opt m' a = arg_opt m a.
Proof.
  intros [l ->] Ha. destruct a as [|s|b]; [done| |done]. cbn. unfold slice_bytes, array. by rewrite lookup_app_l.
Qed.
Lemma ent_content_prefix {O} (m m' : mem) (e : entity O) : m `prefix_of` m' → ent_ok m e → ent_content m' e = ent_content m e.
Proof. intros. destruct e; cbn; try done; by rewrite (arg_opt_prefix m m'). Qed.
Lemma ent_ok_prefix {O} (m m' : mem) (e : entity O) : m `prefix_of` m' → ent_ok m e → ent_ok m' e.
Proof. intros [l ->]. destruct e as [| [] []| []|]; cbn; rewrite ?length_app; lia || done. Qed.

Lemma kept_alive {O} t k (db db' : DB O) : kept_at t k db db' → alive t db' k = alive t db k.
Proof.
  unfold alive. intros [[-> ->]|(-> & -> & d & -> & Hd)]; [done|]. by rewrite (proj2 (Z.ltb_lt _ _) Hd).
Qed.

Lemma kept_view {O} t k (db db' : DB O) :
  kept_at t k db db' → extends db db' → (∀ e, alive t db k = Some e → ent_ok (memory db) e) → view t db' k = view t db k.
Proof.
  intros Hk Hm Hok. unfold view. rewrite (kept_alive t k db db' Hk).
  destruct (alive t db k) as [e|] eqn:Ea; [|done]. cbn. rewrite (ent_content_prefix (memory db)) by auto.
  destruct Hk as [[_ ->]|(_ & _ & d & Hd & Hlt)]; [done|]. unfold alive in Ea. rewrite Hd, (proj2 (Z.ltb_lt _ _) Hlt) in Ea. done.
Qed.

Section specs.
Context {O : Type} `{!Objects O} {env : Env} {rt : Runtime} (t : Z) (Hclk : ∀ n, clock n = t).
Implicit Types db : DB O.

(** ** What the primitives return *)

(** Only the access data, the clock and the outputs differ. *)
Definition quietly (db db' : DB O) : Prop :=
  data db' = data db ∧ ttlMap db' = ttlMap db ∧ versionMap db' = versionMap db ∧ memory db' = memory db ∧ wheel db' = wheel db.

Lemma quietly_frame ks db db' : quietly db db' → frame t ks db db'.
Proof. intros (?&?&?&?&?). by apply frame_quiet. Qed.

Lemma touchLRU_spec k db : ∃ db', touchLRU k db = Ret (tt, db') ∧ quietly db db'.
Proof.
  unfold touchLRU, lfuDecay, lfuLogIncr, lfuNowMinutes, lruClock. destruct usingLFU.
  - autorewrite with run. destruct (lruMap db !! k) as [m|]; autorewrite with run.
    + destruct (_ =? 255); autorewrite with run; [by eexists|]. unfold flip. eexists. split; [reflexivity|by split_and!].
    + destruct (_ =? 255); autorewrite with run; [by eexists|]. unfold flip. eexists. split; [reflexivity|by split_and!].
  - autorewrite with run. eexists. split; [reflexivity|by split_and!].
Qed.

Lemma GetEntity_spec k db :
  ∃ db', GetEntity k db = Ret (alive t db k, db') ∧ memory db' = memory db ∧
    match alive t db k with
    | Some e => quietly db db' ∧ data db !! k = Some e
    | None => data db' !! k = None
    end.
Proof.
  unfold GetEntity, alive, IsExpired, Remove. autorewrite with run.
  destruct (data db !! k) as [e|] eqn:Ed; autorewrite with run.
  - destruct (ttlMap db !! k) as [d|] eqn:Et; autorewrite with run.
    + rewrite Hclk. unfold time_After. destruct (d <? t); autorewrite with run.
      * eexists. split; [reflexivity|]. split; [done|]. cbn. apply lookup_delete_eq.
      * destruct (touchLRU_spec k (set_reads db (S (reads db)))) as (db' & E & Q). rewrite (run_step _ _ _ _ _ E).
        exists db'. split; [done|]. destruct Q as (?&?&?&?&?). by split_and!.
    + destruct (touchLRU_spec k db) as (db' & E & Q). rewrite (run_step _ _ _ _ _ E).
      exists db'. split; [done|]. destruct Q as (?&?&?&?&?). by split_and!.
  - exists db. destruct (ttlMap db !! k) as [d|]; [destruct (d <? t)|]; done.
Qed.

Lemma PutEntity_spec k e db :
  ∃ r db', PutEntity k e db = Ret (r, db') ∧ data db' = <[k := e]> (data db) ∧ ttlMap db' = ttlMap db ∧
    versionMap db' = versionMap db ∧ memory db' = memory db ∧ wheel db' = wheel db.
Proof.
  unfold PutEntity. autorewrite with run.
  destruct (touchLRU_spec k (set_data db (<[k := e]> (data db)))) as (db' & E & ?&?&?&?&?). rewrite (run_step _ _ _ _ _ E).
  autorewrite with run. destruct (data db !! k); autorewrite with run; eexists _, _; (split; [reflexivity|by split_and!]).
Qed.

Lemma Persist_spec k db :
  ∃ db', Persist k db = Ret (tt, db') ∧ data db' = data db ∧ ttlMap db' = delete k (ttlMap db) ∧
    versionMap db' = versionMap db ∧ memory db' = memory db ∧ wheel db' = RemoveJob (wheel db) (genExpireTask k).
Proof. unfold Persist. autorewrite with run. eexists. split; [reflexivity|by split_and!]. Qed.

Lemma Expire_spec k d db :
  wf (wheel db) → ∃ db', Expire k d db = Ret (tt, db') ∧ data db' = data db ∧ ttlMap db' = <[k := d]> (ttlMap db) ∧
    versionMap db' = versionMap db ∧ memory db' = memory db ∧ wf (wheel db').
Proof.
  intros W. unfold Expire, At. autorewrite with run. cbn [wheel set_ttl set_reads].
  assert (HA : ∃ tw', AddJob (wheel db) (time_Sub d (clock (reads db))) (genExpireTask k) k = Ret tw' ∧ wf tw').
  { unfold AddJob. destruct (_ <? 0); [by eexists|].
    destruct (addTask_spec (wheel db) (time_Sub d (clock (reads db))) 0 (genExpireTask k) k W) as (tw' & E & W' & _). by exists tw'. }
  destruct HA as (tw' & E & W'). cbn [reads set_ttl]. rewrite E. autorewrite with run.
  eexists. split; [reflexivity|by split_and!].
Qed.
End specs.

(** ** Undo logs *)

(** [strings.ToLower] on ASCII text. *)
Definition ascii_lowers {rt : Runtime} : Prop :=
  ∀ s, forallb (λ c, byteZ c <? 128) s = true → ToLower s = map ascii_lower s.

(** Deadlines of a server's lifetime, and not within the last, unfinished
    millisecond: an undo log keeps whole milliseconds. *)
Definition settled (t d : Z) : Prop := 0 <= d < 2 ^ 63 ∧ (t <= d → t <= d / Millisecond * Millisecond).

Section undo.
Context {O : Type} `{!Objects O} {env : Env} {rt : Runtime} {srv : Server O} (t : Z) (Hclk : ∀ n, clock n = t).
Context (Hlow : ascii_lowers) (Htab : ∀ n cmd, base_table n = Some cmd → cmdTable n = Some cmd).
Implicit Types db : DB O.

Definition exec_lines (lines : list (list arg)) : M O unit := forM_ lines (λ line, execWithLock line;; mret tt).

Lemma exec_lines_nil db : exec_lines [] db = Ret (tt, db).
Proof. done. Qed.
Lemma exec_lines_cons line lines db r db1 :
  execWithLock line db = Ret (r, db1) → exec_lines (line :: lines) db = exec_lines lines db1.
Proof. intros E. unfold exec_lines. rewrite run_forM_cons, run_assoc, (run_step _ _ _ _ _ E), run_ret. done. Qed.
Lemma exec_lines_app l1 l2 db : exec_lines (l1 ++ l2) db = (exec_lines l1 ≫= λ _, exec_lines l2) db.
Proof. apply run_forM_app. Qed.

Lemma arg_str_lit m b : arg_str m (ALit b) = b.
Proof. done. Qed.

(** The command that a line names. *)
Lemma execWithLock_lit (u l : string) f args cmd db :
  forallb (λ c, byteZ c <? 128) (str u) = true → map ascii_lower (str u) = str l → base_table (str l) = Some cmd →
  validateArity (arity cmd) (ALit (str u) :: args) = true → executor cmd = f →
  execWithLock (ALit (str u) :: args) db = f args db.
Proof.
  intros H1 H2 H3 H4 <-. unfold execWithLock, cmd_name, str_at, arg_at. autorewrite with run. cbn [must lookup list_lookup].
  autorewrite with run. rewrite arg_str_lit, (Hlow _ H1), H2, (Htab _ _ H3), H4. done.
Qed.

Lemma exec_DEL k db : wf (wheel db) →
  ∃ r db', execWithLock (ToCmdLine [str "DEL"; k]) db = Ret (r, db') ∧ data db' !! k = None ∧ frame t [k] db db'.
Proof.
  intros W. unfold ToCmdLine. cbn [fmap list_fmap].
  erewrite (execWithLock_lit "DEL" "del" execDel) by reflexivity.
  assert (HF : framed t (all_keys [ALit k]) (execDel (O := O) [ALit k])) by (by apply framed_execDel).
  assert (HE : ∃ r db', execDel [ALit k] db = Ret (r, db') ∧ data db' !! k = None).
  { unfold execDel. rewrite (run_step _ _ _ _ _ (forM_string_of _ _)). unfold all_keys. cbn [fmap list_fmap Removes]. rewrite arg_str_lit, run_assoc, run_gets. destruct (data db !! k) as [e|] eqn:Ed.
    - rewrite !run_assoc. unfold Remove. autorewrite with run. eexists _, _. split; [reflexivity|]. cbn. apply lookup_delete_eq.
    - autorewrite with run. by eexists _, _. }
  destruct HE as (r & db' & E & Hd). exists r, db'. split; [done|]. split; [done|]. by apply HF in E.
Qed.

Lemma own_spec a db : ∃ a' db', own a db = Ret (a', db') ∧ data db' = data db ∧ ttlMap db' = ttlMap db ∧ wheel db' = wheel db ∧
  versionMap db' = versionMap db ∧ extends db db' ∧ arg_opt (memory db') a' = arg_opt (memory db) a ∧
  (arg_ok (memory db) a → arg_ok (memory db') a').
Proof.
  destruct a as [|s|b]; cbn [own]; [eexists _, _; split; [reflexivity|unfold extends; by split_and!]..|].
  unfold alloc. eexists _, _. split; [reflexivity|]. split_and!; try done.
  - by apply prefix_app_r.
  - cbn. f_equal. unfold slice_bytes, array. cbn. rewrite lookup_app_r, Nat.sub_diag by lia. cbn. by rewrite drop_0, firstn_all.
  - cbn. intros _. rewrite length_app. cbn. lia.
Qed.

Lemma MakeStringObject_spec a db : ∃ e db', MakeStringObject a db = Ret (e, db') ∧ data db' = data db ∧ ttlMap db' = ttlMap db ∧
  wheel db' = wheel db ∧ versionMap db' = versionMap db ∧ extends db db' ∧
  ent_content (memory db') e = CStr (arg_opt (memory db) a) ∧ (arg_ok (memory db) a → ent_ok (memory db') e).
Proof.
  unfold MakeStringObject. rewrite run_string_of. destruct (isInt (arg_str (memory db) a)) as [v ok] eqn:E. destruct ok.
  - rewrite run_mret. eexists _, _. split; [reflexivity|]. split_and!; try done; [by unfold extends|].
    unfold arg_str in E. cbn. destruct (arg_opt (memory db) a) as [b|]; [|done]. cbn in E. apply isInt_true in E as [-> _]. done.
  - destruct (own_spec a db) as (a' & db' & Eo & ?&?&?&?&?&Hc&Hok). rewrite (run_step _ _ _ _ _ Eo), run_mret.
    eexists _, _. split; [reflexivity|]. split_and!; try done. cbn. by rewrite Hc.
Qed.

(** The SET line of an undo log stores the content again, without a deadline. *)
Lemma exec_SET k b db : wf (wheel db) →
  ∃ r db' e, execWithLock (stringToCmd k b) db = Ret (r, db') ∧ data db' !! k = Some e ∧ ttlMap db' !! k = None ∧
    ent_content (memory db') e = CStr (arg_opt (memory db) b) ∧ (arg_ok (memory db) b → ent_ok (memory db') e) ∧ frame t [k] db db'.
Proof.
  intros W. unfold stringToCmd. erewrite (execWithLock_lit "SET" "set" execSet) by reflexivity.
  assert (HF : framed t (first_key [ALit k; b]) (execSet (O := O) [ALit k; b])) by (by apply framed_execSet).
  assert (HE : ∃ r db' e, execSet [ALit k; b] db = Ret (r, db') ∧ data db' !! k = Some e ∧ ttlMap db' !! k = None ∧
    ent_content (memory db') e = CStr (arg_opt (memory db) b) ∧ (arg_ok (memory db) b → ent_ok (memory db') e)).
  { unfold execSet, str_at, arg_at. autorewrite with run. cbn [must lookup list_lookup]. autorewrite with run. rewrite arg_str_lit.
    cbn [drop forM parse_set]. autorewrite with run. cbn [parse_set ifeq ifne ifdeq ifdne first_stop check_cond]. autorewrite with run.
    destruct (MakeStringObject_spec b db) as (e & db1 & E1 & D1 & T1 & W1 & V1 & X1 & C1 & K1). rewrite (run_step _ _ _ _ _ E1).
    cbn [opt_policy]. rewrite run_assoc. destruct (PutEntity_spec k e db1) as (r2 & db2 & E2 & D2 & T2 & V2 & M2 & W2).
    rewrite (run_step _ _ _ _ _ E2), run_ret. cbn [ttl unlimitedTTL Z.ltb Z.compare Z.eqb negb]. rewrite !run_assoc.
    destruct (Persist_spec k db2) as (db3 & E3 & D3 & T3 & V3 & M3 & W3). rewrite (run_step _ _ _ _ _ E3). autorewrite with run.
    eexists _, _, e. split; [reflexivity|]. cbn [data ttlMap memory set_aof]. rewrite D3, D2, T3, M3, M2.
    split; [apply lookup_insert_eq|]. split; [apply lookup_delete_eq|]. done. }
  destruct HE as (r & db' & e & E & H1 & H2 & H3 & H4). exists r, db', e. split_and!; try done. by apply HF in E.
Qed.

Lemma exec_PERSIST k db e : wf (wheel db) → data db !! k = Some e → ttlMap db !! k = None →
  ∃ r db', execWithLock (ToCmdLine [str "PERSIST"; k]) db = Ret (r, db') ∧ quietly db db'.
Proof.
  intros W Hd Ht. unfold ToCmdLine. cbn [fmap list_fmap]. erewrite (execWithLock_lit "PERSIST" "persist" execPersist) by reflexivity. unfold execPersist, str_at, arg_at. autorewrite with run. cbn [must lookup list_lookup]. autorewrite with run.
  rewrite arg_str_lit. destruct (GetEntity_spec t Hclk k db) as (db1 & E1 & M1 & H1). rewrite (run_step _ _ _ _ _ E1).
  assert (Ea : alive t db k = Some e) by (unfold alive; by rewrite Ht). rewrite Ea in *. destruct H1 as [Q _].
  autorewrite with run. destruct Q as (D1 & T1 & V1 & M1' & W1). rewrite T1, Ht. autorewrite with run. by eexists _, _.
Qed.

Lemma exec_PEXPIREAT k n db e : wf (wheel db) → i64 n → data db !! k = Some e → ttlMap db !! k = None →
  ∃ r db', execWithLock (ToCmdLine [str "PEXPIREAT"; k; Itoa n]) db = Ret (r, db') ∧ data db' = data db ∧
    ttlMap db' = <[k := wrap64 (n * Millisecond)]> (ttlMap db) ∧ memory db' = memory db ∧ frame t [k] db db'.
Proof.
  intros W Hn Hd Ht. unfold ToCmdLine. cbn [fmap list_fmap]. erewrite (execWithLock_lit "PEXPIREAT" "pexpireat" execPExpireAt) by reflexivity.
  assert (HF : framed t (first_key [ALit k; ALit (Itoa n)]) (execPExpireAt (O := O) [ALit k; ALit (Itoa n)])).
  { apply framed_expire_with; [done|]. intros. keeps_auto. }
  assert (HE : ∃ r db', execPExpireAt [ALit k; ALit (Itoa n)] db = Ret (r, db') ∧ data db' = data db ∧
    ttlMap db' = <[k := wrap64 (n * Millisecond)]> (ttlMap db) ∧ memory db' = memory db).
  { unfold execPExpireAt, expire_with, str_at, arg_at. autorewrite with run. cbn [must lookup list_lookup]. autorewrite with run.
    cbn [must lookup list_lookup]. autorewrite with run. rewrite !arg_str_lit, ParseInt_Itoa by done.
    destruct (GetEntity_spec t Hclk k db) as (db1 & E1 & M1 & H1). rewrite (run_step _ _ _ _ _ E1).
    assert (Ea : alive t db k = Some e) by (unfold alive; by rewrite Ht). rewrite Ea in *. destruct H1 as [(D1 & T1 & V1 & _ & W1) _].
    autorewrite with run. cbn [drop forM]. autorewrite with run. change (parseExpireOption []) with (@inr reply Z 0). cbv iota. autorewrite with run.
    cbn [checkExpireOption Z.eqb negb].
    destruct (Expire_spec k (Unix_nsec (wrap64 (n * Millisecond))) db1) as (db2 & E2 & D2 & T2 & V2 & M2 & W2); [by rewrite W1|].
    rewrite (run_step _ _ _ _ _ E2). autorewrite with run. eexists _, _. split; [reflexivity|]. cbn.
    rewrite D2, D1, T2, T1, M2, M1. done. }
  destruct HE as (r & db' & E & ? & ? & ?). exists r, db'. split_and!; try done. by apply HF in E.
Qed.
End undo.
