(* ===== verification/TxRuns.v ===== *)
(** * Commands return

    The commands that a transaction can undo never panic on arguments of the
    right number, and their replies are ones that the server can encode.  The
    judgement [runs K m P] says so of a computation: from a state with a
    well-formed wheel and only strings at the keys [K], [m] returns a result
    that satisfies [P] in a state of the same kind. *)

From stdpp Require Import base gmap list strings.
From Stdlib Require Import ZArith Lia Ascii.
From S2P Require Import Prelude GoText Strconv Resp ObjString Runtime GoTime TimeWheel KeySpace Bitmap StringCmd KeyCmd Tx KeySpaceThm TxThm.

Local Open Scope Z_scope.

Definition not_obj {O} (e : entity O) : Prop := match e with EObj _ => False | _ => True end.
Definition strings_at {O} (K : list bytes) (db : DB O) : Prop := ∀ k e, k ∈ K → data db !! k = Some e → not_obj e.
Definition inv {O} (K : list bytes) (db : DB O) : Prop := wf (wheel db) ∧ strings_at K db.

(** A reply whose first byte can be looked at, whatever the memory. *)
Definition plain {rt : Runtime} (r : reply) : Prop := ∀ m, Resp.IsErrorReply FormatFloat (resolve m r) = Ret (is_error r).

Definition runs {O A} (K : list bytes) (m : M O A) (P : A → Prop) : Prop :=
  ∀ db, inv K db → ∃ a db', m db = Ret (a, db') ∧ inv K db' ∧ P a.

Create HintDb runs.

Section rules.
Context {O : Type} (K : list bytes).

Lemma runs_ret {A} (a : A) (P : A → Prop) : P a → runs K (mret (M := M O) a) P.
Proof. intros H db I. by exists a, db. Qed.
Lemma runs_bind {A B} (m : M O A) (f : A → M O B) (Q : A → Prop) P :
  runs K m Q → (∀ a, Q a → runs K (f a) P) → runs K (m ≫= f) P.
Proof.
  intros Hm Hf db I. destruct (Hm db I) as (a & db1 & E & I1 & Ha). rewrite (run_step _ _ _ _ _ E). by apply Hf.
Qed.
Lemma runs_weaken {A} (m : M O A) (P Q : A → Prop) : runs K m P → (∀ a, P a → Q a) → runs K m Q.
Proof. intros Hm HPQ db I. destruct (Hm db I) as (a & db1 & E & I1 & Ha). exists a, db1. auto. Qed.
Lemma runs_gets {A} (f : DB O → A) : runs K (gets f) (λ _, True).
Proof. intros db I. by exists (f db), db. Qed.
Lemma runs_modify f : (∀ db : DB O, inv K db → inv K (f db)) → runs K (modify f) (λ _, True).
Proof. intros Hf db I. exists tt, (f db). split_and!; try done. by apply Hf. Qed.
Lemma runs_when b (m : M O unit) : runs K m (λ _, True) → runs K (when b m) (λ _, True).
Proof. intros H. destruct b; [done|]. by apply runs_ret. Qed.
Lemma runs_forM {A B} (l : list A) (f : A → M O B) : (∀ a, a ∈ l → runs K (f a) (λ _, True)) → runs K (forM l f) (λ _, True).
Proof.
  induction l as [|a l IH]; intros H; cbn [forM]; [by apply runs_ret|].
  eapply runs_bind; [apply H; left|]. intros b _. eapply runs_bind; [apply IH; intros; apply H; by right|].
  intros bs _. by apply runs_ret.
Qed.
Lemma runs_forM_ {A} (l : list A) (f : A → M O unit) : (∀ a, a ∈ l → runs K (f a) (λ _, True)) → runs K (forM_ l f) (λ _, True).
Proof. intros H. eapply runs_bind; [by apply runs_forM|]. intros _ _. by apply runs_ret. Qed.

(** A computation that leaves the data and the wheel alone. *)
Lemma inv_same (db db' : DB O) : data db' = data db → wheel db' = wheel db → inv K db → inv K db'.
Proof. intros Hd Hw [W S]. split; [by rewrite Hw|]. intros k e. rewrite Hd. apply S. Qed.
Lemma inv_delete k (db db' : DB O) : data db' = delete k (data db) → wf (wheel db') → inv K db → inv K db'.
Proof. intros Hd Hw [W S]. split; [done|]. intros k' e Hk'. rewrite Hd, lookup_delete_Some. intros [_ ?]. by eapply S. Qed.
Lemma inv_insert k e (db db' : DB O) : not_obj e → data db' = <[k := e]> (data db) → wheel db' = wheel db → inv K db → inv K db'.
Proof.
  intros He Hd Hw [W S]. split; [by rewrite Hw|]. intros k' e' Hk'. rewrite Hd, lookup_insert_Some.
  intros [[_ <-]|[_ ?]]; [done|by eapply S].
Qed.
End rules.

#[export] Hint Resolve runs_ret runs_gets : runs.

(** Split a goal along its binds and branches; what a step returns is taken
    from the hints. *)
Ltac runs_step :=
  match goal with
  | |- runs _ (mret _) _ => apply runs_ret; try done
  | |- runs _ (mbind _ _) _ => eapply runs_bind; [solve [eauto 3 with runs] | cbv beta; intros]
  | |- runs _ (mbind _ _) _ => apply runs_bind with (Q := λ _, True); [|cbv beta; intros]
  | |- runs _ (when _ _) _ => apply runs_when
  | |- runs _ (forM_ _ _) _ => apply runs_forM_; intros
  | |- runs _ (forM _ _) _ => apply runs_forM; intros
  | |- runs _ (match ?x with _ => _ end) _ => destruct x eqn:?
  end.
Ltac runs_auto := repeat first [solve [eauto 3 with runs] | runs_step].

Section primitives.
Context {O : Type} `{!Objects O} {env : Env} {rt : Runtime} (K : list bytes).
Local Abbreviation runs := (runs (O := O) K).

Lemma runs_quiet {A} (m : M O A) : (∀ db, ∃ a db', m db = Ret (a, db') ∧ data db' = data db ∧ wheel db' = wheel db) → runs m (λ _, True).
Proof. intros H db I. destruct (H db) as (a & db' & E & Hd & Hw). exists a, db'. split_and!; try done. by eapply inv_same. Qed.

Lemma runs_Now : runs Now (λ _, True).
Proof. apply runs_quiet. intros db. by eexists _, _. Qed.
Lemma runs_addAof l : runs (addAof l) (λ _, True).
Proof. apply runs_quiet. intros db. by eexists _, _. Qed.
Lemma runs_emit ev : runs (emit ev) (λ _, True).
Proof. apply runs_quiet. intros db. by eexists _, _. Qed.
Lemma runs_string_of a : runs (string_of a) (λ _, True).
Proof. apply runs_gets. Qed.
Lemma runs_arg_at args i : (i < length args)%nat → runs (arg_at args i) (λ _, True).
Proof.
  intros Hi. apply runs_quiet. intros db. destruct (lookup_lt_is_Some_2 args i Hi) as [a E]. exists a, db.
  unfold arg_at. by rewrite E.
Qed.
Lemma runs_str_at args i : (i < length args)%nat → runs (str_at args i) (λ _, True).
Proof. intros Hi. eapply runs_bind; [by apply runs_arg_at|]. intros a _. apply runs_string_of. Qed.
Lemma runs_touchLRU k : runs (touchLRU k) (λ _, True).
Proof. apply runs_quiet. intros db. destruct (touchLRU_spec k db) as (db' & E & Hd & _ & _ & _ & Hw). by exists tt, db'. Qed.
Lemma runs_own a : runs (own a) (λ _, True).
Proof. apply runs_quiet. intros db. destruct (own_spec a db) as (a' & db' & E & Hd & _ & Hw & _). by exists a', db'. Qed.
Lemma runs_MakeStringObject a : runs (MakeStringObject a) not_obj.
Proof.
  intros db I. destruct (MakeStringObject_spec a db) as (e & db' & E & Hd & _ & Hw & _ & _ & Hc & _). exists e, db'.
  split; [done|]. split; [by eapply inv_same|]. by destruct e.
Qed.

Lemma runs_Remove k : runs (Remove k) (λ _, True).
Proof.
  intros db I. destruct (key_Remove_spec k db) as (db' & E & Hd & _ & _ & _ & Hw). exists tt, db'. split; [done|]. split; [|done].
  eapply inv_delete; [exact Hd| |done]. rewrite Hw. apply RemoveJob_wf, I.
Qed.
Lemma runs_Persist k : runs (Persist k) (λ _, True).
Proof.
  intros db I. destruct (Persist_spec k db) as (db' & E & Hd & _ & _ & _ & Hw). exists tt, db'. split; [done|]. split; [|done].
  destruct I as [W S]. split; [rewrite Hw; by apply RemoveJob_wf|]. intros k' e. rewrite Hd. apply S.
Qed.
Lemma runs_Expire k d : runs (Expire k d) (λ _, True).
Proof.
  intros db [W S]. destruct (Expire_spec k d db W) as (db' & E & Hd & _ & _ & _ & Hw). exists tt, db'. split; [done|]. split; [|done].
  split; [done|]. intros k' e. rewrite Hd. apply S.
Qed.
Lemma runs_PutEntity k e : not_obj e → runs (PutEntity k e) (λ _, True).
Proof.
  intros He db I. destruct (PutEntity_spec k e db) as (r & db' & E & Hd & _ & _ & _ & Hw). exists r, db'.
  split; [done|]. split; [|done]. by eapply inv_insert.
Qed.
Lemma runs_set_data k e : not_obj e → runs (modify (λ db, set_data db (<[k := e]> (data db)))) (λ _, True).
Proof. intros He. apply runs_modify. intros db I. by eapply (inv_insert K k e db). Qed.
Hint Resolve runs_Now runs_addAof runs_emit runs_string_of runs_touchLRU runs_own runs_Remove runs_Persist runs_Expire
  runs_PutEntity runs_set_data runs_MakeStringObject : runs.

Lemma runs_PutIfAbsent k e : not_obj e → runs (PutIfAbsent k e) (λ _, True).
Proof. intros. unfold PutIfAbsent. runs_auto. Qed.
Lemma runs_PutIfExists k e : not_obj e → runs (PutIfExists k e) (λ _, True).
Proof. intros. unfold PutIfExists. runs_auto. Qed.
Lemma runs_IsExpired k : runs (IsExpired k) (λ _, True).
Proof. unfold IsExpired. runs_auto. Qed.
Lemma runs_Removes l : runs (Removes l) (λ _, True).
Proof. induction l as [|k l IH]; cbn [Removes]; runs_auto. Qed.
Hint Resolve runs_IsExpired : runs.

(** What is found at a key of [K] is no object. *)
Lemma runs_GetEntity k : runs (GetEntity k) (λ e, k ∈ K → ∀ e', e = Some e' → not_obj e').
Proof.
  intros db I. unfold GetEntity. rewrite run_gets. destruct (data db !! k) as [e|] eqn:Ed.
  - destruct (runs_IsExpired k db I) as (b & db1 & E1 & I1 & _). rewrite (run_step _ _ _ _ _ E1). destruct b.
    + exists None, db1. split_and!; try done. 
    + destruct (runs_touchLRU k db1 I1) as ([] & db2 & E2 & I2 & _). rewrite (run_step _ _ _ _ _ E2).
      exists (Some e), db2. split_and!; try done. intros Hk e' [= <-]. by eapply I.
  - by exists None, db.
Qed.
Hint Resolve runs_GetEntity : runs.

Definition fine (r : reply + arg) : Prop := match r with inl e => plain e | inr _ => True end.
Lemma runs_getAsString k : runs (getAsString k) fine.
Proof. unfold getAsString. runs_auto. by repeat case_match. Qed.
Lemma runs_len_of a : runs (len_of a) (λ _, True).
Proof. unfold len_of. runs_auto. Qed.
Lemma runs_deadline ms : runs (deadline ms) (λ _, True).
Proof. unfold deadline. runs_auto. Qed.
End primitives.

#[export] Hint Resolve runs_Now runs_addAof runs_emit runs_string_of runs_touchLRU runs_own runs_Remove runs_Persist runs_Expire
  runs_PutEntity runs_set_data runs_MakeStringObject runs_PutIfAbsent runs_PutIfExists runs_IsExpired runs_Removes runs_GetEntity
  runs_getAsString runs_len_of runs_deadline : runs.
#[export] Hint Extern 2 (runs _ (arg_at _ _) _) => (apply runs_arg_at; lia) : runs.
#[export] Hint Extern 2 (runs _ (str_at _ _) _) => (apply runs_str_at; lia) : runs.

(** ** Handlers *)

Lemma plain_RBulk {rt : Runtime} a : plain (RBulk a).
Proof. intros m. unfold Resp.IsErrorReply. cbn. by destruct (arg_opt m a). Qed.
Lemma plain_RMultiBulk {rt : Runtime} l : plain (RMultiBulk l).
Proof. by intros m. Qed.
Lemma plain_RInt {rt : Runtime} n : plain (RInt n).
Proof. by intros m. Qed.
Lemma plain_ROk {rt : Runtime} : plain ROk.
Proof. by intros m. Qed.
Lemma plain_RNull {rt : Runtime} : plain RNull.
Proof. by intros m. Qed.
Lemma plain_RSyntax {rt : Runtime} : plain RSyntax.
Proof. by intros m. Qed.
Lemma plain_RErr {rt : Runtime} s : plain (RErr s).
Proof. by intros m. Qed.
Lemma plain_err {rt : Runtime} s : plain (RConst (StandardErrReply s)).
Proof. by intros m. Qed.
Lemma plain_status {rt : Runtime} s : plain (RConst (StatusReply s)).
Proof. by intros m. Qed.
Lemma plain_unknown {rt : Runtime} : plain (RConst UnknownErrReply).
Proof. by intros m. Qed.
#[export] Hint Resolve plain_RBulk plain_RMultiBulk plain_RInt plain_ROk plain_RNull plain_RSyntax plain_RErr plain_err
  plain_status plain_unknown : plain.

Ltac plain_auto := cbv beta; repeat first [solve [eauto 2 with plain] | case_match; simplify_eq/=].
#[export] Hint Extern 3 (runs _ (mret _) plain) => (apply runs_ret; solve [plain_auto]) : runs.

Section handlers.
Context {O : Type} `{!Objects O} {env : Env} {rt : Runtime} (K : list bytes).
Local Abbreviation runs := (runs (O := O) K).

Definition fine_opt {A} (r : reply + A) : Prop := match r with inl e => plain e | inr _ => True end.
Lemma fine_ttl_arg cmd u o next : fine_opt (ttl_arg cmd u o next).
Proof. unfold ttl_arg, fine_opt. repeat case_match; simplify_eq/=; auto with plain. Qed.
Lemma fine_parse_set l o : fine_opt (parse_set l o).
Proof.
  remember (length l) as n eqn:En. revert l o En. induction n as [n IH] using lt_wf_ind. intros l o ->.
  destruct l as [|a l]; [done|]. cbn [parse_set].
  assert (HT : ∀ u, match ttl_arg "set" u (ttl o) (head l) with inl e => plain e | _ => True end) by (intros; apply (fine_ttl_arg "set" u)).
  pose proof (HT 1000) as HT1. pose proof (HT 1) as HT2.
  repeat case_match; try (eapply IH; [|reflexivity]; subst; cbn; lia); simplify_eq/=; auto with plain.
Qed.

Lemma runs_check_cond k c h : runs (check_cond k c h) (λ r, match r with Some e => plain e | None => True end).
Proof. unfold check_cond. runs_auto; plain_auto. Qed.
Lemma runs_first_stop cs : (∀ c, c ∈ cs → runs c (λ r, match r with Some e => plain e | None => True end)) →
  runs (first_stop cs) (λ r, match r with Some e => plain e | None => True end).
Proof.
  induction cs as [|c cs IH]; intros H; cbn [first_stop]; [by apply runs_ret|].
  eapply runs_bind; [apply H; left|]. intros [e|] He; [by apply runs_ret|]. apply IH. intros. apply H. by right.
Qed.
Lemma runs_conds k o : runs (first_stop [check_cond k (ifeq o) cond_ifeq; check_cond k (ifne o) cond_ifne;
    check_cond k (ifdeq o) cond_ifdeq; check_cond k (ifdne o) cond_ifdne]) (λ r, match r with Some e => plain e | None => True end).
Proof. apply runs_first_stop. intros c Hc. repeat (apply elem_of_cons in Hc as [->|Hc]; [apply runs_check_cond|]). by apply elem_of_nil in Hc. Qed.
Hint Resolve runs_conds : runs.

Lemma runs_execGet args : (1 <= length args)%nat → runs (execGet args) plain.
Proof. intros. unfold execGet. runs_auto; plain_auto. Qed.
Lemma runs_execStrLen args : (1 <= length args)%nat → runs (execStrLen args) plain.
Proof. intros. unfold execStrLen. runs_auto; plain_auto. Qed.
Lemma runs_execMGet args : runs (execMGet args) plain.
Proof. unfold execMGet. runs_auto; plain_auto. Qed.
Lemma runs_execGetRange args : (3 <= length args)%nat → runs (execGetRange args) plain.
Proof. intros. unfold execGetRange. runs_auto; plain_auto. Qed.
Lemma runs_execSet args : (2 <= length args)%nat → runs (execSet args) plain.
Proof.
  intros. unfold execSet. pose proof (λ l, fine_parse_set l (MkSetopts upsertPolicy unlimitedTTL None None None None)) as HP.
  runs_auto; plain_auto. match goal with E : parse_set ?l _ = _ |- _ => pose proof (HP l) as Hl; by rewrite E in Hl end.
Qed.
Lemma runs_execSetNX args : (2 <= length args)%nat → runs (execSetNX args) plain.
Proof. intros. unfold execSetNX. runs_auto; plain_auto. Qed.
Lemma runs_setex u args : (3 <= length args)%nat → runs (setex u args) plain.
Proof. intros. unfold setex. runs_auto; plain_auto. Qed.
Lemma runs_execGetSet args : (2 <= length args)%nat → runs (execGetSet args) plain.
Proof. intros. unfold execGetSet. runs_auto; plain_auto. Qed.
Lemma runs_execGetDel args : (1 <= length args)%nat → runs (execGetDel args) plain.
Proof. intros. unfold execGetDel. runs_auto; plain_auto. Qed.
Lemma runs_counter l args k f a r : runs (counter l args k f a r) plain.
Proof. unfold counter, not_integer. runs_auto; plain_auto. Qed.
Hint Resolve runs_counter : runs.
Lemma runs_execIncr args : (1 <= length args)%nat → runs (execIncr args) plain.
Proof. intros. unfold execIncr. runs_auto. Qed.
Lemma runs_execDecr args : (1 <= length args)%nat → runs (execDecr args) plain.
Proof. intros. unfold execDecr. runs_auto. Qed.
Lemma runs_execIncrBy args : (2 <= length args)%nat → runs (execIncrBy args) plain.
Proof. intros. unfold execIncrBy, not_integer. runs_auto; plain_auto. Qed.
Lemma runs_execDecrBy args : (2 <= length args)%nat → runs (execDecrBy args) plain.
Proof. intros. unfold execDecrBy, not_integer. runs_auto; plain_auto. Qed.
Lemma runs_execIncrByFloat args : (2 <= length args)%nat → runs (execIncrByFloat args) plain.
Proof. intros. unfold execIncrByFloat, not_float. runs_auto; plain_auto. Qed.

Lemma runs_put_strings ks vs : runs (put_strings ks vs) (λ _, True).
Proof. unfold put_strings. runs_auto. Qed.
Lemma runs_any_exists ks : runs (any_exists ks) (λ _, True).
Proof. induction ks as [|k ks IH]; cbn [any_exists]; runs_auto. Qed.
Hint Resolve runs_put_strings runs_any_exists : runs.
Lemma runs_execMSet args : runs (execMSet args) plain.
Proof. unfold execMSet. runs_auto; plain_auto. Qed.
Lemma runs_execMSetNX args : runs (execMSetNX args) plain.
Proof. unfold execMSetNX. runs_auto; plain_auto. Qed.

Lemma runs_execDel args : runs (execDel args) plain.
Proof. unfold execDel. runs_auto; plain_auto. Qed.
Lemma runs_execDelEX args : runs (execDelEX args) plain.
Proof.
  unfold execDelEX, delex_arity. destruct (_ || _) eqn:E; [runs_auto|]. apply orb_false_iff in E as [E1%Nat.ltb_ge E2%Nat.ltb_ge].
  destruct (length args =? 1)%nat eqn:E3; [runs_auto; plain_auto|]. apply Nat.eqb_neq in E3.
  eapply runs_bind; [eauto with runs|]. intros k _. eapply runs_bind; [eauto with runs|]. intros a1 _.
  destruct (negb _) eqn:E4; [runs_auto|]. apply negb_false_iff, Nat.eqb_eq in E4. runs_auto; plain_auto.
Qed.
Lemma runs_execExists args : runs (execExists args) plain.
Proof. unfold execExists. runs_auto; plain_auto. Qed.
Lemma runs_execType args : (1 <= length args)%nat → runs (execType args) plain.
Proof. intros. unfold execType, getType. runs_auto; plain_auto. Qed.
Lemma runs_ttl_with f args : (1 <= length args)%nat → (∀ n, runs (f n) (λ _, True)) → runs (ttl_with f args) plain.
Proof. intros. unfold ttl_with. runs_auto; plain_auto. Qed.
Lemma runs_execGetVersion args : (1 <= length args)%nat → runs (execGetVersion args) plain.
Proof. intros. unfold execGetVersion. runs_auto; plain_auto. Qed.
Lemma runs_execPersist args : (1 <= length args)%nat → runs (execPersist args) plain.
Proof. intros. unfold execPersist. runs_auto; plain_auto. Qed.

Lemma fine_expire_option l : fine_opt (parseExpireOption l).
Proof.
  unfold parseExpireOption. assert (HF : ∀ o, fine_opt (expire_flags l o)).
  { induction l as [|a l IH]; intros o; [done|]. cbn [expire_flags]. repeat case_match; auto. apply plain_err. }
  specialize (HF 0). unfold fine_opt in *. repeat case_match; simplify_eq/=; auto with plain.
Qed.
Lemma runs_expire_with at_ args : (2 <= length args)%nat → (∀ n, runs (at_ n) (λ _, True)) → runs (expire_with at_ args) plain.
Proof.
  intros. unfold expire_with, not_integer. pose proof fine_expire_option as HP. runs_auto; plain_auto.
  match goal with E : parseExpireOption ?l = _ |- _ => pose proof (HP l) as Hl; by rewrite E in Hl end.
Qed.

Lemma runs_move_ttl src dest raw : runs (move_ttl src dest raw) (λ _, True).
Proof. unfold move_ttl. runs_auto. Qed.
End handlers.
