(* ===== verification/TxAtomic.v ===== *)
(** * All or nothing

    The undo log of a command brings back what a client saw of its keys, and the
    undo logs of a transaction, run backwards, bring back everything. *)

From stdpp Require Import base gmap list strings.
From Stdlib Require Import ZArith Lia Ascii.
From S2P Require Import Prelude GoText Strconv Resp ObjString Runtime GoTime TimeWheel KeySpace Bitmap StringCmd KeyCmd Tx KeySpaceThm TxThm TxRuns.

Local Open Scope Z_scope.

(** A key that the undo logs of a transaction on the keys [K] can restore: its
    slice is in memory, and the deadline of a key of [K] is settled. *)
Definition restorable {O} (t : Z) (K : list bytes) (db : DB O) (k : bytes) : Prop :=
  ∀ e, alive t db k = Some e →
    ent_ok (memory db) e ∧ (k ∈ K → ∀ d, ttlMap db !! k = Some d → settled t d).

(** A client sees the same of [k], now and later. *)
Definition same {O} (t : Z) (db x : DB O) (k : bytes) : Prop :=
  view t x k = view t db k ∧ ∀ e, alive t x k = Some e → ent_ok (memory x) e.

Lemma kept_same {O} t k (db x x' : DB O) : kept_at t k x x' → extends x x' → same t db x k → same t db x' k.
Proof.
  intros Hk He [Hv Hok]. split; [rewrite <- Hv; by apply kept_view|]. rewrite (kept_alive t k x x' Hk). intros e Ha.
  eapply ent_ok_prefix; [exact He|]. by apply Hok.
Qed.

Lemma kept_restorable {O} t K k (db x : DB O) : kept_at t k db x → extends db x → restorable t K db k → restorable t K x k.
Proof.
  intros Hk He Hr e. rewrite (kept_alive t k db x Hk). intros Ha. destruct (Hr e Ha) as [H1 H2]. split; [by eapply ent_ok_prefix|].
  intros HK d. destruct Hk as [[_ ->]|(_ & -> & _)]; [by apply H2|done].
Qed.

Lemma restorable_same {O} t K k (db : DB O) : restorable t K db k → same t db db k.
Proof. intros Hr. split; [done|]. intros e Ha. by apply Hr. Qed.

Section restore.
Context {O : Type} `{!Objects O} {env : Env} {rt : Runtime} {srv : Server O} (t : Z) (Hclk : ∀ n, clock n = t).
Context (Hlow : ascii_lowers) (Htab : ∀ n cmd, base_table n = Some cmd → cmdTable n = Some cmd).
Implicit Types db x : DB O.

(** ** The log of one key *)

(** The slice that a SET line takes. *)
Definition ent_arg (e : entity O) : arg :=
  match e with EInt v => ALit (formatInt64 v) | EStr _ b | EBytes b => b | EObj _ => ANil end.

Lemma EntityToCmd_string k e : not_obj e → EntityToCmd k e = Some (stringToCmd k (ent_arg e)).
Proof. by destruct e. Qed.
Lemma ent_arg_content m e : not_obj e → ent_content m e = CStr (arg_opt m (ent_arg e)).
Proof. by destruct e. Qed.
Lemma ent_arg_ok m e : not_obj e → ent_ok m e → arg_ok m (ent_arg e).
Proof. by destruct e. Qed.

(** The lines that [rollbackGivenKeys] writes for a key. *)
Definition log_of db (k : bytes) : list (list arg) :=
  match alive t db k with
  | None => [ToCmdLine [str "DEL"; k]]
  | Some e => [ToCmdLine [str "DEL"; k]; stringToCmd k (ent_arg e); toTTLCmd (ttlMap db !! k) k]
  end.

Lemma kept_log k db x : kept_at t k db x → log_of x k = log_of db k.
Proof.
  intros Hk. unfold log_of. rewrite (kept_alive t k db x Hk). destruct (alive t db k) eqn:Ea; [|done].
  destruct Hk as [[_ ->]|(_ & _ & d & Hd & Hlt)]; [done|]. unfold alive in Ea. by rewrite Hd, (proj2 (Z.ltb_lt _ _) Hlt) in Ea.
Qed.

Lemma rollback_spec K keys db : keys ⊆ K → inv K db →
  ∃ db', rollbackGivenKeys keys db = Ret (concat (log_of db <$> keys), db') ∧ frame t [] db db' ∧ inv K db'.
Proof.
  revert db. induction keys as [|k keys IH]; intros db HK I; [by exists db|].
  cbn [rollbackGivenKeys fmap list_fmap concat].
  destruct (GetEntity_spec t Hclk k db) as (db1 & E1 & _ & H1). rewrite (run_step _ _ _ _ _ E1).
  assert (F1 : frame t [] db db1) by (by eapply keeps_GetEntity).
  assert (I1 : inv K db1).
  { destruct (runs_GetEntity K k db I) as (? & ? & E' & I' & _). rewrite E1 in E'. by injection E' as _ <-. }
  assert (HK' : keys ⊆ K) by set_solver.
  destruct (IH db1 HK' I1) as (db' & E' & F' & I'). exists db'.
  assert (Hlog : log_of db1 <$> keys = log_of db <$> keys).
  { apply list_fmap_ext. intros i k' _. apply kept_log. destruct F1 as [Hk _ _ _]. apply Hk. apply not_elem_of_nil. }
  rewrite Hlog in E'. split; [|split; [by etransitivity|done]]. unfold log_of at 1.
  destruct (alive t db k) as [e|] eqn:Ea.
  - destruct H1 as [Q Hd]. rewrite EntityToCmd_string by (eapply I; [|done]; set_solver). cbn [must]. autorewrite with run.
    rewrite (run_step _ _ _ _ _ E'), run_mret. destruct Q as (_ & -> & _). done.
  - rewrite run_ret, (run_step _ _ _ _ _ E'), run_mret. done.
Qed.

(** ** Running the log of one key *)

Lemma exec_toTTLCmd raw k x : wf (wheel x) → ∃ r x', execWithLock (toTTLCmd raw k) x = Ret (r, x') ∧ frame t [k] x x'.
Proof.
  intros W. assert (I : inv [] x) by (split; [done|by intros ? ? ?%elem_of_nil]). destruct raw as [d|]; unfold toTTLCmd, ToCmdLine; cbn [fmap list_fmap].
  - erewrite (execWithLock_lit Hlow Htab "PEXPIREAT" "pexpireat" execPExpireAt) by reflexivity.
    edestruct (runs_expire_with (O := O) [] (λ n, mret (Unix_nsec (wrap64 (n * Millisecond))))) as (r & x' & E & _); [| |exact I|]; cycle 2.
    + exists r, x'. split; [exact E|]. eapply (framed_expire_with t Hclk) in E; [exact E|]. intros. keeps_auto.
    + cbn. lia.
    + intros n. runs_auto.
  - erewrite (execWithLock_lit Hlow Htab "PERSIST" "persist" execPersist) by reflexivity.
    edestruct (runs_execPersist (O := O) []) as (r & x' & E & _); [|exact I|]; cycle 1.
    + exists r, x'. split; [exact E|]. by eapply (framed_execPersist t Hclk) in E.
    + cbn. lia.
Qed.

(** The last line of a log, after the value is back. *)
Lemma exec_TTL_same k db x e e2 r x' :
  wf (wheel x) → alive t db k = Some e → (∀ d, ttlMap db !! k = Some d → settled t d) →
  data x !! k = Some e2 → ttlMap x !! k = None → ent_content (memory x) e2 = ent_content (memory db) e → ent_ok (memory x) e2 →
  execWithLock (toTTLCmd (ttlMap db !! k) k) x = Ret (r, x') → same t db x' k.
Proof.
  intros W Ha Hset Hd Ht Hc Hok E. unfold toTTLCmd in E. destruct (ttlMap db !! k) as [d|] eqn:Etd.
  - destruct (Hset d eq_refl) as [Hr Hs]. unfold time_UnixNano in E. unfold Millisecond in Hs.
    assert (Hal : t <= d). { unfold alive in Ha. rewrite Etd in Ha. destruct (Z.ltb_spec d t); [done|lia]. }
    specialize (Hs Hal). assert (Hi : i64 d) by (unfold i64, min_i64, max_i64; lia). rewrite (wrap64_id d Hi) in E.
    rewrite Z.quot_quot, Z.quot_div_nonneg in E by lia. change (1000 * 1000) with 1000000 in E.
    assert (Hn : 0 <= d / 1000000 * 1000000 <= d) by (pose proof (Z.div_pos d 1000000); pose proof (Z.mul_div_le d 1000000); lia).
    destruct (exec_PEXPIREAT t Hclk Hlow Htab k (d / 1000000) x e2 W) as (r' & x2 & E' & D' & T' & M' & F'); [|done|done|].
    { unfold i64, min_i64, max_i64 in *. lia. }
    rewrite E in E'. injection E' as -> <-. unfold Millisecond in T'. rewrite wrap64_id in T' by (unfold i64, min_i64, max_i64 in *; lia).
    assert (Ha' : alive t x' k = Some e2).
    { unfold alive. rewrite T', lookup_insert_eq, D', Hd. destruct (Z.ltb_spec (d / 1000000 * 1000000) t); [lia|done]. }
    split.
    + unfold view. rewrite Ha, Ha', Etd, T', lookup_insert_eq, M'. cbn. rewrite Hc. unfold Millisecond. by rewrite Z.div_mul.
    + intros e' He'. rewrite Ha' in He'. injection He' as <-. by rewrite M'.
  - destruct (exec_PERSIST t Hclk Hlow Htab k x e2 W Hd Ht) as (r' & x2 & E' & D' & T' & _ & M' & _). rewrite E in E'.
    injection E' as -> <-. assert (Ha' : alive t x' k = Some e2) by (unfold alive; by rewrite T', Ht, D', Hd). split.
    + unfold view. rewrite Ha, Ha', Etd, T', Ht, M'. cbn. by rewrite Hc.
    + intros e' He'. rewrite Ha' in He'. injection He' as <-. by rewrite M'.
Qed.

Lemma exec_log k db x : wf (wheel x) → extends db x → (∀ e, data db !! k = Some e → not_obj e) →
  ∃ x', exec_lines (log_of db k) x = Ret (tt, x') ∧ frame t [k] x x' ∧ ∀ K, k ∈ K → restorable t K db k → same t db x' k.
Proof.
  intros W X Hno. unfold log_of. destruct (exec_DEL t Hlow Htab k x W) as (r1 & x1 & E1 & D1 & F1).
  assert (W1 : wf (wheel x1)) by (by apply F1). destruct (alive t db k) as [e|] eqn:Ea.
  - assert (He : not_obj e) by (apply Hno; unfold alive in Ea; by repeat case_match).
    destruct (exec_SET t Hclk Hlow Htab k (ent_arg e) x1 W1) as (r2 & x2 & e2 & E2 & D2 & T2 & C2 & K2 & F2).
    assert (W2 : wf (wheel x2)) by (by apply F2).
    destruct (exec_toTTLCmd (ttlMap db !! k) k x2 W2) as (r3 & x3 & E3 & F3). exists x3.
    rewrite (exec_lines_cons _ _ _ _ _ E1), (exec_lines_cons _ _ _ _ _ E2), (exec_lines_cons _ _ _ _ _ E3), exec_lines_nil.
    split; [done|]. split; [by do 2 (etransitivity; [eassumption|])|].
    intros K HK Hr. destruct (Hr e Ea) as [Hok Hk]. pose proof (Hk HK) as Hset. clear Hr Hk.
    assert (X1 : extends db x1) by (unfold extends in *; etransitivity; [exact X|apply F1]).
    assert (Hc2 : ent_content (memory x2) e2 = ent_content (memory db) e).
    { rewrite C2, <- (ent_arg_content _ e He). by apply ent_content_prefix. }
    assert (Hk2 : ent_ok (memory x2) e2) by (apply K2, ent_arg_ok; [done|]; by eapply ent_ok_prefix).
    by eapply exec_TTL_same.
  - exists x1. rewrite (exec_lines_cons _ _ _ _ _ E1), exec_lines_nil. split; [done|]. split; [done|]. intros K _ _.
    assert (Ha1 : alive t x1 k = None) by (unfold alive; rewrite D1; by repeat case_match).
    split; [unfold view; by rewrite Ea, Ha1|]. rewrite Ha1. done.
Qed.

(** ** The log of a command *)

Lemma exec_logs K keys db x : keys ⊆ K → inv K db → wf (wheel x) → extends db x →
  ∃ x', exec_lines (concat (log_of db <$> keys)) x = Ret (tt, x') ∧ frame t keys x x' ∧
    ∀ k, k ∈ keys → restorable t K db k → same t db x' k.
Proof.
  intros HK I. revert x. induction keys as [|k keys IH]; intros x W X.
  { exists x. split; [done|]. split; [done|]. by intros k ?%elem_of_nil. }
  cbn [fmap list_fmap concat]. rewrite exec_lines_app.
  destruct (exec_log k db x W X) as (x1 & E1 & F1 & S1). { intros e. apply I. set_solver. }
  rewrite (run_step _ _ _ _ _ E1). assert (X1 : extends db x1) by (unfold extends in *; etransitivity; [exact X|apply F1]).
  destruct (IH ltac:(set_solver) x1) as (x' & E' & F' & S'); [by apply F1|done|]. exists x'. split; [done|].
  split; [etransitivity; (eapply frame_mono; [|eassumption]); set_solver|].
  intros k' Hk' Hr. destruct (decide (k' ∈ keys)) as [Hin|Hout]; [by apply S'|]. assert (k' = k) as -> by set_solver.
  eapply kept_same; [by apply F'|apply F'|]. apply (S1 K); [set_solver|done].
Qed.

(** ** Undo logs that undo *)

(** From any later state in which a client sees what it saw in [db'], the logs
    [us] lead back to what it saw in [db]. *)
Definition undoes (K : list bytes) db db' (us : list (list (list arg))) : Prop :=
  extends db db' ∧ ∀ x, wf (wheel x) → extends db' x → (∀ k, restorable t K db' k → same t db' x k) →
    ∃ x', run_undo us x = Ret (tt, x') ∧ wf (wheel x') ∧ extends x x' ∧ ∀ k, restorable t K db k → same t db x' k.

Lemma run_undo_app us vs x : run_undo (us ++ vs) x = (run_undo us ≫= λ _, run_undo vs) x.
Proof. apply run_forM_app. Qed.
Lemma run_undo_one u x : run_undo [u] x = exec_lines u x.
Proof. unfold run_undo. rewrite run_forM_cons. unfold exec_lines, mbind, M_bind. by destruct (forM_ u _ x) as [[[] ?]| |]. Qed.

Lemma undoes_nil K db db' : frame t [] db db' → undoes K db db' [].
Proof.
  intros F. split; [apply F|]. intros x W X HS. exists x. split; [done|]. split; [done|]. split; [by unfold extends|].
  intros k Hr. assert (Hk : kept_at t k db db') by (apply F, not_elem_of_nil). assert (He : extends db db') by apply F.
  destruct (HS k (kept_restorable t K k db db' Hk He Hr)) as [Hv Hok]. split; [|done]. rewrite Hv. apply kept_view; [done..|].
  intros e Ha. by apply Hr.
Qed.

Lemma undoes_app K db db1 db2 us1 us2 : undoes K db db1 us1 → undoes K db1 db2 us2 → undoes K db db2 (us2 ++ us1).
Proof.
  intros [X1 H1] [X2 H2]. unfold extends in *. split; [unfold extends; by etransitivity|]. intros x W X HS.
  destruct (H2 x W X HS) as (x1 & E1 & W1 & Y1 & S1). destruct (H1 x1 W1) as (x2 & E2 & W2 & Y2 & S2); [|done|].
  - unfold extends in *. by do 2 (etransitivity; [eassumption|]).
  - exists x2. rewrite run_undo_app, (run_step _ _ _ _ _ E1). split_and!; try done. unfold extends in *. by etransitivity.
Qed.

Lemma undoes_command K keys db db' : keys ⊆ K → inv K db → frame t keys db db' → undoes K db db' [concat (log_of db <$> keys)].
Proof.
  intros HK I F. assert (X : extends db db') by apply F. split; [done|]. intros x W Y HS. rewrite run_undo_one.
  destruct (exec_logs K keys db x HK I W) as (x' & E & F' & S'); [unfold extends in *; by etransitivity|].
  exists x'. split; [done|]. split; [by apply F'|]. split; [apply F'|]. intros k Hr.
  destruct (decide (k ∈ keys)) as [Hin|Hout]; [by apply S'|]. eapply kept_same; [by apply F'|apply F'|].
  assert (Hk : kept_at t k db db') by (by apply F). destruct (HS k (kept_restorable t K k db db' Hk X Hr)) as [Hv Hok].
  split; [|done]. rewrite Hv. apply kept_view; [done..|]. intros e Ha. by apply Hr.
Qed.
End restore.
