(* ===== verification/TxMulti.v ===== *)
(** * EXEC: all or nothing

    The commands whose undo logs are complete, a contract [tame] that each of
    them fulfils, and the transactions made of them. *)

From stdpp Require Import base gmap list strings.
From Stdlib Require Import ZArith Lia Ascii.
From S2P Require Import Prelude GoText Strconv Resp ObjString Runtime GoTime TimeWheel KeySpace Bitmap StringCmd KeyCmd Tx KeySpaceThm TxThm TxRuns TxAtomic.

Local Open Scope Z_scope.

Definition fits {O} (cmd : command O) (args : list arg) : Prop := validateArity (arity cmd) (ANil :: args) = true.

Lemma fits_line {O} (cmd : command O) a args : validateArity (arity cmd) (a :: args) = true ↔ fits cmd args.
Proof. done. Qed.

Section tame.
Context {O : Type} `{!Objects O} {env : Env} {rt : Runtime} (t : Z) (Hclk : ∀ n, clock n = t).

(** ** The contract of a command in a transaction

    Its undo log covers [keys], which it announces before it is executed; it
    changes nothing else, and nothing at all when it replies with an error. *)
Record tame (cmd : command O) (keys : list arg → DB O → list bytes) : Prop := {
  tame_prepare : ∃ p, prepare cmd = Some p ∧ ∀ args db, fits cmd args → ∃ w r, p args db = Ret ((w, r), db) ∧ keys args db ⊆ w ++ r;
  tame_undo : match undo cmd with
              | None => ∀ args db, keys args db = []
              | Some u => ∀ args db, fits cmd args → u args db = rollbackGivenKeys (keys args db) db
              end;
  tame_frame : ∀ args, framed t (keys args) (executor cmd args);
  tame_quiet : ∀ args, quiet t (executor cmd args);
  tame_runs : ∀ K args db, fits cmd args → keys args db ⊆ K → inv K db →
    ∃ r db', executor cmd args db = Ret (r, db') ∧ inv K db' ∧ plain r;
  tame_stable : ∀ args db db', extends db db' → Forall (arg_ok (memory db)) args → keys args db' = keys args db
}.

Lemma arg_str_stable (db db' : DB O) a : extends db db' → arg_ok (memory db) a → arg_str (memory db') a = arg_str (memory db) a.
Proof. intros X Ha. unfold arg_str. by rewrite (arg_opt_prefix (memory db)). Qed.
Lemma strs_stable (db db' : DB O) l : extends db db' → Forall (arg_ok (memory db)) l →
  arg_str (memory db') <$> l = arg_str (memory db) <$> l.
Proof. intros X Hl. apply Forall_fmap_ext_1. eapply Forall_impl; [exact Hl|]. intros a. by apply arg_str_stable. Qed.

Lemma tame_first cmd :
  prepare cmd = Some writeFirstKey → undo cmd = Some rollbackFirstKey → (∀ args, fits cmd args → (1 <= length args)%nat) →
  (∀ args, framed t (first_key args) (executor cmd args)) → (∀ args, quiet t (executor cmd args)) →
  (∀ K args, fits cmd args → runs K (executor cmd args) plain) → tame cmd first_key.
Proof.
  intros Hp Hu Hlen Hf Hq Hr. split; try done.
  - eexists. split; [exact Hp|]. intros args db Hfit. destruct args as [|a args]; [apply Hlen in Hfit; cbn in Hfit; lia|].
    exists [arg_str (memory db) a], []. split; [unfold writeFirstKey; by erewrite str_at_run|]. done.
  - rewrite Hu. intros args db Hfit. destruct args as [|a args]; [apply Hlen in Hfit; cbn in Hfit; lia|].
    unfold rollbackFirstKey. by erewrite str_at_run.
  - intros K args db Hfit _ I. by apply Hr.
  - intros args db db' X Ha. apply strs_stable; [done|]. by apply Forall_take.
Qed.

Lemma tame_read cmd p :
  prepare cmd = Some p → undo cmd = None → (∀ args db, fits cmd args → ∃ w r, p args db = Ret ((w, r), db)) →
  (∀ args, keeps (frame t []) (executor cmd args)) → (∀ K args, fits cmd args → runs K (executor cmd args) plain) →
  tame cmd (λ _ _, []).
Proof.
  intros Hp Hu Hpure Hk Hr. split.
  - exists p. split; [done|]. intros args db Hfit. destruct (Hpure args db Hfit) as (w & r & E). exists w, r. split; [done|]. set_solver.
  - by rewrite Hu.
  - intros args db a db' E. by eapply Hk.
  - intros args. by apply quiet_reads.
  - intros K args db Hfit _ I. by apply Hr.
  - done.
Qed.

Lemma Forall_pairs (P : arg → Prop) args : Forall P args → Forall P (pairs_of args).*1.
Proof.
  revert args. fix IH 1. intros [|k [|v l]] H; [constructor..|]. cbn. inversion_clear H as [|? ? Hk H']. inversion_clear H' as [|? ? _ H].
  constructor; [done|]. by apply IH.
Qed.

Lemma tame_pairs cmd :
  prepare cmd = Some prepareMSet → undo cmd = Some undoMSet →
  (∀ args, framed (O := O) t (pair_keys args) (executor cmd args)) → (∀ args, quiet t (executor cmd args)) →
  (∀ K args, fits cmd args → runs K (executor cmd args) plain) → tame cmd pair_keys.
Proof.
  intros Hp Hu Hf Hq Hr. assert (HP : ∀ args (db : DB O), prepareMSet args db = Ret ((pair_keys args db, []), db)).
  { intros args db. unfold prepareMSet. by rewrite (run_step _ _ _ _ _ (forM_string_of _ _)). }
  split; try done.
  - eexists. split; [exact Hp|]. intros args db _. eexists _, _. split; [apply HP|]. set_solver.
  - rewrite Hu. intros args db _. unfold undoMSet. by rewrite (run_step _ _ _ _ _ (HP _ _)).
  - intros K args db Hfit _ I. by apply Hr.
  - intros args db db' X Ha. apply strs_stable; [done|]. by apply Forall_pairs.
Qed.

Lemma tame_all cmd :
  prepare cmd = Some writeAllKeys → undo cmd = Some undoDel →
  (∀ args, framed (O := O) t (all_keys args) (executor cmd args)) → (∀ args, quiet t (executor cmd args)) →
  (∀ K args, fits cmd args → runs K (executor cmd args) plain) → tame cmd all_keys.
Proof.
  intros Hp Hu Hf Hq Hr. split; try done.
  - eexists. split; [exact Hp|]. intros args db _. eexists _, _.
    split; [unfold writeAllKeys; by rewrite (run_step _ _ _ _ _ (forM_string_of _ _))|]. set_solver.
  - rewrite Hu. intros args db _. unfold undoDel. by rewrite (run_step _ _ _ _ _ (forM_string_of _ _)).
  - intros K args db Hfit _ I. by apply Hr.
  - intros args db db' X Ha. by apply strs_stable.
Qed.

(** RENAME announces its target as written and its source as read. *)
Definition two_keys (args : list arg) (db : DB O) : list bytes := arg_str (memory db) <$> take 2 args.

Lemma tame_two cmd (f : arg → arg → bytes → bytes → M O reply) :
  prepare cmd = Some prepareRename → undo cmd = Some undoRename → (∀ args, fits cmd args → ∃ a b, args = [a; b]) →
  (∀ args, framed t (two_keys args) (executor cmd args)) → (∀ args, quiet t (executor cmd args)) →
  (∀ a b db, executor cmd [a; b] db = f a b (arg_str (memory db) a) (arg_str (memory db) b) db) →
  (∀ K a b src dest, src ∈ K → runs K (f a b src dest) plain) → tame cmd two_keys.
Proof.
  intros Hp Hu Hlen Hf Hq Heq Hr. split; try done.
  - eexists. split; [exact Hp|]. intros args db (a & b & ->)%Hlen. eexists _, _.
    split; [unfold prepareRename; by do 2 (erewrite str_at_run; [|done])|]. unfold two_keys. cbn. set_solver.
  - rewrite Hu. intros args db (a & b & ->)%Hlen. unfold undoRename. by do 2 (erewrite str_at_run; [|done]).
  - intros K args db (a & b & ->)%Hlen HK I. rewrite Heq. apply Hr; [|done]. unfold two_keys in HK. cbn in HK. set_solver.
  - intros args db db' X Ha. apply strs_stable; [done|]. by apply Forall_take.
Qed.

(** ** The commands that fulfil it *)

Definition undoable : list string :=
  ["get"; "set"; "setnx"; "setex"; "psetex"; "mset"; "mget"; "msetnx"; "getset"; "getdel"; "incr"; "incrby"; "incrbyfloat"; "decr";
   "decrby"; "strlen"; "getrange"; "del"; "delex"; "exists"; "type"; "rename"; "renamenx"; "ttl"; "pttl"; "expiretime";
   "pexpiretime"; "getver"]%string.
Definition is_undoable (n : bytes) : bool := existsb (λ u, bytes_eqb n (str u)) undoable.

Lemma fits_length (cmd : command O) args :
  fits cmd args → if 0 <=? arity cmd then Z.of_nat (length args) = arity cmd - 1 else - arity cmd - 1 <= Z.of_nat (length args).
Proof. unfold fits, validateArity. cbn [length]. destruct (0 <=? arity cmd); [intros ?%Z.eqb_eq|intros ?%Z.leb_le]; lia. Qed.

Lemma readFirstKey_pure (cmd : command O) : (∀ args, fits cmd args → (1 <= length args)%nat) →
  ∀ args (db : DB O), fits cmd args → ∃ w r, readFirstKey args db = Ret ((w, r), db).
Proof.
  intros Hlen args db Hfit%Hlen. destruct args as [|a args]; [cbn in Hfit; lia|]. eexists _, _. unfold readFirstKey. by erewrite str_at_run.
Qed.
Lemma readAllKeys_pure (cmd : command O) args (db : DB O) : fits cmd args → ∃ w r, readAllKeys args db = Ret ((w, r), db).
Proof. intros _. eexists _, _. unfold readAllKeys. by rewrite (run_step _ _ _ _ _ (forM_string_of _ _)). Qed.

Lemma reads_execGetVersion args : keeps (frame t []) (execGetVersion (O := O) args).
Proof. unfold execGetVersion. keeps_auto. Qed.

(** One entry of the table, with the lemmas on its executor. *)
Local Ltac by_arity := let H := fresh in intros ? H; apply fits_length in H; cbn in H; lia.
Local Tactic Notation "run_arity" uconstr(R) := let H := fresh in intros ?? H; apply fits_length in H; cbn in H; apply R; try lia; intros; runs_auto.
Local Ltac entry Hc tac := apply elem_of_cons in Hc as [->|Hc]; [intros _; tac|].
Local Tactic Notation "on_one" uconstr(F) uconstr(Q) uconstr(R) := exists first_key; apply tame_first; [reflexivity|reflexivity|by_arity|intros; by apply F|intros; by apply Q|run_arity R].
Local Tactic Notation "on_pairs" uconstr(F) uconstr(Q) uconstr(R) := exists pair_keys; apply tame_pairs; [reflexivity|reflexivity|intros; by apply F|intros; by apply Q|run_arity R].
Local Tactic Notation "on_all" uconstr(F) uconstr(Q) uconstr(R) := exists all_keys; apply tame_all; [reflexivity|reflexivity|intros; by apply F|intros; by apply Q|run_arity R].
Local Tactic Notation "reads_one" uconstr(F) uconstr(R) := exists (λ _ _, []); eapply tame_read;
  [reflexivity|reflexivity|apply readFirstKey_pure; by_arity|intros; apply F; try done; intros; keeps_auto|run_arity R].
Local Tactic Notation "reads_all" uconstr(F) uconstr(R) := exists (λ _ _, []); eapply tame_read; [reflexivity|reflexivity|apply readAllKeys_pure|intros; by apply F|run_arity R].
Local Ltac skip Hc := apply elem_of_cons in Hc as [->|Hc]; [intros Hu; vm_compute in Hu; discriminate|].

Lemma fits_two (cmd : command O) args : arity cmd = 3 → fits cmd args → ∃ a b, args = [a; b].
Proof. intros Ha H%fits_length. rewrite Ha in H. cbn in H. destruct args as [|a [|b [|c l]]]; cbn in H; try lia. by exists a, b. Qed.

Lemma tame_execRename n fl s k : tame (registerCommand n execRename prepareRename (Some undoRename) 3 fl s k).2 two_keys.
Proof.
  apply (tame_two _ (λ a b src dest, e ← GetEntity src;
    match e with
    | None => mret no_such_key
    | Some entity => rawTTL ← gets (λ db, ttlMap db !! src); PutEntity dest entity;; Remove src;; move_ttl src dest rawTTL;;
                     addAof (ToCmdLine3 "rename" [a; b]);; mret ROk
    end)); [reflexivity|reflexivity|intros args Hf; apply (λ H, fits_two _ args H Hf); reflexivity|intros; by apply framed_execRename|intros; by apply quiet_execRename| |].
  - intros a b db. cbn [executor registerCommand snd]. unfold execRename. cbn [length Nat.eqb negb].
    by do 2 (erewrite str_at_run; [|done]).
  - intros K a b src dest Hs. unfold no_such_key. pose proof (runs_move_ttl (O := O) K). runs_auto.
Qed.

Lemma tame_execRenameNx n fl s k : tame (registerCommand n execRenameNx prepareRename (Some undoRename) 3 fl s k).2 two_keys.
Proof.
  apply (tame_two _ (λ a b src dest, d ← GetEntity dest;
    match d with
    | Some _ => mret (RInt 0)
    | None => e ← GetEntity src;
        match e with
        | None => mret no_such_key
        | Some entity => rawTTL ← gets (λ db, ttlMap db !! src); Removes [src; dest];; PutEntity dest entity;; move_ttl src dest rawTTL;;
                         addAof (ToCmdLine3 "renamenx" [a; b]);; mret (RInt 1)
        end
    end)); [reflexivity|reflexivity|intros args Hf; apply (λ H, fits_two _ args H Hf); reflexivity|intros; by apply framed_execRenameNx|intros; by apply quiet_execRenameNx| |].
  - intros a b db. cbn [executor registerCommand snd]. unfold execRenameNx. by do 2 (erewrite str_at_run; [|done]).
  - intros K a b src dest Hs. unfold no_such_key. pose proof (runs_move_ttl (O := O) K). runs_auto.
Qed.

Lemma tame_table_string c : c ∈ string_commands → is_undoable c.1 = true → ∃ keys, tame c.2 keys.
Proof.
  intros Hc. unfold string_commands in Hc.
  entry Hc ltac:(on_one framed_execSet quiet_execSet runs_execSet).
  entry Hc ltac:(on_one framed_execSetNX quiet_execSetNX runs_execSetNX).
  entry Hc ltac:(on_one framed_setex quiet_setex runs_setex).
  entry Hc ltac:(on_one framed_setex quiet_setex runs_setex).
  entry Hc ltac:(on_pairs framed_execMSet quiet_execMSet runs_execMSet).
  entry Hc ltac:(reads_all reads_execMGet runs_execMGet).
  entry Hc ltac:(on_pairs framed_execMSetNX quiet_execMSetNX runs_execMSetNX).
  skip Hc.
  entry Hc ltac:(reads_one reads_execGet runs_execGet).
  skip Hc.
  entry Hc ltac:(on_one framed_execGetSet quiet_execGetSet runs_execGetSet).
  entry Hc ltac:(on_one framed_execGetDel quiet_execGetDel runs_execGetDel).
  entry Hc ltac:(on_one framed_execIncr quiet_execIncr runs_execIncr).
  entry Hc ltac:(on_one framed_execIncrBy quiet_execIncrBy runs_execIncrBy).
  entry Hc ltac:(on_one framed_execIncrByFloat quiet_execIncrByFloat runs_execIncrByFloat).
  entry Hc ltac:(on_one framed_execDecr quiet_execDecr runs_execDecr).
  entry Hc ltac:(on_one framed_execDecrBy quiet_execDecrBy runs_execDecrBy).
  entry Hc ltac:(reads_one reads_execStrLen runs_execStrLen).
  skip Hc. skip Hc.
  entry Hc ltac:(reads_one reads_execGetRange runs_execGetRange).
  skip Hc. skip Hc. skip Hc. skip Hc. by apply elem_of_nil in Hc.
Qed.
Lemma tame_table_key c : c ∈ key_commands → is_undoable c.1 = true → ∃ keys, tame c.2 keys.
Proof.
  intros Hc. unfold key_commands in Hc.
  entry Hc ltac:(on_all framed_execDel quiet_execDel runs_execDel).
  entry Hc ltac:(on_one framed_execDelEX quiet_execDelEX runs_execDelEX).
  skip Hc. skip Hc.
  entry Hc ltac:(reads_one reads_ttl_with runs_ttl_with).
  skip Hc. skip Hc.
  entry Hc ltac:(reads_one reads_ttl_with runs_ttl_with).
  entry Hc ltac:(reads_one reads_ttl_with runs_ttl_with).
  entry Hc ltac:(reads_one reads_ttl_with runs_ttl_with).
  skip Hc.
  entry Hc ltac:(reads_all reads_execExists runs_execExists).
  entry Hc ltac:(reads_one reads_execType runs_execType).
  entry Hc ltac:(eexists; apply tame_execRename).
  entry Hc ltac:(eexists; apply tame_execRenameNx).
  entry Hc ltac:(reads_all reads_execGetVersion runs_execGetVersion).
  by apply elem_of_nil in Hc.
Qed.

(** Every undoable command of the table fulfils the contract. *)
Lemma tame_table n cmd : base_table n = Some cmd → is_undoable n = true → ∃ keys, tame cmd keys.
Proof.
  unfold base_table, table_lookup. destruct (List.find _ _) as [[n' c]|] eqn:E; [|done]. intros [= <-] Hu.
  apply List.find_some in E as [Hin Hn]. cbn in Hn. apply bytes_eqb_eq in Hn as ->. apply list_elem_of_In in Hin.
  apply elem_of_app in Hin as [Hin|Hin]; [by apply tame_table_string in Hin|by apply tame_table_key in Hin].
Qed.
End tame.

Section multi.
Context {O : Type} `{!Objects O} {env : Env} {rt : Runtime} {srv : Server O} (t : Z) (Hclk : ∀ n, clock n = t).
Context (Hlow : ascii_lowers) (Htab : ∀ n cmd, base_table n = Some cmd → cmdTable n = Some cmd).
Implicit Types db : DB O.

(** ** Queued lines *)

Definition line_name (m : mem) (line : list arg) : bytes := match line with [] => [] | a :: _ => ToLower (arg_str m a) end.

(** A line that a transaction can undo: an undoable command with the right
    number of arguments, all of them in memory. *)
Definition undoable_line (m : mem) (line : list arg) : Prop :=
  line ≠ [] ∧ is_undoable (line_name m line) = true ∧
  (∀ cmd : command O, base_table (line_name m line) = Some cmd → validateArity (arity cmd) line = true) ∧
  Forall (arg_ok m) line.

(** What the contract gives for a line. *)
Record tame_line db (line : list arg) (cmd : command O) keys : Prop := {
  tl_tame : tame t cmd keys;
  tl_name : ∀ x {A} (f : bytes → M O A), extends db x → (cmd_name line ≫= f) x = f (line_name (memory db) line) x;
  tl_line : ∀ x, extends db x → line_name (memory x) line = line_name (memory db) line;
  tl_cmd : cmdTable (line_name (memory db) line) = Some cmd;
  tl_fits : fits cmd (drop 1 line);
  tl_arity : validateArity (arity cmd) line = true;
  tl_keys : ∀ x, extends db x → keys (drop 1 line) x = keys (drop 1 line) db
}.

Lemma undoable_in_table n : is_undoable n = true → ∃ cmd : command O, base_table n = Some cmd.
Proof.
  unfold is_undoable. rewrite existsb_exists. intros (u & Hu & ->%bytes_eqb_eq). apply list_elem_of_In in Hu. unfold undoable in Hu.
  repeat (apply elem_of_cons in Hu as [->|Hu]; [eexists; reflexivity|]). by apply elem_of_nil in Hu.
Qed.

Lemma undoable_tame db line : undoable_line (memory db) line →
  ∃ cmd keys, tame_line db line cmd keys.
Proof using Hclk Htab.
  intros (Hne & Hu & Har & Hok). destruct (undoable_in_table _ Hu) as [cmd Hb]. destruct (tame_table t Hclk _ cmd Hb Hu) as [keys Ht].
  destruct line as [|a0 args]; [done|]. exists cmd, keys. split; try done.
  - intros x A f X. unfold cmd_name. rewrite run_assoc. erewrite str_at_run by done. rewrite run_ret. unfold line_name.
    rewrite (arg_str_stable db x); [done..|]. by inversion Hok.
  - intros x X. unfold line_name. rewrite (arg_str_stable db x); [done..|]. by inversion Hok.
  - by apply Htab.
  - by apply fits_line with (a := a0), Har.
  - by apply Har.
  - intros x X. cbn [drop]. apply (tame_stable _ _ _ Ht _ db x X). by inversion Hok.
Qed.

Lemma tame_line_stable db db' line cmd keys : extends db db' → tame_line db line cmd keys → tame_line db' line cmd keys.
Proof.
  unfold extends. intros X [Ht Hn Hl Hc Hf Ha Hk].
  assert (HX : ∀ x : DB O, extends db' x → extends db x) by (unfold extends; intros; by etransitivity).
  split; try done.
  - intros x A f Hx. rewrite Hn, (Hl db' X) by auto. done.
  - intros x Hx. rewrite (Hl db' X), (Hl x) by auto. done.
  - by rewrite (Hl db' X).
  - intros x Hx. rewrite (Hk db' X), (Hk x) by auto. done.
Qed.

(** ** The queue *)

Lemma is_error_hgetall r3 n r : is_error (hgetall_map r3 n r) = is_error r.
Proof. unfold hgetall_map, convertMultiBulkToMapReply. destruct (_ && _); [|done]. destruct r; try done. by destruct (negb _). Qed.

Lemma exec_queue_step K db line cmd keys r3 lines results undos :
  tame_line db line cmd keys → keys (drop 1 line) db ⊆ K → inv K db →
  ∃ r db', inv K db' ∧ undoes t K db db' (if is_error r then [] else [concat (log_of t db <$> keys (drop 1 line) db)]) ∧
    exec_queue r3 (line :: lines) results undos db =
      if is_error r then Ret ((None, undos), db')
      else exec_queue r3 lines (results ++ [hgetall_map r3 (line_name (memory db) line) r])
             (concat (log_of t db <$> keys (drop 1 line) db) :: undos) db'.
Proof.
  intros [Ht Hn _ Hc Hf Ha Hk] HK I. set (ks := keys (drop 1 line) db) in *.
  assert (HU : ∃ db1, GetUndoLogs line db = Ret (concat (log_of t db <$> ks), db1) ∧ frame t [] db db1 ∧ inv K db1).
  { unfold GetUndoLogs. rewrite Hn, Hc by (by unfold extends). pose proof (tame_undo _ _ _ Ht) as Hu. destruct (undo cmd) as [u|].
    - rewrite Hu by done. by apply (rollback_spec t Hclk).
    - unfold ks. rewrite Hu. by exists db. }
  destruct HU as (db1 & E1 & F1 & I1). assert (X1 : extends db db1) by apply F1.
  destruct (tame_runs _ _ _ Ht K (drop 1 line) db1 Hf) as (r & db2 & E2 & I2 & Hp); [by rewrite Hk|done|].
  assert (F2 : frame t ks db1 db2) by (rewrite <- (Hk db1 X1); exact (tame_frame _ _ _ Ht _ _ _ _ E2)).
  assert (F : frame t ks db db2) by (etransitivity; [eapply frame_mono; [|exact F1]; set_solver|exact F2]).
  assert (E : execWithLock line db1 = Ret (r, db2)).
  { unfold execWithLock. by rewrite Hn, Hc, Ha by done. }
  assert (X2 : extends db db2) by apply F. exists r, db2. split; [done|]. split.
  - destruct (is_error r) eqn:Er; [|by apply undoes_command].
    apply undoes_nil. etransitivity; [exact F1|]. by eapply (tame_quiet _ _ _ Ht).
  - cbn [exec_queue]. rewrite (run_step _ _ _ _ _ E1), (run_step _ _ _ _ _ E). unfold IsErrorReply. rewrite run_assoc, run_gets, run_lift, Hp.
    destruct (is_error r); [done|]. by rewrite Hn.
Qed.

Lemma exec_queue_spec K r3 lines results undos db :
  (∀ line, line ∈ lines → ∃ cmd keys, tame_line db line cmd keys ∧ keys (drop 1 line) db ⊆ K) → inv K db →
  ∃ res new db', exec_queue r3 lines results undos db = Ret ((res, new ++ undos), db') ∧ inv K db' ∧ undoes t K db db' new ∧
    match res with
    | Some rs => ∃ more, rs = results ++ more ∧ length more = length lines ∧ Forall (λ r, is_error r = false) more
    | None => True
    end.
Proof.
  revert results undos db. induction lines as [|line lines IH]; intros results undos db HL I.
  { exists (Some results), [], db. split; [done|]. split; [done|]. split; [by apply undoes_nil|]. exists []. by rewrite app_nil_r. }
  destruct (HL line) as (cmd & keys & HT & HK); [left|].
  destruct (exec_queue_step K db line cmd keys r3 lines results undos HT HK I) as (r & db1 & I1 & U1 & E). rewrite E. clear E.
  destruct (is_error r) eqn:Er; [by exists None, [], db1|]. set (log := concat _) in *.
  destruct (IH (results ++ [hgetall_map r3 (line_name (memory db) line) r]) (log :: undos) db1) as (res & new & db' & E' & I' & U' & HR).
  - intros l Hl. destruct (HL l) as (cmd' & keys' & HT' & HK'); [by right|]. exists cmd', keys'.
    split; [by eapply tame_line_stable; [apply U1|]|]. rewrite (tl_keys _ _ _ _ HT') by apply U1. done.
  - done.
  - exists res, (new ++ [log]), db'. rewrite E', <- app_assoc. split; [done|]. split; [done|].
    split; [by eapply undoes_app|]. destruct res as [rs|]; [|done]. destruct HR as (more & -> & Hl & HF).
    exists (hgetall_map r3 (line_name (memory db) line) r :: more). rewrite <- app_assoc. split; [done|]. cbn [length]. split; [by rewrite Hl|].
    constructor; [by rewrite is_error_hgetall|done].
Qed.

(** ** Versions *)

(** One for each time a key is named. *)
Definition count (k : bytes) (keys : list bytes) : Z := Z.of_nat (length (filter (k =.) keys)).

(** Versions are 32 bits wide. *)
Definition ver_ok db : Prop := ∀ k, u32 (GetVersion db k) = GetVersion db k.

Lemma addVersion_spec keys db : ∃ db', addVersion keys db = Ret (tt, db') ∧ data db' = data db ∧ ttlMap db' = ttlMap db ∧
  memory db' = memory db ∧ wheel db' = wheel db ∧ (∀ k, u32 (GetVersion db' k) = u32 (GetVersion db k + count k keys)) ∧
  (ver_ok db → ver_ok db').
Proof.
  unfold addVersion. revert db. induction keys as [|k keys IH]; intros db.
  { exists db. split_and!; try done. intros k. unfold count. cbn. by rewrite Z.add_0_r. }
  rewrite run_forM_cons, run_modify. set (db1 := set_version db _).
  assert (HG : ∀ k', GetVersion db1 k' = if decide (k' = k) then u32 (GetVersion db k + 1) else GetVersion db k').
  { intros k'. unfold db1, GetVersion at 1. cbn [versionMap set_version]. case_decide as Hk; [by rewrite Hk, lookup_insert_eq|by rewrite lookup_insert_ne]. }
  destruct (IH db1) as (db' & E & H1 & H2 & H3 & H4 & HV & HO). exists db'. split_and!; try done.
  - intros k'. rewrite HV, HG. unfold count. rewrite filter_cons. case_decide; [|done]. subst k'. cbn [length]. unfold u32.
    rewrite Zplus_mod_idemp_l. f_equal. lia.
  - intros Hok. apply HO. intros k'. rewrite HG. case_decide; [|apply Hok]. unfold u32. by rewrite Zmod_mod.
Qed.

(** ** EXEC *)

(** The keys that the queued commands announce. *)
Definition tx_keys (lines : list (list arg)) db : list bytes :=
  match collect_keys lines db with Ret ((w, r, _), _) => w ++ r | _ => [] end.

Lemma collect_keys_spec lines db :
  (∀ line, line ∈ lines → undoable_line (memory db) line) →
  ∃ w r oom, collect_keys lines db = Ret ((w, r, oom), db) ∧
    ∀ line, line ∈ lines → ∃ cmd keys, tame_line db line cmd keys ∧ keys (drop 1 line) db ⊆ w ++ r.
Proof using Hclk Htab.
  clear Hlow. induction lines as [|line lines IH]; intros HL. { exists [], [], false. split; [done|]. by intros line ?%elem_of_nil. }
  destruct (undoable_tame db line) as (cmd & keys & HT); [apply HL; left|].
  destruct IH as (w & r & oom & E & HS); [intros; apply HL; by right|].
  destruct (tame_prepare _ _ _ (tl_tame _ _ _ _ HT)) as (p & Hp & HP).
  destruct (HP (drop 1 line) db (tl_fits _ _ _ _ HT)) as (w1 & r1 & E1 & HK).
  exists (w1 ++ w), (r1 ++ r), (isDenyOOM cmd || oom). split.
  - cbn [collect_keys]. rewrite (tl_name _ _ _ _ HT) by (by unfold extends). rewrite (tl_cmd _ _ _ _ HT), Hp, (run_step _ _ _ _ _ E1).
    by rewrite (run_step _ _ _ _ _ E).
  - intros l [->|Hl]%elem_of_cons; [exists cmd, keys|destruct (HS l Hl) as (cmd' & keys' & HT' & HK'); exists cmd', keys'];
      (split; [done|set_solver]).
Qed.

(** Whether one of the queued commands may be refused for memory. *)
Definition tx_denies (lines : list (list arg)) db : bool :=
  match collect_keys lines db with Ret ((_, _, oom), _) => oom | _ => false end.

(** What the check of the memory says, and the state it leaves: eviction may have
    taken keys. *)
Definition makes_room (lines : list (list arg)) db (room : bool) db0 : Prop :=
  if tx_denies lines db && limited then freeMemoryIfNeeded db = Ret (room, db0) ∧ extends db db0 else room = true ∧ db0 = db.

(** What a transaction that is executed gives: the queue as a whole or nothing. *)
Definition all_or_nothing (lines : list (list arg)) db0 (r : reply) db' : Prop :=
  (r = exec_abort ∧ ∀ k, view t db' k = view t db0 k) ∨
  (∃ rs, r = RRaw rs ∧ length rs = length lines ∧ Forall (λ r, is_error r = false) rs).

Lemma exec_multi_checked_spec c lines db W R oom room db0 :
  collect_keys lines db = Ret ((W, R, oom), db) → (∀ line, line ∈ lines → ∃ cmd keys, tame_line db line cmd keys ∧ keys (drop 1 line) db ⊆ W ++ R) →
  makes_room lines db room db0 → inv (W ++ R) db0 → (∀ k, restorable t (W ++ R) db0 k) →
  ∃ r db', exec_multi_checked c lines W oom db = Ret (r, db') ∧ if room then all_or_nothing lines db0 r db' else r = oomErrReply ∧ db' = db0.
Proof.
  intros E HS HM I HR. unfold makes_room, tx_denies in HM. rewrite E in HM. unfold exec_multi_checked.
  assert (HF : ∀ (f : bool → M O reply), ((if oom && limited then freeMemoryIfNeeded else mret true) ≫= f) db = f room db0 ∧ extends db db0).
  { intros f. destruct (oom && limited); destruct HM as [H1 H2]; [by rewrite (run_step _ _ _ _ _ H1)|]. subst. rewrite run_ret. split; [done|]. by unfold extends. }
  rewrite (proj1 (HF _)). pose proof (proj2 (HF (λ _, mret ROk))) as X0. clear HF. destruct room; cbn [negb]; [|by eexists _, db0].
  destruct (exec_queue_spec (W ++ R) (from_option resp3 false c) lines [] [] db0) as (res & new & db1 & E1 & I1 & U1 & H1); [|done|].
  { intros line Hl. destruct (HS line Hl) as (cmd & keys & HT & HK). exists cmd, keys. split; [by eapply tame_line_stable|]. by rewrite (tl_keys _ _ _ _ HT). }
  rewrite (run_step _ _ _ _ _ E1). destruct res as [rs|].
  - destruct H1 as (more & -> & Hlen & HF). destruct (addVersion_spec W db1) as (db2 & E2 & _).
    exists (RRaw more), db2. rewrite (run_step _ _ _ _ _ E2). split; [done|]. right. by exists more.
  - rewrite app_nil_r. destruct (proj2 U1 db1) as (x' & E' & _ & _ & HS'); [apply I1|by unfold extends|by intros; eapply restorable_same|].
    exists exec_abort, x'. rewrite (run_step _ _ _ _ _ E'). split; [done|]. left. split; [done|]. intros k. by apply HS'.
Qed.

End multi.
