(* ===== verification/TxWatch.v ===== *)
(** * WATCH: optimistic locking

    Commands announce the keys they write; each announcement moves the version
    of the key.  A watched key that a command has announced makes EXEC do
    nothing, and a watched key that none has announced is as it was. *)

From stdpp Require Import base gmap list strings.
From Stdlib Require Import ZArith Lia Ascii.
From S2P Require Import Prelude GoText Strconv Resp ObjString Runtime GoTime TimeWheel KeySpace Bitmap StringCmd KeyCmd Tx KeySpaceThm TxThm TxRuns TxAtomic TxMulti.

Local Open Scope Z_scope.

Section declares.
Context {O : Type} `{!Objects O} {env : Env} {rt : Runtime} (t : Z) (Hclk : ∀ n, clock n = t).

(** ** The contract of a command among other clients

    It announces every key that it changes. *)
Record declares (cmd : command O) (keys : list arg → DB O → list bytes) : Prop := {
  dc_prepare : ∃ p, prepare cmd = Some p ∧ ∀ args db, fits cmd args → ∃ r, p args db = Ret ((keys args db, r), db);
  dc_frame : ∀ args, framed t (keys args) (executor cmd args);
  dc_runs : ∀ args, fits cmd args → runs [] (executor cmd args) plain;
  dc_stable : ∀ args db db', extends db db' → Forall (arg_ok (memory db)) args → keys args db' = keys args db;
  dc_mem : ∀ args db db', memory db' = memory db → keys args db' = keys args db
}.

Lemma declares_first cmd :
  prepare cmd = Some writeFirstKey → (∀ args, fits cmd args → (1 <= length args)%nat) →
  (∀ args, framed t (first_key args) (executor cmd args)) → (∀ K args, fits cmd args → runs K (executor cmd args) plain) →
  declares cmd first_key.
Proof.
  intros Hp Hlen Hf Hr. split; try done.
  - eexists. split; [exact Hp|]. intros args db Hfit. destruct args as [|a args]; [apply Hlen in Hfit; cbn in Hfit; lia|].
    exists []. unfold writeFirstKey. by erewrite str_at_run.
  - intros args. apply Hr.
  - intros args db db' X Ha. apply strs_stable; [done|]. by apply Forall_take.
  - intros args db db' E. unfold first_key. by rewrite E.
Qed.

Lemma declares_read cmd p :
  prepare cmd = Some p → (∀ args db, fits cmd args → ∃ r, p args db = Ret (([], r), db)) →
  (∀ args, keeps (frame t []) (executor cmd args)) → (∀ K args, fits cmd args → runs K (executor cmd args) plain) →
  declares cmd (λ _ _, []).
Proof.
  intros Hp Hpure Hk Hr. split; try done.
  - exists p. split; [done|]. apply Hpure.
  - intros args. apply Hr.
Qed.

Lemma declares_pairs cmd :
  prepare cmd = Some prepareMSet → (∀ args, framed (O := O) t (pair_keys args) (executor cmd args)) →
  (∀ K args, fits cmd args → runs K (executor cmd args) plain) → declares cmd pair_keys.
Proof.
  intros Hp Hf Hr. split; try done.
  - eexists. split; [exact Hp|]. intros args db _. exists []. unfold prepareMSet. by rewrite (run_step _ _ _ _ _ (forM_string_of _ _)).
  - intros args. apply Hr.
  - intros args db db' X Ha. apply strs_stable; [done|]. by apply Forall_pairs.
  - intros args db db' E. unfold pair_keys. by rewrite E.
Qed.

Lemma declares_all cmd :
  prepare cmd = Some writeAllKeys → (∀ args, framed (O := O) t (all_keys args) (executor cmd args)) →
  (∀ K args, fits cmd args → runs K (executor cmd args) plain) → declares cmd all_keys.
Proof.
  intros Hp Hf Hr. split; try done.
  - eexists. split; [exact Hp|]. intros args db _. exists []. unfold writeAllKeys. by rewrite (run_step _ _ _ _ _ (forM_string_of _ _)).
  - intros args. apply Hr.
  - intros args db db' X Ha. by apply strs_stable.
  - intros args db db' E. unfold all_keys. by rewrite E.
Qed.

(** ** The commands that fulfil it: not RENAME, which announces only its target *)

Definition declared : list string :=
  ["get"; "set"; "setnx"; "setex"; "psetex"; "mset"; "mget"; "msetnx"; "getex"; "getset"; "getdel"; "incr"; "incrby"; "incrbyfloat"; "decr";
   "decrby"; "strlen"; "getrange"; "del"; "delex"; "expire"; "expireat"; "pexpire"; "pexpireat"; "persist"; "exists"; "type"; "ttl"; "pttl";
   "expiretime"; "pexpiretime"; "getver"]%string.
Definition is_declared (n : bytes) : bool := existsb (λ u, bytes_eqb n (str u)) declared.

Lemma runs_getex_opts K k l ttl : runs (O := O) K (getex_opts k l ttl) fine_opt.
Proof.
  remember (length l) as n eqn:En. revert l ttl En. induction n as [n IH] using lt_wf_ind. intros l ttl ->.
  assert (HT : ∀ u, fine_opt (ttl_arg "getex" u ttl (head (tail l)))) by (intros; apply fine_ttl_arg).
  destruct l as [|a l]; cbn [getex_opts]; [by apply runs_ret|]. cbn [tail] in HT. pose proof (HT 1000) as HT1. pose proof (HT 1) as HT2.
  repeat first [ eapply IH; [|reflexivity]; cbn; lia | apply runs_ret; solve [done|auto with plain|apply plain_RSyntax]
               | runs_step ].
Qed.
Lemma runs_execGetEX K args : (1 <= length args)%nat → runs (O := O) K (execGetEX args) plain.
Proof. intros. unfold execGetEX. pose proof (runs_getex_opts K). runs_auto; plain_auto. Qed.

Lemma readFirstKey_reads (cmd : command O) : (∀ args, fits cmd args → (1 <= length args)%nat) →
  ∀ args (db : DB O), fits cmd args → ∃ r, readFirstKey args db = Ret (([], r), db).
Proof.
  intros Hlen args db Hfit%Hlen. destruct args as [|a args]; [cbn in Hfit; lia|]. eexists. unfold readFirstKey. by erewrite str_at_run.
Qed.
Lemma readAllKeys_reads (cmd : command O) args (db : DB O) : fits cmd args → ∃ r, readAllKeys args db = Ret (([], r), db).
Proof. intros _. eexists. unfold readAllKeys. by rewrite (run_step _ _ _ _ _ (forM_string_of _ _)). Qed.

Local Ltac by_arity := let H := fresh in intros ? H; apply fits_length in H; cbn in H; lia.
Local Tactic Notation "run_arity" uconstr(R) := let H := fresh in intros ?? H; apply fits_length in H; cbn in H; apply R; try lia; intros; runs_auto.
Local Ltac entry Hc tac := apply elem_of_cons in Hc as [->|Hc]; [intros _; tac|].
Local Ltac skip Hc := apply elem_of_cons in Hc as [->|Hc]; [intros Hu; vm_compute in Hu; discriminate|].
Local Tactic Notation "on_one" uconstr(F) uconstr(R) := exists first_key; apply declares_first;
  [reflexivity|by_arity|intros; apply F; try done; intros; keeps_auto|run_arity R].
Local Tactic Notation "on_pairs" uconstr(F) uconstr(R) := exists pair_keys; apply declares_pairs; [reflexivity|intros; by apply F|run_arity R].
Local Tactic Notation "on_all" uconstr(F) uconstr(R) := exists all_keys; apply declares_all; [reflexivity|intros; by apply F|run_arity R].
Local Tactic Notation "reads_one" uconstr(F) uconstr(R) := exists (λ _ _, []); eapply declares_read;
  [reflexivity|apply readFirstKey_reads; by_arity|intros; apply F; try done; intros; keeps_auto|run_arity R].
Local Tactic Notation "reads_all" uconstr(F) uconstr(R) := exists (λ _ _, []); eapply declares_read;
  [reflexivity|apply readAllKeys_reads|intros; by apply F|run_arity R].

Lemma declares_table_string c : c ∈ string_commands → is_declared c.1 = true → ∃ keys, declares c.2 keys.
Proof.
  intros Hc. unfold string_commands in Hc.
  entry Hc ltac:(on_one framed_execSet runs_execSet).
  entry Hc ltac:(on_one framed_execSetNX runs_execSetNX).
  entry Hc ltac:(on_one framed_setex runs_setex).
  entry Hc ltac:(on_one framed_setex runs_setex).
  entry Hc ltac:(on_pairs framed_execMSet runs_execMSet).
  entry Hc ltac:(reads_all reads_execMGet runs_execMGet).
  entry Hc ltac:(on_pairs framed_execMSetNX runs_execMSetNX).
  skip Hc.
  entry Hc ltac:(reads_one reads_execGet runs_execGet).
  entry Hc ltac:(on_one framed_execGetEX runs_execGetEX).
  entry Hc ltac:(on_one framed_execGetSet runs_execGetSet).
  entry Hc ltac:(on_one framed_execGetDel runs_execGetDel).
  entry Hc ltac:(on_one framed_execIncr runs_execIncr).
  entry Hc ltac:(on_one framed_execIncrBy runs_execIncrBy).
  entry Hc ltac:(on_one framed_execIncrByFloat runs_execIncrByFloat).
  entry Hc ltac:(on_one framed_execDecr runs_execDecr).
  entry Hc ltac:(on_one framed_execDecrBy runs_execDecrBy).
  entry Hc ltac:(reads_one reads_execStrLen runs_execStrLen).
  skip Hc. skip Hc.
  entry Hc ltac:(reads_one reads_execGetRange runs_execGetRange).
  skip Hc. skip Hc. skip Hc. skip Hc. by apply elem_of_nil in Hc.
Qed.
Lemma declares_table_key c : c ∈ key_commands → is_declared c.1 = true → ∃ keys, declares c.2 keys.
Proof.
  intros Hc. unfold key_commands in Hc.
  entry Hc ltac:(on_all framed_execDel runs_execDel).
  entry Hc ltac:(on_one framed_execDelEX runs_execDelEX).
  do 2 entry Hc ltac:(on_one framed_expire_with runs_expire_with).
  entry Hc ltac:(reads_one reads_ttl_with runs_ttl_with).
  do 2 entry Hc ltac:(on_one framed_expire_with runs_expire_with).
  do 3 entry Hc ltac:(reads_one reads_ttl_with runs_ttl_with).
  entry Hc ltac:(on_one framed_execPersist runs_execPersist).
  entry Hc ltac:(reads_all reads_execExists runs_execExists).
  entry Hc ltac:(reads_one reads_execType runs_execType).
  skip Hc. skip Hc.
  entry Hc ltac:(reads_all reads_execGetVersion runs_execGetVersion).
  by apply elem_of_nil in Hc.
Qed.

Lemma declares_table n cmd : base_table n = Some cmd → is_declared n = true → ∃ keys, declares cmd keys.
Proof.
  unfold base_table, table_lookup. destruct (List.find _ _) as [[n' c]|] eqn:E; [|done]. intros [= <-] Hu.
  apply List.find_some in E as [Hin Hn]. cbn in Hn. apply bytes_eqb_eq in Hn as ->. apply list_elem_of_In in Hin.
  apply elem_of_app in Hin as [Hin|Hin]; [by apply declares_table_string in Hin|by apply declares_table_key in Hin].
Qed.
End declares.

Section watch.
Context {O : Type} `{!Objects O} {env : Env} {rt : Runtime} {srv : Server O} (t : Z) (Hclk : ∀ n, clock n = t).
Context (Htab : ∀ n cmd, base_table n = Some cmd → cmdTable n = Some cmd) (Hlim : limited = false).
Implicit Types db : DB O.

(** ** What follows the execution of a command *)

Lemma runs_IsErrorReply K r : plain r → runs (O := O) K (IsErrorReply r) (λ _, True).
Proof. intros Hp db I. exists (is_error r), db. unfold IsErrorReply. rewrite run_gets. unfold lift. by rewrite Hp. Qed.
Lemma runs_notify K cb ev k : runs (O := O) K (notifyKeyspaceEvent cb ev k) (λ _, True).
Proof. unfold notifyKeyspaceEvent. runs_auto. Qed.
Lemma keeps_IsErrorReply r ks : keeps (frame t ks) (IsErrorReply (O := O) r).
Proof. unfold IsErrorReply. keeps_auto. Qed.
Lemma keeps_notify cb ev k ks : keeps (frame t ks) (notifyKeyspaceEvent (O := O) cb ev k).
Proof. unfold notifyKeyspaceEvent. keeps_auto. Qed.
Hint Resolve runs_IsErrorReply runs_notify : runs.
Hint Resolve keeps_IsErrorReply keeps_notify : keeps.

Lemma exec_locked_spec c cmd n w r args db keys :
  declares t cmd keys → fits cmd args → keys args db = w → wf (wheel db) →
  ∃ res db1 db', exec_locked c cmd n w r args db = Ret (res, db') ∧ addVersion w db = Ret (tt, db1) ∧ frame t w db1 db'.
Proof.
  intros HD Hf Hw W. unfold exec_locked. destruct (addVersion_spec w db) as (db1 & E1 & _ & _ & M1 & W1 & _).
  rewrite (run_step _ _ _ _ _ E1). assert (I1 : inv [] db1) by (split; [by rewrite W1|by intros ?? ?%elem_of_nil]).
  destruct (dc_runs _ _ _ HD args Hf db1 I1) as (result & db2 & E2 & I2 & Hp). rewrite (run_step _ _ _ _ _ E2).
  assert (F2 : frame t w db1 db2).
  { pose proof (dc_frame _ _ _ HD _ _ _ _ E2) as F. by rewrite (dc_mem _ _ _ HD _ db db1 M1), Hw in F. }
  match goal with |- context [?m db2] => assert (HR : runs [] m (λ _, True)); [|assert (HK : keeps (frame t []) m)] end.
  - runs_auto.
  - keeps_auto.
  - destruct (HR db2 I2) as (res & db3 & E3 & _ & _). exists res, db1, db3. split; [done|]. split; [done|].
    etransitivity; [exact F2|]. eapply frame_mono; [|by eapply HK]. set_solver.
Qed.

(** ** One command of another client *)

(** A line of a declared command, with the right number of arguments. *)
Definition declared_line (m : mem) (line : list arg) : Prop :=
  line ≠ [] ∧ is_declared (line_name m line) = true ∧
  (∀ cmd : command O, base_table (line_name m line) = Some cmd → validateArity (arity cmd) line = true) ∧
  Forall (arg_ok m) line.

(** The keys that a line announces to write. *)
Definition announced db (line : list arg) : list bytes :=
  match GetRelatedKeys line db with Ret ((w, _), _) => w | _ => [] end.

Lemma declared_in_table n : is_declared n = true → ∃ cmd : command O, base_table n = Some cmd.
Proof.
  unfold is_declared. rewrite existsb_exists. intros (u & Hu & ->%bytes_eqb_eq). apply list_elem_of_In in Hu. unfold declared in Hu.
  repeat (apply elem_of_cons in Hu as [->|Hu]; [eexists; reflexivity|]). by apply elem_of_nil in Hu.
Qed.

(** A state that commands of other clients lead to: only the keys [ws] may have
    changed, and each of them has a new version for each time it is named. *)
Record later (ws : list bytes) db db' : Prop := {
  later_kept : ∀ k, k ∉ ws → kept_at t k db db';
  later_ver : ∀ k, u32 (GetVersion db' k) = u32 (GetVersion db k + count k ws);
  later_ok : ver_ok db → ver_ok db';
  later_mem : extends db db';
  later_wheel : wf (wheel db) → wf (wheel db')
}.

Lemma count_app k l1 l2 : count k (l1 ++ l2) = count k l1 + count k l2.
Proof. unfold count. rewrite filter_app, length_app. lia. Qed.

Lemma later_refl db : later [] db db.
Proof. split; try done; [|by unfold extends]. intros k. unfold count. cbn. by rewrite Z.add_0_r. Qed.
Lemma later_trans ws1 ws2 db1 db2 db3 : later ws1 db1 db2 → later ws2 db2 db3 → later (ws1 ++ ws2) db1 db3.
Proof.
  clear Hclk Htab Hlim. intros [A1 A2 A3 A4 A5] [B1 B2 B3 B4 B5]. split; try (by auto).
  - intros k Hk. etransitivity; [apply A1|apply B1]; set_solver.
  - intros k. rewrite B2, count_app. unfold u32 in *. rewrite Z.add_assoc, Zplus_mod, A2, <- Zplus_mod. done.
  - unfold extends in *. by etransitivity.
Qed.

Lemma execNormalCommand_spec c line db : declared_line (memory db) line → wf (wheel db) →
  ∃ r db', execNormalCommand c line db = Ret (r, db') ∧ later (announced db line) db db'.
Proof.
  intros (Hne & Hd & Har & Hok) W. destruct (declared_in_table _ Hd) as [cmd Hb].
  destruct (declares_table t Hclk _ cmd Hb Hd) as [keys HD]. destruct line as [|a0 args]; [done|].
  assert (HN : ∀ A (f : bytes → M O A), (cmd_name (a0 :: args) ≫= f) db = f (line_name (memory db) (a0 :: args)) db).
  { intros A f. unfold cmd_name. rewrite run_assoc. by erewrite str_at_run. }
  pose proof (Har cmd Hb) as Ha. pose proof (proj1 (fits_line cmd a0 args) Ha) as Hf.
  destruct (dc_prepare _ _ _ HD) as (p & Hp & HP). destruct (HP args db Hf) as [r E].
  assert (Hann : announced db (a0 :: args) = keys args db).
  { unfold announced, GetRelatedKeys. rewrite HN, (Htab _ _ Hb), Hp. change (drop 1 (a0 :: args)) with args. by rewrite E. }
  unfold execNormalCommand. rewrite HN, (Htab _ _ Hb), Ha. change (drop 1 (a0 :: args)) with args. cbn [negb]. rewrite Hp, (run_step _ _ _ _ _ E), Hlim, andb_false_r.
  destruct (exec_locked_spec c cmd (line_name (memory db) (a0 :: args)) (keys args db) r args db keys HD Hf eq_refl W)
    as (res & db1 & db' & E' & E1 & F). exists res, db'. split; [done|]. rewrite Hann.
  destruct (addVersion_spec (keys args db) db) as (db1' & E1' & D1 & T1 & M1 & W1 & V1 & O1). rewrite E1 in E1'. injection E1' as <-.
  assert (HG : ∀ k, GetVersion db' k = GetVersion db1 k) by (intros k; unfold GetVersion; by rewrite (frame_ver _ _ _ _ F)). split.
  - intros k Hk. pose proof (frame_keys _ _ _ _ F k Hk) as HK. unfold kept_at in *. by rewrite D1, T1 in HK.
  - intros k. by rewrite HG, V1.
  - intros Hv k. rewrite HG. by apply O1.
  - unfold extends. rewrite <- M1. apply F.
  - intros _. apply F. by rewrite W1.
Qed.

Lemma line_name_stable db x line : extends db x → Forall (arg_ok (memory db)) line → line_name (memory x) line = line_name (memory db) line.
Proof. intros X Hok. destruct line as [|a args]; [done|]. unfold line_name. rewrite (arg_str_stable db x); [done..|]. by inversion Hok. Qed.
Lemma arg_ok_stable db x l : extends db x → Forall (arg_ok (memory db)) l → Forall (arg_ok (memory x)) l.
Proof. intros X Hl. eapply Forall_impl; [exact Hl|]. intros [] Ha; cbn in *; [done| |done]. apply prefix_length in X. lia. Qed.
Lemma declared_stable db x line : extends db x → declared_line (memory db) line → declared_line (memory x) line.
Proof.
  intros X (Hne & Hd & Har & Hok). unfold declared_line. rewrite (line_name_stable db x) by done.
  split_and!; try done. by eapply arg_ok_stable.
Qed.
Lemma undoable_stable db x line : extends db x → undoable_line (memory db) line → undoable_line (memory x) line.
Proof.
  intros X (Hne & Hd & Har & Hok). unfold undoable_line. rewrite (line_name_stable db x) by done.
  split_and!; try done. by eapply arg_ok_stable.
Qed.

Lemma announced_stable db x line : extends db x → declared_line (memory db) line → announced x line = announced db line.
Proof.
  intros X HL. pose proof (declared_stable _ _ _ X HL) as HX. destruct HL as (Hne & Hd & Har & Hok), HX as (_ & Hd' & _ & _).
  destruct (declared_in_table _ Hd) as [cmd Hb]. destruct (declares_table t Hclk _ cmd Hb Hd) as [keys HD].
  destruct line as [|a0 args]; [done|]. pose proof (proj1 (fits_line cmd a0 args) (Har cmd Hb)) as Hf.
  assert (HA : ∀ y, line_name (memory y) (a0 :: args) = line_name (memory db) (a0 :: args) → announced y (a0 :: args) = keys args y).
  { intros y Hy. unfold announced, GetRelatedKeys, cmd_name. rewrite run_assoc. erewrite str_at_run by done. rewrite run_ret.
    change (ToLower (arg_str (memory y) a0)) with (line_name (memory y) (a0 :: args)). rewrite Hy, (Htab _ _ Hb).
    destruct (dc_prepare _ _ _ HD) as (p & Hp & HP). destruct (HP args y Hf) as [r E]. rewrite Hp.
    change (drop 1 (a0 :: args)) with args. by rewrite E. }
  rewrite !HA; [|done|by apply line_name_stable]. apply (dc_stable _ _ _ HD); [done|]. by inversion Hok.
Qed.

End watch.

Lemma later_later {O} t t' ws (db db' : DB O) : t <= t' → later t ws db db' → later t' ws db db'.
Proof. intros Ht [H1 H2 H3 H4 H5]. split; try done. intros k Hk. eapply kept_at_later; [exact Ht|by apply H1]. Qed.

(** ** Any number of commands, each at its own time *)

Section traffic.
Context {O : Type} `{!Objects O} {env : Env} {rt : Runtime} (srv : Z → Server O).
Context (Htab : ∀ t n cmd, base_table (env := at_time t env) n = Some cmd → cmdTable (Server := srv t) n = Some cmd).
Context (Hlim : ∀ t, limited (Server := srv t) = false).
Implicit Types db : DB O.

(** A command of a connection, and the time it runs at. *)
Abbreviation timed_cmd := (Z * (option Connection * list arg))%type.

Definition traffic (cmds : list timed_cmd) : M O unit :=
  forM_ cmds (λ '(t, (c, line)), execNormalCommand (srv := srv t) c line;; mret tt).

Definition declared_at db (p : timed_cmd) : Prop := declared_line (env := at_time p.1 env) (memory db) p.2.2.
Definition announced_at db (p : timed_cmd) : list bytes := announced (srv := srv p.1) db p.2.2.

Lemma traffic_spec t cmds db : (∀ p, p ∈ cmds → p.1 <= t ∧ declared_at db p) → wf (wheel db) →
  ∃ db', traffic cmds db = Ret (tt, db') ∧ later t (concat (announced_at db <$> cmds)) db db'.
Proof using Htab Hlim.
  unfold traffic. revert db. induction cmds as [|[t1 [c line]] cmds IH]; intros db HL W; [exists db; split; [done|apply later_refl]|].
  cbn [fmap list_fmap concat] in *. destruct (HL (t1, (c, line)) ltac:(left)) as [Ht1 HD1].
  destruct (execNormalCommand_spec (env := at_time t1 env) (srv := srv t1) t1 (λ _, eq_refl) (Htab t1) (Hlim t1) c line db HD1 W) as (r & db1 & E & L1).
  apply (later_later t1 t) in L1; [|done]. rewrite run_forM_cons, run_assoc, (run_step _ _ _ _ _ E), run_ret.
  destruct (IH db1) as (db' & E' & L').
  - intros p Hp. destruct (HL p ltac:(by right)) as [Hle HD]. split; [done|]. eapply declared_stable; [apply L1|exact HD].
  - by apply L1.
  - exists db'. split; [done|].
    assert (HA : announced_at db1 <$> cmds = announced_at db <$> cmds).
    { apply list_fmap_ext. intros i p Hp. destruct (HL p) as [_ HD]; [right; by eapply list_elem_of_lookup_2|].
      apply (announced_stable (env := at_time p.1 env) p.1 (λ _, eq_refl) (Htab p.1)); [apply L1|exact HD]. }
    rewrite HA in L'. exact (later_trans t _ _ _ _ _ L1 L').
Qed.

(** ** Watching *)

Lemma watching_lookup db (keys : list bytes) (w : gmap bytes Z) k :
  foldl (λ w key, <[key := GetVersion db key]> w) w keys !! k = if decide (k ∈ keys) then Some (GetVersion db k) else w !! k.
Proof.
  revert w. induction keys as [|key keys IH]; intros w; cbn [foldl]; [done|]. rewrite IH.
  destruct (decide (k ∈ keys)) as [Hin|Hout]; [by rewrite decide_True by by right|].
  destruct (decide (k = key)) as [->|Hne]; [by rewrite lookup_insert_eq, decide_True by left|].
  rewrite lookup_insert_ne, decide_False by (done || set_solver). done.
Qed.

Lemma isWatchingChanged_false db w : isWatchingChanged db w = false ↔ ∀ k v, w !! k = Some v → v = GetVersion db k.
Proof.
  unfold isWatchingChanged. rewrite <- not_true_iff_false, existsb_exists. split.
  - intros H k v Hk. apply Z.eqb_eq, negb_false_iff, not_true_iff_false. intros Hn. apply H. exists (k, v).
    split; [|done]. by apply list_elem_of_In, elem_of_map_to_list.
  - intros H ([k v] & Hin & Hn). apply list_elem_of_In, elem_of_map_to_list, H in Hin. subst. by rewrite Z.eqb_refl in Hn.
Qed.

Lemma count_zero k l : count k l = 0 ↔ k ∉ l.
Proof.
  unfold count. split.
  - intros H Hin. assert (Hf : k ∈ filter (k =.) l) by (by apply list_elem_of_filter). destruct (filter _ l); [by apply elem_of_nil in Hf|cbn in H; lia].
  - intros H. destruct (filter (k =.) l) as [|x l'] eqn:E; [done|]. assert (Hx : x ∈ filter (k =.) l) by (rewrite E; left).
    apply list_elem_of_filter in Hx as [<- Hx]. done.
Qed.
Lemma count_bounds k l : 0 <= count k l <= Z.of_nat (length l).
Proof. unfold count. pose proof (length_filter (k =.) l). lia. Qed.

Lemma u32_shift a n : 0 <= n < 2 ^ 32 → u32 a = u32 (u32 a + n) ↔ n = 0.
Proof.
  intros Hn. unfold u32. rewrite Zplus_mod_idemp_l. split; [|intros ->; by rewrite Z.add_0_r].
  intros H. pose proof (Z.div_mod a (2 ^ 32)) as H1. pose proof (Z.div_mod (a + n) (2 ^ 32)) as H2. nia.
Qed.

End traffic.
