(* ===== verification/TxEx.v ===== *)
(** * Concrete runs of commands and transactions *)

From stdpp Require Import base gmap list strings.
From Stdlib Require Import ZArith Lia Ascii.
From S2P Require Import Prelude GoText Strconv Resp ObjString Runtime GoTime TimeWheel KeySpace Bitmap StringCmd KeyCmd Tx KeySpaceThm TxThm TxRuns TxAtomic TxMulti TxWatch.

Local Open Scope Z_scope.

(** ** Instances *)

(** Objects of which only the type is known. *)
#[local] Instance ex_objects : Objects ObjType := {| obj_type := λ t, t; obj_elems := λ _, [] |}.
#[local] Existing Instance ex_runtime.

(** A clock that stands still at [t]. *)
Definition env_at (t : Z) : Env :=
  {| clock := λ _, t; draw := λ _ _, false; MaxmemoryPolicy := str "allkeys-lru"; ParseIntError := λ _, str "ERR";
     ValueDigest := λ b, b |}.

Definition ex_server (t : Z) : Server ObjType :=
  {| limited := false; freeMemoryIfNeeded := mret true; NotifyKeyspaceEvents := [];
     cmdTable := base_table (env := env_at t) |}.

Definition empty_db : DB ObjType := MkDB 0 ∅ ∅ ∅ ∅ (MkTimeWheel Second [[]; []; []; []] ∅ 0 4 0) [] [] [] 0 0.
Definition new_conn : Connection := MkConn false [] ∅ 0 false false 7.

(** A command line in arrays of its own, as the parser of a connection makes it. *)
Fixpoint send (words : list string) : M ObjType (list arg) :=
  match words with
  | [] => mret []
  | w :: words => s ← alloc (str w); l ← send words; mret (ARef s :: l)
  end.

(** One connection sends command lines at given times and reads the replies as
    they are encoded. *)
Fixpoint session (c : Connection) (cmds : list (Z * list string)) : M ObjType (list Reply * Connection) :=
  match cmds with
  | [] => mret ([], c)
  | (t, words) :: cmds =>
      line ← send words;
      '(r, c) ← Exec (srv := ex_server t) c line;
      m ← gets memory;
      '(rs, c) ← session c cmds;
      mret (resolve m r :: rs, c)
  end.
Definition replies (cmds : list (Z * list string)) : res (list Reply) :=
  match session new_conn cmds empty_db with Ret ((rs, _), _) => Ret rs | Panic => Panic | OutOfFuel => OutOfFuel end.

(** ** Witnesses *)

Definition sec : Z := Second.

(** Key [a] holds the integer 5 until the second 900; the arrays hold the lines
    SET a x and INCR a, of which the second fails. *)
Definition tx_db : DB ObjType :=
  MkDB 0 {[str "a" := EInt 5]} {[str "a" := 900 * sec]} ∅ ∅ (MkTimeWheel Second [[]; []; []; []] ∅ 0 4 0)
    [str "SET"; str "a"; str "x"; str "INCR"] [] [] 0 0.
Definition ref (i n : nat) : arg := ARef (MkSlice i 0 n).
Definition tx_queue : list (list arg) := [[ref 0 3; ref 1 1; ref 2 1]; [ref 3 4; ref 1 1]].

Lemma ex_lowers : ascii_lowers.
Proof. by intros s. Qed.
Lemma ex_table t n cmd : base_table (env := env_at t) n = Some cmd → cmdTable (Server := ex_server t) n = Some cmd.
Proof. done. Qed.

Lemma ex_wheel_wf : wf (wheel tx_db).
Proof. by apply (New_wf Second 4). Qed.

Lemma tx_undoable t line : line ∈ tx_queue → undoable_line (env := env_at t) (memory tx_db) line.
Proof.
  intros H. unfold tx_queue in H. repeat (apply elem_of_cons in H as [->|H]); [..|by apply elem_of_nil in H].
  all: split; [done|]; split; [reflexivity|]; split; [intros cmd Hc; injection Hc as <-; reflexivity|repeat constructor].
Qed.

Lemma tx_restorable t K k : t = 100 * sec → restorable t K tx_db k.
Proof.
  intros -> e He. unfold alive in He. cbn in He. split.
  - repeat case_match; simplify_eq; apply lookup_singleton_Some in He as [_ <-]; done.
  - intros _ d Hd. cbn in Hd. apply lookup_singleton_Some in Hd as [_ <-]. split; unfold sec, Second, Millisecond; [lia|]. intros _. by vm_compute.
Qed.


(** One client watches [a] and queues INCR a; at 90 s another one sets [a], or
    reads it. *)
Definition watcher : Connection := MkConn true [[ref 3 4; ref 1 1]] {[str "a" := 0]} 0 false false 7.
Definition others_write : list (Z * (option Connection * list arg)) := [(90 * sec, (None, [ref 0 3; ref 1 1; ref 2 1]))].
Definition others_read : list (Z * (option Connection * list arg)) := [(90 * sec, (None, ToCmdLine [str "get"; str "a"]))].


(** The versions are compared before the locks are taken: a SET of the watched key
    that comes in between is not noticed, and GET in the transaction reads what it
    has written. *)
Theorem write_after_check_goes_unnoticed :
  isWatchingChanged tx_db {[str "a" := 0]} = false ∧
  (r ← execNormalCommand (srv := ex_server (100 * sec)) None (ToCmdLine [str "SET"; str "a"; str "new"]);
   w ← gets (λ db, isWatchingChanged db {[str "a" := 0]});
   r ← exec_multi_checked (srv := ex_server (100 * sec)) None [ToCmdLine [str "GET"; str "a"]] [] false;
   m ← gets memory; mret (w, resolve m r)) tx_db ≫= (λ '(x, _), Ret x) = Ret (true, MultiRawReply [BulkReply (Some (str "new"))]).
Proof. split; by vm_compute. Qed.

(** ** Sessions that a user would not expect *)

Definition bulk (s : string) : Reply := BulkReply (Some (str s)).
Definition aborted : Reply := StandardErrReply (str "EXECABORT Transaction discarded because of previous errors.").

(** The last replies of a session, all of whose commands come at one time. *)
Definition ends (cmds : list (list string)) (n : nat) : res (list Reply) :=
  match replies ((λ c, (100 * sec, c)) <$> cmds) with Ret rs => Ret (drop (length rs - n) rs) | Panic => Panic | OutOfFuel => OutOfFuel end.

(** A reply to GET inside a transaction is a slice of the stored array, which a
    later command of the same transaction changes before it is encoded. *)
Theorem exec_reply_shows_later_write :
  ends [["SET"; "k"; "Hello"]; ["MULTI"]; ["GET"; "k"]; ["SETRANGE"; "k"; "0"; "J"]; ["EXEC"]]%string 1 =
  Ret [MultiRawReply [bulk "Jello"; IntReply 5]].
Proof. by vm_compute. Qed.

(** The undo log of SETRANGE holds the slice that SETRANGE writes in place. *)
Theorem setrange_is_not_undone :
  ends [["SET"; "k"; "Hello"]; ["MULTI"]; ["SETRANGE"; "k"; "0"; "J"]; ["INCR"; "k"]; ["EXEC"]; ["GET"; "k"]]%string 2 =
  Ret [aborted; bulk "Jello"].
Proof. by vm_compute. Qed.

(** GETEX drops the deadline before it finds its syntax error, and the log of the
    command that fails is not run. *)
Theorem failed_getex_is_not_undone :
  ends [["SET"; "k"; "v"; "EX"; "100"]; ["MULTI"]; ["GETEX"; "k"; "PERSIST"; "EX"; "x"]; ["EXEC"]; ["TTL"; "k"]]%string 2 =
  Ret [aborted; IntReply (-1)].
Proof. by vm_compute. Qed.

(** The log of EXPIRE has no value, and the key is gone when it is run. *)
Theorem expire_in_the_past_is_not_undone :
  ends [["SET"; "k"; "v"]; ["MULTI"]; ["EXPIRE"; "k"; "-1"]; ["GET"; "k"]; ["SET"; "x"; "y"]; ["INCR"; "x"]; ["EXEC"]; ["GET"; "k"]]%string 2 =
  Ret [aborted; NullBulkReply].
Proof. by vm_compute. Qed.

(** The log of MSETEX takes the number of keys for a key. *)
Theorem msetex_is_not_undone :
  ends [["SET"; "a"; "1"]; ["MULTI"]; ["MSETEX"; "1"; "a"; "2"]; ["SET"; "q"; "q"]; ["INCR"; "q"]; ["EXEC"]; ["GET"; "a"]]%string 2 =
  Ret [aborted; bulk "2"].
Proof. by vm_compute. Qed.

(** Errors met while queueing are never cleared: after one of them, every later
    transaction of the connection is discarded. *)
Theorem tx_errors_stay :
  ends [["MULTI"]; ["NOSUCH"]; ["EXEC"]; ["MULTI"]; ["SET"; "x"; "1"]; ["EXEC"]]%string 3 = Ret [OkReply; QueuedReply; aborted].
Proof. by vm_compute. Qed.

(** RENAME announces only its target, so that the version of the source stays. *)
Theorem watch_misses_rename :
  ends [["SET"; "a"; "v"]; ["WATCH"; "a"]; ["RENAME"; "a"; "b"]; ["MULTI"]; ["SET"; "x"; "1"]; ["EXEC"]]%string 1 =
  Ret [MultiRawReply [OkReply]].
Proof. by vm_compute. Qed.

Theorem rename_to_itself_deletes :
  ends [["SET"; "k"; "v"]; ["RENAME"; "k"; "k"]; ["GET"; "k"]]%string 2 = Ret [OkReply; NullBulkReply].
Proof. by vm_compute. Qed.

(** A key without a deadline takes over that of the target. *)
Theorem rename_keeps_deadline_of_target :
  ends [["SET"; "a"; "v"]; ["SET"; "b"; "w"; "EX"; "10"]; ["RENAME"; "a"; "b"]; ["TTL"; "b"]]%string 1 = Ret [IntReply 10].
Proof. by vm_compute. Qed.

(** MSET leaves the old deadline, and a value written to a key that has expired
    but was not yet removed is lost. *)
Theorem mset_on_expired_key_is_lost :
  replies [(100 * sec, ["SET"; "a"; "v"; "EX"; "10"]); (200 * sec, ["MSET"; "a"; "w"]); (200 * sec, ["GET"; "a"])]%string =
  Ret [OkReply; OkReply; NullBulkReply].
Proof. by vm_compute. Qed.

Theorem setnx_fails_on_expired_key :
  replies [(100 * sec, ["SET"; "a"; "v"; "EX"; "10"]); (200 * sec, ["SETNX"; "a"; "w"]); (200 * sec, ["GET"; "a"])]%string =
  Ret [OkReply; IntReply 0; NullBulkReply].
Proof. by vm_compute. Qed.

(** The duration of a long deadline overflows. *)
Theorem long_deadline_expires_at_once :
  replies [(100 * sec, ["SET"; "a"; "v"; "EX"; "10000000000"]); (200 * sec, ["GET"; "a"])]%string = Ret [OkReply; NullBulkReply].
Proof. by vm_compute. Qed.

(** MSETEX with NX replies that nothing was set, but has set the absent keys. *)
Theorem msetex_nx_sets_some :
  ends [["SET"; "a"; "v"]; ["MSETEX"; "2"; "b"; "1"; "a"; "2"; "NX"]; ["GET"; "b"]]%string 2 = Ret [IntReply 0; bulk "1"].
Proof. by vm_compute. Qed.

Theorem incr_wraps_around :
  ends [["SET"; "a"; "9223372036854775807"]; ["INCR"; "a"]]%string 1 = Ret [IntReply (-9223372036854775808)].
Proof. by vm_compute. Qed.

Theorem setrange_negative_offset_panics : ends [["SET"; "a"; "hello"]; ["SETRANGE"; "a"; "-1"; "xy"]]%string 1 = Panic.
Proof. by vm_compute. Qed.
Theorem bitcount_one_bound_panics : ends [["SET"; "a"; "hello"]; ["BITCOUNT"; "a"; "0"]]%string 1 = Panic.
Proof. by vm_compute. Qed.

(** [EntityToCmd] has no command for a stream, and the undo log dereferences it. *)
Theorem del_of_stream_in_multi_panics :
  ExecMulti (srv := ex_server (100 * sec)) None ∅ [ToCmdLine [str "DEL"; str "s"]] (set_data empty_db {[str "s" := EObj TypeStream]}) = Panic.
Proof. by vm_compute. Qed.
