(* ===== verification/ObjCmd.v ===== *)
(** * Objects in the key space

    The entity of a key may hold an object of one of several types; a handler
    fetches the object of its own type, works on it in place and may create it.
    A variable of a handler that points to an object is the object here, stored
    back under its key when the handler has changed it. *)

From stdpp Require Import base gmap list strings.
From Stdlib Require Import ZArith Lia Ascii.
From S2P Require Import Prelude Resp ObjString Runtime KeySpace.

Local Open Scope Z_scope.

(** The objects of type [T] among the objects. *)
Class ObjOf (O T : Type) := {
  inj_obj : T → O;
  prj_obj : O → option T;
  prj_inj x : prj_obj (inj_obj x) = Some x;
  inj_prj o x : prj_obj o = Some x → o = inj_obj x
}.

Section objects.
Context {O T : Type} `{!Objects O} `{!ObjOf O T} {env : Env} {rt : Runtime}.

(** The object of a key: an error reply for a value of another type, nothing for
    a missing key. *)
Definition get_obj (key : bytes) : M O (reply + option T) :=
  e ← GetEntity key;
  mret match e with
       | None => inr None
       | Some (EObj o) => match prj_obj o with Some x => inr (Some x) | None => inl RWrongType end
       | Some _ => inl RWrongType
       end.

(** The same, with a new object under a missing key. *)
Definition get_or_init (new : T) (key : bytes) : M O (reply + T) :=
  r ← get_obj key;
  match r with
  | inl e => mret (inl e)
  | inr (Some x) => mret (inr x)
  | inr None => PutEntity key (EObj (inj_obj new));; mret (inr new)
  end.

(** The object under a key has changed. *)
Definition store_obj (key : bytes) (x : T) : M O unit :=
  modify (λ db, set_data db (<[key := EObj (inj_obj x)]> (data db))).

(** The object that a pointer fetched before from this key points to now. *)
Definition deref (key : bytes) : M O T :=
  e ← gets (λ db, data db !! key);
  match e with
  | Some (EObj o) => lift (must (prj_obj o))
  | _ => panic
  end.
End objects.

(** ** Values and arguments *)

(** [v, _ := raw.([]byte)] and [raw.([]byte)] *)
Definition val_arg (v : value) : arg := match v with VBytes b => ALit b | _ => ANil end.
Definition val_bytes (v : value) : res bytes := match v with VBytes b => Ret b | _ => Panic end.

(** [utils.Equals] of an element and an argument *)
Definition Equals (a : value) (b : bytes) : bool := match a with VBytes x => bytes_eqb x b | _ => false end.

Section args.
Context {O : Type}.

(** An argument by a computed index. *)
Definition str_atZ (args : list arg) (i : Z) : M O bytes := if i <? 0 then panic else str_at args (Z.to_nat i).

Definition arg_strs (args : list arg) : M O (list bytes) := forM args string_of.
End args.
