(* ===== verification/ListCmd.v ===== *)
(** * List commands: [internal/command/list.go] *)

From stdpp Require Import base gmap list strings.
From Stdlib Require Import ZArith Lia Ascii.
From S2P Require Import Prelude GoText Strconv ObjString ObjList Resp Runtime GoTime TimeWheel KeySpace StringCmd KeyCmd Tx ObjCmd.

Local Open Scope Z_scope.

Section list.
Context {O : Type} `{!Objects O} `{!ObjOf O List_} {env : Env} {rt : Runtime}.
Context (growslice : Z → nat → Z) (Thresholds : EncodingThresholds).
Local Abbreviation M := (M O).

Definition getAsList (key : bytes) : M (reply + option List_) := get_obj key.
Definition getOrInitList (key : bytes) : M (reply + List_) := get_or_init NewList key.

Definition list_len (l : List_) : M Z := lift (ObjList.Len l).

(** The list is stored again, and its key is removed when it is empty. *)
Definition store_or_remove (key : bytes) (l : List_) : M unit :=
  store_obj key l;;
  n ← list_len l;
  when (n =? 0) (KeySpace.Remove key).

(** ** Reading *)

(** The element an index stands for, negative ones counted from the end. *)
Definition list_index (index size : Z) : option Z :=
  if index <? -1 * size then None
  else if index <? 0 then Some (size + index)
  else if size <=? index then None
  else Some index.

Definition execLIndex : ExecFunc O := λ args,
  key ← str_at args 0;
  a1 ← str_at args 1;
  match ParseInt a1 with
  | None => mret not_integer
  | Some index =>
      r ← getAsList key;
      match r with
      | inl e => mret e
      | inr None => mret RNull
      | inr (Some l) =>
          size ← list_len l;
          match list_index index size with
          | None => mret RNull
          | Some i => '(raw, _) ← lift (ObjList.Get l i); mret (RBulk (val_arg raw))
          end
      end
  end.

Definition execLLen : ExecFunc O := λ args,
  key ← str_at args 0;
  r ← getAsList key;
  match r with
  | inl e => mret e
  | inr None => mret (RInt 0)
  | inr (Some l) => n ← list_len l; mret (RInt n)
  end.

(** The bounds of LRANGE, or [None] for a start past the end. *)
Definition lrange_bounds (start stop size : Z) : option (Z * Z) :=
  let start' := if start <? -1 * size then Some 0 else if start <? 0 then Some (size + start) else if size <=? start then None else Some start in
  match start' with
  | None => None
  | Some start =>
      let stop := if stop <? -1 * size then 0 else if stop <? 0 then size + stop + 1 else if stop <? size then stop + 1 else size in
      Some (start, if stop <? start then start else stop)
  end.

Definition execLRange : ExecFunc O := λ args,
  key ← str_at args 0;
  a1 ← str_at args 1;
  match ParseInt a1 with
  | None => mret not_integer
  | Some start =>
      a2 ← str_at args 2;
      match ParseInt a2 with
      | None => mret not_integer
      | Some stop =>
          r ← getAsList key;
          match r with
          | inl e => mret e
          | inr None => mret (RConst EmptyMultiBulkReply)
          | inr (Some l) =>
              size ← list_len l;
              match lrange_bounds start stop size with
              | None => mret (RConst EmptyMultiBulkReply)
              | Some (start, stop) => vs ← lift (ObjList.Range l start stop); mret (RMultiBulk (val_arg <$> vs))
              end
          end
      end
  end.

(** ** Popping *)

(** [n] elements taken from the list. *)
Fixpoint pop_n (pop : List_ → res (List_ * value)) (n : nat) (l : List_) : res (List_ * list bytes) :=
  match n with
  | 0%nat => Ret (l, [])
  | S n => '(l, v) ← pop l; b ← val_bytes v; '(l, bs) ← pop_n pop n l; Ret (l, b :: bs)
  end.

Definition pop_first (l : List_) : res (List_ * value) := ObjList.Remove l 0.
Definition pop_last (l : List_) : res (List_ * value) := ObjList.RemoveLast l.

(** LPOP and RPOP: a negative count is refused by [make]. *)
Definition pop_with (name : string) (pop : List_ → res (List_ * value)) : ExecFunc O := λ args,
  key ← str_at args 0;
  r ← getAsList key;
  match r with
  | inl e => mret e
  | inr None => mret RNull
  | inr (Some l) =>
      if (length args =? 2)%nat then
        a1 ← str_at args 1;
        match ParseInt a1 with
        | None => mret not_integer
        | Some count64 =>
            len ← list_len l;
            let count := if len <? count64 then len else count64 in
            if count <? 0 then panic else
            '(l, vals) ← lift (pop_n pop (Z.to_nat count) l);
            store_or_remove key l;;
            addAof (ToCmdLine3 name args);;
            mret (RMultiBulk (ALit <$> vals))
        end
      else
        '(l, v) ← lift (pop l);
        store_or_remove key l;;
        addAof (ToCmdLine3 name args);;
        mret (RBulk (val_arg v))
  end.
Definition execLPop : ExecFunc O := pop_with "lpop" pop_first.
Definition execRPop : ExecFunc O := pop_with "rpop" pop_last.

(** ** Pushing *)

Definition insert_first (l : List_) (b : bytes) : res List_ := ObjList.Insert growslice Thresholds l 0 (VBytes b).
Definition insert_last (l : List_) (b : bytes) : res List_ := ObjList.Add growslice Thresholds l (VBytes b).

(** The loop over the values, for a list that was fetched or created. *)
Definition push_values (name : string) (push : List_ → bytes → res List_) (key : bytes) (l : List_) (args : list arg) : M reply :=
  values ← arg_strs (drop 1 args);
  l ← lift (foldM push values l);
  store_obj key l;;
  addAof (ToCmdLine3 name args);;
  n ← list_len l;
  mret (RInt n).

Definition push_with (name : string) (push : List_ → bytes → res List_) : ExecFunc O := λ args,
  key ← str_at args 0;
  r ← getOrInitList key;
  match r with
  | inl e => mret e
  | inr l => push_values name push key l args
  end.
Definition execLPush : ExecFunc O := push_with "lpush" insert_first.
Definition execRPush : ExecFunc O := push_with "rpush" insert_last.

Definition pushx_with (name : string) (push : List_ → bytes → res List_) : ExecFunc O := λ args,
  key ← str_at args 0;
  r ← getAsList key;
  match r with
  | inl e => mret e
  | inr None => mret (RInt 0)
  | inr (Some l) => push_values name push key l args
  end.
Definition execLPushX : ExecFunc O := pushx_with "lpushx" insert_first.
Definition execRPushX : ExecFunc O := λ args,
  if (length args <? 2)%nat then mret (RErr "ERR wrong number of arguments for 'rpush' command")
  else pushx_with "rpushx" insert_last args.

(** ** Changing elements *)

Definition execLRem : ExecFunc O := λ args,
  key ← str_at args 0;
  a1 ← str_at args 1;
  match ParseInt a1 with
  | None => mret not_integer
  | Some count =>
      value ← str_at args 2;
      r ← getAsList key;
      match r with
      | inl e => mret e
      | inr None => mret (RInt 0)
      | inr (Some l) =>
          let expected v := Equals v value in
          '(l, removed) ← lift (if count =? 0 then ObjList.RemoveAllByVal l expected
                                else if 0 <? count then ObjList.RemoveByVal l expected count
                                else ObjList.ReverseRemoveByVal l expected (wrap64 (- count)));
          store_or_remove key l;;
          when (0 <? removed) (addAof (ToCmdLine3 "lrem" args));;
          mret (RInt removed)
      end
  end.

Definition out_of_range : reply := RErr "ERR index out of range".

Definition execLSet : ExecFunc O := λ args,
  key ← str_at args 0;
  a1 ← str_at args 1;
  match ParseInt a1 with
  | None => mret not_integer
  | Some index =>
      value ← str_at args 2;
      r ← getAsList key;
      match r with
      | inl e => mret e
      | inr None => mret (RErr "ERR no such key")
      | inr (Some l) =>
          size ← list_len l;
          match list_index index size with
          | None => mret out_of_range
          | Some i =>
              l ← lift (ObjList.Set_ l i (VBytes value));
              store_obj key l;;
              addAof (ToCmdLine3 "lset" args);;
              mret ROk
          end
      end
  end.

(** One of the two loops of LTRIM: at most [count] elements, while there are
    any; the fuel is the length of the list. *)
Fixpoint trim_loop (fuel : nat) (pop : List_ → res (List_ * value)) (i count : Z) (l : List_) : res List_ :=
  n ← ObjList.Len l;
  if (i <? count) && (0 <? n) then
    match fuel with
    | 0%nat => OutOfFuel
    | S fuel => '(l, _) ← pop l; trim_loop fuel pop (i + 1) count l
    end
  else Ret l.

Definition execLTrim : ExecFunc O := λ args,
  if negb (length args =? 3)%nat then
    mret (RConst (StandardErrReply (str "ERR wrong number of arguments (given " ++ Itoa (Z.of_nat (length args)) ++ str ", expected 3)"))) else
  key ← str_at args 0;
  a1 ← str_at args 1;
  match ParseInt a1 with
  | None => mret not_integer
  | Some start =>
      a2 ← str_at args 2;
      match ParseInt a2 with
      | None => mret not_integer
      | Some end_ =>
          r ← getAsList key;
          match r with
          | inl e => mret e
          | inr None => mret ROk
          | inr (Some l) =>
              len ← list_len l;
              let start := if start <? 0 then start + len else start in
              let end_ := if end_ <? 0 then end_ + len else end_ in
              let rightCount := wrap64 (len - end_ - 1) in
              l ← lift (trim_loop (Z.to_nat len) pop_first 0 start l);
              l ← lift (trim_loop (Z.to_nat len) pop_last 0 rightCount l);
              store_obj key l;;
              addAof (ToCmdLine3 "ltrim" args);;
              mret ROk
          end
      end
  end.

(** The search of LINSERT: the index of the first element equal to the pivot. *)
Definition find_pivot (pivot : bytes) (st : res Z) (i : Z) (v : value) : res Z * bool :=
  match val_bytes v with
  | Ret b => if bytes_eqb b pivot then (Ret i, false) else (st, true)
  | _ => (Panic, false)
  end.

Definition execLInsert : ExecFunc O := λ args,
  if negb (length args =? 4)%nat then mret (RErr "ERR wrong number of arguments for 'linsert' command") else
  key ← str_at args 0;
  r ← getAsList key;
  match r with
  | inl e => mret e
  | inr None => mret (RInt 0)
  | inr (Some l) =>
      a1 ← str_at args 1;
      let dir := ToLower a1 in
      if negb (bytes_eqb dir (str "before")) && negb (bytes_eqb dir (str "after")) then mret (RErr "ERR syntax error") else
      pivot ← str_at args 2;
      found ← lift (ObjList.ForEach l (find_pivot pivot) (Ret (-1)));
      index ← lift found;
      if index =? -1 then mret (RInt (-1)) else
      val ← str_at args 3;
      l ← lift (ObjList.Insert growslice Thresholds l (if bytes_eqb dir (str "before") then index else index + 1) (VBytes val));
      store_obj key l;;
      addAof (ToCmdLine3 "linsert" args);;
      n ← list_len l;
      mret (RInt n)
  end.

(** ** Two lists *)

Definition prepareRPopLPush : PreFunc O := λ args,
  src ← str_at args 0; dest ← str_at args 1; mret ([src; dest], []).

(** The two keys may be the same: the second list is read after the first has
    been changed. *)
Definition execRPopLPush : ExecFunc O := λ args,
  sourceKey ← str_at args 0;
  destKey ← str_at args 1;
  r ← getAsList sourceKey;
  match r with
  | inl e => mret e
  | inr None => mret RNull
  | inr (Some _) =>
      d ← getOrInitList destKey;
      match d with
      | inl e => mret e
      | inr _ =>
          src ← deref sourceKey;
          '(src, raw) ← lift (pop_last src);
          store_obj sourceKey src;;
          dest ← deref destKey;
          dest ← lift (ObjList.Insert growslice Thresholds dest 0 (match raw with VBytes b => VBytes b | _ => VBytes [] end));
          store_obj destKey dest;;
          src ← deref sourceKey;
          n ← list_len src;
          when (n =? 0) (KeySpace.Remove sourceKey);;
          addAof (ToCmdLine3 "rpoplpush" args);;
          mret (RBulk (val_arg raw))
      end
  end.

(** ** Popping from the first list that has elements *)

Definition prepareBLPop : PreFunc O := λ args,
  if (length args <? 1)%nat then panic else
  keys ← arg_strs (take (length args - 1) args); mret (keys, []).

Fixpoint bpop_keys (name : string) (pop : List_ → res (List_ * value)) (args : list arg) (keys : list arg) : M reply :=
  match keys with
  | [] => mret RNull
  | a :: keys =>
      key ← string_of a;
      r ← getAsList key;
      match r with
      | inl e => mret e
      | inr None => bpop_keys name pop args keys
      | inr (Some l) =>
          len ← list_len l;
          if 0 <? len then
            '(l, v) ← lift (pop l);
            store_or_remove key l;;
            addAof (ToCmdLine3 name args);;
            mret (RMultiBulk [ALit key; val_arg v])
          else bpop_keys name pop args keys
      end
  end.
Definition bpop_with (name : string) (pop : List_ → res (List_ * value)) : ExecFunc O := λ args,
  if (length args <? 1)%nat then panic else bpop_keys name pop args (take (length args - 1) args).
Definition execBLPop : ExecFunc O := bpop_with "blpop" pop_first.
Definition execBRPop : ExecFunc O := bpop_with "brpop" pop_last.

Definition prepareLMPop : PreFunc O := λ args,
  a0 ← str_at args 0;
  match ParseInt a0 with
  | None => mret ([], [])
  | Some numKeys =>
      if numKeys <? 1 then mret ([], []) else
      if max_make <? numKeys * 16 then panic else
      if Z.of_nat (length args) <=? numKeys then panic else
      keys ← arg_strs (take (Z.to_nat numKeys) (drop 1 args)); mret (keys, [])
  end.

Definition lmpop_arity : reply := RErr "ERR wrong number of arguments for 'lmpop' command".
Definition syntax_error : reply := RErr "ERR syntax error".

(** The option COUNT after the direction. *)
Definition lmpop_count (args : list arg) (argOffset : Z) : M (reply + Z) :=
  if argOffset <? Z.of_nat (length args) then
    o ← str_atZ args argOffset;
    if bytes_eqb (ToUpper o) (str "COUNT") then
      if Z.of_nat (length args) <=? argOffset + 1 then mret (inl syntax_error) else
      c ← str_atZ args (argOffset + 1);
      mret match ParseInt c with
           | None => inl not_integer
           | Some c => if c <? 1 then inl not_integer else inr c
           end
    else mret (inl syntax_error)
  else mret (inr 1).

Fixpoint lmpop_keys (pop : List_ → res (List_ * value)) (count : Z) (args keys : list arg) : M reply :=
  match keys with
  | [] => mret RNull
  | a :: keys =>
      key ← string_of a;
      r ← getAsList key;
      match r with
      | inl e => mret e
      | inr None => lmpop_keys pop count args keys
      | inr (Some l) =>
          len ← list_len l;
          if len =? 0 then lmpop_keys pop count args keys else
          let count := if len <? count then len else count in
          '(l, vals) ← lift (pop_n pop (Z.to_nat count) l);
          store_or_remove key l;;
          addAof (ToCmdLine3 "lmpop" args);;
          mret (RRaw [RBulk (ALit key); RMultiBulk (ALit <$> vals)])
      end
  end.

Definition execLMPop : ExecFunc O := λ args,
  if (length args <? 3)%nat then mret lmpop_arity else
  a0 ← str_at args 0;
  match ParseInt a0 with
  | None => mret not_integer
  | Some numKeys =>
      if numKeys <? 1 then mret not_integer else
      if Z.of_nat (length args) <? wrap64 (1 + numKeys + 1) then mret lmpop_arity else
      d ← str_atZ args (wrap64 (1 + numKeys));
      let direction := ToUpper d in
      let left := bytes_eqb direction (str "LEFT") in
      if negb left && negb (bytes_eqb direction (str "RIGHT")) then mret syntax_error else
      c ← lmpop_count args (2 + numKeys);
      match c with
      | inl e => mret e
      | inr count => lmpop_keys (if left then pop_first else pop_last) count args (take (Z.to_nat numKeys) (drop 1 args))
      end
  end.

(** ** LPOS *)

Record lpos_opts := MkLPos { rank : Z; pos_count : Z; maxlen : Z }.

Definition rank_zero : reply :=
  RErr "ERR RANK can't be zero: use 1 to start from the first match, 2 from the second ... or use negative to start from the end of the list".

Fixpoint parse_lpos (l : list bytes) (o : lpos_opts) : reply + lpos_opts :=
  match l with
  | [] => inr o
  | opt :: l =>
      let opt := ToUpper opt in
      match l with
      | [] => inl syntax_error
      | v :: l =>
          if bytes_eqb opt (str "RANK") then
            match ParseInt v with
            | None => inl not_integer
            | Some v => if v =? 0 then inl rank_zero else parse_lpos l (MkLPos v (pos_count o) (maxlen o))
            end
          else if bytes_eqb opt (str "COUNT") then
            match ParseInt v with
            | None => inl not_integer
            | Some v => if v <? 0 then inl not_integer else parse_lpos l (MkLPos (rank o) v (maxlen o))
            end
          else if bytes_eqb opt (str "MAXLEN") then
            match ParseInt v with
            | None => inl not_integer
            | Some v => if v <? 0 then inl not_integer else parse_lpos l (MkLPos (rank o) (pos_count o) v)
            end
          else inl syntax_error
      end
  end.

(** From the left: the matches so far and their number. *)
Definition match_left (element : bytes) (rank count limit : Z) (st : list Z * Z) (i : Z) (v : value) : (list Z * Z) * bool :=
  let '(matches, matchCount) := st in
  if limit <=? i then (st, false)
  else if Equals v element then
    let matchCount := matchCount + 1 in
    if rank <=? matchCount then
      let matches := matches ++ [i] in
      if count <? 0 then ((matches, matchCount), false)
      else if (0 <? count) && (count <=? Z.of_nat (length matches)) then ((matches, matchCount), false)
      else ((matches, matchCount), true)
    else ((matches, matchCount), true)
  else (st, true).

(** All matches, for a rank from the right. *)
Definition match_all (element : bytes) (limit : Z) (st : list Z) (i : Z) (v : value) : list Z * bool :=
  if limit <=? i then (st, false) else if Equals v element then (st ++ [i], true) else (st, true).

Definition lpos_none (count : Z) : reply := if 0 <=? count then RConst EmptyMultiBulkReply else RNull.

(** The reply for the matches. *)
Definition lpos_reply (count : Z) (matches : list Z) : reply :=
  match matches with
  | [] => lpos_none count
  | m :: _ => if 0 <=? count then RRaw (RInt <$> matches) else RInt m
  end.

Definition execLPos : ExecFunc O := λ args,
  if (length args <? 2)%nat then mret (RErr "ERR wrong number of arguments for 'lpos' command") else
  key ← str_at args 0;
  element ← str_at args 1;
  opts ← arg_strs (drop 2 args);
  match parse_lpos opts (MkLPos 1 (-1) (-1)) with
  | inl e => mret e
  | inr (MkLPos rank count maxlen) =>
      r ← getAsList key;
      match r with
      | inl e => mret e
      | inr None => mret (lpos_none count)
      | inr (Some l) =>
          size ← list_len l;
          let limit := if (0 <=? maxlen) && (maxlen <? size) then maxlen else size in
          if 0 <? rank then
            '(matches, _) ← lift (ObjList.ForEach l (match_left element rank count limit) ([], 0));
            mret (lpos_reply count matches)
          else
            allMatches ← lift (ObjList.ForEach l (match_all element limit) []);
            let start := Z.of_nat (length allMatches) - wrap64 (- rank) in
            if start <? 0 then mret (lpos_none count) else
            if count <? 0 then
              m ← lift (must (allMatches !! Z.to_nat start));
              mret (lpos_reply count [m])
            else
              let end_ := wrap64 (start + count) in
              let end_ := if Z.of_nat (length allMatches) <? end_ then Z.of_nat (length allMatches) else end_ in
              mret (lpos_reply count (take (Z.to_nat (end_ - start)) (drop (Z.to_nat start) allMatches)))
      end
  end.

(** ** Undo logs *)

(** Go's [vals[i].([]byte)] for the elements of a range. *)
Definition range_bytes (l : List_) (start stop : Z) : res (list bytes) :=
  vs ← ObjList.Range l start stop;
  foldM (λ acc i, v ← must (vs !! i); b ← val_bytes v; Ret (acc ++ [b])) (seq 0 (Z.to_nat (stop - start))) [].

(** The log of LPOP and RPOP: [elements] are those that a count takes, in the
    order of the push, [index] is the one that is taken without a count. *)
Definition undo_pop (pushCmd : string) (elements : List_ → Z → Z → res (list bytes)) (index : Z → Z) : UndoFunc O := λ args,
  key ← str_at args 0;
  r ← getAsList key;
  match r with
  | inl _ | inr None => mret []
  | inr (Some l) =>
      len ← list_len l;
      if len =? 0 then mret [] else
      a0 ← arg_at args 0;
      if (length args =? 2)%nat then
        a1 ← str_at args 1;
        match ParseInt a1 with
        | None => mret []
        | Some count64 =>
            let count := if len <? count64 then len else count64 in
            if count <? 0 then panic else
            bs ← lift (elements l len count);
            mret [ALit (str pushCmd) :: a0 :: (ALit <$> bs)]
        end
      else
        '(raw, _) ← lift (ObjList.Get l (index len));
        mret [[ALit (str pushCmd); a0; val_arg raw]]
  end.
Definition undoLPop : UndoFunc O := undo_pop "LPUSH" (λ l _ count, bs ← range_bytes l 0 count; Ret (reverse bs)) (λ _, 0).
Definition undoRPop : UndoFunc O := undo_pop "RPUSH" (λ l len count, range_bytes l (len - count) len) (λ len, len - 1).

Definition undo_push (popCmd : string) : UndoFunc O := λ args,
  key ← str_at args 0;
  mret (replicate (length args - 1) (ToCmdLine [str popCmd; key])).
Definition undoLPush : UndoFunc O := undo_push "LPOP".
Definition undoRPush : UndoFunc O := undo_push "RPOP".

Definition undoLSet : UndoFunc O := λ args,
  key ← str_at args 0;
  a1 ← str_at args 1;
  match ParseInt a1 with
  | None => mret []
  | Some index =>
      r ← getAsList key;
      match r with
      | inl _ | inr None => mret []
      | inr (Some l) =>
          size ← list_len l;
          match list_index index size with
          | None => mret []
          | Some i =>
              '(raw, _) ← lift (ObjList.Get l i);
              a0 ← arg_at args 0;
              a1 ← arg_at args 1;
              mret [[ALit (str "LSET"); a0; a1; val_arg raw]]
          end
      end
  end.

Definition undoRPopLPush : UndoFunc O := λ args,
  sourceKey ← str_at args 0;
  r ← getAsList sourceKey;
  match r with
  | inl _ | inr None => mret []
  | inr (Some l) =>
      len ← list_len l;
      if len =? 0 then mret [] else
      '(raw, _) ← lift (ObjList.Get l (len - 1));
      a0 ← arg_at args 0;
      a1 ← arg_at args 1;
      mret [[ALit (str "RPUSH"); a0; val_arg raw]; [ALit (str "LPOP"); a1]]
  end.

(** ** Registrations *)

Definition on_list (ev : string) : option (Z * string) := Some (notifyList, ev).
Definition w_oom_fast : list string := ["write"; "denyoom"; "fast"]%string.

Definition list_commands : list (bytes * command O) := [
  registerCommand "lpos" execLPos readFirstKey None (-3) flagReadOnly ["readonly"]%string None;
  registerCommand "lmpop" execLMPop prepareLMPop None (-4) flagWrite ["write"]%string (on_list "lmpop");
  registerCommand "lpush" execLPush writeFirstKey (Some undoLPush) (-3) flagWrite w_oom_fast (on_list "lpush");
  registerCommand "lpushx" execLPushX writeFirstKey (Some undoLPush) (-3) flagWrite w_oom_fast (on_list "lpush");
  registerCommand "rpush" execRPush writeFirstKey (Some undoRPush) (-3) flagWrite w_oom_fast (on_list "rpush");
  registerCommand "rpushx" execRPushX writeFirstKey (Some undoRPush) (-3) flagWrite w_oom_fast (on_list "rpush");
  registerCommand "lpop" execLPop writeFirstKey (Some undoLPop) (-2) flagWrite ["write"; "fast"]%string (on_list "lpop");
  registerCommand "rpop" execRPop writeFirstKey (Some undoRPop) (-2) flagWrite ["write"; "fast"]%string (on_list "rpop");
  registerCommand "rpoplpush" execRPopLPush prepareRPopLPush (Some undoRPopLPush) 3 flagWrite w_oom None;
  registerCommand "lrem" execLRem writeFirstKey (Some rollbackFirstKey) 4 flagWrite ["write"]%string (on_list "lrem");
  registerCommand "llen" execLLen readFirstKey None 2 flagReadOnly ["readonly"; "fast"]%string None;
  registerCommand "lindex" execLIndex readFirstKey None 3 flagReadOnly ["readonly"]%string None;
  registerCommand "lset" execLSet writeFirstKey (Some undoLSet) 4 flagWrite w_oom (on_list "lset");
  registerCommand "lrange" execLRange readFirstKey None 4 flagReadOnly ["readonly"]%string None;
  registerCommand "ltrim" execLTrim writeFirstKey (Some rollbackFirstKey) 4 flagWrite ["write"]%string (on_list "ltrim");
  registerCommand "linsert" execLInsert writeFirstKey (Some rollbackFirstKey) 5 flagWrite w_oom (on_list "linsert");
  registerCommand "blpop" execBLPop prepareBLPop None (-3) flagWrite ["write"; "fast"]%string None;
  registerCommand "brpop" execBRPop prepareBLPop None (-3) flagWrite ["write"; "fast"]%string None].
End list.
