(* ===== verification/ObjCmdThm.v ===== *)
(** * Objects in the key space: the abstract view

    What a client sees of the keys, for commands on objects of one type: a map
    from the keys that are alive to the abstract value of an object of that
    type, or to the remark that the value has another type, beside the deadlines
    of these keys.

    A run of commands is a list of commands with the times they run at.  A
    command runs at one time: all its readings of the clock agree.  From one
    command to the next time passes, and the keys whose deadline it passes are
    gone from the view. *)

From stdpp Require Import base gmap list strings.
From Stdlib Require Import ZArith Lia Ascii.
From S2P Require Import Prelude GoText Resp ObjString Runtime GoTime TimeWheel KeySpace StringCmd KeyCmd Tx KeySpaceThm TxThm ObjCmd.

Local Open Scope Z_scope.

Inductive slot (A : Type) := Own (a : A) | Foreign.
Arguments Own {A} a.
Arguments Foreign {A}.

(** The words of a command line. *)
Section words.
Context {O : Type}.
Lemma run_word {A} words i b (f : bytes → M O A) db : words !! i = Some b → (str_at (ALit <$> words) i ≫= f) db = f b db.
Proof. intros E. erewrite str_at_run; [|by rewrite list_lookup_fmap, E]. done. Qed.
Lemma run_words words db : arg_strs (O := O) (ALit <$> words) db = Ret (words, db).
Proof. unfold arg_strs. rewrite forM_string_of. unfold all_keys. rewrite <- list_fmap_compose. by rewrite (list_fmap_ext _ id), list_fmap_id. Qed.
Lemma resolve_lits mem (vals : list bytes) : arg_opt mem <$> (ALit <$> vals) = Some <$> vals.
Proof. rewrite <- list_fmap_compose. done. Qed.
End words.

Section abstract.
Context {O T A : Type} `{!Objects O} `{!ObjOf O T} {env : Env} {rt : Runtime} (t : Z) (Hclk : ∀ n, clock n = t).
Context (dl : gmap bytes Z) (R : T → A → Prop).
Implicit Types (db : DB O) (m : gmap bytes (slot A)) (k : bytes).

Definition own (e : entity O) (x : T) : Prop := e = EObj (inj_obj x).
Definition foreign (e : entity O) : Prop := match e with EObj o => prj_obj (T := T) o = None | _ => True end.

Definition slot_ok (s : option (slot A)) (e : option (entity O)) : Prop :=
  match s, e with
  | None, None => True
  | Some Foreign, Some e => foreign e
  | Some (Own a), Some e => ∃ x, own e x ∧ R x a
  | _, _ => False
  end.

(** Deadlines belong to keys that are there. *)
Definition ttl_ok db : Prop := ∀ k d, ttlMap db !! k = Some d → is_Some (data db !! k).

(** The keys of [m] are alive at the time [t], with the deadlines of [dl]. *)
Record sees m db : Prop := {
  sees_wheel : wf (wheel db);
  sees_ttl : ttl_ok db;
  sees_slot : ∀ k, slot_ok (m !! k) (alive t db k);
  sees_deadline : ∀ k, is_Some (m !! k) → ttlMap db !! k = dl !! k
}.

(** The deadlines are those of keys of [m]. *)
Definition dl_of m : Prop := ∀ k, m !! k = None → dl !! k = None.

(** ** Steps that leave the keys alone *)

Lemma sees_same m db db' : data db' = data db → ttlMap db' = ttlMap db → wheel db' = wheel db → sees m db → sees m db'.
Proof.
  intros Hd Ht Hw [W HT HS HD]. split; [by rewrite Hw|unfold ttl_ok; by rewrite Hd, Ht| |by rewrite Ht]. intros k. unfold alive. rewrite Hd, Ht. apply HS.
Qed.
Lemma sees_quietly m db db' : quietly db db' → sees m db → sees m db'.
Proof. intros (?&?&_&_&?). by apply sees_same. Qed.

(** ** Primitives *)

Lemma alive_data k e db : alive t db k = Some e → data db !! k = Some e.
Proof. unfold alive. intros H. by repeat case_match. Qed.

(** The state after a key that is not alive was looked up. *)
Lemma sees_removed m db db' k : sees m db → m !! k = None → data db' = delete k (data db) → ttlMap db' = delete k (ttlMap db) → wf (wheel db') →
  sees m db'.
Proof.
  intros [W HT HS HD] Hk Hd Ht Hw. split; [done| | |].
  - intros k' d. rewrite Hd, Ht. intros [Hne Hd']%lookup_delete_Some. rewrite lookup_delete_ne by done. by eapply HT.
  - intros k'. unfold alive. rewrite Hd, Ht. destruct (decide (k = k')) as [<-|Hne].
    + by rewrite !lookup_delete_eq, Hk.
    + rewrite !lookup_delete_ne by done. apply HS.
  - intros k' Hs. rewrite Ht, lookup_delete_ne; [by apply HD|]. intros ->. rewrite Hk in Hs. by destruct Hs.
Qed.

Lemma GetEntity_sees m db k : sees m db →
  ∃ e db1, GetEntity k db = Ret (e, db1) ∧ e = alive t db1 k ∧ sees m db1 ∧ slot_ok (m !! k) e ∧ (e = None → data db1 !! k = None) ∧
    memory db1 = memory db.
Proof.
  intros S. destruct (GetEntity_spec t Hclk k db) as (db1 & E & M & H). exists (alive t db k), db1. split; [done|].
  pose proof (sees_slot _ _ S k) as Hs. destruct (alive t db k) as [e|] eqn:Ea.
  - destruct H as [Q Hd]. split_and!; try done; [|by eapply sees_quietly]. destruct Q as (Q1 & Q2 & _). unfold alive in *. by rewrite Q1, Q2, Ea.
  - destruct (m !! k) as [[]|] eqn:Hm; [done..|].
    assert (E2 : (data db1 = data db ∧ ttlMap db1 = ttlMap db ∧ wheel db1 = wheel db) ∨
                 (data db1 = delete k (data db) ∧ ttlMap db1 = delete k (ttlMap db) ∧ wf (wheel db1))).
    { unfold GetEntity, IsExpired, Remove in E. rewrite run_gets in E. unfold alive in Ea. destruct (data db !! k) as [e|] eqn:Ed.
      - destruct (ttlMap db !! k) as [d|] eqn:Et; [|done]. destruct (d <? t) eqn:Elt; [|done]. right.
        autorewrite with run in E. rewrite Et in E. autorewrite with run in E. rewrite Hclk in E. unfold time_After in E. rewrite Elt in E.
        autorewrite with run in E. injection E as <-. split; [done|]. split; [done|]. cbn. apply RemoveJob_wf, S.
      - left. injection E as <-. done. }
    assert (S1 : sees m db1) by (destruct E2 as [(?&?&?)|(?&?&?)]; [by eapply sees_same|by eapply sees_removed]).
    split_and!; try done. unfold alive. rewrite H. by repeat case_match.
Qed.

Lemma get_obj_sees m db k : sees m db →
  ∃ r db1, get_obj (T := T) k db = Ret (r, db1) ∧ sees m db1 ∧ memory db1 = memory db ∧
    match m !! k with
    | None => r = inr None ∧ data db1 !! k = None
    | Some Foreign => r = inl RWrongType
    | Some (Own a) => ∃ x, r = inr (Some x) ∧ R x a
    end.
Proof.
  intros S. destruct (GetEntity_sees m db k S) as (e & db1 & E & He & S1 & Hs & Hn & M1). unfold get_obj.
  rewrite (run_step _ _ _ _ _ E), run_mret. eexists _, db1. split; [done|]. split; [done|]. split; [done|].
  destruct (m !! k) as [[a|]|], e as [e|]; cbn in Hs; try done.
  - destruct Hs as (x & Ho & Hx). exists x. rewrite Ho. by rewrite prj_inj.
  - destruct e; try done. cbn in Hs. by rewrite Hs.
  - split; [done|]. by apply Hn.
Qed.

Lemma store_obj_sees m db k a x a' : sees m db → m !! k = Some (Own a) → R x a' →
  ∃ db', store_obj k x db = Ret (tt, db') ∧ sees (<[k := Own a']> m) db' ∧ memory db' = memory db.
Proof.
  intros [W HT HS HD] Hm Hx. eexists. split; [reflexivity|]. split; [|done]. pose proof (HS k) as Hk. rewrite Hm in Hk.
  destruct (alive t db k) as [e|] eqn:Ea; [|done]. split; [done| | |].
  - intros k' d Hd. cbn in *. rewrite lookup_insert_is_Some'. right. by eapply HT.
  - intros k'. unfold alive in *. cbn [data ttlMap set_data]. destruct (decide (k = k')) as [<-|Hne].
    + rewrite !lookup_insert_eq. destruct (ttlMap db !! k) as [d|]; [destruct (d <? t); [done|]|]; cbn; by exists x.
    + rewrite !lookup_insert_ne by done. apply HS.
  - intros k' Hs. cbn [ttlMap set_data]. apply HD. apply lookup_insert_is_Some' in Hs as [<-|]; [by rewrite Hm|done].
Qed.

Lemma put_new_sees m db k x a : sees m db → m !! k = None → dl !! k = None → data db !! k = None → R x a →
  ∃ r db', PutEntity k (EObj (inj_obj x)) db = Ret (r, db') ∧ sees (<[k := Own a]> m) db' ∧ memory db' = memory db.
Proof.
  intros [W HT HS HD] Hm Hk Hd Hx. assert (Hnone : ttlMap db !! k = None).
  { destruct (ttlMap db !! k) as [d|] eqn:Et; [|done]. destruct (HT k d Et) as [? Hs]. by rewrite Hd in Hs. }
  destruct (PutEntity_spec k (EObj (inj_obj x)) db) as (r & db' & E & D & TT & _ & MM & WW).
  exists r, db'. split; [done|]. split; [|done]. split; [by rewrite WW| | |].
  - intros k' d. rewrite D, TT. intros Hd'. rewrite lookup_insert_is_Some'. right. by eapply HT.
  - intros k'. unfold alive. rewrite D, TT. destruct (decide (k = k')) as [<-|Hne].
    + rewrite !lookup_insert_eq, Hnone. cbn. by exists x.
    + rewrite !lookup_insert_ne by done. apply HS.
  - intros k' Hs. rewrite TT. apply lookup_insert_is_Some' in Hs as [<-|]; [by rewrite Hnone|by apply HD].
Qed.

Lemma get_or_init_sees m db k new a0 : sees m db → dl_of m → R new a0 →
  ∃ r db1, get_or_init (T := T) new k db = Ret (r, db1) ∧ memory db1 = memory db ∧
    match m !! k with
    | None => r = inr new ∧ sees (<[k := Own a0]> m) db1
    | Some Foreign => r = inl RWrongType ∧ sees m db1
    | Some (Own a) => ∃ x, r = inr x ∧ R x a ∧ sees m db1
    end.
Proof.
  intros S Hdl Hnew. destruct (get_obj_sees m db k S) as (r & db1 & E & S1 & M1 & H). unfold get_or_init. rewrite (run_step _ _ _ _ _ E).
  destruct (m !! k) as [[a|]|] eqn:Hm.
  - destruct H as (x & -> & Hx). eexists _, db1. rewrite run_mret. split; [done|]. split; [done|]. by exists x.
  - subst r. eexists _, db1. rewrite run_mret. done.
  - destruct H as [-> Hd]. destruct (put_new_sees m db1 k new a0 S1 Hm (Hdl k Hm) Hd Hnew) as (r & db' & E' & S' & M').
    rewrite (run_step _ _ _ _ _ E'). eexists _, db'. rewrite run_mret. split; [done|]. split; [congruence|]. done.
Qed.

Lemma Remove_sees m db k : sees m db → ∃ db', KeySpace.Remove k db = Ret (tt, db') ∧ sees (delete k m) db' ∧ memory db' = memory db.
Proof.
  intros [W HT HS HD]. destruct (key_Remove_spec k db) as (db' & E & D & TT & _ & MM & WW). exists db'. split; [done|]. split; [|done]. split.
  - rewrite WW. by apply RemoveJob_wf.
  - intros k' d. rewrite D, TT. intros [Hne Hd']%lookup_delete_Some. rewrite lookup_delete_ne by done. by eapply HT.
  - intros k'. unfold alive. rewrite D, TT. destruct (decide (k = k')) as [<-|Hne]; [by rewrite !lookup_delete_eq|].
    rewrite !lookup_delete_ne by done. apply HS.
  - intros k' Hs. apply lookup_delete_is_Some in Hs as [Hne Hs]. rewrite TT, lookup_delete_ne by done. by apply HD.
Qed.

Lemma deref_sees m db k a : sees m db → m !! k = Some (Own a) → ∃ x, deref (T := T) k db = Ret (x, db) ∧ R x a.
Proof.
  intros S Hm. pose proof (sees_slot _ _ S k) as Hk. rewrite Hm in Hk. destruct (alive t db k) as [e|] eqn:Ea; [|done].
  destruct Hk as (x & Ho & Hx). rewrite Ho in Ea. exists x. split; [|done]. unfold deref. rewrite run_gets, (alive_data _ _ _ Ea). unfold lift. by rewrite prj_inj.
Qed.

Lemma addAof_sees m db l : sees m db → ∃ db', addAof l db = Ret (tt, db') ∧ sees m db' ∧ memory db' = memory db.
Proof. intros S. eexists. split; [reflexivity|]. split; [|done]. by apply (sees_same m db). Qed.

(** ** Commands *)

(** A command returns, with a reply and a view of the keys that are allowed. *)
Definition gives (h : M O reply) (db : DB O) (out : gmap bytes (slot A) → Reply → Prop) : Prop :=
  ∃ r db' m', h db = Ret (r, db') ∧ sees m' db' ∧ ∀ mem, out m' (resolve mem r).

Lemma gives_ret m db (r : reply) (out : gmap bytes (slot A) → Reply → Prop) : sees m db → (∀ mem, out m (resolve mem r)) → gives (mret r) db out.
Proof. intros S Hr. exists r, db, m. by rewrite run_mret. Qed.
Lemma gives_mono (h : M O reply) db (P Q : gmap bytes (slot A) → Reply → Prop) : gives h db P → (∀ m' (r : Reply), P m' r → Q m' r) → gives h db Q.
Proof. intros (r & db' & m' & E & S & H) HPQ. exists r, db', m'. split; [done|]. split; [done|]. intros mem. by apply HPQ. Qed.
End abstract.

(** Only the deadlines of the keys of the view matter. *)
Lemma sees_deadlines {O T A} `{!Objects O} `{!ObjOf O T} t dl dl' (R : T → A → Prop) m (db : DB O) :
  (∀ k, is_Some (m !! k) → dl !! k = dl' !! k) → sees t dl R m db → sees t dl' R m db.
Proof. intros H [W HT HS HD]. split; try done. intros k Hk. by rewrite <- H, HD. Qed.

(** ** Time *)

(** The values of the keys, and the deadlines of those that have one. *)
Definition snapshot (A : Type) : Type := gmap bytes (slot A) * gmap bytes Z.

Definition due (t : Z) (dl : gmap bytes Z) (k : bytes) : Prop := match dl !! k with Some d => d < t | None => False end.
#[export] Instance due_dec t dl k : Decision (due t dl k).
Proof. unfold due. destruct (dl !! k); apply _. Defined.

(** The view at a later time: the keys whose deadline has passed are gone, and
    so are the deadlines of keys that are not there. *)
Definition advance {A} (t : Z) (v : snapshot A) : snapshot A :=
  let m := filter (λ p, ¬ due t v.2 p.1) v.1 in (m, filter (λ p, is_Some (m !! p.1)) v.2).

Lemma advance_lookup {A} t (v : snapshot A) k : (advance t v).1 !! k = if decide (due t v.2 k) then None else v.1 !! k.
Proof.
  unfold advance. cbn [fst]. rewrite map_lookup_filter. destruct (v.1 !! k) as [x|]; cbn; [|by destruct (decide _)].
  destruct (decide (due t v.2 k)); by case_guard.
Qed.
Lemma advance_deadline {A} t (v : snapshot A) k : is_Some ((advance t v).1 !! k) → (advance t v).2 !! k = v.2 !! k.
Proof. intros Hk. unfold advance in *. cbn [fst snd] in *. rewrite map_lookup_filter. destruct (v.2 !! k); cbn; [|done]. by rewrite option_guard_True. Qed.
Lemma advance_dl_of {A} t (v : snapshot A) : dl_of (advance t v).2 (advance t v).1.
Proof.
  intros k Hk. unfold advance in *. cbn [fst snd] in *. apply map_lookup_filter_None. right. intros d _ [x Hx]. cbn [fst] in Hx. by rewrite Hk in Hx.
Qed.
Lemma advance_sub {A} t (v : snapshot A) k x : (advance t v).1 !! k = Some x → v.1 !! k = Some x.
Proof. rewrite advance_lookup. by destruct (decide _). Qed.

Section later.
Context {O T A : Type} `{!Objects O} `{!ObjOf O T} (R : Z → T → A → Prop).
Hypothesis R_later : ∀ t t' x a, t <= t' → R t x a → R t' x a.

Lemma slot_ok_later t t' s (e : option (entity O)) : t <= t' → slot_ok (R t) s e → slot_ok (R t') s e.
Proof using R_later. intros Ht. destruct s as [[a|]|], e as [e|]; cbn; try done. intros (x & He & Hx). exists x. split; [done|]. by eapply R_later. Qed.

Lemma sees_later t t' v (db : DB O) : t <= t' → sees t v.2 (R t) v.1 db → sees t' (advance t' v).2 (R t') (advance t' v).1 db.
Proof using R_later.
  intros Ht [W HT HS HD]. split; [done|done| |].
  - intros k. rewrite advance_lookup. specialize (HS k). specialize (HD k). destruct (v.1 !! k) as [s|].
    + specialize (HD (mk_is_Some _ _ eq_refl)). unfold alive in *. rewrite HD in *. destruct (decide (due t' v.2 k)) as [Hl|Hl]; unfold due in Hl.
      * destruct (v.2 !! k) as [d|]; [|done]. by rewrite (proj2 (Z.ltb_lt _ _) Hl).
      * destruct (v.2 !! k) as [d|]; [|by eapply slot_ok_later]. destruct (d <? t) eqn:E1; [by destruct s|].
        rewrite (proj2 (Z.ltb_ge _ _)) by lia. by eapply slot_ok_later.
    + assert (Ha : alive t' db k = None).
      { unfold alive in *. destruct (ttlMap db !! k) as [d|]; [|by destruct (data db !! k)]. destruct (d <? t) eqn:E1.
        - by rewrite (proj2 (Z.ltb_lt d t')) by lia.
        - destruct (d <? t'); [done|]. by destruct (data db !! k). }
      rewrite Ha. by destruct (decide _).
  - intros k Hk. rewrite advance_deadline by done. apply HD. destruct Hk as [x Hx]. exists x. by eapply advance_sub.
Qed.
End later.

(** ** Runs *)

Section runs.
Context {O Op A : Type}.

(** Commands with the times they run at, and the replies as they are encoded. *)
Fixpoint timed_run (exec : Z → Op → M O reply) (os : list (Z * Op)) : M O (list Reply) :=
  match os with
  | [] => mret []
  | (t, o) :: os => r ← exec t o; mem ← gets memory; rs ← timed_run exec os; mret (resolve mem r :: rs)
  end.

(** Times never go back. *)
Fixpoint forward_in_time (t : Z) (os : list (Z * Op)) : Prop :=
  match os with [] => True | (t1, _) :: os => t <= t1 ∧ forward_in_time t1 os end.
Fixpoint last_time (t : Z) (os : list (Z * Op)) : Z := match os with [] => t | (t1, _) :: os => last_time t1 os end.

Context (step : Z → gmap bytes (slot A) → Op → gmap bytes (slot A) → Reply → Prop).
(** What a command does to the deadlines of keys that stay. *)
Context (keeps : gmap bytes (slot A) → Op → gmap bytes Z → gmap bytes Z).

(** The specification: before each command, the keys whose deadline has passed
    go. *)
Inductive timed_steps : snapshot A → list (Z * Op) → snapshot A → list Reply → Prop :=
| timed_nil v : timed_steps v [] v []
| timed_cons v t o m r os v' rs :
    step t (advance t v).1 o m r → timed_steps (m, keeps (advance t v).1 o (advance t v).2) os v' rs →
    timed_steps v ((t, o) :: os) v' (r :: rs).

(** A condition on each command and the view it finds. *)
Fixpoint timed_ok (ok : Z → gmap bytes (slot A) → Op → Prop) (v : snapshot A) (os : list (Z * Op)) : Prop :=
  match os with
  | [] => True
  | (t, o) :: os =>
      ok t (advance t v).1 o ∧
      ∀ m r, step t (advance t v).1 o m r → timed_ok ok (m, keeps (advance t v).1 o (advance t v).2) os
  end.

(** A condition on the values that commands and time keep. *)
Lemma timed_ok_inv (I : gmap bytes (slot A) → Prop) (opok : Z * Op → Prop) (ok : Z → gmap bytes (slot A) → Op → Prop) os v :
  (∀ m m', (∀ k x, m' !! k = Some x → m !! k = Some x) → I m → I m') →
  (∀ t m o m' r, I m → opok (t, o) → step t m o m' r → I m') →
  (∀ t m o, I m → opok (t, o) → ok t m o) → I v.1 → Forall opok os → timed_ok ok v os.
Proof.
  intros Hsub Hstep Hok HI Hos. revert v HI. induction Hos as [|[t o] os Ho Hos IH]; intros v HI; [done|]. cbn [timed_ok].
  assert (HI1 : I (advance t v).1) by (eapply Hsub, HI; intros k x; apply advance_sub). split; [by apply Hok|]. intros m r Hs. apply IH. by eapply Hstep.
Qed.

Context {T : Type} `{!Objects O} `{!ObjOf O T} (R : Z → T → A → Prop) (exec : Z → Op → M O reply).
Hypothesis R_later : ∀ t t' x a, t <= t' → R t x a → R t' x a.

(** One command after the other. *)
Lemma timed_run_meets ok os t v (db : DB O) :
  (∀ t m dl o db, ok t m o → dl_of dl m → sees t dl (R t) m db → gives t (keeps m o dl) (R t) (exec t o) db (step t m o)) →
  sees t v.2 (R t) v.1 db → forward_in_time t os → timed_ok ok v os →
  ∃ rs db' v', timed_run exec os db = Ret (rs, db') ∧ timed_steps v os v' rs ∧ sees (last_time t os) v'.2 (R (last_time t os)) v'.1 db'.
Proof using R_later.
  intros Hstep. revert t v db. induction os as [|[t1 o] os IH]; intros t v db HS Hin Hok; [exists [], db, v; split; [done|]; split; [constructor|done]|].
  destruct Hin as [Ht Hin], Hok as [Hok Hoks]. pose proof (sees_later R R_later t t1 v db Ht HS) as S1.
  destruct (Hstep t1 _ _ o db Hok (advance_dl_of t1 v) S1) as (r & db1 & m1 & E & S2 & Hr). specialize (Hr (memory db1)).
  destruct (IH t1 (m1, keeps (advance t1 v).1 o (advance t1 v).2) db1 S2 Hin (Hoks _ _ Hr)) as (rs & db' & v' & E' & HT & S').
  cbn [timed_run]. rewrite (run_step _ _ _ _ _ E), run_gets, (run_step _ _ _ _ _ E'), run_mret. eexists _, db', v'. split; [done|]. split; [by econstructor|done].
Qed.
End runs.

(** Specifications that are functions, of commands that keep the deadlines. *)
Section functions.
Context {Op A : Type} (spec : Z → gmap bytes (slot A) → Op → gmap bytes (slot A) * Reply).

Fixpoint timed_spec (v : snapshot A) (os : list (Z * Op)) : snapshot A * list Reply :=
  match os with
  | [] => (v, [])
  | (t, o) :: os =>
      let '(m, r) := spec t (advance t v).1 o in
      let '(v', rs) := timed_spec (m, (advance t v).2) os in (v', r :: rs)
  end.

Definition steps_of (t : Z) m (o : Op) m' (r : Reply) : Prop := (m', r) = spec t m o.
Definition keeps_all (m : gmap bytes (slot A)) (o : Op) (dl : gmap bytes Z) : gmap bytes Z := dl.

Lemma timed_steps_spec v os v' rs : timed_steps steps_of keeps_all v os v' rs → (v', rs) = timed_spec v os.
Proof.
  induction 1 as [|v t o m r os v' rs Hs _ IH]; [done|]. cbn [timed_spec]. rewrite <- Hs. change (keeps_all _ o ?x) with x in IH. by rewrite <- IH.
Qed.
End functions.
