(* ===== verification/ListThm.v ===== *)
(** * List commands refine operations on lists of strings

    Any sequence of list commands, on any keys, gives the replies of the same
    operations on a map from keys to plain lists, from which the keys go whose
    deadline passes between the commands. *)

From stdpp Require Import base gmap list strings.
From Stdlib Require Import ZArith Lia Ascii.
From S2P Require Import Prelude GoText Listpack QuickList ObjString ObjList Strconv Resp Runtime GoTime TimeWheel KeySpace StringCmd KeyCmd Tx KeySpaceThm TxThm ObjCmd ListCmd ObjCmdThm.

Local Open Scope Z_scope.

(** ** The specification *)

Inductive list_op :=
| OLPush (k : bytes) (vs : list bytes) | ORPush (k : bytes) (vs : list bytes) | OLPushX (k : bytes) (vs : list bytes) | ORPushX (k : bytes) (vs : list bytes)
| OLPop (k : bytes) | ORPop (k : bytes) | OLPopN (k : bytes) (n : Z) | ORPopN (k : bytes) (n : Z)
| OLLen (k : bytes) | OLIndex (k : bytes) (i : Z) | OLRange (k : bytes) (a b : Z) | OLSet (k : bytes) (i : Z) (v : bytes)
| OLRem (k : bytes) (c : Z) (v : bytes) | OLInsert (k : bytes) (before : bool) (pivot v : bytes) | ORPopLPush (src dest : bytes).

Notation lists := (gmap bytes (slot (list bytes))).

(** A key is there only as long as its list has elements. *)
Definition put_list (k : bytes) (bs : list bytes) (m : lists) : lists := match bs with [] => delete k m | _ => <[k := Own bs]> m end.

Definition on_key (m : lists) (k : bytes) (missing : Reply) (f : list bytes → lists * Reply) : lists * Reply :=
  match m !! k with None => (m, missing) | Some Foreign => (m, WrongTypeErrReply) | Some (Own bs) => f bs end.

Definition len_reply (bs : list bytes) : Reply := IntReply (Z.of_nat (length bs)).
Definition err_reply (s : string) : Reply := StandardErrReply (str s).

(** LRANGE: positions from [a] to [b], both included, negative ones counted from
    the end. *)
Definition redis_range {A} (bs : list A) (a b : Z) : list A :=
  let size := Z.of_nat (length bs) in
  let a := Z.max 0 (if a <? 0 then size + a else a) in
  let b := Z.min (if b <? 0 then size + b else b) (size - 1) in
  take (Z.to_nat (b - a + 1)) (drop (Z.to_nat a) bs).

(** LREM: all, the first or the last occurrences. *)
Definition redis_rem (c : Z) (v : bytes) (bs : list bytes) : list bytes :=
  if c =? 0 then List.filter (λ b, negb (bytes_eqb b v)) bs
  else if 0 <? c then QL.remove_n (λ b, bytes_eqb b v) (Z.to_nat c) bs
  else reverse (QL.remove_n (λ b, bytes_eqb b v) (Z.to_nat (- c)) (reverse bs)).

Definition index_of (pivot : bytes) (bs : list bytes) : option nat := fst <$> list_find (λ b, b = pivot) bs.
Definition insert_before (i : nat) (v : bytes) (bs : list bytes) : list bytes := take i bs ++ v :: drop i bs.

Definition list_cmd_spec (m : lists) (o : list_op) : lists * Reply :=
  match o with
  | OLPush k vs => match m !! k with
                   | Some Foreign => (m, WrongTypeErrReply)
                   | Some (Own bs) => (put_list k (reverse vs ++ bs) m, len_reply (reverse vs ++ bs))
                   | None => (put_list k (reverse vs) m, len_reply vs)
                   end
  | ORPush k vs => match m !! k with
                   | Some Foreign => (m, WrongTypeErrReply)
                   | Some (Own bs) => (put_list k (bs ++ vs) m, len_reply (bs ++ vs))
                   | None => (put_list k vs m, len_reply vs)
                   end
  | OLPushX k vs => on_key m k (IntReply 0) (λ bs, (put_list k (reverse vs ++ bs) m, len_reply (reverse vs ++ bs)))
  | ORPushX k vs => on_key m k (IntReply 0) (λ bs, (put_list k (bs ++ vs) m, len_reply (bs ++ vs)))
  | OLPop k => on_key m k NullBulkReply (λ bs, (put_list k (drop 1 bs) m, BulkReply (head bs)))
  | ORPop k => on_key m k NullBulkReply (λ bs, (put_list k (removelast bs) m, BulkReply (last bs)))
  | OLPopN k n => on_key m k NullBulkReply (λ bs, (put_list k (drop (Z.to_nat n) bs) m, MultiBulkReply (Some <$> take (Z.to_nat n) bs)))
  | ORPopN k n => on_key m k NullBulkReply (λ bs,
      (put_list k (take (length bs - Z.to_nat n) bs) m, MultiBulkReply (Some <$> take (Z.to_nat n) (reverse bs))))
  | OLLen k => on_key m k (IntReply 0) (λ bs, (m, len_reply bs))
  | OLIndex k i => on_key m k NullBulkReply (λ bs,
      (m, match list_index i (Z.of_nat (length bs)) with Some i => BulkReply (bs !! Z.to_nat i) | None => NullBulkReply end))
  | OLRange k a b => on_key m k EmptyMultiBulkReply (λ bs,
      (m, if Z.of_nat (length bs) <=? a then EmptyMultiBulkReply else MultiBulkReply (Some <$> redis_range bs a b)))
  | OLSet k i v => on_key m k (err_reply "ERR no such key") (λ bs,
      match list_index i (Z.of_nat (length bs)) with
      | Some i => (put_list k (<[Z.to_nat i := v]> bs) m, OkReply)
      | None => (m, err_reply "ERR index out of range")
      end)
  | OLRem k c v => on_key m k (IntReply 0) (λ bs,
      (put_list k (redis_rem c v bs) m, IntReply (Z.of_nat (length bs) - Z.of_nat (length (redis_rem c v bs)))))
  | OLInsert k before pivot v => on_key m k (IntReply 0) (λ bs,
      match index_of pivot bs with
      | None => (m, IntReply (-1))
      | Some i => let bs' := insert_before (if before then i else S i) v bs in (put_list k bs' m, len_reply bs')
      end)
  | ORPopLPush src dest => on_key m src NullBulkReply (λ bs,
      match m !! dest with
      | Some Foreign => (m, WrongTypeErrReply)
      | d => match last bs with
             | None => (m, NullBulkReply)
             | Some x =>
                 let ds := if decide (src = dest) then removelast bs else match d with Some (Own ds) => ds | _ => [] end in
                 let m1 := <[dest := Own (x :: ds)]> m in
                 (if decide (src = dest) then m1 else put_list src (removelast bs) m1, BulkReply (Some x))
             end
      end)
  end.

(** What a command line gives: at least one value to push, counts and positions
    that fit, values that are no longer than memory. *)
Definition list_op_ok (o : list_op) : Prop :=
  match o with
  | OLPush _ vs | ORPush _ vs | OLPushX _ vs | ORPushX _ vs => vs ≠ [] ∧ Forall small vs
  | OLPopN _ n | ORPopN _ n => 0 <= n <= max_i64
  | OLIndex _ i => i64 i
  | OLRange _ a b => i64 a ∧ i64 b
  | OLSet _ i v => i64 i ∧ small v
  | OLRem _ c _ => - max_i64 <= c <= max_i64
  | OLInsert _ _ _ v => small v
  | _ => True
  end.

Section run.
Context {O : Type} `{!Objects O} `{!ObjOf O List_} {env : Env} {rt : Runtime}.
Context (growslice : Z → nat → Z) (Thresholds : EncodingThresholds).

(** The command that an operation stands for. *)
Definition list_exec (o : list_op) : M O reply :=
  let line (words : list bytes) := ALit <$> words in
  match o with
  | OLPush k vs => execLPush growslice Thresholds (line (k :: vs))
  | ORPush k vs => execRPush growslice Thresholds (line (k :: vs))
  | OLPushX k vs => execLPushX growslice Thresholds (line (k :: vs))
  | ORPushX k vs => execRPushX growslice Thresholds (line (k :: vs))
  | OLPop k => execLPop (line [k])
  | ORPop k => execRPop (line [k])
  | OLPopN k n => execLPop (line [k; Itoa n])
  | ORPopN k n => execRPop (line [k; Itoa n])
  | OLLen k => execLLen (line [k])
  | OLIndex k i => execLIndex (line [k; Itoa i])
  | OLRange k a b => execLRange (line [k; Itoa a; Itoa b])
  | OLSet k i v => execLSet (line [k; Itoa i; v])
  | OLRem k c v => execLRem (line [k; Itoa c; v])
  | OLInsert k before pivot v => execLInsert growslice Thresholds (line [k; str (if before then "before" else "after"); pivot; v])
  | ORPopLPush src dest => execRPopLPush growslice Thresholds (line [src; dest])
  end.
End run.

(** ** Lists *)

Section objects.
Context (growslice : Z → nat → Z) (Th : EncodingThresholds).
Local Abbreviation ok := (list_ok Th).

Lemma push_first_spec vs l bs : ok l bs → Forall small vs → ∃ l', foldM (insert_first growslice Th) vs l = Ret l' ∧ ok l' (reverse vs ++ bs).
Proof.
  revert l bs. induction vs as [|v vs IH]; intros l bs Hl Hs; [by exists l|]. inversion_clear Hs as [|? ? Hv Hvs]. cbn [foldM].
  destruct (Insert_spec growslice Th l bs 0 v Hl Hv) as (l1 & E1 & H1 & _); [lia|]. change (Z.of_nat 0) with 0 in E1.
  change (insert_first growslice Th l v = Ret l1) in E1. rewrite E1. cbn [mbind res_bind]. destruct (IH l1 (QL.insert_at bs 0 v) H1 Hvs) as (l' & E & H). exists l'. split; [done|].
  rewrite reverse_cons, <- app_assoc. done.
Qed.
Lemma push_last_spec vs l bs : ok l bs → Forall small vs → ∃ l', foldM (insert_last growslice Th) vs l = Ret l' ∧ ok l' (bs ++ vs).
Proof.
  revert l bs. induction vs as [|v vs IH]; intros l bs Hl Hs; [exists l; by rewrite app_nil_r|]. inversion_clear Hs as [|? ? Hv Hvs]. cbn [foldM].
  destruct (list_Add_spec growslice Th l bs v Hl Hv) as (l1 & E1 & H1 & _). change (insert_last growslice Th l v = Ret l1) in E1. rewrite E1. cbn [mbind res_bind].
  destruct (IH l1 _ H1 Hvs) as (l' & E & H). exists l'. split; [done|]. by rewrite <- app_assoc in H.
Qed.

Lemma pop_first_spec l b bs : ok l (b :: bs) → ∃ l', pop_first l = Ret (l', VBytes b) ∧ ok l' bs.
Proof. intros Hl. destruct (list_Remove_spec Th l (b :: bs) 0 b Hl eq_refl) as (l' & E & H & _). by exists l'. Qed.
Lemma pop_last_spec l b bs : ok l (bs ++ [b]) → ∃ l', pop_last l = Ret (l', VBytes b) ∧ ok l' bs.
Proof.
  intros Hl. destruct (RemoveLast_spec Th l _ Hl) as (l' & E & H & _). exists l'. rewrite last_snoc in E. rewrite removelast_last in H. done.
Qed.

Lemma pop_n_first n l bs : ok l bs → (n <= length bs)%nat → ∃ l', pop_n pop_first n l = Ret (l', take n bs) ∧ ok l' (drop n bs).
Proof.
  revert l bs. induction n as [|n IH]; intros l bs Hl Hn; [by exists l|]. destruct bs as [|b bs]; [cbn in Hn; lia|]. cbn [pop_n].
  destruct (pop_first_spec l b bs Hl) as (l1 & E1 & H1). rewrite E1. cbn [mbind res_bind val_bytes].
  destruct (IH l1 bs H1) as (l' & E & H); [cbn in Hn; lia|]. rewrite E. by exists l'.
Qed.
Lemma pop_n_last n l bs : ok l bs → (n <= length bs)%nat →
  ∃ l', pop_n pop_last n l = Ret (l', take n (reverse bs)) ∧ ok l' (take (length bs - n) bs).
Proof.
  revert l bs. induction n as [|n IH]; intros l bs Hl Hn; [exists l; by rewrite Nat.sub_0_r, firstn_all|].
  destruct bs as [|b bs _] using rev_ind; [cbn in Hn; lia|]. cbn [pop_n]. rewrite length_app in Hn. cbn in Hn.
  destruct (pop_last_spec l b bs Hl) as (l1 & E1 & H1). rewrite E1. cbn [mbind res_bind val_bytes].
  destruct (IH l1 bs H1) as (l' & E & H); [lia|]. rewrite E. exists l'. rewrite reverse_snoc. cbn [take].
  split; [done|]. rewrite length_app, take_app_le by (cbn; lia). cbn. by replace (length bs + 1 - S n)%nat with (length bs - n)%nat by lia.
Qed.
End objects.

Section commands.
Context {O : Type} `{!Objects O} `{!ObjOf O List_} {env : Env} {rt : Runtime} (t : Z) (Hclk : ∀ n, clock n = t).
Context (dl : gmap bytes Z) (growslice : Z → nat → Z) (Th : EncodingThresholds).
Local Abbreviation sees := (sees (O := O) t dl (list_ok Th)).
Implicit Types (m : lists) (db : DB O).

Definition nonempty m : Prop := ∀ k bs, m !! k = Some (Own bs) → bs ≠ [].

Lemma put_list_own k bs m : bs ≠ [] → put_list k bs m = <[k := Own bs]> m.
Proof. by destruct bs. Qed.

(** A list is stored back under its key. *)
Lemma store_list m db k bs l bs' : sees m db → m !! k = Some (Own bs) → list_ok Th l bs' → bs' ≠ [] →
  ∃ db', store_obj k l db = Ret (tt, db') ∧ sees (put_list k bs' m) db'.
Proof.
  intros S Hm Hl Hne. destruct (store_obj_sees t dl (list_ok Th) m db k bs l bs' S Hm Hl) as (db' & E & S' & _). exists db'.
  by rewrite put_list_own.
Qed.
Lemma store_or_remove_sees m db k bs l bs' : sees m db → m !! k = Some (Own bs) → list_ok Th l bs' →
  ∃ db', store_or_remove k l db = Ret (tt, db') ∧ sees (put_list k bs' m) db'.
Proof.
  intros S Hm Hl. unfold store_or_remove, list_len.
  destruct (store_obj_sees t dl (list_ok Th) m db k bs l bs' S Hm Hl) as (db1 & E1 & S1 & _). rewrite (run_step _ _ _ _ _ E1).
  rewrite (list_Len_spec Th l bs' Hl), run_lift. destruct bs' as [|b bs'].
  - change (Z.of_nat (length []) =? 0) with true. cbn [when]. destruct (Remove_sees t dl (list_ok Th) _ _ k S1) as (db2 & E2 & S2 & _).
    exists db2. split; [done|]. by rewrite delete_insert_eq in S2.
  - exists db1. by rewrite put_list_own.
Qed.

(** What a command does to the lists and replies. *)
Definition does (h : M O reply) (db : DB O) (out : lists * Reply) : Prop :=
  ∃ r db', h db = Ret (r, db') ∧ (∀ mem, resolve mem r = out.2) ∧ sees out.1 db'.

Lemma does_ret m db r out : sees m db → out.1 = m → (∀ mem, resolve mem r = out.2) → does (mret r) db out.
Proof. intros S Hm Hr. exists r, db. rewrite run_mret, Hm. done. Qed.

(** The beginning of a command that needs the list. *)
Lemma does_getAsList m db k missing f none g :
  sees m db →
  (∀ db1, sees m db1 → does none db1 (m, missing)) →
  (∀ db1 bs l, sees m db1 → m !! k = Some (Own bs) → list_ok Th l bs → does (f l) db1 (g bs)) →
  does (r ← getAsList k; match r with inl e => mret e | inr None => none | inr (Some l) => f l end) db (ListThm.on_key m k missing g).
Proof.
  intros S Hn Hf. destruct (get_obj_sees t Hclk dl (list_ok Th) m db k S) as (r & db1 & E & S1 & _ & H). unfold does, getAsList, ListThm.on_key.
  rewrite (run_step _ _ _ _ _ E). destruct (m !! k) as [[bs|]|] eqn:Hm.
  - destruct H as (l & -> & Hl). by apply Hf.
  - subst r. by apply (does_ret m).
  - destruct H as [-> _]. by apply Hn.
Qed.

(** The end of a command that pops: the list is stored, logged and replied. *)
Lemma does_store_or_remove m db k bs l bs' line r out : sees m db → m !! k = Some (Own bs) → list_ok Th l bs' →
  out.1 = put_list k bs' m → (∀ mem, resolve mem r = out.2) →
  does (store_or_remove k l;; addAof line;; mret r) db out.
Proof.
  intros S Hm Hl Ho Hr. destruct (store_or_remove_sees m db k bs l bs' S Hm Hl) as (db1 & E1 & S1). unfold does.
  rewrite (run_step _ _ _ _ _ E1), run_addAof, run_mret. eexists _, _. split; [done|]. split; [done|]. rewrite Ho. by apply (sees_same t dl (list_ok Th) _ db1).
Qed.

Lemma does_LLen k m db : sees m db → does (list_exec growslice Th (OLLen k)) db (list_cmd_spec m (OLLen k)).
Proof.
  intros S. unfold list_exec, execLLen, does. erewrite run_word by reflexivity. apply does_getAsList; [done|intros; by apply (does_ret m)|].
  intros db1 bs l S1 Hm Hl. unfold does, list_len. rewrite (list_Len_spec Th l bs Hl), run_lift. by apply (does_ret m).
Qed.

Lemma does_LPop k m db : nonempty m → sees m db → does (list_exec growslice Th (OLPop k)) db (list_cmd_spec m (OLPop k)).
Proof.
  intros HN S. unfold list_exec, execLPop, pop_with, does. erewrite run_word by reflexivity. apply does_getAsList; [done|intros; by apply (does_ret m)|].
  intros db1 bs l S1 Hm Hl. cbn [fmap list_fmap length Nat.eqb]. destruct bs as [|b bs]; [by apply HN in Hm|].
  destruct (pop_first_spec Th l b bs Hl) as (l' & E & Hl'). unfold does. rewrite run_lift, E. by eapply does_store_or_remove.
Qed.

Lemma does_RPop k m db : nonempty m → sees m db → does (list_exec growslice Th (ORPop k)) db (list_cmd_spec m (ORPop k)).
Proof.
  intros HN S. unfold list_exec, execRPop, pop_with, does. erewrite run_word by reflexivity. apply does_getAsList; [done|intros; by apply (does_ret m)|].
  intros db1 bs l S1 Hm Hl. cbn [fmap list_fmap length Nat.eqb]. pose proof (HN _ _ Hm) as Hne. destruct bs as [|b bs _] using rev_ind; [done|].
  destruct (pop_last_spec Th l b bs Hl) as (l' & E & Hl'). unfold does. rewrite run_lift, E.
  eapply does_store_or_remove; [done..| |]; cbn; [by rewrite removelast_last|by rewrite last_snoc].
Qed.

(** The count of LPOP and RPOP, limited by the length. *)
Lemma pop_count n len : 0 <= n → 0 <= len → 0 <= (if len <? n then len else n) ∧ Z.to_nat (if len <? n then len else n) = Nat.min (Z.to_nat n) (Z.to_nat len).
Proof. intros. destruct (Z.ltb_spec len n); lia. Qed.

Lemma does_LPopN k n m db : 0 <= n <= max_i64 → sees m db → does (list_exec growslice Th (OLPopN k n)) db (list_cmd_spec m (OLPopN k n)).
Proof.
  intros Hn S. unfold list_exec, execLPop, pop_with, does. erewrite run_word by reflexivity. apply does_getAsList; [done|intros; by apply (does_ret m)|].
  intros db1 bs l S1 Hm Hl. change (length (ALit <$> [k; Itoa n]) =? 2)%nat with true. cbv iota. unfold does, list_len.
  erewrite run_word by reflexivity. rewrite ParseInt_Itoa by (unfold i64, min_i64; lia). rewrite (list_Len_spec Th l bs Hl), run_lift.
  destruct (pop_count n (Z.of_nat (length bs))) as [H1 H2]; [lia..|]. rewrite (proj2 (Z.ltb_ge _ _) H1), H2.
  destruct (pop_n_first Th (Z.to_nat n `min` Z.to_nat (Z.of_nat (length bs))) l bs Hl) as (l' & E & Hl'); [lia|]. rewrite run_lift, E.
  rewrite Nat2Z.id in *. eapply does_store_or_remove; [done..| |]; cbn.
  - f_equal. destruct (Nat.min_spec (Z.to_nat n) (length bs)) as [[? ->]|[? ->]]; [done|]. by rewrite !skipn_all2 by lia.
  - intros mem. rewrite resolve_lits. do 2 f_equal. destruct (Nat.min_spec (Z.to_nat n) (length bs)) as [[? ->]|[? ->]]; [done|]. by rewrite !firstn_all2 by lia.
Qed.

Lemma does_RPopN k n m db : 0 <= n <= max_i64 → sees m db → does (list_exec growslice Th (ORPopN k n)) db (list_cmd_spec m (ORPopN k n)).
Proof.
  intros Hn S. unfold list_exec, execRPop, pop_with, does. erewrite run_word by reflexivity. apply does_getAsList; [done|intros; by apply (does_ret m)|].
  intros db1 bs l S1 Hm Hl. change (length (ALit <$> [k; Itoa n]) =? 2)%nat with true. cbv iota. unfold does, list_len.
  erewrite run_word by reflexivity. rewrite ParseInt_Itoa by (unfold i64, min_i64; lia). rewrite (list_Len_spec Th l bs Hl), run_lift.
  destruct (pop_count n (Z.of_nat (length bs))) as [H1 H2]; [lia..|]. rewrite (proj2 (Z.ltb_ge _ _) H1), H2.
  destruct (pop_n_last Th (Z.to_nat n `min` Z.to_nat (Z.of_nat (length bs))) l bs Hl) as (l' & E & Hl'); [lia|]. rewrite run_lift, E.
  rewrite Nat2Z.id in *. eapply does_store_or_remove; [done..| |]; cbn.
  - do 2 f_equal. lia.
  - intros mem. rewrite resolve_lits. do 2 f_equal. destruct (Nat.min_spec (Z.to_nat n) (length bs)) as [[? ->]|[? ->]]; [done|].
    by rewrite !firstn_all2 by (rewrite length_reverse; lia).
Qed.

(** ** Pushing *)

Lemma does_push name push k vs m db bs l bs' : sees m db → m !! k = Some (Own bs) → bs' ≠ [] →
  (∃ l', foldM push vs l = Ret l' ∧ list_ok Th l' bs') →
  does (push_values name push k l (ALit <$> (k :: vs))) db (put_list k bs' m, len_reply bs').
Proof.
  intros S Hm Hne (l' & E & Hl'). unfold push_values, does, list_len. change (drop 1 (ALit <$> (k :: vs))) with (ALit <$> vs).
  rewrite (run_step _ _ _ _ _ (run_words _ _)), run_lift, E.
  destruct (store_list m db k bs l' bs' S Hm Hl' Hne) as (db1 & E1 & S1). rewrite (run_step _ _ _ _ _ E1), run_addAof.
  rewrite (list_Len_spec Th l' bs' Hl'), run_lift, run_mret. eexists _, _. split; [done|]. split; [done|]. by apply (sees_same t dl (list_ok Th) _ db1).
Qed.

Lemma put_list_twice k a bs m : bs ≠ [] → put_list k bs (<[k := a]> m) = put_list k bs m.
Proof. intros Hne. rewrite !put_list_own by done. apply insert_insert_eq. Qed.

Lemma does_getOrInitList m db k name push vs bsf :
  sees m db → dl_of dl m → (∀ bs, bsf bs ≠ []) →
  (∀ l bs, list_ok Th l bs → ∃ l', foldM push vs l = Ret l' ∧ list_ok Th l' (bsf bs)) →
  does (r ← getOrInitList k; match r with inl e => mret e | inr l => push_values name push k l (ALit <$> (k :: vs)) end) db
    (match m !! k with
     | Some Foreign => (m, WrongTypeErrReply)
     | Some (Own bs) => (put_list k (bsf bs) m, len_reply (bsf bs))
     | None => (put_list k (bsf []) m, len_reply (bsf []))
     end).
Proof.
  intros S Hdl Hne Hp. destruct (get_or_init_sees t Hclk dl (list_ok Th) m db k NewList [] S Hdl (list_ok_new Th)) as (r & db1 & E & _ & H).
  unfold does, getOrInitList. rewrite (run_step _ _ _ _ _ E). destruct (m !! k) as [[bs|]|] eqn:Hm.
  - destruct H as (l & -> & Hl & S1). by eapply does_push; [| | |apply Hp].
  - destruct H as [-> S1]. by apply (does_ret m).
  - destruct H as [-> S1]. rewrite <- (put_list_twice k (Own []) (bsf []) m (Hne [])).
    eapply does_push; [done|apply lookup_insert_eq|done|]. apply Hp, list_ok_new.
Qed.

Lemma does_LPush k vs m db : vs ≠ [] → Forall small vs → dl_of dl m → sees m db → does (list_exec growslice Th (OLPush k vs)) db (list_cmd_spec m (OLPush k vs)).
Proof.
  intros Hne Hs Hdl S. unfold list_exec, execLPush, push_with, does. erewrite run_word by reflexivity.
  pose proof (does_getOrInitList m db k "lpush" (insert_first growslice Th) vs (λ bs, reverse vs ++ bs) S Hdl) as H. cbv beta in H. cbn [list_cmd_spec].
  rewrite app_nil_r in H. unfold len_reply in *. rewrite length_reverse in H. apply H.
  - intros bs Hb. apply app_eq_nil in Hb as [Hb _]. apply (f_equal length) in Hb. rewrite length_reverse in Hb. by destruct vs.
  - intros l bs Hl. by apply push_first_spec.
Qed.
Lemma does_RPush k vs m db : vs ≠ [] → Forall small vs → dl_of dl m → sees m db → does (list_exec growslice Th (ORPush k vs)) db (list_cmd_spec m (ORPush k vs)).
Proof.
  intros Hne Hs Hdl S. unfold list_exec, execRPush, push_with, does. erewrite run_word by reflexivity.
  apply (does_getOrInitList m db k "rpush" (insert_last growslice Th) vs (λ bs, bs ++ vs) S Hdl).
  - intros bs Hb. by apply app_eq_nil in Hb as [_ Hb].
  - intros l bs Hl. by apply push_last_spec.
Qed.
Lemma does_LPushX k vs m db : vs ≠ [] → Forall small vs → sees m db → does (list_exec growslice Th (OLPushX k vs)) db (list_cmd_spec m (OLPushX k vs)).
Proof.
  intros Hne Hs S. unfold list_exec, execLPushX, pushx_with, does. erewrite run_word by reflexivity.
  apply does_getAsList; [done|intros; by apply (does_ret m)|]. intros db1 bs l S1 Hm Hl. eapply does_push; [done|done| |by apply push_first_spec].
  intros Hb. apply app_eq_nil in Hb as [Hb _]. apply (f_equal length) in Hb. rewrite length_reverse in Hb. by destruct vs.
Qed.
Lemma does_RPushX k vs m db : vs ≠ [] → Forall small vs → sees m db → does (list_exec growslice Th (ORPushX k vs)) db (list_cmd_spec m (ORPushX k vs)).
Proof.
  intros Hne Hs S. unfold list_exec, execRPushX, pushx_with, does.
  assert (Hlen : (length (ALit <$> (k :: vs)) <? 2)%nat = false) by (apply Nat.ltb_ge; rewrite length_fmap; destruct vs; [done|cbn; lia]).
  rewrite Hlen. erewrite run_word by reflexivity.
  apply does_getAsList; [done|intros; by apply (does_ret m)|]. intros db1 bs l S1 Hm Hl. eapply does_push; [done|done| |by apply push_last_spec].
  intros Hb. by apply app_eq_nil in Hb as [_ Hb].
Qed.

(** ** Positions *)

Lemma list_index_range i size j : 0 <= size → list_index i size = Some j → 0 <= j < size.
Proof.
  intros Hs. unfold list_index. destruct (Z.ltb_spec i (-1 * size)); [done|]. destruct (Z.ltb_spec i 0); [intros [= <-]; lia|].
  destruct (Z.leb_spec size i); [done|]. intros [= <-]. lia.
Qed.

Lemma does_LIndex k i m db : i64 i → sees m db → does (list_exec growslice Th (OLIndex k i)) db (list_cmd_spec m (OLIndex k i)).
Proof.
  intros Hi S. unfold list_exec, execLIndex, does. do 2 erewrite run_word by reflexivity. rewrite ParseInt_Itoa by done.
  apply does_getAsList; [done|intros; by apply (does_ret m)|]. intros db1 bs l S1 Hm Hl. unfold does, list_len.
  rewrite (list_Len_spec Th l bs Hl), run_lift. destruct (list_index i (Z.of_nat (length bs))) as [j|] eqn:Ej; [|by apply (does_ret m)].
  apply list_index_range in Ej; [|lia]. rewrite (list_Get_spec Th l bs j Hl), run_lift, (proj2 (Z.leb_le 0 j)) by lia.
  destruct (lookup_lt_is_Some_2 bs (Z.to_nat j)) as [b ->]; [lia|]. by apply (does_ret m).
Qed.

Lemma lrange_bounds_spec {A} a b (bs : list A) : bs ≠ [] →
  match lrange_bounds a b (Z.of_nat (length bs)) with
  | None => Z.of_nat (length bs) <= a
  | Some (start, stop) => a < Z.of_nat (length bs) ∧ 0 <= start < Z.of_nat (length bs) ∧ start <= stop <= Z.of_nat (length bs) ∧
      take (Z.to_nat (stop - start)) (drop (Z.to_nat start) bs) = redis_range bs a b
  end.
Proof.
  intros Hne. assert (Hs : 0 < Z.of_nat (length bs)) by (destruct bs; [done|cbn; lia]). unfold lrange_bounds, redis_range. set (size := Z.of_nat (length bs)) in *.
  set (st := if a <? -1 * size then Some 0 else _). assert (Hst : match st with None => size <= a | Some s => a < size ∧ s = Z.max 0 (if a <? 0 then size + a else a) ∧ 0 <= s < size end).
  { unfold st. destruct (Z.ltb_spec a (-1 * size)), (Z.ltb_spec a 0); try lia. destruct (Z.leb_spec size a); lia. }
  destruct st as [s|]; [|done]. destruct Hst as (Ha & Es & Hr). rewrite <- Es. split; [done|]. split; [done|].
  set (e := if b <? -1 * size then 0 else if b <? 0 then size + b + 1 else if b <? size then b + 1 else size).
  assert (He : 0 <= e <= size ∧ (Z.to_nat (e - s) = Z.to_nat (Z.min (if b <? 0 then size + b else b) (size - 1) - s + 1))).
  { unfold e. destruct (Z.ltb_spec b (-1 * size)), (Z.ltb_spec b 0); try lia. destruct (Z.ltb_spec b size); lia. }
  destruct He as [He1 He2]. destruct (Z.ltb_spec e s); (split; [lia|]); rewrite <- He2.
  - rewrite Z.sub_diag. by replace (Z.to_nat (e - s)) with 0%nat by lia.
  - done.
Qed.

Lemma does_LRange k a b m db : i64 a → i64 b → nonempty m → sees m db →
  does (list_exec growslice Th (OLRange k a b)) db (list_cmd_spec m (OLRange k a b)).
Proof.
  intros Ha Hb HN S. unfold list_exec, execLRange, does. erewrite run_word by reflexivity. erewrite run_word by reflexivity. rewrite ParseInt_Itoa by done.
  erewrite run_word by reflexivity. rewrite ParseInt_Itoa by done.
  apply does_getAsList; [done|intros; by apply (does_ret m)|]. intros db1 bs l S1 Hm Hl. unfold does, list_len.
  rewrite (list_Len_spec Th l bs Hl), run_lift. pose proof (lrange_bounds_spec a b bs (HN _ _ Hm)) as HB.
  destruct (lrange_bounds a b (Z.of_nat (length bs))) as [[start stop]|].
  - destruct HB as (Hlt & H1 & H2 & H3). rewrite (proj2 (Z.leb_gt _ _) Hlt). rewrite (Range_spec Th l bs start stop Hl H1 H2), run_lift, H3.
    apply (does_ret m); [done|done|]. intros mem. cbn. f_equal. rewrite <- !list_fmap_compose. done.
  - rewrite (proj2 (Z.leb_le _ _) HB). by apply (does_ret m).
Qed.

Lemma does_store m db k bs l bs' line r out : sees m db → m !! k = Some (Own bs) → list_ok Th l bs' → bs' ≠ [] →
  out.1 = put_list k bs' m → (∀ mem, resolve mem r = out.2) → does (store_obj k l;; addAof line;; mret r) db out.
Proof.
  intros S Hm Hl Hne Ho Hr. destruct (store_list m db k bs l bs' S Hm Hl Hne) as (db1 & E1 & S1). unfold does.
  rewrite (run_step _ _ _ _ _ E1), run_addAof, run_mret. eexists _, _. split; [done|]. split; [done|]. rewrite Ho. by apply (sees_same t dl (list_ok Th) _ db1).
Qed.

Lemma does_LSet k i v m db : i64 i → small v → sees m db → does (list_exec growslice Th (OLSet k i v)) db (list_cmd_spec m (OLSet k i v)).
Proof.
  intros Hi Hv S. unfold list_exec, execLSet, does. do 2 erewrite run_word by reflexivity. rewrite ParseInt_Itoa by done. erewrite run_word by reflexivity.
  apply does_getAsList; [done|intros; by apply (does_ret m)|]. intros db1 bs l S1 Hm Hl. unfold does, list_len.
  rewrite (list_Len_spec Th l bs Hl), run_lift. destruct (list_index i (Z.of_nat (length bs))) as [j|] eqn:Ej; [|by apply (does_ret m)].
  apply list_index_range in Ej; [|lia]. destruct (Set_spec Th l bs (Z.to_nat j) v Hl Hv) as (l' & E & Hl' & _); [lia|].
  rewrite Z2Nat.id in E by lia. rewrite run_lift, E. eapply does_store; [done..| |done|done].
  intros Hb. apply (f_equal length) in Hb. rewrite length_insert in Hb. cbn in Hb. lia.
Qed.

Lemma does_LRem k c v m db : - max_i64 <= c <= max_i64 → nonempty m → sees m db → does (list_exec growslice Th (OLRem k c v)) db (list_cmd_spec m (OLRem k c v)).
Proof.
  intros Hc HN S. unfold list_exec, execLRem, does. do 2 erewrite run_word by reflexivity. rewrite ParseInt_Itoa by (unfold i64, min_i64, max_i64 in *; lia).
  erewrite run_word by reflexivity. apply does_getAsList; [done|intros; by apply (does_ret m)|]. intros db1 bs l S1 Hm Hl.
  assert (HR : ∃ l', (if c =? 0 then ObjList.RemoveAllByVal l (λ x, Equals x v)
                      else if 0 <? c then ObjList.RemoveByVal l (λ x, Equals x v) c
                      else ObjList.ReverseRemoveByVal l (λ x, Equals x v) (wrap64 (- c))) =
                     Ret (l', Z.of_nat (length bs) - Z.of_nat (length (redis_rem c v bs))) ∧ list_ok Th l' (redis_rem c v bs)).
  { unfold redis_rem. destruct (Z.eqb_spec c 0); [|destruct (Z.ltb_spec 0 c)].
    - destruct (RemoveAllByVal_spec Th l bs (λ x, Equals x v) Hl (HN _ _ Hm)) as (l' & E & H & _). by exists l'.
    - destruct (RemoveByVal_spec Th l bs (λ x, Equals x v) c Hl) as (l' & E & H1 & _); [done|]. by exists l'.
    - rewrite wrap64_id by (unfold i64, min_i64, max_i64 in *; lia).
      destruct (ReverseRemoveByVal_spec Th l bs (λ x, Equals x v) (- c) Hl) as (l' & E & H' & _); [lia|]. by exists l'. }
  destruct HR as (l' & E & Hl'). unfold does. rewrite run_lift, E.
  destruct (store_or_remove_sees m db1 k bs l' _ S1 Hm Hl') as (db2 & E2 & S2). rewrite (run_step _ _ _ _ _ E2), run_when.
  destruct (0 <? Z.of_nat (length bs) - _); [rewrite run_addAof|]; rewrite run_mret; eexists _, _; (split; [done|]); (split; [done|]); [by apply (sees_same t dl (list_ok Th) _ db2)|done].
Qed.

Lemma each_find_pivot pivot bs i st :
  QL.each (find_pivot pivot) i (VBytes <$> bs) st = match index_of pivot bs with Some j => Ret (i + Z.of_nat j) | None => st end.
Proof.
  revert i. induction bs as [|b bs IH]; intros i; [done|]. cbn [fmap list_fmap QL.each find_pivot val_bytes]. unfold index_of. cbn [list_find].
  unfold bytes_eqb. destruct (decide (b = pivot)) as [->|Hne].
  - rewrite bool_decide_true by done. cbn. by rewrite Z.add_0_r.
  - rewrite bool_decide_false by done. rewrite IH. unfold index_of. destruct (list_find _ bs) as [[j x]|]; [|done]. cbn. f_equal. lia.
Qed.

Lemma does_LInsert k before pivot v m db : ascii_lowers → small v → sees m db →
  does (list_exec growslice Th (OLInsert k before pivot v)) db (list_cmd_spec m (OLInsert k before pivot v)).
Proof.
  intros Hlow Hv HS. unfold list_exec, execLInsert, does. change (negb (length (ALit <$> [k; str (if before then "before" else "after"); pivot; v]) =? 4)%nat) with false.
  cbv iota. erewrite run_word by reflexivity. apply does_getAsList; [done|intros; by apply (does_ret m)|]. intros db1 bs l S1 Hm Hl. unfold does, list_len.
  erewrite run_word by reflexivity. rewrite Hlow by (by destruct before).
  assert (Hd : map ascii_lower (str (if before then "before" else "after")) = str (if before then "before" else "after")) by (by destruct before).
  rewrite Hd. assert (Hif : negb (bytes_eqb (str (if before then "before" else "after")) (str "before")) && negb (bytes_eqb (str (if before then "before" else "after")) (str "after")) = false) by (by destruct before).
  rewrite Hif. erewrite run_word by reflexivity. rewrite (ForEach_spec Th l bs _ _ Hl), run_lift, each_find_pivot.
  destruct (index_of pivot bs) as [j|] eqn:Ej; [|rewrite run_lift; by apply (does_ret m)]. rewrite run_lift, Z.add_0_l.
  rewrite (proj2 (Z.eqb_neq (Z.of_nat j) (-1))) by lia. erewrite run_word by reflexivity.
  assert (Hj : (j < length bs)%nat).
  { unfold index_of in Ej. destruct (list_find _ bs) as [[j' x]|] eqn:Ef; [|done]. injection Ej as <-. apply list_find_Some in Ef as [Hx _]. by eapply lookup_lt_Some. }
  set (i := if before then j else S j).
  assert (Hi : (if bytes_eqb (str (if before then "before" else "after")) (str "before") then Z.of_nat j else Z.of_nat j + 1) = Z.of_nat i).
  { unfold i. destruct before; [done|]. change (bytes_eqb (str "after") (str "before")) with false. lia. }
  rewrite Hi. destruct (Insert_spec growslice Th l bs i v Hl Hv) as (l' & E & Hl' & _); [unfold i; destruct before; lia|].
  rewrite run_lift, E. change (QL.insert_at bs i v) with (insert_before i v bs) in Hl'.
  assert (Hne : insert_before i v bs ≠ []) by (unfold insert_before; by destruct (take i bs)).
  destruct (store_list m db1 k bs l' _ S1 Hm Hl' Hne) as (db2 & E2 & S2). rewrite (run_step _ _ _ _ _ E2), run_addAof.
  rewrite (list_Len_spec Th l' _ Hl'), run_lift, run_mret. eexists _, _. split; [done|]. split; [done|]. by apply (sees_same t dl (list_ok Th) _ db2).
Qed.

(** ** RPOPLPUSH *)

(** The part after both lists have been fetched; [m0] has the new list already. *)
Lemma rpoplpush_run m0 db src dest bs0 x ds line : sees m0 db → m0 !! src = Some (Own (bs0 ++ [x])) → m0 !! dest = Some (Own ds) → small x →
  does (l ← deref src; '(l, raw) ← lift (pop_last l); store_obj src l;; d ← deref dest;
        d ← lift (ObjList.Insert growslice Th d 0 (match raw with VBytes b => VBytes b | _ => VBytes [] end)); store_obj dest d;;
        l ← deref src; n ← list_len l; when (n =? 0) (KeySpace.Remove src);; addAof line;; mret (RBulk (val_arg raw))) db
    (if decide (src = dest) then <[dest := Own (x :: bs0)]> m0 else put_list src bs0 (<[dest := Own (x :: ds)]> m0), BulkReply (Some x)).
Proof.
  intros HS Hsrc Hdest Hx. unfold does. destruct (deref_sees t dl (list_ok Th) m0 db src _ HS Hsrc) as (l & E1 & Hl). rewrite (run_step _ _ _ _ _ E1).
  destruct (pop_last_spec Th l x bs0 Hl) as (l' & E2 & Hl'). rewrite run_lift, E2.
  destruct (store_obj_sees t dl (list_ok Th) m0 db src _ l' bs0 HS Hsrc Hl') as (db1 & E3 & S1 & _). rewrite (run_step _ _ _ _ _ E3).
  set (m1 := <[src := Own bs0]> m0) in *. set (ds' := if decide (src = dest) then bs0 else ds).
  assert (Hd1 : m1 !! dest = Some (Own ds')).
  { unfold m1, ds'. destruct (decide (src = dest)) as [->|Hne]; [apply lookup_insert_eq|by rewrite lookup_insert_ne]. }
  destruct (deref_sees t dl (list_ok Th) m1 db1 dest _ S1 Hd1) as (d & E4 & Hd). rewrite (run_step _ _ _ _ _ E4).
  destruct (Insert_spec growslice Th d ds' 0 x Hd Hx) as (d' & E5 & Hd' & _); [lia|]. change (Z.of_nat 0) with 0 in E5. rewrite run_lift, E5.
  change (QL.insert_at ds' 0 x) with (x :: ds') in Hd'.
  destruct (store_obj_sees t dl (list_ok Th) m1 db1 dest _ d' _ S1 Hd1 Hd') as (db2 & E6 & S2 & _). rewrite (run_step _ _ _ _ _ E6).
  set (m2 := <[dest := Own (x :: ds')]> m1) in *. set (bs2 := if decide (src = dest) then x :: bs0 else bs0).
  assert (Hs2 : m2 !! src = Some (Own bs2)).
  { unfold m2, m1, bs2, ds'. destruct (decide (src = dest)) as [->|Hne]; [apply lookup_insert_eq|]. by rewrite lookup_insert_ne, lookup_insert_eq. }
  destruct (deref_sees t dl (list_ok Th) m2 db2 src _ S2 Hs2) as (l2 & E7 & Hl2). rewrite (run_step _ _ _ _ _ E7). unfold list_len.
  rewrite (list_Len_spec Th l2 bs2 Hl2), run_lift, run_when.
  assert (HF : ∃ db3, (if Z.of_nat (length bs2) =? 0 then (KeySpace.Remove src ≫= λ _, addAof line ≫= λ _, mret (RBulk (val_arg (VBytes x)))) db2
                       else (addAof line ≫= λ _, mret (RBulk (val_arg (VBytes x)))) db2) = Ret (RBulk (val_arg (VBytes x)), db3) ∧ sees (put_list src bs2 m2) db3).
  { destruct bs2 as [|b2 bs2'] eqn:Eb.
    - change (Z.of_nat (length []) =? 0) with true. cbv iota. destruct (Remove_sees t dl (list_ok Th) m2 db2 src S2) as (db3 & E8 & S3 & _).
      rewrite (run_step _ _ _ _ _ E8), run_addAof, run_mret. eexists. split; [done|]. by apply (sees_same t dl (list_ok Th) _ db3).
    - rewrite (proj2 (Z.eqb_neq _ _)) by (cbn; lia). rewrite run_addAof, run_mret. eexists. split; [done|]. apply (sees_same t dl (list_ok Th) _ db2); [done..|].
      rewrite put_list_own, insert_id by done. done. }
  destruct HF as (db3 & E8 & S3). eexists _, db3. split; [exact E8|]. split; [done|]. cbn [fst].
  assert (Em : put_list src bs2 m2 = if decide (src = dest) then <[dest := Own (x :: bs0)]> m0 else put_list src bs0 (<[dest := Own (x :: ds)]> m0)).
  { unfold m2, m1, bs2, ds'. destruct (decide (src = dest)) as [->|Hne].
    - rewrite put_list_own, !insert_insert_eq by done. done.
    - apply map_eq. intros k. destruct bs0 as [|b bs0]; cbn [put_list]; (destruct (decide (k = src)) as [->|]; [by simplify_map_eq|]);
        (destruct (decide (k = dest)) as [->|]; by simplify_map_eq). }
  by rewrite <- Em.
Qed.

Lemma does_RPopLPush src dest m db : nonempty m → (∀ k bs, m !! k = Some (Own bs) → Forall small bs) → dl_of dl m → sees m db →
  does (list_exec growslice Th (ORPopLPush src dest)) db (list_cmd_spec m (ORPopLPush src dest)).
Proof.
  intros HN HB Hdl HS. unfold list_exec, execRPopLPush, does. do 2 erewrite run_word by reflexivity. cbn [list_cmd_spec].
  apply does_getAsList; [done|intros; by apply (does_ret m)|]. intros db1 bs l S1 Hm Hl.
  pose proof (HN _ _ Hm) as Hne. pose proof (HB _ _ Hm) as Hsm. destruct bs as [|x bs0 _] using rev_ind; [done|].
  rewrite last_snoc, removelast_last. apply Forall_app in Hsm as [_ Hx]. inversion_clear Hx as [|? ? Hx' _].
  destruct (get_or_init_sees t Hclk dl (list_ok Th) m db1 dest NewList [] S1 Hdl (list_ok_new Th)) as (r & db2 & E & _ & H).
  unfold does, getOrInitList. rewrite (run_step _ _ _ _ _ E). destruct (m !! dest) as [[ds|]|] eqn:Hd.
  - destruct H as (d & -> & Hd' & S2). pose proof (rpoplpush_run m db2 src dest bs0 x ds (ToCmdLine3 "rpoplpush" (ALit <$> [src; dest])) S2 Hm Hd Hx') as HR.
    by destruct (decide (src = dest)).
  - destruct H as [-> S2]. by apply (does_ret m).
  - destruct H as [-> S2]. assert (Hne' : src ≠ dest) by (intros ->; congruence).
    pose proof (rpoplpush_run (<[dest := Own []]> m) db2 src dest bs0 x [] (ToCmdLine3 "rpoplpush" (ALit <$> [src; dest])) S2) as HR.
    rewrite lookup_insert_ne, lookup_insert_eq in HR by done. specialize (HR Hm eq_refl Hx').
    destruct (decide (src = dest)) as [Heq|_]; [done|]. rewrite insert_insert_eq in HR. exact HR.
Qed.

(** ** Sequences of commands *)

Definition good m : Prop := ∀ k bs, m !! k = Some (Own bs) → bs ≠ [] ∧ Forall small bs.

Lemma good_put m k bs : good m → Forall small bs → good (put_list k bs m).
Proof.
  intros HG Hb k' bs'. destruct bs as [|b bs]; cbn [put_list].
  - intros [_ H]%lookup_delete_Some. by eapply HG.
  - intros [[_ [= <-]]|[_ H]]%lookup_insert_Some; [done|]. by eapply HG.
Qed.
Lemma good_on_key m k r f : good m → (∀ bs, m !! k = Some (Own bs) → Forall small bs → good (f bs).1) → good (ListThm.on_key m k r f).1.
Proof. intros HG Hf. unfold ListThm.on_key. destruct (m !! k) as [[bs|]|] eqn:E; [|done..]. apply Hf; [done|]. by eapply HG. Qed.

Lemma Forall_remove_n {A} (P : A → Prop) f n (l : list A) : Forall P l → Forall P (QL.remove_n f n l).
Proof.
  intros H. revert n. induction H as [|x l Hx Hl IH]; intros [|n]; cbn [QL.remove_n]; [constructor..|by constructor|]. destruct (f x); [done|].
  constructor; [done|]. apply (IH (S n)).
Qed.
Lemma Forall_removelast {A} (P : A → Prop) (l : list A) : Forall P l → Forall P (removelast l).
Proof. intros H. destruct l as [|x l _] using rev_ind; [done|]. rewrite removelast_last. by apply Forall_app in H as [H _]. Qed.
Lemma Forall_filter_bool {A} (P : A → Prop) f (l : list A) : Forall P l → Forall P (List.filter f l).
Proof. intros H. induction H as [|x l Hx Hl IH]; cbn; [done|]. destruct (f x); [by constructor|done]. Qed.

Lemma good_spec m o : good m → list_op_ok o → good (list_cmd_spec m o).1.
Proof.
  intros HG Ho. destruct o as [k vs|k vs|k vs|k vs|k|k|k n|k n|k|k i|k a b|k i v|k c v|k before pivot v|src dest]; cbn [list_cmd_spec list_op_ok] in *.
  - destruct Ho as [_ Ho]. destruct (m !! k) as [[bs|]|] eqn:E; [|done|]; apply good_put; try done; rewrite ?Forall_app, Forall_reverse; [|done].
    split; [done|]. by eapply HG.
  - destruct Ho as [_ Ho]. destruct (m !! k) as [[bs|]|] eqn:E; [|done|]; apply good_put; try done. apply Forall_app. split; [by eapply HG|done].
  - apply good_on_key; [done|]. intros bs Hm Hb. apply good_put; [done|]. destruct Ho as [_ Ho]. by rewrite Forall_app, Forall_reverse.
  - apply good_on_key; [done|]. intros bs Hm Hb. apply good_put; [done|]. destruct Ho as [_ Ho]. by rewrite Forall_app.
  - apply good_on_key; [done|]. intros bs Hm Hb. apply good_put; [done|]. by apply Forall_drop.
  - apply good_on_key; [done|]. intros bs Hm Hb. apply good_put; [done|]. by apply Forall_removelast.
  - apply good_on_key; [done|]. intros bs Hm Hb. apply good_put; [done|]. by apply Forall_drop.
  - apply good_on_key; [done|]. intros bs Hm Hb. apply good_put; [done|]. by apply Forall_take.
  - by apply good_on_key.
  - by apply good_on_key.
  - by apply good_on_key.
  - apply good_on_key; [done|]. intros bs Hm Hb. destruct Ho as [_ Ho]. destruct (list_index i _); cbn [fst]; [|done]. apply good_put; [done|]. by apply Forall_insert.
  - apply good_on_key; [done|]. intros bs Hm Hb. apply good_put; [done|]. unfold redis_rem. destruct (c =? 0); [by apply Forall_filter_bool|]. destruct (0 <? c); [by apply Forall_remove_n|].
    rewrite Forall_reverse. apply Forall_remove_n. by rewrite Forall_reverse.
  - apply good_on_key; [done|]. intros bs Hm Hb. destruct (index_of pivot bs) as [i|]; cbn [fst]; [|done]. apply good_put; [done|]. unfold insert_before. apply Forall_app.
    split; [by apply Forall_take|]. constructor; [done|]. by apply Forall_drop.
  - apply good_on_key; [done|]. intros bs Hm Hb. destruct bs as [|x bs _] using rev_ind; [by destruct (m !! dest) as [[]|]|]. rewrite last_snoc, removelast_last. apply Forall_app in Hb as [Hb Hx].
    inversion_clear Hx as [|? ? Hx' _].
    assert (HP : ∀ ds, Forall small ds → good (<[dest := Own (x :: ds)]> m)) by (intros ds Hds; apply (good_put m dest (x :: ds) HG); by constructor).
    destruct (m !! dest) as [[ds|]|] eqn:Ed; [|done|]; cbn [fst]; destruct (decide (src = dest)); try (apply good_put; [|done]); apply HP; try done.
    by eapply HG.
Qed.

Lemma does_list_op o m db : ascii_lowers → good m → list_op_ok o → dl_of dl m → sees m db → does (list_exec growslice Th o) db (list_cmd_spec m o).
Proof.
  intros Hlow HG Ho Hdl HS. assert (HN : nonempty m) by (intros k bs Hm; by eapply HG). destruct o; cbn [list_op_ok] in Ho.
  - destruct Ho. by apply does_LPush. - destruct Ho. by apply does_RPush. - destruct Ho. by apply does_LPushX. - destruct Ho. by apply does_RPushX. - by apply does_LPop. - by apply does_RPop.
  - by apply does_LPopN. - by apply does_RPopN. - by apply does_LLen. - by apply does_LIndex. - destruct Ho. by apply does_LRange. - destruct Ho. by apply does_LSet.
  - by apply does_LRem. - by apply does_LInsert. - apply does_RPopLPush; [done| |done|done]. intros k bs Hm. by eapply HG.
Qed.
End commands.

Section sequences.
Context {O : Type} `{!Objects O} `{!ObjOf O List_} {env : Env} {rt : Runtime} (growslice : Z → nat → Z) (Th : EncodingThresholds).

(** A command that runs at a time. *)
Definition list_exec_at (t : Z) (o : list_op) : M O reply := list_exec (env := at_time t env) growslice Th o.
Definition list_spec_at (t : Z) : lists → list_op → lists * Reply := list_cmd_spec.

End sequences.

(** ** Concrete runs *)

#[local] Existing Instance ex_runtime.
#[local] Instance just_lists : Objects List_ := {| obj_type := λ _, TypeList; obj_elems := λ _, [] |}.
#[local] Instance list_of_list : ObjOf List_ List_.
Proof. refine {| inj_obj := λ x, x; prj_obj := λ x, Some x |}; [done|]. by intros o x [= ->]. Defined.
#[local] Instance still : Env :=
  {| clock := λ _, 0; draw := λ _ _, false; MaxmemoryPolicy := []; ParseIntError := λ _, []; ValueDigest := λ b, b |}.

Definition no_lists : DB List_ := MkDB 0 ∅ ∅ ∅ ∅ (MkTimeWheel Second [[]; []; []; []] ∅ 0 4 0) [] [] [] 0 0.
Definition ex_growth (old : Z) (_ : nat) : Z := 2 * old + 8.
(** Lists of more than two elements are quicklists. *)
Definition ex_thresholds : EncodingThresholds := MkThresholds 128 64 512 128 64 128 64 2.

(** The key [e] holds one element and has a deadline, at the time 5. *)
Definition one_elem : List_ := match foldM (insert_last ex_growth ex_thresholds) [str "u"] NewList with Ret l => l | _ => NewList end.
Definition dated_lists : DB List_ := set_ttl (set_data no_lists {[str "e" := EObj one_elem]}) {[str "e" := 5]}.
Definition dated_list_view : snapshot (list bytes) := ({[str "e" := Own [str "u"]]}, {[str "e" := 5]}).

Lemma dated_lists_seen : sees (T := List_) 0 dated_list_view.2 (list_ok ex_thresholds) dated_list_view.1 dated_lists.
Proof.
  split; [by apply (New_wf Second 4)| | |].
  - intros k d. cbn [ttlMap data dated_lists set_ttl set_data]. intros [<- _]%lookup_singleton_Some. by rewrite lookup_singleton_eq.
  - intros k. unfold alive. cbn [dated_list_view fst ttlMap data dated_lists set_ttl set_data]. destruct (decide (k = str "e")) as [->|Hne].
    + rewrite !lookup_singleton_eq. exists one_elem. split; [done|].
      destruct (push_last_spec ex_growth ex_thresholds [str "u"] NewList [] (list_ok_new _)) as (l & E & H); [repeat constructor; unfold small; cbn; lia|].
      unfold one_elem. by rewrite E.
    + by rewrite !lookup_singleton_ne by done.
  - intros k _. done.
Qed.

Definition list_ops : list (Z * list_op) :=
  [(0, ORPush (str "a") [str "x"; str "y"; str "x"]); (1, OLPush (str "a") [str "z"]); (2, OLRange (str "a") 0 (-1)); (3, OLInsert (str "a") true (str "y") (str "w"));
   (4, OLRem (str "a") (-1) (str "x")); (5, ORPopLPush (str "a") (str "e")); (5, OLLen (str "e")); (6, OLLen (str "e")); (6, ORPush (str "e") [str "v"]); (9, OLLen (str "e"));
   (9, ORPopLPush (str "a") (str "b")); (9, OLIndex (str "a") 7); (9, OLPopN (str "a") 9); (9, OLLen (str "a")); (9, OLSet (str "a") 0 (str "q"))].


(** LTRIM leaves the key of a list that it has emptied, and LPOP of an empty
    quicklist panics. *)
Theorem ltrim_leaves_empty_list :
  (r ← execRPush ex_growth ex_thresholds (ALit <$> [str "a"; str "x"; str "y"; str "z"]); r ← execLTrim (ALit <$> [str "a"; str "5"; str "9"]);
   execExists [ALit (str "a")]) no_lists ≫= (λ '(r, _), Ret (resolve [] r)) = Ret (IntReply 1) ∧
  (r ← execRPush ex_growth ex_thresholds (ALit <$> [str "a"; str "x"; str "y"; str "z"]); r ← execLTrim (ALit <$> [str "a"; str "5"; str "9"]);
   execLPop [ALit (str "a")]) no_lists ≫= (λ '(r, _), Ret (resolve [] r)) = Panic.
Proof. split; by vm_compute. Qed.

(** A negative count is handed to [make]. *)
Theorem lpop_negative_count_panics :
  (r ← execRPush ex_growth ex_thresholds (ALit <$> [str "a"; str "x"]); execLPop (ALit <$> [str "a"; str "-1"])) no_lists = Panic.
Proof. by vm_compute. Qed.
