(* ===== verification/SetCmd.v ===== *)
(** * Set commands: [internal/command/set.go], with the undo logs of sets in
    [tx_utils.go]

    A key may hold a set object behind an object header, or a plain set of
    [datastruct/set], which is what loading a dump creates.  A handler that
    finds a plain set works on a converted copy: only a set that is behind a
    header, or gets behind it, is changed in the key space. *)

From stdpp Require Import base gmap list strings.
From Stdlib Require Import ZArith Lia Ascii.
From S2P Require Import Prelude GoText Dict ObjString ObjSet Strconv Resp Runtime GoTime TimeWheel KeySpace StringCmd KeyCmd Tx ObjCmd ListCmd.

Local Open Scope Z_scope.

(** ** Data *)

(** [HashSet.Set] *)
Record HashSet {D : Type} := MkHashSet { hdict : D }.
Arguments HashSet : clear implicits.
Arguments MkHashSet {D}.

(** What a header of type set points to, and what a key holds. *)
Inductive set_ptr (D : Type) := PSet (s : Set_ D) | PLegacy (h : HashSet D).
Arguments PSet {D} s.
Arguments PLegacy {D} h.
Inductive set_obj (D : Type) := SetRobj (enc : Encoding) (p : set_ptr D) | PlainSet (h : HashSet D).
Arguments SetRobj {D} enc p.
Arguments PlainSet {D} h.

(** The choices of the runtime, by the number of the choice: the orders in which
    dicts and maps to integers are traversed, and the seed of [simpleRand], which
    all databases share; and the compiler of patterns. *)
Class Choices (D : Type) := {
  dict_order : nat → D → list (bytes * value);
  int_order : nat → gmap bytes Z → list (bytes * Z);
  rand_seed : nat → Z;
  compile : bytes → option (bytes → bool)
}.

(** The pointer that a handler works with, and the header that points to it, if
    there is one. *)
Record set_handle {D : Type} := MkHandle { h_set : Set_ D; h_enc : option Encoding }.
Arguments set_handle : clear implicits.
Arguments MkHandle {D}.

Section set.
Context {O D : Type} `{!DictOps D value} `{!Objects O} `{!ObjOf O (set_obj D)} {env : Env} {rt : Runtime} {choices : Choices D}.
Context (Thresholds : EncodingThresholds).
Local Abbreviation M := (M O).
Local Abbreviation Set_ := (Set_ D).

Definition choose {A} (f : nat → A) : M A := λ db, Ret (f (draws db), set_draws db (S (draws db))).

(** ** Traversals *)

(** The order in which the hashtable of a set is traversed. *)
Definition order_of (s : option Set_) : M (list (bytes * value)) :=
  choose (λ n, match s with
               | Some s => match hashtable s with Some d => dict_order n d | None => [] end
               | None => []
               end).

(** What a traversal that is never stopped visits. *)
Definition members_of (s : option Set_) : M (list bytes) := ord ← order_of s; lift (ToSlice s ord).
Definition hash_members (h : HashSet D) : M (list bytes) :=
  ord ← choose (λ n, dict_order n (hdict h)); mret (d_ForEach (λ acc k _, (acc ++ [k], true)) ord []).

Definition set_len (s : option Set_) : M Z := lift (ObjSet.Len s).

Definition add_member (s : Set_) (m : bytes) : res (Set_ * Z) := '(o, n) ← ObjSet.Add Thresholds (Some s) m; s ← must o; Ret (s, n).
Definition remove_member (s : Set_) (m : bytes) : res (Set_ * Z) := '(o, n) ← ObjSet.Remove (Some s) m; s ← must o; Ret (s, n).

(** The loops of SADD and SREM: the set and the counter. *)
Definition count_op (op : Set_ → bytes → res (Set_ * Z)) (st : Set_ * Z) (m : bytes) : res (Set_ * Z) :=
  '(s, n) ← op st.1 m; Ret (s, st.2 + n).
Definition each_member (op : Set_ → bytes → res (Set_ * Z)) (ms : list bytes) (s : Set_) : res (Set_ * Z) := foldM (count_op op) ms (s, 0).

(** ** Access *)

(** The conversion of a set without the encodings. *)
Definition convert (h : HashSet D) : M Set_ := ms ← hash_members h; '(s, _) ← lift (each_member add_member ms NewSet); mret s.

(** What the value of a key gives a handler. *)
Definition open_set (key : bytes) (v : set_obj D) : M (set_handle D) :=
  match v with
  | SetRobj enc (PSet s) => mret (MkHandle s (Some enc))
  | SetRobj _ (PLegacy h) =>
      newSet ← convert h;
      store_obj key (SetRobj (CurrentEncoding newSet) (PSet newSet));;
      mret (MkHandle newSet (Some (CurrentEncoding newSet)))
  | PlainSet h => newSet ← convert h; mret (MkHandle newSet None)
  end.

Definition getAsSet (key : bytes) : M (reply + option (set_handle D)) :=
  r ← get_obj key;
  match r with
  | inl e => mret (inl e)
  | inr None => mret (inr None)
  | inr (Some v) => h ← open_set key v; mret (inr (Some h))
  end.

Definition new_set : set_obj D := SetRobj EncIntset (PSet NewSet).

Definition getOrInitSet (key : bytes) : M (reply + set_handle D) :=
  r ← get_or_init new_set key;
  match r with
  | inl e => mret (inl e)
  | inr v => h ← open_set key v; mret (inr h)
  end.

(** The set has changed in place. *)
Definition store_set (key : bytes) (h : set_handle D) (s : Set_) : M unit :=
  match h_enc h with Some enc => store_obj key (SetRobj enc (PSet s)) | None => mret tt end.

Definition syncSetEncodingAfterWrite (key : bytes) (s : Set_) : M unit :=
  e ← GetEntity key;
  match e with
  | Some (EObj o) =>
      match prj_obj o with
      | Some (SetRobj _ p) => store_obj key (SetRobj (CurrentEncoding s) p)
      | _ => mret tt
      end
  | _ => mret tt
  end.

(** ** Members *)

Definition execSAdd : ExecFunc O := λ args,
  key ← str_at args 0;
  members ← arg_strs (drop 1 args);
  r ← getOrInitSet key;
  match r with
  | inl e => mret e
  | inr h =>
      '(s, counter) ← lift (each_member add_member members (h_set h));
      store_set key h s;;
      syncSetEncodingAfterWrite key s;;
      addAof (ToCmdLine3 "sadd" args);;
      mret (RInt counter)
  end.

Definition execSIsMember : ExecFunc O := λ args,
  key ← str_at args 0;
  member ← str_at args 1;
  r ← getAsSet key;
  match r with
  | inl e => mret e
  | inr None => mret (RInt 0)
  | inr (Some h) => has ← lift (ObjSet.Has (Some (h_set h)) member); mret (RInt (b2z has))
  end.

Definition execSRem : ExecFunc O := λ args,
  key ← str_at args 0;
  members ← arg_strs (drop 1 args);
  r ← getAsSet key;
  match r with
  | inl e => mret e
  | inr None => mret (RInt 0)
  | inr (Some h) =>
      '(s, counter) ← lift (each_member remove_member members (h_set h));
      store_set key h s;;
      n ← set_len (Some s);
      when (n =? 0) (KeySpace.Remove key);;
      when (0 <? counter) (addAof (ToCmdLine3 "srem" args));;
      mret (RInt counter)
  end.

(** The count of SPOP, limited by the number of members. *)
Definition spop_count (args : list arg) (len : Z) : M (reply + Z) :=
  count ← (if (length args =? 2)%nat then
             a1 ← str_at args 1;
             mret match ParseInt a1 with
                  | None => inl (RErr "ERR value is out of range, must be positive")
                  | Some c => if c <=? 0 then inl (RErr "ERR value is out of range, must be positive") else inr c
                  end
           else mret (inr 1));
  mret match count with inl e => inl e | inr c => inr (if len <? c then len else c) end.

(** The key stays when the last member goes. *)
Definition execSPop : ExecFunc O := λ args,
  if negb (length args =? 1)%nat && negb (length args =? 2)%nat then mret (RErr "ERR wrong number of arguments for 'spop' command") else
  key ← str_at args 0;
  r ← getAsSet key;
  match r with
  | inl e => mret e
  | inr None => mret RNull
  | inr (Some h) =>
      len ← set_len (Some (h_set h));
      c ← spop_count args len;
      match c with
      | inl e => mret e
      | inr count =>
          ord ← order_of (Some (h_set h));
          seed ← choose rand_seed;
          '(members, _) ← lift (RandomDistinctMembers (Some (h_set h)) ord count seed);
          '(s, _) ← lift (each_member remove_member members (h_set h));
          store_set key h s;;
          when (0 <? length members)%nat (addAof (ToCmdLine3 "spop" args));;
          if (length args =? 1)%nat then
            mret match members with [] => RNull | m :: _ => RBulk (ALit m) end
          else mret (RMultiBulk (ALit <$> members))
      end
  end.

Definition execSCard : ExecFunc O := λ args,
  key ← str_at args 0;
  r ← getAsSet key;
  match r with
  | inl e => mret e
  | inr None => mret (RInt 0)
  | inr (Some h) => n ← set_len (Some (h_set h)); mret (RInt n)
  end.

(** An array of as many elements as the set has, filled by a traversal. *)
Definition set2reply (s : Set_) : M reply :=
  n ← set_len (Some s);
  ms ← members_of (Some s);
  if n <? Z.of_nat (length ms) then panic else
  mret (RMultiBulk ((ALit <$> ms) ++ replicate (Z.to_nat n - length ms) ANil)).

Definition execSMembers : ExecFunc O := λ args,
  key ← str_at args 0;
  r ← getAsSet key;
  match r with
  | inl e => mret e
  | inr None => mret (RConst EmptyMultiBulkReply)
  | inr (Some h) => set2reply (h_set h)
  end.

Definition has_reply (s : option Set_) (m : bytes) : res reply := has ← ObjSet.Has s m; Ret (RInt (b2z has)).

Definition execSMIsMember : ExecFunc O := λ args,
  if (length args <? 2)%nat then mret (RErr "ERR wrong number of arguments for 'smismember' command") else
  key ← str_at args 0;
  members ← arg_strs (drop 1 args);
  r ← getAsSet key;
  match r with
  | inl e => mret e
  | inr None => mret (RRaw (replicate (length members) (RInt 0)))
  | inr (Some h) =>
      rs ← forM members (λ m, lift (has_reply (Some (h_set h)) m));
      mret (RRaw rs)
  end.

(** ** Several sets *)

(** The sets of the keys in turn; [stop] tells when a set ends the command, with
    which reply. *)
Fixpoint load_sets (stop : option Set_ → M (option reply)) (keys : list bytes) : M (reply + list (option Set_)) :=
  match keys with
  | [] => mret (inr [])
  | key :: keys =>
      r ← getAsSet key;
      match r with
      | inl e => mret (inl e)
      | inr h =>
          let s := h_set <$> h in
          out ← stop s;
          match out with
          | Some e => mret (inl e)
          | None =>
              rest ← load_sets stop keys;
              mret match rest with inl e => inl e | inr sets => inr (s :: sets) end
          end
      end
  end.
Definition never (_ : option Set_) : M (option reply) := mret None.
Definition when_empty (r : reply) (s : option Set_) : M (option reply) := n ← set_len s; mret (if n =? 0 then Some r else None).

(** [countMap[member]++] *)
Definition incr_count (counts : gmap bytes Z) (m : bytes) : gmap bytes Z := <[m := default 0 (counts !! m) + 1]> counts.

Fixpoint count_members (sets : list (option Set_)) (counts : gmap bytes Z) : M (gmap bytes Z) :=
  match sets with
  | [] => mret counts
  | s :: sets => ms ← members_of s; count_members sets (foldl incr_count counts ms)
  end.

Definition add_all (ms : list bytes) (s : Set_) : M Set_ := '(s, _) ← lift (each_member add_member ms s); mret s.

Definition objectIntersect (sets : list (option Set_)) : M Set_ :=
  if (length sets =? 0)%nat then mret NewSet else
  counts ← count_members sets ∅;
  order ← choose (λ n, int_order n counts);
  add_all (fst <$> filter (λ kv, kv.2 = Z.of_nat (length sets)) order) NewSet.

Fixpoint union_into (sets : list (option Set_)) (result : Set_) : M Set_ :=
  match sets with
  | [] => mret result
  | s :: sets => ms ← members_of s; result ← add_all ms result; union_into sets result
  end.
Definition objectUnion (sets : list (option Set_)) : M Set_ := union_into sets NewSet.

(** Sets are subtracted until nothing is left. *)
Fixpoint diff_from (sets : list (option Set_)) (result : Set_) : M Set_ :=
  match sets with
  | [] => mret result
  | s :: sets =>
      ms ← members_of s;
      '(result, _) ← lift (each_member remove_member ms result);
      n ← set_len (Some result);
      if n =? 0 then mret result else diff_from sets result
  end.
Definition objectDiff (sets : list (option Set_)) : M Set_ :=
  match sets with
  | [] => mret NewSet
  | s :: sets => ms ← members_of s; result ← add_all ms NewSet; diff_from sets result
  end.

(** SINTER, SUNION and SDIFF. *)
Definition set_calc (stop : option Set_ → M (option reply)) (combine : list (option Set_) → M Set_) : ExecFunc O := λ args,
  keys ← arg_strs args;
  r ← load_sets stop keys;
  match r with
  | inl e => mret e
  | inr sets => result ← combine sets; set2reply result
  end.
Definition execSInter : ExecFunc O := set_calc (when_empty (RConst EmptyMultiBulkReply)) objectIntersect.
Definition execSUnion : ExecFunc O := set_calc never objectUnion.
Definition execSDiff : ExecFunc O := set_calc never objectDiff.

Definition put_set (dest : bytes) (s : Set_) : M unit := _ ← PutEntity dest (EObj (inj_obj (SetRobj (CurrentEncoding s) (PSet s)))); mret tt.

(** SINTERSTORE leaves the destination when a set is empty, and stores an empty
    result. *)
Definition execSInterStore : ExecFunc O := λ args,
  dest ← str_at args 0;
  keys ← arg_strs (drop 1 args);
  r ← load_sets (when_empty (RInt 0)) keys;
  match r with
  | inl e => mret e
  | inr sets =>
      result ← objectIntersect sets;
      put_set dest result;;
      addAof (ToCmdLine3 "sinterstore" args);;
      n ← set_len (Some result);
      mret (RInt n)
  end.

Definition calc_store (name : string) (combine : list (option Set_) → M Set_) : ExecFunc O := λ args,
  dest ← str_at args 0;
  keys ← arg_strs (drop 1 args);
  r ← load_sets never keys;
  match r with
  | inl e => mret e
  | inr sets =>
      result ← combine sets;
      KeySpace.Remove dest;;
      n ← set_len (Some result);
      if n =? 0 then mret (RInt 0) else
      put_set dest result;;
      addAof (ToCmdLine3 name args);;
      n ← set_len (Some result);
      mret (RInt n)
  end.
Definition execSUnionStore : ExecFunc O := calc_store "sunionstore" objectUnion.
Definition execSDiffStore : ExecFunc O := calc_store "sdiffstore" objectDiff.

Definition prepareSInterCard : PreFunc O := λ args,
  a0 ← str_at args 0;
  match ParseInt a0 with
  | None => mret ([], [])
  | Some numKeys =>
      if numKeys <? 1 then mret ([], []) else
      if max_make <? numKeys * 16 then panic else
      if Z.of_nat (length args) <=? numKeys then panic else
      keys ← arg_strs (take (Z.to_nat numKeys) (drop 1 args)); mret ([], keys)
  end.

Definition sintercard_arity : reply := RErr "ERR wrong number of arguments for 'sintercard' command".

(** The option LIMIT after the keys; zero is no limit. *)
Definition sintercard_limit (args : list arg) (argOffset : Z) : M (reply + Z) :=
  if argOffset <? Z.of_nat (length args) then
    o ← str_atZ args argOffset;
    if bytes_eqb (ToUpper o) (str "LIMIT") then
      if Z.of_nat (length args) <=? argOffset + 1 then mret (inl syntax_error) else
      c ← str_atZ args (argOffset + 1);
      mret match ParseInt c with
           | None => inl not_integer
           | Some l => if l <? 0 then inl not_integer else inr l
           end
    else mret (inl syntax_error)
  else mret (inr 0).

Definition execSInterCard : ExecFunc O := λ args,
  if (length args <? 1)%nat then mret sintercard_arity else
  a0 ← str_at args 0;
  match ParseInt a0 with
  | None => mret not_integer
  | Some numKeys =>
      if numKeys <? 1 then mret not_integer else
      if Z.of_nat (length args) <? wrap64 (1 + numKeys) then mret sintercard_arity else
      l ← sintercard_limit args (wrap64 (1 + numKeys));
      match l with
      | inl e => mret e
      | inr limit =>
          keys ← arg_strs (take (Z.to_nat numKeys) (drop 1 args));
          r ← load_sets (when_empty (RInt 0)) keys;
          match r with
          | inl e => mret e
          | inr sets =>
              result ← objectIntersect sets;
              count ← set_len (Some result);
              mret (RInt (if (0 <? limit) && (limit <? count) then limit else count))
          end
      end
  end.

(** ** Random members and scans *)

(** With replacement; the array is made only for a set with members. *)
Definition random_members (s : Set_) (limit : Z) : M (list bytes) :=
  ord ← order_of (Some s);
  seed ← choose rand_seed;
  n ← set_len (Some s);
  if (0 <? n) && (max_make <? limit * 16) then panic else
  '(members, _) ← lift (RandomMembers (Some s) ord limit seed);
  mret members.

Definition execSRandMember : ExecFunc O := λ args,
  if negb (length args =? 1)%nat && negb (length args =? 2)%nat then mret (RErr "ERR wrong number of arguments for 'srandmember' command") else
  key ← str_at args 0;
  r ← getAsSet key;
  match r with
  | inl e => mret e
  | inr None => mret RNull
  | inr (Some h) =>
      if (length args =? 1)%nat then
        members ← random_members (h_set h) 1;
        m ← lift (must (members !! 0%nat));
        mret (RBulk (ALit m))
      else
        a1 ← str_at args 1;
        match ParseInt a1 with
        | None => mret not_integer
        | Some count =>
            if 0 <? count then
              ord ← order_of (Some (h_set h));
              seed ← choose rand_seed;
              '(members, _) ← lift (RandomDistinctMembers (Some (h_set h)) ord count seed);
              mret (RMultiBulk (ALit <$> members))
            else if count <? 0 then
              members ← random_members (h_set h) (wrap64 (- count));
              mret (RMultiBulk (ALit <$> members))
            else mret (RConst EmptyMultiBulkReply)
        end
  end.

(** The options of SSCAN: an option without a value is an index out of range. *)
Fixpoint sscan_opts (l : list bytes) (count : Z) (pattern : bytes) : res (reply + Z * bytes) :=
  match l with
  | [] => Ret (inr (count, pattern))
  | a :: l =>
      let arg := ToLower a in
      if bytes_eqb arg (str "count") then
        match l with
        | [] => Panic
        | c :: l => match ParseInt c with None => Ret (inl RSyntax) | Some c => sscan_opts l c pattern end
        end
      else if bytes_eqb arg (str "match") then
        match l with
        | [] => Panic
        | p :: l => sscan_opts l count p
        end
      else Ret (inl RSyntax)
  end.

Definition execSScan : ExecFunc O := λ args,
  opts ← arg_strs (drop 2 args);
  o ← lift (sscan_opts opts 10 (str "*"));
  match o with
  | inl e => mret e
  | inr (count, pattern) =>
      key ← str_at args 0;
      r ← getAsSet key;
      match r with
      | inl e => mret e
      | inr None => mret (RConst EmptyMultiBulkReply)
      | inr (Some h) =>
          a1 ← str_at args 1;
          match ParseInt a1 with
          | None => mret (RErr "ERR invalid cursor")
          | Some cursor =>
              ord ← order_of (Some (h_set h));
              '(keysReply, nextCursor) ← lift (SetScan (Some (h_set h)) ord compile cursor count pattern);
              if nextCursor <? 0 then mret (RErr "Invalid argument") else
              mret (RRaw [RBulk (ALit (Itoa nextCursor)); RMultiBulk (ALit <$> keysReply)])
          end
      end
  end.

(** ** Undo logs *)

(** A nil set asks for DEL. *)
Definition rollbackSetMembers (key : bytes) (members : list bytes) : M (list (list arg)) :=
  r ← getAsSet key;
  match r with
  | inl _ => mret []
  | inr None => mret [ToCmdLine [str "DEL"; key]]
  | inr (Some h) =>
      forM members (λ m, ok ← lift (ObjSet.Has (Some (h_set h)) m);
        mret (if ok : bool then ToCmdLine [str "SADD"; key; m] else ToCmdLine [str "SREM"; key; m]))
  end.

Definition undoSetChange : UndoFunc O := λ args,
  key ← str_at args 0;
  members ← arg_strs (drop 1 args);
  rollbackSetMembers key members.

(** ** Registrations *)

Definition set_commands : list (bytes * command O) := [
  registerCommand "smismember" execSMIsMember readFirstKey None (-3) flagReadOnly ["readonly"; "fast"]%string None;
  registerCommand "sintercard" execSInterCard prepareSInterCard None (-4) flagReadOnly ["readonly"]%string None;
  registerCommand "sadd" execSAdd writeFirstKey (Some undoSetChange) (-3) flagWrite w_oom_fast (Some (notifySet, "sadd"%string));
  registerCommand "sismember" execSIsMember readFirstKey None 3 flagReadOnly ["readonly"; "fast"]%string None;
  registerCommand "srem" execSRem writeFirstKey (Some undoSetChange) (-3) flagWrite ["write"; "fast"]%string (Some (notifySet, "srem"%string));
  registerCommand "spop" execSPop writeFirstKey (Some undoSetChange) (-2) flagWrite ["write"; "random"; "fast"]%string None;
  registerCommand "scard" execSCard readFirstKey None 2 flagReadOnly ["readonly"; "fast"]%string None;
  registerCommand "smembers" execSMembers readFirstKey None 2 flagReadOnly ["readonly"; "sortforscript"]%string None;
  registerCommand "sinter" execSInter prepareSetCalculate None (-2) flagReadOnly ["readonly"; "sortforscript"]%string None;
  registerCommand "sinterstore" execSInterStore prepareSetCalculateStore (Some rollbackFirstKey) (-3) flagWrite w_oom None;
  registerCommand "sunion" execSUnion prepareSetCalculate None (-2) flagReadOnly ["readonly"; "sortforscript"]%string None;
  registerCommand "sunionstore" execSUnionStore prepareSetCalculateStore (Some rollbackFirstKey) (-3) flagWrite w_oom None;
  registerCommand "sdiff" execSDiff prepareSetCalculate None (-2) flagReadOnly ["readonly"; "sortforscript"]%string None;
  registerCommand "sdiffstore" execSDiffStore prepareSetCalculateStore (Some rollbackFirstKey) (-3) flagWrite w_oom None;
  registerCommand "srandmember" execSRandMember readFirstKey None (-2) flagReadOnly ["readonly"; "random"]%string None;
  registerCommand "sscan" execSScan readFirstKey None (-2) flagReadOnly ["readonly"; "sortforscript"]%string None].
End set.
