(* ===== verification/SetThm.v ===== *)
(** * Set commands refine operations on finite sets

    The replies and effects of the set commands on any keys are those of the
    operations on a map from keys to finite sets of byte strings.  Which members
    SPOP takes and in which order members are listed is left open. *)

From stdpp Require Import base gmap list strings.
From Stdlib Require Import ZArith Lia Ascii.
From S2P Require Import Prelude GoText Listpack Intset Dict SimpleDict ObjString ObjSet Strconv Resp Runtime GoTime TimeWheel KeySpace StringCmd KeyCmd Tx KeySpaceThm TxThm ObjCmd ListCmd SetCmd ObjCmdThm.

Local Open Scope Z_scope.

(** ** The specification *)

Inductive set_op :=
| OSAdd (k : bytes) (ms : list bytes) | OSRem (k : bytes) (ms : list bytes) | OSIsMember (k x : bytes) | OSMIsMember (k : bytes) (xs : list bytes)
| OSCard (k : bytes) | OSMembers (k : bytes) | OSPop (k : bytes) | OSPopN (k : bytes) (n : Z) | OSRandN (k : bytes) (n : Z)
| OSInter (ks : list bytes) | OSUnion (ks : list bytes) | OSDiff (ks : list bytes) | OSInterCard (ks : list bytes) (limit : option Z)
| OSUnionStore (d : bytes) (ks : list bytes) | OSDiffStore (d : bytes) (ks : list bytes).

Notation sets := (gmap bytes (slot (gset bytes))).
Abbreviation count X := (IntReply (Z.of_nat (size X))).

(** An array with these members, in any order. *)
Definition lists_all (X : gset bytes) (r : Reply) : Prop := ∃ l, r = MultiBulkReply (Some <$> l) ∧ l ≡ₚ elements X.

(** A key with a value of another type is an error, a missing one its own case. *)
Definition on_set (m : sets) (k : bytes) (m' : sets) (r : Reply) (missing : Reply) (found : gset bytes → Prop) : Prop :=
  match m !! k with
  | None => m' = m ∧ r = missing
  | Some Foreign => m' = m ∧ r = WrongTypeErrReply
  | Some (Own X) => found X
  end.

(** The sets of several keys, a missing one being empty; with [stop] an empty
    one ends the command. *)
Fixpoint load_spec (m : sets) (stop : option Reply) (ks : list bytes) : Reply + list (gset bytes) :=
  match ks with
  | [] => inr []
  | k :: ks =>
      match m !! k with
      | Some Foreign => inl WrongTypeErrReply
      | s =>
          let X := match s with Some (Own X) => X | _ => ∅ end in
          match stop with
          | Some r => if decide (X = ∅) then inl r else match load_spec m stop ks with inl e => inl e | inr Xs => inr (X :: Xs) end
          | None => match load_spec m stop ks with inl e => inl e | inr Xs => inr (X :: Xs) end
          end
      end
  end.

Definition inter_of (Xs : list (gset bytes)) : gset bytes := match Xs with [] => ∅ | X :: Xs => foldl intersection X Xs end.
Definition union_of (Xs : list (gset bytes)) : gset bytes := ⋃ Xs.
Definition diff_of (Xs : list (gset bytes)) : gset bytes := match Xs with [] => ∅ | X :: Xs => X ∖ ⋃ Xs end.

Definition calc_spec (m m' : sets) (r : Reply) (stop : option Reply) (ks : list bytes) (out : list (gset bytes) → Prop) : Prop :=
  match load_spec m stop ks with inl e => m' = m ∧ r = e | inr Xs => out Xs end.

(** SUNIONSTORE and SDIFFSTORE: an empty result removes the destination. *)
Definition stored (m m' : sets) (r : Reply) (d : bytes) (X : gset bytes) : Prop :=
  m' = (if decide (X = ∅) then delete d m else <[d := Own X]> m) ∧ r = count X.

Definition set_step (m : sets) (o : set_op) (m' : sets) (r : Reply) : Prop :=
  match o with
  | OSAdd k ms =>
      match m !! k with
      | Some Foreign => m' = m ∧ r = WrongTypeErrReply
      | s =>
          let X := match s with Some (Own X) => X | _ => ∅ end in
          m' = <[k := Own (X ∪ list_to_set ms)]> m ∧ r = count (list_to_set ms ∖ X : gset bytes)
      end
  | OSRem k ms => on_set m k m' r (IntReply 0) (λ X,
      let X' := X ∖ list_to_set ms in
      m' = (if decide (X' = ∅) then delete k m else <[k := Own X']> m) ∧ r = count (X ∩ list_to_set ms))
  | OSIsMember k x => on_set m k m' r (IntReply 0) (λ X, m' = m ∧ r = IntReply (b2z (bool_decide (x ∈ X))))
  | OSMIsMember k xs => on_set m k m' r (MultiRawReply ((λ _, IntReply 0) <$> xs)) (λ X,
      m' = m ∧ r = MultiRawReply ((λ x, IntReply (b2z (bool_decide (x ∈ X)))) <$> xs))
  | OSCard k => on_set m k m' r (IntReply 0) (λ X, m' = m ∧ r = count X)
  | OSMembers k => on_set m k m' r EmptyMultiBulkReply (λ X, m' = m ∧ lists_all X r)
  | OSPop k => on_set m k m' r NullBulkReply (λ X,
      if decide (X = ∅) then m' = m ∧ r = NullBulkReply
      else ∃ x, x ∈ X ∧ m' = <[k := Own (X ∖ {[x]})]> m ∧ r = BulkReply (Some x))
  | OSPopN k n => on_set m k m' r NullBulkReply (λ X, ∃ Y,
      Y ⊆ X ∧ Z.of_nat (size Y) = Z.min n (Z.of_nat (size X)) ∧ m' = <[k := Own (X ∖ Y)]> m ∧ lists_all Y r)
  | OSRandN k n => on_set m k m' r NullBulkReply (λ X, ∃ Y,
      Y ⊆ X ∧ Z.of_nat (size Y) = Z.min n (Z.of_nat (size X)) ∧ m' = m ∧ lists_all Y r)
  | OSInter ks => calc_spec m m' r (Some EmptyMultiBulkReply) ks (λ Xs, m' = m ∧ lists_all (inter_of Xs) r)
  | OSUnion ks => calc_spec m m' r None ks (λ Xs, m' = m ∧ lists_all (union_of Xs) r)
  | OSDiff ks => calc_spec m m' r None ks (λ Xs, m' = m ∧ lists_all (diff_of Xs) r)
  | OSInterCard ks limit => calc_spec m m' r (Some (IntReply 0)) ks (λ Xs,
      let n := Z.of_nat (size (inter_of Xs)) in
      m' = m ∧ r = IntReply (match limit with Some l => if 0 <? l then Z.min l n else n | None => n end))
  | OSUnionStore d ks => calc_spec m m' r None ks (λ Xs, stored m m' r d (union_of Xs))
  | OSDiffStore d ks => calc_spec m m' r None ks (λ Xs, stored m m' r d (diff_of Xs))
  end.

(** A destination that is stored anew loses its deadline. *)
Definition set_keeps (m : sets) (o : set_op) (dl : gmap bytes Z) : gmap bytes Z :=
  match o with
  | OSUnionStore d ks | OSDiffStore d ks => match load_spec m None ks with inl _ => dl | inr _ => delete d dl end
  | _ => dl
  end.

(** What a command line gives: positive counts that fit, limits from zero on,
    at least one key. *)
Definition set_op_ok (U : gset bytes) (o : set_op) : Prop :=
  match o with
  | OSAdd _ ms => list_to_set ms ⊆ U
  | OSMIsMember _ xs => xs ≠ []
  | OSPopN _ n | OSRandN _ n => 0 < n <= max_i64
  | OSInter ks | OSUnion ks | OSDiff ks | OSUnionStore _ ks | OSDiffStore _ ks => ks ≠ []
  | OSInterCard ks limit => ks ≠ [] ∧ Z.of_nat (length ks) < max_i64 ∧ match limit with Some l => 0 <= l <= max_i64 | None => True end
  | _ => True
  end.

Section run.
Context {O D : Type} `{!DictOps D value} `{!Objects O} `{!ObjOf O (set_obj D)} {env : Env} {rt : Runtime} {choices : Choices D}.
Context (Thresholds : EncodingThresholds).

(** The command that an operation stands for. *)
Definition set_exec (o : set_op) : M O reply :=
  let line (words : list bytes) := ALit <$> words in
  match o with
  | OSAdd k ms => execSAdd Thresholds (line (k :: ms))
  | OSRem k ms => execSRem Thresholds (line (k :: ms))
  | OSIsMember k x => execSIsMember Thresholds (line [k; x])
  | OSMIsMember k xs => execSMIsMember Thresholds (line (k :: xs))
  | OSCard k => execSCard Thresholds (line [k])
  | OSMembers k => execSMembers Thresholds (line [k])
  | OSPop k => execSPop Thresholds (line [k])
  | OSPopN k n => execSPop Thresholds (line [k; Itoa n])
  | OSRandN k n => execSRandMember Thresholds (line [k; Itoa n])
  | OSInter ks => execSInter Thresholds (line ks)
  | OSUnion ks => execSUnion Thresholds (line ks)
  | OSDiff ks => execSDiff Thresholds (line ks)
  | OSInterCard ks limit =>
      execSInterCard Thresholds (line (Itoa (Z.of_nat (length ks)) :: ks ++ match limit with Some l => [str "LIMIT"; Itoa l] | None => [] end))
  | OSUnionStore d ks => execSUnionStore Thresholds (line (d :: ks))
  | OSDiffStore d ks => execSDiffStore Thresholds (line (d :: ks))
  end.

End run.

(** ** Loops over members *)

(** All members that occur: few enough to count, short enough to store. *)
Definition universe (U : gset bytes) : Prop := Z.of_nat (size U) < 2 ^ 32 ∧ set_Forall small U.

Lemma size_new (x : bytes) (X : gset bytes) : x ∉ X → size ({[x]} ∪ X) = S (size X).
Proof. intros Hx. rewrite size_union by set_solver. by rewrite size_singleton. Qed.

Section loops.
Context {D : Type} `{DictLaws D value} (T : EncodingThresholds) (U : gset bytes) (HU : universe U).
Local Abbreviation ok := (set_ok (D := D) T).

Lemma each_step op m ms (s s1 : Set_ D) c n : op s m = Ret (s1, n) → foldM (count_op op) (m :: ms) (s, c) = foldM (count_op op) ms (s1, c + n).
Proof.
  intros E. assert (E2 : count_op op (s, c) m = Ret (s1, c + n)) by (unfold count_op; cbn [fst snd]; by rewrite E). cbn [foldM]. by rewrite E2.
Qed.

Lemma add_each ms s X c : ok s X → X ⊆ U → list_to_set ms ⊆ U →
  ∃ s', foldM (count_op (add_member T)) ms (s, c) = Ret (s', c + Z.of_nat (size (list_to_set ms ∖ X : gset bytes))) ∧ ok s' (X ∪ list_to_set ms).
Proof.
  destruct HU as [HU1 HU2]. revert s X c. induction ms as [|m ms IH]; intros s X c Hs HX Hms.
  - exists s. cbn [foldM list_to_set]. replace (∅ ∖ X : gset bytes) with (∅ : gset bytes) by set_solver. rewrite size_empty, Z.add_0_r. by rewrite union_empty_r_L.
  - cbn [list_to_set] in Hms. assert (Hsz : (size X <= size U)%nat) by (by apply subseteq_size).
    destruct (set_Add_spec T s m X Hs) as (s1 & E1 & H1); [apply HU2; set_solver|lia|].
    rewrite (each_step (add_member T) m ms s s1 c _ ltac:(unfold add_member; by rewrite E1)).
    destruct (IH s1 ({[m]} ∪ X) (c + b2z (bool_decide (m ∉ X))) H1) as (s' & E & H'); [set_solver..|]. rewrite E. exists s'. split.
    + do 2 f_equal. cbn [list_to_set]. destruct (decide (m ∈ X)) as [Hm|Hm].
      * rewrite bool_decide_eq_false_2 by tauto. cbn [b2z].
        replace (({[m]} ∪ list_to_set ms) ∖ X) with (list_to_set ms ∖ ({[m]} ∪ X) : gset bytes); [lia|]. set_solver.
      * rewrite bool_decide_eq_true_2 by done. cbn [b2z].
        replace (({[m]} ∪ list_to_set ms) ∖ X) with ({[m]} ∪ list_to_set ms ∖ ({[m]} ∪ X) : gset bytes).
        -- rewrite size_new by set_solver. lia.
        -- apply set_eq. intros x. destruct (decide (x = m)); set_solver.
    + cbn [list_to_set]. by replace (X ∪ ({[m]} ∪ list_to_set ms)) with (({[m]} ∪ X) ∪ list_to_set ms) by set_solver.
Qed.

Lemma Remove_keeps (s : Set_ D) x s' n : ObjSet.Remove (Some s) x = Ret (Some s', n) → CurrentEncoding s' = CurrentEncoding s.
Proof.
  unfold ObjSet.Remove, CurrentEncoding. intros E. destruct (encoding s) eqn:Ee.
  - destruct (isInt x) as [v []]; [|injection E as <- _; by rewrite ?Ee]. destruct (intset s) as [i|]; [|done]. cbn in E. destruct (is_Remove i v). injection E as <- _. cbn. by rewrite ?Ee.
  - destruct (listpack s) as [lp|]; [|done]. cbn [must mbind res_bind] in E. destruct (lp_Range lp _ _) as [[lp' []]| |]; cbn in E; [| |done..]; injection E as <- _; cbn; by rewrite ?Ee.
  - destruct (hashtable s) as [d|]; [|done]. cbn [must mbind res_bind] in E. destruct (d_Remove d x) as [[[d' o] r]| |]; [|done..]. injection E as <- _. cbn. by rewrite ?Ee.
Qed.

Lemma remove_each ms s X c : ok s X →
  ∃ s', foldM (count_op remove_member) ms (s, c) = Ret (s', c + Z.of_nat (size (X ∩ list_to_set ms))) ∧ ok s' (X ∖ list_to_set ms) ∧
    CurrentEncoding s' = CurrentEncoding s.
Proof.
  clear HU U. revert s X c. induction ms as [|m ms IH]; intros s X c Hs.
  - exists s. cbn. rewrite intersection_empty_r_L, size_empty, Z.add_0_r. by rewrite difference_empty_L.
  - destruct (set_Remove_spec T s m X Hs) as (s1 & E1 & H1).
    rewrite (each_step remove_member m ms s s1 c _ ltac:(unfold remove_member; by rewrite E1)).
    destruct (IH s1 _ (c + b2z (bool_decide (m ∈ X))) H1) as (s' & E & H' & He). rewrite E. exists s'. cbn [list_to_set]. split_and!.
    + do 2 f_equal. destruct (decide (m ∈ X)) as [Hm|Hm].
      * rewrite bool_decide_eq_true_2 by done. cbn [b2z].
        replace (X ∩ ({[m]} ∪ list_to_set ms)) with ({[m]} ∪ X ∖ {[m]} ∩ list_to_set ms : gset bytes).
        -- rewrite size_new by set_solver. lia.
        -- apply set_eq. intros x. destruct (decide (x = m)); set_solver.
      * rewrite bool_decide_eq_false_2 by done. cbn [b2z].
        replace (X ∩ ({[m]} ∪ list_to_set ms)) with (X ∖ {[m]} ∩ list_to_set ms); [lia|]. set_solver.
    + by replace (X ∖ ({[m]} ∪ list_to_set ms)) with ((X ∖ {[m]}) ∖ list_to_set ms) by set_solver.
    + rewrite He. by eapply Remove_keeps.
Qed.

(** A pointer to a set may be nil. *)
Definition opt_ok (s : option (Set_ D)) (X : gset bytes) : Prop := match s with Some s => ok s X | None => X = ∅ end.

Lemma opt_Len s X : opt_ok s X → ObjSet.Len s = Ret (Z.of_nat (size X)).
Proof. destruct s as [s|]; cbn [opt_ok]; [apply set_Len_spec|]. intros ->. by rewrite size_empty. Qed.
End loops.

Lemma perm_set (l : list bytes) (X : gset bytes) : l ≡ₚ elements X → list_to_set l = X ∧ NoDup l.
Proof.
  intros HP. split; [|rewrite HP; apply NoDup_elements]. apply set_eq. intros x. rewrite elem_of_list_to_set, HP. apply elem_of_elements.
Qed.

(** ** Traversals *)

(** The orders of the runtime are orders of the keys. *)
Definition fair {D} `{DictLaws D value} {choices : Choices D} : Prop :=
  (∀ n d, d_inv d → d_order d (dict_order n d)) ∧ (∀ n c, int_order n c ≡ₚ map_to_list c).

(** The number of sets that an element is in. *)
Definition hits (x : bytes) (Xs : list (gset bytes)) : Z := foldr (λ X n, b2z (bool_decide (x ∈ X)) + n) 0 Xs.

Lemma hits_all x Xs : hits x Xs <= Z.of_nat (length Xs) ∧ 0 <= hits x Xs ∧ (hits x Xs = Z.of_nat (length Xs) ↔ Forall (λ X, x ∈ X) Xs).
Proof.
  induction Xs as [|X Xs (IH1 & IH0 & IH2)]; [cbn; split_and!; [lia..|]; by split|]. cbn [hits foldr length]. fold (hits x Xs).
  destruct (decide (x ∈ X)) as [Hx|Hx]; [rewrite bool_decide_eq_true_2 by done|rewrite bool_decide_eq_false_2 by done]; cbn [b2z]; split_and!; try lia.
  - rewrite Forall_cons, <- IH2. split; [intros; split; [done|lia]|lia].
  - rewrite Forall_cons. split; [lia|tauto].
Qed.

Lemma inter_of_spec X Xs x : x ∈ inter_of (X :: Xs) ↔ Forall (λ X, x ∈ X) (X :: Xs).
Proof.
  cbn [inter_of]. revert X. induction Xs as [|Y Xs IH]; intros X; cbn [foldl]; [rewrite Forall_singleton; done|].
  rewrite IH, !Forall_cons, elem_of_intersection. tauto.
Qed.

Lemma foldl_incr (l : list bytes) (counts : gmap bytes Z) x : NoDup l → default 0 (foldl incr_count counts l !! x) = default 0 (counts !! x) + b2z (bool_decide (x ∈ l)).
Proof.
  revert counts. induction l as [|y l IH]; intros counts Hnd; cbn [foldl].
  - rewrite bool_decide_eq_false_2 by set_solver. cbn. lia.
  - apply NoDup_cons in Hnd as [Hy Hnd]. rewrite IH by done. unfold incr_count. destruct (decide (x = y)) as [->|Hne].
    + rewrite lookup_insert_eq. cbn. rewrite (bool_decide_eq_false_2 (y ∈ l)), bool_decide_eq_true_2 by set_solver. cbn. lia.
    + rewrite lookup_insert_ne by done. f_equal. f_equal. apply bool_decide_ext. set_solver.
Qed.

(** ** Commands *)

Section commands.
Context {O D : Type} `{!DictOps D value} `{!DictLaws D value} `{!Objects O} `{!ObjOf O (set_obj D)} {env : Env} {rt : Runtime} {choices : Choices D}.
Context (t : Z) (Hclk : ∀ n, clock n = t) (Hfair : fair) (T : EncodingThresholds) (dl : gmap bytes Z).
Context (U : gset bytes) (HU : universe U).
Implicit Types (m : sets) (db : DB O) (X Y : gset bytes) (s : Set_ D) (k : bytes).

(** A set object behind a header that tells its encoding; a set that a dump has
    left in the key space is not one. *)
Definition set_obj_ok (v : set_obj D) X : Prop :=
  match v with SetRobj enc (PSet s) => set_ok T s X ∧ enc = CurrentEncoding s | _ => False end.

Local Abbreviation sees := (sees (O := O) t dl set_obj_ok).
Local Abbreviation ok := (set_ok (D := D) T).

Lemma sees_draw m db n : sees m db → sees m (set_draws db n).
Proof. by apply sees_same. Qed.

Lemma run_choose {A B} (f : nat → A) (k : A → M O B) db : (choose f ≫= k) db = k (f (draws db)) (set_draws db (S (draws db))).
Proof. done. Qed.

(** A command reads the runtime's choices but nothing else of the state. *)
Lemma members_of_spec (s : option (Set_ D)) X m db : opt_ok T s X → sees m db → ∃ l db', members_of s db = Ret (l, db') ∧ l ≡ₚ elements X ∧ sees m db'.
Proof.
  intros Hs S. unfold members_of, order_of. rewrite run_choose. destruct s as [s|]; cbn [opt_ok] in Hs.
  - set (ord := match hashtable s with Some d => dict_order (draws db) d | None => [] end).
    destruct (ToSlice_spec T s X ord Hs) as (l & E & HP).
    { unfold order_ok. destruct Hs as [Hr _]. unfold set_rep in Hr. destruct (encoding s); [done..|]. destruct Hr as (d & Ed & Hd & _).
      exists d. split; [done|]. unfold ord. rewrite Ed. by apply Hfair. }
    unfold lift. rewrite E. eexists l, _. split; [done|]. split; [done|]. by apply sees_draw.
  - subst X. eexists [], _. split; [done|]. split; [done|]. by apply sees_draw.
Qed.

(** ** Access *)

Local Abbreviation gives := (gives (O := O) t dl set_obj_ok).

(** The end of a command that only replies. *)
Local Ltac ret m := eexists _, _, m; rewrite run_mret; split; [reflexivity|]; split; [done|].

Lemma getAsSet_sees m db (k : bytes) : sees m db →
  ∃ r db1, getAsSet T k db = Ret (r, db1) ∧ sees m db1 ∧
    match m !! k with
    | None => r = inr None
    | Some Foreign => r = inl RWrongType
    | Some (Own X) => ∃ s, r = inr (Some (MkHandle s (Some (CurrentEncoding s)))) ∧ ok s X
    end.
Proof.
  intros S. destruct (get_obj_sees t Hclk dl set_obj_ok m db k S) as (r & db1 & E & S1 & _ & H). unfold getAsSet. rewrite (run_step _ _ _ _ _ E).
  destruct (m !! k) as [[X|]|].
  - destruct H as (v & -> & Hv). destruct v as [enc [s|h]|h]; cbn in Hv; try done. destruct Hv as [Hs ->].
    eexists _, db1. cbn [open_set]. rewrite run_ret, run_mret. split; [done|]. split; [done|]. by exists s.
  - subst r. eexists _, db1. by rewrite run_mret.
  - destruct H as [-> _]. eexists _, db1. by rewrite run_mret.
Qed.

Lemma does_getAsSet m db k (missing : Reply) (f : set_handle D → M O reply) (none : M O reply) (g : gset bytes → sets → Reply → Prop) :
  sees m db →
  (∀ db1, sees m db1 → gives none db1 (λ m' r, m' = m ∧ r = missing)) →
  (∀ db1 X s, sees m db1 → m !! k = Some (Own X) → ok s X → gives (f (MkHandle s (Some (CurrentEncoding s)))) db1 (g X)) →
  gives (r ← getAsSet T k; match r with inl e => mret e | inr None => none | inr (Some h) => f h end) db
    (λ m' r, on_set m k m' r missing (λ X, g X m' r)).
Proof.
  intros S Hn Hf. destruct (getAsSet_sees m db k S) as (r & db1 & E & S1 & H). unfold ObjCmdThm.gives, on_set. rewrite (run_step _ _ _ _ _ E).
  destruct (m !! k) as [[X|]|] eqn:Hm.
  - destruct H as (s & -> & Hs). exact (Hf db1 X s S1 eq_refl Hs).
  - subst r. eexists _, db1, m. by rewrite run_mret.
  - subst r. exact (Hn db1 S1).
Qed.

(** Storing a changed set back. *)
Lemma store_set_sees m db k X s s' X' : sees m db → m !! k = Some (Own X) → ok s' X' → CurrentEncoding s' = CurrentEncoding s →
  ∃ db', store_set k (MkHandle s (Some (CurrentEncoding s))) s' db = Ret (tt, db') ∧ sees (<[k := Own X']> m) db'.
Proof.
  intros S Hm Hs He. destruct (store_obj_sees t dl set_obj_ok m db k X (SetRobj (CurrentEncoding s) (PSet s')) X' S Hm) as (db' & E & S' & _); [done|].
  by exists db'.
Qed.
(** SADD brings the header up to date after it has stored the set. *)
Lemma store_sync_sees m db k X h s' X' : sees m db → m !! k = Some (Own X) → ok s' X' → is_Some (h_enc h) →
  ∃ db', (store_set k h s';; syncSetEncodingAfterWrite k s') db = Ret (tt, db') ∧ sees (<[k := Own X']> m) db'.
Proof.
  intros S Hm Hs [enc He]. unfold store_set. rewrite He. unfold store_obj. rewrite run_modify.
  set (db1 := set_data db (<[k := EObj (inj_obj (SetRobj enc (PSet s')))]> (data db))).
  set (final := SetRobj (CurrentEncoding s') (PSet s')).
  destruct (store_obj_sees t dl set_obj_ok m db k X final X' S Hm) as (db2 & E2 & S2 & _); [done|]. injection E2 as <-.
  assert (Ha : alive t db1 k = Some (EObj (inj_obj (SetRobj enc (PSet s'))))).
  { pose proof (sees_slot _ _ _ _ _ S k) as Hk. rewrite Hm in Hk. unfold alive in *. cbn [data ttlMap db1 set_data]. rewrite lookup_insert_eq.
    destruct (ttlMap db !! k) as [d|]; [|done]. destruct (d <? t); [|done]. by destruct (data db !! k). }
  destruct (GetEntity_spec t Hclk k db1) as (db3 & E3 & _ & H3). rewrite Ha in *. destruct H3 as [(Qd & Qt & _ & _ & Qw) _].
  unfold syncSetEncodingAfterWrite. rewrite (run_step _ _ _ _ _ E3), prj_inj. eexists. split; [reflexivity|].
  eapply (sees_same t dl set_obj_ok); [..|exact S2]; cbn [data ttlMap wheel set_data]; [|by rewrite Qt|by rewrite Qw].
  rewrite Qd. cbn [data db1 set_data]. by rewrite insert_insert_eq.
Qed.

Definition within m : Prop := ∀ k X, m !! k = Some (Own X) → X ⊆ U.

(** ** Single sets *)

Local Abbreviation meets o m db := (gives (set_exec T o) db (set_step m o)).

Lemma getOrInitSet_sees m db k : sees m db → dl_of dl m →
  ∃ r db1, getOrInitSet T k db = Ret (r, db1) ∧
    match m !! k with
    | None => r = inr (MkHandle NewSet (Some EncIntset)) ∧ sees (<[k := Own ∅]> m) db1
    | Some Foreign => r = inl RWrongType ∧ sees m db1
    | Some (Own X) => ∃ s, r = inr (MkHandle s (Some (CurrentEncoding s))) ∧ ok s X ∧ sees m db1
    end.
Proof.
  intros S Hdl. destruct (get_or_init_sees t Hclk dl set_obj_ok m db k new_set ∅ S Hdl) as (r & db1 & E & _ & H); [split; [apply set_ok_new|done]|].
  unfold getOrInitSet. rewrite (run_step _ _ _ _ _ E). destruct (m !! k) as [[X|]|].
  - destruct H as ([enc [s|h]|h] & -> & Hv & S1); cbn in Hv; try done. destruct Hv as [Hs ->]. cbn [open_set]. rewrite run_ret, run_mret.
    eexists _, db1. split; [done|]. by exists s.
  - destruct H as [-> S1]. eexists _, db1. by rewrite run_mret.
  - destruct H as [-> S1]. cbn [open_set new_set]. rewrite run_ret, run_mret. by eexists _, db1.
Qed.

Lemma add_run m db k X h ms line : sees m db → m !! k = Some (Own X) → X ⊆ U → list_to_set ms ⊆ U → ok (h_set h) X → is_Some (h_enc h) →
  ∃ db', ('(s, counter) ← lift (each_member (add_member T) ms (h_set h)); store_set k h s;; syncSetEncodingAfterWrite k s;; addAof line;; mret (RInt counter)) db
      = Ret (RInt (Z.of_nat (size (list_to_set ms ∖ X : gset bytes))), db') ∧ sees (<[k := Own (X ∪ list_to_set ms)]> m) db'.
Proof.
  intros S Hm HX Hms Hs He. unfold each_member. destruct (add_each T U HU ms (h_set h) X 0 Hs HX Hms) as (s' & E & Hs'). rewrite run_lift, E.
  destruct (store_sync_sees m db k X h s' _ S Hm Hs' He) as (db1 & E1 & S1). rewrite <- run_assoc, (run_step _ _ _ _ _ E1), run_addAof, run_mret.
  eexists. split; [done|]. by apply (sees_same t dl set_obj_ok _ db1).
Qed.

Lemma does_SAdd k ms m db : list_to_set ms ⊆ U → within m → dl_of dl m → sees m db → meets (OSAdd k ms) m db.
Proof.
  intros Hms HW Hdl S. unfold set_exec, execSAdd, ObjCmdThm.gives. erewrite run_word by reflexivity. change (drop 1 (ALit <$> (k :: ms))) with (ALit <$> ms).
  rewrite (run_step _ _ _ _ _ (run_words _ _)). destruct (getOrInitSet_sees m db k S Hdl) as (r & db1 & E & H). rewrite (run_step _ _ _ _ _ E). cbn [set_step].
  destruct (m !! k) as [[X|]|] eqn:Hm.
  - destruct H as (s & -> & Hs & S1).
    destruct (add_run m db1 k X (MkHandle s (Some (CurrentEncoding s))) ms (ToCmdLine3 "sadd" (ALit <$> (k :: ms))) S1 Hm) as (db2 & E2 & S2); [by eapply HW|done..|].
    eexists _, db2, _. split; [exact E2|]. by split.
  - destruct H as [-> S1]. eexists _, db1, m. by rewrite run_mret.
  - destruct H as [-> S1].
    destruct (add_run (<[k := Own ∅]> m) db1 k ∅ (MkHandle NewSet (Some EncIntset)) ms (ToCmdLine3 "sadd" (ALit <$> (k :: ms))) S1) as (db2 & E2 & S2);
      [apply lookup_insert_eq|set_solver|done|apply set_ok_new|done|].
    eexists _, db2, _. split; [exact E2|]. rewrite insert_insert_eq in S2. by split.
Qed.

Lemma does_SRem k ms m db : sees m db → meets (OSRem k ms) m db.
Proof.
  intros S. unfold set_exec, execSRem, ObjCmdThm.gives. erewrite run_word by reflexivity. change (drop 1 (ALit <$> (k :: ms))) with (ALit <$> ms).
  rewrite (run_step _ _ _ _ _ (run_words _ _)). apply does_getAsSet; [done|intros; by apply (gives_ret t dl set_obj_ok m)|]. intros db1 X s S1 Hm Hs.
  unfold ObjCmdThm.gives, each_member. cbn [h_set]. destruct (remove_each T ms s X 0 Hs) as (s' & E & Hs' & He). rewrite run_lift, E.
  destruct (store_set_sees m db1 k X s s' _ S1 Hm Hs' He) as (db2 & E2 & S2). rewrite (run_step _ _ _ _ _ E2).
  unfold set_len. rewrite (set_Len_spec T s' _ Hs'), run_lift, run_when.
  set (X' := X ∖ list_to_set ms) in *. set (n := Z.of_nat (size (X ∩ list_to_set ms))) in *.
  assert (HF : ∀ m' db', sees m' db' → ∃ db'', (when (0 <? 0 + n) (addAof (ToCmdLine3 "srem" (ALit <$> (k :: ms)))) ≫= λ _, mret (RInt (0 + n))) db' = Ret (RInt n, db'') ∧ sees m' db'').
  { intros m' db' S'. rewrite run_when. destruct (0 <? 0 + n); [rewrite run_addAof|]; rewrite run_mret; eexists; (split; [done|]); [|done]. by apply (sees_same t dl set_obj_ok _ db'). }
  destruct (decide (X' = ∅)) as [He'|He'].
  - rewrite He', size_empty. change (Z.of_nat 0 =? 0) with true. cbv iota. destruct (Remove_sees t dl set_obj_ok _ db2 k S2) as (db3 & E3 & S3 & _).
    rewrite (run_step _ _ _ _ _ E3). rewrite delete_insert_eq in S3. destruct (HF _ _ S3) as (db4 & E4 & S4). eexists _, db4, _. by split.
  - rewrite (proj2 (Z.eqb_neq _ _)) by (intros H0; apply He'; apply leibniz_equiv, size_empty_inv; lia). destruct (HF _ _ S2) as (db4 & E4 & S4). eexists _, db4, _. by split.
Qed.

Lemma does_SIsMember k x m db : sees m db → meets (OSIsMember k x) m db.
Proof.
  intros S. unfold set_exec, execSIsMember, ObjCmdThm.gives. do 2 erewrite run_word by reflexivity. apply does_getAsSet; [done|intros; by apply (gives_ret t dl set_obj_ok m)|].
  intros db1 X s S1 Hm Hs. unfold ObjCmdThm.gives. cbn [h_set]. rewrite (Has_spec T s x X Hs), run_lift. by ret m.
Qed.

Lemma has_replies s X xs db : ok s X → forM xs (λ x, lift (has_reply (Some s) x)) db = Ret ((λ x, RInt (b2z (bool_decide (x ∈ X)))) <$> xs, db).
Proof.
  intros Hs. induction xs as [|x xs IH]; [done|]. cbn [forM].
  assert (E : has_reply (Some s) x = Ret (RInt (b2z (bool_decide (x ∈ X))))) by (unfold has_reply; by rewrite (Has_spec T s x X Hs)).
  rewrite E, run_lift. by rewrite (run_step _ _ _ _ _ IH), run_mret.
Qed.

Lemma does_SMIsMember k xs m db : xs ≠ [] → sees m db → meets (OSMIsMember k xs) m db.
Proof.
  intros Hne S. unfold set_exec, execSMIsMember, ObjCmdThm.gives. destruct xs as [|x0 xs0]; [done|]. cbn [fmap list_fmap length Nat.ltb Nat.leb].
  erewrite (run_word (k :: x0 :: xs0)) by reflexivity. change (drop 1 _) with (ALit <$> (x0 :: xs0)). set (xs := x0 :: xs0) in *.
  rewrite (run_step _ _ _ _ _ (run_words _ _)). apply does_getAsSet; [done| |].
  - intros db1 S1. apply (gives_ret t dl set_obj_ok m); [done|]. intros mem. split; [done|]. cbn [resolve]. f_equal. rewrite fmap_replicate. clear. by induction xs as [|x xs IH]; [|cbn; f_equal].
  - intros db1 X s S1 Hm Hs. unfold ObjCmdThm.gives. cbn [h_set]. rewrite (run_step _ _ _ _ _ (has_replies s X xs db1 Hs)). ret m. intros mem. split; [done|]. cbn [resolve]. f_equal. by rewrite <- list_fmap_compose.
Qed.

Lemma does_SCard k m db : sees m db → meets (OSCard k) m db.
Proof.
  intros S. unfold set_exec, execSCard, ObjCmdThm.gives. erewrite run_word by reflexivity. apply does_getAsSet; [done|intros; by apply (gives_ret t dl set_obj_ok m)|].
  intros db1 X s S1 Hm Hs. unfold ObjCmdThm.gives, set_len. cbn [h_set]. rewrite (set_Len_spec T s X Hs), run_lift. by ret m.
Qed.

(** ** Listing *)

Lemma set2reply_spec s X m db : ok s X → sees m db → ∃ r db', set2reply s db = Ret (r, db') ∧ sees m db' ∧ ∀ mem, lists_all X (resolve mem r).
Proof.
  intros Hs S. unfold set2reply, set_len. rewrite (set_Len_spec T s X Hs), run_lift. destruct (members_of_spec (Some s) X m db Hs S) as (l & db1 & E & HP & S1).
  rewrite (run_step _ _ _ _ _ E). assert (Hl : length l = size X) by (by rewrite HP). rewrite Hl, Nat2Z.id, Nat.sub_diag, Z.ltb_irrefl, app_nil_r, run_mret.
  eexists _, db1. split; [done|]. split; [done|]. intros mem. exists l. split; [|done]. cbn [resolve]. by rewrite resolve_lits.
Qed.

Lemma does_SMembers k m db : sees m db → meets (OSMembers k) m db.
Proof.
  intros S. unfold set_exec, execSMembers, ObjCmdThm.gives. erewrite run_word by reflexivity. apply does_getAsSet; [done|intros; by apply (gives_ret t dl set_obj_ok m)|].
  intros db1 X s S1 Hm Hs. unfold ObjCmdThm.gives. cbn [h_set]. destruct (set2reply_spec s X m db1 Hs S1) as (r & db2 & E & S2 & H). by exists r, db2, m.
Qed.

(** ** Random members *)

Lemma random_spec s X m db limit {B} (f : list bytes → M O B) : ok s X → X ⊆ U → sees m db → 0 <= limit →
  ∃ l db', (ord ← order_of (Some s); seed ← choose rand_seed; '(members, _) ← lift (RandomDistinctMembers (Some s) ord limit seed); f members) db = f l db' ∧
    NoDup l ∧ list_to_set l ⊆ X ∧ Z.of_nat (length l) = Z.min limit (Z.of_nat (size X)) ∧ sees m db'.
Proof.
  intros Hs HX S Hl. unfold order_of. rewrite !run_choose. set (ord := match hashtable s with Some d => dict_order (draws db) d | None => [] end).
  destruct HU as [HU1 _]. assert (Hsz : (size X <= size U)%nat) by (by apply subseteq_size).
  destruct (RandomDistinctMembers_spec T s X ord limit (rand_seed (Datatypes.S (draws db))) Hs) as (l & seed & E & Hnd & Hin & Hlen); [|done|lia|].
  { unfold order_ok. destruct Hs as [Hr _]. unfold set_rep in Hr. destruct (encoding s); [done..|]. destruct Hr as (d & Ed & Hd & _).
    exists d. split; [done|]. unfold ord. rewrite Ed. by apply Hfair. }
  cbn [draws set_draws]. rewrite run_lift, E. eexists l, _. split; [done|]. split; [done|]. split; [|split; [done|]].
  - intros x. rewrite elem_of_list_to_set. apply Hin.
  - by do 2 apply sees_draw.
Qed.

(** SPOP from the count on. *)
Lemma pop_run m db k X s count line {B} (f : list bytes → M O B) : ok s X → X ⊆ U → sees m db → m !! k = Some (Own X) → 0 <= count →
  ∃ l db', (ord ← order_of (Some s); seed ← choose rand_seed; '(members, _) ← lift (RandomDistinctMembers (Some s) ord count seed);
            '(s', _) ← lift (each_member remove_member members s); store_set k (MkHandle s (Some (CurrentEncoding s))) s';;
            when (0 <? length members)%nat (addAof line);; f members) db = f l db' ∧
    NoDup l ∧ list_to_set l ⊆ X ∧ Z.of_nat (length l) = Z.min count (Z.of_nat (size X)) ∧ sees (<[k := Own (X ∖ list_to_set l)]> m) db'.
Proof.
  intros Hs HX S Hm Hc.
  destruct (random_spec s X m db count (λ members, '(s', _) ← lift (each_member remove_member members s); store_set k (MkHandle s (Some (CurrentEncoding s))) s';;
            when (0 <? length members)%nat (addAof line);; f members) Hs HX S Hc) as (l & db1 & E & Hnd & Hin & Hlen & S1).
  rewrite E. exists l. unfold each_member. destruct (remove_each T l s X 0 Hs) as (s' & E' & Hs' & He). rewrite run_lift, E'.
  destruct (store_set_sees m db1 k X s s' _ S1 Hm Hs' He) as (db2 & E2 & S2). rewrite (run_step _ _ _ _ _ E2), run_when.
  destruct (0 <? length l)%nat; [rewrite run_addAof|]; eexists; (split; [done|]); split_and!; try done. by apply (sees_same t dl set_obj_ok _ db2).
Qed.

Lemma pop_size (l : list bytes) : NoDup l → size (list_to_set l : gset bytes) = length l.
Proof. apply size_list_to_set. Qed.
Lemma pop_list (l : list bytes) mem : NoDup l → lists_all (list_to_set l) (resolve mem (RMultiBulk (ALit <$> l))).
Proof. intros Hnd. exists l. cbn [resolve]. rewrite resolve_lits. split; [done|]. by rewrite elements_list_to_set. Qed.

Lemma does_SPopN k n m db : 0 < n <= max_i64 → within m → sees m db → meets (OSPopN k n) m db.
Proof.
  intros Hn HW S. unfold set_exec, execSPop, ObjCmdThm.gives. change (negb (length (ALit <$> [k; Itoa n]) =? 1)%nat && negb (length (ALit <$> [k; Itoa n]) =? 2)%nat) with false. cbv iota.
  erewrite run_word by reflexivity. apply does_getAsSet; [done|intros; by apply (gives_ret t dl set_obj_ok m)|]. intros db1 X s S1 Hm Hs. unfold ObjCmdThm.gives, set_len, spop_count. cbn [h_set].
  rewrite (set_Len_spec T s X Hs), run_lift. change (length (ALit <$> [k; Itoa n]) =? 2)%nat with true. change (length (ALit <$> [k; Itoa n]) =? 1)%nat with false. cbv iota.
  rewrite !run_assoc. erewrite run_word by reflexivity. rewrite ParseInt_Itoa by (unfold i64, min_i64; lia).
  rewrite (proj2 (Z.leb_gt n 0)) by lia. repeat (rewrite run_assoc || rewrite run_ret).
  set (c := if Z.of_nat (size X) <? n then Z.of_nat (size X) else n). assert (Hc : c = Z.min n (Z.of_nat (size X))) by (unfold c; destruct (Z.ltb_spec (Z.of_nat (size X)) n); lia).
  destruct (pop_run m db1 k X s c (ToCmdLine3 "spop" (ALit <$> [k; Itoa n])) (λ members, mret (RMultiBulk (ALit <$> members))) Hs) as (l & db2 & E & Hnd & Hin & Hlen & S2);
    [by eapply HW|done|done|lia|].
  rewrite run_mret in E. eexists _, db2, _. split; [exact E|]. split; [exact S2|]. intros mem. exists (list_to_set l). rewrite pop_size by done. split; [done|]. split; [lia|]. split; [done|].
  by apply pop_list.
Qed.

Lemma does_SPop k m db : within m → sees m db → meets (OSPop k) m db.
Proof.
  intros HW S. unfold set_exec, execSPop, ObjCmdThm.gives. change (negb (length (ALit <$> [k]) =? 1)%nat && negb (length (ALit <$> [k]) =? 2)%nat) with false. cbv iota.
  erewrite run_word by reflexivity. apply does_getAsSet; [done|intros; by apply (gives_ret t dl set_obj_ok m)|]. intros db1 X s S1 Hm Hs. unfold ObjCmdThm.gives, set_len, spop_count. cbn [h_set].
  rewrite (set_Len_spec T s X Hs), run_lift. change (length (ALit <$> [k]) =? 2)%nat with false. change (length (ALit <$> [k]) =? 1)%nat with true. cbv iota.
  repeat (rewrite run_assoc || rewrite run_ret). set (c := if Z.of_nat (size X) <? 1 then Z.of_nat (size X) else 1).
  assert (Hc : c = Z.min 1 (Z.of_nat (size X))) by (unfold c; destruct (Z.ltb_spec (Z.of_nat (size X)) 1); lia).
  destruct (pop_run m db1 k X s c (ToCmdLine3 "spop" (ALit <$> [k])) (λ members, mret (match members with [] => RNull | m :: _ => RBulk (ALit m) end)) Hs) as (l & db2 & E & Hnd & Hin & Hlen & S2);
    [by eapply HW|done|done|lia|].
  rewrite run_mret in E. eexists _, db2, _. split; [exact E|]. split; [exact S2|]. intros mem. destruct (decide (X = ∅)) as [->|HX].
  - rewrite size_empty in *. destruct l; [|cbn in Hlen; lia]. split; [|done]. cbn [list_to_set]. rewrite difference_empty_L. by apply insert_id.
  - assert (size X ≠ 0%nat) by (intros H0; apply HX; apply leibniz_equiv, size_empty_inv; lia). destruct l as [|x [|y l]]; [cbn in Hlen; lia| |cbn in Hlen; lia].
    exists x. cbn [list_to_set] in *. split; [set_solver|]. by rewrite union_empty_r_L.
Qed.

Lemma does_SRandN k n m db : 0 < n <= max_i64 → within m → sees m db → meets (OSRandN k n) m db.
Proof.
  intros Hn HW S. unfold set_exec, execSRandMember, ObjCmdThm.gives. change (negb (length (ALit <$> [k; Itoa n]) =? 1)%nat && negb (length (ALit <$> [k; Itoa n]) =? 2)%nat) with false. cbv iota.
  erewrite run_word by reflexivity. apply does_getAsSet; [done|intros; by apply (gives_ret t dl set_obj_ok m)|]. intros db1 X s S1 Hm Hs. unfold ObjCmdThm.gives. cbn [h_set].
  change (length (ALit <$> [k; Itoa n]) =? 1)%nat with false. cbv iota. erewrite run_word by reflexivity. rewrite ParseInt_Itoa by (unfold i64, min_i64; lia).
  rewrite (proj2 (Z.ltb_lt 0 n)) by lia.
  destruct (random_spec s X m db1 n (λ members, mret (RMultiBulk (ALit <$> members))) Hs) as (l & db2 & E & Hnd & Hin & Hlen & S2); [by eapply HW|done|lia|].
  rewrite run_mret in E. eexists _, db2, m. split; [exact E|]. split; [exact S2|]. intros mem. exists (list_to_set l). rewrite pop_size by done. split; [done|]. split; [lia|]. split; [done|].
  by apply pop_list.
Qed.

(** ** Several sets *)

Definition stop_of (stop : option Reply) : option (Set_ D) → M O (option reply) := match stop with None => never | Some e => when_empty (RConst e) end.

Lemma stop_spec stop (s : option (Set_ D)) X db : opt_ok T s X →
  stop_of stop s db = Ret (match stop with Some e => if decide (X = ∅) then Some (RConst e) else None | None => None end, db).
Proof.
  intros Hs. destruct stop as [e|]; [|done]. cbn [stop_of]. unfold when_empty, set_len. rewrite (opt_Len T s X Hs), run_lift, run_mret. do 2 f_equal.
  destruct (decide (X = ∅)) as [->|HX]; [done|]. rewrite (proj2 (Z.eqb_neq _ _)); [done|]. intros H0. apply HX. apply leibniz_equiv, size_empty_inv. lia.
Qed.

Definition loaded (out : Reply + list (gset bytes)) (r : reply + list (option (Set_ D))) : Prop :=
  match out, r with inl e, inl e' => e' = RConst e | inr Xs, inr ss => Forall2 (opt_ok T) ss Xs | _, _ => False end.

Lemma load_sets_spec m stop ks db : sees m db → ∃ r db', load_sets T (stop_of stop) ks db = Ret (r, db') ∧ sees m db' ∧ loaded (load_spec m stop ks) r.
Proof.
  revert db. induction ks as [|k ks IH]; intros db S; [eexists (inr []), db; split; [done|]; split; [done|]; constructor|].
  cbn [load_sets load_spec]. destruct (getAsSet_sees m db k S) as (r & db1 & E & S1 & H). rewrite (run_step _ _ _ _ _ E).
  assert (HF : ∀ h X, opt_ok T (h_set <$> h) X → ∃ r' db', (out ← stop_of stop (h_set <$> h);
      match out with
      | Some e => mret (inl e)
      | None => rest ← load_sets T (stop_of stop) ks; mret match rest with inl e => inl e | inr sets => inr ((h_set <$> h) :: sets) end
      end) db1 = Ret (r', db') ∧ sees m db' ∧
      loaded (match stop with
              | Some r => if decide (X = ∅) then inl r else match load_spec m stop ks with inl e => inl e | inr Xs => inr (X :: Xs) end
              | None => match load_spec m stop ks with inl e => inl e | inr Xs => inr (X :: Xs) end
              end) r').
  { intros h X Hh. rewrite (run_step _ _ _ _ _ (stop_spec stop _ X db1 Hh)).
    assert (HR : ∃ r' db', (rest ← load_sets T (stop_of stop) ks; mret match rest with inl e => inl e | inr sets => inr ((h_set <$> h) :: sets) end) db1 = Ret (r', db') ∧ sees m db' ∧
      loaded (match load_spec m stop ks with inl e => inl e | inr Xs => inr (X :: Xs) end) r').
    { destruct (IH db1 S1) as (r2 & db2 & E2 & S2 & H2). rewrite (run_step _ _ _ _ _ E2), run_mret. eexists _, db2. split; [done|]. split; [done|].
      unfold loaded in *. destruct (load_spec m stop ks), r2; try done. by constructor. }
    destruct stop as [e|]; [|exact HR]. destruct (decide (X = ∅)); [|exact HR]. eexists _, db1. rewrite run_mret. done. }
  destruct (m !! k) as [[X|]|].
  - destruct H as (s & -> & Hs). exact (HF (Some (MkHandle s _)) X Hs).
  - subst r. eexists _, db1. by rewrite run_mret.
  - subst r. exact (HF None ∅ eq_refl).
Qed.

(** What the loaded sets hold was in the key space. *)
Lemma load_within m stop ks Xs : within m → load_spec m stop ks = inr Xs → Forall (λ X, X ⊆ U) Xs.
Proof.
  intros HW. revert Xs. induction ks as [|k ks IH]; intros Xs E; cbn [load_spec] in E; [by simplify_eq|].
  assert (HF : ∀ X, X ⊆ U → match load_spec m stop ks with inl e => inl e | inr Xs => inr (X :: Xs) end = inr Xs → Forall (λ X, X ⊆ U) Xs).
  { intros X HX E'. destruct (load_spec m stop ks) as [|Xs']; [done|]. injection E' as <-. constructor; [done|]. by apply IH. }
  destruct (m !! k) as [[X|]|] eqn:Hm; [|done|].
  - pose proof (HW _ _ Hm) as HX. destruct stop; [destruct (decide _); [done|]|]; by eapply HF.
  - destruct stop; [by rewrite decide_True in E|]. eapply HF, E. set_solver.
Qed.

(** A combination of sets gives a new set. *)
Definition combines (comb : list (option (Set_ D)) → M O (Set_ D)) (f : list (gset bytes) → gset bytes) : Prop :=
  ∀ m db ss Xs, sees m db → Forall2 (opt_ok T) ss Xs → Forall (λ X, X ⊆ U) Xs → Xs ≠ [] →
    ∃ s db', comb ss db = Ret (s, db') ∧ ok s (f Xs) ∧ f Xs ⊆ U ∧ sees m db'.

Lemma add_all_spec ms s X db : ok s X → X ⊆ U → list_to_set ms ⊆ U → ∃ s', add_all T ms s db = Ret (s', db) ∧ ok s' (X ∪ list_to_set ms).
Proof.
  intros Hs HX Hms. unfold add_all, each_member. destruct (add_each T U HU ms s X 0 Hs HX Hms) as (s' & E & Hs'). rewrite run_lift, E. by exists s'.
Qed.

Lemma union_into_spec m ss Xs s X db : sees m db → Forall2 (opt_ok T) ss Xs → Forall (λ X, X ⊆ U) Xs → ok s X → X ⊆ U →
  ∃ s' db', union_into T ss s db = Ret (s', db') ∧ ok s' (X ∪ ⋃ Xs) ∧ sees m db'.
Proof.
  intros HS H. revert s X db HS. induction H as [|s1 X1 ss Xs H1 H IH]; intros s X db HS HF Hs HX; cbn [union_into].
  - exists s, db. rewrite union_list_nil. rewrite run_mret. by rewrite union_empty_r_L.
  - inversion_clear HF as [|? ? HX1 HFX]. destruct (members_of_spec s1 X1 m db H1 HS) as (l & db1 & E & HP & S1). rewrite (run_step _ _ _ _ _ E).
    destruct (perm_set _ _ HP) as [Hl _].
    destruct (add_all_spec l s X db1 Hs HX) as (s2 & E2 & H2); [by rewrite Hl|]. rewrite (run_step _ _ _ _ _ E2). rewrite Hl in H2.
    destruct (IH s2 (X ∪ X1) db1 S1 HFX H2) as (s' & db' & E' & H' & S'); [set_solver|]. exists s', db'. by rewrite union_list_cons, (assoc_L (∪)).
Qed.

Lemma union_within (Xs : list (gset bytes)) : Forall (λ X, X ⊆ U) Xs → ⋃ Xs ⊆ U.
Proof. intros H. induction H; rewrite ?union_list_nil, ?union_list_cons; set_solver. Qed.

Lemma union_combines : combines (objectUnion T) union_of.
Proof.
  intros m db ss Xs S H HF _. destruct (union_into_spec m ss Xs NewSet ∅ db S H HF (set_ok_new T)) as (s & db' & E & Hs & S'); [set_solver|].
  exists s, db'. rewrite union_empty_l_L in Hs. split_and!; try done. by apply union_within.
Qed.

Lemma diff_from_spec m ss Xs s X db : sees m db → Forall2 (opt_ok T) ss Xs → ok s X →
  ∃ s' db', diff_from ss s db = Ret (s', db') ∧ ok s' (X ∖ ⋃ Xs) ∧ sees m db'.
Proof.
  intros HS H. revert s X db HS. induction H as [|s1 X1 ss Xs H1 H IH]; intros s X db HS Hs; cbn [diff_from].
  - exists s, db. rewrite union_list_nil. rewrite run_mret. by rewrite difference_empty_L.
  - destruct (members_of_spec s1 X1 m db H1 HS) as (l & db1 & E & HP & S1). rewrite (run_step _ _ _ _ _ E). destruct (perm_set _ _ HP) as [Hl _].
    unfold each_member, set_len. destruct (remove_each T l s X 0 Hs) as (s2 & E2 & H2 & _). rewrite run_lift, E2. rewrite Hl in H2.
    rewrite (set_Len_spec T s2 _ H2), run_lift. rewrite union_list_cons, <- difference_difference_l_L.
    destruct (Z.eqb_spec (Z.of_nat (size (X ∖ X1))) 0) as [H0|H0].
    + exists s2, db1. rewrite run_mret. assert (X ∖ X1 = ∅) as HE by (apply leibniz_equiv, size_empty_inv; lia). rewrite HE in *.
      by replace (∅ ∖ ⋃ Xs : gset bytes) with (∅ : gset bytes) by set_solver.
    + by apply IH.
Qed.

Lemma diff_combines : combines (objectDiff T) diff_of.
Proof.
  intros m db ss Xs S H HF Hne. destruct H as [|s1 X1 ss Xs H1 H]; [done|]. inversion_clear HF as [|? ? HX1 HFX]. cbn [objectDiff diff_of].
  destruct (members_of_spec s1 X1 m db H1 S) as (l & db1 & E & HP & S1). rewrite (run_step _ _ _ _ _ E). destruct (perm_set _ _ HP) as [Hl _].
  destruct (add_all_spec l NewSet ∅ db1 (set_ok_new T)) as (s2 & E2 & H2); [set_solver|by rewrite Hl|]. rewrite (run_step _ _ _ _ _ E2). rewrite Hl, union_empty_l_L in H2.
  destruct (diff_from_spec m ss Xs s2 X1 db1 S1 H H2) as (s & db' & E' & Hs & S'). exists s, db'. split_and!; try done. set_solver.
Qed.

Lemma count_members_spec m ss Xs counts db : sees m db → Forall2 (opt_ok T) ss Xs →
  ∃ counts' db', count_members ss counts db = Ret (counts', db') ∧ sees m db' ∧ ∀ x, default 0 (counts' !! x) = default 0 (counts !! x) + hits x Xs.
Proof.
  intros HS H. revert counts db HS. induction H as [|s1 X1 ss Xs H1 H IH]; intros counts db HS; cbn [count_members hits foldr].
  - exists counts, db. rewrite run_mret. split_and!; [done..|]. intros x. lia.
  - destruct (members_of_spec s1 X1 m db H1 HS) as (l & db1 & E & HP & S1). rewrite (run_step _ _ _ _ _ E). destruct (perm_set _ _ HP) as [Hl Hnd].
    destruct (IH (foldl incr_count counts l) db1 S1) as (counts' & db' & E' & S' & H'). exists counts', db'. split_and!; [done..|]. intros x.
    rewrite H', foldl_incr by done. rewrite (bool_decide_ext (x ∈ l) (x ∈ X1)) by (rewrite <- Hl; by rewrite elem_of_list_to_set). fold (hits x Xs). lia.
Qed.

Lemma inter_combines : combines (objectIntersect T) inter_of.
Proof.
  intros m db ss Xs S H HF Hne. unfold objectIntersect. assert (Hlen : length ss = length Xs) by (by eapply Forall2_length).
  destruct Xs as [|X Xs]; [done|]. rewrite (proj2 (Nat.eqb_neq (length ss) 0)) by (cbn in Hlen; lia).
  destruct (count_members_spec m ss (X :: Xs) ∅ db S H) as (counts & db1 & E & S1 & Hc). rewrite (run_step _ _ _ _ _ E), run_choose, Hlen.
  set (order := int_order (draws db1) counts). set (ks := fst <$> filter (λ kv : bytes * Z, kv.2 = Z.of_nat (length (X :: Xs))) order).
  assert (Hin : list_to_set ks = inter_of (X :: Xs)).
  { apply set_eq. intros x. rewrite elem_of_list_to_set, inter_of_spec, <- (proj2 (proj2 (hits_all x (X :: Xs)))). unfold ks, order. rewrite list_elem_of_fmap.
    specialize (Hc x). rewrite lookup_empty in Hc. generalize dependent (hits x (X :: Xs)). intros h Hc. split.
    - intros ([y n] & -> & [Hn Hy]%list_elem_of_filter). rewrite (proj2 Hfair), elem_of_map_to_list in Hy. cbn [fst snd] in *. rewrite Hy in Hc. cbn in Hc. lia.
    - intros Hx. destruct (counts !! x) as [n|] eqn:Ex; cbn in Hc; [|cbn [length] in Hx; lia]. exists (x, n). split; [done|]. apply list_elem_of_filter. split; [cbn [snd]; lia|].
      by rewrite (proj2 Hfair), elem_of_map_to_list. }
  assert (Hsub : inter_of (X :: Xs) ⊆ U).
  { intros x. rewrite inter_of_spec, Forall_cons. intros [Hx _]. inversion_clear HF. set_solver. }
  destruct (add_all_spec ks NewSet ∅ (set_draws db1 (Datatypes.S (draws db1))) (set_ok_new T)) as (s & E2 & H2); [set_solver|by rewrite Hin|].
  rewrite E2. eexists s, _. split; [done|]. rewrite Hin, union_empty_l_L in H2. split_and!; try done. by apply sees_draw.
Qed.

Lemma load_nonempty m stop ks : load_spec m stop ks = inr [] → ks = [].
Proof. destruct ks as [|k ks]; [done|]. cbn [load_spec]. by repeat case_match. Qed.

(** SINTER, SUNION and SDIFF. *)
Lemma does_calc stop comb f ks m db : combines comb f → ks ≠ [] → within m → sees m db →
  gives (set_calc T (stop_of stop) comb (ALit <$> ks)) db (λ m' r, calc_spec m m' r stop ks (λ Xs, m' = m ∧ lists_all (f Xs) r)).
Proof.
  intros HC Hne HW S. unfold set_calc, ObjCmdThm.gives, calc_spec. rewrite (run_step _ _ _ _ _ (run_words _ _)).
  destruct (load_sets_spec m stop ks db S) as (r & db1 & E & S1 & H). rewrite (run_step _ _ _ _ _ E). unfold loaded in H.
  destruct (load_spec m stop ks) as [e|Xs] eqn:EL, r as [e'|ss]; try done.
  - subst e'. by ret m.
  - assert (HX : Xs ≠ []) by (intros ->; by apply (load_nonempty m stop ks) in EL).
    destruct (HC m db1 ss Xs S1 H (load_within m stop ks Xs HW EL) HX) as (s & db2 & E2 & Hs & _ & S2). rewrite (run_step _ _ _ _ _ E2).
    destruct (set2reply_spec s (f Xs) m db2 Hs S2) as (r & db3 & E3 & S3 & H3). exists r, db3, m. by split.
Qed.

(** SUNIONSTORE and SDIFFSTORE. *)
Lemma does_calc_store name comb f d ks m db : combines comb f → ks ≠ [] → within m → sees m db →
  ObjCmdThm.gives t (match load_spec m None ks with inl _ => dl | inr _ => delete d dl end) set_obj_ok (calc_store T name comb (ALit <$> (d :: ks))) db (λ m' r, calc_spec m m' r None ks (λ Xs, stored m m' r d (f Xs))).
Proof.
  intros HC Hne HW S. unfold calc_store, ObjCmdThm.gives, calc_spec. erewrite run_word by reflexivity. change (drop 1 (ALit <$> (d :: ks))) with (ALit <$> ks).
  rewrite (run_step _ _ _ _ _ (run_words _ _)). destruct (load_sets_spec m None ks db S) as (r & db1 & E & S1 & H). change never with (stop_of None).
  rewrite (run_step _ _ _ _ _ E). unfold loaded in H. destruct (load_spec m None ks) as [e|Xs] eqn:EL, r as [e'|ss]; try done; [subst e'; by ret m|].
  assert (HX : Xs ≠ []) by (intros ->; by apply (load_nonempty m None ks) in EL).
  destruct (HC m db1 ss Xs S1 H (load_within m None ks Xs HW EL) HX) as (s & db2 & E2 & Hs & _ & S2). rewrite (run_step _ _ _ _ _ E2).
  destruct (Remove_sees t dl set_obj_ok m db2 d S2) as (db3 & E3 & S3 & _). rewrite (run_step _ _ _ _ _ E3). unfold set_len, stored, put_set.
  apply (sees_deadlines t dl (delete d dl)) in S3; [|by intros k [Hk _]%lookup_delete_is_Some; rewrite lookup_delete_ne].
  rewrite (set_Len_spec T s _ Hs), run_lift. destruct (decide (f Xs = ∅)) as [HE|HE].
  - rewrite HE, size_empty. change (Z.of_nat 0 =? 0) with true. cbv iota. by ret (delete d m).
  - rewrite (proj2 (Z.eqb_neq _ _)) by (intros H0; apply HE; apply leibniz_equiv, size_empty_inv; lia).
    assert (Hdel : data db3 !! d = None).
    { destruct (key_Remove_spec d db2) as (db3' & E3' & D3 & _). rewrite E3 in E3'. injection E3' as <-. rewrite D3. apply lookup_delete_eq. }
    destruct (put_new_sees t (delete d dl) set_obj_ok (delete d m) db3 d (SetRobj (CurrentEncoding s) (PSet s)) (f Xs) S3) as (r' & db4 & E4 & S4 & _); [apply lookup_delete_eq|apply lookup_delete_eq|done|done|].
    rewrite !run_assoc, (run_step _ _ _ _ _ E4), run_ret, run_addAof, run_lift, run_mret. eexists _, _, _. split; [done|].
    split; [eapply (sees_same t (delete d dl) set_obj_ok _ db4); [done..|exact S4]|]. intros mem. by rewrite insert_delete_eq.
Qed.

Lemma does_SInterCard ks limit m db : ToUpper (str "LIMIT") = str "LIMIT" → set_op_ok U (OSInterCard ks limit) → within m → sees m db → meets (OSInterCard ks limit) m db.
Proof.
  intros Hup (Hne & Hks & Hlim) HW HS. cbn [set_exec set_step]. set (opt := match limit with Some l => [str "LIMIT"; Itoa l] | None => [] end).
  set (words := Itoa (Z.of_nat (length ks)) :: ks ++ opt). set (n := Z.of_nat (length ks)) in *.
  assert (Hn : 0 < n) by (unfold n; destruct ks; [done|cbn; lia]).
  assert (Hlen : length (ALit <$> words) = (1 + length ks + length opt)%nat) by (unfold words; rewrite length_fmap; cbn; rewrite length_app; lia).
  unfold execSInterCard, ObjCmdThm.gives. rewrite (proj2 (Nat.ltb_ge _ _)) by lia. erewrite (run_word words) by reflexivity.
  rewrite ParseInt_Itoa by (unfold i64, min_i64; lia). rewrite (proj2 (Z.ltb_ge n 1)) by lia. rewrite (wrap64_id (1 + n)) by (unfold i64, min_i64; lia).
  rewrite Hlen, (proj2 (Z.ltb_ge _ _)) by lia.
  assert (HL : sintercard_limit (ALit <$> words) (1 + n) db = Ret (inr (match limit with Some l => l | None => 0 end), db)).
  { unfold sintercard_limit. rewrite Hlen. destruct limit as [l|]; unfold opt.
    - rewrite (proj2 (Z.ltb_lt _ _)) by (cbn; lia). unfold str_atZ. rewrite !(proj2 (Z.ltb_ge _ 0)) by lia.
      assert (Hw : ∀ i, words !! S (length ks + i) = opt !! i).
      { intros i. change (words !! S (length ks + i)) with ((ks ++ opt) !! (length ks + i)%nat). rewrite lookup_app_r by lia. f_equal. lia. }
      rewrite (run_word words _ (str "LIMIT")) by (replace (Z.to_nat (1 + n)) with (S (length ks + 0)) by lia; by rewrite Hw).
      rewrite Hup. change (bytes_eqb (str "LIMIT") (str "LIMIT")) with true. cbv iota. rewrite (proj2 (Z.leb_gt _ _)) by (cbn; lia).
      rewrite (run_word words _ (Itoa l)) by (replace (Z.to_nat (1 + n + 1)) with (S (length ks + 1)) by lia; by rewrite Hw).
      rewrite ParseInt_Itoa by (unfold i64, min_i64; lia). rewrite (proj2 (Z.ltb_ge l 0)) by lia. by rewrite run_mret.
    - rewrite (proj2 (Z.ltb_ge _ _)) by (cbn; lia). done. }
  rewrite (run_step _ _ _ _ _ HL).
  assert (HT : take (Z.to_nat n) (drop 1 (ALit <$> words)) = ALit <$> ks).
  { change (drop 1 (ALit <$> words)) with (ALit <$> (ks ++ opt)). rewrite <- fmap_take. unfold n. by rewrite Nat2Z.id, take_app_length. }
  rewrite HT, (run_step _ _ _ _ _ (run_words _ _)). change (when_empty (RInt 0)) with (stop_of (Some (IntReply 0))).
  destruct (load_sets_spec m (Some (IntReply 0)) ks db HS) as (r & db1 & E & S1 & H). rewrite (run_step _ _ _ _ _ E). unfold loaded in H.
  unfold set_step, calc_spec. destruct (load_spec m _ ks) as [e|Xs] eqn:EL, r as [e'|ss]; try done; [subst e'; by ret m|].
  assert (HX : Xs ≠ []) by (intros ->; by apply (load_nonempty m _ ks) in EL).
  destruct (inter_combines m db1 ss Xs S1 H (load_within m _ ks Xs HW EL) HX) as (s & db2 & E2 & Hs & _ & S2). rewrite (run_step _ _ _ _ _ E2).
  unfold set_len. rewrite (set_Len_spec T s _ Hs), run_lift. ret m. intros mem. split; [done|]. cbn [resolve RInt]. f_equal.
  destruct limit as [l|]; [|done]. destruct (Z.ltb_spec 0 l); [|done]. cbn [andb]. destruct (Z.ltb_spec l (Z.of_nat (size (inter_of Xs)))); lia.
Qed.

(** ** Sequences of commands *)

Lemma within_insert m k X : within m → X ⊆ U → within (<[k := Own X]> m).
Proof. intros HW HX k' X' [[_ [= <-]]|[_ H]]%lookup_insert_Some; [done|]. by eapply HW. Qed.
Lemma within_removed m k : within m → within (delete k m).
Proof. intros HW k' X' [_ H]%lookup_delete_Some. by eapply HW. Qed.

Lemma within_on_set m k m' (r missing : Reply) (found : gset bytes → Prop) : within m → (∀ X, X ⊆ U → found X → within m') →
  on_set m k m' r missing found → within m'.
Proof. unfold on_set. intros HW HF H. destruct (m !! k) as [[X|]|] eqn:Hm; [|by destruct H as [-> _]..]. eapply HF, H. by eapply HW. Qed.
Lemma within_calc m m' (r : Reply) (stop : option Reply) (ks : list bytes) (out : list (gset bytes) → Prop) : within m → (∀ Xs, Forall (λ X, X ⊆ U) Xs → out Xs → within m') →
  calc_spec m m' r stop ks out → within m'.
Proof. unfold calc_spec. intros HW HF H. destruct (load_spec m stop ks) as [e|Xs] eqn:E; [by destruct H as [-> _]|]. eapply HF, H. by eapply load_within. Qed.
Lemma within_stored m m' (r : Reply) d X : within m → X ⊆ U → stored m m' r d X → within m'.
Proof. intros HW HX [-> _]. destruct (decide _); [by apply within_removed|by apply within_insert]. Qed.

Lemma step_within m o m' (r : Reply) : within m → set_op_ok U o → set_step m o m' r → within m'.
Proof.
  intros HW Ho. destruct o; cbn [set_step set_op_ok] in *.
  - intros H. destruct (m !! k) as [[X|]|] eqn:Hm; destruct H as [-> _]; [|done|]; apply within_insert; try done; [|set_solver].
    pose proof (HW _ _ Hm). set_solver.
  - apply within_on_set; [done|]. intros X HX [-> _]. destruct (decide _); [by apply within_removed|]. apply within_insert; [done|set_solver].
  - apply within_on_set; [done|]. by intros X HX [-> _].
  - apply within_on_set; [done|]. by intros X HX [-> _].
  - apply within_on_set; [done|]. by intros X HX [-> _].
  - apply within_on_set; [done|]. by intros X HX [-> _].
  - apply within_on_set; [done|]. intros X HX. destruct (decide _); [by intros [-> _]|]. intros (x & _ & -> & _). apply within_insert; [done|set_solver].
  - apply within_on_set; [done|]. intros X HX (Y & _ & _ & -> & _). apply within_insert; [done|set_solver].
  - apply within_on_set; [done|]. by intros X HX (Y & _ & _ & -> & _).
  - apply within_calc; [done|]. by intros Xs HX [-> _].
  - apply within_calc; [done|]. by intros Xs HX [-> _].
  - apply within_calc; [done|]. by intros Xs HX [-> _].
  - apply within_calc; [done|]. by intros Xs HX [-> _].
  - apply within_calc; [done|]. intros Xs HX. apply within_stored; [done|]. by apply union_within.
  - apply within_calc; [done|]. intros Xs HX. apply within_stored; [done|]. destruct HX as [|X Xs HX HXs]; cbn [diff_of]; set_solver.
Qed.

Lemma does_set_op o m db : ToUpper (str "LIMIT") = str "LIMIT" → set_op_ok U o → within m → dl_of dl m → sees m db →
  ObjCmdThm.gives t (set_keeps m o dl) set_obj_ok (set_exec T o) db (set_step m o).
Proof.
  intros Hup Ho HW Hdl S. destruct o; cbn [set_op_ok set_keeps] in *.
  - by apply does_SAdd. - by apply does_SRem. - by apply does_SIsMember. - by apply does_SMIsMember. - by apply does_SCard. - by apply does_SMembers.
  - by apply does_SPop. - by apply does_SPopN. - by apply does_SRandN.
  - exact (does_calc (Some EmptyMultiBulkReply) _ _ ks m db inter_combines Ho HW S). - exact (does_calc None _ _ ks m db union_combines Ho HW S).
  - exact (does_calc None _ _ ks m db diff_combines Ho HW S). - by apply does_SInterCard.
  - exact (does_calc_store "sunionstore" _ _ d ks m db union_combines Ho HW S). - exact (does_calc_store "sdiffstore" _ _ d ks m db diff_combines Ho HW S).
Qed.

End commands.

Section sequences.
Context {O D : Type} `{!DictOps D value} `{!DictLaws D value} `{!Objects O} `{!ObjOf O (set_obj D)} {env : Env} {rt : Runtime} {choices : Choices D}.
Context (Hfair : fair) (T : EncodingThresholds) (U : gset bytes) (HU : universe U).

Definition set_exec_at (t : Z) (o : set_op) : M O reply := set_exec (env := at_time t env) T o.
Definition set_step_at (t : Z) : sets → set_op → sets → Reply → Prop := set_step.

(** C5: Set commands behave as operations on finite sets, while time passes.  Take any sequence of SADD, SREM, SISMEMBER, SMISMEMBER, SCARD, SMEMBERS,
    SPOP without a count or with a positive one, SRANDMEMBER with a positive count, SINTER, SUNION, SDIFF, SINTERCARD, SUNIONSTORE and SDIFFSTORE,
    each at a time that is not before that of the one before it (all the readings of the clock within one command agree).  The keys hold values of
    other types or sets that were made by commands, not read from a dump (see [sadd_to_loaded_set_is_lost]).  Every command returns, and replies and
    effects are those of the operations on a map from keys to finite sets of byte strings from which, before each command, the keys have gone whose
    deadline has passed, whatever the encodings, the orders of traversal and the random seeds: SPOP removes exactly the members it replies with, as
    many as were asked for, and values of other types give the error and stay.  A key keeps its deadline as long as it stays, except that SUNIONSTORE
    and SDIFFSTORE leave their destination without one.  The header of every set tells the encoding the set has. *)
Theorem set_commands_refine_sets os t v (db : DB O) :
  ToUpper (str "LIMIT") = str "LIMIT" → sees t v.2 (set_obj_ok T) v.1 db → within U v.1 → forward_in_time t os → Forall (set_op_ok U ∘ snd) os →
  ∃ rs db' v', timed_run set_exec_at os db = Ret (rs, db') ∧ timed_steps set_step_at set_keeps v os v' rs ∧
    sees (last_time t os) v'.2 (set_obj_ok T) v'.1 db'.
Proof.
  intros Hup HS HW Hin Ho.
  apply (timed_run_meets set_step_at set_keeps (λ _, set_obj_ok T) set_exec_at (λ t t' x a _ H, H) (λ _ m o, within U m ∧ set_op_ok U o)); try done.
  - intros t1 m dl o db1 [HW1 Ho1] Hdl S1. exact (does_set_op (env := at_time t1 env) t1 (λ _, eq_refl) Hfair T dl U HU o m db1 Hup Ho1 HW1 Hdl S1).
  - apply (timed_ok_inv _ _ (within U) (set_op_ok U ∘ snd)); try done.
    + intros m m' Hsub HWm k X Hk. by eapply HWm, Hsub.
    + intros t1 m o m' r HWm Ho1 Hs. exact (step_within (env := at_time t1 env) t1 (λ _, eq_refl) Hfair U HU m o m' r HWm Ho1 Hs).
Qed.
End sequences.

(** ** Concrete runs *)

#[local] Existing Instance ex_runtime.
#[local] Instance just_sets : Objects (set_obj simple) := {| obj_type := λ _, TypeSet; obj_elems := λ _, [] |}.
#[local] Instance set_of_set : ObjOf (set_obj simple) (set_obj simple).
Proof. refine {| inj_obj := λ x, x; prj_obj := λ x, Some x |}; [done|]. by intros o x [= ->]. Defined.
#[local] Instance at_rest : Env :=
  {| clock := λ _, 0; draw := λ _ _, false; MaxmemoryPolicy := []; ParseIntError := λ _, []; ValueDigest := λ b, b |}.
#[local] Instance in_order : Choices simple :=
  {| dict_order := λ _ d, map_to_list (SimpleDict.m d); int_order := λ _ c, map_to_list c; rand_seed := λ _, 12345; compile := λ _, Some (λ _, true) |}.

Definition no_sets : DB (set_obj simple) := MkDB 0 ∅ ∅ ∅ ∅ (MkTimeWheel Second [[]; []; []; []] ∅ 0 4 0) [] [] [] 0 0.

(** The keys [e] and [c] hold empty sets and have a deadline, at the time 5. *)
Definition dated_sets : DB (set_obj simple) :=
  set_ttl (set_data no_sets {[str "e" := EObj new_set; str "c" := EObj new_set]}) {[str "e" := 5; str "c" := 5]}.
Definition dated_set_view : snapshot (gset bytes) := ({[str "e" := Own ∅; str "c" := Own ∅]}, {[str "e" := 5; str "c" := 5]}).

Lemma dated_sets_seen : sees (T := set_obj simple) 0 dated_set_view.2 (set_obj_ok set_script_T) dated_set_view.1 dated_sets.
Proof.
  split; [by apply (New_wf Second 4)| | |].
  - intros k d. cbn [ttlMap data dated_sets set_ttl set_data]. intros [[<- _]|[_ [<- _]%lookup_singleton_Some]]%lookup_insert_Some; eexists; vm_compute; reflexivity.
  - intros k. unfold alive. cbn [dated_set_view fst ttlMap data dated_sets set_ttl set_data].
    destruct (decide (k = str "e")) as [->|He]; [rewrite !lookup_insert_eq|rewrite !lookup_insert_ne by done; destruct (decide (k = str "c")) as [->|Hc]; [rewrite !lookup_singleton_eq|by rewrite !lookup_singleton_ne by done]].
    all: exists new_set; split; [done|]; split; [apply set_ok_new|done].
  - intros k _. done.
Qed.

Definition set_ops : list (Z * set_op) :=
  [(0, OSAdd (str "a") [str "1"; str "2"; str "1"]); (1, OSAdd (str "b") [str "2"; str "x"; str "y"; str "z"; str "3"]); (2, OSInter [str "a"; str "b"]); (2, OSAdd (str "e") [str "3"]);
   (3, OSUnionStore (str "c") [str "a"; str "b"; str "d"]); (5, OSIsMember (str "e") (str "3")); (6, OSIsMember (str "e") (str "3")); (6, OSCard (str "c"));
   (7, OSPopN (str "c") 2); (7, OSRem (str "a") [str "1"; str "2"]); (7, OSCard (str "a")); (8, OSDiff [str "b"; str "c"]); (8, OSInterCard [str "b"; str "b"] (Some 3)); (8, OSPop (str "b"));
   (9, OSMIsMember (str "b") [str "q"; str "x"]); (9, OSDiffStore (str "c") [str "b"; str "b"]); (9, OSMembers (str "c"))].

Definition some_members : gset bytes := list_to_set [str "1"; str "2"; str "3"; str "x"; str "y"; str "z"].

Lemma set_commands_refine_sets_witness :
  ∃ rs db' v', timed_run (set_exec_at set_script_T) set_ops dated_sets = Ret (rs, db') ∧ timed_steps set_step_at set_keeps dated_set_view set_ops v' rs ∧
    sees (T := set_obj simple) 9 v'.2 (set_obj_ok set_script_T) v'.1 db' ∧ take 3 (drop 5 rs) = [IntReply 1; IntReply 0; IntReply 6].
Proof.
  assert (HT : ∃ rs db' v', timed_run (set_exec_at set_script_T) set_ops dated_sets = Ret (rs, db') ∧ timed_steps set_step_at set_keeps dated_set_view set_ops v' rs ∧
    sees (T := set_obj simple) 9 v'.2 (set_obj_ok set_script_T) v'.1 db').
  { apply (set_commands_refine_sets (D := simple)) with (U := some_members) (t := 0).
    - split; [intros n d _; cbn|intros n c]; reflexivity.
    - split; [by vm_compute|]. intros x Hx%elem_of_list_to_set. revert x Hx. apply Forall_forall. repeat constructor; unfold small; cbn; lia.
    - reflexivity.
    - apply dated_sets_seen.
    - intros k X. cbn [dated_set_view fst]. intros [[_ [= <-]]|[_ [_ [= <-]]%lookup_singleton_Some]]%lookup_insert_Some; set_solver.
    - cbn. lia.
    - repeat constructor; try done; try (unfold max_i64; cbn; lia); unfold some_members; set_solver. }
  destruct HT as (rs & db' & v' & E & HT & S'). exists rs, db', v'. split; [done|]. split; [done|]. split; [done|].
  assert (HR : timed_run (set_exec_at set_script_T) set_ops dated_sets ≫= (λ '(rs, _), Ret (take 3 (drop 5 rs))) = Ret [IntReply 1; IntReply 0; IntReply 6]) by (vm_compute; reflexivity).
  rewrite E in HR. by injection HR.
Defined.

(** What a client sees of two commands in a row. *)
Definition two_replies (h1 h2 : M (set_obj simple) reply) (db : DB (set_obj simple)) : res (Reply * Reply) :=
  '(r1, db1) ← h1 db; '(r2, db2) ← h2 db1; Ret (resolve (memory db1) r1, resolve (memory db2) r2).

(** A set that was loaded from a dump is copied by every command: SADD replies 1
    and the member is not there. *)
Definition loaded_set : DB (set_obj simple) := set_data no_sets {[str "a" := EObj (PlainSet (MkHashSet (SimpleDict.MkSimple {[str "1" := VNil]})))]}.
Theorem sadd_to_loaded_set_is_lost :
  two_replies (execSAdd set_script_T (ALit <$> [str "a"; str "x"])) (execSIsMember set_script_T (ALit <$> [str "a"; str "x"])) loaded_set = Ret (IntReply 1, IntReply 0) ∧
  two_replies (execSRem set_script_T (ALit <$> [str "a"; str "x"])) (execSCard set_script_T (ALit <$> [str "a"])) loaded_set = Ret (IntReply 0, IntReply 1).
Proof. split; by vm_compute. Qed.

Definition one_set (k : string) (ms : list string) : M (set_obj simple) unit := _ ← execSAdd set_script_T (ALit <$> (str k :: (str <$> ms))); mret tt.

(** SPOP of the last member leaves the key, and SRANDMEMBER of the empty set
    panics. *)
Theorem spop_leaves_empty_set :
  two_replies (one_set "a" ["x"]%string;; execSPop set_script_T (ALit <$> [str "a"])) (execExists [ALit (str "a")]) no_sets = Ret (BulkReply (Some (str "x")), IntReply 1) ∧
  (one_set "a" ["x"]%string;; _ ← execSPop set_script_T (ALit <$> [str "a"]); execSRandMember set_script_T [ALit (str "a")]) no_sets = Panic.
Proof. split; by vm_compute. Qed.

(** The undo log of SPOP takes the arguments after the key for members: it has
    no line for the member that was taken. *)
Theorem spop_is_not_undone :
  (one_set "a" ["x"]%string;; undoSetChange set_script_T [ALit (str "a")]) no_sets ≫= (λ '(ls, _), Ret ls) = Ret [].
Proof. by vm_compute. Qed.

(** SINTERSTORE leaves the old value of the destination when a set is empty or
    missing, and stores an empty set when nothing is common. *)
Theorem sinterstore_of_nothing :
  two_replies (one_set "d" ["old"]%string;; execSInterStore set_script_T (ALit <$> [str "d"; str "none"])) (execSIsMember set_script_T (ALit <$> [str "d"; str "old"])) no_sets
    = Ret (IntReply 0, IntReply 1) ∧
  two_replies (one_set "a" ["x"]%string;; one_set "b" ["y"]%string;; execSInterStore set_script_T (ALit <$> [str "d"; str "a"; str "b"])) (execExists [ALit (str "d")]) no_sets
    = Ret (IntReply 0, IntReply 1).
Proof. split; by vm_compute. Qed.

(** SSCAN without a cursor, or with an option that lacks its value, is an index
    out of range. *)
Theorem sscan_short_line_panics :
  (one_set "a" ["x"]%string;; execSScan set_script_T [ALit (str "a")]) no_sets = Panic ∧
  execSScan set_script_T (ALit <$> [str "a"; str "0"; str "count"]) no_sets = Panic.
Proof. split; by vm_compute. Qed.
