(* ===== verification/HashCmd.v ===== *)
(** * Hash commands: [internal/command/hash.go] and [hash_ttl.go], with the undo
    logs of hashes in [tx_utils.go]

    A key may hold a hash object behind an object header, a hash object, or a
    dict, which is what loading a dump creates and which a handler wraps in a
    hash for the time of a command. *)

From stdpp Require Import base gmap list strings.
From Stdlib Require Import ZArith Lia Ascii.
From S2P Require Import Prelude GoText Dict ObjString ObjHash Strconv Resp Runtime GoTime TimeWheel KeySpace StringCmd KeyCmd Tx ObjCmd ListCmd SetCmd.

Local Open Scope Z_scope.

(** ** Data *)

Inductive hash_obj (D : Type) := HashRobj (enc : Encoding) (h : Hash_ D) | PlainHash (h : Hash_ D) | PlainDict (d : D).
Arguments HashRobj {D} enc h.
Arguments PlainHash {D} h.
Arguments PlainDict {D} d.

(** Where the hash that a handler works on belongs. *)
Inductive hash_home := InRobj (enc : Encoding) | InEntity | InDict.

Record hash_handle {D : Type} := MkHH { the_hash : Hash_ D; home : hash_home }.
Arguments hash_handle : clear implicits.
Arguments MkHH {D}.

(** [toBytes] *)
Definition toBytes (v : value) : arg :=
  match v with VBytes b => ALit b | VStr s => ALit s | VInt n => ALit (formatInt64 n) | VNil => ANil end.

Section hash.
Context {O D : Type} `{!DictOps D value} `{!Objects O} `{!ObjOf O (hash_obj D)} {env : Env} {rt : Runtime} {choices : Choices D}.
Context (Thresholds : EncodingThresholds).
Local Abbreviation M := (M O).
Local Abbreviation Hash_ := (Hash_ D).

(** ** Access *)

Definition open_hash (v : hash_obj D) : hash_handle D :=
  match v with
  | HashRobj enc h => MkHH h (InRobj enc)
  | PlainHash h => MkHH h InEntity
  | PlainDict d => MkHH (NewHashFromDict d) InDict
  end.

(** The hash has changed in place: of a wrapped dict only the dict is kept. *)
Definition store_hash (key : bytes) (w : hash_home) (h : Hash_) : M unit :=
  match w with
  | InRobj enc => store_obj key (HashRobj enc h)
  | InEntity => store_obj key (PlainHash h)
  | InDict => match hashtable h with Some d => store_obj key (PlainDict d) | None => mret tt end
  end.

(** The order in which the hashtable of a hash is traversed. *)
Definition hash_order (h : Hash_) : M (list (bytes * value)) :=
  choose (λ n, match hashtable h with Some d => dict_order n d | None => [] end).

(** [hash.PurgeExpiredFields(nowMs)] *)
Definition purge (key : bytes) (w : hash_home) (h : Hash_) (nowMs : Z) : M Hash_ :=
  ord ← choose (λ n, int_order n (default ∅ (fieldExpire h)));
  '(h, _) ← lift (PurgeExpiredFields h nowMs ord);
  store_hash key w h;;
  mret h.

Definition now_ms : M Z := t ← Now; mret (time_UnixMilli t).

(** [if hash.HasFieldExpiries() { hash.PurgeExpiredFields(...) }] *)
Definition lazy_purge (key : bytes) (hh : hash_handle D) : M (hash_handle D) :=
  if HasFieldExpiries (the_hash hh) then
    nowMs ← now_ms;
    h ← purge key (home hh) (the_hash hh) nowMs;
    mret (MkHH h (home hh))
  else mret hh.

Definition getAsHash (key : bytes) : M (reply + option (hash_handle D)) :=
  r ← get_obj key;
  match r with
  | inl e => mret (inl e)
  | inr None => mret (inr None)
  | inr (Some v) => hh ← lazy_purge key (open_hash v); mret (inr (Some hh))
  end.

(** A dict is a value of another type here.  The flag tells that the hash is
    new. *)
Definition getOrInitHash (key : bytes) : M (reply + hash_handle D * bool) :=
  r ← get_obj key;
  match r with
  | inl e => mret (inl e)
  | inr None => PutEntity key (EObj (inj_obj (HashRobj EncListpack NewHash)));; mret (inr (MkHH NewHash (InRobj EncListpack), true))
  | inr (Some (PlainDict _)) => mret (inl RWrongType)
  | inr (Some v) => mret (inr (open_hash v, false))
  end.

(** The conversion to a dict stays. *)
Definition getAsDict (key : bytes) : M (reply + option D) :=
  r ← get_obj key;
  match r with
  | inl e => mret (inl e)
  | inr None => mret (inr None)
  | inr (Some (PlainDict d)) => mret (inr (Some d))
  | inr (Some v) =>
      let hh := open_hash v in
      '(h, d) ← lift (GetAsDict (the_hash hh));
      store_hash key (home hh) h;;
      mret (inr (Some d))
  end.

Definition hash_get (h : Hash_) (field : bytes) : M (value * bool) := lift (ObjHash.Get h field).
Definition hash_len (h : Hash_) : M Z := lift (ObjHash.Len h).

(** ** Setting *)

(** The pairs after a key. *)
Fixpoint pairs_of (l : list bytes) : list (bytes * bytes) :=
  match l with f :: v :: l => (f, v) :: pairs_of l | _ => [] end.

Definition put_pair (st : Hash_ * Z) (p : bytes * bytes) : res (Hash_ * Z) :=
  '(h, n) ← ObjHash.Put Thresholds st.1 p.1 (VBytes p.2); Ret (h, st.2 + n).

Definition execHSet : ExecFunc O := λ args,
  if (length args <? 3)%nat || negb (Nat.odd (length args)) then mret RSyntax else
  key ← str_at args 0;
  rest ← arg_strs (drop 1 args);
  r ← getOrInitHash key;
  match r with
  | inl e => mret e
  | inr (hh, _) =>
      '(h, result) ← lift (foldM put_pair (pairs_of rest) (the_hash hh, 0));
      store_hash key (home hh) h;;
      addAof (ToCmdLine3 "hset" args);;
      mret (RInt result)
  end.

Definition execHSetNX : ExecFunc O := λ args,
  key ← str_at args 0;
  field ← str_at args 1;
  value ← str_at args 2;
  r ← getOrInitHash key;
  match r with
  | inl e => mret e
  | inr (hh, _) =>
      '(h, result) ← lift (ObjHash.PutIfAbsent Thresholds (the_hash hh) field (VBytes value));
      store_hash key (home hh) h;;
      when (0 <? result) (addAof (ToCmdLine3 "hsetnx" args));;
      mret (RInt result)
  end.

Definition execHMSet : ExecFunc O := λ args,
  if negb (Nat.odd (length args)) then mret RSyntax else
  key ← str_at args 0;
  rest ← arg_strs (drop 1 args);
  r ← getOrInitHash key;
  match r with
  | inl e => mret e
  | inr (hh, _) =>
      '(h, _) ← lift (foldM put_pair (pairs_of rest) (the_hash hh, 0));
      store_hash key (home hh) h;;
      addAof (ToCmdLine3 "hmset" args);;
      mret ROk
  end.

(** ** Reading *)

(** A handler that reads a hash, with the reply for a missing key. *)
Definition reading (key : bytes) (missing : reply) (f : Hash_ → M reply) : M reply :=
  r ← getAsHash key;
  match r with
  | inl e => mret e
  | inr None => mret missing
  | inr (Some hh) => f (the_hash hh)
  end.

Definition execHGet : ExecFunc O := λ args,
  key ← str_at args 0;
  field ← str_at args 1;
  reading key RNull (λ h, '(raw, exists_) ← hash_get h field; mret (if exists_ : bool then RBulk (toBytes raw) else RNull)).

Definition execHExists : ExecFunc O := λ args,
  key ← str_at args 0;
  field ← str_at args 1;
  reading key (RInt 0) (λ h, '(_, exists_) ← hash_get h field; mret (RInt (b2z exists_))).

Definition execHLen : ExecFunc O := λ args,
  key ← str_at args 0;
  reading key (RInt 0) (λ h, n ← hash_len h; mret (RInt n)).

Definition arg_len (a : arg) : nat := match a with ALit b => length b | ARef s => SLen s | ANil => 0 end.

Definition execHStrlen : ExecFunc O := λ args,
  key ← str_at args 0;
  field ← str_at args 1;
  reading key (RInt 0) (λ h, '(raw, exists_) ← hash_get h field;
    mret (RInt (if exists_ : bool then Z.of_nat (arg_len (toBytes raw)) else 0))).

(** The value of a field, nil for a missing one. *)
Definition field_value (h : Hash_) (field : bytes) : M arg :=
  '(raw, exists_) ← hash_get h field; mret (if exists_ : bool then toBytes raw else ANil).

Definition execHMGet : ExecFunc O := λ args,
  key ← str_at args 0;
  fields ← arg_strs (drop 1 args);
  reading key (RMultiBulk (replicate (length fields) ANil)) (λ h, vs ← forM fields (field_value h); mret (RMultiBulk vs)).

Definition execHKeys : ExecFunc O := λ args,
  key ← str_at args 0;
  reading key (RConst EmptyMultiBulkReply) (λ h,
    ord ← hash_order h;
    keys ← lift (ObjHash.Keys h ord);
    mret (RMultiBulk (ALit <$> keys))).

Definition execHVals : ExecFunc O := λ args,
  key ← str_at args 0;
  reading key (RConst EmptyMultiBulkReply) (λ h,
    ord ← hash_order h;
    values ← lift (ObjHash.ForEach h (λ acc _ v, (acc ++ [toBytes v], true)) ord []);
    mret (RMultiBulk values)).

Definition execHGetAll : ExecFunc O := λ args,
  key ← str_at args 0;
  reading key (RConst EmptyMultiBulkReply) (λ h,
    ord ← hash_order h;
    result ← lift (ObjHash.ForEach h (λ acc f v, (acc ++ [ALit f; toBytes v], true)) ord []);
    mret (RMultiBulk result)).

(** ** Deleting and counting *)

Definition del_field (st : Hash_ * Z) (field : bytes) : res (Hash_ * Z) := '(h, _, n) ← ObjHash.Remove st.1 field; Ret (h, st.2 + n).

Definition execHDel : ExecFunc O := λ args,
  key ← str_at args 0;
  fields ← arg_strs (drop 1 args);
  r ← getAsHash key;
  match r with
  | inl e => mret e
  | inr None => mret (RInt 0)
  | inr (Some hh) =>
      '(h, deleted) ← lift (foldM del_field fields (the_hash hh, 0));
      store_hash key (home hh) h;;
      n ← hash_len h;
      when (n =? 0) (KeySpace.Remove key);;
      when (0 <? deleted) (addAof (ToCmdLine3 "hdel" args));;
      mret (RInt deleted)
  end.

(** A field gets a new value, which is logged and replied. *)
Definition set_field (key : bytes) (hh : hash_handle D) (field : bytes) (v : bytes) (line : list arg) (r : reply) : M reply :=
  '(h, _) ← lift (ObjHash.Put Thresholds (the_hash hh) field (VBytes v));
  store_hash key (home hh) h;;
  addAof line;;
  mret r.

Definition execHIncrBy : ExecFunc O := λ args,
  key ← str_at args 0;
  field ← str_at args 1;
  rawDelta ← str_at args 2;
  match ParseInt rawDelta with
  | None => mret not_integer
  | Some delta =>
      r ← getOrInitHash key;
      match r with
      | inl e => mret e
      | inr (hh, _) =>
          '(value, exists_) ← hash_get (the_hash hh) field;
          if negb exists_ then set_field key hh field rawDelta (ToCmdLine3 "hincrby" args) (RInt delta) else
          s ← string_of (toBytes value);
          match ParseInt s with
          | None => mret (RErr "ERR hash value is not an integer")
          | Some val =>
              let val := wrap64 (val + delta) in
              set_field key hh field (Itoa val) (ToCmdLine3 "hincrby" args) (RInt val)
          end
      end
  end.

Definition execHIncrByFloat : ExecFunc O := λ args,
  key ← str_at args 0;
  field ← str_at args 1;
  rawDelta ← str_at args 2;
  match ParseFloat rawDelta with
  | None => mret (RErr "ERR value is not a valid float")
  | Some delta =>
      r ← getOrInitHash key;
      match r with
      | inl e => mret e
      | inr (hh, _) =>
          '(value, exists_) ← hash_get (the_hash hh) field;
          a2 ← arg_at args 2;
          if negb exists_ then set_field key hh field rawDelta (ToCmdLine3 "hincrbyfloat" args) (RBulk a2) else
          s ← string_of (toBytes value);
          match ParseFloat s with
          | None => mret (RErr "ERR hash value is not a float")
          | Some val =>
              let resultBytes := FormatFloat (fadd val delta) in
              set_field key hh field resultBytes (ToCmdLine3 "hincrbyfloat" args) (RBulk (ALit resultBytes))
          end
      end
  end.

(** ** Some fields and scans *)

(** The fields of HRANDFIELD, with values when they are asked for. *)
Definition rand_reply (h : Hash_) (withvalues : bool) (fields : list bytes) : M reply :=
  if withvalues then
    vs ← forM fields (λ f, '(raw, _) ← hash_get h f; mret [ALit f; toBytes raw]);
    mret (RMultiBulk (concat vs))
  else mret (RMultiBulk (ALit <$> fields)).

(** The optional arguments: a count and WITHVALUES. *)
Definition hrand_opts (args : list arg) : M (reply + Z * bool) :=
  w ← (if (length args =? 3)%nat then
         a2 ← str_at args 2;
         mret (if bytes_eqb (ToLower a2) (str "withvalues") then inr true else inl RSyntax)
       else mret (inr false));
  match w with
  | inl e => mret (inl e)
  | inr w =>
      if (2 <=? length args)%nat then
        a1 ← str_at args 1;
        mret match ParseInt a1 with None => inl not_integer | Some c => inr (c, w) end
      else mret (inr (1, w))
  end.

Definition execHRandField : ExecFunc O := λ args,
  key ← str_at args 0;
  if (3 <? length args)%nat then mret (RErr "ERR wrong number of arguments for 'hrandfield' command") else
  o ← hrand_opts args;
  match o with
  | inl e => mret e
  | inr (count, withvalues) =>
      reading key (RConst EmptyMultiBulkReply) (λ h,
        if 0 <? count then
          ord ← hash_order h;
          fields ← lift (RandomDistinctKeys h ord count);
          rand_reply h withvalues fields
        else if count <? 0 then
          let limit := wrap64 (- count) in
          if max_make <? limit * 16 then panic else
          ord ← hash_order h;
          fields ← lift (RandomKeys h ord limit);
          rand_reply h withvalues fields
        else mret (RConst EmptyMultiBulkReply))
  end.

Definition execHScan : ExecFunc O := λ args,
  opts ← arg_strs (drop 2 args);
  o ← lift (sscan_opts opts 10 (str "*"));
  match o with
  | inl e => mret e
  | inr (count, pattern) =>
      if (length args <? 2)%nat then mret RSyntax else
      key ← str_at args 0;
      reading key RNull (λ h,
        a1 ← str_at args 1;
        match ParseInt a1 with
        | None => mret (RErr "ERR invalid cursor")
        | Some cursor =>
            ord ← hash_order h;
            '(keysReply, nextCursor) ← lift (ObjHash.Scan h ord compile cursor count pattern);
            if nextCursor <? 0 then mret (RErr "Invalid argument") else
            mret (RRaw [RBulk (ALit (Itoa nextCursor)); RMultiBulk (ALit <$> keysReply)])
        end)
  end.

(** ** Undo logs *)

Definition rollbackHashFields (key : bytes) (fields : list bytes) : M (list (list arg)) :=
  r ← getAsDict key;
  match r with
  | inl _ => mret []
  | inr None => mret [ToCmdLine [str "DEL"; key]]
  | inr (Some d) =>
      forM fields (λ field,
        e ← lift (d_Get d field);
        mret match e with
             | None => ToCmdLine [str "HDEL"; key; field]
             | Some v => ToCmdLine [str "HSET"; key; field; match v with VBytes b => b | _ => [] end]
             end)
  end.

(** The fields of the pairs after the key. *)
Definition undoHSet : UndoFunc O := λ args,
  key ← str_at args 0;
  rest ← arg_strs (drop 1 args);
  rollbackHashFields key (fst <$> pairs_of rest).
Definition undoHMSet : UndoFunc O := undoHSet.
Definition undoHDel : UndoFunc O := λ args,
  key ← str_at args 0;
  fields ← arg_strs (drop 1 args);
  rollbackHashFields key fields.
Definition undoHIncr : UndoFunc O := λ args,
  key ← str_at args 0;
  field ← str_at args 1;
  rollbackHashFields key [field].

(** ** Fields with deadlines, [hash_ttl.go] *)

(** The part of a line after the options: FIELDS, a number and that many words,
    [per] for each field.  A number that overflows the sum of the bound check is
    handed to [make]. *)
Definition fields_arg (per total : Z) (mismatch : reply) (l : list bytes) : res (reply + list bytes) :=
  match l with
  | [] => Ret (inl RSyntax)
  | a :: l =>
      if negb (bytes_eqb (ToUpper a) (str "FIELDS")) then Ret (inl RSyntax) else
      match l with
      | [] => Ret (inl RSyntax)
      | n :: l =>
          match ParseInt n with
          | None => Ret (inl not_integer)
          | Some numFields =>
              if numFields <? 0 then Ret (inl not_integer) else
              let i := total - Z.of_nat (length l) in
              if numFields * per <=? Z.of_nat (length l) then Ret (inr (take (Z.to_nat (numFields * per)) l))
              else if max_i64 <? i + numFields * per then Panic
              else Ret (inl mismatch)
          end
      end
  end.

(** The options of HGETEX: zero is no change, -1 is PERSIST. *)
Fixpoint hgetex_opts (l : list bytes) (ttl : Z) : reply + Z * list bytes :=
  match l with
  | [] => inr (ttl, [])
  | a :: l' =>
      let arg := ToUpper a in
      let with_time (unit : Z) :=
        if negb (ttl =? 0) then inl RSyntax else
        match l' with
        | [] => inl RSyntax
        | v :: l'' =>
            match ParseInt v with
            | None => inl (RErr "ERR invalid expire time in 'hgetex' command")
            | Some n => if n <=? 0 then inl (RErr "ERR invalid expire time in 'hgetex' command") else hgetex_opts l'' (wrap64 (n * unit))
            end
        end in
      if bytes_eqb arg (str "FIELDS") then inr (ttl, l)
      else if bytes_eqb arg (str "EX") then with_time 1000
      else if bytes_eqb arg (str "PX") then with_time 1
      else if bytes_eqb arg (str "EXAT") then with_time 1000
      else if bytes_eqb arg (str "PXAT") then with_time 1
      else if bytes_eqb arg (str "PERSIST") then if negb (ttl =? 0) then inl RSyntax else hgetex_opts l' (-1)
      else inl RSyntax
  end.

Definition expire_field (at_ : Z) (h : Hash_) (field : bytes) : res Hash_ :=
  '(_, exists_) ← ObjHash.Get h field; Ret (if exists_ : bool then SetFieldExpire h field at_ else h).

Definition execHGetEx : ExecFunc O := λ args,
  key ← str_at args 0;
  rest ← arg_strs (drop 1 args);
  match hgetex_opts rest 0 with
  | inl e => mret e
  | inr (ttl, l) =>
      fs ← lift (fields_arg 1 (Z.of_nat (length args)) RSyntax l);
      match fs with
      | inl e => mret e
      | inr fields =>
          r ← getAsHash key;
          match r with
          | inl e => mret e
          | inr None => mret (RMultiBulk (replicate (length fields) ANil))
          | inr (Some hh) =>
              nowMs ← now_ms;
              h ← purge key (home hh) (the_hash hh) nowMs;
              result ← forM fields (field_value h);
              h ← lift (if 0 <? ttl then foldM (expire_field (wrap64 (nowMs + ttl))) fields h
                        else if ttl =? -1 then Ret (foldl (λ h f, (PersistField h f).1) h fields)
                        else Ret h);
              store_hash key (home hh) h;;
              mret (RMultiBulk result)
          end
      end
  end.

Definition take_field (h : Hash_) (field : bytes) : res Hash_ := '(h, _, _) ← ObjHash.Remove h field; Ret (PersistField h field).1.

Definition execHGetDel : ExecFunc O := λ args,
  key ← str_at args 0;
  rest ← arg_strs (drop 1 args);
  fs ← lift (fields_arg 1 (Z.of_nat (length args)) RSyntax rest);
  match fs with
  | inl e => mret e
  | inr fields =>
      r ← getAsHash key;
      match r with
      | inl e => mret e
      | inr None => mret (RMultiBulk (replicate (length fields) ANil))
      | inr (Some hh) =>
          nowMs ← now_ms;
          h ← purge key (home hh) (the_hash hh) nowMs;
          result ← forM fields (field_value h);
          h ← lift (foldM take_field fields h);
          store_hash key (home hh) h;;
          n ← hash_len h;
          when (n =? 0) (KeySpace.Remove key);;
          addAof (ToCmdLine3 "hgetdel" args);;
          mret (RMultiBulk result)
      end
  end.

(** The conditions of HSETEX come first. *)
Inductive fcond := FAny | FNX | FXX.
Fixpoint hsetex_cond (l : list bytes) (c : fcond) : reply + fcond * list bytes :=
  match l with
  | [] => inr (c, [])
  | a :: l' =>
      let arg := ToUpper a in
      let set_to (c' : fcond) := match c with FAny => hsetex_cond l' c' | _ => inl RSyntax end in
      if bytes_eqb arg (str "FNX") then set_to FNX
      else if bytes_eqb arg (str "FXX") then set_to FXX
      else inr (c, l)
  end.

Fixpoint hsetex_opts (l : list bytes) (ttl : Z) (keep : bool) : reply + Z * bool * list bytes :=
  match l with
  | [] => inr (ttl, keep, [])
  | a :: l' =>
      let arg := ToUpper a in
      let with_time (unit : Z) :=
        if negb (ttl =? 0) || keep then inl RSyntax else
        match l' with
        | [] => inl RSyntax
        | v :: l'' =>
            match ParseInt v with
            | None => inl (RErr "ERR invalid expire time in 'hsetex' command")
            | Some n => if n <=? 0 then inl (RErr "ERR invalid expire time in 'hsetex' command") else hsetex_opts l'' (wrap64 (n * unit)) keep
            end
        end in
      if bytes_eqb arg (str "FIELDS") then inr (ttl, keep, l)
      else if bytes_eqb arg (str "EX") then with_time 1000
      else if bytes_eqb arg (str "PX") then with_time 1
      else if bytes_eqb arg (str "EXAT") then with_time 1000
      else if bytes_eqb arg (str "PXAT") then with_time 1
      else if bytes_eqb arg (str "KEEPTTL") then if negb (ttl =? 0) then inl RSyntax else hsetex_opts l' ttl true
      else inl RSyntax
  end.

(** One pair of HSETEX: the hash and the number of fields set. *)
Definition hsetex_pair (c : fcond) (ttl nowMs : Z) (keep : bool) (st : Hash_ * Z) (p : bytes * bytes) : res (Hash_ * Z) :=
  let put (h : Hash_) := '(h, _) ← ObjHash.Put Thresholds h p.1 (VBytes p.2); Ret h in
  let expire (h : Hash_) := SetFieldExpire h p.1 (wrap64 (nowMs + ttl)) in
  match c with
  | FAny => h ← put st.1; Ret (if 0 <? ttl then expire h else h, st.2 + 1)
  | FNX =>
      '(_, exists_) ← ObjHash.Get st.1 p.1;
      if exists_ : bool then Ret st else h ← put st.1; Ret (if 0 <? ttl then expire h else h, st.2 + 1)
  | FXX =>
      '(_, exists_) ← ObjHash.Get st.1 p.1;
      if exists_ : bool then
        h ← put st.1;
        Ret (if negb keep && (0 <? ttl) then expire h else if negb keep && (ttl =? 0) then (PersistField h p.1).1 else h, st.2 + 1)
      else Ret st
  end.

Definition execHSetEx : ExecFunc O := λ args,
  key ← str_at args 0;
  rest ← arg_strs (drop 1 args);
  match hsetex_cond rest FAny with
  | inl e => mret e
  | inr (cond, l) =>
      match hsetex_opts l 0 false with
      | inl e => mret e
      | inr (ttl, keep, l) =>
          fs ← lift (fields_arg 2 (Z.of_nat (length args)) RSyntax l);
          match fs with
          | inl e => mret e
          | inr words =>
              r ← getOrInitHash key;
              match r with
              | inl e => mret e
              | inr (hh, inited) =>
                  nowMs ← now_ms;
                  h ← purge key (home hh) (the_hash hh) nowMs;
                  '(h, setCount) ← lift (foldM (hsetex_pair cond ttl nowMs keep) (pairs_of words) (h, 0));
                  store_hash key (home hh) h;;
                  when ((0 <? setCount) || inited) (addAof (ToCmdLine3 "hsetex" args));;
                  mret (RInt setCount)
              end
          end
      end
  end.

(** ** Deadlines of fields *)

(** The option of the HEXPIRE family: none, NX, XX, GT or LT. *)
Definition hexpire_option (l : list bytes) : Z * list bytes :=
  match l with
  | [] => (0, [])
  | a :: l' =>
      let opt := ToUpper a in
      if bytes_eqb opt (str "NX") then (expireOptNX, l')
      else if bytes_eqb opt (str "XX") then (expireOptXX, l')
      else if bytes_eqb opt (str "GT") then (expireOptGT, l')
      else if bytes_eqb opt (str "LT") then (expireOptLT, l')
      else (0, l)
  end.

Definition mismatch : reply := RErr "ERR number of fields and number of arguments mismatch".

Definition parseHExpireArgs (l : list bytes) : res (reply + Z * list bytes) :=
  let '(option, rest) := hexpire_option l in
  fs ← fields_arg 1 (Z.of_nat (length l)) mismatch rest;
  Ret match fs with inl e => inl e | inr fields => inr (option, fields) end.

(** [args] are the words after the key. *)
Definition parseHFieldsArgs (args : list bytes) : res (reply + list bytes) := fields_arg 1 (Z.of_nat (length args) + 1) mismatch args.

Definition checkHFieldExpireOption (h : Hash_) (field : bytes) (option expireAtMs : Z) : bool :=
  let '(currentExp, hasTTL) := FieldExpire h field in
  if option =? 0 then true
  else if has_opt option expireOptNX && hasTTL then false
  else if has_opt option expireOptXX && negb hasTTL then false
  else if has_opt option expireOptGT && negb hasTTL then true
  else if has_opt option expireOptGT && (expireAtMs <=? currentExp) then false
  else if has_opt option expireOptLT && negb hasTTL then true
  else if has_opt option expireOptLT && (currentExp <=? expireAtMs) then false
  else true.

Definition hexpire_one (option expireAtMs : Z) (h : Hash_) (field : bytes) : res (Hash_ * Z) :=
  '(_, exists_) ← ObjHash.Get h field;
  if negb exists_ then Ret (h, -2)
  else if negb (checkHFieldExpireOption h field option expireAtMs) then Ret (h, 0)
  else Ret (SetFieldExpire h field expireAtMs, 1).

(** A loop over fields that replies with one number for each. *)
Fixpoint each_field (f : Hash_ → bytes → res (Hash_ * Z)) (fields : list bytes) (h : Hash_) : res (Hash_ * list Z) :=
  match fields with
  | [] => Ret (h, [])
  | x :: fields => '(h, n) ← f h x; '(h, ns) ← each_field f fields h; Ret (h, n :: ns)
  end.

Definition hExpireFields (key : bytes) (hh : hash_handle D) (fields : list bytes) (option expireAtMs : Z) : M reply :=
  nowMs ← now_ms;
  h ← (if HasFieldExpiries (the_hash hh) then purge key (home hh) (the_hash hh) nowMs else mret (the_hash hh));
  '(h, results) ← lift (each_field (hexpire_one option expireAtMs) fields h);
  store_hash key (home hh) h;;
  mret (RRaw (RInt <$> results)).

(** The four commands of the family differ in the deadline they make of their
    argument. *)
Definition hexpire_with (name : string) (deadline : Z → M Z) : ExecFunc O := λ args,
  key ← str_at args 0;
  a1 ← str_at args 1;
  match ParseInt a1 with
  | None => mret not_integer
  | Some n =>
      rest ← arg_strs (drop 2 args);
      o ← lift (parseHExpireArgs rest);
      match o with
      | inl e => mret e
      | inr (option, fields) =>
          r ← getAsHash key;
          match r with
          | inl e => mret e
          | inr None => mret (RRaw (replicate (length fields) (RInt (-2))))
          | inr (Some hh) =>
              expireAtMs ← deadline n;
              addAof (ToCmdLine3 name args);;
              hExpireFields key hh fields option expireAtMs
          end
      end
  end.
Definition execHExpire : ExecFunc O := hexpire_with "hexpire" (λ seconds, now ← now_ms; mret (wrap64 (now + wrap64 (seconds * 1000)))).
Definition execHPExpire : ExecFunc O := hexpire_with "hpexpire" (λ ms, now ← now_ms; mret (wrap64 (now + ms))).
Definition execHExpireAt : ExecFunc O := hexpire_with "hexpireat" (λ unixSec, mret (wrap64 (unixSec * 1000))).
Definition execHPExpireAt : ExecFunc O := hexpire_with "hpexpireat" mret.

(** A command on the deadlines of fields: [f] is given the time and does one
    field. *)
Definition field_ttls (f : Z → Hash_ → bytes → res (Hash_ * Z)) (finish : list arg → M unit) : ExecFunc O := λ args,
  key ← str_at args 0;
  rest ← arg_strs (drop 1 args);
  fs ← lift (parseHFieldsArgs rest);
  match fs with
  | inl e => mret e
  | inr fields =>
      r ← getAsHash key;
      match r with
      | inl e => mret e
      | inr hh =>
          nowMs ← now_ms;
          match hh with
          | None => finish args;; mret (RRaw (replicate (length fields) (RInt (-2))))
          | Some hh =>
              h ← (if HasFieldExpiries (the_hash hh) then purge key (home hh) (the_hash hh) nowMs else mret (the_hash hh));
              '(h, results) ← lift (each_field (f nowMs) fields h);
              store_hash key (home hh) h;;
              finish args;;
              mret (RRaw (RInt <$> results))
          end
      end
  end.

(** The answer for one field, from its deadline and the time. *)
Definition one_ttl (answer : Z → Z → Z) (nowMs : Z) (h : Hash_) (field : bytes) : res (Hash_ * Z) :=
  '(_, exists_) ← ObjHash.Get h field;
  if negb exists_ then Ret (h, -2) else
  let '(expMs, hasTTL) := FieldExpire h field in
  Ret (h, if negb hasTTL then -1 else answer expMs nowMs).

Definition remaining (unit : Z) (expMs nowMs : Z) : Z :=
  let ttlMs := wrap64 (expMs - nowMs) in if ttlMs <=? 0 then -2 else Z.quot ttlMs unit.

Definition quiet (_ : list arg) : M unit := mret tt.
Definition execHTTL : ExecFunc O := field_ttls (one_ttl (remaining 1000)) quiet.
Definition execHPTTL : ExecFunc O := field_ttls (one_ttl (remaining 1)) quiet.
Definition execHExpireTime : ExecFunc O := field_ttls (one_ttl (λ expMs _, Z.quot expMs 1000)) quiet.
Definition execHPExpireTime : ExecFunc O := field_ttls (one_ttl (λ expMs _, expMs)) quiet.

Definition persist_one (nowMs : Z) (h : Hash_) (field : bytes) : res (Hash_ * Z) :=
  '(_, exists_) ← ObjHash.Get h field;
  if negb exists_ then Ret (h, -2)
  else if negb (FieldExpire h field).2 then Ret (h, -1)
  else Ret ((PersistField h field).1, 1).
Definition execHPersist : ExecFunc O := field_ttls persist_one (λ args, addAof (ToCmdLine3 "hpersist" args)).

(** ** Registrations *)

Definition on_hash (ev : string) : option (Z * string) := Some (notifyHash, ev).
Definition w_fast : list string := ["write"; "fast"]%string.
Definition r_fast : list string := ["readonly"; "fast"]%string.

Definition hash_commands : list (bytes * command O) := [
  registerCommand "hset" execHSet writeFirstKey (Some undoHSet) (-4) flagWrite w_oom_fast (on_hash "hset");
  registerCommand "hsetnx" execHSetNX writeFirstKey (Some undoHSet) 4 flagWrite w_oom_fast (on_hash "hset");
  registerCommand "hget" execHGet readFirstKey None 3 flagReadOnly r_fast None;
  registerCommand "hexists" execHExists readFirstKey None 3 flagReadOnly r_fast None;
  registerCommand "hdel" execHDel writeFirstKey (Some undoHDel) (-3) flagWrite w_fast (on_hash "hdel");
  registerCommand "hlen" execHLen readFirstKey None 2 flagReadOnly r_fast None;
  registerCommand "hstrlen" execHStrlen readFirstKey None 3 flagReadOnly r_fast None;
  registerCommand "hmset" execHMSet writeFirstKey (Some undoHMSet) (-4) flagWrite w_oom_fast (on_hash "hset");
  registerCommand "hmget" execHMGet readFirstKey None (-3) flagReadOnly r_fast None;
  registerCommand "hkeys" execHKeys readFirstKey None 2 flagReadOnly ["readonly"; "sortforscript"]%string None;
  registerCommand "hvals" execHVals readFirstKey None 2 flagReadOnly ["readonly"; "sortforscript"]%string None;
  registerCommand "hgetall" execHGetAll readFirstKey None 2 flagReadOnly ["readonly"; "random"]%string None;
  registerCommand "hincrby" execHIncrBy writeFirstKey (Some undoHIncr) 4 flagWrite w_oom_fast (on_hash "hincrby");
  registerCommand "hincrbyfloat" execHIncrByFloat writeFirstKey (Some undoHIncr) 4 flagWrite w_oom_fast (on_hash "hincrbyfloat");
  registerCommand "hrandfield" execHRandField readFirstKey None (-2) flagReadOnly ["random"; "readonly"]%string None;
  registerCommand "hscan" execHScan readFirstKey None (-2) flagReadOnly ["readonly"; "sortforscript"]%string None].

Definition hash_ttl_commands : list (bytes * command O) := [
  registerCommand "hgetex" execHGetEx readFirstKey None (-5) flagReadOnly r_fast None;
  registerCommand "hgetdel" execHGetDel writeFirstKey None (-4) flagWrite w_fast (on_hash "hdel");
  registerCommand "hsetex" execHSetEx writeFirstKey None (-5) flagWrite w_oom_fast (on_hash "hset");
  registerCommand "hexpire" execHExpire writeFirstKey None (-5) flagWrite w_fast (on_hash "hexpire");
  registerCommand "hpexpire" execHPExpire writeFirstKey None (-5) flagWrite w_fast (on_hash "hpexpire");
  registerCommand "hexpireat" execHExpireAt writeFirstKey None (-5) flagWrite w_fast (on_hash "hexpireat");
  registerCommand "hpexpireat" execHPExpireAt writeFirstKey None (-5) flagWrite w_fast (on_hash "hpexpireat");
  registerCommand "httl" execHTTL readFirstKey None (-4) flagReadOnly r_fast None;
  registerCommand "hpttl" execHPTTL readFirstKey None (-4) flagReadOnly r_fast None;
  registerCommand "hexpiretime" execHExpireTime readFirstKey None (-4) flagReadOnly r_fast None;
  registerCommand "hpexpiretime" execHPExpireTime readFirstKey None (-4) flagReadOnly r_fast None;
  registerCommand "hpersist" execHPersist writeFirstKey None (-4) flagWrite w_fast (on_hash "hpersist")].
End hash.
