(* ===== verification/HashThm.v ===== *)
(** * Hash commands refine operations on maps with deadlines

    The replies and effects of the hash commands on any keys are those of the
    operations on a map from keys to two finite maps: the values of the fields
    and their deadlines.  A read first drops the fields whose deadline has
    passed, and between commands the keys go whose own deadline passes. *)

From stdpp Require Import base gmap list strings.
From Stdlib Require Import ZArith Lia Ascii.
From S2P Require Import Prelude GoText Listpack Pairs Dict SimpleDict ObjString ObjHash Strconv Resp Runtime GoTime TimeWheel KeySpace StringCmd KeyCmd Tx KeySpaceThm TxThm ObjCmd ListCmd SetCmd HashCmd ObjCmdThm SetThm.

Local Open Scope Z_scope.

(** ** The specification *)

(** Values and deadlines. *)
Abbreviation hmap := (gmap bytes bytes * gmap bytes Z)%type.
Notation hashes := (gmap bytes (slot hmap)).

Inductive hash_op :=
| OHSet (k : bytes) (ps : list (bytes * bytes)) | OHSetNX (k f v : bytes) | OHGet (k f : bytes) | OHMGet (k : bytes) (fs : list bytes) | OHExists (k f : bytes)
| OHLen (k : bytes) | OHStrlen (k f : bytes) | OHDel (k : bytes) (fs : list bytes) | OHIncrBy (k f : bytes) (n : Z) | OHGetAll (k : bytes) | OHGetDel (k : bytes) (fs : list bytes)
| OHPExpireAt (k : bytes) (at_ : Z) (fs : list bytes) | OHPTTL (k : bytes) (fs : list bytes) | OHPersist (k : bytes) (fs : list bytes).

(** The fields that are left at a time. *)
Definition field_alive (now : Z) (e : gmap bytes Z) (f : bytes) : Prop := match e !! f with Some x => now < x | None => True end.
#[export] Instance field_alive_dec now e f : Decision (field_alive now e f).
Proof. unfold field_alive. destruct (e !! f); apply _. Defined.
Definition purged (now : Z) (s : hmap) : hmap := (filter (λ kv, field_alive now s.2 kv.1) s.1, filter (λ kv, now < kv.2) s.2).

Definition put_fields (ps : list (bytes * bytes)) (m : gmap bytes bytes) : gmap bytes bytes := foldl (λ m p, <[p.1 := p.2]> m) m ps.

(** One field of HPEXPIREAT, HPTTL and HPERSIST: the deadlines and the answer. *)
Definition expire_one (at_ : Z) (s : hmap) (f : bytes) : gmap bytes Z * Z :=
  match s.1 !! f with Some _ => (<[f := at_]> s.2, 1) | None => (s.2, -2) end.
Definition ttl_one (now : Z) (s : hmap) (f : bytes) : gmap bytes Z * Z :=
  (s.2, match s.1 !! f with None => -2 | Some _ => match s.2 !! f with Some x => x - now | None => -1 end end).
Definition unset_one (s : hmap) (f : bytes) : gmap bytes Z * Z :=
  match s.1 !! f with None => (s.2, -2) | Some _ => match s.2 !! f with Some _ => (delete f s.2, 1) | None => (s.2, -1) end end.
Fixpoint each_spec (one : hmap → bytes → gmap bytes Z * Z) (fs : list bytes) (s : hmap) : hmap * list Z :=
  match fs with
  | [] => (s, [])
  | f :: fs => let '(e, n) := one s f in let '(s', ns) := each_spec one fs (s.1, e) in (s', n :: ns)
  end.

Section spec.
Context (now : Z).

(** A command on a key: a missing one and a value of another type have replies
    of their own; otherwise the command sees the fields that are left. *)
Definition on_hash_key (m : hashes) (k : bytes) (m' : hashes) (r missing : Reply) (found : hmap → Prop) : Prop :=
  match m !! k with
  | None => m' = m ∧ r = missing
  | Some Foreign => m' = m ∧ r = WrongTypeErrReply
  | Some (Own s) => found (purged now s)
  end.
Definition on_read (m : hashes) (k : bytes) (m' : hashes) (r missing : Reply) (found : hmap → Prop) : Prop :=
  on_hash_key m k m' r missing (λ s, m' = <[k := Own s]> m ∧ found s).

(** A command that writes: a missing key counts as an empty hash, and fields
    whose deadline has passed are still there. *)
Definition on_write (m : hashes) (k : bytes) (m' : hashes) (r : Reply) (found : hmap → Prop) : Prop :=
  match m !! k with
  | Some Foreign => m' = m ∧ r = WrongTypeErrReply
  | Some (Own s) => found s
  | None => found (∅, ∅)
  end.

(** A hash without fields is removed. *)
Definition put_hash (k : bytes) (s : hmap) (m : hashes) : hashes := if decide (s.1 = ∅) then delete k m else <[k := Own s]> m.

Definition hash_step (m : hashes) (o : hash_op) (m' : hashes) (r : Reply) : Prop :=
  match o with
  | OHSet k ps => on_write m k m' r (λ s,
      m' = <[k := Own (put_fields ps s.1, s.2)]> m ∧ r = IntReply (Z.of_nat (size (put_fields ps s.1)) - Z.of_nat (size s.1)))
  | OHSetNX k f v => on_write m k m' r (λ s,
      match s.1 !! f with
      | Some _ => m' = <[k := Own s]> m ∧ r = IntReply 0
      | None => m' = <[k := Own (<[f := v]> s.1, s.2)]> m ∧ r = IntReply 1
      end)
  | OHIncrBy k f n => on_write m k m' r (λ s,
      match s.1 !! f with
      | None => m' = <[k := Own (<[f := Itoa n]> s.1, s.2)]> m ∧ r = IntReply n
      | Some b =>
          match ParseInt b with
          | None => m' = <[k := Own s]> m ∧ r = StandardErrReply (str "ERR hash value is not an integer")
          | Some v => m' = <[k := Own (<[f := Itoa (wrap64 (v + n))]> s.1, s.2)]> m ∧ r = IntReply (wrap64 (v + n))
          end
      end)
  | OHGet k f => on_read m k m' r NullBulkReply (λ s, r = match s.1 !! f with Some b => BulkReply (Some b) | None => NullBulkReply end)
  | OHMGet k fs => on_read m k m' r (MultiBulkReply ((λ _, None) <$> fs)) (λ s, r = MultiBulkReply ((λ f, s.1 !! f) <$> fs))
  | OHExists k f => on_read m k m' r (IntReply 0) (λ s, r = IntReply (b2z (bool_decide (is_Some (s.1 !! f)))))
  | OHLen k => on_read m k m' r (IntReply 0) (λ s, r = IntReply (Z.of_nat (size s.1)))
  | OHStrlen k f => on_read m k m' r (IntReply 0) (λ s, r = IntReply (match s.1 !! f with Some b => Z.of_nat (length b) | None => 0 end))
  | OHGetAll k => on_read m k m' r EmptyMultiBulkReply (λ s, ∃ l, l ≡ₚ map_to_list s.1 ∧ r = MultiBulkReply (l ≫= λ p, [Some p.1; Some p.2]))
  | OHDel k fs => on_hash_key m k m' r (IntReply 0) (λ s,
      m' = put_hash k (without fs s.1, s.2) m ∧ r = IntReply (Z.of_nat (size s.1) - Z.of_nat (size (without fs s.1))))
  | OHGetDel k fs => on_hash_key m k m' r (MultiBulkReply ((λ _, None) <$> fs)) (λ s,
      m' = put_hash k (without fs s.1, without fs s.2) m ∧ r = MultiBulkReply ((λ f, s.1 !! f) <$> fs))
  | OHPExpireAt k at_ fs => on_hash_key m k m' r (MultiRawReply ((λ _, IntReply (-2)) <$> fs)) (λ s,
      m' = <[k := Own (each_spec (expire_one at_) fs s).1]> m ∧ r = MultiRawReply (IntReply <$> (each_spec (expire_one at_) fs s).2))
  | OHPTTL k fs => on_hash_key m k m' r (MultiRawReply ((λ _, IntReply (-2)) <$> fs)) (λ s,
      m' = <[k := Own s]> m ∧ r = MultiRawReply (IntReply <$> (each_spec (ttl_one now) fs s).2))
  | OHPersist k fs => on_hash_key m k m' r (MultiRawReply ((λ _, IntReply (-2)) <$> fs)) (λ s,
      m' = <[k := Own (each_spec unset_one fs s).1]> m ∧ r = MultiRawReply (IntReply <$> (each_spec unset_one fs s).2))
  end.
End spec.

(** What a command line gives: fields of the universe [U], values no longer than
    memory, numbers that fit. *)
Definition hash_op_ok (U : gset bytes) (o : hash_op) : Prop :=
  match o with
  | OHSet _ ps => ps ≠ [] ∧ Forall (λ p, p.1 ∈ U ∧ small p.2) ps
  | OHSetNX _ f v => f ∈ U ∧ small v
  | OHIncrBy _ f n => f ∈ U ∧ i64 n
  | OHGetDel _ fs | OHPTTL _ fs | OHPersist _ fs => Z.of_nat (length fs) <= max_i64
  | OHPExpireAt _ at_ fs => i64 at_ ∧ Z.of_nat (length fs) <= max_i64
  | _ => True
  end.

Section run.
Context {O D : Type} `{!DictOps D value} `{!Objects O} `{!ObjOf O (hash_obj D)} {env : Env} {rt : Runtime} {choices : Choices D}.
Context (Thresholds : EncodingThresholds).

(** The words for a list of fields. *)
Definition fields_words (fs : list bytes) : list bytes := str "FIELDS" :: Itoa (Z.of_nat (length fs)) :: fs.

(** The command that an operation stands for. *)
Definition hash_exec (o : hash_op) : M O reply :=
  let line (words : list bytes) := ALit <$> words in
  match o with
  | OHSet k ps => execHSet Thresholds (line (k :: (ps ≫= λ p, [p.1; p.2])))
  | OHSetNX k f v => execHSetNX Thresholds (line [k; f; v])
  | OHGet k f => execHGet (line [k; f])
  | OHMGet k fs => execHMGet (line (k :: fs))
  | OHExists k f => execHExists (line [k; f])
  | OHLen k => execHLen (line [k])
  | OHStrlen k f => execHStrlen (line [k; f])
  | OHDel k fs => execHDel (line (k :: fs))
  | OHIncrBy k f n => execHIncrBy Thresholds (line [k; f; Itoa n])
  | OHGetAll k => execHGetAll (line [k])
  | OHGetDel k fs => execHGetDel (line (k :: fields_words fs))
  | OHPExpireAt k at_ fs => execHPExpireAt (line (k :: Itoa at_ :: fields_words fs))
  | OHPTTL k fs => execHPTTL (line (k :: fields_words fs))
  | OHPersist k fs => execHPersist (line (k :: fields_words fs))
  end.
End run.

(** ** Purging *)

Section purging.
Implicit Types (now : Z) (f : bytes) (ord : list (bytes * Z)).

Lemma expired_lookup now (e : gmap bytes Z) ord f : ord ≡ₚ map_to_list e → f ∈ expired_in now ord ↔ ¬ field_alive now e f.
Proof.
  intros HP. unfold expired_in, field_alive. rewrite list_elem_of_fmap. split.
  - intros ([g x] & -> & Hin). apply list_elem_of_In, filter_In in Hin as [Hin Hx]. apply list_elem_of_In in Hin. rewrite HP, elem_of_map_to_list in Hin.
    cbn [fst snd] in *. rewrite Hin. lia.
  - intros Hd. destruct (e !! f) as [x|] eqn:E; [|tauto]. exists (f, x). split; [done|]. apply list_elem_of_In, filter_In. split; [|cbn; lia].
    apply list_elem_of_In. by rewrite HP, elem_of_map_to_list.
Qed.

Lemma purged_without now (s : hmap) ord : ord ≡ₚ map_to_list s.2 → purged now s = (without (expired_in now ord) s.1, without (expired_in now ord) s.2).
Proof.
  intros HP. destruct s as [m e]. unfold purged. cbn [fst snd] in *. f_equal; apply map_eq; intros f; rewrite without_lookup, map_lookup_filter.
  - destruct (m !! f) as [b|] eqn:E; cbn; [|by case_bool_decide]. case_guard as Hg.
    + rewrite bool_decide_eq_false_2; [done|]. intros Hx%(expired_lookup now e ord f HP). done.
    + rewrite bool_decide_eq_true_2; [done|]. by apply (expired_lookup now e ord f HP).
  - destruct (e !! f) as [x|] eqn:E; cbn; [|by case_bool_decide]. pose proof (expired_lookup now e ord f HP) as HE. unfold field_alive in HE. rewrite E in HE. case_guard as Hg.
    + rewrite bool_decide_eq_false_2; [done|]. tauto.
    + rewrite bool_decide_eq_true_2; [done|]. tauto.
Qed.

Lemma purged_none now (m : gmap bytes bytes) : purged now (m, ∅) = (m, ∅).
Proof. rewrite (purged_without now (m, ∅) []); [done|]. cbn [snd]. by rewrite map_to_list_empty. Qed.

Lemma purged_alive now (s : hmap) f x : (purged now s).2 !! f = Some x → now < x.
Proof. unfold purged. cbn. by intros [_ H]%map_lookup_filter_Some. Qed.

Lemma purged_twice now (s : hmap) : purged now (purged now s) = purged now s.
Proof.
  unfold purged at 1. rewrite !map_filter_id.
  - by destruct (purged now s).
  - intros f x Hx. by apply purged_alive in Hx.
  - intros f b _. unfold field_alive. cbn [fst]. destruct ((purged now s).2 !! f) as [x|] eqn:E; [|done]. by apply purged_alive in E.
Qed.
End purging.

Section commands.
Context {O D : Type} `{!DictOps D value} `{!DictLaws D value} `{!Objects O} `{!ObjOf O (hash_obj D)} {env : Env} {rt : Runtime} {choices : Choices D}.
Context (t : Z) (Hclk : ∀ n, clock n = t) (Hfair : fair) (T : EncodingThresholds) (dl : gmap bytes Z).
Context (U : gset bytes) (HU1 : Z.of_nat (size U) < 2 ^ 60) (HU2 : set_Forall small U).
Local Abbreviation now := (time_UnixMilli t).
Implicit Types (m : hashes) (db : DB O) (s : hmap) (h : Hash_ D) (k f : bytes).

(** A hash object behind a header; a dict that a dump has left is not one. *)
Definition hash_obj_ok (v : hash_obj D) s : Prop := match v with HashRobj _ h => hash_state_ok T h s | _ => False end.

Local Abbreviation sees := (sees (O := O) t dl hash_obj_ok).
Local Abbreviation gives := (gives (O := O) t dl hash_obj_ok).
Local Abbreviation ok := (hash_state_ok (D := D) T).
Local Abbreviation held h enc := (MkHH h (InRobj enc)).
Local Ltac ret m := eexists _, _, m; rewrite run_mret; split; [reflexivity|]; split; [done|].

Lemma hash_draw m db n : sees m db → sees m (set_draws db n).
Proof. by apply sees_same. Qed.
Lemma hash_tick m db n : sees m db → sees m (set_reads db n).
Proof. by apply sees_same. Qed.

Lemma run_now_ms {B} (f : Z → M O B) db : (now_ms ≫= f) db = f now (set_reads db (S (reads db))).
Proof. unfold now_ms. by rewrite run_assoc, run_Now, run_ret, Hclk. Qed.

Lemma store_hash_sees m db k s0 h enc s : sees m db → m !! k = Some (Own s0) → ok h s →
  ∃ db', store_hash k (InRobj enc) h db = Ret (tt, db') ∧ sees (<[k := Own s]> m) db'.
Proof. intros S Hm Hs. destruct (store_obj_sees t dl hash_obj_ok m db k s0 (HashRobj enc h) s S Hm Hs) as (db' & E & S' & _). by exists db'. Qed.

Lemma purge_sees m db k s0 h enc s : sees m db → m !! k = Some (Own s0) → ok h s →
  ∃ h' db', purge k (InRobj enc) h now db = Ret (h', db') ∧ ok h' (purged now s) ∧ sees (<[k := Own (purged now s)]> m) db'.
Proof.
  intros S Hm [Hok He]. unfold purge. rewrite SetThm.run_choose. set (ord := int_order (draws db) (default ∅ (fieldExpire h))).
  assert (HP : ord ≡ₚ map_to_list s.2) by (unfold ord; rewrite He; apply Hfair). rewrite (purged_without now s ord HP).
  assert (HE : ∃ h' l, PurgeExpiredFields h now ord = Ret (h', l) ∧ ok h' (without (expired_in now ord) s.1, without (expired_in now ord) s.2)).
  { unfold PurgeExpiredFields. destruct (fieldExpire h) as [e|] eqn:Ef.
    - destruct (purge_loop_spec T now ord h s.1 e [] Hok Ef) as (h' & E & Hok' & He'). exists h'. eexists. split; [exact E|]. split; [done|]. cbn [snd]. rewrite He'. cbn in *. by rewrite He.
    - cbn in He. rewrite <- He, map_to_list_empty in HP. apply Permutation_nil_r in HP. rewrite HP. exists h, []. split; [done|]. split; [done|]. cbn. by rewrite Ef, <- He. }
  destruct HE as (h' & l & E & Hok'). rewrite run_lift, E.
  destruct (store_hash_sees m (set_draws db (Datatypes.S (draws db))) k s0 h' enc _ (hash_draw m db _ S) Hm Hok') as (db' & E' & S').
  rewrite (run_step _ _ _ _ _ E'), run_mret. by exists h', db'.
Qed.

(** The purge at the beginning of a read. *)
Lemma has_expiries h s : ok h s → HasFieldExpiries h = false → purged now s = s.
Proof.
  intros [_ He] HF. destruct s as [m e]. cbn [fst snd] in *. unfold HasFieldExpiries in HF. rewrite <- He. destruct (fieldExpire h) as [e'|]; cbn in *; [|apply purged_none].
  apply negb_false_iff, bool_decide_eq_true in HF. apply map_size_empty_inv in HF as ->. apply purged_none.
Qed.

Lemma maybe_purge_sees m db k h enc s : sees m db → m !! k = Some (Own s) → ok h s →
  ∃ h' db', (if HasFieldExpiries h then purge k (InRobj enc) h now else mret h) db = Ret (h', db') ∧ ok h' (purged now s) ∧ sees (<[k := Own (purged now s)]> m) db'.
Proof.
  intros S Hm Hok. destruct (HasFieldExpiries h) eqn:EF; [by apply (purge_sees m db k s)|]. rewrite (has_expiries h s Hok EF). exists h, db. rewrite run_mret.
  by rewrite insert_id.
Qed.

Lemma getAsHash_sees m db k : sees m db →
  ∃ r db1, getAsHash k db = Ret (r, db1) ∧
    match m !! k with
    | None => r = inr None ∧ sees m db1
    | Some Foreign => r = inl RWrongType ∧ sees m db1
    | Some (Own s) => ∃ h enc, r = inr (Some (held h enc)) ∧ ok h (purged now s) ∧ sees (<[k := Own (purged now s)]> m) db1
    end.
Proof.
  intros S. destruct (get_obj_sees t Hclk dl hash_obj_ok m db k S) as (r & db1 & E & S1 & _ & H). unfold getAsHash. rewrite (run_step _ _ _ _ _ E).
  destruct (m !! k) as [[s|]|] eqn:Hm.
  - destruct H as ([enc h|h|d] & -> & Hv); cbn in Hv; try done. cbn [open_hash]. unfold lazy_purge. cbn [the_hash home].
    destruct (HasFieldExpiries h) eqn:EF.
    + rewrite run_assoc, run_now_ms, run_assoc. destruct (purge_sees m (set_reads db1 (Datatypes.S (reads db1))) k s h enc s (hash_tick m db1 _ S1) Hm Hv) as (h' & db2 & E2 & Hok & S2).
      rewrite (run_step _ _ _ _ _ E2), run_ret, run_mret. eexists _, db2. split; [done|]. by exists h', enc.
    + rewrite run_ret, run_mret. eexists _, db1. split; [done|]. exists h, enc. rewrite (has_expiries h s Hv EF), insert_id by done. done.
  - subst r. eexists _, db1. by rewrite run_mret.
  - destruct H as [-> _]. eexists _, db1. by rewrite run_mret.
Qed.

(** ** Reading *)

Local Abbreviation meets o m db := (gives (hash_exec T o) db (hash_step now m o)).

Lemma toBytes_text v b : text v b → toBytes v = ALit b.
Proof. by intros [-> | ->]. Qed.

Lemma get_run h s f : ok h s → ∃ v, ObjHash.Get h f = Ret (v, bool_decide (is_Some (s.1 !! f))) ∧ ∀ b, s.1 !! f = Some b → toBytes v = ALit b.
Proof.
  intros [Hok _]. destruct (hash_Get_spec T h s.1 f Hok) as (v & E & Hv). exists v. split; [done|]. intros b Hb. by apply toBytes_text, Hv.
Qed.

Lemma gives_reading m db k (missing : reply) (missing' : Reply) (fn : Hash_ D → M O reply) (out : hmap → Reply → Prop) : sees m db →
  (∀ mem, resolve mem missing = missing') →
  (∀ m1 db1 h s, sees m1 db1 → ok h s → ∃ r db2, fn h db1 = Ret (r, db2) ∧ sees m1 db2 ∧ ∀ mem, out s (resolve mem r)) →
  gives (reading k missing fn) db (λ m' r, on_read now m k m' r missing' (λ s, out s r)).
Proof.
  intros S Hmis HF. unfold reading, on_read, on_hash_key, ObjCmdThm.gives. destruct (getAsHash_sees m db k S) as (r & db1 & E & H). rewrite (run_step _ _ _ _ _ E).
  destruct (m !! k) as [[s|]|].
  - destruct H as (h & enc & -> & Hok & S1). cbn [the_hash]. destruct (HF _ db1 h _ S1 Hok) as (r & db2 & E2 & S2 & Hr). eexists r, db2, _. split; [done|]. split; [exact S2|]. done.
  - destruct H as [-> S1]. by ret m.
  - destruct H as [-> S1]. ret m. intros mem. by rewrite Hmis.
Qed.

(** A reading that looks at one field. *)
Lemma read_field h s f (reply_of : value → bool → reply) (out : hmap → Reply → Prop) m db : sees m db → ok h s →
  (∀ v, (∀ b, s.1 !! f = Some b → toBytes v = ALit b) → ∀ mem, out s (resolve mem (reply_of v (bool_decide (is_Some (s.1 !! f)))))) →
  ∃ r db2, ('(raw, e) ← hash_get h f; mret (reply_of raw e)) db = Ret (r, db2) ∧ sees m db2 ∧ ∀ mem, out s (resolve mem r).
Proof.
  intros S Hok Ho. destruct (get_run h s f Hok) as (v & E & Hv). unfold hash_get. rewrite run_lift, E, run_mret. eexists _, db. split; [done|]. split; [done|]. by apply Ho.
Qed.

Lemma does_HGet k f m db : sees m db → meets (OHGet k f) m db.
Proof.
  intros S. unfold hash_exec, execHGet, ObjCmdThm.gives. do 2 erewrite run_word by reflexivity. apply gives_reading; [done..|]. intros m1 db1 h s S1 Hok.
  apply (read_field h s f (λ raw e, if e : bool then RBulk (toBytes raw) else RNull) (λ s r, r = _) m1 db1 S1 Hok). intros v Hv mem.
  destruct (s.1 !! f) as [b|]; cbn; [|done]. by rewrite (Hv b eq_refl).
Qed.
Lemma does_HExists k f m db : sees m db → meets (OHExists k f) m db.
Proof.
  intros S. unfold hash_exec, execHExists, ObjCmdThm.gives. do 2 erewrite run_word by reflexivity. apply gives_reading; [done..|]. intros m1 db1 h s S1 Hok.
  by apply (read_field h s f (λ _ e, RInt (b2z e)) (λ s r, r = _) m1 db1 S1 Hok).
Qed.
Lemma does_HStrlen k f m db : sees m db → meets (OHStrlen k f) m db.
Proof.
  intros S. unfold hash_exec, execHStrlen, ObjCmdThm.gives. do 2 erewrite run_word by reflexivity. apply gives_reading; [done..|]. intros m1 db1 h s S1 Hok.
  apply (read_field h s f (λ raw e, RInt (if e : bool then Z.of_nat (arg_len (toBytes raw)) else 0)) (λ s r, r = _) m1 db1 S1 Hok). intros v Hv mem.
  destruct (s.1 !! f) as [b|]; cbn; [|done]. by rewrite (Hv b eq_refl).
Qed.
Lemma does_HLen k m db : sees m db → meets (OHLen k) m db.
Proof.
  intros S. unfold hash_exec, execHLen, ObjCmdThm.gives. erewrite run_word by reflexivity. apply gives_reading; [done..|]. intros m1 db1 h s S1 [Hok _].
  unfold hash_len. rewrite (hash_Len_spec T h s.1 Hok), run_lift, run_mret. eexists _, db1. by split.
Qed.

Lemma field_values h s fs db : ok h s → ∃ vs, forM fs (field_value h) db = Ret (vs, db) ∧ ∀ mem, arg_opt mem <$> vs = (λ f, s.1 !! f) <$> fs.
Proof.
  intros Hok. induction fs as [|f fs (vs & IH & Hvs)]; [by exists []|]. cbn [forM]. destruct (get_run h s f Hok) as (v & E & Hv).
  assert (E2 : field_value h f db = Ret (if bool_decide (is_Some (s.1 !! f)) then toBytes v else ANil, db)) by (unfold field_value, hash_get; by rewrite run_lift, E, run_mret).
  rewrite (run_step _ _ _ _ _ E2), (run_step _ _ _ _ _ IH), run_mret. eexists. split; [done|]. intros mem. rewrite !fmap_cons, Hvs. f_equal.
  destruct (s.1 !! f) as [b|]; cbn; [|done]. by rewrite (Hv b eq_refl).
Qed.
Lemma nil_values (fs : list bytes) mem : arg_opt mem <$> replicate (length fs) ANil = (λ _, None) <$> fs.
Proof. rewrite fmap_replicate. by induction fs as [|f fs IH]; [|cbn; f_equal]. Qed.

Lemma does_HMGet k fs m db : sees m db → meets (OHMGet k fs) m db.
Proof.
  intros S. unfold hash_exec, execHMGet, ObjCmdThm.gives. erewrite run_word by reflexivity. change (drop 1 (ALit <$> (k :: fs))) with (ALit <$> fs). rewrite (run_step _ _ _ _ _ (run_words _ _)).
  apply gives_reading; [done|intros mem; cbn [resolve]; by rewrite nil_values|]. intros m1 db1 h s S1 Hok.
  destruct (field_values h s fs db1 Hok) as (vs & E & Hvs). rewrite (run_step _ _ _ _ _ E), run_mret. eexists _, db1. split; [done|]. split; [done|]. intros mem. cbn [resolve]. by rewrite Hvs.
Qed.

(** A traversal visits every field once. *)
Lemma foreach_spec {S : Type} h (s : gmap bytes bytes) (fn : S → bytes → value → S * bool) (ord : list (bytes * value)) (st : S) : hash_ok T h s → ObjHash.order_ok h ord →
  ∃ l ps, ObjHash.ForEach h fn ord st = Ret (d_ForEach fn l st) ∧ ps ≡ₚ map_to_list s ∧ Forall2 (λ kv kb, kv.1 = kb.1 ∧ text kv.2 kb.2) l ps.
Proof.
  intros [Hrep _] Hord. unfold ObjHash.ForEach, hash_rep, ObjHash.order_ok in *. destruct (isListpack h).
  - destruct Hrep as (lp & El & ps & Hlp & Hnd & ->). rewrite El. cbn [must mbind res_bind]. rewrite (lp_Range_spec _ _ _ _ Hlp).
    destruct (foreach_from fn ps st [] 0) as (fld & E); [lia|]. change (2 * 0) with 0 in E. rewrite E. cbn [mbind res_bind].
    eexists _, ps. split; [done|]. split; [by rewrite map_to_list_to_map|]. apply Forall2_fmap_l, Forall_Forall2_diag, Forall_true. intros [k b]. split; [done|]. by left.
  - destruct Hrep as (d & Ed & Hd & Em). destruct (Hord eq_refl) as (d' & Ed' & Ho). assert (d' = d) as -> by congruence. rewrite Ed. cbn [must mbind res_bind].
    pose proof (d_order_spec d ord Hd Ho) as HP. rewrite Em, map_to_list_fmap in HP.
    eexists ord, ((λ kv, (kv.1, val_str kv.2)) <$> ord). split; [done|]. split.
    + rewrite HP, <- list_fmap_compose. rewrite (list_fmap_ext _ id); [by rewrite list_fmap_id|]. by intros i [k b].
    + apply Forall2_fmap_r, Forall_Forall2_diag, Forall_forall. intros [k v] Hin. rewrite HP in Hin. apply list_elem_of_fmap in Hin as ([k' b] & [= -> ->] & _). split; [done|]. by right.
Qed.

Lemma collect_pairs (l : list (bytes * value)) (ps : list (bytes * bytes)) (acc : list arg) : Forall2 (λ kv kb, kv.1 = kb.1 ∧ text kv.2 kb.2) l ps →
  d_ForEach (λ acc f v, (acc ++ [ALit f; toBytes v], true)) l acc = acc ++ (ps ≫= λ p, [ALit p.1; ALit p.2]).
Proof.
  intros H. revert acc. induction H as [|[k v] [k' b] l ps [Hk Hv] H IH]; intros acc; cbn [d_ForEach mbind list_bind]; [by rewrite app_nil_r|]. cbn [fst snd] in *. subst k'.
  rewrite IH, (toBytes_text v b Hv). by rewrite <- app_assoc.
Qed.

Lemma does_HGetAll k m db : sees m db → meets (OHGetAll k) m db.
Proof.
  intros S. unfold hash_exec, execHGetAll, ObjCmdThm.gives. erewrite run_word by reflexivity. apply gives_reading; [done..|]. intros m1 db1 h s S1 [Hok _].
  unfold hash_order. rewrite run_choose. set (ord := match hashtable h with Some d => dict_order (draws db1) d | None => [] end).
  destruct (foreach_spec h s.1 (λ acc f v, (acc ++ [ALit f; toBytes v], true)) ord [] Hok) as (l & ps & E & HP & HF).
  { intros Hl. pose proof (proj1 Hok) as Hr. unfold hash_rep in Hr. rewrite Hl in Hr. destruct Hr as (d & Ed & Hd & _). exists d. split; [done|]. unfold ord. rewrite Ed. by apply Hfair. }
  rewrite run_lift, E, (collect_pairs l ps [] HF), run_mret. eexists _, _. split; [done|]. split; [by apply hash_draw|]. intros mem. exists ps. split; [done|]. cbn [resolve app]. f_equal.
  clear. induction ps as [|[k b] ps IH]; [done|]. cbn. by rewrite IH.
Qed.

(** ** Writing *)

(** The fields of every hash are in [U], deadlines are 64-bit numbers. *)
Definition good s : Prop := dom s.1 ⊆ U ∧ map_Forall (λ _ x, i64 x) s.2.
Definition all_good m : Prop := ∀ k s, m !! k = Some (Own s) → good s.

Lemma good_size s : good s → Z.of_nat (size s.1) < 2 ^ 60.
Proof. intros [Hd _]. apply subseteq_size in Hd. rewrite size_dom in Hd. lia. Qed.
Lemma good_empty : good (∅, ∅).
Proof. split; [cbn; rewrite dom_empty_L; set_solver|apply map_Forall_empty]. Qed.
Lemma good_purged s : good s → good (purged now s).
Proof.
  intros [Hd He]. split; cbn [purged fst snd].
  - etransitivity; [|exact Hd]. apply subseteq_dom, map_filter_subseteq.
  - intros f x Hx. apply map_lookup_filter_Some in Hx as [Hx _]. by eapply He.
Qed.

Lemma getOrInitHash_sees m db k : sees m db → dl_of dl m →
  ∃ r db1, getOrInitHash k db = Ret (r, db1) ∧
    match m !! k with
    | None => r = inr (held NewHash EncListpack, true) ∧ sees (<[k := Own (∅, ∅)]> m) db1
    | Some Foreign => r = inl RWrongType ∧ sees m db1
    | Some (Own s) => ∃ h enc, r = inr (held h enc, false) ∧ ok h s ∧ sees m db1
    end.
Proof.
  intros S Hdl. destruct (get_obj_sees t Hclk dl hash_obj_ok m db k S) as (r & db1 & E & S1 & _ & H). unfold getOrInitHash. rewrite (run_step _ _ _ _ _ E).
  destruct (m !! k) as [[s|]|] eqn:Hm.
  - destruct H as ([enc h|h|d] & -> & Hv); cbn in Hv; try done. eexists _, db1. rewrite run_mret. split; [done|]. by exists h, enc.
  - subst r. eexists _, db1. by rewrite run_mret.
  - destruct H as [-> Hd]. destruct (put_new_sees t dl hash_obj_ok m db1 k (HashRobj EncListpack NewHash) (∅, ∅) S1 Hm (Hdl k Hm) Hd) as (r & db2 & E2 & S2 & _).
    { split; [apply hash_ok_new|done]. }
    rewrite (run_step _ _ _ _ _ E2), run_mret. by eexists _, db2.
Qed.

Lemma gives_writing m db k (fn : hash_handle D → M O reply) (out : hmap → hmap → Reply → Prop) : sees m db → all_good m → dl_of dl m →
  (∀ m1 db1 s h enc, sees m1 db1 → m1 !! k = Some (Own s) → ok h s → good s →
     ∃ r db2 s', fn (held h enc) db1 = Ret (r, db2) ∧ sees (<[k := Own s']> m1) db2 ∧ ∀ mem, out s s' (resolve mem r)) →
  gives (r ← getOrInitHash k; match r with inl e => mret e | inr (hh, _) => fn hh end) db
    (λ m' r, on_write m k m' r (λ s, ∃ s', m' = <[k := Own s']> m ∧ out s s' r)).
Proof.
  intros S HG Hdl HF. destruct (getOrInitHash_sees m db k S Hdl) as (r & db1 & E & H). unfold ObjCmdThm.gives, on_write. rewrite (run_step _ _ _ _ _ E).
  destruct (m !! k) as [[s|]|] eqn:Hm.
  - destruct H as (h & enc & -> & Hok & S1). destruct (HF m db1 s h enc S1 Hm Hok (HG _ _ Hm)) as (r & db2 & s' & E2 & S2 & Hr).
    eexists r, db2, _. split; [done|]. split; [exact S2|]. intros mem. by exists s'.
  - destruct H as [-> S1]. by ret m.
  - destruct H as [-> S1]. destruct (HF (<[k := Own (∅, ∅)]> m) db1 (∅, ∅) NewHash EncListpack S1) as (r & db2 & s' & E2 & S2 & Hr);
      [apply lookup_insert_eq|split; [apply hash_ok_new|done]|apply good_empty|].
    eexists r, db2, _. split; [done|]. split; [exact S2|]. intros mem. exists s'. by rewrite insert_insert_eq.
Qed.

Lemma put_ok h s f (b : bytes) : ok h s → good s → f ∈ U → small b →
  ∃ h', ObjHash.Put T h f (VBytes b) = Ret (h', Z.of_nat (size (<[f := b]> s.1)) - Z.of_nat (size s.1)) ∧ ok h' (<[f := b]> s.1, s.2).
Proof.
  intros [Hok He] HG Hf Hb. destruct (hash_Put_spec T h s.1 f b Hok) as (h' & E & Hok' & He'); [by apply HU2|done|by apply good_size|]. exists h'. rewrite E. split.
  - do 2 f_equal. rewrite map_size_insert. destruct (s.1 !! f); cbn; lia.
  - split; [done|]. cbn [snd]. congruence.
Qed.
Lemma good_put_field s f (b : bytes) : good s → f ∈ U → good (<[f := b]> s.1, s.2).
Proof. intros [Hd He] Hf. split; [|done]. cbn [fst]. rewrite dom_insert_L. set_solver. Qed.

Lemma put_pairs (ps : list (bytes * bytes)) h s (c : Z) : ok h s → good s → Forall (λ p, p.1 ∈ U ∧ small p.2) ps →
  ∃ h', foldM (put_pair T) ps (h, c) = Ret (h', c + (Z.of_nat (size (put_fields ps s.1)) - Z.of_nat (size s.1))) ∧ ok h' (put_fields ps s.1, s.2).
Proof.
  revert h s c. induction ps as [|[f b] ps IH]; intros h s c Hok HG HF.
  - exists h. cbn. rewrite Z.sub_diag, Z.add_0_r. by destruct s.
  - inversion_clear HF as [|? ? [Hf Hb] HF']. cbn [fst snd] in *. destruct (put_ok h s f b Hok HG Hf Hb) as (h1 & E1 & H1). cbn [foldM].
    assert (E2 : put_pair T (h, c) (f, b) = Ret (h1, c + (Z.of_nat (size (<[f := b]> s.1)) - Z.of_nat (size s.1)))) by (unfold put_pair; cbn [fst snd]; by rewrite E1).
    rewrite E2. cbn [mbind res_bind]. destruct (IH h1 (<[f := b]> s.1, s.2) (c + (Z.of_nat (size (<[f := b]> s.1)) - Z.of_nat (size s.1))) H1 (good_put_field s f b HG Hf) HF') as (h' & E & Hok').
    cbn [fst snd] in *. rewrite E. exists h'. split; [|done]. do 2 f_equal. cbn [put_fields foldl fst snd]. fold (put_fields ps (<[f := b]> s.1)). lia.
Qed.

Lemma pairs_of_flat (ps : list (bytes * bytes)) : pairs_of (ps ≫= λ p, [p.1; p.2]) = ps.
Proof. induction ps as [|[f b] ps IH]; [done|]. cbn. by rewrite IH. Qed.
Lemma length_flat_pairs (ps : list (bytes * bytes)) : length (ps ≫= λ p, [p.1; p.2]) = (2 * length ps)%nat.
Proof. induction ps as [|[f b] ps IH]; [done|]. cbn in *. rewrite IH. lia. Qed.

Lemma does_HSet k (ps : list (bytes * bytes)) m db : ps ≠ [] → Forall (λ p, p.1 ∈ U ∧ small p.2) ps → all_good m → dl_of dl m → sees m db → meets (OHSet k ps) m db.
Proof.
  intros Hne HF HG Hdl HS. cbn [hash_exec hash_step]. set (flat := ps ≫= λ p, [p.1; p.2]).
  assert (Hl : length (ALit <$> (k :: flat)) = S (2 * length ps)%nat) by (rewrite length_fmap; cbn [length]; unfold flat; by rewrite length_flat_pairs).
  unfold execHSet. rewrite Hl. replace (S (2 * length ps) <? 3)%nat with false by (symmetry; apply Nat.ltb_ge; destruct ps; [done|cbn; lia]).
  rewrite Nat.odd_succ, Nat.even_mul. cbn [negb orb Nat.even]. unfold ObjCmdThm.gives. erewrite run_word by reflexivity. change (drop 1 (ALit <$> (k :: flat))) with (ALit <$> flat).
  rewrite (run_step _ _ _ _ _ (run_words _ _)). unfold flat. rewrite pairs_of_flat.
  eapply (gives_mono t dl hash_obj_ok); [apply (gives_writing m db k _ (λ s s' r, s' = (put_fields ps s.1, s.2) ∧ r = IntReply (Z.of_nat (size (put_fields ps s.1)) - Z.of_nat (size s.1))) HS HG Hdl)|].
  - intros m1 db1 s h enc S1 Hm Hok HGs. cbn [the_hash home]. destruct (put_pairs ps h s 0 Hok HGs HF) as (h' & E & Hok'). rewrite run_lift, E.
    destruct (store_hash_sees m1 db1 k s h' enc _ S1 Hm Hok') as (db2 & E2 & S2). rewrite (run_step _ _ _ _ _ E2), run_addAof, run_mret.
    eexists _, _, _. split; [done|]. split; [eapply (sees_same t dl hash_obj_ok _ db2); [done..|exact S2]|]. intros mem. split; [done|]. cbn [resolve RInt]. f_equal.
  - intros m' r. unfold hash_step, on_write. destruct (m !! k) as [[s|]|]; [|done|]; by intros (s' & -> & -> & ->).
Qed.

Lemma does_HSetNX k f v m db : f ∈ U → small v → all_good m → dl_of dl m → sees m db → meets (OHSetNX k f v) m db.
Proof.
  intros Hf Hv HG Hdl S. cbn [hash_exec hash_step]. unfold execHSetNX, ObjCmdThm.gives. do 3 erewrite run_word by reflexivity.
  eapply (gives_mono t dl hash_obj_ok); [apply (gives_writing m db k _ (λ s s' r, match s.1 !! f with Some _ => s' = s ∧ r = IntReply 0 | None => s' = (<[f := v]> s.1, s.2) ∧ r = IntReply 1 end) S HG Hdl)|].
  - intros m1 db1 s h enc S1 Hm [Hok He] HGs. cbn [the_hash home]. destruct (hash_PutIfAbsent_spec T h s.1 f v Hok) as (h' & E & Hok' & He'); [by apply HU2|done|by apply good_size|].
    rewrite run_lift, E. set (s' := (match s.1 !! f with Some _ => s.1 | None => <[f := v]> s.1 end, s.2)).
    destruct (store_hash_sees m1 db1 k s h' enc s' S1 Hm) as (db2 & E2 & S2); [split; [done|cbn [snd s']; congruence]|]. rewrite (run_step _ _ _ _ _ E2), run_when.
    exists (RInt (b2z (bool_decide (s.1 !! f = None)))). destruct (s.1 !! f) as [b|] eqn:Ef; cbn [b2z bool_decide].
    + rewrite bool_decide_eq_false_2 by done. cbn [b2z]. change (0 <? 0) with false. cbv iota. rewrite run_mret. eexists db2, s'. split; [done|]. split; [done|]. intros mem. split; [|done].
      unfold s'. by destruct s.
    + rewrite bool_decide_eq_true_2 by done. cbn [b2z]. change (0 <? 1) with true. cbv iota. rewrite run_addAof, run_mret. eexists _, s'. split; [done|].
      split; [eapply (sees_same t dl hash_obj_ok _ db2); [done..|exact S2]|]. intros mem. by split.
  - intros m' r. unfold hash_step, on_write. destruct (m !! k) as [[s|]|]; [|done|].
    + intros (s' & -> & H). by destruct (s.1 !! f); destruct H as [-> ->].
    + intros (s' & -> & H). cbn [fst] in *. rewrite lookup_empty in *. by destruct H as [-> ->].
Qed.

(** HINCRBY stores a number. *)
Lemma set_field_run m db k s h (enc : Encoding) f (b : bytes) (line : list arg) (r : reply) : sees m db → m !! k = Some (Own s) → ok h s → good s → f ∈ U → small b →
  ∃ db', set_field T k (held h enc) f b line r db = Ret (r, db') ∧ sees (<[k := Own (<[f := b]> s.1, s.2)]> m) db'.
Proof.
  intros S Hm Hok HG Hf Hb. unfold set_field. cbn [the_hash home]. destruct (put_ok h s f b Hok HG Hf Hb) as (h' & E & Hok'). rewrite run_lift, E.
  destruct (store_hash_sees m db k s h' enc _ S Hm Hok') as (db2 & E2 & S2). rewrite (run_step _ _ _ _ _ E2), run_addAof, run_mret.
  eexists. split; [done|]. eapply (sees_same t dl hash_obj_ok _ db2); [done..|exact S2].
Qed.

Lemma small_Itoa n : i64 n → small (Itoa n).
Proof.
  intros _. assert (Hd : ∀ fuel (x : Z) acc, (length (digits fuel x acc) <= fuel + length acc)%nat).
  { induction fuel as [|fuel IH]; intros x acc; cbn [digits]; [lia|]. destruct (x <? 10); [cbn; lia|]. etransitivity; [apply IH|]. cbn. lia. }
  unfold small, Itoa. destruct (n <? 0); [rewrite length_app|]; match goal with |- context [digits 20 ?k []] => pose proof (Hd 20%nat k []) end; cbn in *; lia.
Qed.

Lemma does_HIncrBy k f n m db : f ∈ U → i64 n → all_good m → dl_of dl m → sees m db → meets (OHIncrBy k f n) m db.
Proof.
  intros Hf Hn HG Hdl S. cbn [hash_exec]. unfold execHIncrBy, ObjCmdThm.gives. do 3 erewrite run_word by reflexivity. rewrite ParseInt_Itoa by done.
  eapply (gives_mono t dl hash_obj_ok); [apply (gives_writing m db k _ (λ s s' r, match s.1 !! f with
      | None => s' = (<[f := Itoa n]> s.1, s.2) ∧ r = IntReply n
      | Some b => match ParseInt b with
                  | None => s' = s ∧ r = StandardErrReply (str "ERR hash value is not an integer")
                  | Some v => s' = (<[f := Itoa (wrap64 (v + n))]> s.1, s.2) ∧ r = IntReply (wrap64 (v + n))
                  end
      end) S HG Hdl)|].
  - intros m1 db1 s h enc S1 Hm Hok HGs. cbn [the_hash]. unfold hash_get. destruct (get_run h s f Hok) as (v & E & Hv). rewrite run_lift, E.
    destruct (s.1 !! f) as [b|]; [rewrite (bool_decide_eq_true_2 (is_Some (Some b))) by done|rewrite (bool_decide_eq_false_2 (is_Some None)) by (by intros [? ?])]; cbn [negb].
    + rewrite (Hv b eq_refl), run_string_of. change (arg_str (memory db1) (ALit b)) with b. destruct (ParseInt b) as [x|].
      * destruct (set_field_run m1 db1 k s h enc f (Itoa (wrap64 (x + n))) (ToCmdLine3 "hincrby" (ALit <$> [k; f; Itoa n])) (RInt (wrap64 (x + n))) S1 Hm Hok HGs Hf) as (db2 & E2 & S2);
          [apply small_Itoa, wrap64_range|]. eexists _, db2, _. split; [exact E2|]. by split.
      * rewrite run_mret. eexists _, db1, s. split; [done|]. by rewrite insert_id.
    + destruct (set_field_run m1 db1 k s h enc f (Itoa n) (ToCmdLine3 "hincrby" (ALit <$> [k; f; Itoa n])) (RInt n) S1 Hm Hok HGs Hf) as (db2 & E2 & S2); [by apply small_Itoa|].
      eexists _, db2, _. split; [exact E2|]. by split.
  - intros m' r. unfold hash_step, on_write. destruct (m !! k) as [[s|]|]; [|done|].
    + intros (s' & -> & H). destruct (s.1 !! f) as [b|]; [destruct (ParseInt b)|]; by destruct H as [-> ->].
    + intros (s' & -> & H). cbn [fst] in *. rewrite lookup_empty in *. by destruct H as [-> ->].
Qed.

(** ** Deleting *)

Lemma put_hash_twice k s s0 m : put_hash k s (<[k := Own s0]> m) = put_hash k s m.
Proof. unfold put_hash. destruct (decide _); [apply delete_insert_eq|apply insert_insert_eq]. Qed.

(** A hash is stored, and removed when it has no fields. *)
Lemma store_or_drop m db k s0 h enc s (rest : M O reply) : sees m db → m !! k = Some (Own s0) → ok h s →
  ∃ db', (store_hash k (InRobj enc) h;; n ← hash_len h; when (n =? 0) (KeySpace.Remove k);; rest) db = rest db' ∧ sees (put_hash k s m) db'.
Proof.
  intros S Hm Hok. destruct (store_hash_sees m db k s0 h enc s S Hm Hok) as (db1 & E1 & S1). rewrite (run_step _ _ _ _ _ E1). unfold hash_len, put_hash.
  rewrite (hash_Len_spec T h s.1 (proj1 Hok)), run_lift, run_when. destruct (decide (s.1 = ∅)) as [He|He].
  - rewrite He, map_size_empty. change (Z.of_nat 0 =? 0) with true. cbv iota. destruct (Remove_sees t dl hash_obj_ok _ db1 k S1) as (db2 & E2 & S2 & _).
    rewrite (run_step _ _ _ _ _ E2). exists db2. split; [done|]. by rewrite delete_insert_eq in S2.
  - rewrite (proj2 (Z.eqb_neq _ _)) by (intros H0; apply He, map_size_empty_inv; lia). by exists db1.
Qed.

Lemma remove_ok h s f : ok h s →
  ∃ h' v, ObjHash.Remove h f = Ret (h', v, Z.of_nat (size s.1) - Z.of_nat (size (delete f s.1))) ∧ ok h' (delete f s.1, s.2).
Proof.
  intros [Hok He]. destruct (hash_Remove_spec T h s.1 f Hok) as (h' & v & E & Hok' & He'). exists h', v. rewrite E. split.
  - do 2 f_equal. rewrite map_size_delete. destruct (s.1 !! f) as [b|] eqn:Ef; cbn; [|lia]. assert (size s.1 ≠ 0%nat) by (intros H0; apply map_size_empty_inv in H0; rewrite H0, lookup_empty in Ef; done).
    lia.
  - split; [done|]. cbn [snd]. congruence.
Qed.

Lemma del_fields (fs : list bytes) h s (c : Z) : ok h s →
  ∃ h', foldM del_field fs (h, c) = Ret (h', c + (Z.of_nat (size s.1) - Z.of_nat (size (without fs s.1)))) ∧ ok h' (without fs s.1, s.2).
Proof.
  revert h s c. induction fs as [|f fs IH]; intros h s c Hok.
  - exists h. cbn. rewrite Z.sub_diag, Z.add_0_r. by destruct s.
  - destruct (remove_ok h s f Hok) as (h1 & v & E1 & H1). cbn [foldM].
    assert (E2 : del_field (h, c) f = Ret (h1, c + (Z.of_nat (size s.1) - Z.of_nat (size (delete f s.1))))) by (unfold del_field; cbn [fst snd]; by rewrite E1).
    rewrite E2. cbn [mbind res_bind]. destruct (IH h1 (delete f s.1, s.2) (c + (Z.of_nat (size s.1) - Z.of_nat (size (delete f s.1)))) H1) as (h' & E & Hok').
    cbn [fst snd] in *. rewrite E. rewrite without_delete in *. exists h'. split; [|done]. do 2 f_equal. lia.
Qed.

Lemma does_HDel k fs m db : sees m db → meets (OHDel k fs) m db.
Proof.
  intros S. cbn [hash_exec]. unfold execHDel, ObjCmdThm.gives. erewrite run_word by reflexivity. change (drop 1 (ALit <$> (k :: fs))) with (ALit <$> fs). rewrite (run_step _ _ _ _ _ (run_words _ _)).
  destruct (getAsHash_sees m db k S) as (r & db1 & E & H). rewrite (run_step _ _ _ _ _ E). unfold hash_step, on_hash_key. destruct (m !! k) as [[s|]|].
  - destruct H as (h & enc & -> & Hok & S1). cbn [the_hash home]. destruct (del_fields fs h (purged now s) 0 Hok) as (h' & E' & Hok'). rewrite run_lift, E'.
    set (n := Z.of_nat (size (purged now s).1) - Z.of_nat (size (without fs (purged now s).1))) in *.
    destruct (store_or_drop _ db1 k (purged now s) h' enc _ (when (0 <? 0 + n) (addAof (ToCmdLine3 "hdel" (ALit <$> (k :: fs))));; mret (RInt (0 + n))) S1 (lookup_insert_eq _ _ _) Hok') as (db2 & E2 & S2).
    rewrite E2, run_when, put_hash_twice in *. destruct (0 <? 0 + n); [rewrite run_addAof|]; rewrite run_mret; eexists _, _, _; (split; [done|]); (split; [|done]); [|exact S2].
    eapply (sees_same t dl hash_obj_ok _ db2); [done..|exact S2].
  - destruct H as [-> S1]. by ret m.
  - destruct H as [-> S1]. by ret m.
Qed.

Lemma persist_ok h s f : ok h s → ok (PersistField h f).1 (s.1, delete f s.2).
Proof.
  intros [Hok He]. unfold PersistField. destruct (fieldExpire h) as [e|] eqn:Ef; cbn in He.
  - destruct (e !! f) as [x|] eqn:Ee; (split; [done|]); cbn; [by rewrite He|]. rewrite Ef. cbn. by rewrite <- He, delete_id.
  - split; [done|]. cbn. by rewrite Ef, <- He, delete_empty.
Qed.

Lemma take_fields (fs : list bytes) h s : ok h s → ∃ h', foldM take_field fs h = Ret h' ∧ ok h' (without fs s.1, without fs s.2).
Proof.
  revert h s. induction fs as [|f fs IH]; intros h s Hok; [exists h; cbn; by destruct s|]. destruct (remove_ok h s f Hok) as (h1 & v & E1 & H1). cbn [foldM].
  assert (E2 : take_field h f = Ret (PersistField h1 f).1) by (unfold take_field; by rewrite E1). rewrite E2. cbn [mbind res_bind].
  destruct (IH _ _ (persist_ok h1 _ f H1)) as (h' & E & Hok'). cbn [fst snd] in *. rewrite E, !without_delete in *. by exists h'.
Qed.

(** ** Fields with deadlines *)

Lemma fields_arg_words total (mm : reply) (fs : list bytes) : ToUpper (str "FIELDS") = str "FIELDS" → Z.of_nat (length fs) <= max_i64 →
  fields_arg 1 total mm (fields_words fs) = Ret (inr fs).
Proof.
  intros Hup Hl. unfold fields_arg, fields_words. rewrite Hup. change (bytes_eqb (str "FIELDS") (str "FIELDS")) with true. cbn [negb].
  rewrite ParseInt_Itoa by (unfold i64, min_i64; lia). rewrite (proj2 (Z.ltb_ge _ 0)) by lia. rewrite Z.mul_1_r, Z.leb_refl, Nat2Z.id. by rewrite firstn_all.
Qed.

Lemma does_HGetDel k fs m db : ToUpper (str "FIELDS") = str "FIELDS" → Z.of_nat (length fs) <= max_i64 → sees m db → meets (OHGetDel k fs) m db.
Proof.
  intros Hup Hl S. cbn [hash_exec]. unfold execHGetDel, ObjCmdThm.gives. erewrite run_word by reflexivity.
  change (drop 1 (ALit <$> (k :: fields_words fs))) with (ALit <$> fields_words fs). rewrite (run_step _ _ _ _ _ (run_words _ _)).
  rewrite (fields_arg_words _ _ fs Hup Hl), run_lift. destruct (getAsHash_sees m db k S) as (r & db1 & E & H). rewrite (run_step _ _ _ _ _ E). unfold hash_step, on_hash_key.
  destruct (m !! k) as [[s|]|].
  - destruct H as (h & enc & -> & Hok & S1). cbn [the_hash home]. rewrite run_now_ms. set (s1 := purged now s) in *.
    destruct (purge_sees _ (set_reads db1 (Datatypes.S (reads db1))) k s1 h enc s1 (hash_tick _ _ _ S1) (lookup_insert_eq _ _ _) Hok) as (h1 & db2 & E2 & Hok1 & S2).
    rewrite (run_step _ _ _ _ _ E2). unfold s1 in Hok1, S2. rewrite purged_twice in Hok1, S2. fold s1 in Hok1, S2. rewrite insert_insert_eq in S2.
    destruct (field_values h1 s1 fs db2 Hok1) as (vs & E3 & Hvs). rewrite (run_step _ _ _ _ _ E3). destruct (take_fields fs h1 s1 Hok1) as (h' & E4 & Hok'). rewrite run_lift, E4.
    destruct (store_or_drop _ db2 k s1 h' enc _ (addAof (ToCmdLine3 "hgetdel" (ALit <$> (k :: fields_words fs)));; mret (RMultiBulk vs)) S2 (lookup_insert_eq _ _ _) Hok') as (db3 & E5 & S3).
    rewrite E5, run_addAof, run_mret, put_hash_twice in *. eexists _, _, _. split; [done|]. split; [eapply (sees_same t dl hash_obj_ok _ db3); [done..|exact S3]|].
    intros mem. split; [done|]. cbn [resolve]. by rewrite Hvs.
  - destruct H as [-> S1]. by ret m.
  - destruct H as [-> S1]. ret m. intros mem. split; [done|]. cbn [resolve]. by rewrite nil_values.
Qed.

(** A loop over fields, one answer each. *)
Lemma each_field_spec (one : Hash_ D → bytes → res (Hash_ D * Z)) (spec : hmap → bytes → gmap bytes Z * Z) (I : hmap → Prop) (fs : list bytes) h s :
  (∀ h s f, ok h s → I s → ∃ h', one h f = Ret (h', (spec s f).2) ∧ ok h' (s.1, (spec s f).1) ∧ I (s.1, (spec s f).1)) → ok h s → I s →
  ∃ h', each_field one fs h = Ret (h', (each_spec spec fs s).2) ∧ ok h' (each_spec spec fs s).1.
Proof.
  intros Hone. revert h s. induction fs as [|f fs IH]; intros h s Hok HI; [by exists h|]. cbn [each_field each_spec].
  destruct (Hone h s f Hok HI) as (h1 & E1 & Hok1 & HI1). rewrite E1. cbn [mbind res_bind]. destruct (spec s f) as [e n]. cbn [fst snd] in *.
  destruct (IH h1 (s.1, e) Hok1 HI1) as (h' & E & Hok'). rewrite E. cbn [mbind res_bind]. destruct (each_spec spec fs (s.1, e)) as [s' ns]. by exists h'.
Qed.

Lemma int_replies mem ns : resolve mem (RRaw (RInt <$> ns)) = MultiRawReply (IntReply <$> ns).
Proof. cbn [resolve]. f_equal. by rewrite <- list_fmap_compose. Qed.
Lemma no_fields (fs : list bytes) mem : resolve mem (RRaw (replicate (length fs) (RInt (-2)))) = MultiRawReply ((λ _, IntReply (-2)) <$> fs).
Proof. cbn [resolve]. f_equal. rewrite fmap_replicate. by induction fs as [|f fs IH]; [|cbn; f_equal]. Qed.

Lemma expire_at_ok h s f at_ : ok h s → ok (SetFieldExpire h f at_) (s.1, <[f := at_]> s.2).
Proof. intros [Hok He]. split; [done|]. cbn. by rewrite He. Qed.

Lemma hexpire_one_spec at_ h s f : ok h s → ∃ h', hexpire_one 0 at_ h f = Ret (h', (expire_one at_ s f).2) ∧ ok h' (s.1, (expire_one at_ s f).1).
Proof.
  intros Hok. unfold hexpire_one, expire_one, checkHFieldExpireOption. destruct (get_run h s f Hok) as (v & E & _). rewrite E. cbn [mbind res_bind]. destruct (s.1 !! f) as [b|].
  - rewrite bool_decide_eq_true_2 by done. cbn [negb]. destruct (FieldExpire h f) as [x b']. cbn [Z.eqb negb]. eexists. split; [done|]. by apply expire_at_ok.
  - rewrite bool_decide_eq_false_2 by (by intros [? ?]). cbn [negb]. exists h. split; [done|]. by destruct s.
Qed.

Lemma field_expire_spec h s f : ok h s → FieldExpire h f = match s.2 !! f with Some x => (x, true) | None => (0, false) end.
Proof. intros [_ He]. unfold FieldExpire. rewrite <- He. destruct (fieldExpire h) as [e|]; [done|]. cbn. by rewrite lookup_empty. Qed.

Lemma ttl_one_spec h s f : 0 <= now → ok h s → good s ∧ (∀ f x, s.2 !! f = Some x → now < x) →
  one_ttl (remaining 1) now h f = Ret (h, (ttl_one now s f).2).
Proof.
  intros Hnow Hok [[_ Hi] Hlt]. unfold one_ttl, ttl_one. destruct (get_run h s f Hok) as (v & E & _). rewrite E. cbn [mbind res_bind snd]. rewrite (field_expire_spec h s f Hok).
  destruct (s.1 !! f) as [b|]; [rewrite bool_decide_eq_true_2 by done|rewrite bool_decide_eq_false_2 by (by intros [? ?]); done]. cbn [negb].
  destruct (s.2 !! f) as [x|] eqn:Ex; [|done]. cbn [negb]. unfold remaining. pose proof (Hi f x Ex) as Hx. cbn in Hx. pose proof (Hlt f x Ex). unfold i64 in Hx.
  rewrite wrap64_id by (unfold i64, min_i64 in *; lia). rewrite (proj2 (Z.leb_gt _ 0)) by lia. by rewrite Z.quot_1_r.
Qed.

Lemma persist_one_spec h s f : ok h s → ∃ h', persist_one now h f = Ret (h', (unset_one s f).2) ∧ ok h' (s.1, (unset_one s f).1).
Proof.
  intros Hok. unfold persist_one, unset_one. destruct (get_run h s f Hok) as (v & E & _). rewrite E. cbn [mbind res_bind]. rewrite (field_expire_spec h s f Hok).
  destruct (s.1 !! f) as [b|]; [rewrite bool_decide_eq_true_2 by done|rewrite bool_decide_eq_false_2 by (by intros [? ?])]; cbn [negb].
  - destruct (s.2 !! f) as [x|]; cbn [snd negb]; eexists; (split; [done|]); [by apply persist_ok|by destruct s].
  - exists h. split; [done|]. by destruct s.
Qed.

Lemma does_HPExpireAt k at_ fs m db : ToUpper (str "FIELDS") = str "FIELDS" → i64 at_ → Z.of_nat (length fs) <= max_i64 → sees m db → meets (OHPExpireAt k at_ fs) m db.
Proof.
  intros Hup Hat Hl S. cbn [hash_exec]. unfold execHPExpireAt, hexpire_with, ObjCmdThm.gives. do 2 erewrite run_word by reflexivity. rewrite ParseInt_Itoa by done.
  change (drop 2 (ALit <$> (k :: Itoa at_ :: fields_words fs))) with (ALit <$> fields_words fs). rewrite (run_step _ _ _ _ _ (run_words _ _)).
  assert (EP : parseHExpireArgs (fields_words fs) = Ret (inr (0, fs))).
  { unfold parseHExpireArgs. assert (EO : hexpire_option (fields_words fs) = (0, fields_words fs)) by (unfold hexpire_option, fields_words; by rewrite Hup).
    rewrite EO, (fields_arg_words _ _ fs Hup Hl). done. }
  rewrite EP, run_lift. destruct (getAsHash_sees m db k S) as (r & db1 & E & H). rewrite (run_step _ _ _ _ _ E). unfold hash_step, on_hash_key. destruct (m !! k) as [[s|]|].
  - destruct H as (h & enc & -> & Hok & S1). rewrite run_ret, run_addAof. unfold hExpireFields. rewrite run_now_ms. cbn [the_hash home]. set (s1 := purged now s) in *.
    match goal with |- context [(_ ≫= _) ?db2] => set (db2' := db2) end.
    destruct (maybe_purge_sees _ db2' k h enc s1 ltac:(eapply (sees_same t dl hash_obj_ok _ db1); [done..|exact S1]) (lookup_insert_eq _ _ _) Hok) as (h1 & db3 & E3 & Hok1 & S3).
    rewrite (run_step _ _ _ _ _ E3). unfold s1 in Hok1, S3. rewrite purged_twice in Hok1, S3. fold s1 in Hok1, S3. rewrite insert_insert_eq in S3.
    destruct (each_field_spec (hexpire_one 0 at_) (expire_one at_) (λ _, True) fs h1 s1) as (h' & E4 & Hok'); [|done|done|].
    { intros h0 s0 f0 H0 _. destruct (hexpire_one_spec at_ h0 s0 f0 H0) as (h2 & ? & ?). by exists h2. }
    rewrite run_lift, E4. destruct (store_hash_sees _ db3 k s1 h' enc _ S3 (lookup_insert_eq _ _ _) Hok') as (db4 & E5 & S4). rewrite insert_insert_eq in S4.
    rewrite (run_step _ _ _ _ _ E5), run_mret. eexists _, db4, _. split; [done|]. split; [exact S4|]. intros mem. split; [done|]. apply int_replies.
  - destruct H as [-> S1]. by ret m.
  - destruct H as [-> S1]. ret m. intros mem. split; [done|]. apply no_fields.
Qed.

(** HPTTL and HPERSIST. *)
Lemma gives_ttls (one : Z → Hash_ D → bytes → res (Hash_ D * Z)) (spec : hmap → bytes → gmap bytes Z * Z) (finish : list arg → M O unit) k fs m db :
  ToUpper (str "FIELDS") = str "FIELDS" → Z.of_nat (length fs) <= max_i64 → sees m db → all_good m →
  (∀ m db l, sees m db → ∃ db', finish l db = Ret (tt, db') ∧ sees m db') →
  (∀ h s, ok h s → good s ∧ (∀ f x, s.2 !! f = Some x → now < x) → ∃ h', each_field (one now) fs h = Ret (h', (each_spec spec fs s).2) ∧ ok h' (each_spec spec fs s).1) →
  gives (field_ttls one finish (ALit <$> (k :: fields_words fs))) db (λ m' r, on_hash_key now m k m' r (MultiRawReply ((λ _, IntReply (-2)) <$> fs)) (λ s,
    m' = <[k := Own (each_spec spec fs s).1]> m ∧ r = MultiRawReply (IntReply <$> (each_spec spec fs s).2))).
Proof.
  intros Hup Hl S HG Hfin Hone. unfold field_ttls, ObjCmdThm.gives. erewrite run_word by reflexivity.
  change (drop 1 (ALit <$> (k :: fields_words fs))) with (ALit <$> fields_words fs). rewrite (run_step _ _ _ _ _ (run_words _ _)). unfold parseHFieldsArgs.
  rewrite (fields_arg_words _ _ fs Hup Hl), run_lift. destruct (getAsHash_sees m db k S) as (r & db1 & E & H). rewrite (run_step _ _ _ _ _ E). unfold on_hash_key. destruct (m !! k) as [[s|]|] eqn:Hm.
  - destruct H as (h & enc & -> & Hok & S1). rewrite run_now_ms. cbn [the_hash home]. set (s1 := purged now s) in *.
    destruct (maybe_purge_sees _ (set_reads db1 (Datatypes.S (reads db1))) k h enc s1 (hash_tick _ _ _ S1) (lookup_insert_eq _ _ _) Hok) as (h1 & db3 & E3 & Hok1 & S3).
    rewrite (run_step _ _ _ _ _ E3). unfold s1 in Hok1, S3. rewrite purged_twice in Hok1, S3. fold s1 in Hok1, S3. rewrite insert_insert_eq in S3.
    destruct (Hone h1 s1 Hok1) as (h' & E4 & Hok'). { split; [by apply good_purged, (HG k)|]. intros f x. apply purged_alive. }
    rewrite run_lift, E4. destruct (store_hash_sees _ db3 k s1 h' enc _ S3 (lookup_insert_eq _ _ _) Hok') as (db4 & E5 & S4). rewrite insert_insert_eq in S4.
    rewrite (run_step _ _ _ _ _ E5). destruct (Hfin _ db4 (ALit <$> (k :: fields_words fs)) S4) as (db5 & E6 & S5). rewrite (run_step _ _ _ _ _ E6), run_mret.
    eexists _, db5, _. split; [done|]. split; [exact S5|]. intros mem. split; [done|]. apply int_replies.
  - destruct H as [-> S1]. by ret m.
  - destruct H as [-> S1]. rewrite run_now_ms. destruct (Hfin m _ (ALit <$> (k :: fields_words fs)) (hash_tick m db1 (Datatypes.S (reads db1)) S1)) as (db5 & E6 & S5).
    rewrite (run_step _ _ _ _ _ E6), run_mret. eexists _, db5, m. split; [done|]. split; [done|]. intros mem. split; [done|]. apply no_fields.
Qed.

Lemma each_ttl_state (fs : list bytes) s : (each_spec (ttl_one now) fs s).1 = s.
Proof.
  induction fs as [|f fs IH]; [done|]. cbn [each_spec ttl_one]. destruct s as [m e]. cbn [fst snd] in *.
  destruct (each_spec (ttl_one now) fs (m, e)) as [s' ns]. done.
Qed.

Lemma does_HPTTL k fs m db : ToUpper (str "FIELDS") = str "FIELDS" → Z.of_nat (length fs) <= max_i64 → 0 <= now → sees m db → all_good m → meets (OHPTTL k fs) m db.
Proof.
  intros Hup Hl Hnow S HG. eapply (gives_mono t dl hash_obj_ok); [apply (gives_ttls (one_ttl (remaining 1)) (ttl_one now) quiet k fs m db Hup Hl S HG)|].
  - intros m0 db0 l S0. by exists db0.
  - intros h s Hok HI. rewrite each_ttl_state. exists h. split; [|done]. clear -Hok HI Hnow. induction fs as [|f fs IH]; [done|]. cbn [each_field each_spec].
    rewrite (ttl_one_spec h s f Hnow Hok HI). cbn [mbind res_bind]. rewrite IH. cbn [mbind res_bind].
    assert (Et : ttl_one now s f = (s.2, (ttl_one now s f).2)) by done. rewrite Et. destruct s as [m0 e0]. cbn [fst snd] in *. by destruct (each_spec (ttl_one now) fs (m0, e0)) as [s' ns].
  - intros m' r. unfold hash_step, on_hash_key. destruct (m !! k) as [[s|]|]; [|done..]. by rewrite each_ttl_state.
Qed.

Lemma does_HPersist k fs m db : ToUpper (str "FIELDS") = str "FIELDS" → Z.of_nat (length fs) <= max_i64 → sees m db → all_good m → meets (OHPersist k fs) m db.
Proof.
  intros Hup Hl S HG. apply (gives_ttls persist_one unset_one _ k fs m db Hup Hl S HG).
  - intros m0 db0 l S0. destruct (addAof_sees t dl hash_obj_ok m0 db0 (ToCmdLine3 "hpersist" l) S0) as (db' & E & S' & _). by exists db'.
  - intros h s Hok _. apply (each_field_spec (persist_one now) unset_one (λ _, True) fs h s); [|done|done].
    intros h0 s0 f0 H0 _. destruct (persist_one_spec h0 s0 f0 H0) as (h2 & ? & ?). by exists h2.
Qed.

(** ** Sequences of commands *)

Lemma all_good_insert m k s : all_good m → good s → all_good (<[k := Own s]> m).
Proof. intros HG Hs k' s' [[_ [= <-]]|[_ H]]%lookup_insert_Some; [done|]. by eapply HG. Qed.
Lemma all_good_put m k s : all_good m → good s → all_good (put_hash k s m).
Proof. intros HG Hs. unfold put_hash. destruct (decide _); [|by apply all_good_insert]. intros k' s' [_ H]%lookup_delete_Some. by eapply HG. Qed.

Lemma on_key_good m k m' (r missing : Reply) (found : hmap → Prop) : all_good m → (∀ s, good s → found s → all_good m') →
  on_hash_key now m k m' r missing found → all_good m'.
Proof. unfold on_hash_key. intros HG HF H. destruct (m !! k) as [[s|]|] eqn:Hm; [|by destruct H as [-> _]..]. eapply HF, H. by apply good_purged, (HG k). Qed.
Lemma on_read_good m k m' (r missing : Reply) (found : hmap → Prop) : all_good m → on_read now m k m' r missing found → all_good m'.
Proof. intros HG. apply on_key_good; [done|]. intros s Hs [-> _]. by apply all_good_insert. Qed.
Lemma on_write_good m k m' (r : Reply) (found : hmap → Prop) : all_good m → (∀ s, good s → found s → all_good m') → on_write m k m' r found → all_good m'.
Proof. unfold on_write. intros HG HF H. destruct (m !! k) as [[s|]|] eqn:Hm; [|by destruct H as [-> _]|]; eapply HF, H; [by apply (HG k)|apply good_empty]. Qed.

Lemma good_put_fields (ps : list (bytes * bytes)) s : good s → Forall (λ p, p.1 ∈ U ∧ small p.2) ps → good (put_fields ps s.1, s.2).
Proof.
  revert s. induction ps as [|[f b] ps IH]; intros s HG HF; [by destruct s|]. inversion_clear HF as [|? ? [Hf _] HF'].
  exact (IH (<[f := b]> s.1, s.2) (good_put_field s f b HG Hf) HF').
Qed.
Lemma without_sub {V} (fs : list bytes) (x : gmap bytes V) : without fs x ⊆ x.
Proof. induction fs as [|f fs IH]; [done|]. cbn. etransitivity; [apply delete_subseteq|exact IH]. Qed.
Lemma good_sub s (x : gmap bytes bytes) (e : gmap bytes Z) : good s → x ⊆ s.1 → e ⊆ s.2 → good (x, e).
Proof. intros [Hd He] Hx Hes. split; cbn [fst snd]; [by etransitivity; [apply subseteq_dom|]|]. intros f d Hfd. eapply He, lookup_weaken, Hes. exact Hfd. Qed.
Lemma good_each (spec : hmap → bytes → gmap bytes Z * Z) (fs : list bytes) s : (∀ s f, good s → good (s.1, (spec s f).1)) → good s → good (each_spec spec fs s).1.
Proof.
  intros Hsp. revert s. induction fs as [|f fs IH]; intros s HG; [done|]. cbn [each_spec]. pose proof (Hsp s f HG) as H1. destruct (spec s f) as [e n]. cbn [fst] in H1.
  pose proof (IH _ H1) as H2. by destruct (each_spec spec fs (s.1, e)) as [s' ns].
Qed.

Lemma hash_step_good m o m' (r : Reply) : all_good m → hash_op_ok U o → hash_step now m o m' r → all_good m'.
Proof.
  intros HG Ho. destruct o; cbn [hash_step hash_op_ok] in *; try (by apply on_read_good).
  - destruct Ho as [_ Ho]. apply on_write_good; [done|]. intros s Hs [-> _]. apply all_good_insert; [done|]. by apply good_put_fields.
  - destruct Ho as [Hf _]. apply on_write_good; [done|]. intros s Hs H. destruct (s.1 !! f); destruct H as [-> _]; apply all_good_insert; try done. by apply good_put_field.
  - apply on_key_good; [done|]. intros s Hs [-> _]. apply all_good_put; [done|]. apply (good_sub s); [done|apply without_sub|done].
  - destruct Ho as [Hf _]. apply on_write_good; [done|]. intros s Hs H.
    destruct (s.1 !! f) as [b|]; [destruct (ParseInt b)|]; destruct H as [-> _]; apply all_good_insert; try done; by apply good_put_field.
  - apply on_key_good; [done|]. intros s Hs [-> _]. apply all_good_put; [done|]. apply (good_sub s); [done|apply without_sub..].
  - destruct Ho as [Hat _]. apply on_key_good; [done|]. intros s Hs [-> _]. apply all_good_insert; [done|]. apply good_each; [|done]. intros s0 f0 [Hd He]. unfold expire_one.
    destruct (s0.1 !! f0); (split; [done|]); cbn [fst snd]; [by apply map_Forall_insert_2|done].
  - apply on_key_good; [done|]. intros s Hs [-> _]. apply all_good_insert; [done|]. apply good_each; [|done]. intros s0 f0 [Hd He]. unfold unset_one.
    destruct (s0.1 !! f0); [destruct (s0.2 !! f0)|]; (split; [done|]); cbn [fst snd]; [by apply map_Forall_delete|done..].
Qed.

Lemma does_hash_op o m db : ToUpper (str "FIELDS") = str "FIELDS" → 0 <= now → hash_op_ok U o → all_good m → dl_of dl m → sees m db → meets o m db.
Proof.
  intros Hup Hnow Ho HG Hdl S. destruct o; cbn [hash_op_ok] in Ho.
  - destruct Ho. by apply does_HSet. - destruct Ho. by apply does_HSetNX. - by apply does_HGet. - by apply does_HMGet. - by apply does_HExists. - by apply does_HLen.
  - by apply does_HStrlen. - by apply does_HDel. - destruct Ho. by apply does_HIncrBy. - by apply does_HGetAll. - by apply does_HGetDel. - destruct Ho. by apply does_HPExpireAt.
  - by apply does_HPTTL. - by apply does_HPersist.
Qed.

End commands.

Section sequences.
Context {O D : Type} `{!DictOps D value} `{!DictLaws D value} `{!Objects O} `{!ObjOf O (hash_obj D)} {env : Env} {rt : Runtime} {choices : Choices D}.
Context (Hfair : fair) (T : EncodingThresholds) (U : gset bytes) (HU1 : Z.of_nat (size U) < 2 ^ 60) (HU2 : set_Forall small U).

Definition hash_exec_at (t : Z) (o : hash_op) : M O reply := hash_exec (env := at_time t env) T o.
Definition hash_step_at (t : Z) : hashes → hash_op → hashes → Reply → Prop := hash_step (time_UnixMilli t).
(** A command that comes at a time after the epoch. *)
Definition hash_cmd_ok (p : Z * hash_op) : Prop := 0 <= time_UnixMilli p.1 ∧ hash_op_ok U p.2.

(** C6: Hash commands behave as operations on maps with deadlines, while time passes.  Take any sequence of HSET, HSETNX, HGET, HMGET, HEXISTS, HLEN,
    HSTRLEN, HDEL, HINCRBY, HGETALL, HGETDEL, HPEXPIREAT without its conditions NX, XX, GT and LT, HPTTL and HPERSIST, each at a time that is not
    before that of the one before it (all the readings of the clock within one command agree).  The keys hold values of other types or hashes that
    were made by commands, not read from a dump (see [hset_to_loaded_hash_fails]).  Every command returns, and replies and effects are those of the
    operations on a map from keys to two finite maps, the values of the fields and their deadlines, from which, before each command, the keys have
    gone whose own deadline has passed: a field whose deadline has passed at the time of a command is gone for it when it reads, deletes or sets
    deadlines (for HSET, HSETNX and HINCRBY it is still there), a field keeps its deadline until it is persisted, expires or is taken by HGETDEL, and
    values of other types give the error and stay; this holds in both encodings and for every order of traversal. *)
Theorem hash_commands_refine_maps os t v (db : DB O) :
  ToUpper (str "FIELDS") = str "FIELDS" → sees t v.2 (hash_obj_ok T) v.1 db → all_good U v.1 → forward_in_time t os → Forall hash_cmd_ok os →
  ∃ rs db' v', timed_run hash_exec_at os db = Ret (rs, db') ∧ timed_steps hash_step_at keeps_all v os v' rs ∧
    sees (last_time t os) v'.2 (hash_obj_ok T) v'.1 db'.
Proof.
  intros Hup HS HG Hin Ho.
  apply (timed_run_meets hash_step_at keeps_all (λ _, hash_obj_ok T) hash_exec_at (λ t t' x a _ H, H) (λ t m o, all_good U m ∧ hash_cmd_ok (t, o))); try done.
  - intros t1 m dl o db1 [HG1 [Hn1 Ho1]] Hdl S1. exact (does_hash_op (env := at_time t1 env) t1 (λ _, eq_refl) Hfair T dl U HU1 HU2 o m db1 Hup Hn1 Ho1 HG1 Hdl S1).
  - apply (timed_ok_inv _ _ (all_good U) hash_cmd_ok); try done.
    + intros m m' Hsub HGm k X Hk. by eapply HGm, Hsub.
    + intros t1 m o m' r HGm [Hn1 Ho1] Hs. by apply (hash_step_good (env := at_time t1 env) t1 (λ _, eq_refl) Hfair U HU1 HU2 m o m' r).
Qed.
End sequences.

(** ** Concrete runs *)

#[local] Existing Instance ex_runtime.
Local Abbreviation simple := (@SimpleDict.t value).
#[local] Instance just_hashes : Objects (hash_obj simple) := {| obj_type := λ _, TypeHash; obj_elems := λ _, [] |}.
#[local] Instance hash_of_hash : ObjOf (hash_obj simple) (hash_obj simple).
Proof. refine {| inj_obj := λ x, x; prj_obj := λ x, Some x |}; [done|]. by intros o x [= ->]. Defined.
(** A thousand seconds after the epoch. *)
#[local] Instance at_1000 : Env :=
  {| clock := λ _, 1000 * Second; draw := λ _ _, false; MaxmemoryPolicy := []; ParseIntError := λ _, []; ValueDigest := λ b, b |}.
#[local] Instance some_order : Choices simple :=
  {| dict_order := λ _ d, map_to_list (SimpleDict.m d); int_order := λ _ c, map_to_list c; rand_seed := λ _, 12345; compile := λ _, Some (λ _, true) |}.

Definition no_hashes : DB (hash_obj simple) := MkDB 0 ∅ ∅ ∅ ∅ (MkTimeWheel Second [[]; []; []; []] ∅ 0 4 0) [] [] [] 0 0.

(** The key [e] holds a hash without fields and has a deadline, a second after the thousandth. *)
Definition dated_hashes : DB (hash_obj simple) := set_ttl (set_data no_hashes {[str "e" := EObj (HashRobj EncListpack NewHash)]}) {[str "e" := 1001 * Second]}.
Definition dated_hash_view : snapshot hmap := ({[str "e" := Own (∅, ∅)]}, {[str "e" := 1001 * Second]}).

Lemma dated_hashes_seen : sees (T := hash_obj simple) (1000 * Second) dated_hash_view.2 (hash_obj_ok hash_script_T) dated_hash_view.1 dated_hashes.
Proof.
  split; [by apply (New_wf Second 4)| | |].
  - intros k d. cbn [ttlMap data dated_hashes set_ttl set_data]. intros [<- _]%lookup_singleton_Some. by rewrite lookup_singleton_eq.
  - intros k. unfold alive. cbn [dated_hash_view fst ttlMap data dated_hashes set_ttl set_data]. destruct (decide (k = str "e")) as [->|Hne].
    + rewrite !lookup_singleton_eq. eexists. split; [reflexivity|]. split; [apply hash_ok_new|done].
    + by rewrite !lookup_singleton_ne by done.
  - intros k _. done.
Qed.

(** At 1000 s, 1000.4 s, 1000.6 s and 1002 s: the deadline of [f] is at 1000.5 s. *)
Definition hash_ops : list (Z * hash_op) :=
  (pair (1000 * Second) <$>
    [OHSet (str "h") [(str "f", str "1"); (str "g", str "x"); (str "f", str "2"); (str "i", str "y")]; OHSetNX (str "h") (str "f") (str "z"); OHIncrBy (str "h") (str "f") 5; OHIncrBy (str "h") (str "g") 5;
     OHPExpireAt (str "h") 1000500 [str "f"; str "q"]; OHPExpireAt (str "h") 1000700 [str "g"]; OHPTTL (str "h") [str "f"; str "g"; str "i"]; OHIncrBy (str "e") (str "f") 1]) ++
  (pair (1000 * Second + 400 * Millisecond) <$> [OHPTTL (str "h") [str "f"]; OHMGet (str "h") [str "f"; str "g"]; OHPersist (str "h") [str "g"; str "g"]]) ++
  (pair (1000 * Second + 600 * Millisecond) <$> [OHMGet (str "h") [str "f"; str "g"]; OHGetAll (str "h"); OHDel (str "h") [str "i"]; OHLen (str "e")]) ++
  (pair (1002 * Second) <$> [OHLen (str "e"); OHGetDel (str "h") [str "g"]; OHLen (str "h"); OHExists (str "h") (str "f"); OHStrlen (str "h") (str "f")]).

Lemma hash_commands_refine_maps_witness :
  ∃ rs db' v', timed_run (hash_exec_at hash_script_T) hash_ops dated_hashes = Ret (rs, db') ∧ timed_steps hash_step_at keeps_all dated_hash_view hash_ops v' rs ∧
    sees (T := hash_obj simple) (1002 * Second) v'.2 (hash_obj_ok hash_script_T) v'.1 db' ∧
    take 4 (drop 8 rs) = [MultiRawReply [IntReply 100]; MultiBulkReply [Some (str "7"); Some (str "x")]; MultiRawReply [IntReply 1; IntReply (-1)]; MultiBulkReply [None; Some (str "x")]] ∧
    take 2 (drop 14 rs) = [IntReply 1; IntReply 0].
Proof.
  assert (HT : ∃ rs db' v', timed_run (hash_exec_at hash_script_T) hash_ops dated_hashes = Ret (rs, db') ∧ timed_steps hash_step_at keeps_all dated_hash_view hash_ops v' rs ∧
    sees (T := hash_obj simple) (1002 * Second) v'.2 (hash_obj_ok hash_script_T) v'.1 db').
  { apply (hash_commands_refine_maps (D := simple)) with (U := list_to_set [str "f"; str "g"; str "i"]) (t := 1000 * Second).
    - split; [intros n d _; cbn|intros n c]; reflexivity.
    - by vm_compute.
    - intros x Hx%elem_of_list_to_set. revert x Hx. apply Forall_forall. repeat constructor; unfold small; cbn; lia.
    - reflexivity.
    - apply dated_hashes_seen.
    - intros k s. cbn [dated_hash_view fst]. intros [_ [= <-]]%lookup_singleton_Some. by split.
    - by vm_compute.
    - repeat constructor; try done; try (unfold small; cbn; lia); try (unfold i64, min_i64, max_i64; cbn; lia); set_solver. }
  destruct HT as (rs & db' & v' & E & HT & S'). exists rs, db', v'. split; [done|]. split; [done|]. split; [done|].
  assert (HR : timed_run (hash_exec_at hash_script_T) hash_ops dated_hashes ≫= (λ '(rs, _), Ret (take 4 (drop 8 rs), take 2 (drop 14 rs))) =
    Ret ([MultiRawReply [IntReply 100]; MultiBulkReply [Some (str "7"); Some (str "x")]; MultiRawReply [IntReply 1; IntReply (-1)]; MultiBulkReply [None; Some (str "x")]],
         [IntReply 1; IntReply 0])) by (vm_compute; reflexivity).
  rewrite E in HR. injection HR as H1 H2. split; [exact H1|exact H2].
Defined.

Definition hash_replies (h1 h2 : M (hash_obj simple) reply) (db : DB (hash_obj simple)) : res (Reply * Reply) :=
  '(r1, db1) ← h1 db; '(r2, db2) ← h2 db1; Ret (resolve (memory db1) r1, resolve (memory db2) r2).
Definition line (words : list string) : list arg := ALit <$> (str <$> words).
Local Abbreviation TS := hash_script_T.
Definition one_field : M (hash_obj simple) unit := _ ← execHSet TS (line ["h"; "f"; "v"]%string); mret tt.

(** A hash that was loaded from a dump is a dict: HGET reads it, HSET takes it
    for a value of another type. *)
Definition loaded_hash : DB (hash_obj simple) := set_data no_hashes {[str "h" := EObj (PlainDict (SimpleDict.MkSimple {[str "f" := VBytes (str "v")]}))]}.
Theorem hset_to_loaded_hash_fails :
  hash_replies (execHGet (line ["h"; "f"]%string)) (execHSet TS (line ["h"; "f"; "w"]%string)) loaded_hash = Ret (BulkReply (Some (str "v")), WrongTypeErrReply).
Proof. by vm_compute. Qed.

(** EXAT and PXAT are added to the time, as EX and PX are: at 1000 s, a deadline
    of 1010 s is 2010 s. *)
Theorem hgetex_exat_is_relative :
  hash_replies (one_field;; execHGetEx (line ["h"; "EXAT"; "1010"; "FIELDS"; "1"; "f"]%string)) (execHPExpireTime (line ["h"; "FIELDS"; "1"; "f"]%string)) no_hashes
    = Ret (MultiBulkReply [Some (str "v")], MultiRawReply [IntReply 2010000]) ∧
  hash_replies (execHSetEx TS (line ["h"; "PXAT"; "1010000"; "FIELDS"; "1"; "f"; "v"]%string)) (execHPExpireTime (line ["h"; "FIELDS"; "1"; "f"]%string)) no_hashes
    = Ret (IntReply 1, MultiRawReply [IntReply 2010000]).
Proof. split; by vm_compute. Qed.

(** HGETEX changes a deadline and logs nothing. *)
Theorem hgetex_is_not_logged :
  (one_field;; _ ← execHGetEx (line ["h"; "EX"; "10"; "FIELDS"; "1"; "f"]%string); gets (λ db, length (aof db))) no_hashes ≫= (λ '(n, _), Ret n) = Ret 1%nat.
Proof. by vm_compute. Qed.

(** HSETEX with FXX on a missing key leaves an empty hash. *)
Theorem hsetex_fxx_creates_empty_hash :
  hash_replies (execHSetEx TS (line ["h"; "FXX"; "FIELDS"; "1"; "f"; "v"]%string)) (execExists (line ["h"]%string)) no_hashes = Ret (IntReply 0, IntReply 1).
Proof. by vm_compute. Qed.

(** A hash whose fields have all expired stays in the key space. *)
Theorem expired_fields_leave_empty_hash :
  hash_replies (one_field;; _ ← execHPExpireAt (line ["h"; "5"; "FIELDS"; "1"; "f"]%string); execHLen (line ["h"]%string)) (execExists (line ["h"]%string)) no_hashes
    = Ret (IntReply 0, IntReply 1).
Proof. by vm_compute. Qed.

(** HSETNX does not drop a field whose deadline has passed: it does not set the
    field, which the next read finds missing. *)
Theorem hsetnx_fails_on_expired_field :
  hash_replies (one_field;; _ ← execHPExpireAt (line ["h"; "5"; "FIELDS"; "1"; "f"]%string); execHSetNX TS (line ["h"; "f"; "w"]%string)) (execHGet (line ["h"; "f"]%string)) no_hashes
    = Ret (IntReply 0, NullBulkReply).
Proof. by vm_compute. Qed.

(** HSET on a field whose deadline has passed is lost at the next read. *)
Theorem hset_on_expired_field_is_lost :
  hash_replies (one_field;; _ ← execHPExpireAt (line ["h"; "5"; "FIELDS"; "1"; "f"]%string); execHSet TS (line ["h"; "f"; "w"]%string)) (execHGet (line ["h"; "f"]%string)) no_hashes
    = Ret (IntReply 0, NullBulkReply).
Proof. by vm_compute. Qed.

(** A number of fields that overflows the bound check is handed to [make]. *)
Theorem huge_field_count_panics :
  execHTTL (line ["h"; "FIELDS"; "9223372036854775807"; "f"]%string) no_hashes = Panic.
Proof. by vm_compute. Qed.
