(* ===== verification/Evict.v ===== *)
(** * Eviction and active expiry: [internal/command/evict.go], [expire_cycle.go]
    and [memory.go]

    Under a memory limit the server removes keys before a command that may need
    memory; ten times a second it removes keys and hash fields whose deadlines
    have passed.  Both work on samples that the dict draws at random
    ([ConcurrentDict.v] and [RedisDict.v] say what a sample is).

    Eviction removes keys that the policy allows until the estimated size fits
    the limit; the account that it keeps while it removes is exact.  Active
    expiry removes keys whose deadlines have passed and no others, and logs every
    one.  Runs at the end show where they do not do what they mean to. *)

From stdpp Require Import base gmap list strings.
From Stdlib Require Import ZArith Lia Ascii.
From S2P Require Import Prelude Dict SimpleDict ObjString ObjHash Resp Runtime GoTime TimeWheel KeySpace StringCmd KeyCmd Tx KeySpaceThm ObjCmd ListCmd SetCmd HashCmd.

Local Open Scope Z_scope.

(** ** Estimated sizes, [memory.go] *)

Definition perKeyOverhead : Z := 56.
Definition perElemOverhead : Z := 16.
Definition robjOverhead : Z := 16.

Definition len_of (v : value) : Z := match v with VBytes b => Z.of_nat (length b) | _ => 0 end.

(** The cases of [valueSize] for a list, a dict and a set; a slice of another
    type counts nothing. *)
Definition list_size (elems : list value) : Z := foldr (λ v n, len_of v + perElemOverhead + n) 0 elems.
Definition dict_size (entries : list (bytes * value)) : Z :=
  foldr (λ e n, Z.of_nat (length e.1) + perElemOverhead + len_of e.2 + n) 0 entries.
Definition set_size (members : list bytes) : Z := foldr (λ m n, Z.of_nat (length m) + perElemOverhead + n) 0 members.

(** A hash object is none of the types that [valueSize] knows, with or without a
    header; the dict that a loaded dump leaves is. *)
Definition hash_size {D} (v : hash_obj D) (entries : list (bytes * value)) : Z :=
  match v with
  | HashRobj _ _ => robjOverhead + perElemOverhead
  | PlainHash _ => perElemOverhead
  | PlainDict _ => dict_size entries
  end.

(** The limit, the number of samples, the draws of [RandomDistinctKeys] by
    number, and the sizes of the objects of the other types. *)
Class EvictEnv (O : Type) := {
  Maxmemory : Z;
  MaxmemorySamples : Z;
  sampled : nat → gset bytes → Z → list bytes;
  obj_size : O → Z
}.

Section evict.
Context {O : Type} `{!Objects O} {env : Env} {rt : Runtime} {srv : Server O} {ev : EvictEnv O}.
Local Abbreviation M := (M O).

Definition valueSize (m : mem) (e : entity O) : Z :=
  match e with
  | EInt _ => robjOverhead + 8
  | EStr _ b => robjOverhead + (Z.of_nat (length (arg_str m b)) + 8)
  | EBytes b => Z.of_nat (length (arg_str m b)) + 8
  | EObj o => obj_size o
  end.

Definition estimateEntitySize (m : mem) (key : bytes) (e : option (entity O)) : Z :=
  let size := perKeyOverhead + Z.of_nat (length key) in
  match e with None => size | Some e => size + valueSize m e end.

(** ** The server *)

Record Databases := MkServer { dbSet : list (DB O); peakMemory : Z }.

(** The sum over one database; the order of the traversal does not matter. *)
Definition db_size (db : DB O) : Z := map_fold (λ k e n, estimateEntitySize (memory db) k (Some e) + n) 0 (data db).

Definition total_size (dbs : list (DB O)) : Z := foldr (λ db n, db_size db + n) 0 dbs.

Definition usedMemory (s : Databases) : Z * Databases :=
  let total := wrap64 (total_size (dbSet s)) in
  (total, MkServer (dbSet s) (if peakMemory s <? total then total else peakMemory s)).

(** ** Choosing a key *)

(** [RandomDistinctKeys] of the dict with these keys. *)
Definition RandomDistinctKeys (keys : DB O → gset bytes) (limit : Z) : M (list bytes) := λ db,
  Ret (sampled (draws db) (keys db) limit, set_draws db (S (draws db))).

Definition policy_is (suffix : string) : bool :=
  bytes_eqb (drop (length MaxmemoryPolicy - length (str suffix)) MaxmemoryPolicy) (str suffix).
Definition volatile : bool := bytes_eqb (take 9 MaxmemoryPolicy) (str "volatile-").

(** The loops of [evictionCandidates]; the empty string stands for none. *)
Fixpoint best_ttl (sample : list bytes) (best : bytes) (bestAt : Z) (db : DB O) : bytes :=
  match sample with
  | [] => best
  | k :: sample =>
      match ttlMap db !! k with
      | None => best_ttl sample best bestAt db
      | Some t => if bytes_eqb best [] || (t <? bestAt) then best_ttl sample k t db else best_ttl sample best bestAt db
      end
  end.

Fixpoint best_lfu (sample : list bytes) (best : bytes) (bestCounter : Z) : M bytes :=
  match sample with
  | [] => mret best
  | k :: sample =>
      c ← keyLFUCounter k;
      if bytes_eqb best [] || (c <? bestCounter) then best_lfu sample k c else best_lfu sample best bestCounter
  end.

Fixpoint best_lru (now : Z) (sample : list bytes) (best : bytes) (bestIdle : Z) (db : DB O) : bytes :=
  match sample with
  | [] => best
  | k :: sample =>
      let idle := keyIdle now k db in
      if bytes_eqb best [] || (bestIdle <? idle) then best_lru now sample k idle db else best_lru now sample best bestIdle db
  end.

Definition evictionCandidates (sample : list bytes) : M bytes :=
  match sample with
  | [] => mret []
  | first :: _ =>
      if policy_is "-random" then mret first
      else if policy_is "-ttl" then
        best ← gets (best_ttl sample [] 0);
        mret (if bytes_eqb best [] then first else best)
      else if policy_is "-lfu" then best_lfu sample [] 255
      else now ← lruClock; gets (best_lru now sample [] 0)
  end.

(** ** Removing it *)

Definition toExpireDelAof (key : bytes) : list arg := [ALit (str "DEL"); ALit key].

(** The keys that may be evicted. *)
Definition evictable (db : DB O) : gset bytes := if volatile then dom (ttlMap db) else dom (data db).

(** One turn of the loop over the databases: the bytes freed, or nothing. *)
Definition evict_db : M (option Z) :=
  let samples := if MaxmemorySamples <=? 0 then 5 else MaxmemorySamples in
  src ← gets evictable;
  if (size src =? 0)%nat then mret None else
  sample ← RandomDistinctKeys evictable samples;
  if (length sample =? 0)%nat then mret None else
  best ← evictionCandidates sample;
  if bytes_eqb best [] then mret None else
  raw ← gets (λ db, data db !! best);
  m ← gets memory;
  let freed := match raw with Some e => estimateEntitySize m best (Some e) | None => 0 end in
  Remove best;;
  addAof (toExpireDelAof best);;
  notifyKeyspaceEvent notifyEvicted (str "evicted") best;;
  mret (Some freed).

Fixpoint evictOneKeyWithSize (dbs : list (DB O)) : res (list (DB O) * option Z) :=
  match dbs with
  | [] => Ret ([], None)
  | db :: dbs =>
      '(freed, db) ← evict_db db;
      match freed with
      | Some n => Ret (db :: dbs, Some n)
      | None => '(dbs, o) ← evictOneKeyWithSize dbs; Ret (db :: dbs, o)
      end
  end.

Definition maxEvictLoops : nat := Z.to_nat 100000.

Fixpoint evict_loop (loops : nat) (currentMemory : Z) (dbs : list (DB O)) : res (list (DB O) * bool) :=
  match loops with
  | 0%nat => Ret (dbs, currentMemory <=? Maxmemory)
  | S loops =>
      if currentMemory <=? Maxmemory then Ret (dbs, true)
      else
        '(dbs, freed) ← evictOneKeyWithSize dbs;
        match freed with
        | None => Ret (dbs, false)
        | Some n => evict_loop loops (wrap64 (currentMemory - n)) dbs
        end
  end.

Definition freeMemoryIfNeeded (s : Databases) : res (bool * Databases) :=
  if Maxmemory <=? 0 then Ret (true, s)
  else
    let '(used, s) := usedMemory s in
    if bytes_eqb MaxmemoryPolicy (str "noeviction") || bytes_eqb MaxmemoryPolicy [] then Ret (used <=? Maxmemory, s)
    else if used <=? Maxmemory then Ret (true, s)
    else '(dbs, ok) ← evict_loop maxEvictLoops used (dbSet s); Ret (ok, MkServer dbs (peakMemory s)).

(** ** Active expiry, [expire_cycle.go] *)

Definition activeExpireKeysPerLoop : Z := 20.
Definition activeExpireAcceptableStale : Z := 25.

(** The deadline is read again under the lock of the key. *)
Definition expireIfNeeded (key : bytes) : M bool :=
  rawTTL ← gets (λ db, ttlMap db !! key);
  match rawTTL with
  | None => mret false
  | Some expireTime =>
      now ← Now;
      if negb (time_After now expireTime) then mret false else
      rawTTL ← gets (λ db, ttlMap db !! key);
      match rawTTL with
      | None => mret false
      | Some expireTime =>
          now ← Now;
          if negb (time_After now expireTime) then mret false else
          Remove key;;
          addAof (toExpireDelAof key);;
          notifyKeyspaceEvent notifyExpired (str "expired") key;;
          mret true
      end
  end.

Fixpoint expire_sample (sample : list bytes) : M Z :=
  match sample with
  | [] => mret 0
  | key :: sample =>
      expired ← expireIfNeeded key;
      n ← expire_sample sample;
      mret ((if expired : bool then 1 else 0) + n)
  end.

Fixpoint expire_loops (sampleSize : Z) (loops : nat) (total : Z) : M Z :=
  match loops with
  | 0%nat => mret total
  | S loops =>
      ttlCount ← gets (λ db, size (ttlMap db));
      if (ttlCount =? 0)%nat then mret total else
      sample ← RandomDistinctKeys (λ db, dom (ttlMap db)) sampleSize;
      if (length sample =? 0)%nat then mret total else
      expired ← expire_sample sample;
      if (expired * 100) `quot` Z.of_nat (length sample) <=? activeExpireAcceptableStale then mret (total + expired)
      else expire_loops sampleSize loops (total + expired)
  end.

Definition activeExpireCycle (sampleSize maxLoops : Z) : M Z :=
  let sampleSize := if sampleSize <=? 0 then activeExpireKeysPerLoop else sampleSize in
  let maxLoops := if maxLoops <=? 0 then 16 else maxLoops in
  expire_loops sampleSize (Z.to_nat maxLoops) 0.
End evict.

(** ** Hash fields *)

Section fields.
Context {O D : Type} `{!DictOps D value} `{!Objects O} `{!ObjOf O (hash_obj D)} {env : Env} {rt : Runtime} {choices : Choices D}.
Context {srv : Server O} {ev : EvictEnv O}.
Local Abbreviation M := (M O).

(** A dict has no deadlines; a value of another type is left. *)
Definition purgeHashFieldExpire (key : bytes) : M Z :=
  e ← getEntityNoTouch key;
  match e with
  | Some (EObj o) =>
      match prj_obj (T := hash_obj D) o with
      | Some (PlainDict _) | None => mret 0
      | Some v =>
          let hh := open_hash v in
          if negb (HasFieldExpiries (the_hash hh)) then mret 0 else
          nowMs ← now_ms;
          ord ← choose (λ n, int_order n (default ∅ (fieldExpire (the_hash hh))));
          '(h, purged) ← lift (PurgeExpiredFields (the_hash hh) nowMs ord);
          store_hash key (home hh) h;;
          forM_ purged (λ _, notifyKeyspaceEvent notifyHash (str "hexpired") key);;
          n ← lift (ObjHash.Len h);
          when (n =? 0) (Remove key);;
          mret (Z.of_nat (length purged))
      end
  | _ => mret 0
  end.

Definition activeHashFieldExpireCycle : M unit :=
  keys ← RandomDistinctKeys (λ db, dom (data db)) activeExpireKeysPerLoop;
  forM_ keys (λ key, _ ← purgeHashFieldExpire key; mret tt).

(** One pass over every database.  The cron recovers from a panic, which is a
    panic here. *)
Fixpoint activeExpireAllDBs (enabled : bool) (dbs : list (DB O)) : res (list (DB O)) :=
  match dbs with
  | [] => Ret []
  | db :: dbs =>
      if negb enabled then Ret (db :: dbs) else
      '(_, db) ← activeExpireCycle activeExpireKeysPerLoop 16 db;
      '(_, db) ← activeHashFieldExpireCycle db;
      dbs ← activeExpireAllDBs enabled dbs;
      Ret (db :: dbs)
  end.
End fields.

(** * What eviction and active expiry guarantee *)

(** What a sample is: distinct keys, as many as asked for or all, which is what
    the dicts give. *)
Class SampleLaws (O : Type) {ev : EvictEnv O} := {
  sampled_nodup n keys limit : NoDup (sampled n keys limit);
  sampled_keys n keys limit k : k ∈ sampled n keys limit → k ∈ keys;
  sampled_length n keys limit : 0 < limit → Z.of_nat (length (sampled n keys limit)) = Z.min limit (Z.of_nat (size keys))
}.

Section thm.
Context {O : Type} `{!Objects O} {env : Env} {rt : Runtime} {srv : Server O} {ev : EvictEnv O} `{!SampleLaws O}.
Implicit Types (db : DB O) (dbs : list (DB O)).

(** ** Removed keys *)

Definition without {A} (R : list bytes) (m : gmap bytes A) (m' : gmap bytes A) : Prop :=
  ∀ k, m' !! k = if decide (k ∈ R) then None else m !! k.

(** The keys [R] have been removed, in this order, and each was logged. *)
Record reaped (R : list bytes) db db' : Prop := {
  rp_data : without R (data db) (data db');
  rp_ttl : without R (ttlMap db) (ttlMap db');
  rp_lru : without R (lruMap db) (lruMap db');
  rp_version : versionMap db' = versionMap db;
  rp_memory : memory db' = memory db;
  rp_aof : aof db' = aof db ++ (toExpireDelAof <$> R);
  rp_reads : (reads db <= reads db')%nat
}.

Lemma without_nil {A} (m : gmap bytes A) : without [] m m.
Proof. intros k. by rewrite decide_False by apply not_elem_of_nil. Qed.

Lemma without_app {A} (R1 R2 : list bytes) (m1 m2 m3 : gmap bytes A) : without R1 m1 m2 → without R2 m2 m3 → without (R1 ++ R2) m1 m3.
Proof. intros H1 H2 k. rewrite (H2 k), (H1 k). repeat case_decide; set_solver. Qed.

Lemma without_one {A} (k : bytes) (m : gmap bytes A) : without [k] m (delete k m).
Proof.
  intros x. case_decide as H.
  - apply list_elem_of_singleton in H as ->. apply lookup_delete_eq.
  - apply lookup_delete_ne. set_solver.
Qed.

Lemma reaped_trans (R1 R2 : list bytes) db1 db2 db3 : reaped R1 db1 db2 → reaped R2 db2 db3 → reaped (R1 ++ R2) db1 db3.
Proof.
  intros [] []. split; try congruence.
  1-3: by eapply without_app.
  - rewrite rp_aof1, rp_aof0, fmap_app. by rewrite app_assoc.
  - lia.
Qed.

Lemma reaped_reads db n : (reads db <= n)%nat → reaped [] db (set_reads db n).
Proof. intros Hn. split; try done; [apply without_nil..|]. symmetry. apply app_nil_r. Qed.
Lemma reaped_draws db n : reaped [] db (set_draws db n).
Proof. split; try done; [apply without_nil..|]. symmetry. apply app_nil_r. Qed.

Lemma notify_run c e k db : ∃ db', notifyKeyspaceEvent c e k db = Ret (tt, db') ∧ reaped [] db db' ∧ reads db' = reads db.
Proof.
  assert (H : ∀ l, reaped [] db (set_events db l)).
  { intros l. split; try done; [apply without_nil..|]. symmetry. apply app_nil_r. }
  assert (H0 : reaped [] db db) by (split; try done; [apply without_nil..|]; symmetry; apply app_nil_r).
  unfold notifyKeyspaceEvent. case_match; [by exists db|].
  rewrite run_gets, run_when. unfold when. case_match; rewrite ?run_emit; case_match; unfold emit, modify, mret, M_ret;
    eexists; (split; [reflexivity|]); (split; [|done]); first [apply H|apply H0].
Qed.

(** Removing, logging and announcing one key. *)
Lemma reap_one {A} c e k (a : A) db :
  ∃ db', (Remove k;; addAof (toExpireDelAof k);; notifyKeyspaceEvent c e k;; mret a) db = Ret (a, db') ∧ reaped [k] db db' ∧ reads db' = reads db.
Proof.
  set (db1 := set_aof (set_events (set_wheel (set_lru (set_ttl (set_data db (delete k (data db))) (delete k (ttlMap db))) (delete k (lruMap db)))
                 (RemoveJob (wheel db) (genExpireTask k))) (events db ++ [Deleted k (data db !! k)])) (aof db ++ [toExpireDelAof k])).
  assert (H1 : reaped [k] db db1) by (split; try done; apply without_one).
  destruct (notify_run c e k db1) as (db2 & E2 & H2 & Hr). exists db2.
  assert (E : ∀ m : M O A, (Remove k;; addAof (toExpireDelAof k);; m) db = m db1) by reflexivity.
  rewrite E, (run_step _ _ _ _ _ E2), run_mret. split; [done|]. split; [|by rewrite Hr].
  apply (reaped_trans [k] [] db db1 db2 H1 H2).
Qed.

(** ** The candidate *)

Definition lfu_now (t : Z) : Z := Z.land (u32 (Z.quot (time_Unix t) 60)) 0xffff.
Definition lfu_at (t : Z) db k : Z :=
  match lruMap db !! k with None => 0 | Some m => decayed (lfuCounter m) (lfuMinutesDiff (lfu_now t) (lfuMinutes m)) end.
Definition lru_now (t : Z) : Z := Z.land (u32 (Z.quot (time_UnixMilli t) lruClockRes)) lruClockMax.

(** The choice is the best of the sample. *)
Definition best_choice (t : Z) db (sample : list bytes) (best : bytes) : Prop :=
  if policy_is "-random" then True
  else if policy_is "-ttl" then ∀ k d, k ∈ sample → ttlMap db !! k = Some d → ∃ d', ttlMap db !! best = Some d' ∧ d' <= d
  else if policy_is "-lfu" then ∀ k, k ∈ sample → lfu_at t db best <= lfu_at t db k
  else ∀ k, k ∈ sample → keyIdle (lru_now t) k db <= keyIdle (lru_now t) best db.

Lemma best_ttl_spec db sample best d :
  [] ∉ sample → best ≠ [] → ttlMap db !! best = Some d →
  ∃ d', ttlMap db !! best_ttl sample best d db = Some d' ∧ d' <= d ∧ best_ttl sample best d db ∈ best :: sample ∧
    ∀ k e, k ∈ sample → ttlMap db !! k = Some e → d' <= e.
Proof.
  revert best d. induction sample as [|k sample IH]; intros best d Hne Hb Hd; cbn [best_ttl].
  { exists d. split_and!; [done|lia|by left|]. intros k e Hk. by apply elem_of_nil in Hk. }
  assert (Hk : k ≠ [] ∧ [] ∉ sample) by set_solver. destruct Hk as [Hk Hs].
  rewrite (proj2 (bytes_eqb_ne best []) Hb). cbn [orb]. destruct (ttlMap db !! k) as [e|] eqn:Ek.
  - destruct (Z.ltb_spec e d) as [Hlt|Hge].
    + destruct (IH k e Hs Hk Ek) as (d' & E & Hle & Hin & Hall). exists d'. split_and!; [done|lia|set_solver|].
      intros x ex [->|Hx]%elem_of_cons Ex; [congruence|by eapply Hall].
    + destruct (IH best d Hs Hb Hd) as (d' & E & Hle & Hin & Hall). exists d'. split_and!; [done|lia|set_solver|].
      intros x ex [->|Hx]%elem_of_cons Ex; [rewrite Ek in Ex; injection Ex as <-; lia|by eapply Hall].
  - destruct (IH best d Hs Hb Hd) as (d' & E & Hle & Hin & Hall). exists d'. split_and!; [done|lia|set_solver|].
    intros x ex [->|Hx]%elem_of_cons Ex; [congruence|by eapply Hall].
Qed.

Lemma best_ttl_none db sample :
  [] ∉ sample → best_ttl sample [] 0 db = [] ∧ (∀ k, k ∈ sample → ttlMap db !! k = None) ∨
  ∃ d', ttlMap db !! best_ttl sample [] 0 db = Some d' ∧ best_ttl sample [] 0 db ∈ sample ∧
    ∀ k e, k ∈ sample → ttlMap db !! k = Some e → d' <= e.
Proof.
  induction sample as [|k sample IH]; intros Hne; cbn [best_ttl]; [left; split; [done|]; intros k Hk; by apply elem_of_nil in Hk|].
  assert (Hk : k ≠ [] ∧ [] ∉ sample) by set_solver. destruct Hk as [Hk Hs].
  destruct (ttlMap db !! k) as [e|] eqn:Ek; cbn [orb bytes_eqb bool_decide].
  - right. rewrite (proj2 (bytes_eqb_eq [] []) eq_refl). cbn [orb].
    destruct (best_ttl_spec db sample k e Hs Hk Ek) as (d' & E & Hle & Hin & Hall). exists d'. split_and!; [done|done|].
    intros x ex [->|Hx]%elem_of_cons Ex; [congruence|by eapply Hall].
  - destruct (IH Hs) as [[-> Hn]|(d' & E & Hin & Hall)].
    + left. split; [done|]. intros x [->|Hx]%elem_of_cons; [done|by apply Hn].
    + right. exists d'. split_and!; [done|by right|]. intros x ex [->|Hx]%elem_of_cons Ex; [congruence|by eapply Hall].
Qed.

Lemma best_lru_spec db now sample best :
  [] ∉ sample → best ≠ [] →
  let r := best_lru now sample best (keyIdle now best db) db in
  r ∈ best :: sample ∧ ∀ k, k ∈ best :: sample → keyIdle now k db <= keyIdle now r db.
Proof.
  revert best. induction sample as [|k sample IH]; intros best Hne Hb; cbn [best_lru].
  { split; [by left|]. intros k [->|Hk%elem_of_nil]%elem_of_cons; [lia|done]. }
  assert (Hk : k ≠ [] ∧ [] ∉ sample) by set_solver. destruct Hk as [Hk Hs].
  rewrite (proj2 (bytes_eqb_ne best []) Hb). cbn [orb]. destruct (Z.ltb_spec (keyIdle now best db) (keyIdle now k db)) as [Hlt|Hge].
  - destruct (IH k Hs Hk) as [Hin Hall]. split; [set_solver|]. intros x [->|Hx]%elem_of_cons; [|by apply Hall].
    specialize (Hall k ltac:(by left)). lia.
  - destruct (IH best Hs Hb) as [Hin Hall]. split; [set_solver|]. intros x [->|[->|Hx]%elem_of_cons]%elem_of_cons; [apply Hall; by left| |apply Hall; by right].
    specialize (Hall best ltac:(by left)). lia.
Qed.

Lemma best_lru_reads db n now sample best i : best_lru now sample best i (set_reads db n) = best_lru now sample best i db.
Proof.
  revert best i. induction sample as [|k sample IH]; intros best i; [done|]. cbn [best_lru].
  change (keyIdle now k (set_reads db n)) with (keyIdle now k db). by rewrite !IH.
Qed.

Lemma keyLFUCounter_run t k db : (∀ n, clock n = t) → ∃ n, (reads db <= n)%nat ∧ keyLFUCounter k db = Ret (lfu_at t db k, set_reads db n).
Proof.
  intros Hclk. unfold keyLFUCounter, lfu_at, lfuDecay, lfuNowMinutes. rewrite run_gets. destruct (lruMap db !! k) as [m|].
  - exists (S (reads db)). split; [lia|]. rewrite run_assoc, run_Now, run_ret, Hclk. done.
  - exists (reads db). split; [lia|]. by destruct db.
Qed.

Lemma best_lfu_spec t db sample best c :
  (∀ n, clock n = t) → [] ∉ sample → best ≠ [] → c = lfu_at t db best →
  ∃ r n, (reads db <= n)%nat ∧ best_lfu sample best c db = Ret (r, set_reads db n) ∧ r ∈ best :: sample ∧
    ∀ k, k ∈ best :: sample → lfu_at t db r <= lfu_at t db k.
Proof.
  intros Hclk. revert best c db. induction sample as [|k sample IH]; intros best c db Hne Hb Hc; cbn [best_lfu].
  { exists best, (reads db). split_and!; [done|by destruct db|by left|]. intros k [->|Hk%elem_of_nil]%elem_of_cons; [lia|done]. }
  assert (Hk : k ≠ [] ∧ [] ∉ sample) by set_solver. destruct Hk as [Hk Hs].
  destruct (keyLFUCounter_run t k db Hclk) as (n & Hn & E). rewrite (run_step _ _ _ _ _ E). clear E.
  rewrite (proj2 (bytes_eqb_ne best []) Hb). cbn [orb]. destruct (Z.ltb_spec (lfu_at t db k) c) as [Hlt|Hge].
  - destruct (IH k (lfu_at t db k) (set_reads db n) Hs Hk eq_refl) as (r & n' & Hn' & E & Hin & Hall).
    change (lfu_at t (set_reads db n)) with (lfu_at t db) in *. exists r, n'. split_and!; [simpl in *; lia|by rewrite E|set_solver|].
    intros x [->|Hx]%elem_of_cons; [|by apply Hall]. specialize (Hall k ltac:(by left)). lia.
  - destruct (IH best c (set_reads db n) Hs Hb Hc) as (r & n' & Hn' & E & Hin & Hall).
    change (lfu_at t (set_reads db n)) with (lfu_at t db) in *. exists r, n'. split_and!; [simpl in *; lia|by rewrite E|set_solver|].
    intros x [->|[->|Hx]%elem_of_cons]%elem_of_cons; [apply Hall; by left| |apply Hall; by right]. specialize (Hall best ltac:(by left)). lia.
Qed.

(** While the clock stands still the candidate of a sample without the empty key
    is the best by the policy: the longest idle, the least used, or the first to
    expire. *)
Theorem eviction_picks_best t sample db :
  (∀ n, clock n = t) → sample ≠ [] → [] ∉ sample →
  ∃ best n, (reads db <= n)%nat ∧ evictionCandidates sample db = Ret (best, set_reads db n) ∧ best ∈ sample ∧ best_choice t db sample best.
Proof.
  intros Hclk Hs Hne. destruct sample as [|k sample]; [done|]. unfold evictionCandidates, best_choice.
  assert (Hk : k ≠ [] ∧ [] ∉ sample) by set_solver. destruct Hk as [Hk Hs'].
  assert (Hsame : set_reads db (reads db) = db) by (by destruct db).
  destruct (policy_is "-random"); [exists k, (reads db); rewrite Hsame; split_and!; [done|done|by left|done]|].
  destruct (policy_is "-ttl").
  { rewrite run_gets, run_mret. destruct (best_ttl_none db (k :: sample) Hne) as [[-> Hn]|(d' & E & Hin & Hall)].
    - exists k, (reads db). rewrite Hsame. split_and!; [done|by cbn|by left|]. intros x d Hx Hd. by rewrite (Hn x Hx) in Hd.
    - exists (best_ttl (k :: sample) [] 0 db), (reads db). rewrite Hsame. split_and!; [done| |done|].
      + rewrite (proj2 (bytes_eqb_ne _ [])); [done|]. intros E0. rewrite E0 in Hin. by apply Hne.
      + intros x d Hx Hd. exists d'. split; [done|]. by eapply Hall. }
  destruct (policy_is "-lfu").
  { cbn [best_lfu]. destruct (keyLFUCounter_run t k db Hclk) as (n & Hn & E). rewrite (run_step _ _ _ _ _ E).
    change (bytes_eqb [] []) with true. cbn [orb].
    destruct (best_lfu_spec t (set_reads db n) sample k (lfu_at t db k) Hclk Hs' Hk eq_refl) as (r & n' & Hn' & E' & Hin & Hall).
    exists r, n'. split_and!; [simpl in *; lia|by rewrite E'|done|]. intros x Hx. by apply Hall. }
  unfold lruClock. rewrite run_assoc, run_Now, run_ret, Hclk. fold (lru_now t). exists (best_lru (lru_now t) (k :: sample) [] 0 db), (S (reads db)).
  destruct (best_lru_spec db (lru_now t) sample k Hs' Hk) as [Hin Hall]. split_and!; [lia| |exact Hin|exact Hall].
  unfold gets. by rewrite best_lru_reads.
Qed.

(** ** Eviction of one key *)

Lemma keyLFUCounter_total k db : ∃ c n, (reads db <= n)%nat ∧ keyLFUCounter k db = Ret (c, set_reads db n).
Proof.
  unfold keyLFUCounter, lfuDecay, lfuNowMinutes. rewrite run_gets. destruct (lruMap db !! k) as [m|].
  - eexists _, (S (reads db)). split; [lia|]. by rewrite run_assoc, run_Now, run_ret.
  - eexists _, (reads db). split; [lia|]. by destruct db.
Qed.

Lemma best_lfu_total sample best c db : ∃ r n, (reads db <= n)%nat ∧ best_lfu sample best c db = Ret (r, set_reads db n) ∧ r ∈ best :: sample.
Proof.
  revert best c db. induction sample as [|k sample IH]; intros best c db; cbn [best_lfu].
  { exists best, (reads db). split_and!; [done|by destruct db|by left]. }
  destruct (keyLFUCounter_total k db) as (c' & n & Hn & E). rewrite (run_step _ _ _ _ _ E).
  case_match; [destruct (IH k c' (set_reads db n)) as (r & n' & Hn' & -> & Hin)|destruct (IH best c (set_reads db n)) as (r & n' & Hn' & -> & Hin)];
    (exists r, n'; split_and!; [simpl in *; lia|done|set_solver]).
Qed.

Lemma best_lru_in now sample best i db : best_lru now sample best i db ∈ best :: sample.
Proof.
  revert best i. induction sample as [|k sample IH]; intros best i; cbn [best_lru]; [by left|].
  case_match; [specialize (IH k (keyIdle now k db))|specialize (IH best i)]; set_solver.
Qed.
Lemma best_ttl_in sample best d db : best_ttl sample best d db ∈ best :: sample.
Proof.
  revert best d. induction sample as [|k sample IH]; intros best d; cbn [best_ttl]; [by left|].
  case_match; [case_match|]; match goal with |- best_ttl _ ?b ?e _ ∈ _ => specialize (IH b e) end; set_solver.
Qed.

Lemma candidate_total sample db :
  sample ≠ [] → ∃ best n, (reads db <= n)%nat ∧ evictionCandidates sample db = Ret (best, set_reads db n) ∧ best ∈ sample.
Proof.
  intros Hs. destruct sample as [|k sample]; [done|]. unfold evictionCandidates.
  assert (Hsame : set_reads db (reads db) = db) by (by destruct db).
  destruct (policy_is "-random"); [exists k, (reads db); rewrite Hsame; split_and!; [done|done|by left]|].
  destruct (policy_is "-ttl").
  { rewrite run_gets, run_mret. eexists _, (reads db). rewrite Hsame. split_and!; [done|done|].
    pose proof (best_ttl_in (k :: sample) [] 0 db) as Hin. case_match eqn:E; [by left|]. apply bytes_eqb_ne in E. set_solver. }
  destruct (policy_is "-lfu").
  { cbn [best_lfu]. destruct (keyLFUCounter_total k db) as (c & n & Hn & E). rewrite (run_step _ _ _ _ _ E).
    change (bytes_eqb [] []) with true. cbn [orb]. destruct (best_lfu_total sample k c (set_reads db n)) as (r & n' & Hn' & E' & Hin).
    exists r, n'. split_and!; [simpl in *; lia|by rewrite E'|done]. }
  unfold lruClock. rewrite run_assoc, run_Now, run_ret. eexists _, (S (reads db)). split_and!; [lia|unfold gets; by rewrite best_lru_reads|].
  cbn [best_lru]. change (bytes_eqb [] []) with true. cbn [orb]. apply best_lru_in.
Qed.

Definition size_at db k : Z := match data db !! k with Some e => estimateEntitySize (memory db) k (Some e) | None => 0 end.

Lemma db_size_reaped db db' k : reaped [k] db db' → db_size db' = db_size db - size_at db k.
Proof.
  intros H. unfold db_size, size_at. rewrite (rp_memory _ _ _ H).
  assert (E : data db' = delete k (data db)).
  { apply map_eq. intros x. rewrite (rp_data _ _ _ H x). symmetry. apply without_one. }
  rewrite E. destruct (data db !! k) as [e|] eqn:Ek; [|rewrite delete_id by done; lia].
  rewrite (map_fold_delete_L _ _ k e (data db)); [lia| |done]. intros. lia.
Qed.

Lemma db_size_quiet db db' : reaped [] db db' → db_size db' = db_size db.
Proof.
  intros H. unfold db_size. rewrite (rp_memory _ _ _ H). f_equal. apply map_eq. intros x. rewrite (rp_data _ _ _ H x).
  by rewrite decide_False by apply not_elem_of_nil.
Qed.

Lemma evictable_reaped R db db' : reaped R db db' → evictable db' = evictable db ∖ list_to_set R.
Proof.
  intros H. unfold evictable. destruct volatile; apply set_eq; intros k; rewrite elem_of_difference, elem_of_list_to_set, !elem_of_dom.
  - rewrite (rp_ttl _ _ _ H k). case_decide; [|naive_solver]. split; [by intros []|naive_solver].
  - rewrite (rp_data _ _ _ H k). case_decide; [|naive_solver]. split; [by intros []|naive_solver].
Qed.

Lemma evict_db_spec db :
  ∃ o db', evict_db db = Ret (o, db') ∧
    match o with
    | None => reaped [] db db' ∧ ([] ∉ evictable db → evictable db = ∅)
    | Some n => ∃ best, best ∈ evictable db ∧ reaped [best] db db' ∧ n = size_at db best
    end.
Proof.
  unfold evict_db. rewrite run_gets. set (samples := if MaxmemorySamples <=? 0 then 5 else MaxmemorySamples).
  assert (H0 : reaped [] db db) by (split; try done; [apply without_nil..|]; symmetry; apply app_nil_r).
  destruct (Nat.eqb_spec (size (evictable db)) 0) as [E0|E0].
  { exists None, db. split_and!; [done|done|]. intros _. by apply size_empty_inv, leibniz_equiv in E0. }
  pose proof (sampled_length (draws db) (evictable db) samples) as Hlen. pose proof (sampled_keys (draws db) (evictable db) samples) as Hkeys.
  change ((RandomDistinctKeys evictable samples ≫= ?k) db) with (k (sampled (draws db) (evictable db) samples) (set_draws db (S (draws db)))).
  set (sample := sampled (draws db) (evictable db) samples) in *. cbv beta.
  assert (Hs : sample ≠ []).
  { intros E. rewrite E in Hlen. simpl in Hlen. assert (0 < samples) by (unfold samples; case_match; lia). lia. }
  rewrite (proj2 (Nat.eqb_neq (length sample) 0)) by (by destruct sample).
  destruct (candidate_total sample (set_draws db (S (draws db))) Hs) as (best & n & Hn & E & Hin). rewrite (run_step _ _ _ _ _ E). simpl in Hn.
  set (db1 := set_reads (set_draws db (S (draws db))) n).
  assert (H1 : reaped [] db db1) by (split; try done; [apply without_nil..|symmetry; apply app_nil_r]).
  destruct (bytes_eqb best []) eqn:Eb.
  { apply bytes_eqb_eq in Eb as ->. exists None, db1. split_and!; [done|done|]. intros Hne. destruct Hne. by apply Hkeys. }
  rewrite !run_gets. destruct (reap_one notifyEvicted (str "evicted") best (Some (size_at db best)) db1) as (db2 & E2 & H2 & _).
  exists (Some (size_at db best)), db2. split; [exact E2|]. exists best. split_and!; [by apply Hkeys| |done].
  apply (reaped_trans [] [best] db db1 db2 H1 H2).
Qed.

(** ** Eviction over the databases *)

(** Keys have been removed that could be evicted, and each was logged. *)
Definition evicts db db' : Prop := ∃ R, reaped R db db' ∧ ∀ k, k ∈ R → k ∈ evictable db.

Lemma reaped_refl db : reaped [] db db.
Proof. split; try done; [apply without_nil..|]. symmetry. apply app_nil_r. Qed.

#[local] Instance evicts_preorder : PreOrder evicts.
Proof.
  split.
  - intros db. exists []. split; [apply reaped_refl|]. intros k Hk. by apply elem_of_nil in Hk.
  - intros db1 db2 db3 (R1 & H1 & E1) (R2 & H2 & E2). exists (R1 ++ R2). split; [by eapply reaped_trans|].
    intros k [Hk|Hk]%elem_of_app; [by apply E1|]. specialize (E2 k Hk). rewrite (evictable_reaped _ _ _ H1) in E2. set_solver.
Qed.

(** Sizes are not negative, so that the account does not wrap. *)
Context (Hsize : ∀ o, 0 <= obj_size o).

Lemma entity_size_nonneg m k e : 0 <= estimateEntitySize m k (Some e).
Proof. unfold estimateEntitySize, valueSize, perKeyOverhead, robjOverhead. destruct e; try specialize (Hsize o); lia. Qed.
Lemma size_at_nonneg db k : 0 <= size_at db k.
Proof. unfold size_at. case_match; [apply entity_size_nonneg|lia]. Qed.

(** A database in which eviction finds nothing: it has no key that may go, or
    the empty key, which is taken for no choice. *)
Definition spared db : Prop := [] ∉ evictable db → evictable db = ∅.

(** One key has been evicted: it may be, it is removed and logged, and it is in
    the first database that is not spared; nothing else has changed. *)
Inductive evict_one : list (DB O) → list (DB O) → Prop :=
  | evict_here pre pre' db db' best post :
      Forall2 (reaped []) pre pre' → Forall spared pre → best ∈ evictable db → reaped [best] db db' →
      evict_one (pre ++ db :: post) (pre' ++ db' :: post).

(** [n] keys have been evicted one after another, each while the size was above
    the limit. *)
Inductive evict_run : nat → list (DB O) → list (DB O) → Prop :=
  | evict_end dbs dbs' : Forall2 (reaped []) dbs dbs' → evict_run 0 dbs dbs'
  | evict_more n dbs dbs1 dbs' :
      Maxmemory < total_size dbs → evict_one dbs dbs1 → evict_run n dbs1 dbs' → evict_run (S n) dbs dbs'.

Lemma quiet_refl dbs : Forall2 (reaped []) dbs dbs.
Proof. induction dbs; constructor; [apply reaped_refl|done]. Qed.

Lemma quiet_size dbs dbs' : Forall2 (reaped []) dbs dbs' → total_size dbs' = total_size dbs.
Proof. induction 1 as [|x y l l' Hr _ IH]; [done|]. cbn [total_size foldr]. rewrite (db_size_quiet _ _ Hr). f_equal. exact IH. Qed.

Lemma quiet_evicts dbs dbs' : Forall2 (reaped []) dbs dbs' → Forall2 evicts dbs dbs'.
Proof. induction 1 as [|? ? ? ? Hr]; constructor; [|done]. exists []. split; [done|]. by intros ? ?%elem_of_nil. Qed.

Lemma evict_run_evicts n dbs dbs' : evict_run n dbs dbs' → Forall2 evicts dbs dbs'.
Proof.
  induction 1 as [dbs dbs' H|n dbs dbs1 dbs' _ H1 _ IH]; [by apply quiet_evicts|]. etransitivity; [|exact IH].
  destruct H1 as [pre pre' db db' best post Hq _ Hb Hr]. apply Forall2_app; [by apply quiet_evicts|]. constructor; [|reflexivity].
  exists [best]. split; [done|]. by intros k ->%list_elem_of_singleton.
Qed.

Lemma evictOne_spec dbs :
  ∃ dbs' o, evictOneKeyWithSize dbs = Ret (dbs', o) ∧
    match o with
    | None => total_size dbs' = total_size dbs ∧ Forall2 (reaped []) dbs dbs' ∧ Forall spared dbs'
    | Some n => 0 <= n ∧ total_size dbs' = total_size dbs - n ∧ evict_one dbs dbs'
    end.
Proof.
  induction dbs as [|db dbs IH]; cbn [evictOneKeyWithSize]; [exists [], None; by split_and!|].
  destruct (evict_db_spec db) as (o & db' & E & H). rewrite E. cbn [mbind res_bind]. destruct o as [n|].
  - destruct H as (best & Hb & Hr & ->). exists (db' :: dbs), (Some (size_at db best)). split; [done|]. split_and!.
    + apply size_at_nonneg.
    + cbn [total_size foldr]. rewrite (db_size_reaped _ _ _ Hr). fold (total_size dbs). lia.
    + by apply (evict_here [] [] db db' best dbs).
  - destruct H as [Hr Hnone]. destruct IH as (dbs' & o & -> & Ho). cbn [mbind res_bind]. exists (db' :: dbs'), o. split; [done|].
    assert (Hev : evictable db' = evictable db) by (rewrite (evictable_reaped _ _ _ Hr); set_solver).
    destruct o as [n|].
    + destruct Ho as (Hn & Ht & H1). cbn [total_size foldr]. rewrite (db_size_quiet _ _ Hr).
      fold (total_size dbs) (total_size dbs'). split_and!; [lia..|]. destruct H1 as [pre pre' x x' best post Hq Hs Hb Hx].
      apply (evict_here (db :: pre) (db' :: pre') x x' best post); [by constructor..|done|done].
    + destruct Ho as (Ht & Hq & Hs). cbn [total_size foldr]. rewrite (db_size_quiet _ _ Hr). fold (total_size dbs) (total_size dbs').
      split_and!; [lia|by constructor|]. constructor; [|done]. unfold spared. by rewrite Hev.
Qed.

Lemma db_size_nonneg db : 0 <= db_size db.
Proof.
  unfold db_size. apply (map_fold_weak_ind (λ r _, 0 <= r)); [lia|]. intros k e m r _ Hr.
  pose proof (entity_size_nonneg (memory db) k e). lia.
Qed.
Lemma total_size_nonneg dbs : 0 <= total_size dbs.
Proof. induction dbs as [|db dbs IH]; simpl; [lia|]. pose proof (db_size_nonneg db). lia. Qed.

(** The loop: [n] keys go, and it ends because the size fits, because there
    is nothing to evict, or because it has made all its turns. *)
Lemma evict_loop_spec loops dbs :
  total_size dbs <= max_i64 →
  ∃ dbs' ok n, evict_loop loops (total_size dbs) dbs = Ret (dbs', ok) ∧ evict_run n dbs dbs' ∧ (n <= loops)%nat ∧
    (ok = true ↔ total_size dbs' <= Maxmemory) ∧ (ok = false → Forall spared dbs' ∨ n = loops).
Proof.
  revert dbs. induction loops as [|loops IH]; intros dbs Hmax; cbn [evict_loop].
  { exists dbs, (total_size dbs <=? Maxmemory), 0%nat. split; [done|]. split; [apply evict_end, quiet_refl|].
    split; [done|]. split; [apply Z.leb_le|]. by right. }
  destruct (Z.leb_spec (total_size dbs) Maxmemory) as [Hle|Hgt].
  { exists dbs, true, 0%nat. split_and!; [done|apply evict_end, quiet_refl|lia|done|done]. }
  destruct (evictOne_spec dbs) as (dbs1 & o & -> & Ho). cbn [mbind res_bind]. destruct o as [f|].
  - destruct Ho as (Hn & Ht & H1). pose proof (total_size_nonneg dbs) as Hn0. pose proof (total_size_nonneg dbs1) as Hn1.
    rewrite wrap64_id by (unfold i64, min_i64, max_i64 in *; lia). rewrite <- Ht.
    destruct (IH dbs1) as (dbs2 & ok & n & E & Hrun & Hle & Hok & Hno); [lia|]. exists dbs2, ok, (S n). split; [done|].
    split; [by apply (evict_more n dbs dbs1 dbs2)|]. split; [lia|]. split; [done|]. intros Hf. destruct (Hno Hf) as [?|?]; [by left|right; lia].
  - destruct Ho as (Ht & Hq & Hs). exists dbs1, false, 0%nat. split; [done|]. split; [by apply evict_end|]. split; [lia|].
    split; [split; [done|lia]|]. by left.
Qed.

(** The server may evict: there is a limit and a policy other than noeviction. *)
Definition may_evict : Prop := 0 < Maxmemory ∧ MaxmemoryPolicy ∉ [str "noeviction"; []].

Lemma free_memory_spec s :
  total_size (dbSet s) <= max_i64 →
  ∃ ok s' n, freeMemoryIfNeeded s = Ret (ok, s') ∧ evict_run n (dbSet s) (dbSet s') ∧ (n <= maxEvictLoops)%nat ∧
    (¬ may_evict ∨ total_size (dbSet s) <= Maxmemory → dbSet s' = dbSet s) ∧
    (ok = true ↔ Maxmemory <= 0 ∨ total_size (dbSet s') <= Maxmemory) ∧
    (ok = false → may_evict → Forall spared (dbSet s') ∨ n = maxEvictLoops).
Proof.
  intros Hmax. unfold freeMemoryIfNeeded, may_evict. destruct (Z.leb_spec Maxmemory 0) as [H0|H0].
  { exists true, s, 0%nat. split_and!; [done|apply evict_end, quiet_refl|lia|done| |done]. split; [by left|done]. }
  pose proof (total_size_nonneg (dbSet s)) as Hn. unfold usedMemory. rewrite wrap64_id by (unfold i64, min_i64, max_i64 in *; lia).
  destruct (_ || _) eqn:Hp; cbv zeta beta iota.
  { eexists _, _, 0%nat. split; [reflexivity|]. cbn [dbSet]. split_and!; [apply evict_end, quiet_refl|apply Nat.le_0_l|done| |].
    - rewrite Z.leb_le. lia.
    - intros _ [_ Hpol]. destruct Hpol. apply orb_true_iff in Hp as [->%bytes_eqb_eq| ->%bytes_eqb_eq]; set_solver. }
  destruct (Z.leb_spec (total_size (dbSet s)) Maxmemory) as [Hle|Hgt].
  { eexists _, _, 0%nat. split; [reflexivity|]. cbn [dbSet]. split_and!; [apply evict_end, quiet_refl|apply Nat.le_0_l|done|naive_solver|done]. }
  destruct (evict_loop_spec maxEvictLoops (dbSet s) Hmax) as (dbs & ok & n & E & Hrun & Hle & Hok & Hno). cbn [dbSet]. rewrite E. cbn [mbind res_bind].
  eexists _, _, n. split; [reflexivity|]. cbn [dbSet]. split_and!; [done|done| | |by auto].
  - intros [Hm|Hm]; [|lia]. destruct Hm. split; [done|]. apply orb_false_iff in Hp as [H1%bytes_eqb_ne H2%bytes_eqb_ne].
    by rewrite !elem_of_cons, elem_of_nil; intros [?|[?|[]]].
  - rewrite Hok. lia.
Qed.

(** C17: before a command that may need memory, the server removes keys one
    after another, at most 100000, each while the estimated size of all
    databases is above the limit, each one that the policy allows, from the first
    database that has one, and logs it; nothing else changes.  With no limit,
    under noeviction or when the size fits nothing is removed.  It says that there
    is room exactly if there is no limit or the size is then within it; if it may
    evict and says that there is none, it has evicted 100000 keys or nothing is
    left to evict, which is for databases without the empty key. *)
Theorem eviction_meets_the_limit s :
  total_size (dbSet s) <= max_i64 →
  ∃ ok s' n, freeMemoryIfNeeded s = Ret (ok, s') ∧ evict_run n (dbSet s) (dbSet s') ∧ (n <= maxEvictLoops)%nat ∧
    (¬ may_evict ∨ total_size (dbSet s) <= Maxmemory → dbSet s' = dbSet s) ∧
    (ok = true ↔ Maxmemory <= 0 ∨ total_size (dbSet s') <= Maxmemory) ∧
    (ok = false → may_evict → Forall spared (dbSet s') ∨ n = maxEvictLoops).
Proof. apply free_memory_spec. Qed.

(** ** Active expiry *)

(** The deadline of a key had passed at a reading of the clock in between. *)
Definition passed db db' (k : bytes) : Prop :=
  ∃ d r, ttlMap db !! k = Some d ∧ (reads db <= r < reads db')%nat ∧ d < clock r.
(** It has passed for good. *)
Definition overdue db (k : bytes) : Prop := ∃ d, ttlMap db !! k = Some d ∧ ∀ r, (reads db <= r)%nat → d < clock r.

Lemma expireIfNeeded_spec key db :
  ∃ b db', expireIfNeeded key db = Ret (b, db') ∧
    if b : bool then reaped [key] db db' ∧ passed db db' key else reaped [] db db' ∧ ¬ overdue db key.
Proof.
  unfold expireIfNeeded. rewrite run_gets. destruct (ttlMap db !! key) as [d|] eqn:Ed.
  2:{ exists false, db. split_and!; [done|apply reaped_refl|]. intros (d & E & _). congruence. }
  rewrite run_Now. unfold time_After at 1. destruct (Z.ltb_spec d (clock (reads db))) as [Hlt|Hge]; cbn [negb].
  2:{ eexists false, _. split; [reflexivity|]. split; [apply reaped_reads; lia|]. intros (d' & E & Hall).
      rewrite Ed in E. injection E as <-. specialize (Hall (reads db)). lia. }
  rewrite run_gets. cbn [ttlMap set_reads]. rewrite Ed, run_Now. cbn [reads set_reads]. unfold time_After.
  destruct (Z.ltb_spec d (clock (S (reads db)))) as [Hlt'|Hge']; cbn [negb].
  2:{ eexists false, _. split; [reflexivity|]. split; [apply (reaped_reads db (S (S (reads db)))); lia|]. intros (d' & E & Hall).
      rewrite Ed in E. injection E as <-. specialize (Hall (S (reads db))). lia. }
  set (db1 := set_reads _ _). destruct (reap_one notifyExpired (str "expired") key true db1) as (db2 & E2 & H2 & Hr).
  exists true, db2. split; [exact E2|]. split.
  - apply (reaped_trans [] [key] db db1 db2); [|done]. apply (reaped_reads db (S (S (reads db)))). lia.
  - exists d, (reads db). split_and!; [done|done| |done]. rewrite Hr. simpl. lia.
Qed.

(** What other steps leave of a key that they do not remove. *)
Lemma passed_later R db1 db2 db3 k : reaped R db1 db2 → passed db2 db3 k → passed db1 db3 k ∧ k ∉ R.
Proof.
  intros H (d & r & E & Hr & Hd). pose proof (rp_reads _ _ _ H) as Hn. rewrite (rp_ttl _ _ _ H k) in E. case_decide; [done|].
  split; [|done]. exists d, r. split_and!; [done|lia|lia|done].
Qed.
Lemma passed_longer R db1 db2 db3 k : reaped R db2 db3 → passed db1 db2 k → passed db1 db3 k.
Proof. intros H (d & r & E & Hr & Hd). pose proof (rp_reads _ _ _ H). exists d, r. split_and!; [done|lia|lia|done]. Qed.
Lemma overdue_later R db db' k : reaped R db db' → k ∉ R → overdue db k → overdue db' k.
Proof.
  intros H Hk (d & E & Hall). exists d. rewrite (rp_ttl _ _ _ H k), decide_False by done. split; [done|].
  intros r Hr. apply Hall. pose proof (rp_reads _ _ _ H). lia.
Qed.

Lemma expire_sample_spec sample db :
  NoDup sample → ∃ R db', expire_sample sample db = Ret (Z.of_nat (length R), db') ∧ reaped R db db' ∧ NoDup R ∧
    (∀ k, k ∈ R → k ∈ sample ∧ passed db db' k) ∧ (Forall (overdue db) sample → R = sample).
Proof.
  revert db. induction sample as [|key sample IH]; intros db Hnd; cbn [expire_sample].
  { exists [], db. split_and!; [done|apply reaped_refl|constructor| |done]. intros k Hk. by apply elem_of_nil in Hk. }
  apply NoDup_cons in Hnd as [Hkey Hnd]. destruct (expireIfNeeded_spec key db) as (b & db1 & E1 & H1). rewrite (run_step _ _ _ _ _ E1).
  destruct (IH db1 Hnd) as (R & db2 & E2 & H2 & Hn2 & Hp2 & Hall). rewrite (run_step _ _ _ _ _ E2), run_mret. destruct b.
  - destruct H1 as [H1 Hp]. exists (key :: R), db2. split_and!.
    + do 2 f_equal. simpl. lia.
    + apply (reaped_trans [key] R db db1 db2 H1 H2).
    + constructor; [|done]. intros Hk. by apply Hkey, Hp2.
    + intros k [->|Hk]%elem_of_cons; [split; [by left|by eapply passed_longer]|]. destruct (Hp2 k Hk) as [Hin Hpk].
      split; [by right|]. by eapply passed_later.
    + intros [_ Hs]%Forall_cons. f_equal. apply Hall. rewrite Forall_forall in *. intros k Hk.
      eapply overdue_later; [exact H1| |by apply Hs]. intros ->%list_elem_of_singleton. done.
  - destruct H1 as [H1 Hno]. exists R, db2. split_and!; [done|apply (reaped_trans [] R db db1 db2 H1 H2)|done| |].
    + intros k Hk. destruct (Hp2 k Hk) as [Hin Hpk]. split; [by right|]. by eapply passed_later.
    + intros [Hk _]%Forall_cons. done.
Qed.

Lemma ttl_size_reaped R db db' :
  reaped R db db' → NoDup R → (∀ k, k ∈ R → is_Some (ttlMap db !! k)) → (size (ttlMap db') + length R = size (ttlMap db))%nat.
Proof.
  intros H Hnd Hin. rewrite <- !(size_dom (D := gset bytes)).
  assert (E : dom (ttlMap db') = dom (ttlMap db) ∖ list_to_set R).
  { apply set_eq. intros k. rewrite elem_of_difference, elem_of_list_to_set, !elem_of_dom, (rp_ttl _ _ _ H k).
    case_decide; [|naive_solver]. split; [by intros []|naive_solver]. }
  rewrite E, <- (size_list_to_set (C := gset bytes) R Hnd).
  rewrite size_difference; [|intros k Hk%elem_of_list_to_set; by apply elem_of_dom, Hin].
  assert (size (list_to_set R : gset bytes) <= size (dom (ttlMap db)))%nat; [|lia].
  apply subseteq_size. intros k Hk%elem_of_list_to_set. by apply elem_of_dom, Hin.
Qed.

Lemma expire_loops_spec sampleSize loops total db :
  0 < sampleSize →
  ∃ R db', expire_loops sampleSize loops total db = Ret (total + Z.of_nat (length R), db') ∧ reaped R db db' ∧ NoDup R ∧
    (∀ k, k ∈ R → passed db db' k) ∧
    ((∀ k, is_Some (ttlMap db !! k) → overdue db k) →
     Z.of_nat (length R) = Z.min (Z.of_nat (size (ttlMap db))) (sampleSize * Z.of_nat loops)).
Proof.
  intros Hss. revert total db. induction loops as [|loops IH]; intros total db; cbn [expire_loops].
  { exists [], db. rewrite Z.add_0_r. split_and!; [done|apply reaped_refl|constructor| |simpl; lia]. intros k Hk. by apply elem_of_nil in Hk. }
  rewrite run_gets. destruct (Nat.eqb_spec (size (ttlMap db)) 0) as [E0|E0].
  { exists [], db. rewrite Z.add_0_r. split_and!; [done|apply reaped_refl|constructor| |simpl; lia]. intros k Hk. by apply elem_of_nil in Hk. }
  pose proof (sampled_length (draws db) (dom (ttlMap db)) sampleSize Hss) as Hlen. rewrite size_dom in Hlen.
  pose proof (sampled_keys (draws db) (dom (ttlMap db)) sampleSize) as Hkeys. pose proof (sampled_nodup (draws db) (dom (ttlMap db)) sampleSize) as Hnd.
  change ((RandomDistinctKeys (λ db, dom (ttlMap db)) sampleSize ≫= ?k) db)
    with (k (sampled (draws db) (dom (ttlMap db)) sampleSize) (set_draws db (S (draws db)))).
  set (sample := sampled (draws db) (dom (ttlMap db)) sampleSize) in *. cbv beta.
  rewrite (proj2 (Nat.eqb_neq (length sample) 0)) by lia. set (db0 := set_draws db (S (draws db))).
  assert (H0 : reaped [] db db0) by apply reaped_draws.
  destruct (expire_sample_spec sample db0 Hnd) as (R & db1 & E1 & H1 & Hn1 & Hp1 & Hall). rewrite (run_step _ _ _ _ _ E1).
  pose proof (reaped_trans [] R db db0 db1 H0 H1) as H01. simpl in H01.
  assert (Hp1' : ∀ k, k ∈ R → passed db db1 k) by (intros k Hk; eapply (passed_later []); [exact H0|by apply Hp1]).
  assert (Hin : ∀ k, k ∈ R → is_Some (ttlMap db !! k)) by (intros k Hk; destruct (Hp1' k Hk) as (d & _ & ? & _); eauto).
  pose proof (ttl_size_reaped R db db1 H01 Hn1 Hin) as Hsz1.
  assert (Hfull : (∀ k, is_Some (ttlMap db !! k) → overdue db k) → R = sample).
  { intros Hod. apply Hall, Forall_forall. intros k Hk%Hkeys%elem_of_dom. destruct (Hod k Hk) as (d & Ed & Hd). by exists d. }
  destruct (Z.leb_spec ((Z.of_nat (length R) * 100) `quot` Z.of_nat (length sample)) activeExpireAcceptableStale) as [Hst|Hgo].
  - exists R, db1. split_and!; [done..|]. intros Hod. rewrite (Hfull Hod) in Hst.
    rewrite Z.mul_comm, Z.quot_mul in Hst by lia. unfold activeExpireAcceptableStale in Hst. lia.
  - destruct (IH (total + Z.of_nat (length R)) db1) as (R2 & db2 & E2 & H2 & Hn2 & Hp2 & Hall2). exists (R ++ R2), db2. split_and!.
    + rewrite E2, length_app. do 2 f_equal. lia.
    + by eapply reaped_trans.
    + apply NoDup_app. split_and!; [done| |done]. intros k Hk Hk2. by destruct (passed_later R db db1 db2 k H01 (Hp2 k Hk2)).
    + intros k [Hk|Hk]%elem_of_app; [eapply passed_longer; [exact H2|by apply Hp1']|]. by apply (passed_later R db db1 db2 k H01), Hp2.
    + intros Hod. rewrite length_app, Nat2Z.inj_add, Hall2.
      * rewrite (Hfull Hod) in *. nia.
      * intros k Hk. rewrite (rp_ttl _ _ _ H01 k) in Hk. case_decide; [by destruct Hk|]. eapply overdue_later; [exact H01|done|by apply Hod].
Qed.

(** C18: one pass of the active expiry removes only keys whose deadline had passed at
    a reading of the clock, each once, logs a DEL for each and counts them; when
    all deadlines have passed it removes all keys that have one, up to the number
    of samples times the number of loops. *)
Theorem active_expiry_reaps_overdue sampleSize maxLoops db :
  0 < sampleSize → 0 < maxLoops →
  ∃ R db', activeExpireCycle sampleSize maxLoops db = Ret (Z.of_nat (length R), db') ∧ reaped R db db' ∧ NoDup R ∧
    (∀ k, k ∈ R → passed db db' k) ∧
    ((∀ k, is_Some (ttlMap db !! k) → overdue db k) →
     Z.of_nat (length R) = Z.min (Z.of_nat (size (ttlMap db))) (sampleSize * maxLoops)).
Proof.
  intros Hs Hm. unfold activeExpireCycle. rewrite (proj2 (Z.leb_gt _ _) Hs), (proj2 (Z.leb_gt _ _) Hm).
  destruct (expire_loops_spec sampleSize (Z.to_nat maxLoops) 0 db Hs) as (R & db' & E & H). exists R, db'. split; [exact E|].
  by rewrite Z2Nat.id in H by lia.
Qed.
End thm.

(** ** The server of one database *)

(** What the commands of [Tx.v] ask the server for, when it has one database. *)
Definition free_one {O} `{!Objects O} {env : Env} {rt : Runtime} {srv : Server O} {ev : EvictEnv O} : M O bool := λ db,
  '(ok, s) ← freeMemoryIfNeeded (MkServer [db] 0);
  match dbSet s with [db'] => Ret (ok, db') | _ => Panic end.

Lemma free_one_returns {O} `{!Objects O} {env : Env} {rt : Runtime} {srv : Server O} {ev : EvictEnv O} `{!SampleLaws O} db :
  (∀ o, 0 <= obj_size o) → db_size db <= max_i64 → ∃ ok db', free_one db = Ret (ok, db') ∧ evicts db db'.
Proof.
  intros Hs Hmax. destruct (free_memory_spec Hs (MkServer [db] 0)) as (ok & s & n & E & Hf%evict_run_evicts & _); [simpl; lia|].
  cbn [dbSet] in Hf. apply Forall2_cons_inv_l in Hf as (db' & dbs & He & Hn & Hd). apply Forall2_nil_inv_l in Hn as ->.
  exists ok, db'. split; [|done]. unfold free_one. rewrite E. cbn [mbind res_bind]. by rewrite Hd.
Qed.

(** ** Runs *)

Section runs.
#[local] Instance run_objects : Objects ObjType := {| obj_type := λ t, t; obj_elems := λ _, [] |}.
#[local] Existing Instance ex_runtime.

(** A clock that stands still, and samples in the order of the keys. *)
Definition run_env (policy : string) (t : Z) : Env :=
  {| clock := λ _, t; draw := λ _ _, false; MaxmemoryPolicy := str policy; ParseIntError := λ _, str "ERR"; ValueDigest := λ b, b |}.
#[local] Instance run_server : Server ObjType :=
  {| limited := true; Tx.freeMemoryIfNeeded := mret true; NotifyKeyspaceEvents := []; cmdTable := λ _, None |}.
#[local] Instance run_evict : EvictEnv ObjType :=
  {| Maxmemory := 100; MaxmemorySamples := 5; sampled := λ _ keys limit, take (Z.to_nat limit) (elements keys); obj_size := λ _, 32 |}.
#[local] Instance run_samples : SampleLaws ObjType.
Proof.
  split; cbn [sampled run_evict].
  - intros n keys limit. apply (sublist_NoDup _ (elements keys)); [apply NoDup_elements|apply sublist_take].
  - intros n keys limit k Hk. apply elem_of_elements. apply elem_of_take in Hk as (i & Hi & _). by eapply list_elem_of_lookup_2.
  - intros n keys limit Hl. rewrite length_take. change (length (elements keys)) with (size keys). lia.
Qed.

Lemma run_sizes (o : ObjType) : 0 <= obj_size o.
Proof. cbn. lia. Qed.

(** Two keys of 81 bytes, the second used later. *)
Definition run_db (first second : string) : DB ObjType :=
  MkDB 0 {[str first := EInt 1; str second := EInt 2]} ∅ ∅ {[str first := 10; str second := 90]}
    (MkTimeWheel Second [[]; []; []; []] ∅ 0 4 0) [] [] [] 0 0.
Definition idle_key (key : string) (used : Z) : DB ObjType :=
  MkDB 0 {[str key := EInt 1]} ∅ ∅ {[str key := used]} (MkTimeWheel Second [[]; []; []; []] ∅ 0 4 0) [] [] [] 0 0.

Lemma eviction_meets_the_limit_witness :
  ∃ s' n, freeMemoryIfNeeded (env := run_env "allkeys-lru" (100 * Second)) (MkServer [run_db "a" "b"] 0) = Ret (true, s') ∧
    100 < total_size [run_db "a" "b"] ∧ total_size (dbSet s') <= 100 ∧
    evict_run (env := run_env "allkeys-lru" (100 * Second)) n [run_db "a" "b"] (dbSet s') ∧ n <> 0%nat.
Proof.
  destruct (eviction_meets_the_limit (env := run_env "allkeys-lru" (100 * Second)) run_sizes (MkServer [run_db "a" "b"] 0))
    as (ok & s' & n & E & Hrun & _ & _ & Hok & _).
  - vm_compute. discriminate.
  - assert (Hgt : 100 < total_size [run_db "a" "b"]) by (vm_compute; reflexivity).
    assert (Et : ok = true).
    { assert (fst <$> freeMemoryIfNeeded (env := run_env "allkeys-lru" (100 * Second)) (MkServer [run_db "a" "b"] 0) = Ret true)
        as Ht by (vm_compute; reflexivity). rewrite E in Ht. cbn in Ht. congruence. }
    subst ok. exists s', n. split; [exact E|]. split; [exact Hgt|].
    destruct (proj1 Hok eq_refl) as [H'|H']; [cbn in H'; lia|]. split; [exact H'|]. split; [exact Hrun|].
    intros ->. inversion Hrun as [? ? Hq|]; subst.
    rewrite (quiet_size _ _ Hq) in H'. apply Z.lt_nge in Hgt. exact (Hgt H').
Defined.

(** The longest idle key goes, and is logged. *)
Lemma oldest_key_is_evicted :
  ∃ db, freeMemoryIfNeeded (env := run_env "allkeys-lru" (100 * Second)) (MkServer [run_db "a" "b"] 0) = Ret (true, MkServer [db] 162) ∧
    dom (data db) = {[str "b"]} ∧ aof db = [toExpireDelAof (str "a")].
Proof. eexists. split; [vm_compute; reflexivity|]. split; [|reflexivity]. apply set_eq. intros k. vm_compute. naive_solver. Qed.

(** The empty key is taken for no choice: while it is the longest idle, nothing is
    evicted and commands are refused, although another key could go. *)
Lemma empty_key_stops_eviction :
  ∃ s, freeMemoryIfNeeded (env := run_env "allkeys-lru" (100 * Second)) (MkServer [run_db "" "b"] 0) = Ret (false, s) ∧
    total_size (dbSet s) = 161.
Proof. eexists. split; [vm_compute; reflexivity|reflexivity]. Qed.

(** The key of the first database goes although that of the second is idle for
    longer. *)
Lemma first_database_is_evicted :
  ∃ db, evictOneKeyWithSize (env := run_env "allkeys-lru" (100 * Second)) [idle_key "new" 99; idle_key "old" 1] = Ret ([db; idle_key "old" 1], Some 83) ∧
    data db = ∅.
Proof. eexists. split; [vm_compute; reflexivity|reflexivity]. Qed.

(** One key is overdue and one is not. *)
Definition expiring_db : DB ObjType :=
  MkDB 0 {[str "a" := EInt 1; str "b" := EInt 2]} {[str "a" := 5 * Second; str "b" := 200 * Second]} ∅ ∅
    (MkTimeWheel Second [[]; []; []; []] ∅ 0 4 0) [] [] [] 0 0.

Lemma active_expiry_reaps_overdue_witness :
  ∃ R db', activeExpireCycle (env := run_env "noeviction" (100 * Second)) 20 16 expiring_db = Ret (Z.of_nat (length R), db') ∧ NoDup R ∧
    str "b" ∉ R.
Proof.
  destruct (active_expiry_reaps_overdue (env := run_env "noeviction" (100 * Second)) 20 16 expiring_db) as (R & db' & E & _ & Hn & Hp & _).
  - lia.
  - lia.
  - exists R, db'. split; [exact E|]. split; [exact Hn|]. intros Hb. destruct (Hp _ Hb) as (d & r & Hd & _ & Hlt).
    vm_compute in Hd. injection Hd as <-. vm_compute in Hlt. discriminate Hlt.
Defined.
End runs.

(** The estimated size of a hash object is the same whatever fields it has. *)
Lemma hash_sizes_are_constant {D} enc (h : Hash_ D) fields :
  hash_size (HashRobj enc h) fields = 32 ∧ hash_size (PlainHash h) fields = 16.
Proof. done. Qed.
