(* ===== verification/ZSetCmd.v ===== *)
(** * Sorted-set commands: [internal/command/sortedset.go], with the undo log of
    sorted sets in [tx_utils.go]

    A key holds a sorted-set object behind a header or, after a dump was loaded,
    the object itself; both are changed in place.  The header repeats the
    encoding of the object and is brought up to date when a handler fetches the
    object. *)

From stdpp Require Import base gmap list strings.
From Stdlib Require Import ZArith Lia Ascii.
From S2P Require Import Prelude GoText Float64 Border SkipList SortedSet ObjString ObjZSet Strconv Resp Runtime GoTime TimeWheel KeySpace StringCmd KeyCmd Tx ObjCmd ListCmd SetCmd.

Local Open Scope Z_scope.

(** ** Data *)

(** What a header of type zset points to, and what a key holds. *)
Inductive zset_ptr := PZSet (z : ZSet) | PSorted (ss : SortedSet).
Inductive zset_obj := ZRobj (enc : Encoding) (p : zset_ptr) | PlainZSet (z : ZSet).

(** The choices of the runtime, by the number of the choice: the random numbers
    of new skiplist nodes and the order in which the map of a sorted set is
    traversed; the pattern compiler and the printer with ten decimals. *)
Class ZChoices := {
  node_rnds : nat → nat → Z;
  zmap_order : nat → SortedSet → list bytes;
  zcompile : bytes → option (bytes → bool);
  FormatFloat10 : Z → bytes
}.

(** The object that a handler works with, and whether it is behind a header. *)
Record zset_handle := MkZHandle { z_set : ZSet; z_robj : bool }.

Section zset.
Context {O : Type} `{!Objects O} `{!ObjOf O zset_obj} {env : Env} {rt : Runtime} {zchoices : ZChoices}.
Context (Thresholds : EncodingThresholds).
Local Abbreviation M := (M O).

(** ** Access *)

(** The object has changed in place; the header keeps the encoding [enc]. *)
Definition store_z (key : bytes) (robj : bool) (enc : Encoding) (z : ZSet) : M unit :=
  store_obj key (if robj then ZRobj enc (PZSet z) else PlainZSet z).

(** What the value of a key gives a handler. *)
Definition open_zset (key : bytes) (v : zset_obj) : M (reply + zset_handle) :=
  match v with
  | ZRobj _ (PZSet z) => store_z key true (ObjZSet.CurrentEncoding z) z;; mret (inr (MkZHandle z true))
  | ZRobj _ (PSorted _) => mret (inl RWrongType)
  | PlainZSet z => mret (inr (MkZHandle z false))
  end.

Definition getAsZSet (key : bytes) : M (reply + option zset_handle) :=
  r ← get_obj key;
  match r with
  | inl e => mret (inl e)
  | inr None => mret (inr None)
  | inr (Some v) => h ← open_zset key v; mret match h with inl e => inl e | inr h => inr (Some h) end
  end.

Definition new_zset : zset_obj := ZRobj EncListpack (PZSet NewZSet).

Definition getOrInitZSet (key : bytes) : M (reply + zset_handle) :=
  r ← get_or_init new_zset key;
  match r with
  | inl e => mret (inl e)
  | inr v => open_zset key v
  end.

(** The object of the handle is [z] now; no operation that is not followed by
    [syncZSetEncodingAfterWrite] changes the encoding of an object. *)
Definition store_zset (key : bytes) (h : zset_handle) (z : ZSet) : M unit :=
  store_z key (z_robj h) (ObjZSet.CurrentEncoding (z_set h)) z.

Definition syncZSetEncodingAfterWrite (key : bytes) (z : ZSet) : M unit :=
  e ← GetEntity key;
  match e with
  | Some (EObj o) =>
      match prj_obj o with
      | Some (ZRobj _ p) => store_obj key (ZRobj (ObjZSet.CurrentEncoding z) p)
      | _ => mret tt
      end
  | _ => mret tt
  end.

(** The object of a key, with the reply for a missing one. *)
Definition with_zset (key : bytes) (missing : reply) (k : zset_handle → M reply) : M reply :=
  r ← getAsZSet key;
  match r with
  | inl e => mret e
  | inr None => mret missing
  | inr (Some h) => k h
  end.

Definition zset_len (z : ZSet) : M Z := lift (ObjZSet.Len z).
Definition zset_get (z : ZSet) (m : bytes) : M (option Z) := lift (ObjZSet.Get ParseFloat z m).
Definition zset_add (z : ZSet) (m : bytes) (s : Z) : M (ZSet * bool) :=
  rnds ← choose node_rnds; lift (ObjZSet.Add Thresholds FormatFloat ParseFloat z m s rnds).

(** ** Adding *)

Definition not_float : reply := RErr "ERR value is not a valid float".
Definition empty_array : reply := RConst EmptyMultiBulkReply.

(** The pairs of a score and a member. *)
Fixpoint parse_elements (l : list bytes) : option (list Element) :=
  match l with
  | scoreValue :: member :: l =>
      match ParseFloat scoreValue with
      | None => None
      | Some score => cons (MkElement member score) <$> parse_elements l
      end
  | _ => Some []
  end.

Fixpoint add_elements (es : list Element) (z : ZSet) (added : Z) : M (ZSet * Z) :=
  match es with
  | [] => mret (z, added)
  | e :: es =>
      '(z, new) ← zset_add z (Member e) (Score e);
      add_elements es z (if new : bool then added + 1 else added)
  end.

Definition execZAdd : ExecFunc O := λ args,
  if negb (Z.rem (Z.of_nat (length args)) 2 =? 1) then mret RSyntax else
  key ← str_at args 0;
  words ← arg_strs (drop 1 args);
  match parse_elements words with
  | None => mret not_float
  | Some elements =>
      r ← getOrInitZSet key;
      match r with
      | inl e => mret e
      | inr h =>
          '(z, added) ← add_elements elements (z_set h) 0;
          store_zset key h z;;
          syncZSetEncodingAfterWrite key z;;
          addAof (ToCmdLine3 "zadd" args);;
          mret (RInt added)
      end
  end.

Definition execZIncrBy : ExecFunc O := λ args,
  key ← str_at args 0;
  rawDelta ← str_at args 1;
  field ← str_at args 2;
  match ParseFloat rawDelta with
  | None => mret not_float
  | Some delta =>
      r ← getOrInitZSet key;
      match r with
      | inl e => mret e
      | inr h =>
          old ← zset_get (z_set h) field;
          let score := match old with Some s => fadd s delta | None => delta end in
          '(z, _) ← zset_add (z_set h) field score;
          store_zset key h z;;
          syncZSetEncodingAfterWrite key z;;
          addAof (ToCmdLine3 "zincrby" args);;
          match old with
          | None => a1 ← arg_at args 1; mret (RBulk a1)
          | Some _ => mret (RBulk (ALit (FormatFloat score)))
          end
      end
  end.

(** ** Reading *)

Definition execZScore : ExecFunc O := λ args,
  key ← str_at args 0;
  member ← str_at args 1;
  with_zset key RNull (λ h,
    score ← zset_get (z_set h) member;
    mret match score with Some s => RBulk (ALit (FormatFloat s)) | None => RNull end).

Definition rank_with (desc : bool) : ExecFunc O := λ args,
  key ← str_at args 0;
  member ← str_at args 1;
  with_zset key RNull (λ h,
    rank ← lift (ObjZSet.GetRank ParseFloat (z_set h) member desc);
    mret (if rank <? 0 then RNull else RInt rank)).
Definition execZRank : ExecFunc O := rank_with false.
Definition execZRevRank : ExecFunc O := rank_with true.

Definition execZCard : ExecFunc O := λ args,
  key ← str_at args 0;
  with_zset key (RInt 0) (λ h, n ← zset_len (z_set h); mret (RInt n)).

(** The array of members, with their scores after them. *)
Definition elem_args (withScores : bool) (e : Element) : list arg :=
  if withScores then [ALit (Member e); ALit (FormatFloat (Score e))] else [ALit (Member e)].
Definition elems_reply (withScores : bool) (es : list Element) : reply := RMultiBulk (es ≫= elem_args withScores).

(** A nil element is a nil pointer. *)
Definition range_by_rank (z : ZSet) (start stop : Z) (desc : bool) : M (list Element) :=
  slice ← lift (ObjZSet.RangeByRank ParseFloat z start stop desc);
  forM slice (λ o, lift (must o)).

Definition range0 (key : bytes) (start stop : Z) (withScores desc : bool) : M reply :=
  with_zset key empty_array (λ h,
    size ← zset_len (z_set h);
    match lrange_bounds start stop size with
    | None => mret empty_array
    | Some (start, stop) => es ← range_by_rank (z_set h) start stop desc; mret (elems_reply withScores es)
    end).

(** ZRANGE and ZREVRANGE: only the first takes the option in any case. *)
Definition range_with (arity : reply) (fold : bytes → bytes) (desc : bool) : ExecFunc O := λ args,
  if negb (length args =? 3)%nat && negb (length args =? 4)%nat then mret arity else
  opt ← (if (length args =? 4)%nat then a3 ← str_at args 3; mret (Some (bytes_eqb (fold a3) (str "WITHSCORES"))) else mret None);
  if bool_decide (opt = Some false) then mret (RErr "syntax error") else
  key ← str_at args 0;
  a1 ← str_at args 1;
  match ParseInt a1 with
  | None => mret not_integer
  | Some start =>
      a2 ← str_at args 2;
      match ParseInt a2 with
      | None => mret not_integer
      | Some stop => range0 key start stop (bool_decide (opt = Some true)) desc
      end
  end.
Definition execZRange : ExecFunc O := range_with (RErr "ERR wrong number of arguments for 'zrange' command") ToUpper false.
Definition execZRevRange : ExecFunc O := range_with (RErr "ERR wrong number of arguments for 'zrevrange' command") id true.

(** ** Ranges by score *)

Definition score_range_error : reply := RErr "ERR min or max is not a float".
Definition lex_range_error : reply := RErr "ERR min or max not valid string range item".

(** Two borders in the order in which the code reads them. *)
Definition two_borders (parse : bytes → res (option Border)) (err : reply) (a b : bytes) : M (reply + Border * Border) :=
  o ← lift (parse a);
  match o with
  | None => mret (inl err)
  | Some x =>
      o ← lift (parse b);
      mret match o with None => inl err | Some y => inr (x, y) end
  end.
Definition score_borders (a b : bytes) : M (reply + Border * Border) := two_borders (ParseScoreBorder ParseFloat) score_range_error a b.
Definition lex_borders (a b : bytes) : M (reply + Border * Border) := two_borders ParseLexBorder lex_range_error a b.

Definition range_count (z : ZSet) (min max : Border) : M reply :=
  n ← lift (ObjZSet.RangeCount ParseFloat z min max); mret (RInt n).

Definition execZCount : ExecFunc O := λ args,
  key ← str_at args 0;
  a1 ← str_at args 1;
  a2 ← str_at args 2;
  b ← score_borders a1 a2;
  match b with
  | inl e => mret e
  | inr (min, max) => with_zset key (RInt 0) (λ h, range_count (z_set h) min max)
  end.

Definition zset_range (z : ZSet) (min max : Border) (offset limit : Z) (desc : bool) : M (list Element) :=
  lift (ObjZSet.Range ParseFloat z min max offset limit desc).

Definition rangeByScore0 (key : bytes) (min max : Border) (offset limit : Z) (withScores desc : bool) : M reply :=
  with_zset key empty_array (λ h,
    slice ← zset_range (z_set h) min max offset limit desc; mret (elems_reply withScores slice)).

(** The options: [offset], [limit] and [withScores]. *)
Fixpoint score_opts (l : list bytes) (offset limit : Z) (withScores : bool) : reply + Z * Z * bool :=
  match l with
  | [] => inr (offset, limit, withScores)
  | s :: l =>
      if bytes_eqb (ToUpper s) (str "WITHSCORES") then score_opts l offset limit true
      else if bytes_eqb (ToUpper s) (str "LIMIT") then
        match l with
        | a :: b :: l =>
            match ParseInt a with
            | None => inl not_integer
            | Some offset =>
                match ParseInt b with
                | None => inl not_integer
                | Some limit => score_opts l offset limit withScores
                end
            end
        | _ => inl syntax_error
        end
      else inl syntax_error
  end.

(** The minimum is the argument [imin], and is read first. *)
Definition range_by_score (imin imax : nat) (desc : bool) : ExecFunc O := λ args,
  if (length args <? 3)%nat then mret (RErr "ERR wrong number of arguments for 'zrangebyscore' command") else
  key ← str_at args 0;
  a ← str_at args imin;
  b ← str_at args imax;
  r ← score_borders a b;
  match r with
  | inl e => mret e
  | inr (min, max) =>
      opts ← arg_strs (drop 3 args);
      match score_opts opts 0 (-1) false with
      | inl e => mret e
      | inr (offset, limit, withScores) => rangeByScore0 key min max offset limit withScores desc
      end
  end.
Definition execZRangeByScore : ExecFunc O := range_by_score 1 2 false.
Definition execZRevRangeByScore : ExecFunc O := range_by_score 2 1 true.

(** ** Removing *)

Definition remove_range (z : ZSet) (min max : Border) : M (ZSet * Z) := lift (ObjZSet.RemoveRange ParseFloat z min max).

Definition execZRemRangeByScore : ExecFunc O := λ args,
  if negb (length args =? 3)%nat then mret (RErr "ERR wrong number of arguments for 'zremrangebyscore' command") else
  key ← str_at args 0;
  a1 ← str_at args 1;
  a2 ← str_at args 2;
  b ← score_borders a1 a2;
  match b with
  | inl e => mret e
  | inr (min, max) =>
      with_zset key empty_array (λ h,
        '(z, removed) ← remove_range (z_set h) min max;
        store_zset key h z;;
        when (0 <? removed) (addAof (ToCmdLine3 "zremrangebyscore" args));;
        mret (RInt removed))
  end.

Definition execZRemRangeByRank : ExecFunc O := λ args,
  key ← str_at args 0;
  a1 ← str_at args 1;
  match ParseInt a1 with
  | None => mret not_integer
  | Some start =>
      a2 ← str_at args 2;
      match ParseInt a2 with
      | None => mret not_integer
      | Some stop =>
          with_zset key (RInt 0) (λ h,
            size ← zset_len (z_set h);
            match lrange_bounds start stop size with
            | None => mret (RInt 0)
            | Some (start, stop) =>
                '(z, removed) ← lift (ObjZSet.RemoveByRank ParseFloat (z_set h) start stop);
                store_zset key h z;;
                when (0 <? removed) (addAof (ToCmdLine3 "zremrangebyrank" args));;
                mret (RInt removed)
            end)
      end
  end.

(** The key stays when the last member goes. *)
Definition execZPopMin : ExecFunc O := λ args,
  key ← str_at args 0;
  c ← (if (1 <? length args)%nat then a1 ← str_at args 1; mret (ParseInt a1) else mret (Some 1));
  match c with
  | None => mret not_integer
  | Some count =>
      with_zset key empty_array (λ h,
        '(z, o) ← lift (ObjZSet.PopMin ParseFloat (z_set h) count);
        let removed := default [] o in
        store_zset key h z;;
        when (0 <? length removed)%nat (addAof (ToCmdLine3 "zpopmin" args));;
        mret (elems_reply true removed))
  end.

Definition remove_one (st : ZSet * Z) (m : bytes) : res (ZSet * Z) :=
  '(z, b) ← ObjZSet.Remove st.1 m; Ret (z, if b : bool then st.2 + 1 else st.2).

Definition execZRem : ExecFunc O := λ args,
  key ← str_at args 0;
  fields ← arg_strs (drop 1 args);
  with_zset key (RInt 0) (λ h,
    '(z, deleted) ← lift (foldM remove_one fields (z_set h, 0));
    store_zset key h z;;
    when (0 <? deleted) (addAof (ToCmdLine3 "zrem" args));;
    mret (RInt deleted)).

(** ** Ranges by member *)

Definition execZLexCount : ExecFunc O := λ args,
  key ← str_at args 0;
  with_zset key (RInt 0) (λ h,
    a1 ← str_at args 1;
    a2 ← str_at args 2;
    b ← lex_borders a1 a2;
    match b with
    | inl e => mret e
    | inr (min, max) => range_count (z_set h) min max
    end).

(** The offset and the number of elements; [inl] ends the command. *)
Definition lex_limit (args : list arg) : M (reply + Z * Z) :=
  if (3 <? length args)%nat then
    a4 ← str_at args 4;
    match ParseInt a4 with
    | None => mret (inl not_integer)
    | Some offset =>
        if offset <? 0 then mret (inl empty_array) else
        a5 ← str_at args 5;
        mret match ParseInt a5 with
             | None => inl not_integer
             | Some count => inr (offset, if 0 <=? count then count else max_i64)
             end
    end
  else mret (inr (0, max_i64)).

Definition range_by_lex (imin imax : nat) (desc : bool) : ExecFunc O := λ args,
  opt ← (if (3 <? length args)%nat then a3 ← str_at args 3; mret (bytes_eqb (ToLower a3) (str "limit")) else mret true);
  if negb opt then mret syntax_error else
  if negb (length args =? 3)%nat && negb (length args =? 6)%nat then mret (RErr "ERR wrong number of arguments for 'zrangebylex' command") else
  key ← str_at args 0;
  with_zset key (RInt 0) (λ h,
    a ← str_at args imin;
    b ← str_at args imax;
    r ← lex_borders a b;
    match r with
    | inl e => mret e
    | inr (min, max) =>
        l ← lex_limit args;
        match l with
        | inl e => mret e
        | inr (offset, limitCnt) =>
            elements ← zset_range (z_set h) min max offset limitCnt desc;
            mret (if (length elements =? 0)%nat then empty_array else elems_reply false elements)
        end
    end).
Definition execZRangeByLex : ExecFunc O := range_by_lex 1 2 false.
Definition execZRevRangeByLex : ExecFunc O := range_by_lex 2 1 true.

(** Not written to the append-only file. *)
Definition execZRemRangeByLex : ExecFunc O := λ args,
  if negb (length args =? 3)%nat then mret (RErr "ERR wrong number of arguments for 'zremrangebylex' command") else
  key ← str_at args 0;
  with_zset key (RInt 0) (λ h,
    a1 ← str_at args 1;
    a2 ← str_at args 2;
    b ← lex_borders a1 a2;
    match b with
    | inl e => mret e
    | inr (min, max) =>
        '(z, count) ← remove_range (z_set h) min max;
        store_zset key h z;;
        mret (RInt count)
    end).

(** ** Scans *)

Definition execZScan : ExecFunc O := λ args,
  opts ← arg_strs (drop 2 args);
  o ← lift (sscan_opts opts 10 (str "*"));
  match o with
  | inl e => mret e
  | inr (count, pattern) =>
      key ← str_at args 0;
      with_zset key empty_array (λ h,
        a1 ← str_at args 1;
        match ParseInt a1 with
        | None => mret (RErr "ERR invalid cursor")
        | Some cursor =>
            ord ← choose (λ n, match skiplist_ (z_set h) with Some ss => zmap_order n ss | None => [] end);
            '(keysReply, nextCursor) ← lift (ObjZSet.ZSetScan (z_set h) ord zcompile FormatFloat10 cursor count pattern);
            if nextCursor <? 0 then mret (RErr "Invalid argument") else
            mret (RRaw [RBulk (ALit (Itoa nextCursor)); RMultiBulk (ALit <$> keysReply)])
        end)
  end.

(** ** Popping from the first sorted set that has members *)

Definition prepareZMPop : PreFunc O := λ args,
  a0 ← str_at args 0;
  match ParseInt a0 with
  | None => mret ([], [])
  | Some numKeys =>
      if numKeys <? 1 then mret ([], []) else
      if max_make <? numKeys * 16 then panic else
      if Z.of_nat (length args) <=? numKeys then panic else
      keys ← arg_strs (take (Z.to_nat numKeys) (drop 1 args)); mret (keys, [])
  end.

Definition zmpop_arity : reply := RErr "ERR wrong number of arguments for 'zmpop' command".

Definition zmpop_elem (e : Element) : reply := RRaw [RBulk (ALit (Member e)); RBulk (ALit (FormatFloat (Score e)))].

(** What is done with the first sorted set that has members. *)
Definition zmpop_from (desc : bool) (count : Z) (args : list arg) (key : bytes) (h : zset_handle) (len : Z) : M reply :=
  let count := if len <? count then len else count in
  slice ← range_by_rank (z_set h) 0 count desc;
  '(z, _) ← lift (foldM remove_one (Member <$> slice) (z_set h, 0));
  store_zset key h z;;
  syncZSetEncodingAfterWrite key z;;
  n ← zset_len z;
  when (n =? 0) (KeySpace.Remove key);;
  addAof (ToCmdLine3 "zmpop" args);;
  mret (RRaw [RBulk (ALit key); RRaw (zmpop_elem <$> slice)]).

Fixpoint zmpop_keys (desc : bool) (count : Z) (args keys : list arg) : M reply :=
  match keys with
  | [] => mret RNull
  | a :: keys =>
      key ← string_of a;
      r ← getAsZSet key;
      match r with
      | inl e => mret e
      | inr None => zmpop_keys desc count args keys
      | inr (Some h) =>
          len ← zset_len (z_set h);
          if len =? 0 then zmpop_keys desc count args keys else zmpop_from desc count args key h len
      end
  end.

Definition execZMPop : ExecFunc O := λ args,
  if (length args <? 3)%nat then mret zmpop_arity else
  a0 ← str_at args 0;
  match ParseInt a0 with
  | None => mret not_integer
  | Some numKeys =>
      if numKeys <? 1 then mret not_integer else
      if Z.of_nat (length args) <? wrap64 (1 + numKeys + 1) then mret zmpop_arity else
      d ← str_atZ args (wrap64 (1 + numKeys));
      let direction := ToUpper d in
      let max := bytes_eqb direction (str "MAX") in
      if negb (bytes_eqb direction (str "MIN")) && negb max then mret syntax_error else
      c ← lmpop_count args (2 + numKeys);
      match c with
      | inl e => mret e
      | inr count => zmpop_keys max count args (take (Z.to_nat numKeys) (drop 1 args))
      end
  end.

(** ** Undo logs *)

Definition rollbackZSetFields (key : bytes) (fields : list bytes) : M (list (list arg)) :=
  r ← getAsZSet key;
  match r with
  | inl _ => mret []
  | inr None => mret [ToCmdLine [str "DEL"; key]]
  | inr (Some h) =>
      forM fields (λ field,
        score ← zset_get (z_set h) field;
        mret match score with
             | None => ToCmdLine [str "ZREM"; key; field]
             | Some s => ToCmdLine [str "ZADD"; key; FormatFloat s; field]
             end)
  end.

(** The members of ZADD, every second argument after the key. *)
Fixpoint zadd_members (l : list arg) : list arg :=
  match l with
  | _ :: m :: l => m :: zadd_members l
  | _ => []
  end.

Definition undoZAdd : UndoFunc O := λ args,
  key ← str_at args 0;
  fields ← arg_strs (zadd_members (drop 1 args));
  rollbackZSetFields key fields.

Definition undoZRem : UndoFunc O := λ args,
  key ← str_at args 0;
  fields ← arg_strs (drop 1 args);
  rollbackZSetFields key fields.

Definition undoZIncr : UndoFunc O := λ args,
  key ← str_at args 0;
  field ← str_at args 2;
  rollbackZSetFields key [field].

(** ** Registrations *)

Definition ro_fast : list string := ["readonly"; "fast"]%string.
Definition on_zset (ev : string) : option (Z * string) := Some (notifyZset, ev).

Definition zset_commands : list (bytes * command O) := [
  registerCommand "zmpop" execZMPop prepareZMPop None (-4) flagWrite ["write"]%string (on_zset "zmpop");
  registerCommand "zadd" execZAdd writeFirstKey (Some undoZAdd) (-4) flagWrite w_oom_fast (on_zset "zadd");
  registerCommand "zscore" execZScore readFirstKey None 3 flagReadOnly ro_fast None;
  registerCommand "zincrby" execZIncrBy writeFirstKey (Some undoZIncr) 4 flagWrite w_oom_fast (on_zset "zincrby");
  registerCommand "zrank" execZRank readFirstKey None 3 flagReadOnly ro_fast None;
  registerCommand "zcount" execZCount readFirstKey None 4 flagReadOnly ro_fast None;
  registerCommand "zrevrank" execZRevRank readFirstKey None 3 flagReadOnly ro_fast None;
  registerCommand "zcard" execZCard readFirstKey None 2 flagReadOnly ro_fast None;
  registerCommand "zrange" execZRange readFirstKey None (-4) flagReadOnly ["readonly"]%string None;
  registerCommand "zrangebyscore" execZRangeByScore readFirstKey None (-4) flagReadOnly ["readonly"]%string None;
  registerCommand "zrevrange" execZRevRange readFirstKey None (-4) flagReadOnly ["readonly"]%string None;
  registerCommand "zrevrangebyscore" execZRevRangeByScore readFirstKey None (-4) flagReadOnly ["readonly"]%string None;
  registerCommand "zpopmin" execZPopMin writeFirstKey (Some rollbackFirstKey) (-2) flagWrite ["write"; "fast"]%string None;
  registerCommand "zrem" execZRem writeFirstKey (Some undoZRem) (-3) flagWrite ["write"; "fast"]%string (on_zset "zrem");
  registerCommand "zremrangebyscore" execZRemRangeByScore writeFirstKey (Some rollbackFirstKey) 4 flagWrite ["write"]%string None;
  registerCommand "zremrangebyrank" execZRemRangeByRank writeFirstKey (Some rollbackFirstKey) 4 flagWrite ["write"]%string None;
  registerCommand "zlexcount" execZLexCount readFirstKey None 4 flagReadOnly ["readonly"]%string None;
  registerCommand "zrangebylex" execZRangeByLex readFirstKey None (-4) flagReadOnly ["readonly"]%string None;
  registerCommand "zremrangebylex" execZRemRangeByLex writeFirstKey (Some rollbackFirstKey) 4 flagWrite ["write"]%string None;
  registerCommand "zrevrangebylex" execZRevRangeByLex readFirstKey None (-4) flagReadOnly ["readonly"]%string None;
  registerCommand "zscan" execZScan readFirstKey None (-2) flagReadOnly ["readonly"]%string None].
End zset.
