(* ===== verification/ZSetThm.v ===== *)
(** * Sorted-set commands refine operations on ordered lists

    Any sequence of sorted-set commands, on any keys, gives the replies of the
    same operations on a map from keys to lists of elements in the order of
    score and member. *)

From stdpp Require Import base gmap list strings.
From Stdlib Require Import ZArith Lia Ascii.
From S2P Require Import Prelude Binary GoText Listpack Float64 Border SkipList SkipListSpec SortedSet SortedSetSpec SortedSetThm ObjString ObjZSet ObjZSetSpec ObjZSetThm Strconv Resp Runtime GoTime TimeWheel KeySpace StringCmd KeyCmd Tx KeySpaceThm TxThm ObjCmd ListCmd SetCmd ZSetCmd ObjCmdThm ListThm.

Local Open Scope Z_scope.
Local Abbreviation inr := Datatypes.inr.

(** ** The specification *)

(** Scores and borders are given by their texts. *)
Inductive zset_op :=
| OZAdd (k : bytes) (ps : list (bytes * bytes)) | OZIncrBy (k delta m : bytes)
| OZScore (k m : bytes) | OZRank (k m : bytes) (desc : bool) | OZCard (k : bytes) | OZRange (k : bytes) (a b : Z) (scores desc : bool)
| OZCount (k a b : bytes) | OZRangeByScore (k min max : bytes) (limit : option (Z * Z)) (scores desc : bool)
| OZRemRangeByScore (k a b : bytes) | OZRemRangeByRank (k : bytes) (a b : Z) | OZPopMin (k : bytes) (n : option Z) | OZRem (k : bytes) (ms : list bytes)
| OZLexCount (k a b : bytes) | OZRangeByLex (k min max : bytes) (limit : option (Z * Z)) (desc : bool) | OZRemRangeByLex (k a b : bytes)
| OZMPop (ks : list bytes) (max : bool) (count : option Z).

Notation zsets := (gmap bytes (slot (list Element))).

Definition on_zset (m : zsets) (k : bytes) (missing : Reply) (f : list Element → zsets * Reply) : zsets * Reply :=
  match m !! k with None => (m, missing) | Some Foreign => (m, WrongTypeErrReply) | Some (Own es) => f es end.

Section spec.
Context {rt : Runtime}.
Implicit Types (m : zsets) (k : bytes) (es : list Element).

Definition elem_opts (scores : bool) (e : Element) : list (option bytes) :=
  if scores then [Some (Member e); Some (FormatFloat (Score e))] else [Some (Member e)].
Definition elems (scores : bool) es : Reply := MultiBulkReply (es ≫= elem_opts scores).
Definition size_reply es : Reply := IntReply (Z.of_nat (length es)).

(** The elements that ZADD is given, unless a score is no number. *)
Definition parsed (ps : list (bytes * bytes)) : option (list Element) := mapM (λ p, MkElement p.2 <$> ParseFloat p.1) ps.
Definition zadd_all (l : list Element) es : list Element := foldl (λ es e, zadd (Member e) (Score e) es) es l.
Definition member_set es : gset bytes := list_to_set (Member <$> es).

(** Two borders, or the error for the first that is none. *)
Definition two_borders_spec (parse : bytes → res (option Border)) (err : string) (a b : bytes) : Reply + Border * Border :=
  match parse a, parse b with
  | Ret (Some x), Ret (Some y) => inr (x, y)
  | _, _ => inl (err_reply err)
  end.
Definition by_score : bytes → bytes → Reply + Border * Border := two_borders_spec (ParseScoreBorder ParseFloat) "ERR min or max is not a float".
Definition by_lex : bytes → bytes → Reply + Border * Border := two_borders_spec ParseLexBorder "ERR min or max not valid string range item".

(** What lies between two borders, with an offset and a number of elements that
    is no limit when it is negative. *)
Definition range_of (min max : Border) (limit : option (Z * Z)) (desc : bool) es : list Element :=
  let l := directed desc (zrange min max es) in
  match limit with
  | None => l
  | Some (offset, n) => if offset <? 0 then [] else let l := drop (Z.to_nat offset) l in if n <? 0 then l else take (Z.to_nat n) l
  end.

Definition outside (min max : Border) es : list Element := filter (λ e, SortedSetSpec.inr min max e = false) es.

(** The first key with elements; [rest] is what is left of a sorted set. *)
Definition zmpop_rest (max : bool) (n : nat) es : list Element := if max then take (length es - n) es else drop n es.
Fixpoint zmpop_spec (m : zsets) (max : bool) (n : nat) (ks : list bytes) : zsets * Reply :=
  match ks with
  | [] => (m, NullBulkReply)
  | k :: ks =>
      match m !! k with
      | None | Some (Own []) => zmpop_spec m max n ks
      | Some Foreign => (m, WrongTypeErrReply)
      | Some (Own es) =>
          let rest := zmpop_rest max n es in
          (if decide (rest = []) then delete k m else <[k := Own rest]> m,
           MultiRawReply [BulkReply (Some k);
             MultiRawReply ((λ e, MultiRawReply [BulkReply (Some (Member e)); BulkReply (Some (FormatFloat (Score e)))]) <$> take n (directed max es))])
      end
  end.

Definition zset_cmd_spec (m : zsets) (o : zset_op) : zsets * Reply :=
  match o with
  | OZAdd k ps =>
      match parsed ps, m !! k with
      | None, _ => (m, err_reply "ERR value is not a valid float")
      | Some _, Some Foreign => (m, WrongTypeErrReply)
      | Some l, s =>
          let es := match s with Some (Own es) => es | _ => [] end in
          (<[k := Own (zadd_all l es)]> m, IntReply (Z.of_nat (size (member_set l ∖ member_set es))))
      end
  | OZIncrBy k delta x =>
      match ParseFloat delta, m !! k with
      | None, _ => (m, err_reply "ERR value is not a valid float")
      | Some _, Some Foreign => (m, WrongTypeErrReply)
      | Some d, s =>
          let es := match s with Some (Own es) => es | _ => [] end in
          match zfind x es with
          | None => (<[k := Own (zadd x d es)]> m, BulkReply (Some delta))
          | Some a => let s' := fadd (Score a) d in (<[k := Own (zadd x s' es)]> m, BulkReply (Some (FormatFloat s')))
          end
      end
  | OZScore k x => on_zset m k NullBulkReply (λ es,
      (m, match zfind x es with Some a => BulkReply (Some (FormatFloat (Score a))) | None => NullBulkReply end))
  | OZRank k x desc => on_zset m k NullBulkReply (λ es,
      (m, match zindex x (directed desc es) with Some i => IntReply (Z.of_nat i) | None => NullBulkReply end))
  | OZCard k => on_zset m k (IntReply 0) (λ es, (m, size_reply es))
  | OZRange k a b scores desc => on_zset m k EmptyMultiBulkReply (λ es,
      (m, if Z.of_nat (length es) <=? a then EmptyMultiBulkReply else elems scores (redis_range (directed desc es) a b)))
  | OZCount k a b =>
      match by_score a b with
      | inl e => (m, e)
      | inr (min, max) => on_zset m k (IntReply 0) (λ es, (m, size_reply (zrange min max es)))
      end
  | OZRangeByScore k a b limit scores desc =>
      match by_score a b with
      | inl e => (m, e)
      | inr (min, max) => on_zset m k EmptyMultiBulkReply (λ es, (m, elems scores (range_of min max limit desc es)))
      end
  | OZRemRangeByScore k a b =>
      match by_score a b with
      | inl e => (m, e)
      | inr (min, max) => on_zset m k EmptyMultiBulkReply (λ es, (<[k := Own (outside min max es)]> m, size_reply (zrange min max es)))
      end
  | OZRemRangeByRank k a b => on_zset m k (IntReply 0) (λ es,
      if Z.of_nat (length es) <=? a then (m, IntReply 0)
      else let gone := redis_range es a b in
           (<[k := Own (filter (λ e, Member e ∉ Member <$> gone) es)]> m, size_reply gone))
  | OZPopMin k n => on_zset m k EmptyMultiBulkReply (λ es,
      let n := Z.to_nat (default 1 n) in (<[k := Own (drop n es)]> m, elems true (take n es)))
  | OZRem k ms => on_zset m k (IntReply 0) (λ es,
      (<[k := Own (filter (λ e, Member e ∉ ms) es)]> m, IntReply (Z.of_nat (size (member_set es ∩ list_to_set ms)))))
  | OZLexCount k a b => on_zset m k (IntReply 0) (λ es,
      match by_lex a b with inl e => (m, e) | inr (min, max) => (m, size_reply (zrange min max es)) end)
  | OZRangeByLex k a b limit desc => on_zset m k (IntReply 0) (λ es,
      match by_lex a b with
      | inl e => (m, e)
      | inr (min, max) => (m, match range_of min max limit desc es with [] => EmptyMultiBulkReply | l => elems false l end)
      end)
  | OZRemRangeByLex k a b => on_zset m k (IntReply 0) (λ es,
      match by_lex a b with inl e => (m, e) | inr (min, max) => (<[k := Own (outside min max es)]> m, size_reply (zrange min max es)) end)
  | OZMPop ks max count => zmpop_spec m max (Z.to_nat (default 1 count)) ks
  end.

(** ** Operations within the limits *)

Definition borders_ok (borders : Reply + Border * Border) (a b : bytes) (P : Border → Border → Prop) : Prop :=
  a ≠ [] ∧ b ≠ [] ∧ match borders with inl _ => True | inr (min, max) => P min max end.

(** The elements of a key that has some. *)
Definition for_key (m : zsets) (k : bytes) (P : list Element → Prop) : Prop := match m !! k with Some (Own es) => P es | _ => True end.

Definition limit_ok (limit : option (Z * Z)) : Prop := match limit with Some (offset, n) => i64 offset ∧ i64 n | None => True end.

(** A range read by border is not refused by [isIntersected], and its offset
    stays inside. *)
Definition readable (min max : Border) (limit : option (Z * Z)) es : Prop :=
  cuts min max es ∧ isIntersected min max = Ret false ∧ (zrange min max es = [] ∨ from_option fst 0 limit < Z.of_nat (length (zrange min max es))).

(** Scores are numbers other than negative zero, a rank is asked of a member
    that is not empty, sets whose ranges are counted are not empty, borders are
    not empty and suit the elements, numbers fit. *)
Definition zset_op_ok (m : zsets) (o : zset_op) : Prop :=
  match o with
  | OZAdd _ ps => Forall (λ p, small p.2 ∧ match ParseFloat p.1 with Some s => score_ok s | None => True end) ps
  | OZIncrBy k delta x =>
      small x ∧ match ParseFloat delta with
                | Some d => score_ok d ∧ for_key m k (λ es, match zfind x es with Some a => score_ok (fadd (Score a) d) | None => True end)
                | None => True
                end
  | OZRank _ x _ => x ≠ []
  | OZRange k a b _ _ => i64 a ∧ i64 b ∧ for_key m k (λ es, es ≠ [])
  | OZCount k a b => borders_ok (by_score a b) a b (λ min max, for_key m k (λ es, es ≠ [] ∧ cuts min max es))
  | OZRangeByScore k a b limit _ _ => limit_ok limit ∧ borders_ok (by_score a b) a b (λ min max, for_key m k (readable min max limit))
  | OZRemRangeByScore k a b => borders_ok (by_score a b) a b (λ min max, for_key m k (cuts min max))
  | OZRemRangeByRank k a b => i64 a ∧ i64 b ∧ for_key m k (λ es, es ≠ [] ∧ Z.of_nat (length es) < max_i64)
  | OZPopMin _ n => match n with Some n => 0 < n <= max_i64 | None => True end
  | OZLexCount k a b => borders_ok (by_lex a b) a b (λ min max, for_key m k (λ es, es ≠ [] ∧ cuts min max es))
  | OZRangeByLex k a b limit _ =>
      match limit with Some (offset, n) => 0 <= offset <= max_i64 ∧ i64 n | None => True end ∧
      borders_ok (by_lex a b) a b (λ min max, for_key m k (λ es, readable min max limit es ∧ Z.of_nat (length es) < max_i64))
  | OZRemRangeByLex k a b => borders_ok (by_lex a b) a b (λ min max, for_key m k (cuts min max))
  | OZMPop ks _ count => ks ≠ [] ∧ Z.of_nat (length ks) < max_i64 - 2 ∧ match count with Some n => 0 < n <= max_i64 | None => True end
  | _ => True
  end.
End spec.

Section run.
Context {O : Type} `{!Objects O} `{!ObjOf O zset_obj} {env : Env} {rt : Runtime} {zchoices : ZChoices}.
Context (Thresholds : EncodingThresholds).

Definition limit_words (word : string) (limit : option (Z * Z)) : list bytes :=
  match limit with Some (offset, n) => [str word; Itoa offset; Itoa n] | None => [] end.

(** The command that an operation stands for. *)
Definition zset_exec (o : zset_op) : M O reply :=
  let line (words : list bytes) := ALit <$> words in
  let scores_words (scores : bool) := if scores then [str "WITHSCORES"] else [] in
  match o with
  | OZAdd k ps => execZAdd Thresholds (line (k :: (ps ≫= λ p, [p.1; p.2])))
  | OZIncrBy k delta x => execZIncrBy Thresholds (line [k; delta; x])
  | OZScore k x => execZScore (line [k; x])
  | OZRank k x desc => (if desc then execZRevRank else execZRank) (line [k; x])
  | OZCard k => execZCard (line [k])
  | OZRange k a b scores desc => (if desc then execZRevRange else execZRange) (line ([k; Itoa a; Itoa b] ++ scores_words scores))
  | OZCount k a b => execZCount (line [k; a; b])
  | OZRangeByScore k a b limit scores desc =>
      if desc then execZRevRangeByScore (line ([k; b; a] ++ limit_words "LIMIT" limit ++ scores_words scores))
      else execZRangeByScore (line ([k; a; b] ++ limit_words "LIMIT" limit ++ scores_words scores))
  | OZRemRangeByScore k a b => execZRemRangeByScore (line [k; a; b])
  | OZRemRangeByRank k a b => execZRemRangeByRank (line [k; Itoa a; Itoa b])
  | OZPopMin k n => execZPopMin (line (k :: match n with Some n => [Itoa n] | None => [] end))
  | OZRem k ms => execZRem (line (k :: ms))
  | OZLexCount k a b => execZLexCount (line [k; a; b])
  | OZRangeByLex k a b limit desc =>
      if desc then execZRevRangeByLex (line ([k; b; a] ++ limit_words "limit" limit))
      else execZRangeByLex (line ([k; a; b] ++ limit_words "limit" limit))
  | OZRemRangeByLex k a b => execZRemRangeByLex (line [k; a; b])
  | OZMPop ks max count =>
      execZMPop (line (Itoa (Z.of_nat (length ks)) :: ks ++ str (if max then "MAX" else "MIN") :: match count with Some n => [str "COUNT"; Itoa n] | None => [] end))
  end.
End run.

(** ** Loops *)

Lemma zfind_members x es : NoDup (Member <$> es) → zfind x es = None ↔ x ∉ member_set es.
Proof. intros _. unfold member_set. by rewrite elem_of_list_to_set, zfind_None. Qed.

Lemma member_set_zadd x s es : sorted es → NoDup (Member <$> es) → scores_ok es → score_ok s → member_set (zadd x s es) = {[x]} ∪ member_set es.
Proof.
  intros _ Hd Hok Hs. pose proof (zadd_perm x s es Hd Hok Hs) as HP. apply set_eq. intros y. unfold member_set.
  rewrite elem_of_list_to_set, HP, fmap_cons, elem_of_cons, elem_of_union, elem_of_singleton, elem_of_list_to_set. cbn [Member].
  destruct (decide (y = x)) as [->|Hne]; [tauto|]. rewrite !list_elem_of_fmap. split.
  - intros [?|(a & -> & [Ha _]%zdel_elem)]; [done|]. right. by exists a.
  - intros [?|(a & -> & Ha)]; [done|]. right. exists a. split; [done|]. apply zdel_elem. done.
Qed.

Lemma member_set_size es : NoDup (Member <$> es) → size (member_set es) = length es.
Proof. intros Hd. unfold member_set. by rewrite size_list_to_set, length_fmap. Qed.

Lemma new_size (x : bytes) (X Y : gset bytes) :
  Z.of_nat (size (({[x]} ∪ X) ∖ Y)) = (if bool_decide (x ∉ Y) then 1 else 0) + Z.of_nat (size (X ∖ ({[x]} ∪ Y))).
Proof.
  case_bool_decide as Hx.
  - replace (({[x]} ∪ X) ∖ Y) with ({[x]} ∪ X ∖ ({[x]} ∪ Y)) by (apply set_eq; intros y; destruct (decide (y = x)); set_solver).
    rewrite size_union, size_singleton by set_solver. lia.
  - replace (({[x]} ∪ X) ∖ Y) with (X ∖ ({[x]} ∪ Y)) by set_solver. lia.
Qed.

Lemma gone_size (x : bytes) (X Y : gset bytes) :
  Z.of_nat (size (X ∩ ({[x]} ∪ Y))) = (if bool_decide (x ∈ X) then 1 else 0) + Z.of_nat (size ((X ∖ {[x]}) ∩ Y)).
Proof.
  case_bool_decide as Hx.
  - replace (X ∩ ({[x]} ∪ Y)) with ({[x]} ∪ (X ∖ {[x]}) ∩ Y) by (apply set_eq; intros y; destruct (decide (y = x)); set_solver).
    rewrite size_union, size_singleton by set_solver. lia.
  - replace (X ∩ ({[x]} ∪ Y)) with ((X ∖ {[x]}) ∩ Y) by set_solver. lia.
Qed.

Lemma member_set_zdel x es : member_set (zdel x es) = member_set es ∖ {[x]}.
Proof.
  apply set_eq. intros y. unfold member_set. rewrite elem_of_difference, !elem_of_list_to_set, elem_of_singleton, !list_elem_of_fmap. split.
  - intros (a & -> & [Ha Hne]%zdel_elem). split; [by exists a|done].
  - intros [(a & -> & Ha) Hne]. exists a. split; [done|]. by apply zdel_elem.
Qed.

Section loops.
Context {O : Type} {rt : Runtime} {zchoices : ZChoices} (T : EncodingThresholds).
Hypothesis format_parse : ∀ s, score_ok s → ParseFloat (FormatFloat s) = Some s.
Hypothesis format_small : ∀ s, score_ok s → small (FormatFloat s).
Local Abbreviation ok := (z_ok T FormatFloat).

Lemma zset_add_run z es x s (db : DB O) : ok z es → score_ok s → small x →
  ∃ z' n, zset_add T z x s db = Ret ((z', bool_decide (zfind x es = None)), set_draws db n) ∧ ok z' (zadd x s es).
Proof using format_parse format_small.
  intros Hz Hs Hx. unfold zset_add, choose, mbind, M_bind. cbn [res_bind].
  destruct (ZAdd_spec T _ _ format_parse format_small z es x s (node_rnds (draws db)) Hz Hs Hx) as (z' & E & Hz').
  unfold lift. rewrite E. by eexists z', _.
Qed.

Lemma add_elements_run l z es added (db : DB O) : ok z es → Forall (λ e, score_ok (Score e) ∧ small (Member e)) l →
  ∃ z' n, add_elements T l z added db = Ret ((z', added + Z.of_nat (size (member_set l ∖ member_set es))), set_draws db n) ∧ ok z' (zadd_all l es).
Proof using format_parse format_small.
  intros Hz Hl. revert z es added db Hz. induction Hl as [|e l [Hs He] Hl IH]; intros z es added db Hz; cbn [add_elements zadd_all foldl].
  - exists z, (draws db). unfold member_set. cbn. replace (∅ ∖ _ : gset bytes) with (∅ : gset bytes) by set_solver. rewrite size_empty, Z.add_0_r. by destruct db.
  - destruct (zset_add_run z es (Member e) (Score e) db Hz Hs He) as (z1 & n1 & E1 & Hz1). rewrite (run_step _ _ _ _ _ E1).
    set (added' := if bool_decide (zfind (Member e) es = None) then added + 1 else added).
    destruct (IH z1 _ added' (set_draws db n1) Hz1) as (z2 & n2 & E2 & Hz2). exists z2, n2. split; [|exact Hz2].
    assert (HN : added' + Z.of_nat (size (member_set l ∖ member_set (zadd (Member e) (Score e) es))) = added + Z.of_nat (size (member_set (e :: l) ∖ member_set es))).
    { pose proof Hz as [_ Hso Hnd Hsc]. rewrite member_set_zadd by done. change (member_set (e :: l)) with ({[Member e]} ∪ member_set l). rewrite new_size.
      unfold added'. pose proof (zfind_members (Member e) es Hnd). repeat case_bool_decide; try tauto; lia. }
    rewrite E2, HN. done.
Qed.

Lemma ZRemove_keeps z x z' b : ObjZSet.Remove z x = Ret (z', b) → ObjZSet.CurrentEncoding z' = ObjZSet.CurrentEncoding z.
Proof using.
  unfold ObjZSet.Remove, ObjZSet.CurrentEncoding. intros E. destruct (isListpack z) eqn:El.
  - destruct (ObjZSet.listpack z); [|done]. cbn [must mbind res_bind] in E. destruct (Pairs.pair_remove _ _ _) as [[lp []]| |]; cbn in E; simplify_eq/=; by rewrite ?El.
  - destruct (skiplist_ z); [|done]. cbn [must mbind res_bind] in E. destruct (SortedSet.Remove _ _) as [[]| |]; cbn in E; simplify_eq/=; by rewrite ?El.
Qed.

Lemma filter_zdel (x : bytes) (ms : list bytes) es : filter (λ e, Member e ∉ ms) (zdel x es) = filter (λ e, Member e ∉ x :: ms) es.
Proof using.
  unfold zdel. rewrite list_filter_filter. apply list_filter_iff. intros e. rewrite not_elem_of_cons. tauto.
Qed.

Lemma remove_run (ms : list bytes) z es n : ok z es →
  ∃ z', foldM remove_one ms (z, n) = Ret (z', n + Z.of_nat (size (member_set es ∩ list_to_set ms))) ∧ ok z' (filter (λ e, Member e ∉ ms) es) ∧
    ObjZSet.CurrentEncoding z' = ObjZSet.CurrentEncoding z.
Proof using.
  revert z es n. induction ms as [|x ms IH]; intros z es n Hz.
  - exists z. cbn. rewrite intersection_empty_r_L, size_empty, Z.add_0_r. split; [done|]. split; [|done].
    rewrite (filter_all _ es); [done|]. intros e _. apply not_elem_of_nil.
  - destruct (ZRemove_spec T FormatFloat z es x Hz) as (z1 & E1 & Hz1).
    set (n1 := if bool_decide (zfind x es ≠ None) then n + 1 else n).
    assert (E : remove_one (z, n) x = Ret (z1, n1)) by (unfold remove_one; cbn [fst snd]; by rewrite E1).
    cbn [foldM]. rewrite E. cbn [mbind res_bind]. destruct (IH z1 _ n1 Hz1) as (z2 & E2 & Hz2 & He2). rewrite E2. exists z2. split_and!.
    + do 2 f_equal. pose proof (zfind_members x es (zok_nodup _ _ _ _ Hz)). unfold n1. cbn [list_to_set]. rewrite gone_size, member_set_zdel.
      repeat case_bool_decide; try tauto; lia.
    + by rewrite <- filter_zdel.
    + rewrite He2. by eapply ZRemove_keeps.
Qed.
End loops.

(** ** Commands *)

Section commands.
Context {O : Type} `{!Objects O} `{!ObjOf O zset_obj} {env : Env} {rt : Runtime} {zchoices : ZChoices}.
Context (t : Z) (Hclk : ∀ n, clock n = t) (dl : gmap bytes Z) (T : EncodingThresholds).
Hypothesis format_parse : ∀ s, score_ok s → ParseFloat (FormatFloat s) = Some s.
Hypothesis format_small : ∀ s, score_ok s → small (FormatFloat s).
Implicit Types (m : zsets) (db : DB O) (es : list Element) (z : ZSet) (k x : bytes) (h : zset_handle) (desc scores : bool).
Local Abbreviation ok := (z_ok T FormatFloat).

(** A header tells the encoding of the object behind it. *)
Definition zset_obj_ok (v : zset_obj) es : Prop :=
  match v with
  | ZRobj enc (PZSet z) => ok z es ∧ enc = ObjZSet.CurrentEncoding z
  | ZRobj _ (PSorted _) => False
  | PlainZSet z => ok z es
  end.

Local Abbreviation sees := (sees (O := O) t dl zset_obj_ok).

Definition does (h : M O reply) db (out : zsets * Reply) : Prop := gives t dl zset_obj_ok h db (λ m' r, (m', r) = out).

Lemma zdoes_ret m db (r : reply) out : sees m db → out.1 = m → (∀ mem, resolve mem r = out.2) → does (mret r) db out.
Proof. intros S Hm Hr. apply (gives_ret t dl zset_obj_ok m); [done|]. intros mem. rewrite Hr, <- Hm. by destruct out. Qed.

(** ** Access *)

(** The object that a handler has fetched. *)
Definition handle_ok (h : zset_handle) es : Prop := ok (z_set h) es.

Lemma wrap_ok (robj : bool) z es : ok z es → zset_obj_ok (if robj then ZRobj (ObjZSet.CurrentEncoding z) (PZSet z) else PlainZSet z) es.
Proof. by destruct robj. Qed.

Lemma open_zset_sees m db k v es : sees m db → m !! k = Some (Own es) → zset_obj_ok v es →
  ∃ h db', open_zset k v db = Ret (inr h, db') ∧ handle_ok h es ∧ sees m db'.
Proof.
  intros S Hm Hv. destruct v as [enc [z|ss]|z]; [destruct Hv as [Hz ->]|done|].
  - destruct (store_obj_sees t dl zset_obj_ok m db k es (ZRobj (ObjZSet.CurrentEncoding z) (PZSet z)) es S Hm) as (db' & E & S' & _); [done|].
    exists (MkZHandle z true), db'. cbn [open_zset]. unfold store_z. rewrite (run_step _ _ _ _ _ E), run_mret. rewrite insert_id in S' by done. done.
  - exists (MkZHandle z false), db. done.
Qed.

Lemma getAsZSet_sees m db k : sees m db →
  ∃ r db1, getAsZSet k db = Ret (r, db1) ∧ sees m db1 ∧
    match m !! k with
    | None => r = inr None
    | Some Foreign => r = inl RWrongType
    | Some (Own es) => ∃ h, r = inr (Some h) ∧ handle_ok h es
    end.
Proof using Hclk.
  intros S. destruct (get_obj_sees t Hclk dl zset_obj_ok m db k S) as (r & db1 & E & S1 & _ & H). unfold getAsZSet. rewrite (run_step _ _ _ _ _ E).
  destruct (m !! k) as [[es|]|] eqn:Hm.
  - destruct H as (v & -> & Hv). destruct (open_zset_sees m db1 k v es S1 Hm Hv) as (h & db2 & E2 & Hh & S2).
    rewrite (run_step _ _ _ _ _ E2), run_mret. eexists _, db2. split; [done|]. split; [done|]. by exists h.
  - subst r. eexists _, db1. by rewrite run_mret.
  - destruct H as [-> _]. eexists _, db1. by rewrite run_mret.
Qed.

Lemma does_with_zset m db k (missing : reply) (f : zset_handle → M O reply) (missing' : Reply) (spec : list Element → zsets * Reply) :
  sees m db → (∀ mem, resolve mem missing = missing') →
  (∀ db1 es h, sees m db1 → m !! k = Some (Own es) → handle_ok h es → does (f h) db1 (spec es)) →
  does (with_zset k missing f) db (on_zset m k missing' spec).
Proof using Hclk.
  intros S Hr Hf. destruct (getAsZSet_sees m db k S) as (r & db1 & E & S1 & H). unfold does, with_zset, gives, on_zset. rewrite (run_step _ _ _ _ _ E).
  destruct (m !! k) as [[es|]|] eqn:Hm.
  - destruct H as (h & -> & Hh). exact (Hf db1 es h S1 eq_refl Hh).
  - subst r. by apply (zdoes_ret m).
  - subst r. by apply (zdoes_ret m).
Qed.

Lemma getOrInitZSet_sees m db k : sees m db → dl_of dl m →
  ∃ r db1, getOrInitZSet k db = Ret (r, db1) ∧
    match m !! k with
    | Some Foreign => r = inl RWrongType ∧ sees m db1
    | s => let es := match s with Some (Own es) => es | _ => [] end in ∃ h, r = inr h ∧ handle_ok h es ∧ sees (<[k := Own es]> m) db1
    end.
Proof using Hclk.
  intros S Hdl. destruct (get_or_init_sees t Hclk dl zset_obj_ok m db k new_zset [] S Hdl) as (r & db1 & E & _ & H); [split; [apply z_ok_new|done]|].
  unfold getOrInitZSet. rewrite (run_step _ _ _ _ _ E). destruct (m !! k) as [[es|]|] eqn:Hm.
  - destruct H as (v & -> & Hv & S1). destruct (open_zset_sees m db1 k v es S1 Hm Hv) as (h & db2 & E2 & Hh & S2).
    exists (inr h), db2. split; [done|]. exists h. by rewrite insert_id.
  - destruct H as [-> S1]. eexists _, db1. by rewrite run_mret.
  - destruct H as [-> S1]. destruct (open_zset_sees _ db1 k new_zset [] S1 (lookup_insert_eq _ _ _)) as (h & db2 & E2 & Hh & S2); [split; [apply z_ok_new|done]|].
    exists (inr h), db2. split; [done|]. by exists h.
Qed.

(** ** Storing *)

Lemma store_zset_sees m db k es h z' es' : sees m db → m !! k = Some (Own es) → ok z' es' → ObjZSet.CurrentEncoding z' = ObjZSet.CurrentEncoding (z_set h) →
  ∃ db', store_zset k h z' db = Ret (tt, db') ∧ sees (<[k := Own es']> m) db'.
Proof.
  intros S Hm Hz He. unfold store_zset, store_z. rewrite <- He.
  destruct (store_obj_sees t dl zset_obj_ok m db k es _ es' S Hm (wrap_ok (z_robj h) z' es' Hz)) as (db' & E & S' & _). by exists db'.
Qed.

(** Storing an object whose encoding may have changed, and the header after it. *)
Lemma store_sync_zset m db k es h z' es' : sees m db → m !! k = Some (Own es) → ok z' es' →
  ∃ db', (store_zset k h z';; syncZSetEncodingAfterWrite k z') db = Ret (tt, db') ∧ sees (<[k := Own es']> m) db'.
Proof using Hclk.
  intros S Hm Hz. unfold store_zset, store_z, store_obj. rewrite run_modify.
  set (v1 := if z_robj h then ZRobj (ObjZSet.CurrentEncoding (z_set h)) (PZSet z') else PlainZSet z'). set (db1 := set_data db (<[k := EObj (inj_obj v1)]> (data db))).
  set (final := if z_robj h then ZRobj (ObjZSet.CurrentEncoding z') (PZSet z') else PlainZSet z').
  destruct (store_obj_sees t dl zset_obj_ok m db k es final es' S Hm (wrap_ok _ _ _ Hz)) as (db2 & E2 & S2 & _). injection E2 as <-.
  assert (Ha : alive t db1 k = Some (EObj (inj_obj v1))).
  { pose proof (sees_slot _ _ _ _ _ S k) as Hk. rewrite Hm in Hk. unfold alive in *. cbn [data ttlMap db1 set_data]. rewrite lookup_insert_eq.
    destruct (ttlMap db !! k) as [d|]; [|done]. destruct (d <? t); [|done]. by destruct (data db !! k). }
  destruct (GetEntity_spec t Hclk k db1) as (db3 & E3 & _ & H3). rewrite Ha in *. destruct H3 as [(Qd & Qt & _ & _ & Qw) _].
  unfold syncZSetEncodingAfterWrite. rewrite (run_step _ _ _ _ _ E3), prj_inj. unfold v1, final in *. destruct (z_robj h).
  - eexists. split; [reflexivity|]. eapply (sees_same t dl zset_obj_ok); [..|exact S2]; cbn [data ttlMap wheel set_data]; [|by rewrite Qt|by rewrite Qw].
    rewrite Qd. cbn [data db1 set_data]. by rewrite insert_insert_eq.
  - exists db3. split; [done|]. eapply (sees_same t dl zset_obj_ok); [..|exact S2]; cbn [data ttlMap wheel set_data]; [by rewrite Qd|by rewrite Qt|by rewrite Qw].
Qed.

(** ** Replies *)

Lemma resolve_elems mem scores es : resolve mem (elems_reply scores es) = elems scores es.
Proof.
  unfold elems_reply, elems. cbn [resolve]. f_equal. induction es as [|e es IH]; [done|]. cbn [mbind list_bind]. rewrite fmap_app, IH. by destruct scores.
Qed.

(** The end of a command that stores the object again. *)
Lemma zdoes_store m db k es (h : zset_handle) z' es' (b : bool) (line : list arg) (r : reply) (out : zsets * Reply) :
  sees m db → m !! k = Some (Own es) → ok z' es' → ObjZSet.CurrentEncoding z' = ObjZSet.CurrentEncoding (z_set h) →
  out.1 = <[k := Own es']> m → (∀ mem, resolve mem r = out.2) → does (store_zset k h z';; when b (addAof line);; mret r) db out.
Proof.
  intros S Hm Hz He Ho Hr. destruct (store_zset_sees m db k es h z' es' S Hm Hz He) as (db1 & E1 & S1). unfold does, gives.
  rewrite (run_step _ _ _ _ _ E1), run_when. destruct b; [rewrite run_addAof|]; apply (zdoes_ret (<[k := Own es']> m)); try done.
  by apply (sees_same t dl zset_obj_ok _ db1).
Qed.

Lemma does_store_sync m db k es (h : zset_handle) z' es' (line : list arg) (r : reply) (out : zsets * Reply) :
  sees m db → m !! k = Some (Own es) → ok z' es' →
  out.1 = <[k := Own es']> m → (∀ mem, resolve mem r = out.2) →
  does (store_zset k h z';; syncZSetEncodingAfterWrite k z';; addAof line;; mret r) db out.
Proof using Hclk.
  intros S Hm Hz Ho Hr. destruct (store_sync_zset m db k es h z' es' S Hm Hz) as (db1 & E1 & S1). unfold does, gives.
  rewrite <- run_assoc, (run_step _ _ _ _ _ E1), run_addAof. apply (zdoes_ret (<[k := Own es']> m)); try done.
  by apply (sees_same t dl zset_obj_ok _ db1).
Qed.

(** ** Reading *)

Local Abbreviation meets o m db := (does (zset_exec T o) db (zset_cmd_spec m o)).

Lemma does_ZScore k x m db : sees m db → meets (OZScore k x) m db.
Proof using Hclk format_parse.
  intros S. unfold zset_exec, execZScore, does, gives. do 2 erewrite run_word by reflexivity.
  apply does_with_zset; [done|done|]. intros db1 es h S1 Hm Hh. unfold does, gives, zset_get. rewrite (ZGet_spec _ _ _ format_parse _ _ _ Hh), run_lift.
  apply (zdoes_ret m); [done|done|]. intros mem. by destruct (zfind x es).
Qed.

Lemma zindex_None x es : zindex x es = None ↔ x ∉ Member <$> es.
Proof using.
  unfold zindex. rewrite fmap_None, list_find_None, Forall_forall. split.
  - intros H (a & -> & Ha)%list_elem_of_fmap. by apply (H a Ha).
  - intros H a Ha <-. apply H. by apply list_elem_of_fmap_2.
Qed.

Lemma zindex_directed x es desc : NoDup (Member <$> es) →
  match zindex x es with Some r => if desc then Z.of_nat (length es) - 1 - Z.of_nat r else Z.of_nat r | None => -1 end =
  match zindex x (directed desc es) with Some i => Z.of_nat i | None => -1 end.
Proof using.
  intros Hd. destruct desc; [|done]. cbn [directed]. destruct (zindex x es) as [r|] eqn:E.
  - unfold zindex in E. apply fmap_Some in E as ([r' a] & E & ->). apply list_find_Some in E as (Hr & <- & _). cbn [fst].
    pose proof (lookup_lt_Some _ _ _ Hr). rewrite (zindex_at (reverse es) (length es - 1 - r') a); [lia|by rewrite fmap_reverse, reverse_Permutation|].
    rewrite reverse_lookup by lia. rewrite <- Hr. f_equal. lia.
  - rewrite (proj2 (zindex_None x (reverse es))); [done|]. apply zindex_None in E. by rewrite fmap_reverse, reverse_Permutation.
Qed.

Lemma does_ZRank k x desc m db : x ≠ [] → sees m db → meets (OZRank k x desc) m db.
Proof using Hclk format_parse.
  intros Hx S. unfold zset_exec. assert (HE : (if desc then execZRevRank (O := O) else execZRank) = rank_with (O := O) desc) by (by destruct desc).
  rewrite HE. unfold rank_with, does, gives. do 2 erewrite run_word by reflexivity.
  apply does_with_zset; [done|done|]. intros db1 es h S1 Hm Hh. unfold does, gives. rewrite (ZRank_spec _ _ _ format_parse _ _ _ _ Hh Hx), run_lift.
  rewrite zindex_directed by apply Hh. apply (zdoes_ret m); [done|done|]. intros mem. destruct (zindex x (directed desc es)) as [i|]; [|done].
  by rewrite (proj2 (Z.ltb_ge _ _)) by lia.
Qed.

Lemma does_ZCard k m db : sees m db → meets (OZCard k) m db.
Proof using Hclk.
  intros S. unfold zset_exec, execZCard, does, gives. erewrite run_word by reflexivity.
  apply does_with_zset; [done|done|]. intros db1 es h S1 Hm Hh. unfold does, gives, zset_len. rewrite (ZLen_spec _ _ _ _ Hh), run_lift. by apply (zdoes_ret m).
Qed.

Lemma range_by_rank_run z es start stop desc db : ok z es → 0 <= start < Z.of_nat (length es) → start <= stop <= Z.of_nat (length es) →
  range_by_rank z start stop desc db = Ret (take (Z.to_nat (stop - start)) (drop (Z.to_nat start) (directed desc es)), db).
Proof using format_parse.
  intros Hz Ha Hb. pose proof (ZRangeByRank_spec _ _ _ format_parse z es (Z.to_nat start) (Z.to_nat stop) desc Hz) as H. rewrite !Z2Nat.id in H by lia.
  unfold range_by_rank. rewrite H, run_lift by lia. rewrite Z2Nat.inj_sub by lia.
  set (l := take _ _). clearbody l. induction l as [|e l IH]; [done|]. cbn [fmap list_fmap forM]. change (fmap (M := list) Some l) with (Some <$> l).
  rewrite run_lift. cbn [must]. by rewrite (run_step _ _ _ _ _ IH).
Qed.

Lemma does_range0 k a b scores desc m db : i64 a → i64 b → for_key m k (λ es, es ≠ []) → sees m db →
  does (range0 k a b scores desc) db (zset_cmd_spec m (OZRange k a b scores desc)).
Proof using Hclk format_parse.
  intros Ha Hb Hne S. unfold range0. apply does_with_zset; [done|done|]. intros db1 es h S1 Hm Hh. unfold for_key in Hne. rewrite Hm in Hne.
  unfold does, gives, zset_len. rewrite (ZLen_spec _ _ _ _ Hh), run_lift. pose proof (lrange_bounds_spec a b (directed desc es)) as HB.
  rewrite length_directed in HB. specialize (HB ltac:(by intros E; apply Hne, nil_length_inv; rewrite <- (length_directed desc), E)).
  destruct (lrange_bounds a b (Z.of_nat (length es))) as [[start stop]|].
  - destruct HB as (Hlt & H1 & H2 & H3). rewrite (proj2 (Z.leb_gt _ _) Hlt), (run_step _ _ _ _ _ (range_by_rank_run (z_set h) es start stop desc db1 Hh H1 H2)), H3.
    apply (zdoes_ret m); [done|done|]. intros mem. apply resolve_elems.
  - rewrite (proj2 (Z.leb_le _ _) HB). by apply (zdoes_ret m).
Qed.

Lemma does_ZRange k a b scores desc m db : ToUpper (str "WITHSCORES") = str "WITHSCORES" → zset_op_ok m (OZRange k a b scores desc) → sees m db →
  meets (OZRange k a b scores desc) m db.
Proof using Hclk format_parse.
  intros Hup (Ha & Hb & Hne) S. unfold zset_exec.
  assert (HE : ∃ arity fold, fold (str "WITHSCORES") = str "WITHSCORES" ∧ (if desc then execZRevRange (O := O) else execZRange) = range_with (O := O) arity fold desc).
  { destruct desc; eexists _, _; [|]; (split; [|reflexivity]); done. }
  destruct HE as (arity & fold & Hf & ->). unfold range_with, does, gives. destruct scores; cbn [app length fmap list_fmap Nat.eqb negb andb].
  - change (ALit k :: _) with (ALit <$> [k; Itoa a; Itoa b; str "WITHSCORES"]). rewrite !run_assoc. erewrite run_word by reflexivity. rewrite run_ret, Hf.
    change (bytes_eqb (str "WITHSCORES") (str "WITHSCORES")) with true. rewrite bool_decide_eq_false_2 by done.
    do 2 erewrite run_word by reflexivity. rewrite ParseInt_Itoa by done. erewrite run_word by reflexivity. rewrite ParseInt_Itoa, bool_decide_eq_true_2 by done.
    by apply does_range0.
  - change (ALit k :: _) with (ALit <$> [k; Itoa a; Itoa b]). rewrite run_ret. rewrite bool_decide_eq_false_2 by done.
    do 2 erewrite run_word by reflexivity. rewrite ParseInt_Itoa by done. erewrite run_word by reflexivity. rewrite ParseInt_Itoa, bool_decide_eq_false_2 by done.
    by apply does_range0.
Qed.

(** ** Ranges by score *)

Lemma two_borders_run parse (err : string) (a b : bytes) db :
  (∀ c, c ≠ [] → ∃ o, parse c = Ret o) → a ≠ [] → b ≠ [] →
  two_borders parse (RErr err) a b db = Ret (match two_borders_spec parse err a b with inl _ => inl (RErr err) | inr p => inr p end, db).
Proof using.
  intros HP Ha Hb. destruct (HP a Ha) as [oa Ea], (HP b Hb) as [ob Eb]. unfold two_borders, two_borders_spec. rewrite Ea, Eb, run_lift.
  destruct oa as [x|]; [|by rewrite run_mret]. rewrite run_lift, run_mret. by destruct ob.
Qed.

Lemma score_border_total c : c ≠ [] → ∃ o, ParseScoreBorder ParseFloat c = Ret o.
Proof using. intros Hc. unfold ParseScoreBorder. destruct c; [done|]. repeat case_match; eauto. Qed.
Lemma lex_border_total c : c ≠ [] → ∃ o, ParseLexBorder c = Ret o.
Proof using. intros Hc. unfold ParseLexBorder. destruct c; [done|]. repeat case_match; eauto. Qed.

(** What is done with two borders by score or by member. *)
Lemma does_score_borders (a b : bytes) (P : Border → Border → Prop) (f : Border → Border → M O reply) m db (spec : Border → Border → zsets * Reply) :
  borders_ok (by_score a b) a b P → sees m db → (∀ min max, P min max → does (f min max) db (spec min max)) →
  does (r ← score_borders a b; match r with inl e => mret e | inr (min, max) => f min max end) db
    (match by_score a b with inl e => (m, e) | inr (min, max) => spec min max end).
Proof using.
  intros (Ha & Hb & HP) S Hf. unfold does, gives, score_borders, score_range_error. rewrite (run_step _ _ _ _ _ (two_borders_run _ _ a b db score_border_total Ha Hb)).
  fold (by_score a b). destruct (by_score a b) as [e|[min max]] eqn:E; [|by apply Hf]. apply (zdoes_ret m); [done|done|]. intros mem.
  unfold by_score, two_borders_spec in E. by repeat case_match; simplify_eq.
Qed.
Lemma does_lex_borders (a b : bytes) (P : Border → Border → Prop) (f : Border → Border → M O reply) m db (spec : Border → Border → zsets * Reply) :
  borders_ok (by_lex a b) a b P → sees m db → (∀ min max, P min max → does (f min max) db (spec min max)) →
  does (r ← lex_borders a b; match r with inl e => mret e | inr (min, max) => f min max end) db
    (match by_lex a b with inl e => (m, e) | inr (min, max) => spec min max end).
Proof using.
  intros (Ha & Hb & HP) S Hf. unfold does, gives, lex_borders, lex_range_error. rewrite (run_step _ _ _ _ _ (two_borders_run _ _ a b db lex_border_total Ha Hb)).
  fold (by_lex a b). destruct (by_lex a b) as [e|[min max]] eqn:E; [|by apply Hf]. apply (zdoes_ret m); [done|done|]. intros mem.
  unfold by_lex, two_borders_spec in E. by repeat case_match; simplify_eq.
Qed.

Lemma for_key_own m k (P : list Element → Prop) es : for_key m k P → m !! k = Some (Own es) → P es.
Proof using. unfold for_key. intros H E. by rewrite E in H. Qed.

Lemma does_count z es min max m db : ok z es → es ≠ [] ∧ cuts min max es → sees m db → does (range_count z min max) db (m, size_reply (zrange min max es)).
Proof using format_parse.
  intros Hz [Hne Hc] S. unfold range_count, does, gives. rewrite (ZCount_spec _ _ _ format_parse _ _ _ _ Hz Hne Hc), run_lift. by apply (zdoes_ret m).
Qed.

Lemma does_ZCount k a b m db : zset_op_ok m (OZCount k a b) → sees m db → meets (OZCount k a b) m db.
Proof using Hclk format_parse.
  intros Ho S. unfold zset_exec, execZCount, does, gives. do 3 erewrite run_word by reflexivity. cbn [zset_cmd_spec].
  eapply (does_score_borders a b _ _ m db (λ min max, on_zset m k (IntReply 0) (λ es, (m, size_reply (zrange min max es))))); [exact Ho|done|].
  intros min max HP. apply does_with_zset; [done|done|]. intros db1 es h S1 Hm Hh. apply does_count; [done|exact (for_key_own _ _ _ _ HP Hm)|done].
Qed.

(** The elements that [Range] finds. *)
Lemma range_run z es min max limit (offset n : Z) desc db : ok z es → readable min max limit es →
  match limit with Some p => p = (offset, n) | None => offset = 0 ∧ (n < 0 ∨ Z.of_nat (length es) <= n) end →
  zset_range z min max offset n desc db = Ret (range_of min max limit desc es, db).
Proof using format_parse.
  intros Hz (Hc & Hi & Hin) HL. assert (Hof : offset = from_option fst 0 limit) by (destruct limit as [p|]; [by rewrite HL|by destruct HL as [-> _]]).
  unfold zset_range, lift. rewrite (ZRange_spec _ _ _ format_parse _ _ _ _ _ _ _ Hz Hc Hi) by (by rewrite Hof). do 2 f_equal.
  assert (HLn : (length (directed desc (zrange min max es)) <= length es)%nat) by (rewrite length_directed; unfold zrange; apply length_filter).
  set (l := directed desc (zrange min max es)) in *. unfold range_of, SortedSetSpec.limited. fold l. destruct limit as [[o' n']|].
  - injection HL as -> ->. destruct (Z.eqb_spec n 0) as [->|]; cbn [orb].
    + destruct (offset <? 0); [done|]. by rewrite take_0.
    + destruct (offset <? 0); [done|]. by rewrite Z.sub_0_r.
  - destruct HL as [-> HL]. rewrite drop_0, Z.sub_0_r. destruct (Z.eqb_spec n 0) as [->|]; cbn [orb Z.ltb].
    + destruct l; [done|cbn in HLn; lia].
    + destruct (Z.ltb_spec n 0); [done|]. by rewrite take_ge by lia.
Qed.

Lemma score_opts_words limit scores : ToUpper (str "WITHSCORES") = str "WITHSCORES" → ToUpper (str "LIMIT") = str "LIMIT" → limit_ok limit →
  score_opts (limit_words "LIMIT" limit ++ (if scores then [str "WITHSCORES"] else [])) 0 (-1) false =
    inr (from_option fst 0 limit, from_option snd (-1) limit, scores).
Proof using.
  intros Hw Hl HL. assert (HS : ∀ o n, score_opts (if scores then [str "WITHSCORES"] else []) o n false = inr (o, n, scores)).
  { intros o n. destruct scores; [|done]. cbn [score_opts]. rewrite Hw. done. }
  destruct limit as [[o n]|]; cbn [limit_words app]; [|by rewrite HS]. destruct HL as [Ho Hn]. cbn [score_opts]. rewrite Hl.
  change (bytes_eqb (str "LIMIT") (str "WITHSCORES")) with false. change (bytes_eqb (str "LIMIT") (str "LIMIT")) with true. cbv iota.
  rewrite !ParseInt_Itoa by done. by rewrite HS.
Qed.

Lemma does_ZRangeByScore k a b limit scores desc m db : ToUpper (str "WITHSCORES") = str "WITHSCORES" → ToUpper (str "LIMIT") = str "LIMIT" →
  zset_op_ok m (OZRangeByScore k a b limit scores desc) → sees m db → meets (OZRangeByScore k a b limit scores desc) m db.
Proof using Hclk format_parse.
  intros Hw Hl (HL & Ho) S. set (opts := limit_words "LIMIT" limit ++ (if scores then [str "WITHSCORES"] else [])).
  assert (HE : ∃ imin imax, zset_exec T (OZRangeByScore k a b limit scores desc) = range_by_score (O := O) imin imax desc (ALit <$> (k :: (if desc then [b; a] else [a; b]) ++ opts)) ∧
    (k :: (if desc then [b; a] else [a; b]) ++ opts) !! imin = Some a ∧ (k :: (if desc then [b; a] else [a; b]) ++ opts) !! imax = Some b).
  { destruct desc; [exists 2%nat, 1%nat|exists 1%nat, 2%nat]; done. }
  destruct HE as (imin & imax & -> & Hmin & Hmax). unfold range_by_score, does, gives. rewrite (proj2 (Nat.ltb_ge _ _)) by (destruct desc; cbn; lia).
  erewrite run_word by reflexivity. rewrite (run_word _ imin a), (run_word _ imax b) by done. cbn [zset_cmd_spec].
  eapply (does_score_borders a b _ _ m db (λ min max, on_zset m k EmptyMultiBulkReply (λ es, (m, elems scores (range_of min max limit desc es))))); [exact Ho|done|].
  intros min max HP. assert (HD : drop 3 (ALit <$> (k :: (if desc then [b; a] else [a; b]) ++ opts)) = ALit <$> opts) by (by destruct desc).
  unfold does, gives. rewrite HD, (run_step _ _ _ _ _ (run_words _ _)). unfold opts. rewrite score_opts_words by done. unfold rangeByScore0.
  apply does_with_zset; [done|done|]. intros db1 es h S1 Hm Hh. unfold does, gives.
  rewrite (run_step _ _ _ _ _ (range_run (z_set h) es min max limit (from_option fst 0 limit) (from_option snd (-1) limit) desc db1 Hh (for_key_own _ _ _ _ HP Hm) ltac:(destruct limit as [[]|]; [done|split; [done|by left]]))).
  apply (zdoes_ret m); [done|done|]. intros mem. apply resolve_elems.
Qed.

(** ** Removing *)

Lemma RemoveRange_keeps z min max z' n : ObjZSet.RemoveRange ParseFloat z min max = Ret (z', n) → ObjZSet.CurrentEncoding z' = ObjZSet.CurrentEncoding z.
Proof using.
  unfold ObjZSet.RemoveRange, ObjZSet.CurrentEncoding. intros E. destruct (isListpack z) eqn:El.
  - destruct (collectSorted _ _); [|done..]. destruct (ObjZSet.listpack z); [|done]. cbn [must mbind res_bind] in E.
    destruct (drop_members _ _); [|done..]. cbn [mbind res_bind] in E. destruct (Pairs.pair_filter _ _); [|done..]. cbn in E. simplify_eq/=. by rewrite ?El.
  - destruct (skiplist_ z); [|done]. cbn [must mbind res_bind] in E. destruct (SortedSet.RemoveRange _ _ _) as [[]| |]; cbn in E; simplify_eq/=. by rewrite ?El.
Qed.
Lemma RemoveByRank_keeps z a b z' n : ObjZSet.RemoveByRank ParseFloat z a b = Ret (z', n) → ObjZSet.CurrentEncoding z' = ObjZSet.CurrentEncoding z.
Proof using.
  unfold ObjZSet.RemoveByRank, ObjZSet.CurrentEncoding. intros E. destruct (isListpack z) eqn:El.
  - destruct (collectSorted _ _) as [es| |]; [|done..]. destruct (ObjZSet.listpack z); [|done]. cbn [must mbind res_bind] in E.
    match type of E with (if ?c then _ else _) = _ => destruct c end; [simplify_eq; by rewrite ?El|].
    destruct (pick _ _ _ _); [|done..]. cbn [mbind res_bind] in E. destruct (Pairs.pair_filter _ _); [|done..]. cbn in E. simplify_eq/=. by rewrite ?El.
  - destruct (skiplist_ z); [|done]. cbn [must mbind res_bind] in E. destruct (SortedSet.RemoveByRank _ _ _) as [[]| |]; cbn in E; simplify_eq/=. by rewrite ?El.
Qed.
Lemma PopMin_keeps z c z' l : ObjZSet.PopMin ParseFloat z c = Ret (z', l) → ObjZSet.CurrentEncoding z' = ObjZSet.CurrentEncoding z.
Proof using.
  unfold ObjZSet.PopMin, ObjZSet.CurrentEncoding. intros E. destruct (isListpack z) eqn:El.
  - destruct (collectSorted _ _) as [es| |]; [|done..]. destruct (ObjZSet.listpack z); [|done]. cbn [must mbind res_bind] in E.
    match type of E with (if ?c then _ else _) = _ => destruct c end; [done|].
    destruct (pick _ _ _ _); [|done..]. cbn [mbind res_bind] in E. destruct (Pairs.pair_filter _ _); [|done..]. cbn in E. simplify_eq/=. by rewrite ?El.
  - destruct (skiplist_ z); [|done]. cbn [must mbind res_bind] in E. destruct (SortedSet.PopMin _ _) as [[]| |]; cbn in E; simplify_eq/=. by rewrite ?El.
Qed.

Lemma does_ZRemRangeByScore k a b m db : zset_op_ok m (OZRemRangeByScore k a b) → sees m db → meets (OZRemRangeByScore k a b) m db.
Proof using Hclk format_parse.
  intros Ho S. unfold zset_exec, execZRemRangeByScore, does, gives. cbn [length fmap list_fmap Nat.eqb negb].
  change [ALit k; ALit a; ALit b] with (ALit <$> [k; a; b]). do 3 erewrite run_word by reflexivity. cbn [zset_cmd_spec].
  eapply (does_score_borders a b _ _ m db (λ min max, on_zset m k EmptyMultiBulkReply (λ es, (<[k := Own (outside min max es)]> m, size_reply (zrange min max es)))));
    [exact Ho|done|].
  intros min max HP. apply does_with_zset; [done|done|]. intros db1 es h S1 Hm Hh. unfold does, gives, remove_range.
  destruct (ZRemRange_spec _ _ _ format_parse _ _ min max Hh (for_key_own _ _ _ _ HP Hm)) as (z' & E & Hz'). rewrite E, run_lift.
  eapply zdoes_store; [done|done|exact Hz'|by eapply RemoveRange_keeps|done|done].
Qed.

Lemma filter_block (A B C : list Element) : NoDup (Member <$> (A ++ B ++ C)) → filter (λ e, Member e ∉ Member <$> B) (A ++ B ++ C) = A ++ C.
Proof using.
  intros Hd. rewrite !fmap_app in Hd. apply NoDup_app in Hd as (_ & HA & (_ & HC & _)%NoDup_app). rewrite !filter_app.
  rewrite (filter_all _ A), (filter_none _ B), (filter_all _ C); [done| | |].
  - intros e He Hb. apply (HC (Member e) Hb). by apply list_elem_of_fmap_2.
  - intros e He Hn. apply Hn. by apply list_elem_of_fmap_2.
  - intros e He Hb. apply (HA (Member e)); [by apply list_elem_of_fmap_2|]. apply elem_of_app. by left.
Qed.

Lemma does_ZRemRangeByRank k a b m db : zset_op_ok m (OZRemRangeByRank k a b) → sees m db → meets (OZRemRangeByRank k a b) m db.
Proof using Hclk format_parse.
  intros (Ha & Hb & Hf) S. unfold zset_exec, execZRemRangeByRank, does, gives. do 2 erewrite run_word by reflexivity. rewrite ParseInt_Itoa by done.
  erewrite run_word by reflexivity. rewrite ParseInt_Itoa by done. apply does_with_zset; [done|done|]. intros db1 es h S1 Hm Hh.
  destruct (for_key_own _ _ _ _ Hf Hm) as [Hne Hsz]. unfold does, gives, zset_len. rewrite (ZLen_spec _ _ _ _ Hh), run_lift.
  pose proof (lrange_bounds_spec a b es Hne) as HB. destruct (lrange_bounds a b (Z.of_nat (length es))) as [[start stop]|].
  - destruct HB as (Hlt & H1 & H2 & H3). rewrite (proj2 (Z.leb_gt _ _) Hlt). rewrite <- H3.
    destruct (ZRemByRank_spec _ _ _ format_parse (z_set h) es start stop Hh) as (z' & E & Hz'); [lia..|].
    rewrite E, run_lift. rewrite <- Z2Nat.inj_sub in * by lia. set (gone := take (Z.to_nat (stop - start)) (drop (Z.to_nat start) es)) in *.
    eapply zdoes_store; [done|done|exact Hz'|by eapply RemoveByRank_keeps| |done]. cbn [fst]. do 2 f_equal.
    assert (Hes : es = take (Z.to_nat start) es ++ gone ++ drop (Z.to_nat stop) es).
    { unfold gone. replace (drop (Z.to_nat stop) es) with (drop (Z.to_nat start + Z.to_nat (stop - start)) es) by (f_equal; lia). by rewrite take3. }
    rewrite Hes at 1. rewrite filter_block; [done|]. rewrite <- Hes. apply Hh.
  - rewrite (proj2 (Z.leb_le _ _) HB). by apply (zdoes_ret m).
Qed.

Lemma does_ZPopMin k n m db : zset_op_ok m (OZPopMin k n) → sees m db → meets (OZPopMin k n) m db.
Proof using Hclk format_parse.
  intros Ho S. cbn [zset_op_ok] in Ho. unfold zset_exec, execZPopMin, does, gives. erewrite run_word by reflexivity. set (words := k :: _).
  assert (Hn : 0 < default 1 n <= max_i64) by (destruct n; cbn; [done|unfold max_i64; lia]).
  assert (HC : ∀ (f : option Z → M O reply), ((if (1 <? length (ALit <$> words))%nat then a1 ← str_at (ALit <$> words) 1; mret (ParseInt a1) else mret (Some 1)) ≫= f) db = f (Some (default 1 n)) db).
  { intros f. destruct n as [n|]; cbn [words length fmap list_fmap Nat.ltb Nat.leb]; [|by rewrite run_ret].
    change [ALit k; ALit (Itoa n)] with (ALit <$> [k; Itoa n]). rewrite run_assoc. erewrite run_word by reflexivity. rewrite run_ret, ParseInt_Itoa by (unfold i64, min_i64; lia). done. }
  rewrite HC. apply does_with_zset; [done|done|]. intros db1 es h S1 Hm Hh.
  destruct (ZPopMin_spec _ _ _ format_parse (z_set h) es (default 1 n) Hh (proj1 Hn)) as (z' & l & E & El & Hz'). unfold does, gives. rewrite run_lift, E, El.
  eapply zdoes_store; [done|done|exact Hz'|by eapply PopMin_keeps|done|]. intros mem. apply resolve_elems.
Qed.

Lemma does_ZRem k ms m db : sees m db → meets (OZRem k ms) m db.
Proof using Hclk.
  intros S. unfold zset_exec, execZRem, does, gives. erewrite run_word by reflexivity. change (drop 1 (ALit <$> (k :: ms))) with (ALit <$> ms).
  rewrite (run_step _ _ _ _ _ (run_words _ _)). apply does_with_zset; [done|done|]. intros db1 es h S1 Hm Hh.
  destruct (remove_run T ms (z_set h) es 0 Hh) as (z' & E & Hz' & He). unfold does, gives. rewrite run_lift, E. by eapply zdoes_store.
Qed.

(** ** Adding *)

Lemma parse_pairs (ps : list (bytes * bytes)) : parse_elements (ps ≫= λ p, [p.1; p.2]) = parsed ps.
Proof using.
  induction ps as [|[w x] ps IH]; [done|]. change (((w, x) :: ps) ≫= (λ p, [p.1; p.2])) with (w :: x :: (ps ≫= λ p, [p.1; p.2])).
  cbn [parse_elements]. rewrite IH. unfold parsed. cbn [mapM fst snd]. destruct (ParseFloat w); [|done]. cbn. by destruct (mapM _ ps).
Qed.

Lemma length_pairs (ps : list (bytes * bytes)) : length (ps ≫= λ p, [p.1; p.2]) = (2 * length ps)%nat.
Proof using. induction ps as [|p ps IH]; [done|]. cbn [mbind list_bind app length] in *. lia. Qed.

Lemma parsed_ok (ps : list (bytes * bytes)) l :
  Forall (λ p, small p.2 ∧ match ParseFloat p.1 with Some s => score_ok s | None => True end) ps → parsed ps = Some l →
  Forall (λ e, score_ok (Score e) ∧ small (Member e)) l.
Proof using.
  intros Hps. revert l. induction Hps as [|[w x] ps [Hx Hw] Hps IH]; intros l E; [injection E as <-; constructor|]. unfold parsed in *. cbn [mapM fst snd] in *.
  destruct (ParseFloat w) as [s|]; [|done]. cbn in E. destruct (mapM _ ps) as [l'|] eqn:El; [|done]. injection E as <-. constructor; [done|]. by apply IH.
Qed.

Lemma does_ZAdd k ps m db : zset_op_ok m (OZAdd k ps) → dl_of dl m → sees m db → meets (OZAdd k ps) m db.
Proof using Hclk format_parse format_small.
  intros Ho Hdl S. cbn [zset_op_ok] in Ho. cbn [zset_exec zset_cmd_spec]. set (words := k :: (ps ≫= λ p, [p.1; p.2])). set (line := ToCmdLine3 "zadd" (ALit <$> words)). unfold execZAdd, does, gives.
  rewrite length_fmap. cbn [length words]. rewrite length_pairs. replace (Z.rem (Z.of_nat (Datatypes.S (2 * length ps))) 2) with 1
    by (rewrite Z.rem_mod_nonneg by lia; replace (Z.of_nat (Datatypes.S (2 * length ps))) with (1 + Z.of_nat (length ps) * 2) by lia; by rewrite Z_mod_plus_full).
  change (negb (1 =? 1)) with false. cbv iota. erewrite run_word by reflexivity. change (drop 1 (ALit <$> words)) with (ALit <$> (ps ≫= λ p, [p.1; p.2])).
  rewrite (run_step _ _ _ _ _ (run_words _ _)), parse_pairs. destruct (parsed ps) as [l|] eqn:El; [|by apply (zdoes_ret m)].
  pose proof (parsed_ok ps l Ho El) as Hl. destruct (getOrInitZSet_sees m db k S Hdl) as (r & db1 & E & H). rewrite (run_step _ _ _ _ _ E).
  assert (HA : ∀ es h, handle_ok h es → sees (<[k := Own es]> m) db1 →
    does ('(z, added) ← add_elements T l (z_set h) 0; store_zset k h z;; syncZSetEncodingAfterWrite k z;; addAof line;; mret (RInt added)) db1
      (<[k := Own (zadd_all l es)]> m, IntReply (Z.of_nat (size (member_set l ∖ member_set es))))).
  { intros es h Hh S1. destruct (add_elements_run T format_parse format_small l (z_set h) es 0 db1 Hh Hl) as (z' & n & E1 & Hz'). unfold does, gives.
    rewrite (run_step _ _ _ _ _ E1). eapply does_store_sync; [by apply (sees_same t dl zset_obj_ok _ db1)|apply lookup_insert_eq|exact Hz'| |done]. cbn [fst]. by rewrite insert_insert_eq. }
  destruct (m !! k) as [[es|]|].
  - destruct H as (h & -> & Hh & S1). by apply HA.
  - destruct H as [-> S1]. by apply (zdoes_ret m).
  - destruct H as (h & -> & Hh & S1). by apply HA.
Qed.

Lemma does_ZIncrBy k delta x m db : zset_op_ok m (OZIncrBy k delta x) → dl_of dl m → sees m db → meets (OZIncrBy k delta x) m db.
Proof using Hclk format_parse format_small.
  intros [Hx Ho] Hdl S. cbn [zset_exec zset_cmd_spec]. set (line := ToCmdLine3 "zincrby" (ALit <$> [k; delta; x])). unfold execZIncrBy, does, gives. do 3 erewrite run_word by reflexivity.
  destruct (ParseFloat delta) as [d|]; [|by apply (zdoes_ret m)]. destruct Ho as [Hd Ho]. destruct (getOrInitZSet_sees m db k S Hdl) as (r & db1 & E & H). rewrite (run_step _ _ _ _ _ E).
  assert (HA : ∀ es h, handle_ok h es → sees (<[k := Own es]> m) db1 → match zfind x es with Some a => score_ok (fadd (Score a) d) | None => True end →
    does (old ← zset_get (z_set h) x; '(z, _) ← zset_add T (z_set h) x (match old with Some s => fadd s d | None => d end);
          store_zset k h z;; syncZSetEncodingAfterWrite k z;; addAof line;;
          match old with None => a1 ← arg_at (ALit <$> [k; delta; x]) 1; mret (RBulk a1) | Some _ => mret (RBulk (ALit (FormatFloat (match old with Some s => fadd s d | None => d end)))) end) db1
      (match zfind x es with
       | None => (<[k := Own (zadd x d es)]> m, BulkReply (Some delta))
       | Some a => (<[k := Own (zadd x (fadd (Score a) d) es)]> m, BulkReply (Some (FormatFloat (fadd (Score a) d))))
       end)).
  { intros es h Hh S1 Hs. unfold does, gives, zset_get. rewrite (ZGet_spec _ _ _ format_parse _ _ _ Hh), run_lift.
    destruct (zfind x es) as [a|] eqn:Ea; cbn [fmap option_fmap option_map].
    - destruct (zset_add_run T format_parse format_small (z_set h) es x (fadd (Score a) d) db1 Hh Hs Hx) as (z' & n & E1 & Hz'). rewrite (run_step _ _ _ _ _ E1).
      eapply does_store_sync; [by apply (sees_same t dl zset_obj_ok _ db1)|apply lookup_insert_eq|exact Hz'| |done]. cbn [fst]. by rewrite insert_insert_eq.
    - destruct (zset_add_run T format_parse format_small (z_set h) es x d db1 Hh Hd Hx) as (z' & n & E1 & Hz'). rewrite (run_step _ _ _ _ _ E1).
      eapply (does_store_sync _ _ _ _ _ _ _ line (RBulk (ALit delta))); [by apply (sees_same t dl zset_obj_ok _ db1)|apply lookup_insert_eq|exact Hz'| |done]. cbn [fst]. by rewrite insert_insert_eq. }
  unfold for_key in Ho. destruct (m !! k) as [[es|]|].
  - destruct H as (h & -> & Hh & S1). by apply HA.
  - destruct H as [-> S1]. by apply (zdoes_ret m).
  - destruct H as (h & -> & Hh & S1). by apply (HA []).
Qed.

(** ** Ranges by member *)

Lemma does_ZLexCount k a b m db : zset_op_ok m (OZLexCount k a b) → sees m db → meets (OZLexCount k a b) m db.
Proof using Hclk format_parse.
  intros Ho S. unfold zset_exec, execZLexCount, does, gives. erewrite run_word by reflexivity. apply does_with_zset; [done|done|]. intros db1 es h S1 Hm Hh.
  unfold does, gives. do 2 erewrite run_word by reflexivity.
  eapply (does_lex_borders a b _ _ m db1 (λ min max, (m, size_reply (zrange min max es)))); [exact Ho|done|].
  intros min max HP. apply does_count; [done|exact (for_key_own _ _ _ _ HP Hm)|done].
Qed.

Lemma does_ZRemRangeByLex k a b m db : zset_op_ok m (OZRemRangeByLex k a b) → sees m db → meets (OZRemRangeByLex k a b) m db.
Proof using Hclk format_parse.
  intros Ho S. unfold zset_exec, execZRemRangeByLex, does, gives. cbn [length fmap list_fmap Nat.eqb negb]. change [ALit k; ALit a; ALit b] with (ALit <$> [k; a; b]).
  erewrite run_word by reflexivity. apply does_with_zset; [done|done|]. intros db1 es h S1 Hm Hh. unfold does, gives. do 2 erewrite run_word by reflexivity.
  eapply (does_lex_borders a b _ _ m db1 (λ min max, (<[k := Own (outside min max es)]> m, size_reply (zrange min max es)))); [exact Ho|done|].
  intros min max HP. unfold does, gives, remove_range.
  destruct (ZRemRange_spec _ _ _ format_parse _ _ min max Hh (for_key_own _ _ _ _ HP Hm)) as (z' & E & Hz'). rewrite E, run_lift.
  destruct (store_zset_sees m db1 k es h z' _ S1 Hm Hz') as (db2 & E2 & S2); [by eapply RemoveRange_keeps|]. rewrite (run_step _ _ _ _ _ E2). by apply (zdoes_ret (<[k := Own (outside min max es)]> m)).
Qed.

Lemma lex_limit_run (w : list bytes) limit db : length w = 3%nat → match limit with Some (offset, n) => 0 <= offset <= max_i64 ∧ i64 n | None => True end →
  lex_limit (O := O) (ALit <$> (w ++ limit_words "limit" limit)) db =
    Ret (inr (match limit with Some (o, n) => (o, if 0 <=? n then n else max_i64) | None => (0, max_i64) end), db).
Proof using.
  intros Hw HL. destruct w as [|w1 [|w2 [|w3 [|? ?]]]]; try done. unfold lex_limit. destruct limit as [[o n]|]; cbn [limit_words app length fmap list_fmap Nat.ltb Nat.leb].
  - change (ALit w1 :: _) with (ALit <$> [w1; w2; w3; str "limit"; Itoa o; Itoa n]). destruct HL as [Ho Hn]. erewrite run_word by reflexivity.
    rewrite ParseInt_Itoa by (unfold i64, min_i64; lia). rewrite (proj2 (Z.ltb_ge o 0)) by lia. erewrite run_word by reflexivity. rewrite ParseInt_Itoa by done. by rewrite run_mret.
  - by rewrite run_mret.
Qed.

Lemma does_ZRangeByLex k a b limit desc m db : ToLower (str "limit") = str "limit" → zset_op_ok m (OZRangeByLex k a b limit desc) → sees m db →
  meets (OZRangeByLex k a b limit desc) m db.
Proof using Hclk format_parse.
  intros Hlow (HL & Ho) S. set (ab := if desc then [b; a] else [a; b]).
  assert (HE : ∃ imin imax, zset_exec T (OZRangeByLex k a b limit desc) = range_by_lex (O := O) imin imax desc (ALit <$> ((k :: ab) ++ limit_words "limit" limit)) ∧
    ((k :: ab) ++ limit_words "limit" limit) !! imin = Some a ∧ ((k :: ab) ++ limit_words "limit" limit) !! imax = Some b).
  { unfold ab. destruct desc; [exists 2%nat, 1%nat|exists 1%nat, 2%nat]; done. }
  assert (Hab : length (k :: ab) = 3%nat) by (unfold ab; by destruct desc).
  destruct HE as (imin & imax & -> & Hmin & Hmax). unfold range_by_lex, does, gives. set (words := (k :: ab) ++ limit_words "limit" limit) in *.
  assert (Hopt : ∀ f : bool → M O reply, ((if (3 <? length (ALit <$> words))%nat then a3 ← str_at (ALit <$> words) 3; mret (bytes_eqb (ToLower a3) (str "limit")) else mret true) ≫= f) db = f true db).
  { intros f. unfold words. rewrite length_fmap, length_app, Hab. destruct limit as [[o n]|]; cbn [limit_words length Nat.add Nat.ltb Nat.leb]; [|by rewrite run_ret].
    rewrite run_assoc, (run_word _ 3 (str "limit")) by (by rewrite lookup_app_r, Hab by lia). by rewrite run_ret, Hlow. }
  rewrite Hopt. cbn [negb]. assert (Hlen : length words = 3%nat ∨ length words = 6%nat) by (unfold words; rewrite length_app, Hab; destruct limit as [[]|]; cbn; lia).
  rewrite length_fmap. assert (Hb : negb (length words =? 3)%nat && negb (length words =? 6)%nat = false) by (by destruct Hlen as [-> | ->]). rewrite Hb. cbv iota.
  erewrite run_word by reflexivity. apply does_with_zset; [done|done|]. intros db1 es h S1 Hm Hh. unfold does, gives. rewrite (run_word _ imin a), (run_word _ imax b) by done.
  eapply (does_lex_borders a b _ _ m db1 (λ min max, (m, match range_of min max limit desc es with [] => EmptyMultiBulkReply | l => elems false l end))); [exact Ho|done|].
  intros min max HP. destruct (for_key_own _ _ _ _ HP Hm) as [HR Hsz]. unfold does, gives. unfold words. rewrite (run_step _ _ _ _ _ (lex_limit_run (k :: ab) limit db1 Hab HL)).
  destruct (match limit with Some (o, n) => (o, if 0 <=? n then n else max_i64) | None => (0, max_i64) end) as [offset cnt] eqn:Ep.
  assert (HR' : zset_range (z_set h) min max offset cnt desc db1 = Ret (range_of min max limit desc es, db1)).
  { destruct limit as [[o n]|]; injection Ep as <- <-; [|by apply range_run; [..|split; [done|lia]]].
    destruct (Z.leb_spec 0 n); [by apply range_run|]. destruct HR as (Hc & Hi & Hin).
    rewrite (range_run (z_set h) es min max (Some (o, max_i64)) o max_i64 desc db1 Hh) by done. do 2 f_equal. cbn [range_of]. destruct (o <? 0); [done|].
    rewrite (proj2 (Z.ltb_lt n 0)) by lia. change (max_i64 <? 0) with false. cbv iota. apply take_ge. rewrite length_drop, length_directed.
    pose proof (length_filter (λ e, SortedSetSpec.inr min max e = true) es). unfold zrange. lia. }
  rewrite (run_step _ _ _ _ _ HR'). apply (zdoes_ret m); [done|done|]. intros mem. destruct (range_of min max limit desc es) as [|e l]; [done|]. apply resolve_elems.
Qed.

(** ** ZMPOP *)

Lemma filter_popped (max : bool) (n : nat) es : NoDup (Member <$> es) →
  filter (λ e, Member e ∉ Member <$> take n (directed max es)) es = zmpop_rest max n es.
Proof using.
  intros Hd. destruct max; cbn [directed zmpop_rest].
  - rewrite take_reverse. set (j := (length es - n)%nat).
    rewrite (list_filter_iff _ (λ e, Member e ∉ Member <$> drop j es)) by (intros e; by rewrite fmap_reverse, elem_of_reverse).
    pose proof (filter_block (take j es) (drop j es) []) as HF. rewrite !app_nil_r, take_drop in HF. by apply HF.
  - pose proof (filter_block [] (take n es) (drop n es)) as HF. cbn [app] in HF. rewrite take_drop in HF. by apply HF.
Qed.

Lemma does_zmpop_from k h es (max : bool) (n : Z) (args : list arg) m db : handle_ok h es → es ≠ [] → 0 < n → m !! k = Some (Own es) → sees m db →
  does (zmpop_from max n args k h (Z.of_nat (length es))) db
    (if decide (zmpop_rest max (Z.to_nat n) es = []) then delete k m else <[k := Own (zmpop_rest max (Z.to_nat n) es)]> m,
     MultiRawReply [BulkReply (Some k);
       MultiRawReply ((λ e, MultiRawReply [BulkReply (Some (Member e)); BulkReply (Some (FormatFloat (Score e)))]) <$> take (Z.to_nat n) (directed max es))]).
Proof using Hclk format_parse.
  intros Hh Hne Hn Hm HS. unfold zmpop_from, does, gives. set (len := Z.of_nat (length es)). assert (Hlen : 0 < len) by (unfold len; destruct es; [done|cbn; lia]).
  set (c := if len <? n then len else n). assert (Hc : 0 < c <= len) by (unfold c; destruct (Z.ltb_spec len n); lia).
  rewrite (run_step _ _ _ _ _ (range_by_rank_run (z_set h) es 0 c max db Hh ltac:(lia) ltac:(lia))). rewrite Z.sub_0_r, drop_0.
  assert (Htk : take (Z.to_nat c) (directed max es) = take (Z.to_nat n) (directed max es)).
  { unfold c. destruct (Z.ltb_spec len n); [|done]. rewrite !take_ge by (rewrite length_directed; lia). done. }
  rewrite Htk. set (slice := take (Z.to_nat n) (directed max es)).
  destruct (remove_run T (Member <$> slice) (z_set h) es 0 Hh) as (z' & E & Hz' & _). rewrite run_lift, E. unfold slice in Hz'. rewrite filter_popped in Hz' by apply Hh.
  set (rest := zmpop_rest max (Z.to_nat n) es) in *. destruct (store_sync_zset m db k es h z' rest HS Hm Hz') as (db1 & E1 & S1).
  rewrite <- run_assoc, (run_step _ _ _ _ _ E1). unfold zset_len. rewrite (ZLen_spec _ _ _ _ Hz'), run_lift, run_when.
  assert (HR : ∀ mem, resolve mem (RRaw [RBulk (ALit k); RRaw (zmpop_elem <$> slice)]) = MultiRawReply [BulkReply (Some k);
    MultiRawReply ((λ e, MultiRawReply [BulkReply (Some (Member e)); BulkReply (Some (FormatFloat (Score e)))]) <$> slice)]).
  { intros mem. cbn. do 4 f_equal. rewrite <- list_fmap_compose. done. }
  destruct (decide (rest = [])) as [Hr|Hr].
  - rewrite Hr. change (Z.of_nat (length []) =? 0) with true. cbv iota. destruct (Remove_sees t dl zset_obj_ok _ db1 k S1) as (db2 & E2 & S2 & _).
    rewrite (run_step _ _ _ _ _ E2), run_addAof. rewrite delete_insert_eq in S2. apply (zdoes_ret (delete k m)); [by apply (sees_same t dl zset_obj_ok _ db2)|done|exact HR].
  - rewrite (proj2 (Z.eqb_neq _ _)) by (intros H0; apply Hr, nil_length_inv; lia). rewrite run_addAof.
    apply (zdoes_ret (<[k := Own rest]> m)); [by apply (sees_same t dl zset_obj_ok _ db1)|done|exact HR].
Qed.

Lemma does_zmpop_keys (max : bool) (n : Z) (args : list arg) (ks : list bytes) m db : 0 < n → sees m db →
  does (zmpop_keys max n args (ALit <$> ks)) db (zmpop_spec m max (Z.to_nat n) ks).
Proof using Hclk format_parse.
  intros Hn. revert db. induction ks as [|k ks IH]; intros db HS; [by apply (zdoes_ret m)|]. cbn [fmap list_fmap zmpop_keys zmpop_spec]. unfold does, gives.
  rewrite run_string_of. cbn [arg_str]. destruct (getAsZSet_sees m db k HS) as (r & db1 & E & S1 & H). rewrite (run_step _ _ _ _ _ E).
  destruct (m !! k) as [[es|]|] eqn:Hm.
  - destruct H as (h & -> & Hh). unfold zset_len. rewrite (ZLen_spec _ _ _ _ Hh), run_lift. destruct es as [|e es]; [by apply IH|].
    rewrite (proj2 (Z.eqb_neq _ _)) by (cbn; lia). by apply (does_zmpop_from k h (e :: es)).
  - subst r. by apply (zdoes_ret m).
  - subst r. by apply IH.
Qed.

Lemma does_ZMPop ks max count m db : (∀ w, w ∈ ["MIN"; "MAX"; "COUNT"]%string → ToUpper (str w) = str w) → zset_op_ok m (OZMPop ks max count) → sees m db →
  meets (OZMPop ks max count) m db.
Proof using Hclk format_parse format_small.
  intros Hup (Hne & Hks & Hcnt) HS. cbn [zset_exec zset_cmd_spec]. set (dir := str (if max then "MAX" else "MIN")).
  set (opt := match count with Some n => [str "COUNT"; Itoa n] | None => [] end).
  set (words := Itoa (Z.of_nat (length ks)) :: ks ++ dir :: opt). set (n := Z.of_nat (length ks)) in *.
  assert (Hn : 0 < n) by (unfold n; destruct ks; [done|cbn; lia]).
  assert (Hlen : length (ALit <$> words) = (2 + length ks + length opt)%nat) by (unfold words; rewrite length_fmap; cbn; rewrite length_app; cbn; lia).
  assert (Hw : ∀ i, words !! S (length ks + i) = (dir :: opt) !! i).
  { intros i. change (words !! S (length ks + i)) with ((ks ++ dir :: opt) !! (length ks + i)%nat). rewrite lookup_app_r by lia. f_equal. lia. }
  unfold execZMPop, does, gives. rewrite (proj2 (Nat.ltb_ge _ _)) by lia. erewrite (run_word words) by reflexivity.
  rewrite ParseInt_Itoa by (unfold i64, min_i64; lia). rewrite (proj2 (Z.ltb_ge n 1)) by lia. rewrite !wrap64_id by (unfold i64, min_i64; lia).
  rewrite Hlen, (proj2 (Z.ltb_ge _ _)) by lia. unfold str_atZ at 1. rewrite (proj2 (Z.ltb_ge _ 0)) by lia.
  rewrite (run_word words _ dir) by (replace (Z.to_nat (1 + n)) with (S (length ks + 0)) by lia; by rewrite Hw).
  assert (Hd : ToUpper dir = dir) by (unfold dir; destruct max; apply Hup; set_solver). rewrite Hd.
  assert (Hb : negb (bytes_eqb dir (str "MIN")) && negb (bytes_eqb dir (str "MAX")) = false ∧ bytes_eqb dir (str "MAX") = max) by (unfold dir; by destruct max).
  destruct Hb as [-> ->].
  assert (HL : lmpop_count (ALit <$> words) (2 + n) db = Ret (inr (default 1 count), db)).
  { unfold lmpop_count. rewrite Hlen. destruct count as [c|]; unfold opt.
    - rewrite (proj2 (Z.ltb_lt _ _)) by (cbn; lia). unfold str_atZ. rewrite !(proj2 (Z.ltb_ge _ 0)) by lia.
      rewrite (run_word words _ (str "COUNT")) by (replace (Z.to_nat (2 + n)) with (S (length ks + 1)) by lia; by rewrite Hw).
      rewrite Hup by set_solver. change (bytes_eqb (str "COUNT") (str "COUNT")) with true. cbv iota. rewrite (proj2 (Z.leb_gt _ _)) by (cbn; lia).
      rewrite (run_word words _ (Itoa c)) by (replace (Z.to_nat (2 + n + 1)) with (S (length ks + 2)) by lia; by rewrite Hw).
      rewrite ParseInt_Itoa by (unfold i64, min_i64; lia). rewrite (proj2 (Z.ltb_ge c 1)) by lia. by rewrite run_mret.
    - rewrite (proj2 (Z.ltb_ge _ _)) by (cbn; lia). done. }
  rewrite (run_step _ _ _ _ _ HL).
  assert (HT : take (Z.to_nat n) (drop 1 (ALit <$> words)) = ALit <$> ks).
  { change (drop 1 (ALit <$> words)) with (ALit <$> (ks ++ dir :: opt)). rewrite <- fmap_take. unfold n. by rewrite Nat2Z.id, take_app_length. }
  rewrite HT. apply does_zmpop_keys; [|done]. destruct count; cbn; lia.
Qed.

(** ** All commands *)

(** Upper and lower case of the option words. *)
Definition words_ok : Prop :=
  (∀ w, w ∈ ["MIN"; "MAX"; "COUNT"; "LIMIT"; "WITHSCORES"]%string → ToUpper (str w) = str w) ∧ ToLower (str "limit") = str "limit".

Lemma does_zset_op o m db : words_ok → zset_op_ok m o → dl_of dl m → sees m db → meets o m db.
Proof using Hclk format_parse format_small.
  intros [Hup Hlow] Ho Hdl HS. destruct o.
  - by apply does_ZAdd. - by apply does_ZIncrBy. - by apply does_ZScore. - by apply does_ZRank. - by apply does_ZCard.
  - apply does_ZRange; [apply Hup; set_solver|done..]. - by apply does_ZCount. - apply does_ZRangeByScore; [apply Hup; set_solver..|done|done].
  - by apply does_ZRemRangeByScore. - by apply does_ZRemRangeByRank. - by apply does_ZPopMin. - by apply does_ZRem. - by apply does_ZLexCount.
  - by apply does_ZRangeByLex. - by apply does_ZRemRangeByLex. - apply does_ZMPop; [|done..]. intros w Hw. apply Hup. set_solver.
Qed.

End commands.

Section sequences.
Context {O : Type} `{!Objects O} `{!ObjOf O zset_obj} {env : Env} {rt : Runtime} {zchoices : ZChoices} (T : EncodingThresholds).
Hypothesis format_parse : ∀ s, score_ok s → ParseFloat (FormatFloat s) = Some s.
Hypothesis format_small : ∀ s, score_ok s → small (FormatFloat s).

Definition zset_exec_at (t : Z) (o : zset_op) : M O reply := zset_exec (env := at_time t env) T o.
Definition zset_spec_at (t : Z) : zsets → zset_op → zsets * Reply := zset_cmd_spec.
(** Each command is within the limits when it comes. *)
Definition zset_ops_ok : snapshot (list Element) → list (Z * zset_op) → Prop := timed_ok (steps_of zset_spec_at) keeps_all (λ _, zset_op_ok).

(** C7: Sorted-set commands behave as operations on ordered lists, while time passes.  Take any sequence of ZADD, ZINCRBY, ZSCORE, ZRANK, ZREVRANK,
    ZCARD, ZRANGE, ZREVRANGE, ZCOUNT, ZRANGEBYSCORE, ZREVRANGEBYSCORE, ZREMRANGEBYSCORE, ZREMRANGEBYRANK, ZPOPMIN, ZREM, ZLEXCOUNT, ZRANGEBYLEX,
    ZREVRANGEBYLEX, ZREMRANGEBYLEX and ZMPOP, each at a time that is not before that of the one before it (all the readings of the clock within one
    command agree) and within the limits of [zset_op_ok]: scores and sums of scores are numbers other than negative zero, a rank is asked of a member
    that is not empty, the sets whose ranges are read by rank or counted are not empty, borders are texts that are not empty, suit the order of the
    elements and are not refused as a range without elements, an offset stays inside the range, and numbers of elements to pop are positive.  Every
    command returns, and replies and effects are those of the operations on a map from keys to lists of members in the order of score and member, from
    which, before each command, the keys have gone whose deadline has passed, with texts that are no numbers and values of other types refused,
    whatever the encodings, the thresholds and the heights of the nodes.  A key keeps its deadline as long as it stays.  The header of every sorted
    set tells the encoding it has. *)
Theorem zset_commands_refine_lists os t v (db : DB O) :
  words_ok → sees t v.2 (zset_obj_ok T) v.1 db → forward_in_time t os → zset_ops_ok v os →
  ∃ db', timed_run zset_exec_at os db = Ret ((timed_spec zset_spec_at v os).2, db') ∧
    sees (last_time t os) (timed_spec zset_spec_at v os).1.2 (zset_obj_ok T) (timed_spec zset_spec_at v os).1.1 db'.
Proof using format_parse format_small.
  intros Hw HS Hin Ho.
  destruct (timed_run_meets (steps_of zset_spec_at) keeps_all (λ _, zset_obj_ok T) zset_exec_at (λ t t' x a _ H, H) (λ _, zset_op_ok) os t v db)
    as (rs & db' & v' & E & HT & S'); try done.
  - intros t1 m dl o db1 Ho1 Hdl S1. exact (does_zset_op (env := at_time t1 env) t1 (λ _, eq_refl) dl T format_parse format_small o m db1 Hw Ho1 Hdl S1).
  - apply timed_steps_spec in HT. rewrite <- HT. by exists db'.
Qed.
End sequences.

(** ** Concrete runs *)

(** The runtime of the other runs, with the float codec of [ObjZSetThm.v]. *)
#[local] Instance z_runtime : Runtime :=
  {| ToLower := @ToLower ex_runtime; ToUpper := @ToUpper ex_runtime; ParseFloat := parse8; Nanos := @Nanos ex_runtime; codec_Encode := @codec_Encode ex_runtime;
     FormatFloat := fmt8; newcap := @newcap ex_runtime; max_make := @max_make ex_runtime |}.
#[local] Instance just_zsets : Objects zset_obj := {| obj_type := λ _, TypeZSet; obj_elems := λ _, [] |}.
#[local] Instance zset_of_zset : ObjOf zset_obj zset_obj.
Proof. refine {| inj_obj := λ x, x; prj_obj := λ x, Some x |}; [done|]. by intros o x [= ->]. Defined.
#[local] Instance z_env : Env :=
  {| clock := λ _, 0; draw := λ _ _, false; MaxmemoryPolicy := []; ParseIntError := λ _, []; ValueDigest := λ b, b |}.
#[local] Instance z_choices : ZChoices :=
  {| node_rnds := λ n i, Z.of_nat (7 * n + i); zmap_order := λ _ ss, (map_to_list (dict ss)).*1; zcompile := λ _, Some (λ _, true); FormatFloat10 := fmt8 |}.

Definition no_zsets : DB zset_obj := MkDB 0 ∅ ∅ ∅ ∅ (MkTimeWheel Second [[]; []; []; []] ∅ 0 4 0) [] [] [] 0 0.

Definition t1 : bytes := fmt8 f1.
Definition t2 : bytes := fmt8 f2.
Definition t3 : bytes := fmt8 f3.

(** The key [e] holds an empty set and has a deadline, at the time 5. *)
Definition dated_zsets : DB zset_obj := set_ttl (set_data no_zsets {[str "e" := EObj new_zset]}) {[str "e" := 5]}.
Definition dated_zset_view : snapshot (list Element) := ({[str "e" := Own []]}, {[str "e" := 5]}).

Lemma dated_zsets_seen : sees (T := zset_obj) 0 dated_zset_view.2 (zset_obj_ok tiny) dated_zset_view.1 dated_zsets.
Proof.
  split; [by apply (New_wf Second 4)| | |].
  - intros k d. cbn [ttlMap data dated_zsets set_ttl set_data]. intros [<- _]%lookup_singleton_Some. by rewrite lookup_singleton_eq.
  - intros k. unfold alive. cbn [dated_zset_view fst ttlMap data dated_zsets set_ttl set_data]. destruct (decide (k = str "e")) as [->|Hne].
    + rewrite !lookup_singleton_eq. exists new_zset. split; [done|]. split; [apply z_ok_new|done].
    + by rewrite !lookup_singleton_ne by done.
  - intros k _. done.
Qed.

(** The third member takes the set over the limit of the compact encoding. *)
Definition zset_ops : list (Z * zset_op) :=
  [(0, OZAdd (str "a") [(t2, str "x"); (t1, str "y")]); (0, OZRank (str "a") (str "x") true); (1, OZAdd (str "a") [(t3, str "z"); (t1, str "x")]); (1, OZIncrBy (str "a") t1 (str "x"));
   (2, OZScore (str "a") (str "x")); (2, OZRange (str "a") 0 (-1) true true); (3, OZCount (str "a") t2 (str "inf")); (3, OZRangeByScore (str "a") t1 t3 (Some (1, 1)) true false);
   (4, OZAdd (str "e") [(t1, str "u")]); (5, OZScore (str "e") (str "u")); (6, OZScore (str "e") (str "u")); (6, OZAdd (str "e") [(t2, str "u")]); (9, OZCard (str "e"));
   (9, OZRem (str "a") [str "y"; str "q"]); (9, OZMPop [str "none"; str "a"] true (Some 5)); (9, OZCard (str "a")); (9, OZAdd (str "b") [(t1, str "u"); (t1, str "v"); (t1, str "w")]);
   (9, OZRangeByLex (str "b") (str "[u") (str "(w") None true); (9, OZRemRangeByRank (str "b") (-1) (-1)); (9, OZPopMin (str "b") None); (9, OZRemRangeByLex (str "b") (str "-") (str "+"))].

(** Whether concrete operations are within the limits is computed. *)
#[local] Instance elt_dec a b : Decision (elt a b).
Proof. unfold elt. apply _. Defined.
#[local] Instance cuts_dec min max es : Decision (cuts min max es).
Proof.
  refine (cast_if (decide (Forall (λ a, Forall (λ b, elt a b → (less min a = true → less min b = true) ∧ (greater max b = true → greater max a = true)) es) es))).
  - intros a b Ha Hb. rewrite Forall_forall in f. specialize (f a Ha). rewrite Forall_forall in f. by apply f.
  - intros HC. apply n. apply Forall_forall. intros a Ha. apply Forall_forall. intros b Hb. by apply HC.
Defined.
#[local] Instance res_bool_dec : EqDecision (res bool).
Proof. solve_decision. Defined.
#[local] Instance for_key_dec m k P : (∀ es, Decision (P es)) → Decision (for_key m k P).
Proof. intros HP. unfold for_key. destruct (m !! k) as [[es|]|]; apply _. Defined.
#[local] Instance borders_ok_dec bs a b P : (∀ x y, Decision (P x y)) → Decision (borders_ok bs a b P).
Proof. intros HP. unfold borders_ok. destruct bs as [|[min max]]; apply _. Defined.
#[local] Instance option_match_dec {A} (o : option A) (P : A → Prop) : (∀ a, Decision (P a)) → Decision (match o with Some a => P a | None => True end).
Proof. intros HP. destruct o; apply _. Defined.
#[local] Instance zset_op_ok_dec m o : Decision (zset_op_ok m o).
Proof.
  destruct o; cbn [zset_op_ok]; unfold readable, limit_ok, score_ok, small, i64.
  all: try apply _.
  all: try (destruct limit as [[]|]; apply _).
Defined.
Fixpoint zset_ops_okb (v : snapshot (list Element)) (os : list (Z * zset_op)) : bool :=
  match os with
  | [] => true
  | (t, o) :: os => bool_decide (zset_op_ok (advance t v).1 o) && zset_ops_okb ((zset_cmd_spec (advance t v).1 o).1, (advance t v).2) os
  end.
Lemma zset_ops_decide v os : zset_ops_okb v os = true → zset_ops_ok v os.
Proof.
  unfold zset_ops_ok. revert v. induction os as [|[t o] os IH]; intros v; [done|]. cbn [zset_ops_okb timed_ok]. intros [Ho%bool_decide_eq_true Hos]%andb_prop. split; [done|].
  intros m r Hs. apply IH. unfold steps_of, zset_spec_at in Hs. by rewrite <- Hs in Hos.
Qed.

Lemma zset_commands_refine_lists_witness :
  take 5 (drop 8 (timed_spec zset_spec_at dated_zset_view zset_ops).2) = [IntReply 1; BulkReply (Some t1); NullBulkReply; IntReply 1; IntReply 1] ∧
  ∃ db', timed_run (zset_exec_at tiny) zset_ops dated_zsets = Ret ((timed_spec zset_spec_at dated_zset_view zset_ops).2, db') ∧
    sees (T := zset_obj) 9 (timed_spec zset_spec_at dated_zset_view zset_ops).1.2 (zset_obj_ok tiny) (timed_spec zset_spec_at dated_zset_view zset_ops).1.1 db'.
Proof.
  split; [vm_compute; reflexivity|]. apply (zset_commands_refine_lists tiny) with (t := 0).
  - exact fmt8_parse8.
  - exact fmt8_small.
  - split; [|reflexivity]. apply Forall_forall. repeat constructor.
  - exact dated_zsets_seen.
  - cbn. lia.
  - apply zset_ops_decide. vm_compute. reflexivity.
Defined.

(** ** Beyond the limits *)

(** The replies to commands in a row. *)
Fixpoint zset_session (cs : list (M zset_obj reply)) (db : DB zset_obj) : res (list Reply) :=
  match cs with
  | [] => Ret []
  | c :: cs => '(r, db1) ← c db; rs ← zset_session cs db1; Ret (resolve (memory db1) r :: rs)
  end.

Definition zline (words : list bytes) : list arg := ALit <$> words.
Definition add_one : M zset_obj reply := execZAdd tiny (zline [str "a"; t1; str "x"]).
Definition add_three : M zset_obj reply := execZAdd tiny (zline [str "a"; t1; str "x"; t2; str "y"; t3; str "z"]).
Definition remove_three : M zset_obj reply := execZRem (zline [str "a"; str "x"; str "y"; str "z"]).
Definition all_of : M zset_obj reply := execZRange (zline [str "a"; str "0"; str "-1"]).

(** ZREM of the last member leaves the key with an empty sorted set, on which
    ZCOUNT and ZRANGE with a negative start panic once it is a skiplist. *)
Theorem zrem_leaves_empty_zset :
  zset_session [add_three; remove_three; execZCard (zline [str "a"]); execExists [ALit (str "a")]] no_zsets = Ret [IntReply 3; IntReply 3; IntReply 0; IntReply 1] ∧
  zset_session [add_three; remove_three; execZCount (zline [str "a"; str "-inf"; str "+inf"])] no_zsets = Panic ∧
  zset_session [add_three; remove_three; execZRange (zline [str "a"; str "-1"; str "-1"])] no_zsets = Panic.
Proof. split_and!; by vm_compute. Qed.

(** ZPOPMIN with a count of zero pops nothing from a listpack and everything
    from a skiplist; with a negative one it panics or pops everything. *)
Theorem zpopmin_count_by_encoding :
  zset_session [add_one; execZPopMin (zline [str "a"; str "0"])] no_zsets = Ret [IntReply 1; MultiBulkReply []] ∧
  zset_session [add_one; execZPopMin (zline [str "a"; str "-1"])] no_zsets = Panic ∧
  zset_session [add_three; execZPopMin (zline [str "a"; str "0"]); execZCard (zline [str "a"])] no_zsets =
    Ret [IntReply 3; MultiBulkReply (Some <$> [str "x"; t1; str "y"; t2; str "z"; t3]); IntReply 0] ∧
  zset_session [add_three; execZPopMin (zline [str "a"; str "-1"]); execZCard (zline [str "a"])] no_zsets =
    Ret [IntReply 3; MultiBulkReply (Some <$> [str "x"; t1; str "y"; t2; str "z"; t3]); IntReply 0].
Proof. split_and!; by vm_compute. Qed.

(** A score that is not a number is accepted.  In a skiplist its member is listed
    after it was removed, in place of another member. *)
Theorem nan_score_breaks_the_order :
  zset_session [add_three; execZAdd tiny (zline [str "a"; fmt8 0x7FF8000000000001; str "x"]); execZRank (zline [str "a"; str "x"]);
                execZRem (zline [str "a"; str "x"]); execZScore (zline [str "a"; str "x"]); all_of] no_zsets =
    Ret [IntReply 3; IntReply 0; NullBulkReply; IntReply 1; NullBulkReply; MultiBulkReply (Some <$> [str "x"; str "y"])].
Proof. by vm_compute. Qed.

(** The option WITHSCORES of ZREVRANGE is read in upper case only, ZRANGEBYLEX of
    a missing key is an integer and ZREMRANGEBYSCORE of one an array, and an
    empty border is an index out of range. *)
Theorem zset_reply_oddities :
  zset_session [add_one; execZRange (zline [str "a"; str "0"; str "-1"; str "withscores"]); execZRevRange (zline [str "a"; str "0"; str "-1"; str "withscores"])] no_zsets =
    Ret [IntReply 1; MultiBulkReply (Some <$> [str "x"; t1]); err_reply "syntax error"] ∧
  zset_session [execZRangeByLex (zline [str "a"; str "-"; str "+"]); execZRemRangeByScore (zline [str "a"; str "-inf"; str "+inf"])] no_zsets =
    Ret [IntReply 0; EmptyMultiBulkReply] ∧
  zset_session [execZCount (zline [str "a"; []; str "+inf"])] no_zsets = Panic.
Proof. split_and!; by vm_compute. Qed.

(** ZREMRANGEBYLEX writes nothing to the append-only file. *)
Theorem zremrangebylex_is_not_logged :
  (add_one;; execZRemRangeByLex (zline [str "a"; str "-"; str "+"])) no_zsets ≫= (λ '(r, db), Ret (resolve (memory db) r, length (aof db))) = Ret (IntReply 1, 1%nat) ∧
  (add_one;; execZRemRangeByScore (zline [str "a"; str "-inf"; str "+inf"])) no_zsets ≫= (λ '(r, db), Ret (resolve (memory db) r, length (aof db))) = Ret (IntReply 1, 2%nat).
Proof. split; by vm_compute. Qed.
