(* ===== verification/BitCmd.v ===== *)
(** * Bit fields and bit operations: [internal/command/bitfield.go] and
    [internal/command/bitop.go]

    BITFIELD reads and writes integers of 1 to 64 bits at any bit of a string,
    in the array that the key shares with others; BITOP combines whole strings.

    A string object that holds an integer below 10000 is one of the objects of
    [shared.go], the same one under every key.  BITFIELD is the one command
    that writes into a string object instead of storing a new one, so its model
    has the pool of these objects as a state of its own: [pool] holds the
    slices of the shared objects that have been overwritten.  The other
    commands are modelled for an untouched pool. *)

From stdpp Require Import base gmap list strings.
From Stdlib Require Import ZArith Lia Ascii.
From S2P Require Import Prelude GoText Strconv ObjString Resp Runtime GoTime TimeWheel KeySpace Bitmap StringCmd KeyCmd Tx.

Local Open Scope Z_scope.

(** ** Words *)

(** [x << n] on an int64 *)
Definition shl64 (x n : Z) : Z := wrap64 (Z.shiftl x n).

(** [i<bits>] or [u<bits>]: the width and whether it is signed. *)
Definition parseBitfieldType (s : bytes) : option (Z * bool) :=
  match s with
  | prefix :: (_ :: _) as digits =>
      let signed := bool_decide (prefix = "i"%char) in
      if negb (signed || bool_decide (prefix = "u"%char)) then None else
      bits ← ParseInt digits;
      if (bits <? 1) || ((if signed then 64 else 63) <? bits) then None else Some (bits, signed)
  | _ => None
  end.

Definition parseBitfieldOffset (s : bytes) (bits : Z) : option Z :=
  match s with
  | c :: rest =>
      if bool_decide (c = "#"%char) then n ← ParseInt rest; Some (wrap64 (n * bits)) else ParseInt s
  | [] => ParseInt s
  end.

Definition bfParseSubcommand (typeStr offsetStr : bytes) : reply + (Z * bool * Z) :=
  match parseBitfieldType typeStr with
  | None => inl (RErr "ERR invalid type specifier")
  | Some (bits, signed) =>
      match parseBitfieldOffset offsetStr bits with
      | None => inl (RErr "ERR invalid bit offset")
      | Some offset => inr (bits, signed, offset)
      end
  end.

(** ** Fields *)

(** The loop of [bfGet], [n] bits from number [i] on. *)
Fixpoint bf_read (b : bytes) (offset bits : Z) (n : nat) (i val : Z) : res Z :=
  match n with
  | O => Ret val
  | S n =>
      bit ← GetBit b (wrap64 (offset + i));
      bf_read b offset bits n (i + 1) (if negb (bit =? 0) then Z.lor val (shl64 1 (bits - 1 - i)) else val)
  end.

(** A value with the sign bit of its field set becomes negative. *)
Definition sign_extend (bits : Z) (signed : bool) (val : Z) : Z :=
  if signed && (bits <? 64) && negb (Z.land val (shl64 1 (bits - 1)) =? 0) then Z.lor val (shl64 (-1) bits) else val.

Definition bfGet (b : bytes) (offset bits : Z) (signed : bool) : res Z :=
  val ← bf_read b offset bits (Z.to_nat bits) 0 0;
  Ret (sign_extend bits signed val).

(** [int64((1 << bits) - 1)] *)
Definition bf_mask (bits : Z) : Z := wrap64 (shl64 1 bits - 1).

(** The least and the greatest value of a type. *)
Definition bf_minmax (bits : Z) (signed : bool) : Z * Z :=
  if signed then (wrap64 (- shl64 1 (bits - 1)), wrap64 (shl64 1 (bits - 1) - 1))
  else (0, wrap64 (shl64 1 bits - 1)).

(** The test of SAT and FAIL. *)
Definition bf_overflows (bits : Z) (signed : bool) (old incr : Z) : bool :=
  let '(minVal, maxVal) := bf_minmax bits signed in
  if signed then (0 <? incr) && (wrap64 (maxVal - incr) <? old) || (incr <? 0) && (old <? wrap64 (minVal - incr))
  else (0 <? incr) && (u64 (u64 maxVal - u64 incr) <? u64 old) || (incr <? 0) && (u64 old <? u64 (wrap64 (- incr))).

(** ** Bit operations *)

Definition maxLen (slices : list bytes) : nat :=
  foldl (λ max s, if (max <? length s)%nat then length s else max) 0%nat slices.

Definition getByte (b : bytes) (i : nat) (def : Z) : Z := from_option byteZ def (b !! i).

Definition bitopAnd (raw : list bytes) : bytes :=
  map (λ i, Zbyte (foldl (λ b src, Z.land b (getByte src i 0xFF)) 0xFF raw)) (seq 0 (maxLen raw)).

Definition bitopOr (raw : list bytes) : bytes :=
  map (λ i, Zbyte (foldl (λ b src, Z.lor b (getByte src i 0x00)) 0x00 raw)) (seq 0 (maxLen raw)).

Definition bitopXor (raw : list bytes) : bytes :=
  map (λ i, Zbyte (foldl (λ b src, Z.lxor b (getByte src i 0x00)) 0x00 raw)) (seq 0 (maxLen raw)).

Definition bitopNot (raw : bytes) : bytes := map (λ b, Zbyte (Z.lxor (byteZ b) 0xFF)) raw.

(** The count of [bitopOne] is a byte. *)
Definition bit_count (raw : list bytes) (i : nat) (mask : Z) : Z :=
  foldl (λ count src, if negb (Z.land (getByte src i 0x00) mask =? 0) then (count + 1) mod 256 else count) 0 raw.

Definition bitopOne (raw : list bytes) : bytes :=
  map (λ i, Zbyte (foldl (λ out bit, let mask := Z.shiftl 1 (Z.of_nat bit) in
                                     if bit_count raw i mask =? 1 then Z.lor out mask else out) 0 (seq 0 8)))
      (seq 0 (maxLen raw)).

Definition bitopDiff (src : bytes) (others : list bytes) : bytes :=
  match others with
  | [] => bitopNot src
  | _ => bitopAnd [src; bitopNot (bitopOr others)]
  end.

(** With one source the result of [bitopDiff1] is nil, and that of
    [bitopAndOr] is the source itself. *)
Definition bitopDiff1 (src : bytes) (others : list bytes) : arg :=
  match others with
  | [] => ANil
  | _ => ALit (bitopAnd [bitopNot src; bitopOr others])
  end.

Definition bitopAndOr (m : mem) (src : arg) (others : list arg) : arg :=
  match others with
  | [] => src
  | _ => ALit (bitopAnd [arg_str m src; bitopOr (arg_str m <$> others)])
  end.

Inductive bitop := OpAnd | OpOr | OpXor | OpNot | OpDiff | OpDiff1 | OpAndOr | OpOne.
#[export] Instance bitop_eq_dec : EqDecision bitop.
Proof. solve_decision. Defined.

Definition parse_bitop (op : bytes) : option bitop :=
  if bytes_eqb op (str "AND") then Some OpAnd
  else if bytes_eqb op (str "OR") then Some OpOr
  else if bytes_eqb op (str "XOR") then Some OpXor
  else if bytes_eqb op (str "NOT") then Some OpNot
  else if bytes_eqb op (str "DIFF") then Some OpDiff
  else if bytes_eqb op (str "DIFF1") then Some OpDiff1
  else if bytes_eqb op (str "ANDOR") then Some OpAndOr
  else if bytes_eqb op (str "ONE") then Some OpOne
  else None.

(** The result of an operation on the sources, of which there is at least one. *)
Definition bitop_result (m : mem) (op : bitop) (src : arg) (others : list arg) : arg :=
  let raw := arg_str m <$> src :: others in
  match op with
  | OpAnd => ALit (bitopAnd raw)
  | OpOr => ALit (bitopOr raw)
  | OpXor => ALit (bitopXor raw)
  | OpNot => ALit (bitopNot (arg_str m src))
  | OpDiff => ALit (bitopDiff (arg_str m src) (arg_str m <$> others))
  | OpDiff1 => bitopDiff1 (arg_str m src) (arg_str m <$> others)
  | OpAndOr => bitopAndOr m src others
  | OpOne => ALit (bitopOne raw)
  end.

(** The shared objects that have been overwritten. *)
Abbreviation pool := (gmap Z arg).
Definition is_shared (n : Z) : bool := (0 <=? n) && (n <? 10000).

Section bits.
Context {O : Type} `{!Objects O} {env : Env} {rt : Runtime}.
Local Abbreviation M := (M O).

(** ** Writing fields *)

(** The loop of [bfSet]. *)
Fixpoint bf_write (bm : arg) (offset bits val : Z) (n : nat) (i : Z) : M arg :=
  match n with
  | 0%nat => mret bm
  | S n =>
      bm ← bm_SetBit bm (wrap64 (offset + i)) (if negb (Z.land val (shl64 1 (bits - 1 - i)) =? 0) then 1 else 0);
      bf_write bm offset bits val n (i + 1)
  end.

(** The old value, and the slice, which may have moved. *)
Definition bfSet (bm : arg) (offset bits : Z) (signed : bool) (val : Z) : M (Z * arg) :=
  b ← string_of bm;
  old ← lift (bfGet b offset bits signed);
  bm ← bf_write bm offset bits (Z.land val (bf_mask bits)) (Z.to_nat bits) 0;
  mret (old, bm).

(** The new value, whether it overflowed, and the slice. *)
Definition bfIncrby (bm : arg) (offset bits : Z) (signed : bool) (incr : Z) (overflow : bytes) : M (Z * bool * arg) :=
  b ← string_of bm;
  old ← lift (bfGet b offset bits signed);
  let newVal := wrap64 (old + incr) in
  if bytes_eqb overflow [] || bytes_eqb overflow (str "wrap") then
    let newVal := sign_extend bits signed (Z.land newVal (bf_mask bits)) in
    '(_, bm) ← bfSet bm offset bits signed newVal;
    mret (newVal, false, bm)
  else if bytes_eqb overflow (str "sat") then
    if bf_overflows bits signed old incr then
      let newVal := if 0 <? incr then (bf_minmax bits signed).2 else (bf_minmax bits signed).1 in
      '(_, bm) ← bfSet bm offset bits signed newVal;
      mret (newVal, true, bm)
    else
      '(_, bm) ← bfSet bm offset bits signed newVal;
      mret (newVal, false, bm)
  else if bytes_eqb overflow (str "fail") then
    if bf_overflows bits signed old incr then mret (0, true, bm)
    else
      '(_, bm) ← bfSet bm offset bits signed newVal;
      mret (newVal, false, bm)
  else mret (0, false, bm).

(** ** BITFIELD *)

Definition syntax : reply := RErr "ERR syntax error".

(** The bytes of a key and whether the key is new; a key holds a string object
    or it is of the wrong type. *)
Definition getOrInitBitmap (p : pool) (key : bytes) : M (reply + arg * bool) :=
  e ← GetEntity key;
  match e with
  | None => s ← alloc []; mret (inr (ARef s, true))
  | Some (EInt v) =>
      bm ← own (default (ALit (formatInt64 v)) (if is_shared v then p !! v else None));
      mret (inr (bm, false))
  | Some (EStr _ b) => bm ← own b; mret (inr (bm, false))
  | Some _ => mret (inl RWrongType)
  end.

(** The subcommands from a word on.  An error returns at once; what has been
    written before it stays written. *)
Fixpoint bf_loop (ws : list arg) (bm : arg) (overflow : bytes) (results : list reply) : M (reply + arg * list reply) :=
  match ws with
  | [] => mret (inr (bm, results))
  | w :: ws =>
      w ← string_of w;
      let subcmd := ToUpper w in
      if bytes_eqb subcmd (str "OVERFLOW") then
        match ws with
        | [] => mret (inl syntax)
        | o :: ws =>
            o ← string_of o;
            let overflow := ToUpper o in
            if negb (bytes_eqb overflow (str "WRAP")) && negb (bytes_eqb overflow (str "SAT"))
               && negb (bytes_eqb overflow (str "FAIL")) then mret (inl (RErr "ERR invalid OVERFLOW type specified"))
            else bf_loop ws bm (ToLower overflow) results
        end
      else if bytes_eqb subcmd (str "GET") then
        match ws with
        | t :: o :: ws =>
            t ← string_of t; o ← string_of o;
            match bfParseSubcommand t o with
            | inl e => mret (inl e)
            | inr (bits, signed, offset) =>
                b ← string_of bm;
                val ← lift (bfGet b offset bits signed);
                bf_loop ws bm overflow (results ++ [RInt val])
            end
        | _ => mret (inl syntax)
        end
      else if bytes_eqb subcmd (str "SET") then
        match ws with
        | t :: o :: v :: ws =>
            t ← string_of t; o ← string_of o;
            match bfParseSubcommand t o with
            | inl e => mret (inl e)
            | inr (bits, signed, offset) =>
                v ← string_of v;
                match ParseInt v with
                | None => mret (inl (RErr "ERR invalid bitfield value"))
                | Some val =>
                    '(old, bm) ← bfSet bm offset bits signed val;
                    bf_loop ws bm overflow (results ++ [RInt old])
                end
            end
        | _ => mret (inl syntax)
        end
      else if bytes_eqb subcmd (str "INCRBY") then
        match ws with
        | t :: o :: v :: ws =>
            t ← string_of t; o ← string_of o;
            match bfParseSubcommand t o with
            | inl e => mret (inl e)
            | inr (bits, signed, offset) =>
                v ← string_of v;
                match ParseInt v with
                | None => mret (inl (RErr "ERR invalid bitfield value"))
                | Some incr =>
                    '(newVal, overflowed, bm) ← bfIncrby bm offset bits signed incr overflow;
                    bf_loop ws bm overflow
                      (results ++ [if overflowed && bytes_eqb overflow (str "fail") then RNull else RInt newVal])
                end
            end
        | _ => mret (inl syntax)
        end
      else mret (inl syntax)
  end.

(** The bitmap back into its key: a new object, or the slice of the object that
    is there, which may be a shared one. *)
Definition bf_persist (p : pool) (key : bytes) (bm : arg) (isNew : bool) : M pool :=
  if isNew then e ← MakeRawStringObject bm; PutEntity key e;; mret p
  else
    e ← GetEntity key;
    match e with
    | None => panic
    | Some (EInt v) =>
        if is_shared v then mret (<[v := bm]> p)
        else modify (λ db, set_data db (<[key := EStr EncRaw bm]> (data db)));; mret p
    | Some (EStr _ _) => modify (λ db, set_data db (<[key := EStr EncRaw bm]> (data db)));; mret p
    | Some _ => mret p
    end.

Definition execBitfield (p : pool) (args : list arg) : M (reply * pool) :=
  match args with
  | [] => mret (RErr "ERR wrong number of arguments for 'bitfield' command", p)
  | key :: ws =>
      key ← string_of key;
      r ← getOrInitBitmap p key;
      match r with
      | inl e => mret (e, p)
      | inr (bm, isNew) =>
          r ← bf_loop ws bm (str "wrap") [];
          match r with
          | inl e => mret (e, p)
          | inr (bm, results) =>
              p ← bf_persist p key bm isNew;
              addAof (ToCmdLine3 "bitfield" args);;
              mret (RRaw results, p)
          end
      end
  end.

Fixpoint bfro_loop (ws : list arg) (bs : arg) (results : list reply) : M (reply + list reply) :=
  match ws with
  | [] => mret (inr results)
  | w :: ws =>
      w ← string_of w;
      if bytes_eqb (ToUpper w) (str "GET") then
        match ws with
        | t :: o :: ws =>
            t ← string_of t; o ← string_of o;
            match bfParseSubcommand t o with
            | inl e => mret (inl e)
            | inr (bits, signed, offset) =>
                r ← match bs with
                    | ANil => mret RNull
                    | _ => b ← string_of bs; val ← lift (bfGet b offset bits signed); mret (RInt val)
                    end;
                bfro_loop ws bs (results ++ [r])
            end
        | _ => mret (inl syntax)
        end
      else mret (inl (RErr "ERR BITFIELD_RO only supports the GET subcommand"))
  end.

Definition execBitfieldRO : ExecFunc O := λ args,
  match args with
  | [] => mret (RErr "ERR wrong number of arguments for 'bitfield_ro' command")
  | key :: ws =>
      key ← string_of key;
      r ← getAsString key;
      match r with
      | inl e => mret e
      | inr bs =>
          r ← bfro_loop ws bs [];
          mret match r with inl e => e | inr results => RRaw results end
      end
  end.

(** ** BITOP *)

(** Only the destination is locked. *)
Definition prepareBitOp : PreFunc O := λ args,
  if (length args <? 2)%nat then mret ([], []) else dest ← str_at args 1; mret ([dest], []).

(** The sources; [inl] is an error. *)
Fixpoint load_sources (keys : list arg) : M (reply + list arg) :=
  match keys with
  | [] => mret (inr [])
  | key :: keys =>
      key ← string_of key;
      r ← getAsString key;
      match r with
      | inl e => mret (inl e)
      | inr bs => r ← load_sources keys; mret match r with inl e => inl e | inr l => inr (bs :: l) end
      end
  end.

Definition execBitOp : ExecFunc O := λ args,
  match args with
  | op :: dest :: ((_ :: _) as srcKeys) =>
      op ← string_of op;
      dest ← string_of dest;
      match parse_bitop (ToUpper op) with
      | None => mret syntax
      | Some op =>
          if bool_decide (op = OpNot) && negb (length srcKeys =? 1)%nat
          then mret (RErr "ERR BITOP NOT requires exactly one source key") else
          r ← load_sources srcKeys;
          match r with
          | inl e => mret e
          | inr srcs =>
              src ← lift (must (srcs !! 0%nat));
              result ← gets (λ db, bitop_result (memory db) op src (drop 1 srcs));
              n ← len_of result;
              e ← MakeRawStringObject result;
              PutEntity dest e;;
              addAof (ToCmdLine3 "bitop" args);;
              mret (RInt n)
          end
      end
  | _ => mret (RConst (ArgNumErrReply (str "bitop")))
  end.

(** ** Registrations, without the one of BITFIELD *)

Definition bit_commands : list (bytes * command O) := [
  registerCommand "bitop" execBitOp prepareBitOp None (-4) flagWrite w_oom (on_string "set");
  registerCommand "bitfield_ro" execBitfieldRO readFirstKey None (-2) flagReadOnly ["readonly"]%string None].
End bits.
