(* ===== verification/BitThm.v ===== *)
(** * What BITFIELD and BITOP guarantee

    A field of a bitmap is an integer of its type: writing one changes its bits
    and no others, and the increments wrap, saturate or fail at the ends of the
    type.  BITCOUNT counts the bits in both modes.  Runs show where the commands do not do what they mean to. *)

From stdpp Require Import base gmap list strings.
From Stdlib Require Import ZArith Lia Ascii.
From S2P Require Import Prelude Strconv ObjString Resp Runtime EventLoopThm GoTime TimeWheel KeySpace Bitmap StringCmd KeyCmd Tx KeySpaceThm BitCmd.

Local Open Scope Z_scope.

(** ** BITCOUNT and BITPOS

    The two modes of BITCOUNT count the same bits, and BITPOS finds the first. *)

(** The number of set bits among [n] bits from [i] on. *)
Fixpoint sumbits (b : bytes) (n : nat) (i : Z) : Z :=
  match n with O => 0 | S n => bit b i + sumbits b n (i + 1) end.

Lemma sumbits_app b n m i : sumbits b (n + m) i = sumbits b n i + sumbits b m (i + Z.of_nat n).
Proof.
  revert i. induction n as [|n IH]; intros i; cbn [sumbits Nat.add]; [by rewrite Z.add_0_r|].
  rewrite IH. replace (i + 1 + Z.of_nat n) with (i + Z.of_nat (S n)) by lia. lia.
Qed.

Lemma bit_01 b i : bit b i = 0 ∨ bit b i = 1.
Proof. unfold bit. destruct (b !! _) as [c|]; [|by left]. destruct (Z.testbit _ _); [by right|by left]. Qed.

Lemma visit_count b n i st : visit_bits count_bit b n i st = (st + sumbits b n i, true).
Proof.
  revert i st. induction n as [|n IH]; intros i st; cbn [visit_bits sumbits]; [by rewrite Z.add_0_r|].
  unfold count_bit at 1. rewrite IH. destruct (bit_01 b i) as [-> | ->]; cbn; f_equal; lia.
Qed.

Lemma sumbits_8 b i : sumbits b 8 i =
  bit b (i + 0) + (bit b (i + 1) + (bit b (i + 2) + (bit b (i + 3) + (bit b (i + 4) + (bit b (i + 5) + (bit b (i + 6) + (bit b (i + 7) + 0))))))).
Proof. cbn [sumbits]. rewrite (Z.add_0_r i), <- !(Z.add_assoc i). reflexivity. Qed.

Lemma OnesCount8_bits b q c : 0 <= q → b !! Z.to_nat q = Some c → OnesCount8 (byteZ c) = sumbits b 8 (8 * q).
Proof.
  intros Hq Hc. assert (HB : ∀ j, 0 <= j < 8 → bit b (8 * q + j) = Z.b2z (Z.testbit (byteZ c) (7 - j))).
  { intros j Hj. unfold bit. replace ((8 * q + j) / 8) with q by (Z.div_mod_to_equations; lia).
    replace ((8 * q + j) mod 8) with j by (Z.div_mod_to_equations; lia). by rewrite Hc. }
  rewrite sumbits_8, !HB by lia. unfold OnesCount8. cbn [foldl]. rewrite !land_1_testbit by lia.
  change (7 - 0) with 7. change (7 - 1) with 6. change (7 - 2) with 5. change (7 - 3) with 4. change (7 - 4) with 3.
  change (7 - 5) with 2. change (7 - 6) with 1. change (7 - 7) with 0.
  lia.
Qed.

Lemma each_byte_count b l q st : l = take (length l) (drop (Z.to_nat q) b) → 0 <= q →
  each_byte count_byte l q st = st + sumbits b (8 * length l) (8 * q).
Proof.
  revert q st. induction l as [|c l IH]; intros q st Hl Hq; cbn [each_byte]; [cbn; lia|].
  assert (Hc : b !! Z.to_nat q = Some c).
  { rewrite <- (Nat.add_0_r (Z.to_nat q)), <- lookup_drop. erewrite <- lookup_take_lt, <- Hl; [done|cbn; lia]. }
  assert (Hl' : l = take (length l) (drop (Z.to_nat (q + 1)) b)).
  { rewrite Z2Nat.inj_add by lia. change (Z.to_nat 1) with 1%nat. rewrite <- drop_drop.
    destruct (drop (Z.to_nat q) b) as [|c' r]; [done|]. cbn in Hl. injection Hl as _ Hl. done. }
  unfold count_byte at 1. rewrite (IH (q + 1)), (OnesCount8_bits b q c) by (done || lia). cbn [length].
  replace (8 * S (length l))%nat with (8 + 8 * length l)%nat by lia. rewrite sumbits_app.
  replace (8 * (q + 1)) with (8 * q + Z.of_nat 8) by lia. lia.
Qed.

(** BITCOUNT counts the set bits of its range, and the two modes agree: over the bytes [p] to [q] the byte mode, which adds up
    population counts, gives the number that the bit mode gives over the bits [8p] to [8q]. *)
Theorem bitcount_modes_agree b p q :
  0 <= p < q → q <= Z.of_nat (length b) →
  ForEachByte b p q count_byte 0 = sumbits b (Z.to_nat (8 * (q - p))) (8 * p) ∧
  ForEachBit b (8 * p) (8 * q) count_bit 0 = sumbits b (Z.to_nat (8 * (q - p))) (8 * p).
Proof.
  intros Hpq Hq. split.
  - unfold ForEachByte. rewrite (proj2 (Z.eqb_neq q 0)), (proj2 (Z.ltb_ge _ _)) by lia.
    set (l := take _ _). assert (Hlen : length l = Z.to_nat (q - p)) by (unfold l; rewrite length_take, length_drop; lia).
    rewrite (each_byte_count b) by (lia || by rewrite Hlen). rewrite Hlen, Z.add_0_l. f_equal. lia.
  - rewrite ForEachBit_visits by lia. unfold stop, BitSize. rewrite (proj2 (Z.eqb_neq (8 * q) 0)) by lia.
    rewrite visit_count. cbn [fst]. rewrite Z.add_0_l. f_equal. lia.
Qed.

Lemma bitcount_modes_agree_witness :
  let b := [Zbyte 255; Zbyte 5; Zbyte 7] in
  ForEachByte b 1 3 count_byte 0 = sumbits b (Z.to_nat (8 * (3 - 1))) (8 * 1) ∧
  ForEachBit b (8 * 1) (8 * 3) count_bit 0 = sumbits b (Z.to_nat (8 * (3 - 1))) (8 * 1).
Proof. apply (bitcount_modes_agree [Zbyte 255; Zbyte 5; Zbyte 7] 1 3); [lia|cbn; lia]. Defined.

(** ** 64-bit words as bits *)

Lemma testbit_high w k j : 0 <= k <= j → - 2 ^ k <= w < 2 ^ k → Z.testbit w j = (w <? 0).
Proof.
  intros Hj Hw. rewrite Z.testbit_odd, Z.shiftr_div_pow2 by lia. pose proof (Z.pow_le_mono_r 2 k j).
  destruct (Z.ltb_spec w 0).
  - replace (w / 2 ^ j) with (-1); [done|]. apply (Z.div_unique w (2 ^ j) (-1) (w + 2 ^ j)); lia.
  - rewrite Z.div_small by lia. done.
Qed.

Lemma wrap64_mod z : wrap64 z mod 2 ^ 64 = z mod 2 ^ 64.
Proof. unfold wrap64. rewrite Zminus_mod_idemp_l. f_equal. lia. Qed.

Lemma wrap64_testbit z j : 0 <= j → Z.testbit (wrap64 z) j = Z.testbit z (Z.min j 63).
Proof.
  intros Hj. assert (Hlow : ∀ i, 0 <= i < 64 → Z.testbit (wrap64 z) i = Z.testbit z i).
  { intros i Hi. rewrite <- (Z.mod_pow2_bits_low (wrap64 z) 64), wrap64_mod, Z.mod_pow2_bits_low by lia. done. }
  destruct (Z.le_gt_cases j 63); [rewrite Z.min_l by lia; apply Hlow; lia|]. rewrite Z.min_r, <- Hlow by lia.
  pose proof (wrap64_range z) as Hr. unfold i64, min_i64, max_i64 in Hr. by rewrite !(testbit_high _ 63) by lia.
Qed.

Lemma wrap64_lor x y : Z.lor (wrap64 x) (wrap64 y) = wrap64 (Z.lor x y).
Proof.
  apply Z.bits_inj'. intros j Hj. by rewrite Z.lor_spec, !wrap64_testbit, Z.lor_spec by lia.
Qed.

(** Bits that do not meet: or is plus. *)
Lemma lor_add x y : Z.land x y = 0 → Z.lor x y = x + y.
Proof. intros H. pose proof (Z.add_lor_land x y). lia. Qed.

Lemma land_high_low u k y : 0 <= k → 0 <= y < 2 ^ k → Z.land (u * 2 ^ k) y = 0.
Proof.
  intros Hk Hy. apply Z.bits_inj'. intros j Hj. rewrite Z.land_spec, Z.bits_0, <- Z.shiftl_mul_pow2 by lia.
  destruct (Z.lt_ge_cases j k); [by rewrite Z.shiftl_spec_low by lia|].
  rewrite (testbit_high y k) by lia. rewrite (proj2 (Z.ltb_ge y 0)) by lia. apply andb_false_r.
Qed.

(** The test of one bit. *)
Lemma land_shl64 v k : i64 v → 0 <= k <= 63 → negb (Z.land v (shl64 1 k) =? 0) = Z.testbit v k.
Proof.
  intros Hv Hk. unfold shl64. rewrite Z.shiftl_1_l. apply eq_true_iff_eq. rewrite negb_true_iff, Z.eqb_neq.
  assert (Hb : ∀ j, 0 <= j → Z.testbit (Z.land v (wrap64 (2 ^ k))) j = Z.testbit v j && (Z.min j 63 =? k)).
  { intros j Hj. rewrite Z.land_spec, wrap64_testbit, Z.pow2_bits_eqb by lia. by rewrite (Z.eqb_sym k). }
  split; [|intros E E0; specialize (Hb k ltac:(lia)); rewrite E0, Z.bits_0, E, Z.min_l, Z.eqb_refl in Hb by lia; done].
  intros Hne. destruct (Z.testbit v k) eqn:E; [done|]. destruct Hne. apply Z.bits_inj'. intros j Hj. rewrite Hb, Z.bits_0 by done.
  apply andb_false_iff. destruct (Z.eqb_spec (Z.min j 63) k) as [H|]; [left|by right]. rewrite <- E.
  unfold i64, min_i64, max_i64 in Hv. destruct (Z.le_gt_cases j 63); [by replace j with k by lia|]. by rewrite !(testbit_high v 63) by lia.
Qed.

(** ** Types *)

(** A type that the parser accepts. *)
Definition bf_type (bits : Z) (signed : bool) : Prop := 1 <= bits <= if signed then 64 else 63.

(** The value of the type with these low bits. *)
Definition as_type (bits : Z) (signed : bool) (v : Z) : Z :=
  if signed then (v + 2 ^ (bits - 1)) mod 2 ^ bits - 2 ^ (bits - 1) else v mod 2 ^ bits.

Definition type_min (bits : Z) (signed : bool) : Z := if signed then - 2 ^ (bits - 1) else 0.
Definition type_max (bits : Z) (signed : bool) : Z := if signed then 2 ^ (bits - 1) - 1 else 2 ^ bits - 1.

Lemma pow_half bits : 1 <= bits → 2 ^ bits = 2 * 2 ^ (bits - 1).
Proof. intros H. rewrite <- Z.pow_succ_r by lia. f_equal. lia. Qed.

Lemma as_type_range bits signed v : 1 <= bits → type_min bits signed <= as_type bits signed v <= type_max bits signed.
Proof.
  intros H. unfold type_min, type_max, as_type. pose proof (pow_half bits H). pose proof (Z.pow_pos_nonneg 2 (bits - 1)).
  destruct signed; [pose proof (Z.mod_pos_bound (v + 2 ^ (bits - 1)) (2 ^ bits))|pose proof (Z.mod_pos_bound v (2 ^ bits))]; lia.
Qed.

Lemma as_type_id bits signed v : 1 <= bits → type_min bits signed <= v <= type_max bits signed → as_type bits signed v = v.
Proof.
  intros H. unfold type_min, type_max, as_type. pose proof (pow_half bits H). destruct signed; intros Hv; rewrite Z.mod_small; lia.
Qed.

Lemma as_type_mod bits signed v w : 1 <= bits → v mod 2 ^ bits = w mod 2 ^ bits → as_type bits signed v = as_type bits signed w.
Proof. intros H E. unfold as_type. destruct signed; [|done]. rewrite Zplus_mod, E, <- Zplus_mod. done. Qed.

Lemma type_i64 bits signed v : bf_type bits signed → type_min bits signed <= v <= type_max bits signed → i64 v.
Proof.
  unfold bf_type, type_min, type_max, i64, min_i64, max_i64. intros Hb Hv. pose proof (pow_half bits ltac:(destruct signed; lia)).
  destruct signed; [pose proof (Z.pow_le_mono_r 2 (bits - 1) 63)|pose proof (Z.pow_le_mono_r 2 bits 63)]; lia.
Qed.

Lemma wrap64_low bits z : 0 <= bits <= 64 → wrap64 z mod 2 ^ bits = z mod 2 ^ bits.
Proof.
  intros H. assert (E : 2 ^ 64 = 2 ^ (64 - bits) * 2 ^ bits) by (rewrite <- Z.pow_add_r by lia; f_equal; lia).
  assert (Hm : ∀ x, x mod 2 ^ bits = (x mod 2 ^ 64) mod 2 ^ bits).
  { intros x. rewrite E. symmetry. apply Z.mod_mod_divide. by exists (2 ^ (64 - bits)). }
  by rewrite Hm, wrap64_mod, <- Hm.
Qed.

Lemma as_type_wrap64 bits signed z : bf_type bits signed → as_type bits signed (wrap64 z) = as_type bits signed z.
Proof. unfold bf_type. intros H. apply as_type_mod; [|apply wrap64_low]; destruct signed; lia. Qed.

(** [bf_minmax], the mask and the sign are those of the type. *)
Lemma bf_minmax_spec bits signed : bf_type bits signed → bf_minmax bits signed = (type_min bits signed, type_max bits signed).
Proof.
  unfold bf_type, bf_minmax, type_min, type_max, shl64. intros H. rewrite !Z.shiftl_1_l.
  destruct signed.
  - destruct (Z.eq_dec bits 64) as [->|]; [done|]. pose proof (Z.pow_le_mono_r 2 (bits - 1) 62).
    pose proof (Z.pow_pos_nonneg 2 (bits - 1)). rewrite !wrap64_id by (unfold i64, min_i64, max_i64; rewrite ?wrap64_id; unfold i64, min_i64, max_i64; lia).
    done.
  - destruct (Z.eq_dec bits 63) as [->|]; [done|]. pose proof (Z.pow_le_mono_r 2 bits 62).
    pose proof (Z.pow_pos_nonneg 2 bits). rewrite !wrap64_id by (unfold i64, min_i64, max_i64; rewrite ?wrap64_id; unfold i64, min_i64, max_i64; lia).
    done.
Qed.

Lemma bf_mask_land bits v : 1 <= bits <= 64 → i64 v → Z.land v (bf_mask bits) = if bits =? 64 then v else v mod 2 ^ bits.
Proof.
  intros H Hv. unfold bf_mask, shl64. rewrite Z.shiftl_1_l. destruct (Z.eqb_spec bits 64) as [->|]; [by rewrite Z.land_m1_r|].
  rewrite <- Z.land_ones, Z.ones_equiv by lia. f_equal. destruct (Z.eq_dec bits 63) as [->|]; [done|].
  pose proof (Z.pow_le_mono_r 2 bits 62). pose proof (Z.pow_pos_nonneg 2 bits).
  rewrite !wrap64_id by (unfold i64, min_i64, max_i64; rewrite ?wrap64_id; unfold i64, min_i64, max_i64; lia). lia.
Qed.

Lemma sign_extend_spec bits signed u : bf_type bits signed → bits < 64 → 0 <= u < 2 ^ bits → sign_extend bits signed u = as_type bits signed u.
Proof.
  unfold bf_type, sign_extend, as_type. intros Hb Hl Hu. destruct signed; cbn [andb]; [|by rewrite Z.mod_small].
  rewrite (proj2 (Z.ltb_lt _ _)) by lia. cbn [andb]. pose proof (pow_half bits ltac:(lia)) as Hp. pose proof (Z.pow_le_mono_r 2 bits 63).
  rewrite land_shl64 by (unfold i64, min_i64, max_i64; lia). rewrite Z.testbit_odd, Z.shiftr_div_pow2 by lia.
  destruct (Z.lt_ge_cases u (2 ^ (bits - 1))).
  - rewrite Z.div_small, Z.mod_small by lia. cbn. lia.
  - replace (u / 2 ^ (bits - 1)) with 1 by (apply (Z.div_unique u _ 1 (u - 2 ^ (bits - 1))); lia). cbn [Z.odd].
    unfold shl64. rewrite Z.shiftl_mul_pow2, wrap64_id by (unfold i64, min_i64, max_i64; lia).
    rewrite Z.lor_comm, lor_add by (apply land_high_low; lia).
    replace (u + 2 ^ (bits - 1)) with (u - 2 ^ (bits - 1) + 1 * 2 ^ bits) by lia. rewrite Z.mod_add, Z.mod_small by lia. lia.
Qed.

(** ** Reading *)

(** The unsigned number that [n] bits from [o] on spell, the first the highest. *)
Fixpoint field (b : bytes) (o : Z) (n : nat) : Z :=
  match n with O => 0 | S n => 2 * field b o n + bit b (o + Z.of_nat n) end.

Lemma field_range b o n : 0 <= field b o n < 2 ^ Z.of_nat n.
Proof.
  induction n as [|n IH]; [cbn; lia|]. cbn [field]. rewrite Nat2Z.inj_succ, Z.pow_succ_r by lia.
  destruct (bit_01 b (o + Z.of_nat n)); lia.
Qed.

Lemma field_ext b b' o n : (∀ i, o <= i < o + Z.of_nat n → bit b' i = bit b i) → field b' o n = field b o n.
Proof.
  induction n as [|n IH]; intros H; [done|]. cbn [field]. rewrite IH, H by (intros; try apply H; lia). done.
Qed.

(** Bits of a number, read back. *)
Lemma field_of b o n v k : 0 <= k → (∀ i, 0 <= i < Z.of_nat n → bit b (o + i) = Z.b2z (Z.testbit v (k + Z.of_nat n - 1 - i))) →
  field b o n = Z.shiftr v k mod 2 ^ Z.of_nat n.
Proof.
  revert k. induction n as [|n IH]; intros k Hk H; [cbn; by rewrite Z.mod_1_r|]. cbn [field]. rewrite (IH (k + 1)); [|lia|].
  - rewrite H, Nat2Z.inj_succ, Z.pow_succ_r, Z.rem_mul_r by lia. rewrite <- Z.shiftr_shiftr by lia.
    rewrite <- (Z.div2_spec (Z.shiftr v k)), Z.div2_div, <- Z.bit0_mod, Z.shiftr_spec by lia. replace (k + Z.succ (Z.of_nat n) - 1 - Z.of_nat n) with (0 + k) by lia. lia.
  - intros i Hi. rewrite H by lia. do 2 f_equal. lia.
Qed.

Lemma bf_read_spec b o bits n j : 0 <= o → 1 <= bits <= 64 → o + bits <= max_i64 → Z.of_nat j + Z.of_nat n = bits →
  bf_read b o bits n (Z.of_nat j) (wrap64 (field b o j * 2 ^ (bits - Z.of_nat j))) = Ret (wrap64 (field b o (j + n))).
Proof.
  intros Ho Hb Hm. revert j. induction n as [|n IH]; intros j Hj; cbn [bf_read].
  { replace (bits - Z.of_nat j) with 0 by lia. by rewrite Z.mul_1_r, Nat.add_0_r. }
  rewrite (wrap64_id (o + Z.of_nat j)) by (unfold i64, min_i64, max_i64 in *; lia). rewrite GetBit_spec by lia. cbn [mbind res_bind].
  replace (j + S n)%nat with (S j + n)%nat by lia. replace (Z.of_nat j + 1) with (Z.of_nat (S j)) by lia. rewrite <- IH by lia.
  f_equal. cbn [field]. set (k := bits - Z.of_nat (S j)). assert (Hk : 0 <= k) by lia.
  replace (bits - 1 - Z.of_nat j) with k by lia. replace (bits - Z.of_nat j) with (k + 1) by lia.
  destruct (bit_01 b (o + Z.of_nat j)) as [-> | ->]; cbn [Z.eqb negb].
  - f_equal. rewrite Z.pow_add_r by lia. lia.
  - unfold shl64. rewrite wrap64_lor, Z.shiftl_1_l. f_equal. rewrite lor_add.
    + rewrite Z.pow_add_r by lia. lia.
    + apply land_high_low; [lia|]. split; [lia|]. apply Z.pow_lt_mono_r; lia.
Qed.

Lemma bfGet_spec b o bits signed : bf_type bits signed → 0 <= o → o + bits <= max_i64 →
  bfGet b o bits signed = Ret (as_type bits signed (field b o (Z.to_nat bits))).
Proof.
  intros Hb Ho Hm. assert (Hb' : 1 <= bits <= 64) by (unfold bf_type in Hb; destruct signed; lia). unfold bfGet.
  pose proof (bf_read_spec b o bits (Z.to_nat bits) 0 Ho Hb' Hm ltac:(lia)) as E. cbn [field] in E. rewrite Z.mul_0_l in E.
  change (wrap64 0) with 0 in E. change (Z.of_nat 0) with 0 in E. rewrite E. cbn [mbind res_bind Nat.add].
  pose proof (field_range b o (Z.to_nat bits)) as Hf. rewrite Z2Nat.id in Hf by lia. clear E. revert Hf.
  generalize (field b o (Z.to_nat bits)). intros u Hf. destruct (Z.eq_dec bits 64) as [->|].
  - unfold bf_type in Hb. destruct signed; [|lia]. reflexivity.
  - rewrite wrap64_id; [by rewrite (sign_extend_spec _ _ _ Hb ltac:(lia) Hf)|]. pose proof (Z.pow_le_mono_r 2 bits 63). unfold i64, min_i64, max_i64. lia.
Qed.

(** ** Slices that a command owns *)

(** The slice is nil or lies in the memory. *)
Definition owned (m : mem) (a : arg) : Prop :=
  match a with ANil => True | ARef s => in_mem m s | ALit _ => False end.

(** From one slice to the next: it stays in its array or moves to a new one,
    and the other arrays are as they were. *)
Record slice_step (m : mem) (a : arg) (m' : mem) (a' : arg) : Prop := {
  ss_owned : owned m' a';
  ss_grows : (length m <= length m')%nat;
  ss_moved : ∀ s', a' = ARef s' → (∃ s, a = ARef s ∧ Arr s = Arr s') ∨ (length m <= Arr s')%nat;
  ss_kept : ∀ k, (k < length m)%nat → (∀ s, a = ARef s → Arr s ≠ k) → m' !! k = m !! k
}.

Lemma slice_step_refl m a : owned m a → slice_step m a m a.
Proof. intros H. constructor; [done|done| |done]. intros s' ->. left. by exists s'. Qed.

Lemma slice_step_trans m a m1 a1 m2 a2 : slice_step m a m1 a1 → slice_step m1 a1 m2 a2 → slice_step m a m2 a2.
Proof.
  intros [O1 G1 M1 K1] [O2 G2 M2 K2]. constructor; [done|lia| |].
  - intros s2 E2. destruct (M2 s2 E2) as [(s1 & E1 & H)|H]; [|right; lia].
    destruct (M1 s1 E1) as [(s & E & H')|H']; [left; exists s; split; [done|congruence]|right; lia].
  - intros k Hk Hne. rewrite K2, K1; [done|done|done|lia|]. intros s1 E1 <-.
    destruct (M1 s1 E1) as [(s & E & H')|H']; [by eapply Hne|lia].
Qed.

Section commands.
Context {O : Type} `{!Objects O} {env : Env} {rt : Runtime}.

Lemma set_mem_mem (db : DB O) m m' : set_mem (set_mem db m) m' = set_mem db m'.
Proof. done. Qed.
Lemma set_mem_id (db : DB O) : set_mem db (memory db) = db.
Proof. by destruct db. Qed.

Lemma append_owned (db : DB O) a b : owned (memory db) a → ∃ m' a', append a b db = Ret (a', set_mem db m') ∧
  slice_step (memory db) a m' a' ∧ arg_str m' a' = arg_str (memory db) a ++ b ∧ (b ≠ [] → ∃ s, a' = ARef s).
Proof.
  intros Ho. destruct a as [|s|l]; [| |done]; unfold append; cbn [own]; rewrite run_ret.
  - case_bool_decide as Hb.
    { exists (memory db), ANil. rewrite set_mem_id. split; [done|]. subst b. split; [by apply slice_step_refl|done]. }
    set (c := b ++ _). exists (memory db ++ [c]), (ARef (MkSlice (length (memory db)) 0 (length b))). split; [done|].
    assert (E : slice_bytes (memory db ++ [c]) (MkSlice (length (memory db)) 0 (length b)) = b).
    { unfold slice_bytes, array. cbn. rewrite list_lookup_middle by done. cbn [default id]. rewrite drop_0. apply take_app_length. }
    unfold arg_str. cbn [arg_opt from_option id]. rewrite E. split; [|split; [done|by eexists]]. constructor.
    + exists c. split; [cbn; by rewrite list_lookup_middle|]. cbn. unfold c. rewrite length_app. lia.
    + rewrite length_app. lia.
    + intros s' [= <-]. right. cbn. lia.
    + intros k Hk _. by rewrite lookup_app_l.
  - destruct (append_slice newcap (memory db) s b) as [m' s'] eqn:E. exists m', (ARef s'). split; [done|].
    pose proof (append_slice_spec _ _ _ _ _ _ Ho E) as [Hin Hs]. split; [|split; [exact Hs|by eexists]].
    unfold append_slice in E. destruct (_ <=? _)%nat; injection E as <- <-.
    + constructor; [done|by rewrite length_insert| |].
      * intros s' [= <-]. left. by exists s.
      * intros k Hk Hne. apply list_lookup_insert_ne. by apply Hne.
    + constructor; [done|rewrite length_app; lia| |].
      * intros s' [= <-]. right. cbn. lia.
      * intros k Hk _. by rewrite lookup_app_l.
Qed.

Lemma store_owned (db : DB O) s i c : in_mem (memory db) s → 0 <= i < Z.of_nat (SLen s) → ∃ m', store (ARef s) i c db = Ret (tt, set_mem db m') ∧
  slice_step (memory db) (ARef s) m' (ARef s) ∧ slice_bytes m' s = <[Z.to_nat i := c]> (slice_bytes (memory db) s).
Proof.
  intros Hin Hi. unfold store. rewrite (proj2 (Z.leb_le _ _)), (proj2 (Z.ltb_lt _ _)) by lia. cbn [andb].
  eexists. split; [done|]. destruct Hin as (arr & Ha & Hl).
  assert (E : alter (λ arr : list ascii, <[(SOff s + Z.to_nat i)%nat:=c]> arr) (Arr s) (memory db) !! Arr s = Some (<[(SOff s + Z.to_nat i)%nat:=c]> arr)).
  { by rewrite list_lookup_alter_eq, Ha. }
  split.
  - constructor.
    + eexists. split; [exact E|]. by rewrite length_insert.
    + by rewrite length_alter.
    + intros s' [= <-]. left. by exists s.
    + intros k Hk Hne. apply list_lookup_alter_ne. by apply Hne.
  - unfold slice_bytes, array. rewrite E, Ha. cbn [default id]. apply list_eq. intros j.
    destruct (decide (Z.to_nat i = j)) as [<-|Hj].
    + rewrite lookup_take_lt, lookup_drop by lia. rewrite !list_lookup_insert_eq by (rewrite ?length_take, ?length_drop; lia). done.
    + rewrite (list_lookup_insert_ne _ (Z.to_nat i)) by done. destruct (decide (j < SLen s)%nat); [|rewrite !lookup_take_ge by lia; done].
      rewrite !lookup_take_lt, !lookup_drop by lia. apply list_lookup_insert_ne. lia.
Qed.

(** ** Writing *)

Lemma bm_SetBit_spec (db : DB O) a o v : owned (memory db) a → 0 <= o < max_i64 →
  o / 8 + 1 - Z.of_nat (length (arg_str (memory db) a)) <= max_make →
  ∃ m' a', bm_SetBit a o v db = Ret (a', set_mem db m') ∧ slice_step (memory db) a m' a' ∧
    Z.of_nat (length (arg_str m' a')) = Z.max (Z.of_nat (length (arg_str (memory db) a))) (o / 8 + 1) ∧
    ∀ i, 0 <= i → bit (arg_str m' a') i = if i =? o then (if 0 <? v then 1 else 0) else bit (arg_str (memory db) a) i.
Proof.
  intros Ha Ho Hm. unfold bm_SetBit, len_of. rewrite run_assoc, run_string_of, run_ret.
  rewrite wrap64_id by (unfold i64, min_i64, max_i64 in *; lia). rewrite toByteSize_spec by lia. rewrite Z.quot_div_nonneg by lia.
  assert (Hq : 0 <= o / 8) by (apply Z.div_pos; lia). set (gap := o / 8 + 1 - _) in *.
  assert (HG : ∃ m1 s1, (if gap <=? 0 then mret a else if max_make <? gap then panic else append a (replicate (Z.to_nat gap) (Zbyte 0))) db
      = Ret (ARef s1, set_mem db m1) ∧ slice_step (memory db) a m1 (ARef s1) ∧
      Z.of_nat (SLen s1) = Z.max (Z.of_nat (length (arg_str (memory db) a))) (o / 8 + 1) ∧
      ∀ i, bit (slice_bytes m1 s1) i = bit (arg_str (memory db) a) i).
  { destruct (Z.leb_spec gap 0).
    - destruct a as [|s|]; [cbn in *; lia| |done]. exists (memory db), s. rewrite set_mem_id. split; [done|].
      split; [by apply slice_step_refl|]. split; [|done]. pose proof (slice_bytes_length _ _ Ha).
      subst gap. change (arg_str (memory db) (ARef s)) with (slice_bytes (memory db) s) in *. lia.
    - rewrite (proj2 (Z.ltb_ge _ _)) by lia.
      destruct (append_owned db a (replicate (Z.to_nat gap) (Zbyte 0)) Ha) as (m1 & a1 & E & Hs & Hb & [s1 ->]).
      { intros E0%(f_equal length). rewrite length_replicate in E0. cbn in E0. lia. }
      exists m1, s1. split; [done|]. split; [done|]. cbn in Hb. split; [|intros i; rewrite Hb; apply bit_grown].
      rewrite <- (slice_bytes_length m1 s1) by apply Hs. rewrite Hb, length_app, length_replicate. lia. }
  destruct HG as (m1 & s1 & E & Hs1 & Hl1 & Hb1). rewrite (run_step _ _ _ _ _ E). rewrite run_string_of, run_lift.
  rewrite (proj2 (Z.ltb_ge _ _)) by lia. cbn [arg_str arg_opt default memory set_mem].
  assert (Hin : in_mem m1 s1) by apply Hs1.
  destruct (lookup_lt_is_Some_2 (slice_bytes m1 s1) (Z.to_nat (o / 8))) as [c Hc]; [rewrite slice_bytes_length by done; lia|].
  unfold arg_str. cbn [arg_opt from_option id memory set_mem]. rewrite Hc. cbn [must].
  destruct (store_owned (set_mem db m1) s1 (o / 8) (Zbyte (set_mask (byteZ c) (mask o) v)) Hin ltac:(lia)) as (m2 & E2 & Hs2 & Hb2).
  rewrite (run_step _ _ _ _ _ E2), run_mret, set_mem_mem. exists m2, (ARef s1). split; [done|].
  split; [by eapply slice_step_trans|]. cbn [arg_opt from_option id]. rewrite Hb2. cbn [memory set_mem].
  split; [rewrite length_insert, slice_bytes_length by done; exact Hl1|]. intros i Hi. rewrite bit_insert by (done || lia).
  by destruct (i =? o).
Qed.

(** The bytes of a field fit in memory. *)
Definition bf_fits (b : bytes) (o bits : Z) : Prop :=
  0 <= o ∧ o + bits <= max_i64 ∧ (o + bits - 1) / 8 + 1 - Z.of_nat (length b) <= max_make.

Lemma bf_write_spec (db : DB O) a o bits val n j : owned (memory db) a → 1 <= bits <= 64 → i64 val →
  bf_fits (arg_str (memory db) a) o bits → 0 <= j → j + Z.of_nat n = bits →
  ∃ m' a', bf_write a o bits val n j db = Ret (a', set_mem db m') ∧ slice_step (memory db) a m' a' ∧
    Z.of_nat (length (arg_str m' a')) =
      (if (0 <? n)%nat then Z.max (Z.of_nat (length (arg_str (memory db) a))) ((o + bits - 1) / 8 + 1) else Z.of_nat (length (arg_str (memory db) a))) ∧
    ∀ i, 0 <= i → bit (arg_str m' a') i =
      if (o + j <=? i) && (i <? o + bits) then Z.b2z (Z.testbit val (o + bits - 1 - i)) else bit (arg_str (memory db) a) i.
Proof.
  intros Ha Hb Hv. revert db a j Ha. induction n as [|n IH]; intros db a j Ha (Ho & Hm & Hf) Hj0 Hj; cbn [bf_write].
  { exists (memory db), a. rewrite set_mem_id. split; [done|]. split; [by apply slice_step_refl|]. split; [done|]. intros i Hi.
    destruct (Z.leb_spec (o + j) i), (Z.ltb_spec i (o + bits)); try done. lia. }
  rewrite wrap64_id by (unfold i64, min_i64, max_i64 in *; lia). rewrite land_shl64 by (done || lia).
  assert (Hd : (o + j) / 8 <= (o + bits - 1) / 8) by (apply Z.div_le_mono; lia).
  destruct (bm_SetBit_spec db a (o + j) (if Z.testbit val (bits - 1 - j) then 1 else 0) Ha ltac:(lia) ltac:(lia)) as (m1 & a1 & E1 & S1 & L1 & B1).
  rewrite (run_step _ _ _ _ _ E1). destruct (IH (set_mem db m1) a1 (j + 1)) as (m2 & a2 & E2 & S2 & L2 & B2).
  { apply S1. }
  { split; [done|]. split; [done|]. cbn [memory set_mem]. lia. }
  { lia. }
  { lia. }
  cbn [memory set_mem] in *. rewrite E2, set_mem_mem. exists m2, a2. split; [done|]. split; [by eapply slice_step_trans|].
  split.
  - rewrite L2. destruct (Nat.ltb_spec 0 n); cbn [Nat.ltb Nat.leb]; [lia|]. rewrite L1. replace (o + bits - 1) with (o + j) by lia. done.
  - intros i Hi. rewrite B2, B1 by done. destruct (Z.eqb_spec i (o + j)) as [->|].
    + rewrite (proj2 (Z.leb_gt _ _)), (proj2 (Z.leb_le _ _)), (proj2 (Z.ltb_lt _ _)) by lia. cbn [andb].
      replace (o + bits - 1 - (o + j)) with (bits - 1 - j) by lia. by destruct (Z.testbit val (bits - 1 - j)).
    + destruct (Z.leb_spec (o + (j + 1)) i), (Z.leb_spec (o + j) i); try lia; done.
Qed.

(** What [bfSet] does, for the increments too. *)
Lemma bfSet_run (db : DB O) a o bits signed val : owned (memory db) a → bf_type bits signed → i64 val → bf_fits (arg_str (memory db) a) o bits →
  ∃ m' a', bfSet a o bits signed val db = Ret ((as_type bits signed (field (arg_str (memory db) a) o (Z.to_nat bits)), a'), set_mem db m') ∧
    slice_step (memory db) a m' a' ∧
    Z.of_nat (length (arg_str m' a')) = Z.max (Z.of_nat (length (arg_str (memory db) a))) ((o + bits - 1) / 8 + 1) ∧
    as_type bits signed (field (arg_str m' a') o (Z.to_nat bits)) = as_type bits signed val ∧
    ∀ i, 0 <= i → ¬ (o <= i < o + bits) → bit (arg_str m' a') i = bit (arg_str (memory db) a) i.
Proof.
  intros Ha Hb Hv Hf. pose proof Hf as (Ho & Hm & _). assert (Hb' : 1 <= bits <= 64) by (unfold bf_type in Hb; destruct signed; lia).
  unfold bfSet. rewrite run_string_of, run_lift, bfGet_spec by done.
  assert (Hv' : i64 (Z.land val (bf_mask bits))).
  { rewrite bf_mask_land by done. destruct (Z.eqb_spec bits 64); [done|]. pose proof (Z.mod_pos_bound val (2 ^ bits)).
    pose proof (Z.pow_pos_nonneg 2 bits). pose proof (Z.pow_le_mono_r 2 bits 63). unfold i64, min_i64, max_i64. lia. }
  destruct (bf_write_spec db a o bits _ (Z.to_nat bits) 0 Ha Hb' Hv' Hf ltac:(lia) ltac:(lia)) as (m' & a' & E & Hs & L & B).
  rewrite (run_step _ _ _ _ _ E), run_mret. exists m', a'. split; [done|]. split; [done|].
  split; [rewrite L, (proj2 (Nat.ltb_lt _ _)) by lia; done|]. split.
  - apply as_type_mod; [lia|]. rewrite (field_of _ _ _ (Z.land val (bf_mask bits)) 0) by (lia || (intros i Hi; rewrite B by lia;
      rewrite (proj2 (Z.leb_le _ _)), (proj2 (Z.ltb_lt _ _)) by lia; cbn [andb]; do 2 f_equal; lia)).
    rewrite Z.shiftr_0_r, Z2Nat.id, Zmod_mod, bf_mask_land by (done || lia). destruct (bits =? 64); [done|]. by rewrite Zmod_mod.
  - intros i Hi Hout. rewrite B by done. destruct (Z.leb_spec (o + 0) i), (Z.ltb_spec i (o + bits)); try done. lia.
Qed.

(** C30: BITFIELD's SET on a field, of any width at any bit, for which the bytes fit in memory: it answers the value that a GET of the
    field gave before, the GET afterwards gives the value that was written, reduced to the type, and no bit outside the field
    and no array but the one the slice lies in is touched. *)
Theorem bitfield_set_get (db : DB O) a o bits signed val :
  owned (memory db) a → bf_type bits signed → i64 val → bf_fits (arg_str (memory db) a) o bits →
  ∃ old m' a', bfGet (arg_str (memory db) a) o bits signed = Ret old ∧
    bfSet a o bits signed val db = Ret ((old, a'), set_mem db m') ∧ slice_step (memory db) a m' a' ∧
    bfGet (arg_str m' a') o bits signed = Ret (as_type bits signed val) ∧
    ∀ i, 0 <= i → ¬ (o <= i < o + bits) → GetBit (arg_str m' a') i = GetBit (arg_str (memory db) a) i.
Proof.
  intros Ha Hb Hv Hf. destruct (bfSet_run db a o bits signed val Ha Hb Hv Hf) as (m' & a' & E & Hs & _ & Hr & Hout).
  destruct Hf as (Ho & Hm & _). eexists _, m', a'. rewrite !bfGet_spec by done. rewrite Hr. do 4 (split; [done|]).
  intros i Hi Hi'. by rewrite !GetBit_spec, Hout by done.
Qed.

(** ** Increments *)

Inductive overflow_mode := Wrap | Sat | Fail.
Definition mode_word (mode : overflow_mode) : bytes :=
  match mode with Wrap => str "wrap" | Sat => str "sat" | Fail => str "fail" end.

(** What an increment should leave in the field, its answer and whether it
    overflowed. *)
Definition increment (mode : overflow_mode) (bits : Z) (signed : bool) (old incr : Z) : Z * Z * bool :=
  let lo := type_min bits signed in
  let hi := type_max bits signed in
  let v := old + incr in
  let over := (v <? lo) || (hi <? v) in
  match mode with
  | Wrap => (as_type bits signed v, as_type bits signed v, false)
  | Sat => (Z.max lo (Z.min hi v), Z.max lo (Z.min hi v), over)
  | Fail => if over then (old, 0, true) else (v, v, false)
  end.

Lemma bf_overflows_spec bits signed old incr : bf_type bits signed → i64 incr → (signed = true ∨ incr <= type_max bits signed) →
  type_min bits signed <= old <= type_max bits signed →
  bf_overflows bits signed old incr = (old + incr <? type_min bits signed) || (type_max bits signed <? old + incr).
Proof.
  intros Hb Hi Hc Ho. unfold bf_overflows. rewrite bf_minmax_spec by done.
  assert (Hmin : i64 (type_min bits signed)) by (apply (type_i64 bits signed); [done|lia]).
  assert (Hmax : i64 (type_max bits signed)) by (apply (type_i64 bits signed); [done|lia]).
  assert (H0 : if signed then type_min bits signed < 0 ∧ type_max bits signed = - type_min bits signed - 1 else type_min bits signed = 0).
  { unfold type_min, type_max, bf_type in *. destruct signed; [pose proof (Z.pow_pos_nonneg 2 (bits - 1)); lia|lia]. }
  set (lo := type_min bits signed) in *. set (hi := type_max bits signed) in *. clearbody lo hi. unfold i64, min_i64, max_i64 in *.
  destruct signed; [|destruct Hc as [|Hc]; [done|]].
  - destruct (Z.ltb_spec 0 incr); [rewrite (wrap64_id (hi - incr)) by (unfold i64, min_i64, max_i64; lia)|];
      (destruct (Z.ltb_spec incr 0); [rewrite (wrap64_id (lo - incr)) by (unfold i64, min_i64, max_i64; lia)|]); cbn [andb orb]; lia.
  - unfold u64. rewrite (Z.mod_small hi), (Z.mod_small old) by lia. destruct (Z.ltb_spec 0 incr).
    + rewrite (Z.mod_small incr), (Z.mod_small (hi - incr)) by lia. lia.
    + destruct (Z.ltb_spec incr 0); cbn [andb orb]; [|lia]. destruct (Z.eq_dec incr (- 2 ^ 63)) as [->|].
      * change (wrap64 (- - 2 ^ 63) mod 2 ^ 64) with (2 ^ 63). lia.
      * rewrite wrap64_id, (Z.mod_small (- incr)) by (unfold i64, min_i64, max_i64; lia). lia.
Qed.

Lemma wrap_value bits signed v : bf_type bits signed → sign_extend bits signed (Z.land (wrap64 v) (bf_mask bits)) = as_type bits signed v.
Proof.
  intros Hb. assert (Hb' : 1 <= bits <= 64) by (unfold bf_type in Hb; destruct signed; lia).
  rewrite bf_mask_land by (done || apply wrap64_range). destruct (Z.eqb_spec bits 64) as [->|].
  - unfold bf_type in Hb. destruct signed; [reflexivity|lia].
  - rewrite sign_extend_spec by (done || lia || (apply Z.mod_pos_bound, Z.pow_pos_nonneg; lia)).
    apply as_type_mod; [lia|]. by rewrite Zmod_mod, wrap64_low by lia.
Qed.

(** A value in the range of the type is written as it is. *)
Lemma bfSet_in_range (db : DB O) a o bits signed val : owned (memory db) a → bf_type bits signed → bf_fits (arg_str (memory db) a) o bits →
  type_min bits signed <= val <= type_max bits signed →
  ∃ m' a', bfSet a o bits signed val db = Ret ((as_type bits signed (field (arg_str (memory db) a) o (Z.to_nat bits)), a'), set_mem db m') ∧
    slice_step (memory db) a m' a' ∧ as_type bits signed (field (arg_str m' a') o (Z.to_nat bits)) = val ∧
    ∀ i, 0 <= i → ¬ (o <= i < o + bits) → bit (arg_str m' a') i = bit (arg_str (memory db) a) i.
Proof.
  intros Ha Hb Hf Hv. destruct (bfSet_run db a o bits signed val Ha Hb (type_i64 _ _ _ Hb Hv) Hf) as (m' & a' & E & Hs & _ & Hr & Hout).
  exists m', a'. do 2 (split; [done|]). split; [|done]. rewrite Hr. apply as_type_id; [|done]. unfold bf_type in Hb. destruct signed; lia.
Qed.

(** C29: BITFIELD's INCRBY on a field for which the bytes fit in memory: the field ends up with the sum reduced to the type under WRAP,
    with the sum cut off at the ends of the type under SAT, and with the sum or, when that is not of the type, the old value
    under FAIL; the answer is the new value, the overflow is reported, and nothing outside the field is touched.  For an
    unsigned field under SAT and FAIL this needs an increment that is not greater than the greatest value of the type. *)
Theorem bitfield_increments (db : DB O) a o bits signed incr mode :
  owned (memory db) a → bf_type bits signed → i64 incr → bf_fits (arg_str (memory db) a) o bits →
  (mode = Wrap ∨ signed = true ∨ incr <= type_max bits signed) →
  ∃ old m' a', bfGet (arg_str (memory db) a) o bits signed = Ret old ∧
    let '(stored, answer, over) := increment mode bits signed old incr in
    bfIncrby a o bits signed incr (mode_word mode) db = Ret ((answer, over, a'), set_mem db m') ∧ slice_step (memory db) a m' a' ∧
    bfGet (arg_str m' a') o bits signed = Ret stored ∧ type_min bits signed <= stored <= type_max bits signed ∧
    ∀ i, 0 <= i → ¬ (o <= i < o + bits) → GetBit (arg_str m' a') i = GetBit (arg_str (memory db) a) i.
Proof.
  intros Ha Hb Hi Hf Hc. pose proof Hf as (Ho & Hm & _). assert (Hb1 : 1 <= bits) by (unfold bf_type in Hb; destruct signed; lia).
  set (old := as_type bits signed (field (arg_str (memory db) a) o (Z.to_nat bits))).
  assert (Hold : type_min bits signed <= old <= type_max bits signed) by (by apply as_type_range).
  assert (Hw : ∀ v, type_min bits signed <= v <= type_max bits signed → ∃ m' a', bfSet a o bits signed v db = Ret ((old, a'), set_mem db m') ∧
    slice_step (memory db) a m' a' ∧ bfGet (arg_str m' a') o bits signed = Ret v ∧ type_min bits signed <= v <= type_max bits signed ∧
    ∀ i, 0 <= i → ¬ (o <= i < o + bits) → GetBit (arg_str m' a') i = GetBit (arg_str (memory db) a) i).
  { intros v Hv. destruct (bfSet_in_range db a o bits signed v Ha Hb Hf Hv) as (m' & a' & E & Hs & Hr & Hout). exists m', a'.
    rewrite bfGet_spec by done. rewrite Hr. do 4 (split; [done|]). intros i H0 H1. by rewrite !GetBit_spec, Hout by done. }
  exists old. unfold bfIncrby. rewrite run_string_of, run_lift, bfGet_spec by done. fold old.
  destruct mode; cbn [increment mode_word].
  - change (bytes_eqb (str "wrap") [] || bytes_eqb (str "wrap") (str "wrap")) with true. cbv iota. rewrite wrap_value by done.
    destruct (Hw (as_type bits signed (old + incr)) (as_type_range _ _ _ Hb1)) as (m' & a' & E & H). exists m', a'. split; [done|].
    by rewrite (run_step _ _ _ _ _ E), run_mret.
  - change (bytes_eqb (str "sat") [] || bytes_eqb (str "sat") (str "wrap")) with false. change (bytes_eqb (str "sat") (str "sat")) with true.
    cbv iota. rewrite bf_overflows_spec, bf_minmax_spec by (done || (destruct Hc as [|]; done)). cbn [fst snd].
    destruct (Hw (Z.max (type_min bits signed) (Z.min (type_max bits signed) (old + incr))) ltac:(lia)) as (m' & a' & E & H).
    exists m', a'. split; [done|]. destruct (_ || _) eqn:Eo.
    + replace (if 0 <? incr then _ else _) with (Z.max (type_min bits signed) (Z.min (type_max bits signed) (old + incr))) by (destruct (Z.ltb_spec 0 incr); lia).
      by rewrite (run_step _ _ _ _ _ E), run_mret.
    + rewrite wrap64_id by (apply (type_i64 bits signed); [done|lia]).
      assert (Ec : Z.max (type_min bits signed) (Z.min (type_max bits signed) (old + incr)) = old + incr) by lia. rewrite Ec in *.
      by rewrite (run_step _ _ _ _ _ E), run_mret.
  - change (bytes_eqb (str "fail") [] || bytes_eqb (str "fail") (str "wrap")) with false. change (bytes_eqb (str "fail") (str "sat")) with false.
    change (bytes_eqb (str "fail") (str "fail")) with true. cbv iota. rewrite bf_overflows_spec by (done || (destruct Hc as [|]; done)).
    destruct (_ || _) eqn:Eo.
    + exists (memory db), a. split; [done|]. rewrite run_mret, set_mem_id. split; [done|]. split; [by apply slice_step_refl|].
      rewrite bfGet_spec by done. done.
    + destruct (Hw (old + incr) ltac:(lia)) as (m' & a' & E & H). exists m', a'. split; [done|].
      rewrite wrap64_id by (apply (type_i64 bits signed); [done|lia]). by rewrite (run_step _ _ _ _ _ E), run_mret.
Qed.
End commands.

(** ** Bit operations *)

(** Bit [i] of a source; past its end the padding. *)
Definition src_bit (pad : bool) (i : Z) (b : bytes) : bool :=
  match b !! Z.to_nat (i / 8) with Some c => Z.testbit (byteZ c) (7 - i mod 8) | None => pad end.

Lemma bit_src b i : bit b i = Z.b2z (src_bit false i b).
Proof. unfold bit, src_bit. by destruct (b !! _). Qed.

Lemma getByte_testbit b i (pad : bool) : 0 <= i → Z.testbit (getByte b (Z.to_nat (i / 8)) (if pad then 0xFF else 0)) (7 - i mod 8) = src_bit pad i b.
Proof.
  intros Hi. unfold getByte, src_bit. destruct (b !! _) as [c|]; [done|]. cbn [from_option]. pose proof (Z.mod_pos_bound i 8).
  destruct pad; [|apply Z.testbit_0_l]. change 255 with (Z.ones 8). apply Z.ones_spec_low. lia.
Qed.

(** A result computed byte by byte. *)
Lemma bit_bytewise (f : nat → Z) n i : 0 <= i < 8 * Z.of_nat n →
  bit (map (λ k, Zbyte (f k)) (seq 0 n)) i = Z.b2z (Z.testbit (f (Z.to_nat (i / 8))) (7 - i mod 8)).
Proof.
  intros Hi. unfold bit. pose proof (Z.mod_pos_bound i 8). assert (0 <= i / 8 < Z.of_nat n) by (Z.div_mod_to_equations; lia).
  change (map ?g ?l) with (g <$> l). rewrite list_lookup_fmap, lookup_seq_lt by lia. cbn [fmap option_fmap option_map].
  rewrite byteZ_Zbyte. change 256 with (2 ^ 8). rewrite Z.mod_pow2_bits_low by lia. done.
Qed.

Lemma maxLen_from n l : foldl (λ max (s : bytes), if (max <? length s)%nat then length s else max) n l = Nat.max n (maxLen l).
Proof.
  unfold maxLen. revert n. induction l as [|s l IH]; intros n; cbn [foldl]; [lia|]. rewrite IH.
  rewrite (IH (if (0 <? length s)%nat then length s else 0%nat)). destruct (Nat.ltb_spec n (length s)), (Nat.ltb_spec 0 (length s)); lia.
Qed.
Lemma maxLen_cons s l : maxLen (s :: l) = Nat.max (length s) (maxLen l).
Proof. unfold maxLen at 1. cbn [foldl]. rewrite maxLen_from. destruct (Nat.ltb_spec 0 (length s)); lia. Qed.

Lemma maxLen_same n l : Forall (λ s : bytes, length s = n) l → l ≠ [] → maxLen l = n.
Proof.
  induction 1 as [|s l Hs Hl IH]; [done|]. intros _. rewrite maxLen_cons, Hs. destruct l; [cbn; lia|]. rewrite IH by done. lia.
Qed.

(** A loop over the sources with a bitwise operation. *)
Lemma foldl_bits (op : Z → Z → Z) (opb : bool → bool → bool) (pad : bool) i raw b0 :
  0 <= i → (∀ x y j, 0 <= j → Z.testbit (op x y) j = opb (Z.testbit x j) (Z.testbit y j)) →
  Z.testbit (foldl (λ b src, op b (getByte src (Z.to_nat (i / 8)) (if pad then 0xFF else 0))) b0 raw) (7 - i mod 8)
  = foldl opb (Z.testbit b0 (7 - i mod 8)) (src_bit pad i <$> raw).
Proof.
  intros Hi Hop. revert b0. induction raw as [|src raw IH]; intros b0; [done|]. cbn [foldl fmap list_fmap].
  pose proof (Z.mod_pos_bound i 8). rewrite IH, Hop, getByte_testbit by lia. done.
Qed.

Lemma foldl_andb x l : foldl andb x l = x && forallb id l.
Proof. revert x. induction l as [|y l IH]; intros x; cbn; [by rewrite andb_true_r|]. by rewrite IH, andb_assoc. Qed.
Lemma foldl_orb x l : foldl orb x l = x || existsb id l.
Proof. revert x. induction l as [|y l IH]; intros x; cbn; [by rewrite orb_false_r|]. by rewrite IH, orb_assoc. Qed.

(** Sources of any lengths: AND pads with ones, OR and XOR with zeros. *)
Lemma bitopAnd_bit raw i : 0 <= i < 8 * Z.of_nat (maxLen raw) → bit (bitopAnd raw) i = Z.b2z (forallb id (src_bit true i <$> raw)).
Proof.
  intros Hi. unfold bitopAnd. rewrite bit_bytewise by done. rewrite (foldl_bits Z.land andb true) by (lia || (intros; apply Z.land_spec)).
  rewrite foldl_andb. change 255 with (Z.ones 8). pose proof (Z.mod_pos_bound i 8). by rewrite Z.ones_spec_low by lia.
Qed.
Lemma bitopOr_bit raw i : 0 <= i < 8 * Z.of_nat (maxLen raw) → bit (bitopOr raw) i = Z.b2z (existsb id (src_bit false i <$> raw)).
Proof.
  intros Hi. unfold bitopOr. rewrite bit_bytewise by done. rewrite (foldl_bits Z.lor orb false) by (lia || (intros; apply Z.lor_spec)).
  by rewrite foldl_orb, Z.testbit_0_l.
Qed.
Lemma bitopXor_bit raw i : 0 <= i < 8 * Z.of_nat (maxLen raw) → bit (bitopXor raw) i = Z.b2z (foldl xorb false (src_bit false i <$> raw)).
Proof.
  intros Hi. unfold bitopXor. rewrite bit_bytewise by done. rewrite (foldl_bits Z.lxor xorb false) by (lia || (intros; apply Z.lxor_spec)).
  by rewrite Z.testbit_0_l.
Qed.
Lemma bitopNot_bit b i : 0 <= i < BitSize b → bit (bitopNot b) i = Z.b2z (negb (src_bit false i b)).
Proof.
  unfold BitSize. intros Hi. unfold bit, src_bit, bitopNot. assert (0 <= i / 8 < Z.of_nat (length b)) by (Z.div_mod_to_equations; lia).
  pose proof (Z.mod_pos_bound i 8). change (map ?g ?l) with (g <$> l). rewrite list_lookup_fmap.
  destruct (lookup_lt_is_Some_2 b (Z.to_nat (i / 8))) as [c ->]; [lia|]. cbn [fmap option_fmap option_map]. rewrite byteZ_Zbyte.
  change 256 with (2 ^ 8). rewrite Z.mod_pow2_bits_low, Z.lxor_spec by lia. change 255 with (Z.ones 8). rewrite Z.ones_spec_low by lia. by rewrite xorb_true_r.
Qed.

(** How many are set. *)
Definition count_true (l : list bool) : Z := Z.of_nat (length (filter Is_true l)).
Lemma count_true_cons b l : count_true (b :: l) = Z.b2z b + count_true l.
Proof. unfold count_true. rewrite filter_cons. destruct b; cbn [decide Is_true]; [rewrite decide_True by done|rewrite decide_False by tauto]; cbn; lia. Qed.

Lemma bit_count_spec raw i : 0 <= i → bit_count raw (Z.to_nat (i / 8)) (2 ^ (7 - i mod 8)) = count_true (src_bit false i <$> raw) mod 256.
Proof.
  intros Hi. pose proof (Z.mod_pos_bound i 8). unfold bit_count.
  assert (H0 : ∀ c, 0 <= c < 256 → foldl (λ count src, if negb (Z.land (getByte src (Z.to_nat (i / 8)) 0) (2 ^ (7 - i mod 8)) =? 0) then (count + 1) mod 256 else count) c raw
    = (c + count_true (src_bit false i <$> raw)) mod 256); [|by apply (H0 0)].
  induction raw as [|src raw IH]; intros c Hc; [by cbn; rewrite Z.add_0_r, Z.mod_small|]. cbn [foldl fmap list_fmap].
  assert (Hb : negb (Z.land (getByte src (Z.to_nat (i / 8)) 0) (2 ^ (7 - i mod 8)) =? 0) = src_bit false i src).
  { rewrite <- (getByte_testbit src i false), <- land_shl64 by
      (lia || (unfold getByte; destruct (src !! _) as [x|]; cbn; [pose proof (byteZ_range x)|]; unfold i64, min_i64, max_i64; lia)).
    unfold shl64. rewrite Z.shiftl_1_l, wrap64_id; [done|]. pose proof (Z.pow_le_mono_r 2 (7 - i mod 8) 8).
    pose proof (Z.pow_pos_nonneg 2 (7 - i mod 8)). unfold i64, min_i64, max_i64. lia. }
  rewrite Hb, count_true_cons. destruct (src_bit false i src); cbn [Z.b2z].
  - rewrite IH by (apply Z.mod_pos_bound; lia). rewrite Zplus_mod_idemp_l. f_equal. lia.
  - by rewrite IH.
Qed.

(** The bits collected one by one. *)
Lemma collect_bits (g : Z → bool) j : 0 <= j < 8 →
  Z.testbit (foldl (λ out bit, let mask := Z.shiftl 1 (Z.of_nat bit) in if g mask then Z.lor out mask else out) 0 (seq 0 8)) j = g (2 ^ j).
Proof.
  intros Hj. assert (H : ∀ l x, Z.testbit (foldl (λ out bit, let mask := Z.shiftl 1 (Z.of_nat bit) in if g mask then Z.lor out mask else out) x l) j
    = Z.testbit x j || existsb (λ b, g (2 ^ Z.of_nat b) && (Z.of_nat b =? j)) l).
  { induction l as [|b l IH]; intros x; cbn [foldl existsb]; [by rewrite orb_false_r|]. cbv zeta in IH |- *. rewrite IH, Z.shiftl_1_l.
    destruct (g (2 ^ Z.of_nat b)); [|done]. rewrite Z.lor_spec, Z.pow2_bits_eqb by lia. by rewrite orb_assoc. }
  rewrite H, Z.testbit_0_l. cbn [orb]. apply eq_true_iff_eq. rewrite existsb_exists. split.
  - intros (b & _ & [Hg <-%Z.eqb_eq]%andb_true_iff). done.
  - intros Hg. exists (Z.to_nat j). rewrite in_seq, Z2Nat.id, Hg, Z.eqb_refl by lia. split; [lia|done].
Qed.

Lemma bitopOne_bit raw i : 0 <= i < 8 * Z.of_nat (maxLen raw) → bit (bitopOne raw) i = Z.b2z (count_true (src_bit false i <$> raw) mod 256 =? 1).
Proof.
  intros Hi. pose proof (Z.mod_pos_bound i 8). unfold bitopOne. rewrite bit_bytewise by done.
  rewrite (collect_bits (λ mask, bit_count raw (Z.to_nat (i / 8)) mask =? 1)) by lia. by rewrite bit_count_spec by lia.
Qed.

(** What each operation means for one bit of the sources. *)
Definition bitop_spec (op : bitop) (x : bool) (l : list bool) : bool :=
  match op with
  | OpAnd => x && forallb id l
  | OpOr => x || existsb id l
  | OpXor => foldl xorb x l
  | OpNot => negb x
  | OpDiff => x && negb (existsb id l)
  | OpDiff1 => negb x && existsb id l
  | OpAndOr => x && existsb id l
  | OpOne => count_true (x :: l) =? 1
  end.

(** The numbers of sources for which an operation is what its name says: NOT
    has one, the differences have two or more, and a byte counts the sources of
    ONE.  The command checks only that of NOT. *)
Definition bitop_arity (op : bitop) (others : nat) : Prop :=
  match op with
  | OpNot => others = 0%nat
  | OpDiff | OpDiff1 | OpAndOr => others ≠ 0%nat
  | OpOne => (others < 256)%nat
  | _ => True
  end.

Lemma length_bitopAnd raw : length (bitopAnd raw) = maxLen raw.
Proof. unfold bitopAnd. by rewrite length_map, length_seq. Qed.
Lemma length_bitopOr raw : length (bitopOr raw) = maxLen raw.
Proof. unfold bitopOr. by rewrite length_map, length_seq. Qed.
Lemma length_bitopNot b : length (bitopNot b) = length b.
Proof. apply length_map. Qed.

(** Two strings of one length. *)
Lemma bitopAnd_two x y i : length x = length y → 0 <= i < BitSize x →
  bit (bitopAnd [x; y]) i = Z.b2z (src_bit false i x && src_bit false i y).
Proof.
  unfold BitSize. intros Hl Hi. rewrite bitopAnd_bit by (rewrite !maxLen_cons; cbn; lia). cbn. rewrite andb_true_r. f_equal.
  unfold src_bit. assert (0 <= i / 8 < Z.of_nat (length x)) by (Z.div_mod_to_equations; lia).
  destruct (lookup_lt_is_Some_2 x (Z.to_nat (i / 8))) as [c ->]; [lia|].
  by destruct (lookup_lt_is_Some_2 y (Z.to_nat (i / 8))) as [d ->]; [lia|].
Qed.

Lemma src_bit_padding b i : 0 <= i < BitSize b → src_bit true i b = src_bit false i b.
Proof.
  unfold BitSize, src_bit. intros Hi. assert (0 <= i / 8 < Z.of_nat (length b)) by (Z.div_mod_to_equations; lia).
  by destruct (lookup_lt_is_Some_2 b (Z.to_nat (i / 8))) as [c ->]; [lia|].
Qed.

(** The bits of the parts that the differences are made of. *)
Lemma src_bitopNot b i : 0 <= i < BitSize b → src_bit false i (bitopNot b) = negb (src_bit false i b).
Proof. intros Hi. apply Z.b2z_inj. rewrite <- bit_src. by apply bitopNot_bit. Qed.
Lemma src_bitopOr raw i : 0 <= i < 8 * Z.of_nat (maxLen raw) → src_bit false i (bitopOr raw) = existsb id (src_bit false i <$> raw).
Proof. intros Hi. apply Z.b2z_inj. rewrite <- bit_src. by apply bitopOr_bit. Qed.

(** The same on byte strings. *)
Lemma bitop_strings op (x : bytes) (l : list bytes) i : Forall (λ b, length b = length x) l → bitop_arity op (length l) → 0 <= i < BitSize x →
  let r := match op with
           | OpAnd => bitopAnd (x :: l) | OpOr => bitopOr (x :: l) | OpXor => bitopXor (x :: l) | OpNot => bitopNot x
           | OpDiff => bitopDiff x l | OpDiff1 => bitopAnd [bitopNot x; bitopOr l] | OpAndOr => bitopAnd [x; bitopOr l]
           | OpOne => bitopOne (x :: l)
           end in
  bit r i = Z.b2z (bitop_spec op (src_bit false i x) (src_bit false i <$> l)).
Proof.
  unfold BitSize. intros Hl Ha Hi.
  assert (Hm : maxLen (x :: l) = length x) by (apply maxLen_same; [by constructor|done]).
  assert (Hm' : l ≠ [] → maxLen l = length x) by (by apply maxLen_same).
  assert (Hor : l ≠ [] → src_bit false i (bitopOr l) = existsb id (src_bit false i <$> l)).
  { intros Hne. apply src_bitopOr. rewrite Hm' by done. lia. }
  destruct op; cbn [bitop_arity bitop_spec] in *; cbv zeta.
  - rewrite bitopAnd_bit by (rewrite Hm; lia). cbn [fmap list_fmap forallb]. rewrite src_bit_padding by (unfold BitSize; lia). unfold id at 1. do 3 f_equal.
    apply list_fmap_ext. intros k b Hb. apply src_bit_padding. unfold BitSize. rewrite Forall_lookup in Hl. rewrite (Hl k b Hb). lia.
  - rewrite bitopOr_bit by (rewrite Hm; lia). done.
  - rewrite bitopXor_bit by (rewrite Hm; lia). cbn [fmap list_fmap foldl]. by rewrite xorb_false_l.
  - apply bitopNot_bit. unfold BitSize. lia.
  - destruct l as [|y l]; [done|]. unfold bitopDiff.
    rewrite bitopAnd_two by (rewrite ?length_bitopNot, ?length_bitopOr, ?Hm'; unfold BitSize; done || lia).
    rewrite src_bitopNot by (unfold BitSize; rewrite length_bitopOr, Hm' by done; lia). by rewrite Hor.
  - assert (Hne : l ≠ []) by (by intros ->).
    rewrite bitopAnd_two by (rewrite ?length_bitopNot, ?length_bitopOr, ?Hm'; unfold BitSize; rewrite ?length_bitopNot; done || lia).
    rewrite src_bitopNot by (unfold BitSize; lia). by rewrite Hor.
  - assert (Hne : l ≠ []) by (by intros ->).
    rewrite bitopAnd_two by (rewrite ?length_bitopOr, ?Hm'; unfold BitSize; done || lia). by rewrite Hor.
  - rewrite bitopOne_bit by (rewrite Hm; lia). cbn [fmap list_fmap]. unfold count_true.
    pose proof (length_filter Is_true (src_bit false i x :: (src_bit false i <$> l))) as Hc. cbn [length] in Hc. rewrite length_fmap in Hc.
    set (n := Z.of_nat (length _)). assert (Hn : 0 <= n <= 256) by (unfold n; lia). f_equal.
    destruct (Z.eqb_spec (n mod 256) 1), (Z.eqb_spec n 1); try done; Z.div_mod_to_equations; lia.
Qed.

(** C31: BITOP on sources of one length gives a string of that length, every bit of which is the one that the operation gives for the bits
    of the sources at its place; NOT of one source, DIFF, DIFF1 and ANDOR of two or more, and ONE of at most 256. *)
Theorem bitop_computes (m : mem) op src others :
  Forall (λ a, length (arg_str m a) = length (arg_str m src)) others → bitop_arity op (length others) →
  let r := arg_str m (bitop_result m op src others) in
  length r = length (arg_str m src) ∧
  ∀ i, 0 <= i < BitSize (arg_str m src) →
    bit r i = Z.b2z (bitop_spec op (src_bit false i (arg_str m src)) ((λ a, src_bit false i (arg_str m a)) <$> others)).
Proof.
  intros Hl Ha r.
  assert (Hl' : Forall (λ b, length b = length (arg_str m src)) (arg_str m <$> others)) by (by rewrite Forall_fmap).
  assert (Hm : maxLen (arg_str m <$> src :: others) = length (arg_str m src)) by (apply maxLen_same; [by constructor|done]).
  assert (Hm' : others ≠ [] → maxLen (arg_str m <$> others) = length (arg_str m src)).
  { intros Hne. apply maxLen_same; [done|]. by destruct others. }
  split.
  - unfold r. destruct op; cbn [bitop_arity] in Ha; try (by destruct others); cbn [bitop_result].
    all: try (unfold arg_str at 1; cbn [arg_opt from_option id]; unfold bitopAnd, bitopOr, bitopXor, bitopNot, bitopOne; by rewrite ?length_map, ?length_seq, ?Hm).
    all: destruct others as [|y others]; [done|]; cbn [bitopDiff bitopDiff1 bitopAndOr fmap list_fmap]; unfold arg_str at 1; cbn [arg_opt from_option id].
    all: rewrite length_bitopAnd, !maxLen_cons, ?length_bitopNot, length_bitopOr; cbn [fmap list_fmap] in Hm'; rewrite Hm' by done; change (maxLen []) with 0%nat; lia.
  - intros i Hi. pose proof (bitop_strings op (arg_str m src) (arg_str m <$> others) i Hl') as H. rewrite length_fmap, <- list_fmap_compose in H.
    specialize (H Ha Hi). cbv zeta in H. etransitivity; [|exact H]. unfold r.
    destruct op; cbn [bitop_arity] in Ha; try done; by destruct others.
Qed.

(** ** Concrete runs *)

#[local] Existing Instance ex_runtime.
#[local] Instance no_objects : Objects ObjType := {| obj_type := λ t, t; obj_elems := λ _, [] |}.
#[local] Instance bit_env : Env :=
  {| clock := λ _, 1000 * Second; draw := λ _ _, false; MaxmemoryPolicy := []; ParseIntError := λ _, []; ValueDigest := λ b, b |}.

(** One array, of which the slice has two bytes. *)
Definition bit_db : DB ObjType :=
  MkDB 0 ∅ ∅ ∅ ∅ (MkTimeWheel Second [[]; []; []; []] ∅ 0 4 0) [[Zbyte 250; Zbyte 1; Zbyte 9]] [] [] 0 0.
Definition two_bytes : arg := ARef (MkSlice 0 0 2).

Lemma two_bytes_owned : owned (memory bit_db) two_bytes.
Proof. eexists. split; [done|]. cbn. lia. Qed.

Lemma bitfield_set_get_witness : ∃ old m' a', bfGet [Zbyte 250; Zbyte 1] 10 12 true = Ret old ∧
  bfSet two_bytes 10 12 true 5000 bit_db = Ret ((old, a'), set_mem bit_db m') ∧ slice_step (memory bit_db) two_bytes m' a' ∧
  bfGet (arg_str m' a') 10 12 true = Ret (as_type 12 true 5000) ∧
  ∀ i, 0 <= i → ¬ (10 <= i < 10 + 12) → GetBit (arg_str m' a') i = GetBit [Zbyte 250; Zbyte 1] i.
Proof.
  apply (bitfield_set_get bit_db two_bytes 10 12 true 5000); [apply two_bytes_owned|unfold bf_type; lia|unfold i64, min_i64, max_i64; lia|].
  unfold bf_fits, max_i64. split; [lia|]. split; [lia|]. by vm_compute.
Defined.

Lemma bitfield_increments_witness : ∃ old m' a', bfGet [Zbyte 250; Zbyte 1] 0 8 false = Ret old ∧
  let '(stored, answer, over) := increment Sat 8 false old 10 in
  bfIncrby two_bytes 0 8 false 10 (mode_word Sat) bit_db = Ret ((answer, over, a'), set_mem bit_db m') ∧ slice_step (memory bit_db) two_bytes m' a' ∧
  bfGet (arg_str m' a') 0 8 false = Ret stored ∧ type_min 8 false <= stored <= type_max 8 false ∧
  ∀ i, 0 <= i → ¬ (0 <= i < 0 + 8) → GetBit (arg_str m' a') i = GetBit [Zbyte 250; Zbyte 1] i.
Proof.
  apply (bitfield_increments bit_db two_bytes 0 8 false 10 Sat); [apply two_bytes_owned|unfold bf_type; lia|unfold i64, min_i64, max_i64; lia| |].
  - unfold bf_fits, max_i64. split; [lia|]. split; [lia|]. by vm_compute.
  - right. right. by vm_compute.
Defined.

Lemma bitop_computes_witness :
  let src := ALit (str "ab") in let others := [ALit (str "cd"); ALit (str "ef")] in
  let r := arg_str [] (bitop_result [] OpOne src others) in
  length r = 2%nat ∧ ∀ i, 0 <= i < 16 → bit r i = Z.b2z (bitop_spec OpOne (src_bit false i (str "ab")) ((λ a, src_bit false i (arg_str [] a)) <$> others)).
Proof. apply (bitop_computes [] OpOne (ALit (str "ab")) [ALit (str "cd"); ALit (str "ef")]); [by repeat constructor|cbn; lia]. Defined.

(** ** What the commands do besides *)

Definition line (l : list string) : list arg := ALit ∘ str <$> l.
Definition no_strings : DB ObjType := set_mem bit_db [].

(** A value and what is logged after some commands. *)
Definition value_of (key : bytes) : M ObjType (option bytes) :=
  r ← getAsString key; gets (λ db, match r with inr a => arg_opt (memory db) a | inl _ => None end).
Definition outcome {A} (x : res (A * DB ObjType)) : res (A * nat) := '(a, db) ← x; Ret (a, length (aof db)).
Definition setup (cmds : list (M ObjType reply)) : M ObjType () := forM_ cmds (λ c, c;; mret tt).
Definition bitfield (l : list string) : M ObjType Reply :=
  '(r, _) ← execBitfield ∅ (line l); gets (λ db, resolve (memory db) r).

(** A BITFIELD on a key that holds a small integer writes into the object that
    all keys with this integer share. *)
Lemma bitfield_rewrites_shared_integer :
  outcome ((setup [execSet (line ["a"; "5"]%string); execSet (line ["b"; "5"]%string)];;
    '(_, p) ← execBitfield ∅ (line ["a"; "SET"; "u8"; "0"; "65"]%string);
    r ← getOrInitBitmap p (str "b");
    gets (λ db, match r with inr (a, _) => arg_str (memory db) a | inl _ => [] end)) no_strings) = Ret (str "A", 3%nat).
Proof. vm_compute. reflexivity. Qed.

(** An unsigned field: an increment beyond the type is neither cut off nor
    refused, and the answer is not what is stored. *)
Lemma unsigned_increment_overflows :
  outcome (bitfield ["k"; "SET"; "u8"; "0"; "10"; "OVERFLOW"; "SAT"; "INCRBY"; "u8"; "0"; "300"; "GET"; "u8"; "0"]%string no_strings)
    = Ret (MultiRawReply [IntReply 0; IntReply 310; IntReply 54], 1%nat) ∧
  outcome (bitfield ["k"; "SET"; "u8"; "0"; "10"; "OVERFLOW"; "FAIL"; "INCRBY"; "u8"; "0"; "300"; "GET"; "u8"; "0"]%string no_strings)
    = Ret (MultiRawReply [IntReply 0; IntReply 310; IntReply 54], 1%nat).
Proof. split; vm_compute; reflexivity. Qed.

(** An error after a write: the bytes have changed, and nothing is logged for it. *)
Lemma bitfield_error_keeps_writes :
  outcome ((setup [execSet (line ["k"; "xyz"]%string)];;
    r ← bitfield ["k"; "SET"; "u8"; "0"; "65"; "SET"]%string; v ← value_of (str "k"); mret (r, v)) no_strings)
  = Ret (StandardErrReply (str "ERR syntax error"), Some (str "Ayz"), 1%nat).
Proof. vm_compute. reflexivity. Qed.

(** A negative offset. *)
Lemma bitfield_negative_offset_panics :
  (setup [execSet (line ["k"; "xyz"]%string)];; bitfield ["k"; "GET"; "u8"; "-16"]%string) no_strings = Panic.
Proof. vm_compute. reflexivity. Qed.

(** A GET alone creates the key, and is logged. *)
Lemma bitfield_get_creates_key :
  outcome ((r ← bitfield ["k"; "GET"; "u8"; "0"]%string; v ← value_of (str "k"); mret (r, v)) no_strings)
  = Ret (MultiRawReply [IntReply 0], Some [], 1%nat).
Proof. vm_compute. reflexivity. Qed.

(** The destination of ANDOR with one source has the array of the source. *)
Lemma bitop_andor_shares :
  outcome ((setup [execSet (line ["s"; "abc"]%string); execBitOp (line ["ANDOR"; "d"; "s"]%string); execSetBit (line ["d"; "1"; "0"]%string)];;
    value_of (str "s")) no_strings) = Ret (Some (str "!bc"), 3%nat).
Proof. vm_compute. reflexivity. Qed.

(** With 257 sources the counter of ONE wraps around: a bit that all of them
    have is set; DIFF1 of one source is the empty string. *)
Lemma bitop_many_and_few :
  arg_str [] (bitop_result [] OpOne (ALit (str "a")) (replicate 256 (ALit (str "a")))) = str "a" ∧
  arg_str [] (bitop_result [] OpDiff1 (ALit (str "a")) []) = [].
Proof. split; vm_compute; reflexivity. Qed.

(** Sources of different lengths: the padding of AND shows in the differences;
    DIFF of one source is its complement. *)
Lemma bitop_padding :
  bitopDiff [] [[Zbyte 15]] = [Zbyte 240] ∧ bitopDiff [Zbyte 15] [] = [Zbyte 240] ∧
  bitopDiff1 [Zbyte 0; Zbyte 0] [[Zbyte 1]] = ALit [Zbyte 1; Zbyte 255] ∧
  bitopAndOr [] (ALit [Zbyte 3; Zbyte 3]) [ALit [Zbyte 1]] = ALit [Zbyte 1; Zbyte 3].
Proof. split_and!; vm_compute; reflexivity. Qed.

(** BITOP reads its sources without a lock. *)
Lemma bitop_locks_destination_only :
  ('(ks, _) ← prepareBitOp (O := ObjType) (line ["AND"; "d"; "s"; "t"]%string) no_strings; Ret ks) = Ret ([str "d"], []).
Proof. vm_compute. reflexivity. Qed.
