(* ===== verification/Hll.v ===== *)
(** * HyperLogLog: [internal/datastruct/hll] and [internal/command/hll.go]

    A HyperLogLog is a byte string: a header of 16 bytes and, after it, either
    the registers one after the other (dense) or runs of them (sparse).  The
    operations read and write the array of the string, which the key shares, so
    those that write run on the memory of the key space.

    The floating-point formula that turns the histogram of the registers into a
    number is an argument, [estimate]. *)

From stdpp Require Import base gmap list strings.
From Stdlib Require Import ZArith Lia Ascii.
From S2P Require Import Prelude GoText Strconv ObjString Resp Runtime GoTime TimeWheel KeySpace StringCmd KeyCmd Tx.

Local Open Scope Z_scope.

Definition hllP : Z := 14.
Definition hllQ : Z := 50.
Definition hllRegisters : Z := 16384.
Definition hllBits : Z := 6.
Definition hllDenseSize : Z := 12288.
Definition hllSparse : Z := 0.
Definition hllDense : Z := 1.
Definition hllHdrSize : Z := 16.
Definition hashSeed : Z := 0xadc83b19.
Definition hllSparseMaxZero : Z := 64.
Definition hllSparseMaxXZero : Z := 16384.

(** ** The hash, [murmur.go] *)

Definition murmur_m : Z := 0xc6a4a7935bd1e995.
Definition murmur_r : Z := 47.

(** The little-endian number of some bytes. *)
Definition le_number (b : bytes) : Z := foldr (λ c n, Z.lor (byteZ c) (Z.shiftl n 8)) 0 b.

(** The loop over eight bytes at a time, and the bytes that remain. *)
Fixpoint murmur_blocks (n : nat) (data : bytes) (h : Z) : Z * bytes :=
  match n with
  | O => (h, data)
  | S n =>
      let k := u64 (le_number (take 8 data) * murmur_m) in
      let k := Z.lxor k (Z.shiftr k murmur_r) in
      let k := u64 (k * murmur_m) in
      murmur_blocks n (drop 8 data) (u64 (Z.lxor h k * murmur_m))
  end.

Definition murmurHash64A (data : bytes) (seed : Z) : Z :=
  let h := Z.lxor seed (u64 (Z.of_nat (length data) * murmur_m)) in
  let '(h, tail) := murmur_blocks (length data / 8) data h in
  let h := match tail with [] => h | _ => u64 (Z.lxor h (le_number tail) * murmur_m) end in
  let h := Z.lxor h (Z.shiftr h murmur_r) in
  let h := u64 (h * murmur_m) in
  Z.lxor h (Z.shiftr h murmur_r).

(** Trailing zeros of a hash with a guard bit, plus one. *)
Fixpoint trailing (fuel : nat) (hash count : Z) : Z :=
  match fuel with
  | O => count
  | S fuel => if (count <? hllQ) && (Z.land hash (Z.shiftl 1 count) =? 0) then trailing fuel hash (count + 1) else count
  end.
Definition hllPatLen (hash : Z) : Z := trailing 50 (Z.lor hash (Z.shiftl 1 hllQ)) 0 + 1.

(** ** Dense registers *)

(** [raw[i]] *)
Definition at_byte (raw : bytes) (i : Z) : res Z := c ← must (raw !! Z.to_nat i); Ret (byteZ c).

Definition denseGetRegister (raw : bytes) (reg : Z) : res Z :=
  let off := hllHdrSize + reg * hllBits in
  b0 ← at_byte raw (off / 8);
  b1 ← at_byte raw (off / 8 + 1);
  Ret (Z.land (Z.shiftr (Z.lor b0 (Z.shiftl b1 8)) (off mod 8)) 0x3F).

(** ** Sparse runs *)

(** One opcode: a run of zero registers, short or long, or a value; [Bytes] are
    those it was read from. *)
Inductive sop_kind := SZero | SXZero | SVal.
#[export] Instance sop_kind_eq_dec : EqDecision sop_kind.
Proof. solve_decision. Defined.
Record sop := MkSop { SKind : sop_kind; SArg : Z; SBytes : bytes }.

Definition sparseDecode (b0 : ascii) (next : option ascii) : option sop :=
  let b := byteZ b0 in
  if Z.land b 0xC0 =? 0x00 then Some (MkSop SZero (Z.land b 0x3F) [b0])
  else if Z.land b 0xC0 =? 0x40 then
    c ← next; Some (MkSop SXZero (Z.lor (Z.shiftl (Z.land b 0x3F) 8) (byteZ c)) [b0; c])
  else Some (MkSop SVal (Z.land (Z.shiftr b 2) 0x1F) [b0]).

(** The opcodes of a body; [true] when the last one lacks a byte, where reading
    it panics. *)
Fixpoint sparse_ops (body : bytes) : list sop * bool :=
  match body with
  | [] => ([], false)
  | b0 :: rest =>
      match sparseDecode b0 (head rest) with
      | None => ([], true)
      | Some o =>
          let '(ops, cut) := match SKind o, rest with SXZero, _ :: rest => sparse_ops rest | _, _ => sparse_ops rest end in
          (o :: ops, cut)
      end
  end.

Definition sparseEncodeZero (count : Z) : bytes := [Zbyte (Z.land count 0x3F)].
Definition sparseEncodeXZero (count : Z) : bytes := [Zbyte (Z.lor 0x40 (Z.shiftr count 8)); Zbyte (Z.land count 0xFF)].
Definition sparseEncodeVal (val : Z) : bytes := [Zbyte (Z.lor 0x80 (Z.shiftl val 2))].

(** How many registers an opcode stands for. *)
Definition sop_count (o : sop) : Z := match SKind o with SVal => 1 | _ => SArg o + 1 end.

Fixpoint sparse_get (ops : list sop) (cut : bool) (target reg : Z) : res Z :=
  match ops with
  | [] => if cut then Panic else Ret 0
  | o :: ops =>
      match SKind o with
      | SVal => if reg =? target then Ret (SArg o + 1) else sparse_get ops cut target (reg + 1)
      | _ => if target <? reg + SArg o + 1 then Ret 0 else sparse_get ops cut target (reg + SArg o + 1)
      end
  end.
Definition body_of (raw : bytes) : bytes := drop (Z.to_nat hllHdrSize) raw.
Definition sparseGetRegister (raw : bytes) (target : Z) : res Z :=
  let '(ops, cut) := sparse_ops (body_of raw) in sparse_get ops cut target 0.

(** The opcode that holds the target, split around the new value. *)
Definition sparse_split (o : sop) (r target val : Z) : bytes :=
  let before := target - r in
  let after := r + sop_count o - target - 1 in
  match SKind o with
  | SVal => sparseEncodeVal val
  | k =>
      (if 0 <? before then if bool_decide (k = SXZero) then sparseEncodeXZero (before - 1) else sparseEncodeZero (before - 1) else [])
      ++ sparseEncodeVal val
      ++ (if 0 <? after then if after <=? hllSparseMaxZero then sparseEncodeZero (after - 1) else sparseEncodeXZero (after - 1) else [])
  end.

Fixpoint sparse_rebuild (ops : list sop) (r target val : Z) : bytes :=
  match ops with
  | [] => []
  | o :: ops =>
      (if (r + sop_count o <=? target) || (target <? r) then SBytes o else sparse_split o r target val)
      ++ sparse_rebuild ops (r + sop_count o) target val
  end.

(** [coalesceSparse]: adjacent runs are merged, from the last one back ... *)
Definition merge_op (merged : list (sop_kind * Z)) (o : sop_kind * Z) : list (sop_kind * Z) :=
  match last merged, o with
  | Some (SZero, n), (SZero, m) => removelast merged ++ [(SZero, n + m)]
  | Some (SZero, n), (SXZero, m) => removelast merged ++ [(SXZero, n + m)]
  | Some (SXZero, n), (SZero, m) | Some (SXZero, n), (SXZero, m) => removelast merged ++ [(SXZero, n + m)]
  | _, _ => merged ++ [o]
  end.

(** ... and written again, runs that are too long in parts. *)
Fixpoint write_run (fuel : nat) (enc : Z → bytes) (most rem : Z) : bytes :=
  match fuel with
  | O => []
  | S fuel =>
      if rem <=? 0 then [] else
      let n := if most <? rem then most else rem in
      enc (n - 1) ++ write_run fuel enc most (rem - n)
  end.
Definition write_op (o : sop_kind * Z) : bytes :=
  match o with
  | (SZero, n) => write_run (Z.to_nat n) sparseEncodeZero hllSparseMaxZero n
  | (SXZero, n) => write_run (Z.to_nat n) sparseEncodeXZero hllSparseMaxXZero n
  | (SVal, v) => sparseEncodeVal (v mod 256)
  end.

Definition coalesceSparse (body : bytes) : res bytes :=
  let '(ops, cut) := sparse_ops body in
  if cut : bool then Panic else
  Ret (concat (map write_op (foldl merge_op [] (map (λ o, (SKind o, SArg o + 1)) ops)))).

(** The new body of [sparseSetRegister]; none when it is too long. *)
Definition sparse_body (raw : bytes) (target val : Z) : res (option bytes) :=
  let '(ops, cut) := sparse_ops (body_of raw) in
  if cut : bool then Panic else
  let newBody := sparse_rebuild ops 0 target val in
  if hllDenseSize <? Z.of_nat (length newBody) then Ret None else
  newBody ← coalesceSparse newBody;
  Ret (if hllDenseSize <? Z.of_nat (length newBody) then None else Some newBody).

(** The registers of a sparse body as promotion and counting walk it: the value
    opcodes with their registers, up to the last register. *)
Fixpoint sparse_values (ops : list sop) (cut : bool) (reg : Z) : res (list (Z * Z)) :=
  if hllRegisters <=? reg then Ret [] else
  match ops with
  | [] => if cut then Panic else Ret []
  | o :: ops =>
      match SKind o with
      | SVal => l ← sparse_values ops cut (reg + 1); Ret ((reg, SArg o + 1) :: l)
      | _ => sparse_values ops cut (reg + (SArg o + 1))
      end
  end.

(** ** Strings *)

(** [New] *)
Definition hll_New : bytes :=
  str "HYLL" ++ replicate 12 (Zbyte 0) ++ [Zbyte (Z.lor 0x40 (Z.shiftr (hllRegisters - 1) 8)); Zbyte (Z.land (hllRegisters - 1) 0xFF)]
  ++ replicate 16382 (Zbyte 0).

Definition hll_FromBytes (b : bytes) : bool :=
  negb ((Z.of_nat (length b) <? hllHdrSize) || negb (bytes_eqb (take 4 b) (str "HYLL"))).

Definition is_dense (raw : bytes) : res bool := b ← at_byte raw 4; Ret (b =? hllDense).
Definition get_register (raw : bytes) (reg : Z) : res Z :=
  d ← is_dense raw; if d : bool then denseGetRegister raw reg else sparseGetRegister raw reg.

(** The cached number of bytes 5 to 12. *)
Definition cached (raw : bytes) : Z := le_number (take 8 (drop 5 raw)).
Definition cache_bytes (est : Z) : list (Z * Z) := (λ k, (5 + k, Z.land (Z.shiftr est (8 * k)) 0xFF)) <$> [0; 1; 2; 3; 4; 5; 6; 7].

(** The registers as [Count] collects them. *)
Fixpoint dense_registers (raw : bytes) (n : nat) (i : Z) : res (list Z) :=
  match n with O => Ret [] | S n => v ← denseGetRegister raw i; l ← dense_registers raw n (i + 1); Ret (v :: l) end.
Definition registers (raw : bytes) : res (list Z) :=
  d ← is_dense raw;
  if d : bool then dense_registers raw (Z.to_nat hllRegisters) 0
  else
    let '(ops, cut) := sparse_ops (body_of raw) in
    vs ← sparse_values ops cut 0;
    Ret (foldl (λ l '(reg, v), <[Z.to_nat reg := v]> l) (replicate (Z.to_nat hllRegisters) 0) vs).

(** [reghisto]: a value above 51 has no place. *)
Fixpoint histogram (l : list Z) (h : list Z) : res (list Z) :=
  match l with
  | [] => Ret h
  | v :: l => n ← must (h !! Z.to_nat v); histogram l (<[Z.to_nat v := n + 1]> h)
  end.

(** The registers a key's string has, which the floating-point part turns into
    a number. *)
Class Estimator := { estimate : list Z → Z }.

Section hll.
Context {O : Type} `{!Objects O} {env : Env} {rt : Runtime} {est : Estimator}.
Local Abbreviation M := (M O).

(** [raw[i] = v] *)
Definition put_byte (raw : arg) (i v : Z) : M unit := store raw i (Zbyte v).
Definition raw_byte (raw : arg) (i : Z) : M Z := b ← string_of raw; lift (at_byte b i).

Definition denseSetRegister (raw : arg) (reg val : Z) : M unit :=
  let off := hllHdrSize + reg * hllBits in
  let idx := off / 8 in
  let bit := off mod 8 in
  let mask := Z.land (Z.shiftl 0x3F bit) 0xFFFF in
  b ← raw_byte raw idx; put_byte raw idx (Z.ldiff b (Z.land mask 0xFF));;
  b ← raw_byte raw (idx + 1); put_byte raw (idx + 1) (Z.ldiff b (Z.shiftr mask 8));;
  let v := Z.land (Z.shiftl val bit) 0xFFFF in
  b ← raw_byte raw idx; put_byte raw idx (Z.lor b (Z.land v 0xFF));;
  b ← raw_byte raw (idx + 1); put_byte raw (idx + 1) (Z.lor b (Z.shiftr v 8)).

(** A new array with the header and the registers. *)
Definition promoteToDense (raw : arg) : M arg :=
  b ← string_of raw;
  s ← alloc (<[4%nat := Zbyte hllDense]> (take 16 b) ++ replicate (Z.to_nat hllDenseSize) (Zbyte 0));
  let newRaw := ARef s in
  let '(ops, cut) := sparse_ops (body_of b) in
  vs ← lift (sparse_values ops cut 0);
  forM_ vs (λ '(reg, v), denseSetRegister newRaw reg (v mod 256));;
  mret newRaw.

(** [append(h.raw[:hllHdrSize], newBody...)] *)
Definition header_slice (raw : arg) : arg :=
  match raw with ARef s => ARef (MkSlice (Arr s) (SOff s) 16) | _ => raw end.
Definition sparseSetRegister (raw : arg) (target val : Z) : M (option arg) :=
  b ← string_of raw;
  nb ← lift (sparse_body b target val);
  match nb with
  | None => mret None
  | Some newBody => a ← append (header_slice raw) newBody; mret (Some a)
  end.

(** A register raised, dense or sparse, with promotion. *)
Definition set_register (raw : arg) (reg val : Z) : M arg :=
  b ← string_of raw;
  d ← lift (is_dense b);
  if d : bool then denseSetRegister raw reg val;; mret raw
  else
    r ← sparseSetRegister raw reg val;
    match r with
    | Some raw => mret raw
    | None => raw ← promoteToDense raw; denseSetRegister raw reg val;; mret raw
    end.

Definition hll_Add (raw : arg) (elem : bytes) : M (bool * arg) :=
  let hash := murmurHash64A elem hashSeed in
  let idx := Z.land hash (hllRegisters - 1) in
  let rank := hllPatLen (Z.shiftr hash hllP) in
  b ← string_of raw;
  old ← lift (get_register b idx);
  if rank <=? old then mret (false, raw)
  else
    put_byte raw 14 0;;
    raw ← set_register raw idx rank;
    mret (true, raw).

(** The number, from the cache or computed and cached. *)
Definition hll_Count (raw : arg) : M Z :=
  valid ← raw_byte raw 14;
  b ← string_of raw;
  if negb (valid =? 0) then mret (cached b)
  else
    regs ← lift (registers b);
    h ← lift (histogram regs (replicate 52 0));
    let n := u64 (estimate h) in
    forM_ (cache_bytes n) (λ '(i, v), put_byte raw i v);;
    put_byte raw 14 1;;
    mret n.

Fixpoint merge_registers (n : nat) (i : Z) (raw other : arg) : M arg :=
  match n with
  | 0%nat => mret raw
  | Datatypes.S n =>
      a ← string_of raw; aVal ← lift (get_register a i);
      b ← string_of other; bVal ← lift (get_register b i);
      raw ← (if aVal <? bVal then set_register raw i bVal else mret raw);
      merge_registers n (i + 1) raw other
  end.
Definition hll_Merge (raw other : arg) : M arg :=
  raw ← merge_registers (Z.to_nat hllRegisters) 0 raw other;
  put_byte raw 14 0;;
  mret raw.

(** ** Commands *)

Definition invalid_hll : reply := RErr "WRONGTYPE Key is not a valid HyperLogLog string value.".

Definition getAsHLL (key : bytes) : M (reply + option arg) :=
  e ← GetEntity key;
  let from (a : arg) : M (reply + option arg) :=
    b ← string_of a; if hll_FromBytes b then mret (inr (Some a)) else mret (inl invalid_hll) in
  match e with
  | None => mret (inr None)
  | Some (EInt v) => from (ALit (formatInt64 v))
  | Some (EStr _ b) => from b
  | Some _ => mret (inl RWrongType)
  end.

Definition new_hll : M arg := s ← alloc hll_New; mret (ARef s).
Definition storeHLL (key : bytes) (raw : arg) : M unit := raw ← own raw; PutEntity key (EStr EncRaw raw);; mret tt.

Fixpoint add_all (raw : arg) (elems : list arg) (changed : bool) : M (bool * arg) :=
  match elems with
  | [] => mret (changed, raw)
  | e :: elems => e ← string_of e; '(c, raw) ← hll_Add raw e; add_all raw elems (changed || c)
  end.

Definition execPFAdd : ExecFunc O := λ args,
  key ← str_at args 0;
  if (length args =? 1)%nat then
    e ← GetEntity key;
    match e with
    | Some _ => mret (RInt 0)
    | None => h ← new_hll; storeHLL key h;; addAof (ToCmdLine3 "pfadd" args);; mret (RInt 1)
    end
  else
    r ← getAsHLL key;
    match r with
    | inl e => mret e
    | inr h =>
        raw ← match h with Some raw => mret raw | None => new_hll end;
        let created := match h with Some _ => false | None => true end in
        '(changed, raw) ← add_all raw (drop 1 args) false;
        if created || changed then
          storeHLL key raw;; addAof (ToCmdLine3 "pfadd" args);; mret (RInt 1)
        else mret (RInt 0)
    end.

(** The sources merged one by one; an error stops, what was merged stays. *)
Fixpoint merge_keys (keys : list arg) (raw : arg) : M (reply + arg) :=
  match keys with
  | [] => mret (inr raw)
  | k :: keys =>
      key ← string_of k;
      r ← getAsHLL key;
      match r with
      | inl e => mret (inl e)
      | inr None => merge_keys keys raw
      | inr (Some h) => raw ← hll_Merge raw h; merge_keys keys raw
      end
  end.

Definition execPFCount : ExecFunc O := λ args,
  match args with
  | [k] =>
      key ← string_of k;
      r ← getAsHLL key;
      match r with
      | inl e => mret e
      | inr None => mret (RInt 0)
      | inr (Some h) => n ← hll_Count h; mret (RInt (wrap64 n))
      end
  | _ =>
      merged ← new_hll;
      r ← merge_keys args merged;
      match r with
      | inl e => mret e
      | inr merged => n ← hll_Count merged; mret (RInt (wrap64 n))
      end
  end.

Definition execPFMerge : ExecFunc O := λ args,
  destKey ← str_at args 0;
  r ← getAsHLL destKey;
  match r with
  | inl e => mret e
  | inr d =>
      dest ← match d with Some raw => mret raw | None => new_hll end;
      r ← merge_keys (drop 1 args) dest;
      match r with
      | inl e => mret e
      | inr dest =>
          storeHLL destKey dest;;
          addAof (ToCmdLine3 "pfmerge" args);;
          mret (RConst OkReply)
      end
  end.

Definition says_dense (b : bytes) : bool := (5 <? Z.of_nat (length b)) && bool_decide (b !! 4%nat = Some (Zbyte 1)).
Definition status (s : string) : reply := RConst (StatusReply (str s)).

(** PFDEBUG TODENSE adds padding elements until the encoding changes. *)
Definition pad_elem (i : nat) : bytes := str "pfdebug-todense-pad-" ++ replicate (i mod 50) "x"%char.
Fixpoint add_pads (n i : nat) (raw : arg) : M arg :=
  match n with
  | 0%nat => mret raw
  | Datatypes.S n =>
      '(_, raw) ← hll_Add raw (pad_elem i);
      v ← raw_byte raw 4;
      if v =? 1 then mret raw else add_pads n (i + 1) raw
  end.

Definition execPFDebug : ExecFunc O := λ args,
  a0 ← str_at args 0;
  let subCmd := ToUpper a0 in
  key ← str_at args 1;
  r ← getAsHLL key;
  match r with
  | inl e => mret e
  | inr None => mret (RErr "ERR no such key")
  | inr (Some raw) =>
      b ← string_of raw;
      if bytes_eqb subCmd (str "GETREG") then
        mret (RBulk (if (length b <=? 16)%nat then ALit [] else
                     match raw with ARef s => ARef (MkSlice (Arr s) (SOff s + 16) (SLen s - 16)) | _ => ALit (drop 16 b) end))
      else if bytes_eqb subCmd (str "ENCODING") then mret (status (if says_dense b then "dense"%string else "sparse"%string))
      else if bytes_eqb subCmd (str "TODENSE") then
        if says_dense b then mret (status "dense")
        else
          raw ← add_pads 200 0 raw;
          storeHLL key raw;;
          addAof (ToCmdLine3 "pfdebug" args);;
          v ← raw_byte raw 4;
          mret (status (if v =? 1 then "dense"%string else "sparse"%string))
      else if bytes_eqb subCmd (str "DECODE") then
        let enc := (if (5 <? Z.of_nat (length b)) && bool_decide (b !! 4%nat = Some (Zbyte 0)) then "sparse"%string else "dense"%string) in
        count ← hll_Count raw;
        mret (RConst (StatusReply (str "Encoding: " ++ str enc ++ str ", Registers: 16384, Count: " ++ Itoa count)))
      else mret (RConst (StandardErrReply (str "ERR unknown PFDEBUG subcommand '" ++ subCmd ++ str "'")))
  end.

Definition hll_commands : list (bytes * command O) := [
  registerCommand "pfadd" execPFAdd writeFirstKey None (-2) flagWrite (w_oom ++ ["fast"%string]) (on_string "pfadd");
  registerCommand "pfcount" execPFCount readFirstKey None (-2) flagReadOnly ["readonly"]%string None;
  registerCommand "pfmerge" execPFMerge writeFirstKey None (-2) flagWrite w_oom None;
  registerCommand "pfdebug" execPFDebug writeFirstKey None (-3) flagWrite ["admin"]%string None].
End hll.
