(* ===== verification/HllThm.v ===== *)
(** * What the HyperLogLog guarantees

    The dense registers are independent numbers of six bits: adding an element
    raises one of them and merging takes the greater of each two, apart from
    the two registers that lie on the byte of the cache.  Runs show what comes of
    the registers that lie on the header, and of the sparse encoding. *)

From stdpp Require Import base gmap list strings.
From Stdlib Require Import ZArith Lia Ascii.
From S2P Require Import Prelude Strconv ObjString Resp Runtime EventLoopThm GoTime TimeWheel KeySpace StringCmd KeyCmd Tx KeySpaceThm BitThm Hll.

Local Open Scope Z_scope.

(** ** Registers as bits *)

(** Bit [k] of a string, the lowest of a byte first. *)
Definition lbit (raw : bytes) (k : Z) : bool :=
  match raw !! Z.to_nat (k / 8) with Some c => Z.testbit (byteZ c) (k mod 8) | None => false end.

Definition reg_off (reg : Z) : Z := 16 + reg * 6.

(** A string that has all the registers. *)
Definition has_registers (raw : bytes) : Prop := 12291 <= Z.of_nat (length raw).

Lemma at_byte_spec raw i : 0 <= i < Z.of_nat (length raw) → ∃ c, raw !! Z.to_nat i = Some c ∧ at_byte raw i = Ret (byteZ c).
Proof. intros Hi. unfold at_byte. destruct (lookup_lt_is_Some_2 raw (Z.to_nat i)) as [c ->]; [lia|]. by exists c. Qed.

Lemma lbit_at raw i c t : 0 <= i → 0 <= t < 8 → raw !! Z.to_nat i = Some c → lbit raw (8 * i + t) = Z.testbit (byteZ c) t.
Proof.
  intros Hi Ht Hc. unfold lbit. replace ((8 * i + t) / 8) with i by (Z.div_mod_to_equations; lia).
  replace ((8 * i + t) mod 8) with t by (Z.div_mod_to_equations; lia). by rewrite Hc.
Qed.

Lemma byte_high c t : 8 <= t → Z.testbit (byteZ c) t = false.
Proof. intros Ht. pose proof (byteZ_range c). rewrite (testbit_high _ 8) by lia. apply Z.ltb_ge. lia. Qed.

Lemma denseGet_bits raw reg : has_registers raw → 0 <= reg < 16384 →
  ∃ v, denseGetRegister raw reg = Ret v ∧ 0 <= v < 64 ∧ ∀ j, 0 <= j → Z.testbit v j = (j <? 6) && lbit raw (reg_off reg + j).
Proof.
  unfold has_registers, reg_off. intros Hl Hr. unfold denseGetRegister, hllHdrSize, hllBits. remember (16 + reg * 6) as off eqn:Eo.
  pose proof (Z.mod_pos_bound off 8 ltac:(lia)) as Hm. pose proof (Z.div_mod off 8 ltac:(lia)) as Hd.
  assert (Hq : 0 <= off / 8 < 12290) by (split; [apply Z.div_pos|apply Z.div_lt_upper_bound]; lia).
  destruct (at_byte_spec raw (off / 8)) as (c0 & Hc0 & ->); [lia|]. destruct (at_byte_spec raw (off / 8 + 1)) as (c1 & Hc1 & ->); [lia|]. cbn [mbind res_bind].
  eexists. split; [done|]. change 63 with (Z.ones 6). rewrite Z.land_ones by lia. split; [apply Z.mod_pos_bound; lia|]. intros j Hj.
  rewrite <- Z.land_ones, Z.land_spec, Z.testbit_ones_nonneg, andb_comm by lia. destruct (Z.ltb_spec j 6); [|done]. cbn [andb].
  rewrite Z.shiftr_spec, Z.lor_spec by lia. destruct (Z.lt_ge_cases (j + off mod 8) 8).
  - rewrite Z.shiftl_spec_low, orb_false_r by lia. rewrite <- (lbit_at raw (off / 8) c0) by (done || lia). f_equal. lia.
  - rewrite Z.shiftl_spec, byte_high by lia. cbn [orb]. rewrite <- (lbit_at raw (off / 8 + 1) c1) by (done || lia). f_equal. lia.
Qed.

(** Registers with the same bits. *)
Lemma denseGet_ext raw raw' reg : has_registers raw → has_registers raw' → 0 <= reg < 16384 →
  (∀ k, reg_off reg <= k < reg_off reg + 6 → lbit raw' k = lbit raw k) → denseGetRegister raw' reg = denseGetRegister raw reg.
Proof.
  intros H H' Hr Hb. destruct (denseGet_bits raw reg H Hr) as (v & -> & _ & Hv). destruct (denseGet_bits raw' reg H' Hr) as (v' & -> & _ & Hv').
  f_equal. apply Z.bits_inj'. intros j Hj. rewrite Hv, Hv' by done. destruct (Z.ltb_spec j 6); [|done]. cbn [andb]. apply Hb. lia.
Qed.

Lemma denseGet_is raw reg val : has_registers raw → 0 <= reg < 16384 → 0 <= val < 64 →
  (∀ j, 0 <= j < 6 → lbit raw (reg_off reg + j) = Z.testbit val j) → denseGetRegister raw reg = Ret val.
Proof.
  intros H Hr Hval Hb. destruct (denseGet_bits raw reg H Hr) as (v & -> & _ & Hv). f_equal. apply Z.bits_inj'. intros j Hj. rewrite Hv by done.
  destruct (Z.ltb_spec j 6); cbn [andb]; [by apply Hb|]. symmetry. rewrite (testbit_high _ 6) by lia. apply Z.ltb_ge. lia.
Qed.

Lemma lbit_insert raw i v k : 0 <= i → 0 <= k → (Z.to_nat i < length raw)%nat →
  lbit (<[Z.to_nat i := Zbyte v]> raw) k = if k / 8 =? i then Z.testbit v (k mod 8) else lbit raw k.
Proof.
  intros Hi Hk Hl. unfold lbit. pose proof (Z.mod_pos_bound k 8 ltac:(lia)). assert (0 <= k / 8) by (apply Z.div_pos; lia).
  destruct (Z.eqb_spec (k / 8) i) as [->|Hne].
  - rewrite list_lookup_insert_eq by done. rewrite byteZ_Zbyte. change 256 with (2 ^ 8). by rewrite Z.mod_pow2_bits_low by lia.
  - rewrite list_lookup_insert_ne by lia. done.
Qed.

(** ** Dense strings *)

(** The number in a register. *)
Definition dreg (raw : bytes) (reg : Z) : Z := match denseGetRegister raw reg with Ret v => v | _ => 0 end.

Lemma dreg_spec raw reg : has_registers raw → 0 <= reg < 16384 → denseGetRegister raw reg = Ret (dreg raw reg) ∧ 0 <= dreg raw reg < 64.
Proof. intros H Hr. unfold dreg. destruct (denseGet_bits raw reg H Hr) as (v & -> & Hv & _). done. Qed.

Definition dense_ok (raw : bytes) : Prop := has_registers raw ∧ take 5 raw = str "HYLL" ++ [Zbyte 1].

Lemma dense_ok_is raw reg : dense_ok raw → is_dense raw = Ret true ∧ get_register raw reg = denseGetRegister raw reg.
Proof.
  intros [_ H]. assert (E : is_dense raw = Ret true); [|unfold get_register; by rewrite E].
  assert (H4 : raw !! 4%nat = Some (Zbyte 1)) by (rewrite <- (lookup_take_lt raw 5 4) by lia; by rewrite H).
  unfold is_dense, at_byte. change (Z.to_nat 4) with 4%nat. rewrite H4. done.
Qed.

Lemma byte_ext c d : (∀ t, 0 <= t < 8 → Z.testbit (byteZ c) t = Z.testbit (byteZ d) t) → c = d.
Proof.
  intros H. rewrite <- (Zbyte_byteZ c), <- (Zbyte_byteZ d). f_equal. apply Z.bits_inj'. intros t Ht.
  destruct (Z.lt_ge_cases t 8); [by apply H|by rewrite !byte_high].
Qed.

(** The first five bytes are the first forty bits. *)
Lemma dense_ok_ext raw raw' : length raw' = length raw → (∀ k, 0 <= k < 40 → lbit raw' k = lbit raw k) → dense_ok raw → dense_ok raw'.
Proof.
  intros Hl Hb [Hr Ht]. unfold dense_ok, has_registers in *. rewrite Hl. split; [done|]. rewrite <- Ht. apply list_eq. intros i.
  destruct (decide (i < 5)%nat); [|by rewrite !lookup_take_ge by lia]. rewrite !lookup_take_lt by lia.
  destruct (lookup_lt_is_Some_2 raw i) as [c Hc]; [lia|]. destruct (lookup_lt_is_Some_2 raw' i) as [c' Hc']; [lia|].
  rewrite Hc, Hc'. f_equal. apply byte_ext. intros t Ht'.
  rewrite <- (lbit_at raw (Z.of_nat i) c), <- (lbit_at raw' (Z.of_nat i) c') by (rewrite ?Nat2Z.id; done || lia). apply Hb. lia.
Qed.

(** Two dense strings have the same first four registers, which lie on the magic
    and the encoding. *)
Lemma dense_head raw raw' reg : dense_ok raw → dense_ok raw' → 0 <= reg < 4 → denseGetRegister raw' reg = denseGetRegister raw reg.
Proof.
  intros [H1 H2] [H1' H2'] Hr. apply denseGet_ext; [done|done|lia|]. unfold reg_off. intros k Hk.
  assert (Hq : 0 <= k / 8 < 5) by (split; [apply Z.div_pos|apply Z.div_lt_upper_bound]; lia).
  unfold lbit. rewrite <- (lookup_take_lt raw 5), <- (lookup_take_lt raw' 5) by lia. by rewrite H2, H2'.
Qed.

Lemma trailing_range fuel hash count : count <= trailing fuel hash count <= count + Z.of_nat fuel.
Proof.
  revert count. induction fuel as [|fuel IH]; intros count; cbn [trailing]; [lia|]. destruct (_ && _); [|lia]. specialize (IH (count + 1)). lia.
Qed.
Lemma hllPatLen_range hash : 1 <= hllPatLen hash <= 51.
Proof. unfold hllPatLen. pose proof (trailing_range 50 (Z.lor hash (Z.shiftl 1 hllQ)) 0). lia. Qed.

(** ** Writing registers *)

Section commands.
Context {O : Type} `{!Objects O} {env : Env} {rt : Runtime} {est : Estimator}.

Lemma put_byte_run (db : DB O) s i v : in_mem (memory db) s → 0 <= i < Z.of_nat (SLen s) → ∃ m', put_byte (ARef s) i v db = Ret (tt, set_mem db m') ∧
  slice_step (memory db) (ARef s) m' (ARef s) ∧
  ∀ k, 0 <= k → lbit (slice_bytes m' s) k = if k / 8 =? i then Z.testbit v (k mod 8) else lbit (slice_bytes (memory db) s) k.
Proof.
  intros Hin Hi. destruct (store_owned db s i (Zbyte v) Hin Hi) as (m' & E & Hs & Hb). exists m'. split; [exact E|]. split; [done|].
  intros k Hk. rewrite Hb. apply lbit_insert; [lia|done|]. rewrite slice_bytes_length by done. lia.
Qed.

(** A byte changed bit by bit. *)
Lemma update_byte (db : DB O) s i (op : Z → Z → Z) (opb : bool → bool → bool) x : in_mem (memory db) s → 0 <= i < Z.of_nat (SLen s) →
  (∀ a b j, 0 <= j → Z.testbit (op a b) j = opb (Z.testbit a j) (Z.testbit b j)) →
  ∃ m', (b ← raw_byte (ARef s) i; put_byte (ARef s) i (op b x)) db = Ret (tt, set_mem db m') ∧ slice_step (memory db) (ARef s) m' (ARef s) ∧
  ∀ k, 0 <= k → lbit (slice_bytes m' s) k = if k / 8 =? i then opb (lbit (slice_bytes (memory db) s) k) (Z.testbit x (k mod 8)) else lbit (slice_bytes (memory db) s) k.
Proof.
  intros Hin Hi Hop. destruct (at_byte_spec (slice_bytes (memory db) s) i) as (c & Hc & Ec); [rewrite slice_bytes_length by done; lia|].
  destruct (put_byte_run db s i (op (byteZ c) x) Hin Hi) as (m' & E & Hs & Hb). exists m'.
  unfold raw_byte. rewrite run_assoc, run_string_of, run_lift. change (arg_str (memory db) (ARef s)) with (slice_bytes (memory db) s). rewrite Ec, E.
  split; [done|]. split; [done|]. intros k Hk. rewrite Hb by done. destruct (Z.eqb_spec (k / 8) i) as [<-|]; [|done].
  pose proof (Z.mod_pos_bound k 8 ltac:(lia)). rewrite Hop by lia. unfold lbit. by rewrite Hc.
Qed.

Lemma run_then {A B} (m : M O A) (f : A → M O ()) (k : M O B) (db : DB O) db' :
  (m ≫= f) db = Ret (tt, db') → (m ≫= λ a, f a ≫= λ _, k) db = k db'.
Proof. intros E. rewrite <- run_assoc. by rewrite (run_step _ _ _ _ _ E). Qed.

Lemma step_in_mem m m' s : slice_step m (ARef s) m' (ARef s) → in_mem m' s.
Proof. by intros [H _ _ _]. Qed.

Lemma denseSet_run (db : DB O) s reg val : in_mem (memory db) s → 12291 <= Z.of_nat (SLen s) → 0 <= reg < 16384 → 0 <= val < 64 →
  ∃ m', denseSetRegister (ARef s) reg val db = Ret (tt, set_mem db m') ∧ slice_step (memory db) (ARef s) m' (ARef s) ∧
  ∀ k, 0 <= k → lbit (slice_bytes m' s) k =
    if (reg_off reg <=? k) && (k <? reg_off reg + 6) then Z.testbit val (k - reg_off reg) else lbit (slice_bytes (memory db) s) k.
Proof.
  unfold reg_off. intros Hin Hl Hr Hv. unfold denseSetRegister, hllHdrSize, hllBits. remember (16 + reg * 6) as off eqn:Eo.
  pose proof (Z.mod_pos_bound off 8 ltac:(lia)) as Hm. pose proof (Z.div_mod off 8 ltac:(lia)) as Hd.
  assert (Hq : 0 <= off / 8 < 12290) by (split; [apply Z.div_pos|apply Z.div_lt_upper_bound]; lia).
  remember (off / 8) as idx eqn:Ei. remember (off mod 8) as bit eqn:Eb. clear Ei Eb.
  remember (Z.land (Z.shiftl 63 bit) 65535) as mask eqn:Em. remember (Z.land (Z.shiftl val bit) 65535) as v eqn:Ev.
  assert (Hmask : ∀ u, 0 <= u < 16 → Z.testbit mask u = (bit <=? u) && (u <? bit + 6)).
  { intros u Hu. subst mask. change 65535 with (Z.ones 16). change 63 with (Z.ones 6). rewrite Z.land_spec, Z.ones_spec_low, andb_true_r, Z.shiftl_spec by lia.
    destruct (Z.leb_spec bit u); cbn [andb]; [|by rewrite Z.testbit_neg_r by lia]. rewrite Z.testbit_ones_nonneg by lia. by destruct (Z.ltb_spec (u - bit) 6), (Z.ltb_spec u (bit + 6)); try lia. }
  assert (Hval : ∀ u, 0 <= u < 16 → Z.testbit v u = (bit <=? u) && (u <? bit + 6) && Z.testbit val (u - bit)).
  { intros u Hu. subst v. change 65535 with (Z.ones 16). rewrite Z.land_spec, Z.ones_spec_low, andb_true_r, Z.shiftl_spec by lia.
    destruct (Z.leb_spec bit u); cbn [andb]; [|by rewrite Z.testbit_neg_r by lia]. destruct (Z.ltb_spec u (bit + 6)); [done|].
    rewrite (testbit_high _ 6) by lia. apply Z.ltb_ge. lia. }
  destruct (update_byte db s idx Z.ldiff (λ a b, a && negb b) (Z.land mask 255) Hin ltac:(lia)) as (m1 & E1 & S1 & B1); [intros; apply Z.ldiff_spec|].
  destruct (update_byte (set_mem db m1) s (idx + 1) Z.ldiff (λ a b, a && negb b) (Z.shiftr mask 8) (step_in_mem _ _ _ S1) ltac:(lia)) as (m2 & E2 & S2 & B2); [intros; apply Z.ldiff_spec|].
  destruct (update_byte (set_mem db m2) s idx Z.lor orb (Z.land v 255) (step_in_mem _ _ _ S2) ltac:(lia)) as (m3 & E3 & S3 & B3); [intros; apply Z.lor_spec|].
  destruct (update_byte (set_mem db m3) s (idx + 1) Z.lor orb (Z.shiftr v 8) (step_in_mem _ _ _ S3) ltac:(lia)) as (m4 & E4 & S4 & B4); [intros; apply Z.lor_spec|].
  rewrite set_mem_mem in E2, E3, E4. rewrite (run_then _ _ _ _ _ E1), (run_then _ _ _ _ _ E2), (run_then _ _ _ _ _ E3), E4. cbn [memory set_mem] in *. exists m4. split; [done|].
  split; [by do 3 (eapply slice_step_trans; [eassumption|])|]. intros k Hk. rewrite B4, B3, B2, B1 by done.
  pose proof (Z.mod_pos_bound k 8 ltac:(lia)). pose proof (Z.div_mod k 8 ltac:(lia)). change 255 with (Z.ones 8).
  rewrite !Z.land_spec, Z.ones_spec_low, !andb_true_r, !Z.shiftr_spec, !Hmask, !Hval by lia. clear - Hd H H0 Hm Hq Hk.
  destruct (Z.eqb_spec (k / 8) idx), (Z.eqb_spec (k / 8) (idx + 1)); try lia.
  - replace (k - off) with (k mod 8 - bit) by lia.
    destruct (Z.leb_spec bit (k mod 8)), (Z.ltb_spec (k mod 8) (bit + 6)), (Z.leb_spec off k), (Z.ltb_spec k (off + 6)); try lia; cbn [andb negb orb].
    all: by rewrite ?andb_true_r, ?andb_false_r, ?orb_false_r.
  - replace (k - off) with (k mod 8 + 8 - bit) by lia.
    destruct (Z.leb_spec bit (k mod 8 + 8)), (Z.ltb_spec (k mod 8 + 8) (bit + 6)), (Z.leb_spec off k), (Z.ltb_spec k (off + 6)); try lia; cbn [andb negb orb].
    all: by rewrite ?andb_true_r, ?andb_false_r, ?orb_false_r.
  - destruct (Z.leb_spec off k), (Z.ltb_spec k (off + 6)); try lia; done.
Qed.

(** A register of a dense string raised: the others and the header stay. *)
Lemma dense_raise (db : DB O) s reg val : in_mem (memory db) s → dense_ok (slice_bytes (memory db) s) → 4 <= reg < 16384 → 0 <= val < 64 →
  ∃ m', set_register (ARef s) reg val db = Ret (ARef s, set_mem db m') ∧ slice_step (memory db) (ARef s) m' (ARef s) ∧ dense_ok (slice_bytes m' s) ∧
  dreg (slice_bytes m' s) reg = val ∧ (∀ r, 0 <= r < 16384 → r ≠ reg → dreg (slice_bytes m' s) r = dreg (slice_bytes (memory db) s) r) ∧
  ∀ k, 0 <= k → k < 16 ∨ 98320 <= k → lbit (slice_bytes m' s) k = lbit (slice_bytes (memory db) s) k.
Proof.
  intros Hin Hd Hr Hv. unfold set_register. rewrite run_string_of, run_lift. change (arg_str (memory db) (ARef s)) with (slice_bytes (memory db) s).
  rewrite (proj1 (dense_ok_is _ 0 Hd)). pose proof (slice_bytes_length _ _ Hin) as Hl. pose proof Hd as [Hh _]. unfold has_registers in Hh.
  destruct (denseSet_run db s reg val Hin ltac:(lia) ltac:(lia) Hv) as (m' & E & Hs & Hb). rewrite (run_step _ _ _ _ _ E), run_mret.
  exists m'. split; [done|]. split; [done|]. pose proof (slice_bytes_length _ _ (step_in_mem _ _ _ Hs)) as Hl'. unfold reg_off in *.
  assert (Hd' : dense_ok (slice_bytes m' s)).
  { apply (dense_ok_ext (slice_bytes (memory db) s)); [lia| |done]. intros k Hk. rewrite Hb by lia. by rewrite (proj2 (Z.leb_gt _ _)) by lia. }
  split; [done|]. pose proof Hd' as [Hh' _]. split_and!.
  - unfold dreg. rewrite (denseGet_is _ reg val); [done|done|lia|done|]. intros j Hj. unfold reg_off. rewrite Hb by lia.
    rewrite (proj2 (Z.leb_le _ _)), (proj2 (Z.ltb_lt _ _)) by lia. cbn [andb]. f_equal. lia.
  - intros r Hr' Hne. unfold dreg. rewrite (denseGet_ext (slice_bytes (memory db) s)); [done|unfold has_registers; lia|done|lia|]. unfold reg_off.
    intros k Hk. rewrite Hb by lia. destruct (Z.leb_spec (16 + reg * 6) k), (Z.ltb_spec k (16 + reg * 6 + 6)); try lia; done.
  - intros k Hk Hout. rewrite Hb by lia. destruct (Z.leb_spec (16 + reg * 6) k), (Z.ltb_spec k (16 + reg * 6 + 6)); try lia; done.
Qed.

(** The flag of the cache lies on the registers 16 and 17. *)
Lemma dense_flag (db : DB O) s v : in_mem (memory db) s → dense_ok (slice_bytes (memory db) s) →
  ∃ m', put_byte (ARef s) 14 v db = Ret (tt, set_mem db m') ∧ slice_step (memory db) (ARef s) m' (ARef s) ∧ dense_ok (slice_bytes m' s) ∧
  (∀ r, 0 <= r < 16384 → r ≠ 16 → r ≠ 17 → dreg (slice_bytes m' s) r = dreg (slice_bytes (memory db) s) r) ∧
  (∀ k, 112 <= k < 120 → lbit (slice_bytes m' s) k = Z.testbit v (k - 112)) ∧
  (∀ k, 0 <= k → k < 112 ∨ 120 <= k → lbit (slice_bytes m' s) k = lbit (slice_bytes (memory db) s) k).
Proof.
  intros Hin Hd. pose proof (slice_bytes_length _ _ Hin) as Hl. pose proof Hd as [Hh _]. unfold has_registers in Hh.
  destruct (put_byte_run db s 14 v Hin ltac:(lia)) as (m' & E & Hs & Hb). exists m'. split; [done|]. split; [done|].
  pose proof (slice_bytes_length _ _ (step_in_mem _ _ _ Hs)) as Hl'.
  assert (Hb' : ∀ k, 0 <= k → k < 112 ∨ 120 <= k → lbit (slice_bytes m' s) k = lbit (slice_bytes (memory db) s) k).
  { intros k Hk Hk'. rewrite Hb by done. destruct (Z.eqb_spec (k / 8) 14); [|done]. Z.div_mod_to_equations. lia. }
  assert (Hd' : dense_ok (slice_bytes m' s)) by (apply (dense_ok_ext (slice_bytes (memory db) s)); [lia|intros; apply Hb'; lia|done]).
  split; [done|]. split_and!; [| |exact Hb'].
  - intros r Hr H1 H2. unfold dreg. rewrite (denseGet_ext (slice_bytes (memory db) s)); [done|unfold has_registers; lia|apply Hd'|lia|].
    unfold reg_off. intros k Hk. apply Hb'; lia.
  - intros k Hk. rewrite Hb by lia. rewrite (proj2 (Z.eqb_eq _ _)) by (Z.div_mod_to_equations; lia). f_equal. Z.div_mod_to_equations. lia.
Qed.

(** The register and the rank of an element. *)
Definition elem_reg (elem : bytes) : Z := Z.land (murmurHash64A elem hashSeed) (hllRegisters - 1).
Definition elem_rank (elem : bytes) : Z := hllPatLen (Z.shiftr (murmurHash64A elem hashSeed) hllP).

Lemma elem_reg_range elem : 0 <= elem_reg elem < 16384.
Proof. unfold elem_reg. change (hllRegisters - 1) with (Z.ones 14). rewrite Z.land_ones by lia. apply Z.mod_pos_bound. lia. Qed.

(** Adding an element to a dense HyperLogLog raises the register of the element to its rank, if that is more, and says whether
    it did; the header stays, and so do the other registers apart from the two on the byte of the cache.  The first four
    registers, which lie on the header, are excluded. *)
Theorem hll_add_raises (db : DB O) s elem :
  in_mem (memory db) s → dense_ok (slice_bytes (memory db) s) → 4 <= elem_reg elem →
  let old := dreg (slice_bytes (memory db) s) (elem_reg elem) in
  ∃ m', hll_Add (ARef s) elem db = Ret ((old <? elem_rank elem, ARef s), set_mem db m') ∧ slice_step (memory db) (ARef s) m' (ARef s) ∧
    dense_ok (slice_bytes m' s) ∧ dreg (slice_bytes m' s) (elem_reg elem) = Z.max old (elem_rank elem) ∧
    ∀ r, 0 <= r < 16384 → r ≠ elem_reg elem → r ≠ 16 → r ≠ 17 → dreg (slice_bytes m' s) r = dreg (slice_bytes (memory db) s) r.
Proof.
  intros Hin Hd H4 old. pose proof (elem_reg_range elem) as Hr. pose proof (hllPatLen_range (Z.shiftr (murmurHash64A elem hashSeed) hllP)) as Hk.
  fold (elem_rank elem) in Hk. unfold hll_Add. fold (elem_reg elem) (elem_rank elem). rewrite run_string_of, run_lift.
  change (arg_str (memory db) (ARef s)) with (slice_bytes (memory db) s). rewrite (proj2 (dense_ok_is _ (elem_reg elem) Hd)).
  rewrite (proj1 (dreg_spec _ _ (proj1 Hd) Hr)). fold old. destruct (Z.leb_spec (elem_rank elem) old) as [Hle|Hlt].
  - exists (memory db). rewrite run_mret, set_mem_id, (proj2 (Z.ltb_ge _ _)), Z.max_l by done. split; [done|]. split; [by apply slice_step_refl|]. done.
  - destruct (dense_flag db s 0 Hin Hd) as (m1 & E1 & S1 & D1 & R1 & _). rewrite (run_step _ _ _ _ _ E1).
    destruct (dense_raise (set_mem db m1) s (elem_reg elem) (elem_rank elem) (step_in_mem _ _ _ S1) D1 ltac:(lia) ltac:(lia)) as (m2 & E2 & S2 & D2 & V2 & R2 & _).
    rewrite (run_step _ _ _ _ _ E2), run_mret, set_mem_mem, (proj2 (Z.ltb_lt _ _)), Z.max_r by lia. cbn [memory set_mem] in *.
    exists m2. split; [done|]. split; [by eapply slice_step_trans|]. split; [done|]. split; [done|].
    intros r Hr' Hne H16 H17. rewrite R2 by done. by apply R1.
Qed.

(** An element of register 3 overwrites the encoding: the string is no longer
    taken as dense. *)
Lemma element_overwrites_encoding (db : DB O) s elem : in_mem (memory db) s → dense_ok (slice_bytes (memory db) s) → elem_reg elem = 3 →
  ∃ m', hll_Add (ARef s) elem db = Ret ((true, ARef s), set_mem db m') ∧ is_dense (slice_bytes m' s) = Ret false.
Proof.
  intros Hin Hd H3. pose proof (hllPatLen_range (Z.shiftr (murmurHash64A elem hashSeed) hllP)) as Hk. fold (elem_rank elem) in Hk.
  pose proof Hd as [Hh Ht]. assert (H0 : denseGetRegister (slice_bytes (memory db) s) 3 = Ret 0).
  { apply denseGet_is; [done|lia|lia|]. intros j Hj. unfold reg_off. assert (H4 : slice_bytes (memory db) s !! 4%nat = Some (Zbyte 1)).
    { rewrite <- (lookup_take_lt _ 5 4) by lia. by rewrite Ht. }
    replace (16 + 3 * 6 + j) with (8 * 4 + (2 + j)) by lia. rewrite (lbit_at _ 4 (Zbyte 1)) by (done || lia). change (byteZ (Zbyte 1)) with 1.
    rewrite (testbit_high 1 1) by lia. by rewrite Z.testbit_0_l. }
  unfold hll_Add. fold (elem_reg elem) (elem_rank elem). rewrite run_string_of, run_lift.
  change (arg_str (memory db) (ARef s)) with (slice_bytes (memory db) s). rewrite (proj2 (dense_ok_is _ (elem_reg elem) Hd)), H3, H0.
  rewrite (proj2 (Z.leb_gt _ _)) by lia. destruct (dense_flag db s 0 Hin Hd) as (m1 & E1 & S1 & D1 & _). rewrite (run_step _ _ _ _ _ E1).
  unfold set_register. rewrite !run_assoc, run_string_of, run_assoc, run_lift. change (arg_str (memory (set_mem db m1)) (ARef s)) with (slice_bytes m1 s).
  rewrite (proj1 (dense_ok_is _ 0 D1)). pose proof (slice_bytes_length _ _ (step_in_mem _ _ _ S1)) as Hl. pose proof D1 as [Hh1 _]. unfold has_registers in Hh1.
  destruct (denseSet_run (set_mem db m1) s 3 (elem_rank elem) (step_in_mem _ _ _ S1) ltac:(lia) ltac:(lia) ltac:(lia)) as (m2 & E2 & S2 & B2).
  rewrite run_assoc, (run_step _ _ _ _ _ E2), run_ret, run_mret, set_mem_mem. exists m2. split; [done|].
  pose proof (slice_bytes_length _ _ (step_in_mem _ _ _ S2)) as Hl2. destruct (at_byte_spec (slice_bytes m2 s) 4) as (c & Hc & E); [lia|].
  unfold is_dense. rewrite E. cbn [mbind res_bind]. f_equal. apply Z.eqb_neq. intros Hc1. unfold hllDense in Hc1.
  assert (Hz : elem_rank elem = 0); [|lia]. apply Z.bits_inj'. intros j Hj. rewrite Z.bits_0. destruct (Z.lt_ge_cases j 6).
  - specialize (B2 (8 * 4 + (2 + j)) ltac:(lia)). rewrite (lbit_at _ 4 c) in B2 by (done || lia). rewrite Hc1, (testbit_high 1 1) in B2 by lia.
    unfold reg_off in B2. change (1 <? 0) with false in B2. rewrite (proj2 (Z.leb_le _ _)), (proj2 (Z.ltb_lt _ _)) in B2 by lia. cbn [andb] in B2. by replace (8 * 4 + (2 + j) - (16 + 3 * 6)) with j in B2 by lia.
  - rewrite (testbit_high _ 6) by lia. apply Z.ltb_ge. lia.
Qed.

Lemma dense_registers_spec raw n i : has_registers raw → 0 <= i → i + Z.of_nat n <= 16384 →
  dense_registers raw n i = Ret ((λ k, dreg raw (i + Z.of_nat k)) <$> seq 0 n).
Proof.
  intros H. revert i. induction n as [|n IH]; intros i Hi Hn; [done|]. cbn [dense_registers seq fmap list_fmap].
  rewrite (proj1 (dreg_spec raw i H ltac:(lia))), IH by lia. cbn [mbind res_bind]. rewrite Z.add_0_r. do 2 f_equal.
  rewrite <- fmap_S_seq, <- list_fmap_compose. apply list_fmap_ext. intros ? k _. cbn. f_equal. lia.
Qed.

Lemma histogram_panics l h v : v ∈ l → Z.of_nat (length h) <= v → histogram l h = Panic.
Proof.
  intros Hv. revert h. induction Hv as [v l|v w l _ IH]; intros h Hl; cbn [histogram].
  - by rewrite lookup_ge_None_2 by lia.
  - destruct (h !! Z.to_nat w); [|done]. cbn. apply IH. by rewrite length_insert.
Qed.

(** A register with more than 51, which no element makes but the bytes of the
    cache do, makes the next count panic. *)
Lemma great_register_panics (db : DB O) s r : in_mem (memory db) s → dense_ok (slice_bytes (memory db) s) → at_byte (slice_bytes (memory db) s) 14 = Ret 0 →
  0 <= r < 16384 → 51 < dreg (slice_bytes (memory db) s) r → hll_Count (ARef s) db = Panic.
Proof.
  intros Hin Hd H14 Hr Hv. unfold hll_Count, raw_byte. rewrite run_assoc, run_string_of, run_lift. change (arg_str (memory db) (ARef s)) with (slice_bytes (memory db) s).
  rewrite H14, run_string_of. cbn [Z.eqb negb]. change (arg_str (memory db) (ARef s)) with (slice_bytes (memory db) s). rewrite run_lift.
  unfold registers. rewrite (proj1 (dense_ok_is _ 0 Hd)). cbn [mbind res_bind].
  rewrite (dense_registers_spec _ _ _ (proj1 Hd)) by (unfold hllRegisters; lia). rewrite run_lift.
  rewrite (histogram_panics _ _ (dreg (slice_bytes (memory db) s) r)); [done| |].
  - apply list_elem_of_fmap. exists (Z.to_nat r). rewrite Z.add_0_l, Z2Nat.id by lia. split; [done|]. apply elem_of_seq. unfold hllRegisters. lia.
  - rewrite length_replicate. lia.
Qed.

(** Another array is not touched. *)
Lemma kept_slice m m' s s' : slice_step m (ARef s) m' (ARef s) → in_mem m s' → Arr s ≠ Arr s' → in_mem m' s' ∧ slice_bytes m' s' = slice_bytes m s'.
Proof.
  intros [_ _ _ K] Hin Hne. assert (E : m' !! Arr s' = m !! Arr s').
  { apply K; [destruct Hin as (arr & H & _); by eapply lookup_lt_Some|]. by intros s0 [= <-]. }
  split; [destruct Hin as (arr & H & Hl); exists arr; by rewrite E|]. unfold slice_bytes, array. by rewrite E.
Qed.

Lemma merge_registers_run (db : DB O) s s' n i : in_mem (memory db) s → in_mem (memory db) s' → Arr s ≠ Arr s' →
  dense_ok (slice_bytes (memory db) s) → dense_ok (slice_bytes (memory db) s') → 0 <= i → i + Z.of_nat n = 16384 →
  ∃ m', merge_registers n i (ARef s) (ARef s') db = Ret (ARef s, set_mem db m') ∧ slice_step (memory db) (ARef s) m' (ARef s) ∧ dense_ok (slice_bytes m' s) ∧
  (∀ r, 0 <= r < 16384 → dreg (slice_bytes m' s) r =
    if i <=? r then Z.max (dreg (slice_bytes (memory db) s) r) (dreg (slice_bytes (memory db) s') r) else dreg (slice_bytes (memory db) s) r) ∧
  ∀ k, 0 <= k → k < 16 ∨ 98320 <= k → lbit (slice_bytes m' s) k = lbit (slice_bytes (memory db) s) k.
Proof.
  revert db i. induction n as [|n IH]; intros db i Hin Hin' Hne Hd Hd' Hi Hn; cbn [merge_registers].
  { exists (memory db). rewrite run_mret, set_mem_id. split; [done|]. split; [by apply slice_step_refl|]. split; [done|].
    split; [|done]. intros r Hr. by rewrite (proj2 (Z.leb_gt _ _)) by lia. }
  rewrite run_string_of, run_lift. change (arg_str (memory db) (ARef s)) with (slice_bytes (memory db) s).
  rewrite (proj2 (dense_ok_is _ i Hd)). rewrite (proj1 (dreg_spec _ i (proj1 Hd) ltac:(lia))). rewrite run_string_of, run_lift.
  change (arg_str (memory db) (ARef s')) with (slice_bytes (memory db) s').
  rewrite (proj2 (dense_ok_is _ i Hd')). rewrite (proj1 (dreg_spec _ i (proj1 Hd') ltac:(lia))).
  assert (Hstep : ∃ m1, (if dreg (slice_bytes (memory db) s) i <? dreg (slice_bytes (memory db) s') i
      then set_register (ARef s) i (dreg (slice_bytes (memory db) s') i) else mret (ARef s)) db = Ret (ARef s, set_mem db m1) ∧
    slice_step (memory db) (ARef s) m1 (ARef s) ∧ dense_ok (slice_bytes m1 s) ∧ (∀ r, 0 <= r < 16384 → dreg (slice_bytes m1 s) r =
      if r =? i then Z.max (dreg (slice_bytes (memory db) s) r) (dreg (slice_bytes (memory db) s') r) else dreg (slice_bytes (memory db) s) r) ∧
    ∀ k, 0 <= k → k < 16 ∨ 98320 <= k → lbit (slice_bytes m1 s) k = lbit (slice_bytes (memory db) s) k).
  { destruct (Z.ltb_spec (dreg (slice_bytes (memory db) s) i) (dreg (slice_bytes (memory db) s') i)) as [Hlt|Hge].
    - assert (4 <= i). { destruct (Z.lt_ge_cases i 4); [|done]. unfold dreg in Hlt. rewrite (dense_head (slice_bytes (memory db) s) (slice_bytes (memory db) s')) in Hlt by (done || lia). lia. }
      destruct (dense_raise db s i (dreg (slice_bytes (memory db) s') i) Hin Hd ltac:(lia) (proj2 (dreg_spec _ i (proj1 Hd') ltac:(lia)))) as (m1 & E & S1 & D1 & V1 & R1 & B1).
      exists m1. split; [done|]. split; [done|]. split; [done|]. split; [|exact B1]. intros r Hr. destruct (Z.eqb_spec r i) as [->|]; [rewrite V1; lia|by apply R1].
    - exists (memory db). rewrite set_mem_id. split; [done|]. split; [by apply slice_step_refl|]. split; [done|].
      split; [|done]. intros r Hr. destruct (Z.eqb_spec r i) as [->|]; [lia|done]. }
  destruct Hstep as (m1 & E1 & S1 & D1 & R1 & B1). rewrite (run_step _ _ _ _ _ E1). destruct (kept_slice _ _ _ _ S1 Hin' Hne) as [Hin1 Hb1].
  destruct (IH (set_mem db m1) (i + 1)) as (m2 & E2 & S2 & D2 & R2 & B2); cbn [memory set_mem]; [by eapply step_in_mem|done|done|done|by rewrite Hb1|lia|lia|].
  rewrite E2, set_mem_mem. cbn [memory set_mem] in *. exists m2. split; [done|]. split; [by eapply slice_step_trans|]. split; [done|].
  split; [|intros k Hk Ho; by rewrite B2, B1 by done]. intros r Hr. rewrite R2, R1, Hb1 by done. destruct (Z.leb_spec (i + 1) r), (Z.leb_spec i r), (Z.eqb_spec r i); try lia; done.
Qed.

(** The register after the cache flag has four bits outside its byte. *)
Lemma dreg_17 raw raw' : has_registers raw → has_registers raw' → (∀ k, 120 <= k < 124 → lbit raw' k = lbit raw k) → dreg raw' 17 / 4 = dreg raw 17 / 4.
Proof.
  intros H H' Hb. unfold dreg. destruct (denseGet_bits raw 17 H ltac:(lia)) as (v & -> & _ & Hv). destruct (denseGet_bits raw' 17 H' ltac:(lia)) as (v' & -> & _ & Hv').
  change 4 with (2 ^ 2). rewrite <- !Z.shiftr_div_pow2 by lia. apply Z.bits_inj'. intros j Hj. rewrite !Z.shiftr_spec, Hv, Hv' by lia.
  destruct (Z.ltb_spec (j + 2) 6); [|done]. cbn [andb]. apply Hb. unfold reg_off. lia.
Qed.

(** C32: Merging a dense HyperLogLog into another, of another array, leaves in every register the greater of the two numbers and
    clears byte 14, the flag of the cache.  That byte holds register 16 and the two low bits of register 17, which are therefore
    lost; the four other bits of register 17 are those of the greater number.  The first five bytes, magic and encoding, stay, and so
    do the bits that belong to no register and the source; the other bytes of the header hold the registers 4 to 18. *)
Theorem hll_merge_is_max (db : DB O) s s' :
  in_mem (memory db) s → in_mem (memory db) s' → Arr s ≠ Arr s' →
  dense_ok (slice_bytes (memory db) s) → dense_ok (slice_bytes (memory db) s') →
  let greater r := Z.max (dreg (slice_bytes (memory db) s) r) (dreg (slice_bytes (memory db) s') r) in
  ∃ m', hll_Merge (ARef s) (ARef s') db = Ret (ARef s, set_mem db m') ∧ dense_ok (slice_bytes m' s) ∧ slice_bytes m' s' = slice_bytes (memory db) s' ∧
    (∀ r, 0 <= r < 16384 → r ≠ 16 → r ≠ 17 → dreg (slice_bytes m' s) r = greater r) ∧
    (∀ k, 112 <= k < 120 → lbit (slice_bytes m' s) k = false) ∧ dreg (slice_bytes m' s) 17 / 4 = greater 17 / 4 ∧
    ∀ k, 0 <= k → k < 16 ∨ 98320 <= k → lbit (slice_bytes m' s) k = lbit (slice_bytes (memory db) s) k.
Proof.
  intros Hin Hin' Hne Hd Hd' greater. unfold hll_Merge.
  destruct (merge_registers_run db s s' (Z.to_nat hllRegisters) 0 Hin Hin' Hne Hd Hd' ltac:(lia) ltac:(unfold hllRegisters; lia)) as (m1 & E1 & S1 & D1 & R1 & B1).
  rewrite (run_step _ _ _ _ _ E1). destruct (dense_flag (set_mem db m1) s 0 (step_in_mem _ _ _ S1) D1) as (m2 & E2 & S2 & D2 & R2 & F2 & B2).
  rewrite (run_step _ _ _ _ _ E2), run_mret, set_mem_mem. cbn [memory set_mem] in *. exists m2. split; [done|]. split; [done|]. split_and!.
  - by eapply kept_slice; [by eapply slice_step_trans|done|done].
  - intros r Hr H1 H2. rewrite R2, R1 by done. by rewrite (proj2 (Z.leb_le _ _)) by lia.
  - intros k Hk. rewrite F2 by done. apply Z.bits_0.
  - rewrite (dreg_17 (slice_bytes m1 s)); [by rewrite R1 by lia|apply D1|apply D2|]. intros k Hk. apply B2; lia.
  - intros k Hk Ho. rewrite B2, B1 by lia. done.
Qed.
End commands.

(** ** Concrete runs *)

#[local] Existing Instance ex_runtime.
#[local] Instance hll_objects : Objects ObjType := {| obj_type := λ t, t; obj_elems := λ _, [] |}.
#[local] Instance hll_env : Env :=
  {| clock := λ _, 1000 * Second; draw := λ _ _, false; MaxmemoryPolicy := []; ParseIntError := λ _, []; ValueDigest := λ b, b |}.
(** An estimator that says 63. *)
#[local] Instance says_63 : Estimator := {| estimate := λ _, 63 |}.

Definition empty_dense : bytes := str "HYLL" ++ [Zbyte 1] ++ replicate 12299 (Zbyte 0).
Definition hll_db : DB ObjType :=
  MkDB 0 ∅ ∅ ∅ ∅ (MkTimeWheel Second [[]; []; []; []] ∅ 0 4 0) [empty_dense; empty_dense] [] [] 0 0.
Definition dense_0 : slice := MkSlice 0 0 12304.
Definition dense_1 : slice := MkSlice 1 0 12304.

Lemma dense_slice_ok s : s = dense_0 ∨ s = dense_1 → in_mem (memory hll_db) s ∧ dense_ok (slice_bytes (memory hll_db) s).
Proof.
  intros Hs. split.
  - exists empty_dense. split; [by destruct Hs as [-> | ->]|]. unfold empty_dense. rewrite !length_app, length_replicate.
    destruct Hs as [-> | ->]; apply Nat.leb_le; by vm_compute.
  - split; [|by destruct Hs as [-> | ->]; vm_compute]. unfold has_registers. apply Z.leb_le. by destruct Hs as [-> | ->]; vm_compute.
Qed.

Lemma hll_add_raises_witness :
  ∃ m', hll_Add (ARef dense_0) (str "foo") hll_db = Ret ((dreg empty_dense (elem_reg (str "foo")) <? elem_rank (str "foo"), ARef dense_0), set_mem hll_db m') ∧
    slice_step (memory hll_db) (ARef dense_0) m' (ARef dense_0) ∧ dense_ok (slice_bytes m' dense_0) ∧
    dreg (slice_bytes m' dense_0) (elem_reg (str "foo")) = Z.max (dreg empty_dense (elem_reg (str "foo"))) (elem_rank (str "foo")) ∧
    ∀ r, 0 <= r < 16384 → r ≠ elem_reg (str "foo") → r ≠ 16 → r ≠ 17 → dreg (slice_bytes m' dense_0) r = dreg empty_dense r.
Proof.
  assert (E : slice_bytes (memory hll_db) dense_0 = empty_dense) by (vm_compute; reflexivity). rewrite <- E.
  apply (hll_add_raises hll_db dense_0 (str "foo")); [apply dense_slice_ok; by left|apply dense_slice_ok; by left|apply Z.leb_le; by vm_compute].
Defined.

(** A string with 5 in register 100. *)
Definition five_dense : bytes := <[77%nat := Zbyte 5]> empty_dense.
Definition five_db : DB ObjType := set_mem hll_db [empty_dense; five_dense].

Lemma five_slice_ok s : s = dense_0 ∨ s = dense_1 → in_mem (memory five_db) s ∧ dense_ok (slice_bytes (memory five_db) s).
Proof.
  intros Hs. split.
  - destruct Hs as [-> | ->]; [exists empty_dense|exists five_dense]; (split; [done|]); apply Nat.leb_le; by vm_compute.
  - split; [|by destruct Hs as [-> | ->]; vm_compute]. unfold has_registers. apply Z.leb_le. by destruct Hs as [-> | ->]; vm_compute.
Qed.

(** The register of the destination is raised from 0 to 5. *)
Lemma hll_merge_is_max_witness :
  ∃ m', hll_Merge (ARef dense_0) (ARef dense_1) five_db = Ret (ARef dense_0, set_mem five_db m') ∧
    dreg (slice_bytes (memory five_db) dense_0) 100 = 0 ∧ dreg (slice_bytes m' dense_0) 100 = 5.
Proof.
  destruct (hll_merge_is_max five_db dense_0 dense_1) as (m' & E & _ & _ & Hreg & _);
    [apply five_slice_ok; by left|apply five_slice_ok; by right|done|apply five_slice_ok; by left|apply five_slice_ok; by right|].
  exists m'. split; [exact E|]. split; [vm_compute; reflexivity|]. rewrite Hreg by lia. vm_compute. reflexivity.
Defined.

(** ** What the operations do besides *)

(** The registers start sixteen bits, not bytes, into the string: in a string
    without elements the first ones read as the magic and the encoding. *)
Lemma registers_overlap_header : (dreg empty_dense <$> [0; 1; 2; 3; 4]) = [12; 49; 20; 0; 0].
Proof. vm_compute. reflexivity. Qed.

(** The body of a new sparse string is followed by zeros, which are opcodes: it
    is too long, and the first element makes the string dense. *)
Lemma first_element_promotes : sparse_body hll_New (elem_reg (str "foo")) (elem_rank (str "foo")) = Ret None.
Proof. vm_compute. reflexivity. Qed.

(** The register of some element is the third, and the number of the cache lies on the fourth and those after it. *)
Lemma registers_on_header : elem_reg (str "e42988") = 3 ∧ dreg (str "HYLL" ++ [Zbyte 1; Zbyte 63] ++ replicate 12298 (Zbyte 0)) 4 = 63.
Proof. split; vm_compute; reflexivity. Qed.

(** A sparse value is read as one more than was written, and every rewriting of
    the body raises all values by one. *)
Lemma sparse_values_grow :
  sparseGetRegister (replicate 16 (Zbyte 0) ++ sparseEncodeVal 3) 0 = Ret 4 ∧
  coalesceSparse (sparseEncodeVal 3 ++ sparseEncodeVal 7) = Ret (sparseEncodeVal 4 ++ sparseEncodeVal 8).
Proof. split; vm_compute; reflexivity. Qed.
