(* ===== verification/StreamCmd.v ===== *)
(** * Stream commands: [internal/command/stream.go]

    A key holds a stream behind a header; the handlers change it in place. *)

From stdpp Require Import base gmap list strings.
From Stdlib Require Import ZArith Lia Ascii.
From S2P Require Import Prelude Strconv ObjString Resp Runtime GoTime TimeWheel KeySpace StringCmd KeyCmd Tx ObjCmd ListCmd Stream.

Local Open Scope Z_scope.

(** ** Words *)

(** The pairs of fields and values. *)
Fixpoint field_pairs (l : list bytes) : list (bytes * bytes) :=
  match l with
  | f :: v :: l => (f, v) :: field_pairs l
  | _ => []
  end.

(** What XADD and XTRIM trim to. *)
Record trim_opts := MkTrim { t_maxlen : option Z; t_minid : option StreamID; t_approx : bool }.
Definition no_trim : trim_opts := MkTrim None None false.
Definition set_maxlen (o : trim_opts) (n : Z) : trim_opts := MkTrim (Some n) (t_minid o) (t_approx o).
Definition set_minid (o : trim_opts) (id : StreamID) : trim_opts := MkTrim (t_maxlen o) (Some id) (t_approx o).
Definition set_approx (o : trim_opts) (b : bool) : trim_opts := MkTrim (t_maxlen o) (t_minid o) b.

Definition is_trim_sign (w : bytes) : bool := bytes_eqb w (str "=") || bytes_eqb w (str "~").

(** The errors of the stream package. *)
Definition invalid_id : reply := RErr "ERR Invalid stream ID specified as stream command argument".
Definition stream_error (e : stream_err) : reply :=
  match e with
  | ErrZeroID => RErr "ERR The ID specified in XADD must be greater than 0-0"
  | ErrSmallID => RErr "ERR The ID specified in XADD is equal or smaller than the target stream top item"
  | ErrBusyGroup => RErr "BUSYGROUP Consumer Group name already exists"
  end.

Definition parse_maxlen (w : bytes) : reply + Z :=
  match ParseInt w with
  | None => inl (RErr "ERR invalid MAXLEN argument")
  | Some v => if v <? 0 then inl (RErr "ERR value is negative or out of range") else inr v
  end.
Definition parse_id (w : bytes) : reply + StreamID :=
  match ParseID w with None => inl invalid_id | Some (id, _) => inr id end.

Section stream.
Context {O : Type} `{!Objects O} `{!ObjOf O Stream} {env : Env} {rt : Runtime}.
Local Abbreviation M := (M O).

Definition getAsStream (key : bytes) : M (reply + option Stream) := get_obj key.
Definition getOrInitStream (key : bytes) : M (reply + Stream) := get_or_init Stream.New key.

Definition wrong_number (name : string) : reply := RConst (ArgNumErrReply (str name)).

(** ** XADD *)

(** The options before the identifier, and the words from it on. *)
Fixpoint xadd_opts (ws : list bytes) (o : trim_opts) : reply + trim_opts * list bytes :=
  match ws with
  | [] => inr (o, [])
  | w :: ws1 =>
      let arg := ToUpper w in
      let value (set : trim_opts → bytes → reply + trim_opts) :=
        match ws1 with
        | [] => inl RSyntax
        | next :: ws2 =>
            if is_trim_sign next then
              match ws2 with
              | [] => inl RSyntax
              | v :: ws3 => match set (set_approx o (bytes_eqb next (str "~"))) v with inl e => inl e | inr o => xadd_opts ws3 o end
              end
            else match set o next with inl e => inl e | inr o => xadd_opts ws2 o end
        end in
      if bytes_eqb arg (str "MAXLEN") then value (λ o v, match parse_maxlen v with inl e => inl e | inr n => inr (set_maxlen o n) end)
      else if bytes_eqb arg (str "MINID") then value (λ o v, match parse_id v with inl e => inl e | inr id => inr (set_minid o id) end)
      else if bytes_eqb arg (str "LIMIT") then
        match ws1 with
        | [] => inl RSyntax
        | v :: ws2 =>
            match ParseInt v with
            | Some n => if n <? 0 then inl (RErr "ERR invalid LIMIT argument") else xadd_opts ws2 o
            | None => inl (RErr "ERR invalid LIMIT argument")
            end
        end
      else inr (o, ws)
  end.

(** The identifier and whether it is assigned, and the fields. *)
Definition xadd_entry (ws : list bytes) : reply + StreamID * bool * list (bytes * bytes) :=
  match ws with
  | [] => inl RSyntax
  | idStr :: fvs =>
      match (if bytes_eqb idStr (str "*") then Some (MkID 0 0, true) else ParseID idStr) with
      | None => inl invalid_id
      | Some (id, autoAssign) =>
          if (length fvs =? 0)%nat || negb (Z.rem (Z.of_nat (length fvs)) 2 =? 0) then inl RSyntax
          else inr (id, autoAssign, field_pairs fvs)
      end
  end.

Definition applyStreamTrim (s : Stream) (o : trim_opts) : Stream :=
  let s := match t_maxlen o with Some n => snd (TrimMaxLen s n (t_approx o)) | None => s end in
  match t_minid o with Some id => snd (TrimMinID s id (t_approx o)) | None => s end.

Definition buildXAddAofArgs (key : bytes) (id : StreamID) (fields : list (bytes * bytes)) : list arg :=
  ALit <$> key :: Stream.String id :: (fields ≫= λ f, [f.1; f.2]).

(** The entry is added to the stream of the key. *)
Definition add_to (key : bytes) (s : Stream) (id : StreamID) (autoAssign : bool) (fields : list (bytes * bytes)) (o : trim_opts) : M reply :=
  r ← if autoAssign then
        msHint ← if Ms id =? 0 then t ← Now; mret (u64 (time_UnixMilli t)) else mret (Ms id);
        mret (AddAutoAssign s msHint fields)
      else mret (Stream.Add s id fields);
  match r with
  | (inl e, _) => mret (stream_error e)
  | (inr assignedID, s) =>
      store_obj key (applyStreamTrim s o);;
      addAof (ToCmdLine3 "xadd" (buildXAddAofArgs key assignedID fields));;
      mret (RBulk (ALit (Stream.String assignedID)))
  end.

Definition execXAdd : ExecFunc O := λ args,
  if (length args <? 3)%nat then mret (wrong_number "xadd") else
  key ← str_at args 0;
  ws ← arg_strs (drop 1 args);
  let noMkStream := match ws with w :: _ => bytes_eqb (ToUpper w) (str "NOMKSTREAM") | [] => false end in
  match xadd_opts (if noMkStream then drop 1 ws else ws) no_trim with
  | inl e => mret e
  | inr (o, ws) =>
      match xadd_entry ws with
      | inl e => mret e
      | inr (id, autoAssign, fields) =>
          if noMkStream then
            r ← getAsStream key;
            match r with
            | inl e => mret e
            | inr None => mret RNull
            | inr (Some s) => add_to key s id autoAssign fields o
            end
          else
            r ← getOrInitStream key;
            match r with
            | inl e => mret e
            | inr s => add_to key s id autoAssign fields o
            end
      end
  end.

(** ** Reading *)

(** [protocol.MakeBulkReply] of a fresh copy. *)
Definition bulk (b : bytes) : reply := RBulk (ALit b).

Definition fields_reply (fields : list (bytes * bytes)) : reply := RRaw (fields ≫= λ f, [bulk f.1; bulk f.2]).
Definition entry_reply (e : Entry) : reply := RRaw [bulk (Stream.String (ID e)); fields_reply (Fields e)].
Definition streamEntriesToReply (entries : list Entry) : reply := RRaw (entry_reply <$> entries).

(** The optional count of a range. *)
Definition range_count (ws : list bytes) : reply + Z :=
  match ws with
  | w :: c :: _ =>
      if negb (bytes_eqb (ToUpper w) (str "COUNT")) then inl RSyntax else
      match ParseInt c with
      | Some n => if n <? 0 then inl not_integer else inr n
      | None => inl not_integer
      end
  | _ => inr 0
  end.

(** XRANGE and XREVRANGE, with the places of the bounds. *)
Definition range_of_stream (name : string) (start_at end_at : nat) (range : Stream → StreamID → StreamID → Z → list Entry) : ExecFunc O := λ args,
  if (length args <? 3)%nat then mret (wrong_number name) else
  key ← str_at args 0;
  startStr ← str_at args start_at;
  endStr ← str_at args end_at;
  match parse_id startStr with
  | inl e => mret e
  | inr start =>
      match parse_id endStr with
      | inl e => mret e
      | inr end_ =>
          ws ← arg_strs (drop 3 args);
          match range_count ws with
          | inl e => mret e
          | inr count =>
              r ← getAsStream key;
              match r with
              | inl e => mret e
              | inr None => mret (RRaw [])
              | inr (Some s) => mret (streamEntriesToReply (range s start end_ count))
              end
          end
      end
  end.
Definition execXRange : ExecFunc O := range_of_stream "xrange" 1 2 Stream.Range.
Definition execXRevRange : ExecFunc O := range_of_stream "xrevrange" 2 1 RevRange.

Definition execXLen : ExecFunc O := λ args,
  key ← str_at args 0;
  r ← getAsStream key;
  match r with
  | inl e => mret e
  | inr None => mret (RInt 0)
  | inr (Some s) => mret (RInt (Stream.Len s))
  end.

(** ** Deleting *)

Fixpoint parse_ids (ws : list bytes) : reply + list StreamID :=
  match ws with
  | [] => inr []
  | w :: ws =>
      match parse_id w with
      | inl e => inl e
      | inr id => match parse_ids ws with inl e => inl e | inr ids => inr (id :: ids) end
      end
  end.

Definition execXDel : ExecFunc O := λ args,
  if (length args <? 2)%nat then mret (wrong_number "xdel") else
  key ← str_at args 0;
  r ← getAsStream key;
  match r with
  | inl e => mret e
  | inr None => mret (RInt 0)
  | inr (Some s) =>
      ws ← arg_strs (drop 1 args);
      match parse_ids ws with
      | inl e => mret e
      | inr ids =>
          let '(deleted, s) := Stream.Delete s ids in
          store_obj key s;;
          addAof (ToCmdLine3 "xdel" args);;
          mret (RInt deleted)
      end
  end.

(** The sign and the value after MAXLEN or MINID. *)
Definition xtrim_value (ws : list bytes) : reply + bool * bytes :=
  match ws with
  | [] => inl RSyntax
  | next :: ws =>
      if is_trim_sign next then match ws with [] => inl RSyntax | v :: _ => inr (bytes_eqb next (str "~"), v) end
      else inr (false, next)
  end.

Definition execXTrim : ExecFunc O := λ args,
  if (length args <? 3)%nat then mret (wrong_number "xtrim") else
  key ← str_at args 0;
  r ← getAsStream key;
  match r with
  | inl e => mret e
  | inr None => mret (RInt 0)
  | inr (Some s) =>
      a1 ← str_at args 1;
      ws ← arg_strs (drop 2 args);
      let arg := ToUpper a1 in
      let trim (f : bool → bytes → reply + Z * Stream) : M reply :=
        match xtrim_value ws with
        | inl e => mret e
        | inr (approx, v) =>
            match f approx v with
            | inl e => mret e
            | inr (removed, s) =>
                store_obj key s;;
                addAof (ToCmdLine3 "xtrim" args);;
                mret (RInt removed)
            end
        end in
      if bytes_eqb arg (str "MAXLEN") then
        trim (λ approx v, match parse_maxlen v with inl e => inl e | inr n => inr (TrimMaxLen s n approx) end)
      else if bytes_eqb arg (str "MINID") then
        trim (λ approx v, match parse_id v with inl e => inl e | inr id => inr (TrimMinID s id approx) end)
      else mret (RErr "ERR syntax error")
  end.

(** ** XSETID *)

Fixpoint xsetid_opts (ws : list bytes) (entriesAdded : Z) (maxDeletedID : StreamID) : reply + Z * StreamID :=
  match ws with
  | [] => inr (entriesAdded, maxDeletedID)
  | w :: ws =>
      let arg := ToUpper w in
      if bytes_eqb arg (str "ENTRIESADDED") then
        match ws with
        | [] => inl RSyntax
        | v :: ws => match ParseUint v with None => inl not_integer | Some n => xsetid_opts ws n maxDeletedID end
        end
      else if bytes_eqb arg (str "MAXDELETEDID") then
        match ws with
        | [] => inl RSyntax
        | v :: ws => match parse_id v with inl e => inl e | inr id => xsetid_opts ws entriesAdded id end
        end
      else inl RSyntax
  end.

Definition execXSetID : ExecFunc O := λ args,
  if (length args <? 2)%nat then mret (wrong_number "xsetid") else
  key ← str_at args 0;
  a1 ← str_at args 1;
  match parse_id a1 with
  | inl e => mret e
  | inr lastID =>
      ws ← arg_strs (drop 2 args);
      match xsetid_opts ws 0 (MkID 0 0) with
      | inl e => mret e
      | inr (entriesAdded, maxDeletedID) =>
          r ← getOrInitStream key;
          match r with
          | inl e => mret e
          | inr s =>
              store_obj key (SetID s lastID entriesAdded maxDeletedID);;
              addAof (ToCmdLine3 "xsetid" args);;
              mret (RConst (StatusReply (str "OK")))
          end
      end
  end.

(** ** XREAD *)

(** COUNT, BLOCK and STREAMS; the count and the words after. *)
Definition xread_count (ws : list bytes) : reply + Z * list bytes :=
  match ws with
  | w :: ws1 =>
      if bytes_eqb (ToUpper w) (str "COUNT") then
        match ws1 with
        | [] => inl RSyntax
        | v :: ws2 => match ParseInt v with Some n => if n <? 0 then inl not_integer else inr (n, ws2) | None => inl not_integer end
        end
      else inr (0, ws)
  | [] => inr (0, [])
  end.
Definition xread_block (ws : list bytes) : reply + list bytes :=
  match ws with
  | w :: ws1 =>
      if bytes_eqb (ToUpper w) (str "BLOCK") then
        match ws1 with
        | [] => inl RSyntax
        | v :: ws2 => match ParseInt v with Some _ => inr ws2 | None => inl not_integer end
        end
      else inr ws
  | [] => inr []
  end.
Definition unbalanced : reply := RErr "ERR Unbalanced XREAD list of streams: for each stream key an ID or '$' must be specified".
Definition xread_args (ws : list bytes) : reply + Z * list (bytes * bytes) :=
  match xread_count ws with
  | inl e => inl e
  | inr (count, ws) =>
      match xread_block ws with
      | inl e => inl e
      | inr [] => inl RSyntax
      | inr (w :: ws) =>
          if negb (bytes_eqb (ToUpper w) (str "STREAMS")) then inl RSyntax else
          if (length ws <? 2)%nat || negb (Z.rem (Z.of_nat (length ws)) 2 =? 0) then inl unbalanced else
          let numKeys := (length ws / 2)%nat in
          inr (count, zip (take numKeys ws) (drop numKeys ws))
      end
  end.

(** The identifier after this one, as XREAD computes it. *)
Definition after_id (id : StreamID) : StreamID :=
  if Seq id =? maxSeq then MkID (u64 (Ms id + 1)) 0 else MkID (Ms id) (u64 (Seq id + 1)).

Fixpoint xread_streams (count : Z) (ks : list (bytes * bytes)) (results : list reply) : M reply :=
  match ks with
  | [] => mret (if (length results =? 0)%nat then RConst NullMultiBulkReply else RRaw results)
  | (key, id) :: ks =>
      r ← getAsStream key;
      match r with
      | inl e => mret e
      | inr None => xread_streams count ks results
      | inr (Some s) =>
          match (if bytes_eqb id (str "$") then inr (lastID s) else parse_id id) with
          | inl e => mret e
          | inr startID =>
              let entries := Stream.Range s (after_id startID) (MkID maxMs maxSeq) count in
              if (length entries =? 0)%nat then xread_streams count ks results
              else xread_streams count ks (results ++ [RRaw [bulk key; streamEntriesToReply entries]])
          end
      end
  end.

Definition execXRead : ExecFunc O := λ args,
  if (length args <? 4)%nat then mret (wrong_number "xread") else
  ws ← arg_strs args;
  match xread_args ws with
  | inl e => mret e
  | inr (count, ks) => xread_streams count ks []
  end.

(** ** Registrations *)

Definition on_stream (ev : string) : option (Z * string) := Some (notifyStream, ev).

Definition stream_commands : list (bytes * command O) := [
  registerCommand "xadd" execXAdd writeFirstKey None (-5) flagWrite w_oom_fast (on_stream "xadd");
  registerCommand "xrange" execXRange readFirstKey None (-4) flagReadOnly ["readonly"]%string None;
  registerCommand "xrevrange" execXRevRange readFirstKey None (-4) flagReadOnly ["readonly"]%string None;
  registerCommand "xlen" execXLen readFirstKey None 2 flagReadOnly ["readonly"; "fast"]%string None;
  registerCommand "xdel" execXDel writeFirstKey None (-3) flagWrite ["write"; "fast"]%string (on_stream "xdel");
  registerCommand "xtrim" execXTrim writeFirstKey None (-2) flagWrite ["write"]%string (on_stream "xtrim");
  registerCommand "xsetid" execXSetID writeFirstKey None (-3) flagWrite ["write"]%string None;
  registerCommand "xread" execXRead readFirstKey None (-4) flagReadOnly ["readonly"]%string None].
End stream.
