(* ===== verification/StreamGroupCmd.v ===== *)
(** * Consumer-group commands: [internal/command/stream_group.go]

    The maps of a group are traversed in orders that the runtime chooses. *)

From stdpp Require Import base gmap list strings.
From Stdlib Require Import ZArith Lia Ascii.
From S2P Require Import Prelude Strconv ObjString Resp Runtime GoTime TimeWheel KeySpace StringCmd KeyCmd Tx ObjCmd ListCmd SetCmd Stream StreamCmd.

Local Open Scope Z_scope.

(** The orders, by the number of the choice: of the groups of a stream, of the
    consumers of a group, of the pending identifiers of a consumer, and of the
    counts of XPENDING. *)
Class SChoices := {
  groups_order : nat → Stream → list bytes;
  consumers_order : nat → Group → list bytes;
  ids_order : nat → Consumer → list StreamID;
  counts_order : nat → gmap bytes Z → list bytes
}.

Section groups.
Context {O : Type} `{!Objects O} `{!ObjOf O Stream} {env : Env} {rt : Runtime} {schoices : SChoices}.
Local Abbreviation M := (M O).

Definition no_group : reply := RErr "NOGROUP No such consumer group".
Definition needs_key : reply := RErr "ERR The XGROUP subcommand requires the key to exist".
Definition empty_multi : reply := RConst EmptyMultiBulkReply.
Definition NowMs : M Z := t ← Now; mret (time_UnixMilli t).

Definition parseStreamStartID (s : Stream) (w : bytes) : reply + StreamID :=
  if bytes_eqb w (str "$") then inr (lastID s)
  else if bytes_eqb w (str "0") then inr (MkID 0 0)
  else parse_id w.

(** The group of a stream has changed. *)
Definition store_group (key : bytes) (s : Stream) (name : bytes) (g : Group) : M unit :=
  store_obj key (set_groups s (<[name := g]> (groups s))).

(** The stream of a key and its group. *)
Definition with_group (key name : bytes) (missing : reply) (k : Stream → Group → M reply) : M reply :=
  r ← getAsStream key;
  match r with
  | inl e => mret e
  | inr None => mret missing
  | inr (Some s) =>
      match GetGroup s name with
      | None => mret no_group
      | Some g => k s g
      end
  end.

(** The consumers of a group with their names, and the pending entries of a
    consumer, in the order of a traversal. *)
Definition range_consumers (g : Group) : M (list (bytes * Consumer)) :=
  names ← choose (λ n, consumers_order n g);
  mret (omap (λ name, (name,.) <$> consumers g !! name) names).
Definition range_pending (c : Consumer) : M (list (StreamID * peref)) :=
  ids ← choose (λ n, ids_order n c);
  mret (omap (λ id, (id,.) <$> CPending c !! id) ids).

(** ** XGROUP *)

(** The options of CREATE and SETID: whether to make the stream; the number of
    entries is read and not used. *)
Fixpoint xgroup_opts (create : bool) (ws : list bytes) (mkstream : bool) : reply + bool :=
  match ws with
  | [] => inr mkstream
  | w :: ws =>
      let opt := ToUpper w in
      if create && bytes_eqb opt (str "MKSTREAM") then xgroup_opts create ws true
      else if bytes_eqb opt (str "ENTRIESADDED") then
        match ws with
        | [] => inl RSyntax
        | v :: ws => match ParseUint v with None => inl not_integer | Some _ => xgroup_opts create ws mkstream end
        end
      else inl RSyntax
  end.

(** [args] here, and in the lines that are logged, is without the subcommand. *)
Definition execXGroupCreate : ExecFunc O := λ args,
  if (length args <? 3)%nat then mret RSyntax else
  key ← str_at args 0;
  groupName ← str_at args 1;
  startArg ← str_at args 2;
  ws ← arg_strs (drop 3 args);
  match xgroup_opts true ws false with
  | inl e => mret e
  | inr mkstream =>
      r ← getAsStream key;
      r ← match r with
          | inr None => if mkstream : bool then getOrInitStream key else mret (inl needs_key)
          | inr (Some s) => mret (inr s)
          | inl e => mret (inl e)
          end;
      match r with
      | inl e => mret e
      | inr s =>
          match parseStreamStartID s startArg with
          | inl e => mret e
          | inr startID =>
              match CreateGroup s groupName startID with
              | (inl e, _) => mret (stream_error e)
              | (inr _, s) =>
                  store_obj key s;;
                  addAof (ToCmdLine3 "xgroup" args);;
                  mret ROk
              end
          end
      end
  end.

Definition execXGroupSetID : ExecFunc O := λ args,
  if (length args <? 3)%nat then mret RSyntax else
  key ← str_at args 0;
  groupName ← str_at args 1;
  startArg ← str_at args 2;
  ws ← arg_strs (drop 3 args);
  match xgroup_opts false ws false with
  | inl e => mret e
  | inr _ =>
      with_group key groupName needs_key (λ s g,
        match parseStreamStartID s startArg with
        | inl e => mret e
        | inr startID =>
            store_group key s groupName (group_SetID g startID);;
            addAof (ToCmdLine3 "xgroup" args);;
            mret ROk
        end)
  end.

Definition execXGroupDestroy : ExecFunc O := λ args,
  if (length args <? 2)%nat then mret RSyntax else
  key ← str_at args 0;
  groupName ← str_at args 1;
  r ← getAsStream key;
  match r with
  | inl e => mret e
  | inr None => mret (RInt 0)
  | inr (Some s) =>
      match DestroyGroup s groupName with
      | (true, s) => store_obj key s;; addAof (ToCmdLine3 "xgroup" args);; mret (RInt 1)
      | (false, _) => mret (RInt 0)
      end
  end.

(** The clock is read when there are entries to deliver. *)
Definition group_ReadNew (s : Stream) (g : Group) (consumerName : bytes) (count : Z) : M (list Entry * Group) :=
  if (length (Stream.Range s (read_start g) (MkID maxMs maxSeq) count) =? 0)%nat then mret ([], g)
  else now ← NowMs; mret (ReadNew g s consumerName count now).

Definition execXGroupCreateConsumer : ExecFunc O := λ args,
  if (length args <? 3)%nat then mret RSyntax else
  key ← str_at args 0;
  groupName ← str_at args 1;
  consumerName ← str_at args 2;
  with_group key groupName (RInt 0) (λ s g,
    match consumers g !! consumerName with
    | Some _ => mret (RInt 0)
    | None =>
        '(_, g) ← group_ReadNew s g consumerName 0;
        store_group key s groupName g;;
        addAof (ToCmdLine3 "xgroup" args);;
        mret (RInt 1)
    end).

Definition delete_consumer (g : Group) (name : bytes) : Group :=
  MkGroup (lastDelivered g) (entriesRead g) (pending g) (delete name (consumers g)) (pes g).

Definition execXGroupDelConsumer : ExecFunc O := λ args,
  if (length args <? 3)%nat then mret RSyntax else
  key ← str_at args 0;
  groupName ← str_at args 1;
  consumerName ← str_at args 2;
  with_group key groupName (RInt 0) (λ s g,
    match consumers g !! consumerName with
    | None => mret (RInt 0)
    | Some c =>
        ids ← range_pending c;
        let g := snd (Ack g ids.*1) in
        store_group key s groupName (delete_consumer g consumerName);;
        addAof (ToCmdLine3 "xgroup" args);;
        mret (RInt (Z.of_nat (size (CPending c))))
    end).

Definition execXGroup : ExecFunc O := λ args,
  if (length args <? 1)%nat then mret (RErr "ERR wrong number of arguments for 'xgroup' command") else
  a0 ← str_at args 0;
  let sub := ToUpper a0 in
  if bytes_eqb sub (str "CREATE") then execXGroupCreate (drop 1 args)
  else if bytes_eqb sub (str "SETID") then execXGroupSetID (drop 1 args)
  else if bytes_eqb sub (str "DESTROY") then execXGroupDestroy (drop 1 args)
  else if bytes_eqb sub (str "CREATECONSUMER") then execXGroupCreateConsumer (drop 1 args)
  else if bytes_eqb sub (str "DELCONSUMER") then execXGroupDelConsumer (drop 1 args)
  else mret (RErr "ERR Unknown subcommand or wrong number of arguments for 'XGROUP' command").

(** ** XREADGROUP *)

Record xreadgroup_opts := MkRG { rg_group : bytes; rg_consumer : bytes; rg_count : Z; rg_noack : bool; rg_block : Z }.

(** The options up to STREAMS and the words after it; GROUP with one word left
    reads past the end. *)
Fixpoint xreadgroup_args (ws : list bytes) (o : xreadgroup_opts) : res (reply + xreadgroup_opts * list bytes) :=
  match ws with
  | [] => Ret (inl RSyntax)
  | w :: ws =>
      let opt := ToUpper w in
      if bytes_eqb opt (str "GROUP") then
        match ws with
        | [] => Ret (inl RSyntax)
        | [_] => Panic
        | g :: c :: ws => xreadgroup_args ws (MkRG g c (rg_count o) (rg_noack o) (rg_block o))
        end
      else if bytes_eqb opt (str "COUNT") then
        match ws with
        | [] => Ret (inl RSyntax)
        | v :: ws =>
            match ParseInt v with
            | Some n => if n <=? 0 then Ret (inl not_integer) else xreadgroup_args ws (MkRG (rg_group o) (rg_consumer o) n (rg_noack o) (rg_block o))
            | None => Ret (inl not_integer)
            end
        end
      else if bytes_eqb opt (str "NOACK") then xreadgroup_args ws (MkRG (rg_group o) (rg_consumer o) (rg_count o) true (rg_block o))
      else if bytes_eqb opt (str "BLOCK") then
        match ws with
        | [] => Ret (inl RSyntax)
        | v :: ws =>
            match ParseInt v with
            | Some n => xreadgroup_args ws (MkRG (rg_group o) (rg_consumer o) (rg_count o) (rg_noack o) n)
            | None => Ret (inl not_integer)
            end
        end
      else if bytes_eqb opt (str "STREAMS") then Ret (inr (o, ws))
      else Ret (inl RSyntax)
  end.

(** The fields of an identifier that is pending: nothing when the entry is gone. *)
Definition fields_of (s : Stream) (id : StreamID) : list (bytes * bytes) :=
  match Stream.Range s id id 1 with e :: _ => Fields e | [] => [] end.

(** The identifier and the fields in one array. *)
Definition flat_reply (id : StreamID) (fields : list (bytes * bytes)) : reply :=
  RMultiBulk (ALit <$> Stream.String id :: (fields ≫= λ f, [f.1; f.2])).

(** What is delivered of a stream, and the group after. *)
Definition read_group_entries (o : xreadgroup_opts) (s : Stream) (g : Group) (id : bytes) : M (reply + list (StreamID * list (bytes * bytes)) * Group) :=
  if bytes_eqb id (str ">") then
    '(es, g) ← group_ReadNew s g (rg_consumer o) (rg_count o);
    mret (inr ((λ e, (ID e, Fields e)) <$> es, g))
  else
    match parse_id id with
    | inl e => mret (inl e)
    | inr startID =>
        let ids := ReadPending g (rg_consumer o) startID (MkID maxMs maxSeq) (rg_count o) in
        let g := if rg_noack o then snd (Ack g ids) else g in
        mret (inr ((λ id, (id, fields_of s id)) <$> ids, g))
    end.

Definition no_group_in (groupName key : bytes) : reply :=
  RConst (StandardErrReply (str "NOGROUP No such consumer group '" ++ groupName ++ str "' in key '" ++ key ++ str "'")).

Fixpoint xreadgroup_streams (o : xreadgroup_opts) (ks : list (bytes * bytes)) (results : list reply) : M reply :=
  match ks with
  | [] => mret (if (length results =? 0)%nat then RNull else RRaw results)
  | (key, id) :: ks =>
      r ← getAsStream key;
      match r with
      | inl e => mret e
      | inr None => xreadgroup_streams o ks results
      | inr (Some s) =>
          match GetGroup s (rg_group o) with
          | None => mret (no_group_in (rg_group o) key)
          | Some g =>
              r ← read_group_entries o s g id;
              match r with
              | inl e => mret e
              | inr (es, g) =>
                  store_group key s (rg_group o) g;;
                  if (length es =? 0)%nat then xreadgroup_streams o ks results
                  else xreadgroup_streams o ks (results ++ [RRaw [bulk key; RRaw ((λ e, flat_reply e.1 e.2) <$> es)]])
              end
          end
      end
  end.

Definition execXReadGroup : ExecFunc O := λ args,
  if (length args <? 2)%nat then mret RSyntax else
  ws ← arg_strs args;
  r ← lift (xreadgroup_args ws (MkRG [] [] 0 false (-1)));
  match r with
  | inl e => mret e
  | inr (o, ws) =>
      if bytes_eqb (rg_group o) [] || bytes_eqb (rg_consumer o) [] then mret RSyntax else
      if (length ws =? 0)%nat || negb (Z.rem (Z.of_nat (length ws)) 2 =? 0) then mret RSyntax else
      let numKeys := (length ws / 2)%nat in
      if rg_block o =? 0 then mret RNull
      else xreadgroup_streams o (zip (take numKeys ws) (drop numKeys ws)) []
  end.

(** ** XACK *)

Definition execXAck : ExecFunc O := λ args,
  if (length args <? 3)%nat then mret RSyntax else
  key ← str_at args 0;
  groupName ← str_at args 1;
  ws ← arg_strs (drop 2 args);
  match parse_ids ws with
  | inl e => mret e
  | inr ids =>
      with_group key groupName (RInt 0) (λ s g,
        let '(acked, g) := Ack g ids in
        store_group key s groupName g;;
        addAof (ToCmdLine3 "xack" args);;
        mret (RInt acked))
  end.

(** ** XPENDING *)

Definition id_less (a b : StreamID) : bool := (Ms a <? Ms b) || ((Ms a =? Ms b) && (Seq a <? Seq b)).

(** The smallest and the largest identifier and the counts, over the pending
    entries of all consumers. *)
Definition summary_id (name : bytes) (acc : StreamID * StreamID * gmap bytes Z) (id : StreamID) : StreamID * StreamID * gmap bytes Z :=
  let '(smallest, largest, counts) := acc in
  (if id_less id smallest then id else smallest, if id_less largest id then id else largest,
   <[name := wrap64 (default 0 (counts !! name) + 1)]> counts).
Fixpoint summary (cs : list (bytes * Consumer)) (acc : StreamID * StreamID * gmap bytes Z) : M (StreamID * StreamID * gmap bytes Z) :=
  match cs with
  | [] => mret acc
  | (name, c) :: cs => ps ← range_pending c; summary cs (foldl (summary_id name) acc ps.*1)
  end.

Definition xpendingSummary (g : Group) : M reply :=
  if PendingCount g =? 0 then mret (RRaw [RInt 0]) else
  cs ← range_consumers g;
  '(smallestID, largestID, consumerCounts) ← summary cs (MkID maxMs maxSeq, MkID 0 0, ∅);
  names ← choose (λ n, counts_order n consumerCounts);
  let consumerInfo := omap (λ name, (λ cnt, [bulk name; RInt cnt]) <$> consumerCounts !! name) names in
  mret (RRaw [RInt (PendingCount g); bulk (Stream.String smallestID); bulk (Stream.String largestID); RRaw (concat consumerInfo)]).

Definition idle_of (now t : Z) : Z := let idle := wrap64 (now - t) in if idle <? 0 then 0 else idle.

Definition not_before (id start : StreamID) : bool := Greater id start || ((Ms id =? Ms start) && (Seq id =? Seq start)).

(** One consumer; the flag says that there are enough replies. *)
Fixpoint extended_ids (g : Group) (now : Z) (start end_ : StreamID) (count : Z) (ps : list (StreamID * peref)) (out : list reply) : list reply * bool :=
  match ps with
  | [] => (out, false)
  | (id, r) :: ps =>
      if negb (not_before id start) || Greater id end_ then extended_ids g now start end_ count ps out else
      let pe := pending_entry g r in
      let out := out ++ [RRaw [bulk (Stream.String id); bulk (PConsumer pe); RInt (idle_of now (DeliveryTime pe)); RInt (wrap64 (DeliveryCount pe))]] in
      if (0 <? count) && (count <=? Z.of_nat (length out)) then (out, true) else extended_ids g now start end_ count ps out
  end.
Fixpoint extended (g : Group) (now : Z) (start end_ : StreamID) (count : Z) (consumerName : bytes) (cs : list (bytes * Consumer)) (out : list reply) : M (list reply) :=
  match cs with
  | [] => mret out
  | (name, c) :: cs =>
      if negb (bytes_eqb consumerName []) && negb (bytes_eqb name consumerName) then extended g now start end_ count consumerName cs out else
      ps ← range_pending c;
      let '(out, full) := extended_ids g now start end_ count ps out in
      if full : bool then mret out else extended g now start end_ count consumerName cs out
  end.

Definition xpendingExtended (g : Group) (start end_ : StreamID) (count : Z) (consumerName : bytes) : M reply :=
  now ← NowMs;
  cs ← range_consumers g;
  out ← extended g now start end_ count consumerName cs [];
  mret (if (length out =? 0)%nat then empty_multi else RRaw out).

Definition execXPending : ExecFunc O := λ args,
  if (length args <? 2)%nat then mret RSyntax else
  key ← str_at args 0;
  groupName ← str_at args 1;
  with_group key groupName empty_multi (λ _ g,
    if (length args =? 2)%nat then xpendingSummary g else
    if (length args <? 5)%nat then mret RSyntax else
    startArg ← str_at args 2;
    endArg ← str_at args 3;
    a4 ← str_at args 4;
    match ParseInt a4 with
    | None => mret not_integer
    | Some count =>
        if count <? 0 then mret not_integer else
        consumerName ← (if (6 <=? length args)%nat then str_at args 5 else mret []);
        match parse_id startArg with
        | inl e => mret e
        | inr startID =>
            match parse_id endArg with
            | inl e => mret e
            | inr endID => xpendingExtended g startID endID count consumerName
            end
        end
    end).
(** ** XCLAIM and XAUTOCLAIM *)

Record xclaim_opts := MkClaim { cl_idle : Z; cl_time : Z; cl_retry : Z; cl_force : bool; cl_justid : bool }.

Definition is_claim_opt (w : bytes) : bool :=
  let arg := ToUpper w in
  bytes_eqb arg (str "IDLE") || bytes_eqb arg (str "TIME") || bytes_eqb arg (str "RETRYCOUNT") || bytes_eqb arg (str "FORCE") || bytes_eqb arg (str "JUSTID").

(** The identifiers up to the first option. *)
Fixpoint claim_ids (ws : list bytes) : reply + list StreamID * list bytes :=
  match ws with
  | [] => inr ([], [])
  | w :: ws' =>
      if is_claim_opt w then inr ([], ws) else
      match parse_id w with
      | inl e => inl e
      | inr id => match claim_ids ws' with inl e => inl e | inr (ids, ws) => inr (id :: ids, ws) end
      end
  end.

Fixpoint claim_opts (ws : list bytes) (o : xclaim_opts) : reply + xclaim_opts :=
  match ws with
  | [] => inr o
  | w :: ws =>
      let opt := ToUpper w in
      let number (set : Z → xclaim_opts) :=
        match ws with
        | [] => inl RSyntax
        | v :: ws => match ParseInt v with None => inl not_integer | Some n => claim_opts ws (set n) end
        end in
      if bytes_eqb opt (str "IDLE") then number (λ n, MkClaim n (cl_time o) (cl_retry o) (cl_force o) (cl_justid o))
      else if bytes_eqb opt (str "TIME") then number (λ n, MkClaim (cl_idle o) n (cl_retry o) (cl_force o) (cl_justid o))
      else if bytes_eqb opt (str "RETRYCOUNT") then number (λ n, MkClaim (cl_idle o) (cl_time o) n (cl_force o) (cl_justid o))
      else if bytes_eqb opt (str "FORCE") then claim_opts ws (MkClaim (cl_idle o) (cl_time o) (cl_retry o) true (cl_justid o))
      else if bytes_eqb opt (str "JUSTID") then claim_opts ws (MkClaim (cl_idle o) (cl_time o) (cl_retry o) (cl_force o) true)
      else inl RSyntax
  end.

Definition set_pe (g : Group) (r : peref) (pe : PendingEntry) : Group :=
  MkGroup (lastDelivered g) (entriesRead g) (pending g) (consumers g) (<[r := pe]> (pes g)).

(** The delivery time and the count of the claimed entries, in place. *)
Fixpoint adjust (o : xclaim_opts) (consumerName : bytes) (claimed : list StreamID) (g : Group) : M Group :=
  match claimed with
  | [] => mret g
  | id :: claimed =>
      match (c ← consumers g !! consumerName; CPending c !! id) with
      | None => adjust o consumerName claimed g
      | Some r =>
          let pe := pending_entry g r in
          time ← if 0 <=? cl_idle o then now ← NowMs; mret (wrap64 (now - cl_idle o))
                 else mret (if 0 <=? cl_time o then cl_time o else DeliveryTime pe);
          let count := if 0 <=? cl_retry o then cl_retry o else DeliveryCount pe in
          adjust o consumerName claimed (set_pe g r (MkPE (PConsumer pe) time count))
      end
  end.

Definition claimed_reply (s : Stream) (claimed : list StreamID) : list reply := (λ id, flat_reply id (fields_of s id)) <$> claimed.
Definition ids_reply (claimed : list StreamID) : reply := RRaw ((λ id, bulk (Stream.String id)) <$> claimed).

Definition execXClaim : ExecFunc O := λ args,
  if (length args <? 4)%nat then mret RSyntax else
  key ← str_at args 0;
  groupName ← str_at args 1;
  consumerName ← str_at args 2;
  a3 ← str_at args 3;
  match ParseInt a3 with
  | None => mret not_integer
  | Some minIdleTime =>
      ws ← arg_strs (drop 4 args);
      match claim_ids ws with
      | inl e => mret e
      | inr (ids, ws) =>
          match claim_opts ws (MkClaim (-1) (-1) (-1) false false) with
          | inl e => mret e
          | inr o =>
              with_group key groupName empty_multi (λ s g,
                now ← NowMs;
                let '(claimed, g) := Claim g consumerName minIdleTime now ids (cl_force o) in
                g ← (if (0 <=? cl_idle o) || (0 <=? cl_time o) || (0 <=? cl_retry o) then adjust o consumerName claimed g else mret g);
                store_group key s groupName g;;
                if cl_justid o then mret (ids_reply claimed)
                else if (length claimed =? 0)%nat then mret empty_multi
                else addAof (ToCmdLine3 "xclaim" args);; mret (RRaw (claimed_reply s claimed)))
          end
      end
  end.

Fixpoint autoclaim_opts (ws : list bytes) (count : Z) (justid : bool) : reply + Z * bool :=
  match ws with
  | [] => inr (count, justid)
  | w :: ws =>
      let opt := ToUpper w in
      if bytes_eqb opt (str "COUNT") then
        match ws with
        | [] => inl RSyntax
        | v :: ws => match ParseInt v with Some n => if n <=? 0 then inl not_integer else autoclaim_opts ws n justid | None => inl not_integer end
        end
      else if bytes_eqb opt (str "JUSTID") then autoclaim_opts ws count true
      else inl RSyntax
  end.

(** The idle entries of all consumers from an identifier on. *)
Fixpoint idle_ids (g : Group) (now minIdleTime : Z) (startID : StreamID) (cs : list (bytes * Consumer)) : M (list StreamID) :=
  match cs with
  | [] => mret []
  | (_, c) :: cs =>
      ps ← range_pending c;
      rest ← idle_ids g now minIdleTime startID cs;
      mret ((filter (λ p, (not_before p.1 startID && (minIdleTime <=? wrap64 (now - DeliveryTime (pending_entry g p.2)))) = true) ps).*1 ++ rest)
  end.

(** The loop over [j] for one [i]: what is left at [i], and the rest. *)
Fixpoint bubble (x : StreamID) (l : list StreamID) : StreamID * list StreamID :=
  match l with
  | [] => (x, [])
  | y :: l => if Greater y x then let '(m, l) := bubble y l in (m, x :: l) else let '(m, l) := bubble x l in (m, y :: l)
  end.
(** A round for each place. *)
Fixpoint bubble_sort (n : nat) (l : list StreamID) : list StreamID :=
  match n, l with
  | S n, x :: l => let '(m, l) := bubble x l in m :: bubble_sort n l
  | _, l => l
  end.

(** The start of the next call. *)
Definition next_start (startID : StreamID) (claimed : list StreamID) : StreamID :=
  match last claimed with
  | None => startID
  | Some id => let seq := u64 (Seq id + 1) in MkID (if seq =? 0 then u64 (Ms id + 1) else Ms id) seq
  end.

Definition execXAutoClaim : ExecFunc O := λ args,
  if (length args <? 5)%nat then mret RSyntax else
  key ← str_at args 0;
  groupName ← str_at args 1;
  consumerName ← str_at args 2;
  a3 ← str_at args 3;
  match ParseInt a3 with
  | None => mret not_integer
  | Some minIdleTime =>
      startArg ← str_at args 4;
      ws ← arg_strs (drop 5 args);
      match autoclaim_opts ws 100 false with
      | inl e => mret e
      | inr (count, justid) =>
          match parse_id startArg with
          | inl e => mret e
          | inr startID =>
              with_group key groupName no_group (λ s g,
                now ← NowMs;
                cs ← range_consumers g;
                ids ← idle_ids g now minIdleTime startID cs;
                let toClaim := take (Z.to_nat count) (bubble_sort (length ids) ids) in
                now ← NowMs;
                let '(claimed, g) := Claim g consumerName minIdleTime now toClaim false in
                store_group key s groupName g;;
                let nextStart := bulk (Stream.String (next_start startID claimed)) in
                if justid : bool then mret (RRaw [nextStart; ids_reply claimed; empty_multi])
                else
                  addAof (ToCmdLine3 "xautoclaim" args);;
                  mret (RRaw [nextStart; RRaw (claimed_reply s claimed); empty_multi]))
          end
      end
  end.

(** ** XINFO *)

Fixpoint xinfo_opts (ws : list bytes) : option reply :=
  match ws with
  | [] => None
  | w :: ws =>
      let opt := ToUpper w in
      if bytes_eqb opt (str "FULL") then xinfo_opts ws
      else if bytes_eqb opt (str "COUNT") then
        match ws with
        | [] => Some RSyntax
        | v :: ws => match ParseInt v with Some n => if n <? 0 then Some not_integer else xinfo_opts ws | None => Some not_integer end
        end
      else Some RSyntax
  end.

(** The first entry of a range. *)
Definition first_reply (es : list Entry) : reply := match es with e :: _ => flat_reply (ID e) (Fields e) | [] => empty_multi end.

Definition label (s : string) : reply := bulk (str s).
Definition no_such_key : reply := RErr "ERR no such key".

Definition execXInfoStream : ExecFunc O := λ args,
  if (length args <? 1)%nat then mret RSyntax else
  key ← str_at args 0;
  ws ← arg_strs (drop 1 args);
  match xinfo_opts ws with
  | Some e => mret e
  | None =>
      r ← getAsStream key;
      match r with
      | inl e => mret e
      | inr None => mret no_such_key
      | inr (Some s) =>
          mret (RRaw [label "length"; RInt (Stream.Len s); label "radix-tree-keys"; RInt 1; label "radix-tree-nodes"; RInt 2;
            label "groups"; RInt (Z.of_nat (size (groups s)));
            label "last-generated-id"; bulk (Stream.String (lastID s));
            label "max-deleted-entry-id"; bulk (Stream.String (maxDeletedID s));
            label "entries-added"; RInt (wrap64 (entriesAdded s));
            label "first-entry"; first_reply (Stream.Range s (MkID 0 0) (MkID maxMs maxSeq) 1);
            label "last-entry"; if 0 <? Stream.Len s then first_reply (Stream.Range s (lastID s) (lastID s) 1) else empty_multi])
      end
  end.

Definition group_info (s : Stream) (name : bytes) (g : Group) : reply :=
  RRaw [label "name"; bulk name; label "consumers"; RInt (Z.of_nat (size (consumers g))); label "pending"; RInt (PendingCount g);
    label "last-delivered-id"; bulk (Stream.String (lastDelivered g)); label "entries-read"; RInt (wrap64 (entriesAdded s));
    label "lag"; RInt (wrap64 (Lag g (entriesAdded s)))].

Definition execXInfoGroups : ExecFunc O := λ args,
  if (length args <? 1)%nat then mret RSyntax else
  key ← str_at args 0;
  r ← getAsStream key;
  match r with
  | inl e => mret e
  | inr None => mret no_such_key
  | inr (Some s) =>
      if (size (groups s) =? 0)%nat then mret empty_multi else
      names ← choose (λ n, groups_order n s);
      mret (RRaw (omap (λ name, group_info s name <$> groups s !! name) names))
  end.

Definition consumer_info (now : Z) (c : bytes * Consumer) : reply :=
  RRaw [label "name"; bulk c.1; label "pending"; RInt (Z.of_nat (size (CPending c.2))); label "idle"; RInt (idle_of now (ActiveTime c.2))].

Definition execXInfoConsumers : ExecFunc O := λ args,
  if (length args <? 2)%nat then mret RSyntax else
  key ← str_at args 0;
  groupName ← str_at args 1;
  with_group key groupName no_such_key (λ _ g,
    if (size (consumers g) =? 0)%nat then mret empty_multi else
    now ← NowMs;
    cs ← range_consumers g;
    mret (RRaw (consumer_info now <$> cs))).

Definition execXInfo : ExecFunc O := λ args,
  if (length args <? 1)%nat then mret (RErr "ERR wrong number of arguments for 'xinfo' command") else
  a0 ← str_at args 0;
  let sub := ToUpper a0 in
  if bytes_eqb sub (str "STREAM") then execXInfoStream (drop 1 args)
  else if bytes_eqb sub (str "GROUPS") then execXInfoGroups (drop 1 args)
  else if bytes_eqb sub (str "CONSUMERS") then execXInfoConsumers (drop 1 args)
  else mret (RErr "ERR Unknown subcommand or wrong number of arguments for 'XINFO' command").

(** ** Registrations *)

Definition group_commands : list (bytes * command O) := [
  registerCommand "xgroup" execXGroup writeFirstKey None (-4) flagWrite w_oom (on_stream "xgroup-create");
  registerCommand "xreadgroup" execXReadGroup readFirstKey None (-7) flagWrite ["write"]%string None;
  registerCommand "xack" execXAck writeFirstKey None (-4) flagWrite ["write"; "fast"]%string None;
  registerCommand "xpending" execXPending readFirstKey None (-3) flagReadOnly ["readonly"]%string None;
  registerCommand "xclaim" execXClaim writeFirstKey None (-6) flagWrite ["write"]%string None;
  registerCommand "xautoclaim" execXAutoClaim writeFirstKey None (-5) flagWrite ["write"]%string None;
  registerCommand "xinfo" execXInfo readFirstKey None (-2) flagReadOnly ["readonly"]%string None].
End groups.
