(* ===== verification/StreamCmdThm.v ===== *)
(** * Stream commands: what a client sees

    The keys that hold a stream are logs with consumer groups: entries in the
    order of their identifiers, the last identifier given, and for each group
    the last identifier delivered and the owner of every pending one.  The heap
    of pending entries, the lists of the consumers and the counters are not in
    the view. *)

From stdpp Require Import base gmap list sorting relations strings.
From Stdlib Require Import ZArith Lia Ascii.
From S2P Require Import Prelude GoText Strconv Resp ObjString Runtime GoTime TimeWheel KeySpace StringCmd KeyCmd Tx KeySpaceThm TxThm ObjCmd ListCmd SetCmd ObjCmdThm Stream StreamThm StreamGroup StreamCmd StreamGroupCmd.

Local Open Scope Z_scope.

(** ** Logs *)

Record agroup := MkAG { a_cursor : StreamID; a_owner : gmap StreamID bytes }.
Record alog := MkLog { a_entries : list Entry; a_last : StreamID; a_groups : gmap bytes agroup }.

Abbreviation logs := (gmap bytes (slot alog)).

Definition new_log : alog := MkLog [] (MkID 0 0) ∅.
Definition with_entries (a : alog) (es : list Entry) : alog := MkLog es (a_last a) (a_groups a).
Definition with_groups (a : alog) gs : alog := MkLog (a_entries a) (a_last a) gs.

Definition on_log (m : logs) (k : bytes) (missing : Reply) (f : alog → logs * Reply) : logs * Reply :=
  match m !! k with
  | None => (m, missing)
  | Some Foreign => (m, WrongTypeErrReply)
  | Some (Own a) => f a
  end.
(** A missing key gets an empty log. *)
Definition on_new_log (m : logs) (k : bytes) (f : alog → alog * Reply) : logs * Reply :=
  match m !! k with
  | Some Foreign => (m, WrongTypeErrReply)
  | s => let '(a, r) := f (match s with Some (Own a) => a | _ => new_log end) in (<[k := Own a]> m, r)
  end.
Definition on_group (m : logs) (k g : bytes) (missing : Reply) (f : alog → agroup → logs * Reply) : logs * Reply :=
  on_log m k missing (λ a,
    match a_groups a !! g with
    | None => (m, StandardErrReply (str "NOGROUP No such consumer group"))
    | Some ag => f a ag
    end).
Definition put_group (m : logs) (k : bytes) (a : alog) (g : bytes) (ag : agroup) : logs :=
  <[k := Own (with_groups a (<[g := ag]> (a_groups a)))]> m.

(** *** Replies *)

Definition Bulk (b : bytes) : Reply := BulkReply (Some b).
Definition Err (s : string) : Reply := StandardErrReply (str s).
Definition entry_Reply (e : Entry) : Reply := MultiRawReply [Bulk (Stream.String (ID e)); MultiRawReply (Fields e ≫= λ f, [Bulk f.1; Bulk f.2])].
Definition entries_Reply (es : list Entry) : Reply := MultiRawReply (entry_Reply <$> es).
Definition flat_Reply (id : StreamID) (fields : list (bytes * bytes)) : Reply :=
  MultiBulkReply (Some <$> Stream.String id :: (fields ≫= λ f, [f.1; f.2])).
Definition stream_Reply (k : bytes) (es : list (StreamID * list (bytes * bytes))) : Reply :=
  match es with
  | [] => NullBulkReply
  | _ => MultiRawReply [MultiRawReply [Bulk k; MultiRawReply ((λ e, flat_Reply e.1 e.2) <$> es)]]
  end.

(** *** Operations *)

(** The identifiers from [a] to [b]. *)
Definition between (a b id : StreamID) : Prop := Greater a id = false ∧ Greater id b = false.
#[export] Instance between_dec a b id : Decision (between a b id).
Proof. unfold between. apply _. Defined.

#[export] Instance idlt_dec a b : Decision (idlt a b).
Proof. unfold idlt. apply _. Defined.

Definition log_range (a b : StreamID) (es : list Entry) : list Entry := filter (λ e, between a b (ID e)) es.
Definition log_after (id : StreamID) (es : list Entry) : list Entry := filter (λ e, idlt id (ID e)) es.

Definition log_add (id : StreamID) (fields : list (bytes * bytes)) (a : alog) : alog * Reply :=
  if bool_decide (id = MkID 0 0) then (a, Err "ERR The ID specified in XADD must be greater than 0-0")
  else if bool_decide (idlt (a_last a) id) then (MkLog (a_entries a ++ [MkEntry id fields]) id (a_groups a), Bulk (Stream.String id))
  else (a, Err "ERR The ID specified in XADD is equal or smaller than the target stream top item").

(** The identifier that is assigned at a time. *)
Definition next_id (ms : Z) (last : StreamID) : StreamID := if ms <=? Ms last then MkID (Ms last) (Seq last + 1) else MkID ms 0.

Definition fields_at (es : list Entry) (id : StreamID) : list (bytes * bytes) :=
  match filter (λ e, ID e = id) es with e :: _ => Fields e | [] => [] end.

(** What a consumer owns from an identifier on, largest first. *)
Definition owned (ag : agroup) (c : bytes) (start : StreamID) : list StreamID :=
  merge_sort id_ge (filter (λ p, p.2 = c ∧ Greater start p.1 = false) (map_to_list (a_owner ag))).*1.

Definition give (c : bytes) (ids : list StreamID) (o : gmap StreamID bytes) : gmap StreamID bytes := foldl (λ o id, <[id := c]> o) o ids.

Inductive stream_op :=
| OXAdd (k : bytes) (id : StreamID) (fields : list (bytes * bytes))
| OXAddAuto (k : bytes) (fields : list (bytes * bytes))
| OXLen (k : bytes)
| OXRange (k : bytes) (a b : StreamID) (count : Z)
| OXRevRange (k : bytes) (a b : StreamID) (count : Z)
| OXDel (k : bytes) (ids : list StreamID)
| OXTrim (k : bytes) (n : Z)
| OXRead (count : Z) (k : bytes) (id : StreamID)
| OXGroupCreate (k g : bytes) (start : StreamID)
| OXGroupDestroy (k g : bytes)
| OXReadGroup (g c : bytes) (count : Z) (k : bytes)
| OXReadPending (g c : bytes) (k : bytes) (start : StreamID)
| OXAck (k g : bytes) (ids : list StreamID)
| OXClaim (k g c : bytes) (ids : list StreamID).

(** At the time [ms]. *)
Definition stream_cmd_spec (ms : Z) (m : logs) (o : stream_op) : logs * Reply :=
  match o with
  | OXAdd k id fields => on_new_log m k (log_add id fields)
  | OXAddAuto k fields => on_new_log m k (λ a, log_add (next_id ms (a_last a)) fields a)
  | OXLen k => on_log m k (IntReply 0) (λ a, (m, IntReply (wrap64 (Z.of_nat (length (a_entries a))))))
  | OXRange k a b count => on_log m k (MultiRawReply []) (λ l, (m, entries_Reply (limited count (log_range a b (a_entries l)))))
  | OXRevRange k a b count => on_log m k (MultiRawReply []) (λ l, (m, entries_Reply (limited count (reverse (log_range a b (a_entries l))))))
  | OXDel k ids => on_log m k (IntReply 0) (λ a,
      (<[k := Own (with_entries a (filter (λ e, ID e ∉ ids) (a_entries a)))]> m, IntReply (Z.of_nat (length (filter (λ e, ID e ∈ ids) (a_entries a))))))
  | OXTrim k n => on_log m k (IntReply 0) (λ a,
      let gone := (length (a_entries a) - Z.to_nat n)%nat in
      if n =? 0 then (m, IntReply 0)
      else (<[k := Own (with_entries a (drop gone (a_entries a)))]> m, IntReply (Z.of_nat gone)))
  | OXRead count k id => on_log m k NullMultiBulkReply (λ a,
      match limited count (log_after id (a_entries a)) with
      | [] => (m, NullMultiBulkReply)
      | es => (m, MultiRawReply [MultiRawReply [Bulk k; entries_Reply es]])
      end)
  | OXGroupCreate k g start => on_new_log m k (λ a,
      match a_groups a !! g with
      | Some _ => (a, Err "BUSYGROUP Consumer Group name already exists")
      | None => (with_groups a (<[g := MkAG start ∅]> (a_groups a)), OkReply)
      end)
  | OXGroupDestroy k g => on_log m k (IntReply 0) (λ a,
      match a_groups a !! g with
      | None => (m, IntReply 0)
      | Some _ => (<[k := Own (with_groups a (delete g (a_groups a)))]> m, IntReply 1)
      end)
  | OXReadGroup g c count k => on_log m k NullBulkReply (λ a,
      match a_groups a !! g with
      | None => (m, StandardErrReply (str "NOGROUP No such consumer group '" ++ g ++ str "' in key '" ++ k ++ str "'"))
      | Some ag =>
          let es := limited count (log_after (a_cursor ag) (a_entries a)) in
          (put_group m k a g (MkAG (default (a_cursor ag) (last (ID <$> es))) (give c (ID <$> es) (a_owner ag))),
           stream_Reply k ((λ e, (ID e, Fields e)) <$> es))
      end)
  | OXReadPending g c k start => on_log m k NullBulkReply (λ a,
      match a_groups a !! g with
      | None => (m, StandardErrReply (str "NOGROUP No such consumer group '" ++ g ++ str "' in key '" ++ k ++ str "'"))
      | Some ag => (m, stream_Reply k ((λ id, (id, fields_at (a_entries a) id)) <$> owned ag c start))
      end)
  | OXAck k g ids => on_group m k g (IntReply 0) (λ a ag,
      let o := filter (λ p, p.1 ∉ ids) (a_owner ag) in
      (put_group m k a g (MkAG (a_cursor ag) o), IntReply (Z.of_nat (size (a_owner ag)) - Z.of_nat (size o))))
  | OXClaim k g c ids => on_group m k g EmptyMultiBulkReply (λ a ag,
      let claimed := filter (λ id, is_Some (a_owner ag !! id)) ids in
      (put_group m k a g (MkAG (a_cursor ag) (give c claimed (a_owner ag))), MultiRawReply ((λ id, Bulk (Stream.String id)) <$> claimed)))
  end.

(** Identifiers that have a successor, counts that are integers, at least one
    field, and names. *)
Definition stream_op_ok (m : logs) (o : stream_op) : Prop :=
  match o with
  | OXAdd _ id fields => id_ok id ∧ fields ≠ []
  | OXAddAuto k fields => fields ≠ [] ∧ ∀ a, m !! k = Some (Own a) → Seq (a_last a) + 1 < maxSeq
  | OXLen _ | OXGroupDestroy _ _ => True
  | OXRange _ a b count | OXRevRange _ a b count => id_u64 a ∧ id_u64 b ∧ 0 <= count <= max_i64
  | OXDel _ ids => ids ≠ [] ∧ Forall id_u64 ids
  | OXTrim _ n => 0 <= n <= max_i64
  | OXRead count _ id => id_ok id ∧ 0 <= count <= max_i64
  | OXGroupCreate _ _ start => id_ok start
  | OXReadGroup g c count _ => g ≠ [] ∧ c ≠ [] ∧ 0 < count <= max_i64
  | OXReadPending g c _ start => g ≠ [] ∧ c ≠ [] ∧ id_u64 start
  | OXAck _ _ ids | OXClaim _ _ _ ids => ids ≠ [] ∧ Forall id_u64 ids
  end.

Section run.
Context {O : Type} `{!Objects O} `{!ObjOf O Stream} {env : Env} {rt : Runtime} {schoices : SChoices}.

(** The command that an operation stands for. *)
Definition stream_exec (o : stream_op) : M O reply :=
  let line (words : list bytes) := ALit <$> words in
  let id := Stream.String in
  let flat (fields : list (bytes * bytes)) := fields ≫= λ f, [f.1; f.2] in
  match o with
  | OXAdd k i fields => execXAdd (line (k :: id i :: flat fields))
  | OXAddAuto k fields => execXAdd (line (k :: str "*" :: flat fields))
  | OXLen k => execXLen (line [k])
  | OXRange k a b count => execXRange (line [k; id a; id b; str "COUNT"; Itoa count])
  | OXRevRange k a b count => execXRevRange (line [k; id b; id a; str "COUNT"; Itoa count])
  | OXDel k ids => execXDel (line (k :: (id <$> ids)))
  | OXTrim k n => execXTrim (line [k; str "MAXLEN"; Itoa n])
  | OXRead count k i => execXRead (line [str "COUNT"; Itoa count; str "STREAMS"; k; id i])
  | OXGroupCreate k g start => execXGroup (line [str "CREATE"; k; g; id start; str "MKSTREAM"])
  | OXGroupDestroy k g => execXGroup (line [str "DESTROY"; k; g])
  | OXReadGroup g c count k => execXReadGroup (line [str "GROUP"; g; c; str "COUNT"; Itoa count; str "STREAMS"; k; str ">"])
  | OXReadPending g c k start => execXReadGroup (line [str "GROUP"; g; c; str "STREAMS"; k; id start])
  | OXAck k g ids => execXAck (line (k :: g :: (id <$> ids)))
  | OXClaim k g c ids => execXClaim (line (k :: g :: c :: str "0" :: (id <$> ids) ++ [str "JUSTID"]))
  end.
End run.

(** ** Groups *)

Lemma id_ok_u64 id : id_ok id → id_u64 id.
Proof. unfold id_ok, id_u64. lia. Qed.

(** Who owns a pending identifier. *)
Definition owner_map (g : Group) : gmap StreamID bytes := omap (λ r, PConsumer <$> pes g !! r) (pending g).

Lemma owner_lookup g id : owner_map g !! id = r ← pending g !! id; PConsumer <$> pes g !! r.
Proof. unfold owner_map. by rewrite lookup_omap. Qed.
Lemma owner_pending g id : group_ok g → is_Some (owner_map g !! id) ↔ is_Some (pending g !! id).
Proof.
  intros Hg. rewrite owner_lookup. destruct (pending g !! id) as [r|] eqn:Hr; cbn; [|by split; intros []].
  destruct (go_owner g Hg _ _ Hr) as (pe & c & -> & _). cbn. split; intros _; eauto.
Qed.

(** The group at the time [now], and its view. *)
Record group_rel (now : Z) (g : Group) (ag : agroup) : Prop := {
  gr_ok : group_ok g;
  gr_last : id_ok (lastDelivered g);
  gr_cursor : a_cursor ag = lastDelivered g;
  gr_owner : a_owner ag = owner_map g;
  gr_time : Forall (λ pe, 0 <= DeliveryTime pe <= now) (pes g);
  gr_ids id : is_Some (a_owner ag !! id) → id_u64 id
}.

Lemma new_group_rel now start : id_ok start → group_rel now (newGroup start) (MkAG start ∅).
Proof.
  intros Hs. split; [apply newGroup_ok|done|done| |constructor|]; cbn; [unfold owner_map; by rewrite omap_empty|]. intros id. rewrite lookup_empty. by intros [].
Qed.

(** *** Delivering *)

Lemma deliver_owner g name now e : group_ok g → owner_map (deliver name now g e) = <[ID e := name]> (owner_map g).
Proof.
  intros Hg. apply map_eq. intros id. rewrite owner_lookup. cbn [deliver pending pes]. destruct (decide (id = ID e)) as [->|Hne].
  - rewrite !lookup_insert_eq. cbn. by rewrite list_lookup_middle.
  - rewrite !lookup_insert_ne, owner_lookup by congruence. destruct (pending g !! id) as [r|] eqn:Hr; [|done]. cbn.
    by rewrite lookup_app_l by (by eapply go_bound).
Qed.

Lemma deliver_all_owner name now es g : 0 <= now → group_ok g → sorted (lastDelivered g :: (ID <$> es)) → Forall (λ pe, 0 <= DeliveryTime pe <= now) (pes g) →
  owner_map (foldl (deliver name now) g es) = give name (ID <$> es) (owner_map g) ∧ Forall (λ pe, 0 <= DeliveryTime pe <= now) (pes (foldl (deliver name now) g es)).
Proof.
  intros Hnow. revert g. induction es as [|e es IH]; intros g Hg Hs Ht; [done|]. cbn [foldl]. apply StronglySorted_inv in Hs as [Hs Hlt]. cbn in Hs, Hlt.
  apply Forall_cons in Hlt as [He Hlt]. destruct (deliver_ok name now g e Hg He) as [Hg' Hl']. destruct (IH (deliver name now g e) Hg') as [Ho Ht'].
  - by rewrite Hl'.
  - cbn. apply Forall_app. split; [done|]. constructor; [cbn; lia|constructor].
  - rewrite Ho, deliver_owner by done. done.
Qed.

Lemma log_after_fresh g s : log_after (lastDelivered g) (entries s) = fresh g s.
Proof. unfold log_after, fresh. by apply list_filter_iff. Qed.

Lemma limited_elem {A} count (l : list A) x : x ∈ limited count l → x ∈ l.
Proof. unfold limited. destruct (0 <? count); [|done]. intros Hx. rewrite <- (take_drop (Z.to_nat count) l). apply elem_of_app. by left. Qed.

Lemma give_Some c ids o id : is_Some (give c ids o !! id) → id ∈ ids ∨ is_Some (o !! id).
Proof.
  revert o. induction ids as [|x ids IH]; intros o; [by right|]. cbn [give foldl]. intros [H|H]%IH; [left; by right|].
  apply lookup_insert_is_Some' in H as [->|H]; [left; by left|by right].
Qed.

Lemma ReadNew_rel now g ag s c count : 0 <= now → stream_ok s → group_rel now g ag →
  let es := limited count (log_after (a_cursor ag) (entries s)) in
  ∃ g', ReadNew g s c count now = (es, g') ∧
    group_rel now g' (MkAG (default (a_cursor ag) (last (ID <$> es))) (give c (ID <$> es) (a_owner ag))).
Proof.
  intros Hnow Hs [Hg Hl Hc Ho Ht Hids] es. destruct (ReadNew g s c count now) as [es' g'] eqn:E.
  assert (Hes : es' = es). { pose proof (ReadNew_entries g s c count now Hs Hl) as H. rewrite E in H. cbn in H. unfold es. by rewrite Hc, log_after_fresh. }
  subst es'. exists g'. split; [done|]. destruct (ReadNew_ok g s c count now es g' Hs Hg Hl E) as (Hg' & _ & Hl').
  assert (Hsub : sorted (lastDelivered g :: (ID <$> es))).
  { eapply sorted_sublist; [|by apply (fresh_after g s)]. apply sublist_skip. unfold es. rewrite Hc, log_after_fresh. destruct (limited_split count (fresh g s)) as [later Hlater].
    rewrite Hlater at 2. rewrite fmap_app. by apply sublist_inserts_r. }
  assert (Hshape : owner_map g' = give c (ID <$> es) (owner_map g) ∧ Forall (λ pe, 0 <= DeliveryTime pe <= now) (pes g')).
  { unfold ReadNew in E. case_bool_decide as Hn; [injection E as He <-; by rewrite <- He|]. destruct (getOrCreateConsumer g c) as [c1 g1] eqn:E1.
    apply getOrCreateConsumer_ok in E1 as (Hg1 & _ & Hl1 & Hp1 & Hh1); [|done]. injection E as He Eg. rewrite He in Eg.
    destruct (deliver_all_owner c now es g1 Hnow Hg1) as [Ho1 Ht1]; [by rewrite Hl1|by rewrite Hh1|]. subst g'. split; [|done].
    transitivity (owner_map (foldl (deliver c now) g1 es)); [done|]. rewrite Ho1. unfold owner_map. by rewrite Hp1, Hh1. }
  assert (Hpos : ∀ id, id ∈ ID <$> es → id_ok id).
  { intros id (e & -> & He)%list_elem_of_fmap. apply limited_elem, list_elem_of_filter in He as [_ He]. destruct Hs as [_ Hp _ _]. rewrite Forall_forall in Hp. by apply Hp. }
  destruct Hshape as [Ho' Ht']. split; [done| |by cbn; rewrite Hc, Hl'|by cbn; rewrite Ho, Ho'|done|].
  - rewrite Hl'. destruct (last (ID <$> es)) as [id|] eqn:El; [|done]. cbn. by apply Hpos, last_Some_elem_of.
  - intros id [Hin|Hin]%give_Some; [|by apply Hids]. apply id_ok_u64. by apply Hpos.
Qed.

(** *** Acknowledging *)

Lemma ack_step_rel now g ag n id : group_rel now g ag →
  ∃ g', ack_step (n, g) id = (n + (if decide (is_Some (a_owner ag !! id)) then 1 else 0), g') ∧ group_rel now g' (MkAG (a_cursor ag) (delete id (a_owner ag))).
Proof.
  intros [Hg Hl Hc Ho Ht Hids]. destruct (ack_step (n, g) id) as [n' g'] eqn:E. destruct (ack_step_ok _ _ _ _ _ Hg E) as (Hg' & Hl' & Hp').
  exists g'. pose proof (owner_pending g id Hg) as Hop. rewrite <- Ho in Hop. unfold ack_step in E. destruct (pending g !! id) as [r|] eqn:Hr.
  - injection E as <- <-. destruct (decide _) as [_|Hn]; [|destruct Hn; apply Hop; eauto]. split; [done|]. split; [done|done|done| |done|cbn; intros x [v [_ Hx]%lookup_delete_Some]; eauto].
    cbn [a_owner]. rewrite Ho. apply map_eq. intros id'. rewrite owner_lookup. cbn [pending pes].
    destruct (decide (id' = id)) as [->|Hne]; [by rewrite !lookup_delete_eq|]. by rewrite !lookup_delete_ne, owner_lookup by congruence.
  - injection E as <- <-. destruct (decide _) as [Hn|_]; [apply Hop in Hn as [? ?]; done|]. rewrite Z.add_0_r. split; [done|]. split; [done..| |done|cbn; intros x [v [_ Hx]%lookup_delete_Some]; eauto].
    cbn [a_owner]. rewrite delete_id; [done|]. destruct (a_owner ag !! id) eqn:E'; [|done]. destruct Hop as [Hop _]. destruct Hop as [? ?]; eauto. done.
Qed.

Lemma filter_notin_cons (id : StreamID) ids (o : gmap StreamID bytes) :
  filter (λ p, p.1 ∉ id :: ids) o = filter (λ p, p.1 ∉ ids) (delete id o).
Proof.
  apply map_eq. intros x. apply option_eq. intros v. rewrite !map_lookup_filter_Some, lookup_delete_Some, not_elem_of_cons. cbn. intuition congruence.
Qed.
Lemma size_delete (id : StreamID) (o : gmap StreamID bytes) : Z.of_nat (size o) = Z.of_nat (size (delete id o)) + (if decide (is_Some (o !! id)) then 1 else 0).
Proof.
  destruct (decide _) as [[v Hv]|Hn].
  - rewrite <- (insert_delete_id o id v Hv) at 1. rewrite map_size_insert_None by apply lookup_delete_eq. lia.
  - rewrite delete_id; [lia|]. by apply eq_None_not_Some.
Qed.

Lemma Ack_rel now g ag ids : group_rel now g ag →
  let o := filter (λ p, p.1 ∉ ids) (a_owner ag) in
  ∃ g', Ack g ids = (Z.of_nat (size (a_owner ag)) - Z.of_nat (size o), g') ∧ group_rel now g' (MkAG (a_cursor ag) o).
Proof.
  intros Hrel o. enough (G : ∀ n, ∃ g', foldl ack_step (n, g) ids = (n + (Z.of_nat (size (a_owner ag)) - Z.of_nat (size o)), g') ∧ group_rel now g' (MkAG (a_cursor ag) o)) by (apply (G 0)).
  subst o. revert g ag Hrel. induction ids as [|id ids IH]; intros g ag Hrel n; cbn [foldl].
  - rewrite map_filter_id by (intros; apply not_elem_of_nil). exists g. split; [f_equal; lia|]. by destruct ag.
  - destruct (ack_step_rel now g ag n id Hrel) as (g1 & -> & H1). destruct (IH g1 _ H1 (n + (if decide (is_Some (a_owner ag !! id)) then 1 else 0))) as (g' & E & H').
    exists g'. rewrite E. cbn [a_owner a_cursor] in *. rewrite filter_notin_cons. split; [|done]. f_equal. pose proof (size_delete id (a_owner ag)). lia.
Qed.

(** *** Claiming *)

Lemma claim_step_rel now g ag c acc id : i64 now → 0 <= now → group_rel now g ag →
  ∃ g', claim_step c 0 now false (acc, g) id =
    (if decide (is_Some (a_owner ag !! id)) then acc ++ [id] else acc, g') ∧
    group_rel now g' (MkAG (a_cursor ag) (if decide (is_Some (a_owner ag !! id)) then <[id := c]> (a_owner ag) else a_owner ag)).
Proof.
  intros Hi Hnow [Hg Hl Hc Ho Ht Hids]. destruct (claim_step c 0 now false (acc, g) id) as [acc' g'] eqn:E.
  destruct (claim_step_ok c 0 now false acc g id acc' g' Hg (or_introl eq_refl) E) as [Hg' Hl']. pose proof (owner_pending g id Hg) as Hop. rewrite <- Ho in Hop.
  exists g'. unfold claim_step in E. destruct (pending g !! id) as [r|] eqn:Hr; cbn [mbind option_bind] in E.
  - destruct (go_owner g Hg _ _ Hr) as (pe & c1 & Hpe & _). rewrite Hpe in E. cbn [mbind option_bind] in E.
    rewrite Forall_lookup in Ht. pose proof (Ht r pe Hpe) as Htr. rewrite wrap64_id in E by (unfold i64, min_i64, max_i64 in *; lia).
    rewrite (proj2 (Z.ltb_ge _ _)) in E by lia. cbn [negb andb] in E. injection E as <- <-.
    destruct (decide _) as [Hyes|Hn]; [|destruct Hn; apply Hop; eauto]. split; [done|]. split; [done|done|done| | |cbn; intros x [<-|Hx]%lookup_insert_is_Some'; auto].
    + cbn [a_owner]. rewrite Ho. apply map_eq. intros id'. rewrite owner_lookup. cbn [pending pes].
      destruct (decide (id' = id)) as [->|Hne]; [rewrite !lookup_insert_eq; cbn; by rewrite list_lookup_insert_eq by (by eapply lookup_lt_Some)|].
      rewrite !lookup_insert_ne, owner_lookup by congruence. destruct (pending g !! id') as [r'|] eqn:Hr'; [|done]. cbn.
      rewrite list_lookup_insert_ne; [done|]. intros ->. apply Hne. by eapply (go_inj g Hg).
    + cbn. apply Forall_insert; [by rewrite Forall_lookup|]. cbn. lia.
  - cbn [negb] in E. injection E as <- <-. destruct (decide _) as [Hn|_]; [apply Hop in Hn as [? ?]; done|]. split; [done|]. by destruct ag.
Qed.

Lemma give_app c a b o : give c (a ++ b) o = give c b (give c a o).
Proof. apply foldl_app. Qed.

Lemma Claim_rel now g ag c ids : i64 now → 0 <= now → group_rel now g ag →
  let claimed := filter (λ id, is_Some (a_owner ag !! id)) ids in
  ∃ g', Claim g c 0 now ids false = (claimed, g') ∧ group_rel now g' (MkAG (a_cursor ag) (give c claimed (a_owner ag))).
Proof.
  intros Hi Hnow Hrel claimed. unfold Claim. destruct (getOrCreateConsumer g c) as [c1 g1] eqn:E1.
  assert (H1 : group_rel now g1 ag).
  { destruct Hrel as [Hg Hl Hc Ho Ht Hids]. apply getOrCreateConsumer_ok in E1 as (Hg1 & _ & Hl1 & Hp1 & Hh1); [|done].
    split; [done|by rewrite Hl1|congruence| |by rewrite Hh1|done]. rewrite Ho. unfold owner_map. by rewrite Hp1, Hh1. }
  clear Hrel E1 g c1. change claimed with ([] ++ claimed) at 1. subst claimed. generalize (@nil StreamID) as acc. revert g1 ag H1.
  induction ids as [|id ids IH]; intros g ag Hrel acc; cbn [foldl]; [exists g; rewrite app_nil_r; split; [done|by destruct ag]|].
  destruct (claim_step_rel now g ag c acc id Hi Hnow Hrel) as (g1 & -> & H1). destruct (IH g1 _ H1 (if decide (is_Some (a_owner ag !! id)) then acc ++ [id] else acc)) as (g' & E & H').
  exists g'. rewrite E. clear IH E H1. destruct (decide (is_Some (a_owner ag !! id))) as [Hs|Hn]; cbn [a_owner a_cursor] in *.
  - assert (Hf : filter (λ id0, is_Some (<[id := c]> (a_owner ag) !! id0)) ids = filter (λ id0, is_Some (a_owner ag !! id0)) ids).
    { apply list_filter_iff. intros x. rewrite lookup_insert_is_Some'. destruct (decide (id = x)) as [<-|]; [|tauto]. tauto. }
    rewrite Hf in H' |- *. rewrite filter_cons_True by done. rewrite <- app_assoc. done.
  - rewrite filter_cons_False by done. done.
Qed.

(** *** Reading what is pending *)

#[local] Instance id_ge_total : Total id_ge.
Proof.
  intros a b. unfold id_ge. destruct (Greater b a) eqn:E; [|by left]. right. apply Greater_false. left. exact E.
Qed.
#[local] Instance id_ge_trans : Transitive id_ge.
Proof.
  intros a b c. unfold id_ge. rewrite !Greater_false. intros [H1| ->] [H2| ->]; [left; by eapply idlt_trans|by left|by left|by right].
Qed.
#[local] Instance id_ge_anti : AntiSymm (=) id_ge.
Proof. intros a b. unfold id_ge. rewrite !Greater_false. intros [H1| ->] [H2|H2]; [|done..]. destruct (idlt_irrefl a). by eapply idlt_trans. Qed.

(** Sorting does not depend on the order of the list. *)
Lemma sort_ids (l k : list StreamID) : l ≡ₚ k → merge_sort id_ge l = merge_sort id_ge k.
Proof.
  intros Hp. apply (StronglySorted_unique id_ge); [by apply (StronglySorted_merge_sort id_ge)..|]. by rewrite !(merge_sort_Permutation id_ge).
Qed.

Lemma NoDup_keys {V} (P : StreamID * V → Prop) `{!∀ p, Decision (P p)} (o : gmap StreamID V) : NoDup (filter P (map_to_list o)).*1.
Proof.
  apply NoDup_fmap_fst; [|apply NoDup_filter, NoDup_map_to_list]. intros x y1 y2 [_ H1%elem_of_map_to_list]%list_elem_of_filter [_ H2%elem_of_map_to_list]%list_elem_of_filter. congruence.
Qed.

Lemma ReadPending_rel now g ag c start : group_rel now g ag → id_u64 start → ReadPending g c start (MkID maxMs maxSeq) 0 = owned ag c start.
Proof.
  intros [Hg Hl Hc Ho Ht _] Hs. unfold ReadPending, owned. rewrite Ho.
  assert (Hu : ∀ id r, pending g !! id = Some r → Greater id (MkID maxMs maxSeq) = false).
  { intros id r Hr. pose proof (go_below g Hg _ _ Hr) as Hb. apply not_true_iff_false. rewrite <- not_true_iff_false in Hb. rewrite Greater_spec in *. destruct Hl. cbn. unfold maxMs, maxSeq in *. lia. }
  destruct (consumers g !! c) as [cs|] eqn:Hcs.
  - cbn [Z.ltb Z.compare andb]. apply sort_ids. apply NoDup_Permutation.
    + apply NoDup_keys.
    + apply NoDup_keys.
    + intros id. rewrite !list_elem_of_fmap. split.
      * intros ([id' r] & -> & [Hk Hin]%list_elem_of_filter). apply elem_of_map_to_list in Hin. destruct (go_listed g Hg _ _ _ _ Hcs Hin) as (Hr & pe & Hpe & Hn).
        exists (id', c). split; [done|]. apply list_elem_of_filter. split; [split; [done|]|apply elem_of_map_to_list; rewrite owner_lookup, Hr; cbn; by rewrite Hpe; cbn; rewrite Hn].
        apply andb_true_iff in Hk as [[_ Hk]%andb_true_iff _]. apply orb_true_iff in Hk as [Hk|Hk%bool_decide_eq_true]; apply Greater_false; [by left|by right].
      * intros ([id' c'] & -> & [[Hcc Hge] Hin]%list_elem_of_filter). cbn in Hcc, Hge |- *. subst c'. apply elem_of_map_to_list in Hin. rewrite owner_lookup in Hin.
        destruct (pending g !! id') as [r|] eqn:Hr; [|done]. cbn in Hin. destruct (go_owner g Hg _ _ Hr) as (pe & cs' & Hpe & Hcs' & Hin'). rewrite Hpe in Hin. cbn in Hin. injection Hin as Hn.
        rewrite Hn in Hcs'. assert (cs' = cs) as -> by congruence. exists (id', r). split; [done|]. apply list_elem_of_filter. split; [|by apply elem_of_map_to_list].
        rewrite Hpe. cbn. rewrite Hn, bool_decide_true, (Hu _ _ Hr) by done. cbn. rewrite andb_true_r. apply orb_true_iff. apply Greater_false in Hge as [Hge| ->]; [by left|right; by apply bool_decide_eq_true].
  - assert (Hnone : filter (λ p : StreamID * bytes, p.2 = c ∧ Greater start p.1 = false) (map_to_list (owner_map g)) = []); [|by rewrite Hnone].
    apply elem_of_nil_inv. intros [id c'] [[Hcc _] Hin]%list_elem_of_filter. cbn in Hcc. subst c'. apply elem_of_map_to_list in Hin. rewrite owner_lookup in Hin.
    destruct (pending g !! id) as [r|] eqn:Hr; [|done]. cbn in Hin. destruct (go_owner g Hg _ _ Hr) as (pe & cs' & Hpe & Hcs' & _). rewrite Hpe in Hin. cbn in Hin. injection Hin as Hn. congruence.
Qed.

(** ** Streams *)

Record log_rel (now : Z) (s : Stream) (a : alog) : Prop := {
  lr_ok : stream_ok s;
  lr_entries : a_entries a = entries s;
  lr_last : a_last a = lastID s;
  lr_id : id_ok (lastID s);
  lr_groups g : option_Forall2 (group_rel now) (groups s !! g) (a_groups a !! g)
}.

Lemma new_log_rel now : log_rel now Stream.New new_log.
Proof.
  split; [|done..| |].
  - split; cbn; [constructor|constructor|constructor|done].
  - unfold id_ok, maxMs, maxSeq. cbn. lia.
  - intros g. cbn. rewrite !lookup_empty. constructor.
Qed.

Lemma in_range_between a b id : id_u64 a → id_u64 b → id_pos id → in_range a b id = true ↔ between a b id.
Proof.
  intros Ha Hb [Hid Hpos]. unfold in_range, between. rewrite andb_true_iff, !orb_true_iff, !andb_true_iff, !negb_true_iff, !Z.eqb_eq.
  rewrite <- !not_true_iff_false, !Greater_spec. unfold id_u64, id_ok, maxMs, maxSeq in *. lia.
Qed.

Lemma filter_range s a b : stream_ok s → id_u64 a → id_u64 b → filter (λ e, in_range a b (ID e) = true) (entries s) = log_range a b (entries s).
Proof.
  intros [_ Hp _ _] Ha Hb. unfold log_range. induction Hp as [|e es He _ IH]; [done|].
  destruct (decide (between a b (ID e))) as [Hin|Hout].
  - rewrite !filter_cons_True by (by rewrite ?in_range_between). by rewrite IH.
  - rewrite !filter_cons_False by (by rewrite ?in_range_between). done.
Qed.

Lemma Range_log s a b count : stream_ok s → id_u64 a → id_u64 b → Stream.Range s a b count = limited count (log_range a b (entries s)).
Proof. intros Hs Ha Hb. unfold Stream.Range. rewrite range_loop_spec by (cbn; lia). by rewrite <- (filter_range s a b Hs Ha Hb). Qed.
Lemma RevRange_log s a b count : stream_ok s → id_u64 a → id_u64 b → RevRange s a b count = limited count (reverse (log_range a b (entries s))).
Proof.
  intros Hs Ha Hb. unfold RevRange. rewrite range_loop_spec by (cbn; lia). cbn [app]. by rewrite filter_reverse, (filter_range s a b Hs Ha Hb).
Qed.

Lemma max_u64 : id_u64 (MkID maxMs maxSeq).
Proof. unfold id_u64, maxMs, maxSeq. cbn. lia. Qed.

Lemma after_log s id : stream_ok s → id_ok id → log_range (after_id id) (MkID maxMs maxSeq) (entries s) = log_after id (entries s).
Proof.
  intros [_ Hp _ _] Hid. unfold log_range, log_after. induction Hp as [|e es He _ IH]; [done|].
  assert (Heq : between (after_id id) (MkID maxMs maxSeq) (ID e) ↔ idlt id (ID e)).
  { destruct He as [He _]. unfold after_id, between, idlt. unfold id_ok in *. rewrite (proj2 (Z.eqb_neq _ _)) by lia.
    rewrite <- !not_true_iff_false, !Greater_spec. cbn [Ms Seq]. unfold maxMs, maxSeq in *. rewrite u64_id by lia. lia. }
  destruct (decide (idlt id (ID e))).
  - rewrite !filter_cons_True by tauto. by rewrite IH.
  - rewrite !filter_cons_False by tauto. done.
Qed.
Lemma after_u64 id : id_ok id → id_u64 (after_id id).
Proof. unfold id_ok, id_u64, after_id. intros H. rewrite (proj2 (Z.eqb_neq _ _)) by lia. unfold maxMs, maxSeq in *. cbn. rewrite u64_id by lia. lia. Qed.

Lemma fields_of_log s id : stream_ok s → id_u64 id → fields_of s id = fields_at (entries s) id.
Proof.
  intros Hs Hid. unfold fields_of, fields_at. rewrite Range_log by done. unfold log_range, limited. cbn [Z.ltb Z.compare]. change (Z.to_nat 1) with 1%nat.
  assert (Hf : filter (λ e, between id id (ID e)) (entries s) = filter (λ e, ID e = id) (entries s)).
  { apply list_filter_iff. intros e. unfold between. rewrite !Greater_false. split; [intros [[H1|H1] [H2|H2]]; try congruence|intros ->; split; by right].
    destruct (idlt_irrefl id). by eapply idlt_trans. }
  rewrite Hf. destruct (filter (λ e, ID e = id) (entries s)); done.
Qed.

(** Adding. *)
Lemma Add_rel now s a id fields : log_rel now s a → id_ok id →
  match Stream.Add s id fields with
  | (inl e, s') => s' = s ∧ ∃ r : Reply, stream_error e = RConst r ∧ log_add id fields a = (a, r)
  | (inr id', s') => id' = id ∧ log_rel now s' (log_add id fields a).1 ∧ (log_add id fields a).2 = Bulk (Stream.String id)
  end.
Proof.
  intros [Hs He Hl Hid Hg] Hok. destruct (Stream.Add s id fields) as [[e|id'] s'] eqn:E.
  - split; [by eapply Add_err|]. unfold Stream.Add in E. unfold log_add. destruct (_ && _) eqn:Hz.
    + injection E as <- _. apply andb_true_iff in Hz as [H1%Z.eqb_eq H2%Z.eqb_eq]. eexists. split; [reflexivity|].
      rewrite bool_decide_true by (destruct id; cbn in *; congruence). done.
    + assert (Hne : id ≠ MkID 0 0) by (intros ->; done). rewrite (bool_decide_false _ Hne). destruct (Greater id (lastID s)) eqn:Hgt; [done|]. injection E as <- _.
      eexists. split; [reflexivity|]. rewrite Hl, bool_decide_false; [done|]. unfold idlt. by rewrite Hgt.
  - destruct (Add_ok s id fields id' s' Hs Hok E) as (-> & Hlt & [_ Hpos] & Hs' & He' & Hl'). split; [done|].
    assert (Hne : id ≠ MkID 0 0) by (intros ->; by apply (idlt_irrefl (MkID 0 0))). unfold log_add. rewrite (bool_decide_false _ Hne), Hl, (bool_decide_true _ Hlt). split; [|done].
    split; cbn; [done|by rewrite He, He'|done|by rewrite Hl'|]. intros g. unfold Stream.Add in E. destruct (_ && _) in E; [done|]. destruct (negb _) in E; [done|]. injection E as <-. apply Hg.
Qed.

(** Changes of the entries and of a group. *)
Lemma log_rel_entries now s a s' es : log_rel now s a → stream_ok s' → entries s' = es → lastID s' = lastID s → groups s' = groups s → log_rel now s' (with_entries a es).
Proof. intros [Hs He Hl Hid Hg] Hs' He' Hl' Hg'. split; cbn; [done|done|congruence|by rewrite Hl'|by rewrite Hg']. Qed.
Lemma log_rel_groups now s a gs ags : log_rel now s a → (∀ g, option_Forall2 (group_rel now) (gs !! g) (ags !! g)) → log_rel now (set_groups s gs) (with_groups a ags).
Proof. intros [[H1 H2 H3 H4] He Hl Hid Hg] H. split; cbn; [|done..]. by split. Qed.
Lemma log_rel_group now s a name g ag : log_rel now s a → group_rel now g ag → log_rel now (set_groups s (<[name := g]> (groups s))) (with_groups a (<[name := ag]> (a_groups a))).
Proof.
  intros Hr Hg. apply log_rel_groups; [done|]. intros x. destruct (decide (name = x)) as [<-|Hne]; [rewrite !lookup_insert_eq; by constructor|].
  rewrite !lookup_insert_ne by done. apply (lr_groups _ _ _ Hr).
Qed.

(** ** Words *)

(** [strings.ToUpper] on ASCII text. *)
Definition ascii_uppers {rt : Runtime} : Prop :=
  ∀ s, forallb (λ c, byteZ c <? 128) s = true → ToUpper s = map ascii_upper s.

Section words.
Context {rt : Runtime} (Hup : ascii_uppers).

Lemma upper_str s : forallb (λ c, byteZ c <? 128) (str s) = true → map ascii_upper (str s) = str s → ToUpper (str s) = str s.
Proof using Hup. intros Ha He. by rewrite Hup. Qed.

Lemma digit_ascii c : is_digit c = true → byteZ c <? 128 = true ∧ ascii_upper c = c.
Proof using.
  unfold is_digit. rewrite andb_true_iff, !Z.leb_le. intros Hc. split; [apply Z.ltb_lt; lia|]. unfold ascii_upper. rewrite (proj2 (Z.leb_gt 97 _)) by lia. done.
Qed.
Lemma digits_ascii s : forallb is_digit s = true → forallb (λ c, byteZ c <? 128) s = true ∧ map ascii_upper s = s.
Proof using.
  induction s as [|c s IH]; [done|]. cbn. intros [Hc Hs]%andb_true_iff. destruct (digit_ascii c Hc) as [-> ->]. destruct (IH Hs) as [-> ->]. done.
Qed.

Lemma upper_id id : id_u64 id → ToUpper (Stream.String id) = Stream.String id.
Proof using Hup.
  intros [Hm Hs]. unfold Stream.String. destruct (digits_u64 _ Hm) as (Hd & _ & _). destruct (digits_u64 (Seq id)) as (Hd' & _ & _); [done|].
  destruct (digits_ascii _ Hd) as [A1 U1], (digits_ascii _ Hd') as [A2 U2]. rewrite Hup; [by rewrite !map_app, U1, U2|]. by rewrite !forallb_app, A1, A2.
Qed.

(** An identifier is no other word. *)
Lemma id_not id w : id_u64 id → match w with c :: _ => is_digit c = false | [] => True end → bytes_eqb (Stream.String id) w = false.
Proof using.
  intros [Hm _] Hw. apply bytes_eqb_ne. unfold Stream.String. destruct (digits_u64 _ Hm) as (Hd & Hne & _). destruct (Itoa (Ms id)) as [|c l]; [done|].
  intros <-. cbn in Hw, Hd. by rewrite Hw in Hd.
Qed.
Lemma id_not_zero id : id_u64 id → bytes_eqb (Stream.String id) (str "0") = false.
Proof using.
  intros [Hm _]. apply bytes_eqb_ne. unfold Stream.String. destruct (digits_u64 _ Hm) as (Hd & Hne & _). destruct (Itoa (Ms id)) as [|c [|d l]]; [done|done..].
Qed.
Lemma parse_id_String id : id_u64 id → parse_id (Stream.String id) = inr id.
Proof using. intros Hid. unfold parse_id. by rewrite ParseID_String. Qed.
Lemma parse_ids_String ids : Forall id_u64 ids → parse_ids (Stream.String <$> ids) = inr ids.
Proof using. induction 1 as [|id ids Hid _ IH]; [done|]. cbn [fmap list_fmap parse_ids]. rewrite parse_id_String by done. change (list_fmap _ _ Stream.String ids) with (Stream.String <$> ids). by rewrite IH. Qed.

Lemma field_pairs_flat (fields : list (bytes * bytes)) : field_pairs (fields ≫= λ f, [f.1; f.2]) = fields.
Proof using. induction fields as [|[f v] l IH]; [done|]. rewrite bind_cons. cbn [app field_pairs fst snd]. by rewrite IH. Qed.
Lemma flat_length (fields : list (bytes * bytes)) : length (fields ≫= λ f, [f.1; f.2]) = (2 * length fields)%nat.
Proof using. induction fields as [|f l IH]; [done|]. rewrite bind_cons, length_app, IH. cbn. lia. Qed.

Lemma xadd_entry_words idStr id auto fields : (if bytes_eqb idStr (str "*") then Some (MkID 0 0, true) else ParseID idStr) = Some (id, auto) → fields ≠ [] →
  xadd_entry (idStr :: (fields ≫= λ f, [f.1; f.2])) = inr (id, auto, fields).
Proof using.
  intros E Hne. cbn [xadd_entry]. rewrite E, flat_length, field_pairs_flat. rewrite (proj2 (Nat.eqb_neq _ _)) by (destruct fields; [done|cbn; lia]).
  rewrite Nat2Z.inj_mul. change (Z.of_nat 2) with 2. rewrite Z.mul_comm, Z.rem_mul by lia. done.
Qed.

Lemma xadd_opts_none w ws o : bytes_eqb (ToUpper w) (str "MAXLEN") = false → bytes_eqb (ToUpper w) (str "MINID") = false → bytes_eqb (ToUpper w) (str "LIMIT") = false →
  xadd_opts (w :: ws) o = inr (o, w :: ws).
Proof using. intros H1 H2 H3. cbn [xadd_opts]. by rewrite H1, H2, H3. Qed.

Lemma claim_ids_words ids ws : Forall id_u64 ids → match ws with w :: _ => is_claim_opt w = true | [] => True end → claim_ids ((Stream.String <$> ids) ++ ws) = inr (ids, ws).
Proof using Hup.
  intros Hids Hws. induction Hids as [|id ids Hid _ IH].
  - cbn. destruct ws as [|w ws]; [done|]. cbn [claim_ids]. by rewrite Hws.
  - cbn [fmap list_fmap app claim_ids]. unfold is_claim_opt. rewrite upper_id, !id_not by done. cbn [orb]. rewrite parse_id_String by done.
    change (list_fmap _ _ Stream.String ids) with (Stream.String <$> ids). by rewrite IH.
Qed.
End words.

(** ** Commands *)

Section commands.
Context {O : Type} `{!Objects O} `{!ObjOf O Stream} {env : Env} {rt : Runtime} {schoices : SChoices} (t : Z) (Hclk : ∀ n, clock n = t) (dl : gmap bytes Z) (Hup : ascii_uppers).
Local Abbreviation now := (time_UnixMilli t).
Context (Hnow : 0 <= now).
Local Abbreviation sees := (ObjCmdThm.sees (T := Stream) t dl (log_rel now)).
Implicit Types (m : logs) (db : DB O) (k : bytes).

Definition does (h : M O reply) (db : DB O) (out : logs * Reply) : Prop :=
  ∃ r db', h db = Ret (r, db') ∧ (∀ mem, resolve mem r = out.2) ∧ sees out.1 db'.

Lemma stream_ret m db r out : sees m db → out.1 = m → (∀ mem, resolve mem r = out.2) → does (mret r) db out.
Proof. intros S Hm Hr. exists r, db. rewrite run_mret, Hm. done. Qed.
Lemma now_i64 : i64 now.
Proof. apply wrap64_range. Qed.
Lemma run_NowMs {A} (f : Z → M O A) db : (NowMs ≫= f) db = f now (set_reads db (S (reads db))).
Proof. unfold NowMs. autorewrite with run. by rewrite Hclk. Qed.
Lemma sees_reads m db n : sees m db → sees m (set_reads db n).
Proof. by apply sees_same. Qed.

(** The beginning of a command. *)
Lemma does_getAsStream m db k missing f none g : sees m db → (∀ db1, sees m db1 → does none db1 (m, missing)) →
  (∀ db1 a s, sees m db1 → m !! k = Some (Own a) → log_rel now s a → does (f s) db1 (g a)) →
  does (r ← getAsStream k; match r with inl e => mret e | inr None => none | inr (Some s) => f s end) db (on_log m k missing g).
Proof.
  intros S Hn Hf. destruct (get_obj_sees t Hclk dl (log_rel now) m db k S) as (r & db1 & E & S1 & _ & H). unfold does, getAsStream, on_log.
  rewrite (run_step _ _ _ _ _ E). destruct (m !! k) as [[a|]|] eqn:Hm.
  - destruct H as (s & -> & Hs). by apply Hf.
  - subst r. by apply (stream_ret m).
  - destruct H as [-> _]. by apply Hn.
Qed.

Lemma does_getOrInit m db k f g : sees m db → dl_of dl m →
  (∀ m1 db1 a s, sees m1 db1 → m1 !! k = Some (Own a) → log_rel now s a → m !! k = Some (Own a) ∨ a = new_log → does (f s) db1 (let '(a', r) := g a in (<[k := Own a']> m1, r))) →
  does (r ← getOrInitStream k; match r with inl e => mret e | inr s => f s end) db (on_new_log m k g).
Proof.
  intros S Hdl Hf. destruct (get_or_init_sees t Hclk dl (log_rel now) m db k Stream.New new_log S Hdl (new_log_rel now)) as (r & db1 & E & _ & H).
  unfold does, getOrInitStream, on_new_log. rewrite (run_step _ _ _ _ _ E). destruct (m !! k) as [[a|]|] eqn:Hm.
  - destruct H as (s & -> & Hs & S1). apply Hf; auto.
  - destruct H as [-> S1]. by apply (stream_ret m).
  - destruct H as [-> S1]. pose proof (Hf _ _ new_log Stream.New S1 (lookup_insert_eq _ _ _) (new_log_rel now) (or_intror eq_refl)) as H. unfold does in H.
    destruct (g new_log) as [a' r]. cbn in H |- *. by rewrite insert_insert_eq in H.
Qed.

(** The end of a command: the stream is stored, logged and replied. *)
Lemma stream_store m db k a s a' line r out : sees m db → m !! k = Some (Own a) → log_rel now s a' → out.1 = <[k := Own a']> m → (∀ mem, resolve mem r = out.2) →
  does (store_obj k s;; addAof line;; mret r) db out.
Proof.
  intros S Hm Hs Ho Hr. destruct (store_obj_sees t dl (log_rel now) m db k a s a' S Hm Hs) as (db1 & E1 & S1 & _). unfold does.
  rewrite (run_step _ _ _ _ _ E1), run_addAof, run_mret. eexists _, _. split; [done|]. split; [done|]. rewrite Ho. by apply (sees_same t dl (log_rel now) _ db1).
Qed.
Lemma stream_store_ret m db k a s a' r out : sees m db → m !! k = Some (Own a) → log_rel now s a' → out.1 = <[k := Own a']> m → (∀ mem, resolve mem r = out.2) →
  does (store_obj k s;; mret r) db out.
Proof.
  intros S Hm Hs Ho Hr. destruct (store_obj_sees t dl (log_rel now) m db k a s a' S Hm Hs) as (db1 & E1 & S1 & _). unfold does.
  rewrite (run_step _ _ _ _ _ E1), run_mret. eexists _, _. split; [done|]. split; [done|]. by rewrite Ho.
Qed.

(** A group of a stream. *)
Lemma get_group s a g : log_rel now s a →
  match a_groups a !! g with Some ag => ∃ cg, groups s !! g = Some cg ∧ group_rel now cg ag | None => groups s !! g = None end.
Proof. intros H. pose proof (lr_groups _ _ _ H g) as Hg. inversion Hg as [? ? Hr H1 H2|H1 H2]; [eauto|done]. Qed.

(** *** Replies *)

Lemma resolve_fields mem (fields : list (bytes * bytes)) : resolve mem (fields_reply fields) = MultiRawReply (fields ≫= λ f, [Bulk f.1; Bulk f.2]).
Proof. cbn. f_equal. induction fields as [|f l IH]; [done|]. rewrite !bind_cons, fmap_app, IH. done. Qed.
Lemma resolve_entries mem es : resolve mem (streamEntriesToReply es) = entries_Reply es.
Proof.
  cbn. unfold entries_Reply. f_equal. rewrite <- list_fmap_compose. apply list_fmap_ext. intros i e _. unfold compose, entry_reply, entry_Reply.
  cbn [resolve fmap list_fmap]. by rewrite resolve_fields.
Qed.
Lemma resolve_flat mem id fields : resolve mem (flat_reply id fields) = flat_Reply id fields.
Proof. unfold flat_reply, flat_Reply. cbn [resolve]. f_equal. apply resolve_lits. Qed.
Lemma resolve_stream mem k es : es ≠ [] →
  resolve mem (RRaw [RRaw [bulk k; RRaw ((λ e, flat_reply e.1 e.2) <$> es)]]) = stream_Reply k es.
Proof.
  intros Hne. unfold stream_Reply. destruct es as [|e es]; [done|]. remember (e :: es) as l. cbn. do 6 f_equal. rewrite <- list_fmap_compose.
  apply list_fmap_ext. intros i [id fs] _. unfold compose. apply resolve_flat.
Qed.

Definition meets (o : stream_op) m db : Prop := does (stream_exec o) db (stream_cmd_spec now m o).

(** *** Entries *)

Lemma does_add_to m db k a s id fields : sees m db → m !! k = Some (Own a) → log_rel now s a → id_ok id →
  does (match Stream.Add s id fields with
        | (inl e, _) => mret (stream_error e)
        | (inr assignedID, s) =>
            store_obj k (applyStreamTrim s no_trim);; addAof (ToCmdLine3 "xadd" (buildXAddAofArgs k assignedID fields));;
            mret (RBulk (ALit (Stream.String assignedID)))
        end) db (let '(a', r) := log_add id fields a in (<[k := Own a']> m, r)).
Proof.
  intros S Hm Hs Hid. pose proof (Add_rel now s a id fields Hs Hid) as H. destruct (Stream.Add s id fields) as [[e|id'] s'].
  - destruct H as (-> & r & -> & ->). apply (stream_ret m); [done| |done]. cbn. by rewrite insert_id.
  - destruct H as (-> & Hs' & Hr). destruct (log_add id fields a) as [a' r]. cbn in Hr, Hs'. subst r. by eapply stream_store.
Qed.

Lemma xadd_words db k idStr id auto fields :
  (if bytes_eqb idStr (str "*") then Some (MkID 0 0, true) else ParseID idStr) = Some (id, auto) → fields ≠ [] →
  (∀ w, w ∈ ["NOMKSTREAM"; "MAXLEN"; "MINID"; "LIMIT"]%string → bytes_eqb (ToUpper idStr) (str w) = false) →
  execXAdd (ALit <$> k :: idStr :: (fields ≫= λ f, [f.1; f.2])) db =
  (r ← getOrInitStream k; match r with inl e => mret e | inr s => add_to k s id auto fields no_trim end) db.
Proof.
  intros E Hne Hw. unfold execXAdd. rewrite (proj2 (Nat.ltb_ge _ _)).
  2:{ rewrite length_fmap. cbn [length]. rewrite flat_length. destruct fields; [done|]. cbn. lia. }
  erewrite run_word by reflexivity. change (drop 1 (ALit <$> ?x :: ?l)) with (ALit <$> l). rewrite (run_step _ _ _ _ _ (run_words _ _)).
  rewrite (Hw "NOMKSTREAM"%string) by set_solver. cbv iota.
  rewrite xadd_opts_none by (apply Hw; set_solver). by rewrite (xadd_entry_words _ _ _ _ E Hne).
Qed.

Lemma does_XAdd k id fields m db : stream_op_ok m (OXAdd k id fields) → dl_of dl m → sees m db → meets (OXAdd k id fields) m db.
Proof.
  intros [Hid Hne] Hdl S. unfold meets, does. cbn [stream_exec]. pose proof (id_ok_u64 _ Hid) as Hu.
  rewrite (xadd_words db k (Stream.String id) id false fields); [|..|done|].
  2:{ rewrite id_not by done. by apply ParseID_String. }
  2:{ intros w Hw. rewrite upper_id by done. apply id_not; [done|]. set_unfold in Hw. by destruct Hw as [->|[->|[->|[->|[]]]]]. }
  apply does_getOrInit; [done|done|]. intros m1 db1 a s S1 Hm Hs _. unfold add_to. unfold does. rewrite run_ret. by apply does_add_to.
Qed.

Lemma does_XAddAuto k fields m db : stream_op_ok m (OXAddAuto k fields) → dl_of dl m → sees m db → meets (OXAddAuto k fields) m db.
Proof.
  intros [Hne Hseq] Hdl S. unfold meets, does. cbn [stream_exec].
  rewrite (xadd_words db k (str "*") (MkID 0 0) true fields); [|done|done|].
  2:{ intros w Hw. rewrite (upper_str Hup) by done. set_unfold in Hw. by destruct Hw as [->|[->|[->|[->|[]]]]]. }
  cbn [stream_cmd_spec].
  assert (G : ∀ m1 db1 a s, sees m1 db1 → m1 !! k = Some (Own a) → log_rel now s a → Seq (a_last a) + 1 < maxSeq →
    does (add_to k s (MkID 0 0) true fields no_trim) db1 (let '(a', r) := log_add (next_id now (a_last a)) fields a in (<[k := Own a']> m1, r))).
  { intros m1 db1 a s S1 Hm Hs Hlt. unfold add_to, does. cbn [Ms]. change (0 =? 0) with true. cbv iota. autorewrite with run. rewrite Hclk.
    pose proof now_i64 as Hi. unfold i64, max_i64 in Hi. rewrite u64_id by lia. unfold AddAutoAssign. pose proof (lr_last _ _ _ Hs) as Hl. pose proof (lr_id _ _ _ Hs) as [H1 H2]. rewrite Hl in *.
    assert (Hn : (if now <=? Ms (lastID s) then MkID (Ms (lastID s)) (u64 (Seq (lastID s) + 1)) else MkID now 0) = next_id now (lastID s)).
    { unfold next_id, maxSeq in *. by rewrite u64_id by lia. }
    rewrite Hn. apply (does_add_to m1 _ k a); [by apply sees_reads|done|done|]. unfold next_id, id_ok, maxMs, maxSeq in *. destruct (now <=? Ms (lastID s)); cbn; lia. }
  apply (does_getOrInit m db k _ (λ a, log_add (next_id now (a_last a)) fields a)); [done|done|]. intros m1 db1 a s S1 Hm Hs Ha. apply G; [done..|].
  destruct Ha as [Ha| ->]; [by eapply Hseq|]. cbn. unfold maxSeq. lia.
Qed.

Lemma does_XLen k m db : sees m db → meets (OXLen k) m db.
Proof.
  intros S. unfold meets, does. cbn [stream_exec]. unfold execXLen. erewrite run_word by reflexivity.
  apply does_getAsStream; [done|intros; by apply (stream_ret m)|]. intros db1 a s S1 Hm Hs. apply (stream_ret m); [done|done|]. intros mem. cbn.
  unfold Stream.Len. rewrite (so_length _ (lr_ok _ _ _ Hs)), (lr_entries _ _ _ Hs). f_equal. unfold u64, wrap64. by rewrite Zplus_mod_idemp_l.
Qed.

Lemma range_count_words count : 0 <= count <= max_i64 → range_count [str "COUNT"; Itoa count] = inr count.
Proof.
  intros Hc. unfold range_count. rewrite (upper_str Hup) by done. rewrite bytes_eqb_refl. cbn [negb]. rewrite ParseInt_Itoa by (unfold i64, min_i64, max_i64 in *; lia).
  by rewrite (proj2 (Z.ltb_ge _ _)) by lia.
Qed.

Lemma does_XRange k a b count m db : stream_op_ok m (OXRange k a b count) → sees m db → meets (OXRange k a b count) m db.
Proof.
  intros (Ha & Hb & Hc) S. unfold meets, does. cbn [stream_exec]. unfold execXRange, range_of_stream. cbn [fmap list_fmap length Nat.ltb Nat.leb].
  change [ALit k; ALit (Stream.String a); ALit (Stream.String b); ALit (str "COUNT"); ALit (Itoa count)] with (ALit <$> [k; Stream.String a; Stream.String b; str "COUNT"; Itoa count]).
  do 3 erewrite run_word by reflexivity. rewrite !parse_id_String by done. change (drop 3 (ALit <$> ?x :: ?y :: ?z :: ?l)) with (ALit <$> l).
  rewrite (run_step _ _ _ _ _ (run_words _ _)), range_count_words by done.
  apply does_getAsStream; [done|intros; by apply (stream_ret m)|]. intros db1 l s S1 Hm Hs. apply (stream_ret m); [done|done|]. intros mem.
  rewrite resolve_entries, Range_log, (lr_entries _ _ _ Hs) by (done || apply Hs). done.
Qed.
Lemma does_XRevRange k a b count m db : stream_op_ok m (OXRevRange k a b count) → sees m db → meets (OXRevRange k a b count) m db.
Proof.
  intros (Ha & Hb & Hc) S. unfold meets, does. cbn [stream_exec]. unfold execXRevRange, range_of_stream. cbn [fmap list_fmap length Nat.ltb Nat.leb].
  change [ALit k; ALit (Stream.String b); ALit (Stream.String a); ALit (str "COUNT"); ALit (Itoa count)] with (ALit <$> [k; Stream.String b; Stream.String a; str "COUNT"; Itoa count]).
  do 3 erewrite run_word by reflexivity. rewrite !parse_id_String by done. change (drop 3 (ALit <$> ?x :: ?y :: ?z :: ?l)) with (ALit <$> l).
  rewrite (run_step _ _ _ _ _ (run_words _ _)), range_count_words by done.
  apply does_getAsStream; [done|intros; by apply (stream_ret m)|]. intros db1 l s S1 Hm Hs. apply (stream_ret m); [done|done|]. intros mem.
  rewrite resolve_entries, RevRange_log, (lr_entries _ _ _ Hs) by (done || apply Hs). done.
Qed.

Lemma does_XDel k ids m db : stream_op_ok m (OXDel k ids) → sees m db → meets (OXDel k ids) m db.
Proof.
  intros (Hne & Hids) S. unfold meets, does. cbn [stream_exec]. unfold execXDel.
  rewrite (proj2 (Nat.ltb_ge _ _)) by (rewrite length_fmap; cbn; rewrite length_fmap; destruct ids; [done|cbn; lia]). erewrite run_word by reflexivity.
  apply does_getAsStream; [done|intros; by apply (stream_ret m)|]. intros db1 a s S1 Hm Hs. unfold does. change (drop 1 (ALit <$> ?x :: ?l)) with (ALit <$> l).
  rewrite (run_step _ _ _ _ _ (run_words _ _)), parse_ids_String by done. pose proof (lr_ok _ _ _ Hs) as Hok. destruct (Stream.Delete s ids) as [n s'] eqn:E.
  pose proof (Delete_ok s ids n s' Hok E) as Hok'. rewrite Delete_spec in E. injection E as <- <-.
  assert (Hk : filter (λ e, kept_ids ids e = true) (entries s) = filter (λ e, ID e ∉ ids) (a_entries a)).
  { rewrite (lr_entries _ _ _ Hs). apply list_filter_iff. intros e. unfold kept_ids. rewrite negb_true_iff, bool_decide_eq_false. done. }
  assert (Hg : filter (λ e, kept_ids ids e = false) (entries s) = filter (λ e, ID e ∈ ids) (a_entries a)).
  { rewrite (lr_entries _ _ _ Hs). apply list_filter_iff. intros e. unfold kept_ids. rewrite negb_false_iff, bool_decide_eq_true. done. }
  rewrite Hk, Hg in *. eapply stream_store; [done|done| |done|done]. by eapply log_rel_entries.
Qed.

Lemma does_XTrim k n m db : stream_op_ok m (OXTrim k n) → sees m db → meets (OXTrim k n) m db.
Proof.
  intros Hn S. cbn in Hn. unfold meets, does. cbn [stream_exec]. unfold execXTrim. cbn [fmap list_fmap length Nat.ltb Nat.leb].
  change [ALit k; ALit (str "MAXLEN"); ALit (Itoa n)] with (ALit <$> [k; str "MAXLEN"; Itoa n]). erewrite run_word by reflexivity.
  apply does_getAsStream; [done|intros; by apply (stream_ret m)|]. intros db1 a s S1 Hm Hs. unfold does. erewrite run_word by reflexivity.
  change (drop 2 (ALit <$> ?x :: ?y :: ?l)) with (ALit <$> l). rewrite (run_step _ _ _ _ _ (run_words _ _)). rewrite (upper_str Hup), bytes_eqb_refl by done. cbn [xtrim_value].
  assert (Hsign : is_trim_sign (Itoa n) = false).
  { destruct (digits_u64 n) as (Hd & Hne & _); [unfold max_i64, maxMs in *; lia|]. unfold is_trim_sign. destruct (Itoa n) as [|c l]; [done|]. cbn in Hd. apply andb_true_iff in Hd as [Hd _].
    apply orb_false_iff. split; apply bytes_eqb_ne; intros [= -> _]; done. }
  rewrite Hsign. unfold parse_maxlen. rewrite ParseInt_Itoa by (unfold i64, min_i64, max_i64 in *; lia). rewrite (proj2 (Z.ltb_ge n 0)) by lia.
  pose proof (lr_ok _ _ _ Hs) as Hok. destruct (TrimMaxLen s n false) as [r s'] eqn:E. pose proof (TrimMaxLen_ok s n false r s' Hok E) as Hok'. unfold TrimMaxLen in E. rewrite (lr_entries _ _ _ Hs).
  destruct (Z.eqb_spec n 0) as [->|Hn0]; [injection E as <- <-; eapply stream_store; [done|done|exact Hs|cbn; by rewrite insert_id|done]|].
  rewrite (proj2 (Z.leb_gt n 0)) in E by lia. cbn [orb] in E. destruct (Z.leb_spec (Z.of_nat (length (entries s))) n).
  - injection E as <- <-. replace (length (entries s) - Z.to_nat n)%nat with 0%nat by lia. eapply stream_store; [done|done| |done|done]. rewrite drop_0. by eapply log_rel_entries.
  - injection E as <- <-. replace (Z.to_nat (Z.of_nat (length (entries s)) - n)) with (length (entries s) - Z.to_nat n)%nat in * by lia.
    eapply stream_store; [done|done| |done|intros mem; cbn; f_equal; lia]. by eapply log_rel_entries.
Qed.

Lemma does_XRead count k id m db : stream_op_ok m (OXRead count k id) → sees m db → meets (OXRead count k id) m db.
Proof.
  intros (Hid & Hc) S. unfold meets, does. cbn [stream_exec]. unfold execXRead. cbn [fmap list_fmap length Nat.ltb Nat.leb]. pose proof (id_ok_u64 _ Hid) as Hu.
  change [ALit (str "COUNT"); ALit (Itoa count); ALit (str "STREAMS"); ALit k; ALit (Stream.String id)] with (ALit <$> [str "COUNT"; Itoa count; str "STREAMS"; k; Stream.String id]).
  rewrite (run_step _ _ _ _ _ (run_words _ _)).
  assert (Hw : xread_args [str "COUNT"; Itoa count; str "STREAMS"; k; Stream.String id] = inr (count, [(k, Stream.String id)])).
  { unfold xread_args, xread_count. cbv iota. rewrite (upper_str Hup "COUNT"), bytes_eqb_refl by done. rewrite ParseInt_Itoa by (unfold i64, min_i64, max_i64 in *; lia). rewrite (proj2 (Z.ltb_ge count 0)) by lia.
    unfold xread_block. rewrite (upper_str Hup "STREAMS") by done. change (bytes_eqb (str "STREAMS") (str "BLOCK")) with false. cbv iota.
    by rewrite (upper_str Hup "STREAMS"), bytes_eqb_refl by done. }
  rewrite Hw. cbn [xread_streams]. apply does_getAsStream; [done|intros; by apply (stream_ret m)|]. intros db1 a s S1 Hm Hs.
  rewrite id_not, parse_id_String, Range_log, after_log, (lr_entries _ _ _ Hs) by (done || apply Hs || apply max_u64 || by apply after_u64).
  destruct (limited count (log_after id (entries s))) as [|e es]; [by apply (stream_ret m)|]. apply (stream_ret m); [done|done|]. intros mem.
  remember (e :: es) as l eqn:El. cbn [app length Nat.eqb resolve fmap list_fmap]. by rewrite resolve_entries, El.
Qed.

(** *** Groups *)

Lemma does_with_group m db k g missing mr f F : sees m db → (∀ mem, resolve mem missing = mr) →
  (∀ db1 a ag s cg, sees m db1 → m !! k = Some (Own a) → log_rel now s a → a_groups a !! g = Some ag → group_rel now cg ag → does (f s cg) db1 (F a ag)) →
  does (with_group k g missing f) db (on_group m k g mr F).
Proof.
  intros S Hmr Hf. unfold with_group. apply does_getAsStream; [done|intros; by apply (stream_ret m)|]. intros db1 a s S1 Hm Hs.
  pose proof (get_group s a g Hs) as Hg. unfold GetGroup. destruct (a_groups a !! g) as [ag|] eqn:Ea.
  - destruct Hg as (cg & -> & Hr). by apply Hf.
  - rewrite Hg. by apply (stream_ret m).
Qed.

Lemma does_XGroupCreate k g start m db : stream_op_ok m (OXGroupCreate k g start) → dl_of dl m → sees m db → meets (OXGroupCreate k g start) m db.
Proof.
  intros Hid Hdl S. cbn in Hid. pose proof (id_ok_u64 _ Hid) as Hu. unfold meets, does. cbn [stream_exec]. unfold execXGroup. cbn [fmap list_fmap length Nat.ltb Nat.leb].
  change [ALit (str "CREATE"); ALit k; ALit g; ALit (Stream.String start); ALit (str "MKSTREAM")] with (ALit <$> [str "CREATE"; k; g; Stream.String start; str "MKSTREAM"]).
  erewrite run_word by reflexivity. rewrite (upper_str Hup), bytes_eqb_refl by done. change (drop 1 (ALit <$> ?x :: ?l)) with (ALit <$> l).
  unfold execXGroupCreate. change (length (ALit <$> [k; g; Stream.String start; str "MKSTREAM"]) <? 3)%nat with false. cbv iota. do 3 erewrite run_word by reflexivity.
  change (drop 3 (ALit <$> ?x :: ?y :: ?z :: ?l)) with (ALit <$> l). rewrite (run_step _ _ _ _ _ (run_words _ _)). cbn [xgroup_opts].
  rewrite (upper_str Hup), bytes_eqb_refl by done. cbn [andb].
  assert (G : ∀ m1 db1 a s, sees m1 db1 → m1 !! k = Some (Own a) → log_rel now s a →
    does (match parseStreamStartID s (Stream.String start) with
          | inl e => mret e
          | inr startID => match CreateGroup s g startID with
                           | (inl e, _) => mret (stream_error e)
                           | (inr _, s) => store_obj k s;; addAof (ToCmdLine3 "xgroup" (ALit <$> [k; g; Stream.String start; str "MKSTREAM"]));; mret ROk
                           end
          end) db1
      (let '(a', r) := match a_groups a !! g with
        | Some _ => (a, Err "BUSYGROUP Consumer Group name already exists")
        | None => (with_groups a (<[g := MkAG start ∅]> (a_groups a)), OkReply) end in (<[k := Own a']> m1, r))).
  { intros m1 db1 a s S1 Hm Hs. unfold parseStreamStartID. rewrite id_not, id_not_zero, parse_id_String by done. unfold CreateGroup. pose proof (get_group s a g Hs) as Hg.
    destruct (a_groups a !! g) as [ag|]; [destruct Hg as (cg & -> & _); apply (stream_ret m1); [done|cbn; by rewrite insert_id|done]|]. rewrite Hg.
    eapply stream_store; [done|done| |done|done]. by apply log_rel_group, new_group_rel. }
  destruct (get_obj_sees t Hclk dl (log_rel now) m db k S) as (r & db1 & E & S1 & _ & H). unfold getAsStream. rewrite (run_step _ _ _ _ _ E). cbn [stream_cmd_spec]. unfold on_new_log.
  destruct (m !! k) as [[a|]|] eqn:Hm.
  - destruct H as (s & -> & Hs). rewrite run_ret. by apply G.
  - subst r. rewrite run_ret. by apply (stream_ret m).
  - destruct H as [-> _]. pose proof (does_getOrInit m db1 k (λ s, match parseStreamStartID s (Stream.String start) with
          | inl e => mret e
          | inr startID => match CreateGroup s g startID with
                           | (inl e, _) => mret (stream_error e)
                           | (inr _, s) => store_obj k s;; addAof (ToCmdLine3 "xgroup" (ALit <$> [k; g; Stream.String start; str "MKSTREAM"]));; mret ROk
                           end
          end) (λ a, match a_groups a !! g with
        | Some _ => (a, Err "BUSYGROUP Consumer Group name already exists")
        | None => (with_groups a (<[g := MkAG start ∅]> (a_groups a)), OkReply) end) S1 Hdl) as H. unfold on_new_log in H. rewrite Hm in H. apply H. intros; by apply G.
Qed.

Lemma does_XGroupDestroy k g m db : sees m db → meets (OXGroupDestroy k g) m db.
Proof.
  intros S. unfold meets, does. cbn [stream_exec]. unfold execXGroup. cbn [fmap list_fmap length Nat.ltb Nat.leb].
  change [ALit (str "DESTROY"); ALit k; ALit g] with (ALit <$> [str "DESTROY"; k; g]). erewrite run_word by reflexivity. rewrite (upper_str Hup) by done.
  change (bytes_eqb (str "DESTROY") (str "CREATE")) with false. change (bytes_eqb (str "DESTROY") (str "SETID")) with false. cbv iota. rewrite bytes_eqb_refl.
  change (drop 1 (ALit <$> ?x :: ?l)) with (ALit <$> l). unfold execXGroupDestroy. change (length (ALit <$> [k; g]) <? 2)%nat with false. cbv iota. do 2 erewrite run_word by reflexivity.
  apply does_getAsStream; [done|intros; by apply (stream_ret m)|]. intros db1 a s S1 Hm Hs. unfold DestroyGroup. pose proof (get_group s a g Hs) as Hg.
  destruct (a_groups a !! g) as [ag|]; [|rewrite Hg; by apply (stream_ret m)]. destruct Hg as (cg & -> & _).
  eapply stream_store; [done|done| |done|done]. apply log_rel_groups; [done|]. intros x. destruct (decide (g = x)) as [<-|Hne]; [rewrite !lookup_delete_eq; constructor|].
  rewrite !lookup_delete_ne by done. apply (lr_groups _ _ _ Hs).
Qed.

Lemma stream_store_group m db k a s g cg' ag' line r out : sees m db → m !! k = Some (Own a) → log_rel now s a → group_rel now cg' ag' →
  out.1 = put_group m k a g ag' → (∀ mem, resolve mem r = out.2) → does (store_group k s g cg';; addAof line;; mret r) db out.
Proof. intros S Hm Hs Hg Ho Hr. eapply stream_store; [done|done|by apply log_rel_group|done|done]. Qed.

Lemma does_XAck k g ids m db : stream_op_ok m (OXAck k g ids) → sees m db → meets (OXAck k g ids) m db.
Proof.
  intros [Hne Hids] S. unfold meets, does. cbn [stream_exec]. unfold execXAck.
  rewrite (proj2 (Nat.ltb_ge _ _)) by (rewrite length_fmap; cbn; rewrite length_fmap; destruct ids; [done|cbn; lia]). do 2 erewrite run_word by reflexivity.
  change (drop 2 (ALit <$> ?x :: ?y :: ?l)) with (ALit <$> l). rewrite (run_step _ _ _ _ _ (run_words _ _)), parse_ids_String by done.
  apply does_with_group; [done|done|]. intros db1 a ag s cg S1 Hm Hs Ha Hg. destruct (Ack_rel now cg ag ids Hg) as (cg' & -> & Hg').
  by eapply stream_store_group.
Qed.

Lemma does_XClaim k g c ids m db : stream_op_ok m (OXClaim k g c ids) → sees m db → meets (OXClaim k g c ids) m db.
Proof.
  intros [Hne Hids] S. unfold meets, does. cbn [stream_exec]. unfold execXClaim.
  rewrite (proj2 (Nat.ltb_ge _ _)) by (rewrite length_fmap; cbn; lia). do 4 erewrite run_word by reflexivity. change (ParseInt (str "0")) with (Some 0). cbv iota.
  change (drop 4 (ALit <$> ?x :: ?y :: ?z :: ?u :: ?l)) with (ALit <$> l). rewrite (run_step _ _ _ _ _ (run_words _ _)), (claim_ids_words Hup); [|done|].
  2:{ unfold is_claim_opt. by rewrite (upper_str Hup) by done. }
  cbn [claim_opts]. rewrite (upper_str Hup) by done.
  change (bytes_eqb (str "JUSTID") (str "IDLE")) with false. change (bytes_eqb (str "JUSTID") (str "TIME")) with false. change (bytes_eqb (str "JUSTID") (str "RETRYCOUNT")) with false.
  change (bytes_eqb (str "JUSTID") (str "FORCE")) with false. cbv iota. rewrite bytes_eqb_refl. cbn [cl_idle cl_time cl_retry cl_force cl_justid].
  apply does_with_group; [done|done|]. intros db1 a ag s cg S1 Hm Hs Ha Hg. unfold does. rewrite run_NowMs.
  destruct (Claim_rel now cg ag c ids now_i64 Hnow Hg) as (cg' & -> & Hg'). change ((0 <=? -1) || (0 <=? -1) || (0 <=? -1)) with false. cbv iota. rewrite run_ret.
  eapply stream_store_ret; [by apply sees_reads|done|by apply log_rel_group|done|]. intros mem. cbn. f_equal. by rewrite <- list_fmap_compose.
Qed.

(** *** XREADGROUP *)

(** One stream: what was read is stored and replied. *)
Lemma does_read_stream m db k a s g o cg' ag' es : sees m db → m !! k = Some (Own a) → log_rel now s a → group_rel now cg' ag' →
  does (store_group k s g cg';; if (length es =? 0)%nat then xreadgroup_streams o [] [] else xreadgroup_streams o [] ([] ++ [RRaw [bulk k; RRaw ((λ e, flat_reply e.1 e.2) <$> es)]])) db
    (put_group m k a g ag', stream_Reply k es).
Proof.
  intros S Hm Hs Hg. unfold does, store_group. destruct (store_obj_sees t dl (log_rel now) m db k a _ _ S Hm (log_rel_group now s a g cg' ag' Hs Hg)) as (db1 & E1 & S1 & _).
  rewrite (run_step _ _ _ _ _ E1). destruct es as [|e es]; [by eapply (stream_ret (put_group m k a g ag'))|].
  apply (stream_ret (put_group m k a g ag')); [done|done|]. intros mem. change (length (e :: es) =? 0)%nat with false. cbv iota. by apply resolve_stream.
Qed.

Lemma does_xreadgroup m db k id o f : sees m db →
  (∀ db1 a ag s cg, sees m db1 → m !! k = Some (Own a) → log_rel now s a → a_groups a !! rg_group o = Some ag → group_rel now cg ag →
    ∃ es cg' ag' db2, (∀ h : reply + list (StreamID * list (bytes * bytes)) * Group → M O reply, (read_group_entries o s cg id ≫= h) db1 = h (inr (es, cg')) db2) ∧ sees m db2 ∧ group_rel now cg' ag' ∧
      f a ag = (put_group m k a (rg_group o) ag', stream_Reply k es)) →
  does (xreadgroup_streams o [(k, id)] []) db
    (on_log m k NullBulkReply (λ a, match a_groups a !! rg_group o with
       | None => (m, StandardErrReply (str "NOGROUP No such consumer group '" ++ rg_group o ++ str "' in key '" ++ k ++ str "'"))
       | Some ag => f a ag end)).
Proof.
  intros S Hf. cbn [xreadgroup_streams]. apply does_getAsStream; [done|intros; by apply (stream_ret m)|]. intros db1 a s S1 Hm Hs. unfold GetGroup.
  pose proof (get_group s a (rg_group o) Hs) as Hg. destruct (a_groups a !! rg_group o) as [ag|] eqn:Ea; [|rewrite Hg; by apply (stream_ret m)].
  destruct Hg as (cg & -> & Hr). destruct (Hf db1 a ag s cg S1 Hm Hs Ea Hr) as (es & cg' & ag' & db2 & Hread & S2 & Hg' & ->). unfold does. rewrite Hread.
  exact (does_read_stream m db2 k a s (rg_group o) o cg' ag' es S2 Hm Hs Hg').
Qed.

Lemma does_XReadGroup g c count k m db : stream_op_ok m (OXReadGroup g c count k) → sees m db → meets (OXReadGroup g c count k) m db.
Proof.
  intros (Hg & Hc & Hn) S. unfold meets, does. cbn [stream_exec]. unfold execXReadGroup. cbn [fmap list_fmap length Nat.ltb Nat.leb].
  change [ALit (str "GROUP"); ALit g; ALit c; ALit (str "COUNT"); ALit (Itoa count); ALit (str "STREAMS"); ALit k; ALit (str ">")] with
    (ALit <$> [str "GROUP"; g; c; str "COUNT"; Itoa count; str "STREAMS"; k; str ">"]).
  rewrite (run_step _ _ _ _ _ (run_words _ _)).
  assert (Hw : xreadgroup_args [str "GROUP"; g; c; str "COUNT"; Itoa count; str "STREAMS"; k; str ">"] (MkRG [] [] 0 false (-1)) = Ret (inr (MkRG g c count false (-1), [k; str ">"]))).
  { cbn [xreadgroup_args]. rewrite (upper_str Hup "GROUP"), bytes_eqb_refl by done. rewrite (upper_str Hup "COUNT") by done. change (bytes_eqb (str "COUNT") (str "GROUP")) with false. cbv iota. rewrite bytes_eqb_refl.
    rewrite ParseInt_Itoa by (unfold i64, min_i64, max_i64 in *; lia). rewrite (proj2 (Z.leb_gt count 0)) by lia. rewrite (upper_str Hup "STREAMS") by done. done. }
  rewrite Hw, run_lift. cbn [rg_group rg_consumer rg_block]. rewrite (proj2 (bytes_eqb_ne g [])), (proj2 (bytes_eqb_ne c [])) by done. cbn [orb length Nat.eqb].
  change (negb (Z.rem (Z.of_nat 2) 2 =? 0)) with false. change (-1 =? 0) with false. cbv iota. change (zip (take (2 / 2) [k; str ">"]) (drop (2 / 2) [k; str ">"])) with [(k, str ">")].
  apply (does_xreadgroup m db k (str ">") (MkRG g c count false (-1)) (λ a ag,
    let es := limited count (log_after (a_cursor ag) (a_entries a)) in
    (put_group m k a g (MkAG (default (a_cursor ag) (last (ID <$> es))) (give c (ID <$> es) (a_owner ag))), stream_Reply k ((λ e, (ID e, Fields e)) <$> es)))); [done|].
  intros db1 a ag s cg S1 Hm Hs Ha Hr. destruct (ReadNew_rel now cg ag s c count Hnow (lr_ok _ _ _ Hs) Hr) as (cg' & E & Hg'). rewrite <- (lr_entries _ _ _ Hs) in E, Hg'.
  set (es := limited count (log_after (a_cursor ag) (a_entries a))) in *.
  assert (Hdb : ∃ db2, sees m db2 ∧ ∀ h : reply + list (StreamID * list (bytes * bytes)) * Group → M O reply,
    (read_group_entries (MkRG g c count false (-1)) s cg (str ">") ≫= h) db1 = h (inr ((λ e, (ID e, Fields e)) <$> es, cg')) db2).
  { unfold read_group_entries, group_ReadNew. cbn [rg_consumer rg_count]. rewrite bytes_eqb_refl.
    destruct (Nat.eqb_spec (length (Stream.Range s (read_start cg) (MkID maxMs maxSeq) count)) 0) as [Hz|Hz].
    - exists db1. split; [done|]. intros h. rewrite !run_assoc, run_ret. unfold ReadNew in E. rewrite bool_decide_true in E by done. injection E as He <-. by rewrite <- He.
    - eexists. split; [by apply (sees_reads m db1)|]. intros h. rewrite !run_assoc, run_NowMs, run_ret, E. done. }
  destruct Hdb as (db2 & S2 & Hread). eexists _, cg', _, db2. split; [exact Hread|]. split; [done|]. split; [exact Hg'|done].
Qed.

Lemma put_same m k a g ag : m !! k = Some (Own a) → a_groups a !! g = Some ag → put_group m k a g ag = m.
Proof. intros Hm Ha. unfold put_group, with_groups. rewrite insert_id; [done|]. rewrite (insert_id (a_groups a)) by done. by destruct a. Qed.

Lemma does_XReadPending g c k start m db : stream_op_ok m (OXReadPending g c k start) → sees m db → meets (OXReadPending g c k start) m db.
Proof.
  intros (Hg & Hc & Hn) S. unfold meets, does. cbn [stream_exec]. unfold execXReadGroup. cbn [fmap list_fmap length Nat.ltb Nat.leb].
  change [ALit (str "GROUP"); ALit g; ALit c; ALit (str "STREAMS"); ALit k; ALit (Stream.String start)] with (ALit <$> [str "GROUP"; g; c; str "STREAMS"; k; Stream.String start]).
  rewrite (run_step _ _ _ _ _ (run_words _ _)).
  assert (Hw : xreadgroup_args [str "GROUP"; g; c; str "STREAMS"; k; Stream.String start] (MkRG [] [] 0 false (-1)) = Ret (inr (MkRG g c 0 false (-1), [k; Stream.String start]))).
  { cbn [xreadgroup_args]. rewrite (upper_str Hup "GROUP"), bytes_eqb_refl by done. rewrite (upper_str Hup "STREAMS") by done. done. }
  rewrite Hw, run_lift. cbn [rg_group rg_consumer rg_block]. rewrite (proj2 (bytes_eqb_ne g [])), (proj2 (bytes_eqb_ne c [])) by done. cbn [orb length Nat.eqb].
  change (negb (Z.rem (Z.of_nat 2) 2 =? 0)) with false. change (-1 =? 0) with false. cbv iota.
  change (zip (take (2 / 2) [k; Stream.String start]) (drop (2 / 2) [k; Stream.String start])) with [(k, Stream.String start)].
  apply (does_xreadgroup m db k (Stream.String start) (MkRG g c 0 false (-1)) (λ a ag, (m, stream_Reply k ((λ id, (id, fields_at (a_entries a) id)) <$> owned ag c start)))); [done|].
  intros db1 a ag s cg S1 Hm Hs Ha Hr. eexists _, cg, ag, db1. split; [|split; [done|]; split; [done|]; by rewrite put_same].
  intros h. unfold read_group_entries. cbn [rg_consumer rg_count rg_noack]. rewrite id_not, parse_id_String, run_ret by done. rewrite (ReadPending_rel now cg ag c start Hr Hn). do 3 f_equal.
  apply list_fmap_ext. intros i id Hi. f_equal. rewrite (lr_entries _ _ _ Hs). apply fields_of_log; [apply Hs|].
  assert (Hin : id ∈ owned ag c start) by (by eapply list_elem_of_lookup_2). unfold owned in Hin. rewrite (merge_sort_Permutation id_ge) in Hin.
  apply list_elem_of_fmap in Hin as ([id' c'] & -> & [_ Hin]%list_elem_of_filter). apply elem_of_map_to_list in Hin.
  apply (gr_ids _ _ _ Hr). eauto.
Qed.

Lemma does_stream_op o m db : stream_op_ok m o → dl_of dl m → sees m db → meets o m db.
Proof.
  intros Ho Hdl S. destruct o.
  - by apply does_XAdd. - by apply does_XAddAuto. - by apply does_XLen. - by apply does_XRange. - by apply does_XRevRange. - by apply does_XDel. - by apply does_XTrim.
  - by apply does_XRead. - by apply does_XGroupCreate. - by apply does_XGroupDestroy. - by apply does_XReadGroup. - by apply does_XReadPending. - by apply does_XAck. - by apply does_XClaim.
Qed.

End commands.

(** What was delivered in the past stays so. *)
Lemma log_rel_later now now' s a : now <= now' → log_rel now s a → log_rel now' s a.
Proof.
  intros Hle [H1 H2 H3 H4 H5]. split; try done. intros g. specialize (H5 g). destruct H5 as [cg ag [G1 G2 G3 G4 G5 G6]|]; constructor. split; try done.
  eapply Forall_impl; [exact G5|]. intros pe. cbn. lia.
Qed.

Section sequences.
Context {O : Type} `{!Objects O} `{!ObjOf O Stream} {env : Env} {rt : Runtime} {schoices : SChoices} (Hup : ascii_uppers).

(** Times that are not before the epoch and whose milliseconds fit. *)
Definition clock_ok (t : Z) : Prop := 0 <= t / Millisecond <= max_i64.
Lemma clock_ok_ms t : clock_ok t → time_UnixMilli t = t / Millisecond.
Proof. intros H. apply wrap64_id. unfold clock_ok, i64, min_i64 in *. lia. Qed.

Definition stream_exec_at (t : Z) (o : stream_op) : M O reply := stream_exec (env := at_time t env) o.
Definition stream_spec_at (t : Z) : logs → stream_op → logs * Reply := stream_cmd_spec (t / Millisecond).
Definition log_rel_at (t : Z) : Stream → alog → Prop := log_rel (t / Millisecond).
(** Each command is within the limits when it comes. *)
Definition stream_ops_ok : snapshot alog → list (Z * stream_op) → Prop :=
  timed_ok (steps_of stream_spec_at) keeps_all (λ t m o, clock_ok t ∧ stream_op_ok m o).

End sequences.

(** ** Concrete runs *)

#[local] Existing Instance ex_runtime.
#[local] Instance just_streams : Objects Stream := {| obj_type := λ _, TypeStream; obj_elems := λ _, [] |}.
#[local] Instance stream_of_stream : ObjOf Stream Stream.
Proof. refine {| inj_obj := λ x, x; prj_obj := λ x, Some x |}; [done|]. by intros o x [= ->]. Defined.
#[local] Instance at_five : Env :=
  {| clock := λ _, 5 * Millisecond; draw := λ _ _, false; MaxmemoryPolicy := []; ParseIntError := λ _, []; ValueDigest := λ b, b |}.
(** Maps are traversed in the order of their representation. *)
#[local] Instance map_orders : SChoices :=
  {| groups_order := λ _ s, (map_to_list (groups s)).*1; consumers_order := λ _ g, (map_to_list (consumers g)).*1;
     ids_order := λ _ c, (map_to_list (CPending c)).*1; counts_order := λ _ m, (map_to_list m).*1 |}.

Definition no_streams : DB Stream := MkDB 0 ∅ ∅ ∅ ∅ (MkTimeWheel Second [[]; []; []; []] ∅ 0 4 0) [] [] [] 0 0.

(** The key [e] holds an empty stream and has a deadline, at seven milliseconds. *)
Definition dated_streams : DB Stream := set_ttl (set_data no_streams {[str "e" := EObj Stream.New]}) {[str "e" := 7 * Millisecond]}.
Definition dated_stream_view : snapshot alog := ({[str "e" := Own new_log]}, {[str "e" := 7 * Millisecond]}).

Lemma dated_streams_seen : sees (T := Stream) (5 * Millisecond) dated_stream_view.2 (log_rel_at (5 * Millisecond)) dated_stream_view.1 dated_streams.
Proof.
  split; [by apply (New_wf Second 4)| | |].
  - intros k d. cbn [ttlMap data dated_streams set_ttl set_data]. intros [<- _]%lookup_singleton_Some. by rewrite lookup_singleton_eq.
  - intros k. unfold alive. cbn [dated_stream_view fst ttlMap data dated_streams set_ttl set_data]. destruct (decide (k = str "e")) as [->|Hne].
    + rewrite !lookup_singleton_eq. exists Stream.New. split; [done|]. apply new_log_rel.
    + by rewrite !lookup_singleton_ne by done.
  - intros k _. done.
Qed.

(** At 5, 6, 7, 8 and 9 milliseconds. *)
Definition stream_ops : list (Z * stream_op) :=
  let k := str "s" in let g := str "g" in let c := str "c" in let d := str "d" in let e := str "e" in let at_ms n := pair (n * Millisecond) in
  [at_ms 5 (OXAddAuto k [(str "f", str "w")]); at_ms 5 (OXGroupCreate k g (MkID 0 0)); at_ms 6 (OXAdd k (MkID 6 1) [(str "f", str "v")]); at_ms 6 (OXAdd k (MkID 1 0) [(str "f", str "x")]);
   at_ms 6 (OXLen k); at_ms 6 (OXReadGroup g c 1 k); at_ms 6 (OXReadGroup g d 9 k); at_ms 6 (OXReadGroup g d 9 k); at_ms 6 (OXAdd e (MkID 1 1) [(str "f", str "u")]);
   at_ms 7 (OXLen e); at_ms 8 (OXLen e); at_ms 8 (OXAdd e (MkID 1 1) [(str "f", str "t")]); at_ms 9 (OXLen e);
   at_ms 9 (OXReadPending g d k (MkID 0 0)); at_ms 9 (OXClaim k g c [MkID 6 1; MkID 9 9]); at_ms 9 (OXReadPending g c k (MkID 0 0));
   at_ms 9 (OXAck k g [MkID 5 0; MkID 5 0; MkID 7 7]); at_ms 9 (OXReadPending g c k (MkID 0 0)); at_ms 9 (OXRange k (MkID 0 0) (MkID maxMs maxSeq) 0); at_ms 9 (OXRevRange k (MkID 0 0) (MkID 9 0) 1);
   at_ms 9 (OXDel k [MkID 6 1]); at_ms 9 (OXReadPending g c k (MkID 0 0)); at_ms 9 (OXRead 0 k (MkID 1 0)); at_ms 9 (OXTrim k 0); at_ms 9 (OXTrim k 1); at_ms 9 (OXGroupDestroy k g);
   at_ms 9 (OXReadGroup g c 1 k)].

(** Most operations are fine in any state. *)
Lemma static_ops v os : Forall (λ p, clock_ok p.1 ∧ ∀ m, stream_op_ok m p.2) os → stream_ops_ok v os.
Proof. unfold stream_ops_ok. intros H. revert v. induction H as [|[t o] os [Ht Ho] _ IH]; intros v; [done|]. split; [split; [done|apply Ho]|]. intros m r _. apply IH. Qed.


(** ** What the commands do besides *)

Definition words (l : list string) : list arg := ALit ∘ str <$> l.
Definition play (cmds : list (M Stream reply)) : res (list Reply * DB Stream) :=
  foldl (λ acc c, '(rs, db) ← acc; '(r, db) ← c db; Ret (rs ++ [resolve (memory db) r], db)) (Ret ([], no_streams)) cmds.
Definition replies_of (x : res (list Reply * DB Stream)) : res (list Reply) := '(rs, _) ← x; Ret rs.
Definition last_reply (x : res (list Reply * DB Stream)) : res (option Reply) := '(rs, _) ← x; Ret (last rs).
Definition logged (x : res (list Reply * DB Stream)) : res (list (list arg)) := '(_, db) ← x; Ret (aof db).

Definition add_1_1 : M Stream reply := execXAdd (words ["s"; "1-1"; "f"; "v"]%string).
Definition make_group : M Stream reply := execXGroup (words ["CREATE"; "s"; "g"; "0"]%string).
Definition unknown_subcommand : Reply := Err "ERR Unknown subcommand or wrong number of arguments for 'XGROUP' command".

(** The line that XGROUP logs has no subcommand; executed again, it is refused. *)
Lemma xgroup_log_is_refused :
  logged (play [make_group]) = Ret [] ∧
  logged (play [add_1_1; make_group]) = Ret [words ["xadd"; "s"; "1-1"; "f"; "v"]%string; words ["xgroup"; "s"; "g"; "0"]%string] ∧
  last_reply (play [add_1_1; execXGroup (words ["s"; "g"; "0"]%string)]) = Ret (Some unknown_subcommand).
Proof. split_and!; vm_compute; reflexivity. Qed.

(** XGROUP locks, and counts as written, the key named by its subcommand; XREADGROUP the key GROUP, for reading. *)
Lemma xgroup_keys_are_wrong :
  ('(ks, _) ← writeFirstKey (O := Stream) (words ["CREATE"; "s"; "g"; "0"]%string) no_streams; Ret ks) = Ret ([str "CREATE"], []) ∧
  ('(ks, _) ← readFirstKey (O := Stream) (words ["GROUP"; "g"; "c"; "STREAMS"; "s"; ">"]%string) no_streams; Ret ks) = Ret ([], [str "GROUP"]).
Proof. split; vm_compute; reflexivity. Qed.

(** XGROUP CREATECONSUMER delivers everything that is new to the consumer, and creates none when nothing is new. *)
Lemma createconsumer_reads_everything :
  last_reply (play [add_1_1; make_group; execXGroup (words ["CREATECONSUMER"; "s"; "g"; "c"]%string); execXPending (words ["s"; "g"]%string)]) =
    Ret (Some (MultiRawReply [IntReply 1; Bulk (str "1-1"); Bulk (str "1-1"); MultiRawReply [Bulk (str "c"); IntReply 1]])) ∧
  replies_of (play [execXGroup (words ["CREATE"; "s"; "g"; "0"; "MKSTREAM"]%string); execXGroup (words ["CREATECONSUMER"; "s"; "g"; "c"]%string); execXInfo (words ["CONSUMERS"; "s"; "g"]%string)]) =
    Ret [OkReply; IntReply 1; EmptyMultiBulkReply].
Proof. split; vm_compute; reflexivity. Qed.

(** XAUTOCLAIM sorts the largest identifier first: with a count it claims the last entries, and the next start is after them. *)
Lemma xautoclaim_never_reaches_the_first :
  let claim (start : string) := execXAutoClaim (words ["s"; "g"; "d"; "0"; start; "COUNT"; "1"; "JUSTID"]%string) in
  replies_of (play [add_1_1; execXAdd (words ["s"; "2-1"; "f"; "v"]%string); make_group; execXReadGroup (words ["GROUP"; "g"; "c"; "STREAMS"; "s"; ">"]%string); claim "0-0"%string; claim "2-2"%string])
    ≫= (λ rs, Ret (drop 4 rs)) =
  Ret [MultiRawReply [Bulk (str "2-2"); MultiRawReply [Bulk (str "2-1")]; EmptyMultiBulkReply]; MultiRawReply [Bulk (str "2-2"); MultiRawReply []; EmptyMultiBulkReply]].
Proof. vm_compute. reflexivity. Qed.

(** XTRIM to length zero removes nothing; XADD with 0-0 leaves an empty stream;
    XREAD of one stream without options is refused; XREAD after the largest
    identifier returns everything. *)
Lemma stream_reply_oddities :
  replies_of (play [add_1_1; execXTrim (words ["s"; "MAXLEN"; "0"]%string); execXLen (words ["s"]%string)]) = Ret [Bulk (str "1-1"); IntReply 0; IntReply 1] ∧
  last_reply (play [execXAdd (words ["s"; "0-0"; "f"; "v"]%string); execExists (words ["s"]%string)]) = Ret (Some (IntReply 1)) ∧
  last_reply (play [add_1_1; execXRead (words ["STREAMS"; "s"; "0-0"]%string)]) = Ret (Some (ArgNumErrReply (str "xread"))) ∧
  last_reply (play [add_1_1; execXRead (words ["COUNT"; "1"; "STREAMS"; "s"; "5-0"]%string)]) = Ret (Some NullMultiBulkReply) ∧
  last_reply (play [add_1_1; execXRead (words ["COUNT"; "1"; "STREAMS"; "s"; "+"]%string)]) =
    Ret (Some (MultiRawReply [MultiRawReply [Bulk (str "s"); MultiRawReply [MultiRawReply [Bulk (str "1-1"); MultiRawReply [Bulk (str "f"); Bulk (str "v")]]]]])).
Proof. split_and!; vm_compute; reflexivity. Qed.

(** GROUP followed by one word. *)
Lemma xreadgroup_short_line_panics : execXReadGroup (words ["COUNT"; "1"; "COUNT"; "1"; "GROUP"; "g"]%string) no_streams = Panic.
Proof. vm_compute. reflexivity. Qed.

(** XSETID accepts an identifier below the entries; the next XADD breaks the order. *)
Lemma xsetid_breaks_the_order :
  ('(_, db) ← play [execXAdd (words ["s"; "5-1"; "f"; "v"]%string); execXSetID (words ["s"; "1-0"]%string); execXAdd (words ["s"; "2-0"; "f"; "w"]%string)];
   Ret (match data db !! str "s" with Some (EObj s) => ID <$> entries s | _ => [] end)) = Ret [MkID 5 1; MkID 2 0].
Proof. vm_compute. reflexivity. Qed.

(** After XGROUP SETID an entry is delivered again, to another consumer; once
    acknowledged, the first consumer still has it in its list. *)
Lemma redelivered_entry_stays_pending :
  let read (c : string) := execXReadGroup (words ["GROUP"; "g"; c; "STREAMS"; "s"; ">"]%string) in
  replies_of (play [add_1_1; make_group; read "c"%string; execXGroup (words ["SETID"; "s"; "g"; "0"]%string); read "d"%string; execXAck (words ["s"; "g"; "1-1"]%string);
                    execXPending (words ["s"; "g"]%string); execXPending (words ["s"; "g"; "-"; "+"; "9"]%string)])
    ≫= (λ rs, Ret (drop 5 rs)) =
  Ret [IntReply 1; MultiRawReply [IntReply 0]; MultiRawReply [MultiRawReply [Bulk (str "1-1"); Bulk (str "c"); IntReply 0; IntReply 1]]].
Proof. vm_compute. reflexivity. Qed.

(** The trimming of XADD and the deliveries of XREADGROUP are not logged. *)
Lemma xreadgroup_is_not_logged :
  logged (play [add_1_1; execXAdd (words ["s"; "MAXLEN"; "1"; "2-1"; "f"; "v"]%string); execXReadGroup (words ["GROUP"; "g"; "c"; "STREAMS"; "t"; ">"]%string)]) =
    Ret [words ["xadd"; "s"; "1-1"; "f"; "v"]%string; words ["xadd"; "s"; "2-1"; "f"; "v"]%string] ∧
  logged (play [add_1_1; make_group; execXReadGroup (words ["GROUP"; "g"; "c"; "STREAMS"; "s"; ">"]%string)]) = logged (play [add_1_1; make_group]).
Proof. split; vm_compute; reflexivity. Qed.
