(* ===== verification/Acl.v ===== *)
(** * Access control: [internal/acl], [internal/command/acl_cmd.go], AUTH, HELLO
    and the check that [Server.Exec] makes before a command

    A user is an object that the registry and the connections point to, so users
    live at addresses.  The library supplies the hash of passwords, regular
    expressions and random bytes; the order in which a map is traversed is a
    choice of the runtime. *)

From stdpp Require Import base gmap list strings sorting.
From Stdlib Require Import ZArith Lia Ascii.
From S2P Require Import Prelude Strconv Resp Runtime Border.

Local Open Scope Z_scope.

Class AclLib := {
  sha256hex : bytes → bytes;
  regexp_Compile : bytes → option (bytes → bool);
  random_hex : Z → bytes;
  scan_int : bytes → option Z;
  hashes_order : gset bytes → list bytes;
  users_order : gmap bytes nat → list (bytes * nat)
}.

(** ** Patterns, [lib/wildcard] *)

Definition replaceMap (ch : ascii) : option bytes :=
  match ch with
  | "+" => Some (str "\+") | ")" => Some (str "\)") | "$" => Some (str "\$") | "." => Some (str "\.")
  | "{" => Some (str "\{") | "}" => Some (str "\}") | "|" => Some (str "\|") | "*" => Some (str ".*") | "?" => Some (str ".")
  | _ => None
  end%char.

(** The two characters before, the last first; [None] when the pattern ends with
    a backslash. *)
Fixpoint regex_src (before : list ascii) (src : bytes) : option bytes :=
  match src with
  | [] => Some []
  | ch :: rest =>
      if bool_decide (ch = "\"%char) then
        match rest with
        | [] => None
        | next :: rest => r ← regex_src (next :: ch :: before) rest; Some (ch :: next :: r)
        end
      else
        r ← regex_src (ch :: before) rest;
        Some ((if bool_decide (ch = "^"%char) then
                 match before with
                 | ["["%char] => str "^"
                 | "["%char :: p :: _ => if bool_decide (p = "\"%char) then str "\^" else str "^"
                 | _ => str "\^"
                 end
               else default [ch] (replaceMap ch)) ++ r)
  end.

Section acl.
Context {rt : Runtime} {lib : AclLib}.

Definition CompilePattern (src : bytes) : option (bytes → bool) :=
  r ← regex_src [] src; regexp_Compile (str "^" ++ r ++ str "$").
Definition matches (pat s : bytes) : bool := match CompilePattern pat with Some m => m s | None => false end.

(** ** Users, [user.go] *)

Record keyPattern := MkPat { pat : bytes; p_read : bool; p_write : bool }.

Record User := MkUser {
  Name : bytes; Enabled : bool; NoPass : bool; PassHashes : gset bytes;
  AllKeys : bool; KeyPats : list keyPattern; AllChans : bool; ChanPats : list bytes;
  AllCmds : bool; cmdAllow : gmap bytes bool; catLookup : bytes → list bytes
}.
Definition NewUser (name : bytes) : User := MkUser name false false ∅ false [] false [] false ∅ (λ _, []).
Definition SetCategoryLookup (u : User) f : User :=
  MkUser (Name u) (Enabled u) (NoPass u) (PassHashes u) (AllKeys u) (KeyPats u) (AllChans u) (ChanPats u) (AllCmds u) (cmdAllow u) f.

Section updates.
Variable u : User.
Definition set_enabled b := MkUser (Name u) b (NoPass u) (PassHashes u) (AllKeys u) (KeyPats u) (AllChans u) (ChanPats u) (AllCmds u) (cmdAllow u) (catLookup u).
Definition set_pass np hs := MkUser (Name u) (Enabled u) np hs (AllKeys u) (KeyPats u) (AllChans u) (ChanPats u) (AllCmds u) (cmdAllow u) (catLookup u).
Definition set_keys all ps := MkUser (Name u) (Enabled u) (NoPass u) (PassHashes u) all ps (AllChans u) (ChanPats u) (AllCmds u) (cmdAllow u) (catLookup u).
Definition set_chans all cs := MkUser (Name u) (Enabled u) (NoPass u) (PassHashes u) (AllKeys u) (KeyPats u) all cs (AllCmds u) (cmdAllow u) (catLookup u).
Definition set_cmds all m := MkUser (Name u) (Enabled u) (NoPass u) (PassHashes u) (AllKeys u) (KeyPats u) (AllChans u) (ChanPats u) all m (catLookup u).
End updates.

Definition CheckPassword (u : User) (pw : bytes) : bool := NoPass u || bool_decide (sha256hex pw ∈ PassHashes u).

(** [strings.HasPrefix] and what follows the prefix. *)
Fixpoint strip (p r : bytes) : option bytes :=
  match p, r with
  | [], _ => Some r
  | c :: p, d :: r => if bool_decide (c = d) then strip p r else None
  | _ :: _, [] => None
  end.
Definition is_str (r : bytes) (s : string) : bool := bytes_eqb r (str s).

Definition allow_all (b : bool) (cs : list bytes) (m : gmap bytes bool) : gmap bytes bool := foldl (λ m c, <[c := b]> m) m cs.

(** One rule; [None] is an error. *)
Definition apply_rule (u : User) (r : bytes) : option User :=
  if is_str r "on" then Some (set_enabled u true)
  else if is_str r "off" then Some (set_enabled u false)
  else if is_str r "nopass" then Some (set_pass u true ∅)
  else if is_str r "resetpass" then Some (set_pass u false ∅)
  else match strip (str ">") r with Some p => Some (set_pass u false ({[sha256hex p]} ∪ PassHashes u)) | None =>
  match strip (str "#") r with Some h => Some (set_pass u (NoPass u) ({[ToLower h]} ∪ PassHashes u)) | None =>
  if is_str r "~*" || is_str r "allkeys" then Some (set_keys u true (KeyPats u)) else
  match strip (str "%R~") r with Some p => Some (set_keys u (AllKeys u) (KeyPats u ++ [MkPat p true false])) | None =>
  match strip (str "%W~") r with Some p => Some (set_keys u (AllKeys u) (KeyPats u ++ [MkPat p false true])) | None =>
  match strip (str "~") r with Some p => Some (set_keys u (AllKeys u) (KeyPats u ++ [MkPat p true true])) | None =>
  if is_str r "&*" || is_str r "allchannels" then Some (set_chans u true (ChanPats u)) else
  match strip (str "&") r with Some p => Some (set_chans u (AllChans u) (ChanPats u ++ [p])) | None =>
  if is_str r "+@all" || is_str r "allcommands" then Some (set_cmds u true (cmdAllow u))
  else if is_str r "-@all" || is_str r "nocommands" then Some (set_cmds u false ∅)
  else
  match strip (str "+@") r with Some c => Some (set_cmds u (AllCmds u) (allow_all true (catLookup u c) (cmdAllow u))) | None =>
  match strip (str "-@") r with Some c => Some (set_cmds u (AllCmds u) (allow_all false (catLookup u c) (cmdAllow u))) | None =>
  match strip (str "+") r with Some c => Some (set_cmds u (AllCmds u) (<[ToLower c := true]> (cmdAllow u))) | None =>
  match strip (str "-") r with Some c => Some (set_cmds u (AllCmds u) (<[ToLower c := false]> (cmdAllow u))) | None =>
  if is_str r "reset" then Some (NewUser (Name u)) else None
  end end end end end end end end end end.

(** The rules before one that is wrong stay applied; the error names it. *)
Fixpoint ApplyRules (u : User) (rules : list bytes) : User * option bytes :=
  match rules with
  | [] => (u, None)
  | r :: rules =>
      match apply_rule u r with
      | Some u => ApplyRules u rules
      | None => (u, Some (str "ERR Error in ACL SETUSER modifier '" ++ r ++ str "'"))
      end
  end.

Definition CanRunCommand (u : User) (name : bytes) : bool :=
  match cmdAllow u !! ToLower name with Some v => v | None => AllCmds u end.

Definition CanAccessKey (u : User) (key : bytes) (write : bool) : bool :=
  AllKeys u || existsb (λ p, negb ((write && negb (p_write p)) || (negb write && negb (p_read p))) && matches (pat p) key) (KeyPats u).
Definition CanAccessChannel (u : User) (ch : bytes) : bool := AllChans u || existsb (λ p, matches p ch) (ChanPats u).

Definition IsDefaultAllPerms (u : User) : bool := is_str (Name u) "default" && Enabled u && AllCmds u && AllKeys u && AllChans u.


Definition pat_rule (p : keyPattern) : bytes :=
  (if p_write p && negb (p_read p) then str "%W~" else if p_read p && negb (p_write p) then str "%R~" else str "~") ++ pat p.
Definition cmds_with (b : bool) (m : gmap bytes bool) : list bytes := (filter (λ kv, kv.2 = b) (map_to_list m)).*1.

Definition DescribeRules (u : User) : list bytes :=
  [if Enabled u then str "on" else str "off"]
  ++ (if NoPass u then [str "nopass"] else [])
  ++ map (app (str "#")) (hashes_order (PassHashes u))
  ++ (if AllKeys u then [str "~*"] else [])
  ++ map pat_rule (KeyPats u)
  ++ (if AllChans u then [str "&*"] else [])
  ++ map (app (str "&")) (ChanPats u)
  ++ (if AllCmds u then [str "+@all"] else [])
  ++ sort_Strings (map (app (str "+")) (cmds_with true (cmdAllow u)))
  ++ sort_Strings (map (app (str "-")) (cmds_with false (cmdAllow u))).

(** ** The registry, [acl.go] *)

Record LogEntry := MkLog { Timestamp : Z; Reason : bytes; LUser : bytes; ClientAddr : bytes; Details : bytes }.

(** The names with the addresses of their users, the users by address, the log. *)
Record ACL := MkACL { users : gmap bytes nat; heap : list User; log : list LogEntry }.
Definition logSize : nat := 128.

Definition default_user : User :=
  set_cmds (set_chans (set_keys (set_pass (set_enabled (NewUser (str "default")) true) true ∅) true []) true []) true ∅.
Definition NewACL : ACL := MkACL {[str "default" := 0%nat]} [default_user] [].

Definition SetUser (a : ACL) (name : bytes) (rules : list bytes) : ACL * option bytes :=
  let '(us, h, p) := match users a !! name with
                     | Some p => (users a, heap a, p)
                     | None => (<[name := length (heap a)]> (users a), heap a ++ [NewUser name], length (heap a))
                     end in
  let '(u, err) := ApplyRules (default (NewUser name) (h !! p)) rules in
  (MkACL us (<[p := u]> h) (log a), err).

Definition GetUser (a : ACL) (name : bytes) : option (nat * User) :=
  p ← users a !! name; u ← heap a !! p; Some (p, u).

Definition DelUser (a : ACL) (name : bytes) : ACL * bool :=
  if is_str name "default" then (a, false)
  else match users a !! name with
       | None => (a, false)
       | Some _ => (MkACL (delete name (users a)) (heap a) (log a), true)
       end.

Definition Users (a : ACL) : list bytes := (users_order (users a)).*1.
Definition List_users (a : ACL) : list User := omap (λ '(_, p), heap a !! p) (users_order (users a)).

Definition addLog (a : ACL) (now : Z) (reason user details : bytes) : ACL :=
  let l := log a ++ [MkLog now reason user [] details] in
  MkACL (users a) (heap a) (if (logSize <? length l)%nat then drop 1 l else l).

Definition wrongpass : bytes := str "WRONGPASS invalid username-password pair or user is disabled.".

Definition Authenticate (a : ACL) (now : Z) (name password : bytes) : ACL * option nat :=
  match GetUser a name with
  | None => (addLog a now (str "auth") name (str "User not found"), None)
  | Some (p, u) =>
      if negb (Enabled u) then (addLog a now (str "auth") name (str "User disabled"), None)
      else if negb (CheckPassword u password) then (addLog a now (str "auth") name (str "Wrong password"), None)
      else (a, Some p)
  end.

Definition Log (a : ACL) (count : Z) : list LogEntry :=
  let len := Z.of_nat (length (log a)) in
  let count := if (count <=? 0) || (len <? count) then len else count in
  drop (Z.to_nat (len - count)) (log a).
Definition ResetLog (a : ACL) : ACL := MkACL (users a) (heap a) [].

(** ** Connections *)

(** What a connection remembers: the last password and its user. *)
Record conn := MkConn { password : bytes; c_user : option nat }.

(** The configuration: the password, none when empty. *)
Variable RequirePass : bytes.

Definition no_password : bool := bool_decide (RequirePass = []).

Definition Bulk' (b : bytes) : Reply := BulkReply (Some b).
Definition error (b : bytes) : Reply := StandardErrReply b.
Definition serr (s : string) : Reply := StandardErrReply (str s).

Definition isAuthenticated (c : conn) : bool := no_password || bytes_eqb (password c) RequirePass.

Definition Auth (a : ACL) (now : Z) (c : conn) (args : list bytes) : ACL * conn * Reply :=
  match args with
  | [passwd] =>
      if no_password then
        (a, c, serr "ERR Client sent AUTH, but no password is set. Did you mean AUTH <username> <password>?")
      else
        let c := MkConn passwd (c_user c) in
        if negb (bytes_eqb RequirePass passwd) then (a, c, error wrongpass)
        else (a, match GetUser a (str "default") with Some (p, _) => MkConn passwd (Some p) | None => c end, OkReply)
  | [username; pw] =>
      let c := MkConn pw (c_user c) in
      let '(a, r) := Authenticate a now username pw in
      match r with
      | None => (a, c, error wrongpass)
      | Some p => (a, MkConn pw (Some p), OkReply)
      end
  | _ => (a, c, serr "ERR wrong number of arguments for 'auth' command")
  end.

(** The options of HELLO; the reply of success is not modelled. *)
Fixpoint hello_opts (args : list bytes) (c : conn) : conn * option Reply :=
  match args with
  | [] => (c, None)
  | o :: args =>
      if is_str (ToUpper o) "AUTH" then
        match args with
        | username :: passwd :: args =>
            if is_str username "default" && negb (no_password) then
              if negb (bytes_eqb RequirePass passwd) then (c, Some (error wrongpass))
              else hello_opts args (MkConn passwd (c_user c))
            else if negb (no_password) then (c, Some (error wrongpass))
            else hello_opts args c
        | _ => (c, Some (serr "ERR syntax error in HELLO"))
        end
      else if is_str (ToUpper o) "SETNAME" then
        match args with
        | _ :: args => hello_opts args c
        | [] => (c, Some (serr "ERR syntax error in HELLO"))
        end
      else (c, Some (serr "ERR syntax error in HELLO"))
  end.
Definition execHello (c : conn) (args : list bytes) : conn * option Reply :=
  match args with
  | [] => (c, None)
  | v :: args =>
      match ParseInt v with
      | Some ver => if (ver =? 2) || (ver =? 3) then hello_opts args c
                    else (c, Some (serr "NOPROTO unsupported protocol version"))
      | None => (c, Some (serr "NOPROTO unsupported protocol version"))
      end
  end.

(** ** The ACL command, [acl_cmd.go] *)

Definition bulks (l : list bytes) : Reply := MultiRawReply (Bulk' <$> l).
Definition acl_argnum (sub : string) : Reply :=
  error (str "ERR wrong number of arguments for 'acl|" ++ str sub ++ str "' command").

Definition execACLSetUser (a : ACL) (args : list bytes) : ACL * Reply :=
  match args with
  | [] => (a, acl_argnum "setuser")
  | name :: rules => let '(a, err) := SetUser a name rules in (a, match err with Some e => error e | None => OkReply end)
  end.

Definition user_flags (u : User) : list bytes :=
  [if Enabled u then str "on" else str "off"] ++ (if NoPass u then [str "nopass"] else []) ++ (if AllKeys u then [str "allkeys"] else [])
  ++ (if AllChans u then [str "allchannels"] else []) ++ (if AllCmds u then [str "allcommands"] else []).
Definition execACLGetUser (a : ACL) (args : list bytes) : Reply :=
  match args with
  | [name] =>
      match GetUser a name with
      | None => NullBulkReply
      | Some (_, u) =>
          MultiRawReply [Bulk' (str "flags"); bulks (user_flags u); Bulk' (str "passwords"); bulks (hashes_order (PassHashes u));
                         Bulk' (str "commands"); bulks (DescribeRules u)]
      end
  | _ => acl_argnum "getuser"
  end.

Fixpoint del_users (a : ACL) (names : list bytes) (count : Z) : ACL * Z :=
  match names with
  | [] => (a, count)
  | n :: names => let '(a, ok) := DelUser a n in del_users a names (if ok : bool then count + 1 else count)
  end.
Definition execACLDelUser (a : ACL) (args : list bytes) : ACL * Reply :=
  match args with
  | [] => (a, acl_argnum "deluser")
  | _ => let '(a, n) := del_users a args 0 in (a, IntReply n)
  end.

Definition execACLWhoami (a : ACL) (c : conn) (args : list bytes) : Reply :=
  match args with
  | [] => match (p ← c_user c; heap a !! p) with Some u => Bulk' (Name u) | None => Bulk' (str "default") end
  | _ => acl_argnum "whoami"
  end.

Definition execACLUsers (a : ACL) : Reply := bulks (sort_Strings (Users a)).

(** [strings.Join(parts, " ")] *)
Fixpoint join (parts : list bytes) : bytes :=
  match parts with [] => [] | [p] => p | p :: parts => p ++ str " " ++ join parts end.
Definition execACLList (a : ACL) : Reply :=
  bulks ((λ u, join ([str "user"; Name u] ++ DescribeRules u)) <$> List_users a).

Definition KnownCategories : list bytes := str <$> [
  "read"; "write"; "admin"; "dangerous"; "fast"; "slow"; "string"; "list"; "set"; "sortedset"; "hash"; "stream";
  "bitmap"; "hyperloglog"; "geo"; "pubsub"; "scripting"; "connection"; "transaction"; "blocking"; "generic"]%string.
(** Nothing fills it. *)
Definition CategoryCommands : gmap bytes (list bytes) := ∅.
Definition execACLCat (args : list bytes) : Reply :=
  match args with
  | [] => bulks (sort_Strings KnownCategories)
  | c :: _ =>
      let catName := ToLower c in
      match CategoryCommands !! catName with
      | None => error (str "ERR Unknown category '" ++ catName ++ str "'")
      | Some cmds => bulks (sort_Strings cmds)
      end
  end.

Definition parsePositiveInt (s : bytes) : option Z := n ← scan_int s; if n <=? 0 then None else Some n.

Definition execACLGenPass (args : list bytes) : Reply :=
  let gen (bits : Z) : Reply := Bulk' (random_hex ((bits + 7) / 8)) in
  match args with
  | [w] =>
      match parsePositiveInt w with
      | Some n => if (n <? 1) || (4096 <? n) then serr "ERR ACL GENPASS supports only values between 1 and 4096" else gen n
      | None => serr "ERR ACL GENPASS supports only values between 1 and 4096"
      end
  | _ => gen 256
  end.

Definition entry_reply (e : LogEntry) : Reply :=
  MultiRawReply [Bulk' (str "reason"); Bulk' (Reason e); Bulk' (str "user"); Bulk' (LUser e); Bulk' (str "client-address");
                 Bulk' (ClientAddr e); Bulk' (str "details"); Bulk' (Details e); Bulk' (str "timestamp"); IntReply (Timestamp e)].
Definition execACLLog (a : ACL) (args : list bytes) : Reply :=
  match args with
  | [] => MultiRawReply (entry_reply <$> Log a 10)
  | [w] => match parsePositiveInt w with
           | None => serr "ERR value is not an integer or out of range"
           | Some n => MultiRawReply (entry_reply <$> Log a n)
           end
  | _ => acl_argnum "log"
  end.

(** The dispatch; HELP answers a constant text. *)
Definition execACL (help : Reply) (a : ACL) (c : conn) (args : list bytes) : ACL * Reply :=
  match args with
  | [] => (a, serr "ERR wrong number of arguments for 'acl' command")
  | w :: args =>
      let sub := ToLower w in
      if is_str sub "setuser" then execACLSetUser a args
      else if is_str sub "getuser" then (a, execACLGetUser a args)
      else if is_str sub "deluser" then execACLDelUser a args
      else if is_str sub "whoami" then (a, execACLWhoami a c args)
      else if is_str sub "users" then (a, execACLUsers a)
      else if is_str sub "list" then (a, execACLList a)
      else if is_str sub "cat" then (a, execACLCat args)
      else if is_str sub "genpass" then (a, execACLGenPass args)
      else if is_str sub "log" then (a, execACLLog a args)
      else if is_str sub "load" then (a, serr "ERR ACL LOAD not yet implemented")
      else if is_str sub "save" then (a, serr "ERR ACL SAVE not yet implemented")
      else if is_str sub "help" then (a, help)
      else (a, error (str "ERR Unknown subcommand or wrong number of arguments for '" ++ sub ++ str "'"))
  end.

(** ** The check before a command, [server.go] *)

(** What becomes of a line: a reply at once, or the command goes on to be
    executed, [HELLO] and [PING] among them. *)
Inductive verdict := Answered (r : Reply) | Passed.

(** The user of a connection: its own, or the default user. *)
Definition effective_user (a : ACL) (c : conn) : option User :=
  match c_user c with
  | Some p => heap a !! p
  | None => snd <$> GetUser a (str "default")
  end.

Definition noperm (u : User) (cmdName : bytes) : Reply :=
  error (str "NOPERM User " ++ Name u ++ str " has no permissions to run the '" ++ cmdName ++ str "' command").

(** The first word of an empty line is a panic, from which [Exec] recovers. *)
Definition gate (help : Reply) (a : ACL) (now : Z) (c : conn) (line : list bytes) : ACL * conn * verdict :=
  match line with
  | [] => (a, c, Answered UnknownErrReply)
  | w :: args =>
      let cmdName := ToLower w in
      if is_str cmdName "hello" then
        let '(c, r) := execHello c args in (a, c, match r with Some r => Answered r | None => Passed end)
      else if is_str cmdName "ping" then (a, c, Passed)
      else if is_str cmdName "auth" then let '(a, c, r) := Auth a now c args in (a, c, Answered r)
      else if negb (isAuthenticated c) then (a, c, Answered (serr "NOAUTH Authentication required"))
      else if is_str cmdName "acl" then let '(a, r) := execACL help a c args in (a, c, Answered r)
      else
        match effective_user a c with
        | Some u => if negb (IsDefaultAllPerms u) && negb (CanRunCommand u cmdName) then (a, c, Answered (noperm u cmdName)) else (a, c, Passed)
        | None => (a, c, Passed)
        end
  end.
End acl.
