(* ===== verification/AclThm.v ===== *)
(** * What access control guarantees

    The registry stays well formed whatever lines the connections send, and the
    rules that a user is described by make the same user again.  Runs show what
    the check before a command lets through. *)

From stdpp Require Import base gmap list strings sorting.
From Stdlib Require Import ZArith Lia Ascii.
From S2P Require Import Prelude Strconv Resp Runtime Border Acl.

Local Open Scope Z_scope.

(** ** What is relied on *)

(** Lower case is reached in one step and does not make an at sign; the hash of
    a password is written in lower case; a traversal visits each hash once. *)
Class AclLaws (rt : Runtime) (lib : AclLib) : Prop := {
  lower_idem : ∀ s, ToLower (ToLower s) = ToLower s;
  lower_at : ∀ s, head (ToLower s) = Some "@"%char → head s = Some "@"%char;
  hash_lower : ∀ s, ToLower (sha256hex s) = sha256hex s;
  hashes_all : ∀ s, hashes_order s ≡ₚ elements s
}.

Section acl.
Context {rt : Runtime} {lib : AclLib} {laws : AclLaws rt lib}.

(** ** Users that rules make *)

Definition pat_ok (p : keyPattern) : Prop :=
  (p_read p = true ∨ p_write p = true) ∧ (p_read p = true → p_write p = true → pat p ≠ str "*").
Definition cmd_ok (c : bytes) : Prop := ToLower c = c ∧ head c ≠ Some "@"%char.

Record user_ok (u : User) : Prop := {
  ok_hashes : ∀ h, h ∈ PassHashes u → ToLower h = h;
  ok_pats : Forall pat_ok (KeyPats u);
  ok_chans : Forall (λ c, c ≠ str "*") (ChanPats u);
  ok_cmds : ∀ c b, cmdAllow u !! c = Some b → cmd_ok c;
  ok_cats : catLookup u = λ _, []
}.

Lemma new_user_ok name : user_ok (NewUser name).
Proof. split; cbn; [set_solver|apply Forall_nil_2|apply Forall_nil_2|intros c b H; by rewrite lookup_empty in H|done]. Qed.

Lemma set_pass_ok u np hs : user_ok u → (∀ h, h ∈ hs → ToLower h = h) → user_ok (set_pass u np hs).
Proof. intros [H1 H2 H3 H4 H5] H. by split. Qed.
Lemma set_keys_ok u all ps : user_ok u → Forall pat_ok ps → user_ok (set_keys u all ps).
Proof. intros [H1 H2 H3 H4 H5] H. by split. Qed.
Lemma set_chans_ok u all cs : user_ok u → Forall (λ c, c ≠ str "*") cs → user_ok (set_chans u all cs).
Proof. intros [H1 H2 H3 H4 H5] H. by split. Qed.
Lemma set_cmds_ok u all m : user_ok u → (∀ c b, m !! c = Some b → cmd_ok c) → user_ok (set_cmds u all m).
Proof. intros [H1 H2 H3 H4 H5] H. by split. Qed.

Lemma strip_spec p r x : strip p r = Some x ↔ r = p ++ x.
Proof.
  revert r. induction p as [|c p IH]; intros r; cbn [strip app]; [split; congruence|]. destruct r as [|d r]; [split; discriminate|].
  case_bool_decide as E; [subst; rewrite IH; split; [by intros ->|by intros [= ->]]|]. split; [discriminate|]. intros [= -> _]. done.
Qed.

Lemma is_str_no r s : r ≠ str s → is_str r s = false.
Proof. apply bytes_eqb_ne. Qed.

Lemma insert_cmd_ok (m : gmap bytes bool) c v : (∀ c b, m !! c = Some b → cmd_ok c) → head c ≠ Some "@"%char →
  ∀ c' b, <[ToLower c := v]> m !! c' = Some b → cmd_ok c'.
Proof.
  intros Hm Hc c' b. rewrite lookup_insert_Some. intros [[<- _]|[_ H]]; [|by eapply Hm]. split; [apply lower_idem|]. by intros H%lower_at.
Qed.

(** The rules one by one keep users well formed. *)
Lemma apply_rule_ok u r u' : user_ok u → apply_rule u r = Some u' → user_ok u' ∧ Name u' = Name u.
Proof.
  intros Hu. pose proof Hu as [H1 H2 H3 H4 H5]. unfold apply_rule.
  destruct (is_str r "on"); [by intros [= <-]|]. destruct (is_str r "off"); [by intros [= <-]|].
  destruct (is_str r "nopass"); [intros [= <-]; split; [apply set_pass_ok; set_solver|done]|].
  destruct (is_str r "resetpass"); [intros [= <-]; split; [apply set_pass_ok; set_solver|done]|].
  destruct (strip (str ">") r) as [p|].
  { intros [= <-]. split; [|done]. apply set_pass_ok; [done|]. intros h [->%elem_of_singleton|Hh]%elem_of_union; [apply hash_lower|by apply H1]. }
  destruct (strip (str "#") r) as [p|].
  { intros [= <-]. split; [|done]. apply set_pass_ok; [done|]. intros h [->%elem_of_singleton|Hh]%elem_of_union; [apply lower_idem|by apply H1]. }
  destruct (is_str r "~*") eqn:Ek; [intros [= <-]; split; [by apply set_keys_ok|done]|]. cbn [orb].
  destruct (is_str r "allkeys"); [intros [= <-]; split; [by apply set_keys_ok|done]|].
  destruct (strip (str "%R~") r) as [p|]; [intros [= <-]; split; [apply set_keys_ok, Forall_app_2; [done|done|]; apply Forall_singleton; split; [auto|done]|done]|].
  destruct (strip (str "%W~") r) as [p|]; [intros [= <-]; split; [apply set_keys_ok, Forall_app_2; [done|done|]; apply Forall_singleton; split; [auto|done]|done]|].
  destruct (strip (str "~") r) as [p|] eqn:Ep.
  { intros [= <-]. split; [|done]. apply set_keys_ok, Forall_app_2; [done|done|]. apply Forall_singleton. split; [by left|]. cbn. intros _ _ ->.
    apply strip_spec in Ep as ->. by apply bytes_eqb_ne in Ek. }
  destruct (is_str r "&*") eqn:Ec; [intros [= <-]; split; [by apply set_chans_ok|done]|]. cbn [orb].
  destruct (is_str r "allchannels"); [intros [= <-]; split; [by apply set_chans_ok|done]|].
  destruct (strip (str "&") r) as [p|] eqn:Ep'.
  { intros [= <-]. split; [|done]. apply set_chans_ok, Forall_app_2; [done|done|]. apply Forall_singleton. intros ->.
    apply strip_spec in Ep' as ->. by apply bytes_eqb_ne in Ec. }
  destruct (_ || _); [intros [= <-]; split; [by apply set_cmds_ok|done]|].
  destruct (_ || _); [intros [= <-]; split; [apply set_cmds_ok; [done|]; intros c b H; by rewrite lookup_empty in H|done]|].
  destruct (strip (str "+@") r) as [p|] eqn:Eca; [rewrite H5; intros [= <-]; split; [by apply set_cmds_ok|done]|].
  destruct (strip (str "-@") r) as [p|] eqn:Ecd; [rewrite H5; intros [= <-]; split; [by apply set_cmds_ok|done]|].
  destruct (strip (str "+") r) as [p|] eqn:Ea.
  { intros [= <-]. split; [|done]. apply set_cmds_ok; [done|]. apply insert_cmd_ok; [done|]. intros Hh.
    apply strip_spec in Ea as ->. destruct p as [|d p]; [done|]. injection Hh as ->. by rewrite (proj2 (strip_spec (str "+@") _ p)) in Eca. }
  destruct (strip (str "-") r) as [p|] eqn:Ed.
  { intros [= <-]. split; [|done]. apply set_cmds_ok; [done|]. apply insert_cmd_ok; [done|]. intros Hh.
    apply strip_spec in Ed as ->. destruct p as [|d p]; [done|]. injection Hh as ->. by rewrite (proj2 (strip_spec (str "-@") _ p)) in Ecd. }
  destruct (is_str r "reset"); [|done]. intros [= <-]. split; [apply new_user_ok|done].
Qed.

Lemma ApplyRules_ok u rules : user_ok u → user_ok (ApplyRules u rules).1 ∧ Name (ApplyRules u rules).1 = Name u.
Proof.
  revert u. induction rules as [|r rules IH]; intros u Hu; cbn [ApplyRules]; [done|]. destruct (apply_rule u r) as [u1|] eqn:E; [|done].
  apply apply_rule_ok in E as [H1 <-]; [|done]. by apply IH.
Qed.

(** ** Rules that describe a user *)

Lemma ApplyRules_app u l1 l2 u1 : ApplyRules u l1 = (u1, None) → ApplyRules u (l1 ++ l2) = ApplyRules u1 l2.
Proof.
  revert u. induction l1 as [|r l1 IH]; intros u; cbn [ApplyRules app]; [by intros [= ->]|]. destruct (apply_rule u r); [apply IH|done].
Qed.

Lemma rule_hash u h : apply_rule u (str "#" ++ h) = Some (set_pass u (NoPass u) ({[ToLower h]} ∪ PassHashes u)).
Proof. reflexivity. Qed.
Lemma rule_pat u p : pat_ok p → apply_rule u (pat_rule p) = Some (set_keys u (AllKeys u) (KeyPats u ++ [p])).
Proof.
  destruct p as [q [] []]; unfold pat_ok, pat_rule; cbn [pat p_read p_write andb negb]; intros [H1 H2].
  - specialize (H2 eq_refl eq_refl). cbn in H2. unfold apply_rule.
    assert (E : is_str (str "~" ++ q) "~*" = false) by (apply is_str_no; intros [= ->]; done). rewrite E. reflexivity.
  - reflexivity.
  - reflexivity.
  - destruct H1; discriminate.
Qed.
Lemma rule_chan u c : c ≠ str "*" → apply_rule u (str "&" ++ c) = Some (set_chans u (AllChans u) (ChanPats u ++ [c])).
Proof.
  intros H. unfold apply_rule. assert (E : is_str (str "&" ++ c) "&*" = false) by (apply is_str_no; intros [= ->]; done). rewrite E. reflexivity.
Qed.
Lemma rule_cmd u c (b : bool) : cmd_ok c → apply_rule u (str (if b then "+" else "-") ++ c) = Some (set_cmds u (AllCmds u) (<[c := b]> (cmdAllow u))).
Proof.
  intros [Hl Hh]. rewrite <- Hl at 2. destruct c as [|d c]; [by destruct b|]. assert (Hd : "@"%char ≠ d) by (intros <-; done).
  assert (E : bool_decide ("@"%char = d) = false) by (by apply bool_decide_eq_false_2).
  unfold apply_rule. destruct b; cbn [str app].
  - assert (E1 : is_str (str "+" ++ d :: c) "+@all" = false) by (apply is_str_no; intros [= -> _]; done).
    assert (E2 : strip (str "+@") (str "+" ++ d :: c) = None) by (cbn; by rewrite E). rewrite E1, E2. reflexivity.
  - assert (E1 : is_str (str "-" ++ d :: c) "-@all" = false) by (apply is_str_no; intros [= -> _]; done).
    assert (E2 : strip (str "-@") (str "-" ++ d :: c) = None) by (cbn; by rewrite E). rewrite E1, E2. reflexivity.
Qed.

Lemma rules_hashes u l : Forall (λ h, ToLower h = h) l → ApplyRules u (map (app (str "#")) l) = (set_pass u (NoPass u) (list_to_set l ∪ PassHashes u), None).
Proof.
  intros Hl. revert u. induction Hl as [|h l Hh Hl IH]; intros u; cbn [map ApplyRules].
  - rewrite list_to_set_nil, union_empty_l_L. by destruct u.
  - rewrite rule_hash, IH. unfold set_pass. cbn. do 2 f_equal. rewrite Hh. set_solver.
Qed.
Lemma rules_pats u l : Forall pat_ok l → ApplyRules u (map pat_rule l) = (set_keys u (AllKeys u) (KeyPats u ++ l), None).
Proof.
  intros Hl. revert u. induction Hl as [|p l Hp Hl IH]; intros u; cbn [map ApplyRules].
  - rewrite app_nil_r. by destruct u.
  - rewrite rule_pat, IH by done. unfold set_keys. cbn. do 2 f_equal. by rewrite <- app_assoc.
Qed.
Lemma rules_chans u l : Forall (λ c, c ≠ str "*") l → ApplyRules u (map (app (str "&")) l) = (set_chans u (AllChans u) (ChanPats u ++ l), None).
Proof.
  intros Hl. revert u. induction Hl as [|p l Hp Hl IH]; intros u; cbn [map ApplyRules].
  - rewrite app_nil_r. by destruct u.
  - rewrite rule_chan, IH by done. unfold set_chans. cbn. do 2 f_equal. by rewrite <- app_assoc.
Qed.
Lemma rules_cmds u (b : bool) l : Forall cmd_ok l →
  ApplyRules u (map (app (str (if b then "+" else "-"))) l) = (set_cmds u (AllCmds u) (allow_all b l (cmdAllow u)), None).
Proof.
  intros Hl. revert u. induction Hl as [|c l Hc Hl IH]; intros u; cbn [map ApplyRules]; [by destruct u|]. rewrite rule_cmd, IH by done. done.
Qed.

(** Sorting the rules of commands sorts the commands. *)
Lemma sorted_cmds (x : bytes) cs : ∃ cs', sort_Strings (map (app x) cs) = map (app x) cs' ∧ cs' ≡ₚ cs.
Proof.
  unfold sort_Strings. pose proof (merge_sort_Permutation bytes_le (map (app x) cs)) as H.
  change (map (app x) cs) with (app x <$> cs) in *. apply Permutation_map_inv in H as (cs' & E & Hp). exists cs'. split; [exact E|by symmetry].
Qed.

Lemma allow_all_lookup (b : bool) (cs : list bytes) (m : gmap bytes bool) (c : bytes) : allow_all b cs m !! c = if bool_decide (c ∈ cs) then Some b else m !! c.
Proof.
  unfold allow_all. revert m. induction cs as [|d cs IH]; intros m; cbn [foldl]; [by rewrite bool_decide_eq_false_2 by apply not_elem_of_nil|].
  rewrite IH. destruct (decide (c ∈ cs)) as [Hin|Hin].
  - rewrite !bool_decide_eq_true_2; [done|by right|done].
  - rewrite (bool_decide_eq_false_2 (c ∈ cs)) by done. destruct (decide (c = d)) as [->|Hne].
    + rewrite lookup_insert_eq, bool_decide_eq_true_2; [done|by left].
    + rewrite lookup_insert_ne by done. rewrite bool_decide_eq_false_2; [done|]. by intros [?|?]%elem_of_cons.
Qed.

Lemma cmds_with_elem (b : bool) (m : gmap bytes bool) (c : bytes) : c ∈ cmds_with b m ↔ m !! c = Some b.
Proof.
  unfold cmds_with. rewrite list_elem_of_fmap. split.
  - intros ([k v] & -> & [Hv Hin]%list_elem_of_filter). cbn in *. subst. by apply elem_of_map_to_list.
  - intros H. exists (c, b). split; [done|]. apply list_elem_of_filter. split; [done|]. by apply elem_of_map_to_list.
Qed.

Lemma describe_round_trip u : user_ok u → ApplyRules (NewUser (Name u)) (DescribeRules u) = (u, None).
Proof.
  intros [H1 H2 H3 H4 H5]. destruct u as [n en np hs ak kp ac cp all ca cl]. cbn in H1, H2, H3, H4, H5. subst cl. unfold DescribeRules. cbn [Name Enabled NoPass PassHashes AllKeys KeyPats AllChans ChanPats AllCmds cmdAllow].
  destruct (sorted_cmds (str "+") (cmds_with true ca)) as (ps & -> & Hps). destruct (sorted_cmds (str "-") (cmds_with false ca)) as (ms & -> & Hms).
  assert (Fc : ∀ b cs, cs ≡ₚ cmds_with b ca → Forall cmd_ok cs).
  { intros b cs Hp. apply Forall_forall. intros c Hc. apply (H4 c b), cmds_with_elem. by rewrite <- Hp. }
  assert (Fh : Forall (λ h, ToLower h = h) (hashes_order hs)).
  { apply Forall_forall. intros h Hh. apply H1, elem_of_elements. by rewrite <- hashes_all. }
  rewrite (ApplyRules_app _ _ _ (set_enabled (NewUser n) en)) by (by destruct en).
  rewrite (ApplyRules_app _ _ _ (MkUser n en np ∅ false [] false [] false ∅ (λ _, []))) by (by destruct np).
  erewrite ApplyRules_app by (by apply rules_hashes). unfold set_pass. cbn [Name Enabled NoPass PassHashes AllKeys KeyPats AllChans ChanPats AllCmds cmdAllow catLookup].
  replace (list_to_set (hashes_order hs) ∪ ∅) with hs.
  2: { rewrite union_empty_r_L. apply set_eq. intros h. rewrite elem_of_list_to_set, hashes_all. by rewrite elem_of_elements. }
  rewrite (ApplyRules_app _ _ _ (MkUser n en np hs ak [] false [] false ∅ (λ _, []))) by (by destruct ak).
  erewrite ApplyRules_app by (by apply rules_pats). unfold set_keys. cbn [Name Enabled NoPass PassHashes AllKeys KeyPats AllChans ChanPats AllCmds cmdAllow catLookup app].
  rewrite (ApplyRules_app _ _ _ (MkUser n en np hs ak kp ac [] false ∅ (λ _, []))) by (by destruct ac).
  erewrite ApplyRules_app by (by apply rules_chans). unfold set_chans. cbn [Name Enabled NoPass PassHashes AllKeys KeyPats AllChans ChanPats AllCmds cmdAllow catLookup app].
  rewrite (ApplyRules_app _ _ _ (MkUser n en np hs ak kp ac cp all ∅ (λ _, []))) by (by destruct all).
  erewrite ApplyRules_app by (apply (rules_cmds _ true); by eapply Fc). rewrite (rules_cmds _ false) by (by eapply Fc).
  unfold set_cmds. cbn [Name Enabled NoPass PassHashes AllKeys KeyPats AllChans ChanPats AllCmds cmdAllow catLookup]. do 2 f_equal.
  apply map_eq. intros c. rewrite !allow_all_lookup, lookup_empty.
  assert (Ep : c ∈ ps ↔ ca !! c = Some true) by (rewrite Hps; apply cmds_with_elem).
  assert (Em : c ∈ ms ↔ ca !! c = Some false) by (rewrite Hms; apply cmds_with_elem).
  destruct (ca !! c) as [[]|] eqn:E.
  - rewrite bool_decide_eq_false_2 by (rewrite Em; congruence). by rewrite bool_decide_eq_true_2 by (by rewrite Ep).
  - by rewrite bool_decide_eq_true_2 by (by rewrite Em).
  - rewrite !bool_decide_eq_false_2; [done|rewrite Ep; congruence|rewrite Em; congruence].
Qed.

(** ** The registry *)

(** The default user is there, a name leads to a well-formed user of this name,
    and the log is bounded. *)
Record acl_ok (a : ACL) : Prop := {
  ok_default : is_Some (users a !! str "default");
  ok_users : ∀ name p, users a !! name = Some p → ∃ u, heap a !! p = Some u ∧ Name u = name;
  ok_heap : Forall user_ok (heap a);
  ok_log : (length (log a) <= logSize)%nat
}.

(** The users of a connection exist. *)
Definition conn_ok (a : ACL) (c : conn) : Prop := ∀ p, c_user c = Some p → (p < length (heap a))%nat.

Lemma new_acl_ok : acl_ok NewACL.
Proof.
  split; cbn.
  - rewrite lookup_insert_eq. by eexists.
  - intros name p [[<- <-]|[_ H]]%lookup_insert_Some; [by exists default_user|by rewrite lookup_empty in H].
  - apply Forall_singleton. unfold default_user. apply set_cmds_ok; [|intros c b H; by rewrite lookup_empty in H].
    apply set_chans_ok; [|apply Forall_nil_2]. apply set_keys_ok; [|apply Forall_nil_2]. apply set_pass_ok; [|set_solver].
    destruct (new_user_ok (str "default")) as [H1 H2 H3 H4 H5]. by split.
  - unfold logSize. lia.
Qed.

Lemma SetUser_ok a name rules : acl_ok a → acl_ok (SetUser a name rules).1 ∧ (length (heap a) <= length (heap (SetUser a name rules).1))%nat.
Proof.
  intros [D U H L]. unfold SetUser. destruct (users a !! name) as [p|] eqn:E.
  - destruct (U name p E) as (u & Hu & Hn). rewrite Hu. cbn [from_option id]. destruct (ApplyRules u rules) as [u' err] eqn:Eu. cbn [fst heap].
    rewrite length_insert. split; [|done].
    destruct (ApplyRules_ok u rules) as [Hok Hname]; [by eapply Forall_lookup_1|]. rewrite Eu in *. cbn [fst] in *. split; cbn [users heap log].
    + done.
    + intros name' p' E'. destruct (U name' p' E') as (v & Hv & Hnv). destruct (decide (p = p')) as [<-|Hne].
      * exists u'. rewrite list_lookup_insert_eq by (by eapply lookup_lt_Some). split; [done|]. congruence.
      * exists v. by rewrite list_lookup_insert_ne.
    + by apply Forall_insert.
    + done.
  - rewrite lookup_app_r, Nat.sub_diag by done. cbn [lookup list_lookup from_option id]. destruct (ApplyRules (NewUser name) rules) as [u' err] eqn:Eu. cbn [fst heap].
    rewrite length_insert, length_app. split; [|lia].
    destruct (ApplyRules_ok (NewUser name) rules (new_user_ok name)) as [Hok Hname]. rewrite Eu in *. cbn [fst] in *. split; cbn [users heap log].
    + rewrite lookup_insert_is_Some. destruct (decide (name = str "default")); [by left|by right].
    + intros name' p' [[<- <-]|[Hne E']]%lookup_insert_Some.
      * exists u'. rewrite list_lookup_insert_eq by (rewrite length_app; cbn; lia). done.
      * destruct (U name' p' E') as (v & Hv & Hnv). exists v. pose proof (lookup_lt_Some _ _ _ Hv). rewrite list_lookup_insert_ne by lia. by rewrite lookup_app_l.
    + apply Forall_insert; [|done]. apply Forall_app_2; [done|]. apply Forall_singleton, new_user_ok.
    + done.
Qed.

Lemma DelUser_ok a name : acl_ok a → acl_ok (DelUser a name).1 ∧ heap (DelUser a name).1 = heap a.
Proof.
  intros [D U H L]. unfold DelUser. destruct (is_str name "default") eqn:Ed; [by split|]. apply bytes_eqb_ne in Ed.
  destruct (users a !! name); [|by split]. split; [|done]. split; cbn; [by rewrite lookup_delete_ne|..|done|done].
  intros name' p [_ E]%lookup_delete_Some. by apply U.
Qed.

Lemma del_users_ok a names n : acl_ok a → acl_ok (del_users a names n).1 ∧ heap (del_users a names n).1 = heap a.
Proof.
  revert a n. induction names as [|name names IH]; intros a n Ha; cbn [del_users]; [done|]. pose proof (DelUser_ok a name Ha) as [H1 H2].
  destruct (DelUser a name) as [a1 ok]. cbn [fst] in *. destruct (IH a1 (if ok then n + 1 else n) H1) as [H3 H4]. by rewrite H4.
Qed.

Lemma addLog_ok a now reason user details : acl_ok a → acl_ok (addLog a now reason user details).
Proof.
  intros [D U H L]. unfold addLog. split; cbn [users heap log]; [done|done|done|]. destruct (Nat.ltb_spec logSize (length (log a ++ [MkLog now reason user [] details]))); [|lia].
  rewrite length_drop, length_app in *. unfold logSize in *. cbn [length] in *. lia.
Qed.

Lemma Authenticate_ok a now name pw a' r : acl_ok a → Authenticate a now name pw = (a', r) →
  acl_ok a' ∧ heap a' = heap a ∧ ∀ p, r = Some p → ∃ u, GetUser a name = Some (p, u) ∧ Enabled u = true ∧ CheckPassword u pw = true.
Proof.
  intros Ha. unfold Authenticate. destruct (GetUser a name) as [[p u]|]; [|intros [= <- <-]; split; [by apply addLog_ok|done]].
  destruct (Enabled u) eqn:E1; cbn [negb]; [|intros [= <- <-]; split; [by apply addLog_ok|done]].
  destruct (CheckPassword u pw) eqn:E2; cbn [negb]; intros [= <- <-]; [|split; [by apply addLog_ok|done]].
  split; [done|]. split; [done|]. intros p' [= <-]. by exists u.
Qed.

(** ** Lines from connections *)

Section lines.
Context (RequirePass : bytes) (help : Reply).

Lemma GetUser_bound a name p u : GetUser a name = Some (p, u) → (p < length (heap a))%nat.
Proof.
  unfold GetUser. destruct (users a !! name) as [q|]; [|done]. cbn. destruct (heap a !! q) eqn:E; [|done]. intros [= <- _]. by eapply lookup_lt_Some.
Qed.

Lemma Auth_ok a now c args : acl_ok a → conn_ok a c →
  let '(a', c', _) := Auth RequirePass a now c args in acl_ok a' ∧ conn_ok a' c' ∧ heap a' = heap a.
Proof.
  intros Ha Hc. unfold Auth. destruct args as [|x [|y [|z args]]]; [done| | |done].
  - destruct (no_password RequirePass); [done|]. destruct (negb _); [done|]. destruct (GetUser a (str "default")) as [[p u]|] eqn:E; [|done].
    split; [done|]. split; [|done]. intros q [= <-]. by eapply GetUser_bound.
  - destruct (Authenticate a now x y) as [a' r] eqn:E. apply Authenticate_ok in E as (H1 & H2 & H3); [|done]. destruct r as [p|].
    + split; [done|]. split; [|done]. intros q [= <-]. destruct (H3 p eq_refl) as (u & Hu & _). rewrite H2. by eapply GetUser_bound.
    + split; [done|]. split; [|done]. intros q Hq. rewrite H2. by apply Hc.
Qed.

Lemma hello_user args c : c_user (hello_opts RequirePass args c).1 = c_user c.
Proof.
  assert (H : ∀ n args c, (length args <= n)%nat → c_user (hello_opts RequirePass args c).1 = c_user c); [|by eapply H].
  intros n. induction n as [|n IH]; intros [|o l] c' Hn; cbn in Hn; try lia; try done. cbn [hello_opts].
  destruct (is_str (ToUpper o) "AUTH").
  - destruct l as [|x [|y l]]; [done..|]. cbn in Hn. destruct (_ && _); [destruct (negb _); [done|]; rewrite IH by lia; done|]. destruct (negb _); [done|]. apply IH. lia.
  - destruct (is_str (ToUpper o) "SETNAME"); [|done]. destruct l as [|x l]; [done|]. cbn in Hn. apply IH. lia.
Qed.
Lemma execHello_user c args : c_user (execHello RequirePass c args).1 = c_user c.
Proof. unfold execHello. destruct args as [|v args]; [done|]. destruct (ParseInt v); [|done]. destruct (_ || _); [apply hello_user|done]. Qed.

Lemma execACL_ok a c args : acl_ok a → acl_ok (execACL help a c args).1 ∧ (length (heap a) <= length (heap (execACL help a c args).1))%nat.
Proof.
  intros Ha. unfold execACL. destruct args as [|w args]; [done|].
  destruct (is_str (ToLower w) "setuser").
  { unfold execACLSetUser. destruct args as [|name rules]; [done|]. pose proof (SetUser_ok a name rules Ha) as H. by destruct (SetUser a name rules). }
  destruct (is_str _ _); [done|]. destruct (is_str (ToLower w) "deluser").
  { unfold execACLDelUser. destruct args as [|name names]; [done|]. pose proof (del_users_ok a (name :: names) 0 Ha) as [H1 H2].
    destruct (del_users a (name :: names) 0). cbn [fst] in *. by rewrite H2. }
  repeat (destruct (is_str _ _); [done|]). done.
Qed.

Lemma gate_ok a now c line : acl_ok a → conn_ok a c →
  let '(a', c', _) := gate RequirePass help a now c line in acl_ok a' ∧ conn_ok a' c' ∧ (length (heap a) <= length (heap a'))%nat.
Proof.
  intros Ha Hc. unfold gate. destruct line as [|w args]; [done|]. destruct (is_str _ _).
  { pose proof (execHello_user c args) as H. destruct (execHello RequirePass c args) as [c' r]. cbn [fst] in H. split; [done|]. split; [|done].
    intros p Hp. apply Hc. congruence. }
  destruct (is_str _ _); [done|]. destruct (is_str _ _).
  { pose proof (Auth_ok a now c args Ha Hc) as H. destruct (Auth RequirePass a now c args) as [[a' c'] r]. destruct H as (H1 & H2 & H3). by rewrite H3. }
  destruct (negb _); [done|]. destruct (is_str _ _).
  { pose proof (execACL_ok a c args Ha) as [H1 H2]. destruct (execACL help a c args) as [a' r]. cbn [fst] in *. split; [done|]. split; [|done].
    intros p Hp. specialize (Hc p Hp). lia. }
  destruct (effective_user a c); [|done]. by destruct (_ && _).
Qed.

(** Lines in the order in which the server takes them, each with its connection
    and the time; a new connection has no password and no user. *)
Fixpoint lines (a : ACL) (cs : gmap nat conn) (l : list (nat * Z * list bytes)) : ACL * gmap nat conn :=
  match l with
  | [] => (a, cs)
  | (i, now, line) :: l =>
      let '(a, c, _) := gate RequirePass help a now (default (MkConn [] None) (cs !! i)) line in
      lines a (<[i := c]> cs) l
  end.

Lemma lines_ok a cs l : acl_ok a → (∀ i c, cs !! i = Some c → conn_ok a c) →
  acl_ok (lines a cs l).1 ∧ ∀ i c, (lines a cs l).2 !! i = Some c → conn_ok (lines a cs l).1 c.
Proof.
  revert a cs. induction l as [|[[i now] line] l IH]; intros a cs Ha Hcs; cbn [lines]; [done|].
  assert (Hc : conn_ok a (default (MkConn [] None) (cs !! i))) by (destruct (cs !! i) eqn:E; [by eapply Hcs|by intros p]).
  pose proof (gate_ok a now _ line Ha Hc) as H. destruct (gate _ _ _ _ _ _) as [[a' c'] v]. destruct H as (H1 & H2 & H3).
  apply IH; [done|]. intros j c [[<- <-]|[_ E]]%lookup_insert_Some; [done|]. intros p Hp. specialize (Hcs j c E p Hp). lia.
Qed.
Lemma reachable_ok l : acl_ok (lines NewACL ∅ l).1 ∧ ∀ i c, (lines NewACL ∅ l).2 !! i = Some c → conn_ok (lines NewACL ∅ l).1 c.
Proof. apply lines_ok; [apply new_acl_ok|intros i c E; by rewrite lookup_empty in E]. Qed.

(** C27: Whatever lines any connections send, the registry of users stays well formed: the default user cannot be lost, every name leads to
    a user of that name whose patterns, hashes and commands the rules can express, the log has at most 128 entries, and the
    users that connections are logged in as exist, deleted or not. *)
Theorem acl_stays_consistent l :
  let '(a, cs) := lines NewACL ∅ l in acl_ok a ∧ ∀ i c, cs !! i = Some c → conn_ok a c.
Proof.
  pose proof (reachable_ok l) as H. by destruct (lines NewACL ∅ l).
Qed.

(** C28: The rules by which ACL LIST and ACL GETUSER describe a user are understood by ACL SETUSER, and on a new user make one that is equal
    in every respect, in any state that lines from connections lead to. *)
Theorem acl_rules_round_trip l name p u :
  GetUser (lines NewACL ∅ l).1 name = Some (p, u) → ApplyRules (NewUser name) (DescribeRules u) = (u, None).
Proof.
  destruct (reachable_ok l) as [[_ U H _] _]. unfold GetUser. destruct (users _ !! name) as [q|] eqn:Eq; [|done]. cbn.
  destruct (U name q Eq) as (v & Hv & <-). rewrite Hv. cbn. intros [= <- <-]. apply describe_round_trip. by eapply Forall_lookup_1.
Qed.
End lines.
End acl.

(** ** Concrete runs *)

#[local] Existing Instance ex_runtime.
(** A hash that is no hash, patterns that match themselves, maps in the order of
    their representation. *)
#[local] Instance plain_lib : AclLib := {|
  sha256hex := λ s, ascii_lower <$> s; regexp_Compile := λ r, Some (λ s, bytes_eqb r (str "^" ++ s ++ str "$"));
  random_hex := λ _, []; scan_int := ParseInt; hashes_order := elements; users_order := map_to_list |}.

Lemma ascii_lower_idem c : ascii_lower (ascii_lower c) = ascii_lower c.
Proof. by destruct c as [[] [] [] [] [] [] [] []]. Qed.
Lemma ascii_lower_at c : ascii_lower c = "@"%char → c = "@"%char.
Proof. by destruct c as [[] [] [] [] [] [] [] []]; vm_compute. Qed.

#[local] Instance plain_laws : AclLaws ex_runtime plain_lib.
Proof.
  assert (Hi : ∀ s, map ascii_lower (map ascii_lower s) = map ascii_lower s).
  { intros s. rewrite map_map. apply map_ext, ascii_lower_idem. }
  split; [exact Hi| |exact Hi|done]. intros [|c s]; [done|]. intros [= H]. cbn. by rewrite (ascii_lower_at c H).
Qed.

Definition line (l : list string) : list bytes := str <$> l.
Definition make_bob : nat * Z * list bytes := (0%nat, 1, line ["acl"; "setuser"; "bob"; "on"; ">Pw"; "~app:1"; "+get"; "-SET"]%string).

Lemma acl_stays_consistent_witness :
  let '(a, cs) := lines [] OkReply NewACL ∅ [make_bob] in acl_ok a ∧ ∀ i c, cs !! i = Some c → conn_ok a c.
Proof. apply (acl_stays_consistent [] OkReply [make_bob]). Defined.

Lemma acl_rules_round_trip_witness :
  ∃ p u, GetUser (lines [] OkReply NewACL ∅ [make_bob]).1 (str "bob") = Some (p, u) ∧ ApplyRules (NewUser (str "bob")) (DescribeRules u) = (u, None).
Proof.
  destruct (GetUser (lines [] OkReply NewACL ∅ [make_bob]).1 (str "bob")) as [[p u]|] eqn:E.
  - exists p, u. split; [done|]. by apply (acl_rules_round_trip [] OkReply [make_bob] (str "bob") p u).
  - vm_compute in E. discriminate E.
Defined.

(** The verdicts on the lines. *)
Fixpoint verdicts (RequirePass : bytes) (a : ACL) (cs : gmap nat conn) (l : list (nat * list string)) : list verdict :=
  match l with
  | [] => []
  | (i, words) :: l =>
      let '(a, c, v) := gate RequirePass OkReply a 1 (default (MkConn [] None) (cs !! i)) (line words) in
      v :: verdicts RequirePass a (<[i := c]> cs) l
  end.
Definition trial (RequirePass : string) (l : list (nat * list string)) : list verdict := verdicts (str RequirePass) NewACL ∅ l.
Definition refused (user cmd : string) : verdict :=
  Answered (StandardErrReply (str "NOPERM User " ++ str user ++ str " has no permissions to run the '" ++ str cmd ++ str "' command")).
Definition ok : verdict := Answered OkReply.
Definition no_pass : string := String.EmptyString.

(** The ACL command itself is not checked: a user gives itself every permission. *)
Lemma users_promote_themselves :
  trial no_pass [(0, ["ACL"; "SETUSER"; "bob"; "on"; "nopass"; "+get"]%string); (1, ["AUTH"; "bob"; "x"]%string); (1, ["FLUSHALL"]%string);
                 (1, ["ACL"; "SETUSER"; "bob"; "+@all"]%string); (1, ["FLUSHALL"]%string)]%nat
  = [ok; ok; refused "bob" "flushall"; ok; Passed].
Proof. vm_compute. reflexivity. Qed.

(** The check does not look at keys: it does not depend on the patterns. *)
Lemma patterns_are_not_checked :
  trial no_pass [(0, ["ACL"; "SETUSER"; "bob"; "on"; "nopass"; "+get"; "~app"]%string); (1, ["AUTH"; "bob"; "x"]%string); (1, ["GET"; "secret"]%string)]%nat
  = [ok; ok; Passed] ∧
  CanAccessKey (ApplyRules (NewUser (str "bob")) (line ["on"; "nopass"; "+get"; "~app"]%string)).1 (str "secret") false = false.
Proof. split; vm_compute; reflexivity. Qed.

(** The lookup of categories is never set: their rules do nothing. *)
Lemma category_rules_do_nothing :
  trial no_pass [(0, ["ACL"; "SETUSER"; "bob"; "on"; "nopass"; "+@read"]%string); (1, ["AUTH"; "bob"; "x"]%string); (1, ["GET"; "k"]%string)]%nat
  = [ok; ok; refused "bob" "get"].
Proof. vm_compute. reflexivity. Qed.

(** With a password set, a user with another one is logged in and then refused;
    and a login that fails with that password lets the connection in. *)
Lemma requirepass_and_users :
  trial "root" [(0, ["AUTH"; "root"]%string); (0, ["ACL"; "SETUSER"; "bob"; "on"; ">pw"; "+get"]%string); (1, ["AUTH"; "bob"; "pw"]%string); (1, ["GET"; "k"]%string);
                (2, ["AUTH"; "nobody"; "root"]%string); (2, ["FLUSHALL"]%string)]%nat
  = [ok; ok; ok; Answered (StandardErrReply (str "NOAUTH Authentication required")); Answered (StandardErrReply wrongpass); Passed].
Proof. vm_compute. reflexivity. Qed.

(** HELLO with AUTH accepts any name and password and leaves the default user. *)
Lemma hello_does_not_authenticate :
  trial no_pass [(0, ["ACL"; "SETUSER"; "bob"; "on"; ">pw"; "+get"]%string); (1, ["HELLO"; "3"; "AUTH"; "bob"; "wrong"]%string); (1, ["FLUSHALL"]%string)]%nat
  = [ok; Passed; Passed].
Proof. vm_compute. reflexivity. Qed.

(** A wrong rule: those before it stay, and the user exists. *)
Lemma wrong_rule_keeps_the_others :
  (ApplyRules (NewUser (str "eve")) (line ["on"; "+@all"; "bad"; "off"]%string)).2 = Some (str "ERR Error in ACL SETUSER modifier 'bad'") ∧
  CanRunCommand (ApplyRules (NewUser (str "eve")) (line ["on"; "+@all"; "bad"; "off"]%string)).1 (str "flushall") = true.
Proof. split; vm_compute; reflexivity. Qed.

(** ** The log under a shared lock *)

(** [Authenticate] holds the lock for reading only, so that failing logins of
    two goroutines interleave their accesses to the slice of the log: each
    loads it, stores it with its entry, loads it again and cuts off the first
    entry of what it loaded. *)
Inductive log_access := Load | StoreEntry (e : LogEntry) | StoreCut.
Definition add_log_steps (e : LogEntry) : list log_access := [Load; StoreEntry e; Load; StoreCut].

(** The shared slice and what the two goroutines have loaded. *)
Definition log_state : Type := list LogEntry * (bool → list LogEntry).
Definition log_step (s : log_state) (a : bool * log_access) : log_state :=
  let '(shared, loaded) := s in
  match a.2 with
  | Load => (shared, λ g, if Bool.eqb g a.1 then shared else loaded g)
  | StoreEntry e => (loaded a.1 ++ [e], loaded)
  | StoreCut => (if (logSize <? length (loaded a.1))%nat then drop 1 (loaded a.1) else shared, loaded)
  end.
Definition log_run (l : list LogEntry) (as_ : list (bool * log_access)) : list LogEntry := (foldl log_step (l, λ _, []) as_).1.

(** Alone, a goroutine does what [addLog] does. *)
Lemma log_run_alone a now reason user details :
  log_run (log a) (pair true <$> add_log_steps (MkLog now reason user [] details)) = log (addLog a now reason user details).
Proof. unfold log_run, addLog. cbn -[logSize]. by case_match. Qed.

(** Two failing logins on a full log: it can be left with 129 entries, and an
    entry can be lost; both goroutines have done their steps in order. *)
Lemma failing_logins_race (l : list LogEntry) e1 e2 :
  length l = 128%nat →
  length (log_run l [(true, Load); (true, StoreEntry e1); (false, Load); (false, StoreEntry e2);
                     (true, Load); (false, Load); (true, StoreCut); (false, StoreCut)]) = 129%nat ∧
  log_run l [(true, Load); (false, Load); (true, StoreEntry e1); (false, StoreEntry e2);
             (true, Load); (true, StoreCut); (false, Load); (false, StoreCut)] = drop 1 (l ++ [e2]).
Proof.
  intros Hl. unfold log_run, log_step. cbn -[logSize length drop app]. rewrite !length_app, Hl. cbn -[drop app]. split.
  - rewrite length_drop, !length_app, Hl. done.
  - rewrite length_drop, length_app, Hl. done.
Qed.
