(* ===== verification/PubSub.v ===== *)
(** * Publish and subscribe: [internal/pubsub]

    The hub has a table for channels, one for patterns and one for shard
    channels, each from names to lists of connections; a connection has the sets
    of its channels and patterns, and what has been written to it.  Connections
    are numbers.  The order in which a map is traversed is a choice of the
    runtime; patterns are compiled as in [Acl.v].

    An operation holds the locks of its names ([Lock.v]) from its first to its
    last step, so that operations are steps here. *)

From stdpp Require Import base gmap list strings.
From Stdlib Require Import ZArith Lia Ascii.
From S2P Require Import Prelude Strconv Resp Runtime Acl.

Local Open Scope Z_scope.

Abbreviation table := (gmap bytes (list nat)).

(** The part of [Connection] that the hub uses. *)
Record pconn := MkPConn { subs : gset bytes; pSubs : gset bytes; written : list bytes }.

(** [Hub], with the connections. *)
Record Hub := MkHub { hsubs : table; patterns : table; shardSubs : table; conns : gmap nat pconn }.
Definition MakeHub : Hub := MkHub ∅ ∅ ∅ ∅.

Definition conn_of (h : Hub) (c : nat) : pconn := default (MkPConn ∅ ∅ []) (conns h !! c).
Definition set_conn (h : Hub) (c : nat) (x : pconn) : Hub := MkHub (hsubs h) (patterns h) (shardSubs h) (<[c := x]> (conns h)).
Definition set_hsubs (h : Hub) t : Hub := MkHub t (patterns h) (shardSubs h) (conns h).
Definition set_patterns (h : Hub) t : Hub := MkHub (hsubs h) t (shardSubs h) (conns h).
Definition set_shardSubs (h : Hub) t : Hub := MkHub (hsubs h) (patterns h) t (conns h).

(** ** Connections, [conn.go] *)

Definition Subscribe_c (x : pconn) (channel : bytes) : pconn := MkPConn ({[channel]} ∪ subs x) (pSubs x) (written x).
Definition UnSubscribe_c (x : pconn) (channel : bytes) : pconn := MkPConn (subs x ∖ {[channel]}) (pSubs x) (written x).
Definition PSubscribe_c (x : pconn) (pattern : bytes) : pconn := MkPConn (subs x) ({[pattern]} ∪ pSubs x) (written x).
Definition PUnSubscribe_c (x : pconn) (pattern : bytes) : pconn := MkPConn (subs x) (pSubs x ∖ {[pattern]}) (written x).
Definition SubsCount (x : pconn) : Z := Z.of_nat (size (subs x)).
Definition PatternCount (x : pconn) : Z := Z.of_nat (size (pSubs x)).
Definition Write_c (x : pconn) (b : bytes) : pconn := MkPConn (subs x) (pSubs x) (written x ++ [b]).
Definition on_conn (h : Hub) (c : nat) (f : pconn → pconn) : Hub := set_conn h c (f (conn_of h c)).

(** ** Tables *)

(** A connection added to the list of a name, unless it is there. *)
Definition table_add (t : table) (name : bytes) (c : nat) : table * bool :=
  let subscribers := default [] (t !! name) in
  if bool_decide (c ∈ subscribers) then (<[name := subscribers]> t, false)
  else (<[name := subscribers ++ [c]]> t, true).

(** All its occurrences removed; a list without elements goes. *)
Definition table_remove (t : table) (name : bytes) (c : nat) : table * bool :=
  match t !! name with
  | None => (t, false)
  | Some l =>
      let l := filter (λ a, a ≠ c) l in
      (if (length l =? 0)%nat then delete name t else <[name := l]> t, true)
  end.

(** [makeMsg], [makePMsg] and [makeSMsg] *)
Definition makeMsg (t channel : bytes) (code : Z) : bytes :=
  str "*3" ++ CRLF ++ str "$" ++ Itoa (Z.of_nat (length t)) ++ CRLF ++ t ++ CRLF
  ++ str "$" ++ Itoa (Z.of_nat (length channel)) ++ CRLF ++ channel ++ CRLF ++ str ":" ++ Itoa code ++ CRLF.

Definition LF : bytes := [Zbyte 10].
Definition unSubscribeNothing : bytes := str "*3" ++ CRLF ++ str "$11" ++ CRLF ++ str "unsubscribe" ++ CRLF ++ str "$-1" ++ LF ++ str ":0" ++ CRLF.
Definition punsubscribeNothing : bytes := str "*3" ++ CRLF ++ str "$11" ++ CRLF ++ str "punsubscribe" ++ CRLF ++ str "$-1" ++ LF ++ str ":0" ++ CRLF.
Definition sunsubscribeNothing : bytes := str "*3" ++ CRLF ++ str "$12" ++ CRLF ++ str "sunsubscribe" ++ CRLF ++ str "$-1" ++ LF ++ str ":0" ++ CRLF.

(** The order in which the maps of the hub and of a connection are traversed. *)
Class Orders := { table_order : table → list (bytes * list nat); set_order : gset bytes → list bytes }.

Section pubsub.
Context {rt : Runtime} {lib : AclLib} {ord : Orders}.

(** ** Channels, [pubsub.go] *)

Definition subscribe0 (h : Hub) (channel : bytes) (c : nat) : Hub * bool :=
  let h := on_conn h c (λ x, Subscribe_c x channel) in
  let '(t, new) := table_add (hsubs h) channel c in (set_hsubs h t, new).
Definition unsubscribe0 (h : Hub) (channel : bytes) (c : nat) : Hub * bool :=
  let h := on_conn h c (λ x, UnSubscribe_c x channel) in
  let '(t, was) := table_remove (hsubs h) channel c in (set_hsubs h t, was).

(** A loop over names: the step, and the message when it says so. *)
Fixpoint each_name (step : Hub → bytes → Hub * bool) (msg : pconn → bytes → bytes) (c : nat) (h : Hub) (names : list bytes) : Hub :=
  match names with
  | [] => h
  | n :: names =>
      let '(h, b) := step h n in
      each_name step msg c (if b : bool then on_conn h c (λ x, Write_c x (msg x n)) else h) names
  end.
Fixpoint each_silent (step : Hub → bytes → Hub * bool) (h : Hub) (names : list bytes) : Hub :=
  match names with [] => h | n :: names => each_silent step (step h n).1 names end.

Definition Subscribe (h : Hub) (c : nat) (args : list bytes) : Hub :=
  each_name (λ h n, subscribe0 h n c) (λ x n, makeMsg (str "subscribe") n (SubsCount x)) c h args.

Definition GetChannels (x : pconn) : list bytes := set_order (subs x).
Definition GetPatterns (x : pconn) : list bytes := set_order (pSubs x).

Definition UnSubscribe (h : Hub) (c : nat) (args : list bytes) : Hub :=
  let channels := match args with [] => GetChannels (conn_of h c) | _ => args end in
  match channels with
  | [] => on_conn h c (λ x, Write_c x unSubscribeNothing)
  | _ => each_name (λ h n, unsubscribe0 h n c) (λ x n, makeMsg (str "unsubscribe") n (SubsCount x)) c h channels
  end.

(** ** Patterns, [pattern.go] *)

Definition psubscribe0 (h : Hub) (pattern : bytes) (c : nat) : Hub * bool :=
  let h := on_conn h c (λ x, PSubscribe_c x pattern) in
  let '(t, new) := table_add (patterns h) pattern c in (set_patterns h t, new).
Definition punsubscribe0 (h : Hub) (pattern : bytes) (c : nat) : Hub * bool :=
  let h := on_conn h c (λ x, PUnSubscribe_c x pattern) in
  let '(t, was) := table_remove (patterns h) pattern c in (set_patterns h t, was).

Definition both_counts (x : pconn) : Z := SubsCount x + PatternCount x.
Definition PSubscribe (h : Hub) (c : nat) (args : list bytes) : Hub :=
  each_name (λ h n, psubscribe0 h n c) (λ x n, makeMsg (str "psubscribe") n (both_counts x)) c h args.
Definition PUnsubscribe (h : Hub) (c : nat) (args : list bytes) : Hub :=
  let ps := match args with [] => GetPatterns (conn_of h c) | _ => args end in
  match ps with
  | [] => on_conn h c (λ x, Write_c x punsubscribeNothing)
  | _ => each_name (λ h n, punsubscribe0 h n c) (λ x n, makeMsg (str "punsubscribe") n (both_counts x)) c h ps
  end.
Definition PUnsubscribeAll (h : Hub) (c : nat) : Hub := each_silent (λ h n, punsubscribe0 h n c) h (GetPatterns (conn_of h c)).
Definition UnsubscribeAll (h : Hub) (c : nat) : Hub :=
  PUnsubscribeAll (each_silent (λ h n, unsubscribe0 h n c) h (GetChannels (conn_of h c))) c.

(** ** Publishing *)

(** A message to each connection of a list. *)
Definition write_all (h : Hub) (l : list nat) (b : bytes) : Hub := foldl (λ h c, on_conn h c (λ x, Write_c x b)) h l.
Definition multi (l : list bytes) : bytes := multibulk_bytes (Some <$> l).

Fixpoint publish_patterns (h : Hub) (l : list (bytes * list nat)) (channel message : bytes) (count : Z) : Hub * Z :=
  match l with
  | [] => (h, count)
  | (pattern, subscribers) :: l =>
      if matches pattern channel
      then publish_patterns (write_all h subscribers (multi [str "pmessage"; pattern; channel; message])) l channel message
             (count + Z.of_nat (length subscribers))
      else publish_patterns h l channel message count
  end.
Definition publishToPatterns (h : Hub) (channel message : bytes) : Hub * Z :=
  publish_patterns h (table_order (patterns h)) channel message 0.

Definition publish_table (h : Hub) (t : table) (kind : string) (channel message : bytes) : Hub * Z :=
  match t !! channel with
  | Some l => (write_all h l (multi [str kind; channel; message]), Z.of_nat (length l))
  | None => (h, 0)
  end.

Definition Publish (h : Hub) (args : list bytes) : Hub * Reply :=
  match args with
  | [channel; message] =>
      let '(h, n) := publish_table h (hsubs h) "message" channel message in
      let '(h, m) := publishToPatterns h channel message in
      (h, IntReply (n + m))
  | _ => (h, ArgNumErrReply (str "publish"))
  end.

(** ** Shard channels, [shard.go] *)

(** The channels of a connection are shared with those of [pubsub.go]. *)
Definition ssubscribe0 (h : Hub) (channel : bytes) (c : nat) : Hub * bool :=
  let h := on_conn h c (λ x, Subscribe_c x channel) in
  let '(t, new) := table_add (shardSubs h) channel c in (set_shardSubs h t, new).
Definition sunsubscribe0 (h : Hub) (channel : bytes) (c : nat) : Hub * bool :=
  let h := on_conn h c (λ x, UnSubscribe_c x channel) in
  let '(t, was) := table_remove (shardSubs h) channel c in (set_shardSubs h t, was).

Definition getShardChannels (h : Hub) (c : nat) : list bytes :=
  (filter (λ kv, c ∈ kv.2) (table_order (shardSubs h))).*1.
Definition SSubscribe (h : Hub) (c : nat) (args : list bytes) : Hub :=
  each_name (λ h n, ssubscribe0 h n c) (λ x n, makeMsg (str "ssubscribe") n (SubsCount x)) c h args.
Definition SUnsubscribeAll (h : Hub) (c : nat) : Hub := each_silent (λ h n, sunsubscribe0 h n c) h (getShardChannels h c).
Definition SUnsubscribe (h : Hub) (c : nat) (args : list bytes) : Hub :=
  let channels := match args with [] => getShardChannels h c | _ => args end in
  match channels with
  | [] => on_conn h c (λ x, Write_c x sunsubscribeNothing)
  | _ => each_name (λ h n, sunsubscribe0 h n c) (λ x n, makeMsg (str "sunsubscribe") n (SubsCount x)) c h channels
  end.
Definition SPublish (h : Hub) (args : list bytes) : Hub * Reply :=
  match args with
  | [channel; message] =>
      let '(h, n) := publish_table h (shardSubs h) "smessage" channel message in (h, IntReply n)
  | _ => (h, ArgNumErrReply (str "spublish"))
  end.

(** [AfterClientClose] of the server. *)
Definition client_closed (h : Hub) (c : nat) : Hub := SUnsubscribeAll (UnsubscribeAll h c) c.

(** ** PUBSUB *)

Definition channels_reply (t : table) (args : list bytes) : Reply :=
  let names := (table_order t).*1 in
  match args with
  | [] => MultiBulkReply (Some <$> names)
  | p :: _ =>
      match CompilePattern p with
      | None => StandardErrReply (str "invalid pattern")
      | Some m => MultiBulkReply (Some <$> filter (λ n, m n = true) names)
      end
  end.
Definition numsub_reply (t : table) (args : list bytes) : Reply :=
  MultiBulkReply (args ≫= λ n, [Some n; Some match t !! n with Some l => Itoa (Z.of_nat (length l)) | None => str "0" end]).
Definition pubSubChannels (h : Hub) := channels_reply (hsubs h).
Definition pubSubNumSub (h : Hub) := numsub_reply (hsubs h).
Definition pubSubNumPat (h : Hub) : Reply := IntReply (Z.of_nat (size (patterns h))).
Definition pubSubShardChannels (h : Hub) := channels_reply (shardSubs h).
Definition pubSubShardNumSub (h : Hub) := numsub_reply (shardSubs h).

Definition PubSub (h : Hub) (args : list bytes) : Reply :=
  match args with
  | [] => StandardErrReply (str "wrong number of arguments for 'pubsub' command")
  | sub :: args =>
      if is_str sub "channels" then pubSubChannels h args
      else if is_str sub "numsub" then pubSubNumSub h args
      else if is_str sub "numpat" then pubSubNumPat h
      else if is_str sub "shardchannels" then pubSubShardChannels h args
      else if is_str sub "shardnumsub" then pubSubShardNumSub h args
      else StandardErrReply (str "unknown subcommand '" ++ sub ++ str "'. Try CHANNELS, NUMSUB, NUMPAT.")
  end.
End pubsub.
