(* ===== verification/PubSubThm.v ===== *)
(** * What publish and subscribe guarantee

    The tables of the hub and the sets of the connections tell the same story,
    and a message reaches each subscriber once.  Runs show what happens when
    channels and shard channels share a name, and the replies that no client can
    read. *)

From stdpp Require Import base gmap list strings.
From Stdlib Require Import ZArith Lia Ascii.
From S2P Require Import Prelude Strconv Resp Runtime RespParser Acl PubSub.

Local Open Scope Z_scope.

(** ** Tables *)

(** The lists are those of the connections whose set has the name, without
    repetition; a name without connections has no list. *)
Definition table_rel (t : table) (V : nat → gset bytes) : Prop :=
  (∀ n l, t !! n = Some l → l ≠ [] ∧ NoDup l) ∧ ∀ n c, n ∈ V c ↔ c ∈ default [] (t !! n).

Lemma table_rel_ext t V V' : (∀ c, V' c = V c) → table_rel t V → table_rel t V'.
Proof. intros E [H1 H2]. split; [done|]. intros n c. by rewrite E. Qed.

Definition upd (V : nat → gset bytes) (c : nat) (f : gset bytes → gset bytes) (d : nat) : gset bytes := if decide (d = c) then f (V d) else V d.

Lemma table_add_rel t V (n : bytes) c : table_rel t V → table_rel (table_add t n c).1 (upd V c (λ s, {[n]} ∪ s)).
Proof.
  intros [H1 H2]. unfold table_add. set (l := default [] (t !! n)).
  assert (Hnd : NoDup l) by (unfold l; destruct (t !! n) eqn:E; [by apply (H1 n)|apply NoDup_nil_2]).
  case_bool_decide as Hc; cbn [fst]; split.
  - intros n' l' [[<- <-]|[_ E]]%lookup_insert_Some; [|by eapply H1]. split; [by intros E; rewrite E in Hc; apply not_elem_of_nil in Hc|done].
  - intros n' d. unfold upd. destruct (decide (n' = n)) as [->|Hne].
    + rewrite lookup_insert_eq. cbn. case_decide as Hd; [subst d; split; [done|set_solver]|apply H2].
    + rewrite lookup_insert_ne by done. case_decide as Hd; [rewrite <- H2; set_solver|apply H2].
  - intros n' l' [[<- <-]|[_ E]]%lookup_insert_Some; [|by eapply H1]. split; [by destruct l|]. apply NoDup_app. split; [done|]. split; [|apply NoDup_singleton].
    intros x Hx ->%list_elem_of_singleton. done.
  - intros n' d. unfold upd. destruct (decide (n' = n)) as [->|Hne].
    + rewrite lookup_insert_eq. cbn. rewrite elem_of_app, list_elem_of_singleton. case_decide as Hd; [set_solver|]. fold l in H2. rewrite H2. fold l. naive_solver.
    + rewrite lookup_insert_ne by done. case_decide as Hd; [rewrite <- H2; set_solver|apply H2].
Qed.

Lemma table_remove_rel t V (n : bytes) c : table_rel t V → table_rel (table_remove t n c).1 (upd V c (λ s, s ∖ {[n]})).
Proof.
  intros [H1 H2]. unfold table_remove. destruct (t !! n) as [l|] eqn:E.
  - destruct (H1 n l E) as [_ Hnd]. destruct (Nat.eqb_spec (length (filter (λ a, a ≠ c) l)) 0) as [Hz|Hz]; cbn [fst]; split.
    + intros n' l' [_ E']%lookup_delete_Some. by eapply H1.
    + apply nil_length_inv in Hz. intros n' d. unfold upd. destruct (decide (n' = n)) as [->|Hne].
      * rewrite lookup_delete_eq. cbn. case_decide as Hd; [set_solver|]. split; [|set_solver]. rewrite H2, E. cbn. intros Hin. rewrite <- Hz. by apply list_elem_of_filter.
      * rewrite lookup_delete_ne by done. case_decide as Hd; [rewrite <- H2; set_solver|apply H2].
    + intros n' l' [[<- <-]|[_ E']]%lookup_insert_Some; [|by eapply H1]. split; [by intros E'; rewrite E' in Hz|]. by apply NoDup_filter.
    + intros n' d. unfold upd. destruct (decide (n' = n)) as [->|Hne].
      * rewrite lookup_insert_eq. cbn. rewrite list_elem_of_filter. case_decide as Hd; [set_solver|]. rewrite H2, E. cbn. naive_solver.
      * rewrite lookup_insert_ne by done. case_decide as Hd; [rewrite <- H2; set_solver|apply H2].
  - cbn [fst]. split; [done|]. intros n' d. unfold upd. case_decide as Hd; [|apply H2]. destruct (decide (n' = n)) as [->|Hne].
    + rewrite E. cbn. set_solver.
    + rewrite <- H2. set_solver.
Qed.

(** ** The hub *)

(** A connection has one set for its channels and its shard channels.  The
    clients tell them apart by their names: [shard] says which are names of
    shard channels. *)
Section hub.
Context (shard : bytes → bool).

Definition vis (s : gset bytes) : gset bytes := filter (λ n, shard n = false) s.
Lemma vis_add n s : shard n = false → vis ({[n]} ∪ s) = {[n]} ∪ vis s.
Proof. intros Hn. unfold vis. set_unfold. naive_solver. Qed.
Lemma vis_add_shard n s : shard n = true → vis ({[n]} ∪ s) = vis s.
Proof. intros Hn. unfold vis. set_unfold. intros x. split; [intros [? [->|?]]; [congruence|done]|naive_solver]. Qed.
Lemma vis_remove n s : vis (s ∖ {[n]}) = vis s ∖ {[n]}.
Proof. unfold vis. set_unfold. naive_solver. Qed.
Lemma vis_remove_shard n s : shard n = true → vis (s ∖ {[n]}) = vis s.
Proof. intros Hn. unfold vis. set_unfold. intros x. split; [naive_solver|]. intros [Hx ?]. split; [done|]. split; [done|]. intros ->. congruence. Qed.

Definition chans_of (h : Hub) (c : nat) : gset bytes := vis (subs (conn_of h c)).
Definition pats_of (h : Hub) (c : nat) : gset bytes := pSubs (conn_of h c).

Record hub_ok (h : Hub) : Prop := {
  ok_chans_t : table_rel (hsubs h) (chans_of h);
  ok_pats_t : table_rel (patterns h) (pats_of h);
  ok_shards : ∀ n, is_Some (shardSubs h !! n) → shard n = true
}.

(** What a step does to the sets: those of one connection change. *)
Definition does (h h' : Hub) (c : nat) (f g : gset bytes → gset bytes) : Prop :=
  hub_ok h' ∧ (∀ d, chans_of h' d = upd (chans_of h) c f d) ∧ (∀ d, pats_of h' d = upd (pats_of h) c g d).

Lemma conn_of_on h c f d : conn_of (on_conn h c f) d = if decide (d = c) then f (conn_of h c) else conn_of h d.
Proof.
  unfold on_conn, conn_of, set_conn. cbn [conns]. case_decide as Hd; [subst; by rewrite lookup_insert_eq|by rewrite lookup_insert_ne].
Qed.

Lemma upd_same V c : ∀ d, upd V c id d = V d.
Proof. intros d. unfold upd. by case_decide. Qed.

Lemma does_write h c (b : pconn → bytes) : hub_ok h → does h (on_conn h c (λ x, Write_c x (b x))) c id id.
Proof.
  intros [H1 H2 H3]. assert (E1 : ∀ d, chans_of (on_conn h c (λ x, Write_c x (b x))) d = chans_of h d) by (intros d; unfold chans_of; rewrite conn_of_on; case_decide; [by subst|done]).
  assert (E2 : ∀ d, pats_of (on_conn h c (λ x, Write_c x (b x))) d = pats_of h d) by (intros d; unfold pats_of; rewrite conn_of_on; case_decide; [by subst|done]).
  split; [split; [by eapply table_rel_ext|by eapply table_rel_ext|done]|]. split; intros d; by rewrite upd_same.
Qed.

Lemma does_id h c f g : hub_ok h → (∀ s, f s = s) → (∀ s, g s = s) → does h h c f g.
Proof. intros H Hf Hg. split; [done|]. split; intros d; unfold upd; case_decide; by rewrite ?Hf, ?Hg. Qed.

Lemma does_trans h h1 h2 c f1 g1 f2 g2 : does h h1 c f1 g1 → does h1 h2 c f2 g2 → does h h2 c (f2 ∘ f1) (g2 ∘ g1).
Proof.
  intros (_ & C1 & P1) (H2 & C2 & P2). split; [done|].
  split; intros d; [rewrite C2|rewrite P2]; unfold upd; destruct (decide (d = c)) as [->|Hd]; rewrite ?C1, ?P1; unfold upd; try (by rewrite decide_True by done); by rewrite decide_False by done.
Qed.

Lemma does_ext h h' c f g f' g' : (∀ s, f' s = f s) → (∀ s, g' s = g s) → does h h' c f g → does h h' c f' g'.
Proof. intros Hf Hg (H & C & P). split; [done|]. split; intros d; rewrite ?C, ?P; unfold upd; case_decide; by rewrite ?Hf, ?Hg. Qed.

(** A set of one connection changes, and its table with it. *)
Lemma step_chans h c f t (fc : pconn → pconn) : hub_ok h → (∀ x, vis (subs (fc x)) = f (vis (subs x))) → (∀ x, pSubs (fc x) = pSubs x) →
  table_rel t (upd (chans_of h) c f) → does h (set_hsubs (on_conn h c fc) t) c f id.
Proof.
  intros [H1 H2 H3] Hs Hp Ht.
  assert (E1 : ∀ d, chans_of (set_hsubs (on_conn h c fc) t) d = upd (chans_of h) c f d).
  { intros d. unfold chans_of at 1. change (conn_of (set_hsubs ?x t) d) with (conn_of x d). rewrite conn_of_on. unfold upd. case_decide; [subst; apply Hs|done]. }
  assert (E2 : ∀ d, pats_of (set_hsubs (on_conn h c fc) t) d = pats_of h d).
  { intros d. unfold pats_of at 1. change (conn_of (set_hsubs ?x t) d) with (conn_of x d). rewrite conn_of_on. case_decide; [by subst|done]. }
  split; [split; cbn; [by eapply table_rel_ext|by eapply table_rel_ext|done]|]. split; intros d; rewrite ?E1, ?E2, ?upd_same; done.
Qed.
Lemma step_pats h c g t (fc : pconn → pconn) : hub_ok h → (∀ x, subs (fc x) = subs x) → (∀ x, pSubs (fc x) = g (pSubs x)) →
  table_rel t (upd (pats_of h) c g) → does h (set_patterns (on_conn h c fc) t) c id g.
Proof.
  intros [H1 H2 H3] Hs Hp Ht.
  assert (E1 : ∀ d, chans_of (set_patterns (on_conn h c fc) t) d = chans_of h d).
  { intros d. unfold chans_of. change (conn_of (set_patterns ?x t) d) with (conn_of x d). rewrite conn_of_on. case_decide; [subst; by rewrite Hs|done]. }
  assert (E2 : ∀ d, pats_of (set_patterns (on_conn h c fc) t) d = upd (pats_of h) c g d).
  { intros d. unfold pats_of at 1. change (conn_of (set_patterns ?x t) d) with (conn_of x d). rewrite conn_of_on. unfold upd. case_decide; [by subst|done]. }
  split; [split; cbn; [by eapply table_rel_ext|by eapply table_rel_ext|done]|]. split; intros d; rewrite ?E1, ?E2, ?upd_same; done.
Qed.

Lemma step_shard h c t (fc : pconn → pconn) : hub_ok h → (∀ x, vis (subs (fc x)) = vis (subs x)) → (∀ x, pSubs (fc x) = pSubs x) →
  (∀ n, is_Some (t !! n) → shard n = true) → does h (set_shardSubs (on_conn h c fc) t) c id id.
Proof.
  intros [H1 H2 H3] Hs Hp Ht.
  assert (E1 : ∀ d, chans_of (set_shardSubs (on_conn h c fc) t) d = chans_of h d).
  { intros d. unfold chans_of. change (conn_of (set_shardSubs ?x t) d) with (conn_of x d). rewrite conn_of_on. case_decide; [subst; apply Hs|done]. }
  assert (E2 : ∀ d, pats_of (set_shardSubs (on_conn h c fc) t) d = pats_of h d).
  { intros d. unfold pats_of. change (conn_of (set_shardSubs ?x t) d) with (conn_of x d). rewrite conn_of_on. case_decide; [subst; apply Hp|done]. }
  split; [split; cbn; [by eapply table_rel_ext|by eapply table_rel_ext|done]|]. split; intros d; rewrite ?E1, ?E2, ?upd_same; done.
Qed.

(** The six steps on one name. *)
Lemma subscribe0_does h n c : shard n = false → hub_ok h → does h (subscribe0 h n c).1 c (λ s, {[n]} ∪ s) id.
Proof.
  intros Hn H. unfold subscribe0. change (hsubs (on_conn h c _)) with (hsubs h). pose proof (table_add_rel (hsubs h) (chans_of h) n c (ok_chans_t h H)).
  destruct (table_add (hsubs h) n c). apply step_chans; [done| |done|done]. intros x. by apply vis_add.
Qed.
Lemma unsubscribe0_does h n c : hub_ok h → does h (unsubscribe0 h n c).1 c (λ s, s ∖ {[n]}) id.
Proof.
  intros H. unfold unsubscribe0. change (hsubs (on_conn h c _)) with (hsubs h). pose proof (table_remove_rel (hsubs h) (chans_of h) n c (ok_chans_t h H)).
  destruct (table_remove (hsubs h) n c). apply step_chans; [done| |done|done]. intros x. apply vis_remove.
Qed.
Lemma psubscribe0_does h n c : hub_ok h → does h (psubscribe0 h n c).1 c id (λ s, {[n]} ∪ s).
Proof.
  intros H. unfold psubscribe0. change (patterns (on_conn h c _)) with (patterns h). pose proof (table_add_rel (patterns h) (pats_of h) n c (ok_pats_t h H)).
  destruct (table_add (patterns h) n c). by apply step_pats.
Qed.
Lemma punsubscribe0_does h n c : hub_ok h → does h (punsubscribe0 h n c).1 c id (λ s, s ∖ {[n]}).
Proof.
  intros H. unfold punsubscribe0. change (patterns (on_conn h c _)) with (patterns h). pose proof (table_remove_rel (patterns h) (pats_of h) n c (ok_pats_t h H)).
  destruct (table_remove (patterns h) n c). by apply step_pats.
Qed.

Lemma ssubscribe0_does h n c : shard n = true → hub_ok h → does h (ssubscribe0 h n c).1 c id id.
Proof.
  intros Hn H. unfold ssubscribe0. change (shardSubs (on_conn h c _)) with (shardSubs h). destruct (table_add (shardSubs h) n c) as [t b] eqn:E.
  apply step_shard; [done|intros x; by apply vis_add_shard|done|]. intros m Hm. apply (f_equal fst) in E. cbn in E. subst t.
  unfold table_add in Hm. destruct (decide (m = n)) as [->|Hne]; [done|]. apply (ok_shards h H).
  case_bool_decide; cbn [fst] in Hm; by rewrite lookup_insert_ne in Hm.
Qed.
Lemma sunsubscribe0_does h n c : shard n = true → hub_ok h → does h (sunsubscribe0 h n c).1 c id id.
Proof.
  intros Hn H. unfold sunsubscribe0. change (shardSubs (on_conn h c _)) with (shardSubs h). destruct (table_remove (shardSubs h) n c) as [t b] eqn:E.
  apply step_shard; [done|intros x; by apply vis_remove_shard|done|]. intros m Hm. apply (f_equal fst) in E. cbn in E. subst t.
  destruct (decide (m = n)) as [->|Hne]; [done|]. apply (ok_shards h H). unfold table_remove in Hm.
  destruct (shardSubs h !! n); [|done]. case_match; cbn [fst] in Hm; [by rewrite lookup_delete_ne in Hm|by rewrite lookup_insert_ne in Hm].
Qed.

(** Loops over names. *)
Lemma each_silent_does (step : Hub → bytes → Hub * bool) (c : nat) (f g : bytes → gset bytes → gset bytes) (h : Hub) (names : list bytes) : hub_ok h → (∀ h n, n ∈ names → hub_ok h → does h (step h n).1 c (f n) (g n)) →
  does h (each_silent step h names) c (λ s, foldl (λ s n, f n s) s names) (λ s, foldl (λ s n, g n s) s names).
Proof.
  intros Hh Hs. revert h Hs Hh. induction names as [|n names IH]; intros h Hs Hh; cbn [each_silent foldl]; [by apply does_id|].
  specialize (Hs h n ltac:(by left) Hh) as Hn. refine (does_trans _ _ _ _ _ _ _ _ Hn (IH _ _ (proj1 Hn))). intros h' n' Hin. apply Hs. by right.
Qed.
Lemma each_name_does (step : Hub → bytes → Hub * bool) (msg : pconn → bytes → bytes) (c : nat) (f g : bytes → gset bytes → gset bytes) (h : Hub) (names : list bytes) : hub_ok h → (∀ h n, n ∈ names → hub_ok h → does h (step h n).1 c (f n) (g n)) →
  does h (each_name step msg c h names) c (λ s, foldl (λ s n, f n s) s names) (λ s, foldl (λ s n, g n s) s names).
Proof.
  intros Hh Hs. revert h Hs Hh. induction names as [|n names IH]; intros h Hs Hh; cbn [each_name foldl]; [by apply does_id|].
  specialize (Hs h n ltac:(by left) Hh) as Hn. assert (Hs' : ∀ h n, n ∈ names → hub_ok h → does h (step h n).1 c (f n) (g n)) by (intros h' n' Hin; apply Hs; by right).
  destruct (step h n) as [h1 b]. cbn [fst] in Hn. destruct b.
  - pose proof (does_write h1 c (λ x, msg x n) (proj1 Hn)) as Hw. exact (does_trans _ _ _ _ _ _ _ _ (does_trans _ _ _ _ _ _ _ _ Hn Hw) (IH _ Hs' (proj1 Hw))).
  - exact (does_trans _ _ _ _ _ _ _ _ Hn (IH _ Hs' (proj1 Hn))).
Qed.

Lemma foldl_union (s : gset bytes) (l : list bytes) : foldl (λ s n, {[n]} ∪ s) s l = s ∪ list_to_set l.
Proof. revert s. induction l as [|n l IH]; intros s; cbn [foldl]; [set_solver|]. rewrite IH. set_solver. Qed.
Lemma foldl_diff (s : gset bytes) (l : list bytes) : foldl (λ s n, s ∖ {[n]}) s l = s ∖ list_to_set l.
Proof. revert s. induction l as [|n l IH]; intros s; cbn [foldl]; [set_solver|]. rewrite IH. set_solver. Qed.
Lemma foldl_id {A B} (s : A) (l : list B) : foldl (λ s _, id s) s l = s.
Proof. by induction l. Qed.

(** ** Operations *)

(** A traversal visits everything once. *)
Class OrderLaws (ord : Orders) : Prop := {
  table_all : ∀ t, table_order t ≡ₚ map_to_list t;
  set_all : ∀ s, set_order s ≡ₚ elements s
}.

Section ops.
Context {rt : Runtime} {lib : AclLib} {ord : Orders} {laws : OrderLaws ord}.

Inductive ps_op :=
| OSubscribe (c : nat) (l : list bytes)
| OUnsubscribe (c : nat) (l : list bytes)
| OPSubscribe (c : nat) (l : list bytes)
| OPUnsubscribe (c : nat) (l : list bytes)
| OSSubscribe (c : nat) (l : list bytes)
| OSUnsubscribe (c : nat) (l : list bytes)
| OLeave (c : nat)
| OClose (c : nat)
| OPublish (channel message : bytes)
| OSPublish (channel message : bytes).

(** Shard channels have names of their own. *)
Definition op_ok (o : ps_op) : Prop :=
  match o with
  | OSubscribe _ l => Forall (λ n, shard n = false) l
  | OSSubscribe _ l | OSUnsubscribe _ l => Forall (λ n, shard n = true) l
  | _ => True
  end.

Definition ps_step (h : Hub) (o : ps_op) : Hub :=
  match o with
  | OSubscribe c l => Subscribe h c l
  | OUnsubscribe c l => UnSubscribe h c l
  | OPSubscribe c l => PSubscribe h c l
  | OPUnsubscribe c l => PUnsubscribe h c l
  | OSSubscribe c l => SSubscribe h c l
  | OSUnsubscribe c l => SUnsubscribe h c l
  | OLeave c => UnsubscribeAll h c
  | OClose c => client_closed h c
  | OPublish channel message => (Publish h [channel; message]).1
  | OSPublish channel message => (SPublish h [channel; message]).1
  end.

(** The channels and patterns that each connection should have: those it asked
    for and has not given up; no names are all names. *)
Definition without (l : list bytes) (s : gset bytes) : gset bytes := match l with [] => ∅ | _ => s ∖ list_to_set l end.
Definition on_sets (c : nat) (f g : gset bytes → gset bytes) (V : nat → gset bytes * gset bytes) (d : nat) : gset bytes * gset bytes :=
  if decide (d = c) then (f (V d).1, g (V d).2) else V d.
Definition spec_step (V : nat → gset bytes * gset bytes) (o : ps_op) : nat → gset bytes * gset bytes :=
  match o with
  | OSubscribe c l => on_sets c (λ s, s ∪ list_to_set l) id V
  | OUnsubscribe c l => on_sets c (without l) id V
  | OPSubscribe c l => on_sets c id (λ s, s ∪ list_to_set l) V
  | OPUnsubscribe c l => on_sets c id (without l) V
  | OLeave c | OClose c => on_sets c (λ _, ∅) (λ _, ∅) V
  | OSSubscribe _ _ | OSUnsubscribe _ _ | OPublish _ _ | OSPublish _ _ => V
  end.

(** The hub is right about the sets. *)
Definition knows (h : Hub) (V : nat → gset bytes * gset bytes) : Prop := hub_ok h ∧ ∀ c, chans_of h c = (V c).1 ∧ pats_of h c = (V c).2.

Lemma knows_does h h' V c f g : knows h V → does h h' c f g → knows h' (on_sets c f g V).
Proof.
  intros [_ HV] (H & C & P). split; [done|]. intros d. rewrite C, P. unfold upd, on_sets. destruct (HV d) as [-> ->]. by case_decide.
Qed.

Lemma all_names (s : gset bytes) : list_to_set (set_order s) = s.
Proof. apply set_eq. intros n. rewrite elem_of_list_to_set, set_all. by rewrite elem_of_elements. Qed.
Lemma no_names (s : gset bytes) : set_order s = [] → s = ∅.
Proof. intros E. rewrite <- (all_names s), E. done. Qed.

(** Leaving channels, with names or without. *)
Lemma leave_loop (step : Hub → bytes → Hub * bool) (msg : pconn → bytes → bytes) (c : nat) (h : Hub) (l : list bytes) (sel : Hub → gset bytes) (nothing : bytes) (which : bool) : hub_ok h →
  (∀ h n, hub_ok h → does h (step h n).1 c (if which then λ s, s ∖ {[n]} else id) (if which then id else λ s, s ∖ {[n]})) →
  (if which then chans_of h c else pats_of h c) ⊆ sel h →
  let names := match l with [] => set_order (sel h) | _ => l end in
  does h (match names with
          | [] => on_conn h c (λ x, Write_c x nothing)
          | _ => each_name step msg c h names
          end) c (if which then without l else id) (if which then id else without l).
Proof.
  intros Hh Hs Hsel names.
  assert (Hd : names ≠ [] → does h (each_name step msg c h names) c (if which then λ s, s ∖ list_to_set names else id) (if which then id else λ s, s ∖ list_to_set names)).
  { intros _. pose proof (each_name_does step msg c (λ n, if which then λ s, s ∖ {[n]} else id) (λ n, if which then id else λ s, s ∖ {[n]}) h names Hh (λ h n _, Hs h n)) as H.
    destruct which; (eapply does_ext; [| |exact H]); intros s; cbv beta iota; first [by rewrite foldl_diff|by rewrite foldl_id]. }
  destruct l as [|n l].
  - subst names. destruct (set_order (sel h)) as [|n0 l0] eqn:E.
    + pose proof (no_names _ E) as E0. destruct (does_write h c (λ _, nothing) Hh) as (H & C & P). split; [done|].
      destruct which; split; intros d; rewrite ?C, ?P; unfold upd, without, id; case_decide; subst; set_solver.
    + rewrite <- E in *. destruct (Hd ltac:(congruence)) as (H & C & P). rewrite E in *. rewrite <- E in *. rewrite (all_names (sel h)) in C, P. split; [done|].
      destruct which; split; intros d; rewrite ?C, ?P; unfold upd, without, id; case_decide; subst; try done; set_solver.
  - specialize (Hd ltac:(discriminate)). subst names. by destruct which.
Qed.

(** ** Messages *)

(** A hub that differs in what has been written only. *)
Definition wrote (h h' : Hub) (W : nat → list bytes) : Prop :=
  hsubs h' = hsubs h ∧ patterns h' = patterns h ∧ shardSubs h' = shardSubs h ∧
  ∀ c, subs (conn_of h' c) = subs (conn_of h c) ∧ pSubs (conn_of h' c) = pSubs (conn_of h c) ∧ written (conn_of h' c) = written (conn_of h c) ++ W c.

Lemma wrote_nothing h : wrote h h (λ _, []).
Proof. do 3 (split; [done|]). intros c. by rewrite app_nil_r. Qed.
Lemma wrote_trans h h1 h2 W1 W2 : wrote h h1 W1 → wrote h1 h2 W2 → wrote h h2 (λ c, W1 c ++ W2 c).
Proof.
  intros (A1 & B1 & C1 & D1) (A2 & B2 & C2 & D2). split; [congruence|]. split; [congruence|]. split; [congruence|]. intros c.
  destruct (D1 c) as (E1 & F1 & G1), (D2 c) as (E2 & F2 & G2). split; [congruence|]. split; [congruence|]. by rewrite G2, G1, app_assoc.
Qed.
Lemma wrote_ext h h' W W' : (∀ c, W' c = W c) → wrote h h' W → wrote h h' W'.
Proof. intros E (A & B & C & D). do 3 (split; [done|]). intros c. by rewrite E. Qed.

Lemma write_all_wrote h l b : NoDup l → wrote h (write_all h l b) (λ c, if bool_decide (c ∈ l) then [b] else []).
Proof.
  intros Hl. revert h. induction Hl as [|x l Hx Hl IH]; intros h.
  { eapply wrote_ext; [|apply wrote_nothing]. intros c. by rewrite bool_decide_eq_false_2 by apply not_elem_of_nil. }
  unfold write_all. cbn [foldl]. assert (H1 : wrote h (on_conn h x (λ y, Write_c y b)) (λ c, if decide (c = x) then [b] else [])).
  { do 3 (split; [done|]). intros c. rewrite conn_of_on. case_decide; [by subst|by rewrite app_nil_r]. }
  eapply wrote_ext; [|exact (wrote_trans _ _ _ _ _ H1 (IH _))]. intros c. cbv beta. destruct (decide (c = x)) as [->|Hne].
  - rewrite (bool_decide_eq_true_2 (x ∈ x :: l)) by (by left). by rewrite bool_decide_eq_false_2.
  - destruct (decide (c ∈ l)); [rewrite !bool_decide_eq_true_2; [done|done|by right]|]. rewrite !bool_decide_eq_false_2; [done|done|]. by intros [?|?]%elem_of_cons.
Qed.

(** What the patterns bring to a connection, and to how many. *)
Definition pattern_messages (channel message : bytes) (l : list (bytes * list nat)) (c : nat) : list bytes :=
  (λ '(p, _), multi [str "pmessage"; p; channel; message]) <$> filter (λ '(p, s), matches p channel = true ∧ c ∈ s) l.
Definition pattern_receivers (channel : bytes) (l : list (bytes * list nat)) : list nat :=
  (filter (λ '(p, _), matches p channel = true) l) ≫= snd.

Lemma publish_patterns_wrote h l channel message n : Forall (λ '(_, s), NoDup s) l →
  wrote h (publish_patterns h l channel message n).1 (pattern_messages channel message l) ∧
  (publish_patterns h l channel message n).2 = n + Z.of_nat (length (pattern_receivers channel l)).
Proof.
  intros Hl. revert h n. induction Hl as [|[p s] l Hs Hl IH]; intros h n; cbn [publish_patterns].
  { split; [apply wrote_nothing|cbn; lia]. }
  unfold pattern_messages, pattern_receivers. destruct (matches p channel) eqn:Em.
  - destruct (IH (write_all h s (multi [str "pmessage"; p; channel; message])) (n + Z.of_nat (length s))) as [H1 H2]. split.
    + eapply wrote_ext; [|exact (wrote_trans _ _ _ _ _ (write_all_wrote h s _ Hs) H1)]. intros c. cbv beta. rewrite filter_cons.
      case_bool_decide as Hc; [rewrite decide_True by done; done|]. rewrite decide_False by (by intros [_ ?]). done.
    + rewrite H2, filter_cons, decide_True by done. cbn. rewrite length_app. unfold pattern_receivers. lia.
  - destruct (IH h n) as [H1 H2]. split.
    + eapply wrote_ext; [|exact H1]. intros c. unfold pattern_messages. rewrite filter_cons, decide_False by (intros [? _]; congruence). done.
    + rewrite H2, filter_cons, decide_False by (by rewrite Em). done.
Qed.

Lemma Publish_wrote h channel message : hub_ok h →
  let l := default [] (hsubs h !! channel) in let o := table_order (patterns h) in
  wrote h (Publish h [channel; message]).1
    (λ c, (if bool_decide (channel ∈ chans_of h c) then [multi [str "message"; channel; message]] else []) ++ pattern_messages channel message o c) ∧
  (Publish h [channel; message]).2 = IntReply (Z.of_nat (length l + length (pattern_receivers channel o))).
Proof.
  intros [[H1 H2] [P1 P2] _] l o. unfold Publish, publish_table, publishToPatterns.
  assert (Ho : Forall (λ '(_, s), NoDup s) o).
  { apply Forall_forall. intros [p s] Hin. unfold o in Hin. rewrite table_all in Hin. apply elem_of_map_to_list in Hin. by apply (P1 p). }
  assert (Hm : ∀ c, bool_decide (channel ∈ chans_of h c) = bool_decide (c ∈ l)) by (intros c; apply bool_decide_ext, H2).
  unfold l in *. destruct (hsubs h !! channel) as [s|] eqn:E.
  - pose proof (write_all_wrote h s (multi [str "message"; channel; message]) (proj2 (H1 _ _ E))) as Hw.
    set (h1 := write_all h s (multi [str "message"; channel; message])) in *. assert (Ep : patterns h1 = patterns h) by apply Hw. rewrite Ep. fold o.
    destruct (publish_patterns_wrote h1 o channel message 0 Ho) as [Hp Hn]. destruct (publish_patterns h1 o channel message 0) as [h2 m]. cbn [fst snd] in *. split.
    + eapply wrote_ext; [|exact (wrote_trans _ _ _ _ _ Hw Hp)]. intros c. cbv beta. by rewrite Hm.
    + f_equal. cbn [from_option id]. lia.
  - fold o. destruct (publish_patterns_wrote h o channel message 0 Ho) as [Hp Hn]. destruct (publish_patterns h o channel message 0) as [h2 m]. cbn [fst snd] in *. split.
    + eapply wrote_ext; [|exact Hp]. intros c. cbv beta. rewrite Hm, bool_decide_eq_false_2 by apply not_elem_of_nil. done.
    + f_equal. cbn [from_option length]. lia.
Qed.

Lemma wrote_knows h h' V W : knows h V → wrote h h' W → knows h' V.
Proof.
  intros [[H1 H2 H3] HV] (A & B & C & D). assert (E1 : ∀ c, chans_of h' c = chans_of h c) by (intros c; unfold chans_of; by rewrite (proj1 (D c))). assert (E2 : ∀ c, pats_of h' c = pats_of h c) by (intros c; apply D).
  split; [split; [rewrite A; by eapply table_rel_ext|rewrite B; by eapply table_rel_ext|by rewrite C]|]. intros c. by rewrite E1, E2.
Qed.

Lemma leave_all h V c : knows h V → knows (UnsubscribeAll h c) (on_sets c (λ _, ∅) (λ _, ∅) V).
Proof.
  intros HK. pose proof HK as [Hh _]. unfold UnsubscribeAll, PUnsubscribeAll, GetChannels, GetPatterns.
  pose proof (each_silent_does (λ h n, unsubscribe0 h n c) c (λ n s, s ∖ {[n]}) (λ _, id) h (set_order (subs (conn_of h c))) Hh (λ h n _ H, unsubscribe0_does h n c H)) as H1.
  set (h1 := each_silent (λ h n, unsubscribe0 h n c) h (set_order (subs (conn_of h c)))) in *.
  pose proof (each_silent_does (λ h n, punsubscribe0 h n c) c (λ _, id) (λ n s, s ∖ {[n]}) h1 (set_order (pSubs (conn_of h1 c))) (proj1 H1) (λ h n _ H, punsubscribe0_does h n c H)) as H2.
  destruct H1 as (O1 & C1 & P1), H2 as (O2 & C2 & P2). split; [done|]. intros d. rewrite C2, P2. unfold upd, on_sets.
  destruct (decide (d = c)) as [->|Hne].
  - rewrite foldl_id, C1. unfold upd. rewrite decide_True by done. rewrite !foldl_diff, !all_names. split; [unfold chans_of, vis; set_solver|unfold pats_of; set_solver].
  - rewrite C1, P1. unfold upd. rewrite !decide_False by done. by destruct HK as [_ HV].
Qed.

(** Loops over shard channels change nothing that is seen here. *)
Lemma knows_still h h' V c : knows h V → does h h' c id id → knows h' V.
Proof.
  intros HK Hd. destruct (knows_does _ _ _ _ _ _ HK Hd) as [H1 H2]. split; [done|]. intros d. destruct (H2 d) as [-> ->]. unfold on_sets. by case_decide.
Qed.
Lemma shard_names h c n : hub_ok h → n ∈ getShardChannels h c → shard n = true.
Proof.
  intros H Hin. apply (ok_shards h H). unfold getShardChannels in Hin. apply list_elem_of_fmap in Hin as ([m l] & -> & Hin).
  apply list_elem_of_filter in Hin as [_ Hin]. rewrite table_all in Hin. apply elem_of_map_to_list in Hin. by exists l.
Qed.
Lemma shard_loop (step : Hub → bytes → Hub * bool) msg c h V names : knows h V →
  (∀ h n, n ∈ names → hub_ok h → does h (step h n).1 c id id) → knows (each_name step msg c h names) V.
Proof.
  intros HK Hs. eapply knows_still; [done|]. eapply does_ext; [| |apply (each_name_does step msg c (λ _, id) (λ _, id) h names (proj1 HK) Hs)];
    intros s; cbv beta; by rewrite foldl_id.
Qed.
Lemma SUnsubscribe_knows h V c l : knows h V → Forall (λ n, shard n = true) l → knows (SUnsubscribe h c l) V.
Proof.
  intros HK Hl. unfold SUnsubscribe. set (names := match l with [] => getShardChannels h c | _ => l end).
  assert (Hn : ∀ n, n ∈ names → shard n = true).
  { subst names. destruct l; [intros n; by apply shard_names, HK|]. by apply Forall_forall. }
  assert (Hd : knows (each_name (λ h n, sunsubscribe0 h n c) (λ x n, makeMsg (str "sunsubscribe") n (SubsCount x)) c h names) V).
  { apply shard_loop; [done|]. intros h' n Hin. apply sunsubscribe0_does. by apply Hn. }
  destruct names; [|done]. eapply knows_still; [done|]. apply (does_write h c (λ _, sunsubscribeNothing)), HK.
Qed.
Lemma SUnsubscribeAll_knows h V c : knows h V → knows (SUnsubscribeAll h c) V.
Proof.
  intros HK. unfold SUnsubscribeAll. eapply knows_still; [done|].
  eapply does_ext; [| |apply (each_silent_does _ c (λ _, id) (λ _, id) h _ (proj1 HK)); intros h' n Hin; apply sunsubscribe0_does; by eapply shard_names; [apply HK|exact Hin]];
    intros s; cbv beta; by rewrite foldl_id.
Qed.
Lemma write_list_wrote h l b : ∃ W, wrote h (write_all h l b) W.
Proof.
  revert h. induction l as [|x l IH]; intros h; [exists (λ _, []); apply wrote_nothing|]. unfold write_all. cbn [foldl].
  assert (H1 : wrote h (on_conn h x (λ y, Write_c y b)) (λ c, if decide (c = x) then [b] else [])).
  { do 3 (split; [done|]). intros c. rewrite conn_of_on. case_decide; [by subst|by rewrite app_nil_r]. }
  destruct (IH (on_conn h x (λ y, Write_c y b))) as [W H2]. eexists. exact (wrote_trans _ _ _ _ _ H1 H2).
Qed.

Lemma ps_step_knows h V o : op_ok o → knows h V → knows (ps_step h o) (spec_step V o).
Proof.
  intros Ho HK. pose proof HK as [Hh _]. destruct o as [c l|c l|c l|c l|c l|c l|c|c|channel message|channel message]; cbn [ps_step spec_step op_ok] in *.
  - eapply knows_does; [done|]. eapply does_ext; [| |apply (each_name_does _ _ c (λ n s, {[n]} ∪ s) (λ _, id) h l Hh)];
      [intros s; cbv beta; by rewrite foldl_union|intros s; cbv beta; by rewrite foldl_id|].
    intros h' n Hin. apply subscribe0_does. by rewrite Forall_forall in Ho; apply Ho.
  - eapply knows_does; [done|]. refine (leave_loop (λ h n, unsubscribe0 h n c) (λ x n, makeMsg (str "unsubscribe") n (SubsCount x)) c h l (λ h, subs (conn_of h c)) unSubscribeNothing true Hh (λ h n H, unsubscribe0_does h n c H) _).
    unfold chans_of, vis. set_solver.
  - eapply knows_does; [done|]. eapply does_ext; [| |apply (each_name_does _ _ c (λ _, id) (λ n s, {[n]} ∪ s) h l Hh); intros; by apply psubscribe0_does]; intros s; cbv beta; first [by rewrite foldl_union|by rewrite foldl_id].
  - eapply knows_does; [done|]. exact (leave_loop (λ h n, punsubscribe0 h n c) (λ x n, makeMsg (str "punsubscribe") n (both_counts x)) c h l (λ h, pSubs (conn_of h c)) punsubscribeNothing false Hh (λ h n H, punsubscribe0_does h n c H) (reflexivity _)).
  - apply shard_loop; [done|]. intros h' n Hin. apply ssubscribe0_does. by rewrite Forall_forall in Ho; apply Ho.
  - by apply SUnsubscribe_knows.
  - by apply leave_all.
  - unfold client_closed. by apply SUnsubscribeAll_knows, leave_all.
  - eapply wrote_knows; [done|]. by apply Publish_wrote.
  - unfold SPublish, publish_table. destruct (shardSubs h !! channel) as [l|]; [|done]. cbn [fst].
    destruct (write_list_wrote h l (multi [str "smessage"; channel; message])) as [W HW]. by eapply wrote_knows.
Qed.

Lemma run_knows ops : Forall op_ok ops → knows (foldl ps_step MakeHub ops) (foldl spec_step (λ _, (∅, ∅)) ops).
Proof.
  assert (H : Forall op_ok ops → ∀ h V, knows h V → knows (foldl ps_step h ops) (foldl spec_step V ops)).
  { induction 1 as [|o ops Ho _ IH]; intros h V HK; [done|]. cbn [foldl]. by apply IH, ps_step_knows. }
  intros Hops. apply (H Hops). split; [|intros c; unfold chans_of, vis, pats_of, conn_of; cbn [MakeHub conns]; rewrite lookup_empty; cbn; set_solver].
  split; cbn [MakeHub hsubs patterns shardSubs]; [..|intros n [? E]; by rewrite lookup_empty in E]; (split; [intros n l E; by rewrite lookup_empty in E|]); intros n c; rewrite lookup_empty; unfold chans_of, vis, pats_of, conn_of; cbn [MakeHub conns]; rewrite lookup_empty; cbn; set_solver.
Qed.

(** C26: After any operations of any connections, one after another, in which shard channels have names that channels do not have, a
    message that is published reaches every connection once for its subscription to the channel, if it has one, and once for each of
    its patterns that match, and no other connection; a connection has the subscriptions that it asked for and has not given up, by a
    command or by closing; and the reply is the number of messages.  The patterns are traversed at one moment, while the source
    holds no lock that keeps them from changing meanwhile. *)
Theorem publish_reaches_subscribers ops channel message :
  Forall op_ok ops →
  let h := foldl ps_step MakeHub ops in
  let V := foldl spec_step (λ _, (∅, ∅)) ops in
  ∃ h' receivers, Publish h [channel; message] = (h', IntReply (Z.of_nat (length receivers))) ∧
    ∀ c, ∃ ms, written (conn_of h' c) = written (conn_of h c) ++ ms ∧ length ms = length (filter (λ d, d = c) receivers) ∧
      ms = (if bool_decide (channel ∈ (V c).1) then [multi [str "message"; channel; message]] else [])
           ++ ((λ p, multi [str "pmessage"; p; channel; message])
               <$> filter (λ p, matches p channel = true ∧ p ∈ (V c).2) (table_order (patterns h)).*1).
Proof.
  intros Hops h V. destruct (run_knows ops Hops) as [Hok HV]. fold h V in Hok, HV. destruct (Publish_wrote h channel message Hok) as [(_ & _ & _ & Hw) Hr].
  set (o := table_order (patterns h)) in *. destruct (Publish h [channel; message]) as [h' r]. cbn [fst snd] in *. subst r.
  exists h', (default [] (hsubs h !! channel) ++ pattern_receivers channel o). rewrite length_app. split; [done|]. intros c. eexists. split; [apply Hw|].
  destruct Hok as [[H1 H2] [P1 P2] _]. destruct (HV c) as [Ec Ep]. rewrite Ec.
  assert (Hin : ∀ p s, (p, s) ∈ o → (p ∈ (V c).2 ↔ c ∈ s) ∧ NoDup s).
  { intros p s Hin. unfold o in Hin. rewrite table_all in Hin. apply elem_of_map_to_list in Hin. split; [|by apply (P1 p)]. rewrite <- Ep, P2, Hin. done. }
  assert (Hone : ∀ s, NoDup s → length (filter (λ d, d = c) s) = if bool_decide (c ∈ s) then 1%nat else 0%nat).
  { induction 1 as [|x s Hx Hs IH]; [by rewrite bool_decide_eq_false_2 by apply not_elem_of_nil|]. rewrite filter_cons. destruct (decide (x = c)) as [->|Hd]; cbn [length]; rewrite ?IH.
    - rewrite (bool_decide_eq_false_2 (c ∈ s)) by done. by rewrite bool_decide_eq_true_2 by (by left).
    - destruct (decide (c ∈ s)); [rewrite !bool_decide_eq_true_2; [done|by right|done]|]. rewrite !bool_decide_eq_false_2; [done|by intros [?|?]%elem_of_cons|done]. }
  split.
  - rewrite filter_app, !length_app. f_equal.
    + rewrite Hone by (destruct (hsubs h !! channel) eqn:E; [by apply (H1 channel)|apply NoDup_nil_2]). rewrite <- (bool_decide_ext _ _ (H2 channel c)), Ec. by case_bool_decide.
    + unfold pattern_messages, pattern_receivers. rewrite length_fmap. clear -Hin Hone. induction o as [|[p s] o IH]; [done|]. rewrite !filter_cons.
      destruct (Hin p s ltac:(by left)) as [_ Hs]. destruct (decide (matches p channel = true)) as [Em|Em].
      * cbn [mbind list_bind]. rewrite filter_app, length_app, <- IH by (intros; apply Hin; by right). rewrite Hone by done.
        case_bool_decide; [by rewrite decide_True|]. by rewrite decide_False by (by intros [_ ?]).
      * rewrite decide_False by (by intros [? _]). apply IH. intros; apply Hin; by right.
  - f_equal. unfold pattern_messages. clear -Hin. induction o as [|[p s] o IH]; [done|]. cbn [fmap list_fmap]. rewrite !filter_cons. cbn [fst].
    destruct (Hin p s ltac:(by left)) as [Hiff _]. specialize (IH ltac:(intros; apply Hin; by right)). destruct (decide (matches p channel = true ∧ p ∈ (V c).2)) as [Hd|Hd].
    + rewrite decide_True by naive_solver. rewrite !fmap_cons. f_equal. exact IH.
    + rewrite decide_False by naive_solver. exact IH.
Qed.
End ops.
End hub.

(** ** Concrete runs *)

#[local] Existing Instance ex_runtime.
(** Maps in the order of their representation; a pattern matches what it spells. *)
#[local] Instance map_order : Orders := {| table_order := map_to_list; set_order := elements |}.
#[local] Instance map_order_laws : OrderLaws map_order.
Proof. by split. Qed.
#[local] Instance spelled : AclLib := {|
  sha256hex := id; regexp_Compile := λ r, Some (λ s, bytes_eqb r (str "^" ++ s ++ str "$"));
  random_hex := λ _, []; scan_int := ParseInt; hashes_order := elements; users_order := map_to_list |}.

(** Names of shard channels start with [#]. *)
Definition hash_names (n : bytes) : bool := match n with c :: _ => byteZ c =? 35 | [] => false end.
Definition some_ops : list ps_op :=
  [OSubscribe 1 [str "news"; str "a"]; OSSubscribe 1 [str "#s"]; OSubscribe 2 [str "news"]; OPSubscribe 1 [str "news"]; OUnsubscribe 1 [str "a"];
   OSUnsubscribe 1 []; OSubscribe 3 [str "news"]; OClose 3; OLeave 2; OSubscribe 2 [str "news"]].

(** Connection 1 gets the message twice, 2 once and 3, which is closed, not. *)
Lemma publish_reaches_subscribers_witness :
  ∃ h' (receivers : list nat), Publish (foldl ps_step MakeHub some_ops) [str "news"; str "hi"] = (h', IntReply (Z.of_nat (length receivers))) ∧
    (λ c, drop (length (written (conn_of (foldl ps_step MakeHub some_ops) c))) (written (conn_of h' c))) <$> [1; 2; 3]%nat =
    [[multi [str "message"; str "news"; str "hi"]; multi [str "pmessage"; str "news"; str "news"; str "hi"]]; [multi [str "message"; str "news"; str "hi"]]; []].
Proof.
  destruct (publish_reaches_subscribers hash_names some_ops (str "news") (str "hi")) as (h' & receivers & E & H); [by repeat constructor|].
  exists h', receivers. split; [exact E|]. cbn [fmap list_fmap].
  assert (Hd : ∀ c ms, written (conn_of h' c) = written (conn_of (foldl ps_step MakeHub some_ops) c) ++ ms →
    drop (length (written (conn_of (foldl ps_step MakeHub some_ops) c))) (written (conn_of h' c)) = ms) by (intros c ms ->; apply drop_app_length).
  destruct (H 1%nat) as (m1 & E1 & _ & M1), (H 2%nat) as (m2 & E2 & _ & M2), (H 3%nat) as (m3 & E3 & _ & M3).
  rewrite (Hd _ _ E1), (Hd _ _ E2), (Hd _ _ E3), M1, M2, M3. vm_compute. reflexivity.
Defined.

(** Channels and shard channels share the set of the connection: giving up the
    one of a name forgets the other, and a closed connection stays subscribed. *)
Lemma closed_connection_stays_subscribed :
  hsubs (client_closed (SUnsubscribe (SSubscribe (Subscribe MakeHub 1 [str "a"]) 1 [str "a"]) 1 [str "a"]) 1) !! str "a" = Some [1%nat].
Proof. vm_compute. reflexivity. Qed.

(** Leaving everything, as RESET does, keeps the shard channels. *)
Lemma leaving_keeps_shard_channels : shardSubs (UnsubscribeAll (SSubscribe MakeHub 1 [str "a"]) 1) !! str "a" = Some [1%nat].
Proof. vm_compute. reflexivity. Qed.

(** The replies to leaving nothing lack a carriage return, and one has a wrong
    length: no client reads them. *)
Lemma nothing_replies_are_unreadable :
  Forall (λ b, match ParseBytes 1000 1000 b with Got (inr _) => False | _ => True end) [unSubscribeNothing; punsubscribeNothing; sunsubscribeNothing].
Proof. repeat (apply Forall_cons; split; [by vm_compute|]). by apply Forall_nil. Qed.

(** A second SUBSCRIBE to a channel is not answered. *)
Lemma second_subscribe_is_silent :
  written (conn_of (Subscribe (Subscribe MakeHub 1 [str "a"]) 1 [str "a"]) 1) = [makeMsg (str "subscribe") (str "a") 1].
Proof. vm_compute. reflexivity. Qed.
