(* ===== verification/Rdb.v ===== *)
(** * The RDB codec: [internal/persist/rdb]

    [primitives.go], [encoder.go], [decoder.go], [listpack.go] and [rdb.go].  A
    writer is the bytes it has written and its checksum, a reader the bytes that
    are left and its checksum.  The sink of the writer may refuse bytes, which
    ends the encoding; a reader ends with an error or an entry.  The checksum
    function and the printer of scores are arguments. *)

From stdpp Require Import base gmap list strings.
From Stdlib Require Import ZArith Lia Ascii.
From S2P Require Import Prelude Binary Strconv Runtime Stream.

Local Open Scope Z_scope.

(** ** Constants *)

Definition opAux : Z := 0xFA.
Definition opResizeDB : Z := 0xFB.
Definition opExpireMS : Z := 0xFC.
Definition opExpireSec : Z := 0xFD.
Definition opSelectDB : Z := 0xFE.
Definition opEOF : Z := 0xFF.
Definition opIdle : Z := 0xF8.
Definition opFreq : Z := 0xF9.

Definition typeString : Z := 0.
Definition typeList : Z := 1.
Definition typeSet : Z := 2.
Definition typeZSet : Z := 3.
Definition typeHash : Z := 4.
Definition typeStream : Z := 200.
Definition typeZSet2 : Z := 5.
Definition typeSetIntset : Z := 11.
Definition typeHashListpack : Z := 16.
Definition typeZSetListpack : Z := 17.
Definition typeListQuicklist2 : Z := 18.
Definition typeSetListpack : Z := 20.

Definition len6Bit : Z := 0.
Definition len14Bit : Z := 1.
Definition lenSpecial : Z := 3.
Definition len32 : Z := 0x80.
Definition len64 : Z := 0x81.

Definition encInt8 : Z := 0.
Definition encInt16 : Z := 1.
Definition encInt32 : Z := 2.
Definition encLZF : Z := 3.

Definition Version : Z := 12.

(** ** Entries *)

Record ZSetMember := MkZM { zmember : bytes; zscore : Z }.

Record StreamEntry := MkSE { seID : StreamID; seFields : list (bytes * bytes) }.
Record StreamPendingEntry := MkSPE { spID : StreamID; spConsumer : bytes; spTime : Z; spCount : Z }.
Record StreamConsumerData := MkSC { scName : bytes; scActive : Z; scPending : list StreamID }.
Record StreamGroupData := MkSG { sgName : bytes; sgLast : StreamID; sgRead : Z; sgPending : list StreamPendingEntry; sgConsumers : list StreamConsumerData }.
Record StreamData := MkSD { sdLast : StreamID; sdMaxDel : StreamID; sdAdded : Z; sdEntries : list StreamEntry; sdGroups : list StreamGroupData }.

(** The one field of an entry that is filled. *)
Inductive entry_val :=
| StringVal (b : bytes)
| ListVal (l : list bytes)
| SetVal (l : list bytes)
| HashVal (h : gmap bytes bytes)
| ZSetVal (l : list ZSetMember)
| StreamVal (s : StreamData).

Record Entry := MkEnt { DBIndex : Z; Key : bytes; Type_ : Z; ExpireMS : Z; Val : entry_val }.

(** The calls of an error in the decoder. *)
Inductive rdb_err :=
| ErrEOF | ErrLength (b : Z) | ErrLZF | ErrSpecial (n : Z) | ErrScore (b : bytes) | ErrOdd (n : nat)
| ErrListpack | ErrIntset | ErrContainer (n : Z) | ErrType (t : Z) | ErrMagic | ErrVersion | ErrCRC.

Section rdb.
Context {rt : Runtime}.
Context (crc64Update : Z → bytes → Z) (FormatFloatG : Z → bytes).

(** ** The writer *)

Record writer := MkWriter { written : bytes; wcrc : Z }.

Section writer.
Context (io_Write : bytes → bytes → bool).

(** [None]: the sink has refused, after the bytes written so far, the next. *)
Definition W : Type := writer → option writer.

(** One write after the other, up to the first error. *)
Definition all (ws : list W) : W := λ w, foldl (λ o f, o ≫= f) (Some w) ws.
Definition nothing : W := Some.

Definition writeBytes (b : bytes) : W := λ w,
  if io_Write (written w) b then Some (MkWriter (written w ++ b) (crc64Update (wcrc w) b)) else None.
Definition writeByte (b : Z) : W := writeBytes [Zbyte b].

Definition writeLen (n : Z) : W :=
  if n <? 2 ^ 6 then writeByte (Z.lor (Z.shiftl len6Bit 6) n)
  else if n <? 2 ^ 14 then writeBytes [Zbyte (Z.lor (Z.shiftl len14Bit 6) (Z.shiftr n 8)); Zbyte n]
  else if n <=? 0xFFFFFFFF then writeBytes (Zbyte len32 :: be_bytes 4 n)
  else writeBytes (Zbyte len64 :: be_bytes 8 n).

Definition writeIntString (v : Z) : W :=
  if (- 2 ^ 7 <=? v) && (v <? 2 ^ 7) then writeBytes [Zbyte (Z.lor (Z.shiftl lenSpecial 6) encInt8); Zbyte v]
  else if (- 2 ^ 15 <=? v) && (v <? 2 ^ 15) then writeBytes (Zbyte (Z.lor (Z.shiftl lenSpecial 6) encInt16) :: le_bytes 2 v)
  else writeBytes (Zbyte (Z.lor (Z.shiftl lenSpecial 6) encInt32) :: le_bytes 4 v).

Definition tryParseInt (s : bytes) : option Z :=
  if (length s =? 0)%nat || (11 <? length s)%nat then None else
  match ParseInt s with
  | None => None
  | Some v =>
      if (v <? - 2 ^ 31) || (2 ^ 31 <=? v) then None
      else if negb (bytes_eqb (Itoa v) s) then None
      else Some v
  end.

Definition writeRawString (s : bytes) : W := all [writeLen (Z.of_nat (length s)); writeBytes s].

Definition writeString (s : bytes) : W :=
  match tryParseInt s with
  | Some iv => writeIntString iv
  | None => writeRawString s
  end.

Definition formatScore (f : Z) : bytes := FormatFloatG f.

(** ** The encoder *)

Definition WriteHeader : W := writeBytes (str "REDIS0011").
Definition WriteAux (key val : bytes) : W := all [writeByte opAux; writeString key; writeString val].
Definition WriteSelectDB (db : Z) : W := all [writeByte opSelectDB; writeLen (db mod 2 ^ 64)].
Definition WriteResizeDB (dbSize expiresSize : Z) : W := all [writeByte opResizeDB; writeLen dbSize; writeLen expiresSize].

Definition writeExpire (expireMS : Z) : W :=
  if expireMS =? 0 then nothing else all [writeByte opExpireMS; writeBytes (le_bytes 8 expireMS)].

(** What the entries have in common. *)
Definition entry_head (type_ : Z) (key : bytes) (expireMS : Z) : list W := [writeExpire expireMS; writeByte type_; writeString key].

Definition WriteStringEntry (key val : bytes) (expireMS : Z) : W := all (entry_head typeString key expireMS ++ [writeString val]).

Definition write_vector (vals : list bytes) : list W := writeLen (Z.of_nat (length vals)) :: (writeString <$> vals).
Definition WriteListEntry (key : bytes) (vals : list bytes) (expireMS : Z) : W := all (entry_head typeList key expireMS ++ write_vector vals).
Definition WriteSetEntry (key : bytes) (members : list bytes) (expireMS : Z) : W := all (entry_head typeSet key expireMS ++ write_vector members).

Definition write_pair (p : bytes * bytes) : list W := [writeString p.1; writeString p.2].

(** [hash] in the order in which the map is traversed. *)
Definition WriteHashEntry (key : bytes) (hash : list (bytes * bytes)) (expireMS : Z) : W :=
  all (entry_head typeHash key expireMS ++ writeLen (Z.of_nat (length hash)) :: (hash ≫= write_pair)).

Definition write_member (m : ZSetMember) : list W := [writeString (zmember m); writeRawString (formatScore (zscore m))].
Definition WriteZSetEntry (key : bytes) (members : list ZSetMember) (expireMS : Z) : W :=
  all (entry_head typeZSet key expireMS ++ writeLen (Z.of_nat (length members)) :: (members ≫= write_member)).

Definition write_id (id : StreamID) : list W := [writeLen (Ms id); writeLen (Seq id)].

Definition write_entry (e : Stream.Entry) : list W :=
  write_id (Stream.ID e) ++ writeLen (Z.of_nat (length (Fields e))) :: (Fields e ≫= write_pair).

(** [uint64] of an int64. *)
Definition as_u64 (z : Z) : Z := z mod 2 ^ 64.

(** The maps of a stream in the orders in which they are traversed. *)
Record group_order := MkGO { o_name : bytes; o_group : Group; o_pending : list (StreamID * peref); o_consumers : list (bytes * Consumer * list StreamID) }.

Definition write_pending (g : Group) (p : StreamID * peref) : list W :=
  let pe := pending_entry g p.2 in
  write_id p.1 ++ [writeString (PConsumer pe); writeLen (as_u64 (DeliveryTime pe)); writeLen (DeliveryCount pe)].

Definition write_consumer (c : bytes * Consumer * list StreamID) : list W :=
  let '(name, c, ids) := c in
  [writeString name; writeLen (as_u64 (ActiveTime c)); writeLen (Z.of_nat (length ids))] ++ (ids ≫= write_id).

Definition write_group (o : group_order) : list W :=
  let g := o_group o in
  writeString (o_name o) :: write_id (lastDelivered g) ++ writeLen (entriesRead g) ::
  writeLen (Z.of_nat (length (o_pending o))) :: (o_pending o ≫= write_pending g) ++
  writeLen (Z.of_nat (length (o_consumers o))) :: (o_consumers o ≫= write_consumer).

Definition WriteStreamEntry (key : bytes) (s : Stream) (orders : list group_order) (expireMS : Z) : W :=
  let entries := Stream.Range s (MkID 0 0) (MkID maxMs maxSeq) (-1) in
  all (entry_head typeStream key expireMS ++
       write_id (lastID s) ++ write_id (maxDeletedID s) ++ writeLen (entriesAdded s) ::
       writeLen (Z.of_nat (length entries)) :: (entries ≫= write_entry) ++
       writeLen (Z.of_nat (length orders)) :: (orders ≫= write_group)).

(** The checksum itself does not enter the checksum. *)
Definition WriteEnd : W := λ w,
  w ← writeByte opEOF w;
  let b := le_bytes 8 (wcrc w) in
  if io_Write (written w) b then Some (MkWriter (written w ++ b) (wcrc w)) else None.
End writer.

(** ** The reader *)

Record reader := MkReader { rest : bytes; rcrc : Z }.

Definition R (A : Type) : Type := reader → res (rdb_err + A * reader).

#[local] Instance R_ret : MRet R := λ A a r, Ret (inr (a, r)).
#[local] Instance R_bind : MBind R := λ A B k m r,
  match m r with
  | Ret (inr (a, r')) => k a r'
  | Ret (inl e) => Ret (inl e)
  | Panic => Panic
  | OutOfFuel => OutOfFuel
  end.
Definition fail {A} (e : rdb_err) : R A := λ _, Ret (inl e).

Definition readByte : R Z := λ r,
  match rest r with
  | [] => Ret (inl ErrEOF)
  | b :: l => Ret (inr (byteZ b, MkReader l (crc64Update (rcrc r) [b])))
  end.

(** [make] refuses a negative length and one that is too large. *)
Definition readFull (n : Z) : R bytes := λ r,
  if (n <? 0) || (max_make <? n) then Panic else
  if (length (rest r) <? Z.to_nat n)%nat then Ret (inl ErrEOF) else
  let buf := take (Z.to_nat n) (rest r) in
  Ret (inr (buf, MkReader (drop (Z.to_nat n) (rest r)) (crc64Update (rcrc r) buf))).

(** The number and whether it is a special form. *)
Definition readLen : R (Z * bool) :=
  first ← readByte;
  let tag := Z.shiftr first 6 in
  if tag =? len6Bit then mret (Z.land first 0x3F, false)
  else if tag =? len14Bit then
    second ← readByte;
    mret (Z.lor (Z.shiftl (Z.land first 0x3F) 8) second, false)
  else if tag =? lenSpecial then mret (Z.land first 0x3F, true)
  else if first =? len32 then b ← readFull 4; mret (of_be b, false)
  else if first =? len64 then b ← readFull 8; mret (of_be b, false)
  else fail (ErrLength first).

(** [n, _, err := readLen()] *)
Definition readNum : R Z := '(n, _) ← readLen; mret n.

Definition readString : R bytes :=
  '(n, special) ← readLen;
  if negb special then readFull (wrap64 n)
  else if n =? encInt8 then b ← readFull 1; mret (Itoa (signed 1 (of_le b)))
  else if n =? encInt16 then b ← readFull 2; mret (Itoa (signed 2 (of_le b)))
  else if n =? encInt32 then b ← readFull 4; mret (Itoa (signed 4 (of_le b)))
  else if n =? encLZF then fail ErrLZF
  else fail (ErrSpecial n).

(** A slice of [n] elements of [size] bytes. *)
Definition make_slice (size n : Z) : R unit := λ r, if max_make <? n * size then Panic else Ret (inr (tt, r)).

(** A loop with [n] rounds: each reads something, so that there are no more of
    them than bytes. *)
Fixpoint rounds {A} (fuel : nat) (n : Z) (body : A → R A) (a : A) : R A :=
  if n <=? 0 then mret a else
  match fuel with
  | 0%nat => λ _, OutOfFuel
  | S fuel => a ← body a; rounds fuel (n - 1) body a
  end.
Definition loop {A} (n : Z) (body : A → R A) (a : A) : R A := λ r, rounds (S (length (rest r))) n body a r.

(** A loop that fills a slice. *)
Definition read_list {A} (size : Z) (item : R A) : R (list A) :=
  n ← readNum;
  make_slice size n;;
  loop n (λ l, x ← item; mret (l ++ [x])) [].

(** ** Blobs *)

Definition at_ (blob : bytes) (i : Z) : res Z :=
  if i <? 0 then Panic else b ← must (blob !! Z.to_nat i); Ret (byteZ b).
Definition slice (blob : bytes) (i j : Z) : res bytes :=
  if (i <? 0) || (j <? i) || (Z.of_nat (length blob) <? j) then Panic else Ret (take (Z.to_nat (j - i)) (drop (Z.to_nat i) blob)).

Definition backlenSize (entryLen : Z) : Z :=
  if entryLen <=? 127 then 1
  else if entryLen <? 16384 then 2
  else if entryLen <? 2097152 then 3
  else if entryLen <? 268435456 then 4
  else 5.

(** The element at [p], if it fits, and the length of its encoding. *)
Definition lp_element (blob : bytes) (p b0 : Z) : res (option (bytes * Z)) :=
  let len := Z.of_nat (length blob) in
  let sized (hdr l : Z) := v ← slice blob (p + hdr) (p + hdr + l); Ret (Some (v, hdr + l)) in
  let int (n : nat) := b ← slice blob (p + 1) (p + 1 + Z.of_nat n); Ret (Some (Itoa (signed n (of_le b)), 1 + Z.of_nat n)) in
  if b0 <? 0x80 then Ret (Some (Itoa (Z.land b0 0x7F), 1))
  else if b0 <? 0xC0 then
    let l := Z.land b0 0x3F in
    if len <? p + 1 + l then Ret None else sized 1 l
  else if b0 <? 0xE0 then
    if len <? p + 2 then Ret None else
    b1 ← at_ blob (p + 1);
    let v := Z.lor (Z.shiftl (Z.land b0 0x1F) 8) b1 in
    Ret (Some (Itoa (if 2 ^ 12 <=? v then v - 2 ^ 13 else v), 2))
  else if b0 <? 0xF0 then
    if len <? p + 2 then Ret None else
    b1 ← at_ blob (p + 1);
    let l := Z.lor (Z.shiftl (Z.land b0 0x0F) 8) b1 in
    if len <? p + 2 + l then Ret None else sized 2 l
  else if b0 =? 0xF0 then
    if len <? p + 5 then Ret None else
    b ← slice blob (p + 1) (p + 5);
    let l := of_le b in
    if (l <? 0) || (len <? p + 5 + l) then Ret None else sized 5 l
  else if b0 =? 0xF1 then if len <? p + 3 then Ret None else int 2%nat
  else if b0 =? 0xF2 then
    if len <? p + 4 then Ret None else
    x ← at_ blob (p + 1); y ← at_ blob (p + 2); z ← at_ blob (p + 3);
    let u := Z.lor (Z.lor x (Z.shiftl y 8)) (Z.shiftl z 16) in
    Ret (Some (Itoa (if 2 ^ 23 <=? u then u - 2 ^ 24 else u), 4))
  else if b0 =? 0xF3 then if len <? p + 5 then Ret None else int 4%nat
  else if b0 =? 0xF4 then if len <? p + 9 then Ret None else int 8%nat
  else Ret None.

(** [None]: the blob is not a listpack.  Each round moves forward. *)
Fixpoint lp_elements (fuel : nat) (blob : bytes) (p : Z) (out : list bytes) : res (option (list bytes)) :=
  if p <? Z.of_nat (length blob) then
    match fuel with
    | 0%nat => OutOfFuel
    | S fuel =>
        b0 ← at_ blob p;
        if b0 =? 0xFF then Ret (Some out) else
        o ← lp_element blob p b0;
        match o with
        | None => Ret None
        | Some (val, encDataLen) => lp_elements fuel blob (p + (encDataLen + backlenSize encDataLen)) (out ++ [val])
        end
    end
  else Ret None.

Definition parseListpack (blob : bytes) : res (option (list bytes)) :=
  if (length blob <? 7)%nat then Ret None else
  t ← slice blob 0 4;
  if negb (of_le t =? Z.of_nat (length blob)) then Ret None else
  lp_elements (length blob) blob 6 [].

(** The members of an intset, from [p] on. *)
Fixpoint intset_members (n : nat) (blob : bytes) (enc p : Z) (out : list bytes) : res (list bytes) :=
  match n with
  | 0%nat => Ret out
  | S n => b ← slice blob p (p + enc); intset_members n blob enc (p + enc) (out ++ [Itoa (signed (Z.to_nat enc) (of_le b))])
  end.

Definition parseIntset (blob : bytes) : res (option (list bytes)) :=
  if (length blob <? 8)%nat then Ret None else
  e ← slice blob 0 4;
  l ← slice blob 4 8;
  let enc := of_le e in
  let length_ := of_le l in
  if negb (enc =? 2) && negb (enc =? 4) && negb (enc =? 8) then Ret None else
  let need := 8 + length_ * enc in
  if Z.of_nat (length blob) <? need then Ret None else
  if max_make <? length_ * 24 then Panic else
  ms ← intset_members (Z.to_nat length_) blob enc 8 [];
  Ret (Some ms).

(** ** Objects *)

(** A blob that is read by one of these parsers. *)
Definition read_blob {A} (parse : bytes → res (option A)) (e : rdb_err) : R A :=
  blob ← readString;
  λ r, match parse blob with
       | Ret (Some a) => Ret (inr (a, r))
       | Ret None => Ret (inl e)
       | Panic => Panic
       | OutOfFuel => OutOfFuel
       end.

Definition readDouble : R Z := b ← readFull 8; mret (of_le b).

Definition parse_score (b : bytes) : R Z := match ParseFloat b with Some s => mret s | None => fail (ErrScore b) end.

Definition readStringVector : R (list bytes) := read_list 24 readString.

(** The pairs of a listpack: the loop indexes [i] and [i+1] while [i] is in
    range. *)
Fixpoint pairs_of_list (l : list bytes) : res (list (bytes * bytes)) :=
  match l with
  | a :: b :: l => ps ← pairs_of_list l; Ret ((a, b) :: ps)
  | [_] => Panic
  | [] => Ret []
  end.
Definition even_elements : R (list (bytes * bytes)) :=
  elems ← read_blob parseListpack ErrListpack;
  if negb (Z.rem (Z.of_nat (length elems)) 2 =? 0) then fail (ErrOdd (length elems)) else
  λ r, ps ← pairs_of_list elems; Ret (inr (ps, r)).

Fixpoint members_of_pairs (l : list (bytes * bytes)) : R (list ZSetMember) :=
  match l with
  | [] => mret []
  | p :: l => s ← parse_score p.2; rest ← members_of_pairs l; mret (MkZM p.1 s :: rest)
  end.

Definition read_member (score : R Z) : R ZSetMember := m ← readString; s ← score; mret (MkZM m s).

Definition readQuicklist2 : R (list bytes) :=
  nodeCount ← readNum;
  loop nodeCount (λ out,
    container ← readNum;
    blob ← readString;
    if container =? 1 then mret (out ++ [blob])
    else if container =? 2 then
      λ r, match parseListpack blob with
           | Ret (Some elems) => Ret (inr (out ++ elems, r))
           | Ret None => Ret (inl ErrListpack)
           | Panic => Panic
           | OutOfFuel => OutOfFuel
           end
    else fail (ErrContainer container)) [].

(** [int64] of a uint64. *)
Definition read_id : R StreamID := ms ← readNum; seq ← readNum; mret (MkID ms seq).
Definition read_pair : R (bytes * bytes) := k ← readString; v ← readString; mret (k, v).
Definition read_stream_entry : R StreamEntry := id ← read_id; fields ← read_list 32 read_pair; mret (MkSE id fields).
Definition read_pending : R StreamPendingEntry :=
  id ← read_id; consumer ← readString; time ← readNum; count ← readNum; mret (MkSPE id consumer (wrap64 time) count).
Definition read_consumer : R StreamConsumerData :=
  name ← readString; active ← readNum; ids ← read_list 16 read_id; mret (MkSC name (wrap64 active) ids).
Definition read_group : R StreamGroupData :=
  name ← readString; last ← read_id; entriesRead ← readNum;
  pending ← read_list 48 read_pending; consumers ← read_list 48 read_consumer; mret (MkSG name last entriesRead pending consumers).

Definition readStreamData : R StreamData :=
  last ← read_id; maxDel ← read_id; added ← readNum;
  entries ← read_list 40 read_stream_entry; groups ← read_list 88 read_group; mret (MkSD last maxDel added entries groups).

(** The value and the type that the entry gets. *)
Definition read_value (typeByte : Z) : R (Z * entry_val) :=
  if typeByte =? typeString then b ← readString; mret (typeByte, StringVal b)
  else if typeByte =? typeList then l ← readStringVector; mret (typeByte, ListVal l)
  else if typeByte =? typeSet then l ← readStringVector; mret (typeByte, SetVal l)
  else if typeByte =? typeHash then
    n ← readNum;
    h ← loop n (λ h, p ← read_pair; mret (<[p.1 := p.2]> h)) ∅;
    mret (typeByte, HashVal h)
  else if typeByte =? typeZSet then
    l ← read_list 32 (read_member (b ← readString; parse_score b)); mret (typeByte, ZSetVal l)
  else if typeByte =? typeZSet2 then
    l ← read_list 32 (read_member readDouble); mret (typeZSet, ZSetVal l)
  else if typeByte =? typeSetIntset then l ← read_blob parseIntset ErrIntset; mret (typeSet, SetVal l)
  else if typeByte =? typeHashListpack then
    ps ← even_elements; mret (typeHash, HashVal (foldl (λ (h : gmap bytes bytes) p, <[p.1 := p.2]> h) ∅ ps))
  else if typeByte =? typeZSetListpack then
    ps ← even_elements; l ← members_of_pairs ps; mret (typeZSet, ZSetVal l)
  else if typeByte =? typeListQuicklist2 then l ← readQuicklist2; mret (typeList, ListVal l)
  else if typeByte =? typeStream then s ← readStreamData; mret (typeByte, StreamVal s)
  else if typeByte =? typeSetListpack then l ← read_blob parseListpack ErrListpack; mret (typeSet, SetVal l)
  else fail (ErrType typeByte).

Definition readObject (typeByte db expireMS : Z) : R Entry :=
  key ← readString;
  '(t, v) ← read_value typeByte;
  mret (MkEnt db key t expireMS v).

(** ** The file *)

(** The trailer does not enter the checksum. *)
Definition verifyCRC : R unit := λ r,
  if (length (rest r) <? 8)%nat then Ret (inl ErrEOF) else
  let stored := of_le (take 8 (rest r)) in
  let r' := MkReader (drop 8 (rest r)) (rcrc r) in
  if stored =? 0 then Ret (inr (tt, r'))
  else if negb (stored =? rcrc r) then Ret (inl ErrCRC)
  else Ret (inr (tt, r')).

(** The loop of [Parse]; [fn] is called on every entry and may stop it.  Each
    round reads an opcode. *)
Fixpoint parse_loop {A} (fuel : nat) (fn : A → Entry → A * bool) (curDB pendingExpireMS : Z) (a : A) : R A :=
  match fuel with
  | 0%nat => λ _, OutOfFuel
  | S fuel =>
      op ← readByte;
      if op =? opEOF then verifyCRC;; mret a
      else if op =? opSelectDB then n ← readNum; parse_loop fuel fn (wrap64 n) pendingExpireMS a
      else if op =? opResizeDB then readNum;; readNum;; parse_loop fuel fn curDB pendingExpireMS a
      else if op =? opAux then readString;; readString;; parse_loop fuel fn curDB pendingExpireMS a
      else if op =? opExpireMS then b ← readFull 8; parse_loop fuel fn curDB (of_le b) a
      else if op =? opExpireSec then b ← readFull 4; parse_loop fuel fn curDB (of_le b * 1000) a
      else if op =? opIdle then readNum;; parse_loop fuel fn curDB pendingExpireMS a
      else if op =? opFreq then readByte;; parse_loop fuel fn curDB pendingExpireMS a
      else
        entry ← readObject op curDB pendingExpireMS;
        let '(a, go) := fn a entry in
        if go : bool then parse_loop fuel fn curDB 0 a else mret a
  end.

Definition Parse {A} (fn : A → Entry → A * bool) (a : A) : R A :=
  header ← readFull 9;
  if negb (bytes_eqb (take 5 header) (str "REDIS")) then fail ErrMagic else
  match ParseInt (drop 5 header) with
  | None => fail ErrVersion
  | Some ver =>
      if (ver <? 1) || (Version <? ver) then fail ErrVersion else
      λ r, parse_loop (S (length (rest r))) fn 0 0 a r
  end.
End rdb.
