(* ===== verification/RdbThm.v ===== *)
(** * The RDB codec: what is written is read back

    A dump is a sequence of items; the decoder calls its argument on the entries
    of the dump, in order, with their databases and deadlines, and accepts the
    checksum. *)

From stdpp Require Import base gmap list strings.
From Stdlib Require Import ZArith Lia Ascii.
From S2P Require Import Prelude Binary Strconv Listpack Runtime Stream StreamThm Rdb.

Local Open Scope Z_scope.
#[local] Existing Instances R_ret R_bind.

(** ** Dumps *)

(** The values that the encoder has a function for; maps are given in the order
    of their traversal. *)
Inductive dumped :=
| DString (b : bytes)
| DList (l : list bytes)
| DSet (l : list bytes)
| DHash (l : list (bytes * bytes))
| DZSet (l : list ZSetMember)
| DStream (s : Stream) (orders : list group_order).

Inductive item :=
| IAux (k v : bytes)
| ISelect (db : Z)
| IResize (n m : Z)
| IEntry (key : bytes) (d : dumped) (expireMS : Z).

(** What the decoder makes of a stream. *)
Definition pending_data (g : Group) (p : StreamID * peref) : StreamPendingEntry :=
  let pe := pending_entry g p.2 in MkSPE p.1 (PConsumer pe) (DeliveryTime pe) (DeliveryCount pe).
Definition consumer_data (c : bytes * Consumer * list StreamID) : StreamConsumerData := MkSC c.1.1 (ActiveTime c.1.2) c.2.
Definition group_data (o : group_order) : StreamGroupData :=
  MkSG (o_name o) (lastDelivered (o_group o)) (entriesRead (o_group o)) (pending_data (o_group o) <$> o_pending o) (consumer_data <$> o_consumers o).
Definition stream_data (s : Stream) (orders : list group_order) : StreamData :=
  MkSD (lastID s) (maxDeletedID s) (entriesAdded s) ((λ e, MkSE (Stream.ID e) (Fields e)) <$> entries s) (group_data <$> orders).

Definition value_of (d : dumped) : Z * entry_val :=
  match d with
  | DString b => (typeString, StringVal b)
  | DList l => (typeList, ListVal l)
  | DSet l => (typeSet, SetVal l)
  | DHash l => (typeHash, HashVal (list_to_map l))
  | DZSet l => (typeZSet, ZSetVal l)
  | DStream s orders => (typeStream, StreamVal (stream_data s orders))
  end.

(** The entries of a dump, from a database on. *)
Fixpoint entries_of (db : Z) (items : list item) : list Entry :=
  match items with
  | [] => []
  | ISelect db :: items => entries_of db items
  | IEntry key d expireMS :: items => MkEnt db key (value_of d).1 expireMS (value_of d).2 :: entries_of db items
  | _ :: items => entries_of db items
  end.

Section write.
Context {rt : Runtime} (crc64Update : Z → bytes → Z) (FormatFloatG : Z → bytes) (io_Write : bytes → bytes → bool).

Definition write_item (i : item) : W :=
  match i with
  | IAux k v => WriteAux crc64Update io_Write k v
  | ISelect db => WriteSelectDB crc64Update io_Write db
  | IResize n m => WriteResizeDB crc64Update io_Write n m
  | IEntry key d e =>
      match d with
      | DString b => WriteStringEntry crc64Update io_Write key b e
      | DList l => WriteListEntry crc64Update io_Write key l e
      | DSet l => WriteSetEntry crc64Update io_Write key l e
      | DHash l => WriteHashEntry crc64Update io_Write key l e
      | DZSet l => WriteZSetEntry crc64Update FormatFloatG io_Write key l e
      | DStream s orders => WriteStreamEntry crc64Update io_Write key s orders e
      end
  end.

Definition write_dump (items : list item) : W :=
  all (WriteHeader crc64Update io_Write :: (write_item <$> items) ++ [WriteEnd crc64Update io_Write]).
End write.

(** ** Sizes *)

Definition u64_ok (n : Z) : Prop := 0 <= n < 2 ^ 64.
Definition id_ok (id : StreamID) : Prop := u64_ok (Ms id) ∧ u64_ok (Seq id).

Section sizes.
Context {rt : Runtime}.

(** Slices that [make] grants. *)
Definition str_ok (s : bytes) : Prop := Z.of_nat (length s) <= max_make.
Definition list_ok {A} (size : Z) (P : A → Prop) (l : list A) : Prop := Z.of_nat (length l) * size <= max_make ∧ Forall P l.

Definition pair_ok (p : bytes * bytes) : Prop := str_ok p.1 ∧ str_ok p.2.
Definition float_ok (FormatFloatG : Z → bytes) (s : Z) : Prop := ParseFloat (FormatFloatG s) = Some s ∧ str_ok (FormatFloatG s).

Definition pending_ok (g : Group) (p : StreamID * peref) : Prop :=
  let pe := pending_entry g p.2 in id_ok p.1 ∧ str_ok (PConsumer pe) ∧ i64 (DeliveryTime pe) ∧ u64_ok (DeliveryCount pe).
Definition consumer_fits (c : bytes * Consumer * list StreamID) : Prop := str_ok c.1.1 ∧ i64 (ActiveTime c.1.2) ∧ list_ok 16 id_ok c.2.
Definition group_fits (o : group_order) : Prop :=
  str_ok (o_name o) ∧ id_ok (lastDelivered (o_group o)) ∧ u64_ok (entriesRead (o_group o)) ∧
  list_ok 48 (pending_ok (o_group o)) (o_pending o) ∧ list_ok 48 consumer_fits (o_consumers o).
Definition entry_fits (e : Stream.Entry) : Prop := id_ok (Stream.ID e) ∧ list_ok 32 pair_ok (Fields e).

Definition dumped_ok (FormatFloatG : Z → bytes) (d : dumped) : Prop :=
  match d with
  | DString b => str_ok b
  | DList l | DSet l => list_ok 24 str_ok l
  | DHash l => NoDup l.*1 ∧ Z.of_nat (length l) < 2 ^ 63 ∧ Forall pair_ok l
  | DZSet l => list_ok 32 (λ m, str_ok (zmember m) ∧ float_ok FormatFloatG (zscore m)) l
  | DStream s orders =>
      id_ok (lastID s) ∧ id_ok (maxDeletedID s) ∧ u64_ok (entriesAdded s) ∧ list_ok 40 entry_fits (entries s) ∧ list_ok 88 group_fits orders
  end.

Definition item_ok (FormatFloatG : Z → bytes) (i : item) : Prop :=
  match i with
  | IAux k v => str_ok k ∧ str_ok v
  | ISelect db => 0 <= db <= max_i64
  | IResize n m => u64_ok n ∧ u64_ok m
  | IEntry key d e => str_ok key ∧ dumped_ok FormatFloatG d ∧ u64_ok e
  end.
End sizes.

(** ** Writing and reading bytes *)

Section codec.
Context {rt : Runtime} (crc : Z → bytes → Z) (FormatFloatG : Z → bytes) (io_Write : bytes → bytes → bool).
Hypothesis crc_nil : ∀ c, crc c [] = c.
Hypothesis crc_app : ∀ c a b, crc c (a ++ b) = crc (crc c a) b.
Hypothesis sink_accepts : ∀ a b, io_Write a b = true.
Hypothesis make_words : 9 <= max_make <= max_i64.

(** A write adds these bytes. *)
Definition writes (f : W) (b : bytes) : Prop := ∀ w, f w = Some (MkWriter (written w ++ b) (crc (wcrc w) b)).

Lemma writes_bytes b : writes (writeBytes crc io_Write b) b.
Proof using sink_accepts. intros w. unfold writeBytes. by rewrite sink_accepts. Qed.
Lemma writes_nothing : writes nothing [].
Proof using crc_nil. intros [o c]. cbn. by rewrite app_nil_r, crc_nil. Qed.
Lemma writes_all ws bs : Forall2 writes ws bs → writes (all ws) (concat bs).
Proof using crc_nil crc_app.
  induction 1 as [|f b ws bs Hf Hws IH]; [apply writes_nothing|]. intros w. unfold all in *. cbn [foldl concat].
  change (Some w ≫= f) with (f w). rewrite Hf. rewrite IH. cbn. by rewrite app_assoc, crc_app.
Qed.
Lemma writes_cons f ws b bs : writes f b → writes (all ws) bs → writes (all (f :: ws)) (b ++ bs).
Proof using crc_app.
  intros Hf Hws w. unfold all in *. cbn [foldl]. change (Some w ≫= f) with (f w). rewrite Hf, Hws. cbn. by rewrite app_assoc, crc_app.
Qed.
Lemma writes_app ws1 ws2 b1 b2 : writes (all ws1) b1 → writes (all ws2) b2 → writes (all (ws1 ++ ws2)) (b1 ++ b2).
Proof using crc_app.
  intros H1 H2 w. unfold all in *. rewrite foldl_app, H1, H2. cbn. by rewrite app_assoc, crc_app.
Qed.
Lemma writes_nil : writes (all []) [].
Proof using crc_nil. apply writes_nothing. Qed.
Lemma writes_bind {A} (f : A → list W) (g : A → bytes) (l : list A) :
  Forall (λ x, writes (all (f x)) (g x)) l → writes (all (l ≫= f)) (l ≫= g).
Proof using crc_nil crc_app.
  induction 1 as [|x l Hx Hl IH]; [apply writes_nil|]. cbn [mbind list_bind]. by apply writes_app.
Qed.
Lemma writes_map {A} (f : A → W) (g : A → bytes) (l : list A) : Forall (λ x, writes (f x) (g x)) l → writes (all (f <$> l)) (l ≫= g).
Proof using crc_nil crc_app.
  induction 1 as [|x l Hx Hl IH]; [apply writes_nil|]. cbn [fmap list_fmap mbind list_bind]. by apply writes_cons.
Qed.

(** A read takes these bytes and returns this value. *)
Definition reads {A} (m : R A) (b : bytes) (a : A) : Prop := ∀ l c, m (MkReader (b ++ l) c) = Ret (inr (a, MkReader l (crc c b))).

Lemma reads_bind {A B} (m : R A) (k : A → R B) b1 b2 a x : reads m b1 a → reads (k a) b2 x → reads (R_bind A B k m) (b1 ++ b2) x.
Proof using crc_app. intros H1 H2 l c. unfold R_bind. rewrite <- app_assoc, H1, H2. by rewrite crc_app. Qed.
Lemma reads_ret {A} (a : A) : reads (R_ret A a) [] a.
Proof using crc_nil. intros l c. unfold R_ret. by rewrite crc_nil. Qed.
Lemma reads_last {A B} (m : R A) (f : A → B) b a : reads m b a → reads (R_bind A B (λ a, R_ret B (f a)) m) b (f a).
Proof using crc_nil crc_app. intros H. rewrite <- (app_nil_r b). eapply reads_bind; [done|]. apply reads_ret. Qed.

Lemma reads_byte z : 0 <= z < 256 → reads (readByte crc) [Zbyte z] z.
Proof using. intros Hz l c. unfold readByte. cbn. by rewrite byteZ_Zbyte, Z.mod_small. Qed.
Lemma reads_full b : Z.of_nat (length b) <= max_make → reads (readFull crc (Z.of_nat (length b))) b b.
Proof using.
  intros Hb l c. unfold readFull. cbn [rest rcrc]. rewrite (proj2 (Z.ltb_ge _ _)), (proj2 (Z.ltb_ge max_make _)) by lia. cbn [orb].
  rewrite Nat2Z.id, (proj2 (Nat.ltb_ge _ _)) by (rewrite length_app; lia). by rewrite take_app_length, drop_app_length.
Qed.
Lemma reads_full_n n b : n = Z.of_nat (length b) → n <= max_make → reads (readFull crc n) b b.
Proof using. intros -> Hb. by apply reads_full. Qed.

(** ** Lengths and strings *)

Definition len_bytes (n : Z) : bytes :=
  if n <? 2 ^ 6 then [Zbyte n]
  else if n <? 2 ^ 14 then [Zbyte (64 + n / 256); Zbyte n]
  else if n <=? 0xFFFFFFFF then Zbyte len32 :: be_bytes 4 n
  else Zbyte len64 :: be_bytes 8 n.

Lemma lor_64 a : 0 <= a < 64 → Z.lor (Z.shiftl len14Bit 6) a = 64 + a.
Proof using. intros Ha. rewrite Z.lor_comm, lor_shiftl_add by (unfold len14Bit; lia). unfold len14Bit. lia. Qed.

Lemma writes_len n : writes (writeLen crc io_Write n) (len_bytes n).
Proof using sink_accepts.
  unfold writeLen, len_bytes. destruct (Z.ltb_spec n (2 ^ 6)); [unfold writeByte; cbn [Z.shiftl len6Bit Z.lor]; apply writes_bytes|].
  destruct (Z.ltb_spec n (2 ^ 14)); [|destruct (n <=? _); apply writes_bytes].
  rewrite Z.shiftr_div_pow2 by lia. change (2 ^ 8) with 256. rewrite lor_64 by (split; [apply Z.div_pos; lia|apply Z.div_lt_upper_bound; lia]).
  apply writes_bytes.
Qed.

Lemma tag_of z : 0 <= z → Z.shiftr z 6 = z / 64.
Proof using. intros Hz. by rewrite Z.shiftr_div_pow2. Qed.
Lemma low_of z : Z.land z 0x3F = z mod 64.
Proof using. change 0x3F with (Z.ones 6). by rewrite Z.land_ones. Qed.

Lemma reads_len n : u64_ok n → reads (readLen crc) (len_bytes n) (n, false).
Proof using crc_nil crc_app make_words.
  intros Hn. unfold u64_ok in Hn. unfold len_bytes, readLen. destruct (Z.ltb_spec n (2 ^ 6)); [|destruct (Z.ltb_spec n (2 ^ 14)); [|destruct (Z.leb_spec n 0xFFFFFFFF)]].
  - rewrite <- (app_nil_r [Zbyte n]). eapply reads_bind; [apply reads_byte; lia|]. rewrite tag_of, low_of by lia.
    rewrite Z.div_small, Z.mod_small by lia. apply reads_ret.
  - change [Zbyte (64 + n / 256); Zbyte n] with ([Zbyte (64 + n / 256)] ++ [Zbyte n]).
    assert (Hq : 0 <= n / 256 < 64) by (split; [apply Z.div_pos; lia|apply Z.div_lt_upper_bound; lia]).
    eapply reads_bind; [apply reads_byte; lia|]. rewrite tag_of, low_of by lia.
    replace ((64 + n / 256) / 64) with 1 by (apply (Z.div_unique _ _ _ (n / 256)); lia). replace ((64 + n / 256) mod 64) with (n / 256) by (apply (Z.mod_unique _ _ 1); lia).
    cbn [Z.eqb len6Bit len14Bit Pos.eqb]. assert (Hm : 0 <= n mod 256 < 256) by (apply Z.mod_pos_bound; lia).
    assert (HZ : Zbyte n = Zbyte (n mod 256)) by (unfold Zbyte; by rewrite Zmod_mod). rewrite HZ.
    rewrite <- (app_nil_r [Zbyte _]). eapply reads_bind; [by apply reads_byte|]. rewrite Z.lor_comm, lor_shiftl_add by lia. change (2 ^ 8) with 256.
    replace (n mod 256 + n / 256 * 256) with n by (pose proof (Z.div_mod n 256); lia). apply reads_ret.
  - change (Zbyte len32 :: be_bytes 4 n) with ([Zbyte len32] ++ be_bytes 4 n). eapply reads_bind; [apply reads_byte; done|].
    change (Z.shiftr len32 6) with 2. cbn [Z.eqb len6Bit len14Bit lenSpecial Pos.eqb]. change (len32 =? len32) with true. cbv iota.
    rewrite <- (app_nil_r (be_bytes 4 n)). eapply reads_bind; [apply reads_full_n; [by rewrite length_be|lia]|]. rewrite of_be_bytes by (change (256 ^ Z.of_nat 4) with (2 ^ 32); lia). apply reads_ret.
  - change (Zbyte len64 :: be_bytes 8 n) with ([Zbyte len64] ++ be_bytes 8 n). eapply reads_bind; [apply reads_byte; done|].
    change (Z.shiftr len64 6) with 2. cbn [Z.eqb len6Bit len14Bit lenSpecial Pos.eqb]. change (len64 =? len32) with false. change (len64 =? len64) with true. cbv iota.
    rewrite <- (app_nil_r (be_bytes 8 n)). eapply reads_bind; [apply reads_full_n; [by rewrite length_be|lia]|]. rewrite of_be_bytes by (change (256 ^ Z.of_nat 8) with (2 ^ 64); lia). apply reads_ret.
Qed.
Lemma reads_num n : u64_ok n → reads (readNum crc) (len_bytes n) n.
Proof using crc_nil crc_app make_words.
  intros Hn. unfold readNum. rewrite <- (app_nil_r (len_bytes n)). eapply reads_bind; [by apply reads_len|]. apply reads_ret.
Qed.

Definition raw_bytes (s : bytes) : bytes := len_bytes (Z.of_nat (length s)) ++ s.
Definition intform_bytes (v : Z) : bytes :=
  if (- 2 ^ 7 <=? v) && (v <? 2 ^ 7) then [Zbyte 0xC0; Zbyte v]
  else if (- 2 ^ 15 <=? v) && (v <? 2 ^ 15) then Zbyte 0xC1 :: le_bytes 2 v
  else Zbyte 0xC2 :: le_bytes 4 v.
Definition string_bytes (s : bytes) : bytes := match tryParseInt s with Some v => intform_bytes v | None => raw_bytes s end.

Lemma writes_raw s : writes (writeRawString crc io_Write s) (raw_bytes s).
Proof using crc_nil crc_app sink_accepts.
  unfold writeRawString, raw_bytes. apply writes_cons; [apply writes_len|]. rewrite <- (app_nil_r s) at 2. apply writes_cons; [apply writes_bytes|apply writes_nil].
Qed.
Lemma writes_string s : writes (writeString crc io_Write s) (string_bytes s).
Proof using crc_nil crc_app sink_accepts.
  unfold writeString, string_bytes. destruct (tryParseInt s) as [v|]; [|apply writes_raw]. unfold writeIntString, intform_bytes.
  destruct (_ && _); [apply writes_bytes|]. destruct (_ && _); apply writes_bytes.
Qed.

Lemma reads_raw s : str_ok s → reads (readString crc) (raw_bytes s) s.
Proof using crc_nil crc_app make_words.
  intros Hs. unfold str_ok in Hs. unfold readString, raw_bytes. unfold max_i64 in make_words.
  eapply reads_bind; [apply reads_len; unfold u64_ok; lia|]. cbv beta iota. cbn [negb]. rewrite wrap64_id by (unfold i64, min_i64, max_i64; lia). by apply reads_full.
Qed.

(** A special form: its tag and the bytes of the number. *)
Lemma reads_special (k : Z) (n : nat) v : (n = 1%nat ∧ k = encInt8 ∨ n = 2%nat ∧ k = encInt16 ∨ n = 4%nat ∧ k = encInt32) →
  - 2 ^ (8 * Z.of_nat n - 1) <= v < 2 ^ (8 * Z.of_nat n - 1) → reads (readString crc) (Zbyte (0xC0 + k) :: le_bytes n v) (Itoa v).
Proof using crc_nil crc_app make_words.
  intros Hk Hv. assert (Hr : 0 <= k < 64) by (unfold encInt8, encInt16, encInt32 in Hk; lia).
  change (Zbyte (0xC0 + k) :: le_bytes n v) with ([Zbyte (0xC0 + k)] ++ le_bytes n v). unfold readString. eapply (reads_bind _ _ _ _ (k, true)).
  - unfold readLen. rewrite <- (app_nil_r [Zbyte _]). eapply reads_bind; [apply reads_byte; lia|]. rewrite tag_of, low_of by lia.
    replace ((192 + k) / 64) with 3 by (apply (Z.div_unique _ _ _ k); lia). replace ((192 + k) mod 64) with k by (apply (Z.mod_unique _ _ 3); lia). apply reads_ret.
  - cbv beta iota. cbn [negb]. rewrite <- (app_nil_r (le_bytes n v)).
    destruct Hk as [[-> ->]|[[-> ->]|[-> ->]]]; cbn [Z.eqb encInt8 encInt16 encInt32 Pos.eqb]; (eapply reads_bind; [apply reads_full_n; [by rewrite length_le|lia]|]);
      rewrite signed_le by lia; apply reads_ret.
Qed.

Lemma tryParseInt_Some s v : tryParseInt s = Some v → Itoa v = s ∧ - 2 ^ 31 <= v < 2 ^ 31.
Proof using.
  unfold tryParseInt. intros E. destruct (_ || _); [done|]. destruct (ParseInt s) as [x|]; [|done].
  destruct (Z.ltb_spec x (- 2 ^ 31)), (Z.leb_spec (2 ^ 31) x); cbn [orb] in E; try done.
  destruct (bytes_eqb (Itoa x) s) eqn:Eb; cbn in E; [|done]. injection E as <-. apply bool_decide_eq_true in Eb. split; [done|lia].
Qed.

Lemma reads_string s : str_ok s → reads (readString crc) (string_bytes s) s.
Proof using crc_nil crc_app make_words.
  intros Hs. unfold string_bytes. destruct (tryParseInt s) as [v|] eqn:E; [|by apply reads_raw]. apply tryParseInt_Some in E as [<- Hv]. unfold intform_bytes.
  destruct (Z.leb_spec (- 2 ^ 7) v), (Z.ltb_spec v (2 ^ 7)); cbn [andb];
    [change [Zbyte 192; Zbyte v] with (Zbyte (0xC0 + encInt8) :: le_bytes 1 v); apply reads_special; [by left|cbn; lia]|..].
  all: destruct (Z.leb_spec (- 2 ^ 15) v), (Z.ltb_spec v (2 ^ 15)); cbn [andb];
    [apply (reads_special encInt16 2); [by right; left|cbn; lia]|apply (reads_special encInt32 4); [by right; right|cbn; lia]..].
Qed.

Lemma len_bytes_cons n : ∃ b l, len_bytes n = b :: l.
Proof using. unfold len_bytes. repeat case_match; eauto. Qed.
Lemma string_bytes_cons s : ∃ b l, string_bytes s = b :: l.
Proof using.
  unfold string_bytes, intform_bytes, raw_bytes. destruct (tryParseInt s); [repeat case_match; eauto|]. destruct (len_bytes_cons (Z.of_nat (length s))) as (b & l & ->). eauto.
Qed.

(** ** Lists *)

Lemma reads_rounds {A X} (body : A → R A) (step : A → X → A) (g : X → bytes) (xs : list X) : Forall (λ x, ∀ a, reads (body a) (g x) (step a x)) xs →
  ∀ fuel a, (length xs <= fuel)%nat → reads (rounds fuel (Z.of_nat (length xs)) body a) (xs ≫= g) (foldl step a xs).
Proof using crc_nil crc_app.
  induction 1 as [|x xs Hx Hxs IH]; intros fuel a Hf.
  - assert (E : rounds fuel (Z.of_nat (length (@nil X))) body a = R_ret A a) by (by destruct fuel). rewrite E. apply reads_ret.
  - destruct fuel as [|fuel]; [cbn in Hf; lia|]. cbn [rounds mbind list_bind foldl]. rewrite (proj2 (Z.leb_gt _ _)) by (cbn; lia).
    replace (Z.of_nat (length (x :: xs)) - 1) with (Z.of_nat (length xs)) by (cbn; lia). eapply reads_bind; [apply Hx|]. apply IH. cbn in Hf. lia.
Qed.

Lemma length_bind {X} (g : X → bytes) (xs : list X) : Forall (λ x, ∃ b l, g x = b :: l) xs → (length xs <= length (xs ≫= g))%nat.
Proof using.
  induction 1 as [|x xs (b & l & E) Hxs IH]; [done|]. cbn [mbind list_bind length]. rewrite length_app, E. cbn [length]. change (list_bind X ascii g xs) with (xs ≫= g). lia.
Qed.

Lemma reads_loop {A X} (body : A → R A) (step : A → X → A) (g : X → bytes) (xs : list X) a :
  Forall (λ x, ∀ a, reads (body a) (g x) (step a x)) xs → Forall (λ x, ∃ b l, g x = b :: l) xs →
  reads (loop (Z.of_nat (length xs)) body a) (xs ≫= g) (foldl step a xs).
Proof using crc_nil crc_app.
  intros Hb Hg l c. unfold loop. cbn [rest]. pose proof (length_bind g xs Hg). rewrite (reads_rounds body step g xs Hb); [done|]. rewrite length_app. lia.
Qed.

Definition list_bytes {X} (g : X → bytes) (xs : list X) : bytes := len_bytes (Z.of_nat (length xs)) ++ (xs ≫= g).

Lemma reads_list {X Y} (size : Z) (item : R Y) (f : X → Y) (g : X → bytes) (xs : list X) :
  0 < size → Z.of_nat (length xs) * size <= max_make → Forall (λ x, reads item (g x) (f x)) xs → Forall (λ x, ∃ b l, g x = b :: l) xs →
  reads (read_list crc size item) (list_bytes g xs) (f <$> xs).
Proof using crc_nil crc_app make_words.
  intros Hs Hm Hi Hg. unfold read_list, list_bytes. unfold max_i64 in make_words. eapply reads_bind; [apply reads_num; unfold u64_ok; nia|].
  change (xs ≫= g) with ([] ++ (xs ≫= g)). eapply (reads_bind _ _ _ _ tt).
  { intros l c. unfold make_slice. rewrite (proj2 (Z.ltb_ge _ _)) by lia. by rewrite crc_nil. }
  assert (E : ∀ acc, foldl (λ l x, l ++ [f x]) acc xs = acc ++ (f <$> xs)).
  { clear Hi Hg Hm. induction xs as [|x xs IH]; intros acc; [by rewrite app_nil_r|]. cbn [foldl]. rewrite IH, <- app_assoc. done. }
  change (f <$> xs) with ([] ++ (f <$> xs)). rewrite <- E. apply reads_loop; [|done]. eapply Forall_impl; [exact Hi|]. intros x Hx a. cbv beta.
  by apply (reads_last item (λ x, a ++ [x])).
Qed.

Lemma writes_list {X} (f : X → list W) (g : X → bytes) (xs : list X) : Forall (λ x, writes (all (f x)) (g x)) xs →
  writes (all (writeLen crc io_Write (Z.of_nat (length xs)) :: (xs ≫= f))) (list_bytes g xs).
Proof using crc_nil crc_app sink_accepts. intros Hf. apply writes_cons; [apply writes_len|]. by apply writes_bind. Qed.

(** ** The pieces of a value *)

Definition pair_bytes (p : bytes * bytes) : bytes := string_bytes p.1 ++ string_bytes p.2.
Definition member_bytes (m : ZSetMember) : bytes := string_bytes (zmember m) ++ raw_bytes (FormatFloatG (zscore m)).
Definition id_bytes (id : StreamID) : bytes := len_bytes (Ms id) ++ len_bytes (Seq id).
Definition sentry_bytes (e : Stream.Entry) : bytes := id_bytes (Stream.ID e) ++ list_bytes pair_bytes (Fields e).
Definition pending_bytes (g : Group) (p : StreamID * peref) : bytes :=
  let pe := pending_entry g p.2 in
  id_bytes p.1 ++ string_bytes (PConsumer pe) ++ len_bytes (as_u64 (DeliveryTime pe)) ++ len_bytes (DeliveryCount pe).
Definition consumer_bytes (c : bytes * Consumer * list StreamID) : bytes :=
  string_bytes c.1.1 ++ len_bytes (as_u64 (ActiveTime c.1.2)) ++ list_bytes id_bytes c.2.
Definition group_bytes (o : group_order) : bytes :=
  string_bytes (o_name o) ++ id_bytes (lastDelivered (o_group o)) ++ len_bytes (entriesRead (o_group o)) ++
  list_bytes (pending_bytes (o_group o)) (o_pending o) ++ list_bytes consumer_bytes (o_consumers o).
Definition stream_bytes (s : Stream) (orders : list group_order) : bytes :=
  id_bytes (lastID s) ++ id_bytes (maxDeletedID s) ++ len_bytes (entriesAdded s) ++ list_bytes sentry_bytes (entries s) ++ list_bytes group_bytes orders.

(** *** Writing *)

Lemma writes_one f b : writes f b → writes (all [f]) b.
Proof using crc_nil crc_app. intros Hf. rewrite <- (app_nil_r b). apply writes_cons; [done|apply writes_nil]. Qed.
Lemma writes_then f ws b bs : writes f b → writes (all ws) bs → writes (all ([f] ++ ws)) (b ++ bs).
Proof using crc_app. apply writes_cons. Qed.

Lemma writes_pair p : writes (all (write_pair crc io_Write p)) (pair_bytes p).
Proof using crc_nil crc_app sink_accepts. apply writes_cons; [|apply writes_one]; apply writes_string. Qed.
Lemma writes_member m : writes (all (write_member crc FormatFloatG io_Write m)) (member_bytes m).
Proof using crc_nil crc_app sink_accepts. apply writes_cons; [apply writes_string|apply writes_one, writes_raw]. Qed.
Lemma writes_id id : writes (all (write_id crc io_Write id)) (id_bytes id).
Proof using crc_nil crc_app sink_accepts. apply writes_cons; [|apply writes_one]; apply writes_len. Qed.
Lemma writes_list_of {X} (f : X → list W) (g : X → bytes) (xs : list X) : (∀ x, writes (all (f x)) (g x)) →
  writes (all (writeLen crc io_Write (Z.of_nat (length xs)) :: (xs ≫= f))) (list_bytes g xs).
Proof using crc_nil crc_app sink_accepts. intros Hf. apply writes_list, Forall_forall. auto. Qed.
Lemma writes_sentry e : writes (all (write_entry crc io_Write e)) (sentry_bytes e).
Proof using crc_nil crc_app sink_accepts. apply writes_app; [apply writes_id|]. apply writes_list_of, writes_pair. Qed.
Lemma writes_pending g p : writes (all (write_pending crc io_Write g p)) (pending_bytes g p).
Proof using crc_nil crc_app sink_accepts.
  apply writes_app; [apply writes_id|]. apply writes_cons; [apply writes_string|]. apply writes_cons; [|apply writes_one]; apply writes_len.
Qed.
Lemma writes_consumer c : writes (all (write_consumer crc io_Write c)) (consumer_bytes c).
Proof using crc_nil crc_app sink_accepts.
  destruct c as [[name c] ids]. cbn [write_consumer app]. apply writes_cons; [apply writes_string|]. apply writes_cons; [apply writes_len|].
  apply writes_list_of, writes_id.
Qed.
Lemma writes_group o : writes (all (write_group crc io_Write o)) (group_bytes o).
Proof using crc_nil crc_app sink_accepts.
  unfold write_group, group_bytes. apply writes_cons; [apply writes_string|]. apply writes_app; [apply writes_id|]. apply writes_cons; [apply writes_len|].
  rewrite app_comm_cons. apply writes_app; apply writes_list_of; [apply writes_pending|apply writes_consumer].
Qed.

(** *** Reading *)

Lemma reads_pair p : pair_ok p → reads (read_pair crc) (pair_bytes p) p.
Proof using crc_nil crc_app make_words.
  intros [H1 H2]. destruct p as [k v]. eapply reads_bind; [by apply reads_string|]. apply (reads_last _ (λ v, (k, v))). by apply reads_string.
Qed.
Lemma reads_id id : id_ok id → reads (read_id crc) (id_bytes id) id.
Proof using crc_nil crc_app make_words.
  intros [H1 H2]. destruct id as [a b]. eapply reads_bind; [by apply reads_num|]. apply (reads_last _ (λ b, MkID a b)). by apply reads_num.
Qed.
Lemma reads_member m : str_ok (zmember m) → float_ok FormatFloatG (zscore m) →
  reads (read_member crc (b ← readString crc; parse_score b)) (member_bytes m) m.
Proof using crc_nil crc_app make_words.
  intros H1 [H2 H3]. destruct m as [a s]. eapply reads_bind; [by apply reads_string|]. apply (reads_last _ (λ s, MkZM a s)). cbn [zscore] in *.
  rewrite <- (app_nil_r (raw_bytes _)). eapply reads_bind; [by apply reads_raw|]. unfold parse_score. rewrite H2. apply reads_ret.
Qed.

Lemma u64_as z : u64_ok (as_u64 z).
Proof using. unfold u64_ok, as_u64. apply Z.mod_pos_bound. lia. Qed.
Lemma wrap64_as z : i64 z → wrap64 (as_u64 z) = z.
Proof using. intros Hz. unfold as_u64, wrap64. rewrite Zplus_mod_idemp_l. by apply wrap64_id. Qed.

Lemma pair_bytes_cons p : ∃ b l, pair_bytes p = b :: l.
Proof using. unfold pair_bytes. destruct (string_bytes_cons p.1) as (b & l & ->). cbn. eauto. Qed.
Lemma id_bytes_cons id : ∃ b l, id_bytes id = b :: l.
Proof using. unfold id_bytes. destruct (len_bytes_cons (Ms id)) as (b & l & ->). cbn. eauto. Qed.

(** A list whose elements are read each. *)
Lemma reads_list_of {X Y} (size : Z) (P : X → Prop) (item : R Y) (f : X → Y) (g : X → bytes) (xs : list X) :
  0 < size → list_ok size P xs → (∀ x, P x → reads item (g x) (f x)) → (∀ x, ∃ b l, g x = b :: l) →
  reads (read_list crc size item) (list_bytes g xs) (f <$> xs).
Proof using crc_nil crc_app make_words.
  intros Hs [Hm HP] Hi Hg. apply reads_list; [done|done|by eapply Forall_impl|by apply Forall_forall].
Qed.
Lemma reads_list_id {X} (size : Z) (P : X → Prop) (item : R X) (g : X → bytes) (xs : list X) :
  0 < size → list_ok size P xs → (∀ x, P x → reads item (g x) x) → (∀ x, ∃ b l, g x = b :: l) →
  reads (read_list crc size item) (list_bytes g xs) xs.
Proof using crc_nil crc_app make_words. intros Hs HP Hi Hg. rewrite <- (list_fmap_id xs) at 2. by eapply reads_list_of. Qed.

Lemma reads_sentry e : entry_fits e → reads (read_stream_entry crc) (sentry_bytes e) (MkSE (Stream.ID e) (Fields e)).
Proof using crc_nil crc_app make_words.
  intros [H1 H2]. eapply reads_bind; [by apply reads_id|]. apply (reads_last _ (λ l, MkSE (Stream.ID e) l)).
  eapply reads_list_id; [done|exact H2|apply reads_pair|apply pair_bytes_cons].
Qed.
Lemma reads_pending g p : pending_ok g p → reads (read_pending crc) (pending_bytes g p) (pending_data g p).
Proof using crc_nil crc_app make_words.
  intros (H1 & H2 & H3 & H4). unfold pending_data. rewrite <- (wrap64_as (DeliveryTime _) H3). eapply reads_bind; [by apply reads_id|].
  eapply reads_bind; [by apply reads_string|]. eapply reads_bind; [apply reads_num, u64_as|].
  apply (reads_last _ (λ n, MkSPE p.1 (PConsumer (pending_entry g p.2)) (wrap64 (as_u64 (DeliveryTime (pending_entry g p.2)))) n)). by apply reads_num.
Qed.
Lemma reads_consumer c : consumer_fits c → reads (read_consumer crc) (consumer_bytes c) (consumer_data c).
Proof using crc_nil crc_app make_words.
  intros (H1 & H2 & H3). unfold consumer_data. rewrite <- (wrap64_as (ActiveTime _) H2). eapply reads_bind; [by apply reads_string|].
  eapply reads_bind; [apply reads_num, u64_as|]. apply (reads_last _ (λ l, MkSC c.1.1 (wrap64 (as_u64 (ActiveTime c.1.2))) l)).
  eapply reads_list_id; [done|exact H3|apply reads_id|apply id_bytes_cons].
Qed.
Lemma reads_group o : group_fits o → reads (read_group crc) (group_bytes o) (group_data o).
Proof using crc_nil crc_app make_words.
  intros (H1 & H2 & H3 & H4 & H5). unfold group_data. eapply reads_bind; [by apply reads_string|]. eapply reads_bind; [by apply reads_id|].
  eapply reads_bind; [by apply reads_num|]. eapply reads_bind.
  - eapply reads_list_of; [done|exact H4|apply reads_pending|]. intros p. unfold pending_bytes. destruct (id_bytes_cons p.1) as (b & l & ->). cbn. eauto.
  - apply (reads_last _ (λ l, MkSG (o_name o) (lastDelivered (o_group o)) (entriesRead (o_group o)) (pending_data (o_group o) <$> o_pending o) l)).
    eapply reads_list_of; [done|exact H5|apply reads_consumer|]. intros c. unfold consumer_bytes. destruct (string_bytes_cons c.1.1) as (b & l & ->). cbn. eauto.
Qed.

(** ** Values *)

Definition value_bytes (d : dumped) : bytes :=
  match d with
  | DString b => string_bytes b
  | DList l | DSet l => list_bytes string_bytes l
  | DHash l => list_bytes pair_bytes l
  | DZSet l => list_bytes member_bytes l
  | DStream s orders => stream_bytes s orders
  end.

Lemma Range_all s : Stream.Range s (MkID 0 0) (MkID maxMs maxSeq) (-1) = entries s.
Proof using.
  unfold Stream.Range. rewrite range_loop_spec by (cbn; lia). unfold limited. cbn [app Z.ltb Z.compare].
  induction (entries s) as [|e es IH]; [done|]. rewrite filter_cons_True by done. by f_equal.
Qed.

Lemma writes_vector l : writes (all (write_vector crc io_Write l)) (list_bytes string_bytes l).
Proof using crc_nil crc_app sink_accepts.
  apply writes_cons; [apply writes_len|]. apply writes_map, Forall_forall. intros x _. apply writes_string.
Qed.
Lemma writes_stream s orders :
  writes (all (write_id crc io_Write (lastID s) ++ write_id crc io_Write (maxDeletedID s) ++ writeLen crc io_Write (entriesAdded s) ::
    writeLen crc io_Write (Z.of_nat (length (entries s))) :: (entries s ≫= write_entry crc io_Write) ++
    writeLen crc io_Write (Z.of_nat (length orders)) :: (orders ≫= write_group crc io_Write))) (stream_bytes s orders).
Proof using crc_nil crc_app sink_accepts.
  unfold stream_bytes. do 2 (apply writes_app; [apply writes_id|]). apply writes_cons; [apply writes_len|].
  rewrite app_comm_cons. apply writes_app; apply writes_list_of; [apply writes_sentry|apply writes_group].
Qed.

(** The entries of a map are inserted one by one. *)
Lemma inserts_map (l : list (bytes * bytes)) : NoDup l.*1 → foldl (λ (h : gmap bytes bytes) p, <[p.1 := p.2]> h) ∅ l = list_to_map l.
Proof using.
  intros Hl. transitivity (list_to_map (reverse l) : gmap bytes bytes); [|by symmetry; apply list_to_map_proper; [|rewrite reverse_Permutation]].
  clear Hl. induction l as [|[k v] l IH] using rev_ind; [done|]. rewrite foldl_app, reverse_app, IH. done.
Qed.

Lemma reads_value d : dumped_ok FormatFloatG d → reads (read_value crc (value_of d).1) (value_bytes d) (value_of d).
Proof using crc_nil crc_app make_words.
  destruct d as [b|l|l|l|l|s orders]; cbn [dumped_ok value_of fst value_bytes]; intros Hd; unfold read_value.
  - apply (reads_last _ (λ b, (typeString, StringVal b))). by apply reads_string.
  - apply (reads_last _ (λ b, (typeList, ListVal b))). eapply reads_list_id; [done|exact Hd|apply reads_string|apply string_bytes_cons].
  - apply (reads_last _ (λ b, (typeSet, SetVal b))). eapply reads_list_id; [done|exact Hd|apply reads_string|apply string_bytes_cons].
  - destruct Hd as (Hnd & Hlen & Hp). rewrite <- inserts_map by done. eapply reads_bind; [apply reads_num; unfold u64_ok; lia|].
    apply (reads_last _ (λ h, (typeHash, HashVal h))). apply reads_loop; [|apply Forall_forall; intros x _; apply pair_bytes_cons].
    eapply Forall_impl; [exact Hp|]. intros p Hpp h. apply (reads_last _ (λ p : bytes * bytes, <[p.1 := p.2]> h)). by apply reads_pair.
  - apply (reads_last _ (λ b, (typeZSet, ZSetVal b))).
    eapply reads_list_id; [done|exact Hd|intros m [? ?]; by apply reads_member|]. intros m. unfold member_bytes. destruct (string_bytes_cons (zmember m)) as (b & r & ->). cbn. eauto.
  - destruct Hd as (H1 & H2 & H3 & H4 & H5). apply (reads_last _ (λ b, (typeStream, StreamVal b))). unfold readStreamData, stream_bytes, stream_data.
    eapply reads_bind; [by apply reads_id|]. eapply reads_bind; [by apply reads_id|]. eapply reads_bind; [by apply reads_num|]. eapply reads_bind.
    + eapply reads_list_of; [done|exact H4|apply reads_sentry|]. intros e. unfold sentry_bytes. destruct (id_bytes_cons (Stream.ID e)) as (b & r & ->). cbn. eauto.
    + apply (reads_last _ (λ l, MkSD (lastID s) (maxDeletedID s) (entriesAdded s) ((λ e, MkSE (Stream.ID e) (Fields e)) <$> entries s) l)).
      eapply reads_list_of; [done|exact H5|apply reads_group|]. intros o. unfold group_bytes. destruct (string_bytes_cons (o_name o)) as (b & r & ->). cbn. eauto.
Qed.

(** ** Items *)

Definition expire_bytes (e : Z) : bytes := if e =? 0 then [] else Zbyte opExpireMS :: le_bytes 8 e.
Definition item_bytes (i : item) : bytes :=
  match i with
  | IAux k v => [Zbyte opAux] ++ string_bytes k ++ string_bytes v
  | ISelect db => [Zbyte opSelectDB] ++ len_bytes (db mod 2 ^ 64)
  | IResize n m => [Zbyte opResizeDB] ++ len_bytes n ++ len_bytes m
  | IEntry key d e => expire_bytes e ++ [Zbyte (value_of d).1] ++ string_bytes key ++ value_bytes d
  end.

Lemma writes_entry type_ key e ws b : writes (all ws) b →
  writes (all (entry_head crc io_Write type_ key e ++ ws)) (expire_bytes e ++ [Zbyte type_] ++ string_bytes key ++ b).
Proof using crc_nil crc_app sink_accepts.
  intros Hw. unfold entry_head. cbn [app]. apply writes_cons.
  { unfold writeExpire, expire_bytes. destruct (e =? 0); [apply writes_nothing|]. apply (writes_cons _ _ [_]); [apply writes_bytes|apply writes_one, writes_bytes]. }
  apply (writes_cons _ _ [_]); [apply writes_bytes|]. by apply writes_cons; [apply writes_string|].
Qed.

Lemma writes_item i : writes (write_item crc FormatFloatG io_Write i) (item_bytes i).
Proof using crc_nil crc_app sink_accepts.
  destruct i as [k v|db|n m|key d e]; cbn [write_item item_bytes].
  - apply writes_cons; [apply writes_bytes|]. apply writes_cons; [|apply writes_one]; apply writes_string.
  - apply writes_cons; [apply writes_bytes|]. apply writes_one, writes_len.
  - apply writes_cons; [apply writes_bytes|]. apply writes_cons; [|apply writes_one]; apply writes_len.
  - destruct d as [b|l|l|l|l|s orders]; apply writes_entry; cbn [value_bytes].
    + apply writes_one, writes_string.
    + apply writes_vector.
    + apply writes_vector.
    + apply writes_list_of, writes_pair.
    + apply writes_list_of, writes_member.
    + rewrite Range_all. apply writes_stream.
Qed.

(** ** The file *)

Section parse.
Context {A : Type} (f : A → Entry → A).
Let fn : A → Entry → A * bool := λ a e, (f a e, true).

Lemma R_bind_reads {X Y} (m : R X) (k : X → R Y) b x l c : reads m b x → (m ≫= k) (MkReader (b ++ l) c) = k x (MkReader l (crc c b)).
Proof using. intros Hm. unfold mbind, R_bind. by rewrite Hm. Qed.

Lemma reads_object key d db e : str_ok key → dumped_ok FormatFloatG d →
  reads (readObject crc (value_of d).1 db e) (string_bytes key ++ value_bytes d) (MkEnt db key (value_of d).1 e (value_of d).2).
Proof using crc_nil crc_app make_words.
  intros Hk Hd. eapply reads_bind; [by apply reads_string|]. rewrite <- (app_nil_r (value_bytes d)). eapply reads_bind; [by apply reads_value|].
  destruct (value_of d). apply reads_ret.
Qed.

(** The round of a value. *)
Lemma parse_value fuel key d db e a l c : str_ok key → dumped_ok FormatFloatG d →
  parse_loop crc (S fuel) fn db e a (MkReader (([Zbyte (value_of d).1] ++ string_bytes key ++ value_bytes d) ++ l) c) =
  parse_loop crc fuel fn db 0 (f a (MkEnt db key (value_of d).1 e (value_of d).2)) (MkReader l (crc c ([Zbyte (value_of d).1] ++ string_bytes key ++ value_bytes d))).
Proof using crc_nil crc_app make_words.
  intros Hk Hd. cbn [parse_loop]. rewrite <- !app_assoc.
  assert (Ht : 0 <= (value_of d).1 < 256 ∧ (value_of d).1 < 248) by (by destruct d).
  rewrite (R_bind_reads _ _ [_] (value_of d).1) by (apply reads_byte; tauto). cbv beta.
  rewrite !(proj2 (Z.eqb_neq _ _)) by (unfold opEOF, opSelectDB, opResizeDB, opAux, opExpireMS, opExpireSec, opIdle, opFreq; lia).
  rewrite (app_assoc (string_bytes key)), (R_bind_reads _ _ (string_bytes key ++ value_bytes d) _ _ _ (reads_object key d db e Hk Hd)). cbn [fn].
  by rewrite !crc_app.
Qed.

(** The rounds of an item, and what they leave. *)
Definition item_rounds (i : item) : nat := match i with IEntry _ _ e => if e =? 0 then 1 else 2 | _ => 1 end.
Definition item_db (db : Z) (i : item) : Z := match i with ISelect db => db | _ => db end.
Definition item_entry (db : Z) (i : item) : list Entry :=
  match i with IEntry key d e => [MkEnt db key (value_of d).1 e (value_of d).2] | _ => [] end.

Lemma item_rounds_bytes i : (item_rounds i <= length (item_bytes i))%nat.
Proof using.
  destruct i as [k v|db|n m|key d e]; cbn [item_rounds item_bytes]; rewrite ?length_app; cbn [length]; [lia..|].
  unfold expire_bytes. destruct (e =? 0); cbn [length]; [lia|]. rewrite length_le. lia.
Qed.

Lemma parse_item fuel i db a l c : item_ok FormatFloatG i →
  parse_loop crc (item_rounds i + fuel) fn db 0 a (MkReader (item_bytes i ++ l) c) =
  parse_loop crc fuel fn (item_db db i) 0 (foldl f a (item_entry db i)) (MkReader l (crc c (item_bytes i))).
Proof using crc_nil crc_app make_words.
  destruct i as [k v|db'|n m|key d e]; cbn [item_ok item_rounds item_bytes item_db item_entry foldl]; intros Hi.
  - cbn [Nat.add parse_loop]. rewrite <- !app_assoc, (R_bind_reads _ _ [_] opAux) by (by apply reads_byte). cbn [Z.eqb opAux opEOF opSelectDB opResizeDB Pos.eqb].
    rewrite (R_bind_reads _ _ _ k), (R_bind_reads _ _ _ v) by (apply reads_string; tauto). by rewrite !crc_app.
  - cbn [Nat.add parse_loop]. rewrite <- !app_assoc, (R_bind_reads _ _ [_] opSelectDB) by (by apply reads_byte). cbn [Z.eqb opSelectDB opEOF Pos.eqb].
    rewrite (R_bind_reads _ _ _ (db' mod 2 ^ 64)) by (apply reads_num, u64_as). rewrite crc_app. unfold max_i64 in Hi. rewrite Z.mod_small by lia.
    by rewrite wrap64_id by (unfold i64, min_i64, max_i64; lia).
  - cbn [Nat.add parse_loop]. rewrite <- !app_assoc, (R_bind_reads _ _ [_] opResizeDB) by (by apply reads_byte). cbn [Z.eqb opResizeDB opEOF opSelectDB Pos.eqb].
    rewrite (R_bind_reads _ _ _ n), (R_bind_reads _ _ _ m) by (apply reads_num; tauto). by rewrite !crc_app.
  - destruct Hi as (Hk & Hd & He). unfold expire_bytes. destruct (Z.eqb_spec e 0) as [->|Hne].
    { cbn [Nat.add app]. by apply (parse_value fuel key d db 0). }
    change (Zbyte opExpireMS :: le_bytes 8 e) with ([Zbyte opExpireMS] ++ le_bytes 8 e). rewrite <- (app_assoc _ _ l), <- (app_assoc [Zbyte opExpireMS]). cbn [Nat.add].
    remember (S fuel) as fuel'. cbn [parse_loop]. rewrite (R_bind_reads _ _ [_] opExpireMS) by (by apply reads_byte).
    cbn [Z.eqb opExpireMS opEOF opSelectDB opResizeDB opAux Pos.eqb]. rewrite (R_bind_reads _ _ _ (le_bytes 8 e)) by (apply reads_full_n; [by rewrite length_le|lia]).
    unfold u64_ok in He. rewrite of_le_bytes by (change (256 ^ Z.of_nat 8) with (2 ^ 64); lia). subst fuel'.
    rewrite parse_value by done. by rewrite !crc_app.
Qed.

Lemma entries_of_cons db i items : entries_of db (i :: items) = item_entry db i ++ entries_of (item_db db i) items.
Proof using. by destruct i. Qed.

Lemma parse_items items : Forall (item_ok FormatFloatG) items → ∀ fuel db a l c, (length (items ≫= item_bytes) <= fuel)%nat →
  ∃ fuel' db', (fuel - length (items ≫= item_bytes) <= fuel')%nat ∧
  parse_loop crc fuel fn db 0 a (MkReader ((items ≫= item_bytes) ++ l) c) =
  parse_loop crc fuel' fn db' 0 (foldl f a (entries_of db items)) (MkReader l (crc c (items ≫= item_bytes))).
Proof using crc_nil crc_app make_words.
  induction 1 as [|i items Hi Hitems IH]; intros fuel db a l c Hf; [exists fuel, db; cbn; rewrite crc_nil; split; [lia|done]|].
  rewrite bind_cons in *. rewrite length_app in *. pose proof (item_rounds_bytes i).
  destruct (IH (fuel - item_rounds i)%nat (item_db db i) (foldl f a (item_entry db i)) l (crc c (item_bytes i))) as (fuel' & db' & Hf' & E); [lia|].
  exists fuel', db'. split; [lia|]. replace fuel with (item_rounds i + (fuel - item_rounds i))%nat by lia.
  rewrite <- app_assoc, parse_item, E by done. by rewrite entries_of_cons, foldl_app, crc_app.
Qed.
End parse.

Definition header_bytes : bytes := str "REDIS0011".

Lemma writes_dump items c0 : ∃ c,
  c = crc c0 (header_bytes ++ (items ≫= item_bytes) ++ [Zbyte opEOF]) ∧
  write_dump crc FormatFloatG io_Write items (MkWriter [] c0) =
    Some (MkWriter ((header_bytes ++ (items ≫= item_bytes) ++ [Zbyte opEOF]) ++ le_bytes 8 c) c).
Proof using crc_nil crc_app sink_accepts.
  eexists. split; [done|]. unfold write_dump. rewrite app_comm_cons. unfold all. rewrite foldl_app. fold (all (WriteHeader crc io_Write :: (write_item crc FormatFloatG io_Write <$> items)) (MkWriter [] c0)).
  assert (Hw : writes (all (WriteHeader crc io_Write :: (write_item crc FormatFloatG io_Write <$> items))) (header_bytes ++ (items ≫= item_bytes))).
  { apply writes_cons; [apply writes_bytes|]. apply writes_map, Forall_forall. intros i _. apply writes_item. }
  rewrite Hw. cbn [foldl mbind option_bind written wcrc app]. unfold WriteEnd, writeByte. rewrite writes_bytes. cbn [mbind option_bind written wcrc].
  rewrite sink_accepts, <- crc_app. by rewrite <- !app_assoc.
Qed.

Lemma reads_dump {A} (f : A → Entry → A) items a c0 : Forall (item_ok FormatFloatG) items → u64_ok (crc c0 (header_bytes ++ (items ≫= item_bytes) ++ [Zbyte opEOF])) →
  Parse crc (λ a e, (f a e, true)) a (MkReader ((header_bytes ++ (items ≫= item_bytes) ++ [Zbyte opEOF]) ++ le_bytes 8 (crc c0 (header_bytes ++ (items ≫= item_bytes) ++ [Zbyte opEOF]))) c0) =
  Ret (inr (foldl f a (entries_of 0 items), MkReader [] (crc c0 (header_bytes ++ (items ≫= item_bytes) ++ [Zbyte opEOF])))).
Proof using crc_nil crc_app make_words.
  intros Hi Hc. set (c := crc c0 _) in *. unfold Parse. rewrite <- !app_assoc, (R_bind_reads _ _ header_bytes header_bytes) by (apply reads_full_n; [done|lia]).
  change (negb (bytes_eqb (take 5 header_bytes) (str "REDIS"))) with false. change (ParseInt (drop 5 header_bytes)) with (Some 11). cbv iota. change ((11 <? 1) || (Version <? 11)) with false. cbv iota beta.
  cbn [rest]. edestruct (parse_items f items Hi) as (fuel' & db' & Hf & ->); [rewrite !length_app; lia|]. rewrite !length_app in Hf. destruct fuel' as [|fuel']; [lia|].
  cbn [parse_loop]. rewrite (R_bind_reads _ _ [Zbyte opEOF] opEOF) by (by apply reads_byte). change (opEOF =? opEOF) with true. cbv iota.
  unfold mbind, R_bind, verifyCRC. cbn [rest rcrc]. rewrite length_le. cbn [Nat.ltb Nat.leb]. rewrite take_ge, drop_ge by (by rewrite length_le).
  unfold u64_ok in Hc. rewrite of_le_bytes by (change (256 ^ Z.of_nat 8) with (2 ^ 64); lia). rewrite <- !crc_app. fold c. destruct (c =? 0); [done|]. by rewrite Z.eqb_refl.
Qed.
End codec.

(** C24: A dump is read back.  With a sink that accepts, and items whose strings
    and slices are within what the runtime can allocate, the writer returns and
    the decoder, on its bytes, verifies the checksum, reaches the end, and calls
    its function on exactly the entries that were written, in their order, each
    with its database, deadline, type and value: strings in any of the integer
    forms, lists, sets, hashes, sorted sets, streams with their consumer groups.
    The checksum is any 64-bit one that can be computed in pieces. *)
Theorem rdb_round_trip {rt : Runtime} (crc : Z → bytes → Z) (FormatFloatG : Z → bytes) (io_Write : bytes → bytes → bool) {A} (f : A → Entry → A) (a : A) (items : list item) :
  (∀ c, crc c [] = c) → (∀ c b1 b2, crc c (b1 ++ b2) = crc (crc c b1) b2) → (∀ c b, u64_ok c → u64_ok (crc c b)) →
  (∀ b1 b2, io_Write b1 b2 = true) → 9 <= max_make <= max_i64 → Forall (item_ok FormatFloatG) items →
  ∃ w, write_dump crc FormatFloatG io_Write items (MkWriter [] 0) = Some w ∧
       Parse crc (λ a e, (f a e, true)) a (MkReader (written w) 0) = Ret (inr (foldl f a (entries_of 0 items), MkReader [] (wcrc w))).
Proof.
  intros Hnil Happ Hu Hio Hm Hi. destruct (writes_dump crc FormatFloatG io_Write Hnil Happ Hio items 0) as (c & -> & Hw).
  eexists. split; [exact Hw|]. cbn [written wcrc]. apply reads_dump; [done..|]. by apply Hu.
Qed.

(** ** A dump *)

Definition sum_crc (c : Z) (b : bytes) : Z := foldl (λ c x, (31 * c + byteZ x) mod 2 ^ 64) c b.
Definition ex_consumer : Consumer := MkConsumer {[MkID 5 1 := 0%nat]} 1700000000001.
Definition ex_group : Group := MkGroup (MkID 5 1) 1 {[MkID 5 1 := 0%nat]} {[str "c" := ex_consumer]} [MkPE (str "c") 1700000000000 2].
Definition ex_stream : Stream := MkStream [MkEntry (MkID 5 1) [(str "f", str "12")]] (MkID 5 1) (MkID 0 0) 1 1 ∅.
Definition ex_items : list item :=
  [IAux (str "redis-ver") (str "7.0"); ISelect 3; IResize 6 1;
   IEntry (str "a") (DString (str "-300")) 1700000000000; IEntry (str "b") (DList [str "x"; str "70000"]) 0;
   IEntry (str "c") (DSet [str "1"; str "y"]) 0; ISelect 4; IEntry (str "d") (DHash [(str "k", str "v"); (str "l", str "007")]) 0;
   IEntry (str "e") (DZSet [MkZM (str "m") 4617315517961601024]) 0;
   IEntry (str "s") (DStream ex_stream [MkGO (str "g") ex_group [(MkID 5 1, 0%nat)] [(str "c", ex_consumer, [MkID 5 1])]]) 0].

Lemma sum_crc_u64 c b : u64_ok c → u64_ok (sum_crc c b).
Proof.
  revert c. induction b as [|x b IH]; intros c Hc; [done|]. apply IH. unfold u64_ok. apply Z.mod_pos_bound. lia.
Qed.

Lemma ex_items_ok : Forall (item_ok (rt := ex_runtime) (λ _, str "5")) ex_items.
Proof.
  repeat constructor; cbn; unfold str_ok, max_i64; cbn; try lia; try done.
  all: intros Hin; repeat (apply elem_of_cons in Hin as [Hin|Hin]; [discriminate|]); by apply elem_of_nil in Hin.
Qed.

Lemma rdb_round_trip_witness : ∃ w, write_dump sum_crc (λ _, str "5") (λ _ _, true) ex_items (MkWriter [] 0) = Some w ∧
  Parse (rt := ex_runtime) sum_crc (λ a e, (a ++ [e], true)) [] (MkReader (written w) 0) =
  Ret (inr (foldl (λ a e, a ++ [e]) [] (entries_of 0 ex_items), MkReader [] (wcrc w))).
Proof.
  apply (rdb_round_trip (rt := ex_runtime) sum_crc (λ _, str "5") (λ _ _, true) (λ a e, a ++ [e]) [] ex_items).
  - reflexivity.
  - intros c b1 b2. apply foldl_app.
  - exact sum_crc_u64.
  - reflexivity.
  - cbn. unfold max_i64. lia.
  - exact ex_items_ok.
Defined.

(** ** Any input *)

(** Blobs: no access is out of range and every round moves forward. *)

Lemma slice_in blob i j : 0 <= i <= j → j <= Z.of_nat (length blob) → ∃ b, slice blob i j = Ret b ∧ Z.of_nat (length b) = j - i.
Proof.
  intros Hi Hj. unfold slice. rewrite !(proj2 (Z.ltb_ge _ _)) by lia. cbn [orb]. eexists. split; [done|]. rewrite length_take, length_drop. lia.
Qed.
Lemma at_in blob i : 0 <= i < Z.of_nat (length blob) → ∃ b, at_ blob i = Ret b ∧ 0 <= b < 256.
Proof.
  intros Hi. unfold at_. rewrite (proj2 (Z.ltb_ge _ _)) by lia. destruct (lookup_lt_is_Some_2 blob (Z.to_nat i)) as [b ->]; [lia|].
  exists (byteZ b). split; [done|apply byteZ_range].
Qed.

(** The parse of an element returns: nothing, or an encoding of at least a byte. *)
Definition moves (o : res (option (bytes * Z))) : Prop := ∃ x, o = Ret x ∧ match x with None => True | Some (_, n) => 1 <= n end.

Lemma moves_None : moves (Ret None).
Proof. by exists None. Qed.
Lemma moves_Some v n : 1 <= n → moves (Ret (Some (v, n))).
Proof. intros Hn. by exists (Some (v, n)). Qed.
Lemma moves_slice blob i j k : 0 <= i <= j → j <= Z.of_nat (length blob) → (∀ b, moves (k b)) → moves (slice blob i j ≫= k).
Proof. intros Hi Hj Hk. destruct (slice_in blob i j Hi Hj) as (b & -> & _). apply Hk. Qed.
Lemma moves_at blob i k : 0 <= i < Z.of_nat (length blob) → (∀ b, 0 <= b < 256 → moves (k b)) → moves (at_ blob i ≫= k).
Proof. intros Hi Hk. destruct (at_in blob i Hi) as (b & -> & Hb). by apply Hk. Qed.
Lemma moves_if_lt a b x y : moves x → (b <= a → moves y) → moves (if a <? b then x else y).
Proof. intros Hx Hy. destruct (Z.ltb_spec a b); auto. Qed.
Lemma moves_if (c : bool) x y : moves x → moves y → moves (if c then x else y).
Proof. by destruct c. Qed.

Lemma lor_nonneg_bytes a b : 0 <= a → 0 <= b → 0 <= Z.lor (Z.shiftl a 8) b.
Proof. intros. rewrite Z.lor_nonneg, Z.shiftl_nonneg. lia. Qed.

Lemma lp_element_moves blob p b0 : 0 <= p < Z.of_nat (length blob) → 0 <= b0 < 256 → moves (lp_element blob p b0).
Proof.
  intros Hp Hb. unfold lp_element. assert (Hland : ∀ m, 0 <= m → 0 <= Z.land b0 m) by (intros; apply Z.land_nonneg; lia).
  apply moves_if; [by apply moves_Some|]. apply moves_if.
  { specialize (Hland 63). apply moves_if_lt; [apply moves_None|]. intros ?. apply moves_slice; [lia..|]. intros b. apply moves_Some. lia. }
  apply moves_if.
  { apply moves_if_lt; [apply moves_None|]. intros ?. apply moves_at; [lia|]. intros b _. by apply moves_Some. }
  apply moves_if.
  { specialize (Hland 15). apply moves_if_lt; [apply moves_None|]. intros ?. apply moves_at; [lia|]. intros b Hb1.
    pose proof (lor_nonneg_bytes (Z.land b0 15) b). apply moves_if_lt; [apply moves_None|]. intros ?. apply moves_slice; [lia..|]. intros x. apply moves_Some. lia. }
  apply moves_if.
  { apply moves_if_lt; [apply moves_None|]. intros ?. apply moves_slice; [lia..|]. intros b. pose proof (of_le_range b). rewrite (proj2 (Z.ltb_ge (of_le b) 0)) by lia. cbn [orb].
    apply moves_if_lt; [apply moves_None|]. intros ?. apply moves_slice; [lia..|]. intros x. apply moves_Some. lia. }
  apply moves_if; [apply moves_if_lt; [apply moves_None|]; intros ?; apply moves_slice; [lia..|]; intros x; by apply moves_Some|].
  apply moves_if.
  { apply moves_if_lt; [apply moves_None|]. intros ?. do 3 (apply moves_at; [lia|]; intros ? _). by apply moves_Some. }
  do 2 (apply moves_if; [apply moves_if_lt; [apply moves_None|]; intros ?; apply moves_slice; [lia..|]; intros x; by apply moves_Some|]).
  apply moves_None.
Qed.

Lemma backlenSize_pos n : 1 <= backlenSize n.
Proof. unfold backlenSize. repeat case_match; lia. Qed.

Lemma lp_elements_total fuel blob p out : 0 <= p → Z.of_nat (length blob) - p <= Z.of_nat fuel → ∃ o, lp_elements fuel blob p out = Ret o.
Proof.
  revert p out. induction fuel as [|fuel IH]; intros p out Hp Hf; cbn [lp_elements]; destruct (Z.ltb_spec p (Z.of_nat (length blob))); eauto; [lia|].
  destruct (at_in blob p) as (b0 & -> & Hb); [lia|]. cbn [mbind res_bind]. destruct (b0 =? 255); [eauto|].
  destruct (lp_element_moves blob p b0) as (o & -> & Ho); [lia..|]. cbn [mbind res_bind]. destruct o as [[v n]|]; [|eauto].
  pose proof (backlenSize_pos n). apply IH; lia.
Qed.

Lemma parseListpack_total blob : ∃ o, parseListpack blob = Ret o.
Proof.
  unfold parseListpack. destruct (Nat.ltb_spec (length blob) 7); [eauto|]. destruct (slice_in blob 0 4) as (t & -> & _); [lia..|]. cbn [mbind res_bind].
  destruct (negb _); [eauto|]. apply lp_elements_total; lia.
Qed.

Lemma intset_members_total n blob enc p out : 0 <= p → 0 <= enc → p + Z.of_nat n * enc <= Z.of_nat (length blob) → ∃ o, intset_members n blob enc p out = Ret o.
Proof.
  revert p out. induction n as [|n IH]; intros p out Hp He Hn; cbn [intset_members]; [eauto|].
  destruct (slice_in blob p (p + enc)) as (b & -> & _); [lia|nia|]. cbn [mbind res_bind]. apply IH; [lia|lia|nia].
Qed.

(** Twelve times the blob: the slice of the members, of at least two bytes each. *)
Lemma parseIntset_total {rt : Runtime} blob : 12 * Z.of_nat (length blob) <= max_make → ∃ o, parseIntset blob = Ret o.
Proof.
  intros Hm. unfold parseIntset. destruct (Nat.ltb_spec (length blob) 8); [eauto|]. destruct (slice_in blob 0 4) as (e & -> & _); [lia..|].
  destruct (slice_in blob 4 8) as (l & -> & _); [lia..|]. cbn [mbind res_bind]. pose proof (of_le_range l). pose proof (of_le_range e).
  destruct (negb (of_le e =? 2) && negb (of_le e =? 4) && negb (of_le e =? 8)) eqn:Ee; [eauto|].
  assert (He : 2 <= of_le e) by (rewrite !andb_false_iff, !negb_false_iff, !Z.eqb_eq in Ee; lia).
  destruct (Z.ltb_spec (Z.of_nat (length blob)) (8 + of_le l * of_le e)); [eauto|]. rewrite (proj2 (Z.ltb_ge max_make _)) by nia.
  destruct (intset_members_total (Z.to_nat (of_le l)) blob (of_le e) 8 []) as [o ->]; [lia|lia|rewrite Z2Nat.id; lia|]. cbn. eauto.
Qed.

Lemma pair_induction {A} (P : list A → Prop) : P [] → (∀ a, P [a]) → (∀ a b l, P l → P (a :: b :: l)) → ∀ l, P l.
Proof.
  intros H0 H1 H2 l. enough (P l ∧ ∀ a, P (a :: l)) by tauto. induction l as [|b l [IH1 IH2]]; [by split|]. split; [apply IH2|]. intros a. by apply H2.
Qed.

(** The decoder: a read returns, and leaves [k] bytes fewer if it succeeds. *)
Section total.
Context {rt : Runtime} (crc : Z → bytes → Z).

Definition takes {A} (k : nat) (m : R A) : Prop :=
  ∀ r, match m r with OutOfFuel => False | Ret (inr (_, r')) => (length (rest r') + k <= length (rest r))%nat | _ => True end.

Lemma takes_ret {A} (a : A) : takes 0 (mret a).
Proof. intros r. cbn. lia. Qed.
Lemma takes_fail {A} e k : takes k (fail (A := A) e).
Proof. done. Qed.
Lemma takes_weaken {A} k (m : R A) : takes k m → takes 0 m.
Proof. intros Hm r. specialize (Hm r). destruct (m r) as [[?|[? ?]]| |]; [done|lia|done|done]. Qed.
Lemma takes_bind {A B} k (m : R A) (f : A → R B) : takes k m → (∀ a, takes 0 (f a)) → takes k (m ≫= f).
Proof.
  intros Hm Hf r. specialize (Hm r). unfold mbind, R_bind. destruct (m r) as [[?|[a r']]| |]; [done| |done|done].
  specialize (Hf a r'). destruct (f a r') as [[?|[b r'']]| |]; [done|lia|done|done].
Qed.
Lemma takes_bind0 {A B} (m : R A) (f : A → R B) k : takes k m → (∀ a, takes 0 (f a)) → takes 0 (m ≫= f).
Proof. intros Hm Hf. apply takes_bind; [by eapply takes_weaken|done]. Qed.
Lemma takes_if {A} k (c : bool) (x y : R A) : takes k x → takes k y → takes k (if c then x else y).
Proof. by destruct c. Qed.

Lemma takes_byte : takes 1 (readByte crc).
Proof. intros [l c]. unfold readByte. cbn. destruct l as [|b l]; cbn; [done|lia]. Qed.
Lemma takes_full n : takes 0 (readFull crc n).
Proof.
  intros [l c]. unfold readFull. cbn [rest]. destruct (_ || _); [done|]. destruct (_ <? _)%nat; [done|]. cbn. rewrite length_drop. lia.
Qed.
Lemma takes_slice size n : takes 0 (make_slice size n).
Proof. intros r. unfold make_slice. destruct (_ <? _); [done|]. cbn. lia. Qed.

Ltac takes :=
  repeat first
    [ apply takes_ret | apply takes_fail | apply takes_full | apply takes_slice
    | progress cbv beta zeta | progress intros
    | apply takes_if
    | apply takes_bind0 with (k := 1%nat); [solve [auto with takes]|]
    | apply takes_bind; [solve [auto with takes]|]
    | solve [auto with takes] | solve [eapply takes_weaken; eauto with takes] ].

Create HintDb takes.
#[local] Hint Resolve takes_byte takes_full takes_slice takes_ret takes_fail : takes.

Lemma takes_len : takes 1 (readLen crc).
Proof. unfold readLen. apply takes_bind; [apply takes_byte|]. takes. Qed.
#[local] Hint Resolve takes_len : takes.
Lemma takes_num : takes 1 (readNum crc).
Proof. unfold readNum. apply takes_bind; [apply takes_len|]. intros [n b]. takes. Qed.
#[local] Hint Resolve takes_num : takes.
Lemma takes_string : takes 1 (readString crc).
Proof. unfold readString. apply takes_bind; [apply takes_len|]. intros [n b]. takes. Qed.
#[local] Hint Resolve takes_string : takes.

Lemma takes_rounds {A} (body : A → R A) : (∀ a, takes 1 (body a)) → ∀ fuel n a r, (length (rest r) < fuel)%nat →
  match rounds fuel n body a r with OutOfFuel => False | Ret (inr (_, r')) => (length (rest r') <= length (rest r))%nat | _ => True end.
Proof.
  intros Hb. induction fuel as [|fuel IH]; intros n a r Hf; [lia|]. cbn [rounds]. destruct (n <=? 0); [by cbn|].
  unfold mbind, R_bind. specialize (Hb a r). destruct (body a r) as [[?|[a' r']]| |]; [done| |done|done].
  specialize (IH (n - 1) a' r'). destruct (rounds fuel (n - 1) body a' r') as [[?|[b r'']]| |]; [done|lia|done|]. apply IH. lia.
Qed.
Lemma takes_loop {A} (body : A → R A) n a : (∀ a, takes 1 (body a)) → takes 0 (loop n body a).
Proof.
  intros Hb r. unfold loop. pose proof (takes_rounds body Hb (S (length (rest r))) n a r ltac:(lia)) as H.
  destruct (rounds _ n body a r) as [[?|[b r'']]| |]; [done|lia|done|done].
Qed.
Lemma takes_list {A} size (item : R A) : takes 1 item → takes 1 (read_list crc size item).
Proof.
  intros Hi. unfold read_list. apply takes_bind; [apply takes_num|]. intros n. apply takes_bind; [apply takes_slice|]. intros _.
  apply takes_loop. intros l. apply takes_bind; [done|]. takes.
Qed.
#[local] Hint Resolve takes_list : takes.
Lemma takes_blob {A} (parse : bytes → res (option A)) e : (∀ b, parse b ≠ OutOfFuel) → takes 1 (read_blob crc parse e).
Proof.
  intros Hp. unfold read_blob. apply takes_bind; [apply takes_string|]. intros blob r. specialize (Hp blob). destruct (parse blob) as [[a|]| |]; cbn; [lia|done..].
Qed.

Lemma takes_id : takes 1 (read_id crc).
Proof. unfold read_id. apply takes_bind; [apply takes_num|]. takes. Qed.
Lemma takes_pair : takes 1 (read_pair crc).
Proof. unfold read_pair. apply takes_bind; [apply takes_string|]. takes. Qed.
#[local] Hint Resolve takes_id takes_pair : takes.
Lemma takes_sentry : takes 1 (read_stream_entry crc).
Proof. unfold read_stream_entry. apply takes_bind; [apply takes_id|]. takes. Qed.
Lemma takes_pending : takes 1 (read_pending crc).
Proof. unfold read_pending. apply takes_bind; [apply takes_id|]. takes. Qed.
Lemma takes_consumer : takes 1 (read_consumer crc).
Proof. unfold read_consumer. apply takes_bind; [apply takes_string|]. takes. Qed.
#[local] Hint Resolve takes_sentry takes_pending takes_consumer : takes.
Lemma takes_group : takes 1 (read_group crc).
Proof. unfold read_group. apply takes_bind; [apply takes_string|]. takes. Qed.
#[local] Hint Resolve takes_group : takes.
Lemma takes_stream : takes 1 (readStreamData crc).
Proof. unfold readStreamData. apply takes_bind; [apply takes_id|]. takes. Qed.
Lemma takes_member m : takes 0 m → takes 1 (read_member crc m).
Proof. intros Hm. unfold read_member. apply takes_bind; [apply takes_string|]. takes. Qed.
#[local] Hint Resolve takes_stream takes_member : takes.

Lemma listpack_in_fuel b : parseListpack b ≠ OutOfFuel.
Proof. by destruct (parseListpack_total b) as [o ->]. Qed.
Lemma intset_members_fuel n blob enc p out : intset_members n blob enc p out ≠ OutOfFuel.
Proof.
  revert p out. induction n as [|n IH]; intros p out; cbn [intset_members]; [done|]. unfold slice. destruct (_ || _); [done|]. apply IH.
Qed.
Lemma intset_in_fuel b : parseIntset b ≠ OutOfFuel.
Proof.
  unfold parseIntset. destruct (Nat.ltb_spec (length b) 8); [done|]. destruct (slice_in b 0 4) as (e & -> & _); [lia..|].
  destruct (slice_in b 4 8) as (l & -> & _); [lia..|]. cbn [mbind res_bind]. destruct (_ && _); [done|]. destruct (_ <? _); [done|]. destruct (_ <? _); [done|].
  pose proof (intset_members_fuel (Z.to_nat (of_le l)) b (of_le e) 8 []). by destruct (intset_members _ _ _ _ _).
Qed.
Lemma takes_listpack e : takes 1 (read_blob crc parseListpack e).
Proof. apply takes_blob, listpack_in_fuel. Qed.
Lemma takes_intset e : takes 1 (read_blob crc parseIntset e).
Proof. apply takes_blob, intset_in_fuel. Qed.
#[local] Hint Resolve takes_listpack takes_intset : takes.
Lemma pairs_total (l : list bytes) : Z.rem (Z.of_nat (length l)) 2 = 0 → ∃ ps, pairs_of_list l = Ret ps.
Proof.
  rewrite Z.rem_mod_nonneg by lia. induction l as [|a|a b l IH] using pair_induction; intros Hl; [by exists []|done|].
  cbn [length] in Hl. destruct IH as [ps E]; [|exists ((a, b) :: ps); cbn [pairs_of_list]; by rewrite E].
  rewrite <- Hl. replace (Z.of_nat (S (S (length l)))) with (Z.of_nat (length l) + 1 * 2) by lia. by rewrite Z.mod_add.
Qed.
Lemma takes_even : takes 1 (even_elements crc).
Proof.
  unfold even_elements. apply takes_bind; [apply takes_listpack|]. intros l. destruct (negb _) eqn:E; [takes|].
  apply negb_false_iff, Z.eqb_eq in E. destruct (pairs_total l E) as [ps Hp]. intros r. rewrite Hp. cbn. lia.
Qed.
Lemma takes_score b : takes 0 (parse_score b).
Proof. unfold parse_score. destruct (ParseFloat b); takes. Qed.
#[local] Hint Resolve takes_even takes_score : takes.
Lemma takes_members l : takes 0 (members_of_pairs l).
Proof. induction l as [|p l IH]; cbn [members_of_pairs]; takes. Qed.
Lemma takes_quicklist : takes 1 (readQuicklist2 crc).
Proof.
  unfold readQuicklist2. apply takes_bind; [apply takes_num|]. intros n. apply takes_loop. intros out. apply takes_bind; [apply takes_num|]. intros c.
  apply takes_bind0 with (k := 1%nat); [apply takes_string|]. intros blob. apply takes_if; [takes|]. apply takes_if; [|takes].
  intros r. destruct (parseListpack_total blob) as [[o|] ->]; cbn; [lia|done].
Qed.
#[local] Hint Resolve takes_members takes_quicklist : takes.
Lemma takes_scored : takes 0 (b ← readString crc; parse_score b).
Proof. takes. Qed.
Lemma takes_double : takes 0 (readDouble crc).
Proof. unfold readDouble. takes. Qed.
Lemma takes_vector : takes 1 (readStringVector crc).
Proof. apply takes_list, takes_string. Qed.
Lemma takes_hash n : takes 0 (loop n (λ h, p ← read_pair crc; mret (<[p.1 := p.2]> h)) (∅ : gmap bytes bytes)).
Proof. apply takes_loop. intros h. apply takes_bind; [apply takes_pair|]. takes. Qed.
#[local] Hint Resolve takes_scored takes_double takes_vector takes_hash : takes.

Lemma takes_value t : takes 0 (read_value crc t).
Proof. unfold read_value. takes. Qed.
#[local] Hint Resolve takes_value : takes.
Lemma takes_object t db e : takes 1 (readObject crc t db e).
Proof. unfold readObject. apply takes_bind; [apply takes_string|]. intros key. apply takes_bind; [apply takes_value|]. intros [? ?]. takes. Qed.
Lemma takes_verify : takes 0 verifyCRC.
Proof.
  intros r. unfold verifyCRC. destruct (_ <? _)%nat; [done|]. destruct (_ =? 0); [cbn; rewrite length_drop; lia|]. destruct (negb _); [done|]. cbn. rewrite length_drop. lia.
Qed.
#[local] Hint Resolve takes_object takes_verify : takes.

(** A computation with a bound on the bytes it is given. *)
Definition within {A} (n : nat) (m : R A) : Prop := ∀ r, (length (rest r) < n)%nat → m r ≠ OutOfFuel.

Lemma within_bind {A B} k n (m : R A) (f : A → R B) : takes k m → (∀ a, within (n - k) (f a)) → within n (m ≫= f).
Proof.
  intros Hm Hf r Hr. specialize (Hm r). unfold mbind, R_bind. destruct (m r) as [[?|[a r']]| |]; [done| |done|done]. apply Hf. lia.
Qed.
Lemma within_bind0 {A B} k n (m : R A) (f : A → R B) : takes k m → (∀ a, within n (f a)) → within n (m ≫= f).
Proof. intros Hm Hf. apply (within_bind 0); [by eapply takes_weaken|]. intros a. by rewrite Nat.sub_0_r. Qed.
Lemma within_takes {A} k n (m : R A) : takes k m → within n m.
Proof. intros Hm r _. specialize (Hm r). by destruct (m r). Qed.
Lemma within_if {A} n (c : bool) (x y : R A) : within n x → within n y → within n (if c then x else y).
Proof. by destruct c. Qed.

Lemma parse_loop_within {A} (fn : A → Entry → A * bool) fuel db e a : within fuel (parse_loop crc fuel fn db e a).
Proof.
  revert db e a. induction fuel as [|fuel IH]; intros db e a; [intros r Hr; lia|]. cbn [parse_loop]. apply (within_bind 1); [apply takes_byte|].
  intros op. rewrite Nat.sub_1_r. cbn [Nat.pred].
  apply within_if; [apply (within_takes 0); apply takes_bind; [apply takes_verify|]; intros; apply takes_ret|].
  apply within_if; [eapply within_bind0; [apply takes_num|]; intros; apply IH|].
  apply within_if; [eapply within_bind0; [apply takes_num|]; intros; eapply within_bind0; [apply takes_num|]; intros; apply IH|].
  apply within_if; [eapply within_bind0; [apply takes_string|]; intros; eapply within_bind0; [apply takes_string|]; intros; apply IH|].
  do 2 (apply within_if; [eapply within_bind0; [apply takes_full|]; intros; apply IH|]).
  apply within_if; [eapply within_bind0; [apply takes_num|]; intros; apply IH|].
  apply within_if; [eapply within_bind0; [apply takes_byte|]; intros; apply IH|].
  eapply within_bind0; [apply takes_object|]. intros en. destruct (fn a en) as [a' go]. apply within_if; [apply IH|]. eapply within_takes, takes_ret.
Qed.

Lemma Parse_total {A} (fn : A → Entry → A * bool) a r : Parse crc fn a r ≠ OutOfFuel.
Proof.
  unfold Parse. apply (within_bind 0 (S (length (rest r)))); [apply takes_full| |lia]. intros h. rewrite Nat.sub_0_r.
  apply within_if; [done|]. destruct (ParseInt _) as [v|]; [|done]. apply within_if; [done|]. intros r' _. apply parse_loop_within. lia.
Qed.
End total.

(** ** Panics of the decoder *)

Lemma of_be_nonneg b : 0 <= of_be b.
Proof. unfold of_be. apply of_le_range. Qed.
Lemma digits_length fuel n acc : (length (digits fuel n acc) <= fuel + length acc)%nat.
Proof. revert n acc. induction fuel as [|fuel IH]; intros n acc; cbn [digits]; [done|]. case_match; [cbn; lia|]. etrans; [apply IH|]. cbn. lia. Qed.
Lemma Itoa_length n : (length (Itoa n) <= 21)%nat.
Proof. unfold Itoa. pose proof (digits_length 20 n []). pose proof (digits_length 20 (- n) []). case_match; rewrite ?length_app; cbn in *; lia. Qed.

(** A length that a file announces and that can be allocated as anything: the
    elements of the largest slice have 88 bytes. *)
Definition allocatable {rt : Runtime} (n : Z) : Prop := n < 2 ^ 63 ∧ 88 * n <= max_make.

(** Every length that can be read anywhere in the file is one. *)
Definition lengths_ok {rt : Runtime} (crc : Z → bytes → Z) (file : bytes) : bool :=
  forallb (λ i, match readLen crc (MkReader (drop i file) 0) with
                | Ret (inr ((n, _), _)) => (n <? 2 ^ 63) && (88 * n <=? max_make)
                | _ => true
                end) (seq 0 (length file)).

Section calm.
Context {rt : Runtime} (crc : Z → bytes → Z) (file : bytes).
Hypothesis Hlens : lengths_ok crc file = true.
(** Headers, numbers and integers as text are no longer than this. *)
Hypothesis Hsmall : 256 <= max_make.

(** A read that does not panic on the rest of the file; what it returns has [Q]. *)
Definition calm {A} (Q : A → Prop) (m : R A) : Prop :=
  ∀ r i, rest r = drop i file →
    match m r with Panic => False | Ret (inr (a, r')) => Q a ∧ ∃ i', rest r' = drop i' file | _ => True end.
Definition any {A} (_ : A) : Prop := True.

Lemma calm_ret {A} (Q : A → Prop) a : Q a → calm Q (mret a).
Proof. intros H r i Hr. cbn. eauto. Qed.
Lemma calm_fail {A} (Q : A → Prop) e : calm Q (fail e).
Proof. done. Qed.
Lemma calm_bind {A B} (Q : A → Prop) (P : B → Prop) (m : R A) (f : A → R B) : calm Q m → (∀ a, Q a → calm P (f a)) → calm P (m ≫= f).
Proof.
  intros Hm Hf r i Hr. specialize (Hm r i Hr). unfold mbind, R_bind. destruct (m r) as [[?|[a r']]| |]; [done| |done|done].
  destruct Hm as [Ha [i' Hr']]. by apply (Hf a Ha r' i').
Qed.
Lemma calm_if {A} (Q : A → Prop) (c : bool) x y : calm Q x → calm Q y → calm Q (if c then x else y).
Proof. by destruct c. Qed.
Lemma calm_weaken {A} (Q Q' : A → Prop) m : calm Q m → (∀ a, Q a → Q' a) → calm Q' m.
Proof. intros Hm HQ r i Hr. specialize (Hm r i Hr). destruct (m r) as [[?|[a r']]| |]; [done| |done|done]. naive_solver. Qed.

Lemma calm_byte : calm (λ b, 0 <= b < 256) (readByte crc).
Proof.
  intros [l c] i Hr. unfold readByte. cbn in *. destruct l as [|b l]; cbn; [done|]. split; [apply byteZ_range|]. exists (i + 1)%nat.
  by rewrite <- drop_drop, <- Hr.
Qed.
Lemma calm_full n : 0 <= n <= max_make → calm (λ b, Z.of_nat (length b) = n) (readFull crc n).
Proof.
  intros Hn [l c] i Hr. unfold readFull. cbn [rest] in *. rewrite (proj2 (Z.ltb_ge n 0)), (proj2 (Z.ltb_ge max_make n)) by lia. cbn [orb].
  destruct (Nat.ltb_spec (length l) (Z.to_nat n)); [done|]. split; [rewrite length_take; lia|]. exists (i + Z.to_nat n)%nat. cbn. by rewrite Hr, drop_drop.
Qed.
Lemma calm_slice size n : 0 <= size <= 88 → 0 <= n → allocatable n → calm any (make_slice size n).
Proof.
  intros Hs Hn [_ Ha] r i Hr. unfold make_slice. rewrite (proj2 (Z.ltb_ge _ _)) by nia. split; [done|by exists i].
Qed.

(** The numbers of a file are allocatable, whatever the checksum is. *)
Lemma readLen_crc l c c' n sp r : readLen crc (MkReader l c) = Ret (inr ((n, sp), r)) →
  ∃ r', readLen crc (MkReader l c') = Ret (inr ((n, sp), r')).
Proof.
  unfold readLen, readByte, readFull, mbind, R_bind, mret, R_ret. cbn [rest rcrc]. destruct l as [|b l]; [done|]. cbn [rest rcrc].
  repeat (case_match; try done); intros; simplify_eq; eauto; cbn [rest rcrc] in *; simplify_eq; first [by eauto|congruence].
Qed.
Lemma calm_len : calm (λ p, 0 <= p.1 ∧ allocatable p.1) (readLen crc).
Proof.
  assert (H : calm (λ p, 0 <= p.1) (readLen crc)).
  { unfold readLen. eapply calm_bind; [apply calm_byte|]. intros b Hb. assert (Hl : ∀ m, 0 <= m → 0 <= Z.land b m) by (intros; apply Z.land_nonneg; lia).
    repeat first [apply calm_if | apply calm_fail | apply calm_ret; cbn; first [by apply Hl|apply of_be_nonneg]
      | eapply calm_bind; [first [apply calm_byte|apply calm_full; lia]|]; intros ? ?; cbv beta in * ].
    apply calm_ret. cbn. apply Z.lor_nonneg. split; [apply Z.shiftl_nonneg; by apply Hl|lia]. }
  intros r i Hr. specialize (H r i Hr). destruct (readLen crc r) as [[?|[[n sp] r']]| |] eqn:E; [done| |done|done].
  destruct H as [Hn Hi]. split; [|done]. split; [done|]. unfold lengths_ok in Hlens. rewrite forallb_forall in Hlens.
  destruct r as [l c]. cbn in Hr. destruct (readLen_crc l c 0 n sp r' E) as [r0 E0].
  assert (Hlt : (i < length file)%nat). { destruct (Nat.lt_ge_cases i (length file)); [done|]. rewrite drop_ge in Hr by done. by subst l. }
  specialize (Hlens i ltac:(apply in_seq; lia)). rewrite <- Hr, E0 in Hlens. apply andb_true_iff in Hlens as [H1%Z.ltb_lt H2%Z.leb_le]. done.
Qed.
Lemma calm_num : calm (λ n, 0 <= n ∧ allocatable n) (readNum crc).
Proof. unfold readNum. eapply calm_bind; [apply calm_len|]. intros [n sp] H. by apply calm_ret. Qed.

(** A string, and a slice of twelve times its length, can be allocated. *)
Definition short (b : bytes) : Prop := 12 * Z.of_nat (length b) <= max_make.
Lemma short_Itoa n : short (Itoa n).
Proof. unfold short. pose proof (Itoa_length n). lia. Qed.
Lemma calm_string : calm short (readString crc).
Proof.
  unfold readString. eapply calm_bind; [apply calm_len|]. intros [n sp] [Hn Ha]. cbn [fst] in *. destruct Ha as [H63 H88]. apply calm_if.
  - rewrite wrap64_id by (unfold i64, min_i64, max_i64; lia). eapply calm_weaken; [apply calm_full; lia|]. unfold short. cbv beta. lia.
  - repeat first [apply calm_if | apply calm_fail | apply calm_ret, short_Itoa | eapply calm_bind; [apply calm_full; lia|]; intros ? _ ].
Qed.

Lemma calm_rounds {A} (Q : A → Prop) (body : A → R A) fuel n a : (∀ a, Q a → calm Q (body a)) → Q a → calm Q (rounds fuel n body a).
Proof.
  intros Hb. revert n a. induction fuel as [|fuel IH]; intros n a Ha; cbn [rounds]; (apply calm_if; [by apply calm_ret|]); [done|].
  eapply calm_bind; [by apply Hb|]. intros a' Ha'. by apply IH.
Qed.
Lemma calm_loop {A} (body : A → R A) n a : (∀ a, calm any (body a)) → calm any (loop n body a).
Proof. intros Hb r i Hr. by apply (calm_rounds any body (S (length (rest r))) n a (λ a _, Hb a) I r i). Qed.
Lemma calm_list {A} size (item : R A) : 0 <= size <= 88 → calm any item → calm any (read_list crc size item).
Proof.
  intros Hs Hi. unfold read_list. eapply calm_bind; [apply calm_num|]. intros n [Hn Ha]. eapply calm_bind; [by apply calm_slice|]. intros _ _.
  apply calm_loop. intros l. eapply calm_bind; [exact Hi|]. intros x _. by apply calm_ret.
Qed.
Lemma calm_blob {A} (parse : bytes → res (option A)) e : (∀ b, short b → ∃ o, parse b = Ret o) → calm any (read_blob crc parse e).
Proof.
  intros Hp. unfold read_blob. eapply calm_bind; [apply calm_string|]. intros blob Hb r i Hr. destruct (Hp blob Hb) as [[a|] ->]; [|done].
  split; [done|by exists i].
Qed.

Ltac calm :=
  repeat first
    [ apply calm_ret; exact I | apply calm_fail | progress cbv beta zeta
    | match goal with |- ∀ _, _ → calm _ _ => intros ? ? | |- calm _ (let '(_, _) := ?x in _) => destruct x end
    | apply calm_if | solve [auto with calm lia] | solve [eapply calm_weaken; [solve [auto with calm]|done]]
    | eapply calm_bind; [solve [auto with calm lia]|] ].
Create HintDb calm.
#[local] Hint Resolve calm_byte calm_num calm_string calm_list calm_loop : calm.
#[local] Hint Extern 2 (calm _ (readFull _ _)) => apply calm_full; lia : calm.
#[local] Hint Extern 2 (_ <= _ <= _) => lia : calm.

Lemma calm_any_string : calm any (readString crc).
Proof. eapply calm_weaken; [apply calm_string|done]. Qed.
#[local] Hint Resolve calm_any_string : calm.
Lemma calm_id : calm any (read_id crc).
Proof. unfold read_id. calm. Qed.
Lemma calm_pair : calm any (read_pair crc).
Proof. unfold read_pair. calm. Qed.
#[local] Hint Resolve calm_id calm_pair : calm.
Lemma calm_sentry : calm any (read_stream_entry crc).
Proof. unfold read_stream_entry. calm. Qed.
Lemma calm_pending : calm any (read_pending crc).
Proof. unfold read_pending. calm. Qed.
Lemma calm_consumer : calm any (read_consumer crc).
Proof. unfold read_consumer. calm. Qed.
#[local] Hint Resolve calm_sentry calm_pending calm_consumer : calm.
Lemma calm_group : calm any (read_group crc).
Proof. unfold read_group. calm. Qed.
#[local] Hint Resolve calm_group : calm.
Lemma calm_stream : calm any (readStreamData crc).
Proof. unfold readStreamData. calm. Qed.
Lemma calm_score b : calm any (parse_score b).
Proof. unfold parse_score. destruct (ParseFloat b); calm. Qed.
#[local] Hint Resolve calm_stream calm_score : calm.
Lemma calm_member m : calm any m → calm any (read_member crc m).
Proof. intros Hm. unfold read_member. eapply calm_bind; [apply calm_string|]. intros ? _. eapply calm_bind; [exact Hm|]. calm. Qed.
Lemma calm_listpack e : calm any (read_blob crc parseListpack e).
Proof. apply calm_blob. intros b _. apply parseListpack_total. Qed.
Lemma calm_intset e : calm any (read_blob crc parseIntset e).
Proof. apply calm_blob. intros b. apply parseIntset_total. Qed.
#[local] Hint Resolve calm_member calm_listpack calm_intset : calm.
Lemma calm_even : calm any (even_elements crc).
Proof.
  unfold even_elements. eapply calm_bind; [apply calm_listpack|]. intros l _. destruct (negb _) eqn:E; [calm|].
  apply negb_false_iff, Z.eqb_eq in E. destruct (pairs_total l E) as [ps Hp]. intros r i Hr. rewrite Hp. cbn. split; [done|by exists i].
Qed.
Lemma calm_members l : calm any (members_of_pairs l).
Proof.
  induction l as [|p l IH]; cbn [members_of_pairs]; [by apply calm_ret|]. eapply calm_bind; [apply calm_score|]. intros s _.
  eapply calm_bind; [exact IH|]. calm.
Qed.
Lemma calm_quicklist : calm any (readQuicklist2 crc).
Proof.
  unfold readQuicklist2. eapply calm_bind; [apply calm_num|]. intros n _. apply calm_loop. intros out. eapply calm_bind; [apply calm_num|]. intros c _.
  eapply calm_bind; [apply calm_string|]. intros blob _. apply calm_if; [calm|]. apply calm_if; [|calm].
  intros r i Hr. destruct (parseListpack_total blob) as [[o|] ->]; [|done]. split; [done|by exists i].
Qed.
Lemma calm_scored : calm any (b ← readString crc; parse_score b).
Proof. calm. Qed.
Lemma calm_double : calm any (readDouble crc).
Proof. unfold readDouble. calm. Qed.
Lemma calm_hash n : calm any (loop n (λ h, p ← read_pair crc; mret (<[p.1 := p.2]> h)) (∅ : gmap bytes bytes)).
Proof. apply calm_loop. intros h. calm. Qed.
#[local] Hint Resolve calm_even calm_members calm_quicklist calm_scored calm_double calm_hash : calm.
Lemma calm_vector : calm any (readStringVector crc).
Proof. apply calm_list; [lia|apply calm_any_string]. Qed.
#[local] Hint Resolve calm_vector : calm.

Lemma calm_value t : calm any (read_value crc t).
Proof. unfold read_value. calm. Qed.
#[local] Hint Resolve calm_value : calm.
Lemma calm_object t db e : calm any (readObject crc t db e).
Proof. unfold readObject. calm. Qed.
Lemma calm_verify : calm any verifyCRC.
Proof.
  intros r i Hr. unfold verifyCRC. destruct (_ <? _)%nat; [done|]. assert (∃ i', drop 8 (rest r) = drop i' file) by (exists (i + 8)%nat; by rewrite Hr, drop_drop).
  destruct (_ =? 0); [by split|]. destruct (negb _); [done|by split].
Qed.
#[local] Hint Resolve calm_object calm_verify : calm.

Lemma parse_loop_calm {A} (fn : A → Entry → A * bool) fuel db e a : calm any (parse_loop crc fuel fn db e a).
Proof.
  revert db e a. induction fuel as [|fuel IH]; intros db e a; [done|]. cbn [parse_loop]. eapply calm_bind; [apply calm_byte|]. intros op _. calm.
Qed.
Lemma Parse_calm {A} (fn : A → Entry → A * bool) a : Parse crc fn a (MkReader file 0) ≠ Panic.
Proof.
  assert (H : calm any (Parse crc fn a)).
  { unfold Parse. eapply calm_bind; [apply calm_full; lia|]. intros h _. apply calm_if; [calm|]. destruct (ParseInt _); [|calm]. apply calm_if; [calm|].
    intros r i. apply parse_loop_calm. }
  specialize (H (MkReader file 0) 0%nat eq_refl). by destruct (Parse _ _ _ _).
Qed.
End calm.

(** C25: The decoder comes to an end on every file, with any function applied to
    the entries.  It does not panic, but returns a result or an error, when every
    length that can be read anywhere in the file is below 2^63 and within what
    [make] allocates as a slice of the largest element, 88 bytes: only such a
    length makes it panic.  The parsers of the blobs inside never access a byte
    out of range: a listpack is read to its end or refused whatever its bytes
    are, and so is an intset whose members can be allocated. *)
Theorem rdb_decoder_is_total {rt : Runtime} (crc : Z → bytes → Z) {A} (fn : A → Entry → A * bool) (a : A) (file blob : bytes) :
  256 <= max_make →
  Parse crc fn a (MkReader file 0) ≠ OutOfFuel ∧
  (lengths_ok crc file = true → ∃ o, Parse crc fn a (MkReader file 0) = Ret o) ∧
  (∃ o, parseListpack blob = Ret o) ∧
  (12 * Z.of_nat (length blob) <= max_make → ∃ o, parseIntset blob = Ret o).
Proof.
  intros Hm. pose proof (Parse_total crc fn a (MkReader file 0)) as Ht. split_and!; [done| |apply parseListpack_total|apply parseIntset_total].
  intros Hl. pose proof (Parse_calm crc file Hl Hm fn a) as Hp. destruct (Parse _ _ _ _) as [o| |]; [by exists o|done..].
Qed.

(** A file with a hash whose listpack has three elements. *)
Definition odd_file : bytes :=
  str "REDIS0011" ++ [Zbyte typeHashListpack] ++ raw_bytes (str "k") ++
  raw_bytes (le_bytes 4 13 ++ le_bytes 2 3 ++ [Zbyte 1; Zbyte 1; Zbyte 2; Zbyte 1; Zbyte 3; Zbyte 1; Zbyte 255]).

Lemma rdb_decoder_is_total_witness :
  (∃ o, Parse (rt := ex_runtime) sum_crc (λ a e, (a ++ [e], true)) [] (MkReader odd_file 0) = Ret o) ∧
  ∃ o, parseIntset (rt := ex_runtime) (le_bytes 4 2 ++ le_bytes 4 1 ++ le_bytes 2 7) = Ret o.
Proof.
  destruct (rdb_decoder_is_total (rt := ex_runtime) sum_crc (λ a e, (a ++ [e], true)) [] odd_file (le_bytes 4 2 ++ le_bytes 4 1 ++ le_bytes 2 7))
    as (_ & H1 & _ & H2); [cbn; lia|]. split; [apply H1; vm_compute; reflexivity|apply H2; cbn; lia].
Defined.

(** Its odd number of elements is an error. *)
Lemma odd_listpack_is_refused : Parse (rt := ex_runtime) sum_crc (λ a e, (a ++ [e], true)) [] (MkReader odd_file 0) = Ret (inl (ErrOdd 3)).
Proof. vm_compute. reflexivity. Qed.

(** ** What the decoder accepts and refuses *)

(** A string of more bytes than a slice can have, announced in the eight-byte
    form: the decoder panics and does not return an error. *)
Lemma rdb_length_panics : Parse (rt := ex_runtime) sum_crc (λ a e, (a ++ [e], true)) []
  (MkReader (str "REDIS0011" ++ [Zbyte opAux; Zbyte len64] ++ be_bytes 8 (2 ^ 63)) 0) = Panic.
Proof. vm_compute. reflexivity. Qed.

(** A trailer of eight zero bytes is accepted whatever the contents are. *)
Lemma rdb_zero_checksum : Parse (rt := ex_runtime) sum_crc (λ a e, (a ++ [e], true)) []
  (MkReader (str "REDIS0011" ++ [Zbyte typeString] ++ raw_bytes (str "k") ++ raw_bytes (str "v") ++ [Zbyte opEOF] ++ le_bytes 8 0) 0) =
  Ret (inr ([MkEnt 0 (str "k") typeString 0 (StringVal (str "v"))], MkReader [] 2410860358788905467)).
Proof. vm_compute. reflexivity. Qed.
